(* ===== verification/_CoqProject ===== *)
-Q . S2P
Prelude.v
Json.v
Arrow.v
Filters.v
FilterSpec.v
FilterSound.v
FilterDoc.v
KernelModel.v
FilterTheorems.v
FilterExact.v
Text.v
Identity.v
Splits.v
ScanShape.v
Settings.v
Runtime.v
RuntimeExamples.v
ResultFlight.v
ScanCache.v
Interact.v
Exchange.v
Buffered.v
Scalar.v
ScalarTheorems.v
CacheKeys.v
CacheKeyTheorems.v
AttachSql.v
AttachSqlTheorems.v
Connections.v
ConnectionTheorems.v
Registry.v
RegistryTheorems.v
SqlTree.v
Macros.v
SqlRewrite.v
MacroTheorems.v
SqlQualify.v
Protocol3.v
AttachFlow.v
AttachFlowTheorems.v
OrderPushdown.v
OrderTheorems.v
RangePartition.v
ScanStats.v
ScanStatsTheorems.v
ScanPlanning.v
ScanPlanningTheorems.v
CallArgs.v
ArrayModel.v
TableCalls.v
TableCallTheorems.v
Aggregate.v
AggregateTheorems.v
AggregateProtocol.v
ScalarArgs.v
ScalarArgTheorems.v
TableStream.v
TableStreamTheorems.v
CatalogFilters.v
CatalogSources.v
CatalogSourceTheorems.v
CatalogPlans.v
CatalogPlanTheorems.v
CatalogScan.v
CatalogScanTheorems.v
CatalogDiscovery.v
CatalogDiscoveryTheorems.v
ScanProfile.v
ScanRun.v
ScanRunTheorems.v
ScanPublish.v
ScanStream.v
ScanStreamTheorems.v
DynamicFilters.v
ScanNode.v
TableBind.v
TableBindTheorems.v
Sampling.v
SqlFront.v
Diagnostics.v
