(* ===== verification/Prelude.v ===== *)
(** * The vgi-datafusion adapter: verification library

    The adapter (src/src/*.rs) lets DataFusion query VGI workers: processes or
    servers that answer table, scalar and aggregate functions with Arrow
    batches. It pushes filters, limits and orders to the worker, divides scans
    into splits, caches whatever the worker allows, and coalesces equal work of
    concurrent queries. This library models that logic and proves it correct:
    what is pushed down never loses rows, what is cached or shared is never
    visible in answers, and nobody waits forever for a result in flight.

    ** Parts of the program and where they are modelled

    - Filter pushdown, filters.rs. [Filters] has the builder and its two
      front ends: [serialize] over logical expressions and
      [serialize_physical_for_remote] (with [.._delta_for_remote]) over physical
      ones, and [merge]. [Arrow] has the scalar values and expressions, [Json]
      the JSON trees the wire documents are. [FilterSpec] gives the documents a
      meaning (which rows a worker keeps) and states soundness, [FilterSound]
      and [FilterDoc] prove it, [KernelModel] is a concrete Arrow kernel for the
      witnesses, [FilterTheorems] collects the properties: the pushed filter
      keeps every row the query keeps; comparisons are exact; a delta replaces
      its predecessor; [merge] is conjunction; failed branches roll back (with one
      exception, [equality_list_leaks_column]).
      [FilterExact] has the claims a provider makes for filters: a filter claimed
      Exact is sent, and rejects what the query rejects, so that applying the other
      filters again is enough.
    - Split planning, lib.rs ([pack_splits], [split_row_count], ..): [Splits].
      Every split lands in exactly one partition; longest-first packing is within
      the classical bound of the average load; range plans become one partition
      per range in order; fan-out respects the caps; row totals are exact only
      when all parts are.
    - Shape of results, lib.rs ([conform], [with_declared_schema],
      [split_ordering]): [ScanShape]. Columns are matched by name, cached batches
      replay as live ones, claimed sort orders hold; with counterexamples where
      renamed columns break this.
    - Session settings, settings.rs: [Settings]. SET and RESET refine a map of
      last writes; the encoding sent to workers, branch by branch.
    - The session runtime, runtime.rs: [Runtime], with runs in
      [RuntimeExamples]. The event history is a bounded window, the plan cache
      refines a map with expiry, the settings identity is exact.
    - Results in flight, runtime.rs ([ResultFlight*]): [ResultFlight], a step
      relation over registry, producers and waiters; one producer per key, an
      outcome never changes, a follower wakes, a finished key is free again.
    - Scan capture, lib.rs ([ScanCacheCapture]): [ScanCache], operations on one
      capture with a log of its external calls; only complete and agreeing
      results are published, a dropped capture settles, a closed one is inert.
    - Exchange calls, table_input.rs ([run_exchange]): [Exchange]. Buffered
      calls, table_input.rs ([run_buffered]): [Buffered]. Scalar calls, scalar.rs
      ([invoke_async_with_args] from its input batch on, [run_scalar_exchange],
      [deduplicate_scalar_input]): [Scalar] and [ScalarTheorems].
      Each is a program of calls in the sense of [Interact]. Two theorems each:
      transparency (with an honest worker and cache the answer is the worker's
      function of the input, and only such answers are stored) and a protocol
      property in any environment (no waiting while owing a result, all claims
      settled, for buffered calls also the order of phases and the consumer's
      permission).
    - Cache identities and keys, filters.rs, lib.rs, table_input.rs, scalar.rs:
      [Identity] has the self-delimiting encodings, [CacheKeys] the keys of
      scans, plans, exchanges, buffered inputs and per-value capabilities,
      [CacheKeyTheorems] their exactness: equal keys mean equal requests, or an
      explicit SHA-256 collision where the key is a digest.
    - Planning a scan, lib.rs ([plan_splits], [scan], [VgiScanExec::new]):
      [ScanPlanning] with [ScanPlanningTheorems], over [RangePartition]
      ([split_range_partitioning]) and [ScanStats] with [ScanStatsTheorems]
      ([statistics_for_split], [statistics_for_catalog_table], ..). The plan cache
      is invisible, a claimed range partitioning and exact statistics are true of
      the rows, and a node's claims fit together; with counterexamples for
      renamed split columns.
    - Top-N hints, order_pushdown.rs: [OrderPushdown], with a meaning of logical
      plans as sets of outcomes; [OrderTheorems]: hints add no outcome.
    - ATTACH, session.rs: [AttachSql] (the hand-written parser) with
      [AttachSqlTheorems], [Connections] (VgiConnection of lib.rs and its options)
      with [ConnectionTheorems], [Registry] (publication of functions under flat
      names) with [RegistryTheorems], [Protocol3] (schema paths), [AttachFlow]
      (attach, companions, detach) with [AttachFlowTheorems]: attaching ends,
      mounts companions under free aliases only, and never replaces a function of
      another catalog, the engine or the user, wherever in the life of a session;
      DETACH of all it mounted takes it back; the two spellings of a target agree;
      connection policy is enforced.
    - Statements, session.rs: [SqlTree] (syntax trees and fuel), [Macros]
      (families, binding, expansion), [SqlRewrite] ([rewrite_vgi_sql]) with
      [MacroTheorems]: rewriting ends and leaves no macro call; [SqlQualify]
      ([qualify_catalog_sql]): names resolve lexically.
    - Calls in FROM, table_function.rs, table_input.rs, table_input_planner.rs:
      [CallArgs] (bind arguments and their conversion), [TableCalls] with
      [TableCallTheorems]: named arguments survive planning, no argument depends
      on a row, the two planning paths of a table argument agree.
    - Aggregates, aggregate.rs: [Aggregate]; [AggregateTheorems]: partial and
      final accumulation is one accumulation, sliding windows hold their frame,
      arities; [AggregateProtocol]: the window thread's exchanges with the worker,
      their order and their answers.
    - Arguments of scalar calls, scalar.rs ([select_specs], [split_arguments],
      [invoke_async_with_args] up to its input batch, ..): [ScalarArgs] with
      [ScalarArgTheorems]: the best overload is chosen, and what was bound while
      planning is what is sent; with a counterexample for several overloads.
    - Streaming table inputs, table_input_stream.rs and the providers of
      table_input.rs: [TableStream], a step relation over the child's task, the
      worker's thread, two bounded channels and the consumer, with
      [TableStreamTheorems]: the stream is the sequential exchange cut at the
      limit, it ends, and nobody waits for anybody forever.
    - The catalog provider, catalog.rs: [CatalogDiscovery] (schemas, lookup of
      tables, constraints), [CatalogFilters] (required filters),
      [CatalogSources] (what a scan branch names), [CatalogPlans] (plans over
      branches) and [CatalogScan] (tables that refer to each other), with the
      theorems in [CatalogDiscoveryTheorems], [CatalogSourceTheorems],
      [CatalogPlanTheorems] and [CatalogScanTheorems]: a name keeps its answer, a
      generated scan has the rows the declaration says, the cycle search is
      exact, a scan ends.
    - Binding and scanning a table, lib.rs ([VgiTableProvider]): [TableBind]
      (secrets, entry points, the provider; pruning, filters, the
      node) and [TableBindTheorems]: secrets are asked for once, a scan repeats the
      bind it was planned with, what depends on secrets is not cached. [Sampling]
      has sampling.rs: a sample reaches its one scan.
    - The scan node and its run, lib.rs ([VgiScanExec]): [ScanNode] (planning's
      changes to it, observation, durable lookups, worker logs, EXPLAIN),
      [DynamicFilters] (snapshots of runtime filters), [ScanStream] (the
      first poll: replay, stale service, coalescing, or a job), [ScanRun] (the
      job of a partition), [ScanPublish] (what all partitions store),
      [ScanProfile] (profiles of workers, profiling.rs); theorems there, in
      [ScanRunTheorems] and in [ScanStreamTheorems]: a job delivers its share of
      the answer, all partitions read one source, the stream ends, only complete
      answers are stored, a snapshot is one moment's.
    - The SQL front end, session.rs ([sql]): [SqlFront]:
      private tables of time travel are taken back, the runtime follows the
      session's settings, versions are taken out and nothing else.
    - Diagnostics tables, diagnostics.rs: [Diagnostics], every table function from
      the runtime to the columns of its batch: Arrow accepts each of them, and
      the branches of a table are fetched from its worker once.
    - [Text] has the string operations of Rust's standard library the code
      uses, [ArrayModel] concrete arrays for the examples; this file the shared
      vocabulary: [result] and [DFError], collecting iterators, machine integers,
      stable sorting by a key.

    ** How the parts interact

    ATTACH ([AttachSql], [AttachFlow]) makes a connection, asks the worker for
    its catalog, and mounts it in the state of the session: [Registry], macros,
    default schemas, [Runtime] metadata. A statement is rewritten ([SqlRewrite])
    with those macros and names; calls of table functions become binds
    ([TableCalls]), scalar calls choose constants and columns ([ScalarArgs]) and
    go through the exchange of [Scalar], aggregates collect and exchange once
    ([Aggregate]). A scan builds its filter with [Filters], its key with
    [CacheKeys], plans ([ScanPlanning]) and packs splits with [Splits], reads
    through [ScanCache] and returns batches through [ScanShape]. The three kinds
    of cached calls take their keys from [CacheKeys] and claim flights from
    [ResultFlight]. [ScanCache] finishes its flight through [ResultFlight];
    [ScanStream] starts the jobs of [ScanRun], whose batches [ScanPublish] follows
    into [ScanCache]. [SqlFront] is where a statement enters; a table it names is
    found by [CatalogDiscovery], scanned by [CatalogScan], and so bound by
    [TableBind] and scanned there too, which composes [FilterExact],
    [ScanPlanning] and [CacheKeys]; [Sampling] changes the provider before.
    [Runtime] owns the settings of [Settings] and gives their identity to the
    keys. The call programs see the registry of flights, the cache and the worker
    only through their calls: a contract (in [Interact]: what answers may be
    relied on, what calls are guaranteed, what is observed) is the interface at
    which the client is proved. Arrays reach [Aggregate], [TableCalls] and
    [ScalarArgs] through the classes [ArrayOps] and [ArrayLaws], a worker's
    declarations through [SpecOps].

    ** Modelling choices

    Integers are Z with their wrapping, checking or saturation written out
    ([i64_wrap], [checked_add], [u64_saturating_add], [usize_try_from]); usize is
    64 bits. Errors are values of [result]; a panic that the model keeps visible
    is [Panicked]. Mutexes make an operation of [Runtime] atomic, so it is a
    function on the state; what happens between critical sections is a step of
    [ResultFlight] or a call of [Interact]. A Rust destructor is an explicit
    operation ([drop_capture], [drop_units], [DropProducer], [drop_accumulator])
    run on every way out. The window thread of [Aggregate] talks over rendezvous
    channels, so it is a state between two commands. Hash maps are gmaps where
    order does not matter. Code outside src/ is a parameter: Arrow's cast,
    comparison and concatenation kernels, IPC serialization, SHA-256, serde_json,
    sqlparser's printer, the vgi_client cache, declarations and transport, and
    DataFusion's constant evaluator. Hypotheses about it state what its
    documentation promises (a kernel's comparison laws, that concatenation keeps
    order, that a cast has the type it was asked for, the length of a digest, that
    merged statistics are exact only where all are) and
    are instantiated in the witnesses.

    ** Fuel and bounds

    Recursion is structural except in these places. [Text.strip] has the length of
    the string as fuel (each step removes a byte). Expansion of macros needs at
    most one level per macro: scalar expansion runs with the number of macros and
    one, rewriting with twice that ([MacroTheorems.rewrite_ends] proves this
    enough). Companions are attached to eight levels; [AttachFlowTheorems]
    proves that some fuel suffices for every worker. The search for a cycle of
    catalog tables and their scan nest no deeper than there are tables
    ([CatalogScanTheorems]). The loop of a scan reads one batch per unit of
    fuel, and [ScanRunTheorems.scan_job_ends] proves that more fuel than the worker
    sends batches suffices. A snapshot of runtime filters tries again until its
    writers pause, and settles once they do ([DynamicFilters.snapshot_atomic]).
    Programs of calls are finite
    trees, so they end in every environment ([Interact.interp_runs]); reading one
    finalize stream to its end is one call. Theorems about scalar calls assume at
    most [2^32] rows, the range of Arrow's gather indices; limits are assumed
    within i64, as SQL literals are.

    ** Not modelled

    Transports, pooling and authentication are calls into vgi_client, which is not
    part of the repository; connections are modelled up to those calls. A future
    that is dropped between two calls (asynchronous cancellation) is modelled
    where the code has a guard for it (captures, flights, buffered commits, the
    streams' channels) and not elsewhere. Formatting for Debug and EXPLAIN is
    modelled only where a property needs it. Tests are not, nor the harness that
    replays DuckDB's test corpus (bin/corpus.rs), which no query runs through.
*)

From stdpp Require Export base tactics gmap strings pretty list fin_maps sorting.
From Stdlib Require Export ZArith Lia.
From Stdlib Require Strings.String.

#[export] Set Warnings "-register-all,-clear-no-such-hyp".

(** ** Errors: DataFusion's [Result] *)

(** The variants of [DataFusionError] the adapter builds; the payload is the
    message. [Panicked] is a Rust panic (an index out of bounds, a failed
    [expect]) at a place where the model keeps it visible. *)
Inductive DFError :=
  | Plan (msg : string)
  | Execution (msg : string)
  | NotImplemented (msg : string)
  | Configuration (msg : string)
  | External (msg : string)
  | Internal (msg : string)
  | ArrowError (msg : string)
  | Panicked (msg : string).

Inductive result (A : Type) :=
  | Ok (a : A)
  | Err (e : DFError).
Arguments Ok {A} a.
Arguments Err {A} e.

#[export] Instance DFError_eq_dec : EqDecision DFError.
Proof. solve_decision. Defined.
#[export] Instance result_eq_dec {A} `{EqDecision A} : EqDecision (result A).
Proof. solve_decision. Defined.

#[export] Instance result_ret : MRet result := @Ok.
#[export] Instance result_bind : MBind result :=
  fun A B f m => match m with Ok a => f a | Err e => Err e end.
#[export] Instance result_fmap : FMap result :=
  fun A B f m => match m with Ok a => Ok (f a) | Err e => Err e end.

(** [option.ok_or(..)] and [result.ok()]. *)
Definition ok_or {A} (e : DFError) (o : option A) : result A :=
  match o with Some a => Ok a | None => Err e end.
Definition result_ok {A} (r : result A) : option A :=
  match r with Ok a => Some a | Err _ => None end.
Definition is_ok {A} (r : result A) : bool :=
  match r with Ok _ => true | Err _ => false end.

(** [collect::<Result<Vec<_>, _>>()] and [collect::<Option<Vec<_>>>()] after
    [iter().map(f)]: the first failure wins. *)
Section Collect.
Context {A B : Type}.

Definition result_collect (f : A -> result B) : list A -> result (list B) :=
  fix go l :=
    match l with
    | [] => Ok []
    | x :: xs => match f x with
                 | Err e => Err e
                 | Ok y => match go xs with Err e => Err e | Ok ys => Ok (y :: ys) end
                 end
    end.

Definition option_collect (f : A -> option B) : list A -> option (list B) :=
  fix go l :=
    match l with
    | [] => Some []
    | x :: xs => match f x with
                 | None => None
                 | Some y => match go xs with None => None | Some ys => Some (y :: ys) end
                 end
    end.

Lemma option_collect_Some (f : A -> option B) l ys :
  option_collect f l = Some ys <-> Forall2 (fun x y => f x = Some y) l ys.
Proof.
  revert ys; induction l as [|x l IH]; intros ys; simpl.
  - split; [intros [= <-]; constructor | inversion 1; done].
  - split.
    + destruct (f x) eqn:Hf; simpl; [|done].
      destruct (option_collect f l) eqn:Hl; simpl; [|done].
      intros [= <-]. constructor; [done|]. by apply IH.
    + inversion 1 as [|? y ? ys' Hf Hl]; subst. rewrite Hf; simpl.
      by rewrite (proj2 (IH ys') Hl).
Qed.

Lemma result_collect_Ok (f : A -> result B) l ys :
  result_collect f l = Ok ys <-> Forall2 (fun x y => f x = Ok y) l ys.
Proof.
  revert ys; induction l as [|x l IH]; intros ys; simpl.
  - split; [intros [= <-]; constructor | inversion 1; done].
  - split.
    + destruct (f x) eqn:Hf; simpl; [|done].
      destruct (result_collect f l) eqn:Hl; simpl; [|done].
      intros [= <-]. constructor; [done|]. by apply IH.
    + inversion 1 as [|? y ? ys' Hf Hl]; subst. rewrite Hf; simpl.
      by rewrite (proj2 (IH ys') Hl).
Qed.

Lemma result_collect_Err (f : A -> result B) l e :
  result_collect f l = Err e -> exists x, x ∈ l /\ f x = Err e.
Proof.
  induction l as [|x l IH]; simpl; [done|]. destruct (f x) as [y|e'] eqn:Hx.
  - destruct (result_collect f l); [done|]. intros [= ->].
    destruct IH as (z & ? & ?); [done|]. exists z. by split; [right|].
  - intros [= ->]. exists x. by split; [left|].
Qed.

Lemma result_collect_ext (f g : A -> result B) l :
  (forall x, x ∈ l -> f x = g x) -> result_collect f l = result_collect g l.
Proof.
  induction l as [|x l IH]; intros H; simpl; [done|]. rewrite (H x) by left.
  rewrite IH; [done|]. intros y Hy. apply H. by right.
Qed.
End Collect.

(** [Option::is_some] *)
Definition is_some {A} (o : option A) : bool := match o with Some _ => true | None => false end.

(** ** Vectors *)

(** [Vec::contains], [Iterator::position], [Iterator::any/all] are
    [existsb]/[forallb] and: *)
Definition vec_contains {A} `{EqDecision A} (x : A) (l : list A) : bool :=
  bool_decide (x ∈ l).
Lemma vec_contains_spec {A} `{EqDecision A} (x : A) l : vec_contains x l = true <-> x ∈ l.
Proof. apply bool_decide_eq_true. Qed.

Fixpoint position {A} (p : A -> bool) (l : list A) : option nat :=
  match l with
  | [] => None
  | x :: xs => if p x then Some 0%nat else S <$> position p xs
  end.

(** [if !v.contains(&x) { v.push(x) }] *)
Definition push_new {A} `{EqDecision A} (x : A) (l : list A) : list A :=
  if vec_contains x l then l else l ++ [x].

Section Vectors.
Context {A : Type}.

Lemma position_Some (p : A -> bool) l i :
  position p l = Some i ->
  exists x, l !! i = Some x /\ p x = true.
Proof.
  revert i; induction l as [|y l IH]; intros i; simpl; [done|].
  destruct (p y) eqn:Hp; [intros [= <-]; eauto|].
  destruct (position p l) as [j|] eqn:Hj; simpl; [|done].
  intros [= <-]. by apply IH.
Qed.

Context `{!EqDecision A}.

Lemma elem_of_push_new (x y : A) l : y ∈ push_new x l <-> y = x \/ y ∈ l.
Proof.
  unfold push_new, vec_contains. case_bool_decide as Hx.
  - split; [by right|]. intros [->|?]; done.
  - rewrite elem_of_app, list_elem_of_singleton. tauto.
Qed.

Lemma push_new_NoDup (x : A) l : NoDup l -> NoDup (push_new x l).
Proof.
  intros Hl. unfold push_new, vec_contains. case_bool_decide; [done|].
  apply NoDup_app; repeat split; [done| |apply NoDup_singleton].
  intros y Hy ->%list_elem_of_singleton. done.
Qed.

Lemma push_new_prefix (x : A) l : l `prefix_of` push_new x l.
Proof.
  unfold push_new, vec_contains. case_bool_decide; [done|]. by exists [x].
Qed.
End Vectors.

(** ** Machine integers *)

#[local] Open Scope Z_scope.

Definition u64_modulus : Z := 2 ^ 64.
Definition i64_max : Z := 2 ^ 63 - 1.

(** [index + offset as u64] (the release build's wrapping addition). *)
Definition u64_add (a b : Z) : Z := (a + b) `mod` u64_modulus.

Lemma u64_add_small a b : 0 <= a -> 0 <= b -> a + b < u64_modulus -> u64_add a b = a + b.
Proof. intros. unfold u64_add. apply Z.mod_small. lia. Qed.

Definition usize_max : Z := 2 ^ 64 - 1.
(** Two's-complement [i64] arithmetic (release build). *)
Definition i64_wrap (z : Z) : Z := (z + 2 ^ 63) `mod` 2 ^ 64 - 2 ^ 63.

Lemma i64_wrap_small z : - 2 ^ 63 <= z <= i64_max -> i64_wrap z = z.
Proof. unfold i64_wrap, i64_max. intros. rewrite Z.mod_small; lia. Qed.

(** [usize::try_from(i64).ok()] on a 64-bit target, as a [nat]. *)
Definition usize_try_from (z : Z) : option nat := if 0 <=? z then Some (Z.to_nat z) else None.

(** [usize::checked_add] and [usize::saturating_add]. *)
Definition checked_add (a b : Z) : option Z := if a + b <=? usize_max then Some (a + b) else None.
Definition saturating_add (a b : Z) : Z := Z.min (a + b) usize_max.

(** ** Sorting and selection *)

(** [slice::sort_by_key(|x| Reverse(key(x)))]: stable, descending. *)
Section SortDesc.
Context {A : Type} (key : A -> Z).

Fixpoint insert_desc (x : A) (l : list A) : list A :=
  match l with
  | [] => [x]
  | y :: ys => if key y <=? key x then x :: y :: ys else y :: insert_desc x ys
  end.
Definition sort_desc (l : list A) : list A := foldr insert_desc [] l.

Lemma insert_desc_perm x l : Permutation (insert_desc x l) (x :: l).
Proof.
  induction l as [|y l IH]; simpl; [done|]. destruct (key y <=? key x)%Z; [done|].
  rewrite IH. apply Permutation_swap.
Qed.

Lemma sort_desc_perm l : Permutation (sort_desc l) l.
Proof. induction l as [|x l IH]; simpl; [done|]. by rewrite insert_desc_perm, IH. Qed.
End SortDesc.

(** [iter().enumerate().min_by_key(|(_, w)| **w)]: the first minimum. *)
Fixpoint argmin (l : list Z) : option (nat * Z) :=
  match l with
  | [] => None
  | x :: xs =>
      match argmin xs with
      | None => Some (0%nat, x)
      | Some (i, m) => if x <=? m then Some (0%nat, x) else Some (S i, m)
      end
  end.

Lemma argmin_spec l i m :
  argmin l = Some (i, m) -> l !! i = Some m /\ Forall (fun x => m <= x) l.
Proof.
  revert i m; induction l as [|x l IH]; intros i m; simpl; [done|].
  destruct (argmin l) as [[j m']|] eqn:Hl.
  - destruct (IH _ _ eq_refl) as [Hj Hall].
    destruct (Z.leb_spec x m'); intros [= <- <-].
    + split; [done|]. constructor; [lia|]. eapply Forall_impl; [exact Hall|]. simpl; lia.
    + split; [done|]. constructor; [lia|done].
  - intros [= <- <-]. destruct l; [|by simpl in Hl; destruct (argmin l) as [[]|]; [destruct (_ <=? _)|]].
    split; [done|]. by repeat constructor.
Qed.

Lemma argmin_is_Some l : l <> [] -> is_Some (argmin l).
Proof.
  destruct l as [|x l]; [done|]. intros _. simpl. destruct (argmin l) as [[]|]; [destruct (_ <=? _)|]; eauto.
Qed.
