(* ===== verification/Json.v ===== *)
(** * JSON values

    [serde_json::Value], as far as the filter document uses it. An object is
    its list of members; [serde_json] keeps one member per key, so [get] finds
    the only one. A number is either an integer or, for anything else, the text
    [serde_json] prints for it. *)

From S2P Require Import Prelude.

Inductive json :=
  | JNull
  | JBool (b : bool)
  | JNum (z : Z)
  | JFloat (repr : string)
  | JStr (s : string)
  | JArr (l : list json)
  | JObj (members : list (string * json)).

(** [Value::get] on an object. *)
Fixpoint obj_get (k : string) (ms : list (string * json)) : option json :=
  match ms with
  | [] => None
  | (k', v) :: rest => if String.eqb k k' then Some v else obj_get k rest
  end.

Definition get (k : string) (j : json) : option json :=
  match j with JObj ms => obj_get k ms | _ => None end.

(** [object.get_mut(k)] followed by an in-place update. *)
Fixpoint obj_alter (k : string) (f : json -> json) (ms : list (string * json))
    : list (string * json) :=
  match ms with
  | [] => []
  | (k', v) :: rest =>
      if String.eqb k k' then (k', f v) :: rest else (k', v) :: obj_alter k f rest
  end.

Definition as_str (j : json) : option string :=
  match j with JStr s => Some s | _ => None end.
(** [Value::as_u64]: integers outside the [u64] range do not qualify. *)
Definition as_u64 (j : json) : option Z :=
  match j with
  | JNum z => if ((0 <=? z) && (z <? u64_modulus))%Z then Some z else None
  | _ => None
  end.
Definition as_array (j : json) : option (list json) :=
  match j with JArr l => Some l | _ => None end.

(** Induction through arrays and objects. *)
Lemma json_ind_nested (P : json -> Prop) :
  P JNull -> (forall b, P (JBool b)) -> (forall z, P (JNum z)) ->
  (forall r, P (JFloat r)) -> (forall s, P (JStr s)) ->
  (forall l, Forall P l -> P (JArr l)) ->
  (forall ms, Forall (fun m => P m.2) ms -> P (JObj ms)) ->
  forall j, P j.
Proof.
  intros Hn Hb Hz Hf Hs Ha Ho. fix IH 1. intros [|b|z|r|s|l|ms];
    [done|apply Hb|apply Hz|apply Hf|apply Hs|apply Ha|apply Ho].
  - induction l as [|j l IHl]; constructor; [apply IH|exact IHl].
  - induction ms as [|[k v] ms IHms]; constructor; [apply IH|exact IHms].
Qed.
