(* ===== verification/Arrow.v ===== *)
(** * Arrow and DataFusion data

    The parts of Arrow's type language, of DataFusion's scalar values and of
    its logical and physical expression trees the adapter pattern-matches on.
    Only data is defined here: every kernel (casting, comparison, array
    construction, IPC) is a parameter of the definitions that use it. *)

From S2P Require Import Prelude Json.

Inductive TimeUnit := Second | Millisecond | Microsecond | Nanosecond.
Inductive IntervalUnit := YearMonth | DayTime | MonthDayNano.

Inductive DataType :=
  | Null
  | Boolean
  | Int8 | Int16 | Int32 | Int64
  | UInt8 | UInt16 | UInt32 | UInt64
  | Float16 | Float32 | Float64
  | Timestamp (unit : TimeUnit) (tz : option string)
  | Date32 | Date64
  | Time32 (unit : TimeUnit)
  | Time64 (unit : TimeUnit)
  | Duration (unit : TimeUnit)
  | Interval (unit : IntervalUnit)
  | Binary | FixedSizeBinary (width : Z) | LargeBinary | BinaryView
  | Utf8 | LargeUtf8 | Utf8View
  | List (item : Field) | ListView (item : Field)
  | FixedSizeList (item : Field) (n : Z)
  | LargeList (item : Field) | LargeListView (item : Field)
  | Struct (fields : list Field)
  | Union (fields : list (Z * Field)) (dense : bool)
  | Dictionary (key value : DataType)
  | Decimal32 (precision scale : Z)
  | Decimal64 (precision scale : Z)
  | Decimal128 (precision scale : Z)
  | Decimal256 (precision scale : Z)
  | Map (entries : Field) (sorted : bool)
  | RunEndEncoded (run_ends values : Field)
with Field :=
  | mkField (name : string) (ty : DataType) (nullable : bool)
      (metadata : list (string * string)).

Definition field_name (f : Field) : string := let 'mkField n _ _ _ := f in n.
Definition field_type (f : Field) : DataType := let 'mkField _ t _ _ := f in t.
Definition field_nullable (f : Field) : bool := let 'mkField _ _ b _ := f in b.
Definition field_metadata (f : Field) : list (string * string) :=
  let 'mkField _ _ _ m := f in m.

#[export] Instance TimeUnit_eq_dec : EqDecision TimeUnit.
Proof. solve_decision. Defined.
#[export] Instance IntervalUnit_eq_dec : EqDecision IntervalUnit.
Proof. solve_decision. Defined.

(** Structural equality ([PartialEq for DataType]), executable. *)
Fixpoint DataType_eq (a b : DataType) {struct a} : {a = b} + {a <> b}
with Field_eq (f g : Field) {struct f} : {f = g} + {f <> g}.
Proof.
  - decide equality;
      first [ apply Field_eq | apply DataType_eq | apply Z.eq_dec | apply Bool.bool_dec
            | apply TimeUnit_eq_dec | apply IntervalUnit_eq_dec
            | exact (decide (_ = _))
            | exact (List.list_eq_dec Field_eq _ _)
            | refine (List.list_eq_dec _ _ _); intros [x f] [y g];
              destruct (Z.eq_dec x y); [destruct (Field_eq f g); [left|right]|right]; congruence ].
  - decide equality;
      first [ apply DataType_eq | apply Bool.bool_dec | exact (decide (_ = _))
            | exact (list_eq_dec _ _) ].
Defined.

#[export] Instance DataType_eq_dec : EqDecision DataType := DataType_eq.
#[export] Instance Field_eq_dec : EqDecision Field := Field_eq.

Example DataType_eq_test :
  bool_decide (Struct [mkField "a" Int8 true []] = Struct [mkField "a" Int8 true []]) = true
  /\ bool_decide (Struct [mkField "a" Int8 true []] = Struct [mkField "a" Int16 true []]) = false.
Proof. split; vm_compute; reflexivity. Qed.

(** ** Schemas *)

Abbreviation Schema := (list Field) (only parsing).

(** [Schema::index_of] and [Schema::field_with_name] (both find the first
    field of that name). *)
Definition index_of (schema : Schema) (name : string) : option nat :=
  position (fun f => String.eqb (field_name f) name) schema.
Definition field_with_name (schema : Schema) (name : string) : option Field :=
  index_of schema name ≫= (fun i => schema !! i).

Lemma index_of_Some schema name i :
  index_of schema name = Some i ->
  exists f, schema !! i = Some f /\ field_name f = name.
Proof.
  intros (f & Hf & Hn)%position_Some. exists f. split; [done|].
  by apply String.eqb_eq.
Qed.

Lemma index_of_lt schema name i : index_of schema name = Some i -> (i < length schema)%nat.
Proof. intros (f & Hf & _)%index_of_Some. by eapply lookup_lt_Some. Qed.

(** ** Scalar values *)

(** What a non-null primitive scalar carries: integers, decimals and temporal
    values by their integer representation, floats by their bits. *)
Inductive Payload :=
  | PBool (b : bool)
  | PInt (z : Z)
  | PFloat (bits : Z)
  | PString (s : string)
  | PBytes (s : string)
  | POpaque (id : Z).

(** [ScalarValue]: a primitive of some type, [None] for a typed NULL, or a
    struct scalar, which DataFusion holds as a [StructArray] ([None] rows are
    null). *)
Inductive ScalarValue :=
  | SVPrim (ty : DataType) (v : option Payload)
  | SVStruct (fields : list Field) (rows : list (option (list ScalarValue))).

Definition data_type (v : ScalarValue) : DataType :=
  match v with SVPrim ty _ => ty | SVStruct fs _ => Struct fs end.

(** [ScalarValue::is_null]. *)
Definition is_null (v : ScalarValue) : bool :=
  match v with
  | SVPrim _ None => true
  | SVPrim _ (Some _) => false
  | SVStruct _ rows => forallb (fun r => match r with None => true | Some _ => false end) rows
  end.

(** ** Expression trees *)

Inductive Operator :=
  | OpEq | OpNotEq | OpLt | OpLtEq | OpGt | OpGtEq
  | OpAnd | OpOr | OpOther (id : Z).

#[export] Instance Operator_eq_dec : EqDecision Operator.
Proof. solve_decision. Defined.

(** [datafusion::logical_expr::Expr], the variants the adapter looks into. *)
Inductive Expr :=
  | Column (relation : option string) (name : string)
  | Literal (v : ScalarValue)
  | BinaryExpr (left : Expr) (op : Operator) (right : Expr)
  | Not (e : Expr)
  | IsNull (e : Expr)
  | IsNotNull (e : Expr)
  | InList (e : Expr) (items : list Expr) (negated : bool)
  | Cast (e : Expr) (ty : DataType)
  | Alias (e : Expr) (name : string)
  | ScalarFunction (name : string) (args : list Expr)
  | OtherExpr (id : Z).

(** [Arc<dyn PhysicalExpr>], by the concrete types it is downcast to. *)
Inductive PhysicalExpr :=
  | PhysicalColumn (name : string) (index : nat)
  | PhysicalLiteral (v : ScalarValue)
  | PhysicalBinary (left : PhysicalExpr) (op : Operator) (right : PhysicalExpr)
  | IsNullExpr (e : PhysicalExpr)
  | IsNotNullExpr (e : PhysicalExpr)
  | InListExpr (e : PhysicalExpr) (items : list PhysicalExpr) (negated : bool)
  | CastExpr (e : PhysicalExpr) (ty : DataType)
  | ScalarFunctionExpr (name : string) (args : list PhysicalExpr)
  | OtherPhysical (id : Z).

(** ** Arrays and record batches *)

(** Column 0 of a filter document is a string array; [Text] stands for the
    serialized JSON it holds, which the adapter never inspects. *)
Inductive ArrayRef (Text : Type) :=
  | StringArray (rows : list Text)
  | TypedArray (ty : DataType) (rows : list ScalarValue).
Arguments StringArray {Text} rows.
Arguments TypedArray {Text} ty rows.

Definition array_type {Text} (a : ArrayRef Text) : DataType :=
  match a with StringArray _ => Utf8 | TypedArray ty _ => ty end.
Definition array_len {Text} (a : ArrayRef Text) : nat :=
  match a with StringArray l => length l | TypedArray _ l => length l end.
Definition array_values {Text} (a : ArrayRef Text) : list ScalarValue :=
  match a with StringArray _ => [] | TypedArray _ l => l end.

Record RecordBatch (Text : Type) := mkBatch {
  batch_fields : list Field;
  batch_metadata : list (string * string);
  batch_columns : list (ArrayRef Text)
}.
Arguments mkBatch {Text} batch_fields batch_metadata batch_columns.
Arguments batch_fields {Text} _.
Arguments batch_metadata {Text} _.
Arguments batch_columns {Text} _.

Definition num_columns {Text} (b : RecordBatch Text) : nat := length (batch_columns b).

(** ** The kernels the adapter calls

    [Text] and [Bytes] are the serialized forms of a JSON document and of an
    IPC stream. *)
Class ArrowKernel (Text Bytes : Type) := {
  (** [ScalarValue::cast_to] *)
  cast_to : ScalarValue -> DataType -> result ScalarValue;
  (** [ScalarValue::iter_to_array] and [ScalarValue::to_array_of_size(1)] *)
  iter_to_array : list ScalarValue -> result (ArrayRef Text);
  to_array_of_size_1 : ScalarValue -> result (ArrayRef Text);
  (** [RecordBatch::try_new] *)
  try_new : list Field -> list (string * string) -> list (ArrayRef Text) ->
            result (RecordBatch Text);
  (** [StreamWriter] over one batch, [StreamReader] for the first batch *)
  ipc_write : RecordBatch Text -> result Bytes;
  ipc_read : Bytes -> result (RecordBatch Text);
  (** [serde_json] *)
  json_to_string : json -> Text;
  json_from_str : Text -> result json
}.

(** A batch [RecordBatch::try_new] documents as valid. *)
Definition batch_valid {Text} (fields : list Field) (cols : list (ArrayRef Text)) : Prop :=
  Forall2 (fun f c => field_type f = array_type c) fields cols /\
  forall c1 c2, c1 ∈ cols -> c2 ∈ cols -> array_len c1 = array_len c2.

(** What the documentation of these kernels promises. *)
Class ArrowLaws (Text Bytes : Type) `{!ArrowKernel Text Bytes} := {
  (** casting to the type a value already has is the identity *)
  cast_to_same : forall v, cast_to v (data_type v) = Ok v;
  iter_to_array_values : forall vs a,
    iter_to_array vs = Ok a -> exists ty, a = TypedArray ty vs;
  to_array_values : forall v a,
    to_array_of_size_1 v = Ok a -> exists ty, a = TypedArray ty [v];
  try_new_valid : forall fs meta cols,
    batch_valid fs cols -> try_new fs meta cols = Ok (mkBatch fs meta cols);
  ipc_roundtrip : forall b bytes, ipc_write b = Ok bytes -> ipc_read bytes = Ok b;
  json_roundtrip : forall j, json_from_str (json_to_string j) = Ok j
}.
