(* ===== verification/Filters.v ===== *)
(** * Filter pushdown: the translation (src/src/filters.rs)

    DataFusion predicates become a [vgi.filters.v2] document. A [Builder]
    accumulates the literals, the referenced bind-schema columns and the side
    join-key batches while it walks a logical ([build]) or physical
    ([build_physical]) expression; [serialize], [serialize_physical_for_remote]
    and [serialize_physical_delta_for_remote] wrap the resulting specs into a
    document, and [merge] conjoins two documents. *)

From S2P Require Import Prelude Json Arrow.

#[local] Open Scope Z_scope.

(** ** Literals *)

(** [supported_constant_type], with [supported_dictionary_value_type] inlined
    at the dictionary case. *)
Fixpoint supported_constant_type (t : DataType) : bool :=
  match t with
  | Boolean | Float16 | Float32 | Float64
  | Decimal32 _ _ | Decimal64 _ _ | Decimal128 _ _ | Decimal256 _ _
  | Int8 | Int16 | Int32 | Int64 | UInt8 | UInt16 | UInt32 | UInt64
  | Utf8 | Utf8View | LargeUtf8
  | Binary | BinaryView | FixedSizeBinary _ | LargeBinary
  | Date32 | Date64 | Time32 _ | Time64 _
  | Timestamp _ _ | Interval _ | Duration _ => true
  | Dictionary key value =>
      match key with
      | Int8 | Int16 | Int32 | Int64 | UInt8 | UInt16 | UInt32 | UInt64 =>
          match value with
          | Dictionary _ _ => false
          | _ => supported_constant_type value
          end
      | _ => false
      end
  | _ => false
  end.

Definition constant_from_scalar (v : ScalarValue) : option ScalarValue :=
  if is_null v || negb (supported_constant_type (data_type v)) then None else Some v.

(** ** The builder *)

Record Builder (Bytes : Type) := mkBuilder {
  schema : Schema;
  remote_schema : Schema;
  constants : list ScalarValue;
  referenced_columns : list Z;
  join_keys : list Bytes
}.
Arguments mkBuilder {Bytes} schema remote_schema constants referenced_columns join_keys.
Arguments schema {Bytes} _.
Arguments remote_schema {Bytes} _.
Arguments constants {Bytes} _.
Arguments referenced_columns {Bytes} _.
Arguments join_keys {Bytes} _.

(** A method taking [&mut self] and returning an [Option]; a [?] that fires
    keeps the mutations made before it. *)
Definition BM (Bytes A : Type) : Type := Builder Bytes -> option A * Builder Bytes.

Definition ret {Bytes A} (a : A) : BM Bytes A := fun b => (Some a, b).
Definition lift {Bytes A} (o : option A) : BM Bytes A := fun b => (o, b).
Definition bind {Bytes A B} (m : BM Bytes A) (k : A -> BM Bytes B) : BM Bytes B :=
  fun b => match m b with
           | (Some a, b') => k a b'
           | (None, b') => (None, b')
           end.
(** The callee's [Option] as a value: no [?]. *)
Definition attempt {Bytes A} (m : BM Bytes A) : BM Bytes (option A) :=
  fun b => let '(o, b') := m b in (Some o, b').
Definition gets {Bytes A} (f : Builder Bytes -> A) : BM Bytes A := fun b => (Some (f b), b).
Definition modify {Bytes} (f : Builder Bytes -> Builder Bytes) : BM Bytes unit :=
  fun b => (Some tt, f b).

Declare Scope builder_scope.
Delimit Scope builder_scope with builder.
Notation "'let?' x ':=' m 'in' k" := (bind m (fun y => match y with x => k end))
  (at level 10, x pattern at level 200, m at level 100, k at level 200) : builder_scope.
#[local] Open Scope builder_scope.

Definition new_builder {Bytes} (schema remote_schema : Schema) : Builder Bytes :=
  mkBuilder schema remote_schema [] [] [].

Definition set_constants {Bytes} (cs : list ScalarValue) (b : Builder Bytes) : Builder Bytes :=
  mkBuilder (schema b) (remote_schema b) cs (referenced_columns b) (join_keys b).
Definition set_referenced {Bytes} (rs : list Z) (b : Builder Bytes) : Builder Bytes :=
  mkBuilder (schema b) (remote_schema b) (constants b) rs (join_keys b).
Definition set_join_keys {Bytes} (ks : list Bytes) (b : Builder Bytes) : Builder Bytes :=
  mkBuilder (schema b) (remote_schema b) (constants b) (referenced_columns b) ks.

Definition add_constant {Bytes} (c : ScalarValue) : BM Bytes nat := fun b =>
  let b' := set_constants (constants b ++ [c]) b in
  (Some (length (constants b') - 1)%nat, b').

Definition checkpoint {Bytes} (b : Builder Bytes) : nat * nat * nat :=
  (length (constants b), length (referenced_columns b), length (join_keys b)).

Definition rollback {Bytes} (c : nat * nat * nat) (b : Builder Bytes) : Builder Bytes :=
  let '(n0, n1, n2) := c in
  mkBuilder (schema b) (remote_schema b)
    (take n0 (constants b)) (take n1 (referenced_columns b)) (take n2 (join_keys b)).

(** [remote_column]: the name and bind-schema index of a DataFusion column; it
    is recorded in [referenced_columns] on the way through. *)
Definition remote_column {Bytes} (name : string) : BM Bytes (string * Z) := fun b =>
  match index_of (schema b) name with
  | None => (None, b)
  | Some i =>
      let idx := if (Z.of_nat i <=? i64_max)%Z then Z.of_nat i else 0 in
      match remote_schema b !! Z.to_nat idx with
      | None => (None, b)
      | Some f =>
          (Some (field_name f, idx), set_referenced (push_new idx (referenced_columns b)) b)
      end
  end.

(** ** Wire nodes *)

Definition column_ref (name : string) (index : Z) : json :=
  JObj [("node", JStr "column_ref"); ("column_index", JNum index); ("column_name", JStr name)].

Definition is_null_node (name : string) (index : Z) (negated : bool) : json :=
  JObj [("node", JStr "is_null"); ("expression", column_ref name index);
        ("negated", JBool negated)].

Definition comparison_node (token name : string) (index : Z) (value_ref : nat) : json :=
  JObj [("node", JStr "comparison"); ("op", JStr token); ("left", column_ref name index);
        ("right", JObj [("node", JStr "literal"); ("value_ref", JNum (Z.of_nat value_ref))])].

Definition in_node (name : string) (index : Z) (batch_index : nat) : json :=
  JObj [("node", JStr "in"); ("expression", column_ref name index);
        ("set", JObj [("kind", JStr "external"); ("batch_index", JNum (Z.of_nat batch_index));
                      ("column_index", JNum 0); ("column_name", JStr name)]);
        ("negated", JBool false)].

(** [conjunction]: an [and]/[or] node over translated children. *)
Definition conjunction (kind : string) (left right : json) : json :=
  JObj [("node", JStr kind); ("children", JArr [left; right])].

(** [contains_join_keys]: an external set anywhere below. *)
Fixpoint contains_join_keys (j : json) : bool :=
  match j with
  | JObj ms =>
      bool_decide ((obj_get "kind" ms ≫= as_str) = Some "external")
      || existsb (fun m => contains_join_keys m.2) ms
  | JArr l => existsb contains_join_keys l
  | _ => false
  end.

Definition op_token (op : Operator) : option string :=
  match op with
  | OpEq => Some "eq" | OpNotEq => Some "ne" | OpLt => Some "lt"
  | OpLtEq => Some "le" | OpGt => Some "gt" | OpGtEq => Some "ge"
  | _ => None
  end.

(** [flip]: mirror a comparison. *)
Definition flip (op : Operator) : option Operator :=
  match op with
  | OpEq => Some OpEq | OpNotEq => Some OpNotEq
  | OpLt => Some OpGt | OpLtEq => Some OpGtEq
  | OpGt => Some OpLt | OpGtEq => Some OpLtEq
  | _ => None
  end.

Definition same_column_membership (terms : list (string * ScalarValue))
    : option (string * list ScalarValue) :=
  match terms with
  | [] => None
  | (name, _) :: _ =>
      if existsb (fun t => negb (String.eqb t.1 name)) terms then None
      else Some (name, map snd terms)
  end.

Section Translation.
Context {Text Bytes : Type} `{!ArrowKernel Text Bytes}.

(** [join_keys_ipc]: a one-column side batch. *)
Definition join_keys_ipc (column : string) (values : list ScalarValue) : result Bytes :=
  match iter_to_array (Text := Text) values with
  | Err e => Err e
  | Ok array =>
      match try_new [mkField column (array_type array) true []]
              [("vgi_join_keys_version", "2")] [array] with
      | Err e => Err e
      | Ok batch => ipc_write batch
      end
  end.

(** [membership]: validation precedes every push; the column is recorded before
    the side batch is built. *)
Definition membership (name : string) (values : list ScalarValue) : BM Bytes json :=
  if (match values with [] => true | _ => false end)
     || existsb (fun v => match constant_from_scalar v with None => true | _ => false end) values
  then lift None
  else
    let? (remote_name, index) := remote_column name in
    let? batch_index := gets (fun b => length (join_keys b)) in
    let? keys := lift (result_ok (join_keys_ipc remote_name values)) in
    let? _ := modify (fun b => set_join_keys (join_keys b ++ [keys]) b) in
    ret (in_node remote_name index batch_index).

(** *** Logical expressions *)

(** [column_name]: a column, or a cast that changes nothing. *)
Fixpoint column_name (e : Expr) (schema : Schema) : option string :=
  match e with
  | Column _ name => Some name
  | Cast inner ty =>
      name ← column_name inner schema;
      f ← field_with_name schema name;
      if decide (field_type f = ty) then Some name else None
  | _ => None
  end.

Fixpoint literal (e : Expr) : option ScalarValue :=
  match e with
  | Literal v => Some v
  | Cast inner ty => v ← literal inner; result_ok (cast_to v ty)
  | _ => None
  end.

(** [col <op> literal], or [literal <op> col] with the operator flipped. *)
Definition comparison_operands (schema : Schema) (left : Expr) (op : Operator) (right : Expr)
    : option (string * ScalarValue * Operator) :=
  match column_name left schema, literal right with
  | Some n, Some v => Some (n, v, op)
  | _, _ =>
      match literal left, column_name right schema with
      | Some v, Some n => op' ← flip op; Some (n, v, op')
      | _, _ => None
      end
  end.

(** The shared tail of [binary] and [physical_binary]. *)
Definition push_comparison (name : string) (value : ScalarValue) (op : Operator)
    : BM Bytes json :=
  let? (remote_name, index) := remote_column name in
  let? token := lift (op_token op) in
  let? c := lift (constant_from_scalar value) in
  let? value_ref := add_constant c in
  ret (comparison_node token remote_name index value_ref).

Definition equality_term (schema : Schema) (left right : Expr) : option (string * ScalarValue) :=
  match column_name left schema, literal right with
  | Some name, Some value => Some (name, value)
  | _, _ =>
      match literal left, column_name right schema with
      | Some value, Some name => Some (name, value)
      | _, _ => None
      end
  end.

Fixpoint collect_logical_or_equalities (e : Expr) (schema : Schema)
    (out : list (string * ScalarValue)) : option (list (string * ScalarValue)) :=
  match e with
  | BinaryExpr lhs op rhs =>
      if decide (op = OpOr) then
        out ← collect_logical_or_equalities lhs schema out;
        collect_logical_or_equalities rhs schema out
      else if decide (op = OpEq) then
        term ← equality_term schema lhs rhs;
        Some (out ++ [term])
      else None
  | _ => None
  end.

Definition logical_or_equalities (left right : Expr) (schema : Schema)
    : option (string * list ScalarValue) :=
  terms ← collect_logical_or_equalities left schema [];
  terms ← collect_logical_or_equalities right schema terms;
  same_column_membership terms.

(** [binary]; [build_left] and [build_right] are [self.build(left)] and
    [self.build(right)]. AND keeps whichever side is expressible; OR keeps both
    sides or rolls the builder back. *)
Definition binary (build_left build_right : BM Bytes json)
    (left : Expr) (op : Operator) (right : Expr) : BM Bytes json :=
  match op with
  | OpAnd =>
      let? l := attempt build_left in
      let? r := attempt build_right in
      lift (match l, r with
            | Some a, Some b => Some (conjunction "and" a b)
            | Some a, None | None, Some a => Some a
            | None, None => None
            end)
  | OpOr =>
      let? sch := gets schema in
      match logical_or_equalities left right sch with
      | Some (name, values) => membership name values
      | None =>
          let? saved := gets checkpoint in
          let? l := attempt build_left in
          let? r := attempt build_right in
          match l, r with
          | Some a, Some b =>
              let combined := conjunction "or" a b in
              if contains_join_keys combined
              then let? _ := modify (rollback saved) in lift None
              else ret combined
          | _, _ => let? _ := modify (rollback saved) in lift None
          end
      end
  | _ =>
      let? sch := gets schema in
      let? (name, value, op') := lift (comparison_operands sch left op right) in
      push_comparison name value op'
  end.

(** [build]: translate one predicate, or [None] if it is not expressible. *)
Fixpoint build (e : Expr) : BM Bytes json :=
  match e with
  | BinaryExpr lhs op rhs => binary (build lhs) (build rhs) lhs op rhs
  | IsNull inner =>
      let? sch := gets schema in
      let? name := lift (column_name inner sch) in
      let? (remote_name, index) := remote_column name in
      ret (is_null_node remote_name index false)
  | IsNotNull inner =>
      let? sch := gets schema in
      let? name := lift (column_name inner sch) in
      let? (remote_name, index) := remote_column name in
      ret (is_null_node remote_name index true)
  | InList inner items negated =>
      if negated then lift None
      else
        let? sch := gets schema in
        let? name := lift (column_name inner sch) in
        let? values := lift (option_collect literal items) in
        membership name values
  | _ => lift None
  end.

(** [is_pushable]: whether a predicate can be expressed on the wire at all. *)
Definition is_pushable (e : Expr) (sch : Schema) : bool :=
  match (build e (new_builder sch sch)).1 with Some _ => true | None => false end.

(** [exprs.iter().filter_map(|e| b.build(e)).collect()] *)
Fixpoint build_all (exprs : list Expr) : BM Bytes (list json) :=
  match exprs with
  | [] => ret []
  | e :: rest =>
      let? o := attempt (build e) in
      let? specs := build_all rest in
      ret (option_list o ++ specs)
  end.

(** *** Physical expressions *)

Fixpoint physical_column_name (e : PhysicalExpr) (schema : Schema) : option string :=
  match e with
  | PhysicalColumn name _ => Some name
  | CastExpr inner ty =>
      name ← physical_column_name inner schema;
      f ← field_with_name schema name;
      if decide (field_type f = ty) then Some name else None
  | _ => None
  end.

Fixpoint physical_literal (e : PhysicalExpr) : option ScalarValue :=
  match e with
  | PhysicalLiteral v => Some v
  | CastExpr inner ty => v ← physical_literal inner; result_ok (cast_to v ty)
  | _ => None
  end.

(** [physical_struct_columns]: the columns a [struct(..)] call assembles. *)
Definition physical_struct_columns (e : PhysicalExpr) (schema : Schema) : option (list string) :=
  match e with
  | ScalarFunctionExpr name args =>
      if String.eqb name "struct"
      then option_collect (fun a => physical_column_name a schema) args
      else None
  | _ => None
  end.

Definition physical_comparison_operands (schema : Schema)
    (left : PhysicalExpr) (op : Operator) (right : PhysicalExpr)
    : option (string * ScalarValue * Operator) :=
  match physical_column_name left schema, physical_literal right with
  | Some n, Some v => Some (n, v, op)
  | _, _ =>
      match physical_literal left, physical_column_name right schema with
      | Some v, Some n => op' ← flip op; Some (n, v, op')
      | _, _ => None
      end
  end.

Definition physical_equality_term (schema : Schema) (left right : PhysicalExpr)
    : option (string * ScalarValue) :=
  match physical_column_name left schema, physical_literal right with
  | Some name, Some value => Some (name, value)
  | _, _ =>
      match physical_literal left, physical_column_name right schema with
      | Some value, Some name => Some (name, value)
      | _, _ => None
      end
  end.

Fixpoint collect_physical_or_equalities (e : PhysicalExpr) (schema : Schema)
    (out : list (string * ScalarValue)) : option (list (string * ScalarValue)) :=
  match e with
  | PhysicalBinary lhs op rhs =>
      if decide (op = OpOr) then
        out ← collect_physical_or_equalities lhs schema out;
        collect_physical_or_equalities rhs schema out
      else if decide (op = OpEq) then
        term ← physical_equality_term schema lhs rhs;
        Some (out ++ [term])
      else None
  | _ => None
  end.

Definition physical_or_equalities (left right : PhysicalExpr) (schema : Schema)
    : option (string * list ScalarValue) :=
  terms ← collect_physical_or_equalities left schema [];
  terms ← collect_physical_or_equalities right schema terms;
  same_column_membership terms.

(** [physical_binary]; an [or] node may not contain a side batch, and an
    inexpressible AND or OR rolls the builder back. *)
Definition physical_binary (build_left build_right : BM Bytes json)
    (left : PhysicalExpr) (op : Operator) (right : PhysicalExpr) (side_join_keys : bool)
    : BM Bytes json :=
  let? sch := gets schema in
  match (if decide (op = OpOr) then
           if side_join_keys then physical_or_equalities left right sch else None
         else None) with
  | Some (name, values) => membership name values
  | None =>
      if bool_decide (op = OpAnd) || bool_decide (op = OpOr) then
        let? saved := gets checkpoint in
        let? l := attempt build_left in
        let? r := attempt build_right in
        let combined :=
          if decide (op = OpAnd) then
            match l, r with
            | Some a, Some b => Some (conjunction "and" a b)
            | Some one, None | None, Some one => Some one
            | None, None => None
            end
          else
            match l, r with
            | Some a, Some b => Some (conjunction "or" a b)
            | _, _ => None
            end in
        match combined with
        | None => let? _ := modify (rollback saved) in lift None
        | Some j =>
            if bool_decide (op = OpOr) && contains_join_keys j
            then let? _ := modify (rollback saved) in lift None
            else ret j
        end
      else
        let? (name, value, op') := lift (physical_comparison_operands sch left op right) in
        push_comparison name value op'
  end.

Fixpoint build_physical (e : PhysicalExpr) (side_join_keys : bool) : BM Bytes json :=
  match e with
  | PhysicalBinary lhs op rhs =>
      physical_binary (build_physical lhs side_join_keys) (build_physical rhs side_join_keys)
        lhs op rhs side_join_keys
  | IsNullExpr arg =>
      let? sch := gets schema in
      let? name := lift (physical_column_name arg sch) in
      let? (remote_name, index) := remote_column name in
      ret (is_null_node remote_name index false)
  | IsNotNullExpr arg =>
      let? sch := gets schema in
      let? name := lift (physical_column_name arg sch) in
      let? (remote_name, index) := remote_column name in
      ret (is_null_node remote_name index true)
  | InListExpr inner items negated =>
      if negated || (match items with [] => true | _ => false end) then lift None
      else
        let? sch := gets schema in
        let? name := lift (physical_column_name inner sch) in
        let? values := lift (option_collect physical_literal items) in
        if side_join_keys then membership name values else lift None
  | _ => lift None
  end.

(** [columns.iter().enumerate().any(|(i, name)| columns[..i].contains(name))] *)
Fixpoint has_duplicate (before names : list string) : bool :=
  match names with
  | [] => false
  | n :: rest => vec_contains n before || has_duplicate (before ++ [n]) rest
  end.

(** The fields of one struct literal, if it is a single non-null row of the
    expected width. *)
Definition struct_tuple (width : nat) (value : PhysicalExpr) : option (list ScalarValue) :=
  match physical_literal value with
  | Some (SVStruct fields [Some vs]) =>
      if negb (Nat.eqb (length fields) width) || negb (Nat.eqb (length vs) width)
      then None else Some vs
  | _ => None
  end.

(** [field_values]: column [i] of the tuples. *)
Definition field_values (width : nat) (tuples : list (list ScalarValue)) : list (list ScalarValue) :=
  map (fun i => omap (fun t => t !! i) tuples) (seq 0 width).

Fixpoint memberships (columns : list (string * list ScalarValue)) : BM Bytes (list json) :=
  match columns with
  | [] => ret []
  | (name, values) :: rest =>
      let? spec := membership name values in
      let? specs := memberships rest in
      ret (spec :: specs)
  end.

(** [struct_memberships]: a tuple IN list as one membership per column; any
    failure rolls back every side batch and column recorded so far. *)
Definition struct_memberships (e : PhysicalExpr) (items : list PhysicalExpr) (negated : bool)
    : BM Bytes (list json) :=
  if negated || (match items with [] => true | _ => false end) then lift None
  else
    let? sch := gets schema in
    let? columns := lift (physical_struct_columns e sch) in
    if (Nat.ltb (length columns) 2) || has_duplicate [] columns then lift None
    else
      let? tuples := lift (option_collect (struct_tuple (length columns)) items) in
      let? saved := gets checkpoint in
      let? r := attempt (memberships (zip columns (field_values (length columns) tuples))) in
      match r with
      | None => let? _ := modify (rollback saved) in lift None
      | Some specs => ret specs
      end.

(** [build_physical_top]: the top-level conjuncts of a runtime filter. *)
Fixpoint build_physical_top (e : PhysicalExpr) (side_join_keys : bool) : BM Bytes (list json) :=
  let single :=
    let? o := attempt (build_physical e side_join_keys) in ret (option_list o) in
  match e with
  | PhysicalBinary lhs OpAnd rhs =>
      let? l := build_physical_top lhs side_join_keys in
      let? r := build_physical_top rhs side_join_keys in
      ret (l ++ r)
  | InListExpr inner items negated =>
      if side_join_keys then
        let? r := attempt (struct_memberships inner items negated) in
        match r with
        | Some specs => ret specs
        | None => single
        end
      else single
  | _ => single
  end.

Fixpoint build_physical_all (exprs : list PhysicalExpr) (side_join_keys : bool)
    : BM Bytes (list json) :=
  match exprs with
  | [] => ret []
  | e :: rest =>
      let? specs := build_physical_top e side_join_keys in
      let? more := build_physical_all rest side_join_keys in
      ret (specs ++ more)
  end.

(** ** Documents *)

Definition filter_metadata : list (string * string) :=
  [("vgi_filter_encoding", "vgi.filters.v2"); ("vgi_filter_version", "2");
   ("vgi_evaluation_context", "vgi.none.v1")].

(** The [value_i] columns of the hoisted constants, numbered from [i]. *)
Fixpoint value_columns (i : nat) (cs : list ScalarValue)
    : result (list Field * list (ArrayRef Text)) :=
  match cs with
  | [] => Ok ([], [])
  | c :: rest =>
      match to_array_of_size_1 c with
      | Err e => Err e
      | Ok arr =>
          match value_columns (S i) rest with
          | Err e => Err e
          | Ok (fields, columns) =>
              Ok (mkField ("value_" +:+ pretty i) (array_type arr) true [] :: fields,
                  arr :: columns)
          end
      end
  end.

(** The one-row batch of a document and its constants, as an IPC stream. *)
Definition write_document (doc : json) (cs : list ScalarValue) : result Bytes :=
  match value_columns 0 cs with
  | Err e => Err e
  | Ok (fields, columns) =>
      match try_new (mkField "filter_spec" Utf8 false [] :: fields) filter_metadata
              (StringArray [json_to_string (Text := Text) (Bytes := Bytes) doc] :: columns) with
      | Err e => Err e
      | Ok batch => ipc_write batch
      end
  end.

Definition snapshot_predicate (id_prefix source : string) (index : nat) (expression : json) : json :=
  JObj [("id", JStr (id_prefix +:+ ":" +:+ pretty index)); ("revision", JNum 0);
        ("mode", JStr "advisory"); ("source", JStr source); ("expression", expression)].

Definition snapshot_document (predicates : list json) : json :=
  JObj [("encoding", JStr "vgi.filters.v2"); ("semantics", JStr "vgi.duckdb.standard.v1");
        ("kind", JStr "snapshot"); ("predicates", JArr predicates)].
End Translation.

(** The serialized pushdown and the bind-schema columns it reads. *)
Record Pushdown (Bytes : Type) := mkPushdown {
  pd_blob : option Bytes;
  pd_columns : list Z;
  pd_join_keys : list Bytes;
  pd_predicate_count : nat
}.
Arguments mkPushdown {Bytes} pd_blob pd_columns pd_join_keys pd_predicate_count.
Arguments pd_blob {Bytes} _.
Arguments pd_columns {Bytes} _.
Arguments pd_join_keys {Bytes} _.
Arguments pd_predicate_count {Bytes} _.

Definition default_pushdown {Bytes} : Pushdown Bytes := mkPushdown None [] [] 0%nat.
Definition with_join_keys {Bytes} (p : Pushdown Bytes) (ks : list Bytes) : Pushdown Bytes :=
  mkPushdown (pd_blob p) (pd_columns p) ks (pd_predicate_count p).

(** *** Rebasing references of an already parsed document *)

Definition shift_number (offset : nat) (j : json) : json :=
  match as_u64 j with
  | Some index => JNum (u64_add index (Z.of_nat offset))
  | None => j
  end.

(** [shift_value_refs]; children are visited before the two members are
    updated, which is the same since an updated number has no children. *)
Fixpoint shift_value_refs (offset : nat) (j : json) : json :=
  match j with
  | JObj ms =>
      JObj (obj_alter "value_refs"
              (fun refs => match refs with
                           | JArr l => JArr (map (shift_number offset) l)
                           | _ => refs
                           end)
              (obj_alter "value_ref" (shift_number offset)
                 (map (fun m => (m.1, shift_value_refs offset m.2)) ms)))
  | JArr l => JArr (map (shift_value_refs offset) l)
  | _ => j
  end.

Fixpoint shift_external_batch_refs (offset : nat) (j : json) : json :=
  match j with
  | JObj ms =>
      let ms' := map (fun m => (m.1, shift_external_batch_refs offset m.2)) ms in
      if bool_decide ((obj_get "kind" ms ≫= as_str) = Some "external")
      then JObj (obj_alter "batch_index" (shift_number offset) ms')
      else JObj ms'
  | JArr l => JArr (map (shift_external_batch_refs offset) l)
  | _ => j
  end.

Section Documents.
Context {Text Bytes : Type} `{!ArrowKernel Text Bytes}.

Definition finish_snapshot (specs : list json) (constants : list ScalarValue)
    (referenced_columns : list Z) (source id_prefix : string) : result (Pushdown Bytes) :=
  if (match specs with [] => true | _ => false end) && negb (String.eqb source "join")
  then Ok default_pushdown
  else
    let predicates := imap (snapshot_predicate id_prefix source) specs in
    match write_document (snapshot_document predicates) constants with
    | Err e => Err e
    | Ok buf => Ok (mkPushdown (Some buf) referenced_columns [] (length predicates))
    end.

Definition upsert (revision : Z) (index : nat) (expression : json) : json :=
  JObj [("operation", JStr "upsert"); ("id", JStr ("join:" +:+ pretty index));
        ("revision", JNum revision); ("mode", JStr "advisory"); ("source", JStr "join");
        ("expression", expression)].
Definition removal (revision : Z) (index : nat) : json :=
  JObj [("operation", JStr "remove"); ("id", JStr ("join:" +:+ pretty index));
        ("revision", JNum revision)].

(** The updates of a delta: every live predicate, then a tombstone for each ID
    in [predicate_count..previous_count]. *)
Definition delta_updates (specs : list json) (revision : Z) (previous_count : nat) : list json :=
  imap (upsert revision) specs
  ++ map (removal revision) (seq (length specs) (previous_count - length specs)).

Definition finish_delta (specs : list json) (constants : list ScalarValue)
    (referenced_columns : list Z) (revision : Z) (previous_count : nat)
    : result (Pushdown Bytes) :=
  let updates := delta_updates specs revision previous_count in
  match updates with
  | [] => Ok (mkPushdown None [] [] (length specs))
  | _ =>
      match write_document
              (JObj [("encoding", JStr "vgi.filters.v2");
                     ("semantics", JStr "vgi.duckdb.standard.v1");
                     ("kind", JStr "delta"); ("updates", JArr updates)]) constants with
      | Err e => Err e
      | Ok bytes => Ok (mkPushdown (Some bytes) referenced_columns [] (length specs))
      end
  end.

Definition serialize (exprs : list Expr) (sch : Schema) : result (Pushdown Bytes) :=
  match build_all exprs (new_builder sch sch) with
  | (None, _) => Ok default_pushdown
  | (Some specs, b) =>
      match specs with
      | [] => Ok default_pushdown
      | _ =>
          match finish_snapshot specs (constants b) (referenced_columns b) "query" "query" with
          | Err e => Err e
          | Ok pushdown => Ok (with_join_keys pushdown (join_keys b))
          end
      end
  end.

Definition serialize_physical_for_remote (exprs : list PhysicalExpr)
    (sch remote : Schema) (side_join_keys : bool) : result (Pushdown Bytes) :=
  match build_physical_all exprs side_join_keys (new_builder sch remote) with
  | (None, _) => Ok default_pushdown
  | (Some specs, b) =>
      match finish_snapshot specs (constants b) (referenced_columns b) "join" "join" with
      | Err e => Err e
      | Ok pushdown => Ok (with_join_keys pushdown (join_keys b))
      end
  end.

Definition serialize_physical_delta_for_remote (exprs : list PhysicalExpr)
    (sch remote : Schema) (revision : Z) (previous_count : nat) : result (Pushdown Bytes) :=
  match build_physical_all exprs false (new_builder sch remote) with
  | (None, _) => Ok default_pushdown
  | (Some specs, b) =>
      finish_delta specs (constants b) (referenced_columns b) revision previous_count
  end.

(** *** Merging *)

Definition read_pushdown (bytes : Bytes) : result (RecordBatch Text) := ipc_read bytes.

Definition parse_document (batch : RecordBatch Text) : result json :=
  match batch_columns batch with
  | StringArray (text :: _) :: _ => json_from_str (Bytes := Bytes) text
  | StringArray [] :: _ | [] => Err (Panicked "index out of bounds")
  | TypedArray _ _ :: _ => Err (Execution "VGI filter spec is not UTF-8")
  end.

Definition parse_predicates (batch : RecordBatch Text) : result (list json) :=
  match parse_document batch with
  | Err e => Err e
  | Ok document =>
      ok_or (Execution "VGI filter snapshot has no predicates array")
        (get "predicates" document ≫= as_array)
  end.

(** The inner loop of [merge]: append a batch's constant columns, renumbering
    the fields by position. *)
Definition push_value_columns (acc : list Field * list (ArrayRef Text)) (batch : RecordBatch Text)
    : list Field * list (ArrayRef Text) :=
  fold_left (fun acc column =>
      (acc.1 ++ [mkField ("value_" +:+ pretty (length acc.1 - 1)%nat) (array_type column) true []],
       acc.2 ++ [column]))
    (drop 1 (batch_columns batch)) acc.

Definition merge (left right : Pushdown Bytes) : result (Pushdown Bytes) :=
  match pd_blob left, pd_blob right with
  | None, None => Ok default_pushdown
  | Some _, None => Ok left
  | None, Some _ => Ok right
  | Some left_blob, Some right_blob =>
      left_batch ← read_pushdown left_blob;
      right_batch ← read_pushdown right_blob;
      let left_constants := (num_columns left_batch - 1)%nat in
      left_specs ← parse_predicates left_batch;
      right_specs ← parse_predicates right_batch;
      let right_specs :=
        map (fun spec => shift_external_batch_refs (length (pd_join_keys left))
                           (shift_value_refs left_constants spec)) right_specs in
      let merged_specs := left_specs ++ right_specs in
      match batch_fields left_batch, batch_columns left_batch with
      | field0 :: _, column0 :: _ =>
          let '(fields, columns) :=
            push_value_columns (push_value_columns ([field0], [column0]) left_batch) right_batch in
          let columns :=
            <[0%nat := StringArray [json_to_string (Bytes := Bytes)
                                      (snapshot_document merged_specs)]]> columns in
          batch ← try_new fields filter_metadata columns;
          out ← ipc_write batch;
          Ok (mkPushdown (Some out)
                (fold_left (fun cols c => push_new c cols) (pd_columns right) (pd_columns left))
                (pd_join_keys left ++ pd_join_keys right)
                (pd_predicate_count left + pd_predicate_count right))
      | _, _ => Err (Panicked "index out of bounds")
      end
  end.
End Documents.
