(* ===== verification/FilterSpec.v ===== *)
(** * Filter pushdown: what the wire means, and soundness of the translation

    [WireExpr] is the abstract syntax of a predicate document (the wire shape
    filters.rs describes at its top), [denote] its meaning on a row in bind
    order, and [truth] DataFusion's three-valued meaning of an expression. The
    builder is verified with a small program logic ([yields]): an operation
    only extends the builder it was given, and what it returns is the encoding
    of a wire expression that accepts every row on which the predicate is
    TRUE. *)

From S2P Require Import Prelude Json Arrow Filters.

#[local] Open Scope Z_scope.

(** ** Abstract syntax of the wire *)

Inductive WireExpr :=
  | WComparison (op : Operator) (name : string) (index : Z) (value_ref : nat)
  | WIsNull (name : string) (index : Z) (negated : bool)
  | WAnd (l r : WireExpr)
  | WOr (l r : WireExpr)
  | WIn (name : string) (index : Z) (batch_index : nat).

Fixpoint encode (w : WireExpr) : json :=
  match w with
  | WComparison op n i r => comparison_node (default "" (op_token op)) n i r
  | WIsNull n i neg => is_null_node n i neg
  | WAnd l r => conjunction "and" (encode l) (encode r)
  | WOr l r => conjunction "or" (encode l) (encode r)
  | WIn n i k => in_node n i k
  end.

Fixpoint has_in (w : WireExpr) : bool :=
  match w with
  | WComparison _ _ _ _ | WIsNull _ _ _ => false
  | WAnd l r | WOr l r => has_in l || has_in r
  | WIn _ _ _ => true
  end.

(** Every column index an expression reads. *)
Fixpoint wire_columns (w : WireExpr) : list Z :=
  match w with
  | WComparison _ _ i _ | WIsNull _ i _ | WIn _ i _ => [i]
  | WAnd l r | WOr l r => wire_columns l ++ wire_columns r
  end.

(** Rebasing by [off] constants and [koff] side batches. *)
Fixpoint rebase (off koff : nat) (w : WireExpr) : WireExpr :=
  match w with
  | WComparison op n i r => WComparison op n i (r + off)
  | WIsNull n i neg => WIsNull n i neg
  | WAnd l r => WAnd (rebase off koff l) (rebase off koff r)
  | WOr l r => WOr (rebase off koff l) (rebase off koff r)
  | WIn n i k => WIn n i (k + koff)
  end.

(** References are in range. *)
Fixpoint refs_below (nc nk : nat) (w : WireExpr) : Prop :=
  match w with
  | WComparison op _ _ r => is_Some (op_token op) /\ (r < nc)%nat
  | WIsNull _ _ _ => True
  | WAnd l r | WOr l r => refs_below nc nk l /\ refs_below nc nk r
  | WIn _ _ k => (k < nk)%nat
  end.

Lemma contains_join_keys_encode w : contains_join_keys (encode w) = has_in w.
Proof.
  induction w as [op n i r|n i neg|l IHl r IHr|l IHl r IHr|n i k]; try reflexivity.
  all: simpl; rewrite IHl, IHr; by rewrite !orb_false_r.
Qed.

Lemma shift_number_nat off r :
  Z.of_nat (r + off) < u64_modulus -> shift_number off (JNum (Z.of_nat r)) = JNum (Z.of_nat (r + off)).
Proof.
  intros Hb. unfold shift_number, as_u64.
  assert (0 <= Z.of_nat r < u64_modulus) as Hr by (unfold u64_modulus in *; lia).
  rewrite (proj2 (Z.leb_le _ _) (proj1 Hr)), (proj2 (Z.ltb_lt _ _) (proj2 Hr)); simpl.
  rewrite u64_add_small; [|lia..]. by rewrite Nat2Z.inj_add.
Qed.

(** The JSON rewrites of [merge] are [rebase] on encodings. *)
Lemma shift_encode off koff nc nk w :
  refs_below nc nk w ->
  Z.of_nat (nc + off) <= u64_modulus -> Z.of_nat (nk + koff) <= u64_modulus ->
  shift_external_batch_refs koff (shift_value_refs off (encode w)) = encode (rebase off koff w).
Proof.
  intros Hw Hc Hk; revert Hw.
  induction w as [op n i r|n i neg|l IHl r IHr|l IHl r IHr|n i k]; simpl.
  - intros [_ Hr]. cbn -[shift_number]. rewrite shift_number_nat by lia. reflexivity.
  - reflexivity.
  - intros [Hl Hr]. unfold conjunction. cbn. by rewrite IHl, IHr.
  - intros [Hl Hr]. unfold conjunction. cbn. by rewrite IHl, IHr.
  - intros Hr. cbn -[shift_number]. rewrite shift_number_nat by lia. reflexivity.
Qed.

(** ** Semantics *)

Record WireEnv := mkEnv {
  env_constants : list ScalarValue;
  env_batches : list (list ScalarValue)
}.

(** The kernels expression evaluation relies on: Arrow's scalar comparison
    ([None] is NULL), function calls, and everything the adapter does not look
    into. *)
Class Evaluation := {
  scalar_cmp : Operator -> ScalarValue -> ScalarValue -> option bool;
  call_function : string -> list ScalarValue -> option ScalarValue;
  other_value : Expr -> list ScalarValue -> option ScalarValue;
  other_truth : Expr -> list ScalarValue -> option bool
}.

Class EvaluationLaws `{!Evaluation} := {
  (** a comparison may be mirrored *)
  cmp_flip : forall op op' a b, flip op = Some op' -> scalar_cmp op' b a = scalar_cmp op a b;
  (** [struct(..)] assembles its arguments *)
  call_struct : forall vs, exists fs, call_function "struct" vs = Some (SVStruct fs [Some vs]);
  (** struct equality is fieldwise (on a literal with no NULL field) *)
  cmp_struct : forall fs gs xs ys,
    scalar_cmp OpEq (SVStruct fs [Some xs]) (SVStruct gs [Some ys]) = Some true ->
    Forall (fun y => is_null y = false) ys ->
    Forall2 (fun x y => scalar_cmp OpEq x y = Some true) xs ys
}.

Definition is_true (o : option bool) : bool :=
  match o with Some true => true | _ => false end.

Definition kleene_and (a b : option bool) : option bool :=
  match a, b with
  | Some false, _ | _, Some false => Some false
  | Some true, Some true => Some true
  | _, _ => None
  end.
Definition kleene_or (a b : option bool) : option bool :=
  match a, b with
  | Some true, _ | _, Some true => Some true
  | Some false, Some false => Some false
  | _, _ => None
  end.

Section Semantics.
Context {Text Bytes : Type} `{!ArrowKernel Text Bytes} `{!Evaluation}.

(** [denote]: whether the worker's predicate is TRUE on a row. *)
Fixpoint denote (env : WireEnv) (row : list ScalarValue) (w : WireExpr) : bool :=
  match w with
  | WComparison op _ i r =>
      match row !! Z.to_nat i, env_constants env !! r with
      | Some v, Some c => is_true (scalar_cmp op v c)
      | _, _ => false
      end
  | WIsNull _ i negated =>
      match row !! Z.to_nat i with
      | Some v => xorb negated (is_null v)
      | None => false
      end
  | WAnd l r => denote env row l && denote env row r
  | WOr l r => denote env row l || denote env row r
  | WIn _ i k =>
      match row !! Z.to_nat i, env_batches env !! k with
      | Some v, Some vs => existsb (fun c => is_true (scalar_cmp OpEq v c)) vs
      | _, _ => false
      end
  end.

(** The value of an expression on a row of [sch]. *)
Fixpoint value (sch : Schema) (row : list ScalarValue) (e : Expr) : option ScalarValue :=
  match e with
  | Column _ name => index_of sch name ≫= (fun i => row !! i)
  | Literal v => Some v
  | Cast inner ty => v ← value sch row inner; result_ok (cast_to v ty)
  | ScalarFunction f args =>
      vs ← option_collect (value sch row) args; call_function f vs
  | _ => other_value e row
  end.

(** The truth of a predicate, in SQL's three-valued logic. *)
Fixpoint truth (sch : Schema) (row : list ScalarValue) (e : Expr) : option bool :=
  match e with
  | BinaryExpr l OpAnd r => kleene_and (truth sch row l) (truth sch row r)
  | BinaryExpr l OpOr r => kleene_or (truth sch row l) (truth sch row r)
  | BinaryExpr l (OpOther _) r => other_truth e row
  | BinaryExpr l op r =>
      a ← value sch row l; b ← value sch row r; scalar_cmp op a b
  | IsNull inner => v ← value sch row inner; Some (is_null v)
  | IsNotNull inner => v ← value sch row inner; Some (negb (is_null v))
  | InList inner items negated =>
      v ← value sch row inner;
      cs ← option_collect (value sch row) items;
      let found := existsb (fun c => is_true (scalar_cmp OpEq v c)) cs in
      let unknown := existsb (fun c => match scalar_cmp OpEq v c with None => true | _ => false end) cs in
      if found then Some (negb negated)
      else if unknown then None else Some negated
  | _ => other_truth e row
  end.

Definition row_typed (sch : Schema) (row : list ScalarValue) : Prop :=
  Forall2 (fun f v => data_type v = field_type f) sch row.

(** The logical reading of a physical expression: columns go by name. *)
Fixpoint logical_of (p : PhysicalExpr) : Expr :=
  match p with
  | PhysicalColumn name _ => Column None name
  | PhysicalLiteral v => Literal v
  | PhysicalBinary l op r => BinaryExpr (logical_of l) op (logical_of r)
  | IsNullExpr e => IsNull (logical_of e)
  | IsNotNullExpr e => IsNotNull (logical_of e)
  | InListExpr e items negated => InList (logical_of e) (map logical_of items) negated
  | CastExpr e ty => Cast (logical_of e) ty
  | ScalarFunctionExpr f args => ScalarFunction f (map logical_of args)
  | OtherPhysical id => OtherExpr id
  end.

(** *** Meaning of a builder and of a serialized pushdown *)

Definition decode_keys (bytes : Bytes) : list ScalarValue :=
  match ipc_read (Text := Text) bytes with
  | Ok batch => match batch_columns batch with c :: _ => array_values c | [] => [] end
  | Err _ => []
  end.

Definition env_of (b : Builder Bytes) : WireEnv :=
  mkEnv (constants b) (map decode_keys (join_keys b)).

(** A one-row document batch: its text, then one constant per column. *)
Definition document_batch (batch : RecordBatch Text) (text : Text) (cs : list ScalarValue) : Prop :=
  exists f0 fs tys,
    batch_fields batch = f0 :: fs /\ field_type f0 = Utf8 /\
    batch_columns batch = StringArray [text] :: zip_with (fun ty c => TypedArray ty [c]) tys cs /\
    length tys = length cs.

(** The document of a pushdown lists exactly these predicates (ID and
    expression), under this environment. *)
Definition pushdown_denotes (pd : Pushdown Bytes) (preds : list (string * WireExpr))
    (env : WireEnv) : Prop :=
  exists bytes batch text specs,
    pd_blob pd = Some bytes /\ ipc_read bytes = Ok batch /\
    document_batch batch text (env_constants env) /\
    parse_predicates (Bytes := Bytes) batch = Ok specs /\
    Forall2 (fun s p => get "id" s = Some (JStr p.1) /\
                        get "expression" s = Some (encode p.2)) specs preds /\
    env_batches env = map decode_keys (pd_join_keys pd).

(** The worker keeps a row iff every predicate of the document is TRUE. *)
Definition accepts (env : WireEnv) (preds : list (string * WireExpr)) (row : list ScalarValue)
    : bool :=
  forallb (fun p => denote env row p.2) preds.
End Semantics.
