(* ===== verification/FilterSound.v ===== *)
(** * Filter pushdown: soundness proofs

    The builder logic and the proof that every translated predicate is implied
    by the DataFusion predicate it came from, for logical and for physical
    expressions. *)

From S2P Require Import Prelude Json Arrow Filters FilterSpec.

#[local] Open Scope Z_scope.

Section Sound.
Context {Text Bytes : Type} `{HK : !ArrowKernel Text Bytes} `{HA : !ArrowLaws Text Bytes}.
Context `{HE : !Evaluation} `{HEL : !EvaluationLaws}.

(** ** Extension of builders *)

Definition extends (b b' : Builder Bytes) : Prop :=
  schema b' = schema b /\ remote_schema b' = remote_schema b /\
  constants b `prefix_of` constants b' /\
  referenced_columns b `prefix_of` referenced_columns b' /\
  join_keys b `prefix_of` join_keys b' /\
  (NoDup (referenced_columns b) -> NoDup (referenced_columns b')).

#[export] Instance extends_preorder : PreOrder extends.
Proof.
  split.
  - intros b; repeat split; auto; reflexivity.
  - intros b1 b2 b3 (?&?&?&?&?&?) (?&?&?&?&?&?); repeat split; try congruence; auto; by etrans.
Qed.

(** A step that pushes on one vector. *)
Lemma extends_join_keys (b : Builder Bytes) ks :
  extends b (set_join_keys (join_keys b ++ ks) b).
Proof. repeat split; simpl; auto; by eexists. Qed.
Lemma extends_constants (b : Builder Bytes) cs :
  extends b (set_constants (constants b ++ cs) b).
Proof. repeat split; simpl; auto; by eexists. Qed.
Lemma extends_referenced (b : Builder Bytes) i :
  extends b (set_referenced (push_new i (referenced_columns b)) b).
Proof.
  repeat split; simpl; try reflexivity; [apply push_new_prefix|apply push_new_NoDup].
Qed.

(** The checkpoint discipline: rolling back undoes everything since. *)
Lemma rollback_checkpoint b b' : extends b b' -> rollback (checkpoint b) b' = b.
Proof.
  intros (Hs & Hr & [c Hc] & [r Hrf] & [k Hk] & _). unfold rollback, checkpoint.
  rewrite Hs, Hr, Hc, Hrf, Hk, !take_app_length. by destruct b.
Qed.

(** ** Well-formed specs of a builder *)

Fixpoint spec_wf (b : Builder Bytes) (w : WireExpr) : Prop :=
  match w with
  | WComparison op n i r =>
      is_Some (op_token op) /\ (r < length (constants b))%nat /\ i ∈ referenced_columns b
      /\ (field_name <$> remote_schema b !! Z.to_nat i) = Some n
  | WIsNull n i _ =>
      i ∈ referenced_columns b /\ (field_name <$> remote_schema b !! Z.to_nat i) = Some n
  | WAnd l r | WOr l r => spec_wf b l /\ spec_wf b r
  | WIn n i k =>
      i ∈ referenced_columns b /\ (k < length (join_keys b))%nat
      /\ (field_name <$> remote_schema b !! Z.to_nat i) = Some n
  end.

Lemma spec_wf_extends b b' w : extends b b' -> spec_wf b w -> spec_wf b' w.
Proof.
  intros (_ & Hs & Hc & Hr & Hk & _).
  apply prefix_length in Hc as Hc'. apply prefix_length in Hk as Hk'.
  assert (forall i, i ∈ referenced_columns b -> i ∈ referenced_columns b') as Hin.
  { intros i Hi. destruct Hr as [r ->]. apply elem_of_app; by left. }
  induction w; simpl; rewrite ?Hs; intuition (auto; lia).
Qed.

Lemma spec_wf_refs b w :
  spec_wf b w -> refs_below (length (constants b)) (length (join_keys b)) w.
Proof. induction w; simpl; tauto. Qed.

Lemma spec_wf_columns b w i :
  spec_wf b w -> i ∈ wire_columns w -> i ∈ referenced_columns b.
Proof.
  induction w as [op n j r|n j neg|l IHl r IHr|l IHl r IHr|n j k]; simpl.
  1,2,5: intros Hw ->%list_elem_of_singleton; tauto.
  all: intros [Hl Hr] [?|?]%elem_of_app; auto.
Qed.

Lemma denote_extends b b' row w :
  extends b b' -> spec_wf b w -> denote (env_of b') row w = denote (env_of b) row w.
Proof.
  intros (_ & _ & [c Hc] & _ & [k Hk] & _).
  induction w as [op n i r|n i neg|l IHl r IHr|l IHl r IHr|n i k']; simpl.
  - intros (_ & Hr & _). by rewrite Hc, lookup_app_l.
  - done.
  - intros [Hl Hr]. by rewrite IHl, IHr.
  - intros [Hl Hr]. by rewrite IHl, IHr.
  - intros (_ & Hk' & _). by rewrite Hk, map_app, lookup_app_l by (by rewrite length_map).
Qed.

(** ** The builder logic *)

(** From [b], [m] ends in an extension of [b0] and its result satisfies [Q]. *)
Definition yields {A} (b0 : Builder Bytes) (m : BM Bytes A) (b : Builder Bytes)
    (Q : A -> Builder Bytes -> Prop) : Prop :=
  extends b0 (m b).2 /\ forall a, (m b).1 = Some a -> Q a (m b).2.

Lemma yields_ret {A} b0 (a : A) b (Q : A -> _ -> Prop) : extends b0 b -> Q a b -> yields b0 (ret a) b Q.
Proof. intros ??. split; [done|]. by intros ? [= <-]. Qed.

Lemma yields_lift {A} b0 (o : option A) b (Q : A -> _ -> Prop) :
  extends b0 b -> (forall a, o = Some a -> Q a b) -> yields b0 (lift o) b Q.
Proof. intros ? Hq. by split. Qed.

Lemma yields_bind {A B} b0 (m : BM Bytes A) (k : A -> BM Bytes B) b Q1 Q :
  extends b0 b -> yields b m b Q1 ->
  (forall a b1, extends b b1 -> Q1 a b1 -> yields b0 (k a) b1 Q) ->
  yields b0 (bind m k) b Q.
Proof.
  intros H0 [He Hq] Hk. unfold yields, bind.
  destruct (m b) as [[a|] b1]; simpl in *; [by apply Hk; [|apply Hq]|].
  split; [by etrans|done].
Qed.

(** Reading and pure steps. *)
Lemma yields_gets {A B} b0 (f : Builder Bytes -> A) (k : A -> BM Bytes B) b Q :
  yields b0 (k (f b)) b Q -> yields b0 (bind (gets f) k) b Q.
Proof. done. Qed.

Lemma yields_lift_bind {A B} b0 (o : option A) (k : A -> BM Bytes B) b Q :
  extends b0 b -> (forall a, o = Some a -> yields b0 (k a) b Q) ->
  yields b0 (bind (lift o) k) b Q.
Proof.
  intros H0 Hk. destruct o as [a|]; [by apply Hk|]. by split.
Qed.

Lemma yields_attempt {A B} b0 (m : BM Bytes A) (k : option A -> BM Bytes B) b Q1 Q :
  yields b m b Q1 ->
  (forall o b1, extends b b1 -> (forall a, o = Some a -> Q1 a b1) -> yields b0 (k o) b1 Q) ->
  yields b0 (bind (attempt m) k) b Q.
Proof.
  intros [He Hq] Hk. unfold yields, bind, attempt.
  destruct (m b) as [o b1]; simpl in *. by apply Hk.
Qed.

Lemma yields_rollback {A} b0 b1 (b : Builder Bytes) (Q : A -> _ -> Prop) :
  extends b0 b1 -> extends b1 b ->
  yields b0 (bind (modify (rollback (checkpoint b1))) (fun _ => lift None)) b Q.
Proof.
  intros H0 H1. unfold yields, bind, modify, lift.
  rewrite rollback_checkpoint by done. by split.
Qed.

Lemma yields_weaken {A} b0 (m : BM Bytes A) b (Q Q' : A -> _ -> Prop) :
  yields b0 m b Q -> (forall a b', extends b0 b' -> Q a b' -> Q' a b') -> yields b0 m b Q'.
Proof. intros [He Hq] HQ. split; [done|]. auto. Qed.

(** ** Columns, literals and operands *)

(** Position [i] of a row of the builder's schema holds column [name]. *)
Definition column_value (b : Builder Bytes) (row : list ScalarValue) (name : string)
    : option ScalarValue :=
  index_of (schema b) name ≫= (fun i => row !! i).

Definition small (b : Builder Bytes) : Prop := Z.of_nat (length (schema b)) <= i64_max + 1.

Lemma small_extends b b' : extends b b' -> small b -> small b'.
Proof. intros (Hs & _) H. unfold small. by rewrite Hs. Qed.

Lemma push_new_elem (i : Z) l : i ∈ push_new i l.
Proof. apply elem_of_push_new. by left. Qed.

Lemma remote_column_spec (b : Builder Bytes) name :
  small b ->
  yields b (remote_column name) b (fun '(rn, idx) b' =>
    idx ∈ referenced_columns b' /\
    (field_name <$> remote_schema b' !! Z.to_nat idx) = Some rn /\
    forall row, row !! Z.to_nat idx = column_value b' row name).
Proof.
  intros Hb. unfold yields, remote_column.
  destruct (index_of (schema b) name) as [i|] eqn:Hi; simpl; [|by split].
  assert ((Z.of_nat i <=? i64_max)%Z = true) as ->.
  { apply index_of_lt in Hi. apply Z.leb_le. unfold small in Hb. lia. }
  rewrite Nat2Z.id. destruct (remote_schema b !! i) as [f|] eqn:Hf; simpl; [|by split].
  split.
  - apply extends_referenced.
  - intros a [= <-]; simpl. split; [apply push_new_elem|].
    rewrite Nat2Z.id, Hf. split; [done|]. intros row. unfold column_value; simpl. by rewrite Hi.
Qed.

Lemma column_name_value sch row e name :
  row_typed sch row -> column_name e sch = Some name ->
  value sch row e = (index_of sch name ≫= (fun i => row !! i)).
Proof.
  intros Hrow; revert name.
  induction e as [rel n| | | | | | |inner IH ty| | |]; intros nm; simpl; try done.
  - by intros [= <-].
  - destruct (column_name inner sch) as [n|] eqn:Hn; simpl; [|done].
    destruct (field_with_name sch n) as [f|] eqn:Hf; simpl; [|done].
    case_decide as Hty; [|done]. intros [= <-].
    rewrite (IH n) by done. unfold field_with_name in Hf.
    destruct (index_of sch n) as [i|]; simpl in *; [|done].
    destruct (row !! i) as [v|] eqn:Hv; simpl; [|done].
    pose proof (Forall2_lookup_lr _ _ _ _ _ _ Hrow Hf Hv) as Hvt; simpl in Hvt.
    subst ty. rewrite <- Hvt. by rewrite cast_to_same.
Qed.

Lemma literal_value sch row e v : literal e = Some v -> value sch row e = Some v.
Proof.
  revert v; induction e as [| | | | | | |inner IH ty| | |]; intros w; simpl; try done.
  destruct (literal inner) as [v|] eqn:Hv; simpl; [|done].
  by rewrite (IH v).
Qed.

Lemma literals_values sch row items vs :
  option_collect literal items = Some vs -> option_collect (value sch row) items = Some vs.
Proof.
  rewrite !option_collect_Some. intros Hl. eapply Forall2_impl; [exact Hl|].
  intros. by apply literal_value.
Qed.

Lemma flip_token op op' : flip op = Some op' -> is_Some (op_token op).
Proof. destruct op; simpl; eauto; done. Qed.

Lemma comparison_operands_inv sch l op r name v op' :
  comparison_operands sch l op r = Some (name, v, op') ->
  (column_name l sch = Some name /\ literal r = Some v /\ op' = op)
  \/ (literal l = Some v /\ column_name r sch = Some name /\ flip op = Some op').
Proof.
  unfold comparison_operands.
  destruct (column_name l sch), (literal r); try (intros [= -> -> ->]; by left);
    destruct (literal l), (column_name r sch); try done;
    destruct (flip op) eqn:Hf; simpl; try done; intros [= -> -> ->]; by right.
Qed.

Lemma comparison_operands_token sch l op r name v op' :
  comparison_operands sch l op r = Some (name, v, op') ->
  is_Some (op_token op') -> is_Some (op_token op).
Proof.
  intros [(_ & _ & ->)|(_ & _ & Hf)]%comparison_operands_inv; [done|].
  intros _. by eapply flip_token.
Qed.

(** The extracted comparison is the predicate. *)
Lemma comparison_operands_eq sch row l op r name v op' :
  row_typed sch row ->
  comparison_operands sch l op r = Some (name, v, op') ->
  is_Some (op_token op') ->
  truth sch row (BinaryExpr l op r)
  = (index_of sch name ≫= (fun i => row !! i)) ≫= (fun x => scalar_cmp op' x v).
Proof.
  intros Hrow Hops Htok.
  assert (truth sch row (BinaryExpr l op r)
          = a ← value sch row l; b ← value sch row r; scalar_cmp op a b) as ->.
  { apply (comparison_operands_token _ _ _ _ _ _ _ Hops) in Htok.
    destruct op; try done; by destruct Htok. }
  apply comparison_operands_inv in Hops as [(Hn & Hl & ->)|(Hl & Hn & Hf)].
  - rewrite (column_name_value _ _ _ _ Hrow Hn), (literal_value _ _ _ _ Hl).
    by destruct (index_of sch name ≫= _).
  - rewrite (column_name_value _ _ _ _ Hrow Hn), (literal_value _ _ _ _ Hl). simpl.
    destruct (index_of sch name ≫= _); simpl; [|done]. by rewrite (cmp_flip _ _ _ _ Hf).
Qed.

Lemma comparison_operands_truth sch row l op r name v op' :
  row_typed sch row ->
  comparison_operands sch l op r = Some (name, v, op') ->
  is_Some (op_token op') ->
  truth sch row (BinaryExpr l op r) = Some true ->
  exists x, (index_of sch name ≫= (fun i => row !! i)) = Some x /\ scalar_cmp op' x v = Some true.
Proof.
  intros Hrow Hops Htok. rewrite (comparison_operands_eq _ _ _ _ _ _ _ _ Hrow Hops Htok).
  destruct (index_of sch name ≫= _) as [x|]; simpl; [eauto|done].
Qed.

Lemma equality_term_operands sch l r name v :
  equality_term sch l r = Some (name, v) -> comparison_operands sch l OpEq r = Some (name, v, OpEq).
Proof.
  unfold equality_term, comparison_operands.
  destruct (column_name l sch), (literal r); try (by intros [= -> ->]);
    destruct (literal l), (column_name r sch); simpl; congruence.
Qed.

Lemma kleene_or_true a b : kleene_or a b = Some true -> a = Some true \/ b = Some true.
Proof. destruct a as [[]|], b as [[]|]; simpl; auto; done. Qed.
Lemma kleene_and_true a b : kleene_and a b = Some true -> a = Some true /\ b = Some true.
Proof. destruct a as [[]|], b as [[]|]; simpl; auto; done. Qed.

(** A collected disjunction of equalities: one of its terms holds. *)
Definition term_holds (sch : Schema) (row : list ScalarValue) (t : string * ScalarValue) : Prop :=
  exists x, (index_of sch t.1 ≫= (fun i => row !! i)) = Some x
            /\ scalar_cmp OpEq x t.2 = Some true.

Lemma collect_or_truth sch row e out out' :
  row_typed sch row ->
  collect_logical_or_equalities e sch out = Some out' ->
  exists ts, out' = out ++ ts /\ (truth sch row e = Some true -> Exists (term_holds sch row) ts).
Proof.
  intros Hrow; revert out out'.
  induction e as [| |l IHl op r IHr| | | | | | | |]; intros out out'; simpl; try done.
  case_decide as Hor; [|case_decide as Heq; [|done]].
  - subst op.
    destruct (collect_logical_or_equalities l sch out) as [out1|] eqn:H1; simpl; [|done].
    intros H2. destruct (IHl _ _ H1) as (t1 & -> & Ht1).
    destruct (IHr _ _ H2) as (t2 & -> & Ht2).
    exists (t1 ++ t2). rewrite <- app_assoc. split; [done|].
    intros [?|?]%kleene_or_true; apply Exists_app; auto.
  - subst op. destruct (equality_term sch l r) as [[n v]|] eqn:Ht; simpl; [|done].
    intros [= <-]. exists [(n, v)]. split; [done|]. intros Htrue.
    constructor. apply equality_term_operands in Ht.
    eapply comparison_operands_truth; [done|done|by eexists|exact Htrue].
Qed.

Lemma same_column_membership_holds sch row ts name vs :
  same_column_membership ts = Some (name, vs) ->
  Exists (term_holds sch row) ts ->
  exists x, (index_of sch name ≫= (fun i => row !! i)) = Some x
            /\ exists c, c ∈ vs /\ scalar_cmp OpEq x c = Some true.
Proof.
  unfold same_column_membership. destruct ts as [|[n v] ts']; [done|].
  set (ts := (n, v) :: ts'). destruct (existsb _ ts) eqn:Hall; [done|].
  intros [= <- <-] Hex. apply Exists_exists in Hex as ([n' c] & Hin & x & Hx & Hc).
  assert (n' = n) as ->.
  { apply not_true_iff_false in Hall. destruct (String.eqb n' n) eqn:He.
    - by apply String.eqb_eq.
    - exfalso. apply Hall, existsb_exists. exists (n', c). split; [by apply list_elem_of_In|].
      simpl. by rewrite He. }
  exists x. split; [done|]. exists c. split; [|done].
  apply (list_elem_of_fmap_2 snd) in Hin. exact Hin.
Qed.

Lemma or_equalities_truth sch row l r name vs :
  row_typed sch row ->
  logical_or_equalities l r sch = Some (name, vs) ->
  truth sch row (BinaryExpr l OpOr r) = Some true ->
  exists x, (index_of sch name ≫= (fun i => row !! i)) = Some x
            /\ exists c, c ∈ vs /\ scalar_cmp OpEq x c = Some true.
Proof.
  intros Hrow. unfold logical_or_equalities.
  destruct (collect_logical_or_equalities l sch []) as [t1|] eqn:H1; simpl; [|done].
  destruct (collect_logical_or_equalities r sch t1) as [t2|] eqn:H2; simpl; [|done].
  intros Hm Ht.
  destruct (collect_or_truth _ _ _ _ _ Hrow H1) as (ts1 & -> & Ht1).
  destruct (collect_or_truth _ _ _ _ _ Hrow H2) as (ts2 & -> & Ht2).
  apply (same_column_membership_holds _ _ _ _ _ Hm). simpl.
  apply kleene_or_true in Ht as [?|?]; apply Exists_app; auto.
Qed.

(** ** Specs that accept a set of rows *)

Definition accepts_when (P : list ScalarValue -> Prop) (j : json) (b : Builder Bytes) : Prop :=
  exists w, j = encode w /\ spec_wf b w /\
    forall row, row_typed (schema b) row -> P row -> denote (env_of b) row w = true.

(** Specs that accept exactly the rows of a set. *)
Definition decides (P : list ScalarValue -> Prop) (j : json) (b : Builder Bytes) : Prop :=
  exists w, j = encode w /\ spec_wf b w /\
    forall row, row_typed (schema b) row -> denote (env_of b) row w = true <-> P row.
Lemma decides_accepts P j b : decides P j b -> accepts_when P j b.
Proof. intros (w & -> & Hw & Hd). exists w. split; [done|]. split; [done|]. intros row Hrow HP. by apply Hd. Qed.
Lemma decides_extends P P' j b b' :
  decides P j b -> extends b b' ->
  (forall row, row_typed (schema b) row -> P' row <-> P row) -> decides P' j b'.
Proof.
  intros (w & -> & Hw & Hd) He HP. exists w. split; [done|].
  split; [by eapply spec_wf_extends|]. intros row Hrow.
  rewrite (denote_extends _ _ _ _ He Hw). destruct He as (Hs & _). rewrite Hs in Hrow. by rewrite Hd, HP.
Qed.

Definition sound (e : Expr) (j : json) (b : Builder Bytes) : Prop :=
  accepts_when (fun row => truth (schema b) row e = Some true) j b.

Lemma accepts_when_extends P P' j b b' :
  accepts_when P j b -> extends b b' ->
  (forall row, row_typed (schema b) row -> P' row -> P row) -> accepts_when P' j b'.
Proof.
  intros (w & -> & Hw & Hd) He HP. exists w. split; [done|].
  split; [by eapply spec_wf_extends|]. intros row Hrow HPr.
  rewrite (denote_extends _ _ _ _ He Hw). destruct He as (Hs & _). rewrite Hs in Hrow. auto.
Qed.

Lemma sound_extends e j b b' : sound e j b -> extends b b' -> sound e j b'.
Proof.
  intros Hs He. eapply accepts_when_extends; [exact Hs|done|].
  destruct He as (-> & _). done.
Qed.

Lemma sound_iff e e' j b :
  sound e j b -> (forall row, row_typed (schema b) row ->
    truth (schema b) row e' = Some true -> truth (schema b) row e = Some true) -> sound e' j b.
Proof. intros H Hi. eapply accepts_when_extends; [exact H|reflexivity|exact Hi]. Qed.

Lemma column_value_extends b b' row name : extends b b' -> column_value b' row name = column_value b row name.
Proof. intros (Hs & _). unfold column_value. by rewrite Hs. Qed.

Lemma join_keys_decode name vs keys :
  join_keys_ipc name vs = Ok keys -> decode_keys keys = vs.
Proof.
  unfold join_keys_ipc. destruct (iter_to_array vs) as [a|] eqn:Ha; [|done].
  apply iter_to_array_values in Ha as [ty ->].
  rewrite try_new_valid.
  - intros Hw%ipc_roundtrip. unfold decode_keys. by rewrite Hw.
  - split; [by repeat constructor|].
    by intros c1 c2 ->%list_elem_of_singleton ->%list_elem_of_singleton.
Qed.

Definition row_in (b : Builder Bytes) (name : string) (vs : list ScalarValue)
    (row : list ScalarValue) : Prop :=
  exists x, column_value b row name = Some x /\ exists c, c ∈ vs /\ scalar_cmp OpEq x c = Some true.

Lemma membership_decides b name vs :
  small b -> yields b (membership name vs) b (decides (row_in b name vs)).
Proof.
  intros Hb. unfold membership. case_match; [by apply yields_lift|].
  eapply yields_bind; [done|by apply remote_column_spec|].
  intros [rn idx] b1 H1 (Hin & Hrn & Hval). apply yields_gets.
  apply yields_lift_bind; [done|]. intros keys Hk.
  split; [simpl; etrans; [done|apply extends_join_keys]|].
  intros j [= <-]. simpl.
  exists (WIn rn idx (length (join_keys b1))). split; [done|]. split.
  - simpl. rewrite length_app; simpl. split; [done|]. split; [lia|done].
  - intros row Hrow. unfold row_in. rewrite <- (column_value_extends _ _ row name H1). simpl.
    rewrite Hval, map_app, lookup_app_r by (rewrite length_map; lia).
    rewrite length_map, Nat.sub_diag; simpl.
    destruct (join_keys_ipc rn vs) as [ks|] eqn:Hks; simplify_eq/=.
    apply join_keys_decode in Hks as ->.
    destruct (column_value b1 row name) as [x|]; simpl; [|split; [done|by intros (x & [=] & _)]].
    rewrite existsb_exists. split.
    + intros (c & Hc & Heq). exists x. split; [done|]. exists c. split; [by apply list_elem_of_In|].
      by destruct (scalar_cmp OpEq x c) as [[]|].
    + intros (y & [= <-] & c & Hc & Heq). exists c. split; [by apply list_elem_of_In|]. by rewrite Heq.
Qed.
Lemma membership_spec b name vs :
  small b -> yields b (membership name vs) b (accepts_when (row_in b name vs)).
Proof. intros Hb. eapply yields_weaken; [by apply membership_decides|]. intros j b' _. apply decides_accepts. Qed.

Definition row_cmp (b : Builder Bytes) (op : Operator) (name : string) (v : ScalarValue)
    (row : list ScalarValue) : Prop :=
  is_Some (op_token op) -> exists x, column_value b row name = Some x /\ scalar_cmp op x v = Some true.

Lemma push_comparison_decides b name v op :
  small b -> yields b (push_comparison name v op) b (fun j b' =>
    is_Some (op_token op) /\
    decides (fun row => exists x, column_value b row name = Some x /\ scalar_cmp op x v = Some true) j b').
Proof.
  intros Hb. unfold push_comparison.
  eapply yields_bind; [done|by apply remote_column_spec|].
  intros [rn idx] b1 H1 (Hin & Hrn & Hval).
  apply yields_lift_bind; [done|]. intros tok Htok.
  apply yields_lift_bind; [done|]. intros c Hc.
  split; [simpl; etrans; [done|apply extends_constants]|].
  intros j [= <-]. simpl. rewrite length_app; simpl.
  replace (length (constants b1) + 1 - 1)%nat with (length (constants b1)) by lia.
  split; [by eexists|].
  exists (WComparison op rn idx (length (constants b1))). split; [simpl; by rewrite Htok|]. split.
  - simpl. rewrite length_app; simpl. split; [by eexists|]. split; [lia|done].
  - intros row Hrow. rewrite <- (column_value_extends _ _ row name H1). simpl.
    rewrite Hval, lookup_app_r, Nat.sub_diag by lia; simpl.
    unfold constant_from_scalar in Hc. case_match; simplify_eq.
    destruct (column_value b1 row name) as [x|]; simpl; [|split; [done|by intros (x & [=] & _)]].
    split; [|by intros (y & [= <-] & ->)]. intros Heq. exists x. split; [done|].
    by destruct (scalar_cmp op x c) as [[]|].
Qed.
Lemma push_comparison_spec b name v op :
  small b -> yields b (push_comparison name v op) b (accepts_when (row_cmp b op name v)).
Proof.
  intros Hb. eapply yields_weaken; [by apply push_comparison_decides|]. intros j b' _ [Ht Hj].
  apply decides_accepts in Hj as (w & -> & Hw & Hd). exists w. split; [done|]. split; [done|].
  intros row Hrow HP. by apply Hd, HP.
Qed.

Definition exact (e : Expr) : json -> Builder Bytes -> Prop :=
  fun j b => decides (fun row => truth (schema b) row e = Some true) j b.
Lemma is_null_node_exact b name (neg : bool) e inner :
  small b -> e = (if neg then IsNotNull inner else IsNull inner) ->
  column_name inner (schema b) = Some name ->
  yields b (bind (remote_column name) (fun '(rn, index) => ret (is_null_node rn index neg))) b
    (exact e).
Proof.
  intros Hb -> Hn. eapply yields_bind; [done|by apply remote_column_spec|].
  intros [rn idx] b1 H1 (Hin & Hrn & Hval). apply yields_ret; [done|].
  exists (WIsNull rn idx neg). split; [done|]. split; [done|].
  intros row Hrow. simpl. rewrite Hval, (column_value_extends _ _ _ _ H1).
  destruct H1 as (Hs & _). rewrite Hs in *. unfold column_value.
  rewrite <- (column_name_value _ _ _ _ Hrow Hn).
  destruct neg; simpl; destruct (value (schema b) row inner) as [v|]; simpl;
    try (by split); destruct (is_null v); by split.
Qed.
Lemma is_null_node_spec b name (neg : bool) e inner :
  small b -> e = (if neg then IsNotNull inner else IsNull inner) ->
  column_name inner (schema b) = Some name ->
  yields b (bind (remote_column name) (fun '(rn, index) => ret (is_null_node rn index neg))) b
    (sound e).
Proof. intros Hb He Hn. eapply yields_weaken; [by apply (is_null_node_exact _ _ _ e inner)|]. intros j b' _. apply decides_accepts. Qed.

Lemma and_sound b l r jl jr :
  sound l jl b -> sound r jr b -> sound (BinaryExpr l OpAnd r) (conjunction "and" jl jr) b.
Proof.
  intros (wl & -> & Hl & Hdl) (wr & -> & Hr & Hdr). exists (WAnd wl wr).
  split; [done|]. split; [done|]. intros row Hrow [??]%kleene_and_true. simpl.
  by rewrite Hdl, Hdr.
Qed.

Lemma or_sound b l r jl jr :
  sound l jl b -> sound r jr b -> sound (BinaryExpr l OpOr r) (conjunction "or" jl jr) b.
Proof.
  intros (wl & -> & Hl & Hdl) (wr & -> & Hr & Hdr). exists (WOr wl wr).
  split; [done|]. split; [done|]. intros row Hrow [?|?]%kleene_or_true; simpl.
  - by rewrite Hdl.
  - by rewrite Hdr, orb_true_r.
Qed.

Lemma and_left_sound b l r j : sound l j b -> sound (BinaryExpr l OpAnd r) j b.
Proof. intros H. eapply sound_iff; [exact H|]. by intros row _ [??]%kleene_and_true. Qed.
Lemma and_right_sound b l r j : sound r j b -> sound (BinaryExpr l OpAnd r) j b.
Proof. intros H. eapply sound_iff; [exact H|]. by intros row _ [??]%kleene_and_true. Qed.

(** ** The translation of logical expressions *)

Definition builds (m : BM Bytes json) (e : Expr) : Prop :=
  forall b, small b -> yields b m b (sound e).

Lemma or_membership_spec b l r name vs :
  small b -> logical_or_equalities l r (schema b) = Some (name, vs) ->
  yields b (membership name vs) b (sound (BinaryExpr l OpOr r)).
Proof.
  intros Hb Hor. eapply yields_weaken; [by apply membership_spec|].
  intros j b' He Hj. eapply accepts_when_extends; [exact Hj|reflexivity|].
  intros row Hrow Ht. destruct He as (Hs & _). rewrite Hs in *.
  exact (or_equalities_truth _ _ _ _ _ _ Hrow Hor Ht).
Qed.

Lemma comparison_spec b l op r :
  small b ->
  yields b (bind (lift (comparison_operands (schema b) l op r))
              (fun '(name, v, op') => push_comparison name v op')) b
    (sound (BinaryExpr l op r)).
Proof.
  intros Hb. apply yields_lift_bind; [done|]. intros [[name v] op'] Hops.
  eapply yields_weaken; [by apply push_comparison_spec|].
  intros j b' He Hj. eapply accepts_when_extends; [exact Hj|reflexivity|].
  intros row Hrow Ht Htok. destruct He as (Hs & _). rewrite Hs in *.
  exact (comparison_operands_truth _ _ _ _ _ _ _ _ Hrow Hops Htok Ht).
Qed.

Lemma binary_spec bl br l op r :
  builds bl l -> builds br r -> builds (binary bl br l op r) (BinaryExpr l op r).
Proof.
  intros Hl Hr b Hb.
  destruct op; simpl; try (apply yields_gets; by apply comparison_spec).
  - eapply yields_attempt; [by apply Hl|]. intros ol b1 H1 Hol.
    eapply yields_attempt; [apply Hr; by eapply small_extends|]. intros or b2 H2 Hor.
    apply yields_lift; [by etrans|].
    intros j. destruct ol as [jl|], or as [jr|]; intros [= <-];
      eauto using and_sound, and_left_sound, and_right_sound, sound_extends.
  - apply yields_gets.
    destruct (logical_or_equalities l r (schema b)) as [[name vs]|] eqn:Hor;
      [by apply or_membership_spec|].
    apply yields_gets.
    eapply yields_attempt; [by apply Hl|]. intros ol b1 H1 Hol.
    eapply yields_attempt; [apply Hr; by eapply small_extends|]. intros or b2 H2 Hor'.
    assert (extends b b2) by by etrans.
    destruct ol as [jl|], or as [jr|]; try by apply yields_rollback.
    case_match; [by apply yields_rollback|].
    apply yields_ret; eauto using or_sound, sound_extends.
Qed.

Lemma in_list_truth sch row inner name items vs :
  row_typed sch row -> column_name inner sch = Some name ->
  option_collect literal items = Some vs ->
  truth sch row (InList inner items false) = Some true ->
  exists x, (index_of sch name ≫= (fun i => row !! i)) = Some x
            /\ exists c, c ∈ vs /\ scalar_cmp OpEq x c = Some true.
Proof.
  intros Hrow Hn Hvs. simpl.
  rewrite (column_name_value _ _ _ _ Hrow Hn), (literals_values _ _ _ _ Hvs).
  destruct (index_of sch name ≫= _) as [x|]; simpl; [|done].
  case_match eqn:Hex; [|by case_match]. intros _. exists x. split; [done|].
  apply existsb_exists in Hex as (c & Hc & Heq). exists c.
  split; [by apply list_elem_of_In|]. by destruct (scalar_cmp OpEq x c) as [[]|].
Qed.

Lemma in_list_spec b inner name items vs :
  small b -> column_name inner (schema b) = Some name ->
  option_collect literal items = Some vs ->
  yields b (membership name vs) b (sound (InList inner items false)).
Proof.
  intros Hb Hn Hvs. eapply yields_weaken; [by apply membership_spec|].
  intros j b' He Hj. eapply accepts_when_extends; [exact Hj|reflexivity|].
  intros row Hrow Ht. destruct He as (Hs & _). rewrite Hs in *.
  exact (in_list_truth _ _ _ _ _ _ Hrow Hn Hvs Ht).
Qed.

Lemma build_spec e : builds (build e) e.
Proof.
  induction e as [| |l IHl op r IHr| |inner _|inner _|inner _ items neg| | | |]; simpl;
    try (intros b Hb; by apply yields_lift).
  - by apply binary_spec.
  - intros b Hb. apply yields_gets, yields_lift_bind; [done|]. intros name Hn.
    by eapply (is_null_node_spec b name false).
  - intros b Hb. apply yields_gets, yields_lift_bind; [done|]. intros name Hn.
    by eapply (is_null_node_spec b name true).
  - intros b Hb. destruct neg; [by apply yields_lift|].
    apply yields_gets, yields_lift_bind; [done|]. intros name Hn.
    apply yields_lift_bind; [done|]. intros vs Hvs. by apply in_list_spec.
Qed.

(** A list of specs that all accept the rows of [P]. *)
Definition all_accept (P : list ScalarValue -> Prop) (js : list json) (b : Builder Bytes) : Prop :=
  exists ws, js = map encode ws /\ Forall (spec_wf b) ws /\
    forall row, row_typed (schema b) row -> P row ->
      Forall (fun w => denote (env_of b) row w = true) ws.

Lemma all_accept_nil P b : all_accept P [] b.
Proof. exists []. split; [done|]. split; [constructor|]. intros; constructor. Qed.

Lemma all_accept_cons P j js b :
  accepts_when P j b -> all_accept P js b -> all_accept P (j :: js) b.
Proof.
  intros (w & -> & Hw & Hd) (ws & -> & Hws & Hds). exists (w :: ws).
  split; [done|]. split; [by constructor|]. intros; constructor; auto.
Qed.

Lemma all_accept_app P js js' b :
  all_accept P js b -> all_accept P js' b -> all_accept P (js ++ js') b.
Proof.
  intros (ws & -> & Hw & Hd) (ws' & -> & Hws & Hds). exists (ws ++ ws').
  rewrite map_app. split; [done|]. split; [by apply Forall_app|].
  intros; apply Forall_app; auto.
Qed.

Lemma all_accept_extends P P' js b b' :
  all_accept P js b -> extends b b' ->
  (forall row, row_typed (schema b) row -> P' row -> P row) -> all_accept P' js b'.
Proof.
  intros (ws & -> & Hw & Hd) He HP. exists ws. split; [done|].
  split; [eapply Forall_impl; [exact Hw|]; by intros w; apply spec_wf_extends|].
  intros row Hrow HPr. destruct He as (Hs & He).
  rewrite Hs in Hrow. specialize (Hd row Hrow (HP _ Hrow HPr)).
  apply Forall_forall. intros w Hin. rewrite Forall_forall in Hw, Hd.
  rewrite (denote_extends b) by (auto; by split). auto.
Qed.

Lemma option_list_accept P o b :
  (forall j, o = Some j -> accepts_when P j b) -> all_accept P (option_list o) b.
Proof.
  destruct o as [j|]; intros H; simpl; [|apply all_accept_nil].
  apply all_accept_cons; [by apply H|apply all_accept_nil].
Qed.

Definition all_true (sch : Schema) (es : list Expr) (row : list ScalarValue) : Prop :=
  Forall (fun e => truth sch row e = Some true) es.

Lemma build_all_spec es b :
  small b -> yields b (build_all es) b (all_accept (all_true (schema b) es)).
Proof.
  revert b; induction es as [|e es IH]; intros b Hb; simpl.
  - apply yields_ret; [done|apply all_accept_nil].
  - eapply yields_attempt; [by apply build_spec|]. intros o b1 H1 Ho.
    eapply yields_bind; [done|apply IH; by eapply small_extends|].
    intros specs b2 H2 Hs. apply yields_ret; [by etrans|].
    assert (schema b1 = schema b) as Hs1 by apply H1.
    assert (schema b2 = schema b1) as Hs2 by apply H2.
    apply all_accept_app.
    + apply option_list_accept. intros j Hj.
      eapply accepts_when_extends; [by apply Ho|done|].
      rewrite Hs1. intros row _ Ht. by apply Forall_inv in Ht.
    + eapply all_accept_extends; [exact Hs|reflexivity|].
      rewrite Hs1. intros row _ Ht. by apply Forall_inv_tail in Ht.
Qed.

(** ** Physical expressions are translated as their logical reading *)

Lemma physical_column_name_logical p sch :
  physical_column_name p sch = column_name (logical_of p) sch.
Proof. induction p as [| | | | | |inner IH ty| |]; simpl; try done. by rewrite IH. Qed.

Lemma physical_literal_logical p : physical_literal p = literal (logical_of p).
Proof. induction p as [| | | | | |inner IH ty| |]; simpl; try done. by rewrite IH. Qed.

Lemma physical_comparison_logical sch l op r :
  physical_comparison_operands sch l op r
  = comparison_operands sch (logical_of l) op (logical_of r).
Proof.
  unfold physical_comparison_operands, comparison_operands.
  by rewrite !physical_column_name_logical, !physical_literal_logical.
Qed.

Lemma collect_physical_logical p sch out :
  collect_physical_or_equalities p sch out
  = collect_logical_or_equalities (logical_of p) sch out.
Proof.
  revert out; induction p as [| |l IHl op r IHr| | | | | |]; intros out; simpl; try done.
  case_decide; [rewrite IHl; by destruct (collect_logical_or_equalities _ _ out); simpl|].
  case_decide; [|done]. unfold physical_equality_term, equality_term.
  by rewrite !physical_column_name_logical, !physical_literal_logical.
Qed.

Lemma physical_or_logical l r sch :
  physical_or_equalities l r sch = logical_or_equalities (logical_of l) (logical_of r) sch.
Proof.
  unfold physical_or_equalities, logical_or_equalities.
  rewrite collect_physical_logical. destruct (collect_logical_or_equalities _ _ []); simpl; [|done].
  by rewrite collect_physical_logical.
Qed.

Lemma physical_literals_logical items :
  option_collect physical_literal items = option_collect literal (map logical_of items).
Proof.
  induction items as [|p items IH]; simpl; [done|].
  rewrite physical_literal_logical, IH. done.
Qed.

Lemma physical_binary_spec bl br l op r side :
  builds bl (logical_of l) -> builds br (logical_of r) ->
  builds (physical_binary bl br l op r side) (logical_of (PhysicalBinary l op r)).
Proof.
  intros Hl Hr b Hb. unfold physical_binary. apply yields_gets.
  destruct (if decide (op = OpOr) then _ else None) as [[name vs]|] eqn:Hor.
  { case_decide; [subst op|done]. destruct side; [|done].
    rewrite physical_or_logical in Hor. by apply or_membership_spec. }
  destruct (bool_decide (op = OpAnd) || bool_decide (op = OpOr)) eqn:Hop.
  - apply yields_gets.
    eapply yields_attempt; [by apply Hl|]. intros ol b1 H1 Hol.
    eapply yields_attempt; [apply Hr; by eapply small_extends|]. intros or b2 H2 Hor'.
    assert (extends b b2) by by etrans. cbv zeta.
    destruct (decide (op = OpAnd)) as [->|Hand].
    + destruct ol as [jl|], or as [jr|]; simpl; try (by apply yields_rollback);
        apply yields_ret; eauto using and_sound, and_left_sound, and_right_sound, sound_extends.
    + assert (op = OpOr) as ->.
      { apply orb_true_iff in Hop as [?%bool_decide_eq_true|?%bool_decide_eq_true]; done. }
      destruct ol as [jl|], or as [jr|]; try by apply yields_rollback.
      rewrite (bool_decide_eq_true_2 (OpOr = OpOr)) by done. rewrite andb_true_l.
      destruct (contains_join_keys _); [by apply yields_rollback|].
      apply yields_ret; eauto using or_sound, sound_extends.
  - rewrite physical_comparison_logical. by apply comparison_spec.
Qed.

Lemma build_physical_spec p side : builds (build_physical p side) (logical_of p).
Proof.
  induction p as [| |l IHl op r IHr|inner _|inner _|inner _ items neg| | |]; simpl;
    try (intros b Hb; by apply yields_lift).
  - by apply physical_binary_spec.
  - intros b Hb. apply yields_gets, yields_lift_bind; [done|]. intros name Hn.
    rewrite physical_column_name_logical in Hn. by eapply (is_null_node_spec b name false).
  - intros b Hb. apply yields_gets, yields_lift_bind; [done|]. intros name Hn.
    rewrite physical_column_name_logical in Hn. by eapply (is_null_node_spec b name true).
  - intros b Hb. destruct (neg || _) eqn:Hneg; [by apply yields_lift|].
    apply orb_false_iff in Hneg as [-> _].
    apply yields_gets, yields_lift_bind; [done|]. intros name Hn.
    apply yields_lift_bind; [done|]. intros vs Hvs.
    rewrite physical_column_name_logical in Hn. rewrite physical_literals_logical in Hvs.
    destruct side; [by apply in_list_spec|by apply yields_lift].
Qed.

(** ** Tuple membership: one superset per column *)

Definition non_null (v : ScalarValue) : Prop := is_null v = false.

Lemma membership_non_null b name vs j b' :
  membership name vs b = (Some j, b') -> Forall non_null vs.
Proof.
  unfold membership. destruct (_ || _) eqn:Hg; [done|]. intros _.
  apply orb_false_iff in Hg as [_ Hg]. apply Forall_forall. intros v Hv.
  apply not_true_iff_false in Hg. destruct (is_null v) eqn:Hn; [|done].
  exfalso; apply Hg, existsb_exists. exists v. split; [by apply list_elem_of_In|].
  unfold constant_from_scalar. by rewrite Hn.
Qed.

Lemma memberships_spec cols b :
  small b ->
  yields b (memberships cols) b (fun js b' =>
    Forall (fun c => Forall non_null c.2) cols /\
    all_accept (fun row => Forall (fun c => row_in b c.1 c.2 row) cols) js b').
Proof.
  revert b; induction cols as [|[name vs] cols IH]; intros b Hb; simpl.
  - apply yields_ret; [done|]. split; [constructor|apply all_accept_nil].
  - eapply (yields_bind _ _ _ _ (fun j b' => Forall non_null vs /\ accepts_when (row_in b name vs) j b')).
    { done. }
    { destruct (membership_spec b name vs Hb) as [He Hq]. split; [done|].
      intros j Hj. split; [|auto]. eapply membership_non_null.
      rewrite (surjective_pairing (membership name vs b)), Hj. done. }
    intros j b1 H1 [Hnn Hj].
    eapply yields_bind; [done|apply IH; by eapply small_extends|].
    intros js b2 H2 [Hnns Hjs]. apply yields_ret; [by etrans|].
    split; [by constructor|].
    apply all_accept_cons.
    + eapply accepts_when_extends; [exact Hj|done|].
      intros row _ Hin. by apply Forall_inv in Hin.
    + eapply all_accept_extends; [exact Hjs|reflexivity|].
      intros row _ Hin. apply Forall_inv_tail in Hin.
      eapply Forall_impl; [exact Hin|]. intros c (x & Hx & Hc). exists x.
      by rewrite (column_value_extends _ _ _ _ H1).
Qed.

Lemma struct_tuple_Some width p vs :
  struct_tuple width p = Some vs ->
  exists gs, literal (logical_of p) = Some (SVStruct gs [Some vs]) /\ length vs = width.
Proof.
  unfold struct_tuple. rewrite <- physical_literal_logical.
  destruct (physical_literal p) as [[|gs [|[ws|] [|]]]|]; try done.
  destruct (_ || _) eqn:Hg; [done|]. intros [= <-]. exists gs. split; [done|].
  apply orb_false_iff in Hg as [_ Hg]. apply negb_false_iff in Hg. by apply Nat.eqb_eq.
Qed.

Lemma struct_columns_value sch row p columns x :
  row_typed sch row ->
  physical_struct_columns p sch = Some columns ->
  value sch row (logical_of p) = Some x ->
  exists fs xs, x = SVStruct fs [Some xs] /\
    Forall2 (fun n v => (index_of sch n ≫= (fun i => row !! i)) = Some v) columns xs.
Proof.
  intros Hrow. unfold physical_struct_columns. destruct p as [| | | | | | |f args|]; try done.
  destruct (String.eqb f "struct") eqn:Hf; [|done]. apply String.eqb_eq in Hf as ->.
  intros Hc%option_collect_Some. simpl.
  destruct (option_collect _ (map logical_of args)) as [xs|] eqn:Hxs; simpl; [|done].
  destruct (call_struct xs) as [fs ->]. intros [= <-]. exists fs, xs. split; [done|].
  apply option_collect_Some in Hxs. revert columns Hc xs Hxs.
  induction args as [|a args IH]; intros columns Hc xs Hxs.
  - inversion Hc; subst. simpl in Hxs. inversion Hxs; subst. constructor.
  - inversion Hc as [|? n ? ns Hn Hns]; subst. simpl in Hxs.
    inversion Hxs as [|? v ? vs Hv Hvs]; subst. constructor; [|by apply IH].
    rewrite physical_column_name_logical in Hn.
    by rewrite <- (column_name_value _ _ _ _ Hrow Hn).
Qed.

Lemma in_struct_truth sch row p items columns tuples :
  row_typed sch row ->
  physical_struct_columns p sch = Some columns ->
  option_collect (struct_tuple (length columns)) items = Some tuples ->
  truth sch row (InList (logical_of p) (map logical_of items) false) = Some true ->
  exists xs ys, Forall2 (fun n v => (index_of sch n ≫= (fun i => row !! i)) = Some v) columns xs
    /\ ys ∈ tuples /\ length ys = length columns
    /\ (Forall non_null ys -> Forall2 (fun x y => scalar_cmp OpEq x y = Some true) xs ys).
Proof.
  intros Hrow Hcols Htup. simpl.
  destruct (value sch row (logical_of p)) as [x|] eqn:Hx; simpl; [|done].
  destruct (struct_columns_value _ _ _ _ _ Hrow Hcols Hx) as (fs & xs & -> & Hxs).
  assert (exists cs, option_collect (value sch row) (map logical_of items) = Some cs /\
            Forall2 (fun ys c => exists gs, c = SVStruct gs [Some ys] /\ length ys = length columns) tuples cs)
    as (cs & -> & Hcs).
  { apply option_collect_Some in Htup. induction Htup as [|p' ys items tuples Hp _ IH]; simpl.
    - exists []. split; [done|constructor].
    - destruct (struct_tuple_Some _ _ _ Hp) as (gs & Hg & Hlen).
      rewrite (literal_value _ _ _ _ Hg). destruct IH as (cs & -> & Hcs).
      eexists; split; [done|]. constructor; eauto. }
  simpl. case_match eqn:Hex; [|by case_match]. intros _.
  apply existsb_exists in Hex as (c & Hc & Heq). apply list_elem_of_In in Hc.
  apply list_elem_of_lookup in Hc as [i Hi].
  destruct (Forall2_lookup_r _ _ _ _ _ Hcs Hi) as (ys & Hys & gs & -> & Hlen).
  exists xs, ys. split; [done|]. split; [by eapply list_elem_of_lookup_2|]. split; [done|].
  intros Hnn. apply (cmp_struct fs gs); [|done].
  by destruct (scalar_cmp OpEq _ _) as [[]|].
Qed.

(** Field values: position [i] of a tuple lands in set [i]. *)
Lemma field_values_lookup width tuples i vs :
  field_values width tuples !! i = Some vs -> vs = omap (fun t => t !! i) tuples.
Proof.
  unfold field_values. rewrite list_lookup_fmap.
  destruct (seq 0 width !! i) as [k|] eqn:Hk; simpl; [|done].
  apply lookup_seq in Hk as [-> _]. by intros [= <-].
Qed.

Lemma field_values_elem (tuples : list (list ScalarValue)) i ys (y : ScalarValue) :
  ys ∈ tuples -> ys !! i = Some y -> y ∈ omap (fun t : list ScalarValue => t !! i) tuples.
Proof. intros Hys Hy. apply list_elem_of_omap. eauto. Qed.

Lemma zip_field_values (columns : list string) tuples i n :
  columns !! i = Some n ->
  zip columns (field_values (length columns) tuples) !! i
  = Some (n, omap (fun t : list ScalarValue => t !! i) tuples).
Proof.
  intros Hn. apply lookup_zip_with_Some. exists n. eexists. split; [reflexivity|].
  split; [done|]. unfold field_values. rewrite list_lookup_fmap.
  rewrite lookup_seq_lt by (by eapply lookup_lt_Some). done.
Qed.

(** A row whose tuple is in the list has each component in its set. *)
Lemma tuple_row_in b row p items columns tuples :
  row_typed (schema b) row ->
  physical_struct_columns p (schema b) = Some columns ->
  option_collect (struct_tuple (length columns)) items = Some tuples ->
  let cols := zip columns (field_values (length columns) tuples) in
  Forall (fun c => Forall non_null c.2) cols ->
  truth (schema b) row (InList (logical_of p) (map logical_of items) false) = Some true ->
  Forall (fun c => row_in b c.1 c.2 row) cols.
Proof.
  intros Hrow Hc Ht cols Hnn Htrue.
  destruct (in_struct_truth _ _ _ _ _ _ Hrow Hc Ht Htrue) as (xs & ys & Hxs & Hys & Hlen & Heq).
  assert (Forall non_null ys) as Hys_nn.
  { apply Forall_lookup. intros i y Hy.
    destruct (lookup_lt_is_Some_2 columns i) as [n Hn];
      [rewrite <- Hlen; by eapply lookup_lt_Some|].
    pose proof (zip_field_values _ tuples _ _ Hn) as Hz.
    rewrite Forall_lookup in Hnn. specialize (Hnn _ _ Hz). simpl in Hnn.
    rewrite Forall_forall in Hnn. apply Hnn. by eapply field_values_elem. }
  specialize (Heq Hys_nn). apply Forall_lookup. intros i [n vs] Hi.
  assert (exists k, columns !! i = Some k) as [n' Hn].
  { apply lookup_zip_with_Some in Hi as (k & ? & ? & ? & ?). eauto. }
  unfold cols in Hi. rewrite (zip_field_values _ tuples _ _ Hn) in Hi. simplify_eq/=.
  destruct (Forall2_lookup_l _ _ _ _ _ Hxs Hn) as (x & Hx & Hval).
  destruct (Forall2_lookup_l _ _ _ _ _ Heq Hx) as (y & Hy & Hxy).
  exists x. split; [exact Hval|]. exists y. split; [by eapply field_values_elem|done].
Qed.

Definition accepts_all (e : Expr) (js : list json) (b : Builder Bytes) : Prop :=
  all_accept (fun row => truth (schema b) row e = Some true) js b.

Lemma accepts_all_extends e js b b' :
  accepts_all e js b -> extends b b' -> accepts_all e js b'.
Proof.
  intros Hs He. eapply all_accept_extends; [exact Hs|done|].
  destruct He as (-> & _). done.
Qed.

Lemma struct_memberships_spec p items neg b :
  small b ->
  yields b (struct_memberships p items neg) b (accepts_all (logical_of (InListExpr p items neg))).
Proof.
  intros Hb. unfold struct_memberships. destruct (neg || _) eqn:Hneg; [by apply yields_lift|].
  apply orb_false_iff in Hneg as [-> _]. apply yields_gets, yields_lift_bind; [done|].
  intros columns Hcols. destruct (_ || _); [by apply yields_lift|].
  apply yields_lift_bind; [done|]. intros tuples Htup. apply yields_gets.
  eapply yields_attempt; [by apply memberships_spec|].
  intros [specs|] b1 H1 Hspecs; [|by apply yields_rollback].
  apply yields_ret; [done|]. destruct (Hspecs specs eq_refl) as [Hnn Hacc].
  eapply all_accept_extends; [exact Hacc|reflexivity|].
  assert (schema b1 = schema b) as Hs by apply H1. intros row Hrow Ht. rewrite Hs in *.
  by eapply tuple_row_in.
Qed.

Lemma single_spec p side b :
  small b ->
  yields b (let? o := attempt (build_physical p side) in ret (option_list o))%builder b
    (accepts_all (logical_of p)).
Proof.
  intros Hb. eapply yields_attempt; [by apply build_physical_spec|].
  intros o b1 H1 Ho. apply yields_ret; [done|]. by apply option_list_accept.
Qed.

Lemma build_physical_top_spec p side b :
  small b -> yields b (build_physical_top p side) b (accepts_all (logical_of p)).
Proof.
  pose proof (fun p => single_spec p side) as Hsingle.
  revert b. induction p as [| |l IHl op r IHr| | |inner _ items neg| | |]; intros b Hb;
    try (by apply Hsingle).
  - destruct op; try (by apply Hsingle). simpl.
    eapply yields_bind; [done|by apply IHl|]. intros jl b1 H1 Hl.
    eapply yields_bind; [done|apply IHr; by eapply small_extends|]. intros jr b2 H2 Hr.
    apply yields_ret; [by etrans|]. apply all_accept_app.
    + eapply all_accept_extends; [by eapply accepts_all_extends; [exact Hl|]|reflexivity|].
      by intros row _ [??]%kleene_and_true.
    + eapply all_accept_extends; [exact Hr|reflexivity|].
      by intros row _ [??]%kleene_and_true.
  - destruct side; [|by apply Hsingle]. cbn -[struct_memberships].
    eapply yields_attempt; [by apply struct_memberships_spec|].
    intros [specs|] b1 H1 Hspecs; [by apply yields_ret; [|apply Hspecs]|].
    destruct (Hsingle (InListExpr inner items neg) b1) as [He Hq]; [by eapply small_extends|].
    split; [by etrans|exact Hq].
Qed.

Lemma build_physical_all_spec ps side b :
  small b ->
  yields b (build_physical_all ps side) b
    (fun js b' => all_accept (all_true (schema b') (map logical_of ps)) js b').
Proof.
  revert b; induction ps as [|p ps IH]; intros b Hb; simpl.
  - apply yields_ret; [done|apply all_accept_nil].
  - eapply yields_bind; [done|by apply build_physical_top_spec|]. intros js b1 H1 Hj.
    eapply yields_bind; [done|apply IH; by eapply small_extends|]. intros js' b2 H2 Hj'.
    apply yields_ret; [by etrans|]. apply all_accept_app.
    + eapply all_accept_extends; [by eapply accepts_all_extends; [exact Hj|]|reflexivity|].
      intros row _ Ht. by apply Forall_inv in Ht.
    + eapply all_accept_extends; [exact Hj'|reflexivity|].
      intros row _ Ht. by apply Forall_inv_tail in Ht.
Qed.

(** ** Totality: collecting specs never fails *)

Definition total {A} (m : BM Bytes A) : Prop := forall b, exists a b', m b = (Some a, b').

Lemma total_ret {A} (a : A) : total (ret a).
Proof. intros b. by exists a, b. Qed.
Lemma total_bind {A B} (m : BM Bytes A) (k : A -> BM Bytes B) :
  total m -> (forall a, total (k a)) -> total (bind m k).
Proof. intros Hm Hk b. unfold bind. destruct (Hm b) as (a & b' & ->). apply Hk. Qed.
Lemma total_attempt {A} (m : BM Bytes A) : total (attempt m).
Proof. intros b. unfold attempt. destruct (m b) as [o b']. by exists o, b'. Qed.
#[local] Hint Resolve total_ret total_bind total_attempt : core.

Lemma build_all_total es : total (build_all es).
Proof. induction es; simpl; auto. Qed.

Lemma build_physical_top_total p side : total (build_physical_top p side).
Proof.
  induction p as [| |l IHl op r IHr| | |inner _ items neg| | |]; simpl; auto.
  - destruct op; auto.
  - destruct side; auto. apply total_bind; [auto|]. intros [specs|]; auto.
Qed.

Lemma build_physical_all_total ps side : total (build_physical_all ps side).
Proof.
  induction ps; simpl; auto using build_physical_top_total.
Qed.
End Sound.
