(* ===== verification/FilterDoc.v ===== *)
(** * Filter pushdown: documents

    What [serialize], [serialize_physical_for_remote],
    [serialize_physical_delta_for_remote] and [merge] put on the wire. *)

From S2P Require Import Prelude Json Arrow Filters FilterSpec FilterSound.

#[local] Open Scope Z_scope.

Section Documents.
Context {Text Bytes : Type} `{HK : !ArrowKernel Text Bytes} `{HA : !ArrowLaws Text Bytes}.

(** ** Reading back what was written *)

Lemma value_columns_Ok i cs fs cols :
  value_columns i cs = Ok (fs, cols) ->
  exists tys, cols = zip_with (fun ty c => TypedArray ty [c]) tys cs /\ length tys = length cs
    /\ Forall2 (fun f c => field_type f = array_type c) fs cols.
Proof.
  revert i fs cols; induction cs as [|c cs IH]; intros i fs cols; simpl.
  - intros [= <- <-]. exists []. repeat split; constructor.
  - destruct (to_array_of_size_1 c) as [arr|] eqn:Ha; [|done].
    apply to_array_values in Ha as [ty ->].
    destruct (value_columns (S i) cs) as [[fs' cols']|] eqn:Hv; [|done].
    intros [= <- <-]. destruct (IH _ _ _ Hv) as (tys & -> & Hlen & Hty).
    exists (ty :: tys). simpl. rewrite Hlen. repeat split; by constructor.
Qed.

Lemma zip_columns_len1 (tys : list DataType) (cs : list ScalarValue) c :
  c ∈ zip_with (fun ty v => TypedArray (Text := Text) ty [v]) tys cs -> array_len c = 1%nat.
Proof.
  intros Hc. apply list_elem_of_lookup in Hc as [i Hi].
  by apply lookup_zip_with_Some in Hi as (ty & v & -> & _ & _).
Qed.

Lemma document_columns_len1 (text : Text) tys cs c :
  c ∈ StringArray [text] :: zip_with (fun ty v => TypedArray ty [v]) tys cs -> array_len c = 1%nat.
Proof. intros [->|Hc]%elem_of_cons; [done|by eapply zip_columns_len1]. Qed.

(** Documents pass the batch validation. *)
Lemma document_valid (f0 : Field) fs (text : Text) tys cs :
  field_type f0 = Utf8 ->
  Forall2 (fun f c => field_type f = array_type c) fs
    (zip_with (fun ty v => TypedArray (Text := Text) ty [v]) tys cs) ->
  batch_valid (f0 :: fs) (StringArray [text] :: zip_with (fun ty v => TypedArray ty [v]) tys cs).
Proof.
  intros H0 Hty. split; [by constructor|].
  intros c1 c2 Hc1 Hc2. by rewrite (document_columns_len1 _ _ _ _ Hc1), (document_columns_len1 _ _ _ _ Hc2).
Qed.

Lemma write_document_Ok doc cs bytes :
  write_document doc cs = Ok bytes ->
  exists batch, ipc_read bytes = Ok batch
    /\ document_batch batch (json_to_string (Bytes := Bytes) doc) cs.
Proof.
  unfold write_document.
  destruct (value_columns 0 cs) as [[fs cols]|] eqn:Hv; [|done].
  destruct (value_columns_Ok _ _ _ _ Hv) as (tys & -> & Hlen & Hty).
  rewrite try_new_valid by by apply document_valid.
  intros Hw%ipc_roundtrip. eexists; split; [exact Hw|].
  exists (mkField "filter_spec" Utf8 false []), fs, tys. done.
Qed.

Lemma document_parse batch doc cs :
  document_batch batch (json_to_string (Bytes := Bytes) doc) cs ->
  parse_document (Bytes := Bytes) batch = Ok doc.
Proof.
  intros (f0 & fs & tys & _ & _ & Hc & _). unfold parse_document. rewrite Hc. apply json_roundtrip.
Qed.

Lemma document_num_columns batch (text : Text) cs :
  document_batch batch text cs -> num_columns batch = S (length cs).
Proof.
  intros (f0 & fs & tys & _ & _ & Hc & Hlen). unfold num_columns. rewrite Hc. simpl.
  rewrite length_zip_with. lia.
Qed.

(** ** Snapshots *)

Definition snapshot_preds (id_prefix : string) (ws : list WireExpr) : list (string * WireExpr) :=
  imap (fun i w => (id_prefix +:+ ":" +:+ pretty i, w)) ws.

Lemma finish_snapshot_denotes ws cs rc source prefix pd ks :
  finish_snapshot (map encode ws) cs rc source prefix = Ok pd ->
  ws <> [] \/ source = "join" ->
  pushdown_denotes (with_join_keys pd ks) (snapshot_preds prefix ws) (mkEnv cs (map decode_keys ks))
  /\ pd_columns pd = rc /\ pd_predicate_count pd = length ws.
Proof.
  intros Hf Hne. unfold finish_snapshot in Hf.
  assert ((match map encode ws with [] => true | _ => false end) && negb (String.eqb source "join")
          = false) as Hg.
  { destruct Hne as [Hne| ->]; [by destruct ws|]. apply andb_false_r. }
  rewrite Hg in Hf. destruct (write_document _ cs) as [buf|] eqn:Hw; [|done].
  simplify_eq/=. rewrite length_imap, length_map. split; [|done].
  destruct (write_document_Ok _ _ _ Hw) as (batch & Hread & Hdoc).
  exists buf, batch, (json_to_string (Bytes := Bytes)
     (snapshot_document (imap (snapshot_predicate prefix source) (map encode ws)))),
   (imap (snapshot_predicate prefix source) (map encode ws)).
  split; [done|]. split; [done|]. split; [done|].
  split; [unfold parse_predicates; by rewrite (document_parse _ _ _ Hdoc)|].
  split; [|done]. apply Forall2_same_length_lookup. unfold snapshot_preds.
  rewrite !length_imap, length_map. split; [done|].
  intros i s p. rewrite !list_lookup_imap, list_lookup_fmap.
  destruct (ws !! i) as [w|]; simpl; [|done]. by intros [= <-] [= <-].
Qed.

Definition pred_wf (rc : list Z) (env : WireEnv) (p : string * WireExpr) : Prop :=
  refs_below (length (env_constants env)) (length (env_batches env)) p.2 /\
  forall i, i ∈ wire_columns p.2 -> i ∈ rc.

Lemma snapshot_preds_wf b prefix ws :
  Forall (spec_wf b) ws ->
  Forall (pred_wf (referenced_columns b) (env_of b)) (snapshot_preds prefix ws).
Proof.
  intros Hws. apply Forall_lookup. intros i [id w]. unfold snapshot_preds.
  rewrite list_lookup_imap. destruct (ws !! i) as [w'|] eqn:Hw; simpl; [|done].
  intros [= <- <-]. rewrite Forall_lookup in Hws. specialize (Hws _ _ Hw).
  split; simpl.
  - rewrite length_map. by apply spec_wf_refs.
  - intros j Hj. by eapply spec_wf_columns.
Qed.

(** ** Merging *)

Lemma obj_get_map k (f : json -> json) ms :
  obj_get k (map (fun m => (m.1, f m.2)) ms) = f <$> obj_get k ms.
Proof. induction ms as [|[k' v] ms IH]; simpl; [done|]. by destruct (String.eqb k k'). Qed.

Lemma obj_get_alter_ne k k' f ms : k <> k' -> obj_get k (obj_alter k' f ms) = obj_get k ms.
Proof.
  intros Hne. induction ms as [|[k2 v] ms IH]; simpl; [done|].
  destruct (String.eqb k' k2) eqn:H2; simpl; [|by rewrite IH].
  apply String.eqb_eq in H2 as <-. destruct (String.eqb k k') eqn:Hk; [|done].
  by apply String.eqb_eq in Hk.
Qed.

(** Members other than the references themselves are rebased in place. *)
Lemma get_shift k off koff s :
  k <> "value_ref" -> k <> "value_refs" -> k <> "batch_index" ->
  get k (shift_external_batch_refs koff (shift_value_refs off s))
  = (fun j => shift_external_batch_refs koff (shift_value_refs off j)) <$> get k s.
Proof.
  intros H1 H2 H3. destruct s as [| | | | | |ms]; try done.
  assert (forall ms', obj_get k ms' = shift_value_refs off <$> obj_get k ms ->
    get k (shift_external_batch_refs koff (JObj ms'))
    = (fun j => shift_external_batch_refs koff (shift_value_refs off j)) <$> obj_get k ms) as Hext.
  { intros ms' Hms. cbn. case_bool_decide; cbn;
      rewrite ?obj_get_alter_ne by done; rewrite obj_get_map, Hms; by destruct (obj_get k ms). }
  apply Hext. rewrite !obj_get_alter_ne by done. apply obj_get_map.
Qed.

Lemma push_value_columns_spec (acc : list Field * list (ArrayRef Text)) batch :
  exists fs, push_value_columns acc batch = (acc.1 ++ fs, acc.2 ++ drop 1 (batch_columns batch))
    /\ Forall2 (fun f c => field_type f = array_type c) fs (drop 1 (batch_columns batch)).
Proof.
  unfold push_value_columns. generalize (drop 1 (batch_columns batch)). intros cols.
  revert acc; induction cols as [|c cols IH]; intros [fs0 cs0]; simpl.
  - exists []. by rewrite !app_nil_r.
  - destruct (IH (fs0 ++ [mkField ("value_" +:+ pretty (length fs0 - 1)%nat) (array_type c) true []],
                  cs0 ++ [c])) as (fs & Heq & Hty).
    simpl in Heq. eexists (_ :: fs). rewrite Heq, <- !app_assoc. split; [done|]. by constructor.
Qed.

Lemma zip_with_app_eq {A B C} (f : A -> B -> C) l1 l2 k1 k2 :
  length l1 = length k1 ->
  zip_with f l1 k1 ++ zip_with f l2 k2 = zip_with f (l1 ++ l2) (k1 ++ k2).
Proof. intros. by rewrite zip_with_app. Qed.

Lemma fold_push_new_elem (cols extra : list Z) i :
  i ∈ fold_left (fun acc c => push_new c acc) extra cols <-> i ∈ cols \/ i ∈ extra.
Proof.
  revert cols; induction extra as [|c extra IH]; intros cols; simpl.
  - rewrite elem_of_nil. tauto.
  - rewrite IH, elem_of_push_new, elem_of_cons. tauto.
Qed.

Lemma fold_push_new_NoDup (cols extra : list Z) :
  NoDup cols -> NoDup (fold_left (fun acc c => push_new c acc) extra cols).
Proof.
  revert cols; induction extra as [|c extra IH]; intros cols; simpl; [done|].
  intros. apply IH. by apply push_new_NoDup.
Qed.

Definition rebase_pred (left_env : WireEnv) (p : string * WireExpr) : string * WireExpr :=
  (p.1, rebase (length (env_constants left_env)) (length (env_batches left_env)) p.2).

Definition merge_env (l r : WireEnv) : WireEnv :=
  mkEnv (env_constants l ++ env_constants r) (env_batches l ++ env_batches r).

Definition env_fits (l r : WireEnv) : Prop :=
  Z.of_nat (length (env_constants (merge_env l r))) <= u64_modulus /\
  Z.of_nat (length (env_batches (merge_env l r))) <= u64_modulus.

Lemma shifted_specs envl envr rcr specs ps :
  env_fits envl envr -> Forall (pred_wf rcr envr) ps ->
  Forall2 (fun s p => get "id" s = Some (JStr p.1) /\
                      get "expression" s = Some (encode p.2)) specs ps ->
  Forall2 (fun s p => get "id" s = Some (JStr p.1) /\
                      get "expression" s = Some (encode p.2))
    (map (fun spec => shift_external_batch_refs (length (env_batches envl))
                        (shift_value_refs (length (env_constants envl)) spec)) specs)
    (map (rebase_pred envl) ps).
Proof.
  intros [Hc Hk] Hwf H. simpl in Hc, Hk. rewrite length_app in Hc, Hk.
  induction H as [|s [id w] specs ps [Hid Hex] _ IH]; simpl; [constructor|].
  apply Forall_cons in Hwf as [[Hw _] Hwf]. constructor; [|by apply IH].
  rewrite !get_shift by done. rewrite Hid, Hex. simpl. split; [done|]. f_equal.
  eapply shift_encode; [exact Hw|lia|lia].
Qed.

Lemma merge_denotes left right m psl psr envl envr rcr :
  pushdown_denotes left psl envl -> pushdown_denotes right psr envr ->
  env_fits envl envr -> Forall (pred_wf rcr envr) psr ->
  merge left right = Ok m ->
  pushdown_denotes m (psl ++ map (rebase_pred envl) psr) (merge_env envl envr) /\
  pd_columns m = fold_left (fun cols c => push_new c cols) (pd_columns right) (pd_columns left).
Proof.
  intros (bl & btl & tl & sl & Hbl & Hrl & Hdl & Hpl & Hsl & Hkl)
         (br & btr & tr & sr & Hbr & Hrr & Hdr & Hpr & Hsr & Hkr) Hfit Hwf.
  assert (length (pd_join_keys left) = length (env_batches envl)) as Hlk
    by by rewrite Hkl, length_map.
  unfold merge. rewrite Hbl, Hbr. cbn -[write_document try_new]. unfold read_pushdown.
  rewrite Hrl; cbn -[try_new]. rewrite Hrr; cbn -[try_new].
  rewrite Hpl; cbn -[try_new]. rewrite Hpr; cbn -[try_new].
  rewrite (document_num_columns _ _ _ Hdl), Hlk. simpl. rewrite Nat.sub_0_r.
  pose proof (shifted_specs _ _ _ _ _ Hfit Hwf Hsr) as Hshift.
  destruct Hdl as (f0 & fsl & tysl & Hfl & Hf0 & Hcl & Hll).
  destruct Hdr as (g0 & fsr & tysr & _ & _ & Hcr & Hlr).
  rewrite Hfl, Hcl.
  destruct (push_value_columns_spec ([f0], [StringArray [tl]]) btl) as (fs1 & Heq1 & Hty1).
  rewrite Heq1, Hcl in *. cbn [fst snd drop app] in *.
  destruct (push_value_columns_spec (f0 :: fs1, StringArray [tl] :: drop 0
     (zip_with (fun ty c => TypedArray ty [c]) tysl (env_constants envl))) btr) as (fs2 & Heq2 & Hty2).
  rewrite Heq2. rewrite Hcr in *. cbn [fst snd drop app] in *. rewrite !drop_0 in *.
  cbn [insert list_insert app]. rewrite zip_with_app_eq by done.
  set (doc := snapshot_document _).
  rewrite try_new_valid.
  2:{ apply document_valid; [done|]. rewrite <- zip_with_app_eq by done. by apply Forall2_app. }
  cbn. destruct (ipc_write _) as [out|] eqn:Hw; [|done]. apply ipc_roundtrip in Hw.
  cbn. intros [= <-]. split; [|done].
  assert (document_batch (mkBatch (f0 :: fs1 ++ fs2) filter_metadata
      (StringArray [json_to_string (Bytes := Bytes) doc]
       :: zip_with (fun ty c => TypedArray ty [c]) (tysl ++ tysr)
            (env_constants envl ++ env_constants envr)))
      (json_to_string (Bytes := Bytes) doc) (env_constants (merge_env envl envr))) as Hdoc.
  { exists f0, (fs1 ++ fs2), (tysl ++ tysr). split; [done|]. split; [done|]. split; [done|].
    simpl. rewrite !length_app. lia. }
  eexists out, _, _, _. split; [done|]. split; [exact Hw|]. split; [exact Hdoc|].
  split; [unfold parse_predicates; by rewrite (document_parse _ _ _ Hdoc)|].
  split; [by apply Forall2_app|]. simpl. by rewrite map_app, Hkl, Hkr.
Qed.

(** ** Deltas *)

(** The worker's live predicates by ID, after it applies the updates of a
    delta in order. *)
Definition apply_update (st : gmap string json) (u : json) : gmap string json :=
  match get "operation" u ≫= as_str, get "id" u ≫= as_str with
  | Some "upsert", Some id =>
      match get "expression" u with Some e => <[id := e]> st | None => st end
  | Some "remove", Some id => delete id st
  | _, _ => st
  end.
Definition apply_updates (us : list json) (st : gmap string json) : gmap string json :=
  fold_left apply_update us st.

Definition join_id (i : nat) : string := "join:" +:+ pretty i.

#[local] Instance join_id_inj : Inj (=) (=) join_id.
Proof.
  intros i j H. unfold join_id in H. apply (inj (String.append "join:")) in H. by apply (inj pretty).
Qed.

Lemma apply_upsert rev n e st : apply_update st (upsert rev n e) = <[join_id n := e]> st.
Proof. reflexivity. Qed.
Lemma apply_removal rev n st : apply_update st (removal rev n) = delete (join_id n) st.
Proof. reflexivity. Qed.

Lemma upserts_lookup rev n specs st :
  let st' := apply_updates (imap (fun i e => upsert rev (n + i) e) specs) st in
  (forall k, st' !! join_id (n + k) = match specs !! k with
                                      | Some e => Some e
                                      | None => st !! join_id (n + k)
                                      end) /\
  (forall id, (forall k, id <> join_id (n + k)) -> st' !! id = st !! id).
Proof.
  revert n st; induction specs as [|e specs IH]; intros n st; simpl; [done|].
  rewrite apply_upsert, Nat.add_0_r.
  rewrite (imap_ext _ (fun i e => upsert rev (S n + i) e)) by (intros; f_equal/=; lia).
  destruct (IH (S n) (<[join_id n := e]> st)) as [Hk Hid]. split.
  - intros [|k].
    + rewrite Nat.add_0_r, Hid; [by rewrite lookup_insert_eq|]. intros k ?%(inj _). lia.
    + replace (n + S k)%nat with (S n + k)%nat by lia. rewrite Hk. simpl.
      destruct (specs !! k); [done|]. rewrite lookup_insert_ne; [done|]. intros ?%(inj _). lia.
  - intros id Hne. rewrite Hid; [rewrite lookup_insert_ne; [done|]|].
    + specialize (Hne 0%nat). by rewrite Nat.add_0_r in Hne.
    + intros k. specialize (Hne (S k)). by rewrite Nat.add_succ_r in Hne.
Qed.

Lemma removals_lookup rev n len st :
  let st' := apply_updates (map (removal rev) (seq n len)) st in
  (forall k, (n <= k < n + len)%nat -> st' !! join_id k = None) /\
  (forall id, (forall k, (n <= k < n + len)%nat -> id <> join_id k) -> st' !! id = st !! id).
Proof.
  revert n st; induction len as [|len IH]; intros n st; simpl; [split; [lia|done]|].
  rewrite apply_removal. destruct (IH (S n) (delete (join_id n) st)) as [Hk Hid]. split.
  - intros k Hk'. destruct (decide (k = n)) as [->|]; [|apply Hk; lia].
    rewrite Hid; [apply lookup_delete_eq|]. intros k ? ?%(inj _). lia.
  - intros id Hne. rewrite Hid by (intros; apply Hne; lia).
    apply lookup_delete_ne. apply not_eq_sym, Hne. lia.
Qed.

Lemma apply_updates_app us vs st :
  apply_updates (us ++ vs) st = apply_updates vs (apply_updates us st).
Proof. apply fold_left_app. Qed.

(** A delta replaces the runtime predicates: ID [join:i] holds spec [i] of the
    new snapshot, stale IDs are gone, everything else is untouched. *)
Lemma delta_updates_lookup specs rev prev st :
  (forall k, (prev <= k)%nat -> st !! join_id k = None) ->
  let st' := apply_updates (delta_updates specs rev prev) st in
  (forall i, st' !! join_id i = specs !! i) /\
  (forall id, (forall i, id <> join_id i) -> st' !! id = st !! id).
Proof.
  intros Hst. cbv zeta. unfold delta_updates. rewrite apply_updates_app.
  destruct (upserts_lookup rev 0 specs st) as [Hu Huid].
  destruct (removals_lookup rev (length specs) (prev - length specs)
              (apply_updates (imap (upsert rev) specs) st)) as [Hr Hrid].
  cbv zeta in *. split.
  - intros i. destruct (decide (length specs <= i < prev)%nat) as [Hi|Hi].
    + rewrite Hr by lia. symmetry. apply lookup_ge_None_2. lia.
    + rewrite Hrid by (intros k Hk ->%(inj _); lia). specialize (Hu i). simpl in Hu.
      etrans; [exact Hu|].
      destruct (specs !! i) eqn:Hs; [done|]. apply Hst.
      apply lookup_ge_None_1 in Hs. lia.
  - intros id Hne. rewrite Hrid by auto. apply Huid. auto.
Qed.
End Documents.
