(* ===== verification/KernelModel.v ===== *)
(** * A concrete kernel

    An instance of the kernel and evaluation interfaces of Arrow.v and
    FilterSpec.v, for evaluating the definitions and instantiating the
    theorems on concrete inputs: JSON text is the JSON value and an IPC stream
    is the batch itself. *)

From S2P Require Import Prelude Json Arrow Filters FilterSpec.

#[local] Open Scope Z_scope.

#[export] Instance model_kernel : ArrowKernel json (RecordBatch json) := {|
  cast_to v ty :=
    if decide (data_type v = ty) then Ok v
    else match v, ty with
         | SVPrim _ (Some (PInt z)), (Int8 | Int16 | Int32 | Int64) => Ok (SVPrim ty (Some (PInt z)))
         | _, _ => Err (ArrowError "unsupported cast")
         end;
  iter_to_array vs :=
    match vs with
    | [] => Err (ArrowError "empty iterator")
    | v :: vs' =>
        if forallb (fun w => bool_decide (data_type w = data_type v)) vs' then Ok (TypedArray (data_type v) vs)
        else Err (ArrowError "inconsistent types")
    end;
  to_array_of_size_1 v := Ok (TypedArray (data_type v) [v]);
  try_new fs meta cols := Ok (mkBatch fs meta cols);
  ipc_write b := Ok b;
  ipc_read b := Ok b;
  json_to_string j := j;
  json_from_str j := Ok j
|}.

#[export] Instance model_kernel_laws : ArrowLaws json (RecordBatch json).
Proof.
  split; simpl.
  - intros v. by case_decide.
  - intros [|v vs] a; [done|]. destruct (forallb _ vs); [|done]. intros [= <-]. eauto.
  - intros v a [= <-]. eauto.
  - done.
  - by intros b bytes [= ->].
  - done.
Qed.

(** Comparison of primitive scalars; structs compare for equality fieldwise. *)
Definition prim_cmp (op : Operator) (a b : ScalarValue) : option bool :=
  match a, b with
  | SVPrim _ (Some (PInt x)), SVPrim _ (Some (PInt y)) =>
      match op with
      | OpEq => Some (x =? y) | OpNotEq => Some (negb (x =? y))
      | OpLt => Some (x <? y) | OpLtEq => Some (x <=? y)
      | OpGt => Some (y <? x) | OpGtEq => Some (y <=? x)
      | _ => None
      end
  | _, _ => None
  end.

Fixpoint fields_equal (xs ys : list ScalarValue) : bool :=
  match xs, ys with
  | [], [] => true
  | x :: xs, y :: ys => is_true (prim_cmp OpEq x y) && fields_equal xs ys
  | _, _ => false
  end.

#[export] Instance model_evaluation : Evaluation := {|
  scalar_cmp op a b :=
    match a, b with
    | SVStruct _ [Some xs], SVStruct _ [Some ys] =>
        match op with OpEq | OpNotEq => Some (xorb (bool_decide (op = OpNotEq)) (fields_equal xs ys)) | _ => None end
    | _, _ => prim_cmp op a b
    end;
  call_function f vs := if String.eqb f "struct" then Some (SVStruct [] [Some vs]) else None;
  other_value _ _ := None;
  other_truth _ _ := None
|}.

Lemma prim_cmp_flip op op' a b : flip op = Some op' -> prim_cmp op' b a = prim_cmp op a b.
Proof.
  destruct a as [? [[]|]|], b as [? [[]|]|]; try done.
  destruct op; intros [= <-]; simpl; try done; by rewrite Z.eqb_sym.
Qed.

Lemma fields_equal_sym xs ys : fields_equal xs ys = fields_equal ys xs.
Proof.
  revert ys; induction xs as [|x xs IH]; intros [|y ys]; simpl; try done.
  by rewrite (prim_cmp_flip OpEq OpEq x y) by done; rewrite IH.
Qed.

#[export] Instance model_evaluation_laws : EvaluationLaws.
Proof.
  split; simpl.
  - intros op op' a b Hf.
    destruct a as [|fa [|[xs|] [|]]], b as [|fb [|[ys|] [|]]]; try by apply prim_cmp_flip.
    destruct op; simplify_eq/=; try done; by rewrite fields_equal_sym.
  - eauto.
  - intros fs gs xs ys Heq _. injection Heq as Heq. revert ys Heq.
    induction xs as [|x xs IH]; intros [|y ys]; simpl; try done.
    intros [Hx Hxs]%andb_true_iff. constructor; [|by apply IH].
    destruct x as [? [[]|]|], y as [? [[]|]|]; simpl in *; try done.
    by destruct (_ =? _).
Qed.
