(* ===== verification/FilterTheorems.v ===== *)
(** * Filter pushdown: the properties *)

From S2P Require Import Prelude Json Arrow Filters FilterSpec FilterSound FilterDoc KernelModel.

#[local] Open Scope Z_scope.

Section Properties.
Context {Text Bytes : Type} `{HK : !ArrowKernel Text Bytes} `{HA : !ArrowLaws Text Bytes}.
Context `{HE : !Evaluation} `{HEL : !EvaluationLaws}.

(** The wire form of a set of predicates, every column it reads among
    [pd_columns], accepting each row of [P]. *)
Definition pushes (pd : Pushdown Bytes) (sch : Schema) (P : list ScalarValue -> Prop) : Prop :=
  exists preds env,
    pushdown_denotes pd preds env /\
    NoDup (pd_columns pd) /\ Forall (pred_wf (pd_columns pd) env) preds /\
    forall row, row_typed sch row -> P row -> accepts env preds row = true.

Lemma new_builder_small sch remote :
  Z.of_nat (length sch) <= i64_max + 1 -> small (new_builder (Bytes := Bytes) sch remote).
Proof. done. Qed.

Lemma accepts_snapshot env prefix ws row :
  Forall (fun w => denote env row w = true) ws -> accepts env (snapshot_preds prefix ws) row = true.
Proof.
  intros Hw. apply forallb_forall. intros [id w] Hin%list_elem_of_In.
  apply list_elem_of_lookup in Hin as [i Hi]. unfold snapshot_preds in Hi.
  rewrite list_lookup_imap in Hi. destruct (ws !! i) as [w'|] eqn:Hwi; simplify_eq/=.
  rewrite Forall_lookup in Hw. by eapply Hw.
Qed.

Lemma snapshot_pushes b sch P ws source prefix pd :
  schema b = sch -> NoDup (referenced_columns b) -> ws <> [] \/ source = "join" ->
  Forall (spec_wf b) ws ->
  (forall row, row_typed (schema b) row -> P row -> Forall (fun w => denote (env_of b) row w = true) ws) ->
  finish_snapshot (map encode ws) (constants b) (referenced_columns b) source prefix = Ok pd ->
  pushes (with_join_keys pd (join_keys b)) sch P.
Proof.
  intros <- Hnd Hne Hwf Hacc Hf.
  destruct (finish_snapshot_denotes _ _ _ _ _ _ (join_keys b) Hf Hne) as (Hd & Hcol & _).
  exists (snapshot_preds prefix ws), (env_of b).
  change (pd_columns (with_join_keys pd (join_keys b))) with (pd_columns pd). rewrite Hcol.
  split; [exact Hd|]. split; [done|]. split; [by apply snapshot_preds_wf|].
  intros row Hrow HP. apply accepts_snapshot. auto.
Qed.

(** C1: what [serialize] sends for a list of logical predicates is a superset
    filter. Whenever a document is produced, it denotes well-formed wire
    predicates (literal and side-batch references in range, every column read
    listed once in [columns]) that are all TRUE on every row on which all the
    pushed predicates are TRUE in SQL's three-valued logic: the worker can only
    drop rows DataFusion would drop too. *)
Theorem serialize_superset sch exprs pd :
  Z.of_nat (length sch) <= i64_max + 1 ->
  serialize exprs sch = Ok pd -> pd_blob pd <> None ->
  pushes pd sch (all_true sch exprs).
Proof.
  intros Hlen. unfold serialize.
  pose proof (build_all_spec exprs _ (new_builder_small sch sch Hlen)) as [He Hq].
  destruct (build_all_total exprs (new_builder sch sch)) as (specs & b & Hb).
  rewrite Hb in *. simpl in *.
  specialize (Hq specs eq_refl) as (ws & -> & Hwf & Hacc).
  destruct He as (Hs & _ & _ & _ & _ & Hnd). simpl in Hs, Hnd.
  destruct ws as [|w ws]; [by intros [= <-]|]. simpl map. cbv iota.
  destruct (finish_snapshot _ _ _ _ _) as [pd'|] eqn:Hf; [|done]. intros [= <-] _.
  eapply (snapshot_pushes _ _ _ (w :: ws)); [exact Hs|apply Hnd; constructor|by left|exact Hwf| |exact Hf].
  intros row Hrow HP. apply Hacc; [done|]. exact HP.
Qed.

(** C2: the same for DataFusion's runtime (physical) filters, with or without
    side join-key batches, resolved by name against the table schema and
    encoded in the worker's bind coordinates. Conjunctions are flattened, tuple
    IN lists become one membership set per column, disjunctions of equalities
    one set; none of it can reject a row the runtime filter accepts. *)
Theorem serialize_physical_superset sch remote exprs side pd :
  Z.of_nat (length sch) <= i64_max + 1 ->
  serialize_physical_for_remote exprs sch remote side = Ok pd ->
  pushes pd sch (all_true sch (map logical_of exprs)).
Proof.
  intros Hlen. unfold serialize_physical_for_remote.
  pose proof (build_physical_all_spec exprs side _ (new_builder_small sch remote Hlen)) as [He Hq].
  destruct (build_physical_all_total exprs side (new_builder sch remote)) as (specs & b & Hb).
  rewrite Hb in *. simpl in *.
  specialize (Hq specs eq_refl) as (ws & -> & Hwf & Hacc).
  destruct He as (Hs & _ & _ & _ & _ & Hnd). simpl in Hs, Hnd.
  destruct (finish_snapshot _ _ _ _ _) as [pd'|] eqn:Hf; [|done]. intros [= <-].
  eapply snapshot_pushes; [exact Hs|apply Hnd; constructor|by right|exact Hwf| |exact Hf].
  intros row Hrow HP. apply Hacc; [done|]. by rewrite Hs.
Qed.

(** The state a worker reaches by applying the delta of [pd]: ID [join:i] holds
    expression [i] of [ws], every older runtime ID is gone and predicates of
    other sources are untouched. *)
Definition delta_installs (pd : Pushdown Bytes) (ws : list WireExpr) (prev : nat) : Prop :=
  match pd_blob pd with
  | None => ws = [] /\ prev = 0%nat
  | Some bytes =>
      exists batch doc us,
        ipc_read bytes = Ok batch /\ parse_document (Bytes := Bytes) batch = Ok doc /\
        get "updates" doc = Some (JArr us) /\
        forall st, (forall k, (prev <= k)%nat -> st !! join_id k = None) ->
          (forall i, apply_updates us st !! join_id i = encode <$> ws !! i) /\
          (forall id, (forall i, id <> join_id i) -> apply_updates us st !! id = st !! id)
  end.

(** A runtime-filter update replaces the previous generation exactly. After
    the delta, the worker's runtime predicates are the new specs and nothing
    else, [predicate_count] is their number (so the next delta knows what to
    tombstone), and together they accept every row the new filters accept. *)
Theorem serialize_delta_replaces sch remote exprs rev prev pd :
  Z.of_nat (length sch) <= i64_max + 1 ->
  serialize_physical_delta_for_remote exprs sch remote rev prev = Ok pd ->
  exists ws env,
    delta_installs pd ws prev /\ pd_predicate_count pd = length ws /\
    forall row, row_typed sch row -> all_true sch (map logical_of exprs) row ->
      Forall (fun w => denote env row w = true) ws.
Proof.
  intros Hlen. unfold serialize_physical_delta_for_remote.
  pose proof (build_physical_all_spec exprs false _ (new_builder_small sch remote Hlen)) as [He Hq].
  destruct (build_physical_all_total exprs false (new_builder sch remote)) as (specs & b & Hb).
  rewrite Hb in *. simpl in *.
  specialize (Hq specs eq_refl) as (ws & -> & Hwf & Hacc).
  destruct He as (Hs & _). simpl in Hs.
  intros Hf. exists ws, (env_of b). rewrite <- Hs.
  split; [|split; [|exact Hacc]]; unfold finish_delta in Hf;
    destruct (delta_updates (map encode ws) rev prev) as [|u us] eqn:Hus.
  - injection Hf as <-. unfold delta_installs. simpl.
    unfold delta_updates in Hus. apply app_eq_nil in Hus as [H1 H2].
    destruct ws; [|done]. split; [done|]. simpl in H2. apply map_eq_nil in H2.
    destruct prev; done.
  - destruct (write_document _ _) as [bytes|] eqn:Hw; [|done]. injection Hf as <-.
    unfold delta_installs. simpl. destruct (write_document_Ok _ _ _ Hw) as (batch & Hr & Hd).
    exists batch. eexists. exists (u :: us).
    split; [exact Hr|]. split; [exact (document_parse _ _ _ Hd)|]. split; [done|].
    rewrite <- Hus. intros st Hst.
    destruct (delta_updates_lookup (map encode ws) rev prev st Hst) as [Hi Hid].
    split; [|exact Hid]. intros i. rewrite Hi. apply list_lookup_fmap.
  - injection Hf as <-. simpl. by rewrite length_map.
  - destruct (write_document _ _) as [bytes|]; [|done]. injection Hf as <-. simpl.
    by rewrite length_map.
Qed.

Lemma denote_rebase envl envr row w :
  denote (merge_env envl envr) row
    (rebase (length (env_constants envl)) (length (env_batches envl)) w) = denote envr row w.
Proof.
  induction w as [op n i r|n i neg|l IHl r IHr|l IHl r IHr|n i k]; simpl.
  - rewrite lookup_app_r by lia. by replace (r + _ - _)%nat with r by lia.
  - done.
  - by rewrite IHl, IHr.
  - by rewrite IHl, IHr.
  - rewrite lookup_app_r by lia. by replace (k + _ - _)%nat with k by lia.
Qed.

Lemma denote_merge_left envl envr row w :
  refs_below (length (env_constants envl)) (length (env_batches envl)) w ->
  denote (merge_env envl envr) row w = denote envl row w.
Proof.
  induction w as [op n i r|n i neg|l IHl r IHr|l IHl r IHr|n i k]; simpl.
  - intros [_ ?]. by rewrite lookup_app_l.
  - done.
  - intros [??]. by rewrite IHl, IHr.
  - intros [??]. by rewrite IHl, IHr.
  - intros ?. by rewrite lookup_app_l.
Qed.

(** [merge] conjoins. Merging the documents of a static and a runtime
    pushdown (reparsing both, shifting the literal references of the second by
    the constants of the first and its side-batch references by the side
    batches of the first) yields a document that keeps exactly the rows both
    keep, whose predicates are those of the two inputs in order, and whose
    column list is the duplicate-free union of the two. *)
Theorem merge_conjoins left right m psl psr envl envr :
  pushdown_denotes left psl envl -> pushdown_denotes right psr envr ->
  NoDup (pd_columns left) ->
  Forall (pred_wf (pd_columns left) envl) psl -> Forall (pred_wf (pd_columns right) envr) psr ->
  env_fits envl envr ->
  merge left right = Ok m ->
  exists psm envm, pushdown_denotes m psm envm /\
    map fst psm = map fst psl ++ map fst psr /\
    (forall row, accepts envm psm row = accepts envl psl row && accepts envr psr row) /\
    NoDup (pd_columns m) /\
    (forall i, i ∈ pd_columns m <-> i ∈ pd_columns left \/ i ∈ pd_columns right).
Proof.
  intros Hl Hr Hnd Hwl Hwr Hfit Hm.
  destruct (merge_denotes _ _ _ _ _ _ _ _ Hl Hr Hfit Hwr Hm) as [Hd Hc].
  exists (psl ++ map (rebase_pred envl) psr), (merge_env envl envr).
  split; [done|]. split; [|split; [|split]].
  - rewrite map_app, map_map. done.
  - intros row. unfold accepts. rewrite forallb_app. f_equal.
    + clear -Hwl. induction Hwl as [|[id w] ps [Hw _] _ IH]; simpl; [done|].
      by rewrite IH, (denote_merge_left _ _ _ _ Hw).
    + clear. induction psr as [|[id w] ps IH]; simpl; [done|]. by rewrite IH, denote_rebase.
  - rewrite Hc. by apply fold_push_new_NoDup.
  - intros i. rewrite Hc. apply fold_push_new_elem.
Qed.

(** A comparison between a column and a literal (either way round, through
    no-op casts of the column and foldable casts of the literal) is translated
    exactly: one predicate [query:0], reading one column, that is TRUE on a row
    iff the expression is. *)
Theorem comparison_exact sch l op r name v op' i pd :
  Z.of_nat (length sch) <= i64_max + 1 ->
  comparison_operands sch l op r = Some (name, v, op') ->
  is_Some (op_token op') -> constant_from_scalar v = Some v -> index_of sch name = Some i ->
  serialize [BinaryExpr l op r] sch = Ok pd ->
  exists w env,
    pushdown_denotes pd [("query:0", w)] env /\ pd_columns pd = [Z.of_nat i] /\
    forall row, row_typed sch row ->
      accepts env [("query:0", w)] row = is_true (truth sch row (BinaryExpr l op r)).
Proof.
  intros Hlen Hops Htok Hv Hi. unfold serialize.
  pose proof (index_of_lt _ _ _ Hi) as Hlt.
  destruct (index_of_Some _ _ _ Hi) as (f & Hf & Hfn).
  set (b1 := mkBuilder (Bytes := Bytes) sch sch [v] [Z.of_nat i] []).
  assert (build_all [BinaryExpr l op r] (new_builder sch sch)
          = (Some [encode (WComparison op' name (Z.of_nat i) 0)], b1)) as ->.
  { pose proof (comparison_operands_token _ _ _ _ _ _ _ Hops Htok) as Htok'.
    assert (build (BinaryExpr l op r) (new_builder sch sch)
            = push_comparison name v op' (new_builder (Bytes := Bytes) sch sch)) as Hbuild.
    { simpl. unfold binary. destruct op; try (by destruct Htok');
        unfold bind, gets, lift; simpl; by rewrite Hops. }
    cbn [build_all]. unfold attempt, bind. rewrite Hbuild.
    unfold push_comparison, remote_column, bind, lift. simpl.
    rewrite Hi. replace (Z.of_nat i <=? i64_max)%Z with true by (symmetry; apply Z.leb_le; lia).
    rewrite Nat2Z.id, Hf. simpl. destruct Htok as [tok Htok]. rewrite Htok, Hv. simpl.
    by rewrite Hfn. }
  destruct (finish_snapshot _ _ _ _ _) as [pd'|] eqn:Hfs; [|done]. intros [= <-].
  destruct (finish_snapshot_denotes [WComparison op' name (Z.of_nat i) 0] _ _ _ _ _ (join_keys b1) Hfs)
    as (Hd & Hc & _); [by left|].
  exists (WComparison op' name (Z.of_nat i) 0), (mkEnv [v] []).
  split; [exact Hd|]. split; [exact Hc|]. intros row Hrow.
  rewrite (comparison_operands_eq _ _ _ _ _ _ _ _ Hrow Hops Htok), Hi. simpl.
  rewrite Nat2Z.id, andb_true_r. by destruct (row !! i).
Qed.

(** ** What a predicate that cannot be expressed leaves behind *)

(** At most columns have been recorded: no literal, no side batch. *)
Definition only_columns (b b' : Builder Bytes) : Prop := exists refs, b' = set_referenced refs b.
#[local] Instance only_columns_preorder : PreOrder only_columns.
Proof.
  split; [intros b; exists (referenced_columns b); by destruct b|].
  intros b1 b2 b3 [r ->] [r' ->]. by exists r'.
Qed.
Definition fails_clean {A} (m : BM Bytes A) : Prop := forall b, small b -> (m b).1 = None -> only_columns b (m b).2.

Lemma remote_column_columns name b : only_columns b (remote_column name b).2.
Proof.
  unfold remote_column. destruct (index_of _ _); [|done]. destruct (_ !! _); [|done]. simpl. by eexists.
Qed.
(** A membership set fails before anything is recorded, or when only its column
    has been. *)
Lemma membership_fails name vs (b : Builder Bytes) :
  (membership name vs b).1 = None -> (membership name vs b).2 = b \/ (membership name vs b).2 = (remote_column name b).2.
Proof.
  unfold membership. destruct (_ || _); [by left|]. unfold bind, gets, lift, modify, ret.
  destruct (remote_column name b) as [[[rn idx]|] b1]; [|by right].
  destruct (result_ok _); [done|]. by right.
Qed.
Lemma membership_clean name vs : fails_clean (membership (Bytes := Bytes) name vs).
Proof. intros b _ [-> | ->]%membership_fails; [done|apply remote_column_columns]. Qed.
Lemma push_comparison_clean name v op : fails_clean (push_comparison (Bytes := Bytes) name v op).
Proof.
  intros b _. unfold push_comparison, bind, lift. pose proof (remote_column_columns name b) as H.
  destruct (remote_column name b) as [[[rn idx]|] b1]; [|done].
  destruct (op_token op); [|done]. by destruct (constant_from_scalar v).
Qed.
Lemma is_null_clean name neg :
  fails_clean (bind (remote_column (Bytes := Bytes) name) (fun '(rn, index) => ret (is_null_node rn index neg))).
Proof.
  intros b _. unfold bind. pose proof (remote_column_columns name b) as H.
  by destruct (remote_column name b) as [[[rn idx]|] b1].
Qed.
(** Whatever the sides of a disjunction did is taken back. *)
Lemma both_sides_roll_back {A} (bl br : BM Bytes json) (el er : Expr) (k : option json -> option json -> BM Bytes A)
    (b : Builder Bytes) (Q : option A * Builder Bytes -> Prop) :
  builds bl el -> builds br er -> small b ->
  (forall ol or b2, rollback (checkpoint b) b2 = b -> Q (k ol or b2)) ->
  Q (bind (attempt bl) (fun l => bind (attempt br) (k l)) b).
Proof.
  intros Hl Hr Hb Hk. unfold bind, attempt.
  pose proof (Hl b Hb) as [H1 _]. destruct (bl b) as [ol b1]; simpl in *.
  pose proof (Hr b1 (small_extends _ _ H1 Hb)) as [H2 _]. destruct (br b1) as [or b2]; simpl in *.
  apply Hk, rollback_checkpoint. by etrans.
Qed.

Lemma or_rolls_back bl br (l r : Expr) (b : Builder Bytes) :
  builds bl l -> builds br r -> small b -> (binary bl br l OpOr r b).1 = None ->
  (binary bl br l OpOr r b).2 = b \/
  exists name vs, logical_or_equalities l r (schema b) = Some (name, vs) /\
    (binary bl br l OpOr r b).2 = (remote_column name b).2.
Proof.
  intros Hl Hr Hb. unfold binary. change (bind (gets schema) ?k b) with (k (schema b) b). cbv beta.
  destruct (logical_or_equalities l r (schema b)) as [[name vs]|].
  { intros [-> | ->]%membership_fails; [by left|]. right. by exists name, vs. }
  change (bind (gets checkpoint) ?k b) with (k (checkpoint b) b). cbv beta.
  intros Hn. left. revert Hn. apply (both_sides_roll_back bl br l r _ b (fun x => x.1 = None -> x.2 = b)); [done..|].
  intros ol or b2 Hroll. unfold bind, modify, lift, ret.
  destruct ol, or; simpl; rewrite ?Hroll; try done. by destruct (_ || _).
Qed.
Lemma physical_rolls_back bl br (l : PhysicalExpr) op (r : PhysicalExpr) side (b : Builder Bytes) :
  builds bl (logical_of l) -> builds br (logical_of r) -> small b -> op = OpAnd \/ op = OpOr ->
  (physical_binary bl br l op r side b).1 = None ->
  (physical_binary bl br l op r side b).2 = b \/
  exists name vs, op = OpOr /\ side = true /\ physical_or_equalities l r (schema b) = Some (name, vs) /\
    (physical_binary bl br l op r side b).2 = (remote_column name b).2.
Proof.
  intros Hl Hr Hb Hop. unfold physical_binary. change (bind (gets schema) ?k b) with (k (schema b) b). cbv beta.
  destruct (if decide (op = OpOr) then _ else None) as [[name vs]|] eqn:Hor.
  { case_decide; [|done]. destruct side; [|done].
    intros [-> | ->]%membership_fails; [by left|]. right. by exists name, vs. }
  assert (bool_decide (op = OpAnd) || bool_decide (op = OpOr) = true) as -> by (by destruct Hop as [-> | ->]).
  change (bind (gets checkpoint) ?k b) with (k (checkpoint b) b). cbv beta.
  intros Hn. left. revert Hn.
  apply (both_sides_roll_back bl br (logical_of l) (logical_of r) _ b (fun x => x.1 = None -> x.2 = b)); [done..|].
  intros ol or b2 Hroll. cbv zeta. unfold bind, modify, lift, ret.
  destruct (decide (op = OpAnd)), ol, or; simpl; rewrite ?Hroll; try done;
    destruct (_ && _); simpl; by rewrite ?Hroll.
Qed.

Lemma binary_clean bl br l op r :
  builds bl l -> builds br r -> fails_clean bl -> fails_clean br -> fails_clean (binary bl br l op r).
Proof.
  intros Hl Hr Cl Cr b Hb.
  assert (Hcmp : forall o, let m := bind (gets schema) (fun sch => bind (lift (comparison_operands sch l o r))
      (fun '(name, value, op') => push_comparison (Bytes := Bytes) name value op')) in
    (m b).1 = None -> only_columns b (m b).2).
  { intros o. unfold bind, gets, lift. destruct (comparison_operands _ l o r) as [[[name v] op']|]; [|done].
    by apply push_comparison_clean. }
  destruct op; try exact (Hcmp _).
  - unfold binary, bind, attempt, lift. specialize (Cl b Hb). destruct (Hl b Hb) as [H1 _].
    destruct (bl b) as [ol b1]; simpl in *. specialize (Cr b1 (small_extends _ _ H1 Hb)).
    destruct (br b1) as [or b2]; simpl in *. destruct ol, or; try done. intros _. etrans; [by apply Cl|by apply Cr].
  - intros Hn. destruct (or_rolls_back bl br l r b Hl Hr Hb Hn) as [-> |(name & vs & _ & ->)]; [done|].
    apply remote_column_columns.
Qed.
Lemma build_clean e : fails_clean (build (Bytes := Bytes) e).
Proof.
  induction e as [| |l IHl op r IHr| |inner _|inner _|inner _ items neg| | | |]; cbn [build]; try (by intros b _).
  - apply binary_clean; auto using build_spec.
  - intros b Hb. change (bind (gets schema) ?k b) with (k (schema b) b). cbv beta. unfold bind at 1 3, lift.
    destruct (column_name inner _) as [name|]; [|done]. by apply (is_null_clean name false).
  - intros b Hb. change (bind (gets schema) ?k b) with (k (schema b) b). cbv beta. unfold bind at 1 3, lift.
    destruct (column_name inner _) as [name|]; [|done]. by apply (is_null_clean name true).
  - intros b Hb. destruct neg; [done|]. change (bind (gets schema) ?k b) with (k (schema b) b). cbv beta. unfold bind, lift.
    destruct (column_name inner _) as [name|]; [|done]. destruct (option_collect literal items); [|done].
    by apply membership_clean.
Qed.
Lemma build_physical_clean p side : fails_clean (build_physical (Bytes := Bytes) p side).
Proof.
  induction p as [| |l IHl op r IHr|inner _|inner _|inner _ items neg| | |]; cbn [build_physical]; try (by intros b _).
  - intros b Hb. destruct (decide (op = OpAnd \/ op = OpOr)) as [Hop|Hop].
    + intros Hn. destruct (physical_rolls_back _ _ l op r side b (build_physical_spec l side) (build_physical_spec r side) Hb Hop Hn)
        as [-> |(name & vs & _ & _ & _ & ->)]; [done|]. apply remote_column_columns.
    + unfold physical_binary. change (bind (gets schema) ?k b) with (k (schema b) b). cbv beta.
      rewrite (decide_False (P := op = OpOr)) by tauto.
      rewrite !bool_decide_eq_false_2 by tauto. simpl orb. cbv iota. unfold bind, lift.
      destruct (physical_comparison_operands _ l op r) as [[[name v] op']|]; [|done]. by apply push_comparison_clean.
  - intros b Hb. change (bind (gets schema) ?k b) with (k (schema b) b). cbv beta. unfold bind at 1 3, lift.
    destruct (physical_column_name inner _) as [name|]; [|done]. by apply (is_null_clean name false).
  - intros b Hb. change (bind (gets schema) ?k b) with (k (schema b) b). cbv beta. unfold bind at 1 3, lift.
    destruct (physical_column_name inner _) as [name|]; [|done]. by apply (is_null_clean name true).
  - intros b Hb. destruct (neg || _); [done|]. change (bind (gets schema) ?k b) with (k (schema b) b). cbv beta. unfold bind, lift.
    destruct (physical_column_name inner _) as [name|]; [|done]. destruct (option_collect physical_literal items); [|done].
    destruct side; [by apply membership_clean|done].
Qed.

(** C39: a predicate that cannot be expressed leaves no literal and no side batch
    behind, logical or physical, at most columns it has looked up. A disjunction
    (and of physical predicates a conjunction) and a tuple IN list leave nothing
    at all: the builder is exactly what it was. The one exception is a
    disjunction of equalities on one column, which is sent as a membership set:
    when building its side batch fails, the column stays recorded
    ([equality_list_leaks_column]). *)
Theorem failed_or_and_tuple_roll_back (b : Builder Bytes) :
  small b ->
  (forall e, (build e b).1 = None -> only_columns b (build e b).2) /\
  (forall p side, (build_physical p side b).1 = None -> only_columns b (build_physical p side b).2) /\
  (forall l r, (build (BinaryExpr l OpOr r) b).1 = None ->
     (build (BinaryExpr l OpOr r) b).2 = b \/
     exists name vs, logical_or_equalities l r (schema b) = Some (name, vs) /\
       (build (BinaryExpr l OpOr r) b).2 = (remote_column name b).2) /\
  (forall l op r side, op = OpAnd \/ op = OpOr -> (build_physical (PhysicalBinary l op r) side b).1 = None ->
     (build_physical (PhysicalBinary l op r) side b).2 = b \/
     exists name vs, op = OpOr /\ side = true /\ physical_or_equalities l r (schema b) = Some (name, vs) /\
       (build_physical (PhysicalBinary l op r) side b).2 = (remote_column name b).2) /\
  (forall e items neg, (struct_memberships e items neg b).1 = None -> (struct_memberships e items neg b).2 = b).
Proof.
  intros Hb. split_and!.
  - intros e. by apply build_clean.
  - intros p side. by apply build_physical_clean.
  - intros l r. by apply (or_rolls_back (build l) (build r) l r b (build_spec l) (build_spec r)).
  - intros l op r side. by apply (physical_rolls_back _ _ l op r side b (build_physical_spec l side) (build_physical_spec r side)).
  - intros e items neg. unfold struct_memberships. destruct (_ || _); [done|].
    unfold bind, gets, lift. destruct (physical_struct_columns e (schema b)) as [cols|]; [|done].
    destruct (_ || _); [done|]. destruct (option_collect _ items) as [tuples|]; [|done].
    unfold attempt, modify.
    pose proof (memberships_spec (zip cols (field_values (length cols) tuples)) b Hb) as [Hm _].
    destruct (memberships _ b) as [[specs|] b1]; simpl in *; [done|].
    intros _. by apply rollback_checkpoint.
Qed.
End Properties.

(** ** Witnesses *)

Definition ex_schema : Schema :=
  [mkField "a" Int64 true []; mkField "b" Int64 true []].
Definition int (z : Z) : ScalarValue := SVPrim Int64 (Some (PInt z)).
Definition col (n : string) : Expr := Column None n.
Definition ex_exprs : list Expr :=
  [BinaryExpr (BinaryExpr (Literal (int 3)) OpLt (col "a")) OpAnd (OtherExpr 0);
   BinaryExpr (BinaryExpr (col "b") OpEq (Literal (int 1))) OpOr
     (BinaryExpr (Literal (int 2)) OpEq (col "b"))].
Definition ex_physical : list PhysicalExpr :=
  [PhysicalBinary (PhysicalBinary (PhysicalColumn "a" 0) OpGtEq (PhysicalLiteral (int 3))) OpAnd
     (InListExpr (ScalarFunctionExpr "struct" [PhysicalColumn "a" 0; PhysicalColumn "b" 1])
        [PhysicalLiteral (SVStruct [mkField "c0" Int64 true []; mkField "c1" Int64 true []]
                            [Some [int 5; int 1]])] false)].

Definition ex_pushdown : Pushdown (RecordBatch json) :=
  default default_pushdown (result_ok (serialize ex_exprs ex_schema)).
Definition ex_runtime (side : bool) : Pushdown (RecordBatch json) :=
  default default_pushdown (result_ok (serialize_physical_for_remote ex_physical ex_schema ex_schema side)).

Lemma ex_pushdown_ok : serialize ex_exprs ex_schema = Ok ex_pushdown.
Proof. vm_compute. reflexivity. Qed.
Lemma ex_runtime_ok side :
  serialize_physical_for_remote ex_physical ex_schema ex_schema side = Ok (ex_runtime side).
Proof. destruct side; vm_compute; reflexivity. Qed.

Lemma serialize_superset_witness :
  pd_columns ex_pushdown = [0; 1] /\ pushes ex_pushdown ex_schema (all_true ex_schema ex_exprs).
Proof.
  split; [vm_compute; reflexivity|].
  apply serialize_superset; [vm_compute; discriminate|apply ex_pushdown_ok|vm_compute; discriminate].
Defined.

Lemma serialize_physical_superset_witness :
  length (pd_join_keys (ex_runtime true)) = 2%nat /\
  pushes (ex_runtime true) ex_schema (all_true ex_schema (map logical_of ex_physical)).
Proof.
  split; [vm_compute; reflexivity|].
  apply (serialize_physical_superset ex_schema ex_schema ex_physical true);
    [vm_compute; discriminate|apply ex_runtime_ok].
Defined.

Lemma serialize_delta_replaces_witness :
  exists pd ws env,
    serialize_physical_delta_for_remote ex_physical ex_schema ex_schema 7 4 = Ok pd /\
    delta_installs pd ws 4 /\ pd_predicate_count pd = length ws /\
    forall row, row_typed ex_schema row ->
      all_true ex_schema (map logical_of ex_physical) row ->
      Forall (fun w => denote env row w = true) ws.
Proof.
  destruct (serialize_physical_delta_for_remote ex_physical ex_schema ex_schema 7 4)
    as [pd|] eqn:Hpd; [|vm_compute in Hpd; discriminate].
  destruct (serialize_delta_replaces ex_schema ex_schema ex_physical 7 4 pd) as (ws & env & H);
    [vm_compute; discriminate|exact Hpd|].
  exists pd, ws, env. split; [reflexivity|exact H].
Defined.

Definition ex_static_preds : list (string * WireExpr) :=
  [("query:0", WComparison OpGt "a" 0 0); ("query:1", WIn "b" 1 0)].
Definition ex_runtime_preds : list (string * WireExpr) :=
  [("join:0", WComparison OpGtEq "a" 0 0); ("join:1", WIn "a" 0 0); ("join:2", WIn "b" 1 1)].

Lemma ex_preds_wf env ps :
  Forall (fun p => refs_below (length (env_constants env)) (length (env_batches env)) p.2) ps ->
  Forall (fun p => wire_columns p.2 ⊆ [0; 1]) ps -> Forall (pred_wf [0; 1] env) ps.
Proof.
  rewrite !Forall_forall. intros Hr Hc p Hp. split; [by apply Hr|].
  intros i Hi. by apply (Hc p Hp).
Qed.

Lemma merge_conjoins_witness :
  exists m psm envm,
    merge ex_pushdown (ex_runtime true) = Ok m /\ pushdown_denotes m psm envm /\
    map fst psm = ["query:0"; "query:1"; "join:0"; "join:1"; "join:2"] /\
    (forall i, i ∈ pd_columns m <-> i ∈ [0; 1] \/ i ∈ [0; 1]).
Proof.
  destruct (merge ex_pushdown (ex_runtime true)) as [m|] eqn:Hm; [|vm_compute in Hm; discriminate].
  destruct (merge_conjoins ex_pushdown (ex_runtime true) m ex_static_preds ex_runtime_preds
              (mkEnv [int 3] [[int 1; int 2]]) (mkEnv [int 3] [[int 5]; [int 1]]))
    as (psm & envm & Hd & Hids & _ & _ & Hcols).
  - eexists _, _, _, _. split; [vm_compute; reflexivity|].
    split; [reflexivity|]. split; [eexists _, _, [Int64]; repeat split|].
    split; [reflexivity|]. split; [repeat constructor|vm_compute; reflexivity].
  - eexists _, _, _, _. split; [vm_compute; reflexivity|].
    split; [reflexivity|]. split; [eexists _, _, [Int64]; repeat split|].
    split; [reflexivity|]. split; [repeat constructor|vm_compute; reflexivity].
  - change (NoDup [0; 1]). repeat constructor; set_solver.
  - apply ex_preds_wf; repeat (apply Forall_cons; split); try apply Forall_nil; simpl;
      try set_solver; try (split; [by eexists|]); lia.
  - apply ex_preds_wf; repeat (apply Forall_cons; split); try apply Forall_nil; simpl;
      try set_solver; try (split; [by eexists|]); lia.
  - split; vm_compute; discriminate.
  - exact Hm.
  - exists m, psm, envm. split; [reflexivity|]. split; [exact Hd|]. split; [exact Hids|exact Hcols].
Defined.

Lemma comparison_exact_witness :
  exists pd w env,
    serialize [BinaryExpr (Literal (int 5)) OpLt (Cast (col "b") Int64)] ex_schema = Ok pd /\
    pushdown_denotes pd [("query:0", w)] env /\ pd_columns pd = [1] /\
    accepts env [("query:0", w)] [int 0; int 6] = true.
Proof.
  destruct (serialize [BinaryExpr (Literal (int 5)) OpLt (Cast (col "b") Int64)] ex_schema)
    as [pd|] eqn:Hpd; [|vm_compute in Hpd; discriminate].
  destruct (comparison_exact ex_schema (Literal (int 5)) OpLt (Cast (col "b") Int64) "b" (int 5) OpGt
              1 pd) as (w & env & Hd & Hc & Ha);
    [vm_compute; discriminate|vm_compute; reflexivity|by eexists|reflexivity|vm_compute; reflexivity
    |exact Hpd|].
  exists pd, w, env. split; [reflexivity|]. split; [exact Hd|]. split; [exact Hc|].
  rewrite Ha by repeat constructor. vm_compute. reflexivity.
Defined.

(** [b = 1 OR (a IN (1, 2) AND a > 0)] has an OR over a side batch, and so has
    the physical [b = 1 OR a IN (1, 2)]; [a = 1 OR a = 'x'] has no side batch. *)
Definition ex_builder : Builder (RecordBatch json) := mkBuilder ex_schema ex_schema [int 9] [1] [].
Definition ex_in_or : Expr * Expr :=
  (BinaryExpr (col "b") OpEq (Literal (int 1)),
   BinaryExpr (InList (col "a") [Literal (int 1); Literal (int 2)] false) OpAnd (BinaryExpr (col "a") OpGt (Literal (int 0)))).
Definition ex_physical_or : PhysicalExpr * PhysicalExpr :=
  (PhysicalBinary (PhysicalColumn "b" 1) OpEq (PhysicalLiteral (int 1)),
   InListExpr (PhysicalColumn "a" 0) [PhysicalLiteral (int 1); PhysicalLiteral (int 2)] false).
Definition ex_mixed : Expr :=
  BinaryExpr (BinaryExpr (col "a") OpEq (Literal (int 1))) OpOr
    (BinaryExpr (col "a") OpEq (Literal (SVPrim Utf8 (Some (PString "x"))))).

Lemma failed_or_and_tuple_roll_back_witness :
  build (BinaryExpr ex_in_or.1 OpOr ex_in_or.2) ex_builder = (None, ex_builder) /\
  build_physical (PhysicalBinary ex_physical_or.1 OpOr ex_physical_or.2) true ex_builder = (None, ex_builder) /\
  (build ex_mixed ex_builder).1 = None /\ only_columns ex_builder (build ex_mixed ex_builder).2.
Proof.
  destruct (failed_or_and_tuple_roll_back ex_builder) as (Hall & _ & Hor & Hphysical & _); [vm_compute; discriminate|].
  split; [|split; [|split; [vm_compute; reflexivity|apply Hall; vm_compute; reflexivity]]].
  - destruct (Hor ex_in_or.1 ex_in_or.2) as [H|(name & vs & H & _)]; [vm_compute; reflexivity| |vm_compute in H; discriminate H].
    rewrite (surjective_pairing (build _ ex_builder)), H. vm_compute. reflexivity.
  - destruct (Hphysical ex_physical_or.1 OpOr ex_physical_or.2 true) as [H|(name & vs & _ & _ & H & _)];
      [by right|vm_compute; reflexivity| |vm_compute in H; discriminate H].
    rewrite (surjective_pairing (build_physical _ true ex_builder)), H. vm_compute. reflexivity.
Defined.

(** The side batch of [a = 1 OR a = 'x'] cannot be built, and the column [a]
    stays among those the worker is asked for. *)
Lemma equality_list_leaks_column :
  (build ex_mixed ex_builder).1 = None /\ referenced_columns (build ex_mixed ex_builder).2 = [1; 0].
Proof. split; vm_compute; reflexivity. Qed.
