(* ===== verification/FilterExact.v ===== *)
(** * Filter pushdown: exact claims (src/src/lib.rs, src/src/filters.rs)

    What a table provider claims for each filter ([supports_filters_pushdown])
    and when the claim is kept: a filter claimed Exact is not applied again, so
    the document sent must reject every row it does not accept. The comments of
    filters.rs (the module's, and the one in [finish_snapshot]) say that every
    filter is reported Inexact and stays as a residual; lib.rs claims Exact for
    functions that apply filters exactly ([exact_is_claimed]). *)

From S2P Require Import Prelude Json Arrow Filters FilterSpec FilterSound FilterDoc KernelModel.

#[local] Open Scope Z_scope.

Section Exact.
Context {Text Bytes : Type} `{HK : !ArrowKernel Text Bytes} `{HA : !ArrowLaws Text Bytes}.
Context `{HE : !Evaluation} `{HEL : !EvaluationLaws}.

(** ** The claims *)

Inductive TableProviderFilterPushDown := Unsupported | Inexact | Exact.
(** [VgiTableProvider::supports_filters_pushdown] *)
Definition supports_filter (filter_pushdown : option bool) (filters_exactly_applied : bool) (sch : Schema) (f : Expr)
    : TableProviderFilterPushDown :=
  if is_pushable f sch then
    if negb (bool_decide (filter_pushdown = Some false)) && filters_exactly_applied then Exact else Inexact
  else Unsupported.
Definition supports_filters_pushdown (filter_pushdown : option bool) (filters_exactly_applied : bool) (sch : Schema)
    : list Expr -> list TableProviderFilterPushDown :=
  map (supports_filter filter_pushdown filters_exactly_applied sch).
(** The filters DataFusion applies again above the scan: all but those claimed
    Exact. *)
Definition residual (filter_pushdown : option bool) (filters_exactly_applied : bool) (sch : Schema) : list Expr -> list Expr :=
  List.filter (fun f => match supports_filter filter_pushdown filters_exactly_applied sch f with Exact => false | _ => true end).
(** The filters a scan sends. *)
Definition scan_pushdown (filter_pushdown : option bool) (filters : list Expr) (sch : Schema) : result (Pushdown Bytes) :=
  if bool_decide (filter_pushdown = Some false) then Ok default_pushdown else serialize filters sch.

(** ** Whether a predicate can be expressed does not depend on the builder *)

Definition same_schemas (b b' : Builder Bytes) : Prop := schema b = schema b' /\ remote_schema b = remote_schema b'.
#[local] Instance same_schemas_equiv : Equivalence same_schemas.
Proof. unfold same_schemas. split; intros ?; intuition congruence. Qed.
Definition agree {A} (R : A -> A -> Prop) (o o' : option A) : Prop :=
  match o, o' with Some a, Some a' => R a a' | None, None => True | _, _ => False end.
Definition uniform {A} (R : A -> A -> Prop) (m : BM Bytes A) : Prop :=
  forall b b', same_schemas b b' -> agree R (m b).1 (m b').1 /\ same_schemas (m b).2 (m b').2.

Lemma uniform_bind {A B} (R : A -> A -> Prop) (S : B -> B -> Prop) (m : BM Bytes A) (k k' : A -> BM Bytes B) b b' :
  same_schemas b b' -> uniform R m ->
  (forall a a' b1 b1', R a a' -> same_schemas b1 b1' ->
     agree S (k a b1).1 (k' a' b1').1 /\ same_schemas (k a b1).2 (k' a' b1').2) ->
  agree S (bind m k b).1 (bind m k' b').1 /\ same_schemas (bind m k b).2 (bind m k' b').2.
Proof.
  intros Hs Hm Hk. destruct (Hm b b' Hs) as [Ho Hs']. unfold bind.
  destruct (m b) as [[a|] b1], (m b') as [[a'|] b1']; cbn in *; try done. by apply Hk.
Qed.
Definition any {A} (a a' : A) : Prop := True.
(** Whether a spec refers to a side batch is all that an OR looks at. *)
Definition same_shape (j j' : json) : Prop := contains_join_keys j = contains_join_keys j'.

Lemma remote_column_uniform name : uniform eq (remote_column (Bytes := Bytes) name).
Proof.
  intros b b' [Hs Hr]. unfold remote_column. rewrite Hs, Hr. destruct (index_of _ _); cbn; [|done].
  destruct (remote_schema b' !! _); cbn; [|done]. split; [done|]. split; cbn; done.
Qed.
Lemma membership_uniform name vs : uniform same_shape (membership name vs).
Proof.
  intros b b' Hs. unfold membership. destruct (_ || _); [done|].
  eapply uniform_bind; [done|apply remote_column_uniform|]. intros [rn idx] ? b1 b1' <- Hs1.
  unfold bind, gets, lift. destruct (result_ok _); cbn; [|done]. split; [|exact Hs1].
  reflexivity.
Qed.
Lemma push_comparison_uniform name v op : uniform same_shape (push_comparison name v op).
Proof.
  intros b b' Hs. unfold push_comparison.
  eapply uniform_bind; [done|apply remote_column_uniform|]. intros [rn idx] ? b1 b1' <- Hs1.
  unfold bind, lift. destruct (op_token op) as [token|] eqn:Htok; cbn; [|done]. destruct (constant_from_scalar v); cbn; [|done].
  split; [done|exact Hs1].
Qed.
Lemma uniform_gets {A B} (R : A -> A -> Prop) (f : Builder Bytes -> B) (k : B -> BM Bytes A) b b' :
  f b = f b' -> (agree R (k (f b) b).1 (k (f b) b').1 /\ same_schemas (k (f b) b).2 (k (f b) b').2) ->
  agree R (bind (gets f) k b).1 (bind (gets f) k b').1 /\ same_schemas (bind (gets f) k b).2 (bind (gets f) k b').2.
Proof. unfold bind, gets. by intros <-. Qed.
Lemma bind_gets {A B} (f : Builder Bytes -> B) (k : B -> BM Bytes A) b : bind (gets f) k b = k (f b) b.
Proof. done. Qed.
Lemma bind_lift {A B} (o : option B) (k : B -> BM Bytes A) b :
  bind (lift o) k b = match o with Some x => k x b | None => (None, b) end.
Proof. by destruct o. Qed.
Lemma is_null_uniform name neg :
  uniform same_shape (bind (remote_column (Bytes := Bytes) name) (fun '(rn, index) => ret (is_null_node rn index neg))).
Proof.
  intros b b' Hs. eapply uniform_bind; [done|apply remote_column_uniform|]. by intros [rn idx] ? b1 b1' <- Hs1.
Qed.
Lemma rollback_same c c' b b' : same_schemas b b' -> same_schemas (rollback (Bytes := Bytes) c b) (rollback c' b').
Proof. by destruct c as [[??]?], c' as [[??]?]. Qed.
Lemma attempt_uniform {A} (R : A -> A -> Prop) (m : BM Bytes A) : uniform R m -> uniform (agree R) (attempt m).
Proof.
  intros Hm b b' Hs. destruct (Hm b b' Hs) as [Ho Hs']. unfold attempt. by destruct (m b), (m b').
Qed.
Lemma binary_uniform bl br l op r :
  uniform same_shape bl -> uniform same_shape br -> uniform same_shape (binary bl br l op r).
Proof.
  intros Hl Hr b b' Hs. assert (Hschema : schema b = schema b') by apply Hs.
  assert (Hcmp : forall op, let k := fun sch => bind (lift (comparison_operands sch l op r))
      (fun '(name, value, op') => push_comparison (Bytes := Bytes) name value op') in
    agree same_shape (bind (gets schema) k b).1 (bind (gets schema) k b').1 /\
    same_schemas (bind (gets schema) k b).2 (bind (gets schema) k b').2).
  { intros o k. apply uniform_gets; [done|]. unfold k, bind, lift.
    destruct (comparison_operands _ l o r) as [[[name v] op']|]; [by apply push_comparison_uniform|done]. }
  unfold binary. destruct op; try apply Hcmp.
  - eapply uniform_bind; [done|by apply attempt_uniform|]. intros ol ol' b1 b1' Hol Hs1.
    eapply uniform_bind; [done|by apply attempt_uniform|]. intros or or' b2 b2' Hor Hs2.
    unfold lift. split; [|exact Hs2]. destruct ol, ol', or, or'; cbn in *; try done.
    unfold same_shape in *. cbn. by rewrite Hol, Hor.
  - apply uniform_gets; [done|]. destruct (logical_or_equalities l r (schema b)) as [[name vs]|]; [by apply membership_uniform|].
    rewrite !bind_gets.
    eapply uniform_bind; [done|by apply attempt_uniform|]. intros ol ol' b1 b1' Hol Hs1.
    eapply uniform_bind; [done|by apply attempt_uniform|]. intros or or' b2 b2' Hor Hs2.
    destruct ol as [jl|], ol' as [jl'|]; try done; destruct or as [jr|], or' as [jr'|]; try done;
      try (split; [done|by apply rollback_same]).
    assert (contains_join_keys (conjunction "or" jl jr) = contains_join_keys (conjunction "or" jl' jr')) as Hc.
    { cbn in *. unfold same_shape in *. by rewrite Hol, Hor. }
    cbv zeta. rewrite Hc. destruct (contains_join_keys (conjunction "or" jl' jr')) eqn:Hd; [split; [done|by apply rollback_same]|].
    split; [|exact Hs2]. change (contains_join_keys (conjunction "or" jl jr) = contains_join_keys (conjunction "or" jl' jr')).
    congruence.
Qed.
Lemma build_uniform e : uniform same_shape (build (Bytes := Bytes) e).
Proof.
  induction e as [| |l IHl op r IHr| |inner _|inner _|inner _ items neg| | | |]; cbn [build];
    try (by intros b b' Hs).
  - by apply binary_uniform.
  - intros b b' Hs. apply uniform_gets; [apply Hs|]. rewrite !bind_lift.
    destruct (column_name inner _) as [name|]; [|done]. by apply (is_null_uniform name false).
  - intros b b' Hs. apply uniform_gets; [apply Hs|]. rewrite !bind_lift.
    destruct (column_name inner _) as [name|]; [|done]. by apply (is_null_uniform name true).
  - intros b b' Hs. destruct neg; [done|]. apply uniform_gets; [apply Hs|]. rewrite !bind_lift.
    destruct (column_name inner _) as [name|]; [|done]. rewrite !bind_lift.
    destruct (option_collect literal items); [|done]. by apply membership_uniform.
Qed.
(** So what is pushable is pushed, whatever has been pushed before. *)
Lemma pushable_builds e sch b :
  is_pushable e sch = true -> schema b = sch -> remote_schema b = sch -> is_Some (build e b).1.
Proof.
  intros Hp Hs Hr. unfold is_pushable in Hp.
  destruct (build_uniform e (new_builder sch sch) b) as [Ho _]; [split; done|].
  destruct (build e (new_builder sch sch)).1; [|done]. destruct (build e b).1; [by eexists|done].
Qed.

(** ** Predicates without a conjunction are translated exactly *)

(** A conjunction, whose inexpressible side would be dropped, anywhere under the
    disjunctions. *)
Fixpoint has_conjunction (e : Expr) : bool :=
  match e with
  | BinaryExpr l OpAnd r => true
  | BinaryExpr l OpOr r => has_conjunction l || has_conjunction r
  | _ => false
  end.

Lemma exact_extends e j b b' : exact e j b -> extends b b' -> exact e j b'.
Proof. intros Hj He. eapply decides_extends; [exact Hj|done|]. destruct He as (-> & _). done. Qed.
Lemma kleene_or_iff a b : kleene_or a b = Some true <-> a = Some true \/ b = Some true.
Proof. destruct a as [[]|], b as [[]|]; cbn; intuition congruence. Qed.
Lemma or_exact b l r jl jr :
  exact l jl b -> exact r jr b -> exact (BinaryExpr l OpOr r) (conjunction "or" jl jr) b.
Proof.
  intros (wl & -> & Hl & Hdl) (wr & -> & Hr & Hdr). exists (WOr wl wr).
  split; [done|]. split; [done|]. intros row Hrow. cbn [denote truth].
  by rewrite orb_true_iff, kleene_or_iff, Hdl, Hdr.
Qed.
Lemma collect_or_exact sch row e out out' :
  row_typed sch row ->
  collect_logical_or_equalities e sch out = Some out' ->
  exists ts, out' = out ++ ts /\ (truth sch row e = Some true <-> Exists (term_holds sch row) ts).
Proof.
  intros Hrow; revert out out'.
  induction e as [| |l IHl op r IHr| | | | | | | |]; intros out out'; simpl; try done.
  case_decide as Hor; [|case_decide as Heq; [|done]].
  - subst op.
    destruct (collect_logical_or_equalities l sch out) as [out1|] eqn:H1; simpl; [|done].
    intros H2. destruct (IHl _ _ H1) as (t1 & -> & Ht1).
    destruct (IHr _ _ H2) as (t2 & -> & Ht2).
    exists (t1 ++ t2). rewrite <- app_assoc. split; [done|].
    by rewrite kleene_or_iff, Exists_app, Ht1, Ht2.
  - subst op. destruct (equality_term sch l r) as [[n v]|] eqn:Ht; simpl; [|done].
    intros [= <-]. exists [(n, v)]. split; [done|].
    apply equality_term_operands in Ht.
    change (a ← value sch row l; b ← value sch row r; scalar_cmp OpEq a b) with (truth sch row (BinaryExpr l OpEq r)).
    rewrite (comparison_operands_eq _ _ _ _ _ _ _ _ Hrow Ht) by by eexists.
    rewrite Exists_cons, Exists_nil. unfold term_holds. cbn [fst snd].
    destruct (index_of sch n ≫= _) as [x|]; cbn; split.
    + intros Hc. left. by exists x.
    + intros [(y & [= <-] & Hc)|[]]. done.
    + done.
    + by intros [(y & [=] & _)|[]].
Qed.
Lemma same_column_exact sch row ts name vs :
  same_column_membership ts = Some (name, vs) ->
  (Exists (term_holds sch row) ts <->
   exists x, (index_of sch name ≫= (fun i => row !! i)) = Some x /\ exists c, c ∈ vs /\ scalar_cmp OpEq x c = Some true).
Proof.
  intros Hm. split; [by apply same_column_membership_holds|]. intros (x & Hx & c & Hc & Heq).
  unfold same_column_membership in Hm. destruct ts as [|[n v] ts']; [done|].
  set (ts := (n, v) :: ts') in *. destruct (existsb _ ts) eqn:Hall; [done|]. injection Hm as -> <-.
  change (v :: map snd ts') with (map snd ts) in Hc.
  apply list_elem_of_fmap in Hc as ([n' c'] & Hcc & Hin). cbn in Hcc. subst c'.
  apply Exists_exists. exists (n', c). split; [done|]. exists x. split; [|done]. cbn. rewrite <- Hx.
  assert (n' = name) as ->; [|done].
  destruct (String.eqb n' name) eqn:He; [by apply String.eqb_eq|]. exfalso.
  apply not_true_iff_false in Hall. apply Hall, existsb_exists. exists (n', c). split; [by apply list_elem_of_In|].
  cbn. by rewrite He.
Qed.
Lemma or_equalities_exact sch row l r name vs :
  row_typed sch row -> logical_or_equalities l r sch = Some (name, vs) ->
  (truth sch row (BinaryExpr l OpOr r) = Some true <->
   exists x, (index_of sch name ≫= (fun i => row !! i)) = Some x /\ exists c, c ∈ vs /\ scalar_cmp OpEq x c = Some true).
Proof.
  intros Hrow. unfold logical_or_equalities.
  destruct (collect_logical_or_equalities l sch []) as [t1|] eqn:H1; simpl; [|done].
  destruct (collect_logical_or_equalities r sch t1) as [t2|] eqn:H2; simpl; [|done].
  intros Hm.
  destruct (collect_or_exact _ _ _ _ _ Hrow H1) as (ts1 & -> & Ht1).
  destruct (collect_or_exact _ _ _ _ _ Hrow H2) as (ts2 & -> & Ht2).
  rewrite <- (same_column_exact _ row _ _ _ Hm). simpl. by rewrite kleene_or_iff, Exists_app, Ht1, Ht2.
Qed.
Lemma in_list_exact sch row inner name items vs :
  row_typed sch row -> column_name inner sch = Some name -> option_collect literal items = Some vs ->
  (truth sch row (InList inner items false) = Some true <->
   exists x, (index_of sch name ≫= (fun i => row !! i)) = Some x /\ exists c, c ∈ vs /\ scalar_cmp OpEq x c = Some true).
Proof.
  intros Hrow Hn Hvs. split; [by apply in_list_truth|]. intros (x & Hx & c & Hc & Heq). cbn [truth].
  rewrite (column_name_value _ _ _ _ Hrow Hn), (literals_values _ _ _ _ Hvs), Hx. cbn.
  destruct (existsb _ vs) eqn:Hex; [done|]. exfalso.
  apply not_true_iff_false in Hex. apply Hex, existsb_exists. exists c. split; [by apply list_elem_of_In|]. by rewrite Heq.
Qed.

(** A spec decided by what it says of the builder's schema. *)
Lemma exact_weaken b e (m : BM Bytes json) (P : list ScalarValue -> Prop) :
  yields b m b (decides P) ->
  (forall row, row_typed (schema b) row -> truth (schema b) row e = Some true <-> P row) ->
  yields b m b (exact e).
Proof.
  intros Hm HP. eapply yields_weaken; [exact Hm|]. intros j b' (Hs & _) Hj. unfold exact.
  eapply decides_extends; [exact Hj|reflexivity|]. rewrite Hs. exact HP.
Qed.
Lemma comparison_build_exact b l op r :
  small b ->
  yields b (bind (lift (comparison_operands (schema b) l op r))
              (fun '(name, v, op') => push_comparison name v op')) b (exact (BinaryExpr l op r)).
Proof.
  intros Hb. apply yields_lift_bind; [done|]. intros [[name v] op'] Hops.
  eapply yields_weaken; [by apply push_comparison_decides|]. intros j b' (Hs & _) [Htok Hj]. unfold exact.
  eapply decides_extends; [exact Hj|reflexivity|]. rewrite Hs. intros row Hrow.
  rewrite (comparison_operands_eq _ _ _ _ _ _ _ _ Hrow Hops Htok). unfold column_value.
  destruct (index_of (schema b) name ≫= _) as [x|]; cbn; split; [intros H; by exists x|by intros (y & [= <-] & ?)|done|by intros (y & [=] & _)].
Qed.
Lemma build_exact e : has_conjunction e = false -> forall b, small b -> yields b (build e) b (exact e).
Proof.
  induction e as [| |l IHl op r IHr| |inner _|inner _|inner _ items neg| | | |]; intros Hn b Hb; cbn [build];
    try by apply yields_lift.
  - unfold binary. destruct op; try (apply yields_gets; by apply comparison_build_exact); [done|].
    apply orb_false_iff in Hn as [Hnl Hnr]. apply yields_gets.
    destruct (logical_or_equalities l r (schema b)) as [[name vs]|] eqn:Hor.
    { eapply exact_weaken; [by apply membership_decides|]. intros row Hrow. by apply or_equalities_exact. }
    apply yields_gets.
    eapply yields_attempt; [by apply IHl|]. intros ol b1 H1 Hol.
    eapply yields_attempt; [apply IHr; [done|by eapply small_extends]|]. intros or b2 H2 Hor'.
    assert (extends b b2) by by etrans.
    destruct ol as [jl|], or as [jr|]; try by apply yields_rollback.
    case_match; [by apply yields_rollback|].
    apply yields_ret; eauto using or_exact, exact_extends.
  - apply yields_gets, yields_lift_bind; [done|]. intros name Hname. by apply (is_null_node_exact b name false _ inner).
  - apply yields_gets, yields_lift_bind; [done|]. intros name Hname. by apply (is_null_node_exact b name true _ inner).
  - destruct neg; [by apply yields_lift|]. apply yields_gets, yields_lift_bind; [done|]. intros name Hname.
    apply yields_lift_bind; [done|]. intros vs Hvs.
    eapply exact_weaken; [by apply membership_decides|]. intros row Hrow. by apply in_list_exact.
Qed.

(** ** Claims kept *)

(** What a list of specs rejects, and that it accepts the rows on which all
    predicates hold. *)
Definition holds_claims (sch : Schema) (es : list Expr) (js : list json) (b : Builder Bytes) : Prop :=
  exists ws, js = map encode ws /\ Forall (spec_wf b) ws /\
    (forall e, e ∈ es -> is_pushable e sch = true -> has_conjunction e = false ->
      ws <> [] /\ forall row, row_typed (schema b) row -> Forall (fun w => denote (env_of b) row w = true) ws -> truth sch row e = Some true) /\
    forall row, row_typed (schema b) row -> all_true sch es row -> Forall (fun w => denote (env_of b) row w = true) ws.

Lemma build_all_exact sch es b :
  small b -> schema b = sch -> remote_schema b = sch -> yields b (build_all es) b (holds_claims sch es).
Proof.
  revert b. induction es as [|e es IH]; intros b Hb Hs Hr; cbn [build_all].
  { apply yields_ret; [done|]. exists []. split; [done|]. split; [constructor|]. split; [|constructor].
    intros e He. by apply elem_of_nil in He. }
  pose proof (build_spec e b Hb) as [He Hq]. pose proof (fun H => proj2 (build_exact e H b Hb)) as Hx.
  pose proof (fun H => pushable_builds e sch b H Hs Hr) as Hp.
  unfold yields, bind, attempt. destruct (build e b) as [o b1]. cbn in He, Hq, Hx, Hp.
  assert (Hs1 : schema b1 = sch) by (destruct He as (-> & _); done).
  assert (Hr1 : remote_schema b1 = sch) by (destruct He as (_ & -> & _); done).
  destruct (IH b1 (small_extends _ _ He Hb) Hs1 Hr1) as [He2 Hq2].
  destruct (build_all es b1) as [[js|] b2]; cbn in He2, Hq2; [|split; [by etrans|done]].
  split; [cbn; by etrans|]. intros js' [= <-]. destruct (Hq2 js eq_refl) as (ws & -> & Hw & Hall & Hsup). cbn [snd ret].
  assert (Hschema : schema b2 = schema b1) by apply He2.
  destruct o as [j|]; cbn [option_list app].
  - assert (exists w, j = encode w /\ spec_wf b1 w /\ (has_conjunction e = false ->
      forall row, row_typed (schema b1) row -> denote (env_of b1) row w = true -> truth (schema b1) row e = Some true) /\
      (forall row, row_typed (schema b1) row -> truth (schema b1) row e = Some true -> denote (env_of b1) row w = true))
      as (w & -> & Hwf & Hdw & Hdw').
    { destruct (has_conjunction e) eqn:Hc.
      - destruct (Hq j eq_refl) as (w & -> & Hwf & Hd). by exists w.
      - destruct (Hx eq_refl j eq_refl) as (w & -> & Hwf & Hd). exists w. split; [done|]. split; [done|].
        split; [intros _|]; intros row Hrow; by apply Hd. }
    exists (w :: ws). split; [done|]. split; [constructor; [by eapply spec_wf_extends|done]|]. split.
    + intros e' [->|Hin]%elem_of_cons Hpush Hconj; (split; [done|]); intros row Hrow Hd.
      * apply Forall_inv in Hd. rewrite (denote_extends b1 b2 row w He2 Hwf) in Hd. rewrite Hschema in Hrow.
        rewrite <- Hs1. by apply Hdw.
      * apply Forall_inv_tail in Hd. by apply Hall.
    + intros row Hrow [Ht Hts]%Forall_cons. constructor; [|by apply Hsup].
      rewrite (denote_extends b1 b2 row w He2 Hwf). rewrite Hschema in Hrow. apply Hdw'; [done|]. by rewrite Hs1.
  - exists ws. split; [done|]. split; [done|]. split.
    + intros e' [->|Hin]%elem_of_cons Hpush Hconj; [by destruct (Hp Hpush)|by apply Hall].
    + intros row Hrow [_ Hts]%Forall_cons. by apply Hsup.
Qed.

(** The rows on which all of some filters are TRUE. *)
Definition passes (sch : Schema) (filters : list Expr) (row : list ScalarValue) : bool :=
  forallb (fun f => bool_decide (truth sch row f = Some true)) filters.
Lemma passes_spec sch filters row : passes sch filters row = true <-> all_true sch filters row.
Proof.
  unfold passes, all_true. rewrite forallb_forall, Forall_forall. setoid_rewrite bool_decide_eq_true.
  by setoid_rewrite list_elem_of_In.
Qed.
Lemma filter_steps {A} (p q r : A -> bool) l :
  Forall (fun x => p x = q x && r x) l -> List.filter p l = List.filter r (List.filter q l).
Proof. induction 1 as [|x l Hx _ IH]; [done|]. cbn. rewrite Hx. destruct (q x); cbn; [|done]. destruct (r x); by rewrite IH. Qed.

(** What is claimed. *)
Lemma exact_is_claimed filter_pushdown sch f :
  filter_pushdown <> Some false -> is_pushable f sch = true -> supports_filter filter_pushdown true sch f = Exact.
Proof. intros Hp Hf. unfold supports_filter. by rewrite Hf, bool_decide_eq_false_2. Qed.

Lemma accepts_snapshot_iff env prefix ws row :
  accepts env (snapshot_preds prefix ws) row = true <-> Forall (fun w => denote env row w = true) ws.
Proof.
  unfold accepts. rewrite forallb_forall, Forall_lookup. split.
  - intros H k w Hk. refine (H (_, w) _). apply list_elem_of_In, list_elem_of_lookup. exists k.
    unfold snapshot_preds. by rewrite list_lookup_imap, Hk.
  - intros H [id w] Hin%list_elem_of_In. apply list_elem_of_lookup in Hin as [k Hk]. unfold snapshot_preds in Hk.
    rewrite list_lookup_imap in Hk. destruct (ws !! k) as [w'|] eqn:Hw; simplify_eq/=. by eapply H.
Qed.

(** C9: an Exact claim is kept. If a filter without a nested conjunction is
    claimed Exact, then whatever filters the scan carries with it, the document
    sent denotes wire predicates that reject every row on which that filter is
    not TRUE: DataFusion may leave it to the worker. So when no filter claimed
    Exact has a nested conjunction, a worker that applies the document and
    DataFusion applying only the other filters again select exactly the rows on
    which all filters are TRUE. The module comment of filters.rs says no filter
    is ever claimed Exact, and the predicates are sent as advisory
    ([claimed_exact_sent_advisory]). *)
Theorem exact_claims_kept filter_pushdown exactly sch filters i f pd :
  Z.of_nat (length sch) <= i64_max + 1 ->
  filters !! i = Some f -> has_conjunction f = false ->
  supports_filters_pushdown filter_pushdown exactly sch filters !! i = Some Exact ->
  scan_pushdown filter_pushdown filters sch = Ok pd ->
  exists preds env, pushdown_denotes pd preds env /\
    (forall row, row_typed sch row -> accepts env preds row = true -> truth sch row f = Some true) /\
    ((forall g, g ∈ filters -> supports_filter filter_pushdown exactly sch g = Exact -> has_conjunction g = false) ->
     forall rows, Forall (row_typed sch) rows ->
       List.filter (passes sch filters) rows
       = List.filter (passes sch (residual filter_pushdown exactly sch filters)) (List.filter (accepts env preds) rows)).
Proof.
  intros Hlen Hi Hconj Hclaim. assert (Hin : f ∈ filters) by by eapply list_elem_of_lookup_2.
  unfold supports_filters_pushdown in Hclaim. rewrite list_lookup_fmap, Hi in Hclaim. injection Hclaim as Hclaim.
  assert (Hpushable : forall g, supports_filter filter_pushdown exactly sch g = Exact -> is_pushable g sch = true).
  { intros g. unfold supports_filter. by destruct (is_pushable g sch). }
  unfold scan_pushdown. destruct (bool_decide (filter_pushdown = Some false)) eqn:Hfp.
  { unfold supports_filter in Hclaim. rewrite Hfp in Hclaim. by destruct (is_pushable f sch). }
  unfold serialize.
  destruct (build_all_exact sch filters (new_builder sch sch) Hlen eq_refl eq_refl) as [He Hq].
  destruct (build_all_total filters (new_builder sch sch)) as (specs & b & Hb). rewrite Hb in *. cbn in He, Hq.
  destruct (Hq specs eq_refl) as (ws & -> & Hwf & Hall & Hsup).
  destruct (Hall f Hin (Hpushable f Hclaim) Hconj) as [Hne _].
  destruct ws as [|w ws]; [done|]. cbn [map].
  destruct (finish_snapshot _ _ _ _ _) as [pd'|] eqn:Hf; [|done]. intros [= <-].
  destruct (finish_snapshot_denotes (w :: ws) _ _ _ _ _ (join_keys b) Hf) as (Hd & _ & _); [by left|].
  exists (snapshot_preds "query" (w :: ws)), (env_of b). split; [exact Hd|].
  destruct He as (Hs & _). cbn in Hs. rewrite Hs in *.
  assert (Hacc : forall row, accepts (env_of b) (snapshot_preds "query" (w :: ws)) row = true <->
    Forall (fun w => denote (env_of b) row w = true) (w :: ws)) by (intros row; apply accepts_snapshot_iff).
  assert (Hkept : forall g, g ∈ filters -> supports_filter filter_pushdown exactly sch g = Exact -> has_conjunction g = false ->
    forall row, row_typed sch row -> accepts (env_of b) (snapshot_preds "query" (w :: ws)) row = true -> truth sch row g = Some true).
  { intros g Hg Hgc Hgn row Hrow Ha. by apply (Hall g Hg (Hpushable g Hgc) Hgn); [|apply Hacc]. }
  split; [by apply Hkept|]. intros Hno rows Hrows. apply filter_steps.
  eapply Forall_impl; [exact Hrows|]. intros row Hrow. apply eq_true_iff_eq. rewrite andb_true_iff, !passes_spec, Hacc. split.
  - intros Ht. split; [by apply Hsup|]. unfold all_true, residual in *. rewrite Forall_forall in *.
    intros g [Hg _]%list_elem_of_In%filter_In. by apply Ht, list_elem_of_In.
  - intros [Ha Ht]. unfold all_true, residual in *. rewrite Forall_forall in *. intros g Hg.
    destruct (supports_filter filter_pushdown exactly sch g) eqn:Hgc; [| |by apply (Hkept g Hg Hgc (Hno g Hg Hgc) row Hrow), Hacc];
      (apply Ht, list_elem_of_In, filter_In; rewrite Hgc; split; [by apply list_elem_of_In|done]).
Qed.
End Exact.

(** ** Witness, and a claim that is not kept *)

Module Claims.
Definition schema : Schema := [mkField "a" Int64 true []; mkField "b" Int64 true []].
Definition int (z : Z) : ScalarValue := SVPrim Int64 (Some (PInt z)).
Definition greater : Expr := BinaryExpr (Column None "a") OpGt (Literal (int 3)).
Definition equals : Expr := BinaryExpr (Column None "b") OpEq (Literal (int 1)).
Definition opaque : Expr := OtherExpr 0.
(** [a > 3 OR b = 1], and [(a > 3 AND opaque) OR b = 1]. *)
Definition plain : Expr := BinaryExpr greater OpOr equals.
Definition nested : Expr := BinaryExpr (BinaryExpr greater OpAnd opaque) OpOr equals.
Definition pushed (f : Expr) : Pushdown (RecordBatch json) :=
  default default_pushdown (result_ok (scan_pushdown (Some true) [opaque; f] schema)).
Lemma pushed_ok f : f = plain \/ f = nested -> scan_pushdown (Some true) [opaque; f] schema = Ok (pushed f).
Proof. intros [-> | ->]; vm_compute; reflexivity. Qed.
Definition sent : list (string * WireExpr) :=
  [("query:0", WOr (WComparison OpGt "a" 0 0) (WComparison OpEq "b" 1 1))].
End Claims.

Lemma exact_claims_kept_witness :
  supports_filters_pushdown (Bytes := RecordBatch json) (Some true) true Claims.schema [Claims.opaque; Claims.plain]
    = [Unsupported; Exact] /\
  residual (Bytes := RecordBatch json) (Some true) true Claims.schema [Claims.opaque; Claims.plain] = [Claims.opaque] /\
  exists preds env, pushdown_denotes (Claims.pushed Claims.plain) preds env /\
    (forall row, row_typed Claims.schema row -> accepts env preds row = true ->
      truth Claims.schema row Claims.plain = Some true) /\
    let rows := [[Claims.int 5; Claims.int 0]; [Claims.int 0; Claims.int 0]] in
    List.filter (passes Claims.schema [Claims.opaque; Claims.plain]) rows
    = List.filter (passes Claims.schema [Claims.opaque]) (List.filter (accepts env preds) rows).
Proof.
  split; [vm_compute; reflexivity|]. split; [vm_compute; reflexivity|].
  destruct (exact_claims_kept (Some true) true Claims.schema [Claims.opaque; Claims.plain] 1 Claims.plain (Claims.pushed Claims.plain))
    as (preds & env & Hd & Hrej & Hrows);
    [vm_compute; discriminate|reflexivity|reflexivity|vm_compute; reflexivity|apply Claims.pushed_ok; by left|].
  exists preds, env. split; [exact Hd|]. split; [exact Hrej|]. apply Hrows.
  - intros g [->|[->|[]%not_elem_of_nil]%elem_of_cons]%elem_of_cons; done.
  - repeat constructor.
Defined.

(** A filter claimed Exact is sent as an advisory predicate all the same. *)
Lemma claimed_exact_sent_advisory :
  supports_filter (Bytes := RecordBatch json) (Some true) true Claims.schema Claims.plain = Exact /\
  exists batch doc, pd_blob (Claims.pushed Claims.plain) = Some batch /\ batch_columns batch !! 0%nat = Some (StringArray [doc]) /\
    match doc with
    | JObj fields => exists p, In ("predicates", JArr [JObj p]) fields /\ In ("mode", JStr "advisory") p
    | _ => False
    end.
Proof.
  split; [vm_compute; reflexivity|]. eexists _, _. split; [vm_compute; reflexivity|]. split; [vm_compute; reflexivity|].
  vm_compute. eexists. split; repeat (first [left; reflexivity|right]).
Qed.

(** With a conjunction below a disjunction the claim is made all the same, and
    the document sent accepts a row on which the filter is not TRUE. *)
Lemma nested_conjunction_claimed :
  supports_filters_pushdown (Bytes := RecordBatch json) (Some true) true Claims.schema [Claims.opaque; Claims.nested]
    = [Unsupported; Exact] /\
  exists env, pushdown_denotes (Claims.pushed Claims.nested) Claims.sent env /\
    accepts env Claims.sent [Claims.int 5; Claims.int 0] = true /\
    truth Claims.schema [Claims.int 5; Claims.int 0] Claims.nested <> Some true.
Proof.
  split; [vm_compute; reflexivity|]. exists (mkEnv [Claims.int 3; Claims.int 1] []).
  split; [|split; [vm_compute; reflexivity|vm_compute; discriminate]].
  eexists _, _, _, _. split; [vm_compute; reflexivity|].
  split; [reflexivity|]. split; [eexists _, _, [Int64; Int64]; repeat split|].
  split; [reflexivity|]. split; [repeat constructor|vm_compute; reflexivity].
Qed.
