(* ===== verification/Text.v ===== *)
(** * Text and byte strings

    Rust's [str] methods the adapter calls, on byte strings ([string] is a
    sequence of bytes, a Rust [str] is its UTF-8 encoding), and the
    little-endian integer encodings its cache identities are built from. *)

From S2P Require Import Prelude.
From Stdlib Require Import Strings.Ascii.

(** ** ASCII case *)

Definition to_lower (c : ascii) : ascii :=
  let n := nat_of_ascii c in
  if (65 <=? n)%nat && (n <=? 90)%nat then ascii_of_nat (n + 32) else c.

(** [str::to_ascii_lowercase] and [str::eq_ignore_ascii_case]. *)
Fixpoint to_ascii_lowercase (s : string) : string :=
  match s with
  | EmptyString => EmptyString
  | String c r => String (to_lower c) (to_ascii_lowercase r)
  end.
Definition eq_ignore_ascii_case (a b : string) : bool :=
  String.eqb (to_ascii_lowercase a) (to_ascii_lowercase b).

Lemma to_lower_idem c : to_lower (to_lower c) = to_lower c.
Proof. destruct c as [[] [] [] [] [] [] [] []]; vm_compute; reflexivity. Qed.

Lemma to_ascii_lowercase_idem s : to_ascii_lowercase (to_ascii_lowercase s) = to_ascii_lowercase s.
Proof. induction s as [|c s IH]; simpl; [done|]. by rewrite to_lower_idem, IH. Qed.

Lemma eq_ignore_ascii_case_spec a b :
  eq_ignore_ascii_case a b = true <-> to_ascii_lowercase a = to_ascii_lowercase b.
Proof. apply String.eqb_eq. Qed.

Lemma eq_ignore_ascii_case_refl a : eq_ignore_ascii_case a a = true.
Proof. by apply eq_ignore_ascii_case_spec. Qed.

Lemma eq_ignore_ascii_case_lower a b :
  eq_ignore_ascii_case a (to_ascii_lowercase b) = eq_ignore_ascii_case a b.
Proof. unfold eq_ignore_ascii_case. by rewrite to_ascii_lowercase_idem. Qed.

(** ** Trimming *)

(** The UTF-8 encodings of the characters with the Unicode [White_Space]
    property, which [str::trim] removes. *)
Definition white_space : list (list nat) :=
  [[9]; [10]; [11]; [12]; [13]; [32]; [194; 133]; [194; 160]; [225; 154; 128];
   [226; 128; 128]; [226; 128; 129]; [226; 128; 130]; [226; 128; 131]; [226; 128; 132];
   [226; 128; 133]; [226; 128; 134]; [226; 128; 135]; [226; 128; 136]; [226; 128; 137];
   [226; 128; 138]; [226; 128; 168]; [226; 128; 169]; [226; 128; 175]; [226; 129; 159];
   [227; 128; 128]].

Definition bytes_of (s : string) : list ascii := String.list_ascii_of_string s.
Definition string_of (l : list ascii) : string := String.string_of_list_ascii l.

Fixpoint drop_prefix (p : list ascii) (l : list ascii) : option (list ascii) :=
  match p, l with
  | [], _ => Some l
  | a :: p', b :: l' => if Ascii.eqb a b then drop_prefix p' l' else None
  | _ :: _, [] => None
  end.
Fixpoint first_some {A B} (f : A -> option B) (l : list A) : option B :=
  match l with [] => None | x :: xs => match f x with Some y => Some y | None => first_some f xs end end.

(** Remove leading matches of [patterns]; each removes at least one byte, so
    the length is enough fuel. *)
Fixpoint strip (fuel : nat) (patterns : list (list ascii)) (l : list ascii) : list ascii :=
  match fuel with
  | O => l
  | S fuel => match first_some (fun p => drop_prefix p l) patterns with
              | Some l' => strip fuel patterns l'
              | None => l
              end
  end.
Definition trim_start_bytes (l : list ascii) : list ascii :=
  strip (length l) (map (map ascii_of_nat) white_space) l.
Definition trim_end_bytes (l : list ascii) : list ascii :=
  rev (strip (length l) (map (fun p => rev (map ascii_of_nat p)) white_space) (rev l)).

(** [str::trim] *)
Definition trim (s : string) : string :=
  string_of (trim_end_bytes (trim_start_bytes (bytes_of s))).

Example trim_test : trim " on	 " = "on" /\ trim "a b" = "a b" /\ trim "  " = "".
Proof. vm_compute. auto. Qed.

(** [str::contains(char)] *)
Definition contains_char (c : ascii) (s : string) : bool := existsb (Ascii.eqb c) (bytes_of s).

Lemma bytes_of_string_of l : bytes_of (string_of l) = l.
Proof. apply String.list_ascii_of_string_of_list_ascii. Qed.
Lemma string_of_bytes_of s : string_of (bytes_of s) = s.
Proof. apply String.string_of_list_ascii_of_string. Qed.

#[export] Instance bytes_of_inj : Inj (=) (=) bytes_of.
Proof. intros a b H. by rewrite <- (string_of_bytes_of a), H, string_of_bytes_of. Qed.

Lemma bytes_of_app a b : bytes_of (a +:+ b) = bytes_of a ++ bytes_of b.
Proof. induction a as [|c a IH]; simpl; [done|]. by rewrite IH. Qed.

(** ** Parsing *)

#[local] Open Scope Z_scope.

Definition digit (c : ascii) : option Z :=
  let n := Z.of_nat (nat_of_ascii c) in
  if (48 <=? n) && (n <=? 57) then Some (n - 48) else None.

(** The digit loop of [usize::from_str]: overflow is an error. *)
Fixpoint parse_digits (acc : Z) (s : string) : option Z :=
  match s with
  | EmptyString => Some acc
  | String c r =>
      d ← digit c;
      let acc := 10 * acc + d in
      if acc <=? usize_max then parse_digits acc r else None
  end.

(** [str::parse::<usize>()]: an optional [+], then at least one digit. *)
Definition strip_plus (s : string) : string :=
  match s with String c r => if Ascii.eqb c "+" then r else s | EmptyString => s end.
Definition parse_usize_str (s : string) : option Z :=
  match strip_plus s with
  | EmptyString => None
  | body => parse_digits 0 body
  end.

Lemma parse_digits_range acc s n :
  0 <= acc <= usize_max -> parse_digits acc s = Some n -> 0 <= n <= usize_max.
Proof.
  revert acc. induction s as [|c s IH]; intros acc Hacc; simpl; [intros [= <-]; lia|].
  destruct (digit c) as [d|] eqn:Hc; simpl; [|done].
  assert (0 <= d).
  { unfold digit in Hc. destruct (_ && _) eqn:Hb; [|done]. injection Hc as <-.
    apply andb_true_iff in Hb as [Hb%Z.leb_le _]. lia. }
  destruct (Z.leb_spec (10 * acc + d) usize_max); [|done]. apply IH. lia.
Qed.

Lemma parse_usize_str_range s n : parse_usize_str s = Some n -> 0 <= n <= usize_max.
Proof.
  unfold parse_usize_str. destruct (strip_plus s) as [|c r]; [done|].
  apply parse_digits_range. unfold usize_max. lia.
Qed.

(** [str::parse::<bool>()] *)
Definition parse_bool_str (s : string) : option bool :=
  if String.eqb s "true" then Some true else if String.eqb s "false" then Some false else None.

Definition bool_to_string (b : bool) : string := if b then "true" else "false".
(** [usize::to_string] *)
Definition usize_to_string (n : Z) : string := pretty (Z.to_N n).

Lemma parse_bool_to_string b : parse_bool_str (bool_to_string b) = Some b.
Proof. by destruct b. Qed.

Lemma digit_pretty_char (d : N) : (d < 10)%N -> digit (pretty_N_char d) = Some (Z.of_N d).
Proof.
  intros Hd. assert (exists k : nat, (k < 10)%nat /\ d = N.of_nat k) as (k & Hk & ->).
  { exists (N.to_nat d). split; [lia|by rewrite N2Nat.id]. }
  do 10 (destruct k as [|k]; [reflexivity|]). lia.
Qed.

Lemma parse_digits_pretty_go (x : N) (s : string) :
  Z.of_N x <= usize_max -> parse_digits 0 (pretty_N_go x s) = parse_digits (Z.of_N x) s.
Proof.
  revert s. induction (N.lt_wf_0 x) as [x _ IH]. intros s Hx.
  destruct (decide (x = 0)%N) as [-> |Hne]; [by rewrite pretty_N_go_0|].
  rewrite pretty_N_go_step by lia.
  assert (x `mod` 10 < 10)%N as Hmod by (apply N.mod_lt; done).
  assert (x `div` 10 < x)%N as Hdiv by (apply N.div_lt; lia).
  rewrite IH by lia. simpl. rewrite digit_pretty_char by done. simpl.
  assert (10 * Z.of_N (x `div` 10) + Z.of_N (x `mod` 10) = Z.of_N x) as ->.
  { pose proof (N.div_mod x 10 ltac:(done)). lia. }
  rewrite (proj2 (Z.leb_le _ _)) by done. done.
Qed.

Lemma pretty_N_head (x : N) :
  exists c r, pretty x = String c r /\ c <> "+"%char.
Proof.
  unfold pretty, pretty_N. case_decide as Hx; [by exists "0"%char, ""|].
  assert (forall x s, (forall c r, s = String c r -> c <> "+"%char) -> (0 < x)%N ->
    exists c r, pretty_N_go x s = String c r /\ c <> "+"%char) as Hgo.
  { clear. intros x. induction (N.lt_wf_0 x) as [x _ IH]. intros s Hs Hx.
    rewrite pretty_N_go_step by lia.
    assert (pretty_N_char (x `mod` 10) <> "+"%char) as Hc.
    { intros Hc. assert (x `mod` 10 < 10)%N as Hm by (apply N.mod_lt; done).
      apply digit_pretty_char in Hm. by rewrite Hc in Hm. }
    destruct (decide (x `div` 10 = 0)%N) as [-> |Hd].
    - rewrite pretty_N_go_0. eauto.
    - apply IH; [apply N.div_lt; lia| |]; [by intros c r [= <- <-]|]. by apply N.neq_0_lt_0. }
  destruct (Hgo x "") as (c & r & -> & Hc); [done|lia|eauto].
Qed.

(** A formatted [usize] parses back to itself. *)
Lemma parse_usize_to_string n : 0 <= n <= usize_max -> parse_usize_str (usize_to_string n) = Some n.
Proof.
  intros Hn. unfold parse_usize_str, usize_to_string.
  destruct (pretty_N_head (Z.to_N n)) as (c & r & Hs & Hc).
  assert (parse_digits 0 (pretty (Z.to_N n)) = Some n) as Hp.
  { unfold pretty, pretty_N. case_decide as H0.
    - simpl. f_equal. rewrite <- (Z2N.id n) by lia. by rewrite H0.
    - rewrite parse_digits_pretty_go by (rewrite Z2N.id; lia). simpl. by rewrite Z2N.id by lia. }
  rewrite Hs in *. unfold strip_plus. by rewrite (proj2 (Ascii.eqb_neq c "+") Hc).
Qed.

(** ** Byte-lexicographic order

    [Ord for str] and [Ord for [u8; N]]. *)

Fixpoint bytes_leb (a b : list ascii) : bool :=
  match a, b with
  | [], _ => true
  | _ :: _, [] => false
  | x :: a', y :: b' =>
      if (N_of_ascii x <? N_of_ascii y)%N then true
      else if Ascii.eqb x y then bytes_leb a' b' else false
  end.
Definition bytes_le (a b : list ascii) : Prop := Is_true (bytes_leb a b).

#[export] Instance bytes_le_dec : RelDecision bytes_le.
Proof. intros a b. unfold bytes_le. apply _. Defined.

Lemma bytes_leb_refl a : bytes_leb a a = true.
Proof.
  induction a as [|x a IH]; simpl; [done|]. by rewrite N.ltb_irrefl, Ascii.eqb_refl.
Qed.

#[export] Instance bytes_le_total : Total bytes_le.
Proof.
  unfold bytes_le. intros a. induction a as [|x a IH]; intros [|y b]; simpl; auto.
  destruct (N.ltb_spec (N_of_ascii x) (N_of_ascii y)); [by left|].
  destruct (N.ltb_spec (N_of_ascii y) (N_of_ascii x)); [by right|].
  assert (x = y) as ->.
  { rewrite <- (ascii_N_embedding x), <- (ascii_N_embedding y). f_equal. lia. }
  rewrite Ascii.eqb_refl. apply IH.
Qed.

#[export] Instance bytes_le_antisymm : AntiSymm (=) bytes_le.
Proof.
  unfold bytes_le. intros a. induction a as [|x a IH]; intros [|y b]; simpl; try done.
  destruct (N.ltb_spec (N_of_ascii x) (N_of_ascii y)).
  - destruct (N.ltb_spec (N_of_ascii y) (N_of_ascii x)); [lia|].
    destruct (Ascii.eqb_spec y x) as [->|]; [lia|done].
  - destruct (Ascii.eqb_spec x y) as [->|]; [|done].
    rewrite N.ltb_irrefl, Ascii.eqb_refl. intros Ha Hb. f_equal. by apply IH.
Qed.

#[export] Instance bytes_le_trans : Transitive bytes_le.
Proof.
  unfold bytes_le. intros a. induction a as [|x a IH]; intros [|y b] [|z c]; simpl; try done.
  destruct (N.ltb_spec (N_of_ascii x) (N_of_ascii y)),
    (N.ltb_spec (N_of_ascii y) (N_of_ascii z)),
    (Ascii.eqb_spec x y), (Ascii.eqb_spec y z), (Ascii.eqb_spec x z);
    destruct (N.ltb_spec (N_of_ascii x) (N_of_ascii z)); subst; try done; try lia.
  apply IH.
Qed.

(** Sorting byte strings; equal strings are interchangeable, so
    [sort_unstable] and a stable sort agree. *)
Definition sort_bytes (l : list (list ascii)) : list (list ascii) := merge_sort bytes_le l.

Lemma sort_bytes_perm l : Permutation (sort_bytes l) l.
Proof. apply merge_sort_Permutation. Qed.

Lemma sort_bytes_canonical l k : Permutation l k <-> sort_bytes l = sort_bytes k.
Proof.
  split.
  - intros Hp. apply (StronglySorted_unique bytes_le).
    + apply StronglySorted_merge_sort; apply _.
    + apply StronglySorted_merge_sort; apply _.
    + by rewrite !sort_bytes_perm.
  - intros H. by rewrite <- (sort_bytes_perm l), H, sort_bytes_perm.
Qed.
