(* ===== verification/Identity.v ===== *)
(** * Cache identities

    The byte strings that key the result cache, the split-plan cache and the
    exchange cache: [Pushdown::cache_identity] (filters.rs), the ATTACH
    context, sample and ordering identities (lib.rs) and the exchange cache
    key (table_input.rs, scalar.rs). Two calls share a cache entry exactly when
    these are equal, so each must determine what it was computed from.
    SHA-256, IPC serialization and the principal's identity scope are
    parameters; nothing is assumed of SHA-256: theorems about digests exhibit
    the collision instead. *)

From S2P Require Import Prelude Text Filters.
From Stdlib Require Import Strings.Ascii.

#[local] Open Scope Z_scope.

Abbreviation bytes := (list ascii) (only parsing).

(** ** Fixed-width little-endian integers *)

(** The [n] low-order bytes of [z], least significant first
    ([to_le_bytes]). *)
Fixpoint to_le_bytes (n : nat) (z : Z) : bytes :=
  match n with
  | O => []
  | S n => ascii_of_N (Z.to_N (z `mod` 256)) :: to_le_bytes n (z / 256)
  end.

Lemma to_le_bytes_length n z : length (to_le_bytes n z) = n.
Proof. revert z; induction n as [|n IH]; intros z; simpl; [done|]. by rewrite IH. Qed.

Lemma byte_inj a b :
  ascii_of_N (Z.to_N (a `mod` 256)) = ascii_of_N (Z.to_N (b `mod` 256)) -> a `mod` 256 = b `mod` 256.
Proof.
  intros H. pose proof (Z.mod_pos_bound a 256). pose proof (Z.mod_pos_bound b 256).
  apply (f_equal N_of_ascii) in H. rewrite !N_ascii_embedding in H by lia. lia.
Qed.

Lemma to_le_bytes_inj n a b :
  to_le_bytes n a = to_le_bytes n b -> a `mod` 256 ^ Z.of_nat n = b `mod` 256 ^ Z.of_nat n.
Proof.
  revert a b; induction n as [|n IH]; intros a b; [by rewrite !Z.mod_1_r|].
  cbn [to_le_bytes]. intros [= Hh%byte_inj Ht%IH].
  rewrite Nat2Z.inj_succ, Z.pow_succ_r by lia.
  rewrite !Z.rem_mul_r by (try lia; apply Z.pow_pos_nonneg; lia). congruence.
Qed.

#[global] Arguments to_le_bytes : simpl never.

(** A [u64], and a two's-complement [i64]. *)
Definition u64_le (z : Z) : bytes := to_le_bytes 8 z.

Lemma u64_le_inj a b :
  0 <= a < u64_modulus -> 0 <= b < u64_modulus -> u64_le a = u64_le b -> a = b.
Proof.
  intros Ha Hb H%to_le_bytes_inj. change (256 ^ Z.of_nat 8) with u64_modulus in H.
  by rewrite !Z.mod_small in H.
Qed.

Lemma i64_le_inj a b :
  - 2 ^ 63 <= a <= i64_max -> - 2 ^ 63 <= b <= i64_max -> u64_le a = u64_le b -> a = b.
Proof.
  intros Ha Hb H%to_le_bytes_inj. change (256 ^ Z.of_nat 8) with (2 ^ 64) in H.
  unfold i64_max in *. pose proof (Z.div_mod a (2 ^ 64)). pose proof (Z.div_mod b (2 ^ 64)). nia.
Qed.

(** ** Self-delimiting encodings

    [delimited D e]: on the domain [D] the end of an encoding is determined by
    its bytes, whatever follows. Such encodings compose by concatenation. *)
Definition delimited {A} (D : A -> Prop) (e : A -> bytes) : Prop :=
  forall a b r s, D a -> D b -> e a ++ r = e b ++ s -> a = b /\ r = s.

Lemma delimited_inj {A} (D : A -> Prop) e a b :
  delimited D e -> D a -> D b -> e a = e b -> a = b.
Proof.
  intros He Ha Hb H. apply (He a b [] []); [done..|]. by rewrite H.
Qed.

Lemma delimited_fixed {A} (D : A -> Prop) e n :
  (forall a, length (e a) = n) -> (forall a b, D a -> D b -> e a = e b -> a = b) -> delimited D e.
Proof.
  intros Hlen Hinj a b r s Ha Hb H. apply app_inj_1 in H as [He ->]; [|by rewrite !Hlen].
  split; [by apply Hinj|done].
Qed.

Lemma delimited_pair {A B} (D : A -> Prop) (E : B -> Prop) e f :
  delimited D e -> delimited E f ->
  delimited (fun p => D p.1 /\ E p.2) (fun p => e p.1 ++ f p.2).
Proof.
  intros He Hf [a b] [a' b'] r s [??] [??]. simpl in *. rewrite <- !app_assoc. intros Heq.
  apply He in Heq as [-> Heq2]; [|done..]. by apply Hf in Heq2 as [-> ->].
Qed.

Lemma delimited_map {A B} (D : A -> Prop) (g : A -> B) (e : B -> bytes) :
  delimited (fun b => exists a, D a /\ b = g a) e -> (forall a b, g a = g b -> a = b) ->
  delimited D (fun a => e (g a)).
Proof.
  intros He Hg a b r s Ha Hb H. apply He in H as [?%Hg ->]; eauto.
Qed.

(** Concatenation of the parts of a list is injective when no encoding is
    empty (a list followed by nothing has no terminator of its own). *)
Lemma delimited_concat {A} (D : A -> Prop) e l k :
  delimited D e -> (forall a, e a <> []) -> Forall D l -> Forall D k ->
  concat (map e l) = concat (map e k) -> l = k.
Proof.
  intros He Hne Hl Hk. revert k Hk. induction Hl as [|a l Ha Hl IH]; intros k Hk; simpl.
  - destruct Hk as [|b k Hb Hk]; [done|]. simpl. intros H. symmetry in H.
    apply app_eq_nil in H as [H _]. by destruct (Hne b).
  - destruct Hk as [|b k Hb Hk]; simpl.
    + intros [H _]%app_eq_nil. by destruct (Hne a).
    + intros H. apply He in H as [-> H2]; [|done..]. f_equal. by apply IH.
Qed.

(** ** Length-prefixed parts *)

(** [append_identity_part] (filters.rs), the [push] closure of
    [cache_attach_context] (lib.rs), [hash_exchange_field] (table_input.rs). *)
Definition identity_part (part : bytes) : bytes := u64_le (Z.of_nat (length part)) ++ part.
Definition append_identity_part (identity part : bytes) : bytes := identity ++ identity_part part.

(** Every allocation is shorter than [2^64] bytes. *)
Definition addressable (part : bytes) : Prop := Z.of_nat (length part) < u64_modulus.

Lemma identity_part_delimited : delimited addressable identity_part.
Proof.
  intros a b r s Ha Hb. unfold identity_part. rewrite <- !app_assoc. intros H.
  apply app_inj_1 in H as [H1 H2]; [|by unfold u64_le; rewrite !to_le_bytes_length].
  apply u64_le_inj in H1; [|unfold addressable in *; lia..].
  apply app_inj_1 in H2 as [-> ->]; [done|lia].
Qed.

Lemma identity_part_not_nil p : identity_part p <> [].
Proof.
  intros H%(f_equal length). unfold identity_part, u64_le in H.
  rewrite length_app, to_le_bytes_length in H. simpl in H. lia.
Qed.

Definition identity_parts (ps : list bytes) : bytes := concat (map identity_part ps).

Lemma identity_parts_inj ps qs :
  Forall addressable ps -> Forall addressable qs ->
  identity_parts ps = identity_parts qs -> ps = qs.
Proof.
  intros. eapply delimited_concat; eauto using identity_part_delimited, identity_part_not_nil.
Qed.

Lemma fold_append_identity_part id ps :
  fold_left append_identity_part ps id = id ++ identity_parts ps.
Proof.
  revert id; induction ps as [|p ps IH]; intros id; unfold identity_parts in *; simpl.
  - by rewrite app_nil_r.
  - rewrite IH. unfold append_identity_part. by rewrite <- app_assoc.
Qed.

(** ** Scan identities *)

Definition cache_v2_tag : bytes := bytes_of "vgi-pushdown-cache-v2".

(** [Pushdown::cache_identity] *)
Definition cache_identity (p : Pushdown bytes) : option bytes :=
  blob ← pd_blob p;
  match pd_join_keys p with
  | [] => Some blob
  | keys => Some (fold_left append_identity_part keys (append_identity_part cache_v2_tag blob))
  end.

(** The fields of [AttachOptions] that take part in the context; [options] is
    an encoded record batch. *)
Record AttachOptions := mkAttachOptions {
  ao_options : option bytes;
  ao_data_version_spec : option string;
  ao_implementation_version : option string
}.

(** [cache_attach_context], for the options found for the catalog. *)
Definition cache_attach_context (o : option AttachOptions) : bytes :=
  match o with
  | None => []
  | Some o =>
      fold_left append_identity_part
        [default [] (ao_options o); bytes_of (default "" (ao_data_version_spec o));
         bytes_of (default "" (ao_implementation_version o))] []
  end.

Inductive SortDirection := Ascending | Descending.
Inductive NullOrder := First | Last.
Record OrderBy := mkOrderBy {
  ob_column : string;
  ob_direction : SortDirection;
  ob_null_order : NullOrder;
  ob_limit : option Z
}.
(** [percentage] by its IEEE-754 bits ([f64::to_bits]). *)
Record Sample := mkSample { percentage_bits : Z; seed : option Z }.

Definition byte (z : Z) : bytes := to_le_bytes 1 z.

(** [Some(v) => { push(1); to_le_bytes } None => push(0)]: the tail of both
    encodings below. *)
Definition tagged_i64 (o : option Z) : bytes :=
  match o with Some v => byte 1 ++ u64_le v | None => byte 0 end.

Definition sample_cache_identity (s : Sample) : bytes := u64_le (percentage_bits s) ++ tagged_i64 (seed s).

Definition encode_order_by (o : OrderBy) : bytes :=
  byte 1 ++ identity_part (bytes_of (ob_column o))
  ++ byte (match ob_direction o with Ascending => 0 | Descending => 1 end)
  ++ byte (match ob_null_order o with First => 0 | Last => 1 end)
  ++ tagged_i64 (ob_limit o).

(** What fits the Rust types. *)
Definition i64_range (z : Z) : Prop := - 2 ^ 63 <= z <= i64_max.
Definition sample_ok (s : Sample) : Prop :=
  0 <= percentage_bits s < u64_modulus /\ forall z, seed s = Some z -> i64_range z.
Definition order_ok (o : OrderBy) : Prop :=
  addressable (bytes_of (ob_column o)) /\ forall z, ob_limit o = Some z -> i64_range z.

Lemma byte_delimited : delimited (fun z => 0 <= z < 256) byte.
Proof.
  eapply delimited_fixed; [intros; apply to_le_bytes_length|].
  intros a b Ha Hb H%to_le_bytes_inj. change (256 ^ Z.of_nat 1) with 256 in H.
  by rewrite !Z.mod_small in H.
Qed.

Lemma u64_le_delimited : delimited (fun z => 0 <= z < u64_modulus) u64_le.
Proof. eapply delimited_fixed; [intros; apply to_le_bytes_length|]. apply u64_le_inj. Qed.

Lemma i64_le_delimited : delimited i64_range u64_le.
Proof. eapply delimited_fixed; [intros; apply to_le_bytes_length|]. apply i64_le_inj. Qed.

Lemma tagged_i64_delimited : delimited (fun o => forall z, o = Some z -> i64_range z) tagged_i64.
Proof.
  intros [a|] [b|] r s Ha Hb; unfold tagged_i64; rewrite <- ?app_assoc;
    (intros Heq; apply byte_delimited in Heq as [Htag Heq]; [|lia..]); try done; try lia.
  apply i64_le_delimited in Heq as [-> ->]; [done|by apply Ha|by apply Hb].
Qed.

Lemma sample_delimited : delimited sample_ok sample_cache_identity.
Proof.
  intros [p o] [p' o'] r s [??] [??]. unfold sample_cache_identity.
  cbn [percentage_bits seed] in *.
  rewrite <- !app_assoc. intros Heq.
  apply u64_le_delimited in Heq as [-> Heq]; [|done..].
  by apply tagged_i64_delimited in Heq as [-> ->].
Qed.

Lemma order_delimited : delimited order_ok encode_order_by.
Proof.
  intros [c d n l] [c' d' n' l'] r s [??] [??]. unfold encode_order_by.
  cbn [ob_column ob_direction ob_null_order ob_limit] in *.
  rewrite <- !app_assoc. intros Heq.
  apply byte_delimited in Heq as [_ Heq]; [|lia..].
  apply identity_part_delimited in Heq as [->%(inj bytes_of) Heq]; [|done..].
  apply byte_delimited in Heq as [Hd Heq]; [|destruct d, d'; lia..].
  apply byte_delimited in Heq as [Hn Heq]; [|destruct n, n'; lia..].
  apply tagged_i64_delimited in Heq as [-> ->]; [|done..].
  destruct d, d', n, n'; done.
Qed.
