(* ===== verification/Splits.v ===== *)
(** * Split planning (src/src/lib.rs: [pack_splits] and its statistics)

    A worker's scan plan lists splits; DataFusion fixes its partition count
    before reading, so [pack_splits] groups the splits either by the plan's
    exact range index or, longest first, onto the currently lightest group. *)

From S2P Require Import Prelude.

#[local] Open Scope Z_scope.

(** DataFusion's [Precision<usize>]. *)
Inductive Precision (A : Type) :=
  | Exact (n : A)
  | Inexact (n : A)
  | Absent.
Arguments Exact {A} n.
Arguments Inexact {A} n.
Arguments Absent {A}.

(** The fields of [ScanSplitInfo] and [ScanPlan] the packing reads; [Blob] is
    an encoded byte payload. *)
Record ScanSplitInfo (Blob : Type) := mkSplit {
  token : Blob;
  estimated_rows : option Z;
  rows_exact : bool;
  estimated_bytes : option Z;
  range_index : option Z;
  split_start_position : option Blob;
  split_end_position : option Blob
}.
Arguments mkSplit {Blob} token estimated_rows rows_exact estimated_bytes range_index
  split_start_position split_end_position.
Arguments token {Blob} _.
Arguments estimated_rows {Blob} _.
Arguments rows_exact {Blob} _.
Arguments estimated_bytes {Blob} _.
Arguments range_index {Blob} _.
Arguments split_start_position {Blob} _.
Arguments split_end_position {Blob} _.

Record SortField := mkSortField {
  sf_column : string;
  sf_direction : string;
  sf_nulls : string
}.

Record ScanPlan (Blob : Type) := mkPlan {
  splits : list (ScanSplitInfo Blob);
  max_workers : option Z;
  start_position : option Blob;
  end_position : option Blob;
  split_points : option Blob;
  sort_order : option (list SortField)
}.
Arguments mkPlan {Blob} splits max_workers start_position end_position split_points sort_order.
Arguments splits {Blob} _.
Arguments max_workers {Blob} _.
Arguments start_position {Blob} _.
Arguments end_position {Blob} _.
Arguments split_points {Blob} _.
Arguments sort_order {Blob} _.

Record SplitGroup (Blob : Type) := mkGroup {
  split_indices : list nat;
  tokens : list Blob;
  group_num_rows : Precision Z;
  group_byte_size : Precision Z
}.
Arguments mkGroup {Blob} split_indices tokens group_num_rows group_byte_size.
Arguments split_indices {Blob} _.
Arguments tokens {Blob} _.
Arguments group_num_rows {Blob} _.
Arguments group_byte_size {Blob} _.

Record PlannedSplits (Blob : Type) := mkPlanned {
  groups : list (SplitGroup Blob);
  num_rows : Precision Z;
  total_byte_size : Precision Z;
  planned_plan : ScanPlan Blob;
  range_grouped : bool;
  unbounded : bool
}.
Arguments mkPlanned {Blob} groups num_rows total_byte_size planned_plan range_grouped unbounded.
Arguments groups {Blob} _.
Arguments num_rows {Blob} _.
Arguments total_byte_size {Blob} _.
Arguments planned_plan {Blob} _.
Arguments range_grouped {Blob} _.
Arguments unbounded {Blob} _.

Section Packing.
Context {Blob : Type}.
(** [vgi_protocol::ipc::read_batch(..).num_rows()] of the split points. *)
Variable read_num_rows : Blob -> option Z.

Implicit Types (plan : ScanPlan Blob) (split : ScanSplitInfo Blob).

(** [split_row_count]: exact only when every split is. *)
Fixpoint sum_rows (total : Z) (exact : bool) (l : list (ScanSplitInfo Blob)) : Precision Z :=
  match l with
  | [] => if exact then Exact total else Inexact total
  | split :: rest =>
      match estimated_rows split ≫= usize_try_from with
      | None => Absent
      | Some rows =>
          match checked_add total (Z.of_nat rows) with
          | None => Absent
          | Some sum => sum_rows sum (exact && rows_exact split) rest
          end
      end
  end.
Definition split_row_count (l : list (ScanSplitInfo Blob)) : Precision Z := sum_rows 0 true l.

(** [split_byte_count] *)
Fixpoint sum_bytes (total : Z) (l : list (ScanSplitInfo Blob)) : Precision Z :=
  match l with
  | [] => Inexact total
  | split :: rest =>
      match estimated_bytes split ≫= usize_try_from with
      | None => Absent
      | Some bytes =>
          match checked_add total (Z.of_nat bytes) with
          | None => Absent
          | Some sum => sum_bytes sum rest
          end
      end
  end.
Definition split_byte_count (l : list (ScanSplitInfo Blob)) : Precision Z := sum_bytes 0 l.

(** A position range that is started and never ended. *)
Definition open_ended (start finish : option Blob) : bool :=
  match start, finish with Some _, None => true | _, _ => false end.
Definition plan_unbounded plan : bool :=
  open_ended (start_position plan) (end_position plan)
  || existsb (fun s => open_ended (split_start_position s) (split_end_position s)) (splits plan).

Definition worker_cap plan (target_partitions : nat) : nat :=
  match max_workers plan with
  | Some m => if 0 <? m then Nat.min (Z.to_nat m) target_partitions else target_partitions
  | None => target_partitions
  end.

Definition plan_range_count plan : option nat :=
  points ← split_points plan;
  n ← read_num_rows points;
  Some (Z.to_nat (saturating_add n 1)).

(** [groups[k].push(i)] *)
Definition push_to (k i : nat) (gs : list (list nat)) : list (list nat) :=
  alter (fun g => g ++ [i]) k gs.

(** The range grouping loop; [None] is [valid = false]. *)
Fixpoint group_by_range (range_count : nat) (index : nat) (l : list (ScanSplitInfo Blob))
    (gs : list (list nat)) : option (list (list nat)) :=
  match l with
  | [] => Some gs
  | split :: rest =>
      range ← range_index split ≫= usize_try_from;
      if (range <? range_count)%nat
      then group_by_range range_count (S index) rest (push_to range index gs)
      else None
  end.

Definition weight split : Z := Z.max (default 1 (estimated_bytes split)) 1.
Definition sort_key split : Z := default 0 (estimated_bytes split).

Definition split_at plan (i : nat) : option (ScanSplitInfo Blob) := splits plan !! i.

(** One round of the packing loop: onto the lightest bin. *)
Definition assign_lightest plan (st : list (list nat) * list Z) (i : nat)
    : list (list nat) * list Z :=
  match argmin st.2, split_at plan i with
  | Some (lightest, _), Some s =>
      (push_to lightest i st.1, alter (fun w => i64_wrap (w + weight s)) lightest st.2)
  | _, _ => st
  end.

(** [(0..splits.len())] sorted by decreasing byte estimate. *)
Definition packing_order plan : list nat :=
  sort_desc (fun i => from_option sort_key 0 (split_at plan i)) (seq 0 (length (splits plan))).

Definition pack_lightest plan (n : nat) : list (list nat) * list Z :=
  fold_left (assign_lightest plan) (packing_order plan) (replicate n [], replicate n 0).

Definition make_group plan (indices : list nat) : SplitGroup Blob :=
  let members := omap (split_at plan) indices in
  mkGroup indices (map token members) (split_row_count members) (split_byte_count members).

Definition lpt_planned plan (cap : nat) : PlannedSplits Blob :=
  match splits plan with
  | [] => mkPlanned [] (Exact 0) (Exact 0) plan false (plan_unbounded plan)
  | _ =>
      let n := Nat.max (Nat.min cap (length (splits plan))) 1 in
      mkPlanned (map (make_group plan) (pack_lightest plan n).1)
        (split_row_count (splits plan)) (split_byte_count (splits plan))
        plan false (plan_unbounded plan)
  end.

(** [pack_splits] *)
Definition pack_splits plan (target_partitions : nat) : PlannedSplits Blob :=
  let cap := worker_cap plan target_partitions in
  match plan_range_count plan with
  | Some range_count =>
      if (0 <? range_count)%nat && (range_count <=? cap)%nat then
        match group_by_range range_count 0 (splits plan) (replicate range_count []) with
        | Some gs =>
            mkPlanned (map (make_group plan) gs)
              (split_row_count (splits plan)) (split_byte_count (splits plan))
              plan true (plan_unbounded plan)
        | None => lpt_planned plan cap
        end
      else lpt_planned plan cap
  | None => lpt_planned plan cap
  end.

(** ** Invariants of the two loops *)

Lemma push_to_length k i gs : length (push_to k i gs) = length gs.
Proof. apply length_alter. Qed.

Lemma concat_push_to k i (gs : list (list nat)) :
  (k < length gs)%nat -> Permutation (concat (push_to k i gs)) (i :: concat gs).
Proof.
  revert k; induction gs as [|g gs IH]; intros [|k]; simpl; try lia; intros Hk.
  - unfold push_to. simpl. rewrite <- app_assoc. simpl. symmetry. apply Permutation_middle.
  - unfold push_to in *. simpl. change (list_alter ?f k gs) with (alter f k gs).
    rewrite IH by lia. symmetry. apply Permutation_middle.
Qed.

Lemma concat_replicate_nil {A} n : concat (replicate n ([] : list A)) = [].
Proof. induction n; simpl; auto. Qed.

Lemma group_by_range_perm rc index l gs gs' :
  group_by_range rc index l gs = Some gs' -> length gs = rc ->
  Permutation (concat gs') (seq index (length l) ++ concat gs) /\ length gs' = rc.
Proof.
  revert index gs; induction l as [|s l IH]; intros index gs; simpl; [by intros [= <-]|].
  destruct (range_index s ≫= usize_try_from) as [r|]; simpl; [|done].
  destruct (Nat.ltb_spec r rc); [|done]. intros Hg Hlen.
  destruct (IH _ _ Hg) as [Hp Hl]; [by rewrite push_to_length|]. split; [|done].
  rewrite Hp, concat_push_to by lia. symmetry. apply Permutation_middle.
Qed.

(** Group [k] collects the indices of range [k]. *)
Lemma group_by_range_lookup rc index l gs gs' k g :
  group_by_range rc index l gs = Some gs' -> gs' !! k = Some g ->
  exists g0, gs !! k = Some g0 /\ forall i,
    i ∈ g <-> i ∈ g0 \/ exists j s, i = (index + j)%nat /\ l !! j = Some s
                              /\ range_index s ≫= usize_try_from = Some k.
Proof.
  revert index gs; induction l as [|s l IH]; intros index gs; simpl.
  - intros [= <-] Hk. exists g. split; [done|]. intros i. split; [by left|].
    intros [?|(j & s & _ & Hj & _)]; done.
  - destruct (range_index s ≫= usize_try_from) as [r|] eqn:Hr; simpl; [|done].
    destruct (Nat.ltb_spec r rc); [|done]. intros Hg Hk.
    destruct (IH _ _ Hg Hk) as (g1 & Hg1 & Hin). unfold push_to in Hg1.
    rewrite list_lookup_alter in Hg1. case_decide as Hrk.
    + subst k. destruct (gs !! r) as [g0|] eqn:Hg0; simplify_eq/=. exists g0. split; [done|].
      intros i. rewrite Hin, elem_of_app, list_elem_of_singleton. split.
      * intros [[?| ->]|(j & s' & -> & Hj & Hs')]; [by left| |].
        -- right. exists 0%nat, s. split; [lia|]. by split.
        -- right. exists (S j), s'. split; [lia|]. by split.
      * intros [?|([|j] & s' & -> & Hj & Hs')]; [by do 2 left| |].
        -- left; right. lia.
        -- right. exists j, s'. split; [lia|]. by split.
    + exists g1. split; [done|]. intros i. rewrite Hin. split.
      * intros [?|(j & s' & -> & Hj & Hs')]; [by left|]. right. exists (S j), s'. split; [lia|]. by split.
      * intros [?|([|j] & s' & -> & Hj & Hs')]; [by left| |].
        -- by simplify_eq/=.
        -- right. exists j, s'. split; [lia|]. by split.
Qed.

Definition index_weight plan (i : nat) : Z := from_option weight 0 (split_at plan i).
Definition load plan (indices : list nat) : Z := foldr Z.add 0 (map (index_weight plan) indices).

Lemma load_app plan l1 l2 : load plan (l1 ++ l2) = load plan l1 + load plan l2.
Proof. unfold load. rewrite map_app. induction l1 as [|i l1 IH]; simpl; [done|]. lia. Qed.

Lemma load_perm plan l1 l2 : Permutation l1 l2 -> load plan l1 = load plan l2.
Proof. unfold load. induction 1; simpl; lia. Qed.

Lemma index_weight_nonneg plan i : 0 <= index_weight plan i.
Proof. unfold index_weight, weight. destruct (split_at plan i); simpl; lia. Qed.

Lemma load_nonneg plan l : 0 <= load plan l.
Proof.
  unfold load. induction l as [|i l IH]; simpl; [lia|]. pose proof (index_weight_nonneg plan i). lia.
Qed.

(** The packing loop: [st] has assigned exactly [done], recorded every load
    (without overflow) and stays balanced within [M]. *)
Record balanced plan (M : Z) (n : nat) (processed : list nat) (st : list (list nat) * list Z) : Prop := {
  bal_groups : length st.1 = n;
  bal_perm : Permutation (concat st.1) processed;
  bal_weights : st.2 = map (load plan) st.1;
  bal_close : forall a b, a ∈ st.2 -> b ∈ st.2 -> a <= b + M
}.

Lemma load_concat_le plan gs g : g ∈ gs -> load plan g <= load plan (concat gs).
Proof.
  induction 1 as [g gs|g g' gs Hin IH]; simpl; rewrite load_app.
  - pose proof (load_nonneg plan (concat gs)). lia.
  - pose proof (load_nonneg plan g'). lia.
Qed.

Lemma map_alter {A B} (f : A -> B) (h : A -> A) (h' : B -> B) k (l : list A) :
  (forall x, l !! k = Some x -> f (h x) = h' (f x)) ->
  map f (alter h k l) = alter h' k (map f l).
Proof.
  revert k; induction l as [|x l IH]; intros [|k] Hf; simpl; [done..| |].
  - by rewrite (Hf x).
  - f_equal. apply IH. intros y Hy. by apply Hf.
Qed.

Lemma elem_of_alter {A} (h : A -> A) k (l : list A) x :
  x ∈ alter h k l -> x ∈ l \/ exists y, l !! k = Some y /\ x = h y.
Proof.
  intros [i Hi]%list_elem_of_lookup. rewrite list_lookup_alter in Hi. case_decide as Hk.
  - subst i. destruct (l !! k) as [y|]; simplify_eq/=. right. eauto.
  - left. by eapply list_elem_of_lookup_2.
Qed.

Lemma assign_lightest_balanced plan M n processed st i :
  (0 < n)%nat -> balanced plan M n processed st -> (i < length (splits plan))%nat ->
  index_weight plan i <= M -> load plan (i :: processed) <= i64_max ->
  balanced plan M n (processed ++ [i]) (assign_lightest plan st i).
Proof.
  intros Hn [Hg Hp Hw Hc] Hi HM Hsum. unfold assign_lightest.
  destruct (lookup_lt_is_Some_2 _ _ Hi) as [s Hs].
  destruct (argmin_is_Some st.2) as [[k m] Hmin].
  { rewrite Hw. destruct st.1; simpl in *; [lia|done]. }
  rewrite Hmin. unfold split_at. rewrite Hs.
  destruct (argmin_spec _ _ _ Hmin) as [Hk Hall].
  assert (index_weight plan i = weight s) as Hiw by (unfold index_weight, split_at; by rewrite Hs).
  rewrite Hw, list_lookup_fmap in Hk. destruct (st.1 !! k) as [g|] eqn:Hgk; simplify_eq/=.
  assert (k < length st.1)%nat as Hlt by by eapply lookup_lt_Some.
  assert (i64_wrap (load plan g + weight s) = load plan g + weight s) as Hwrap.
  { apply i64_wrap_small. pose proof (load_nonneg plan g).
    pose proof (index_weight_nonneg plan i).
    pose proof (load_concat_le plan st.1 g (list_elem_of_lookup_2 _ _ _ Hgk)) as Hle.
    rewrite (load_perm plan _ _ Hp) in Hle.
    change (index_weight plan i + load plan processed <= i64_max) in Hsum. lia. }
  split; simpl.
  - by rewrite push_to_length.
  - rewrite concat_push_to by done. rewrite Hp. apply Permutation_cons_append.
  - rewrite Hw. symmetry. unfold push_to. apply map_alter. intros x Hx. simplify_eq.
    rewrite load_app. change (load plan [i]) with (index_weight plan i + 0).
    rewrite Hwrap. lia.
  - assert (forall a, a ∈ alter (fun w => i64_wrap (w + weight s)) k st.2 ->
              load plan g <= a /\ (a ∈ st.2 \/ a = load plan g + weight s)) as Helem.
    { intros a [Ha|(y & Hy & ->)]%elem_of_alter.
      - split; [|by left]. rewrite Forall_forall in Hall. by apply Hall.
      - rewrite Hw, list_lookup_fmap, Hgk in Hy. simplify_eq/=. rewrite Hwrap.
        split; [unfold weight; lia|by right]. }
    assert (load plan g ∈ st.2) as Hgm.
    { rewrite Hw. apply list_elem_of_lookup. exists k. by rewrite list_lookup_fmap, Hgk. }
    intros a b [Hga [Ha| ->]]%Helem [Hgb [Hb| ->]]%Helem; try lia.
    + by apply Hc.
    + specialize (Hc a _ Ha Hgm). unfold weight. lia.
Qed.

Lemma pack_balanced plan M n order processed st :
  (0 < n)%nat -> balanced plan M n processed st ->
  Forall (fun i => (i < length (splits plan))%nat /\ index_weight plan i <= M) order ->
  load plan (processed ++ order) <= i64_max ->
  balanced plan M n (processed ++ order) (fold_left (assign_lightest plan) order st).
Proof.
  intros Hn. revert processed st; induction order as [|i order IH]; intros processed st Hb Hall Hsum.
  - by rewrite app_nil_r.
  - apply Forall_cons in Hall as [[Hi HM] Hall]. simpl.
    rewrite (cons_middle i processed order), (assoc_L (++)) in *. apply IH; [|done|done].
    apply assign_lightest_balanced; [done|done|done|done|].
    rewrite <- (app_assoc processed), load_app in Hsum.
    change (load plan (i :: processed)) with (index_weight plan i + load plan processed).
    change (load plan ([i] ++ order)) with (index_weight plan i + load plan order) in Hsum.
    pose proof (load_nonneg plan order). lia.
Qed.

Lemma balanced_init plan M n :
  0 <= M -> balanced plan M n [] (replicate n [], replicate n 0).
Proof.
  intros HM. split; simpl.
  - apply length_replicate.
  - by rewrite concat_replicate_nil.
  - induction n; simpl; [done|]. by f_equal.
  - intros a b [-> _]%elem_of_replicate [-> _]%elem_of_replicate. lia.
Qed.

Lemma packing_order_perm plan : Permutation (packing_order plan) (seq 0 (length (splits plan))).
Proof. apply sort_desc_perm. Qed.

Definition max_weight plan : Z := foldr Z.max 0 (map weight (splits plan)).

Lemma max_weight_spec plan i : index_weight plan i <= max_weight plan.
Proof.
  unfold index_weight, max_weight, split_at. generalize (splits plan). intros l.
  revert i; induction l as [|s l IH]; intros [|i]; simpl; [lia..| |].
  - lia.
  - specialize (IH i). lia.
Qed.

Lemma max_weight_nonneg plan : 0 <= max_weight plan.
Proof. unfold max_weight. induction (splits plan); simpl; lia. Qed.

(** The sum of the byte weights stays within [i64]. *)
Definition weights_fit plan : Prop := load plan (seq 0 (length (splits plan))) <= i64_max.

Lemma pack_lightest_balanced plan n :
  (0 < n)%nat -> weights_fit plan ->
  balanced plan (max_weight plan) n (packing_order plan) (pack_lightest plan n).
Proof.
  intros Hn Hfit. unfold pack_lightest.
  apply (pack_balanced plan (max_weight plan) n (packing_order plan) []); simpl.
  - done.
  - apply balanced_init, max_weight_nonneg.
  - apply Forall_forall. intros i Hi. split; [|apply max_weight_spec].
    rewrite packing_order_perm in Hi. apply elem_of_seq in Hi. lia.
  - by rewrite (load_perm plan _ _ (packing_order_perm plan)).
Qed.

(** How [pack_splits] ended. *)
Lemma pack_splits_cases plan target :
  (exists rc gs, plan_range_count plan = Some rc /\ (0 < rc <= worker_cap plan target)%nat
     /\ group_by_range rc 0 (splits plan) (replicate rc []) = Some gs
     /\ groups (pack_splits plan target) = map (make_group plan) gs
     /\ range_grouped (pack_splits plan target) = true) \/
  (pack_splits plan target = lpt_planned plan (worker_cap plan target)).
Proof.
  unfold pack_splits. destruct (plan_range_count plan) as [rc|]; [|by right].
  destruct (Nat.ltb_spec 0 rc); simpl; [|by right].
  destruct (Nat.leb_spec rc (worker_cap plan target)); simpl; [|by right].
  destruct (group_by_range rc 0 (splits plan) (replicate rc [])) as [gs|] eqn:Hg; [|by right].
  left. exists rc, gs. repeat split; try done; lia.
Qed.

Lemma lpt_range_grouped plan cap : range_grouped (lpt_planned plan cap) = false.
Proof. unfold lpt_planned. by destruct (splits plan). Qed.

Lemma lpt_groups plan cap :
  groups (lpt_planned plan cap)
  = match splits plan with
    | [] => []
    | _ => map (make_group plan)
             (pack_lightest plan (Nat.max (Nat.min cap (length (splits plan))) 1)).1
    end.
Proof. unfold lpt_planned. by destruct (splits plan) eqn:Hs. Qed.

Lemma map_split_indices plan gs : map split_indices (map (make_group plan) gs) = gs.
Proof. rewrite map_map. induction gs; simpl; [done|]. by f_equal. Qed.

(** The loop assigns every index it is given, whatever the weights. *)
Lemma pack_perm plan n order st :
  (0 < n)%nat -> length st.1 = n -> length st.2 = n ->
  Forall (fun i => (i < length (splits plan))%nat) order ->
  let st' := fold_left (assign_lightest plan) order st in
  length st'.1 = n /\ Permutation (concat st'.1) (order ++ concat st.1).
Proof.
  intros Hn. revert st; induction order as [|i order IH]; intros st H1 H2 Hall; [done|].
  apply Forall_cons in Hall as [Hi Hall]. simpl.
  destruct (lookup_lt_is_Some_2 _ _ Hi) as [s Hs].
  destruct (argmin_is_Some st.2) as [[k m] Hmin]; [destruct st.2; simpl in *; [lia|done]|].
  destruct (argmin_spec _ _ _ Hmin) as [Hk _]. apply lookup_lt_Some in Hk.
  assert (assign_lightest plan st i
          = (push_to k i st.1, alter (fun w => i64_wrap (w + weight s)) k st.2)) as Heq.
  { unfold assign_lightest, split_at. by rewrite Hmin, Hs. }
  rewrite Heq. destruct (IH (push_to k i st.1, alter (fun w => i64_wrap (w + weight s)) k st.2))
    as [Hlen Hp]; simpl; try done; [by rewrite push_to_length|by rewrite length_alter|].
  split; [done|]. simpl in Hp. rewrite Hp, concat_push_to by lia. symmetry. apply Permutation_middle.
Qed.

Lemma packing_order_valid plan : Forall (fun i => (i < length (splits plan))%nat) (packing_order plan).
Proof.
  apply Forall_forall. intros i Hi. rewrite packing_order_perm in Hi.
  apply elem_of_seq in Hi. lia.
Qed.

Lemma pack_lightest_perm plan n :
  (0 < n)%nat -> length (pack_lightest plan n).1 = n /\
  Permutation (concat (pack_lightest plan n).1) (seq 0 (length (splits plan))).
Proof.
  intros Hn. unfold pack_lightest.
  destruct (pack_perm plan n (packing_order plan) (replicate n [], replicate n 0) Hn) as [Hl Hp];
    [apply length_replicate..|apply packing_order_valid|].
  split; [done|]. simpl in Hp. rewrite concat_replicate_nil, app_nil_r in Hp.
  by rewrite Hp, packing_order_perm.
Qed.

(** ** Properties *)

(** Packing neither loses nor duplicates work. The groups' split indices
    together are a permutation of all the plan's splits, and each group carries
    exactly the claim tokens and the row and byte estimates of its own splits
    (whether the splits were grouped by range or by weight). *)
Theorem pack_splits_partitions plan target :
  let planned := pack_splits plan target in
  Permutation (concat (map split_indices (groups planned))) (seq 0 (length (splits plan))) /\
  Forall (fun g =>
    let members := omap (split_at plan) (split_indices g) in
    length members = length (split_indices g) /\ tokens g = map token members /\
    group_num_rows g = split_row_count members /\ group_byte_size g = split_byte_count members)
    (groups planned).
Proof.
  cbv zeta.
  assert (exists gs, groups (pack_splits plan target) = map (make_group plan) gs /\
            Permutation (concat gs) (seq 0 (length (splits plan)))) as (gs & Hgs & Hp).
  { destruct (pack_splits_cases plan target) as [(rc & gs & _ & _ & Hg & Hgs & _)|Hl].
    - exists gs. split; [done|]. destruct (group_by_range_perm _ _ _ _ _ Hg) as [Hp _];
        [apply length_replicate|]. by rewrite Hp, concat_replicate_nil, app_nil_r.
    - rewrite Hl, lpt_groups. destruct (splits plan) eqn:Hs; [by exists []|].
      rewrite <- Hs. eexists; split; [done|]. apply pack_lightest_perm. lia. }
  rewrite Hgs, map_split_indices. split; [done|]. apply Forall_forall.
  intros g (idx & -> & Hidx)%list_elem_of_fmap. simpl. split; [|done].
  assert (Forall (fun i => is_Some (split_at plan i)) idx) as Hall.
  { apply Forall_forall. intros i Hi. apply lookup_lt_is_Some_2.
    assert (i ∈ seq 0 (length (splits plan))) as ?%elem_of_seq; [|lia].
    rewrite <- Hp. apply list_elem_of_In, in_concat. exists idx.
    by rewrite <- !list_elem_of_In. }
  clear -Hall. induction Hall as [|i idx [s Hs] _ IH]; simpl; [done|]. rewrite Hs. simpl. by f_equal.
Qed.

(** C40: the fan-out respects the worker's normative cap. The number of groups
    never exceeds the target partition count (one group is always allowed when
    there is work), a positive [max_workers] bounds it too, and a plan without
    splits yields no group at all or only the advertised ranges. *)
Theorem pack_splits_fan_out plan target :
  let n := length (groups (pack_splits plan target)) in
  (n <= Nat.max 1 target)%nat /\
  (forall m, max_workers plan = Some m -> 0 < m -> (n <= Z.to_nat m)%nat) /\
  (range_grouped (pack_splits plan target) = false -> (n <= length (splits plan))%nat).
Proof.
  cbv zeta.
  assert ((worker_cap plan target <= target)%nat /\ forall m, max_workers plan = Some m -> 0 < m ->
            (worker_cap plan target <= Z.to_nat m)%nat) as [Hcap Hm].
  { unfold worker_cap. destruct (max_workers plan) as [m|]; [|split; [lia|done]].
    destruct (Z.ltb_spec 0 m); (split; [lia|]); intros ? [= <-] ?; lia. }
  destruct (pack_splits_cases plan target) as [(rc & gs & _ & Hrc & Hg & Hgs & Hrg)|Hl].
  - rewrite Hgs, length_map, Hrg. destruct (group_by_range_perm _ _ _ _ _ Hg) as [_ Hlen];
      [apply length_replicate|]. rewrite Hlen.
    split; [lia|]. split; [|done]. intros m Hmw Hpos. specialize (Hm m Hmw Hpos). lia.
  - rewrite Hl, lpt_groups. destruct (splits plan) as [|s l] eqn:Hs; [simpl; repeat split; intros; lia|].
    set (n := Nat.max (Nat.min (worker_cap plan target) (length (s :: l))) 1).
    destruct (pack_lightest_perm plan n) as [Hlen _]; [lia|].
    rewrite length_map, Hlen. unfold n. simpl length.
    split; [lia|]. split; [|simpl; lia]. intros m Hmw Hpos. specialize (Hm m Hmw Hpos). lia.
Qed.

(** Longest-first packing is balanced. As long as the byte weights do not
    overflow an [i64], the loads of two groups of a plan packed by weight differ
    by at most one split's weight. *)
Theorem pack_splits_balanced plan target g h :
  weights_fit plan -> range_grouped (pack_splits plan target) = false ->
  g ∈ groups (pack_splits plan target) -> h ∈ groups (pack_splits plan target) ->
  load plan (split_indices g) <= load plan (split_indices h) + max_weight plan.
Proof.
  intros Hfit Hrg Hg Hh.
  destruct (pack_splits_cases plan target) as [(rc & gs & _ & _ & _ & _ & Hr)|Hl]; [congruence|].
  rewrite Hl, lpt_groups in Hg, Hh. destruct (splits plan) eqn:Hs; [by apply elem_of_nil in Hg|].
  rewrite <- Hs in *.
  set (n := Nat.max (Nat.min (worker_cap plan target) (length (splits plan))) 1) in *.
  destruct (pack_lightest_balanced plan n) as [_ _ Hw Hc]; [lia|done|].
  apply list_elem_of_fmap in Hg as (ig & -> & Hig). apply list_elem_of_fmap in Hh as (ih & -> & Hih).
  simpl. apply Hc; rewrite Hw; by apply list_elem_of_fmap_2.
Qed.

(** Exact range grouping. When the groups are advertised as ranges there is
    one per range of the split-point table, and group [k] holds exactly the
    splits whose range index is [k]. *)
Theorem pack_splits_ranges plan target :
  range_grouped (pack_splits plan target) = true ->
  plan_range_count plan = Some (length (groups (pack_splits plan target))) /\
  forall k g, groups (pack_splits plan target) !! k = Some g ->
    forall i, i ∈ split_indices g <->
      exists s, splits plan !! i = Some s /\ range_index s = Some (Z.of_nat k).
Proof.
  intros Hrg.
  destruct (pack_splits_cases plan target) as [(rc & gs & Hrc & _ & Hg & Hgs & _)|Hl];
    [|rewrite Hl, lpt_range_grouped in Hrg; done].
  rewrite Hgs, length_map. destruct (group_by_range_perm _ _ _ _ _ Hg) as [_ Hlen];
    [apply length_replicate|]. split; [congruence|].
  intros k g. rewrite list_lookup_fmap. destruct (gs !! k) as [idx|] eqn:Hk; [|done].
  intros [= <-] i. simpl.
  destruct (group_by_range_lookup _ _ _ _ _ _ _ Hg Hk) as (g0 & Hg0 & Hin).
  apply lookup_replicate in Hg0 as [-> _]. rewrite Hin, elem_of_nil.
  assert (forall s : ScanSplitInfo Blob, (range_index s ≫= usize_try_from) = Some k <-> range_index s = Some (Z.of_nat k)) as Hk'.
  { intros s. destruct (range_index s) as [z|]; simpl; [|done].
    unfold usize_try_from. destruct (Z.leb_spec 0 z); split; intros [= Hz]; f_equal; lia. }
  split.
  - intros [[]|(j & s & -> & Hj & Hs)]. exists s. split; [done|]. by apply Hk'.
  - intros (s & Hs & Hr). right. exists i, s. repeat split; try done. by apply Hk'.
Qed.

(** The rows of a split, when its estimate is a valid count. *)
Definition split_rows split : option Z := Z.of_nat <$> (estimated_rows split ≫= usize_try_from).

Lemma sum_rows_spec total exact (l : list (ScanSplitInfo Blob)) :
  0 <= total <= usize_max ->
  sum_rows total exact l =
  match option_collect split_rows l with
  | None => Absent
  | Some rows =>
      if total + foldr Z.add 0 rows <=? usize_max then
        (if exact && forallb rows_exact l then Exact else Inexact) (total + foldr Z.add 0 rows)
      else Absent
  end.
Proof.
  revert total exact; induction l as [|s l IH]; intros total exact Ht; simpl.
  - rewrite Z.add_0_r, andb_true_r. destruct (Z.leb_spec total usize_max); [by destruct exact|lia].
  - unfold split_rows at 1. destruct (estimated_rows s ≫= usize_try_from) as [r|]; simpl; [|done].
    unfold checked_add. destruct (Z.leb_spec (total + Z.of_nat r) usize_max).
    + rewrite IH by lia. destruct (option_collect split_rows l) as [rows|]; simpl; [|done].
      rewrite Z.add_assoc, andb_assoc. done.
    + destruct (option_collect split_rows l) as [rows|] eqn:Hc; simpl; [|done].
      assert (0 <= foldr Z.add 0 rows).
      { apply option_collect_Some in Hc. clear -Hc. induction Hc as [|s r l rows Hs _ IH]; simpl; [lia|].
        unfold split_rows in Hs. destruct (estimated_rows s ≫= usize_try_from); simplify_eq/=. lia. }
      destruct (Z.leb_spec (total + (Z.of_nat r + foldr Z.add 0 rows)) usize_max); [lia|done].
Qed.

(** A packed row estimate is never a false total. It is present only when
    every contributing split reports a valid count and the sum fits a [usize];
    it then is that sum, and it is exact only if every split says so. *)
Theorem split_row_count_spec (l : list (ScanSplitInfo Blob)) :
  split_row_count l =
  match option_collect split_rows l with
  | None => Absent
  | Some rows =>
      if foldr Z.add 0 rows <=? usize_max then
        (if forallb rows_exact l then Exact else Inexact) (foldr Z.add 0 rows)
      else Absent
  end.
Proof. unfold split_row_count. rewrite sum_rows_spec by (unfold usize_max; lia). done. Qed.
End Packing.

(** ** Witnesses *)

Definition ex_split (rows bytes range : option Z) : ScanSplitInfo nat :=
  mkSplit 0%nat rows true bytes range None None.
Definition ex_plan : ScanPlan nat :=
  mkPlan [ex_split (Some 1) (Some 10) None; ex_split (Some 2) None None;
          ex_split (Some 3) (Some 40) None; ex_split None (Some 5) None;
          ex_split (Some 7) (Some 30) None] (Some 2) None None None None.
Definition ex_range_plan : ScanPlan nat :=
  mkPlan [ex_split (Some 1) None (Some 1); ex_split (Some 2) None (Some 0);
          ex_split (Some 3) None (Some 1)] None None None (Some 9%nat) None.

Example ex_plan_groups :
  map split_indices (groups (pack_splits (fun _ => None) ex_plan 4)) = [[2; 3]; [4; 0; 1]]%nat.
Proof. vm_compute. reflexivity. Qed.

Lemma pack_splits_balanced_witness :
  load ex_plan [4; 0; 1]%nat <= load ex_plan [2; 3]%nat + max_weight ex_plan.
Proof.
  apply (pack_splits_balanced (fun _ => None) ex_plan 4
    (make_group ex_plan [4; 0; 1]%nat) (make_group ex_plan [2; 3]%nat));
    [vm_compute; discriminate|vm_compute; reflexivity|..];
    (apply list_elem_of_In; vm_compute; auto).
Defined.

Lemma pack_splits_ranges_witness :
  exists s, splits ex_range_plan !! 2%nat = Some s /\ range_index s = Some 1.
Proof.
  apply (proj2 (pack_splits_ranges (fun _ => Some 1) ex_range_plan 4 eq_refl) 1%nat
    (make_group ex_range_plan [0; 2]%nat)); [vm_compute; reflexivity|].
  apply list_elem_of_In. vm_compute. tauto.
Defined.
