(* ===== verification/ScanShape.v ===== *)
(** * The shape of scan results (src/src/lib.rs)

    What a scan tells DataFusion about its batches: [conform], which renames
    and reorders a worker's columns into the planned schema, on live batches,
    into the cache and out of it; [with_declared_schema], which decides the
    names; and [split_ordering], the sort order a split plan may claim. *)

From S2P Require Import Prelude Splits.
From stdpp Require Import sorting.

(** ** Schemas and batches *)

Section Shape.
Context {DataType Meta Column : Type} `{EqDecision DataType, EqDecision Meta}.

(** An Arrow field with everything but name and type in [field_meta]. *)
Record Field := mkField { field_name : string; data_type : DataType; field_meta : Meta }.
Record Schema := mkSchema { fields : list Field; schema_meta : Meta }.
Record RecordBatch := mkBatch { batch_schema : Schema; columns : list Column; num_rows : nat }.

#[export] Instance Field_eq_dec : EqDecision Field.
Proof. solve_decision. Defined.
#[export] Instance Schema_eq_dec : EqDecision Schema.
Proof. solve_decision. Defined.

(** [Schema::index_of]: the first field of that name. *)
Definition index_of (schema : Schema) (name : string) : option nat :=
  position (fun f => String.eqb (field_name f) name) (fields schema).
Definition column_by_name (b : RecordBatch) (name : string) : option Column :=
  index_of (batch_schema b) name ≫= fun i => columns b !! i.

(** [RecordBatch::try_new_with_options] with an explicit row count. *)
Variable try_new : Schema -> list Column -> nat -> result RecordBatch.

(** Catalog column names to worker column names. *)
Definition Mapping : Type := option (gmap string string).
Definition worker_name (mapping : Mapping) (name : string) : string :=
  default name (mapping ≫= fun m => m !! name).

(** [VgiTableProvider::with_declared_schema]: the declared schema replaces the
    bound one, whose names are remembered by position. *)
Definition compatible (bound declared : Schema) : bool :=
  (length (fields bound) =? length (fields declared))%nat &&
  forallb (fun p => bool_decide (data_type p.1 = data_type p.2)) (zip (fields bound) (fields declared)).
Definition positional_mapping (bound declared : Schema) : gmap string string :=
  fold_left (fun m p => <[field_name p.1 := field_name p.2]> m) (zip (fields declared) (fields bound)) ∅.
Definition with_declared_schema (describe : Schema -> string) (bound declared : Schema)
    : result (Schema * Mapping) :=
  if compatible bound declared then Ok (declared, Some (positional_mapping bound declared))
  else Err (Plan ("VGI catalog schema " +:+ describe declared +:+ " is incompatible with scan bind schema "
                  +:+ describe bound)).

Definition no_column (b : RecordBatch) (worker catalog : string) : DFError :=
  Execution ("worker returned no column named `" +:+ worker +:+ "` for catalog column `" +:+ catalog
             +:+ "`; it emitted [" +:+ String.concat ", " (map field_name (fields (batch_schema b))) +:+ "]").

(** [conform] *)
Definition conform (b : RecordBatch) (schema : Schema) (mapping : Mapping) : result RecordBatch :=
  if decide (batch_schema b = schema) then Ok b
  else match fields schema with
       | [] => try_new schema [] (num_rows b)
       | wanted =>
           cs ← result_collect (fun want =>
                  let worker := worker_name mapping (field_name want) in
                  ok_or (no_column b worker (field_name want)) (column_by_name b worker)) wanted;
           try_new schema cs (num_rows b)
       end.

(** The schema cached batches are stored in ([VgiTableProvider::scan]). *)
Definition cache_storage_schema (projection_pushdown : bool) (projected output_schema : Schema) : Schema :=
  if projection_pushdown then projected else output_schema.

(** ** What [conform] promises *)

(** Arrow builds the batch it is given, or refuses. *)
Hypothesis try_new_ok : forall schema cs n b, try_new schema cs n = Ok b -> b = mkBatch schema cs n.

Lemma conform_columns b schema mapping out :
  batch_schema b <> schema -> conform b schema mapping = Ok out ->
  batch_schema out = schema /\ num_rows out = num_rows b /\
  Forall2 (fun f c => column_by_name b (worker_name mapping (field_name f)) = Some c)
    (fields schema) (columns out).
Proof.
  intros Hne. unfold conform. destruct (decide (batch_schema b = schema)); [done|].
  destruct (fields schema) as [|f fs] eqn:Hf; [by intros ->%try_new_ok; cbn; repeat constructor|].
  destruct (result_collect _ _) as [cs|] eqn:Hcs; [|done]. cbv [mbind result_bind].
  intros ->%try_new_ok. apply result_collect_Ok in Hcs. split; [done|]. split; [done|].
  eapply Forall2_impl; [exact Hcs|]. cbn. intros g c. destruct (column_by_name _ _); [|done]. by intros [= ->].
Qed.

(** A conformed batch has the planned schema and the worker's row count,
    and each of its columns is the worker's column of the mapped name, wherever
    the worker put it; and [conform] refuses a batch only when such a column is
    missing or Arrow refuses the result. A batch that arrives in the planned
    schema is passed on as it is, which is this when no name is mapped to
    another. *)
Theorem conform_by_name b schema mapping :
  (batch_schema b = schema -> forall i f, fields schema !! i = Some f ->
     index_of schema (worker_name mapping (field_name f)) = Some i) ->
  (forall out, conform b schema mapping = Ok out ->
     batch_schema out = schema /\ num_rows out = num_rows b /\
     forall i f, fields schema !! i = Some f ->
       columns out !! i = column_by_name b (worker_name mapping (field_name f))) /\
  ((forall f, f ∈ fields schema -> is_Some (column_by_name b (worker_name mapping (field_name f)))) ->
   (forall cs, is_ok (try_new schema cs (num_rows b))) -> is_ok (conform b schema mapping)).
Proof.
  intros Hmap. destruct (decide (batch_schema b = schema)) as [Heq|Hne].
  - specialize (Hmap Heq). assert (conform b schema mapping = Ok b) as ->.
    { unfold conform. by rewrite decide_True by done. }
    split; [|done]. intros ? [= <-]. split; [done|]. split; [done|].
    intros i f Hf. unfold column_by_name. by rewrite Heq, (Hmap i f Hf).
  - split.
    + intros out Hc. destruct (conform_columns _ _ _ _ Hne Hc) as (? & ? & Hall).
      split; [done|]. split; [done|]. intros i f Hf.
      destruct (Forall2_lookup_l _ _ _ _ _ Hall Hf) as (c & Hc' & Hn). by rewrite Hc', Hn.
    + intros Hall Htry. unfold conform. rewrite decide_False by done.
      destruct (fields schema) as [|f fs] eqn:Hf; [apply Htry|].
      destruct (result_collect _ _) as [cs|e] eqn:Hcs; [apply Htry|].
      apply result_collect_Err in Hcs as (g & Hg & Hbad). destruct (Hall g Hg) as [c Hc].
      by rewrite Hc in Hbad.
Qed.

Lemma index_of_name schema name i : index_of schema name = Some i ->
  exists f, fields schema !! i = Some f /\ field_name f = name.
Proof.
  intros (f & Hf & Hn)%position_Some. exists f. split; [done|]. by apply String.eqb_eq.
Qed.

Lemma position_unique {A} (p : A -> bool) l i x :
  l !! i = Some x -> p x = true -> (forall j y, l !! j = Some y -> p y = true -> j = i) ->
  position p l = Some i.
Proof.
  revert i. induction l as [|y l IH]; intros i Hi Hp Huniq; [done|]. cbn.
  destruct (p y) eqn:Hy; [by rewrite <- (Huniq 0%nat y)|].
  destruct i as [|i]; [injection Hi as ->; congruence|].
  rewrite (IH i); [done..|]. intros j z Hj Hz. specialize (Huniq (S j) z Hj Hz). lia.
Qed.

Lemma index_of_own schema i f :
  NoDup (map field_name (fields schema)) -> fields schema !! i = Some f ->
  index_of schema (field_name f) = Some i.
Proof.
  intros Hnd Hi. apply (position_unique _ _ _ f); [done|by apply String.eqb_refl|].
  intros j g Hj Hg%String.eqb_eq. eapply NoDup_lookup; [exact Hnd|..];
    change (map field_name (fields schema)) with (field_name <$> fields schema);
    rewrite list_lookup_fmap; [by rewrite Hj|rewrite Hi; cbn; by rewrite Hg].
Qed.

Lemma stored_column b full stored name :
  conform b full None = Ok stored -> is_Some (index_of full name) ->
  column_by_name stored name = column_by_name b name.
Proof.
  intros Hc [i Hi]. destruct (decide (batch_schema b = full)) as [Heq|Hne].
  - unfold conform in Hc. rewrite decide_True in Hc by done. by injection Hc as <-.
  - destruct (conform_columns _ _ _ _ Hne Hc) as (Hs & _ & Hall).
    destruct (index_of_name _ _ _ Hi) as (f & Hf & <-).
    destruct (Forall2_lookup_l _ _ _ _ _ Hall Hf) as (c & Hc' & Hn).
    unfold column_by_name at 1. rewrite Hs, Hi. cbn. by rewrite Hc', <- Hn.
Qed.

Lemma Forall2_impl_in {A B} (P Q : A -> B -> Prop) l k :
  Forall2 P l k -> (forall x y, x ∈ l -> P x y -> Q x y) -> Forall2 Q l k.
Proof.
  induction 1 as [|x y l k Hp _ IH]; intros Hpq; constructor; [by apply Hpq; [left|]|].
  apply IH. intros z w Hz. apply Hpq. by right.
Qed.

Lemma own_columns b : NoDup (map field_name (fields (batch_schema b))) ->
  length (columns b) = length (fields (batch_schema b)) ->
  forall cs, Forall2 (fun f c => column_by_name b (field_name f) = Some c) (fields (batch_schema b)) cs ->
  cs = columns b.
Proof.
  intros Hnd Hlen cs Hall. apply list_eq_same_length with (n := length cs); [|done|].
  { apply Forall2_length in Hall. by rewrite <- Hall, Hlen. }
  intros i x y _ Hx Hy. destruct (Forall2_lookup_r _ _ _ _ _ Hall Hx) as (f & Hf & Hc).
  unfold column_by_name in Hc. rewrite (index_of_own _ i f) in Hc by done. cbn in Hc. congruence.
Qed.

(** Caching does not change what a scan without renamed columns returns.
    A batch conformed into any schema that holds the scan's columns, stored, and
    replayed into the scan's schema, is the batch the live scan would have
    produced. *)
Theorem replay_transparent b stored out full scan :
  NoDup (map field_name (fields (batch_schema b))) ->
  length (columns b) = length (fields (batch_schema b)) ->
  (forall f, f ∈ fields scan -> is_Some (index_of full (field_name f))) ->
  conform b full None = Ok stored -> conform stored scan None = Ok out ->
  conform b scan None = Ok out.
Proof.
  intros Hnd Hlen Hsub Hstored Hout.
  destruct (decide (batch_schema b = full)) as [Heq|Hne].
  { unfold conform in Hstored. rewrite decide_True in Hstored by done. by injection Hstored as ->. }
  destruct (conform_columns _ _ _ _ Hne Hstored) as (Hs & Hrows & _).
  destruct (decide (full = scan)) as [<-|Hfs].
  { unfold conform in Hout. rewrite decide_True in Hout by done. by injection Hout as <-. }
  assert (batch_schema stored <> scan) as Hne' by congruence.
  destruct (decide (batch_schema b = scan)) as [Hbs|Hbs].
  - destruct (conform_columns _ _ _ _ Hne' Hout) as (Hos & Hor & Hall).
    assert (columns out = columns b) as Hcols.
    { apply own_columns; [done..|]. rewrite Hbs. apply (Forall2_impl_in _ _ _ _ Hall). intros f c Hf Hc.
      rewrite <- Hc. symmetry. by apply (stored_column _ full stored (field_name f)); [|apply Hsub]. }
    unfold conform. rewrite decide_True by done. f_equal.
    destruct b, out; cbn in *; congruence.
  - unfold conform in Hout |- *. rewrite decide_False in Hout by done. rewrite decide_False by done.
    rewrite Hrows in Hout. destruct (fields scan) as [|f fs] eqn:Hf; [done|].
    destruct (result_collect _ (f :: fs)) as [cs|] eqn:Hcs in Hout; [|done].
    replace (result_collect _ (f :: fs)) with (@Ok (list Column) cs); [exact Hout|].
    symmetry. apply result_collect_Ok. apply result_collect_Ok in Hcs.
    apply (Forall2_impl_in _ _ _ _ Hcs). intros g c Hg Hc. cbn in Hc |- *.
    rewrite (stored_column b full stored) in Hc by (done || by apply Hsub).
    destruct (column_by_name b _); [exact Hc|done].
Qed.
End Shape.

(** ** Sort orders *)

Section Ordering.
Context {DataType Meta Blob Value : Type}.
Abbreviation Schema := (@Schema DataType Meta) (only parsing).
Abbreviation Planned := (PlannedSplits Blob) (only parsing).

(** [PhysicalSortExpr] over [Column::new(name, index)]. *)
Record PhysicalSortExpr := mkSortExpr {
  se_name : string;
  se_index : nat;
  se_descending : bool;
  se_nulls_first : bool
}.

Definition sort_expr (schema : Schema) (field : SortField) : option PhysicalSortExpr :=
  index ← index_of schema (sf_column field);
  Some (mkSortExpr (sf_column field) index (String.eqb (sf_direction field) "desc")
          (String.eqb (sf_nulls field) "nulls_first")).

Definition split_ordering (schema : Schema) (planned : Planned) : option (list PhysicalSortExpr) :=
  if (match groups planned with [] => true | _ => false end)
     || existsb (fun g => negb (length (split_indices g) =? 1)%nat) (groups planned)
  then None
  else
    match sort_order (planned_plan planned) with
    | None | Some [] => None
    | Some fs => option_collect (sort_expr schema) fs
    end.

(** Rows of a split by worker column name; a public row lists the scan's
    columns ([conform]). *)
Variable mapping : Mapping.
Definition WorkerRow : Type := string -> Value.
Definition public_row (schema : Schema) (row : WorkerRow) : list Value :=
  map (fun f => row (worker_name mapping (field_name f))) (fields schema).

(** Comparison of two values under a direction and null placement. *)
Variable compare : bool -> bool -> option Value -> option Value -> comparison.

Fixpoint lex {K Row : Type} (get : K -> Row -> option Value) (descending nulls_first : K -> bool)
    (keys : list K) (a b : Row) : comparison :=
  match keys with
  | [] => Eq
  | k :: keys =>
      match compare (descending k) (nulls_first k) (get k a) (get k b) with
      | Eq => lex get descending nulls_first keys a b
      | c => c
      end
  end.

Definition worker_le (keys : list SortField) (a b : WorkerRow) : Prop :=
  lex (fun k (row : WorkerRow) => Some (row (sf_column k))) (fun k => String.eqb (sf_direction k) "desc")
    (fun k => String.eqb (sf_nulls k) "nulls_first") keys a b <> Gt.
Definition public_le (keys : list PhysicalSortExpr) (a b : list Value) : Prop :=
  lex (fun k (row : list Value) => row !! se_index k) se_descending se_nulls_first keys a b <> Gt.

(** The rows of one DataFusion partition: those of its splits, one after
    another. *)
Definition partition_rows (schema : Schema) (split_rows : nat -> list WorkerRow) (g : SplitGroup Blob)
    : list (list Value) :=
  map (public_row schema) (flat_map split_rows (split_indices g)).

Lemma public_row_lookup schema row i f : fields schema !! i = Some f ->
  public_row schema row !! i = Some (row (worker_name mapping (field_name f))).
Proof.
  intros Hf. unfold public_row. change (map ?g (fields schema)) with (g <$> fields schema).
  by rewrite list_lookup_fmap, Hf.
Qed.

Lemma lex_public schema keys exprs a b :
  (forall k, k ∈ keys -> worker_name mapping (sf_column k) = sf_column k) ->
  option_collect (sort_expr schema) keys = Some exprs ->
  worker_le keys a b -> public_le exprs (public_row schema a) (public_row schema b).
Proof.
  intros Hmap Hc. apply option_collect_Some in Hc. unfold worker_le, public_le.
  enough (lex (fun k (row : WorkerRow) => Some (row (sf_column k))) (fun k => String.eqb (sf_direction k) "desc")
    (fun k => String.eqb (sf_nulls k) "nulls_first") keys a b
    = lex (fun k (row : list Value) => row !! se_index k) se_descending se_nulls_first exprs
        (public_row schema a) (public_row schema b)) as -> by done.
  induction Hc as [|k e keys exprs He _ IH]; [done|]. cbn. unfold sort_expr in He.
  destruct (index_of schema (sf_column k)) as [i|] eqn:Hi; [|done]. injection He as <-. cbn.
  destruct (index_of_name _ _ _ Hi) as (f & Hf & Hn).
  assert (worker_name mapping (sf_column k) = sf_column k) as Hk by (apply Hmap; left).
  rewrite !(public_row_lookup schema _ i f Hf), Hn, Hk, IH; [done|].
  intros k' Hk'. apply Hmap. by right.
Qed.

(** A scan claims an output ordering only when it holds. If every split's
    rows arrive sorted as its plan says and the sort columns are not renamed,
    the rows of every partition are sorted by the claimed expressions, because
    the claim is made only when each partition reads exactly one split. *)
Theorem split_ordering_sound schema planned ordering split_rows :
  split_ordering schema planned = Some ordering ->
  (forall k, k ∈ default [] (sort_order (planned_plan planned)) ->
     worker_name mapping (sf_column k) = sf_column k) ->
  (forall i, Sorted (worker_le (default [] (sort_order (planned_plan planned)))) (split_rows i)) ->
  groups planned <> [] /\
  forall g, g ∈ groups planned -> Sorted (public_le ordering) (partition_rows schema split_rows g).
Proof.
  intros Ho Hmap Hsorted. unfold split_ordering in Ho. destruct (groups planned) as [|g0 gs] eqn:Hgs; [done|].
  destruct (existsb _ _) eqn:Hex; [done|]. cbn [orb] in Ho. split; [done|]. intros g Hg.
  assert (length (split_indices g) = 1%nat) as Hone.
  { apply Nat.eqb_eq. destruct (length (split_indices g) =? 1)%nat eqn:Hl; [done|]. rewrite <- Hex.
    apply existsb_exists. exists g. split; [by apply list_elem_of_In|]. by rewrite Hl. }
  destruct (split_indices g) as [|i [|]] eqn:Hi; try done.
  destruct (sort_order (planned_plan planned)) as [[|k keys]|] eqn:Hkeys; try done. cbn [default] in *.
  unfold partition_rows. rewrite Hi. cbn. rewrite app_nil_r. clear Hi Hone.
  specialize (Hsorted i). clear -Ho Hmap Hsorted.
  induction Hsorted as [|row rows _ IH Hhd]; cbn; constructor; [done|].
  destruct Hhd as [|row' rows Hle]; cbn; constructor. by eapply lex_public.
Qed.
End Ordering.

(** ** Instances

    Columns are lists of numbers, types and metadata are trivial. The worker
    binds the columns [a] and [b]. *)

Module Instance_.
Definition accept (s : @Schema unit unit) (cs : list (list Z)) (n : nat) : result RecordBatch :=
  Ok (mkBatch s cs n).
Definition schema (names : list string) : @Schema unit unit := mkSchema (map (fun n => mkField n tt tt) names) tt.
Definition batch : RecordBatch := mkBatch (schema ["a"; "b"]%string) [[1; 2]; [3; 4]]%Z 2.
Definition renamed : Mapping := Some (positional_mapping (schema ["a"; "b"]) (schema ["id"; "name"]))%string.
Definition swapped : Mapping := Some (positional_mapping (schema ["a"; "b"]) (schema ["b"; "a"]))%string.

Lemma accept_ok s cs n b : accept s cs n = Ok b -> b = mkBatch s cs n.
Proof. by intros [= <-]. Qed.

(** Two splits of one row each, sorted by [a]. *)
Definition planned : PlannedSplits unit :=
  let split := mkSplit tt (Some 1%Z) true None None None None in
  let plan := mkPlan [split; split] None None None None (Some [mkSortField "a" "asc" "nulls_last"]) in
  let group i := mkGroup [i] [tt] (Exact 1%Z) Absent in
  mkPlanned [group 0%nat; group 1%nat] (Exact 2%Z) Absent plan false false.
Definition compare (descending nulls_first : bool) (x y : option Z) : comparison :=
  match x, y with
  | Some x, Some y => if descending then Z.compare y x else Z.compare x y
  | _, _ => Eq
  end.
(** Every split's rows: [a] rises, [b] falls. *)
Definition split_rows (i : nat) : list (WorkerRow (Value := Z)) :=
  [fun name => if String.eqb name "a" then 1%Z else 9%Z; fun name => if String.eqb name "a" then 2%Z else 8%Z].
End Instance_.

Lemma conform_by_name_witness :
  exists out, conform Instance_.accept Instance_.batch (Instance_.schema ["name"])%string Instance_.renamed = Ok out /\
              columns out !! 0%nat = column_by_name Instance_.batch "b".
Proof.
  assert (batch_schema Instance_.batch = Instance_.schema ["name"]%string -> forall i f,
    fields (Instance_.schema ["name"]%string) !! i = Some f ->
    index_of (Instance_.schema ["name"]%string) (worker_name Instance_.renamed (field_name f)) = Some i) as Hmap
    by discriminate.
  destruct (conform_by_name Instance_.accept Instance_.accept_ok Instance_.batch (Instance_.schema ["name"]%string)
              Instance_.renamed Hmap) as [H _].
  eexists. split; [vm_compute; reflexivity|]. exact (proj2 (proj2 (H _ eq_refl)) 0%nat _ eq_refl).
Defined.

Lemma replay_transparent_witness :
  exists stored out,
    conform Instance_.accept Instance_.batch (Instance_.schema ["b"; "a"])%string None = Ok stored /\
    conform Instance_.accept stored (Instance_.schema ["a"])%string None = Ok out /\
    conform Instance_.accept Instance_.batch (Instance_.schema ["a"])%string None = Ok out.
Proof.
  eexists _, _. split; [vm_compute; reflexivity|]. split; [vm_compute; reflexivity|].
  eapply (replay_transparent Instance_.accept Instance_.accept_ok Instance_.batch _ _
            (Instance_.schema ["b"; "a"])%string (Instance_.schema ["a"])%string);
    [ |reflexivity| |vm_compute; reflexivity|vm_compute; reflexivity].
  - apply (bool_decide_unpack _). vm_compute. exact I.
  - intros f Hf. apply list_elem_of_singleton in Hf as ->. by eexists.
Defined.

Lemma split_ordering_sound_witness :
  exists ordering, split_ordering (Instance_.schema ["a"; "b"])%string Instance_.planned = Some ordering /\
    groups Instance_.planned <> [].
Proof.
  eexists. split; [vm_compute; reflexivity|].
  refine (proj1 (split_ordering_sound None Instance_.compare (Instance_.schema ["a"; "b"])%string
            Instance_.planned _ Instance_.split_rows eq_refl _ _)).
  - intros k _. reflexivity.
  - intros i. repeat constructor. discriminate.
Defined.

(** *** Renamed columns

    A batch cached under the catalog's names is conformed again when it is
    replayed, with the mapping from catalog to worker names: a scan of [id]
    that succeeded live fails from the cache. *)
Lemma replay_renamed_fails :
  exists out stored e,
    conform Instance_.accept Instance_.batch (Instance_.schema ["id"])%string Instance_.renamed = Ok out /\
    conform Instance_.accept Instance_.batch (Instance_.schema ["id"; "name"])%string Instance_.renamed = Ok stored /\
    conform Instance_.accept stored (Instance_.schema ["id"])%string Instance_.renamed = Err e.
Proof. eexists _, _, _. repeat split; vm_compute; reflexivity. Qed.

(** A batch that happens to have the planned schema is not renamed at all, so
    swapped names deliver the wrong column. *)
Lemma conform_swapped_shortcut :
  exists out,
    conform Instance_.accept Instance_.batch (Instance_.schema ["a"; "b"])%string Instance_.swapped = Ok out /\
    columns out !! 0%nat <> column_by_name Instance_.batch (worker_name Instance_.swapped "a").
Proof. eexists. split; [vm_compute; reflexivity|]. vm_compute. discriminate. Qed.

(** [split_ordering] looks the worker's sort columns up among the catalog's
    names: with swapped names it claims an order that the rows do not have. *)
Lemma split_ordering_ignores_mapping :
  exists ordering, split_ordering (Instance_.schema ["b"; "a"])%string Instance_.planned = Some ordering /\
    (forall i, Sorted (worker_le Instance_.compare [mkSortField "a" "asc" "nulls_last"]) (Instance_.split_rows i)) /\
    exists g, g ∈ groups Instance_.planned /\
      ~ Sorted (public_le Instance_.compare ordering)
          (partition_rows Instance_.swapped (Instance_.schema ["b"; "a"])%string Instance_.split_rows g).
Proof.
  eexists. split; [vm_compute; reflexivity|]. split; [intros i; repeat constructor; discriminate|].
  eexists. split; [left|]. intros H. inversion H as [|? ? _ Hhd]. inversion Hhd as [|? ? Hle]. subst.
  apply Hle. vm_compute. reflexivity.
Qed.
