(* ===== verification/Settings.v ===== *)
(** * Session settings (src/src/settings.rs)

    [VgiSettings]: the [vgi.*] configuration namespace. Worker settings are
    opaque strings until bind, when [encode_settings] casts each to the Arrow
    type its worker declared; a fixed set of adapter-owned settings is
    validated and canonicalized on entry. *)

From S2P Require Import Prelude Json Arrow Text.
From Stdlib Require Import Strings.Ascii.

#[local] Open Scope Z_scope.

(** ** The settings map *)

(** [vgi_client::CacheLimits]; the TTL in nanoseconds. *)
Record CacheLimits := mkLimits {
  max_entry_bytes : Z;
  max_total_bytes : Z;
  max_entries : Z;
  default_ttl : Z
}.

Definition EXCHANGE_INPUT_DEDUP : string := "vgi_exchange_input_dedup".
Definition RESULT_CACHE_PER_VALUE : string := "vgi_result_cache_per_value".
Definition RESULT_CACHE_MAX_ENTRY_BYTES : string := "vgi_result_cache_max_entry_bytes".
Definition RESULT_CACHE_MAX_BYTES : string := "vgi_result_cache_max_bytes".
Definition RESULT_CACHE_MAX_ENTRIES : string := "vgi_result_cache_max_entries".

Definition ADAPTER_BOOLEAN_SETTINGS : list string := [EXCHANGE_INPUT_DEDUP; RESULT_CACHE_PER_VALUE].
Definition ADAPTER_USIZE_SETTINGS : list string :=
  [RESULT_CACHE_MAX_ENTRY_BYTES; RESULT_CACHE_MAX_BYTES; RESULT_CACHE_MAX_ENTRIES].

Definition is_adapter_boolean_setting (name : string) : bool :=
  existsb (fun candidate => eq_ignore_ascii_case candidate name) ADAPTER_BOOLEAN_SETTINGS.
Definition is_adapter_usize_setting (name : string) : bool :=
  existsb (fun candidate => eq_ignore_ascii_case candidate name) ADAPTER_USIZE_SETTINGS.
Definition is_adapter_setting (name : string) : bool :=
  is_adapter_boolean_setting name || is_adapter_usize_setting name.

(** [VgiSettings]; the [BTreeMap] is a finite map, its iteration order is
    [sorted_values] below. *)
Record VgiSettings := mkSettings {
  values : gmap string string;
  adapter_limit_defaults : CacheLimits
}.

Definition adapter_default (name : string) (limits : CacheLimits) : option string :=
  if is_adapter_boolean_setting name then Some "true"
  else if String.eqb name RESULT_CACHE_MAX_ENTRY_BYTES then Some (usize_to_string (max_entry_bytes limits))
  else if String.eqb name RESULT_CACHE_MAX_BYTES then Some (usize_to_string (max_total_bytes limits))
  else if String.eqb name RESULT_CACHE_MAX_ENTRIES then Some (usize_to_string (max_entries limits))
  else None.

(** [VgiSettings::with_cache_limits]; [adapter_default] knows every name of the
    two arrays, so the [expect] cannot fail ([adapter_default_known]). *)
Definition with_cache_limits (limits : CacheLimits) : VgiSettings :=
  mkSettings
    (list_to_map (omap (fun name => (fun v => (name, v)) <$> adapter_default name limits)
       (ADAPTER_BOOLEAN_SETTINGS ++ ADAPTER_USIZE_SETTINGS)))
    limits.

Definition normalize_name (name : string) : result string :=
  let name := trim name in
  if String.eqb name "" || contains_char "." name
  then Err (Configuration ("VGI setting names must be non-empty and contain no dots, found `"
                           +:+ name +:+ "`"))
  else Ok (to_ascii_lowercase name).

Definition parse_bool (name value : string) : result bool :=
  let v := to_ascii_lowercase (trim value) in
  if vec_contains v ["true"; "on"; "1"] then Ok true
  else if vec_contains v ["false"; "off"; "0"] then Ok false
  else Err (Configuration ("VGI adapter setting `" +:+ name +:+ "` expects a boolean, found `"
                           +:+ value +:+ "`")).

Definition parse_usize (name value : string) : result Z :=
  ok_or (Configuration ("VGI adapter setting `" +:+ name
           +:+ "` expects a non-negative integer that fits this host, found `" +:+ value +:+ "`"))
    (parse_usize_str (trim value)).

(** The value [set_value] stores under a normalized name. *)
Definition canonical_value (name value : string) : result string :=
  if is_adapter_boolean_setting name then bool_to_string <$> parse_bool name value
  else if is_adapter_usize_setting name then usize_to_string <$> parse_usize name value
  else Ok value.

(** [VgiSettings::set_value] ([ExtensionOptions::set]); an error leaves the
    settings as they were. *)
Definition set_value (s : VgiSettings) (name value : string) : result VgiSettings :=
  match normalize_name name with
  | Err e => Err e
  | Ok name =>
      match canonical_value name value with
      | Err e => Err e
      | Ok value => Ok (mkSettings (<[name := value]> (values s)) (adapter_limit_defaults s))
      end
  end.

(** [VgiSettings::reset_value]: the new settings and the returned flag. *)
Definition reset_value (s : VgiSettings) (name : string) : VgiSettings * bool :=
  let name := to_ascii_lowercase name in
  let present := bool_decide (is_Some (values s !! name)) in
  match adapter_default name (adapter_limit_defaults s) with
  | Some d => (mkSettings (<[name := d]> (values s)) (adapter_limit_defaults s), present)
  | None => (mkSettings (delete name (values s)) (adapter_limit_defaults s), present)
  end.

(** [VgiSettings::get] *)
Definition get_setting (s : VgiSettings) (name : string) : option string :=
  values s !! to_ascii_lowercase name.

(** [values()] in [BTreeMap] order. *)
Definition entry_le (a b : string * string) : Prop := bytes_le (bytes_of a.1) (bytes_of b.1).
#[export] Instance entry_le_dec : RelDecision entry_le.
Proof. intros a b. unfold entry_le. apply _. Defined.
Definition sorted_values (s : VgiSettings) : list (string * string) :=
  merge_sort entry_le (map_to_list (values s)).

(** [ExtensionOptions::entries]: key and value. *)
Definition entries (s : VgiSettings) : list (string * option string) :=
  map (fun e => ("vgi." +:+ e.1, Some e.2)) (sorted_values s).

(** ** The adapter's own settings *)

Record VgiAdapterSettings := mkAdapterSettings {
  exchange_input_dedup : bool;
  result_cache_per_value : bool;
  result_cache_max_entry_bytes : Z;
  result_cache_max_bytes : Z;
  result_cache_max_entries : Z
}.

Definition adapter_bool (s : VgiSettings) (name : string) : bool :=
  default true (get_setting s name ≫= parse_bool_str).
Definition adapter_usize (s : VgiSettings) (name : string) (d : Z) : Z :=
  default d (get_setting s name ≫= parse_usize_str).

Definition adapter_settings (s : VgiSettings) : VgiAdapterSettings :=
  let d := adapter_limit_defaults s in
  mkAdapterSettings
    (adapter_bool s EXCHANGE_INPUT_DEDUP)
    (adapter_bool s RESULT_CACHE_PER_VALUE)
    (adapter_usize s RESULT_CACHE_MAX_ENTRY_BYTES (max_entry_bytes d))
    (adapter_usize s RESULT_CACHE_MAX_BYTES (max_total_bytes d))
    (adapter_usize s RESULT_CACHE_MAX_ENTRIES (max_entries d)).

Definition result_cache_limits (a : VgiAdapterSettings) (ttl : Z) : CacheLimits :=
  mkLimits (result_cache_max_entry_bytes a) (result_cache_max_bytes a) (result_cache_max_entries a) ttl.

(** ** Casting to the worker's declared types *)

(** [vgi_client::SettingSpec] *)
Record SettingSpec := mkSpec { spec_name : string; spec_type : DataType }.

(** The kernels of the cast besides Arrow's; JSON text is a [string] here. *)
Class SettingKernel (Text : Type) := {
  try_from_string : string -> DataType -> result ScalarValue;
  try_new_null : DataType -> result ScalarValue;
  (** [ScalarValue::Struct(Arc::new(StructArray::new(fields, arrays, None)))] *)
  struct_array_new : list Field -> list (ArrayRef Text) -> result ScalarValue;
  json_text : json -> string;
  json_parse : string -> result json;
  display_type : DataType -> string;
  error_text : DFError -> string
}.

Section Encode.
Context {Text Bytes : Type} `{AK : !ArrowKernel Text Bytes} `{SK : !SettingKernel Text}.

Definition setting_error {A} (msg : string) : result A := Err (Configuration msg).

Definition known_fields (fields : list Field) (members : list (string * json)) : result unit :=
  match find (fun m => negb (existsb (fun f => String.eqb (field_name f) m.1) fields)) members with
  | Some m => setting_error ("unknown struct setting field `" +:+ m.1 +:+ "`")
  | None => Ok tt
  end.

(** [serde_json::from_str] and [as_object], the head of [parse_struct]. *)
Definition parse_object (raw : string) : result (list (string * json)) :=
  match json_parse raw with
  | Err e => setting_error ("struct settings use a JSON object string: " +:+ error_text e)
  | Ok (JObj members) => Ok members
  | Ok _ => setting_error "struct settings use a JSON object string"
  end.

(** [parse_struct] and [parse_json_scalar]; the recursion follows the type.
    [struct_of] is [parse_struct] on a raw document. *)
Fixpoint parse_json_scalar (ty : DataType) (value : json) {struct ty} : result ScalarValue :=
  match value, ty with
  | JStr s, Utf8 | JStr s, LargeUtf8 | JStr s, Utf8View => Ok (SVPrim ty (Some (PString s)))
  | JObj _, Struct fields =>
      members ← parse_object (json_text value);
      _ ← known_fields fields members;
      arrays ← (fix go (fs : list Field) : result (list (ArrayRef Text)) :=
                   match fs with
                   | [] => Ok []
                   | f :: rest =>
                       v ← (match f with
                            | mkField name fty nullable _ =>
                                match obj_get name members with
                                | None | Some JNull =>
                                    if nullable then try_new_null fty
                                    else setting_error ("struct setting field `" +:+ name +:+ "` is required")
                                | Some value => parse_json_scalar fty value
                                end
                            end);
                       a ← to_array_of_size_1 v;
                       rest ← go rest;
                       Ok (a :: rest)
                   end) fields;
      struct_array_new fields arrays
  | JStr s, _ => try_from_string s ty
  | JBool _, _ | JNum _, _ | JFloat _, _ => try_from_string (json_text value) ty
  | _, _ => setting_error ("JSON value " +:+ json_text value
                           +:+ " is not supported for Arrow type " +:+ display_type ty)
  end.

(** The field loop of [parse_struct]. *)
Definition parse_field (members : list (string * json)) (f : Field) : result ScalarValue :=
  match obj_get (field_name f) members with
  | None | Some JNull =>
      if field_nullable f then try_new_null (field_type f)
      else setting_error ("struct setting field `" +:+ field_name f +:+ "` is required")
  | Some value => parse_json_scalar (field_type f) value
  end.

Definition parse_struct (raw : string) (fields : list Field) : result ScalarValue :=
  members ← parse_object raw;
  _ ← known_fields fields members;
  arrays ← result_collect (fun f => v ← parse_field members f; to_array_of_size_1 v) fields;
  struct_array_new fields arrays.

Definition parse_setting_value (raw : string) (ty : DataType) : result ScalarValue :=
  match ty with
  | Utf8 | LargeUtf8 | Utf8View => Ok (SVPrim ty (Some (PString raw)))
  | Struct fields => parse_struct raw fields
  | _ => try_from_string raw ty
  end.

(** One declaration of the [encode_settings] loop; [None] is [continue]. *)
Definition encode_declaration (configured : VgiSettings) (d : SettingSpec)
    : option (result (Field * ArrayRef Text)) :=
  raw ← get_setting configured (spec_name d);
  Some (match parse_setting_value raw (spec_type d) with
        | Ok scalar =>
            a ← to_array_of_size_1 scalar;
            Ok (mkField (spec_name d) (spec_type d) (is_null scalar) [], a)
        | Err e => setting_error ("VGI setting `" +:+ spec_name d +:+ "` cannot be cast to "
                     +:+ display_type (spec_type d) +:+ ": " +:+ error_text e)
        end).

Definition encode_columns (configured : VgiSettings) (declarations : list SettingSpec)
    : result (list (Field * ArrayRef Text)) :=
  result_collect (fun column => column) (omap (encode_declaration configured) declarations).

(** [encode_settings] *)
Definition encode_settings (configured : VgiSettings) (declarations : list SettingSpec)
    : result (option Bytes) :=
  columns ← encode_columns configured declarations;
  match columns with
  | [] => Ok None
  | _ =>
      batch ← try_new (map fst columns) [] (map snd columns);
      bytes ← ipc_write batch;
      Ok (Some bytes)
  end.

(** The nested field loop is the loop of [parse_struct]. *)
Lemma parse_json_scalar_struct fields ms :
  parse_json_scalar (Struct fields) (JObj ms) = parse_struct (json_text (JObj ms)) fields.
Proof.
  unfold parse_struct. simpl. destruct (parse_object (json_text (JObj ms))) as [members|]; simpl; [|done].
  destruct (known_fields fields members); simpl; [|done].
  match goal with |- context [mbind _ (?g fields)] =>
    assert (forall fs, g fs = result_collect (fun f => v ← parse_field members f; to_array_of_size_1 v) fs)
      as Hgo end.
  { intros fs. induction fs as [|[name fty nullable meta] fs IH]; [done|].
    cbn [result_collect]. rewrite <- IH. unfold parse_field. cbn [field_name field_nullable field_type].
    simpl. destruct (obj_get name members) as [[]|]; try destruct nullable; simpl;
    match goal with |- context [mbind _ ?m] => destruct m; simpl; [|done] | _ => idtac end;
    match goal with |- context [to_array_of_size_1 ?x] => destruct (to_array_of_size_1 x); simpl; done | _ => idtac end; try done. }
  by rewrite Hgo.
Qed.
End Encode.

(** ** The settings map against a typed specification

    The string map implements a record of typed values: whatever sequence of
    [SET] and [RESET] a session runs, [adapter_settings] reads the value of
    the last successful [SET] since the last [RESET], else the default. *)

Inductive SettingOp :=
  | SetOp (name value : string)
  | ResetOp (name : string).

(** The session's configuration after one statement. *)
Definition apply_op (s : VgiSettings) (op : SettingOp) : VgiSettings :=
  match op with
  | SetOp name value => match set_value s name value with Ok s' => s' | Err _ => s end
  | ResetOp name => (reset_value s name).1
  end.

Definition default_adapter_settings (l : CacheLimits) : VgiAdapterSettings :=
  mkAdapterSettings true true (max_entry_bytes l) (max_total_bytes l) (max_entries l).

(** Write one typed field; other names are not adapter settings. *)
Definition write_typed (a : VgiAdapterSettings) (name : string) (b : bool) (n : Z)
    : VgiAdapterSettings :=
  let 'mkAdapterSettings dedup per_value entry total count := a in
  mkAdapterSettings
    (if String.eqb name EXCHANGE_INPUT_DEDUP then b else dedup)
    (if String.eqb name RESULT_CACHE_PER_VALUE then b else per_value)
    (if String.eqb name RESULT_CACHE_MAX_ENTRY_BYTES then n else entry)
    (if String.eqb name RESULT_CACHE_MAX_BYTES then n else total)
    (if String.eqb name RESULT_CACHE_MAX_ENTRIES then n else count).

Definition default_usize (l : CacheLimits) (name : string) : Z :=
  if String.eqb name RESULT_CACHE_MAX_ENTRY_BYTES then max_entry_bytes l
  else if String.eqb name RESULT_CACHE_MAX_BYTES then max_total_bytes l
  else max_entries l.

Definition typed_op (l : CacheLimits) (a : VgiAdapterSettings) (op : SettingOp)
    : VgiAdapterSettings :=
  match op with
  | SetOp name value =>
      match normalize_name name with
      | Err _ => a
      | Ok name =>
          if is_adapter_boolean_setting name
          then match parse_bool name value with Ok b => write_typed a name b 0 | Err _ => a end
          else if is_adapter_usize_setting name
          then match parse_usize name value with Ok n => write_typed a name true n | Err _ => a end
          else a
      end
  | ResetOp name =>
      let name := to_ascii_lowercase name in
      write_typed a name true (default_usize l name)
  end.

Definition limits_ok (l : CacheLimits) : Prop :=
  0 <= max_entry_bytes l <= usize_max /\ 0 <= max_total_bytes l <= usize_max
  /\ 0 <= max_entries l <= usize_max.

Definition lowercase (name : string) : Prop := to_ascii_lowercase name = name.

Lemma normalize_name_lowercase name n : normalize_name name = Ok n -> lowercase n.
Proof.
  unfold normalize_name. cbv zeta. destruct (_ || _); [done|]. intros [= <-].
  apply to_ascii_lowercase_idem.
Qed.

Lemma boolean_setting_lowercase n :
  lowercase n ->
  is_adapter_boolean_setting n = String.eqb n EXCHANGE_INPUT_DEDUP || String.eqb n RESULT_CACHE_PER_VALUE.
Proof.
  intros Hn. unfold is_adapter_boolean_setting, eq_ignore_ascii_case. simpl existsb. rewrite Hn.
  rewrite orb_false_r, !(String.eqb_sym n). done.
Qed.

Lemma usize_setting_lowercase n :
  lowercase n ->
  is_adapter_usize_setting n =
    String.eqb n RESULT_CACHE_MAX_ENTRY_BYTES || String.eqb n RESULT_CACHE_MAX_BYTES
    || String.eqb n RESULT_CACHE_MAX_ENTRIES.
Proof.
  intros Hn. unfold is_adapter_usize_setting, eq_ignore_ascii_case. simpl existsb. rewrite Hn.
  rewrite orb_false_r, !(String.eqb_sym n), orb_assoc. done.
Qed.

(** How one write to the map shows in the typed view. *)
Lemma adapter_settings_insert s n v :
  lowercase n ->
  adapter_settings (mkSettings (<[n := v]> (values s)) (adapter_limit_defaults s)) =
  let l := adapter_limit_defaults s in
  let a := adapter_settings s in
  mkAdapterSettings
    (if String.eqb n EXCHANGE_INPUT_DEDUP then default true (parse_bool_str v) else exchange_input_dedup a)
    (if String.eqb n RESULT_CACHE_PER_VALUE then default true (parse_bool_str v) else result_cache_per_value a)
    (if String.eqb n RESULT_CACHE_MAX_ENTRY_BYTES then default (max_entry_bytes l) (parse_usize_str v)
     else result_cache_max_entry_bytes a)
    (if String.eqb n RESULT_CACHE_MAX_BYTES then default (max_total_bytes l) (parse_usize_str v)
     else result_cache_max_bytes a)
    (if String.eqb n RESULT_CACHE_MAX_ENTRIES then default (max_entries l) (parse_usize_str v)
     else result_cache_max_entries a).
Proof.
  intros Hn.
  assert (forall k, lowercase k ->
    get_setting (mkSettings (<[n := v]> (values s)) (adapter_limit_defaults s)) k =
    if String.eqb n k then Some v else get_setting s k) as Hget.
  { intros k Hk. unfold get_setting. simpl. rewrite Hk.
    destruct (String.eqb_spec n k) as [->|]; [apply lookup_insert_eq|by apply lookup_insert_ne]. }
  unfold adapter_settings, adapter_bool, adapter_usize. rewrite !Hget by reflexivity. simpl.
  f_equal; by destruct (String.eqb n _).
Qed.

Lemma adapter_settings_delete s n :
  lowercase n -> is_adapter_boolean_setting n = false -> is_adapter_usize_setting n = false ->
  adapter_settings (mkSettings (delete n (values s)) (adapter_limit_defaults s)) = adapter_settings s.
Proof.
  intros Hn Hb Hu. rewrite boolean_setting_lowercase in Hb by done.
  rewrite usize_setting_lowercase in Hu by done.
  apply orb_false_iff in Hb as [H1%String.eqb_neq H2%String.eqb_neq].
  apply orb_false_iff in Hu as [[H3%String.eqb_neq H4%String.eqb_neq]%orb_false_iff H5%String.eqb_neq].
  unfold adapter_settings, adapter_bool, adapter_usize, get_setting. simpl.
  by rewrite !lookup_delete_ne by done.
Qed.

Lemma adapter_settings_no_adapter s n v :
  lowercase n -> is_adapter_boolean_setting n = false -> is_adapter_usize_setting n = false ->
  adapter_settings (mkSettings (<[n := v]> (values s)) (adapter_limit_defaults s)) = adapter_settings s.
Proof.
  intros Hn Hb Hu. rewrite adapter_settings_insert by done.
  rewrite boolean_setting_lowercase in Hb by done. rewrite usize_setting_lowercase in Hu by done.
  apply orb_false_iff in Hb as [-> ->]. by apply orb_false_iff in Hu as [[-> ->]%orb_false_iff ->].
Qed.

Lemma parse_usize_range name v n : parse_usize name v = Ok n -> 0 <= n <= usize_max.
Proof.
  unfold parse_usize. destruct (parse_usize_str (trim v)) as [m|] eqn:Hp; [|done].
  simpl. intros [= ->]. by eapply parse_usize_str_range.
Qed.

Lemma write_typed_eq a n b m :
  write_typed a n b m =
  mkAdapterSettings
    (if String.eqb n EXCHANGE_INPUT_DEDUP then b else exchange_input_dedup a)
    (if String.eqb n RESULT_CACHE_PER_VALUE then b else result_cache_per_value a)
    (if String.eqb n RESULT_CACHE_MAX_ENTRY_BYTES then m else result_cache_max_entry_bytes a)
    (if String.eqb n RESULT_CACHE_MAX_BYTES then m else result_cache_max_bytes a)
    (if String.eqb n RESULT_CACHE_MAX_ENTRIES then m else result_cache_max_entries a).
Proof. by destruct a. Qed.

(** The five names are pairwise distinct: at most one comparison succeeds. *)
Ltac split_names :=
  repeat match goal with
  | |- context [String.eqb ?n ?k] => destruct (String.eqb_spec n k); subst; try discriminate
  end.

Lemma set_value_refines s name value s' :
  set_value s name value = Ok s' ->
  adapter_limit_defaults s' = adapter_limit_defaults s /\
  adapter_settings s' = typed_op (adapter_limit_defaults s) (adapter_settings s) (SetOp name value).
Proof.
  unfold set_value, typed_op. destruct (normalize_name name) as [n|] eqn:Hn; [|done].
  apply normalize_name_lowercase in Hn. unfold canonical_value.
  destruct (is_adapter_boolean_setting n) eqn:Hb; [|destruct (is_adapter_usize_setting n) eqn:Hu].
  - destruct (parse_bool n value) as [b|]; [|done]. intros [= <-]. split; [done|].
    rewrite adapter_settings_insert, write_typed_eq by done. cbn [fmap result_fmap].
    rewrite boolean_setting_lowercase in Hb by done. rewrite parse_bool_to_string.
    apply orb_true_iff in Hb as [Hb|Hb]; apply String.eqb_eq in Hb as ->; reflexivity.
  - destruct (parse_usize n value) as [m|] eqn:Hp; [|done]. intros [= <-]. split; [done|].
    apply parse_usize_range in Hp.
    rewrite adapter_settings_insert, write_typed_eq by done.
    rewrite usize_setting_lowercase in Hu by done. rewrite parse_usize_to_string by done.
    apply orb_true_iff in Hu as [[Hu|Hu]%orb_true_iff|Hu]; apply String.eqb_eq in Hu as ->; reflexivity.
  - intros [= <-]. split; [done|]. by apply adapter_settings_no_adapter.
Qed.

Lemma set_value_error s name value e :
  set_value s name value = Err e ->
  typed_op (adapter_limit_defaults s) (adapter_settings s) (SetOp name value) = adapter_settings s.
Proof.
  unfold set_value, typed_op, canonical_value. destruct (normalize_name name) as [n|]; [|done].
  destruct (is_adapter_boolean_setting n); [by destruct (parse_bool n value)|].
  destruct (is_adapter_usize_setting n); [by destruct (parse_usize n value)|done].
Qed.

Lemma reset_value_refines s name :
  limits_ok (adapter_limit_defaults s) ->
  adapter_limit_defaults (reset_value s name).1 = adapter_limit_defaults s /\
  adapter_settings (reset_value s name).1
  = typed_op (adapter_limit_defaults s) (adapter_settings s) (ResetOp name).
Proof.
  intros (H1 & H2 & H3). unfold reset_value, typed_op.
  set (n := to_ascii_lowercase name).
  assert (lowercase n) as Hn by apply to_ascii_lowercase_idem. clearbody n.
  unfold adapter_default. rewrite (boolean_setting_lowercase n Hn), write_typed_eq.
  split_names; cbn [orb fst adapter_limit_defaults]; (split; [done|]);
    try (rewrite adapter_settings_insert by done; cbv zeta; rewrite ?parse_usize_to_string by done; reflexivity).
  rewrite adapter_settings_delete; [by destruct (adapter_settings s)|done|..].
  - rewrite (boolean_setting_lowercase n Hn). split_names; done.
  - rewrite (usize_setting_lowercase n Hn). split_names; done.
Qed.

Lemma with_cache_limits_refines l :
  limits_ok l -> adapter_settings (with_cache_limits l) = default_adapter_settings l.
Proof.
  intros (H1 & H2 & H3). unfold adapter_settings, adapter_bool, adapter_usize, get_setting,
    default_adapter_settings.
  change (adapter_limit_defaults (with_cache_limits l)) with l.
  assert (values (with_cache_limits l) =
    <[EXCHANGE_INPUT_DEDUP := "true"]> (<[RESULT_CACHE_PER_VALUE := "true"]>
    (<[RESULT_CACHE_MAX_ENTRY_BYTES := usize_to_string (max_entry_bytes l)]>
    (<[RESULT_CACHE_MAX_BYTES := usize_to_string (max_total_bytes l)]>
    (<[RESULT_CACHE_MAX_ENTRIES := usize_to_string (max_entries l)]> ∅))))) as -> by reflexivity.
  unfold to_ascii_lowercase. simpl.
  repeat first [rewrite lookup_insert_eq | rewrite lookup_insert_ne by done].
  simpl. by rewrite !parse_usize_to_string by done.
Qed.

(** The adapter's settings refine a typed record. After any sequence of
    [SET vgi.*] and [RESET vgi.*] statements, failed ones included, the adapter
    reads exactly the value the last successful write gave each of its five
    settings, and otherwise the session's default: no spelling of a name or of
    a value makes it fall back. *)
Theorem adapter_settings_refine l ops :
  limits_ok l ->
  adapter_settings (fold_left apply_op ops (with_cache_limits l))
  = fold_left (typed_op l) ops (default_adapter_settings l).
Proof.
  intros Hl.
  assert (forall ops s, adapter_limit_defaults s = l ->
    adapter_settings (fold_left apply_op ops s) = fold_left (typed_op l) ops (adapter_settings s)) as H.
  { clear ops. intros ops. induction ops as [|op ops IH]; intros s Hs; [done|]. cbn [fold_left].
    assert (adapter_limit_defaults (apply_op s op) = l /\
            adapter_settings (apply_op s op) = typed_op l (adapter_settings s) op) as [H1 H2].
    { subst l. destruct op as [name value|name].
      - cbn [apply_op]. destruct (set_value s name value) eqn:Hset.
        + by apply set_value_refines.
        + split; [done|]. symmetry. by eapply set_value_error.
      - by apply reset_value_refines. }
    by rewrite IH, H2. }
  rewrite H by done. by rewrite with_cache_limits_refines.
Qed.

Definition ex_limits : CacheLimits := mkLimits 64 256 10 0.
Definition ex_ops : list SettingOp :=
  [SetOp " VGI_result_cache_max_bytes " " +42 "; SetOp "vgi_exchange_input_dedup" "maybe";
   SetOp "VGI_EXCHANGE_INPUT_DEDUP" "Off"; SetOp "multiplier" "3"; ResetOp "VGI_RESULT_CACHE_MAX_ENTRIES"].

Lemma adapter_settings_refine_witness :
  limits_ok ex_limits /\
  adapter_settings (fold_left apply_op ex_ops (with_cache_limits ex_limits))
  = fold_left (typed_op ex_limits) ex_ops (default_adapter_settings ex_limits).
Proof.
  assert (limits_ok ex_limits) as H by (vm_compute; repeat split; discriminate).
  split; [exact H|]. exact (adapter_settings_refine ex_limits ex_ops H).
Defined.

Example ex_ops_result :
  fold_left (typed_op ex_limits) ex_ops (default_adapter_settings ex_limits)
  = mkAdapterSettings false true 64 42 10.
Proof. vm_compute. reflexivity. Qed.

(** ** What is forwarded to a worker *)

Section Forwarding.
Context {Text Bytes : Type} `{AK : !ArrowKernel Text Bytes} `{SK : !SettingKernel Text}.

Definition configured_in (s : VgiSettings) (d : SettingSpec) : bool :=
  bool_decide (is_Some (get_setting s (spec_name d))).

(** The cast of one configured value, to a one-row array. *)
Definition cast_setting (raw : string) (ty : DataType) : result (ScalarValue * ArrayRef Text) :=
  v ← parse_setting_value raw ty; a ← to_array_of_size_1 v; Ok (v, a).

(** [column] carries the configured value of [d], cast to the declared type. *)
Definition carries (s : VgiSettings) (d : SettingSpec) (column : Field * ArrayRef Text) : Prop :=
  exists raw v, get_setting s (spec_name d) = Some raw /\
    cast_setting raw (spec_type d) = Ok (v, column.2) /\
    column.1 = mkField (spec_name d) (spec_type d) (is_null v) [].

Lemma encode_declaration_spec s d :
  encode_declaration s d =
  raw ← get_setting s (spec_name d);
  Some (match cast_setting raw (spec_type d) with
        | Ok (v, a) => Ok (mkField (spec_name d) (spec_type d) (is_null v) [], a)
        | Err e => match parse_setting_value raw (spec_type d) with
                   | Ok _ => Err e
                   | Err e => setting_error ("VGI setting `" +:+ spec_name d +:+ "` cannot be cast to "
                     +:+ display_type (spec_type d) +:+ ": " +:+ error_text e)
                   end
        end).
Proof.
  unfold encode_declaration, cast_setting. destruct (get_setting s (spec_name d)) as [raw|]; simpl; [|done].
  destruct (parse_setting_value raw (spec_type d)) as [v|e]; simpl; [|done].
  by destruct (to_array_of_size_1 v).
Qed.

Lemma encode_columns_Ok s ds columns :
  encode_columns s ds = Ok columns -> Forall2 (carries s) (List.filter (configured_in s) ds) columns.
Proof.
  unfold encode_columns. rewrite result_collect_Ok. revert columns.
  induction ds as [|d ds IH]; intros columns; cbn [omap list_omap].
  - inversion 1. constructor.
  - rewrite encode_declaration_spec. cbn [List.filter]. unfold configured_in at 1.
    destruct (get_setting s (spec_name d)) as [raw|] eqn:Hg; cbn [mbind option_bind].
    + rewrite bool_decide_true by eauto. inversion 1 as [|? c ? cs Hc Hcs]; subst.
      constructor; [|by apply IH]. destruct (cast_setting raw (spec_type d)) as [[v a]|] eqn:Hcast.
      * simplify_eq. exists raw, v. done.
      * by destruct (parse_setting_value raw (spec_type d)).
    + rewrite bool_decide_false by (by intros [? ?]). apply IH.
Qed.

Lemma encode_columns_Err s ds e :
  encode_columns s ds = Err e ->
  exists d raw, d ∈ ds /\ get_setting s (spec_name d) = Some raw /\
                is_ok (cast_setting raw (spec_type d)) = false.
Proof.
  unfold encode_columns. induction ds as [|d ds IH]; cbn [omap list_omap]; [done|].
  rewrite encode_declaration_spec. destruct (get_setting s (spec_name d)) as [raw|] eqn:Hg;
    cbn [mbind option_bind].
  - cbn [result_collect]. destruct (cast_setting raw (spec_type d)) as [[v a]|] eqn:Hcast.
    + intros H. destruct IH as (d' & raw' & Hd & ?); [by destruct (result_collect _ _) in H |-*; simplify_eq|].
      exists d', raw'. split; [by right|done].
    + intros _. exists d, raw. rewrite Hcast. split; [by left|done].
  - intros H. destruct IH as (d' & raw' & Hd & ?); [done|]. exists d', raw'. split; [by right|done].
Qed.

(** A worker receives the settings it declared, and nothing else. The
    encoded batch has one column per declared setting that has a value, in
    declaration order, holding that value cast to the declared Arrow type;
    nothing is sent exactly when no declared setting has a value, and the only
    failures are a value that does not cast and Arrow's own. *)
Theorem encode_settings_forwards s ds :
  match encode_settings s ds with
  | Ok None => Forall (fun d => get_setting s (spec_name d) = None) ds
  | Ok (Some bytes) =>
      exists columns batch, columns <> [] /\
        Forall2 (carries s) (List.filter (configured_in s) ds) columns /\
        try_new (map fst columns) [] (map snd columns) = Ok batch /\ ipc_write batch = Ok bytes
  | Err e =>
      (exists d raw, d ∈ ds /\ get_setting s (spec_name d) = Some raw /\
                     is_ok (cast_setting raw (spec_type d)) = false) \/
      (exists columns, Forall2 (carries s) (List.filter (configured_in s) ds) columns /\
         (batch ← try_new (map fst columns) [] (map snd columns); ipc_write batch) = Err e)
  end.
Proof.
  unfold encode_settings. destruct (encode_columns s ds) as [columns|e] eqn:Hc; cbn [mbind result_bind].
  - apply encode_columns_Ok in Hc. destruct columns as [|c columns].
    + inversion Hc as [Hf|]. rewrite Forall_forall. intros d Hd.
      destruct (get_setting s (spec_name d)) eqn:Hg; [|done]. exfalso.
      assert (In d (List.filter (configured_in s) ds)) as Hin.
      { apply filter_In. split; [by apply list_elem_of_In|]. apply bool_decide_eq_true. rewrite Hg. eauto. }
      by rewrite <- Hf in Hin.
    + remember (c :: columns) as cs. destruct (try_new (map fst cs) [] (map snd cs)) as [batch|e] eqn:Ht;
        cbn [mbind result_bind].
      * destruct (ipc_write batch) as [bytes|e] eqn:Hw; cbn [mbind result_bind].
        -- exists cs, batch. subst cs. done.
        -- right. exists cs. rewrite Ht. done.
      * right. exists cs. rewrite Ht. done.
  - left. by eapply encode_columns_Err.
Qed.
End Forwarding.

(** ** Iteration order *)

#[export] Instance entry_le_trans : Transitive entry_le.
Proof. intros a b c. unfold entry_le. apply bytes_le_trans. Qed.
#[export] Instance entry_le_total : Total entry_le.
Proof. intros a b. unfold entry_le. apply bytes_le_total. Qed.

Lemma StronglySorted_filter {A} (R : relation A) (f : A -> bool) l :
  StronglySorted R l -> StronglySorted R (List.filter f l).
Proof.
  induction 1 as [|x l Hl IH Hx]; simpl; [constructor|]. destruct (f x); [|done].
  constructor; [done|]. rewrite Forall_forall in *. intros y Hy%list_elem_of_In%filter_In.
  apply Hx, list_elem_of_In, Hy.
Qed.

Lemma elem_of_sorted_values s name v :
  (name, v) ∈ sorted_values s <-> values s !! name = Some v.
Proof. unfold sorted_values. rewrite merge_sort_Permutation. apply elem_of_map_to_list. Qed.

(** The entries selected by name, in iteration order, are a function of the
    selected part of the map. *)
Lemma sorted_values_agree (P : string -> bool) s1 s2 :
  List.filter (fun e => P e.1) (sorted_values s1) = List.filter (fun e => P e.1) (sorted_values s2)
  <-> forall name, P name = true -> values s1 !! name = values s2 !! name.
Proof.
  assert (forall s n v, (n, v) ∈ List.filter (fun e => P e.1) (sorted_values s)
                        <-> P n = true /\ values s !! n = Some v) as Hin.
  { intros s n v. rewrite list_elem_of_In, filter_In, <- list_elem_of_In, elem_of_sorted_values. tauto. }
  split.
  - intros Heq name HP. apply option_eq. intros v.
    pose proof (Hin s1 name v) as H1. pose proof (Hin s2 name v) as H2. rewrite Heq in H1. tauto.
  - intros Hagree.
    assert (forall x, x ∈ List.filter (fun e => P e.1) (sorted_values s1)
                      <-> x ∈ List.filter (fun e => P e.1) (sorted_values s2)) as Hsame.
    { intros [n v]. rewrite !Hin. split; intros [HP Hv]; (split; [done|]); rewrite <- Hv;
        [symmetry|]; by apply Hagree. }
    assert (forall s, NoDup (List.filter (fun e => P e.1) (sorted_values s))) as Hnd.
    { intros s. apply NoDup_ListNoDup, List.NoDup_filter, NoDup_ListNoDup. unfold sorted_values.
      rewrite merge_sort_Permutation. apply NoDup_map_to_list. }
    apply (StronglySorted_unique_strong entry_le).
    + intros [n v] [n' v'] H1 H2 Hle Hge. apply Hsame in H1. apply Hin in H1 as [_ H1], H2 as [_ H2].
      assert (n = n') as <- by (apply (inj bytes_of); by apply (anti_symm bytes_le)). congruence.
    + apply StronglySorted_filter, StronglySorted_merge_sort; apply _.
    + apply StronglySorted_filter, StronglySorted_merge_sort; apply _.
    + by apply NoDup_Permutation.
Qed.
