(* ===== verification/Runtime.v ===== *)
(** * The session runtime (src/src/runtime.rs)

    [VgiRuntime]: the mutable services every catalog of a session shares. Each
    method takes its mutexes, updates one field and returns, so an operation is
    a function on the whole state; the clock is an argument. The in-flight
    result registry is [ResultFlight.v]. *)

From S2P Require Import Prelude Arrow Text Identity Settings.
From Stdlib Require Import Strings.Ascii.

#[local] Open Scope Z_scope.

(** ** Cache ineligibility *)

Inductive CacheIneligibleReason :=
  | DisabledGlobal | DisabledAttach | IdentityUnresolved | DynamicFilter | Unbounded
  | RangePartitioned | OrderedSplit | SecretDependent | VolatileFunction | PerValueDisabled
  | StatefulExchange | LiteralInput | PartialExchange | OrderedSink | EmptyInput
  | UnsupportedShape.

#[export] Instance CacheIneligibleReason_eq_dec : EqDecision CacheIneligibleReason.
Proof. solve_decision. Defined.

Definition reason_str (r : CacheIneligibleReason) : string :=
  match r with
  | DisabledGlobal => "disabled_global"
  | DisabledAttach => "disabled_attach"
  | IdentityUnresolved => "identity_unresolved"
  | DynamicFilter => "dynamic_filter"
  | Unbounded => "unbounded"
  | RangePartitioned => "range_partitioned"
  | OrderedSplit => "ordered_split"
  | SecretDependent => "secret_dependent"
  | VolatileFunction => "volatile_function"
  | PerValueDisabled => "per_value_disabled"
  | StatefulExchange => "stateful_exchange"
  | LiteralInput => "literal_input"
  | PartialExchange => "partial_exchange"
  | OrderedSink => "ordered_sink"
  | EmptyInput => "empty_input"
  | UnsupportedShape => "unsupported_shape"
  end.

(** ** State *)

(** [VgiEvent]; [timestamp] and [duration] in nanoseconds. *)
Record VgiEvent := mkEvent {
  ev_timestamp : Z;
  ev_kind : string;
  ev_catalog : option string;
  ev_function : option string;
  ev_split : option string;
  ev_duration : option Z;
  ev_message : option string
}.

(** [VgiEvent::new] at [now]. *)
Definition new_event (now : Z) (kind : string) : VgiEvent :=
  mkEvent now kind None None None None None.

(** [PlanCacheKey]: compared field by field ([derive(PartialEq, Eq, Hash)]). *)
Record PlanCacheKey := mkPlanKey {
  pk_identity_scope : string;
  pk_worker_label : string;
  pk_function : string;
  pk_arguments : list ascii;
  pk_projection : option (list Z);
  pk_filters : option (list ascii);
  pk_row_limit : option Z;
  pk_sample : option (list ascii);
  pk_ordering : option (list ascii);
  pk_target_partitions : nat;
  pk_catalog_version : Z;
  pk_at : option (string * string);
  pk_settings : list ascii;
  pk_attach_options : list ascii
}.

#[export] Instance PlanCacheKey_eq_dec : EqDecision PlanCacheKey.
Proof. solve_decision. Defined.
#[export] Instance PlanCacheKey_countable : Countable PlanCacheKey.
Proof.
  refine (inj_countable'
    (fun k => (pk_identity_scope k, pk_worker_label k, pk_function k, pk_arguments k, pk_projection k,
               pk_filters k, pk_row_limit k, pk_sample k, pk_ordering k, pk_target_partitions k,
               pk_catalog_version k, pk_at k, pk_settings k, pk_attach_options k))
    (fun '(a, b, c, d, e, f, g, h, i, j, k, l, m, n) => mkPlanKey a b c d e f g h i j k l m n) _).
  by intros [].
Defined.

Record PlanCacheStats := mkPlanStats {
  ps_hits : Z; ps_misses : Z; ps_inserts : Z; ps_entries : nat
}.
Record ExchangeCacheStats := mkExchangeStats {
  xs_hits : Z; xs_stores : Z; xs_bytes_served : Z
}.
Definition u64_saturating_add (a b : Z) : Z := Z.min (a + b) (u64_modulus - 1).

Section Runtime.
(** [vgi_client::ScanPlan] with its cache scope, and a table's resolved
    [CatalogScanBranches]. *)
Context {Plan Branches : Type}.
Variable plan_scope : Plan -> string.
(** [vgi_protocol::cache_control::CACHE_SCOPE_CATALOG] *)
Variable CACHE_SCOPE_CATALOG : string.

Record CachedPlan := mkCachedPlan { cp_plan : Plan; cp_stored_at : Z; cp_max_age : Z }.

(** The fields of [VgiCatalogMetadata] the runtime itself reads or writes. *)
Record VgiCatalogMetadata := mkMetadata {
  md_worker_catalog : string;
  md_settings : list SettingSpec;
  md_table_branches : gmap (string * string) Branches
}.

(** [VgiRuntime]; [sink] lists what an installed event sink consumed, [None]
    without one. *)
Record VgiRuntime := mkRuntime {
  rt_cache_enabled : bool;
  rt_event_history_capacity : nat;
  rt_default_ttl : Z;
  rt_cache_limits : CacheLimits;
  rt_events : list VgiEvent;
  rt_sink : option (list VgiEvent);
  rt_plan_cache : gmap PlanCacheKey CachedPlan;
  rt_plan_cache_stats : PlanCacheStats;
  rt_exchange_cache_stats : ExchangeCacheStats;
  rt_per_value_opt_ins : gset (list ascii);
  rt_session_settings : VgiSettings;
  rt_catalog_metadata : gmap string VgiCatalogMetadata
}.

(** [VgiRuntime::try_new] with the durable tier and the hooks left out. *)
Definition new_runtime (cache_enabled : bool) (capacity : nat) (limits : CacheLimits)
    (sink : bool) : VgiRuntime :=
  mkRuntime cache_enabled capacity (default_ttl limits) limits []
    (if sink then Some [] else None) ∅ (mkPlanStats 0 0 0 0) (mkExchangeStats 0 0 0) ∅
    (with_cache_limits limits) ∅.

(** ** Field updates *)

Definition set_events (r : VgiRuntime) es sink : VgiRuntime :=
  mkRuntime (rt_cache_enabled r) (rt_event_history_capacity r) (rt_default_ttl r) (rt_cache_limits r)
    es sink (rt_plan_cache r) (rt_plan_cache_stats r) (rt_exchange_cache_stats r)
    (rt_per_value_opt_ins r) (rt_session_settings r) (rt_catalog_metadata r).
Definition set_plans (r : VgiRuntime) plans stats : VgiRuntime :=
  mkRuntime (rt_cache_enabled r) (rt_event_history_capacity r) (rt_default_ttl r) (rt_cache_limits r)
    (rt_events r) (rt_sink r) plans stats (rt_exchange_cache_stats r)
    (rt_per_value_opt_ins r) (rt_session_settings r) (rt_catalog_metadata r).
Definition set_exchange_stats (r : VgiRuntime) stats : VgiRuntime :=
  mkRuntime (rt_cache_enabled r) (rt_event_history_capacity r) (rt_default_ttl r) (rt_cache_limits r)
    (rt_events r) (rt_sink r) (rt_plan_cache r) (rt_plan_cache_stats r) stats
    (rt_per_value_opt_ins r) (rt_session_settings r) (rt_catalog_metadata r).
Definition set_opt_ins (r : VgiRuntime) ids : VgiRuntime :=
  mkRuntime (rt_cache_enabled r) (rt_event_history_capacity r) (rt_default_ttl r) (rt_cache_limits r)
    (rt_events r) (rt_sink r) (rt_plan_cache r) (rt_plan_cache_stats r) (rt_exchange_cache_stats r)
    ids (rt_session_settings r) (rt_catalog_metadata r).
Definition set_settings (r : VgiRuntime) limits settings : VgiRuntime :=
  mkRuntime (rt_cache_enabled r) (rt_event_history_capacity r) (rt_default_ttl r) limits
    (rt_events r) (rt_sink r) (rt_plan_cache r) (rt_plan_cache_stats r) (rt_exchange_cache_stats r)
    (rt_per_value_opt_ins r) settings (rt_catalog_metadata r).
Definition set_metadata (r : VgiRuntime) metadata : VgiRuntime :=
  mkRuntime (rt_cache_enabled r) (rt_event_history_capacity r) (rt_default_ttl r) (rt_cache_limits r)
    (rt_events r) (rt_sink r) (rt_plan_cache r) (rt_plan_cache_stats r) (rt_exchange_cache_stats r)
    (rt_per_value_opt_ins r) (rt_session_settings r) metadata.

(** ** Operations *)

(** [while events.len() >= capacity { events.pop_front() }] *)
Fixpoint pop_while_full (capacity : nat) (es : list VgiEvent) : list VgiEvent :=
  if (capacity <=? length es)%nat
  then match es with [] => [] | _ :: es' => pop_while_full capacity es' end
  else es.

(** [VgiRuntime::emit] *)
Definition emit (r : VgiRuntime) (event : VgiEvent) : VgiRuntime :=
  let sink := (fun seen => seen ++ [event]) <$> rt_sink r in
  let capacity := rt_event_history_capacity r in
  if (capacity =? 0)%nat then set_events r (rt_events r) sink
  else set_events r (pop_while_full capacity (rt_events r) ++ [event]) sink.

(** [VgiRuntime::clear_events] *)
Definition clear_events (r : VgiRuntime) : VgiRuntime * nat :=
  (set_events r [] (rt_sink r), length (rt_events r)).

Definition emit_cache_ineligible (now : Z) (r : VgiRuntime) (catalog function : string)
    (reason : CacheIneligibleReason) : VgiRuntime :=
  emit r (mkEvent now "cache.ineligible" (Some catalog) (Some function) None None
            (Some ("reason=" +:+ reason_str reason))).

Definition set_catalog_metadata (r : VgiRuntime) (alias : string) (m : VgiCatalogMetadata) : VgiRuntime :=
  set_metadata r (<[to_ascii_lowercase alias := m]> (rt_catalog_metadata r)).
Definition remove_catalog_metadata (r : VgiRuntime) (alias : string) : VgiRuntime :=
  set_metadata r (delete (to_ascii_lowercase alias) (rt_catalog_metadata r)).

(** [VgiRuntime::set_table_branches]: the alias is looked up as given. *)
Definition set_table_branches (r : VgiRuntime) (alias schema table : string) (b : Branches)
    : VgiRuntime :=
  set_metadata r
    (alter (fun m => mkMetadata (md_worker_catalog m) (md_settings m)
       (<[(to_ascii_lowercase schema, to_ascii_lowercase table) := b]> (md_table_branches m)))
       alias (rt_catalog_metadata r)).

Definition has_per_value_opt_in (r : VgiRuntime) (identity : list ascii) : bool :=
  bool_decide (identity ∈ rt_per_value_opt_ins r).
Definition note_per_value_opt_in (r : VgiRuntime) (identity : list ascii) : VgiRuntime :=
  set_opt_ins r ({[identity]} ∪ rt_per_value_opt_ins r).

Definition replace_session_settings (r : VgiRuntime) (s : VgiSettings) : VgiRuntime :=
  set_settings r (result_cache_limits (adapter_settings s) (rt_default_ttl r)) s.

(** The adapter settings a worker of this catalog declared for itself. *)
Definition declared_adapter_settings (r : VgiRuntime) (catalog : string) : list string :=
  flat_map (fun '(alias, metadata) =>
      if eq_ignore_ascii_case alias catalog
         || eq_ignore_ascii_case (md_worker_catalog metadata) catalog
      then map (fun s => to_ascii_lowercase (spec_name s))
             (List.filter (fun s => is_adapter_setting (spec_name s)) (md_settings metadata))
      else [])
    (map_to_list (rt_catalog_metadata r)).

(** Whether a setting takes part in the result identity of this catalog. *)
Definition identifies (r : VgiRuntime) (catalog name : string) : bool :=
  negb (is_adapter_setting name && negb (vec_contains name (declared_adapter_settings r catalog))).

(** [VgiRuntime::session_settings_identity] *)
Definition session_settings_identity (r : VgiRuntime) (catalog : string) : list ascii :=
  fold_left (fun out e => append_identity_part (append_identity_part out (bytes_of e.1)) (bytes_of e.2))
    (List.filter (fun e => identifies r catalog e.1) (sorted_values (rt_session_settings r))) [].

Definition note_exchange_cache_hit (r : VgiRuntime) (bytes_served : Z) : VgiRuntime :=
  let x := rt_exchange_cache_stats r in
  set_exchange_stats r (mkExchangeStats (u64_saturating_add (xs_hits x) 1) (xs_stores x)
                          (u64_saturating_add (xs_bytes_served x) bytes_served)).
Definition note_exchange_cache_store (r : VgiRuntime) : VgiRuntime :=
  let x := rt_exchange_cache_stats r in
  set_exchange_stats r (mkExchangeStats (xs_hits x) (u64_saturating_add (xs_stores x) 1)
                          (xs_bytes_served x)).

(** [now.duration_since(stored_at)]: saturating. *)
Definition age (now stored_at : Z) : Z := Z.max 0 (now - stored_at).

(** [VgiRuntime::plan_get] *)
Definition plan_get (now : Z) (r : VgiRuntime) (key : PlanCacheKey) : VgiRuntime * option Plan :=
  let plans := rt_plan_cache r in
  let stats := rt_plan_cache_stats r in
  let hit := cached ← plans !! key;
             if age now (cp_stored_at cached) <? cp_max_age cached then Some (cp_plan cached) else None in
  match hit with
  | Some plan =>
      (set_plans r plans (mkPlanStats (ps_hits stats + 1) (ps_misses stats) (ps_inserts stats) (size plans)),
       Some plan)
  | None =>
      let plans := delete key plans in
      (set_plans r plans (mkPlanStats (ps_hits stats) (ps_misses stats + 1) (ps_inserts stats) (size plans)),
       None)
  end.

(** [VgiRuntime::plan_insert] *)
Definition plan_insert (now : Z) (r : VgiRuntime) (key : PlanCacheKey) (plan : Plan) (max_age : Z)
    : VgiRuntime :=
  if (max_age =? 0) || negb (String.eqb (plan_scope plan) CACHE_SCOPE_CATALOG) then r
  else
    let stats := rt_plan_cache_stats r in
    let plans := <[key := mkCachedPlan plan now max_age]> (rt_plan_cache r) in
    set_plans r plans (mkPlanStats (ps_hits stats) (ps_misses stats) (ps_inserts stats + 1) (size plans)).

(** [VgiRuntime::flush_plan_cache] *)
Definition flush_plan_cache (r : VgiRuntime) : VgiRuntime * nat :=
  let stats := rt_plan_cache_stats r in
  (set_plans r ∅ (mkPlanStats (ps_hits stats) (ps_misses stats) (ps_inserts stats) 0),
   size (rt_plan_cache r)).

(** ** Event history *)

Lemma pop_while_full_spec capacity es :
  (0 < capacity)%nat -> pop_while_full capacity es = drop (S (length es) - capacity) es.
Proof.
  intros Hc. induction es as [|e es IH]; cbn [pop_while_full length].
  - destruct (Nat.leb_spec capacity 0); by rewrite drop_nil.
  - destruct (Nat.leb_spec capacity (S (length es))).
    + rewrite IH. replace (S (S (length es)) - capacity)%nat with (S (S (length es) - capacity)) by lia.
      done.
    + replace (S (S (length es)) - capacity)%nat with 0%nat by lia. done.
Qed.

Lemma emit_spec r e :
  (length (rt_events r) <= rt_event_history_capacity r)%nat ->
  rt_events (emit r e)
  = drop (length (rt_events r ++ [e]) - rt_event_history_capacity r) (rt_events r ++ [e]) /\
  rt_sink (emit r e) = (fun seen => seen ++ [e]) <$> rt_sink r /\
  rt_event_history_capacity (emit r e) = rt_event_history_capacity r.
Proof.
  intros Hle. unfold emit. cbv zeta. rewrite length_app. cbn [length].
  destruct (Nat.eqb_spec (rt_event_history_capacity r) 0) as [H0|H0]; cbn; (split; [|done]).
  - destruct (rt_events r); [|simpl in *; lia]. rewrite H0. done.
  - rewrite pop_while_full_spec by lia. rewrite drop_app_le by lia. f_equal. f_equal. lia.
Qed.

(** The event history is a bounded window. Whatever is emitted, the session
    keeps exactly the most recent [event_history_capacity] events in order of
    emission (none at all when the capacity is zero), and an installed sink has
    consumed every one of them. *)
Theorem event_history r es :
  (length (rt_events r) <= rt_event_history_capacity r)%nat ->
  let r' := fold_left emit es r in
  rt_events r' = drop (length (rt_events r ++ es) - rt_event_history_capacity r) (rt_events r ++ es) /\
  rt_sink r' = (fun seen => seen ++ es) <$> rt_sink r.
Proof.
  cbv zeta. revert r. induction es as [|e es IH]; intros r Hle; cbn [fold_left].
  - rewrite app_nil_r. replace (length (rt_events r) - _)%nat with 0%nat by lia.
    split; [done|]. destruct (rt_sink r); simpl; by rewrite ?app_nil_r.
  - destruct (emit_spec r e Hle) as (He & Hs & Hc).
    destruct (IH (emit r e)) as [He' Hs'].
    { rewrite He, length_drop, Hc, length_app. simpl. lia. }
    rewrite He', Hs', Hs, He, Hc. set (c := rt_event_history_capacity r) in *.
    split; [|destruct (rt_sink r); simpl; by rewrite <- ?app_assoc].
    rewrite <- drop_app_le by (rewrite length_app; simpl; lia).
    rewrite drop_drop, <- app_assoc. f_equal.
    rewrite length_drop, !length_app. simpl. lia.
Qed.

(** ** Catalog metadata *)

(** [ATTACH] and [DETACH] agree on an alias however it is spelled. *)
Lemma catalog_metadata_case_insensitive r alias alias' m :
  to_ascii_lowercase alias = to_ascii_lowercase alias' ->
  rt_catalog_metadata (remove_catalog_metadata (set_catalog_metadata r alias m) alias')
  = delete (to_ascii_lowercase alias) (rt_catalog_metadata r).
Proof. intros H. simpl. rewrite <- H. apply delete_insert_eq. Qed.

(** Every key of the metadata map is lowercase. *)
Definition metadata_ok (r : VgiRuntime) : Prop :=
  forall alias m, rt_catalog_metadata r !! alias = Some m -> lowercase alias.

Lemma set_catalog_metadata_ok r alias m : metadata_ok r -> metadata_ok (set_catalog_metadata r alias m).
Proof.
  intros H a m'. simpl. rewrite lookup_insert_Some. intros [[<- _]|[_ Ha]]; [|by eapply H].
  apply to_ascii_lowercase_idem.
Qed.

Lemma set_table_branches_ok r a s t b : metadata_ok r -> metadata_ok (set_table_branches r a s t b).
Proof.
  intros H a' m'. simpl. rewrite lookup_alter_Some.
  intros [(<- & m & Hm & _)|[_ Ha]]; by eapply H.
Qed.

(** Branches resolved for a mixed-case alias are not recorded. Metadata is
    stored under the lowercased alias but [set_table_branches] looks the alias
    up as written, so for an alias with an upper-case letter it changes
    nothing. *)
Theorem set_table_branches_mixed_case r alias schema table b :
  metadata_ok r -> ~ lowercase alias -> set_table_branches r alias schema table b = r.
Proof.
  intros Hok Hne. unfold set_table_branches.
  rewrite alter_id; [by destruct r|]. intros m Hm. exfalso. apply Hne. by eapply Hok.
Qed.

(** ** The split-plan cache *)

Inductive PlanOp :=
  | PlanGet (now : Z) (key : PlanCacheKey)
  | PlanInsert (now : Z) (key : PlanCacheKey) (plan : Plan) (max_age : Z)
  | PlanFlush (now : Z).

Definition op_time (op : PlanOp) : Z :=
  match op with PlanGet now _ | PlanInsert now _ _ _ | PlanFlush now => now end.

Definition run_plan_op (r : VgiRuntime) (op : PlanOp) : VgiRuntime :=
  match op with
  | PlanGet now key => (plan_get now r key).1
  | PlanInsert now key plan max_age => plan_insert now r key plan max_age
  | PlanFlush _ => (flush_plan_cache r).1
  end.

(** Specification: the latest catalog-scoped, reusable plan inserted under each
    key since the last flush. Lookups do not appear. *)
Definition plan_spec_step (m : gmap PlanCacheKey CachedPlan) (op : PlanOp)
    : gmap PlanCacheKey CachedPlan :=
  match op with
  | PlanGet _ _ => m
  | PlanInsert now key plan max_age =>
      if (max_age =? 0) || negb (String.eqb (plan_scope plan) CACHE_SCOPE_CATALOG) then m
      else <[key := mkCachedPlan plan now max_age]> m
  | PlanFlush _ => ∅
  end.
Definition plan_spec (ops : list PlanOp) : gmap PlanCacheKey CachedPlan := fold_left plan_spec_step ops ∅.

Definition fresh (now : Z) (c : CachedPlan) : option Plan :=
  if age now (cp_stored_at c) <? cp_max_age c then Some (cp_plan c) else None.

(** The cache holds what the specification holds, less expired plans that a
    lookup already dropped. *)
Record plans_agree (clock : Z) (cache spec : gmap PlanCacheKey CachedPlan) : Prop := {
  pa_sub : forall key c, cache !! key = Some c -> spec !! key = Some c;
  pa_dropped : forall key c, spec !! key = Some c -> cache !! key = None -> fresh clock c = None
}.

Lemma fresh_mono t now c : t <= now -> fresh t c = None -> fresh now c = None.
Proof.
  unfold fresh, age. intros Hle. destruct (Z.ltb_spec (Z.max 0 (t - cp_stored_at c)) (cp_max_age c)); [done|].
  destruct (Z.ltb_spec (Z.max 0 (now - cp_stored_at c)) (cp_max_age c)); [lia|done].
Qed.

Lemma plan_get_agrees clock now r spec key :
  plans_agree clock (rt_plan_cache r) spec -> clock <= now ->
  (plan_get now r key).2 = spec !! key ≫= fresh now /\
  plans_agree now (rt_plan_cache (plan_get now r key).1) spec.
Proof.
  intros [Hsub Hdrop] Hle. unfold plan_get. cbv zeta.
  change (fun cached : CachedPlan => if age now (cp_stored_at cached) <? cp_max_age cached
            then Some (cp_plan cached) else None) with (fresh now).
  assert (forall k c, spec !! k = Some c -> rt_plan_cache r !! k = None -> fresh now c = None) as Hd.
  { intros k c Hs Hn. eapply fresh_mono; [exact Hle|eauto]. }
  destruct (rt_plan_cache r !! key) as [c|] eqn:Hk; cbn [mbind option_bind].
  - rewrite (Hsub _ _ Hk). cbn [mbind option_bind]. destruct (fresh now c) as [p|] eqn:Hf; cbn.
    + split; [done|]. split; [done|]. exact Hd.
    + split; [done|]. split.
      * intros k c'. rewrite lookup_delete_Some. intros [_ H]. by apply Hsub.
      * intros k c' Hs. rewrite lookup_delete_None. intros [<-|Hn]; [|by eapply Hd].
        rewrite (Hsub _ _ Hk) in Hs. by simplify_eq.
  - cbn. rewrite delete_id by done. split.
    + destruct (spec !! key) as [c|] eqn:Hs; cbn; [|done]. symmetry. by eapply Hd.
    + split; [done|]. exact Hd.
Qed.

Lemma run_plan_op_agrees clock r spec op :
  plans_agree clock (rt_plan_cache r) spec -> clock <= op_time op ->
  plans_agree (op_time op) (rt_plan_cache (run_plan_op r op)) (plan_spec_step spec op).
Proof.
  intros Ha Hle. destruct op as [now key|now key plan max_age|now]; cbn [op_time run_plan_op plan_spec_step] in *.
  - by eapply plan_get_agrees.
  - destruct Ha as [Hsub Hdrop]. unfold plan_insert. destruct (_ || _); cbn.
    + split; [done|]. intros k c Hs Hn. eapply fresh_mono; eauto.
    + split.
      * intros k c. rewrite !lookup_insert_Some. intros [[<- <-]|[Hne H]]; [by left|right; eauto].
      * intros k c. rewrite lookup_insert_Some, lookup_insert_None.
        intros [[<- <-]|[Hne H]] [Hn Hne']; [done|]. eapply fresh_mono; eauto.
  - split; intros k c; cbn; by rewrite lookup_empty.
Qed.

(** A reused split plan is the current one. After any run of lookups,
    insertions and flushes at non-decreasing times, a lookup returns the plan
    most recently inserted for that exact key since the last flush, provided
    it was catalog-scoped and reusable and is younger than its maximum age, and
    otherwise nothing; lookups never change what later lookups return. *)
Theorem plan_cache_refines r ops now key :
  rt_plan_cache r = ∅ -> StronglySorted Z.le (map op_time ops) ->
  Forall (fun op => op_time op <= now) ops ->
  (plan_get now (fold_left run_plan_op ops r) key).2 = plan_spec ops !! key ≫= fresh now.
Proof.
  intros Hr Hsort Hnow.
  assert (forall ops r spec clock, plans_agree clock (rt_plan_cache r) spec ->
    Forall (fun op => clock <= op_time op) ops -> StronglySorted Z.le (map op_time ops) ->
    Forall (fun op => op_time op <= now) ops -> clock <= now ->
    (plan_get now (fold_left run_plan_op ops r) key).2
    = fold_left plan_spec_step ops spec !! key ≫= fresh now) as Hgen.
  { clear. intros ops. induction ops as [|op ops IH]; intros r spec clock Ha Hge Hs Hn Hle; cbn [fold_left].
    - by eapply plan_get_agrees.
    - inversion Hge as [|? ? H1 H2]; subst. inversion Hn as [|? ? H3 H4]; subst.
      inversion Hs as [|? ? H5 H6]; subst. apply (IH _ _ (op_time op)); try done.
      + by apply (run_plan_op_agrees clock).
      + by rewrite Forall_map in H6. }
  destruct ops as [|op ops].
  - apply (Hgen [] r ∅ now); try done. by rewrite Hr.
  - inversion Hsort as [|? ? H5 H6]; subst. inversion Hnow as [|? ? H3 H4]; subst.
    apply (Hgen (op :: ops) r ∅ (op_time op)); try done.
    + by rewrite Hr.
    + constructor; [done|]. by rewrite Forall_map in H6.
Qed.

(** The counters: every lookup is a hit or a miss, and [entries] is the number
    of plans held. *)
Lemma plan_stats_step r op :
  ps_entries (rt_plan_cache_stats r) = size (rt_plan_cache r) ->
  ps_entries (rt_plan_cache_stats (run_plan_op r op)) = size (rt_plan_cache (run_plan_op r op)) /\
  ps_hits (rt_plan_cache_stats (run_plan_op r op)) + ps_misses (rt_plan_cache_stats (run_plan_op r op))
  = ps_hits (rt_plan_cache_stats r) + ps_misses (rt_plan_cache_stats r)
    + match op with PlanGet _ _ => 1 | _ => 0 end.
Proof.
  intros He. destruct op as [now key|now key plan max_age|now]; cbn [run_plan_op].
  - unfold plan_get. cbv zeta. destruct (_ ≫= _); cbn; split; lia.
  - unfold plan_insert. destruct (_ || _); cbn; split; lia.
  - cbn. split; [|lia]. by rewrite map_size_empty.
Qed.

(** ** The settings part of a result's identity *)

Definition identity_entries (r : VgiRuntime) (catalog : string) : list (string * string) :=
  List.filter (fun e => identifies r catalog e.1) (sorted_values (rt_session_settings r)).

Lemma settings_identity_parts r catalog :
  session_settings_identity r catalog
  = identity_parts (flat_map (fun e => [bytes_of e.1; bytes_of e.2]) (identity_entries r catalog)).
Proof.
  unfold session_settings_identity, identity_entries.
  set (l := List.filter _ _). clearbody l.
  rewrite <- (app_nil_l (identity_parts _)). generalize ([] : list ascii).
  induction l as [|[n v] l IH]; intros out; cbn [fold_left flat_map].
  - unfold identity_parts. simpl. by rewrite app_nil_r.
  - rewrite IH. unfold append_identity_part, identity_parts. cbn [app map concat fst snd].
    by rewrite <- !app_assoc.
Qed.

(** Names and values are in memory. *)
Definition settings_addressable (s : VgiSettings) : Prop :=
  forall name v, values s !! name = Some v -> addressable (bytes_of name) /\ addressable (bytes_of v).

Lemma identity_entries_addressable r catalog :
  settings_addressable (rt_session_settings r) ->
  Forall addressable (flat_map (fun e => [bytes_of e.1; bytes_of e.2]) (identity_entries r catalog)).
Proof.
  intros H. apply Forall_forall. intros b [e [He Hb]]%list_elem_of_In%in_flat_map.
  apply filter_In in He as [He%list_elem_of_In _]. destruct e as [n v].
  apply elem_of_sorted_values, H in He as [??]. simpl in Hb. by destruct Hb as [<-|[<-|[]]].
Qed.

Lemma flat_pairs_inj (l k : list (string * string)) :
  flat_map (fun e => [bytes_of e.1; bytes_of e.2]) l = flat_map (fun e => [bytes_of e.1; bytes_of e.2]) k ->
  l = k.
Proof.
  revert k. induction l as [|[n v] l IH]; intros [|[n' v'] k]; simpl; try done.
  intros [= ->%(inj bytes_of) ->%(inj bytes_of) H]. by rewrite (IH k).
Qed.

Lemma settings_identity_iff r1 r2 catalog :
  settings_addressable (rt_session_settings r1) -> settings_addressable (rt_session_settings r2) ->
  rt_catalog_metadata r1 = rt_catalog_metadata r2 ->
  session_settings_identity r1 catalog = session_settings_identity r2 catalog <->
  forall name, identifies r1 catalog name = true ->
    values (rt_session_settings r1) !! name = values (rt_session_settings r2) !! name.
Proof.
  intros H1 H2 Hm.
  assert (identifies r1 catalog = identifies r2 catalog) as Hid.
  { unfold identifies, declared_adapter_settings. by rewrite Hm. }
  rewrite !settings_identity_parts, <- sorted_values_agree.
  unfold identity_entries. rewrite <- Hid. split; [|by intros ->].
  intros Heq. apply flat_pairs_inj, identity_parts_inj; [|rewrite Hid|done];
    by apply identity_entries_addressable.
Qed.

(** The settings identity is exact. With the same attached catalogs, two
    sessions have the same settings identity for a catalog exactly when they
    agree on every setting that can change its results: all settings except
    the adapter's own tuning knobs that no worker of this catalog declared. *)
Theorem settings_identity_exact r1 r2 catalog :
  settings_addressable (rt_session_settings r1) -> settings_addressable (rt_session_settings r2) ->
  rt_catalog_metadata r1 = rt_catalog_metadata r2 ->
  session_settings_identity r1 catalog = session_settings_identity r2 catalog <->
  forall name,
    is_adapter_setting name = false \/ name ∈ declared_adapter_settings r1 catalog ->
    values (rt_session_settings r1) !! name = values (rt_session_settings r2) !! name.
Proof.
  intros H1 H2 Hm. rewrite settings_identity_iff by done.
  assert (forall name, identifies r1 catalog name = true <->
    is_adapter_setting name = false \/ name ∈ declared_adapter_settings r1 catalog) as Hid.
  { intros name. unfold identifies, vec_contains.
    rewrite negb_true_iff, andb_false_iff, negb_false_iff, bool_decide_eq_true. done. }
  split; intros H name Hn; by apply H, Hid.
Qed.

Lemma declared_identifies r catalog alias m d :
  rt_catalog_metadata r !! alias = Some m -> eq_ignore_ascii_case alias catalog = true ->
  d ∈ md_settings m ->
  identifies r catalog (to_ascii_lowercase (spec_name d)) = true.
Proof.
  intros Hm Ha Hd. unfold identifies, vec_contains.
  rewrite negb_true_iff, andb_false_iff, negb_false_iff, bool_decide_eq_true.
  assert (is_adapter_setting (to_ascii_lowercase (spec_name d)) = is_adapter_setting (spec_name d)) as ->.
  { unfold is_adapter_setting, is_adapter_boolean_setting, is_adapter_usize_setting.
    simpl existsb. by rewrite !eq_ignore_ascii_case_lower. }
  destruct (is_adapter_setting (spec_name d)) eqn:Had; [right|by left].
  apply list_elem_of_In, in_flat_map. exists (alias, m). split.
  - by apply list_elem_of_In, elem_of_map_to_list.
  - rewrite Ha. simpl. apply in_map_iff. exists d. split; [done|].
    apply filter_In. split; [by apply list_elem_of_In|done].
Qed.

(** Equal identities mean equal wire settings. When two sessions share a
    settings identity for an attached catalog, the settings batch either would
    send to that catalog's worker is the same, so a result cached by one is a
    result the other's worker call could have produced. *)
Theorem settings_identity_determines_wire {Text Bytes : Type}
    `{AK : !ArrowKernel Text Bytes} `{SK : !SettingKernel Text} r1 r2 catalog alias m :
  settings_addressable (rt_session_settings r1) -> settings_addressable (rt_session_settings r2) ->
  rt_catalog_metadata r1 = rt_catalog_metadata r2 ->
  rt_catalog_metadata r1 !! alias = Some m -> eq_ignore_ascii_case alias catalog = true ->
  session_settings_identity r1 catalog = session_settings_identity r2 catalog ->
  encode_settings (rt_session_settings r1) (md_settings m)
  = encode_settings (rt_session_settings r2) (md_settings m).
Proof.
  intros H1 H2 Hmeta Ha Hc Hid.
  pose proof (proj1 (settings_identity_iff r1 r2 catalog H1 H2 Hmeta) Hid) as Hsame.
  assert (Forall (fun d => encode_declaration (rt_session_settings r1) d
                           = encode_declaration (rt_session_settings r2) d) (md_settings m)) as Hall.
  { apply Forall_forall. intros d Hd. unfold encode_declaration, get_setting.
    rewrite Hsame; [done|]. by eapply declared_identifies. }
  unfold encode_settings, encode_columns. f_equal. f_equal.
  induction Hall as [|d ds Hd _ IH]; [done|]. cbn [omap list_omap]. by rewrite Hd, IH.
Qed.
End Runtime.
