(* ===== verification/RuntimeExamples.v ===== *)
(** * Concrete runs of the session runtime

    The properties of [Runtime.v] applied to concrete states. *)

From S2P Require Import Prelude Arrow Text Identity Settings Runtime KernelModel.
From Stdlib Require Import Strings.Ascii.

#[local] Open Scope Z_scope.

(** A cast kernel: every string casts, to a scalar of the declared type. *)
#[export] Instance model_setting_kernel : SettingKernel Json.json := {
  try_from_string s ty := Ok (SVPrim ty (Some (PString s)));
  try_new_null ty := Ok (SVPrim ty None);
  struct_array_new fs arrays := Ok (SVStruct fs [Some (flat_map array_values arrays)]);
  json_text j := match Json.as_str j with Some s => s | None => "" end;
  json_parse s := Ok (Json.JStr s);
  display_type ty := "type";
  error_text e := "error"
}.

(** Plans are their scope. *)
Definition ex_runtime : VgiRuntime (Plan := string) (Branches := nat) :=
  new_runtime true 2 (mkLimits 64 256 10 5) true.

Definition ev (kind : string) : VgiEvent := new_event 0 kind.

Lemma event_history_witness :
  rt_events (fold_left emit [ev "a"; ev "b"; ev "c"] ex_runtime) = [ev "b"; ev "c"] /\
  rt_sink (fold_left emit [ev "a"; ev "b"; ev "c"] ex_runtime) = Some [ev "a"; ev "b"; ev "c"].
Proof.
  apply (event_history ex_runtime [ev "a"; ev "b"; ev "c"]). vm_compute. lia.
Defined.

Definition ex_metadata : VgiCatalogMetadata (Branches := nat) :=
  mkMetadata "Worker" [mkSpec "multiplier" Int64; mkSpec "VGI_exchange_input_dedup" Utf8] ∅.
Definition ex_attached : VgiRuntime (Plan := string) (Branches := nat) :=
  set_catalog_metadata ex_runtime "MyCat" ex_metadata.

Lemma set_table_branches_mixed_case_witness :
  rt_catalog_metadata ex_attached !! "mycat" = Some ex_metadata /\
  set_table_branches ex_attached "MyCat" "main" "t" 7%nat = ex_attached.
Proof.
  split; [vm_compute; reflexivity|].
  apply (set_table_branches_mixed_case ex_attached "MyCat" "main" "t" 7%nat).
  - apply set_catalog_metadata_ok. intros a m. cbn. by rewrite lookup_empty.
  - vm_compute. discriminate.
Defined.

Definition ex_key (f : string) : PlanCacheKey :=
  mkPlanKey "id" "worker" f [] None None None None None 4 1 None [] [].
Definition ex_plan_ops : list (PlanOp (Plan := string)) :=
  [PlanInsert 1 (ex_key "f") "catalog" 10; PlanGet 2 (ex_key "f"); PlanInsert 3 (ex_key "g") "transaction" 10;
   PlanGet 12 (ex_key "f"); PlanInsert 13 (ex_key "f") "catalog" 10].

Lemma plan_cache_refines_witness :
  (plan_get 20 (fold_left (run_plan_op (fun p => p) "catalog") ex_plan_ops ex_runtime) (ex_key "f")).2
  = Some "catalog".
Proof.
  rewrite (plan_cache_refines (fun p => p) "catalog" ex_runtime ex_plan_ops 20 (ex_key "f")).
  - vm_compute. reflexivity.
  - reflexivity.
  - repeat constructor; vm_compute; discriminate.
  - repeat constructor; vm_compute; discriminate.
Defined.

Definition with_setting (name value : string) : VgiRuntime (Plan := string) (Branches := nat) :=
  replace_session_settings ex_attached
    (apply_op (rt_session_settings ex_attached) (SetOp name value)).

(** Turning a local knob keeps the identity; it is not declared by [MyCat]. *)
Definition ex_local1 := with_setting "vgi_result_cache_per_value" "on".
Definition ex_local2 := with_setting "vgi_result_cache_per_value" "off".

Lemma addressable_values (s : VgiSettings) :
  forallb (fun e => (length (bytes_of e.1) <? 1000)%nat && (length (bytes_of e.2) <? 1000)%nat)
    (map_to_list (values s)) = true -> settings_addressable s.
Proof.
  rewrite forallb_forall. intros H n v Hv. apply elem_of_map_to_list, list_elem_of_In, H in Hv.
  apply andb_true_iff in Hv as [H1%Nat.ltb_lt H2%Nat.ltb_lt]. simpl in *.
  unfold addressable, u64_modulus. lia.
Qed.

Lemma settings_identity_exact_witness :
  session_settings_identity ex_local1 "mycat" = session_settings_identity ex_local2 "mycat"
  /\ values (rt_session_settings ex_local1) !! "vgi_result_cache_per_value"
     <> values (rt_session_settings ex_local2) !! "vgi_result_cache_per_value".
Proof.
  split; [|vm_compute; discriminate].
  apply (settings_identity_exact ex_local1 ex_local2 "mycat").
  - apply addressable_values. vm_compute. reflexivity.
  - apply addressable_values. vm_compute. reflexivity.
  - reflexivity.
  - intros name Hname.
    destruct (decide (name = "vgi_result_cache_per_value")) as [->|Hne].
    + exfalso. destruct Hname as [Hname|Hname]; [by vm_compute in Hname|].
      apply (bool_decide_eq_true_2 _) in Hname. by vm_compute in Hname.
    + assert (values (rt_session_settings ex_local1)
              = <["vgi_result_cache_per_value" := "true"]> (values (rt_session_settings ex_attached)))
        as -> by (vm_compute; reflexivity).
      assert (values (rt_session_settings ex_local2)
              = <["vgi_result_cache_per_value" := "false"]> (values (rt_session_settings ex_attached)))
        as -> by (vm_compute; reflexivity).
      by rewrite !lookup_insert_ne by done.
Defined.

Lemma settings_identity_determines_wire_witness :
  encode_settings (rt_session_settings ex_local1) (md_settings ex_metadata)
  = encode_settings (rt_session_settings ex_local2) (md_settings ex_metadata).
Proof.
  apply (settings_identity_determines_wire ex_local1 ex_local2 "mycat" "mycat" ex_metadata).
  - apply addressable_values. vm_compute. reflexivity.
  - apply addressable_values. vm_compute. reflexivity.
  - reflexivity.
  - vm_compute. reflexivity.
  - reflexivity.
  - vm_compute. reflexivity.
Defined.
