(* ===== verification/ResultFlight.v ===== *)
(** * In-flight result coalescing (src/src/runtime.rs)

    [ResultFlightRegistry], [ResultFlightProducer] and [ResultFlightWaiter]:
    the first claimant of a cache key produces, later claimants wait for its
    outcome. The three effects of finishing (leaving the registry, publishing
    to blocking waiters, publishing to asynchronous waiters) take separate
    locks, so they are separate steps that interleave with every other thread's
    steps. *)

From S2P Require Import Prelude.

Inductive ResultFlightOutcome :=
  | Stored
  | Aborted (reason : string).

#[export] Instance ResultFlightOutcome_eq_dec : EqDecision ResultFlightOutcome.
Proof. solve_decision. Defined.

(** [ResultFlight]; an [Arc] is the identifier the state gives it. *)
Record ResultFlight := mkFlight {
  outcome : option ResultFlightOutcome;
  blocking_outcome : option ResultFlightOutcome
}.

(** Where the one thread inside [ResultFlightProducer::finish] is. *)
Inductive FinishPc :=
  | Running
  | Leaving (o : ResultFlightOutcome)
  | Publishing (o : ResultFlightOutcome)
  | Waking (o : ResultFlightOutcome)
  | Finished (o : ResultFlightOutcome).

Section Flights.
Context {K : Type} `{!EqDecision K} `{!Countable K}.

(** [ResultFlightProducer]; [finished] is [producer_pc <> Running]. *)
Record ResultFlightProducer := mkProducer {
  producer_key : K;
  producer_flight : nat;
  producer_pc : FinishPc
}.

(** [flights] is the registry's map; [registry_alive] whether a [Weak] to it
    upgrades; [producers] is indexed like the flights, one each. *)
Record Registry := mkRegistry {
  registry_alive : bool;
  flights : gmap K nat;
  shared : gmap nat ResultFlight;
  producers : gmap nat ResultFlightProducer;
  next_id : nat
}.

Definition new_registry : Registry := mkRegistry true ∅ ∅ ∅ 0.

Inductive ResultFlightClaim :=
  | Producer (p : nat)
  | Follower (flight : nat).

(** [ResultFlightRegistry::acquire]: one critical section. *)
Definition acquire (s : Registry) (key : K) : Registry * ResultFlightClaim :=
  match flights s !! key with
  | Some f => (s, Follower f)
  | None =>
      let id := next_id s in
      (mkRegistry (registry_alive s) (<[key := id]> (flights s))
         (<[id := mkFlight None None]> (shared s))
         (<[id := mkProducer key id Running]> (producers s)) (S id),
       Producer id)
  end.

Definition set_pc (s : Registry) (p : nat) (pc : FinishPc) : Registry :=
  mkRegistry (registry_alive s) (flights s) (shared s)
    (alter (fun q => mkProducer (producer_key q) (producer_flight q) pc) p (producers s)) (next_id s).

(** [ResultFlightProducer::finish] up to the registry call: the [finished]
    flag decides, and a dead registry is skipped. Also the body of [Drop],
    whose outcome is [Aborted "cache producer dropped"]. *)
Definition begin_finish (s : Registry) (p : nat) (o : ResultFlightOutcome) : Registry :=
  match producers s !! p with
  | Some (mkProducer _ _ Running) => set_pc s p (if registry_alive s then Leaving o else Publishing o)
  | _ => s
  end.

(** [ResultFlightRegistry::finish], first critical section: remove the key if
    it still names this very flight. *)
Definition leave_registry (s : Registry) (p : nat) : Registry :=
  match producers s !! p with
  | Some (mkProducer key f (Leaving o)) =>
      let s := set_pc s p (Publishing o) in
      if bool_decide (flights s !! key = Some f)
      then mkRegistry (registry_alive s) (delete key (flights s)) (shared s) (producers s) (next_id s)
      else s
  | _ => s
  end.

(** [*blocking_outcome.lock() = Some(outcome); notify_all()] *)
Definition publish_blocking (s : Registry) (p : nat) : Registry :=
  match producers s !! p with
  | Some (mkProducer key f (Publishing o)) =>
      let s := set_pc s p (Waking o) in
      mkRegistry (registry_alive s) (flights s)
        (alter (fun x => mkFlight (outcome x) (Some o)) f (shared s)) (producers s) (next_id s)
  | _ => s
  end.

(** [outcome.send_replace(Some(outcome))] *)
Definition publish_watch (s : Registry) (p : nat) : Registry :=
  match producers s !! p with
  | Some (mkProducer key f (Waking o)) =>
      let s := set_pc s p (Finished o) in
      mkRegistry (registry_alive s) (flights s)
        (alter (fun x => mkFlight (Some o) (blocking_outcome x)) f (shared s)) (producers s) (next_id s)
  | _ => s
  end.

Definition drop_registry (s : Registry) : Registry :=
  mkRegistry false (flights s) (shared s) (producers s) (next_id s).

(** The calls, run to completion by one thread. *)
Definition finish (s : Registry) (p : nat) (o : ResultFlightOutcome) : Registry :=
  publish_watch (publish_blocking (leave_registry (begin_finish s p o) p) p) p.
Definition stored (s : Registry) (p : nat) : Registry := finish s p Stored.
Definition abort (s : Registry) (p : nat) (reason : string) : Registry := finish s p (Aborted reason).
Definition drop_producer (s : Registry) (p : nat) : Registry :=
  finish s p (Aborted "cache producer dropped").

(** What one look of [wait_blocking_timeout] and of [wait] at their flight
    finds; on [None] the caller sleeps until notified (or its deadline). *)
Definition poll_blocking (s : Registry) (f : nat) : option ResultFlightOutcome :=
  shared s !! f ≫= blocking_outcome.
Definition poll_watch (s : Registry) (f : nat) : option ResultFlightOutcome :=
  shared s !! f ≫= outcome.

(** ** The step relation *)

Inductive step : Registry -> Registry -> Prop :=
  | step_acquire s key : registry_alive s = true -> step s (acquire s key).1
  | step_begin s p o : step s (begin_finish s p o)
  | step_leave s p : step s (leave_registry s p)
  | step_publish s p : step s (publish_blocking s p)
  | step_wake s p : step s (publish_watch s p)
  | step_drop_registry s : step s (drop_registry s).

Definition reachable : Registry -> Prop := rtc step new_registry.

(** ** The invariant *)

Definition published_blocking (pc : FinishPc) : option ResultFlightOutcome :=
  match pc with Waking o | Finished o => Some o | _ => None end.
Definition published_watch (pc : FinishPc) : option ResultFlightOutcome :=
  match pc with Finished o => Some o | _ => None end.
Definition registered (pc : FinishPc) : bool :=
  match pc with Running | Leaving _ => true | _ => false end.

Record flight_inv (s : Registry) : Prop := {
  (** ids are fresh *)
  fi_next : forall p, (next_id s <= p)%nat -> producers s !! p = None /\ shared s !! p = None;
  (** a producer's flight is its own, and shows what it has published *)
  fi_producer : forall p q, producers s !! p = Some q ->
    producer_flight q = p /\
    shared s !! p = Some (mkFlight (published_watch (producer_pc q)) (published_blocking (producer_pc q)));
  (** every flight has a producer *)
  fi_flight : forall f x, shared s !! f = Some x -> is_Some (producers s !! f);
  (** a registered flight's producer still has to leave *)
  fi_registered : forall key f, flights s !! key = Some f ->
    exists q, producers s !! f = Some q /\ producer_key q = key /\
      (registry_alive s = true -> registered (producer_pc q) = true);
  (** and a producer that has not left is registered *)
  fi_leaving : forall p q, producers s !! p = Some q -> registered (producer_pc q) = true ->
    flights s !! producer_key q = Some p
}.

Lemma new_registry_inv : flight_inv new_registry.
Proof. split; simpl; intros *; rewrite ?lookup_empty; done. Qed.

(** Moving one producer to [pc], showing what it has then published, and
    removing its key when it leaves a live registry. *)
Lemma advance_inv s p q pc flights' :
  flight_inv s -> producers s !! p = Some q ->
  (flights' = flights s /\
     (registered pc = registered (producer_pc q) \/ registry_alive s = false /\ registered pc = false)
   \/ flights' = delete (producer_key q) (flights s) /\ registered (producer_pc q) = true
      /\ registered pc = false) ->
  flight_inv (mkRegistry (registry_alive s) flights'
    (<[p := mkFlight (published_watch pc) (published_blocking pc)]> (shared s))
    (<[p := mkProducer (producer_key q) p pc]> (producers s)) (next_id s)).
Proof.
  intros [Hn Hp Hf Hr Hl] Hq Hfl.
  assert (p < next_id s)%nat as Hlt.
  { destruct (decide (next_id s <= p)%nat) as [Hge|]; [|lia]. apply Hn in Hge as [Hge _]. congruence. }
  split; simpl.
  - intros p' Hp'. rewrite !lookup_insert_ne by lia. by apply Hn.
  - intros p' q'. rewrite lookup_insert_Some. intros [[<- <-]|[Hne Hq']].
    + simpl. rewrite lookup_insert_eq. done.
    + rewrite lookup_insert_ne by done. by apply Hp.
  - intros f x. rewrite !lookup_insert_Some, lookup_insert_is_Some'.
    intros [[<- _]|[_ H]]; [by left|right; eauto].
  - intros key f Hkf. assert (flights s !! key = Some f) as Hkf'.
    { destruct Hfl as [[-> _]|(-> & _ & _)]; [done|]. by apply lookup_delete_Some in Hkf as [_ ?]. }
    destruct (Hr key f Hkf') as (q0 & Hq0 & Hkey & Halive).
    destruct (decide (p = f)) as [<-|Hne]; [|exists q0; by rewrite lookup_insert_ne].
    rewrite Hq in Hq0. injection Hq0 as <-. rewrite lookup_insert_eq.
    eexists. split; [done|]. split; [done|]. simpl. intros Ha.
    destruct Hfl as [[_ [->|[? _]]]|(-> & _ & _)]; [auto|congruence|].
    apply lookup_delete_Some in Hkf as [Hk _]. by rewrite Hkey in Hk.
  - intros p' q'. rewrite lookup_insert_Some. intros [[<- <-]|[Hne Hq']] Hreg; simpl in *.
    + destruct Hfl as [[-> [Heq|[_ H]]]|(_ & _ & H)]; [|congruence..]. apply (Hl p q Hq). congruence.
    + destruct Hfl as [[-> _]|(-> & Hqr & _)]; [by apply Hl|].
      apply lookup_delete_Some. split; [|by apply Hl]. intros Hk. apply Hne.
      pose proof (Hl p q Hq Hqr) as H1. pose proof (Hl p' q' Hq' Hreg) as H2. congruence.
Qed.

(** The four transitions as moves of the program counter. *)
Lemma begin_finish_advance s p o :
  flight_inv s ->
  begin_finish s p o = s \/
  exists q, producers s !! p = Some q /\ producer_pc q = Running /\
    let pc := if registry_alive s then Leaving o else Publishing o in
    begin_finish s p o =
    mkRegistry (registry_alive s) (flights s)
      (<[p := mkFlight (published_watch pc) (published_blocking pc)]> (shared s))
      (<[p := mkProducer (producer_key q) p pc]> (producers s)) (next_id s).
Proof.
  intros Hinv. unfold begin_finish. destruct (producers s !! p) as [[key f pc]|] eqn:Hq; [|by left].
  destruct pc; try by left. right. destruct (fi_producer s Hinv p _ Hq) as [Hf Hs]. simpl in Hf, Hs.
  subst f. eexists. split; [done|]. split; [done|]. cbv zeta. unfold set_pc.
  rewrite insert_id by (by destruct (registry_alive s)).
  f_equal. apply map_eq. intros i. rewrite lookup_alter, lookup_insert.
  case_decide as Hi; [subst; by rewrite Hq|done].
Qed.

Lemma leave_registry_advance s p :
  flight_inv s ->
  leave_registry s p = s \/
  exists q o, producers s !! p = Some q /\ producer_pc q = Leaving o /\
    leave_registry s p =
    mkRegistry (registry_alive s) (delete (producer_key q) (flights s))
      (<[p := mkFlight (published_watch (Publishing o)) (published_blocking (Publishing o))]> (shared s))
      (<[p := mkProducer (producer_key q) p (Publishing o)]> (producers s)) (next_id s).
Proof.
  intros Hinv. unfold leave_registry. destruct (producers s !! p) as [[key f pc]|] eqn:Hq; [|by left].
  destruct pc as [|o|o|o|o]; try by left. right.
  destruct (fi_producer s Hinv p _ Hq) as [Hf Hs]. simpl in Hf, Hs. subst f.
  pose proof (fi_leaving s Hinv p _ Hq eq_refl) as Hl. simpl in Hl.
  eexists _, o. split; [done|]. split; [done|]. cbv zeta. simpl flights.
  rewrite bool_decide_true by done. unfold set_pc. simpl.
  rewrite insert_id by done. f_equal. apply map_eq. intros i.
  rewrite lookup_alter, lookup_insert. case_decide as Hi; [subst; by rewrite Hq|done].
Qed.

Lemma publish_advance s p (wake : bool) :
  flight_inv s ->
  let s' := if wake then publish_watch s p else publish_blocking s p in
  s' = s \/
  exists q o, producers s !! p = Some q /\
    producer_pc q = (if wake then Waking o else Publishing o) /\
    let pc := if wake then Finished o else Waking o in
    s' =
    mkRegistry (registry_alive s) (flights s)
      (<[p := mkFlight (published_watch pc) (published_blocking pc)]> (shared s))
      (<[p := mkProducer (producer_key q) p pc]> (producers s)) (next_id s).
Proof.
  intros Hinv. cbv zeta. unfold publish_watch, publish_blocking.
  destruct (producers s !! p) as [[key f pc]|] eqn:Hq; [|destruct wake; by left].
  destruct (fi_producer s Hinv p _ Hq) as [Hf Hs]. simpl in Hf, Hs. subst f.
  destruct wake, pc as [|o|o|o|o]; try (by left).
  all: right; eexists _, o; (split; [done|]); (split; [done|]); unfold set_pc; simpl; f_equal;
    apply map_eq; intros i; rewrite lookup_alter, lookup_insert;
    (case_decide as Hi; [subst; by rewrite ?Hq, ?Hs|done]).
Qed.

Lemma step_inv s s' : flight_inv s -> step s s' -> flight_inv s'.
Proof.
  intros Hinv Hstep. destruct Hstep as [s key Ha|s p o|s p|s p|s p|s].
  - unfold acquire. destruct (flights s !! key) as [f|] eqn:Hk; [done|].
    destruct Hinv as [Hn Hp Hf Hr Hl]. destruct (Hn (next_id s) ltac:(lia)) as [Hn1 Hn2].
    split; simpl.
    + intros p Hle. rewrite !lookup_insert_ne by lia. apply Hn. lia.
    + intros p q. rewrite lookup_insert_Some. intros [[<- <-]|[Hne Hq]].
      * by rewrite lookup_insert_eq.
      * rewrite lookup_insert_ne by done. by apply Hp.
    + intros f x. rewrite !lookup_insert_Some, lookup_insert_is_Some'.
      intros [[<- _]|[_ H]]; [by left|right; eauto].
    + intros k f. rewrite lookup_insert_Some. intros [[<- <-]|[Hne Hkf]].
      * eexists. by rewrite lookup_insert_eq.
      * destruct (Hr k f Hkf) as (q & Hq & ?). exists q. rewrite lookup_insert_ne; [done|]. congruence.
    + intros p q. rewrite lookup_insert_Some. intros [[<- <-]|[Hne Hq]] Hreg; simpl.
      * by rewrite lookup_insert_eq.
      * pose proof (Hl p q Hq Hreg) as Hpq. rewrite lookup_insert_ne; [done|]. congruence.
  - destruct (begin_finish_advance s p o Hinv) as [->|(q & Hq & Hpc & ->)]; [done|].
    apply advance_inv; [done..|]. left. split; [done|]. rewrite Hpc.
    destruct (registry_alive s); [by left|by right].
  - destruct (leave_registry_advance s p Hinv) as [->|(q & o & Hq & Hpc & ->)]; [done|].
    apply advance_inv; [done..|]. right. by rewrite Hpc.
  - destruct (publish_advance s p false Hinv) as [->|(q & o & Hq & Hpc & ->)]; [done|].
    apply advance_inv; [done..|]. left. split; [done|]. left. by rewrite Hpc.
  - destruct (publish_advance s p true Hinv) as [->|(q & o & Hq & Hpc & ->)]; [done|].
    apply advance_inv; [done..|]. left. split; [done|]. left. by rewrite Hpc.
  - destruct Hinv as [Hn Hp Hf Hr Hl]. split; simpl; try done.
    intros key f Hk. destruct (Hr key f Hk) as (q & Hq & Hkey & _). exists q. done.
Qed.

Lemma reachable_inv s : reachable s -> flight_inv s.
Proof.
  intros H. refine (rtc_ind_r flight_inv new_registry new_registry_inv _ s H).
  intros s1 s2 _ Hstep Hinv. by eapply step_inv.
Qed.

(** ** What claimants may rely on *)

(** No step takes an outcome back. *)
Lemma step_poll_stable s s' f o :
  flight_inv s -> step s s' ->
  (poll_blocking s f = Some o -> poll_blocking s' f = Some o) /\
  (poll_watch s f = Some o -> poll_watch s' f = Some o).
Proof.
  intros Hinv Hstep. unfold poll_blocking, poll_watch.
  assert (forall p q pc fl, producers s !! p = Some q ->
    (forall o', published_blocking (producer_pc q) = Some o' -> published_blocking pc = Some o') ->
    (forall o', published_watch (producer_pc q) = Some o' -> published_watch pc = Some o') ->
    let s' := mkRegistry (registry_alive s) fl
      (<[p := mkFlight (published_watch pc) (published_blocking pc)]> (shared s))
      (<[p := mkProducer (producer_key q) p pc]> (producers s)) (next_id s) in
    (shared s !! f ≫= blocking_outcome = Some o -> shared s' !! f ≫= blocking_outcome = Some o) /\
    (shared s !! f ≫= outcome = Some o -> shared s' !! f ≫= outcome = Some o)) as Hadv.
  { intros p q pc fl Hq Hb Hw. simpl. destruct (fi_producer s Hinv p q Hq) as [_ Hs].
    destruct (decide (p = f)) as [->|Hne]; [|by rewrite lookup_insert_ne].
    rewrite lookup_insert_eq, Hs. simpl. auto. }
  destruct Hstep as [s key Ha|s p o'|s p|s p|s p|s].
  - unfold acquire. destruct (flights s !! key); [done|]. simpl.
    destruct (decide (next_id s = f)) as [<-|Hne]; [|by rewrite lookup_insert_ne].
    destruct (fi_next s Hinv (next_id s) ltac:(lia)) as [_ ->]. done.
  - destruct (begin_finish_advance s p o' Hinv) as [->|(q & Hq & Hpc & ->)]; [done|].
    apply (Hadv p q); [done|by rewrite Hpc..].
  - destruct (leave_registry_advance s p Hinv) as [->|(q & o' & Hq & Hpc & ->)]; [done|].
    apply (Hadv p q); [done|by rewrite Hpc..].
  - destruct (publish_advance s p false Hinv) as [->|(q & o' & Hq & Hpc & ->)]; [done|].
    apply (Hadv p q); [done|by rewrite Hpc..].
  - destruct (publish_advance s p true Hinv) as [->|(q & o' & Hq & Hpc & ->)]; [done|].
    apply (Hadv p q); [done|by rewrite Hpc..].
  - done.
Qed.

(** One producer per key. In every reachable state of a live registry, two
    producers of the same key that have not yet left the registry are the same
    producer, and every later claimant of that key is told to follow it. *)
Theorem single_producer s p1 p2 q1 q2 :
  reachable s -> registry_alive s = true ->
  producers s !! p1 = Some q1 -> producers s !! p2 = Some q2 ->
  producer_pc q1 = Running -> producer_pc q2 = Running -> producer_key q1 = producer_key q2 ->
  p1 = p2 /\ (acquire s (producer_key q1)).2 = Follower p1.
Proof.
  intros Hr _ H1 H2 Hpc1 Hpc2 Hkey. apply reachable_inv in Hr.
  pose proof (fi_leaving s Hr p1 q1 H1) as Hl1. pose proof (fi_leaving s Hr p2 q2 H2) as Hl2.
  rewrite Hpc1 in Hl1. rewrite Hpc2 in Hl2. specialize (Hl1 eq_refl). specialize (Hl2 eq_refl).
  split; [congruence|]. unfold acquire. by rewrite Hl1.
Qed.

(** Followers agree, forever. Once a follower of a flight has seen an
    outcome, through the blocking or the asynchronous wait, every follower of
    that flight that looks afterwards sees that same outcome. *)
Theorem outcome_stable s s' f o :
  reachable s -> rtc step s s' ->
  (poll_blocking s f = Some o \/ poll_watch s f = Some o) ->
  poll_blocking s' f = Some o /\
  (forall o', poll_watch s' f = Some o' -> o' = o).
Proof.
  intros Hr Hss Hpoll. apply reachable_inv in Hr.
  assert (forall s, flight_inv s -> forall o, poll_watch s f = Some o -> poll_blocking s f = Some o) as Hwb.
  { clear. intros s Hinv o. unfold poll_watch, poll_blocking.
    destruct (shared s !! f) as [x|] eqn:Hx; [|done]. simpl.
    destruct (fi_flight s Hinv f x Hx) as [q Hq]. destruct (fi_producer s Hinv f q Hq) as [_ Hs].
    rewrite Hx in Hs. injection Hs as ->. simpl. by destruct (producer_pc q). }
  assert (flight_inv s' /\ poll_blocking s' f = Some o) as [Hinv' Hb].
  { assert (poll_blocking s f = Some o) as Hb by (destruct Hpoll; eauto). clear Hpoll.
    induction Hss as [s|s s1 s2 Hstep _ IH]; [done|].
    apply IH; [by eapply step_inv|]. by apply (step_poll_stable s s1). }
  split; [done|]. intros o' Hw. apply Hwb in Hw; [congruence|done].
Qed.

Lemma finish_steps s p o : rtc step s (finish s p o).
Proof.
  unfold finish.
  eapply rtc_l; [apply step_begin|]. eapply rtc_l; [apply step_leave|].
  eapply rtc_l; [apply step_publish|]. eapply rtc_l; [apply step_wake|]. apply rtc_refl.
Qed.

(** Running [finish] to completion publishes one outcome to both kinds of
    waiters: the one already under way, else the one given. *)
Lemma finish_publishes s p q o :
  flight_inv s -> producers s !! p = Some q ->
  let o' := match producer_pc q with
            | Running => o
            | Leaving o' | Publishing o' | Waking o' | Finished o' => o'
            end in
  poll_blocking (finish s p o) p = Some o' /\ poll_watch (finish s p o) p = Some o'.
Proof.
  intros Hinv Hq. cbv zeta. destruct (fi_producer s Hinv p q Hq) as [Hf Hs].
  destruct q as [key f pc]. simpl in Hf, Hs. subst f.
  unfold finish, poll_blocking, poll_watch.
  destruct pc as [|o'|o'|o'|o']; [destruct (registry_alive s) eqn:Ha|..];
    unfold begin_finish; rewrite Hq, ?Ha; unfold leave_registry; simpl; rewrite ?lookup_alter_eq, Hq; simpl;
    try (destruct (bool_decide _));
    unfold publish_blocking; simpl; rewrite ?lookup_alter_eq, Hq; simpl;
    unfold publish_watch; simpl; rewrite ?lookup_alter_eq, Hq; simpl;
    rewrite ?lookup_alter_eq, ?Hs; done.
Qed.

(** No follower waits forever. In every reachable state each flight a
    follower can hold has a producer; if that producer is done, both kinds of
    wait find its outcome at once, and otherwise the producer's own remaining
    steps (those its destructor takes, whatever else has happened, the
    registry's disappearance included) publish one. *)
Theorem follower_wakes s f x :
  reachable s -> shared s !! f = Some x ->
  exists q, producers s !! f = Some q /\
    (forall o, producer_pc q = Finished o -> poll_blocking s f = Some o /\ poll_watch s f = Some o) /\
    rtc step s (drop_producer s f) /\
    exists o, poll_blocking (drop_producer s f) f = Some o /\ poll_watch (drop_producer s f) f = Some o.
Proof.
  intros Hr%reachable_inv Hx. destruct (fi_flight s Hr f x Hx) as [q Hq]. exists q.
  split; [done|]. split; [|split; [apply finish_steps|]].
  - intros o Hpc. destruct (fi_producer s Hr f q Hq) as [_ Hs]. rewrite Hpc in Hs.
    unfold poll_blocking, poll_watch. by rewrite Hs.
  - eexists. by apply (finish_publishes s f q).
Qed.

(** Finishing frees the key and nothing else. When a producer's [stored]
    or [abort] returns with the registry alive, its key is free for the next
    claimant, who becomes a new producer; every other key keeps its flight. *)
Theorem finish_frees_key s p q o :
  reachable s -> registry_alive s = true -> producers s !! p = Some q -> producer_pc q = Running ->
  let s' := finish s p o in
  flights s' = delete (producer_key q) (flights s) /\
  (acquire s' (producer_key q)).2 = Producer (next_id s) /\
  poll_blocking s' p = Some o.
Proof.
  intros Hr%reachable_inv Ha Hq Hpc. cbv zeta.
  pose proof (finish_publishes s p q o Hr Hq) as Hpub. rewrite Hpc in Hpub. destruct Hpub as [Hb _].
  assert (flights (finish s p o) = delete (producer_key q) (flights s)
          /\ next_id (finish s p o) = next_id s) as [Hfl Hn].
  { destruct (fi_producer s Hr p q Hq) as [Hf _].
    pose proof (fi_leaving s Hr p q Hq) as Hl. rewrite Hpc in Hl. specialize (Hl eq_refl).
    destruct q as [key f pc]. simpl in *. subst f pc.
    unfold finish, begin_finish. rewrite Hq, Ha. unfold leave_registry. simpl.
    rewrite lookup_alter_eq, Hq. simpl. rewrite bool_decide_true by done.
    unfold publish_blocking. simpl. rewrite !lookup_alter_eq, Hq. simpl.
    unfold publish_watch. simpl. rewrite !lookup_alter_eq, Hq. done. }
  split; [done|]. split; [|done]. unfold acquire. rewrite Hfl, lookup_delete_eq, Hn. done.
Qed.
End Flights.

(** ** Concrete runs *)

(** Two claims of ["k"]: a producer and its follower. *)
Definition ex_registry : Registry (K := string) := (acquire new_registry "k").1.

Lemma ex_registry_reachable : reachable ex_registry.
Proof. eapply rtc_l; [by apply step_acquire|apply rtc_refl]. Qed.

Lemma single_producer_witness : (acquire ex_registry "k").2 = Follower 0.
Proof.
  apply (single_producer ex_registry 0 0 (mkProducer "k" 0 Running) (mkProducer "k" 0 Running));
    [apply ex_registry_reachable|reflexivity..].
Defined.

Lemma outcome_stable_witness :
  poll_blocking (stored ex_registry 0) 0 = Some Stored
  /\ poll_blocking (drop_producer (stored ex_registry 0) 0) 0 = Some Stored.
Proof.
  split; [vm_compute; reflexivity|].
  apply (outcome_stable (stored ex_registry 0) (drop_producer (stored ex_registry 0) 0) 0 Stored).
  - unfold reachable. etrans; [apply ex_registry_reachable|apply finish_steps].
  - apply finish_steps.
  - left. vm_compute. reflexivity.
Defined.

Lemma follower_wakes_witness :
  exists o, poll_blocking (drop_producer ex_registry 0) 0 = Some o
         /\ poll_watch (drop_producer ex_registry 0) 0 = Some o.
Proof.
  destruct (follower_wakes ex_registry 0 (mkFlight None None)) as (q & _ & _ & _ & H);
    [apply ex_registry_reachable|reflexivity|exact H].
Defined.

Lemma finish_frees_key_witness :
  (acquire (stored ex_registry 0) "k").2 = Producer 1.
Proof.
  apply (finish_frees_key ex_registry 0 (mkProducer "k" 0 Running) Stored);
    [apply ex_registry_reachable|reflexivity..].
Defined.
