(* ===== verification/ScanCache.v ===== *)
(** * Scan result capture (src/src/lib.rs: [ScanCacheCapture])

    While a cacheable scan runs, every partition's batches are captured; the
    capture is published to the memory and disk tiers only once every partition
    has completed under one cache policy. Each method holds the state's mutex
    for its whole body, so a method is a function on the state; what the two
    cache tiers answer during a call is that call's [Env], and what the method
    does to them, to the metrics, to the event log and to the result flight is
    the list of calls it makes, in order. *)

From S2P Require Import Prelude Arrow Text Settings Runtime ResultFlight.

#[local] Open Scope Z_scope.

(** ** Data *)

Section Capture.
(** Worker batches, an open disk capture, a freshness deadline and the fields
    of [vgi_client::CacheControl] this code never touches. *)
Context {Batch Capture Freshness Rest : Type} `{!EqDecision Rest}.
(** [batch.columns().iter().map(|a| a.get_array_memory_size()).sum()] *)
Variable batch_bytes : Batch -> Z.

Record CacheControl := mkControl {
  etag : option string;
  last_modified : option string;
  revalidatable : bool;
  stale_while_revalidate : option Z;
  stale_if_error : option Z;
  control_rest : Rest
}.

#[export] Instance CacheControl_eq_dec : EqDecision CacheControl.
Proof using EqDecision0. solve_decision. Defined.

Inductive ScanCachePartitionOutcome :=
  | NoWork
  | Scanned (control : option CacheControl).

Record ScanCacheCaptureState := mkState {
  partitions : list (list Batch);
  outcomes : list (option ScanCachePartitionOutcome);
  started : list bool;
  memory_bytes : Z;
  memory_abandoned : bool;
  disk_capture : option Capture;
  disk_capture_started : bool;
  aborted : bool;
  committed : bool
}.

(** Calls to the tiers, the metrics, the event log and the flight. *)
Inductive Call :=
  | DiskBegin (c : Capture)
  | DiskAbort (c : Capture)
  | DiskCommit (c : Capture) (f : Freshness) (control : CacheControl)
  | DiskReap
  | CacheRemove
  | CacheInsert (batches : list Batch) (substreams : nat) (ttl : Z) (control : CacheControl)
  | RecordCaptureAbort
  | CountCaptureAbort
  | CountRefusal
  | CountStore
  | Emit (e : VgiEvent)
  | FlightStored (p : nat)
  | FlightAborted (p : nat) (reason : string).

(** [ScanCacheCapture]: the immutable fields the code reads, the flight and
    the state, with the calls made so far. *)
Record ScanCacheCapture := mkCapture {
  key_catalog : string;
  key_function : string;
  has_disk_cache : bool;
  durable_revalidation : bool;
  flight : option nat;
  state : ScanCacheCaptureState;
  log : list Call
}.

Inductive DiskCacheCommit :=
  | CommitStored
  | CommitSkipped (reason : string)
  | CommitError (error : string).

(** What the tiers answer, and the clock shows, during one call. *)
Record Env := mkEnv {
  env_now : Z;
  env_limits : CacheLimits;
  env_begin_capture : Capture + string;
  env_push_batch : Capture -> nat -> Batch -> Capture * option string;
  env_abort : Capture -> option string;
  env_freshness_deadline : CacheControl -> Freshness + string;
  env_commit_freshness : DiskCacheCommit;
  env_is_immediately_stale : Freshness -> bool;
  env_remaining : Freshness -> Z;
  env_is_expired : Freshness -> bool
}.

(** ** Small steps of the methods *)

Definition set_state (o : ScanCacheCapture) (s : ScanCacheCaptureState) : ScanCacheCapture :=
  mkCapture (key_catalog o) (key_function o) (has_disk_cache o) (durable_revalidation o) (flight o) s (log o).
Definition call (c : Call) (o : ScanCacheCapture) : ScanCacheCapture :=
  mkCapture (key_catalog o) (key_function o) (has_disk_cache o) (durable_revalidation o) (flight o)
    (state o) (log o ++ [c]).

Definition emit_event (env : Env) (kind message : string) (o : ScanCacheCapture) : ScanCacheCapture :=
  call (Emit (mkEvent (env_now env) kind (Some (key_catalog o)) (Some (key_function o)) None None
                (Some message))) o.
Definition flight_stored (o : ScanCacheCapture) : ScanCacheCapture :=
  match flight o with Some p => call (FlightStored p) o | None => o end.
Definition flight_abort (reason : string) (o : ScanCacheCapture) : ScanCacheCapture :=
  match flight o with Some p => call (FlightAborted p reason) o | None => o end.

Definition with_partitions (s : ScanCacheCaptureState) ps : ScanCacheCaptureState :=
  mkState ps (outcomes s) (started s) (memory_bytes s) (memory_abandoned s) (disk_capture s)
    (disk_capture_started s) (aborted s) (committed s).
Definition with_outcomes (s : ScanCacheCaptureState) os : ScanCacheCaptureState :=
  mkState (partitions s) os (started s) (memory_bytes s) (memory_abandoned s) (disk_capture s)
    (disk_capture_started s) (aborted s) (committed s).
Definition with_started (s : ScanCacheCaptureState) ss : ScanCacheCaptureState :=
  mkState (partitions s) (outcomes s) ss (memory_bytes s) (memory_abandoned s) (disk_capture s)
    (disk_capture_started s) (aborted s) (committed s).
Definition with_memory (s : ScanCacheCaptureState) bytes abandoned : ScanCacheCaptureState :=
  mkState (partitions s) (outcomes s) (started s) bytes abandoned (disk_capture s)
    (disk_capture_started s) (aborted s) (committed s).
Definition with_disk (s : ScanCacheCaptureState) c b : ScanCacheCaptureState :=
  mkState (partitions s) (outcomes s) (started s) (memory_bytes s) (memory_abandoned s) c b
    (aborted s) (committed s).
Definition with_aborted (s : ScanCacheCaptureState) : ScanCacheCaptureState :=
  mkState (partitions s) (outcomes s) (started s) (memory_bytes s) (memory_abandoned s) (disk_capture s)
    (disk_capture_started s) true (committed s).
Definition with_committed (s : ScanCacheCaptureState) : ScanCacheCaptureState :=
  mkState (partitions s) (outcomes s) (started s) (memory_bytes s) (memory_abandoned s) (disk_capture s)
    (disk_capture_started s) (aborted s) true.

Definition modify (f : ScanCacheCaptureState -> ScanCacheCaptureState) (o : ScanCacheCapture)
    : ScanCacheCapture := set_state o (f (state o)).
Definition clear_partitions (s : ScanCacheCaptureState) : ScanCacheCaptureState :=
  with_partitions s (map (fun _ => []) (partitions s)).

(** [if let Some(capture) = state.disk_capture.take() { let _ = capture.abort(); }] *)
Definition take_and_abort (o : ScanCacheCapture) : ScanCacheCapture :=
  match disk_capture (state o) with
  | Some c => call (DiskAbort c)
                (modify (fun s => with_disk s None (disk_capture_started s)) o)
  | None => o
  end.
(** The same, reporting a failure. *)
Definition take_and_abort_reporting (env : Env) (o : ScanCacheCapture) : ScanCacheCapture :=
  match disk_capture (state o) with
  | Some c =>
      let o := take_and_abort o in
      match env_abort env c with
      | Some error => emit_event env "cache.disk_error" ("could not abort durable capture: " +:+ error) o
      | None => o
      end
  | None => o
  end.

Definition closed (s : ScanCacheCaptureState) : bool := aborted s || committed s.

(** ** The methods *)

Definition new_capture (catalog function : string) (disk revalidation : bool) (n : nat)
    : ScanCacheCapture :=
  mkCapture catalog function disk revalidation None
    (mkState (replicate n []) (replicate n None) (replicate n false) 0 false None false false false) [].

(** [ScanCacheCapture::abort] *)
Definition abort_capture (env : Env) (reason : string) (o : ScanCacheCapture) : ScanCacheCapture :=
  if closed (state o) then o
  else
    let o := modify with_aborted o in
    let o := modify clear_partitions o in
    let o := take_and_abort_reporting env o in
    let o := call RecordCaptureAbort o in
    let o := call CountCaptureAbort o in
    let o := emit_event env "cache.capture_aborted" reason o in
    flight_abort reason o.

Definition set_flight (p : nat) (o : ScanCacheCapture) : ScanCacheCapture :=
  match flight o with
  | None => mkCapture (key_catalog o) (key_function o) (has_disk_cache o) (durable_revalidation o)
              (Some p) (state o) (log o)
  | Some _ => o
  end.

Definition revalidated (o : ScanCacheCapture) : ScanCacheCapture :=
  if closed (state o) then o
  else flight_stored (modify with_committed (take_and_abort o)).

Definition discard_unstarted (o : ScanCacheCapture) : ScanCacheCapture :=
  if closed (state o) || existsb id (started (state o)) then o
  else take_and_abort (modify clear_partitions (modify with_aborted o)).

(** [ScanCacheCapture::start] *)
Definition start (env : Env) (partition : nat) (o : ScanCacheCapture) : ScanCacheCapture :=
  let o :=
    if negb (disk_capture_started (state o)) && negb (closed (state o)) then
      if has_disk_cache o then
        match env_begin_capture env with
        | inl c => modify (fun s => with_disk s (Some c) true) (call (DiskBegin c) o)
        | inr error => modify (fun s => with_disk s None true)
            (emit_event env "cache.disk_error" ("could not begin durable capture: " +:+ error) o)
        end
      else modify (fun s => with_disk s None true) o
    else o in
  modify (fun s => with_started s (<[partition := true]> (started s))) o.

(** The disk half of [push_batch]: a failed write drops the disk capture. *)
Definition push_disk (env : Env) (partition : nat) (batch : Batch) (o : ScanCacheCapture)
    : ScanCacheCapture :=
  match disk_capture (state o) with
  | None => o
  | Some c =>
      let '(c', error) := env_push_batch env c partition batch in
      let o := modify (fun s => with_disk s (Some c') (disk_capture_started s)) o in
      match error with
      | None => o
      | Some error =>
          emit_event env "cache.disk_error" ("durable capture write failed: " +:+ error) (take_and_abort o)
      end
  end.

(** The memory half: buffering stops for good once the entry cap is crossed. *)
Definition push_memory (env : Env) (partition : nat) (batch : Batch) (s : ScanCacheCaptureState)
    : ScanCacheCaptureState :=
  if memory_abandoned s then s
  else
    let bytes := saturating_add (memory_bytes s) (batch_bytes batch) in
    if max_entry_bytes (env_limits env) <? bytes
    then with_memory (clear_partitions s) bytes true
    else with_partitions (with_memory s bytes false)
           (alter (fun bs => bs ++ [batch]) partition (partitions s)).

(** [ScanCacheCapture::push_batch] *)
Definition push_batch (env : Env) (partition : nat) (batch : Batch) (o : ScanCacheCapture)
    : ScanCacheCapture :=
  if closed (state o) || (length (partitions (state o)) <=? partition)%nat then o
  else modify (push_memory env partition batch) (push_disk env partition batch o).

Definition scanned_controls (os : list (option ScanCachePartitionOutcome)) : list (option CacheControl) :=
  omap (fun o => match o with Some (Scanned control) => Some control | _ => None end) os.

(** [completed_scan_cache_control] *)
Definition completed_scan_cache_control (os : list (option ScanCachePartitionOutcome))
    : CacheControl + string :=
  match scanned_controls os with
  | Some control :: _ =>
      if existsb (fun candidate => negb (bool_decide (candidate = Some control))) (scanned_controls os)
      then inr "split cache controls disagreed or were missing"
      else inl control
  | _ => inr "worker did not opt result into caching"
  end.

Definition executed_cache_substreams (os : list (option ScanCachePartitionOutcome)) : nat :=
  Nat.max (length (scanned_controls os)) 1.

Definition scan_cache_storage_control (control : CacheControl) (allow_revalidation : bool) : CacheControl :=
  if allow_revalidation then control
  else mkControl None None false None None (control_rest control).

Definition refuse_completed (env : Env) (reason : string) (o : ScanCacheCapture) : ScanCacheCapture :=
  let o := modify clear_partitions (modify with_aborted o) in
  let o := take_and_abort (call CacheRemove o) in
  let o := call CountCaptureAbort (call RecordCaptureAbort o) in
  flight_abort reason (emit_event env "cache.capture_aborted" reason o).

(** [complete], freshness refused *)
Definition refuse_freshness (env : Env) (reason : string) (o : ScanCacheCapture) : ScanCacheCapture :=
  let o := take_and_abort (call CacheRemove (modify with_aborted o)) in
  let o := emit_event env "cache.refused" reason (call CountRefusal o) in
  flight_abort ("cache refused result: " +:+ reason) o.

(** [complete], the disk tier: whether it stored. *)
Definition commit_disk (env : Env) (f : Freshness) (control : CacheControl) (o : ScanCacheCapture)
    : ScanCacheCapture * bool :=
  match disk_capture (state o) with
  | Some c =>
      let o := modify (fun s => with_disk s None (disk_capture_started s)) o in
      if has_disk_cache o then
        let o := call (DiskCommit c f control) o in
        match env_commit_freshness env with
        | CommitStored => (o, true)
        | CommitSkipped reason => (emit_event env "cache.disk_refused" reason o, false)
        | CommitError error =>
            (emit_event env "cache.disk_error" ("durable commit failed: " +:+ error) o, false)
        end
      else (o, false)
  | None => (o, false)
  end.

(** [complete]: a generation that expired while it was stored is reaped. *)
Definition reap_expired (env : Env) (f : Freshness) (r : ScanCacheCapture * bool)
    : ScanCacheCapture * bool :=
  let '(o, disk_stored) := r in
  if negb (env_is_immediately_stale env f) && env_is_expired env f && disk_stored
  then ((if has_disk_cache o then call DiskReap o else o), false)
  else (o, disk_stored).

(** [complete]: whether the memory tier takes the result. *)
Definition memory_takes (env : Env) (f : Freshness) (s : ScanCacheCaptureState) : bool :=
  let limits := env_limits env in
  (env_is_immediately_stale env f || negb (env_remaining env f =? 0)) && negb (memory_abandoned s)
  && (0 <? max_entries limits) && (memory_bytes s <=? max_entry_bytes limits)
  && (memory_bytes s <=? max_total_bytes limits).

(** [complete], the memory tier and the verdict. *)
Definition store_memory (env : Env) (f : Freshness) (control : CacheControl) (batches : list Batch)
    (substreams : nat) (disk_stored : bool) (o : ScanCacheCapture) : ScanCacheCapture :=
  let memory_stored := memory_takes env f (state o) in
  let ttl := if env_is_immediately_stale env f then 0 else env_remaining env f in
  let o := if memory_stored then call (CacheInsert batches substreams ttl control) o else o in
  if memory_stored || disk_stored then
    let o := call CountStore (modify with_committed o) in
    let o := emit_event env "cache.store"
               ("tier=" +:+ (if memory_stored then if disk_stored then "memory+disk" else "memory"
                             else "disk")) o in
    flight_stored o
  else
    let o := call CountRefusal (modify with_aborted o) in
    let o := emit_event env "cache.refused" "result fit neither configured cache tier" o in
    flight_abort "result fit neither configured cache tier" o.

(** [complete], after the freshness deadline is known. *)
Definition publish (env : Env) (f : Freshness) (control : CacheControl) (o : ScanCacheCapture)
    : ScanCacheCapture :=
  let batches := concat (partitions (state o)) in
  let substreams := executed_cache_substreams (outcomes (state o)) in
  let '(o, disk_stored) := reap_expired env f (commit_disk env f control o) in
  store_memory env f control batches substreams disk_stored o.

Definition is_none {A} (o : option A) : bool := match o with None => true | Some _ => false end.

(** [ScanCacheCapture::complete] ([no_work] and [scanned] call it). *)
Definition complete (env : Env) (partition : nat) (outcome : ScanCachePartitionOutcome)
    (o : ScanCacheCapture) : ScanCacheCapture :=
  if closed (state o) || (length (partitions (state o)) <=? partition)%nat then o
  else
    match outcomes (state o) !! partition with
    | Some None =>
        let o := modify (fun s => with_outcomes s (<[partition := Some outcome]> (outcomes s))) o in
        if existsb is_none (outcomes (state o)) then o
        else
          match completed_scan_cache_control (outcomes (state o)) with
          | inr reason => refuse_completed env reason o
          | inl control =>
              let control := scan_cache_storage_control control (durable_revalidation o) in
              match env_freshness_deadline env control with
              | inr reason => refuse_freshness env reason o
              | inl f => publish env f control o
              end
          end
    | _ => o
    end.

Definition no_work (env : Env) (partition : nat) (o : ScanCacheCapture) : ScanCacheCapture :=
  complete env partition NoWork o.
Definition scanned (env : Env) (partition : nat) (control : option CacheControl) (o : ScanCacheCapture)
    : ScanCacheCapture := complete env partition (Scanned control) o.

(** [Drop for ScanCacheCapture] *)
Definition drop_capture (env : Env) (o : ScanCacheCapture) : ScanCacheCapture :=
  let o := take_and_abort o in
  if negb (closed (state o)) && existsb id (started (state o)) then
    let reason := "execution ended before every partition completed" in
    let o := call CountCaptureAbort (call RecordCaptureAbort o) in
    flight_abort reason (emit_event env "cache.capture_aborted" reason o)
  else o.

(** ** Histories *)

Inductive Op :=
  | OpAbort (reason : string)
  | OpSetFlight (p : nat)
  | OpRevalidated
  | OpDiscardUnstarted
  | OpStart (partition : nat)
  | OpPush (partition : nat) (batch : Batch)
  | OpComplete (partition : nat) (outcome : ScanCachePartitionOutcome).

Definition run_op (o : ScanCacheCapture) (e : Env * Op) : ScanCacheCapture :=
  let '(env, op) := e in
  match op with
  | OpAbort reason => abort_capture env reason o
  | OpSetFlight p => set_flight p o
  | OpRevalidated => revalidated o
  | OpDiscardUnstarted => discard_unstarted o
  | OpStart i => start env i o
  | OpPush i b => push_batch env i b o
  | OpComplete i oc => complete env i oc o
  end.
Definition run (o : ScanCacheCapture) (es : list (Env * Op)) : ScanCacheCapture := fold_left run_op es o.

Definition is_signal (c : Call) : bool :=
  match c with FlightStored _ | FlightAborted _ _ => true | _ => false end.
Definition is_begin (c : Call) : bool := match c with DiskBegin _ => true | _ => false end.
Definition is_end (c : Call) : bool :=
  match c with DiskAbort _ | DiskCommit _ _ _ => true | _ => false end.
Definition is_publication (c : Call) : bool :=
  match c with CacheInsert _ _ _ _ | DiskCommit _ _ _ | CountStore => true | _ => false end.
Definition count (p : Call -> bool) (l : list Call) : nat := length (List.filter p l).

Lemma count_app p l k : count p (l ++ k) = (count p l + count p k)%nat.
Proof. unfold count. by rewrite List.filter_app, length_app. Qed.

(** The signals a closed capture may have sent. *)
Definition signals_match (s : ScanCacheCaptureState) (sigs : list Call) : Prop :=
  sigs = [] \/
  (exists p, sigs = [FlightStored p] /\ committed s = true) \/
  (exists p r, sigs = [FlightAborted p r] /\ aborted s = true).

Record capture_inv (n : nat) (o : ScanCacheCapture) : Prop := {
  ci_partitions : length (partitions (state o)) = n;
  ci_outcomes : length (outcomes (state o)) = n;
  ci_exclusive : aborted (state o) && committed (state o) = false;
  ci_closed_disk : closed (state o) = true -> disk_capture (state o) = None;
  ci_has_disk : is_Some (disk_capture (state o)) -> has_disk_cache o = true;
  ci_started : disk_capture_started (state o) = false -> count is_begin (log o) = 0%nat;
  ci_begun : (count is_begin (log o) <= 1)%nat;
  ci_ended : count is_begin (log o)
             = (count is_end (log o) + if is_none (disk_capture (state o)) then 0 else 1)%nat;
  ci_open_signals : closed (state o) = false -> List.filter is_signal (log o) = [];
  ci_signals : signals_match (state o) (List.filter is_signal (log o));
  ci_open_published : closed (state o) = false -> count is_publication (log o) = 0%nat
}.

Lemma new_capture_inv cat f disk rev n : capture_inv n (new_capture cat f disk rev n).
Proof. split; simpl; rewrite ?length_replicate; try done; try lia; try (by left). all: try (by intros [? ?]). cbn. lia. Qed.

#[local] Arguments count : simpl never.
Lemma count_cons p c l : count p (c :: l) = ((if p c then 1 else 0) + count p l)%nat.
Proof. unfold count. simpl. by destruct (p c). Qed.
Lemma count_nil p : count p [] = 0%nat.
Proof. done. Qed.

(** Close an invariant obligation about a state given by its constructors and
    a log given as an extension. *)
Ltac inv_goal :=
  cbn [is_none] in *; split; cbn; rewrite ?length_map, ?length_insert, ?length_alter, ?List.filter_app, ?count_app, ?count_cons,
    ?count_nil;
  cbn; rewrite ?app_nil_r; try done; try congruence; try lia; try (intros; lia);
  try (by intros [? ?]);
  try match goal with
      | H : is_Some (Some _) -> ?d = true |- is_Some _ -> ?d = true => intros; apply H; eauto
      | H : _ = false -> count _ _ = 0%nat |- _ = false -> _ =>
          let Hf := fresh in intros Hf; specialize (H Hf); lia
      end;
  try match goal with H : List.filter is_signal _ = [] |- _ => rewrite H end; cbn;
  try done; try (by left); try (by right; left; eauto); try (by right; right; eauto).

(** The methods' steps on an object given by its constructors; rewriting with
    these keeps the object in constructor form after every step. *)
Lemma call_mk c cat fn d r fl s lg :
  call c (mkCapture cat fn d r fl s lg) = mkCapture cat fn d r fl s (lg ++ [c]).
Proof. done. Qed.
Lemma modify_mk f cat fn d r fl s lg :
  modify f (mkCapture cat fn d r fl s lg) = mkCapture cat fn d r fl (f s) lg.
Proof. done. Qed.
Lemma emit_mk env kind msg cat fn d r fl s lg :
  emit_event env kind msg (mkCapture cat fn d r fl s lg)
  = mkCapture cat fn d r fl s
      (lg ++ [Emit (mkEvent (env_now env) kind (Some cat) (Some fn) None None (Some msg))]).
Proof. done. Qed.
Lemma flight_stored_mk cat fn d r fl s lg :
  flight_stored (mkCapture cat fn d r fl s lg)
  = mkCapture cat fn d r fl s (lg ++ match fl with Some p => [FlightStored p] | None => [] end).
Proof. destruct fl; [done|]. by rewrite app_nil_r. Qed.
Lemma flight_abort_mk reason cat fn d r fl s lg :
  flight_abort reason (mkCapture cat fn d r fl s lg)
  = mkCapture cat fn d r fl s (lg ++ match fl with Some p => [FlightAborted p reason] | None => [] end).
Proof. destruct fl; [done|]. by rewrite app_nil_r. Qed.
Lemma take_and_abort_mk cat fn d r fl s lg :
  take_and_abort (mkCapture cat fn d r fl s lg)
  = mkCapture cat fn d r fl (with_disk s None (disk_capture_started s))
      (lg ++ match disk_capture s with Some c => [DiskAbort c] | None => [] end).
Proof.
  destruct s as [ps os ss mb ma dc ds ab cm]. destruct dc; [done|].
  unfold take_and_abort. simpl. by rewrite app_nil_r.
Qed.
Lemma clear_mk ps os ss mb ma dc ds ab cm :
  clear_partitions (mkState ps os ss mb ma dc ds ab cm)
  = mkState (map (fun _ => []) ps) os ss mb ma dc ds ab cm.
Proof. done. Qed.
Lemma with_disk_mk ps os ss mb ma dc ds ab cm c b :
  with_disk (mkState ps os ss mb ma dc ds ab cm) c b = mkState ps os ss mb ma c b ab cm.
Proof. done. Qed.
Lemma with_aborted_mk ps os ss mb ma dc ds ab cm :
  with_aborted (mkState ps os ss mb ma dc ds ab cm) = mkState ps os ss mb ma dc ds true cm.
Proof. done. Qed.
Lemma with_committed_mk ps os ss mb ma dc ds ab cm :
  with_committed (mkState ps os ss mb ma dc ds ab cm) = mkState ps os ss mb ma dc ds ab true.
Proof. done. Qed.

Ltac step_capture :=
  cbv zeta;
  repeat first
    [ rewrite call_mk | rewrite modify_mk | rewrite emit_mk | rewrite flight_stored_mk
    | rewrite flight_abort_mk | rewrite take_and_abort_mk | rewrite clear_mk | rewrite with_disk_mk
    | rewrite with_aborted_mk | rewrite with_committed_mk
    | progress cbn [state disk_capture disk_capture_started has_disk_cache flight started partitions
        outcomes memory_bytes memory_abandoned fst snd andb orb negb] ].

(** Decide whether the memory tier stores. *)
Ltac split_stored :=
  match goal with
  | |- context [if ?b then mkCapture _ _ _ _ _ _ _ else mkCapture _ _ _ _ _ _ _] => destruct b
  end.

(** Take an invariant apart for an object given by its constructors. *)
Ltac open_inv Hinv o :=
  let h1 := fresh "Hps" in let h2 := fresh "Hos" in let h3 := fresh "Hex" in let h4 := fresh "Hcd" in
  let h5 := fresh "Hhd" in let h6 := fresh "Hst" in let h7 := fresh "Hbg" in let h8 := fresh "Hen" in
  let h9 := fresh "Hop" in let h10 := fresh "Hsg" in let h11 := fresh "Hpb" in
  destruct Hinv as [h1 h2 h3 h4 h5 h6 h7 h8 h9 h10 h11];
  destruct o as [cat fn disk rev fl [ps os ss mb ma dc ds ab cm] lg]; cbn in *;
  destruct ab, cm; try discriminate; cbn in *;
  try (specialize (h9 eq_refl)); try (specialize (h11 eq_refl)); try (specialize (h4 eq_refl)).

Lemma abort_inv n env reason o : capture_inv n o -> capture_inv n (abort_capture env reason o).
Proof.
  intros Hinv. unfold abort_capture. destruct (closed (state o)) eqn:Hc; [done|]. open_inv Hinv o.
  unfold take_and_abort_reporting. step_capture.
  destruct dc as [c|]; [destruct (env_abort env c)|]; step_capture; destruct fl as [p|]; inv_goal.
Qed.

Lemma set_flight_inv n p o : capture_inv n o -> capture_inv n (set_flight p o).
Proof.
  intros [Hps Hos Hex Hcd Hhd Hst Hbg Hen Hop Hsg Hpb]. unfold set_flight.
  destruct (flight o); split; done.
Qed.

Lemma revalidated_inv n o : capture_inv n o -> capture_inv n (revalidated o).
Proof.
  intros Hinv. unfold revalidated. destruct (closed (state o)) eqn:Hc; [done|]. open_inv Hinv o.
  step_capture. destruct dc as [c|], fl as [p|]; inv_goal.
Qed.

Lemma discard_inv n o : capture_inv n o -> capture_inv n (discard_unstarted o).
Proof.
  intros Hinv. unfold discard_unstarted. destruct (closed (state o)) eqn:Hc; [done|].
  destruct (existsb id (started (state o))); [done|]. open_inv Hinv o.
  step_capture. destruct dc as [c|]; inv_goal.
Qed.

Lemma start_inv n env i o : capture_inv n o -> capture_inv n (start env i o).
Proof.
  intros Hinv. unfold start. destruct (closed (state o)) eqn:Hc.
  - rewrite andb_false_r. destruct Hinv as [Hps Hos Hex Hcd Hhd Hst Hbg Hen Hop Hsg Hpb].
    split; cbn; done.
  - rewrite andb_true_r. open_inv Hinv o. destruct ds; cbn; [inv_goal|].
    specialize (Hst eq_refl).
    destruct dc as [c|]; cbn in *; [lia|].
    destruct disk; [destruct (env_begin_capture env) as [c|error]|]; step_capture; inv_goal.
Qed.

Lemma push_inv n env i b o : capture_inv n o -> capture_inv n (push_batch env i b o).
Proof.
  intros Hinv. unfold push_batch. destruct (closed (state o)) eqn:Hc; [done|]. cbn.
  destruct (_ <=? i)%nat; [done|]. open_inv Hinv o.
  unfold push_disk, push_memory. step_capture.
  destruct dc as [c|]; [destruct (env_push_batch env c i b) as [c' [error|]]|];
    step_capture; destruct ma;
    try destruct (max_entry_bytes (env_limits env) <? saturating_add mb (batch_bytes b));
    step_capture; inv_goal.
Qed.

Lemma refuse_completed_inv n env reason o :
  closed (state o) = false -> capture_inv n o -> capture_inv n (refuse_completed env reason o).
Proof.
  intros Hc Hinv. open_inv Hinv o. unfold refuse_completed. step_capture.
  destruct dc as [c|], fl as [p|]; inv_goal.
Qed.

Lemma refuse_freshness_inv n env reason o :
  closed (state o) = false -> capture_inv n o -> capture_inv n (refuse_freshness env reason o).
Proof.
  intros Hc Hinv. open_inv Hinv o. unfold refuse_freshness. step_capture.
  destruct dc as [c|], fl as [p|]; inv_goal.
Qed.

Lemma commit_disk_inv n env f control o r :
  commit_disk env f control o = r -> capture_inv n o -> closed (state o) = false ->
  (** everything but the promise that an open capture published nothing *)
  length (partitions (state r.1)) = n /\ length (outcomes (state r.1)) = n /\
  closed (state r.1) = false /\ disk_capture (state r.1) = None /\
  (disk_capture_started (state r.1) = false -> count is_begin (log r.1) = 0%nat) /\
  (count is_begin (log r.1) <= 1)%nat /\ count is_begin (log r.1) = count is_end (log r.1) /\
  List.filter is_signal (log r.1) = [].
Proof.
  intros <- Hinv Hc. open_inv Hinv o. unfold commit_disk. step_capture.
  destruct dc as [c|]; [rewrite (Hhd (ex_intro _ c eq_refl)) in *|]; step_capture.
  - destruct (env_commit_freshness env); step_capture; cbn [is_none] in *; cbn;
      rewrite ?List.filter_app, ?count_app, ?count_cons, ?count_nil, Hop; cbn;
      (repeat split; try done; try lia; intros Hd; specialize (Hst Hd); lia).
  - cbn [is_none] in *. cbn. repeat split; try done. lia.
Qed.

Lemma reap_expired_inv n env f r r' :
  reap_expired env f r = r' ->
  length (partitions (state r.1)) = n /\ length (outcomes (state r.1)) = n /\
  closed (state r.1) = false /\ disk_capture (state r.1) = None /\
  (disk_capture_started (state r.1) = false -> count is_begin (log r.1) = 0%nat) /\
  (count is_begin (log r.1) <= 1)%nat /\ count is_begin (log r.1) = count is_end (log r.1) /\
  List.filter is_signal (log r.1) = [] ->
  length (partitions (state r'.1)) = n /\ length (outcomes (state r'.1)) = n /\
  closed (state r'.1) = false /\ disk_capture (state r'.1) = None /\
  (disk_capture_started (state r'.1) = false -> count is_begin (log r'.1) = 0%nat) /\
  (count is_begin (log r'.1) <= 1)%nat /\ count is_begin (log r'.1) = count is_end (log r'.1) /\
  List.filter is_signal (log r'.1) = [].
Proof.
  intros <- (H1 & H2 & H3 & H4 & H5 & H6 & H7 & H8). destruct r as [o d]. unfold reap_expired.
  destruct (_ && _ && d); [|done]. destruct (has_disk_cache o); [|done].
  destruct o as [cat fn disk rev fl [ps os ss mb ma dc ds ab cm] lg]. step_capture. cbn in *.
  rewrite List.filter_app, !count_app, !count_cons, !count_nil, H8. cbn.
  repeat split; try done; try lia. intros Hd. specialize (H5 Hd). lia.
Qed.

Lemma publish_inv n env f control o :
  closed (state o) = false -> capture_inv n o -> capture_inv n (publish env f control o).
Proof.
  intros Hc Hinv. unfold publish. cbv zeta.
  pose proof (commit_disk_inv n env f control o _ eq_refl Hinv Hc) as H.
  apply (reap_expired_inv n env f _ _ eq_refl) in H.
  destruct (reap_expired env f (commit_disk env f control o)) as [o1 d].
  destruct H as (Hps & Hos & Hc1 & Hdc & Hst & Hbg & Hen & Hsg). cbn [fst] in *. clear Hinv.
  destruct o1 as [cat fn disk rev fl [ps os ss mb ma dc ds ab cm] lg]. cbn in *.
  destruct ab, cm; try discriminate. subst dc. unfold store_memory. step_capture.
  set (ms := memory_takes _ _ _). destruct ms, d; step_capture; destruct fl as [p|]; inv_goal.
Qed.

Lemma complete_inv n env i oc o : capture_inv n o -> capture_inv n (complete env i oc o).
Proof.
  intros Hinv. unfold complete. destruct (closed (state o)) eqn:Hc; [done|]. cbn.
  destruct (_ <=? i)%nat; [done|]. destruct (outcomes (state o) !! i) as [[?|]|]; try done.
  set (o1 := modify _ o).
  assert (capture_inv n o1 /\ closed (state o1) = false) as [Hinv1 Hc1].
  { destruct Hinv as [Hps Hos Hex Hcd Hhd Hst Hbg Hen Hop Hsg Hpb]. split; [|done].
    split; cbn; rewrite ?length_insert; done. }
  destruct (existsb _ _); [done|].
  destruct (completed_scan_cache_control _) as [control|reason]; [|by apply refuse_completed_inv].
  destruct (env_freshness_deadline env _) as [f|reason]; [by apply publish_inv|by apply refuse_freshness_inv].
Qed.

Lemma run_op_inv n o e : capture_inv n o -> capture_inv n (run_op o e).
Proof.
  destruct e as [env [reason|p| | |i|i b|i oc]]; cbn [run_op];
    eauto using abort_inv, set_flight_inv, revalidated_inv, discard_inv, start_inv, push_inv, complete_inv.
Qed.

Lemma run_inv n o es : capture_inv n o -> capture_inv n (run o es).
Proof. revert o. induction es as [|e es IH]; intros o H; [done|]. by apply IH, run_op_inv. Qed.

(** ** Terminal states *)

Lemma closed_op_inert o e :
  closed (state o) = true ->
  log (run_op o e) = log o /\
  aborted (state (run_op o e)) = aborted (state o) /\ committed (state (run_op o e)) = committed (state o).
Proof.
  intros Hc. destruct e as [env [reason|p| | |i|i b|i oc]]; cbn [run_op].
  - unfold abort_capture. by rewrite Hc.
  - unfold set_flight. by destruct (flight o).
  - unfold revalidated. by rewrite Hc.
  - unfold discard_unstarted. by rewrite Hc.
  - unfold start. by rewrite Hc, andb_false_r.
  - unfold push_batch. by rewrite Hc.
  - unfold complete. by rewrite Hc.
Qed.

(** A closed capture is inert. Once a capture has been committed or
    aborted it stays that way and never both, and no later call on it, its
    destructor included, touches a cache tier, a metric, the event log or the
    flight again. *)
Theorem closed_capture_inert cat f disk rev n es es' env :
  let o := run (new_capture cat f disk rev n) es in
  closed (state o) = true ->
  log (drop_capture env (run o es')) = log o /\
  aborted (state (run o es')) = aborted (state o) /\
  committed (state (run o es')) = committed (state o) /\
  aborted (state o) = negb (committed (state o)).
Proof.
  cbv zeta. set (o := run _ es). intros Hc.
  assert (capture_inv n o) as Hinv by apply run_inv, new_capture_inv.
  assert (forall o, closed (state o) = true ->
    log (run o es') = log o /\ aborted (state (run o es')) = aborted (state o) /\
    committed (state (run o es')) = committed (state o)) as Hrun.
  { clear. induction es' as [|e es' IH]; intros o Hc; [done|]. cbn [run fold_left].
    destruct (closed_op_inert o e Hc) as (H1 & H2 & H3).
    destruct (IH (run_op o e)) as (H4 & H5 & H6); [unfold closed in *; by rewrite H2, H3|].
    unfold run in *. split; [congruence|]. split; congruence. }
  destruct (Hrun o Hc) as (Hl & Ha & Hm).
  assert (capture_inv n (run o es')) as Hinv' by by apply run_inv.
  assert (closed (state (run o es')) = true) as Hc' by (unfold closed in *; by rewrite Ha, Hm).
  split; [|split; [done|split; [done|]]].
  - unfold drop_capture, take_and_abort. rewrite (ci_closed_disk _ _ Hinv' Hc'). by rewrite Hc'.
  - pose proof (ci_exclusive _ _ Hinv). unfold closed in Hc. by destruct (aborted _), (committed _).
Qed.

Lemma drop_log o env :
  exists l, log (drop_capture env o)
    = log o ++ match disk_capture (state o) with Some c => [DiskAbort c] | None => [] end ++ l /\
    count is_begin l = 0%nat /\ count is_end l = 0%nat /\
    List.filter is_signal l =
      (if negb (closed (state o)) && existsb id (started (state o))
       then match flight o with
            | Some p => [FlightAborted p "execution ended before every partition completed"]
            | None => []
            end
       else []).
Proof.
  destruct o as [cat fn disk rev fl [ps os ss mb ma dc ds ab cm] lg]. unfold drop_capture. step_capture.
  unfold closed. cbn [aborted committed].
  destruct (negb (ab || cm) && existsb id ss); step_capture; cbn [log].
  - eexists ([RecordCaptureAbort] ++ [CountCaptureAbort] ++ [Emit _] ++ _).
    split; [rewrite <- !app_assoc; reflexivity|]. by destruct fl.
  - exists []. by rewrite app_nil_r.
Qed.

(** Every capture is settled. Over a capture's whole life, its destructor
    included, at most one disk capture is begun and each one begun is either
    committed or aborted, exactly once; and the flight is told at most one
    outcome, [stored] only if the capture was committed. *)
Theorem capture_settles cat f disk rev n es env :
  let o := run (new_capture cat f disk rev n) es in
  let l := log (drop_capture env o) in
  (count is_begin l <= 1)%nat /\ count is_end l = count is_begin l /\
  (List.filter is_signal l = [] \/
   (exists p, List.filter is_signal l = [FlightStored p] /\ committed (state o) = true) \/
   (exists p r, List.filter is_signal l = [FlightAborted p r] /\ committed (state o) = false)).
Proof.
  cbv zeta. set (o := run _ es).
  assert (capture_inv n o) as Hinv by apply run_inv, new_capture_inv.
  destruct (drop_log o env) as (l & -> & Hb & He & Hs).
  rewrite !count_app, !List.filter_app, Hb, He, Hs.
  pose proof (ci_begun _ _ Hinv) as H1. pose proof (ci_ended _ _ Hinv) as H2.
  set (d := match disk_capture (state o) with Some c => [DiskAbort c] | None => [] end).
  assert (count is_begin d = 0%nat /\ List.filter is_signal d = [] /\
          count is_end d = if is_none (disk_capture (state o)) then 0%nat else 1%nat) as (-> & -> & ->).
  { unfold d. by destruct (disk_capture (state o)). }
  split; [lia|]. split; [lia|]. rewrite app_nil_l.
  destruct (closed (state o)) eqn:Hc; cbn [negb andb].
  - rewrite app_nil_r. pose proof (ci_exclusive _ _ Hinv) as Hx.
    destruct (ci_signals _ _ Hinv) as [?|[?|(p & r & Hp & Ha)]]; [by left|by right; left|].
    right; right. exists p, r. split; [done|]. rewrite Ha in Hx. done.
  - rewrite (ci_open_signals _ _ Hinv Hc). unfold closed in Hc. apply orb_false_iff in Hc as [_ Hc].
    destruct (existsb id (started (state o))); [|by left]. destruct (flight o); [|by left].
    right; right. eexists _, _. split; [reflexivity|done].
Qed.

(** ** What is published *)

(** The batches pushed to a partition, and the outcome it first completed
    with. *)
Definition pushed (i : nat) (es : list (Env * Op)) : list Batch :=
  omap (fun e => match e.2 with OpPush j b => if (j =? i)%nat then Some b else None | _ => None end) es.
Fixpoint completed (i : nat) (es : list (Env * Op)) : option ScanCachePartitionOutcome :=
  match es with
  | [] => None
  | (_, OpComplete j oc) :: es => if (j =? i)%nat then Some oc else completed i es
  | _ :: es => completed i es
  end.

Lemma pushed_snoc i es e :
  pushed i (es ++ [e]) = pushed i es ++ pushed i [e].
Proof. unfold pushed. apply omap_app. Qed.

Lemma completed_snoc i es e :
  completed i (es ++ [e]) = match completed i es with Some oc => Some oc | None => completed i [e] end.
Proof.
  induction es as [|[env op] es IH]; [done|]. cbn [app completed].
  destruct op; try exact IH. by destruct (_ =? _)%nat.
Qed.

(** While the capture is open its state is a function of the history. *)
Record history_inv (n : nat) (rev : bool) (es : list (Env * Op)) (o : ScanCacheCapture) : Prop := {
  hi_rev : durable_revalidation o = rev;
  hi_outcomes : closed (state o) = false ->
    outcomes (state o) = map (fun i => completed i es) (seq 0 n);
  hi_partitions : closed (state o) = false -> memory_abandoned (state o) = false ->
    partitions (state o) = map (fun i => pushed i es) (seq 0 n)
}.

Lemma refuse_completed_closed env reason o : closed (state (refuse_completed env reason o)) = true.
Proof.
  destruct o as [cat fn disk rev fl [ps os ss mb ma dc ds ab cm] lg]. unfold refuse_completed.
  by step_capture.
Qed.
Lemma refuse_freshness_closed env reason o : closed (state (refuse_freshness env reason o)) = true.
Proof.
  destruct o as [cat fn disk rev fl [ps os ss mb ma dc ds ab cm] lg]. unfold refuse_freshness.
  by step_capture.
Qed.

(** Calls that put rows into a tier. *)
Definition is_store (c : Call) : bool :=
  match c with CacheInsert _ _ _ _ | DiskCommit _ _ _ => true | _ => false end.

Lemma commit_disk_stores env f control o :
  let r := commit_disk env f control o in
  state r.1 = match disk_capture (state o) with
              | Some _ => with_disk (state o) None (disk_capture_started (state o))
              | None => state o
              end /\
  exists l, log r.1 = log o ++ l /\
    forall c, c ∈ l -> is_store c = true ->
      exists cap, disk_capture (state o) = Some cap /\ c = DiskCommit cap f control.
Proof.
  destruct o as [cat fn disk rev fl [ps os ss mb ma dc ds ab cm] lg]. unfold commit_disk. step_capture.
  assert (forall c : Call, c ∈ [] -> is_store c = true ->
    exists cap, dc = Some cap /\ c = DiskCommit cap f control) as Hnil by (by intros c ?%elem_of_nil).
  destruct dc as [cap|]; [destruct disk; [destruct (env_commit_freshness env)|]|]; step_capture;
    cbn [state log fst]; (split; [done|]); eexists; rewrite <- ?app_assoc;
    (split; [first [reflexivity | symmetry; apply app_nil_r]|]); try exact Hnil.
  all: intros c Hc Hs; repeat (apply elem_of_cons in Hc as [->|Hc]; [by eauto|]); by apply elem_of_nil in Hc.
Qed.

Lemma reap_expired_stores env f r :
  let r' := reap_expired env f r in
  state r'.1 = state r.1 /\
  exists l, log r'.1 = log r.1 ++ l /\ forall c, c ∈ l -> is_store c = false.
Proof.
  destruct r as [o d]. unfold reap_expired. destruct (_ && _ && d); [destruct (has_disk_cache o)|]; cbn.
  - split; [done|]. exists [DiskReap]. split; [done|]. by intros c ->%list_elem_of_singleton.
  - split; [done|]. exists []. rewrite app_nil_r. split; [done|]. by intros c ?%elem_of_nil.
  - split; [done|]. exists []. rewrite app_nil_r. split; [done|]. by intros c ?%elem_of_nil.
Qed.

Lemma store_memory_stores env f control bs k d o :
  let o' := store_memory env f control bs k d o in
  closed (state o') = true /\
  exists l, log o' = log o ++ l /\
    forall c, c ∈ l -> is_store c = true -> memory_takes env f (state o) = true /\
      c = CacheInsert bs k (if env_is_immediately_stale env f then 0 else env_remaining env f) control.
Proof.
  destruct o as [cat fn disk rev fl [ps os ss mb ma dc ds ab cm] lg]. unfold store_memory. step_capture.
  set (ms := memory_takes _ _ _). destruct ms, d; step_capture;
    (split; [by unfold closed; cbn; rewrite ?orb_true_r|]); cbn [log]; eexists; rewrite <- ?app_assoc;
    (split; [reflexivity|]); intros c Hc Hs; destruct fl; cbn in Hc;
    repeat (apply elem_of_cons in Hc as [->|Hc]; [done|]); by apply elem_of_nil in Hc.
Qed.

(** What [publish] puts into the tiers, and when. *)
Lemma publish_stores env f control o c :
  closed (state (publish env f control o)) = true /\
  (c ∈ log (publish env f control o) -> is_store c = true ->
   c ∈ log o \/
   (exists cap, disk_capture (state o) = Some cap /\ c = DiskCommit cap f control) \/
   (memory_takes env f (state o) = true /\
    c = CacheInsert (concat (partitions (state o))) (executed_cache_substreams (outcomes (state o)))
          (if env_is_immediately_stale env f then 0 else env_remaining env f) control)).
Proof.
  unfold publish. cbv zeta.
  destruct (commit_disk_stores env f control o) as (Hs1 & l1 & Hl1 & H1).
  destruct (reap_expired_stores env f (commit_disk env f control o)) as (Hs2 & l2 & Hl2 & H2).
  destruct (reap_expired env f (commit_disk env f control o)) as [o2 d]. cbn [fst] in *.
  destruct (store_memory_stores env f control (concat (partitions (state o)))
    (executed_cache_substreams (outcomes (state o))) d o2) as (Hc3 & l3 & Hl3 & H3).
  split; [done|]. rewrite Hl3, Hl2, Hl1, !elem_of_app. intros [[[Hc|Hc]|Hc]|Hc] Hst; [by left|..].
  - right; left. by apply H1.
  - by rewrite (H2 c Hc) in Hst.
  - right; right. destruct (H3 c Hc Hst) as [Hm ->]. split; [|done].
    rewrite Hs2, Hs1 in Hm. by destruct (disk_capture (state o)).
Qed.

Lemma store_in_filter (l l' : list Call) c :
  List.filter is_store l' = List.filter is_store l -> c ∈ l' -> is_store c = true -> c ∈ l.
Proof.
  intros H Hc Hs. apply list_elem_of_In.
  assert (In c (List.filter is_store l')) as Hin by (apply filter_In; split; [by apply list_elem_of_In|done]).
  rewrite H in Hin. by apply filter_In in Hin as [? _].
Qed.

Ltac no_stores o :=
  destruct o as [cat fn disk rev fl [ps os ss mb ma dc ds ab cm] lg]; step_capture;
  repeat (match goal with
          | |- context [match ?x with Some _ => _ | None => _ end] => is_var x; destruct x
          end; step_capture);
  cbn [log]; rewrite ?List.filter_app; cbn; by rewrite ?app_nil_r.

Lemma op_no_stores o e :
  match e.2 with OpComplete _ _ => True | _ => List.filter is_store (log (run_op o e)) = List.filter is_store (log o) end.
Proof.
  destruct e as [env [reason|p| | |i|i b|i oc]]; cbn [run_op snd]; [..|done].
  - unfold abort_capture, take_and_abort_reporting. destruct (closed _); [done|].
    destruct o as [cat fn disk rev fl [ps os ss mb ma dc ds ab cm] lg]. step_capture.
    destruct dc as [c|]; [destruct (env_abort env c)|]; step_capture; destruct fl;
      cbn [log]; rewrite ?List.filter_app; cbn; by rewrite ?app_nil_r.
  - unfold set_flight. by destruct (flight o).
  - unfold revalidated. destruct (closed _); [done|]. no_stores o.
  - unfold discard_unstarted. destruct (_ || _); [done|]. no_stores o.
  - unfold start. destruct (negb _ && negb _), (has_disk_cache o); try destruct (env_begin_capture env);
      destruct o as [cat fn disk rev fl [ps os ss mb ma dc ds ab cm] lg]; step_capture;
      cbn [log]; rewrite ?List.filter_app; cbn; by rewrite ?app_nil_r.
  - unfold push_batch, push_disk. destruct (_ || _); [done|].
    destruct o as [cat fn disk rev fl [ps os ss mb ma dc ds ab cm] lg]. step_capture.
    destruct dc as [c|]; [destruct (env_push_batch env c i b) as [c' [error|]]|]; step_capture;
      cbn [log]; rewrite ?List.filter_app; cbn; by rewrite ?app_nil_r.
Qed.

Lemma refusals_no_stores env reason o :
  List.filter is_store (log (refuse_completed env reason o)) = List.filter is_store (log o) /\
  List.filter is_store (log (refuse_freshness env reason o)) = List.filter is_store (log o).
Proof.
  destruct o as [cat fn disk rev fl [ps os ss mb ma dc ds ab cm] lg].
  unfold refuse_completed, refuse_freshness. split; step_capture; destruct dc, fl;
    cbn [log]; rewrite ?List.filter_app; cbn; by rewrite ?app_nil_r.
Qed.

(** The state an open capture is left in by one more call. *)
Lemma op_open n o e :
  capture_inv n o -> closed (state (run_op o e)) = false ->
  closed (state o) = false /\
  outcomes (state (run_op o e))
  = match e.2 with
    | OpComplete i oc => match outcomes (state o) !! i with
                         | Some None => <[i := Some oc]> (outcomes (state o))
                         | _ => outcomes (state o)
                         end
    | _ => outcomes (state o)
    end /\
  (memory_abandoned (state (run_op o e)) = false ->
   memory_abandoned (state o) = false /\
   partitions (state (run_op o e))
   = match e.2 with OpPush i b => alter (fun bs => bs ++ [b]) i (partitions (state o)) | _ => partitions (state o) end).
Proof.
  intros [Hps Hos _ _ _ _ _ _ _ _ _].
  destruct e as [env [reason|p| | |i|i b|i oc]]; cbn [run_op snd].
  - unfold abort_capture, take_and_abort_reporting. destruct (closed (state o)) eqn:Hc; [cbv iota; intros; congruence|].
    destruct o as [cat fn disk rev fl [ps os ss mb ma dc ds ab cm] lg]. step_capture.
    destruct dc as [c|]; [destruct (env_abort env c)|]; step_capture; done.
  - unfold set_flight. by destruct (flight o).
  - unfold revalidated. destruct (closed (state o)) eqn:Hc; [cbv iota; intros; congruence|].
    destruct o as [cat fn disk rev fl [ps os ss mb ma dc ds ab cm] lg]. step_capture.
    unfold closed. cbn. by rewrite orb_true_r.
  - unfold discard_unstarted. destruct (closed (state o)) eqn:Hc; cbn [orb]; [intros; congruence|].
    destruct (existsb id (started (state o))); [done|].
    destruct o as [cat fn disk rev fl [ps os ss mb ma dc ds ab cm] lg]. by step_capture.
  - unfold start. destruct (negb _ && negb _), (has_disk_cache o); try destruct (env_begin_capture env);
      destruct o as [cat fn disk rev fl [ps os ss mb ma dc ds ab cm] lg]; by step_capture.
  - unfold push_batch. destruct (closed (state o)) eqn:Hc; cbn [orb]; [intros; congruence|].
    destruct (Nat.leb_spec (length (partitions (state o))) i) as [Hle|Hlt].
    + intros _. split; [done|]. split; [done|]. intros Ha. split; [done|].
      symmetry. apply list_eq. intros j. rewrite list_lookup_alter. case_decide as Hj; [|done].
      subst j. by rewrite lookup_ge_None_2.
    + assert (exists c lg, push_disk env i b o = mkCapture (key_catalog o) (key_function o)
        (has_disk_cache o) (durable_revalidation o) (flight o)
        (with_disk (state o) c (disk_capture_started (state o))) lg) as (c & lg' & ->).
      { destruct o as [cat fn disk rev fl [ps os ss mb ma dc ds ab cm] lg]. unfold push_disk. step_capture.
        destruct dc as [c|]; [destruct (env_push_batch env c i b) as [c' [error|]]|]; step_capture;
          by eexists _, _. }
      destruct o as [cat fn disk rev fl [ps os ss mb ma dc ds ab cm] lg]. unfold push_memory. step_capture.
      intros _. split; [done|]. destruct ma; [done|].
      by destruct (max_entry_bytes (env_limits env) <? saturating_add mb (batch_bytes b)).
  - unfold complete. destruct (closed (state o)) eqn:Hc; cbn [orb]; [intros; congruence|].
    destruct (Nat.leb_spec (length (partitions (state o))) i) as [Hle|Hlt].
    + intros _. split; [done|]. by rewrite lookup_ge_None_2 by lia.
    + destruct (outcomes (state o) !! i) as [[oc'|]|]; [done| |done].
      set (o1 := modify _ o). destruct (existsb is_none (outcomes (state o1))); [done|].
      destruct (completed_scan_cache_control _) as [control|reason].
      * destruct (env_freshness_deadline env _) as [f|reason].
        -- by destruct (publish_stores env f (scan_cache_storage_control control (durable_revalidation o1)) o1
             DiskReap) as [-> _].
        -- by rewrite refuse_freshness_closed.
      * by rewrite refuse_completed_closed.
Qed.

(** The configuration never changes. *)
Lemma publish_rev env f control o : durable_revalidation (publish env f control o) = durable_revalidation o.
Proof.
  unfold publish. cbv zeta.
  assert (durable_revalidation (commit_disk env f control o).1 = durable_revalidation o) as <-.
  { destruct o as [cat fn disk rev fl [ps os ss mb ma dc ds ab cm] lg]. unfold commit_disk. step_capture.
    destruct dc, disk; try destruct (env_commit_freshness env); by step_capture. }
  assert (forall r, durable_revalidation (reap_expired env f r).1 = durable_revalidation r.1) as Hreap.
  { intros [o' d]. unfold reap_expired. destruct (_ && _ && d); [|done]. by destruct (has_disk_cache o'). }
  rewrite <- Hreap. destruct (reap_expired _ _ _) as [o' d]. cbn [fst].
  destruct o' as [cat fn disk rev fl [ps os ss mb ma dc ds ab cm] lg]. unfold store_memory. step_capture.
  destruct (memory_takes _ _ _), d; by step_capture.
Qed.
Lemma rev_constant o e : durable_revalidation (run_op o e) = durable_revalidation o.
Proof.
  destruct o as [cat fn disk rev fl [ps os ss mb ma dc ds ab cm] lg].
  destruct e as [env [reason|p| | |i|i b|i oc]]; cbn [run_op snd].
  - unfold abort_capture, take_and_abort_reporting. destruct (closed _); [done|]. step_capture.
    destruct dc as [c|]; [destruct (env_abort env c)|]; by step_capture.
  - by destruct fl.
  - unfold revalidated. destruct (closed _); [done|]. by step_capture.
  - unfold discard_unstarted. destruct (_ || _); [done|]. by step_capture.
  - unfold start. destruct (negb _ && negb _), disk; try destruct (env_begin_capture env); by step_capture.
  - unfold push_batch, push_disk. destruct (_ || _); [done|]. step_capture.
    destruct dc as [c|]; [destruct (env_push_batch env c i b) as [c' [error|]]|]; by step_capture.
  - unfold complete. destruct (_ || _); [done|]. cbn [state outcomes]. destruct (os !! i) as [[?|]|]; [done| |done].
    step_capture. destruct (existsb _ _); [done|]. destruct (completed_scan_cache_control _).
    + destruct (env_freshness_deadline env _).
      * by rewrite publish_rev.
      * unfold refuse_freshness. by step_capture.
    + unfold refuse_completed. by step_capture.
Qed.

(** While the capture is open its state is a function of the history. *)
Lemma run_history cat f disk rev n es :
  let o := run (new_capture cat f disk rev n) es in
  closed (state o) = false ->
  outcomes (state o) = map (fun i => completed i es) (seq 0 n) /\
  (memory_abandoned (state o) = false -> partitions (state o) = map (fun i => pushed i es) (seq 0 n)).
Proof.
  cbv zeta. induction es as [|e es IH] using rev_ind.
  - intros _. cbn. split; [|intros _]; apply list_eq; intros j; rewrite list_lookup_fmap;
      destruct (decide (j < n)%nat).
    all: rewrite ?lookup_replicate_2, ?lookup_seq_lt by lia; try done.
    all: by rewrite !lookup_ge_None_2 by (rewrite ?length_replicate, ?length_seq; lia).
  - unfold run. rewrite fold_left_app. cbn [fold_left]. fold (run (new_capture cat f disk rev n) es).
    set (o := run _ es) in *. intros Hc.
    assert (capture_inv n o) as Hinv by apply run_inv, new_capture_inv.
    destruct (op_open n o e Hinv Hc) as (Hc0 & Hos & Hps).
    destruct (IH Hc0) as [IHos IHps]. split.
    + rewrite Hos. apply list_eq. intros j. rewrite list_lookup_fmap.
      destruct (decide (j < n)%nat) as [Hj|Hj].
      * rewrite lookup_seq_lt by done. cbn [fmap option_fmap option_map Nat.add]. rewrite completed_snoc.
        assert (outcomes (state o) !! j = Some (completed j es)) as Hoj
          by (rewrite IHos, list_lookup_fmap, lookup_seq_lt by done; done).
        destruct e as [env [| | | | | |i oc]]; cbn [snd completed]; try (rewrite Hoj; by destruct (completed j es)).
        destruct (Nat.eqb_spec i j) as [->|Hne].
        -- rewrite Hoj. destruct (completed j es) eqn:Hcj; [by rewrite Hoj, ?Hcj|].
           rewrite list_lookup_insert_eq; [done|]. by rewrite (ci_outcomes _ _ Hinv).
        -- transitivity (outcomes (state o) !! j); [|rewrite Hoj; by destruct (completed j es)].
           destruct (outcomes (state o) !! i) as [[?|]|]; try done. by rewrite list_lookup_insert_ne.
      * rewrite !lookup_ge_None_2; [done|rewrite length_seq; lia|].
        destruct e.2; try (rewrite (ci_outcomes _ _ Hinv); lia).
        destruct (_ !! _) as [[?|]|]; rewrite ?length_insert, (ci_outcomes _ _ Hinv); lia.
    + intros Ha. destruct (Hps Ha) as [Ha0 ->]. specialize (IHps Ha0).
      apply list_eq. intros j. rewrite list_lookup_fmap.
      assert (match e.2 with OpPush i b => alter (fun bs => bs ++ [b]) i (partitions (state o))
              | _ => partitions (state o) end !! j
              = (fun bs => bs ++ pushed j [e]) <$> partitions (state o) !! j) as ->.
      { destruct e as [env [| | | | |i b|]]; cbn [snd pushed omap list_omap];
          try (destruct (_ !! j); cbn; by rewrite ?app_nil_r).
        rewrite list_lookup_alter. destruct (Nat.eqb_spec i j) as [->|Hne].
        - by rewrite decide_True.
        - rewrite decide_False by done. destruct (_ !! j); cbn; by rewrite ?app_nil_r. }
      rewrite IHps, list_lookup_fmap. destruct (seq 0 n !! j) as [k|] eqn:Hk; [|done].
      apply lookup_seq in Hk as [-> _]. cbn. by rewrite pushed_snoc.
Qed.

(** The state of affairs in which a call [complete env i oc], after [before],
    may put [c] into a tier. *)
Definition publication_point cat f disk rev n (before : list (Env * Op)) env i oc (c : Call) : Prop :=
  exists control freshness,
    let outs := map (fun j => completed j (before ++ [(env, OpComplete i oc)])) (seq 0 n) in
    let stored := scan_cache_storage_control control rev in
    let state_before := state (run (new_capture cat f disk rev n) before) in
    Forall is_Some outs /\
    scanned_controls outs <> [] /\ Forall (fun k => k = Some control) (scanned_controls outs) /\
    env_freshness_deadline env stored = inl freshness /\
    match c with
    | CacheInsert batches substreams ttl control' =>
        batches = concat (map (fun j => pushed j before) (seq 0 n)) /\
        substreams = length (scanned_controls outs) /\ control' = stored /\
        ttl = (if env_is_immediately_stale env freshness then 0 else env_remaining env freshness) /\
        memory_takes env freshness state_before = true
    | DiskCommit cap f' control' =>
        disk_capture state_before = Some cap /\ f' = freshness /\ control' = stored
    | _ => False
    end.

Lemma completed_control_spec os control :
  completed_scan_cache_control os = inl control ->
  scanned_controls os <> [] /\ Forall (fun k => k = Some control) (scanned_controls os).
Proof.
  unfold completed_scan_cache_control. destruct (scanned_controls os) as [|[k|] ks]; [done| |done].
  destruct (existsb _ _) eqn:Hex; [done|]. intros [= ->]. split; [done|].
  apply Forall_forall. intros k Hk%list_elem_of_In.
  destruct (decide (k = Some control)) as [|Hne]; [done|]. exfalso.
  assert (existsb (fun candidate => negb (bool_decide (candidate = Some control))) (Some control :: ks) = true);
    [|congruence].
  apply existsb_exists. exists k. split; [done|]. by rewrite bool_decide_false.
Qed.

(** The outcomes after [complete] has recorded its own. *)
Lemma recorded_outcomes n es i (oc : ScanCachePartitionOutcome) env os :
  os = map (fun j => completed j es) (seq 0 n) -> os !! i = Some None ->
  <[i := Some oc]> os = map (fun j => completed j (es ++ [(env, OpComplete i oc)])) (seq 0 n).
Proof.
  intros -> Hi. apply list_eq. intros j. rewrite (list_lookup_fmap _ _ j).
  destruct (decide (i = j)) as [->|Hne].
  - rewrite list_lookup_insert_eq by (by eapply lookup_lt_Some).
    rewrite list_lookup_fmap in Hi. destruct (seq 0 n !! j) as [k|] eqn:Hk; [|done].
    apply lookup_seq in Hk as [-> _]. cbn in *. rewrite completed_snoc.
    injection Hi as ->. cbn. by rewrite Nat.eqb_refl.
  - rewrite list_lookup_insert_ne, list_lookup_fmap by done.
    destruct (seq 0 n !! j) as [k|] eqn:Hk; [|done]. apply lookup_seq in Hk as [-> _]. cbn.
    rewrite completed_snoc. cbn. destruct (Nat.eqb_spec i j); [done|]. by destruct (completed j es).
Qed.

Lemma complete_publication cat f disk rev n es env i oc c :
  let o := run (new_capture cat f disk rev n) es in
  c ∈ log (complete env i oc o) -> is_store c = true ->
  c ∈ log o \/ publication_point cat f disk rev n es env i oc c.
Proof.
  cbv zeta. set (o := run _ es). intros Hc Hs.
  assert (durable_revalidation o = rev) as Hrev.
  { unfold o. clear. induction es as [|e es IH] using rev_ind; [done|].
    unfold run in *. rewrite fold_left_app. cbn [fold_left]. by rewrite rev_constant. }
  unfold complete in Hc. destruct (closed (state o)) eqn:Hcl; cbn [orb] in Hc; [by left|].
  destruct (_ <=? i)%nat; [by left|].
  destruct (run_history cat f disk rev n es Hcl) as [Hos Hps]. fold o in Hos, Hps.
  destruct (outcomes (state o) !! i) as [[oc'|]|] eqn:Hi; try by left.
  set (o1 := modify _ o) in Hc.
  pose proof (recorded_outcomes n es i oc env _ Hos Hi) as Houts.
  change (<[i := Some oc]> (outcomes (state o))) with (outcomes (state o1)) in Houts.
  destruct (existsb is_none (outcomes (state o1))) eqn:Hall; [by left|].
  destruct (completed_scan_cache_control (outcomes (state o1))) as [control|reason] eqn:Hctl.
  2: { left. eapply (store_in_filter (log o)); [|exact Hc|done]. apply (refusals_no_stores env reason o1). }
  destruct (env_freshness_deadline env _) as [fr|reason] eqn:Hfr.
  2: { left. eapply (store_in_filter (log o)); [|exact Hc|done]. apply (refusals_no_stores env reason o1). }
  change (durable_revalidation o1) with (durable_revalidation o) in *. rewrite Hrev in *.
  destruct (publish_stores env fr (scan_cache_storage_control control rev) o1 c) as [_ Hpub].
  destruct (Hpub Hc Hs) as [Hold|Hnew]; [by left|right].
  apply completed_control_spec in Hctl as [Hne Hsame]. exists control, fr. cbv zeta. rewrite <- Houts.
  split.
  { apply Forall_forall. intros x Hx. destruct x; [eauto|]. exfalso.
    assert (existsb is_none (outcomes (state o1)) = true); [|congruence].
    apply existsb_exists. exists None. split; [by apply list_elem_of_In|done]. }
  split; [done|]. split; [done|]. split; [done|].
  destruct Hnew as [(cap & Hcap & ->)|[Hm ->]]; [done|].
  assert (memory_abandoned (state o) = false) as Hab.
  { change (memory_abandoned (state o)) with (memory_abandoned (state o1)).
    unfold memory_takes in Hm. by destruct (memory_abandoned (state o1)); [rewrite andb_false_r in Hm|]. }
  split; [|split; [|done]].
  - change (partitions (state o1)) with (partitions (state o)). by rewrite (Hps Hab).
  - unfold executed_cache_substreams. destruct (scanned_controls (outcomes (state o1))); [done|]. cbn. lia.
Qed.

(** C24: only complete, agreeing results are stored. Whenever rows enter a cache
    tier it is during a call of [complete] at which every partition has
    completed, at least one having scanned, and every scanned partition
    reported one and the same cache control, which is the stored one (without
    its validators when durable revalidation is off) and was judged fresh; the
    memory tier receives exactly the batches pushed so far, partition by
    partition in order, with the number of scanned partitions, and only a
    result within its limits. *)
Theorem published_results_complete cat f disk rev n es c :
  c ∈ log (run (new_capture cat f disk rev n) es) -> is_store c = true ->
  exists before env i oc after,
    es = before ++ (env, OpComplete i oc) :: after /\
    publication_point cat f disk rev n before env i oc c.
Proof.
  intros Hc Hs. induction es as [|e es IH] using rev_ind; [by apply elem_of_nil in Hc|].
  unfold run in Hc. rewrite fold_left_app in Hc. cbn [fold_left] in Hc.
  fold (run (new_capture cat f disk rev n) es) in Hc.
  assert (c ∈ log (run (new_capture cat f disk rev n) es) -> exists before env i oc after,
    es ++ [e] = before ++ (env, OpComplete i oc) :: after /\
    publication_point cat f disk rev n before env i oc c) as Hold.
  { intros Hc0. destruct (IH Hc0) as (before & env & i & oc & after & -> & Hrest).
    exists before, env, i, oc, (after ++ [e]). split; [by rewrite <- app_assoc|done]. }
  destruct e as [env op]. pose proof (op_no_stores (run (new_capture cat f disk rev n) es) (env, op)) as Hno.
  cbn [snd] in Hno. destruct op as [| | | | | |i oc]; try (apply Hold; by eapply store_in_filter).
  cbn [run_op] in Hc. apply complete_publication in Hc as [Hc|Hc]; [by apply Hold| |done].
  by exists es, env, i, oc, [].
Qed.

(** ** What followers learn *)

Section Followers.
Context {K : Type} `{!EqDecision K} `{!Countable K}.

(** The capture's flight calls, applied to the registry. *)
Definition replay_call (s : Registry (K := K)) (c : Call) : Registry :=
  match c with
  | FlightStored p => stored s p
  | FlightAborted p reason => abort s p reason
  | _ => s
  end.
Definition replay (s : Registry (K := K)) (l : list Call) : Registry := fold_left replay_call l s.

Lemma replay_signals s l : replay s l = replay s (List.filter is_signal l).
Proof.
  unfold replay. revert s. induction l as [|c l IH]; intros s; [done|]. cbn [fold_left List.filter].
  destruct (is_signal c) eqn:Hs; cbn [fold_left]; rewrite IH; [done|]. by destruct c.
Qed.

(** Followers learn the truth. When the capture's calls reach the flight
    registry, every follower of the producer's flight that was told [Stored]
    was told so by a committed capture, and a capture that signalled an abort
    was not committed: both kinds of waiters read exactly the signalled
    outcome. *)
Theorem followers_learn_outcome cat f disk rev n es env (s : Registry (K := K)) p q :
  reachable s -> producers s !! p = Some q -> producer_pc q = Running ->
  let o := run (new_capture cat f disk rev n) es in
  let l := log (drop_capture env o) in
  (FlightStored p ∈ l ->
     committed (state o) = true /\
     poll_blocking (replay s l) p = Some Stored /\ poll_watch (replay s l) p = Some Stored) /\
  (forall r, FlightAborted p r ∈ l ->
     committed (state o) = false /\
     poll_blocking (replay s l) p = Some (Aborted r) /\ poll_watch (replay s l) p = Some (Aborted r)).
Proof.
  intros Hr%reachable_inv Hq Hpc. cbv zeta. rewrite replay_signals.
  destruct (capture_settles cat f disk rev n es env) as (_ & _ & Hsig).
  set (o := run _ es) in *. set (l := log _) in *.
  assert (forall c, c ∈ l -> is_signal c = true -> c ∈ List.filter is_signal l) as Hin.
  { intros c Hc Hs. apply list_elem_of_In, filter_In. split; [by apply list_elem_of_In|done]. }
  pose proof (fun out => finish_publishes s p q out Hr Hq) as Hfin. rewrite Hpc in Hfin.
  destruct Hsig as [Hsig|[(p' & Hsig & Hm)|(p' & r' & Hsig & Hm)]]; rewrite Hsig in *; split; intros *;
    intros Hc; apply Hin in Hc; try done.
  all: try (by apply elem_of_nil in Hc).
  all: apply list_elem_of_singleton in Hc; try done.
  all: injection Hc; intros; subst; split; [done|]; cbn; apply Hfin.
Qed.
End Followers.
End Capture.

(** ** A concrete capture

    Two partitions; batches are their sizes, the disk tier is a counter. *)

Definition ex_control : CacheControl (Rest := nat) := mkControl (Some "v1") None true None None 0%nat.
Definition ex_env : Env (Batch := Z) (Capture := nat) (Freshness := unit) (Rest := nat) :=
  mkEnv 0 (mkLimits 100 1000 10 60) (inl 0%nat) (fun c _ _ => (S c, None)) (fun _ => None)
    (fun _ => inl tt) CommitStored (fun _ => false) (fun _ => 60) (fun _ => false).
Definition ex_history : list (Env (Batch := Z) (Capture := nat) (Freshness := unit) (Rest := nat) * Op) :=
  map (pair ex_env)
    [OpSetFlight 0; OpStart 0; OpPush 1 7; OpPush 0 5; OpComplete 1 (Scanned (Some ex_control)); OpPush 0 6;
     OpComplete 0 (Scanned (Some ex_control))].
Abbreviation ex_capture := (run (fun b => b) (new_capture "c" "s.f" true true 2) ex_history) (only parsing).

Example ex_capture_log :
  log ex_capture
  = [DiskBegin 0%nat; DiskCommit 3%nat tt ex_control; CacheInsert [5; 6; 7] 2 60 ex_control; CountStore;
     Emit (mkEvent 0 "cache.store" (Some "c") (Some "s.f") None None (Some "tier=memory+disk"));
     FlightStored 0].
Proof. vm_compute. reflexivity. Qed.

Lemma closed_capture_inert_witness :
  closed (state ex_capture) = true /\
  log (drop_capture ex_env (run (fun b => b) ex_capture ex_history)) = log ex_capture.
Proof.
  assert (closed (state ex_capture) = true) as Hc by (vm_compute; reflexivity). split; [exact Hc|].
  destruct (closed_capture_inert (fun b => b) "c" "s.f" true true 2 ex_history ex_history ex_env Hc)
    as [H _]. exact H.
Defined.

Lemma published_results_complete_witness :
  exists before env i oc after,
    ex_history = before ++ (env, OpComplete i oc) :: after /\
    publication_point (fun b => b) "c" "s.f" true true 2 before env i oc
      (CacheInsert [5; 6; 7] 2 60 ex_control).
Proof.
  apply (published_results_complete (fun b => b) "c" "s.f" true true 2 ex_history
    (CacheInsert [5; 6; 7] 2 60 ex_control)); [|reflexivity].
  apply list_elem_of_In. vm_compute. tauto.
Defined.

Lemma followers_learn_outcome_witness :
  poll_blocking (replay ex_registry (log (drop_capture ex_env ex_capture))) 0 = Some Stored.
Proof.
  destruct (followers_learn_outcome (fun b => b) "c" "s.f" true true 2 ex_history ex_env ex_registry 0
    (mkProducer "k" 0 Running) ex_registry_reachable eq_refl eq_refl) as [H _].
  destruct H as (_ & H & _); [|exact H]. apply list_elem_of_In. vm_compute. tauto.
Defined.
