(* ===== verification/Interact.v ===== *)
(** * Programs that interact

    Code that talks to workers, caches and other threads is a tree of calls:
    each [Vis] performs one call and continues with whatever answer comes back.
    Trees are finite, so such a program terminates against every environment.
    Properties are proved with a weakest precondition over a contract: what
    the environment's answers are assumed to satisfy and what the program's
    calls must satisfy, relative to a ghost state that observes the calls. *)

From S2P Require Import Prelude.

Section Interact.
Context {C : Type} {R : C -> Type}.

Inductive prog (A : Type) :=
  | Ret (a : A)
  | Vis (c : C) (k : R c -> prog A).
Arguments Ret {A} a.
Arguments Vis {A} c k.

Fixpoint prog_bind {A B} (p : prog A) (f : A -> prog B) : prog B :=
  match p with
  | Ret a => f a
  | Vis c k => Vis c (fun r => prog_bind (k r) f)
  end.

Definition call (c : C) : prog (R c) := Vis c Ret.

(** A call and its answer. *)
Definition event : Type := {c : C & R c}.

(** [runs p tr a]: [p] can make exactly the calls of [tr], with those answers,
    and return [a]. *)
Inductive runs {A} : prog A -> list event -> A -> Prop :=
  | runs_ret a : runs (Ret a) [] a
  | runs_vis c k r tr a : runs (k r) tr a -> runs (Vis c k) (existT c r :: tr) a.

(** Running against an environment that may remember the calls so far. *)
Fixpoint interp {A} (env : list event -> forall c, R c) (past : list event) (p : prog A)
    : list event * A :=
  match p with
  | Ret a => ([], a)
  | Vis c k =>
      let e : event := existT c (env past c) in
      let '(tr, a) := interp env (past ++ [e]) (k (env past c)) in (e :: tr, a)
  end.

(** Whatever the environment, a program terminates. *)
Lemma interp_runs {A} env past (p : prog A) :
  runs p (interp env past p).1 (interp env past p).2.
Proof.
  revert past. induction p as [a|c k IH]; intros past; cbn; [constructor|].
  specialize (IH (env past c) (past ++ [existT c (env past c)])).
  destruct (interp _ _ _) as [tr a]. by constructor.
Qed.

Lemma runs_vis_inv {A} c (k : R c -> prog A) tr a :
  runs (Vis c k) tr a -> exists r tr', tr = existT c r :: tr' /\ runs (k r) tr' a.
Proof.
  intros H.
  refine (match H in runs p tr a
                return match p with
                       | Ret _ => True
                       | Vis c k => exists r tr', tr = existT c r :: tr' /\ runs (k r) tr' a
                       end
          with runs_ret _ => I | runs_vis _ _ _ _ _ H' => _ end).
  eauto.
Qed.

(** Runs of a sequence are runs one after the other. *)
Lemma runs_bind {A B} (p : prog A) (f : A -> prog B) tr1 tr2 a b :
  runs p tr1 a -> runs (f a) tr2 b -> runs (prog_bind p f) (tr1 ++ tr2) b.
Proof. induction 1 as [|c k r tr a _ IH]; cbn; [done|]. intros H. constructor. by apply IH. Qed.
Lemma runs_bind_inv {A B} (p : prog A) (f : A -> prog B) tr b :
  runs (prog_bind p f) tr b ->
  exists tr1 tr2 a, tr = tr1 ++ tr2 /\ runs p tr1 a /\ runs (f a) tr2 b.
Proof.
  revert tr. induction p as [a|c k IH]; cbn; intros tr.
  - intros H. exists [], tr, a. split; [done|]. split; [constructor|done].
  - intros (r & tr' & -> & Hr)%runs_vis_inv.
    destruct (IH r tr' Hr) as (tr1 & tr2 & a & -> & H1 & H2).
    exists (existT c r :: tr1), tr2, a. split; [done|]. split; [by constructor|done].
Qed.

(** ** Contracts *)

Record contract := {
  ghost : Type;
  rely : ghost -> forall c, R c -> Prop;
  guarantee : ghost -> C -> Prop;
  update : ghost -> forall c, R c -> ghost
}.

Variable K : contract.

Fixpoint wp {A} (g : ghost K) (p : prog A) (Q : A -> ghost K -> Prop) : Prop :=
  match p with
  | Ret a => Q a g
  | Vis c k => guarantee K g c /\ forall r, rely K g c r -> wp (update K g c r) (k r) Q
  end.

Lemma wp_mono {A} g (p : prog A) (Q Q' : A -> ghost K -> Prop) :
  (forall a g', Q a g' -> Q' a g') -> wp g p Q -> wp g p Q'.
Proof.
  intros H. revert g. induction p as [a|c k IH]; intros g; cbn; [apply H|].
  intros [Hg Hk]. split; [done|]. eauto.
Qed.

Lemma wp_bind {A B} g (p : prog A) (f : A -> prog B) (Q : B -> ghost K -> Prop) :
  wp g p (fun a g' => wp g' (f a) Q) -> wp g (prog_bind p f) Q.
Proof.
  revert g. induction p as [a|c k IH]; intros g; cbn; [done|].
  intros [Hg Hk]. split; [done|]. eauto.
Qed.

(** The environment keeps its side of the contract along a trace, and the
    program its own. *)
Fixpoint relied (g : ghost K) (tr : list event) : Prop :=
  match tr with
  | [] => True
  | existT c r :: tr => rely K g c r /\ relied (update K g c r) tr
  end.
Fixpoint guaranteed (g : ghost K) (tr : list event) : Prop :=
  match tr with
  | [] => True
  | existT c r :: tr => guarantee K g c /\ guaranteed (update K g c r) tr
  end.
Fixpoint observe (g : ghost K) (tr : list event) : ghost K :=
  match tr with [] => g | existT c r :: tr => observe (update K g c r) tr end.

Lemma wp_sound {A} g (p : prog A) tr a Q :
  runs p tr a -> wp g p Q -> relied g tr -> guaranteed g tr /\ Q a (observe g tr).
Proof.
  intros H. revert g. induction H as [a|c k r tr a _ IH]; intros g; cbn; [done|].
  intros [Hg Hk] [Hr Htr]. destruct (IH _ (Hk r Hr) Htr) as [? ?]. done.
Qed.

(** What a kept guarantee says of each call of a trace. *)
Lemma guaranteed_at g before c r after :
  guaranteed g (before ++ existT c r :: after) -> guarantee K (observe g before) c.
Proof.
  revert g. induction before as [|[c' r'] before IH]; intros g; cbn; [by intros [??]|].
  intros [_ H]. by apply IH.
Qed.
End Interact.

(** The contract whose ghost state is the trace itself. *)
Section Traced.
Context {C : Type} {R : C -> Type}.
Variable answers : forall c, R c -> Prop.
Definition traced : contract (R := R) :=
  {| ghost := list (event (R := R)); rely := fun _ => answers; guarantee := fun _ _ => True;
     update := fun g c r => g ++ [existT c r] |}.
Lemma observe_traced (g tr : list (event (R := R))) : observe traced g tr = g ++ tr.
Proof.
  revert g. induction tr as [|[c r] tr IH]; intros g; cbn; [by rewrite app_nil_r|].
  rewrite IH. by rewrite <- app_assoc.
Qed.
Lemma relied_traced g (tr : list (event (R := R))) :
  relied traced g tr <-> forall c r, existT c r ∈ tr -> answers c r.
Proof.
  revert g. induction tr as [|[c r] tr IH]; intros g; cbn.
  - split; [|done]. intros _ c r H. inversion H.
  - rewrite IH. split.
    + intros [Hr H] c' r' [E|Hin]%elem_of_cons; [|by apply H].
      exact (match E in _ = e return match e with existT c r => answers c r end -> answers c' r' with
             | eq_refl => fun H => H end Hr).
    + intros H. split; [apply H; by left|]. intros c' r' Hin. apply H. by right.
Qed.
End Traced.

Arguments prog {C} R A.
Arguments Ret {C R A} a.
Arguments Vis {C R A} c k.
Arguments contract {C} R.
Arguments event {C} R.

(** ** Function bodies

    A function body with local state: it may return early, leaving the state to
    the destructors of whoever holds it. *)

Section Body.
Context {C : Type} {R : C -> Type} {S : Type}.

Definition body (A : Type) : Type := S -> prog R (S * result A).

Definition ret {A} (a : A) : body A := fun s => Ret (s, Ok a).
Definition fail {A} (e : DFError) : body A := fun s => Ret (s, Err e).
Definition bind {A B} (m : body A) (f : A -> body B) : body B :=
  fun s => prog_bind (m s) (fun r => match r with
                                     | (s', Ok a) => f a s'
                                     | (s', Err e) => Ret (s', Err e)
                                     end).
Definition lift {A} (p : prog R A) : body A := fun s => prog_bind p (fun a => Ret (s, Ok a)).
Definition do_ (c : C) : body (R c) := lift (call c).
(** [r?] *)
Definition try_ {A} (r : result A) : body A := match r with Ok a => ret a | Err e => fail e end.
Definition get_state : body S := fun s => Ret (s, Ok s).
Definition put_state (s' : S) : body unit := fun _ => Ret (s', Ok tt).

Fixpoint for_each {A} (l : list A) (f : A -> body unit) : body unit :=
  match l with [] => ret tt | x :: l => bind (f x) (fun _ => for_each l f) end.

(** Weakest preconditions of bodies; an early return must [leave] the state as
    the destructors need it. *)
Section Rules.
Variable K : contract R.
Variable leave : S -> ghost K -> Prop.

Definition wpb {A} (g : ghost K) (s : S) (m : body A) (Q : A -> S -> ghost K -> Prop) : Prop :=
  wp K g (m s) (fun r g' => match r.2 with Ok a => Q a r.1 g' | Err _ => leave r.1 g' end).

Lemma wpb_ret {A} g s (a : A) Q : Q a s g -> wpb g s (ret a) Q.
Proof. done. Qed.
Lemma wpb_fail {A} g s e (Q : A -> _ -> _ -> Prop) : leave s g -> wpb g s (fail e) Q.
Proof. done. Qed.
Lemma wpb_bind {A B} g s (m : body A) (f : A -> body B) Q :
  wpb g s m (fun a s' g' => wpb g' s' (f a) Q) -> wpb g s (bind m f) Q.
Proof.
  intros H. apply wp_bind. eapply wp_mono; [|exact H].
  intros [s' [a|e]] g'; cbn; done.
Qed.
Lemma wpb_mono {A} g s (m : body A) (Q Q' : A -> _ -> _ -> Prop) :
  (forall a s' g', Q a s' g' -> Q' a s' g') -> wpb g s m Q -> wpb g s m Q'.
Proof.
  intros HQ. apply wp_mono. intros [s' [a|e]] g'; cbn; [apply HQ|done].
Qed.
Lemma wpb_do g s c Q :
  guarantee K g c ->
  (forall r, rely K g c r -> Q r s (update K g c r)) -> wpb g s (do_ c) Q.
Proof. intros Hg Hr. split; [exact Hg|]. exact Hr. Qed.
Lemma wpb_lift {A} g s (p : prog R A) Q :
  wp K g p (fun a g' => Q a s g') -> wpb g s (lift p) Q.
Proof. intros H. apply wp_bind. eapply wp_mono; [|exact H]. done. Qed.
Lemma wpb_try {A} g s (r : result A) Q :
  (forall a, r = Ok a -> Q a s g) -> leave s g -> wpb g s (try_ r) Q.
Proof. intros Hok Hc. destruct r; cbn; [by apply Hok|done]. Qed.
Lemma wpb_get g s Q : Q s s g -> wpb g s get_state Q.
Proof. done. Qed.
Lemma wpb_put g s s' Q : Q tt s' g -> wpb g s (put_state s') Q.
Proof. done. Qed.

Lemma wpb_for_each {A} (I : list A -> S -> ghost K -> Prop) (l : list A) (f : A -> body unit) g s :
  (forall x rest s g, I (x :: rest) s g -> wpb g s (f x) (fun _ s' g' => I rest s' g')) ->
  I l s g -> wpb g s (for_each l f) (fun _ s' g' => I [] s' g').
Proof.
  intros Hf. revert g s. induction l as [|x l IH]; intros g s HI.
  - by apply wpb_ret.
  - change (for_each (x :: l) f) with (bind (f x) (fun _ => for_each l f)).
    apply wpb_bind. eapply wpb_mono; [|exact (Hf _ _ _ _ HI)]. intros ? s' g' HI'. exact (IH _ _ HI').
Qed.
End Rules.
End Body.

Arguments body {C} R S A.

(** ** Jobs

    A program whose steps may fail and whose loops run on fuel: [None] means it
    was still in a loop when the fuel ran out. *)

Section Job.
Context {C : Type} {R : C -> Type}.

Definition job (A : Type) : Type := prog R (option (result A)).

Definition job_ret {A} (a : A) : job A := Ret (Some (Ok a)).
Definition job_fail {A} (e : DFError) : job A := Ret (Some (Err e)).
Definition job_running {A} : job A := Ret None.
Definition job_bind {A B} (m : job A) (f : A -> job B) : job B :=
  prog_bind m (fun r => match r with
                        | Some (Ok a) => f a
                        | Some (Err e) => Ret (Some (Err e))
                        | None => Ret None
                        end).
Definition job_call (c : C) : job (R c) := Vis c job_ret.
(** [r?] *)
Definition job_try {A} (r : result A) : job A := Ret (Some r).
(** A call that answers with a result, and [?] on it. *)
Definition job_ask {A} (c : C) (to_result : R c -> result A) : job A :=
  Vis c (fun r => job_try (to_result r)).
Fixpoint job_each {A} (l : list A) (f : A -> job unit) : job unit :=
  match l with [] => job_ret tt | x :: l => job_bind (f x) (fun _ => job_each l f) end.

(** [if b { m }] *)
Definition job_when (b : bool) (m : job unit) : job unit := if b then m else job_ret tt.

(** Postconditions for the three ways a job can end. *)
Section Rules.
Variable K : contract R.
Variable failed : DFError -> ghost K -> Prop.
Variable still : ghost K -> Prop.

Definition wpj {A} (g : ghost K) (m : job A) (Q : A -> ghost K -> Prop) : Prop :=
  wp K g m (fun r g' => match r with Some (Ok a) => Q a g' | Some (Err e) => failed e g' | None => still g' end).

Lemma wpj_ret {A} g (a : A) (Q : A -> ghost K -> Prop) : Q a g -> wpj g (job_ret a) Q.
Proof. done. Qed.
Lemma wpj_fail {A} g e (Q : A -> ghost K -> Prop) : failed e g -> wpj g (job_fail e) Q.
Proof. done. Qed.
Lemma wpj_running {A} g (Q : A -> ghost K -> Prop) : still g -> wpj g job_running Q.
Proof. done. Qed.
Lemma wpj_try {A} g (r : result A) (Q : A -> ghost K -> Prop) :
  (forall a, r = Ok a -> Q a g) -> (forall e, r = Err e -> failed e g) -> wpj g (job_try r) Q.
Proof. intros Ha He. unfold wpj. cbn. destruct r; [by apply Ha|by apply He]. Qed.
Lemma wpj_mono {A} g (m : job A) (Q Q' : A -> ghost K -> Prop) :
  (forall a g', Q a g' -> Q' a g') -> wpj g m Q -> wpj g m Q'.
Proof. intros H. apply wp_mono. intros [[a|e]|] g'; [apply H|done..]. Qed.
Lemma wpj_bind {A B} g (m : job A) (f : A -> job B) Q :
  wpj g m (fun a g' => wpj g' (f a) Q) -> wpj g (job_bind m f) Q.
Proof. intros H. apply wp_bind. eapply wp_mono; [|exact H]. intros [[a|e]|] g'; done. Qed.
(** A step with a known postcondition, then the rest. *)
Lemma wpj_seq {A B} g (m : job A) (f : A -> job B) P Q :
  wpj g m P -> (forall a g', P a g' -> wpj g' (f a) Q) -> wpj g (job_bind m f) Q.
Proof. intros Hm Hf. apply wpj_bind. eapply wpj_mono; [|exact Hm]. exact Hf. Qed.
Lemma wpj_call g c (Q : R c -> ghost K -> Prop) :
  guarantee K g c -> (forall r, rely K g c r -> Q r (update K g c r)) -> wpj g (job_call c) Q.
Proof. intros Hg Hr. split; [exact Hg|exact Hr]. Qed.
Lemma wpj_ask {A} g c (to_result : R c -> result A) (Q : A -> ghost K -> Prop) :
  guarantee K g c ->
  (forall r, rely K g c r -> match to_result r with
                             | Ok a => Q a (update K g c r)
                             | Err e => failed e (update K g c r)
                             end) ->
  wpj g (job_ask c to_result) Q.
Proof.
  intros Hg Hr. split; [exact Hg|]. intros r Hrely. specialize (Hr r Hrely). cbn. by destruct (to_result r).
Qed.
Lemma wpj_each {A} (I : list A -> ghost K -> Prop) (l : list A) (f : A -> job unit) g :
  (forall x rest g, I (x :: rest) g -> wpj g (f x) (fun _ g' => I rest g')) ->
  I l g -> wpj g (job_each l f) (fun _ g' => I [] g').
Proof.
  intros Hf. revert g. induction l as [|x l IH]; intros g HI; [done|].
  cbn [job_each]. eapply wpj_seq; [exact (Hf _ _ _ HI)|]. intros ? g' HI'. by apply IH.
Qed.
End Rules.
End Job.

Arguments job {C} R A.

(** Notations of a module that writes jobs. *)
Declare Scope job_scope.
Delimit Scope job_scope with job.
Notation "x <~ m ;; k" := (job_bind m (fun x => k))
  (at level 100, m at next level, right associativity) : job_scope.
Notation "m ;; k" := (job_bind m (fun _ => k)) (at level 100, right associativity) : job_scope.
