(* ===== verification/Exchange.v ===== *)
(** * Exchange calls (src/src/table_input.rs: [run_exchange])

    A call with a TABLE argument pushes each input batch through the worker,
    serving what it can from the result cache and coalescing identical inputs
    with other callers. The function is a program of calls (Interact.v) to the
    worker connection, the result cache, the flight registry and the event log;
    its units of work are explicit state, and its early returns carry them, so
    that the producers they hold are dropped as Rust drops them. *)

From S2P Require Import Prelude ResultFlight Interact.

#[local] Open Scope Z_scope.

Section Exchange.
(** Cache keys, record batches and the control fields not inspected here. *)
Context {Key Batch Rest : Type}.
Variables (num_rows : Batch -> nat) (batch_bytes : Batch -> Z).

(** [vgi_client::CachedEntry] and [vgi_client::CacheControl]. *)
Record CachedEntry := mkEntry {
  entry_batches : list Batch;
  entry_bytes : Z;
  entry_etag : option string;
  entry_last_modified : option string
}.
Record Control := mkExchangeControl { not_modified : bool; control_fields : Rest }.

(** [ScanOptions]: the validators an exchange is opened with. *)
Record ScanOptions := mkOptions {
  if_none_match : option string;
  if_modified_since : option string
}.
Definition default_options : ScanOptions := mkOptions None None.

Inductive Call :=
  (** the worker connection; [Send] answers with the batch and the cache
      control the exchange shows after it *)
  | OpenExchange (opts : ScanOptions)
  | Send (opts : ScanOptions) (b : Batch)
  | CloseExchange
  (** the result cache *)
  | CacheGet (k : Key)
  | CacheGetForRevalidation (k : Key)
  | CacheInsert (k : Key) (bs : list Batch) (ttl : Z) (control : option Control)
  | CacheSlide (k : Key) (ttl : Z)
  | CacheRemove (k : Key)
  | CacheTtl (control : option Control) (k : Key) (bytes : Z)
  | MayServeOnError (e : CachedEntry)
  | RecordStaleServe
  (** flights *)
  | Acquire (k : Key)
  | FlightStored (p : nat)
  | FlightAborted (p : nat) (reason : string)
  | DropProducer (p : nat)
  | Wait (f : nat)
  (** statistics and events *)
  | NoteHit (bytes : Z)
  | NoteStore
  | Emit (kind : string) (message : option string).

Definition Resp (c : Call) : Type :=
  match c with
  | OpenExchange _ | CloseExchange => result unit
  | Send _ _ => result (option Batch * option Control)
  | CacheGet _ | CacheGetForRevalidation _ => option CachedEntry
  | CacheTtl _ _ _ => Z + string
  | MayServeOnError _ => bool
  | Acquire _ => ResultFlightClaim
  | Wait _ => ResultFlightOutcome
  | _ => unit
  end.

Abbreviation prog := (prog Resp) (only parsing).

(** ** Units of work *)

Inductive UnitState :=
  | Hit (cached : list Batch)
  | UnitProducer (p : nat)
  | UnitFollower (f : nat)
  | Uncached.

Record Unit_ := mkUnit {
  unit_input : Batch;
  unit_key : option Key;
  unit_state : UnitState;
  unit_output : option (list Batch)
}.

(** The function body updates the units and may return early, leaving them
    behind for their destructors. *)
Abbreviation Body := (body Resp (list Unit_)) (only parsing).

#[local] Notation "x <-- m ;;; k" := (bind m (fun x => k))
  (at level 100, m at next level, right associativity).
#[local] Notation "m ;;; k" := (bind m (fun _ => k)) (at level 100, right associativity).

(** [if let UnitState::Producer(producer) = &units[index].state { .. }] *)
Definition producer_of (u : Unit_) : option nat :=
  match unit_state u with UnitProducer p => Some p | _ => None end.
Definition with_producer (index : nat) (c : nat -> Call) : Body unit :=
  us <-- get_state ;;;
  match us !! index ≫= producer_of with
  | Some p => do_ (c p) ;;; ret tt
  | None => ret tt
  end.
Definition settle_stored (index : nat) : Body unit := with_producer index FlightStored.
Definition settle_aborted (index : nat) (reason : string) : Body unit :=
  with_producer index (fun p => FlightAborted p reason).

(** [units[index].output = Some(bs)] *)
Definition set_output (index : nat) (bs : list Batch) : Body unit :=
  us <-- get_state ;;;
  put_state (alter (fun u => mkUnit (unit_input u) (unit_key u) (unit_state u) (Some bs)) index us).

Definition emit (kind : string) (message : option string) : Body unit := do_ (Emit kind message).
(** [emit_table_input_write] *)
Definition emit_write (b : Batch) : prog unit :=
  call (Emit "table_in_out.write_input" (Some ("input_rows=" +:+ pretty (num_rows b)))).

Variable error_text : DFError -> string.
Variable function : string.

(** ** Probing and claiming *)

Definition probe_unit (template : option (Batch -> result Key)) (batch : Batch) : Body unit :=
  key <-- match template with
         | None => ret None
         | Some key_for_input => k <-- try_ (key_for_input batch) ;;; ret (Some k)
         end ;;;
  cached <-- match key with
            | None => ret None
            | Some k =>
                entry <-- do_ (CacheGet k) ;;;
                match entry with
                | None => ret None
                | Some entry => do_ (NoteHit (entry_bytes entry)) ;;; ret (Some (entry_batches entry))
                end
            end ;;;
  state <-- match cached, key with
           | Some cached, _ => emit "cache.hit" None ;;; ret (Hit cached)
           | None, Some k =>
               emit "cache.miss" None ;;;
               claim <-- do_ (Acquire k) ;;;
               ret (match claim with Producer p => UnitProducer p | Follower f => UnitFollower f end)
           | None, None => ret Uncached
           end ;;;
  us <-- get_state ;;;
  put_state (us ++ [mkUnit batch key state None]).

(** ** Revalidation *)

Fixpoint find_revalidations (index : nat) (us : list Unit_) : prog (list (nat * CachedEntry)) :=
  match us with
  | [] => Ret []
  | u :: us =>
      match unit_state u, unit_key u with
      | UnitProducer _, Some k =>
          prog_bind (call (CacheGetForRevalidation k)) (fun entry : option CachedEntry =>
          prog_bind (find_revalidations (S index) us) (fun rest =>
          Ret (match entry with Some entry => (index, entry) :: rest | None => rest end)))
      | _, _ => find_revalidations (S index) us
      end
  end.

(** The [attempt] closure. *)
Definition attempt (opts : ScanOptions) (input : Batch) : prog (result (Batch * option Control)) :=
  prog_bind (call (OpenExchange opts)) (fun opened : result unit =>
  match opened with
  | Err e => Ret (Err e)
  | Ok _ =>
      prog_bind (call (Send opts input)) (fun sent : result (option Batch * option Control) =>
      match sent with
      | Err e => Ret (Err e)
      | Ok (answer, control) =>
          prog_bind (emit_write input) (fun _ =>
          prog_bind (call CloseExchange) (fun closed : result unit =>
          match closed with
          | Err e => Ret (Err e)
          | Ok _ => Ret (match answer with
                         | Some answer => Ok (answer, control)
                         | None => Err (Execution (function
                                     +:+ " ended a conditional exchange without an answer"))
                         end)
          end))
      end)
  end).

Definition is_not_modified (control : option Control) : bool :=
  match control with Some c => not_modified c | None => false end.

Definition revalidate (item : nat * CachedEntry) : Body unit :=
  let '(index, stale) := item in
  us <-- get_state ;;;
  match us !! index with
  | Some (mkUnit input (Some key) _ _) =>
      r <-- lift (attempt (mkOptions (entry_etag stale) (entry_last_modified stale)) input) ;;;
      match r with
      | Err error =>
          may_serve <-- do_ (MayServeOnError stale) ;;;
          if may_serve : bool then
            do_ RecordStaleServe ;;;
            do_ (NoteHit (entry_bytes stale)) ;;;
            set_output index (entry_batches stale) ;;;
            settle_stored index ;;;
            emit "cache.stale_if_error" (Some (error_text error))
          else fail error
      | Ok (answer, control) =>
          if is_not_modified control then
            if negb (num_rows answer =? 0)%nat
            then fail (Execution ("VGI function `" +:+ function
                                  +:+ "` returned rows and not_modified together"))
            else
              ttl <-- do_ (CacheTtl control key (entry_bytes stale)) ;;;
              match ttl with
              | inr reason =>
                  do_ (CacheRemove key) ;;;
                  settle_aborted index ("revalidation revoked cache: " +:+ reason) ;;;
                  fail (Execution ("VGI function `" +:+ function
                          +:+ "` returned not_modified with ineligible cache control: " +:+ reason))
              | inl ttl =>
                  do_ (CacheSlide key ttl) ;;;
                  do_ (NoteHit (entry_bytes stale)) ;;;
                  set_output index (entry_batches stale) ;;;
                  settle_stored index ;;;
                  emit "cache.revalidated" None
              end
          else
            ttl <-- do_ (CacheTtl control key (batch_bytes answer)) ;;;
            match ttl with
            | inl ttl =>
                do_ (CacheInsert key [answer] ttl control) ;;;
                do_ NoteStore ;;;
                settle_stored index ;;;
                set_output index [answer]
            | inr reason =>
                do_ (CacheRemove key) ;;;
                settle_aborted index ("cache refused result: " +:+ reason) ;;;
                set_output index [answer]
            end
      end
  | _ => fail (Panicked "revalidation has key")
  end.

(** ** Direct execution *)

Definition is_direct (u : Unit_) : bool :=
  match unit_output u, unit_state u with
  | None, (UnitProducer _ | Uncached) => true
  | _, _ => false
  end.

(** [units.iter().enumerate().filter_map(..)] *)
Fixpoint direct_units (index : nat) (us : list Unit_) : list nat :=
  match us with
  | [] => []
  | u :: us => if is_direct u then index :: direct_units (S index) us else direct_units (S index) us
  end.

Definition send_direct (index : nat) : Body unit :=
  us <-- get_state ;;;
  match us !! index with
  | None => fail (Panicked "index out of bounds")
  | Some (mkUnit input key _ _) =>
      sent <-- do_ (Send default_options input) ;;;
      answer <-- try_ (sent : result (option Batch * option Control)) ;;;
      lift (emit_write input) ;;;
      match answer with
      | (Some answer, control) =>
          match key with
          | Some key =>
              ttl <-- do_ (CacheTtl control key (batch_bytes answer)) ;;;
              match ttl with
              | inl ttl =>
                  do_ (CacheInsert key [answer] ttl control) ;;;
                  do_ NoteStore ;;;
                  settle_stored index ;;;
                  emit "cache.store" None
              | inr reason =>
                  settle_aborted index ("cache refused result: " +:+ reason) ;;;
                  emit "cache.refused" (Some ("exchange batch: " +:+ reason))
              end
          | None => ret tt
          end ;;;
          set_output index [answer]
      | (None, _) =>
          settle_aborted index "worker returned no cacheable answer" ;;;
          set_output index []
      end
  end.

Definition run_direct : Body unit :=
  us <-- get_state ;;;
  match direct_units 0 us with
  | [] => ret tt
  | direct =>
      opened <-- do_ (OpenExchange default_options) ;;;
      try_ (opened : result unit) ;;;
      for_each direct send_direct ;;;
      closed <-- do_ CloseExchange ;;;
      try_ (closed : result unit)
  end.

(** ** Followers *)

Definition follow (index : nat) : Body unit :=
  us <-- get_state ;;;
  match us !! index with
  | Some (mkUnit input key (UnitFollower f) _) =>
      match key with
      | None => fail (Panicked "follower has key")
      | Some key =>
          outcome <-- do_ (Wait f) ;;;
          entry <-- match outcome with
                   | Stored =>
                       entry <-- do_ (CacheGet key) ;;;
                       match entry with
                       | Some entry => ret (Some entry)
                       | None => do_ (CacheGetForRevalidation key)
                       end
                   | Aborted _ => ret None
                   end ;;;
          match entry with
          | Some entry =>
              do_ (NoteHit (entry_bytes entry)) ;;;
              set_output index (entry_batches entry)
          | None =>
              opened <-- do_ (OpenExchange default_options) ;;;
              try_ (opened : result unit) ;;;
              sent <-- do_ (Send default_options input) ;;;
              answer <-- try_ (sent : result (option Batch * option Control)) ;;;
              lift (emit_write input) ;;;
              set_output index (match answer.1 with Some answer => [answer] | None => [] end) ;;;
              closed <-- do_ CloseExchange ;;;
              try_ (closed : result unit)
          end
      end
  | _ => ret tt
  end.

(** ** The call *)

Definition unit_result (u : Unit_) : list Batch :=
  match unit_state u with
  | Hit cached => cached
  | _ => default [] (unit_output u)
  end.

Definition run_body (template : option (Batch -> result Key)) (inputs : list Batch) : Body (list Batch) :=
  for_each inputs (probe_unit template) ;;;
  us <-- get_state ;;;
  revalidations <-- lift (find_revalidations 0 us) ;;;
  for_each revalidations revalidate ;;;
  run_direct ;;;
  us <-- get_state ;;;
  for_each (seq 0 (length us)) follow ;;;
  us <-- get_state ;;;
  ret (flat_map unit_result us).

(** [Drop] of the units: a producer that never finished aborts its flight. *)
Fixpoint drop_units (us : list Unit_) : prog unit :=
  match us with
  | [] => Ret tt
  | u :: us =>
      match producer_of u with
      | Some p => prog_bind (call (DropProducer p)) (fun _ => drop_units us)
      | None => drop_units us
      end
  end.

Definition run_exchange (template : option (Batch -> result Key)) (inputs : list Batch)
    : prog (result (list Batch)) :=
  prog_bind (run_body template inputs []) (fun r =>
  prog_bind (drop_units r.1) (fun _ => Ret r.2)).

(** ** The contract

    [answer] is what the worker computes from one batch. When the environment
    is [honest] the worker computes just that unless it answers a conditional
    request with [not_modified], and an entry found under a key holds the answer
    of every input with that key; the call owes the cache the same. Whatever
    the environment, it must not wait while it still owes an outcome. *)

Section Contract.
Variable template : option (Batch -> result Key).
Variable answer : Batch -> option Batch.
Variable honest : Prop.

Definition expected (b : Batch) : list Batch := match answer b with Some a => [a] | None => [] end.
Definition has_key (b : Batch) (k : Key) : Prop :=
  exists key_for_input, template = Some key_for_input /\ key_for_input b = Ok k.
Definition right_for (k : Key) (bs : list Batch) : Prop :=
  forall b, has_key b k -> bs = expected b.

(** Equal keys only for inputs with equal answers. *)
Hypothesis keys_agree : honest -> forall b1 b2 k, has_key b1 k -> has_key b2 k -> answer b1 = answer b2.

(** The producers this call still owes an outcome. *)
Definition Owed : Type := gset nat.

Definition exchange_rely (g : Owed) (c : Call) : Resp c -> Prop :=
  match c with
  | Send opts b => fun r => honest ->
      match r with
      | Ok (a, control) => opts = default_options \/ is_not_modified control = false -> a = answer b
      | Err _ => True
      end
  | CacheGet k | CacheGetForRevalidation k => fun r => honest ->
      match r with Some e => right_for k (entry_batches e) | None => True end
  | _ => fun _ => True
  end.

Definition exchange_guarantee (g : Owed) (c : Call) : Prop :=
  match c with
  | Wait _ => g = ∅
  | CacheInsert k bs _ _ => honest -> right_for k bs
  | _ => True
  end.

Definition exchange_update (g : Owed) (c : Call) : Resp c -> Owed :=
  match c with
  | Acquire _ => fun r => match r with Producer p => {[p]} ∪ g | Follower _ => g end
  | FlightStored p | FlightAborted p _ | DropProducer p => fun _ => g ∖ {[p]}
  | _ => fun _ => g
  end.

Definition exchange_contract : contract Resp :=
  {| ghost := Owed; rely := exchange_rely; guarantee := exchange_guarantee; update := exchange_update |}.

(** Every outcome still owed is owed by a unit, whose destructor will pay. *)
Definition covered (us : list Unit_) (g : Owed) : Prop :=
  forall p, p ∈ g -> exists i u, us !! i = Some u /\ producer_of u = Some p.
(** ... by a unit that has no answer yet. *)
Definition owing (us : list Unit_) (g : Owed) : Prop :=
  forall p, p ∈ g -> exists i u, us !! i = Some u /\ producer_of u = Some p /\ unit_output u = None.

Definition unit_ok (u : Unit_) : Prop :=
  (honest -> forall cached, unit_state u = Hit cached -> cached = expected (unit_input u)) /\
  (honest -> forall bs, unit_output u = Some bs -> bs = expected (unit_input u)) /\
  (forall k, unit_key u = Some k -> has_key (unit_input u) k) /\
  (unit_key u = None -> producer_of u = None).

(** An early return must leave every debt covered. *)
Abbreviation wpb := (Interact.wpb exchange_contract covered).

(** A call that neither owes, pays nor promises anything. *)
Definition plain (c : Call) : Prop :=
  match c with
  | Wait _ | CacheInsert _ _ _ _ | Acquire _ | FlightStored _ | FlightAborted _ _ | DropProducer _ => False
  | _ => True
  end.
Lemma wpb_plain g us c Q :
  plain c -> (forall r, exchange_rely g c r -> Q r us g) -> wpb g us (do_ c) Q.
Proof. intros Hp Hr. apply wpb_do; destruct c; try done; intros r; apply Hr. Qed.

Lemma wpb_emit g us kind message Q : Q tt us g -> wpb g us (emit kind message) Q.
Proof. intros H. apply wpb_plain; [done|]. by intros []. Qed.
Lemma wpb_emit_write g us b Q : Q tt us g -> wpb g us (lift (emit_write b)) Q.
Proof. intros H. apply wpb_lift. split; [done|]. by intros []. Qed.

Lemma wpb_set_output g us i bs Q :
  Q tt (alter (fun u => mkUnit (unit_input u) (unit_key u) (unit_state u) (Some bs)) i us) g ->
  wpb g us (set_output i bs) Q.
Proof. done. Qed.

(** Paying: the producer of unit [i], if it is one, is no longer owed. *)
Lemma wpb_settle g us i c Q :
  (forall p, (c p = FlightStored p \/ exists r, c p = FlightAborted p r)) ->
  Q tt us (g ∖ from_option (fun p => {[p]}) ∅ (us !! i ≫= producer_of)) ->
  wpb g us (with_producer i c) Q.
Proof.
  intros Hc HQ. unfold with_producer. apply wpb_bind, wpb_get.
  destruct (us !! i ≫= producer_of) as [p|] eqn:Hp; cbn in HQ.
  - apply wpb_bind. destruct (Hc p) as [->|[r ->]]; (apply wpb_do; [done|]); intros [] _; exact HQ.
  - apply wpb_ret. by rewrite difference_empty_L in HQ.
Qed.

(** ** Probing *)

Definition all_ok (us : list Unit_) (inputs : list Batch) : Prop :=
  map unit_input us = inputs /\ Forall unit_ok us.

Lemma owing_covered us g : owing us g -> covered us g.
Proof. intros H p Hp. destruct (H p Hp) as (i & u & Hi & Hu & _). eauto. Qed.

Lemma owing_app us g u : owing us g -> owing (us ++ [u]) g.
Proof.
  intros H p Hp. destruct (H p Hp) as (i & v & Hi & Hv & Ho). exists i, v.
  split; [|done]. by apply lookup_app_l_Some.
Qed.

Lemma owing_snoc_producer us g p b k : owing us g -> owing (us ++ [mkUnit b k (UnitProducer p) None]) ({[p]} ∪ g).
Proof.
  intros H q [->%elem_of_singleton|Hq]%elem_of_union.
  - exists (length us). eexists. split; [by rewrite lookup_app_r, Nat.sub_diag by lia|]. done.
  - exact (owing_app us g _ H q Hq).
Qed.

Lemma probe_unit_spec g us inputs b :
  all_ok us inputs -> owing us g ->
  wpb g us (probe_unit template b) (fun _ us' g' => all_ok us' (inputs ++ [b]) /\ owing us' g').
Proof.
  intros [Hin Hok] How. unfold probe_unit. apply wpb_bind.
  assert (forall key, (forall k, key = Some k -> has_key b k) -> wpb g us
    (bind (match key with
            | None => ret None
            | Some k =>
                bind (do_ (CacheGet k)) (fun entry =>
                match entry with
                | None => ret None
                | Some entry => bind (do_ (NoteHit (entry_bytes entry))) (fun _ => ret (Some (entry_batches entry)))
                end)
            end) (fun cached =>
     bind (match cached, key with
           | Some cached, _ => bind (emit "cache.hit" None) (fun _ => ret (Hit cached))
           | None, Some k => bind (emit "cache.miss" None) (fun _ =>
               bind (do_ (Acquire k)) (fun claim =>
               ret (match claim with Producer p => UnitProducer p | Follower f => UnitFollower f end)))
           | None, None => ret Uncached
           end) (fun state =>
     bind get_state (fun us => put_state (us ++ [mkUnit b key state None])))))
    (fun _ us' g' => all_ok us' (inputs ++ [b]) /\ owing us' g')) as Hrest.
  { intros key Hkey.
    assert (forall st, (honest -> forall cached, st = Hit cached -> cached = expected b) ->
      (key = None -> producer_of (mkUnit b key st None) = None) ->
      all_ok (us ++ [mkUnit b key st None]) (inputs ++ [b])) as Hall.
    { intros st Hst Hpr. split; [by rewrite map_app, Hin|]. apply Forall_app. split; [done|].
      constructor; [|done]. split; [done|]. split; [done|]. split; [exact Hkey|exact Hpr]. }
    apply wpb_bind. destruct key as [k|]; [|apply wpb_ret].
    - apply wpb_bind, wpb_plain; [done|]. intros [e|] Hr; cbn in Hr.
      + apply wpb_bind, wpb_plain; [done|]. intros [] _. apply wpb_ret.
        apply wpb_bind, wpb_bind, wpb_emit, wpb_ret, wpb_bind, wpb_get, wpb_put.
        split; [|by apply owing_app]. apply Hall; [|done]. intros Hh cached [= <-]. apply Hr; [done|]. by apply Hkey.
      + apply wpb_ret. apply wpb_bind, wpb_bind, wpb_emit, wpb_bind, wpb_do; [done|].
        intros [p|f] _; apply wpb_ret, wpb_bind, wpb_get, wpb_put; cbn; (split; [by apply Hall|]).
        * by apply owing_snoc_producer.
        * by apply owing_app.
    - apply wpb_bind, wpb_ret, wpb_bind, wpb_get, wpb_put. split; [by apply Hall|by apply owing_app]. }
  destruct template as [kf|] eqn:Ht.
  - apply wpb_bind, wpb_try; [|by apply owing_covered]. intros k Hk. apply wpb_ret. apply (Hrest (Some k)).
    intros ? [= <-]. exists kf. done.
  - apply wpb_ret. by apply (Hrest None).
Qed.

Lemma probe_all inputs :
  wpb ∅ [] (for_each inputs (probe_unit template)) (fun _ us g => all_ok us inputs /\ owing us g).
Proof.
  pose (I := fun (rest : list Batch) us g => exists seen, inputs = seen ++ rest /\ all_ok us seen /\ owing us g).
  eapply wpb_mono; [|apply (wpb_for_each exchange_contract covered I)].
  - intros _ us g (seen & -> & ? & ?). by rewrite app_nil_r.
  - intros x rest us g (seen & -> & Hok & How).
    eapply wpb_mono; [|exact (probe_unit_spec _ _ _ _ Hok How)]. intros ? us' g' [??].
    exists (seen ++ [x]). by rewrite <- app_assoc.
  - exists []. split; [done|]. split; [by split|]. intros p Hp. set_solver.
Qed.

(** ** Answering one unit *)

Definition answered (i : nat) (bs : list Batch) (us : list Unit_) : list Unit_ :=
  alter (fun u => mkUnit (unit_input u) (unit_key u) (unit_state u) (Some bs)) i us.

Lemma answered_ok i bs us inputs u :
  all_ok us inputs -> us !! i = Some u -> (honest -> bs = expected (unit_input u)) ->
  all_ok (answered i bs us) inputs.
Proof.
  intros [Hin Hok] Hi Hbs. split.
  - rewrite <- Hin. apply list_eq. intros j. rewrite !list_lookup_fmap. unfold answered.
    destruct (decide (i = j)) as [->|]; [rewrite list_lookup_alter_eq|by rewrite list_lookup_alter_ne].
    by destruct (us !! j).
  - apply Forall_lookup. intros j v. unfold answered.
    rewrite Forall_lookup in Hok.
    destruct (decide (i = j)) as [<-|]; [rewrite list_lookup_alter_eq|rewrite list_lookup_alter_ne by done; apply Hok].
    rewrite Hi. intros [= <-].
    destruct (Hok i u Hi) as (H1 & H2 & H3). split; [done|]. split; [|exact H3]. cbn.
    intros Hh bs' [= <-]. by apply Hbs.
Qed.

(** A unit that is answered no longer owes, provided its producer is paid. *)
Definition paid (us : list Unit_) (i : nat) (g : Owed) : Owed :=
  g ∖ from_option (fun p => {[p]}) ∅ (us !! i ≫= producer_of).

Lemma answered_owing i bs us g : owing us g -> owing (answered i bs us) (paid us i g).
Proof.
  intros H p Hpaid. unfold paid in Hpaid. apply elem_of_difference in Hpaid as [Hp Hne]. destruct (H p Hp) as (j & u & Hj & Hu & Ho).
  exists j, u. split; [|done]. unfold answered. rewrite list_lookup_alter_ne; [done|].
  intros <-. apply Hne. rewrite Hj. cbn. rewrite Hu. by apply elem_of_singleton.
Qed.

Lemma answered_covered i bs us g : covered us g -> covered (answered i bs us) g.
Proof.
  intros H p Hp. destruct (H p Hp) as (j & u & Hj & Hu). unfold answered.
  destruct (decide (i = j)) as [<-|Hne].
  - eexists i, _. split; [rewrite list_lookup_alter_eq, Hj; reflexivity|]. done.
  - exists j, u. by rewrite list_lookup_alter_ne.
Qed.

Lemma paid_covered us i g : covered us g -> covered us (paid us i g).
Proof. intros H p Hp. unfold paid in Hp. apply elem_of_difference in Hp as [Hp _]. by apply H. Qed.

Lemma answered_producer i bs us :
  answered i bs us !! i ≫= producer_of = us !! i ≫= producer_of.
Proof. unfold answered. rewrite list_lookup_alter_eq. by destruct (us !! i). Qed.

Lemma paid_answered i bs us g : paid (answered i bs us) i g = paid us i g.
Proof. unfold paid. by rewrite answered_producer. Qed.

(** Paying for unit [i]. *)
Lemma wpb_settle_stored g us i Q :
  Q tt us (paid us i g) -> wpb g us (settle_stored i) Q.
Proof. intros H. apply wpb_settle; [by left|exact H]. Qed.
Lemma wpb_settle_aborted g us i reason Q :
  Q tt us (paid us i g) -> wpb g us (settle_aborted i reason) Q.
Proof. intros H. apply wpb_settle; [right; by eexists|exact H]. Qed.

(** [exchange.close().map_err(to_df)?] and [client.open_exchange(..)?]. *)
Lemma wpb_open g us opts (rest : Body unit) Q :
  covered us g -> wpb g us rest Q ->
  wpb g us (bind (do_ (OpenExchange opts)) (fun opened => bind (try_ (opened : result unit)) (fun _ => rest))) Q.
Proof.
  intros Hc H. apply wpb_bind, wpb_plain; [done|]. intros r _.
  apply wpb_bind, wpb_try; [|done]. by intros [] _.
Qed.
Lemma wpb_close g us Q :
  covered us g -> Q tt us g ->
  wpb g us (bind (do_ CloseExchange) (fun closed => try_ (closed : result unit))) Q.
Proof.
  intros Hc H. apply wpb_bind, wpb_plain; [done|]. intros r _. apply wpb_try; [|done]. by intros [] _.
Qed.

(** A batch sent without validators comes back answered. *)
Lemma wpb_send g us input (rest : option Batch * option Control -> Body unit) Q :
  covered us g ->
  (forall a control, (honest -> a = answer input) -> wpb g us (rest (a, control)) Q) ->
  wpb g us (bind (do_ (Send default_options input)) (fun sent =>
    bind (try_ (sent : result (option Batch * option Control))) (fun a =>
    bind (lift (emit_write input)) (fun _ => rest a)))) Q.
Proof.
  intros Hc H. apply wpb_bind, wpb_plain; [done|]. intros r Hr.
  apply wpb_bind, wpb_try; [|done]. intros [a control] ->.
  apply wpb_bind, wpb_emit_write. apply H. intros Hh. apply (Hr Hh). by left.
Qed.

Lemma expected_some b a : Some a = answer b -> [a] = expected b.
Proof. unfold expected. by intros <-. Qed.

Lemma all_ok_lookup us inputs i u : all_ok us inputs -> us !! i = Some u ->
  inputs !! i = Some (unit_input u) /\ unit_ok u.
Proof.
  intros [<- Hok] Hi. split; [|by apply (Forall_lookup_1 _ _ _ _ Hok Hi)].
  change (map unit_input us) with (unit_input <$> us). by rewrite list_lookup_fmap, Hi.
Qed.

(** What one input is answered with is right for its key. *)
Lemma right_for_key b k bs : has_key b k -> (honest -> bs = expected b) -> honest -> right_for k bs.
Proof.
  intros Hk Hbs Hh b' Hk'. rewrite (Hbs Hh). unfold expected. by rewrite (keys_agree Hh b b' k).
Qed.

(** ** Revalidation *)

Definition item_ok (inputs : list Batch) (item : nat * CachedEntry) : Prop :=
  forall b, inputs !! item.1 = Some b -> honest -> entry_batches item.2 = expected b.

Lemma find_revalidations_spec g index us inputs :
  map unit_input us = drop index inputs -> Forall unit_ok us ->
  wp exchange_contract g (find_revalidations index us)
     (fun items g' => g' = g /\ Forall (item_ok inputs) items).
Proof.
  revert index. induction us as [|u us IH]; intros index Hin Hok; [by split|].
  assert (inputs !! index = Some (unit_input u)) as Hu.
  { rewrite <- (Nat.add_0_r index), <- lookup_drop, <- Hin. done. }
  apply Forall_cons in Hok as [Hu_ok Hok].
  assert (map unit_input us = drop (S index) inputs) as Hin'.
  { replace (S index) with (index + 1)%nat by lia. rewrite <- drop_drop, <- Hin. done. }
  specialize (IH _ Hin' Hok). cbn [find_revalidations].
  destruct (unit_state u); try exact IH. destruct (unit_key u) as [k|] eqn:Hk; [|exact IH].
  apply wp_bind. split; [done|]. intros entry Hentry. cbn in Hentry. cbn [wp].
  apply wp_bind. eapply wp_mono; [|exact IH]. intros items g' [-> Hitems]. split; [done|].
  destruct entry as [entry|]; [|done]. constructor; [|done].
  intros b Hb Hh. cbn in Hb. rewrite Hu in Hb. injection Hb as <-. apply (Hentry Hh).
  by apply Hu_ok.
Qed.

Lemma attempt_spec g opts input :
  wp exchange_contract g (attempt opts input) (fun r g' => g' = g /\ (honest ->
    match r with
    | Ok (a, control) => opts = default_options \/ is_not_modified control = false -> Some a = answer input
    | Err _ => True
    end)).
Proof.
  apply wp_bind. split; [done|]. intros [[]|e] _; [|done].
  apply wp_bind. split; [done|]. intros [[a control]|e] Hr; [|done]. cbn in Hr.
  apply wp_bind. split; [done|]. intros [] _.
  apply wp_bind. split; [done|]. intros [[]|e] _; [|done].
  split; [done|]. intros Hh. destruct a as [a|]; [|done]. by apply Hr.
Qed.

(** A unit settled and answered, in either order. *)
Lemma settle_answer us inputs g i u bs :
  all_ok us inputs -> owing us g -> us !! i = Some u -> (honest -> bs = expected (unit_input u)) ->
  all_ok (answered i bs us) inputs /\ owing (answered i bs us) (paid us i g).
Proof. intros ????. split; [by eapply answered_ok|by apply answered_owing]. Qed.

Lemma exchange_revalidate_spec g us inputs item :
  all_ok us inputs -> owing us g -> item_ok inputs item ->
  wpb g us (revalidate item) (fun _ us' g' => all_ok us' inputs /\ owing us' g').
Proof.
  intros Hok How Hitem. pose proof (owing_covered _ _ How) as Hcov. destruct item as [i stale].
  unfold revalidate. apply wpb_bind, wpb_get.
  destruct (us !! i) as [[input [key|] st out]|] eqn:Hi; [|exact Hcov|exact Hcov].
  destruct (all_ok_lookup _ _ _ _ Hok Hi) as [Hin Hu].
  assert (honest -> entry_batches stale = expected input) as Hstale by exact (Hitem _ Hin).
  assert (has_key input key) as Hkey by (by apply Hu).
  pose proof (fun bs => settle_answer us inputs g i _ bs Hok How Hi) as Hdone.
  apply wpb_bind, wpb_lift. eapply wp_mono; [|apply attempt_spec].
  intros [[a control]|error] g' [-> Hr].
  - destruct (is_not_modified control) eqn:Hnm.
    + destruct (negb (num_rows a =? 0)%nat); [exact Hcov|].
      apply wpb_bind, wpb_plain; [done|]. intros [ttl|reason] _.
      * apply wpb_bind, wpb_plain; [done|]. intros [] _.
        apply wpb_bind, wpb_plain; [done|]. intros [] _.
        apply wpb_bind, wpb_set_output, wpb_bind, wpb_settle_stored, wpb_emit.
        fold (answered i (entry_batches stale) us). rewrite paid_answered. by apply Hdone.
      * apply wpb_bind, wpb_plain; [done|]. intros [] _.
        apply wpb_bind, wpb_settle_aborted. by apply paid_covered.
    + assert (honest -> [a] = expected input) as Ha.
      { intros Hh. apply expected_some, (Hr Hh). by right. }
      apply wpb_bind, wpb_plain; [done|]. intros [ttl|reason] _.
      * apply wpb_bind, wpb_do; [exact (right_for_key input key [a] Hkey Ha)|]. intros [] _.
        apply wpb_bind, wpb_plain; [done|]. intros [] _.
        apply wpb_bind, wpb_settle_stored, wpb_set_output. by apply Hdone.
      * apply wpb_bind, wpb_plain; [done|]. intros [] _.
        apply wpb_bind, wpb_settle_aborted, wpb_set_output. by apply Hdone.
  - apply wpb_bind, wpb_plain; [done|]. intros [] _; [|exact Hcov].
    apply wpb_bind, wpb_plain; [done|]. intros [] _.
    apply wpb_bind, wpb_plain; [done|]. intros [] _.
    apply wpb_bind, wpb_set_output, wpb_bind, wpb_settle_stored, wpb_emit.
    fold (answered i (entry_batches stale) us). rewrite paid_answered. by apply Hdone.
Qed.

(** ** Direct execution *)

(** The units still to be answered directly are among [todo]. *)
Definition direct_among (todo : list nat) (us : list Unit_) : Prop :=
  forall i u, us !! i = Some u -> is_direct u = true -> i ∈ todo.

Lemma direct_units_among us : direct_among (direct_units 0 us) us.
Proof.
  enough (forall index i u, us !! i = Some u -> is_direct u = true -> (index + i)%nat ∈ direct_units index us)
    by (intros i u; apply (H 0%nat)).
  induction us as [|v us IH]; intros index i u Hi Hu; [done|].
  destruct i as [|i]; cbn in Hi |- *.
  - injection Hi as ->. rewrite Hu, Nat.add_0_r. left.
  - pose proof (IH (S index) i u Hi Hu) as H. replace (index + S i)%nat with (S index + i)%nat by lia.
    destruct (is_direct v); [by right|done].
Qed.

Lemma answered_direct i bs us todo :
  direct_among (i :: todo) us -> direct_among todo (answered i bs us).
Proof.
  intros H j u Hj Hu. unfold answered in Hj. destruct (decide (i = j)) as [<-|Hne].
  - rewrite list_lookup_alter_eq in Hj. destruct (us !! i); [|done]. by injection Hj as <-.
  - rewrite list_lookup_alter_ne in Hj by done. pose proof (H j u Hj Hu) as Hin.
    apply elem_of_cons in Hin as [->|]; done.
Qed.

Lemma nothing_owed us g : owing us g -> direct_among [] us -> g = ∅.
Proof.
  intros How Hd. apply set_eq. intros p. split; [|set_solver]. intros Hp.
  destruct (How p Hp) as (i & u & Hi & Hu & Ho). exfalso.
  assert (is_direct u = true) as Hdir.
  { unfold is_direct. rewrite Ho. unfold producer_of in Hu. by destruct (unit_state u). }
  by apply (not_elem_of_nil i), (Hd i u).
Qed.

Definition direct_state (inputs : list Batch) (todo : list nat) (us : list Unit_) (g : Owed) : Prop :=
  all_ok us inputs /\ owing us g /\ direct_among todo us.

Lemma paid_unkeyed us i g u : us !! i = Some u -> producer_of u = None -> paid us i g = g.
Proof. intros Hi Hu. unfold paid. rewrite Hi. change (Some u ≫= producer_of) with (producer_of u). rewrite Hu. apply difference_empty_L. Qed.

Lemma send_direct_spec g us inputs i todo :
  direct_state inputs (i :: todo) us g ->
  wpb g us (send_direct i) (fun _ us' g' => direct_state inputs todo us' g').
Proof.
  intros (Hok & How & Hd). pose proof (owing_covered _ _ How) as Hcov.
  unfold send_direct. apply wpb_bind, wpb_get.
  destruct (us !! i) as [[input key st out]|] eqn:Hi; [|exact Hcov].
  destruct (all_ok_lookup _ _ _ _ Hok Hi) as [Hin Hu].
  assert (forall bs, (honest -> bs = expected input) ->
    direct_state inputs todo (answered i bs us) (paid us i g)) as Hdone.
  { intros bs Hbs. destruct (settle_answer us inputs g i _ bs Hok How Hi Hbs) as [??].
    split; [done|]. split; [done|]. by apply answered_direct. }
  apply wpb_send; [done|]. intros [a|] control Ha.
  - assert (honest -> [a] = expected input) as Ha' by (intros Hh; apply expected_some; by apply Ha).
    destruct key as [key|].
    + assert (has_key input key) as Hkey by (by apply Hu).
      apply wpb_bind, wpb_bind, wpb_plain; [done|]. intros [ttl|reason] _.
      * apply wpb_bind, wpb_do; [exact (right_for_key input key [a] Hkey Ha')|]. intros [] _.
        apply wpb_bind, wpb_plain; [done|]. intros [] _.
        apply wpb_bind, wpb_settle_stored, wpb_emit, wpb_set_output. by apply Hdone.
      * apply wpb_bind, wpb_settle_aborted, wpb_emit, wpb_set_output. by apply Hdone.
    + apply wpb_bind, wpb_ret, wpb_set_output. fold (answered i [a] us).
      rewrite <- (paid_unkeyed us i g _ Hi); [by apply Hdone|].
      by apply Hu.
  - apply wpb_bind, wpb_settle_aborted, wpb_set_output. apply Hdone.
    intros Hh. unfold expected. by rewrite <- (Ha Hh).
Qed.

Lemma run_direct_spec g us inputs :
  all_ok us inputs -> owing us g ->
  wpb g us run_direct (fun _ us' g' => all_ok us' inputs /\ g' = ∅ /\ direct_among [] us').
Proof.
  intros Hok How. pose proof (direct_units_among us) as Hd.
  unfold run_direct. apply wpb_bind, wpb_get. destruct (direct_units 0 us) as [|i todo] eqn:Htodo.
  - apply wpb_ret. split; [done|]. split; [|done]. by eapply nothing_owed.
  - apply wpb_open; [by apply owing_covered|]. apply wpb_bind.
    eapply wpb_mono; [|apply (wpb_for_each exchange_contract covered (direct_state inputs))].
    + intros ? us' g' (Hok' & How' & Hd'). apply wpb_close; [by apply owing_covered|].
      split; [done|]. split; [|done]. by eapply nothing_owed.
    + intros x rest us' g' Hs'. exact (send_direct_spec _ _ _ _ _ Hs').
    + done.
Qed.

(** ** Followers *)

Definition pending (u : Unit_) : Prop :=
  unit_output u = None /\ forall cached, unit_state u <> Hit cached.

Definition follow_state (inputs : list Batch) (todo : list nat) (us : list Unit_) (g : Owed) : Prop :=
  all_ok us inputs /\ g = ∅ /\ direct_among [] us /\
  forall i u, us !! i = Some u -> pending u -> i ∈ todo.

Lemma empty_covered us g : g = ∅ -> covered us g.
Proof. intros -> p Hp. set_solver. Qed.

Lemma exchange_follow_spec g us inputs i todo :
  follow_state inputs (i :: todo) us g ->
  wpb g us (follow i) (fun _ us' g' => follow_state inputs todo us' g').
Proof.
  intros (Hok & Hg & Hd & Hp). pose proof (empty_covered us g Hg) as Hcov.
  unfold follow. apply wpb_bind, wpb_get.
  assert ((forall u, us !! i = Some u -> ~ pending u) -> follow_state inputs todo us g) as Hskip.
  { intros Hi. split; [done|]. split; [done|]. split; [done|]. intros j u Hj Hu.
    pose proof (Hp j u Hj Hu) as Hin. apply elem_of_cons in Hin as [->|]; [|done].
    by destruct (Hi u Hj). }
  assert (forall st u, us !! i = Some u -> unit_state u = st ->
    match st with UnitFollower _ => False | _ => True end -> ~ pending u) as Hnot.
  { intros st u Hi Hst Hf [Ho Hh]. destruct st; [by eapply Hh| |done|];
      (apply (not_elem_of_nil i), (Hd i u Hi); unfold is_direct; by rewrite Ho, Hst). }
  destruct (us !! i) as [[input key st out]|] eqn:Hi; [|by apply wpb_ret, Hskip].
  destruct st as [cached|p|f|];
    try (apply wpb_ret, Hskip; intros u [= <-]; by eapply Hnot).
  destruct key as [key|]; [|exact Hcov].
  destruct (all_ok_lookup _ _ _ _ Hok Hi) as [Hin Hu].
  assert (has_key input key) as Hkey by (by apply Hu).
  assert (forall bs, (honest -> bs = expected input) -> follow_state inputs todo (answered i bs us) g) as Hdone.
  { intros bs Hbs. split; [by eapply answered_ok|]. split; [done|]. split.
    - apply answered_direct. intros j u Hj Hu'. by apply elem_of_cons; right; apply (Hd j u).
    - intros j u Hj Hu'. unfold answered in Hj. destruct (decide (i = j)) as [<-|Hne].
      + rewrite list_lookup_alter_eq, Hi in Hj. injection Hj as <-. by destruct Hu'.
      + rewrite list_lookup_alter_ne in Hj by done. pose proof (Hp j u Hj Hu') as Hel.
        apply elem_of_cons in Hel as [->|]; done. }
  apply wpb_bind, wpb_do; [exact Hg|]. intros outcome _. cbn [exchange_update].
  apply wpb_bind.
  assert (forall entry, (honest -> match entry with Some e => right_for key (entry_batches e) | None => True end) ->
    wpb g us (match entry with
          | Some entry =>
              bind (do_ (NoteHit (entry_bytes entry))) (fun _ => set_output i (entry_batches entry))
          | None =>
              bind (do_ (OpenExchange default_options)) (fun opened =>
              bind (try_ (opened : result unit)) (fun _ =>
              bind (do_ (Send default_options input)) (fun sent =>
              bind (try_ (sent : result (option Batch * option Control))) (fun answer =>
              bind (lift (emit_write input)) (fun _ =>
              bind (set_output i (match answer.1 with Some answer => [answer] | None => [] end)) (fun _ =>
              bind (do_ CloseExchange) (fun closed =>
              try_ (closed : result unit))))))))
          end) (fun _ us' g' => follow_state inputs todo us' g')) as Hrest.
  { intros [e|] He.
    - apply wpb_bind, wpb_plain; [done|]. intros [] _. apply wpb_set_output.
      apply Hdone. intros Hh. by apply (He Hh).
    - apply wpb_open; [done|]. apply wpb_send; [done|]. intros a control Ha.
      apply wpb_bind, wpb_set_output, wpb_close; [by apply answered_covered|].
      apply Hdone. intros Hh. unfold expected. by rewrite <- (Ha Hh). }
  destruct outcome.
  - apply wpb_bind, wpb_plain; [done|]. intros [e|] He.
    + apply wpb_ret. by apply (Hrest (Some e)).
    + apply wpb_plain; [done|]. intros r Hr. by apply (Hrest r).
  - apply wpb_ret. by apply (Hrest None).
Qed.

(** ** The whole call *)

Lemma follow_all us inputs :
  all_ok us inputs -> direct_among [] us ->
  wpb ∅ us (for_each (seq 0 (length us)) follow) (fun _ us' g' => follow_state inputs [] us' g').
Proof.
  intros Hok Hd. apply (wpb_for_each exchange_contract covered (follow_state inputs)).
  - intros i rest us' g' H. exact (exchange_follow_spec _ _ _ _ _ H).
  - split; [done|]. split; [done|]. split; [done|]. intros i u Hi _.
    apply elem_of_seq. apply lookup_lt_Some in Hi. lia.
Qed.

Lemma results_expected us inputs g :
  honest -> follow_state inputs [] us g -> flat_map unit_result us = flat_map expected inputs.
Proof.
  intros Hh (Hok & _ & _ & Hp). assert (forall i u, us !! i = Some u -> ~ pending u) as Hpend.
  { intros i u Hi Hu. by apply (not_elem_of_nil i), (Hp i u). }
  clear Hp. destruct Hok as [<- Hok]. induction us as [|u us IH]; [done|].
  apply Forall_cons in Hok as [(Hhit & Hout & _) Hok]. cbn. rewrite IH; [|done|intros i; apply (Hpend (S i))].
  f_equal. pose proof (Hpend 0%nat u eq_refl) as Hu. unfold unit_result, pending in *.
  destruct (unit_state u) as [cached|p|f|]; [by apply Hhit|..];
    (destruct (unit_output u) as [bs|]; [by apply Hout|by destruct Hu]).
Qed.

Lemma exchange_body_spec inputs :
  wpb ∅ [] (run_body template inputs) (fun out _ g =>
    g = ∅ /\ (honest -> out = flat_map expected inputs)).
Proof.
  unfold run_body. apply wpb_bind. eapply wpb_mono; [|apply probe_all].
  intros ? us g [Hok How]. apply wpb_bind, wpb_get.
  apply wpb_bind, wpb_lift. eapply wp_mono; [|apply (find_revalidations_spec g 0 us inputs); apply Hok].
  intros items g' [-> Hitems]. apply wpb_bind.
  eapply wpb_mono; [|apply (wpb_for_each exchange_contract covered (fun items us g =>
    all_ok us inputs /\ owing us g /\ Forall (item_ok inputs) items))].
  - intros ? us1 g1 (Hok1 & How1 & _). apply wpb_bind.
    eapply wpb_mono; [|exact (run_direct_spec _ _ _ Hok1 How1)].
    intros ? us2 g2 (Hok2 & -> & Hd). apply wpb_bind, wpb_get, wpb_bind.
    eapply wpb_mono; [|exact (follow_all _ _ Hok2 Hd)].
    intros ? us3 g3 H. apply wpb_bind, wpb_get, wpb_ret. split; [by apply H|].
    intros Hh. exact (results_expected _ _ _ Hh H).
  - intros item rest us1 g1 (Hok1 & How1 & [Hitem Hrest]%Forall_cons).
    eapply wpb_mono; [|exact (exchange_revalidate_spec _ _ _ _ Hok1 How1 Hitem)]. by intros ? us2 g2 [??].
  - done.
Qed.

Lemma exchange_drop_pays us g :
  covered us g -> wp exchange_contract g (drop_units us) (fun _ g' => g' = ∅).
Proof.
  revert g. induction us as [|u us IH]; intros g H.
  - apply set_eq. intros p. split; [|set_solver]. intros Hp. by destruct (H p Hp) as (i & u & ? & _).
  - cbn [drop_units]. destruct (producer_of u) as [p|] eqn:Hu.
    + apply wp_bind. split; [done|]. intros [] _. apply IH. cbn [update exchange_contract exchange_update].
      intros q [Hq Hne]%elem_of_difference. destruct (H q Hq) as ([|i] & v & Hi & Hv); [|by exists i, v].
      injection Hi as ->. rewrite Hu in Hv. injection Hv as ->. by destruct Hne; apply elem_of_singleton.
    + apply IH. intros q Hq. destruct (H q Hq) as ([|i] & v & Hi & Hv); [|by exists i, v].
      injection Hi as ->. by rewrite Hu in Hv.
Qed.

Lemma run_exchange_spec inputs :
  wp exchange_contract ∅ (run_exchange template inputs) (fun r g =>
    g = ∅ /\ (honest -> forall out, r = Ok out -> out = flat_map expected inputs)).
Proof.
  apply wp_bind. eapply wp_mono; [|exact (exchange_body_spec inputs)].
  intros [us [out|e]] g H; cbn in H |- *; apply wp_bind.
  - destruct H as [-> H]. eapply wp_mono; [|apply exchange_drop_pays; intros p Hp; set_solver].
    intros ? g' ->. split; [done|]. intros Hh ? [= <-]. by apply H.
  - eapply wp_mono; [|apply exchange_drop_pays; exact H]. by intros ? g' ->.
Qed.
End Contract.

(** ** What a call promises *)

(** The producers owed after the calls of a trace. *)
Definition owed (tr : list (event Resp)) : gset nat :=
  observe (exchange_contract None (fun _ => None) False) ∅ tr.

Lemma observe_honest template answer honest g tr :
  observe (exchange_contract template answer honest) g tr
  = observe (exchange_contract None (fun _ => None) False) g tr.
Proof. revert g. induction tr as [|[c r] tr IH]; intros g; [done|]. apply IH. Qed.
Lemma owed_observed template answer honest tr (Q : gset nat -> Prop) :
  Q (observe (exchange_contract template answer honest) ∅ tr) -> Q (owed tr).
Proof. unfold owed. by rewrite <- (observe_honest template answer honest). Qed.

Lemma relied_dishonest template g tr :
  relied (exchange_contract template (fun _ => None) False) g tr.
Proof.
  revert g. induction tr as [|[c r] tr IH]; intros g; [done|]. split; [|apply IH].
  destruct c; try done; intros [].
Qed.

(** Whatever the worker, the cache and other callers do, a call to
    [run_exchange] only ever waits for another caller's flight when it owes no
    outcome of its own, so callers cannot wait for each other in a cycle; and
    when it returns, with an answer or an error, every flight it claimed has
    been stored, aborted or dropped. *)
Theorem exchange_waits_owing_nothing template inputs tr r :
  runs (run_exchange template inputs) tr r ->
  owed tr = ∅ /\
  (forall before f o after, tr = before ++ existT (Wait f) o :: after -> owed before = ∅).
Proof.
  intros Hrun.
  destruct (wp_sound (exchange_contract template (fun _ => None) False) ∅ _ _ _ _ Hrun
              (run_exchange_spec template _ False (fun f => match f with end) inputs)
              (relied_dishonest _ _ _)) as [Hg [Ho _]].
  split; [exact (owed_observed _ _ _ _ (fun g => g = ∅) Ho)|]. intros before f o after ->.
  apply guaranteed_at in Hg. exact (owed_observed _ _ _ _ (fun g => g = ∅) Hg).
Qed.

(** The worker answers each batch with [answer], unless it says
    [not_modified], and the cache holds such answers under their keys. *)
Definition honest_run template answer (tr : list (event Resp)) : Prop :=
  relied (exchange_contract template answer True) ∅ tr.

(** C3: the result cache and the coalescing of identical inputs do not show.
    When the worker answers each batch by a function, keys tell apart inputs
    with different answers, and entries found in the cache hold such answers,
    a successful call returns exactly what sending every input to the worker
    would, in the order of the inputs, and each entry the call stores is right
    for its key again. *)
Theorem exchange_transparent template answer inputs tr r :
  (forall b1 b2 k, has_key template b1 k -> has_key template b2 k -> answer b1 = answer b2) ->
  honest_run template answer tr ->
  runs (run_exchange template inputs) tr r ->
  (forall out, r = Ok out -> out = flat_map (expected answer) inputs) /\
  (forall k bs ttl control before after,
     tr = before ++ existT (CacheInsert k bs ttl control) tt :: after ->
     right_for template answer k bs).
Proof.
  intros Hkeys Hrely Hrun.
  destruct (wp_sound (exchange_contract template answer True) ∅ _ _ _ _ Hrun
              (run_exchange_spec template answer True (fun _ => Hkeys) inputs) Hrely) as [Hg [_ Hout]].
  split; [by apply Hout|]. intros k bs ttl control before after ->.
  apply guaranteed_at in Hg. by apply Hg.
Qed.
End Exchange.

(** ** A call on a concrete environment

    Inputs and keys are lists of numbers, the worker doubles them. The cache
    starts with the answer for [[3]]; the second [[1]] follows the first. *)

Module Doubling.
Abbreviation Key := (list Z) (only parsing).
Definition double (b : list Z) : option (list Z) := Some (map (Z.mul 2) b).
Definition template : option (list Z -> result Key) := Some Ok.
Definition inputs : list (list Z) := [[1]; [2]; [1]; [3]].

Definition ExCall : Type := @Call (list Z) (list Z) unit.
Definition Event : Type := event (@Resp (list Z) (list Z) unit).
Definition past_insert (k : Key) (e : Event) : option (list (list Z)) :=
  match projT1 e with CacheInsert k' bs _ _ => if decide (k = k') then Some bs else None | _ => None end.
Definition acquired (k : Key) (e : Event) : bool :=
  match projT1 e with Acquire k' => bool_decide (k = k') | _ => false end.

Definition env (past : list Event) (c : ExCall) : Resp c :=
  match c with
  | OpenExchange _ | CloseExchange => Ok tt
  | Send _ b => Ok (double b, None)
  | CacheGet k =>
      if decide (k = [3]) then Some (mkEntry [[6]] 8 None None)
      else (fun bs => mkEntry bs 8 None None) <$> head (omap (past_insert k) (reverse past))
  | CacheGetForRevalidation _ => None
  | CacheTtl _ _ _ => inl 60
  | MayServeOnError _ => false
  | Acquire k => if existsb (acquired k) past then Follower 0 else Producer (length past)
  | Wait _ => Stored
  | CacheInsert _ _ _ _ | CacheSlide _ _ | CacheRemove _ | RecordStaleServe | FlightStored _
  | FlightAborted _ _ | DropProducer _ | NoteHit _ | NoteStore | Emit _ _ => tt
  end.

Definition exchange : Interact.prog (@Resp (list Z) (list Z) unit) (result (list (list Z))) :=
  run_exchange (length (A := Z)) (fun _ => 8) (fun _ => ""%string) "double"%string template inputs.
Definition trace : list Event := Eval vm_compute in (interp env [] exchange).1.

Example exchange_runs : runs exchange trace (Ok [[2]; [4]; [2]; [6]]).
Proof. exact (interp_runs env [] exchange). Qed.

Lemma key_is_input b k : has_key template b k -> b = k.
Proof. intros (kf & [= <-] & [= ->]). done. Qed.

Lemma doubling_honest : honest_run template double trace.
Proof.
  unfold honest_run, trace. cbn [relied]. repeat split; cbn; intros; try done;
    intros b Hb%key_is_input; by subst.
Qed.
End Doubling.

Lemma exchange_waits_owing_nothing_witness : owed Doubling.trace = ∅.
Proof.
  destruct (exchange_waits_owing_nothing _ _ _ _ _ _ _ _ Doubling.exchange_runs) as [H _]. exact H.
Defined.

Lemma exchange_transparent_witness :
  [[2]; [4]; [2]; [6]] = flat_map (expected Doubling.double) Doubling.inputs.
Proof.
  assert (forall b1 b2 k, has_key Doubling.template b1 k -> has_key Doubling.template b2 k ->
    Doubling.double b1 = Doubling.double b2) as Hkeys.
  { intros b1 b2 k ->%Doubling.key_is_input ->%Doubling.key_is_input. reflexivity. }
  destruct (exchange_transparent _ _ _ _ _ _ _ _ _ Hkeys Doubling.doubling_honest Doubling.exchange_runs)
    as [H _].
  exact (H _ eq_refl).
Defined.
