(* ===== verification/Buffered.v ===== *)
(** * Buffered calls (src/src/table_input.rs: [run_buffered])

    A buffered function ingests every input batch before it answers. The call
    is a program of calls (Interact.v) to the worker, the result cache, the
    flight registry and the commit token of the scan that consumes it. Its
    contract says when the lifecycle's four phases happen, who may write to the
    cache, and that caching does not show. *)

From S2P Require Import Prelude ResultFlight Interact Exchange.

#[local] Open Scope Z_scope.

(** ** Agreement of the finalize streams' cache control *)

Section Controls.
Context {Rest : Type} `{EqDecision Rest}.

#[export] Instance Control_eq_dec : EqDecision (@Control Rest).
Proof. solve_decision. Defined.

Inductive BufferedCacheControl :=
  | Consistent (control : option (@Control Rest))
  | Refused.

Definition normalize_buffered_cache_control (function : string) (controls : list (option (@Control Rest)))
    : result BufferedCacheControl :=
  match controls with
  | [] => Ok (Consistent None)
  | first :: _ =>
      if forallb (fun control => bool_decide (control = first)) controls then Ok (Consistent first)
      else if existsb is_not_modified controls then
        Err (Execution ("VGI buffered function `" +:+ function
               +:+ "` mixed not_modified with incompatible finalize cache control"))
      else Ok Refused
  end.

(** A stream that said [not_modified] is an error or all streams said so. *)
Lemma normalize_fresh function controls c :
  normalize_buffered_cache_control function controls = Ok c ->
  match c with Consistent control => is_not_modified control = false | Refused => True end ->
  Forall (fun control => is_not_modified control = false) controls.
Proof.
  destruct controls as [|first controls]; [constructor|].
  unfold normalize_buffered_cache_control. destruct (forallb _ _) eqn:Hall.
  - intros [= <-] Hf. rewrite forallb_forall in Hall. apply Forall_forall. intros control Hin.
    apply list_elem_of_In, Hall, bool_decide_eq_true in Hin. by subst.
  - destruct (existsb _ _) eqn:Hex; [done|]. intros [= <-] _. apply Forall_forall. intros control Hin.
    destruct (is_not_modified control) eqn:Hc; [|done]. exfalso.
    assert (existsb is_not_modified (first :: controls) = true) as Ht; [|congruence].
    apply existsb_exists. exists control. by split; [apply list_elem_of_In|].
Qed.
End Controls.
Arguments BufferedCacheControl Rest : clear implicits.

Section Buffered.
Context {Key Batch Rest Exec StateId FinalizeId : Type} `{EqDecision Rest}.
Variables (num_rows : Batch -> nat) (batches_bytes : list Batch -> Z).

Abbreviation Entry := (@CachedEntry Batch) (only parsing).
Abbreviation Ctl := (@Control Rest) (only parsing).

(** [vgi_client::cache::Ineligible]: one reason is told apart. *)
Record Ineligible := mkIneligible { entry_too_large : bool; reason_text : string }.

Inductive Call :=
  (** the worker; [Finalize] opens one stream and drains it *)
  | BufferingBegin
  | BufferingProcess (e : Exec) (b : Batch) (index : nat)
  | BufferingCombine (e : Exec) (ids : list StateId)
  | Finalize (opts : ScanOptions) (e : Exec) (id : FinalizeId)
  (** the result cache *)
  | CacheGet (k : Key)
  | CacheGetForRevalidation (k : Key)
  | CacheInsert (k : Key) (bs : list Batch) (ttl : Z) (control : option Ctl)
  | CacheSlide (k : Key) (ttl : Z)
  | CacheRemove (k : Key)
  | CacheTtl (control : option Ctl) (k : Key) (bytes : Z)
  | MayServeOnError (e : Entry)
  | RecordStaleServe
  | RecordCaptureAbort
  (** flights *)
  | Acquire (k : Key)
  | FlightStored (p : nat)
  | FlightAborted (p : nat) (reason : string)
  | DropProducer (p : nat)
  | Wait (f : nat)
  (** the consumer's commit token, locked from here on *)
  | CommitAllowed
  (** statistics and events *)
  | NoteHit (bytes : Z)
  | NoteStore
  | Emit (kind : string) (message : option string).

Definition Resp (c : Call) : Type :=
  match c with
  | BufferingBegin => result Exec
  | BufferingProcess _ _ _ => result StateId
  | BufferingCombine _ _ => result (list FinalizeId)
  | Finalize _ _ _ => result (list Batch * option Ctl)
  | CacheGet _ | CacheGetForRevalidation _ => option Entry
  | CacheTtl _ _ _ => Z + Ineligible
  | MayServeOnError _ | CommitAllowed => bool
  | Acquire _ => ResultFlightClaim
  | Wait _ => ResultFlightOutcome
  | _ => unit
  end.

Abbreviation Prog := (prog Resp).

Definition bind {A B} (p : Prog A) (f : A -> Prog B) : Prog B := prog_bind p f.
(** [p?] *)
Definition try_ {A B} (p : Prog (result A)) (f : A -> Prog (result B)) : Prog (result B) :=
  prog_bind p (fun r => match r with Ok a => f a | Err e => Ret (Err e) end).

#[local] Notation "x <-- m ;;; k" := (bind m (fun x => k))
  (at level 100, m at next level, right associativity).
#[local] Notation "x <-? m ;;; k" := (try_ m (fun x => k))
  (at level 100, m at next level, right associativity).
#[local] Notation "m ;;; k" := (bind m (fun _ => k)) (at level 100, right associativity).

Definition do_ (c : Call) : Prog (Resp c) := call c.

Variable error_text : DFError -> string.
Variable function : string.
Variable inputs : list Batch.

(** ** The lifecycle *)

Fixpoint process_all (e : Exec) (index : nat) (bs : list Batch) (ids : list StateId)
    : Prog (result (list StateId)) :=
  match bs with
  | [] => Ret (Ok ids)
  | b :: bs =>
      id <-? (do_ (BufferingProcess e b index) : Prog (result StateId)) ;;;
      process_all e (S index) bs (ids ++ [id])
  end.

Fixpoint finalize_all (opts : ScanOptions) (e : Exec) (ids : list FinalizeId)
    (out : list Batch) (controls : list (option Ctl)) : Prog (result (list Batch * list (option Ctl))) :=
  match ids with
  | [] => Ret (Ok (out, controls))
  | id :: ids =>
      drained <-? (do_ (Finalize opts e id) : Prog (result (list Batch * option Ctl))) ;;;
      finalize_all opts e ids (out ++ drained.1) (controls ++ [drained.2])
  end.

Definition run_lifecycle (opts : ScanOptions) : Prog (result (list Batch * list (option Ctl))) :=
  execution_id <-? (do_ BufferingBegin : Prog (result Exec)) ;;;
  do_ (Emit "table_buffering.begin" None) ;;;
  state_ids <-? process_all execution_id 0 inputs [] ;;;
  finalize_ids <-? (do_ (BufferingCombine execution_id state_ids) : Prog (result (list FinalizeId))) ;;;
  do_ (Emit "table_buffering.combine" (Some ("input_batches=" +:+ pretty (length inputs)
         +:+ " state_ids=" +:+ pretty (length state_ids)
         +:+ " finalize_ids=" +:+ pretty (length finalize_ids)))) ;;;
  drained <-? finalize_all opts execution_id finalize_ids [] [] ;;;
  match finalize_ids with
  | [] => Ret (Ok drained)
  | _ =>
      do_ (Emit "table_buffering.finalize" (Some ("finalize_streams=" +:+ pretty (length finalize_ids)
             +:+ " output_batches=" +:+ pretty (length drained.1)))) ;;;
      Ret (Ok drained)
  end.

Definition fresh_run (opts : ScanOptions) : Prog (result (list Batch)) :=
  drained <-? run_lifecycle opts ;;; Ret (Ok drained.1).

(** ** The cached call *)

Definition tier : string := "tier=buffered_whole_input".

Definition follow (key : Key) (f : nat) : Prog (result (list Batch)) :=
  outcome <-- (do_ (Wait f) : Prog ResultFlightOutcome) ;;;
  entry <-- match outcome with
           | Stored =>
               entry <-- (do_ (CacheGet key) : Prog (option Entry)) ;;;
               match entry with
               | Some entry => Ret (Some entry)
               | None => do_ (CacheGetForRevalidation key)
               end
           | Aborted _ => Ret None
           end ;;;
  match entry with
  | Some entry =>
      do_ (NoteHit (entry_bytes entry)) ;;;
      do_ (Emit "cache.coalesced_hit" (Some tier)) ;;;
      Ret (Ok (entry_batches entry))
  | None => fresh_run default_options
  end.

(** A lifecycle that failed, its [stale] entry at hand. *)
Definition lifecycle_failed (flight : nat) (stale : option Entry) (error : DFError)
    : Prog (result (list Batch)) :=
  commit <-- (do_ CommitAllowed : Prog bool) ;;;
  if negb commit then
    do_ (FlightAborted flight "buffered consumer cancelled") ;;; Ret (Err error)
  else
    match stale with
    | None => do_ (FlightAborted flight "buffered lifecycle failed") ;;; Ret (Err error)
    | Some stale =>
        may_serve <-- (do_ (MayServeOnError stale) : Prog bool) ;;;
        if negb may_serve then
          do_ (FlightAborted flight "buffered lifecycle failed") ;;; Ret (Err error)
        else
          do_ RecordStaleServe ;;;
          do_ (NoteHit (entry_bytes stale)) ;;;
          do_ (FlightStored flight) ;;;
          do_ (Emit "cache.stale_if_error" (Some (tier +:+ " " +:+ error_text error))) ;;;
          Ret (Ok (entry_batches stale))
    end.

(** The answer was [not_modified]. *)
Definition revalidated (key : Key) (flight : nat) (stale : option Entry) (batches : list Batch)
    (control : option Ctl) : Prog (result (list Batch)) :=
  match stale with
  | None =>
      do_ (FlightAborted flight "not_modified without a conditional request") ;;;
      Ret (Err (Execution ("VGI buffered function `" +:+ function
             +:+ "` returned not_modified without a conditional request")))
  | Some stale =>
      if existsb (fun batch => negb (num_rows batch =? 0)%nat) batches then
        do_ (FlightAborted flight "not_modified returned rows") ;;;
        Ret (Err (Execution ("VGI buffered function `" +:+ function
               +:+ "` returned rows and not_modified together")))
      else
        ttl <-- (do_ (CacheTtl control key (entry_bytes stale)) : Prog (Z + Ineligible)) ;;;
        match ttl with
        | inr reason =>
            do_ (CacheRemove key) ;;;
            do_ (FlightAborted flight ("revalidation revoked cache: " +:+ reason_text reason)) ;;;
            Ret (Err (Execution ("VGI buffered function `" +:+ function
                   +:+ "` returned not_modified with ineligible cache control: " +:+ reason_text reason)))
        | inl ttl =>
            do_ (CacheSlide key ttl) ;;;
            do_ (NoteHit (entry_bytes stale)) ;;;
            do_ (FlightStored flight) ;;;
            do_ (Emit "cache.revalidated" (Some tier)) ;;;
            Ret (Ok (entry_batches stale))
        end
  end.

(** A fresh answer, stored or refused. *)
Definition publish (key : Key) (flight : nat) (batches : list Batch) (control : option Ctl)
    : Prog (result (list Batch)) :=
  ttl <-- (do_ (CacheTtl control key (batches_bytes batches)) : Prog (Z + Ineligible)) ;;;
  match ttl with
  | inl ttl =>
      do_ (CacheInsert key batches ttl control) ;;;
      do_ NoteStore ;;;
      do_ (FlightStored flight) ;;;
      do_ (Emit "cache.store" (Some tier)) ;;;
      Ret (Ok batches)
  | inr reason =>
      (if entry_too_large reason then do_ RecordCaptureAbort else Ret tt) ;;;
      do_ (CacheRemove key) ;;;
      do_ (FlightAborted flight ("cache refused buffered result: " +:+ reason_text reason)) ;;;
      do_ (Emit "cache.refused" (Some (tier +:+ " " +:+ reason_text reason))) ;;;
      Ret (Ok batches)
  end.

Definition lifecycle_done (key : Key) (flight : nat) (stale : option Entry) (batches : list Batch)
    (controls : list (option Ctl)) : Prog (result (list Batch)) :=
  commit <-- (do_ CommitAllowed : Prog bool) ;;;
  if negb commit then
    do_ (FlightAborted flight "buffered consumer cancelled") ;;; Ret (Ok batches)
  else
    control <-? Ret (normalize_buffered_cache_control function controls) ;;;
    match control with
    | Refused =>
        do_ (CacheRemove key) ;;;
        do_ (FlightAborted flight "buffered finalize cache controls disagreed") ;;;
        do_ (Emit "cache.refused" (Some (tier +:+ " finalize controls disagreed"))) ;;;
        Ret (Ok batches)
    | Consistent control =>
        if is_not_modified control then revalidated key flight stale batches control
        else publish key flight batches control
    end.

Definition produce (key : Key) (flight : nat) : Prog (result (list Batch)) :=
  stale <-- (do_ (CacheGetForRevalidation key) : Prog (option Entry)) ;;;
  let options := match stale with
                 | Some entry => mkOptions (entry_etag entry) (entry_last_modified entry)
                 | None => default_options
                 end in
  answer <-- run_lifecycle options ;;;
  match answer with
  | Err error => lifecycle_failed flight stale error
  | Ok (batches, controls) => lifecycle_done key flight stale batches controls
  end.

(** [run_buffered] from the cache key on; the flight's producer is dropped on
    every way out. *)
Definition run_buffered (key : option Key) : Prog (result (list Batch)) :=
  match key with
  | None => fresh_run default_options
  | Some key =>
      entry <-- (do_ (CacheGet key) : Prog (option Entry)) ;;;
      match entry with
      | Some entry =>
          do_ (NoteHit (entry_bytes entry)) ;;;
          do_ (Emit "cache.hit" (Some tier)) ;;;
          Ret (Ok (entry_batches entry))
      | None =>
          do_ (Emit "cache.miss" (Some tier)) ;;;
          claim <-- (do_ (Acquire key) : Prog ResultFlightClaim) ;;;
          match claim with
          | Follower f => follow key f
          | Producer p =>
              answer <-- produce key p ;;;
              do_ (DropProducer p) ;;;
              Ret answer
          end
      end
  end.

(** ** The contract

    [reduce bs] is the worker's answer to a whole input. An [honest] worker,
    told to combine the states of the batches it was handed, names streams whose
    concatenation is that answer; the cache holds it under this call's key. *)

Section Contract.
Variable key : option Key.
Variable reduce : list Batch -> list Batch.
Variable piece : Exec -> FinalizeId -> list Batch.
Variable honest : Prop.

Inductive Life :=
  | NotBegun
  | Sinking (e : Exec) (sunk : list Batch) (ids : list StateId)
  | Sourcing (e : Exec) (todo : list FinalizeId)
  | Over.

Record Ghost := mkGhost { owed : gset nat; permission : option bool; life : Life }.
Definition with_life (g : Ghost) (l : Life) : Ghost := mkGhost (owed g) (permission g) l.

Definition drained_right (opts : ScanOptions) (e : Exec) (id : FinalizeId)
    (r : result (list Batch * option Ctl)) : Prop :=
  match r with
  | Ok (out, control) => opts = default_options \/ is_not_modified control = false -> out = piece e id
  | Err _ => True
  end.

Definition buffered_rely (g : Ghost) (c : Call) : Resp c -> Prop :=
  match c with
  | BufferingCombine e ids => fun r => honest ->
      match r, life g with
      | Ok fids, Sinking _ sunk _ => concat (map (piece e) fids) = reduce sunk
      | _, _ => True
      end
  | Finalize opts e id => fun r => honest -> drained_right opts e id r
  | CacheGet k | CacheGetForRevalidation k => fun r => honest ->
      match r with Some entry => Some k = key -> entry_batches entry = reduce inputs | None => True end
  | _ => fun _ => True
  end.

(** The four phases in order, with each other's identifiers; no waiting while
    owing; cache writes and success reports only with permission. *)
Definition buffered_guarantee (g : Ghost) (c : Call) : Prop :=
  match c with
  | BufferingBegin => life g = NotBegun
  | BufferingProcess e b index =>
      exists ids, life g = Sinking e (take index inputs) ids /\ inputs !! index = Some b
  | BufferingCombine e ids => life g = Sinking e inputs ids
  | Finalize _ e id => exists rest, life g = Sourcing e (id :: rest)
  | Wait _ => owed g = ∅
  | CacheInsert k bs _ _ => permission g = Some true /\ Some k = key /\ (honest -> bs = reduce inputs)
  | CacheSlide k _ | CacheRemove k => permission g = Some true /\ Some k = key
  | FlightStored _ | RecordStaleServe => permission g = Some true
  | _ => True
  end.

Definition buffered_update (g : Ghost) (c : Call) : Resp c -> Ghost :=
  match c with
  | BufferingBegin => fun r => with_life g (match r with Ok e => Sinking e [] [] | Err _ => Over end)
  | BufferingProcess e b _ => fun r => with_life g
      (match r, life g with Ok id, Sinking e' sunk ids => Sinking e' (sunk ++ [b]) (ids ++ [id]) | _, _ => Over end)
  | BufferingCombine e _ => fun r => with_life g (match r with Ok fids => Sourcing e fids | Err _ => Over end)
  | Finalize _ e _ => fun r => with_life g
      (match r, life g with Ok _, Sourcing e' (_ :: todo) => Sourcing e' todo | _, _ => Over end)
  | Acquire _ => fun r =>
      match r with Producer p => mkGhost ({[p]} ∪ owed g) (permission g) (life g) | Follower _ => g end
  | FlightStored p | FlightAborted p _ | DropProducer p => fun _ =>
      mkGhost (owed g ∖ {[p]}) (permission g) (life g)
  | CommitAllowed => fun allowed => mkGhost (owed g) (Some allowed) (life g)
  | _ => fun _ => g
  end.

Definition buffered_contract : contract Resp :=
  {| ghost := Ghost; rely := buffered_rely; guarantee := buffered_guarantee; update := buffered_update |}.

Abbreviation WP := (wp buffered_contract).

Lemma wp_do {A} g c (f : Resp c -> Prog A) Q :
  buffered_guarantee g c ->
  (forall r, buffered_rely g c r -> WP (buffered_update g c r) (f r) Q) ->
  WP g (bind (do_ c) f) Q.
Proof. intros Hg Hf. split; [exact Hg|exact Hf]. Qed.

Lemma wp_try {A B} g (p : Prog (result A)) (f : A -> Prog (result B)) (Q : result B -> Ghost -> Prop) :
  WP g p (fun r g' => match r with Ok a => WP g' (f a) Q | Err e => Q (Err e) g' end) ->
  WP g (try_ p f) Q.
Proof. intros H. apply wp_bind. eapply wp_mono; [|exact H]. intros [a|e] g'; done. Qed.

(** ** The lifecycle *)

Lemma process_all_spec g e bs ids sunk :
  life g = Sinking e sunk ids -> inputs = sunk ++ bs ->
  WP g (process_all e (length sunk) bs ids) (fun r g' =>
    owed g' = owed g /\ permission g' = permission g /\
    match r with Ok ids' => life g' = Sinking e inputs ids' | Err _ => True end).
Proof.
  revert g ids sunk. induction bs as [|b bs IH]; intros g ids sunk Hl Hin.
  - rewrite app_nil_r in Hin. rewrite Hin. by repeat split.
  - cbn [process_all]. apply wp_try. split.
    + exists ids. rewrite Hin, take_app_length, Hl. split; [done|].
      by rewrite lookup_app_r, Nat.sub_diag by lia.
    + intros [id|err] _; cbn [wp].
      * assert (S (length sunk) = length (sunk ++ [b])) as -> by (rewrite length_app; cbn; lia).
        cbn [update buffered_contract buffered_update]. rewrite Hl.
        eapply wp_mono; [|apply IH; [reflexivity|by rewrite <- app_assoc]].
        intros r g' H. exact H.
      * done.
Qed.

Lemma finalize_all_spec g opts e ids out controls :
  life g = Sourcing e ids ->
  WP g (finalize_all opts e ids out controls) (fun r g' =>
    owed g' = owed g /\ permission g' = permission g /\
    match r with
    | Ok (out', controls') => exists news fresh, out' = out ++ news /\ controls' = controls ++ fresh /\
        (honest -> opts = default_options \/ Forall (fun c => is_not_modified c = false) fresh ->
         news = concat (map (piece e) ids))
    | Err _ => True
    end).
Proof.
  revert g out controls. induction ids as [|id ids IH]; intros g out controls Hl.
  - repeat split. exists [], []. by rewrite !app_nil_r.
  - cbn [finalize_all]. apply wp_try. split; [by exists ids|].
    intros [[new c]|err] Hr; cbn [wp]; [|done].
    cbn [update buffered_contract buffered_update]. rewrite Hl.
    eapply wp_mono; [|apply IH; reflexivity].
    intros [[out' controls']|err] g' (Ho & Hp & H); [|done]. split; [done|]. split; [done|].
    destruct H as (news & fresh & -> & -> & Hnews). cbn.
    exists (new ++ news), (c :: fresh). rewrite <- !app_assoc. split; [done|]. split; [done|].
    intros Hh Hopts. cbn. f_equal.
    + apply (Hr Hh). destruct Hopts as [|[??]%Forall_cons]; [by left|by right].
    + apply (Hnews Hh). destruct Hopts as [|[??]%Forall_cons]; [by left|by right].
Qed.

Lemma run_lifecycle_spec g opts :
  life g = NotBegun ->
  WP g (run_lifecycle opts) (fun r g' =>
    owed g' = owed g /\ permission g' = permission g /\
    match r with
    | Ok (out, controls) =>
        honest -> opts = default_options \/ Forall (fun c => is_not_modified c = false) controls ->
        out = reduce inputs
    | Err _ => True
    end).
Proof.
  intros Hl. apply wp_try. split; [exact Hl|]. intros [e|err] _; cbn [wp]; [|done].
  apply wp_do; [done|]. intros [] _. apply wp_try.
  eapply wp_mono; [|apply (process_all_spec _ e inputs [] []); reflexivity].
  intros [ids|err] g1 (Ho & Hp & H1); [|done].
  apply wp_try. split; [exact H1|]. intros [fids|err] Hr; cbn [wp]; [|done].
  apply wp_do; [done|]. intros [] _. apply wp_try.
  eapply wp_mono; [|apply finalize_all_spec; reflexivity].
  intros [[out controls]|err] g2 (Ho2 & Hp2 & H2); [|cbn in *; by rewrite Ho2, Hp2].
  assert (honest -> opts = default_options \/ Forall (fun c => is_not_modified c = false) controls ->
          out = reduce inputs) as Hout.
  { destruct H2 as (news & fresh & -> & -> & Hnews). intros Hh Hopts.
    cbn in Hr. rewrite H1 in Hr. rewrite <- (Hr Hh). by apply Hnews. }
  cbn in Ho2, Hp2. destruct fids; cbn [wp]; [by rewrite Ho2, Hp2|].
  apply wp_do; [done|]. intros [] _. cbn. by rewrite Ho2, Hp2.
Qed.

(** ** The answer *)

Definition entry_right (entry : option Entry) : Prop :=
  honest -> match entry with Some entry => entry_batches entry = reduce inputs | None => True end.

(** What a call's end promises: nothing beyond [p] is owed, and an answer
    somebody still wants is the worker's. *)
Definition settled (p : option nat) (r : result (list Batch)) (g : Ghost) : Prop :=
  owed g ⊆ from_option singleton ∅ p /\
  (permission g <> Some false -> honest -> forall out, r = Ok out -> out = reduce inputs).

Lemma settled_err p e g : owed g ⊆ from_option singleton ∅ p -> settled p (Err e) g.
Proof. by split. Qed.
Lemma settled_ok p out g :
  owed g ⊆ from_option singleton ∅ p -> (honest -> out = reduce inputs) -> settled p (Ok out) g.
Proof. intros Ho H. split; [done|]. intros _ Hh ? [= <-]. by apply H. Qed.

Lemma fresh_run_spec g p :
  life g = NotBegun -> owed g ⊆ from_option singleton ∅ p -> WP g (fresh_run default_options) (settled p).
Proof.
  intros Hl Ho. apply wp_try. eapply wp_mono; [|by apply run_lifecycle_spec].
  intros [[out controls]|e] g' (Ho' & _ & H); [|apply settled_err; by rewrite Ho'].
  apply settled_ok; [by rewrite Ho'|]. intros Hh. apply (H Hh). by left.
Qed.

Lemma buffered_follow_spec g k f :
  Some k = key -> life g = NotBegun -> owed g = ∅ -> WP g (follow k f) (settled None).
Proof.
  intros Hk Hl Ho. apply wp_do; [exact Ho|]. intros outcome _. cbn [buffered_update].
  assert (forall entry, entry_right entry -> WP g
    (match entry with
     | Some entry =>
         bind (do_ (NoteHit (entry_bytes entry))) (fun _ =>
         bind (do_ (Emit "cache.coalesced_hit" (Some tier))) (fun _ => Ret (Ok (entry_batches entry))))
     | None => fresh_run default_options
     end) (settled None)) as Hrest.
  { intros [e|] He.
    - apply wp_do; [done|]. intros [] _. apply wp_do; [done|]. intros [] _.
      apply settled_ok; [cbn; by rewrite Ho|exact He].
    - apply fresh_run_spec; [done|]. by rewrite Ho. }
  apply wp_bind. destruct outcome; [|exact (Hrest None (fun _ => I))].
  apply wp_do; [done|]. intros [e|] He.
  - apply (Hrest (Some e)). intros Hh. by apply He.
  - split; [done|]. intros r Hr. apply (Hrest r). intros Hh. specialize (Hr Hh). by destruct r; [apply Hr|].
Qed.

Lemma lifecycle_failed_spec g p stale e :
  owed g ⊆ {[p]} -> entry_right stale -> WP g (lifecycle_failed p stale e) (settled (Some p)).
Proof.
  intros Ho Hs. apply wp_do; [done|]. intros [] _; cbn [negb].
  - destruct stale as [stale|].
    + apply wp_do; [done|]. intros [] _; cbn [negb].
      * do 4 (apply wp_do; [done|]; intros [] _). apply settled_ok; [cbn; set_solver|exact Hs].
      * apply wp_do; [done|]. intros [] _. apply settled_err. cbn. set_solver.
    + apply wp_do; [done|]. intros [] _. apply settled_err. cbn. set_solver.
  - apply wp_do; [done|]. intros [] _. apply settled_err. cbn. set_solver.
Qed.

Lemma revalidated_spec g k p stale batches control :
  Some k = key -> permission g = Some true -> owed g ⊆ {[p]} -> entry_right stale ->
  WP g (revalidated k p stale batches control) (settled (Some p)).
Proof.
  intros Hk Hp Ho Hs. unfold revalidated. destruct stale as [stale|].
  - destruct (existsb _ _).
    + apply wp_do; [done|]. intros [] _. apply settled_err. cbn. set_solver.
    + apply wp_do; [done|]. intros [ttl|reason] _.
      * do 4 (apply wp_do; [done|]; intros [] _). apply settled_ok; [cbn; set_solver|exact Hs].
      * do 2 (apply wp_do; [done|]; intros [] _). apply settled_err. cbn. set_solver.
  - apply wp_do; [done|]. intros [] _. apply settled_err. cbn. set_solver.
Qed.

Lemma publish_spec g k p batches control :
  Some k = key -> permission g = Some true -> owed g ⊆ {[p]} -> (honest -> batches = reduce inputs) ->
  WP g (publish k p batches control) (settled (Some p)).
Proof.
  intros Hk Hp Ho Hb. apply wp_do; [done|]. intros [ttl|reason] _.
  - do 4 (apply wp_do; [done|]; intros [] _). apply settled_ok; [cbn; set_solver|exact Hb].
  - apply wp_bind. assert (WP g (bind (do_ (CacheRemove k)) (fun _ =>
      bind (do_ (FlightAborted p ("cache refused buffered result: " +:+ reason_text reason))) (fun _ =>
      bind (do_ (Emit "cache.refused" (Some (tier +:+ " " +:+ reason_text reason)))) (fun _ =>
      Ret (Ok batches))))) (settled (Some p))) as H.
    { do 3 (apply wp_do; [done|]; intros [] _). apply settled_ok; [cbn; set_solver|exact Hb]. }
    destruct (entry_too_large reason); [split; [done|]; intros []; intros _|]; exact H.
Qed.

Lemma lifecycle_done_spec g k p stale opts batches controls :
  Some k = key -> owed g ⊆ {[p]} -> entry_right stale -> (stale = None -> opts = default_options) ->
  (honest -> opts = default_options \/ Forall (fun c => is_not_modified c = false) controls ->
   batches = reduce inputs) ->
  WP g (lifecycle_done k p stale batches controls) (settled (Some p)).
Proof.
  intros Hk Ho Hs Hopts Hb. apply wp_do; [done|]. intros [] _; cbn [negb].
  - apply wp_try. cbn [wp]. destruct (normalize_buffered_cache_control function controls) as [c|e] eqn:Hc;
      [|by apply settled_err]. pose proof (normalize_fresh _ _ _ Hc) as Hfresh. destruct c as [control|].
    + destruct (is_not_modified control) eqn:Hnm; [by apply revalidated_spec|].
      apply publish_spec; [done..|]. intros Hh. apply (Hb Hh). right. by apply Hfresh.
    + do 3 (apply wp_do; [done|]; intros [] _). apply settled_ok; [cbn; set_solver|].
      intros Hh. apply (Hb Hh). right. by apply Hfresh.
  - apply wp_do; [done|]. intros [] _. split; [cbn; set_solver|]. intros Hperm. by destruct Hperm.
Qed.

Lemma produce_spec g k p :
  Some k = key -> life g = NotBegun -> owed g ⊆ {[p]} -> WP g (produce k p) (settled (Some p)).
Proof.
  intros Hk Hl Ho. apply wp_do; [done|]. intros stale Hstale. cbn [buffered_update].
  assert (entry_right stale) as Hs.
  { intros Hh. specialize (Hstale Hh). by destruct stale; [apply Hstale|]. }
  apply wp_bind. eapply wp_mono; [|by apply run_lifecycle_spec].
  intros [[batches controls]|e] g' (Ho' & Hp' & H); [|by apply lifecycle_failed_spec; [rewrite Ho'|]].
  eapply lifecycle_done_spec; [done|by rewrite Ho'|done| |exact H]. by intros ->.
Qed.

Lemma run_buffered_spec :
  WP (mkGhost ∅ None NotBegun) (run_buffered key) (settled None).
Proof.
  destruct key as [k|] eqn:Hk; [|by apply fresh_run_spec].
  apply wp_do; [done|]. intros [entry|] Hentry; cbn [buffered_update].
  - do 2 (apply wp_do; [done|]; intros [] _). apply settled_ok; [done|]. intros Hh. apply (Hentry Hh). by subst.
  - apply wp_do; [done|]. intros [] _. apply wp_do; [done|]. intros [p|f] _.
    + apply wp_bind. eapply wp_mono; [|apply produce_spec; [by subst|done|]; cbn; set_solver].
      intros r g [Ho Hr]. apply wp_do; [done|]. intros [] _. split; [cbn in *; set_solver|exact Hr].
    + by apply buffered_follow_spec; subst.
Qed.
End Contract.

(** ** What a call promises *)

Fixpoint observed (g : Ghost) (tr : list (event Resp)) : Ghost :=
  match tr with [] => g | existT c r :: tr => observed (buffered_update g c r) tr end.
Definition start : Ghost := mkGhost ∅ None NotBegun.

Lemma observe_observed key reduce piece honest g tr :
  observe (buffered_contract key reduce piece honest) g tr = observed g tr.
Proof. revert g; induction tr as [|[c r] tr IH]; intros g; [done|]. apply IH. Qed.

Lemma buffered_relied_anyway key reduce piece g tr : relied (buffered_contract key reduce piece False) g tr.
Proof.
  revert g; induction tr as [|[c r] tr IH]; intros g; [done|]. split; [|apply IH].
  destruct c; try done; intros [].
Qed.

(** What holds when the call [c] is made. *)
Definition in_protocol (key : option Key) : Ghost -> Call -> Prop :=
  buffered_guarantee key (fun _ => []) False.

(** Whatever the worker, the cache, other callers and the consumer do, a
    buffered call begins at most once, sinks its batches in order and once each,
    combines exactly the states it was given, and drains the streams it was
    named in order; it waits for another flight only while owing none; it
    writes to the cache, and reports its flight stored, only after the consumer
    permitted it and only under its own key; and it leaves no flight unsettled. *)
Theorem buffered_protocol key tr r :
  runs (run_buffered key) tr r ->
  owed (observed start tr) = ∅ /\
  (forall before c answer after, tr = before ++ existT c answer :: after ->
     in_protocol key (observed start before) c).
Proof.
  intros Hrun.
  destruct (wp_sound (buffered_contract key (fun _ => []) (fun _ _ => []) False) start _ _ _ _ Hrun
              (run_buffered_spec key _ _ False) (buffered_relied_anyway _ _ _ _ _)) as [Hg [Ho _]].
  rewrite observe_observed in Ho. split; [cbn in Ho; set_solver|].
  intros before c answer after ->. apply guaranteed_at in Hg. by rewrite observe_observed in Hg.
Qed.

(** The worker reduces what it was handed, unless it says [not_modified], and
    the cache holds such reductions. *)
Definition honest_run key reduce piece (tr : list (event Resp)) : Prop :=
  relied (buffered_contract key reduce piece True) start tr.

(** C20: caching a buffered call does not show. With an honest worker and cache
    every successful call whose consumer is still there returns the worker's
    reduction of its input, whether it was computed, replayed, revalidated,
    served stale or taken from another caller's flight; and the cache only ever
    receives that reduction. *)
Theorem buffered_transparent key reduce piece tr r :
  honest_run key reduce piece tr ->
  runs (run_buffered key) tr r ->
  (permission (observed start tr) <> Some false -> forall out, r = Ok out -> out = reduce inputs) /\
  (forall k bs ttl control before after,
     tr = before ++ existT (CacheInsert k bs ttl control) tt :: after ->
     Some k = key /\ bs = reduce inputs).
Proof.
  intros Hrely Hrun.
  destruct (wp_sound (buffered_contract key reduce piece True) start _ _ _ _ Hrun
              (run_buffered_spec key reduce piece True) Hrely) as [Hg [_ Hout]].
  rewrite observe_observed in Hout. split; [intros Hp; by apply Hout|].
  intros k bs ttl control before after ->. apply guaranteed_at in Hg. destruct Hg as (_ & Hk & Hb).
  split; [done|by apply Hb].
Qed.
End Buffered.

(** ** A call on a concrete environment

    Batches are lists of numbers; the worker answers a whole input with one
    batch holding its sum, on the second of two streams. *)

Module Summing.
Definition total (bs : list (list Z)) : Z := fold_right Z.add 0 (concat bs).
Definition reduce (bs : list (list Z)) : list (list Z) := [[total bs]].
Definition inputs : list (list Z) := [[1; 2]; [3]].
Definition piece (e id : nat) : list (list Z) := match id with 1%nat => [[6]] | _ => [] end.

Definition SumCall : Type := @Call string (list Z) unit nat nat nat.
Abbreviation SumResp := (@Resp string (list Z) unit nat nat nat).
Definition env (past : list (event SumResp)) (c : SumCall) : SumResp c :=
  match c with
  | BufferingBegin => Ok 7%nat
  | BufferingProcess _ _ index => Ok (10 + index)%nat
  | BufferingCombine _ _ => Ok [0; 1]%nat
  | Finalize _ e id => Ok (piece e id, None)
  | CacheGet _ | CacheGetForRevalidation _ => None
  | CacheTtl _ _ _ => inl 60
  | MayServeOnError _ => false
  | CommitAllowed => true
  | Acquire _ => Producer 0%nat
  | Wait _ => Stored
  | CacheInsert _ _ _ _ | CacheSlide _ _ | CacheRemove _ | RecordStaleServe | RecordCaptureAbort
  | FlightStored _ | FlightAborted _ _ | DropProducer _ | NoteHit _ | NoteStore | Emit _ _ => tt
  end.

Definition buffered : prog SumResp (result (list (list Z))) :=
  run_buffered (length (A := Z)) (fun _ => 8) (fun _ => ""%string) "sum"%string inputs (Some "k"%string).
Definition trace : list (event SumResp) := Eval vm_compute in (interp env [] buffered).1.

Example buffered_runs : runs buffered trace (Ok [[6]]).
Proof. exact (interp_runs env [] buffered). Qed.

Lemma summing_honest : honest_run inputs (Some "k"%string) reduce piece trace.
Proof. unfold honest_run, trace. repeat split. Qed.
End Summing.

Lemma buffered_protocol_witness : owed (observed start Summing.trace) = ∅.
Proof.
  destruct (buffered_protocol _ _ _ _ _ _ _ _ Summing.buffered_runs) as [H _]. exact H.
Defined.

Lemma buffered_transparent_witness : [[6]] = Summing.reduce Summing.inputs.
Proof.
  destruct (buffered_transparent _ _ _ _ _ _ _ _ _ _ Summing.summing_honest Summing.buffered_runs) as [H _].
  refine (H _ _ eq_refl). vm_compute. discriminate.
Defined.
