(* ===== verification/Scalar.v ===== *)
(** * Scalar calls (src/src/scalar.rs)

    A scalar function sends its input rows through one exchange, or, when it
    is stable and caching is on, sends each distinct row once, serves rows from
    the result cache, coalesces them with other callers, and gathers the answers
    back into row order. The call is a program of calls (Interact.v); its units,
    one per distinct row, are explicit state whose destructors settle flights. *)

From S2P Require Import Prelude Text ResultFlight Runtime Interact Exchange.

#[local] Open Scope Z_scope.

Abbreviation u32_max := (2 ^ 32 - 1) (only parsing).

(** ** Collapsing equal rows *)

Section Distinct.
Context {Row K : Type} `{Countable K} (key_of : Row -> result K) (fits : nat -> result unit).

(** The loop over the rows: [index_of] finds the unique row of a key. *)
Fixpoint distinct (rows : list Row) (index_of : gmap K nat) (uniques : list (K * Row))
    (row_to_unique : list nat) : result (list (K * Row) * list nat) :=
  match rows with
  | [] => Ok (uniques, row_to_unique)
  | row :: rows =>
      k ← key_of row;
      match index_of !! k with
      | Some index => distinct rows index_of uniques (row_to_unique ++ [index])
      | None =>
          let index := length uniques in
          _ ← fits index;
          distinct rows (<[k := index]> index_of) (uniques ++ [(k, row)]) (row_to_unique ++ [index])
      end
  end.
End Distinct.

(** [take] over one column. *)
Definition take_rows {Cell} (cells : list Cell) (indices : list nat) : result (list Cell) :=
  match option_collect (fun i => cells !! i) indices with
  | Some out => Ok out
  | None => Err (Panicked "take index out of bounds")
  end.

Section Dedup.
Context {Row : Type} (write_batch : Row -> result (list Ascii.ascii)).
(** [concat_batches] over one-row slices of one batch. *)
Variable concat_rows : list Row -> result (list Row).

Definition fits_u32 (index : nat) : result unit :=
  if Z.of_nat index <=? u32_max then Ok tt
  else Err (Execution "stable scalar batch has more than u32::MAX distinct inputs").

Definition deduplicate_scalar_input (input : list Row) : result (list Row * option (list nat)) :=
  if (length input <=? 1)%nat then Ok (input, None)
  else
    '(uniques, row_to_unique) ← distinct write_batch fits_u32 input ∅ [] [];
    if (length uniques =? length input)%nat then Ok (input, None)
    else unique_input ← concat_rows (map snd uniques); Ok (unique_input, Some row_to_unique).
End Dedup.

Section Scalar.
Context {Row Cell Digest Key Rest : Type} `{Countable Digest}.

(** A record batch the worker answers with: its first column's cells, and
    whether it has the schema the bind declared. *)
Record Answer := mkAnswer {
  num_columns : nat;
  cells : list Cell;
  declared_schema : bool
}.
Definition num_rows (a : Answer) : nat := length (cells a).
Definition one_cell (a : Answer) : bool := (num_rows a =? 1)%nat && (num_columns a =? 1)%nat.

Abbreviation Entry := (@CachedEntry Answer) (only parsing).
Abbreviation Ctl := (@Control Rest) (only parsing).

Inductive Call :=
  | OpenExchange (opts : ScanOptions)
  | Send (opts : ScanOptions) (input : list Row)
  | CloseExchange
  | CacheGet (k : Key)
  | CacheGetForRevalidation (k : Key)
  | CacheInsert (k : Key) (bs : list Answer) (ttl : Z) (control : option Ctl)
  | CacheSlide (k : Key) (ttl : Z)
  | CacheRemove (k : Key)
  | CacheTtl (control : option Ctl) (k : Key) (bytes : Z)
  | MayServeOnError (e : Entry)
  | RecordStaleServe
  | Acquire (k : Key)
  | FlightStored (p : nat)
  | FlightAborted (p : nat) (reason : string)
  | DropProducer (p : nat)
  | Wait (f : nat)
  (** the runtime's per-value capability of this function *)
  | HasOptIn
  | NoteOptIn
  | NoteHit (bytes : Z)
  | NoteStore
  | EmitIneligible (reason : CacheIneligibleReason)
  | Emit (kind : string) (message : option string).

Definition Resp (c : Call) : Type :=
  match c with
  | OpenExchange _ | CloseExchange => result unit
  | Send _ _ => result (option Answer * option Ctl)
  | CacheGet _ | CacheGetForRevalidation _ => option Entry
  | CacheTtl _ _ _ => Z + string
  | MayServeOnError _ | HasOptIn => bool
  | Acquire _ => ResultFlightClaim
  | Wait _ => ResultFlightOutcome
  | _ => unit
  end.

(** [MissClaim], and a distinct row with its key, claim and output. *)
Inductive MissClaim :=
  | MissProducer (flight : nat) (stale : option Entry)
  | MissFollower (waiter : nat).
Record Unit_ := mkUnit {
  u_key : Key;
  u_row : Row;
  u_claim : option MissClaim;
  u_output : option Answer
}.

Abbreviation Body := (body Resp (list Unit_)) (only parsing).

#[local] Notation "x <-- m ;;; k" := (bind m (fun x => k))
  (at level 100, m at next level, right associativity).
#[local] Notation "m ;;; k" := (bind m (fun _ => k)) (at level 100, right associativity).

Variables (answer_bytes : Answer -> Z) (per_value : Rest -> bool) (error_text : DFError -> string).
Variable function : string.
(** [concat_batches] of one-row inputs, and of answers into the declared
    schema. *)
Variable concat_rows : list Row -> result (list Row).
Variable concat_answers : list Answer -> result (list Cell).
(** The exchange key template: digests of rows, and keys of digests. *)
Variable template : result (option (Row -> result Digest)).
Variable key_for_digest : Digest -> Key.

Definition PER_VALUE_MAX_NEW_STORES_PER_CALL : nat := 256.

Definition is_per_value (control : option Ctl) : bool :=
  match control with Some c => per_value (control_fields c) | None => false end.

Definition materialize_output_row (a : Answer) (row : nat) : result Answer :=
  if negb (Z.of_nat row <=? u32_max) then
    Err (Internal "scalar output row index exceeds Arrow's u32 limit")
  else match cells a !! row with
       | Some c => Ok (mkAnswer (num_columns a) [c] (declared_schema a))
       | None => Err (Panicked "take index out of bounds")
       end.

(** [emit_scalar_write_input] *)
Definition emit_write (rows : nat) : Body unit :=
  do_ (Emit "scalar.write_input" (Some ("input_rows=" +:+ pretty rows))).
Definition emit (kind : string) (message : string) : Body unit := do_ (Emit kind (Some message)).

Definition no_answer : DFError := Execution (function +:+ " returned no answer for its input").

(** The [direct] closure; a caller that handles its errors takes them as a
    value. *)
Definition direct_attempt (opts : ScanOptions) (input : list Row) : Body (result (Answer * option Ctl)) :=
  opened <-- do_ (OpenExchange opts) ;;;
  match opened : result unit with
  | Err e => ret (Err e)
  | Ok _ =>
      sent <-- do_ (Send opts input) ;;;
      match sent : result (option Answer * option Ctl) with
      | Err e => ret (Err e)
      | Ok (answer, control) =>
          emit_write (length input) ;;;
          closed <-- do_ CloseExchange ;;;
          match closed : result unit with
          | Err e => ret (Err e)
          | Ok _ => ret (match answer with Some a => Ok (a, control) | None => Err no_answer end)
          end
      end
  end.
Definition direct (opts : ScanOptions) (input : list Row) : Body (Answer * option Ctl) :=
  r <-- direct_attempt opts input ;;; try_ r.

(** [template?.expect("cache availability was checked above")] *)
Definition the_template : Body (Row -> result Digest) :=
  t <-- try_ template ;;;
  match t with
  | Some t => ret t
  | None => fail (Panicked "cache availability was checked above")
  end.

(** ** Before the function has opted in *)

Fixpoint store_rows (digest : Row -> result Digest) (answer : Answer) (control : option Ctl)
    (row : nat) (rows : list Row) (seen : gset Digest) (stored : nat) : Body nat :=
  match rows with
  | [] => ret stored
  | input_row :: rows =>
      if (PER_VALUE_MAX_NEW_STORES_PER_CALL <=? size seen)%nat then ret stored
      else
        d <-- try_ (digest input_row) ;;;
        if bool_decide (d ∈ seen) then store_rows digest answer control (S row) rows seen stored
        else
          output <-- try_ (materialize_output_row answer row) ;;;
          ttl <-- do_ (CacheTtl control (key_for_digest d) (answer_bytes output)) ;;;
          match ttl : Z + string with
          | inl ttl =>
              do_ (CacheInsert (key_for_digest d) [output] ttl control) ;;;
              do_ NoteStore ;;;
              store_rows digest answer control (S row) rows ({[d]} ∪ seen) (S stored)
          | inr _ => store_rows digest answer control (S row) rows ({[d]} ∪ seen) stored
          end
  end.

Definition first_call (input : list Row) : Body Answer :=
  r <-- direct default_options input ;;;
  let '(answer, control) := r in
  stored <-- (if is_per_value control && ((num_rows answer =? length input)%nat
                 && (num_columns answer =? 1)%nat)
             then digest <-- the_template ;;; store_rows digest answer control 0 input ∅ 0
             else ret 0%nat) ;;;
  (if (0 <? stored)%nat
   then do_ NoteOptIn ;;; emit "cache.store" ("tier=per_value tuples=" +:+ pretty stored)
   else ret tt) ;;;
  ret answer.

(** ** One unit per distinct row *)

Definition collect_units (digest : Row -> result Digest) (input : list Row)
    : result (list Unit_ * list nat) :=
  '(uniques, row_to_unique) ← distinct digest (fun _ => Ok tt) input ∅ [] [];
  Ok (map (fun '(d, row) => mkUnit (key_for_digest d) row None None) uniques, row_to_unique).

Definition set_output (index : nat) (a : Answer) : Body unit :=
  us <-- get_state ;;;
  put_state (alter (fun u => mkUnit (u_key u) (u_row u) (u_claim u) (Some a)) index us).
Definition set_claim (index : nat) (claim : MissClaim) : Body unit :=
  us <-- get_state ;;;
  put_state (alter (fun u => mkUnit (u_key u) (u_row u) (Some claim) (u_output u)) index us).

(** The unit at [index]; slice indexing panics out of range. *)
Definition unit_at (index : nat) : Body Unit_ :=
  us <-- get_state ;;;
  match us !! index with Some u => ret u | None => fail (Panicked "index out of bounds") end.

Definition probe (index : nat) : Body unit :=
  u <-- unit_at index ;;;
  entry <-- do_ (CacheGet (u_key u)) ;;;
  match entry : option Entry with
  | Some (mkEntry [batch] bytes _ _) =>
      if one_cell batch && declared_schema batch
      then do_ (NoteHit bytes) ;;; set_output index batch
      else ret tt
  | _ => ret tt
  end.

(** The indices of the units [f] holds of. *)
Fixpoint indices_of (f : Unit_ -> bool) (index : nat) (us : list Unit_) : list nat :=
  match us with
  | [] => []
  | u :: us => if f u then index :: indices_of f (S index) us else indices_of f (S index) us
  end.
Definition is_miss (u : Unit_) : bool := match u_output u with None => true | Some _ => false end.

Definition report_probe (us : list Unit_) (misses : list nat) : Body unit :=
  let hit_count := (length us - length misses)%nat in
  if (0 <? hit_count)%nat then
    emit (match misses with [] => "cache.hit" | _ => "cache.partial_hit" end)
      ("tier=per_value reused_tuples=" +:+ pretty hit_count +:+ " computed_tuples="
        +:+ pretty (length misses))
  else emit "cache.miss" ("tier=per_value distinct_tuples=" +:+ pretty (length us)).

Definition claim (index : nat) : Body unit :=
  u <-- unit_at index ;;;
  c <-- do_ (Acquire (u_key u)) ;;;
  match c : ResultFlightClaim with
  | Producer flight =>
      stale <-- do_ (CacheGetForRevalidation (u_key u)) ;;;
      set_claim index (MissProducer flight stale)
  | Follower waiter => set_claim index (MissFollower waiter)
  end.

(** ** Revalidation *)

Definition is_revalidation (u : Unit_) : bool :=
  match u_claim u with Some (MissProducer _ (Some _)) => true | _ => false end.
Definition is_cold (u : Unit_) : bool :=
  match u_claim u with Some (MissProducer _ None) => true | _ => false end.
(** [misses.iter().filter(..)] *)
Definition misses_that (f : Unit_ -> bool) (misses : list nat) (us : list Unit_) : list nat :=
  List.filter (fun index => match us !! index with Some u => f u | None => false end) misses.

Definition revalidate_failed (index : nat) (flight : nat) (stale : Entry) (error : DFError) : Body unit :=
  may_serve <-- do_ (MayServeOnError stale) ;;;
  if may_serve : bool then
    do_ RecordStaleServe ;;;
    do_ (NoteHit (entry_bytes stale)) ;;;
    match entry_batches stale with
    | [cached] =>
        set_output index cached ;;;
        do_ (FlightStored flight) ;;;
        emit "cache.stale_if_error" ("tier=per_value " +:+ error_text error)
    | _ =>
        do_ (FlightAborted flight "stale-if-error entry was not one batch") ;;;
        fail error
    end
  else fail error.

Definition revalidate_unchanged (index : nat) (key : Key) (flight : nat) (stale : Entry)
    (answer : Answer) (control : option Ctl) : Body unit :=
  if negb (num_rows answer =? 0)%nat
  then fail (Execution ("VGI scalar `" +:+ function +:+ "` returned rows and not_modified together"))
  else
    match entry_batches stale with
    | [cached] =>
        ttl <-- do_ (CacheTtl control key (entry_bytes stale)) ;;;
        match ttl : Z + string with
        | inr reason =>
            do_ (CacheRemove key) ;;;
            do_ (FlightAborted flight ("revalidation revoked cache: " +:+ reason)) ;;;
            fail (Execution ("VGI scalar `" +:+ function
                    +:+ "` returned not_modified with ineligible cache control: " +:+ reason))
        | inl ttl =>
            do_ (CacheSlide key ttl) ;;;
            do_ (NoteHit (entry_bytes stale)) ;;;
            set_output index cached ;;;
            do_ (FlightStored flight) ;;;
            emit "cache.revalidated" "tier=per_value"
        end
    | _ => do_ (FlightAborted flight "revalidation entry was not one batch")
    end.

Definition revalidate_changed (index : nat) (key : Key) (flight : nat) (answer : Answer)
    (control : option Ctl) : Body unit :=
  output <-- try_ (materialize_output_row answer 0) ;;;
  ttl <-- do_ (CacheTtl control key (answer_bytes output)) ;;;
  match ttl : Z + string with
  | inl ttl =>
      if is_per_value control then
        do_ (CacheInsert key [output] ttl control) ;;;
        do_ NoteStore ;;;
        set_output index output ;;;
        do_ (FlightStored flight)
      else
        do_ (CacheRemove key) ;;;
        set_output index output ;;;
        do_ (FlightAborted flight "worker withdrew per-value cache opt-in")
  | inr reason =>
      do_ (CacheRemove key) ;;;
      set_output index output ;;;
      do_ (FlightAborted flight ("cache refused revalidated result: " +:+ reason))
  end.

Definition revalidate (index : nat) : Body unit :=
  u <-- unit_at index ;;;
  match u_claim u with
  | Some (MissProducer flight (Some stale)) =>
      let options := mkOptions (entry_etag stale) (entry_last_modified stale) in
      r <-- direct_attempt options [u_row u] ;;;
      match r with
      | Err error => revalidate_failed index flight stale error
      | Ok (answer, control) =>
          if is_not_modified control then
            revalidate_unchanged index (u_key u) flight stale answer control
          else if one_cell answer then
            revalidate_changed index (u_key u) flight answer control
          else fail (Execution (function +:+ " answered " +:+ pretty (num_rows answer) +:+ " rows and "
                 +:+ pretty (num_columns answer)
                 +:+ " columns for one conditional scalar input; expected a 1:1, one-column result"))
      end
  | _ => fail (Panicked "revalidation classification changed")
  end.

(** ** Cold rows, in one exchange *)

Fixpoint settle_fresh (fresh : Answer) (control : option Ctl) (fresh_row : nat) (producers : list nat)
    (store_attempts stored : nat) : Body nat :=
  match producers with
  | [] => ret stored
  | index :: producers =>
      output <-- match cells fresh !! fresh_row with
                | Some c => ret (mkAnswer (num_columns fresh) [c] (declared_schema fresh))
                | None => fail (Panicked "slice out of bounds")
                end ;;;
      u <-- unit_at index ;;;
      match u_claim u with
      | Some (MissProducer flight _) =>
          if is_per_value control && (store_attempts <? PER_VALUE_MAX_NEW_STORES_PER_CALL)%nat then
            cached_output <-- try_ (materialize_output_row fresh fresh_row) ;;;
            ttl <-- do_ (CacheTtl control (u_key u) (answer_bytes cached_output)) ;;;
            match ttl : Z + string with
            | inl ttl =>
                do_ (CacheInsert (u_key u) [cached_output] ttl control) ;;;
                do_ NoteStore ;;;
                do_ (FlightStored flight) ;;;
                set_output index output ;;;
                settle_fresh fresh control (S fresh_row) producers (S store_attempts) (S stored)
            | inr reason =>
                do_ (FlightAborted flight ("cache refused result: " +:+ reason)) ;;;
                emit "cache.refused" ("tier=per_value " +:+ reason) ;;;
                set_output index output ;;;
                settle_fresh fresh control (S fresh_row) producers (S store_attempts) stored
            end
          else
            do_ (FlightAborted flight
                   (if is_per_value control then "per-value new-store cap reached"
                    else "worker withdrew per-value cache opt-in")) ;;;
            set_output index output ;;;
            settle_fresh fresh control (S fresh_row) producers store_attempts stored
      | _ => fail (Panicked "fresh scalar claim changed")
      end
  end.

Definition rows_at (us : list Unit_) (indices : list nat) : list Row :=
  omap (fun index => u_row <$> us !! index) indices.

Definition run_cold (producers : list nat) : Body unit :=
  match producers with
  | [] => ret tt
  | _ =>
      us <-- get_state ;;;
      miss_input <-- try_ (concat_rows (rows_at us producers)) ;;;
      opened <-- do_ (OpenExchange default_options) ;;;
      try_ (opened : result unit) ;;;
      sent <-- do_ (Send default_options miss_input) ;;;
      answer <-- try_ (sent : result (option Answer * option Ctl)) ;;;
      emit_write (length miss_input) ;;;
      match answer with
      | (None, _) => fail no_answer
      | (Some fresh, control) =>
          closed <-- do_ CloseExchange ;;;
          try_ (closed : result unit) ;;;
          if negb (num_rows fresh =? length producers)%nat || negb (num_columns fresh =? 1)%nat
          then fail (Execution (function +:+ " answered " +:+ pretty (num_rows fresh) +:+ " rows and "
                 +:+ pretty (num_columns fresh) +:+ " columns for " +:+ pretty (length producers)
                 +:+ " distinct scalar inputs; expected a 1:1, one-column result"))
          else
            stored <-- settle_fresh fresh control 0 producers 0 0 ;;;
            if (0 <? stored)%nat
            then emit "cache.store" ("tier=per_value tuples=" +:+ pretty stored) else ret tt
      end
  end.

(** ** Followers, and the answer *)

Definition follow (index : nat) : Body unit :=
  u <-- unit_at index ;;;
  match u_claim u with
  | Some (MissFollower waiter) =>
      outcome <-- do_ (Wait waiter) ;;;
      entry <-- match outcome : ResultFlightOutcome with
               | Stored =>
                   entry <-- do_ (CacheGet (u_key u)) ;;;
                   match entry : option Entry with
                   | Some entry => ret (Some entry)
                   | None => do_ (CacheGetForRevalidation (u_key u))
                   end
               | Aborted _ => ret None
               end ;;;
      let recompute := r <-- direct default_options [u_row u] ;;; set_output index r.1 in
      match entry : option Entry with
      | Some (mkEntry [batch] bytes _ _) =>
          if one_cell batch then do_ (NoteHit bytes) ;;; set_output index batch else recompute
      | _ => recompute
      end
  | _ => ret tt
  end.

Definition unanswered : DFError :=
  Internal (function +:+ " per-value cache assembly left an input unanswered").

(** [index as u32] *)
Definition as_u32 (index : nat) : nat := Z.to_nat (Z.of_nat index `mod` 2 ^ 32).

Definition assemble (row_to_unique : list nat) : Body Answer :=
  us <-- get_state ;;;
  unique_outputs <-- try_ (result_collect (fun u => ok_or unanswered (u_output u)) us) ;;;
  distinct_cells <-- try_ (concat_answers unique_outputs) ;;;
  output <-- try_ (take_rows distinct_cells (map as_u32 row_to_unique)) ;;;
  ret (mkAnswer 1 output true).

Definition cached_call (input : list Row) : Body Answer :=
  digest <-- the_template ;;;
  collected <-- try_ (collect_units digest input) ;;;
  put_state collected.1 ;;;
  for_each (seq 0 (length collected.1)) probe ;;;
  us <-- get_state ;;;
  let misses := indices_of is_miss 0 us in
  report_probe us misses ;;;
  for_each misses claim ;;;
  us <-- get_state ;;;
  for_each (misses_that is_revalidation misses us) revalidate ;;;
  us <-- get_state ;;;
  run_cold (misses_that is_cold misses us) ;;;
  for_each misses follow ;;;
  assemble collected.2.

(** ** The call *)

(** Why a call bypasses the cache; [environment] is
    [cache_environment_ineligible_reason]. *)
Definition scalar_ineligible (environment : option CacheIneligibleReason)
    (cacheable secret_dependent : bool) (input : list Row) (per_value_enabled : bool)
    : option CacheIneligibleReason :=
  match environment with
  | Some reason => Some reason
  | None =>
      if negb cacheable then Some VolatileFunction
      else if secret_dependent then Some SecretDependent
      else if (length input =? 0)%nat then Some EmptyInput
      else if negb per_value_enabled then Some PerValueDisabled
      else None
  end.

Definition run_body (environment : option CacheIneligibleReason)
    (cacheable secret_dependent per_value_enabled : bool) (input : list Row) : Body Answer :=
  match scalar_ineligible environment cacheable secret_dependent input per_value_enabled with
  | Some reason =>
      do_ (EmitIneligible reason) ;;;
      r <-- direct default_options input ;;;
      ret r.1
  | None =>
      opted_in <-- do_ HasOptIn ;;;
      if opted_in : bool then cached_call input else first_call input
  end.

Definition producer_of (u : Unit_) : option nat :=
  match u_claim u with Some (MissProducer p _) => Some p | _ => None end.

(** [Drop] of the claims. *)
Fixpoint drop_units (us : list Unit_) : prog Resp unit :=
  match us with
  | [] => Ret tt
  | u :: us =>
      match producer_of u with
      | Some p => prog_bind (call (DropProducer p)) (fun _ => drop_units us)
      | None => drop_units us
      end
  end.

Definition run_scalar_exchange environment cacheable secret_dependent per_value_enabled input
    : prog Resp (result Answer) :=
  prog_bind (run_body environment cacheable secret_dependent per_value_enabled input []) (fun r =>
  prog_bind (drop_units r.1) (fun _ => Ret r.2)).

(** [invoke_async_with_args] from its input batch on: constants collapse to
    one row, equal rows to one, and the answer is spread over the rows again. *)
Variable write_batch : Row -> result (list Ascii.ascii).

Definition invoke environment (columns_empty volatile secret_dependent dedup per_value_enabled : bool)
    (input : list Row) : prog Resp (result (list Cell)) :=
  let rows := length input in
  let constant := (0 <? rows)%nat && columns_empty && negb volatile in
  let input := if constant then take 1 input else input in
  let rpc_rows := length input in
  match (if negb volatile && dedup then deduplicate_scalar_input write_batch concat_rows input
         else Ok (input, None)) with
  | Err e => Ret (Err e)
  | Ok (input, gather) =>
      prog_bind (run_scalar_exchange environment (negb volatile) secret_dependent per_value_enabled input)
        (fun out =>
      Ret (match out with
           | Err e => Err e
           | Ok out =>
               if negb (num_rows out =? length input)%nat then
                 Err (Execution (function +:+ " answered " +:+ pretty (num_rows out) +:+ " rows for "
                        +:+ pretty (length input) +:+ " input rows; a scalar function must be 1:1"))
               else if negb (num_columns out =? 1)%nat then
                 Err (Execution (function +:+ " answered " +:+ pretty (num_columns out)
                        +:+ " columns; a scalar function must return exactly one"))
               else match gather with
                    | Some gather => take_rows (cells out) gather
                    | None =>
                        if (rpc_rows =? 1)%nat && (1 <? rows)%nat then
                          match cells out !! 0%nat with
                          | Some c => Ok (repeat c rows)
                          | None => Err (Panicked "index out of bounds")
                          end
                        else Ok (cells out)
                    end
           end))
  end.
End Scalar.

(** * Collapsing and gathering rows

    What [distinct] computes, for the per-value units and for
    [deduplicate_scalar_input]. *)

From Stdlib Require Import Strings.Ascii.

Section Distinct.
Context {Row K : Type} `{Hcountable : Countable K} (key_of : Row -> result K) (fits : nat -> result unit).

(** [index_of] is the inverse of [uniques]. *)
Definition indexed (index_of : gmap K nat) (uniques : list (K * Row)) : Prop :=
  (forall k i, index_of !! k = Some i <-> exists row, uniques !! i = Some (k, row)) /\
  Forall (fun '(k, row) => key_of row = Ok k) uniques.

Lemma indexed_empty : indexed ∅ [].
Proof. split; [|constructor]. intros k i. rewrite lookup_empty. split; [done|]. by intros [? ?]. Qed.

Lemma indexed_snoc index_of uniques k row :
  indexed index_of uniques -> key_of row = Ok k -> index_of !! k = None ->
  indexed (<[k := length uniques]> index_of) (uniques ++ [(k, row)]).
Proof.
  intros [Hiff Hkeys] Hk Hnone. split; [|apply Forall_app; by repeat constructor].
  intros k' i. destruct (decide (k = k')) as [<-|Hne].
  - rewrite lookup_insert_eq. split.
    + intros [= <-]. exists row. by rewrite lookup_app_r, Nat.sub_diag by lia.
    + intros [row' Hl]. apply lookup_app_Some in Hl as [Hl|[Hge Hl]].
      * assert (index_of !! k = Some i) as Hs by (apply Hiff; eauto). congruence.
      * destruct (i - length uniques)%nat eqn:Hi; [|done]. f_equal. lia.
  - rewrite lookup_insert_ne by done. rewrite Hiff. split; intros [row' Hl]; exists row'.
    + by apply lookup_app_l_Some.
    + apply lookup_app_Some in Hl as [Hl|[Hge Hl]]; [done|].
      destruct (i - length uniques)%nat; [|done]. cbn in Hl. congruence.
Qed.

(** Each row's index leads to a unique row with the same key. *)
Lemma distinct_spec rows index_of uniques row_to_unique out indices :
  indexed index_of uniques ->
  distinct key_of fits rows index_of uniques row_to_unique = Ok (out, indices) ->
  exists index_of' extra news,
    indexed index_of' out /\ out = uniques ++ extra /\ indices = row_to_unique ++ news /\
    (length extra <= length rows)%nat /\
    Forall2 (fun row i => exists k row', key_of row = Ok k /\ out !! i = Some (k, row')) rows news.
Proof.
  revert index_of uniques row_to_unique. induction rows as [|row rows IH]; intros index_of uniques r2u Hix Hd.
  - injection Hd as <- <-. exists index_of, [], []. by rewrite !app_nil_r.
  - cbn [distinct] in Hd. destruct (key_of row) as [k|] eqn:Hk; [|done]. cbv [mbind result_bind] in Hd.
    destruct (index_of !! k) as [i|] eqn:Hi.
    + destruct (IH _ _ _ Hix Hd) as (ix & extra & news & Hix' & -> & -> & Hlen & Hall).
      exists ix, extra, (i :: news). rewrite <- app_assoc. repeat split; try done; [apply Hix'..|cbn; lia|].
      constructor; [|done]. destruct Hix as [Hiff _]. apply Hiff in Hi as [row' Hrow].
      exists k, row'. split; [done|]. by apply lookup_app_l_Some.
    + destruct (fits (length uniques)); [|done].
      destruct (IH _ _ _ (indexed_snoc _ _ _ _ Hix Hk Hi) Hd) as (ix & extra & news & Hix' & -> & -> & Hlen & Hall).
      exists ix, ((k, row) :: extra), (length uniques :: news). rewrite <- !app_assoc in *. cbn in *.
      repeat split; try done; [apply Hix'..|cbn; lia|].
      constructor; [|done]. exists k, row. split; [done|]. by rewrite lookup_app_r, Nat.sub_diag by lia.
Qed.

Lemma indexed_NoDup index_of uniques : indexed index_of uniques -> NoDup (map fst uniques).
Proof.
  intros [Hiff _]. apply NoDup_alt. intros i j k Hi Hj.
  change (map fst uniques) with (fst <$> uniques) in *. rewrite list_lookup_fmap in Hi, Hj.
  apply fmap_Some in Hi as ([k1 r1] & Hi & ->). apply fmap_Some in Hj as ([k2 r2] & Hj & Hk). cbn in Hk. subst k2.
  assert (index_of !! k1 = Some i) by (apply Hiff; eauto).
  assert (index_of !! k1 = Some j) by (apply Hiff; eauto). congruence.
Qed.
End Distinct.

Lemma take_rows_Ok {Cell} (cells : list Cell) indices out :
  take_rows cells indices = Ok out <-> Forall2 (fun i c => cells !! i = Some c) indices out.
Proof.
  unfold take_rows. rewrite <- option_collect_Some. destruct (option_collect _ _); [|by split].
  split; by intros [= ->].
Qed.

(** ** Deduplication *)

Section Dedup.
Context {Row : Type} (write_batch : Row -> result (list Ascii.ascii)).
Context (concat_rows : list Row -> result (list Row)).
Hypothesis concat_rows_ok : forall rows out, concat_rows rows = Ok out -> out = rows.

Lemma gather_rows rows uniques indices :
  Forall (fun '(k, row) => write_batch row = Ok k) uniques ->
  Forall2 (fun row i => exists k row', write_batch row = Ok k /\ uniques !! i = Some (k, row')) rows indices ->
  exists out, take_rows (map snd uniques) indices = Ok out /\
              Forall2 (fun a b => write_batch a = write_batch b) rows out.
Proof.
  intros Hkeys. induction 1 as [|row i rows indices (k & row' & Hk & Hi) _ (out & Hout & Hall)].
  - by exists [].
  - exists (row' :: out). split.
    + apply take_rows_Ok in Hout. apply take_rows_Ok. constructor; [|done].
      change (map snd uniques) with (snd <$> uniques). by rewrite list_lookup_fmap, Hi.
    + constructor; [|done]. rewrite Hk. symmetry. exact (Forall_lookup_1 _ _ _ _ Hkeys Hi).
Qed.

(** Deduplicating a batch loses nothing. The rows sent are pairwise
    different as Arrow IPC; there are fewer of them than rows given, else the
    batch is sent as it is; and gathering them by the indices gives back every
    row of the batch, in order and byte for byte, so the answers gathered the
    same way belong to their rows. *)
Theorem deduplicate_gathers input unique_input gather :
  deduplicate_scalar_input write_batch concat_rows input = Ok (unique_input, gather) ->
  match gather with
  | None => unique_input = input
  | Some indices =>
      (length unique_input < length input)%nat /\ NoDup (map write_batch unique_input) /\
      exists out, take_rows unique_input indices = Ok out /\
                  Forall2 (fun a b => write_batch a = write_batch b) input out
  end.
Proof.
  unfold deduplicate_scalar_input. destruct (length input <=? 1)%nat; [by intros [= <- <-]|].
  destruct (distinct _ _ _ _ _ _) as [[uniques indices]|e] eqn:Hd; [|done]. cbv [mbind result_bind].
  destruct (Nat.eqb_spec (length uniques) (length input)) as [|Hne]; [by intros [= <- <-]|].
  destruct (concat_rows _) as [out|] eqn:Hc; [|done]. intros [= <- <-].
  apply concat_rows_ok in Hc as ->.
  destruct (distinct_spec _ _ _ _ _ _ _ _ (indexed_empty write_batch) Hd)
    as (ix & extra & news & Hix & -> & -> & Hlen & Hall).
  cbn [app] in *. pose proof (indexed_NoDup _ _ _ Hix) as Hnd. destruct Hix as [_ Hkeys].
  split; [rewrite length_map; lia|]. split; [|by apply gather_rows].
  replace (map write_batch (map snd extra)) with (map Ok (map fst extra)); [by apply NoDup_fmap; [intros ?? [= ->]|]|].
  rewrite !map_map. clear -Hkeys. induction Hkeys as [|[k row] l Hk _ IH]; [done|]. cbn. by rewrite Hk, IH.
Qed.
End Dedup.

Lemma deduplicate_gathers_witness :
  deduplicate_scalar_input (fun b : bool => Ok (if b then ["1"%char] else ["0"%char])) Ok
    [true; false; true] = Ok ([true; false], Some [0; 1; 0]%nat) /\
  exists out, take_rows [true; false] [0; 1; 0]%nat = Ok out.
Proof.
  split; [vm_compute; reflexivity|].
  destruct (deduplicate_gathers (fun b : bool => Ok (if b then ["1"%char] else ["0"%char])) Ok
              (fun rows out H => eq_sym (f_equal (fun r => match r with Ok a => a | Err _ => rows end) H))
              [true; false; true] [true; false] (Some [0; 1; 0]%nat) eq_refl) as (_ & _ & out & H & _).
  exists out. exact H.
Defined.
