(* ===== verification/ScalarTheorems.v ===== *)
(** * Scalar calls: the contract and what it implies

    [scalar_transparent] and [scalar_waits_owing_nothing] for the programs of
    Scalar.v, by weakest preconditions over the contract below. *)

From S2P Require Import Prelude Text ResultFlight Runtime Interact Exchange Scalar.

#[local] Open Scope Z_scope.

Section Contract.
Context {Row Cell Digest Key Rest : Type} `{Hcountable : Countable Digest}.

Abbreviation Entry := (@CachedEntry (@Scalar.Answer Cell)) (only parsing).
Abbreviation Unit_ := (@Scalar.Unit_ Row Cell Key) (only parsing).
Abbreviation Call := (@Scalar.Call Row Cell Key Rest) (only parsing).
Abbreviation Resp := (@Scalar.Resp Row Cell Key Rest).
Abbreviation Body := (body (@Scalar.Resp Row Cell Key Rest) (list (@Scalar.Unit_ Row Cell Key))) (only parsing).

Variables (answer_bytes : @Scalar.Answer Cell -> Z) (per_value : Rest -> bool).
Variables (error_text : DFError -> string) (function : string).
Variable concat_rows : list Row -> result (list Row).
Variable concat_answers : list (@Scalar.Answer Cell) -> result (list Cell).
Variable template : result (option (Row -> result Digest)).
Variable key_for_digest : Digest -> Key.
Variable write_batch : Row -> result (list Ascii.ascii).

(** Concatenation keeps rows and cells in order. *)
Hypothesis concat_rows_ok : forall rows out, concat_rows rows = Ok out -> out = rows.
Hypothesis concat_answers_ok : forall l out, concat_answers l = Ok out -> out = flat_map cells l.

(** [f] is the scalar function: what an [honest] worker computes of one row. *)
Variable f : Row -> Cell.
Variable honest : Prop.

Definition has_key (row : Row) (k : Key) : Prop :=
  exists digest d, template = Ok (Some digest) /\ digest row = Ok d /\ k = key_for_digest d.
Definition right_for (k : Key) (bs : list (@Scalar.Answer Cell)) : Prop :=
  forall row, has_key row k -> exists declared, bs = [mkAnswer 1 [f row] declared].

(** Equal keys only for rows with equal answers. *)
Hypothesis keys_agree : honest -> forall r1 r2 k, has_key r1 k -> has_key r2 k -> f r1 = f r2.

Definition sent_right (opts : ScanOptions) (rows : list Row)
    (r : result (option (@Scalar.Answer Cell) * option (@Control Rest))) : Prop :=
  match r with
  | Ok (Some a, control) => opts = default_options \/ is_not_modified control = false ->
      num_columns a = 1%nat /\ cells a = map f rows
  | _ => True
  end.

Definition scalar_rely (g : gset nat) (c : Call) : Resp c -> Prop :=
  match c with
  | Send opts rows => fun r => honest -> sent_right opts rows r
  | CacheGet k | CacheGetForRevalidation k => fun r => honest ->
      match r with Some e => right_for k (entry_batches e) | None => True end
  | _ => fun _ => True
  end.
Definition scalar_guarantee (g : gset nat) (c : Call) : Prop :=
  match c with
  | Wait _ => g = ∅
  | CacheInsert k bs _ _ => honest -> right_for k bs
  | _ => True
  end.
Definition scalar_update (g : gset nat) (c : Call) : Resp c -> gset nat :=
  match c with
  | Acquire _ => fun r => match r with Producer p => {[p]} ∪ g | Follower _ => g end
  | FlightStored p | FlightAborted p _ | DropProducer p => fun _ => g ∖ {[p]}
  | _ => fun _ => g
  end.
Definition scalar_contract : contract Resp :=
  {| ghost := gset nat; rely := scalar_rely; guarantee := scalar_guarantee; update := scalar_update |}.

(** ** Debts *)

(** Each owed producer belongs to a unit [P] holds of. *)
Definition owe (P : nat -> Unit_ -> Prop) (us : list Unit_) (g : gset nat) : Prop :=
  forall p, p ∈ g -> exists i u, us !! i = Some u /\ producer_of u = Some p /\ P i u.
Definition covered : list Unit_ -> gset nat -> Prop := owe (fun _ _ => True).

Lemma owe_mono (P Q : nat -> Unit_ -> Prop) us g :
  (forall i u, us !! i = Some u -> P i u -> Q i u) -> owe P us g -> owe Q us g.
Proof. intros HPQ Ho p Hp. destruct (Ho p Hp) as (i & u & ? & ? & ?). exists i, u. auto. Qed.
Lemma owe_covered P us g : owe P us g -> covered us g.
Proof. by apply owe_mono. Qed.
Lemma owe_paid P us g p : owe P us g -> owe P us (g ∖ {[p]}).
Proof. intros Ho q Hq. apply Ho. set_solver. Qed.
(** Paying for unit [i]. *)
Lemma owe_pay P Q us g i u p :
  owe P us g -> us !! i = Some u -> producer_of u = Some p ->
  (forall j v, us !! j = Some v -> j <> i -> P j v -> Q j v) -> owe Q us (g ∖ {[p]}).
Proof.
  intros Ho Hi Hu HPQ q [Hq Hne]%elem_of_difference. destruct (Ho q Hq) as (j & v & Hj & Hv & HP).
  exists j, v. repeat split; [done..|]. apply HPQ; [done| |done]. intros ->.
  rewrite Hi in Hj. injection Hj as ->. rewrite Hu in Hv. injection Hv as ->. by apply Hne, elem_of_singleton.
Qed.

Definition answered (i : nat) (a : @Scalar.Answer Cell) (us : list Unit_) : list Unit_ :=
  alter (fun u => mkUnit (u_key u) (u_row u) (u_claim u) (Some a)) i us.
Definition claimed (i : nat) (c : MissClaim) (us : list Unit_) : list Unit_ :=
  alter (fun u => mkUnit (u_key u) (u_row u) (Some c) (u_output u)) i us.

(** [P] reads the claims only. *)
Definition of_claims (P : nat -> Unit_ -> Prop) : Prop :=
  forall i u o, P i u -> P i (mkUnit (u_key u) (u_row u) (u_claim u) o).

Lemma owe_answered P i a us g : of_claims P -> owe P us g -> owe P (answered i a us) g.
Proof.
  intros HP Ho p Hp. destruct (Ho p Hp) as (j & u & Hj & Hu & H). unfold answered.
  destruct (decide (i = j)) as [<-|].
  - eexists i, _. rewrite list_lookup_alter_eq, Hj. split; [reflexivity|]. split; [exact Hu|by apply HP].
  - exists j, u. by rewrite list_lookup_alter_ne.
Qed.

Definition unit_ok (u : Unit_) : Prop :=
  has_key (u_row u) (u_key u) /\
  (honest -> forall a, u_output u = Some a -> cells a = [f (u_row u)]) /\
  (honest -> forall p e, u_claim u = Some (MissProducer p (Some e)) -> right_for (u_key u) (entry_batches e)).
Definition units_ok (rows : list Row) (us : list Unit_) : Prop := map u_row us = rows /\ Forall unit_ok us.

Lemma units_ok_lookup rows us i u : units_ok rows us -> us !! i = Some u -> unit_ok u.
Proof. intros [_ Hok] Hi. exact (Forall_lookup_1 _ _ _ _ Hok Hi). Qed.

Lemma units_ok_alter rows us i (h : Unit_ -> Unit_) :
  units_ok rows us -> (forall u, u_row (h u) = u_row u) ->
  (forall u, us !! i = Some u -> unit_ok u -> unit_ok (h u)) -> units_ok rows (alter h i us).
Proof.
  intros [Hrows Hok] Hrow Hh. split.
  - rewrite <- Hrows. apply list_eq. intros j. rewrite !list_lookup_fmap.
    destruct (decide (i = j)) as [->|]; [rewrite list_lookup_alter_eq|by rewrite list_lookup_alter_ne].
    destruct (us !! j); [|done]. exact (f_equal Some (Hrow _)).
  - rewrite Forall_lookup in *. intros j u. destruct (decide (i = j)) as [<-|].
    + rewrite list_lookup_alter_eq. destruct (us !! i) as [v|] eqn:Hv; [|done]. intros [= <-].
      apply Hh; [done|by apply (Hok i)].
    + rewrite list_lookup_alter_ne by done. apply Hok.
Qed.

Lemma units_ok_answered rows us i a :
  units_ok rows us -> (honest -> forall u, us !! i = Some u -> cells a = [f (u_row u)]) ->
  units_ok rows (answered i a us).
Proof.
  intros Hus Ha. apply units_ok_alter; [done|done|]. intros u Hu (? & _ & ?).
  split; [done|]. split; [|done]. intros Hh ? [= <-]. exact (Ha Hh u Hu).
Qed.

(** ** Steps *)

Abbreviation wpb := (Interact.wpb scalar_contract covered).

Lemma wpb_call {A} g us c (k : Resp c -> Body A) Q :
  scalar_guarantee g c -> (forall r, scalar_rely g c r -> wpb (scalar_update g c r) us (k r) Q) ->
  wpb g us (bind (do_ c) k) Q.
Proof. intros Hg Hk. apply wpb_bind, wpb_do; [exact Hg|exact Hk]. Qed.
Lemma wpb_end g us c Q :
  scalar_guarantee g c -> (forall r, scalar_rely g c r -> Q r us (scalar_update g c r)) ->
  wpb g us (do_ c) Q.
Proof. intros Hg Hk. apply wpb_do; [exact Hg|exact Hk]. Qed.
Lemma wpb_attempt {A B} g us (r : result A) (k : A -> Body B) Q :
  covered us g -> (forall a, r = Ok a -> wpb g us (k a) Q) -> wpb g us (bind (try_ r) k) Q.
Proof. intros Hc Hk. by apply wpb_bind, wpb_try. Qed.
Lemma wpb_output {A} g us i a (k : unit -> Body A) Q :
  wpb g (answered i a us) (k tt) Q -> wpb g us (bind (set_output i a) k) Q.
Proof. intros Hk. apply wpb_bind. exact Hk. Qed.
Lemma wpb_unit_at {A} g us i (k : Unit_ -> Body A) Q :
  covered us g -> (forall u, us !! i = Some u -> wpb g us (k u) Q) -> wpb g us (bind (unit_at i) k) Q.
Proof.
  intros Hc Hk. apply wpb_bind. unfold unit_at. apply wpb_bind, wpb_get.
  destruct (us !! i) as [u|] eqn:Hi; [|exact Hc]. by apply wpb_ret, Hk.
Qed.

Definition attempt_right (opts : ScanOptions) (rows : list Row)
    (r : result (@Scalar.Answer Cell * option (@Control Rest))) : Prop :=
  honest -> match r with
            | Ok (a, control) => opts = default_options \/ is_not_modified control = false ->
                num_columns a = 1%nat /\ cells a = map f rows
            | Err _ => True
            end.

Lemma wpb_direct_attempt {A} g us opts rows (k : result _ -> Body A) Q :
  (forall r, attempt_right opts rows r -> wpb g us (k r) Q) ->
  wpb g us (bind (direct_attempt function opts rows) k) Q.
Proof.
  intros Hk. apply wpb_bind. unfold direct_attempt. apply wpb_call; [done|]. intros [[]|e] _; [|by apply wpb_ret, Hk].
  apply wpb_call; [done|]. intros [[a control]|e] Hr; [|by apply wpb_ret, Hk].
  apply wpb_call; [done|]. intros [] _. apply wpb_call; [done|]. intros [[]|e] _; [|by apply wpb_ret, Hk].
  apply wpb_ret, Hk. intros Hh. destruct a as [a|]; [|done]. exact (Hr Hh).
Qed.

Lemma wpb_direct {A} g us rows (k : _ -> Body A) Q :
  covered us g ->
  (forall a control, (honest -> num_columns a = 1%nat /\ cells a = map f rows) -> wpb g us (k (a, control)) Q) ->
  wpb g us (bind (direct function default_options rows) k) Q.
Proof.
  intros Hc Hk. apply wpb_bind. unfold direct. apply wpb_direct_attempt. intros [[a control]|e] Hr; [|exact Hc].
  apply wpb_ret, Hk. intros Hh. apply (Hr Hh). by left.
Qed.

Lemma materialize_ok (a out : @Scalar.Answer Cell) i : materialize_output_row a i = Ok out ->
  exists c, cells a !! i = Some c /\ out = mkAnswer (num_columns a) [c] (declared_schema a).
Proof.
  unfold materialize_output_row. destruct (negb _); [done|]. destruct (cells a !! i) as [c|]; [|done].
  intros [= <-]. by exists c.
Qed.

Lemma right_for_cell row k declared :
  honest -> has_key row k -> right_for k [mkAnswer 1 [f row] declared].
Proof. intros Hh Hk row' Hk'. exists declared. by rewrite (keys_agree Hh row' row k). Qed.

(** ** Revalidation *)

Section Revalidation.
Variables (rows : list Row) (misses : list nat).

(** After the claims, a debt is a cold unit's or awaits revalidation. *)
Definition to_revalidate (todo : list nat) (i : nat) (u : Unit_) : Prop :=
  i ∈ misses /\ (is_cold u = true \/ i ∈ todo).
Definition reval_state (todo : list nat) (us : list Unit_) (g : gset nat) : Prop :=
  units_ok rows us /\ owe (to_revalidate todo) us g.

Lemma to_revalidate_claims todo : of_claims (to_revalidate todo).
Proof. by intros i u o. Qed.

Lemma reval_pay i todo us g u p :
  reval_state (i :: todo) us g -> us !! i = Some u -> producer_of u = Some p ->
  reval_state todo us (g ∖ {[p]}).
Proof.
  intros [Hok Ho] Hi Hu. split; [done|]. eapply owe_pay; [exact Ho|exact Hi|exact Hu|].
  intros j v _ Hne [Hm [Hc|Hin]]; split; try done; [by left|right].
  by apply elem_of_cons in Hin as [->|].
Qed.

Lemma reval_answered i a todo us g :
  reval_state todo us g -> (honest -> forall u, us !! i = Some u -> cells a = [f (u_row u)]) ->
  reval_state todo (answered i a us) g.
Proof.
  intros [Hok Ho] Ha. split; [by apply units_ok_answered|].
  apply owe_answered; [apply to_revalidate_claims|done].
Qed.

Lemma reval_covered todo us g : reval_state todo us g -> covered us g.
Proof. intros [_ Ho]. by apply owe_covered in Ho. Qed.

(** One entry of a key answers the rows of the key. *)
Lemma entry_cell u k bs a :
  unit_ok u -> u_key u = k -> right_for k bs -> bs = [a] -> cells a = [f (u_row u)].
Proof. intros (Hk & _) <- Hr ->. destruct (Hr _ Hk) as [d [= ->]]. done. Qed.

Section One.
Context {i : nat} {todo : list nat} {us : list Unit_} {g : gset nat} {u : Unit_} {p : nat} {stale : Entry}.
Hypothesis Hstate : reval_state (i :: todo) us g.
Hypothesis Hi : us !! i = Some u.
Hypothesis Hclaim : u_claim u = Some (MissProducer p (Some stale)).

Lemma one_unit_ok : unit_ok u.
Proof. destruct Hstate as [Hok _]. by apply (units_ok_lookup rows us i). Qed.
Lemma one_producer : producer_of u = Some p.
Proof. unfold producer_of. by rewrite Hclaim. Qed.
Lemma one_paid : reval_state todo us (g ∖ {[p]}).
Proof. apply (reval_pay i todo us g u); [done|done|apply one_producer]. Qed.
Lemma one_done a : (honest -> cells a = [f (u_row u)]) -> reval_state todo (answered i a us) (g ∖ {[p]}).
Proof.
  intros Ha. apply reval_answered; [apply one_paid|]. intros Hh v Hv.
  rewrite Hi in Hv. injection Hv as <-. by apply Ha.
Qed.
Lemma one_stale cached : entry_batches stale = [cached] -> honest -> cells cached = [f (u_row u)].
Proof.
  intros Hb Hh. apply (entry_cell u (u_key u) (entry_batches stale)); [apply one_unit_ok|done| |done].
  destruct one_unit_ok as (_ & _ & Hs). by apply (Hs Hh p).
Qed.

Let post : unit -> list Unit_ -> gset nat -> Prop := fun _ us' g' => reval_state todo us' g'.

Lemma revalidate_failed_spec e :
  wpb g us (revalidate_failed error_text i p stale e) post.
Proof.
  pose proof (reval_covered _ _ _ Hstate) as Hcov. pose proof (reval_covered _ _ _ one_paid) as Hcov'.
  apply wpb_call; [done|]. intros [] _; [|exact Hcov].
  do 2 (apply wpb_call; [done|]; intros [] _).
  destruct (entry_batches stale) as [|cached [|]] eqn:Hb.
  - apply wpb_call; [done|]. intros [] _. exact Hcov'.
  - apply wpb_output. apply wpb_call; [done|]. intros [] _. apply wpb_end; [done|]. intros [] _.
    by apply one_done, one_stale.
  - apply wpb_call; [done|]. intros [] _. exact Hcov'.
Qed.

Lemma revalidate_unchanged_spec a control :
  wpb g us (revalidate_unchanged function i (u_key u) p stale a control) post.
Proof.
  pose proof (reval_covered _ _ _ Hstate) as Hcov. pose proof (reval_covered _ _ _ one_paid) as Hcov'.
  unfold revalidate_unchanged. destruct (negb _); [exact Hcov|].
  destruct (entry_batches stale) as [|cached [|]] eqn:Hb;
    [apply wpb_end; [done|]; intros [] _; exact one_paid| |apply wpb_end; [done|]; intros [] _; exact one_paid].
  apply wpb_call; [done|]. intros [ttl|reason] _.
  - do 2 (apply wpb_call; [done|]; intros [] _). apply wpb_output.
    apply wpb_call; [done|]. intros [] _. apply wpb_end; [done|]. intros [] _.
    by apply one_done, one_stale.
  - do 2 (apply wpb_call; [done|]; intros [] _). exact Hcov'.
Qed.

Lemma revalidate_changed_spec a control :
  (honest -> num_columns a = 1%nat /\ cells a = [f (u_row u)]) ->
  wpb g us (revalidate_changed answer_bytes per_value i (u_key u) p a control) post.
Proof.
  intros Ha. pose proof (reval_covered _ _ _ Hstate) as Hcov.
  apply wpb_attempt; [done|]. intros out (c & Hc & ->)%materialize_ok.
  assert (honest -> c = f (u_row u) /\ num_columns a = 1%nat) as Hcell.
  { intros Hh. destruct (Ha Hh) as [Hcols Hcells]. rewrite Hcells in Hc. by injection Hc as <-. }
  assert (honest -> right_for (u_key u) [mkAnswer (num_columns a) [c] (declared_schema a)]) as Hright.
  { intros Hh. destruct (Hcell Hh) as [-> ->]. apply right_for_cell; [done|]. apply one_unit_ok. }
  assert (reval_state todo (answered i (mkAnswer (num_columns a) [c] (declared_schema a)) us) (g ∖ {[p]})) as Hdone.
  { apply one_done. intros Hh. cbn. by destruct (Hcell Hh) as [-> _]. }
  apply wpb_call; [done|]. intros [ttl|reason] _; [destruct (is_per_value _ _)|].
  - apply wpb_call; [exact Hright|]. intros [] _. apply wpb_call; [done|]. intros [] _.
    apply wpb_output, wpb_end; [done|]. intros [] _. exact Hdone.
  - apply wpb_call; [done|]. intros [] _. apply wpb_output, wpb_end; [done|]. intros [] _. exact Hdone.
  - apply wpb_call; [done|]. intros [] _. apply wpb_output, wpb_end; [done|]. intros [] _. exact Hdone.
Qed.
End One.

Lemma scalar_revalidate_spec i todo us g :
  reval_state (i :: todo) us g ->
  wpb g us (revalidate answer_bytes per_value error_text function i) (fun _ us' g' => reval_state todo us' g').
Proof.
  intros Hstate. pose proof (reval_covered _ _ _ Hstate) as Hcov.
  apply wpb_unit_at; [done|]. intros u Hi.
  destruct (u_claim u) as [[p [stale|]|w]|] eqn:Hclaim; try exact Hcov.
  apply wpb_direct_attempt. intros [[a control]|e] Hr; [|by eapply revalidate_failed_spec].
  destruct (is_not_modified control) eqn:Hnm; [by eapply revalidate_unchanged_spec|].
  destruct (one_cell a); [|exact Hcov]. eapply revalidate_changed_spec; [done..|].
  intros Hh. apply (Hr Hh). by right.
Qed.
End Revalidation.

(** ** Probing and claiming *)

Lemma indices_of_spec h index (us : list Unit_) i :
  i ∈ indices_of h index us <-> exists j u, i = (index + j)%nat /\ us !! j = Some u /\ h u = true.
Proof.
  revert index i. induction us as [|u us IH]; intros index i; cbn.
  - split; [by intros ?%not_elem_of_nil|]. by intros (j & v & _ & ? & _).
  - assert (i ∈ indices_of h (S index) us <->
      exists j v, i = (index + S j)%nat /\ us !! j = Some v /\ h v = true) as Hrest.
    { rewrite IH. split; intros (j & v & -> & ? & ?); exists j, v; (split; [lia|done]). }
    split.
    + destruct (h u) eqn:Hu; [intros [->|Hin]%elem_of_cons|intros Hin].
      * exists 0%nat, u. by rewrite Nat.add_0_r.
      * apply Hrest in Hin as (j & v & -> & ? & ?). by exists (S j), v.
      * apply Hrest in Hin as (j & v & -> & ? & ?). by exists (S j), v.
    + intros ([|j] & v & -> & Hv & Hh).
      * injection Hv as ->. rewrite Hh, Nat.add_0_r. left.
      * assert ((index + S j)%nat ∈ indices_of h (S index) us) as Hin by (apply Hrest; eauto).
        destruct (h u); [by right|done].
Qed.

Lemma indices_of_NoDup h index (us : list Unit_) : NoDup (indices_of h index us).
Proof.
  revert index. induction us as [|u us IH]; intros index; cbn; [constructor|].
  destruct (h u); [|apply IH]. constructor; [|apply IH].
  intros (j & v & Hj & _)%indices_of_spec. lia.
Qed.

Definition unclaimed (us : list Unit_) : Prop := forall i u, us !! i = Some u -> u_claim u = None.

Definition probe_state (rows : list Row) (us : list Unit_) (g : gset nat) : Prop :=
  units_ok rows us /\ unclaimed us /\ g = ∅.

Lemma covered_empty us : covered us ∅.
Proof. intros p Hp. set_solver. Qed.

Lemma answered_unclaimed i a us : unclaimed us -> unclaimed (answered i a us).
Proof.
  intros Hu j u. unfold answered. destruct (decide (i = j)) as [<-|].
  - rewrite list_lookup_alter_eq. destruct (us !! i) as [v|] eqn:Hv; [|done]. intros [= <-]. exact (Hu i v Hv).
  - rewrite list_lookup_alter_ne by done. apply Hu.
Qed.

Lemma probe_spec rows i us g :
  probe_state rows us g -> wpb g us (probe i) (fun _ us' g' => probe_state rows us' g').
Proof.
  intros (Hok & Hun & ->). pose proof (covered_empty us) as Hcov.
  assert (probe_state rows us ∅) as Hskip by done.
  apply wpb_unit_at; [done|]. intros u Hi. apply wpb_call; [done|].
  intros [[[|batch [|]] bytes ? ?]|] Hr; try exact Hskip.
  destruct (one_cell batch && declared_schema batch); [|exact Hskip].
  apply wpb_call; [done|]. intros [] _. split; [|split; [by apply answered_unclaimed|done]].
  apply units_ok_answered; [done|]. intros Hh v Hv. rewrite Hi in Hv. injection Hv as <-.
  eapply entry_cell; [by eapply units_ok_lookup|done|exact (Hr Hh)|done].
Qed.

Definition claim_state (rows : list Row) (misses todo : list nat) (us : list Unit_) (g : gset nat) : Prop :=
  units_ok rows us /\ owe (fun i _ => i ∈ misses) us g /\ NoDup todo /\
  (forall i, i ∈ todo -> i ∈ misses) /\ (forall i u, i ∈ todo -> us !! i = Some u -> u_claim u = None).

Lemma claimed_state rows misses i todo us g u c :
  claim_state rows misses (i :: todo) us g -> us !! i = Some u ->
  (honest -> forall p e, c = MissProducer p (Some e) -> right_for (u_key u) (entry_batches e)) ->
  claim_state rows misses todo (claimed i c us)
    (match c with MissProducer p _ => {[p]} ∪ g | MissFollower _ => g end).
Proof.
  intros (Hok & Ho & Hnd & Hsub & Hnone) Hi Hc.
  assert (u_claim u = None) as Hu by (by apply (Hnone i); [left|]).
  apply NoDup_cons in Hnd as [Hnin Hnd].
  assert (owe (fun i _ => i ∈ misses) (claimed i c us) g) as Ho'.
  { intros q Hq. destruct (Ho q Hq) as (j & v & Hj & Hv & Hm). exists j, v.
    unfold claimed. rewrite list_lookup_alter_ne; [done|]. intros <-.
    rewrite Hi in Hj. injection Hj as <-. unfold producer_of in Hv. by rewrite Hu in Hv. }
  split; [|split; [|split; [done|split]]].
  - apply units_ok_alter; [done|done|]. intros v Hv (? & ? & _). rewrite Hi in Hv. injection Hv as <-.
    split; [done|]. split; [done|]. intros Hh p e [= ->]. by apply (Hc Hh p).
  - destruct c as [p stale|w]; [|exact Ho'].
    intros q [->%elem_of_singleton|Hq]%elem_of_union; [|by apply Ho'].
    eexists i, _. unfold claimed. rewrite list_lookup_alter_eq, Hi. split; [reflexivity|].
    split; [done|]. apply Hsub. left.
  - intros j Hj. apply Hsub. by right.
  - intros j v Hj. unfold claimed. rewrite list_lookup_alter_ne by (by intros <-).
    apply Hnone. by right.
Qed.

Lemma claim_spec rows misses i todo us g :
  claim_state rows misses (i :: todo) us g ->
  wpb g us (claim i) (fun _ us' g' => claim_state rows misses todo us' g').
Proof.
  intros Hstate. pose proof Hstate as (Hok & Ho & _). apply owe_covered in Ho.
  apply wpb_unit_at; [done|]. intros u Hi. apply wpb_call; [done|]. intros [p|w] _.
  - apply wpb_call; [done|]. intros stale Hr.
    apply (claimed_state rows misses i todo us g u (MissProducer p stale) Hstate Hi).
    intros Hh q e [= -> ->]. exact (Hr Hh).
  - apply (claimed_state rows misses i todo us g u (MissFollower w) Hstate Hi). done.
Qed.

Lemma misses_that_spec h misses (us : list Unit_) i :
  i ∈ misses_that h misses us <-> i ∈ misses /\ exists u, us !! i = Some u /\ h u = true.
Proof.
  unfold misses_that. rewrite !list_elem_of_In, filter_In. split; intros [Hin Hh]; (split; [done|]).
  - destruct (us !! i) as [u|]; [by exists u|done].
  - destruct Hh as (u & -> & Hu). done.
Qed.

Lemma claims_to_revalidate rows misses us g :
  claim_state rows misses [] us g -> reval_state rows misses (misses_that is_revalidation misses us) us g.
Proof.
  intros (Hok & Ho & _). split; [done|]. intros p Hp. destruct (Ho p Hp) as (i & u & Hi & Hu & Hm).
  exists i, u. split; [done|]. split; [done|]. split; [done|].
  unfold producer_of in Hu. destruct (u_claim u) as [[q [e|]|w]|] eqn:Hc; try done.
  - right. apply misses_that_spec. split; [done|]. exists u. split; [done|]. unfold is_revalidation. by rewrite Hc.
  - left. unfold is_cold. by rewrite Hc.
Qed.

(** ** Cold rows *)

Definition cold_state (rows : list Row) (todo : list nat) (us : list Unit_) (g : gset nat) : Prop :=
  units_ok rows us /\ owe (fun i _ => i ∈ todo) us g.

Lemma revalidated_cold rows misses us g :
  reval_state rows misses [] us g -> cold_state rows (misses_that is_cold misses us) us g.
Proof.
  intros [Hok Ho]. split; [done|]. eapply owe_mono; [|exact Ho].
  intros i u Hi [Hm [Hc|[]%not_elem_of_nil]]. apply misses_that_spec. eauto.
Qed.

Lemma cold_done rows us g : cold_state rows [] us g -> g = ∅.
Proof.
  intros [_ Ho]. apply set_eq. intros p. split; [|set_solver]. intros Hp.
  by destruct (Ho p Hp) as (i & u & _ & _ & []%not_elem_of_nil).
Qed.

Lemma cold_covered rows todo us g : cold_state rows todo us g -> covered us g.
Proof. intros [_ Ho]. by apply owe_covered in Ho. Qed.

Lemma cold_answered rows i todo us g u p a :
  cold_state rows (i :: todo) us g -> us !! i = Some u -> producer_of u = Some p ->
  (honest -> cells a = [f (u_row u)]) -> cold_state rows todo (answered i a us) (g ∖ {[p]}).
Proof.
  intros [Hok Ho] Hi Hu Ha. split.
  - apply units_ok_answered; [done|]. intros Hh v Hv. rewrite Hi in Hv. injection Hv as <-. by apply Ha.
  - apply owe_answered; [by intros ???|]. eapply owe_pay; [exact Ho|done|done|].
    intros j v _ Hne Hin. by apply elem_of_cons in Hin as [->|].
Qed.

(** The rows of the units at some indices. *)
Definition rows_of (rows : list Row) (todo : list nat) : list Row := omap (fun i => rows !! i) todo.

Lemma rows_at_of rows (us : list Unit_) todo : map u_row us = rows -> rows_at us todo = rows_of rows todo.
Proof.
  intros <-. unfold rows_at, rows_of. induction todo as [|i todo IH]; [done|]. cbn.
  rewrite IH. change (map u_row us) with (u_row <$> us). by rewrite list_lookup_fmap.
Qed.

Lemma settle_fresh_spec rows fresh control fresh_row todo attempts stored us g :
  num_columns fresh = 1%nat ->
  (honest -> drop fresh_row (cells fresh) = map f (rows_of rows todo)) ->
  cold_state rows todo us g ->
  wpb g us (settle_fresh answer_bytes per_value fresh control fresh_row todo attempts stored)
    (fun _ us' g' => cold_state rows [] us' g').
Proof.
  intros Hcols. revert fresh_row attempts stored us g.
  induction todo as [|i todo IH]; intros fresh_row attempts stored us g Hcells Hstate; [done|].
  pose proof (cold_covered _ _ _ _ Hstate) as Hcov. cbn [settle_fresh].
  apply wpb_bind. destruct (cells fresh !! fresh_row) as [c|] eqn:Hc; [|exact Hcov].
  apply wpb_ret. apply wpb_unit_at; [done|]. intros u Hi.
  destruct (u_claim u) as [[p stale|w]|] eqn:Hclaim; try exact Hcov.
  assert (producer_of u = Some p) as Hu by (unfold producer_of; by rewrite Hclaim).
  pose proof Hstate as [Hok _]. pose proof (units_ok_lookup _ _ _ _ Hok Hi) as Hunit.
  assert (rows_of rows (i :: todo) = u_row u :: rows_of rows todo) as Hrows.
  { destruct Hok as [<- _]. unfold rows_of. cbn. change (map u_row us) with (u_row <$> us).
    by rewrite list_lookup_fmap, Hi. }
  assert (honest -> c = f (u_row u) /\ drop (S fresh_row) (cells fresh) = map f (rows_of rows todo)) as Hstep.
  { intros Hh. specialize (Hcells Hh). rewrite Hrows, (drop_S _ _ _ Hc) in Hcells. by injection Hcells as -> ->. }
  assert (cold_state rows todo (answered i (mkAnswer (num_columns fresh) [c] (declared_schema fresh)) us)
            (g ∖ {[p]})) as Hdone.
  { eapply cold_answered; [exact Hstate|done|done|]. intros Hh. cbn. by destruct (Hstep Hh) as [-> _]. }
  assert (forall attempts stored, wpb (g ∖ {[p]})
            (answered i (mkAnswer (num_columns fresh) [c] (declared_schema fresh)) us)
            (settle_fresh answer_bytes per_value fresh control (S fresh_row) todo attempts stored)
            (fun _ us' g' => cold_state rows [] us' g')) as Hnext.
  { intros. apply IH; [|exact Hdone]. intros Hh. by apply Hstep. }
  destruct (is_per_value per_value control && _).
  - apply wpb_attempt; [done|]. intros out (c' & Hc' & ->)%materialize_ok.
    rewrite Hc in Hc'. injection Hc' as <-.
    apply wpb_call; [done|]. intros [ttl|reason] _.
    + apply wpb_call.
      { intros Hh. destruct (Hstep Hh) as [-> _]. rewrite Hcols. apply right_for_cell; [done|apply Hunit]. }
      intros [] _. do 2 (apply wpb_call; [done|]; intros [] _). apply wpb_output, Hnext.
    + do 2 (apply wpb_call; [done|]; intros [] _). apply wpb_output, Hnext.
  - apply wpb_call; [done|]. intros [] _. apply wpb_output, Hnext.
Qed.

Lemma run_cold_spec rows todo us g :
  cold_state rows todo us g ->
  wpb g us (run_cold answer_bytes per_value function concat_rows todo)
    (fun _ us' g' => units_ok rows us' /\ g' = ∅).
Proof.
  intros Hstate. pose proof (cold_covered _ _ _ _ Hstate) as Hcov.
  assert (forall us g, cold_state rows [] us g -> units_ok rows us /\ g = ∅) as Hend.
  { intros us' g' H'. split; [apply H'|by eapply cold_done]. }
  unfold run_cold. destruct todo as [|i todo]; [by apply wpb_ret, Hend|].
  apply wpb_bind, wpb_get. apply wpb_attempt; [done|]. intros input ->%concat_rows_ok.
  apply wpb_call; [done|]. intros opened _. apply wpb_attempt; [done|]. intros [] ->.
  apply wpb_call; [done|]. intros sent Hsent. apply wpb_attempt; [done|]. intros [[fresh|] control] ->.
  - apply wpb_call; [done|]. intros [] _. apply wpb_call; [done|]. intros closed _.
    apply wpb_attempt; [done|]. intros [] ->.
    destruct (Nat.eqb_spec (num_rows fresh) (length (i :: todo))); [|exact Hcov].
    destruct (Nat.eqb_spec (num_columns fresh) 1) as [Hcols|]; [|exact Hcov]. cbn [negb orb].
    apply wpb_bind. eapply wpb_mono; [|apply settle_fresh_spec; [done| |exact Hstate]].
    + intros stored us' g' Hs. destruct (0 <? stored)%nat; [apply wpb_end; [done|]; intros [] _|apply wpb_ret];
        by apply Hend.
    + intros Hh. rewrite drop_0, <- (rows_at_of rows us) by apply Hstate.
      apply (Hsent Hh). by left.
  - apply wpb_call; [done|]. intros [] _. exact Hcov.
Qed.

(** ** Followers and assembly *)

Lemma scalar_follow_spec rows i us g :
  units_ok rows us -> g = ∅ ->
  wpb g us (follow function i) (fun _ us' g' => units_ok rows us' /\ g' = ∅).
Proof.
  intros Hok ->. pose proof (covered_empty us) as Hcov.
  apply wpb_unit_at; [done|]. intros u Hi.
  destruct (u_claim u) as [[p stale|w]|]; [by apply wpb_ret| |by apply wpb_ret].
  pose proof (units_ok_lookup _ _ _ _ Hok Hi) as Hunit.
  assert (forall a, (honest -> cells a = [f (u_row u)]) -> units_ok rows (answered i a us)) as Hdone.
  { intros a Ha. apply units_ok_answered; [done|]. intros Hh v Hv. rewrite Hi in Hv. injection Hv as <-. by apply Ha. }
  apply wpb_call; [done|]. intros outcome _. cbn [scalar_update].
  assert (wpb ∅ us (bind (direct function default_options [u_row u]) (fun r => set_output i r.1))
            (fun _ us' g' => units_ok rows us' /\ g' = ∅)) as Hrec.
  { apply wpb_direct; [done|]. intros a control Ha. split; [|done]. apply Hdone.
    intros Hh. cbn. by destruct (Ha Hh) as [_ ->]. }
  apply wpb_bind.
  assert (forall entry : option Entry,
    (honest -> match entry with Some e => right_for (u_key u) (entry_batches e) | None => True end) ->
    wpb ∅ us (match entry with
              | Some (mkEntry [batch] bytes _ _) =>
                  if one_cell batch
                  then bind (do_ (NoteHit bytes)) (fun _ => set_output i batch)
                  else bind (direct function default_options [u_row u]) (fun r => set_output i r.1)
              | _ => bind (direct function default_options [u_row u]) (fun r => set_output i r.1)
              end) (fun _ us' g' => units_ok rows us' /\ g' = ∅)) as Hrest.
  { intros [[[|batch [|]] bytes ? ?]|] He; try exact Hrec. destruct (one_cell batch); [|exact Hrec].
    apply wpb_call; [done|]. intros [] _. split; [|done]. apply Hdone. intros Hh.
    eapply entry_cell; [exact Hunit|done|exact (He Hh)|done]. }
  destruct outcome; [|exact (Hrest None (fun _ => I))].
  apply wpb_call; [done|]. intros [e|] He.
  - exact (Hrest (Some e) He).
  - apply wpb_end; [done|]. intros r Hr. exact (Hrest r Hr).
Qed.

(** Each row's index leads to a unit with the row's answer. *)
Definition leads_to (rows input : list Row) (row_to_unique : list nat) : Prop :=
  Forall2 (fun row i => exists row', rows !! i = Some row' /\ (honest -> f row' = f row)) input row_to_unique.

Lemma outputs_cells us outs :
  honest -> Forall unit_ok us ->
  result_collect (fun u => ok_or (unanswered function) (u_output u)) us = Ok outs ->
  flat_map cells outs = map f (map u_row us).
Proof.
  intros Hh Hok Hc. apply result_collect_Ok in Hc. induction Hc as [|u a us outs Hu _ IH]; [done|].
  apply Forall_cons in Hok as [(_ & Hout & _) Hok]. cbn. rewrite IH by done.
  destruct (u_output u) as [a'|] eqn:Ha; [|done]. injection Hu as ->. by rewrite (Hout Hh _ eq_refl).
Qed.

Lemma as_u32_small i : Z.of_nat i < 2 ^ 32 -> as_u32 i = i.
Proof. intros Hi. unfold as_u32. rewrite Z.mod_small by lia. lia. Qed.

Lemma gather_answers rows input indices out :
  honest -> leads_to rows input indices -> Z.of_nat (length rows) <= 2 ^ 32 ->
  take_rows (map f rows) (map as_u32 indices) = Ok out -> out = map f input.
Proof.
  intros Hh Hl Hlen Ht. apply take_rows_Ok in Ht. revert out Ht.
  induction Hl as [|row i input indices (row' & Hi & Hf) _ IH]; intros out Ht; cbn in Ht.
  - by inversion Ht.
  - inversion Ht as [|? c ? out' Hc Ht']; subst. cbn. rewrite (IH out' Ht'). f_equal.
    pose proof (lookup_lt_Some _ _ _ Hi). rewrite as_u32_small in Hc by lia.
    change (map f rows) with (f <$> rows) in Hc. rewrite list_lookup_fmap, Hi in Hc.
    injection Hc as <-. by rewrite Hf.
Qed.

Lemma assemble_spec rows input indices us :
  units_ok rows us -> leads_to rows input indices -> (honest -> Z.of_nat (length rows) <= 2 ^ 32) ->
  wpb ∅ us (assemble function concat_answers indices) (fun a _ g =>
    g = ∅ /\ (honest -> num_columns a = 1%nat /\ cells a = map f input)).
Proof.
  intros [Hrows Hok] Hl Hlen. pose proof (covered_empty us) as Hcov. apply wpb_bind, wpb_get.
  apply wpb_attempt; [done|]. intros outs Houts. apply wpb_attempt; [done|]. intros out ->%concat_answers_ok.
  apply wpb_attempt; [done|]. intros col Hcol. apply wpb_ret. split; [done|].
  intros Hh. split; [done|]. cbn. rewrite (outputs_cells us) in Hcol by done. rewrite Hrows in Hcol.
  by apply (gather_answers rows input indices); [done|done|apply Hlen|].
Qed.

(** ** The cached call *)

Lemma collect_units_spec digest input us indices :
  template = Ok (Some digest) -> collect_units key_for_digest digest input = Ok (us, indices) ->
  units_ok (map u_row us) us /\ unclaimed us /\ leads_to (map u_row us) input indices /\
  (length us <= length input)%nat.
Proof.
  intros Ht. unfold collect_units. destruct (distinct _ _ _ _ _ _) as [[uniques r2u]|] eqn:Hd; [|done].
  cbv [mbind result_bind]. intros [= <- <-].
  destruct (distinct_spec _ _ _ _ _ _ _ _ (indexed_empty digest) Hd)
    as (ix & extra & news & [_ Hkeys] & -> & -> & Hlen & Hall).
  cbn [app] in *. assert (map u_row (map (fun '(d, row) => mkUnit (Cell:=Cell) (key_for_digest d) row None None) extra)
    = map snd extra) as Hrows.
  { rewrite map_map. apply map_ext. by intros []. }
  split; [split; [done|]|]; [|split; [|split; [|by rewrite length_map]]].
  - apply Forall_map. eapply Forall_impl; [exact Hkeys|]. intros [d row] Hd'.
    split; [|split; [done|done]]. by exists digest, d.
  - intros i u. change (map ?h extra) with (h <$> extra). rewrite list_lookup_fmap.
    destruct (extra !! i) as [[d row]|]; [|done]. by intros [= <-].
  - rewrite Hrows. eapply Forall2_impl; [exact Hall|]. intros row i (d & row' & Hd' & Hi). exists row'.
    change (map snd extra) with (snd <$> extra). rewrite list_lookup_fmap, Hi. split; [done|].
    intros Hh. apply (keys_agree Hh row' row (key_for_digest d)); exists digest, d; (split; [done|split; [|done]]).
    + exact (Forall_lookup_1 _ _ _ _ Hkeys Hi).
    + done.
Qed.

Lemma the_template_spec {A} g us (k : _ -> Body A) Q :
  covered us g -> (forall digest, template = Ok (Some digest) -> wpb g us (k digest) Q) ->
  wpb g us (bind (the_template template) k) Q.
Proof.
  intros Hc Hk. apply wpb_bind. apply wpb_attempt; [done|]. intros [digest|] Ht; [|exact Hc].
  by apply wpb_ret, Hk.
Qed.

Lemma cached_call_spec input :
  (honest -> Z.of_nat (length input) <= 2 ^ 32) ->
  wpb ∅ [] (cached_call answer_bytes per_value error_text function concat_rows concat_answers template
              key_for_digest input) (fun a _ g =>
    g = ∅ /\ (honest -> num_columns a = 1%nat /\ cells a = map f input)).
Proof.
  intros Hlen. pose proof (covered_empty []) as Hcov. apply the_template_spec; [done|]. intros digest Ht.
  apply wpb_attempt; [done|]. intros [us0 indices] Hcol.
  destruct (collect_units_spec _ _ _ _ Ht Hcol) as (Hok & Hun & Hl & Hle). cbn [fst snd].
  set (rows := map u_row us0) in *.
  assert (honest -> Z.of_nat (length rows) <= 2 ^ 32) as Hlen'.
  { intros Hh. specialize (Hlen Hh). unfold rows. rewrite length_map. lia. }
  apply wpb_bind, wpb_put, wpb_bind.
  eapply wpb_mono; [|apply (wpb_for_each scalar_contract covered (fun _ us g => probe_state rows us g))];
    [|by intros i ? us g; apply probe_spec|done].
  intros ? us g (Hok1 & Hun1 & ->). apply wpb_bind, wpb_get.
  set (misses := indices_of is_miss 0 us).
  apply wpb_bind. eapply (wpb_mono scalar_contract covered _ _ _ (fun _ us' g' => us' = us /\ g' = ∅)).
  2: { unfold report_probe. destruct (0 <? _)%nat; (apply wpb_end; [done|]; by intros [] _). }
  intros ? us' g' [-> ->]. apply wpb_bind.
  eapply wpb_mono; [|apply (wpb_for_each scalar_contract covered (fun todo us g => claim_state rows misses todo us g))];
    [|by intros i ? us' g; apply claim_spec|].
  2: { split; [done|]. split; [by intros p Hp; set_solver|]. split; [apply indices_of_NoDup|].
       split; [done|]. intros i u _ Hi. exact (Hun1 i u Hi). }
  intros ? us2 g2 Hclaims. apply wpb_bind, wpb_get, wpb_bind.
  eapply wpb_mono; [|apply (wpb_for_each scalar_contract covered (fun todo us g => reval_state rows misses todo us g))];
    [|by intros i ? us' g; apply scalar_revalidate_spec|by apply claims_to_revalidate].
  intros ? us3 g3 Hreval. apply wpb_bind, wpb_get, wpb_bind.
  eapply wpb_mono; [|apply run_cold_spec, revalidated_cold, Hreval].
  intros ? us4 g4 [Hok4 ->]. apply wpb_bind.
  eapply wpb_mono; [|apply (wpb_for_each scalar_contract covered (fun _ us g => units_ok rows us /\ g = ∅))];
    [|by intros i ? us' g []; apply scalar_follow_spec|done].
  intros ? us5 g5 [Hok5 ->]. by apply assemble_spec with rows.
Qed.

(** ** Before the opt-in *)

Lemma store_rows_spec digest a control row rows seen stored us :
  template = Ok (Some digest) -> num_columns a = 1%nat ->
  (honest -> drop row (cells a) = map f rows) ->
  wpb ∅ us (store_rows answer_bytes key_for_digest digest a control row rows seen stored)
    (fun _ us' g => us' = us /\ g = ∅).
Proof.
  intros Ht Hcols. pose proof (covered_empty us) as Hcov.
  revert row seen stored. induction rows as [|r rows IH]; intros row seen stored Hcells;
    [by apply wpb_ret|]. cbn [store_rows].
  destruct (_ <=? _)%nat; [by apply wpb_ret|].
  assert (honest -> drop (S row) (cells a) = map f rows) as Hnext.
  { intros Hh. specialize (Hcells Hh). destruct (cells a !! row) as [c|] eqn:Hc.
    - rewrite (drop_S _ _ _ Hc) in Hcells. by injection Hcells.
    - apply lookup_ge_None in Hc. rewrite drop_ge in Hcells by done. done. }
  apply wpb_attempt; [done|]. intros d Hd. case_bool_decide; [by apply IH|].
  apply wpb_attempt; [done|]. intros out (c & Hc & ->)%materialize_ok.
  apply wpb_call; [done|]. intros [ttl|reason] _; [|by apply IH].
  apply wpb_call.
  { intros Hh. rewrite Hcols. specialize (Hcells Hh). rewrite (drop_S _ _ _ Hc) in Hcells.
    injection Hcells as -> _. apply right_for_cell; [done|]. by exists digest, d. }
  intros [] _. apply wpb_call; [done|]. intros [] _. by apply IH.
Qed.

Lemma first_call_spec input :
  wpb ∅ [] (first_call answer_bytes per_value function template key_for_digest input) (fun a _ g =>
    g = ∅ /\ (honest -> num_columns a = 1%nat /\ cells a = map f input)).
Proof.
  pose proof (covered_empty []) as Hcov. apply wpb_direct; [done|]. intros a control Ha.
  apply wpb_bind. eapply (wpb_mono scalar_contract covered _ _ _ (fun _ us' g' => us' = [] /\ g' = ∅)).
  - intros stored us' g' [-> ->]. apply wpb_bind.
    eapply (wpb_mono scalar_contract covered _ _ _ (fun _ us' g' => g' = ∅)).
    + intros _ us' g' ->. by apply wpb_ret.
    + destruct (0 <? stored)%nat; [|by apply wpb_ret].
      apply wpb_call; [done|]. intros [] _. apply wpb_end; [done|]. by intros [] _.
  - destruct (is_per_value _ _ && _) eqn:Hshape; [|by apply wpb_ret].
    apply andb_true_iff in Hshape as [_ [_ Hcols%Nat.eqb_eq]%andb_true_iff].
    apply the_template_spec; [done|]. intros digest Ht. apply store_rows_spec; [done..|].
    intros Hh. rewrite drop_0. by apply Ha.
Qed.

(** ** The whole call *)

Lemma scalar_body_spec environment cacheable secret per_value_enabled input :
  (honest -> Z.of_nat (length input) <= 2 ^ 32) ->
  wpb ∅ [] (run_body answer_bytes per_value error_text function concat_rows concat_answers template
              key_for_digest environment cacheable secret per_value_enabled input) (fun a _ g =>
    g = ∅ /\ (honest -> num_columns a = 1%nat /\ cells a = map f input)).
Proof.
  intros Hlen. pose proof (covered_empty []) as Hcov. unfold run_body.
  destruct (scalar_ineligible _ _ _ _ _) as [reason|].
  - apply wpb_call; [done|]. intros [] _. apply wpb_direct; [done|]. intros a control Ha. by apply wpb_ret.
  - apply wpb_call; [done|]. intros [] _; [by apply cached_call_spec|apply first_call_spec].
Qed.

Lemma scalar_drop_pays us g : covered us g -> wp scalar_contract g (drop_units us) (fun _ g' => g' = ∅).
Proof.
  revert g. induction us as [|u us IH]; intros g Ho.
  - apply set_eq. intros p. split; [|set_solver]. intros Hp. by destruct (Ho p Hp) as (i & u & ? & _).
  - cbn [drop_units]. destruct (producer_of u) as [p|] eqn:Hu.
    + apply wp_bind. split; [done|]. intros [] _. apply IH. cbn [update scalar_contract scalar_update].
      intros q [Hq Hne]%elem_of_difference. destruct (Ho q Hq) as ([|i] & v & Hi & Hv & _); [|by exists i, v].
      injection Hi as ->. rewrite Hu in Hv. injection Hv as ->. by destruct Hne; apply elem_of_singleton.
    + apply IH. intros q Hq. destruct (Ho q Hq) as ([|i] & v & Hi & Hv & _); [|by exists i, v].
      injection Hi as ->. by rewrite Hu in Hv.
Qed.

Lemma run_scalar_exchange_spec environment cacheable secret per_value_enabled input :
  (honest -> Z.of_nat (length input) <= 2 ^ 32) ->
  wp scalar_contract ∅ (run_scalar_exchange answer_bytes per_value error_text function concat_rows
      concat_answers template key_for_digest environment cacheable secret per_value_enabled input) (fun r g =>
    g = ∅ /\ (honest -> forall a, r = Ok a -> num_columns a = 1%nat /\ cells a = map f input)).
Proof.
  intros Hlen. apply wp_bind. eapply wp_mono; [|by apply scalar_body_spec].
  intros [us [a|e]] g Hr; cbn in Hr |- *; apply wp_bind.
  - destruct Hr as [-> Hr]. eapply wp_mono; [|apply scalar_drop_pays, covered_empty].
    intros ? g' ->. split; [done|]. intros Hh ? [= <-]. by apply Hr.
  - eapply wp_mono; [|apply scalar_drop_pays; exact Hr]. by intros ? g' ->.
Qed.

(** Rows with the same IPC bytes have the same answer, and so have the rows of
    a batch without columns. *)
Hypothesis bytes_agree : honest -> forall r1 r2 k, write_batch r1 = Ok k -> write_batch r2 = Ok k -> f r1 = f r2.

Lemma gather_cells input unique indices rows out :
  honest -> take_rows unique indices = Ok rows ->
  Forall2 (fun a b => write_batch a = write_batch b) input rows ->
  Forall (fun r => is_ok (write_batch r)) input ->
  take_rows (map f unique) indices = Ok out -> out = map f input.
Proof.
  intros Hh Hrows%take_rows_Ok Hsame Hok Hout%take_rows_Ok. revert out Hout input Hsame Hok.
  induction Hrows as [|i row indices rows Hi _ IH]; intros out Hout input Hsame Hok.
  - inversion Hout; inversion Hsame; by subst.
  - inversion Hout as [|? c ? out' Hc Hout']; inversion Hsame as [|r ? input' ? Hr Hsame']; subst.
    apply Forall_cons in Hok as [Hw Hok]. cbn. rewrite (IH out' Hout' input') by done. f_equal.
    change (map f unique) with (f <$> unique) in Hc. rewrite list_lookup_fmap, Hi in Hc. injection Hc as <-.
    destruct (write_batch r) as [k|] eqn:Hk; [|done]. symmetry. by apply (bytes_agree Hh r row k).
Qed.

Lemma dedup_written input unique gather :
  deduplicate_scalar_input write_batch concat_rows input = Ok (unique, Some gather) ->
  Forall (fun r => is_ok (write_batch r)) input /\ (length unique <= length input)%nat.
Proof.
  intros Hd. pose proof (deduplicate_gathers write_batch concat_rows concat_rows_ok _ _ _ Hd) as (Hlen & _).
  split; [|lia]. unfold deduplicate_scalar_input in Hd. destruct (length input <=? 1)%nat; [done|].
  destruct (distinct _ _ _ _ _ _) as [[uniques indices]|e] eqn:Hdist; [|done].
  destruct (distinct_spec _ _ _ _ _ _ _ _ (indexed_empty write_batch) Hdist) as (_ & _ & news & _ & _ & _ & _ & Hall).
  clear -Hall. induction Hall as [|row i rows news (k & row' & Hk & _) _ IH]; constructor; [by rewrite Hk|done].
Qed.

Lemma dedup_length dedup input unique gather :
  (if dedup : bool then deduplicate_scalar_input write_batch concat_rows input else Ok (input, None))
    = Ok (unique, gather) ->
  (length unique <= length input)%nat /\ (gather = None -> unique = input).
Proof.
  destruct dedup; [|by intros [= <- <-]]. intros Hd.
  pose proof (deduplicate_gathers write_batch concat_rows concat_rows_ok _ _ _ Hd) as Hg.
  destruct gather; [split; [lia|done]|]. by subst.
Qed.

Lemma dedup_gathered dedup input unique indices out :
  (if dedup : bool then deduplicate_scalar_input write_batch concat_rows input else Ok (input, None))
    = Ok (unique, Some indices) ->
  honest -> take_rows (map f unique) indices = Ok out -> (1 < length input)%nat /\ out = map f input.
Proof.
  destruct dedup; [|done]. intros Hd Hh Ht. split.
  - unfold deduplicate_scalar_input in Hd. destruct (Nat.leb_spec (length input) 1); [done|lia].
  - destruct (deduplicate_gathers write_batch concat_rows concat_rows_ok _ _ _ Hd) as (_ & _ & rows & Hr & Hs).
    destruct (dedup_written _ _ _ Hd) as [Hw _]. by apply (gather_cells input unique indices rows out).
Qed.

Lemma repeat_constant input c :
  (forall r1 r2, r1 ∈ input -> r2 ∈ input -> r1 = r2) -> map f (take 1 input) !! 0%nat = Some c ->
  repeat c (length input) = map f input.
Proof.
  intros Hall. destruct input as [|r input]; [done|]. cbn. intros [= <-]. f_equal.
  assert (Forall (fun r' => r' = r) input) as Heq.
  { apply Forall_forall. intros r' Hr'. apply Hall; [by right|left]. }
  clear Hall. induction Heq as [|r' input -> _ IH]; [done|]. cbn. by rewrite IH.
Qed.

Lemma invoke_spec environment columns_empty volatile secret dedup per_value_enabled input :
  (honest -> Z.of_nat (length input) <= 2 ^ 32) ->
  (honest -> columns_empty = true -> forall r1 r2, r1 ∈ input -> r2 ∈ input -> r1 = r2) ->
  wp scalar_contract ∅ (invoke answer_bytes per_value error_text function concat_rows concat_answers template
      key_for_digest write_batch environment columns_empty volatile secret dedup per_value_enabled input)
    (fun r g => g = ∅ /\ (honest -> forall out, r = Ok out -> out = map f input)).
Proof.
  intros Hlen Hconst. unfold invoke.
  set (constant := (0 <? length input)%nat && columns_empty && negb volatile).
  set (input' := if constant then take 1 input else input).
  assert ((length input' <= length input)%nat) as Hle'.
  { unfold input'. destruct constant; [|done]. rewrite length_take. lia. }
  destruct (if negb volatile && dedup then _ else _) as [[unique gather]|e] eqn:Hd; [|by split].
  destruct (dedup_length _ _ _ _ Hd) as [Hle Hnone].
  apply wp_bind. eapply wp_mono; [|apply run_scalar_exchange_spec; intros Hh; specialize (Hlen Hh); lia].
  intros [a|e] g [-> Ha]; [|by split]. split; [done|]. intros Hh out.
  destruct (negb (num_rows a =? _)%nat); [done|]. destruct (negb (num_columns a =? 1)%nat); [done|].
  destruct (Ha Hh a eq_refl) as [_ Hcells]. rewrite Hcells. destruct gather as [indices|].
  - intros Ht. destruct (dedup_gathered _ _ _ _ _ Hd Hh Ht) as [Hlong ->]. unfold input' in *.
    destruct constant; [|done]. rewrite length_take in Hlong. lia.
  - rewrite (Hnone eq_refl). unfold input' in *. destruct constant eqn:Hcon.
    + apply andb_true_iff in Hcon as [[Hpos%Nat.ltb_lt Hempty]%andb_true_iff _].
      rewrite length_take. destruct (Nat.ltb_spec 1 (length input)).
      * replace (min 1 (length input)) with 1%nat by lia. cbn [andb Nat.eqb].
        destruct (map f (take 1 input) !! 0%nat) as [c|] eqn:Hc; [|done]. intros [= <-].
        apply repeat_constant; [by apply (Hconst Hh)|done].
      * rewrite andb_false_r. intros [= <-]. by rewrite take_ge by lia.
    + destruct (Nat.eqb_spec (length input) 1) as [->|]; cbn; by intros [= <-].
Qed.
End Contract.

(** ** What a call promises *)

Section Promises.
Context {Row Cell Digest Key Rest : Type} `{Hcountable : Countable Digest} `{Inhabited Cell}.
Abbreviation Resp := (@Scalar.Resp Row Cell Key Rest).
Variables (answer_bytes : @Scalar.Answer Cell -> Z) (per_value : Rest -> bool).
Variables (error_text : DFError -> string) (function : string).
Variable concat_rows : list Row -> result (list Row).
Variable concat_answers : list (@Scalar.Answer Cell) -> result (list Cell).
Variable template : result (option (Row -> result Digest)).
Variable key_for_digest : Digest -> Key.
Variable write_batch : Row -> result (list Ascii.ascii).
(** Arrow's [concat_batches] keeps rows in order. *)
Hypothesis concat_rows_ok : forall rows out, concat_rows rows = Ok out -> out = rows.
Hypothesis concat_answers_ok : forall l out, concat_answers l = Ok out -> out = flat_map cells l.

Abbreviation call environment columns_empty volatile secret dedup per_value_enabled input :=
  (invoke answer_bytes per_value error_text function concat_rows concat_answers template
      key_for_digest write_batch environment columns_empty volatile secret dedup per_value_enabled input).

(** The producers owed after the calls of a trace. *)
Fixpoint owed (g : gset nat) (tr : list (event Resp)) : gset nat :=
  match tr with [] => g | existT c r :: tr => owed (scalar_update g c r) tr end.

Lemma observe_owed (f : Row -> Cell) honest g tr :
  observe (scalar_contract (Rest:=Rest) template key_for_digest f honest) g tr = owed g tr.
Proof. revert g; induction tr as [|[c r] tr IH]; intros g; [done|]. apply IH. Qed.

Lemma scalar_relied_anyway (f : Row -> Cell) g tr : relied (scalar_contract (Rest:=Rest) template key_for_digest f False) g tr.
Proof.
  revert g; induction tr as [|[c r] tr IH]; intros g; [done|]. split; [|apply IH].
  destruct c; try done; intros [].
Qed.

(** Whatever the worker, the cache and other callers do, a scalar call
    waits for another caller's row only when it owes no row of its own, so
    concurrent calls over overlapping rows cannot wait in a cycle; and every
    row it claimed is stored, aborted or dropped when it returns. *)
Theorem scalar_waits_owing_nothing environment columns_empty volatile secret dedup per_value_enabled input tr r :
  runs (call environment columns_empty volatile secret dedup per_value_enabled input) tr r ->
  owed ∅ tr = ∅ /\
  (forall before w o after, tr = before ++ existT (Wait w) o :: after -> owed ∅ before = ∅).
Proof.
  intros Hrun. pose (f := fun _ : Row => inhabitant : Cell).
  destruct (wp_sound (scalar_contract (Rest:=Rest) template key_for_digest f False) ∅ _ _ _ _ Hrun
              (invoke_spec answer_bytes per_value error_text function concat_rows concat_answers template
                 key_for_digest write_batch concat_rows_ok concat_answers_ok f False
                 (fun h => match h with end) (fun h => match h with end) environment columns_empty volatile
                 secret dedup per_value_enabled input (fun h => match h with end) (fun h => match h with end))
              (scalar_relied_anyway f _ _)) as [Hg [Ho _]].
  split; [by rewrite <- (observe_owed f False)|]. intros before w o after ->.
  apply guaranteed_at in Hg. by rewrite <- (observe_owed f False).
Qed.

(** The worker computes [f] of each row, unless it says [not_modified], and the
    cache holds [f]'s values under the keys of their rows. *)
Definition honest_run (f : Row -> Cell) (tr : list (event Resp)) : Prop :=
  relied (scalar_contract (Rest:=Rest) template key_for_digest f True) ∅ tr.

(** C4: deduplication, the per-value cache, the coalescing of equal rows and
    the broadcast of constants do not show. With an honest worker and cache,
    and keys and IPC bytes that tell apart rows with different answers, a
    successful scalar call of at most [2^32] rows returns exactly [f] of each of
    its rows, in order; and each value it stores is [f] of the rows of its key. *)
Theorem scalar_transparent f environment columns_empty volatile secret dedup per_value_enabled input tr r :
  Z.of_nat (length input) <= 2 ^ 32 ->
  (columns_empty = true -> forall r1 r2, r1 ∈ input -> r2 ∈ input -> r1 = r2) ->
  (forall r1 r2 k, has_key template key_for_digest r1 k -> has_key template key_for_digest r2 k -> f r1 = f r2) ->
  (forall r1 r2 k, write_batch r1 = Ok k -> write_batch r2 = Ok k -> f r1 = f r2) ->
  honest_run f tr ->
  runs (call environment columns_empty volatile secret dedup per_value_enabled input) tr r ->
  (forall out, r = Ok out -> out = map f input) /\
  (forall k bs ttl control before after,
     tr = before ++ existT (CacheInsert k bs ttl control) tt :: after ->
     right_for template key_for_digest f k bs).
Proof.
  intros Hlen Hconst Hkeys Hbytes Hrely Hrun.
  destruct (wp_sound (scalar_contract (Rest:=Rest) template key_for_digest f True) ∅ _ _ _ _ Hrun
              (invoke_spec answer_bytes per_value error_text function concat_rows concat_answers template
                 key_for_digest write_batch concat_rows_ok concat_answers_ok f True
                 (fun _ => Hkeys) (fun _ => Hbytes) environment columns_empty volatile
                 secret dedup per_value_enabled input (fun _ => Hlen) (fun _ => Hconst))
              Hrely) as [Hg [_ Hout]].
  split; [by apply Hout|]. intros k bs ttl control before after ->.
  apply guaranteed_at in Hg. by apply Hg.
Qed.
End Promises.

(** ** A call on a concrete environment

    Rows and cells are numbers, the function doubles them. The row 2 is cached,
    3 has a stale entry the worker confirms, and 1 is computed once for both of
    its rows. *)

Module Doubling.
Definition double (n : nat) : nat := (2 * n)%nat.
Definition template : result (option (nat -> result nat)) := Ok (Some Ok).
Definition write_batch (n : nat) : result (list Ascii.ascii) := Ok (repeat Ascii.zero n).
Definition concat_answers (l : list (@Scalar.Answer nat)) : result (list nat) := Ok (flat_map cells l).
Definition input : list nat := [1; 2; 1; 3]%nat.

Abbreviation DResp := (@Scalar.Resp nat nat nat bool).
Definition entry (n : nat) (etag : option string) : @CachedEntry (@Scalar.Answer nat) :=
  mkEntry [mkAnswer 1 [double n] true] 8 etag None.
Definition env (past : list (event DResp)) (c : @Scalar.Call nat nat nat bool) : DResp c :=
  match c with
  | OpenExchange _ | CloseExchange => Ok tt
  | Send opts rows =>
      match if_none_match opts with
      | Some _ => Ok (Some (mkAnswer 1 [] true), Some (mkExchangeControl true true))
      | None => Ok (Some (mkAnswer 1 (map double rows) true), Some (mkExchangeControl false true))
      end
  | CacheGet k => if decide (k = 2%nat) then Some (entry 2 None) else None
  | CacheGetForRevalidation k => if decide (k = 3%nat) then Some (entry 3 (Some "v1"%string)) else None
  | CacheTtl _ _ _ => inl 60
  | MayServeOnError _ => false
  | HasOptIn => true
  | Acquire k => Producer k
  | Wait _ => Stored
  | CacheInsert _ _ _ _ | CacheSlide _ _ | CacheRemove _ | RecordStaleServe | FlightStored _
  | FlightAborted _ _ | DropProducer _ | NoteOptIn | NoteHit _ | NoteStore | EmitIneligible _ | Emit _ _ => tt
  end.

Definition scalar_call : prog DResp (result (list nat)) :=
  invoke (fun _ => 8) (fun b => b) (fun _ => ""%string) "double"%string Ok concat_answers template (fun d => d)
    write_batch None false false false false true input.
Definition trace : list (event DResp) := Eval vm_compute in (interp env [] scalar_call).1.

Example scalar_runs : runs scalar_call trace (Ok [2; 4; 2; 6]%nat).
Proof. exact (interp_runs env [] scalar_call). Qed.

Lemma concat_rows_ok (rows out : list nat) : Ok rows = Ok out -> out = rows.
Proof. by intros [= ->]. Qed.
Lemma concat_answers_ok l out : concat_answers l = Ok out -> out = flat_map cells l.
Proof. by intros [= <-]. Qed.
Lemma key_is_row r k : has_key template (fun d => d) r k -> k = r.
Proof. intros (digest & d & [= <-] & [= ->] & ->). done. Qed.

Lemma scalar_doubling_honest : honest_run template (fun d => d) double trace.
Proof.
  unfold honest_run, trace. cbn [relied]. repeat split; cbn; intros; try done;
    try (by intuition discriminate); intros row <-%key_is_row; by exists true.
Qed.
End Doubling.

Lemma scalar_waits_owing_nothing_witness : owed ∅ Doubling.trace = ∅.
Proof.
  destruct (scalar_waits_owing_nothing (fun _ => 8) (fun b : bool => b) (fun _ => ""%string) "double"%string Ok
              Doubling.concat_answers Doubling.template (fun d => d) Doubling.write_batch
              Doubling.concat_rows_ok Doubling.concat_answers_ok None false false false false true
              Doubling.input _ _ Doubling.scalar_runs) as [Howed _].
  exact Howed.
Defined.

Lemma scalar_transparent_witness : [2; 4; 2; 6]%nat = map Doubling.double Doubling.input.
Proof.
  assert (forall r1 r2 k, has_key Doubling.template (fun d => d) r1 k ->
    has_key Doubling.template (fun d => d) r2 k -> Doubling.double r1 = Doubling.double r2) as Hkeys.
  { intros r1 r2 k <-%Doubling.key_is_row <-%Doubling.key_is_row. reflexivity. }
  assert (forall r1 r2 k, Doubling.write_batch r1 = Ok k -> Doubling.write_batch r2 = Ok k ->
    Doubling.double r1 = Doubling.double r2) as Hbytes.
  { intros r1 r2 k [= <-] [= Heq]. apply (f_equal length) in Heq. rewrite !repeat_length in Heq. by subst. }
  assert (Z.of_nat (length Doubling.input) <= 2 ^ 32) as Hlen by (vm_compute; discriminate).
  assert (false = true -> forall r1 r2, r1 ∈ Doubling.input -> r2 ∈ Doubling.input -> r1 = r2) as Hconst by discriminate.
  destruct (scalar_transparent (fun _ => 8) (fun b : bool => b) (fun _ => ""%string) "double"%string Ok
              Doubling.concat_answers Doubling.template (fun d => d) Doubling.write_batch
              Doubling.concat_rows_ok Doubling.concat_answers_ok Doubling.double None false false false false true
              Doubling.input _ _ Hlen Hconst Hkeys Hbytes Doubling.scalar_doubling_honest Doubling.scalar_runs) as [Hout _].
  exact (Hout _ eq_refl).
Defined.

(** A confirmed entry that is not one batch leaves its row unanswered: the claim
    is given up, but the row is no longer among the cold ones. *)
Module SplitEntry.
Import Doubling.
Definition split_env (past : list (event DResp)) (c : @Scalar.Call nat nat nat bool) : DResp c :=
  match c with
  | CacheGetForRevalidation k =>
      Some (mkEntry [mkAnswer 1 [] true; mkAnswer 1 [double k] true] 8 (Some "v1"%string) None)
  | c => env past c
  end.
End SplitEntry.

Lemma split_entry_unanswered :
  exists tr, runs Doubling.scalar_call tr (Err (unanswered "double")).
Proof.
  exists (interp SplitEntry.split_env [] Doubling.scalar_call).1.
  exact (interp_runs SplitEntry.split_env [] Doubling.scalar_call).
Qed.
