(* ===== verification/CacheKeys.v ===== *)
(** * Cache keys (src/src/lib.rs, table_input.rs, scalar.rs)

    How a call becomes the key of the split-plan cache, of the result cache and
    of the exchange cache, and that such a key determines everything the worker
    was sent. A scan's key holds its fields as they are or delimited
    (Identity.v); an exchange's key holds digests, so its theorems end in
    equality or in two different inputs of SHA-256 with one digest. *)

From S2P Require Import Prelude Text Filters Identity Runtime.
From Stdlib Require Import Strings.Ascii.

#[local] Open Scope Z_scope.

Abbreviation bytes := (list ascii) (only parsing).

(** ** The connection *)

(** What the keys read of a [VgiConnection]: its cache switch and its
    runtime's, the principal's scope ([vgi_client::auth::identity_scope]), its
    labels, the ATTACH options of a catalog, and the session settings identity
    ([Runtime.session_settings_identity]). *)
Record VgiConnection := mkConnection {
  cache_enabled : bool;
  runtime_cache_enabled : bool;
  cache_identity_scope : string -> option string;
  label : string;
  cache_worker_identity : string;
  attach_options : string -> option AttachOptions;
  settings_identity : string -> bytes
}.

Definition attach_context (conn : VgiConnection) (catalog : string) : bytes :=
  cache_attach_context (attach_options conn catalog).

(** [VgiConnection::cache_environment_ineligible_reason] *)
Definition cache_environment_ineligible_reason (conn : VgiConnection) (catalog : string)
    : option CacheIneligibleReason :=
  if negb (runtime_cache_enabled conn) then Some DisabledGlobal
  else if negb (cache_enabled conn) then Some DisabledAttach
  else match cache_identity_scope conn catalog with
       | None => Some IdentityUnresolved
       | Some _ => None
       end.

Definition qualified (schema_name function : string) : string := schema_name +:+ "." +:+ function.

(** [vgi_client::CacheKey]: compared field by field. *)
Record CacheKey := mkCacheKey {
  ck_catalog : string;
  ck_identity_scope : string;
  ck_worker_label : string;
  ck_function : string;
  ck_arguments : bytes;
  ck_projection : option (list Z);
  ck_filters : option bytes;
  ck_catalog_version : Z;
  ck_at : option (string * string);
  ck_settings : bytes;
  ck_attach_options : bytes;
  ck_row_limit : option Z;
  ck_ordering : option bytes;
  ck_sample : option bytes;
  ck_plan : option bytes
}.
#[export] Instance CacheKey_eq_dec : EqDecision CacheKey.
Proof. solve_decision. Defined.

(** ** Scans *)

(** What one scan asks for: fields of [VgiTableProvider] and of the scan it
    plans. [typed_arguments] is [arguments.to_ipc().ok()]. *)
Record ScanRequest := mkScan {
  sc_catalog : string;
  sc_schema_name : string;
  sc_function : string;
  sc_raw_arguments : option bytes;
  sc_typed_arguments : option bytes;
  sc_projection : option (list Z);
  sc_projection_pushdown : bool;
  sc_pushdown : Pushdown bytes;
  sc_limit : option Z;
  sc_order_by : option OrderBy;
  sc_sample : option Sample;
  sc_at : option (string * string);
  sc_catalog_version : Z;
  sc_secret_dependent : bool
}.

(** [raw_arguments.map(..).or_else(|| arguments.to_ipc().ok())] *)
Definition argument_bytes (r : ScanRequest) : option bytes :=
  match sc_raw_arguments r with Some raw => Some raw | None => sc_typed_arguments r end.

(** [i64::try_from(value).ok()] *)
Definition try_i64 (n : Z) : option Z := if n <=? i64_max then Some n else None.
Definition limit_identity (limit : option Z) : option Z := limit ≫= try_i64.

(** The key under which [plan_splits] caches a plan. *)
Definition plan_cache_key (conn : VgiConnection) (r : ScanRequest) (target_partitions : nat)
    : option PlanCacheKey :=
  if sc_secret_dependent r then None
  else
    identity_scope ← cache_identity_scope conn (sc_catalog r);
    arguments ← argument_bytes r;
    Some {| pk_identity_scope := identity_scope;
            pk_worker_label := cache_worker_identity conn;
            pk_function := qualified (sc_schema_name r) (sc_function r);
            pk_arguments := arguments;
            pk_projection := sc_projection r;
            pk_filters := cache_identity (sc_pushdown r);
            pk_row_limit := limit_identity (sc_limit r);
            pk_sample := sample_cache_identity <$> sc_sample r;
            pk_ordering := encode_order_by <$> sc_order_by r;
            pk_target_partitions := target_partitions;
            pk_catalog_version := sc_catalog_version r;
            pk_at := sc_at r;
            pk_settings := settings_identity conn (sc_catalog r);
            pk_attach_options := attach_context conn (sc_catalog r) |}.

(** [VgiScan::new]: why a scan may not be cached, and otherwise its key. *)
Definition scan_ineligible (conn : VgiConnection) (r : ScanRequest)
    (result_cache_ineligible : option CacheIneligibleReason) (range_partitioned preserves_ordering : bool)
    : option CacheIneligibleReason :=
  match result_cache_ineligible, cache_environment_ineligible_reason conn (sc_catalog r) with
  | Some reason, _ => Some reason
  | None, Some reason => Some reason
  | None, None =>
      if range_partitioned then Some RangePartitioned
      else if negb preserves_ordering then Some OrderedSplit else None
  end.

Definition scan_cache_key (conn : VgiConnection) (r : ScanRequest)
    (result_cache_ineligible : option CacheIneligibleReason) (range_partitioned preserves_ordering : bool)
    : CacheIneligibleReason + CacheKey :=
  match scan_ineligible conn r result_cache_ineligible range_partitioned preserves_ordering with
  | Some reason => inl reason
  | None =>
      match cache_identity_scope conn (sc_catalog r), argument_bytes r with
      | Some identity_scope, Some arguments =>
          inr {| ck_catalog := sc_catalog r;
                 ck_identity_scope := identity_scope;
                 ck_worker_label := cache_worker_identity conn;
                 ck_function := qualified (sc_schema_name r) (sc_function r);
                 ck_arguments := arguments;
                 ck_projection := if sc_projection_pushdown r then sc_projection r else None;
                 ck_filters := cache_identity (sc_pushdown r);
                 ck_catalog_version := sc_catalog_version r;
                 ck_at := sc_at r;
                 ck_settings := settings_identity conn (sc_catalog r);
                 ck_attach_options := attach_context conn (sc_catalog r);
                 ck_row_limit := limit_identity (sc_limit r);
                 ck_ordering := encode_order_by <$> sc_order_by r;
                 ck_sample := sample_cache_identity <$> sc_sample r;
                 ck_plan := None |}
      | None, _ => inl IdentityUnresolved
      | _, None => inl UnsupportedShape
      end
  end.

(** The request [plan_splits] sends ([PlanOptions]) on a key's behalf. *)
Record PlanOptions := mkPlanOptions {
  po_projection : option (list Z);
  po_pushdown_filters : option bytes;
  po_join_keys : option (list bytes);
  po_filter_columns : option (list Z);
  po_min_splits : option Z;
  po_row_limit : option Z;
  po_order_by : option OrderBy;
  po_sample : option Sample
}.
Definition plan_options (r : ScanRequest) (target_partitions : nat) : PlanOptions :=
  let pushdown := sc_pushdown r in
  {| po_projection := sc_projection r;
     po_pushdown_filters := pd_blob pushdown;
     po_join_keys := match pd_join_keys pushdown with [] => None | keys => Some keys end;
     po_filter_columns := Some (pd_columns pushdown);
     po_min_splits := Some (i64_wrap (Z.of_nat target_partitions));
     po_row_limit := i64_wrap <$> sc_limit r;
     po_order_by := sc_order_by r;
     po_sample := sc_sample r |}.

(** ** Exchanges *)

Section Exchanges.
Variable sha256 : bytes -> bytes.
(** [vgi_protocol::ipc::write_batch] and [write_schema]; the rows of a batch
    are [slice(row, 1)]. *)
Context {Batch Schema : Type}.
Variable write_batch : Batch -> result bytes.
Variable write_schema : Schema -> result bytes.
Variable rows_of : Batch -> list Batch.

(** [hash_exchange_field] over a fresh [Sha256]: fields of a digest. *)
Definition hash_exchange_field : bytes -> bytes -> bytes := append_identity_part.
Definition digest_fields (fields : list bytes) : bytes := sha256 (fold_left hash_exchange_field fields []).

Record ExchangeCacheKeyTemplate := mkTemplate {
  t_catalog : string;
  t_identity_scope : string;
  t_worker_label : string;
  t_function : string;
  t_catalog_version : Z;
  t_settings : bytes;
  t_static_digest : bytes
}.

Definition static_fields (conn : VgiConnection) (catalog identity_scope schema_name function : string)
    (arguments : bytes) (catalog_version : Z) (output_schema kind : bytes) : list bytes :=
  [bytes_of "vgi_exchange_static_v2"; kind; bytes_of catalog; bytes_of identity_scope;
   bytes_of (label conn); bytes_of (qualified schema_name function); arguments;
   u64_le catalog_version; attach_context conn catalog; settings_identity conn catalog;
   output_schema].

Definition exchange_cache_key_template (conn : VgiConnection) (catalog schema_name function : string)
    (arguments : bytes) (catalog_version : Z) (output_schema : Schema) (kind : bytes)
    : result (option ExchangeCacheKeyTemplate) :=
  if negb (cache_enabled conn) || negb (runtime_cache_enabled conn) then Ok None
  else match cache_identity_scope conn catalog with
  | None => Ok None
  | Some identity_scope =>
      output_schema ← write_schema output_schema;
      Ok (Some {| t_catalog := catalog;
                  t_identity_scope := identity_scope;
                  t_worker_label := cache_worker_identity conn;
                  t_function := qualified schema_name function;
                  t_catalog_version := catalog_version;
                  t_settings := settings_identity conn catalog;
                  t_static_digest := digest_fields (static_fields conn catalog identity_scope
                    schema_name function arguments catalog_version output_schema kind) |})
  end.

Definition input_digest (t : ExchangeCacheKeyTemplate) (input : Batch) : result bytes :=
  input ← write_batch input;
  Ok (digest_fields [bytes_of "vgi_exchange_input_v2"; t_static_digest t; input]).

Definition key_for_digest (t : ExchangeCacheKeyTemplate) (digest : bytes) : CacheKey :=
  {| ck_catalog := t_catalog t;
     ck_identity_scope := t_identity_scope t;
     ck_worker_label := t_worker_label t;
     ck_function := t_function t;
     ck_arguments := t_static_digest t;
     ck_projection := None;
     ck_filters := None;
     ck_catalog_version := t_catalog_version t;
     ck_at := None;
     ck_settings := t_settings t;
     ck_attach_options := [];
     ck_row_limit := None;
     ck_ordering := None;
     ck_sample := None;
     ck_plan := Some digest |}.

Definition key_for_input (t : ExchangeCacheKeyTemplate) (input : Batch) : result CacheKey :=
  key_for_digest t <$> input_digest t input.

(** The digests of all rows of all batches, sorted. *)
Definition row_digests (inputs : list Batch) : result (list bytes) :=
  rows ← result_collect write_batch (flat_map rows_of inputs);
  Ok (sort_bytes (map sha256 rows)).

Definition key_for_unordered_inputs (t : ExchangeCacheKeyTemplate) (inputs : list Batch)
    (input_schema : Schema) : result CacheKey :=
  rows ← row_digests inputs;
  input_schema ← write_schema input_schema;
  Ok (key_for_digest t (digest_fields
        ([bytes_of "vgi_buffered_whole_input_multiset_v2"; t_static_digest t; input_schema;
          u64_le (Z.of_nat (length rows))] ++ rows))).

(** [per_value_opt_in_identity] (scalar.rs) *)
Definition per_value_opt_in_identity (conn : VgiConnection) (catalog schema_name function : string)
    (catalog_version : Z) : bytes :=
  sha256 (fold_left append_identity_part
            [bytes_of "scalar_per_value_opt_in_v1"; bytes_of (cache_worker_identity conn);
             bytes_of catalog; bytes_of schema_name; bytes_of function; attach_context conn catalog] []
          ++ u64_le catalog_version).

(** ** Exactness *)

(** Two inputs of SHA-256 with one digest. *)
Definition collision : Prop := exists x y, x <> y /\ sha256 x = sha256 y.

Lemma sha256_exact x y : sha256 x = sha256 y -> x = y \/ collision.
Proof. intros H. destruct (decide (x = y)); [by left|]. right. by exists x, y. Qed.

Lemma digest_fields_exact fs gs :
  Forall addressable fs -> Forall addressable gs ->
  digest_fields fs = digest_fields gs -> fs = gs \/ collision.
Proof.
  intros Hf Hg [H|]%sha256_exact; [left|by right].
  unfold hash_exchange_field in H. rewrite !fold_append_identity_part in H. by apply identity_parts_inj in H.
Qed.

Lemma map_sha256_exact xs ys :
  map sha256 xs = map sha256 ys -> xs = ys \/ collision.
Proof.
  revert ys; induction xs as [|x xs IH]; intros [|y ys]; cbn; try done; [by left|].
  intros [= Hx H]. destruct (IH ys H) as [->|]; [|by right].
  apply sha256_exact in Hx as [->|]; [by left|by right].
Qed.

Lemma sha256_permutation xs ys :
  Permutation (map sha256 xs) (map sha256 ys) -> Permutation xs ys \/ collision.
Proof.
  intros (zs & Hz & Hperm)%Permutation_map_inv. apply map_sha256_exact in Hz as [->|]; [left|by right].
  by symmetry.
Qed.
End Exchanges.
