(* ===== verification/CacheKeyTheorems.v ===== *)
(** * Cache keys determine their requests

    The exactness theorems of CacheKeys.v, and their instances. *)

From S2P Require Import Prelude Text Filters Identity Runtime CacheKeys.
From Stdlib Require Import Strings.Ascii.

#[local] Open Scope Z_scope.

Abbreviation bytes := (list ascii) (only parsing).

(** ** Encodings of a scan's fields *)

Lemma fmap_delimited {A} (D : A -> Prop) (e : A -> bytes) (o o' : option A) :
  delimited D e -> (forall a, o = Some a -> D a) -> (forall a, o' = Some a -> D a) ->
  e <$> o = e <$> o' -> o = o'.
Proof.
  intros He Ho Ho'. destruct o as [a|], o' as [b|]; cbn; try done. intros [= H].
  f_equal. apply (delimited_inj D e); auto.
Qed.

(** What [serialize] produces: an IPC stream for a blob (which does not start
    with the tag) and side batches only next to one. *)
Definition pushdown_ok (p : Pushdown bytes) : Prop :=
  (forall blob, pd_blob p = Some blob -> addressable blob /\ forall rest, blob <> cache_v2_tag ++ rest) /\
  (pd_blob p = None -> pd_join_keys p = []) /\ Forall addressable (pd_join_keys p).

Lemma cache_identity_eq p :
  cache_identity p = blob ← pd_blob p;
    Some (match pd_join_keys p with [] => blob | keys => cache_v2_tag ++ identity_parts (blob :: keys) end).
Proof.
  unfold cache_identity. destruct (pd_blob p) as [b|]; [|done]. destruct (pd_join_keys p) as [|j js]; [done|].
  cbv [mbind option_bind]. rewrite fold_append_identity_part. unfold append_identity_part.
  by rewrite <- app_assoc.
Qed.

Lemma cache_identity_exact p q :
  pushdown_ok p -> pushdown_ok q -> cache_identity p = cache_identity q ->
  pd_blob p = pd_blob q /\ pd_join_keys p = pd_join_keys q.
Proof.
  intros (Hb & Hn & Hj) (Hb' & Hn' & Hj'). rewrite !cache_identity_eq.
  destruct (pd_blob p) as [b|], (pd_blob q) as [b'|]; cbv [mbind option_bind]; try done; [|by rewrite Hn, Hn'].
  destruct (Hb b eq_refl) as [Ha Ht], (Hb' b' eq_refl) as [Ha' Ht'].
  destruct (pd_join_keys p) as [|j js], (pd_join_keys q) as [|j' js']; intros H%(inj Some).
  - by subst.
  - by destruct (Ht (identity_parts (b' :: j' :: js'))).
  - by destruct (Ht' (identity_parts (b :: j :: js))).
  - apply app_inv_head in H. apply identity_parts_inj in H as [= -> -> ->]; [done|by constructor..].
Qed.

(** The ATTACH options as the worker sees them in the context. *)
Definition attach_fields (o : option AttachOptions) : option (bytes * string * string) :=
  o ← o; Some (default [] (ao_options o), default "" (ao_data_version_spec o),
               default "" (ao_implementation_version o)).
Definition attach_ok (o : option AttachOptions) : Prop :=
  match attach_fields o with
  | Some (a, b, c) => addressable a /\ addressable (bytes_of b) /\ addressable (bytes_of c)
  | None => True
  end.

Lemma attach_context_fields o :
  cache_attach_context o = match attach_fields o with
                           | Some (a, b, c) => identity_parts [a; bytes_of b; bytes_of c]
                           | None => []
                           end.
Proof. destruct o as [o|]; [|done]. exact (fold_append_identity_part [] _). Qed.

Lemma attach_context_exact o o' :
  attach_ok o -> attach_ok o' -> cache_attach_context o = cache_attach_context o' ->
  attach_fields o = attach_fields o'.
Proof.
  rewrite !attach_context_fields. unfold attach_ok.
  destruct (attach_fields o) as [[[a b] c]|], (attach_fields o') as [[[a' b'] c']|]; try done.
  - intros (H1&H2&H3) (H1'&H2'&H3') H. apply identity_parts_inj in H; [|by repeat constructor..].
    injection H as -> ->%(inj bytes_of) ->%(inj bytes_of). done.
Qed.

(** What fits the Rust types of a request. *)
Record request_ok (conn : VgiConnection) (r : ScanRequest) : Prop := {
  ok_pushdown : pushdown_ok (sc_pushdown r);
  ok_attach : attach_ok (attach_options conn (sc_catalog r));
  ok_order : forall o, sc_order_by r = Some o -> order_ok o;
  ok_sample : forall s, sc_sample r = Some s -> sample_ok s;
  ok_limit : forall n, sc_limit r = Some n -> 0 <= n <= i64_max
}.

Lemma limit_identity_small o : (forall n, o = Some n -> 0 <= n <= i64_max) -> limit_identity o = o.
Proof.
  intros H. destruct o as [n|]; [|done]. cbn. unfold try_i64.
  destruct (Z.leb_spec n i64_max); [done|]. specialize (H n eq_refl). lia.
Qed.

Lemma limit_wrap_small o : (forall n, o = Some n -> 0 <= n <= i64_max) -> i64_wrap <$> o = o.
Proof.
  intros H. destruct o as [n|]; [|done]. cbn. rewrite i64_wrap_small; [done|].
  specialize (H n eq_refl). lia.
Qed.

(** ** Scans *)

(** A result cached for one scan is replayed for another only when both
    would send the worker the same call: equal keys mean the same catalog,
    principal, endpoint, function, arguments, projection where the worker
    receives one, filters with their side batches, time-travel coordinate,
    settings, ATTACH options, limit, ordering and sample. *)
Theorem scan_cache_key_exact conn conn' r r' why why' ranged ranged' ordered ordered' k :
  request_ok conn r -> request_ok conn' r' ->
  scan_cache_key conn r why ranged ordered = inr k ->
  scan_cache_key conn' r' why' ranged' ordered' = inr k ->
  (sc_catalog r = sc_catalog r' /\
   cache_identity_scope conn (sc_catalog r) = cache_identity_scope conn' (sc_catalog r') /\
   cache_worker_identity conn = cache_worker_identity conn' /\
   qualified (sc_schema_name r) (sc_function r) = qualified (sc_schema_name r') (sc_function r') /\
   argument_bytes r = argument_bytes r') /\
  ((if sc_projection_pushdown r then sc_projection r else None)
     = (if sc_projection_pushdown r' then sc_projection r' else None) /\
   pd_blob (sc_pushdown r) = pd_blob (sc_pushdown r') /\
   pd_join_keys (sc_pushdown r) = pd_join_keys (sc_pushdown r') /\
   sc_limit r = sc_limit r' /\ sc_order_by r = sc_order_by r' /\ sc_sample r = sc_sample r') /\
  (sc_catalog_version r = sc_catalog_version r' /\ sc_at r = sc_at r' /\
   settings_identity conn (sc_catalog r) = settings_identity conn' (sc_catalog r') /\
   attach_fields (attach_options conn (sc_catalog r)) = attach_fields (attach_options conn' (sc_catalog r'))).
Proof.
  intros [Hp Ha Ho Hs Hl] [Hp' Ha' Ho' Hs' Hl']. unfold scan_cache_key.
  destruct (scan_ineligible conn _ _ _ _), (scan_ineligible conn' _ _ _ _); try done.
  destruct (cache_identity_scope conn _), (argument_bytes r) eqn:Harg; try done. intros [= <-].
  destruct (cache_identity_scope conn' _), (argument_bytes r') eqn:Harg'; try done. intros [=].
  rewrite !limit_identity_small in * by done.
  assert (cache_identity (sc_pushdown r) = cache_identity (sc_pushdown r')) as [??]%cache_identity_exact
    by done; [|done..].
  repeat split; try congruence.
  - by eapply (fmap_delimited order_ok); eauto using order_delimited.
  - by eapply (fmap_delimited sample_ok); eauto using sample_delimited.
  - by apply attach_context_exact.
Qed.

(** A cached split plan is reused only for the request that produced it:
    scans with one plan-cache key put the same options on the wire and bind the
    same call. *)
Theorem plan_cache_key_exact conn conn' r r' n n' k :
  request_ok conn r -> request_ok conn' r' ->
  plan_cache_key conn r n = Some k -> plan_cache_key conn' r' n' = Some k ->
  (forall columns,
     plan_options (mkScan (sc_catalog r) (sc_schema_name r) (sc_function r) (sc_raw_arguments r)
        (sc_typed_arguments r) (sc_projection r) (sc_projection_pushdown r)
        (mkPushdown (pd_blob (sc_pushdown r)) columns (pd_join_keys (sc_pushdown r)) 0)
        (sc_limit r) (sc_order_by r) (sc_sample r) (sc_at r) (sc_catalog_version r)
        (sc_secret_dependent r)) n
     = plan_options (mkScan (sc_catalog r') (sc_schema_name r') (sc_function r') (sc_raw_arguments r')
        (sc_typed_arguments r') (sc_projection r') (sc_projection_pushdown r')
        (mkPushdown (pd_blob (sc_pushdown r')) columns (pd_join_keys (sc_pushdown r')) 0)
        (sc_limit r') (sc_order_by r') (sc_sample r') (sc_at r') (sc_catalog_version r')
        (sc_secret_dependent r')) n') /\
  cache_identity_scope conn (sc_catalog r) = cache_identity_scope conn' (sc_catalog r') /\
  cache_worker_identity conn = cache_worker_identity conn' /\
  argument_bytes r = argument_bytes r' /\ sc_catalog_version r = sc_catalog_version r' /\
  sc_at r = sc_at r' /\
  settings_identity conn (sc_catalog r) = settings_identity conn' (sc_catalog r') /\
  attach_fields (attach_options conn (sc_catalog r)) = attach_fields (attach_options conn' (sc_catalog r')).
Proof.
  intros [Hp Ha Ho Hs Hl] [Hp' Ha' Ho' Hs' Hl']. unfold plan_cache_key.
  destruct (sc_secret_dependent r), (sc_secret_dependent r'); try done.
  destruct (cache_identity_scope conn _), (argument_bytes r) eqn:Harg; cbv [mbind option_bind]; try done.
  intros [= <-].
  destruct (cache_identity_scope conn' _), (argument_bytes r') eqn:Harg'; try done. intros [=].
  rewrite !limit_identity_small in * by done.
  assert (cache_identity (sc_pushdown r) = cache_identity (sc_pushdown r')) as [Hblob Hkeys]%cache_identity_exact
    by done; [|done..].
  assert (sc_order_by r = sc_order_by r')
    by (eapply (fmap_delimited order_ok); eauto using order_delimited).
  assert (sc_sample r = sc_sample r')
    by (eapply (fmap_delimited sample_ok); eauto using sample_delimited).
  split; [|repeat split; try congruence; by apply attach_context_exact].
  intros columns. unfold plan_options. cbn. rewrite Hblob, Hkeys. f_equal; congruence.
Qed.

(** ** Exchanges *)

Section Exchanges.
Context (sha256 : bytes -> bytes) {Batch Schema : Type}.
Context (write_batch : Batch -> result bytes) (write_schema : Schema -> result bytes)
        (rows_of : Batch -> list Batch).
(** A SHA-256 digest has 32 bytes, and an IPC message fits the address space. *)
Hypothesis sha256_length : forall x, length (sha256 x) = 32%nat.
Hypothesis write_batch_addressable : forall b x, write_batch b = Ok x -> addressable x.
Hypothesis write_schema_addressable : forall s x, write_schema s = Ok x -> addressable x.

(** The arguments of [exchange_cache_key_template]. *)
Record ExchangeCall := mkExchangeCall {
  ec_conn : VgiConnection;
  ec_catalog : string;
  ec_schema_name : string;
  ec_function : string;
  ec_arguments : bytes;
  ec_catalog_version : Z;
  ec_output_schema : Schema;
  ec_kind : bytes
}.
Definition template_of (c : ExchangeCall) : result (option ExchangeCacheKeyTemplate) :=
  exchange_cache_key_template sha256 write_schema (ec_conn c) (ec_catalog c) (ec_schema_name c)
    (ec_function c) (ec_arguments c) (ec_catalog_version c) (ec_output_schema c) (ec_kind c).

Record call_ok (c : ExchangeCall) : Prop := {
  ok_kind : addressable (ec_kind c);
  ok_catalog : addressable (bytes_of (ec_catalog c));
  ok_scope : forall s, cache_identity_scope (ec_conn c) (ec_catalog c) = Some s -> addressable (bytes_of s);
  ok_label : addressable (bytes_of (label (ec_conn c)));
  ok_function : addressable (bytes_of (qualified (ec_schema_name c) (ec_function c)));
  ok_arguments : addressable (ec_arguments c);
  ok_version : i64_range (ec_catalog_version c);
  ok_options : attach_ok (attach_options (ec_conn c) (ec_catalog c));
  ok_context : addressable (attach_context (ec_conn c) (ec_catalog c));
  ok_settings : addressable (settings_identity (ec_conn c) (ec_catalog c))
}.

(** Two calls that send the worker the same exchange. *)
Definition same_exchange (c c' : ExchangeCall) : Prop :=
  (ec_kind c = ec_kind c' /\ ec_catalog c = ec_catalog c' /\
   cache_identity_scope (ec_conn c) (ec_catalog c) = cache_identity_scope (ec_conn c') (ec_catalog c') /\
   cache_worker_identity (ec_conn c) = cache_worker_identity (ec_conn c') /\
   qualified (ec_schema_name c) (ec_function c) = qualified (ec_schema_name c') (ec_function c')) /\
  ec_arguments c = ec_arguments c' /\ ec_catalog_version c = ec_catalog_version c' /\
  attach_fields (attach_options (ec_conn c) (ec_catalog c))
    = attach_fields (attach_options (ec_conn c') (ec_catalog c')) /\
  settings_identity (ec_conn c) (ec_catalog c) = settings_identity (ec_conn c') (ec_catalog c') /\
  write_schema (ec_output_schema c) = write_schema (ec_output_schema c').

Lemma sha256_addressable x : addressable (sha256 x).
Proof. unfold addressable. by rewrite sha256_length. Qed.
Lemma u64_le_addressable z : addressable (u64_le z).
Proof. unfold addressable, u64_le. by rewrite to_le_bytes_length. Qed.

Lemma template_inv c t :
  template_of c = Ok (Some t) ->
  exists scope schema, cache_identity_scope (ec_conn c) (ec_catalog c) = Some scope /\
    write_schema (ec_output_schema c) = Ok schema /\
    t = mkTemplate (ec_catalog c) scope (cache_worker_identity (ec_conn c))
          (qualified (ec_schema_name c) (ec_function c)) (ec_catalog_version c)
          (settings_identity (ec_conn c) (ec_catalog c))
          (digest_fields sha256 (static_fields (ec_conn c) (ec_catalog c) scope (ec_schema_name c)
             (ec_function c) (ec_arguments c) (ec_catalog_version c) schema (ec_kind c))).
Proof.
  unfold template_of, exchange_cache_key_template. destruct (_ || _); [done|].
  destruct (cache_identity_scope _ _) as [scope|]; [|done].
  destruct (write_schema _) as [schema|]; [|done]. intros [= <-]. by exists scope, schema.
Qed.

Lemma static_fields_addressable c scope schema :
  call_ok c -> cache_identity_scope (ec_conn c) (ec_catalog c) = Some scope ->
  write_schema (ec_output_schema c) = Ok schema ->
  Forall addressable (static_fields (ec_conn c) (ec_catalog c) scope (ec_schema_name c)
    (ec_function c) (ec_arguments c) (ec_catalog_version c) schema (ec_kind c)).
Proof.
  intros [] Hscope Hschema. unfold static_fields. repeat constructor; eauto using u64_le_addressable.
Qed.

Lemma cons_parts {A} (x y : A) l k : x :: l = y :: k -> x = y /\ l = k.
Proof. by intros [= -> ->]. Qed.

(** Equal templates come from equal calls. *)
Lemma template_exact c c' t t' :
  call_ok c -> call_ok c' -> template_of c = Ok (Some t) -> template_of c' = Ok (Some t') ->
  t_worker_label t = t_worker_label t' -> t_static_digest t = t_static_digest t' ->
  same_exchange c c' \/ collision sha256.
Proof.
  intros Hc Hc' (sc & os & Hs & Ho & ->)%template_inv (sc' & os' & Hs' & Ho' & ->)%template_inv Hw Hd.
  cbn in Hw, Hd. apply digest_fields_exact in Hd as [Hd|]; [left|by right|by apply static_fields_addressable..].
  unfold static_fields in Hd.
  apply cons_parts in Hd as [_ Hd]. apply cons_parts in Hd as [Hk Hd].
  apply cons_parts in Hd as [Hcat%(inj bytes_of) Hd]. apply cons_parts in Hd as [Hsc%(inj bytes_of) Hd].
  apply cons_parts in Hd as [_ Hd]. apply cons_parts in Hd as [Hf%(inj bytes_of) Hd].
  apply cons_parts in Hd as [Ha Hd]. apply cons_parts in Hd as [Hv Hd].
  apply cons_parts in Hd as [Hctx Hd]. apply cons_parts in Hd as [Hset Hd].
  apply cons_parts in Hd as [Hsch _].
  apply i64_le_inj in Hv; [|apply Hc|apply Hc']. apply attach_context_exact in Hctx; [|apply Hc|apply Hc'].
  unfold same_exchange. rewrite Hs, Hs', Ho, Ho'. naive_solver.
Qed.

Lemma input_key_exact t t' b b' k :
  addressable (t_static_digest t) -> addressable (t_static_digest t') ->
  key_for_input sha256 write_batch t b = Ok k -> key_for_input sha256 write_batch t' b' = Ok k ->
  t_worker_label t = t_worker_label t' /\ t_static_digest t = t_static_digest t' /\
  (write_batch b = write_batch b' \/ collision sha256).
Proof.
  intros Ht Ht'. unfold key_for_input, input_digest.
  destruct (write_batch b) as [x|] eqn:Hx; [|done]. destruct (write_batch b') as [x'|] eqn:Hx'; [|done].
  cbv [fmap result_fmap mbind result_bind]. intros [= <-]. unfold key_for_digest.
  intros [= _ _ Hw _ Hs _ _ Hd]. split; [done|]. split; [done|].
  assert (Forall addressable [bytes_of "vgi_exchange_input_v2"; t_static_digest t; x] /\
          Forall addressable [bytes_of "vgi_exchange_input_v2"; t_static_digest t'; x']) as [??].
  { split; repeat constructor; eauto; done. }
  symmetry in Hd. apply digest_fields_exact in Hd as [Hd|]; [left|by right|done|done].
  apply cons_parts in Hd as [_ Hd]. apply cons_parts in Hd as [_ Hd]. apply cons_parts in Hd as [-> _]. done.
Qed.

Lemma template_digest_addressable c t : template_of c = Ok (Some t) -> addressable (t_static_digest t).
Proof. intros (?&?&_&_&->)%template_inv. apply sha256_addressable. Qed.

(** An answer stored for one input batch of one exchange call is served
    only to a call that would send the same exchange and the same batch, byte
    for byte, unless SHA-256 collides. *)
Theorem exchange_key_exact c c' t t' b b' k :
  call_ok c -> call_ok c' -> template_of c = Ok (Some t) -> template_of c' = Ok (Some t') ->
  key_for_input sha256 write_batch t b = Ok k -> key_for_input sha256 write_batch t' b' = Ok k ->
  (same_exchange c c' /\ write_batch b = write_batch b') \/ collision sha256.
Proof.
  intros Hc Hc' Ht Ht' Hk Hk'.
  destruct (input_key_exact t t' b b' k) as (Hw & Hs & [Hb|]);
    [by eapply template_digest_addressable..|done|done| |by right].
  destruct (template_exact c c' t t') as [|]; [done..|by left|by right].
Qed.

(** The rows of a call's input, as the worker would see them. *)
Definition row_multiset (inputs : list Batch) : result (list bytes) :=
  result_collect write_batch (flat_map rows_of inputs).

(** The key of a buffered call identifies its input as a multiset of rows.
    Reordering rows or cutting them into other batches keeps the key, so the
    cached reduction is found again; and two inputs with one key have the same
    rows with the same multiplicities, and one input schema, unless SHA-256
    collides. *)
Theorem unordered_key_multiset t inputs inputs' schema schema' rows rows' k :
  addressable (t_static_digest t) ->
  row_multiset inputs = Ok rows -> row_multiset inputs' = Ok rows' ->
  key_for_unordered_inputs sha256 write_batch write_schema rows_of t inputs schema = Ok k ->
  (Permutation rows rows' -> write_schema schema = write_schema schema' ->
   key_for_unordered_inputs sha256 write_batch write_schema rows_of t inputs' schema' = Ok k) /\
  (key_for_unordered_inputs sha256 write_batch write_schema rows_of t inputs' schema' = Ok k ->
   (Permutation rows rows' /\ write_schema schema = write_schema schema') \/ collision sha256).
Proof.
  intros Ht Hr Hr' Hk. unfold key_for_unordered_inputs, row_digests in *.
  unfold row_multiset in *. rewrite Hr' in *. rewrite Hr in Hk. cbv [mbind result_bind] in *.
  destruct (write_schema schema) as [s|] eqn:Hs; [|done]. injection Hk as <-. split.
  - intros Hp <-. do 3 f_equal. apply (Permutation_map sha256), sort_bytes_canonical in Hp. by rewrite Hp.
  - destruct (write_schema schema') as [s'|] eqn:Hs'; [|done]. unfold key_for_digest. intros [= Hd].
    assert (forall rows, Forall addressable (sort_bytes (map sha256 rows))) as Hrows.
    { intros l. rewrite sort_bytes_perm. apply Forall_map, Forall_true. intros x. apply sha256_addressable. }
    apply digest_fields_exact in Hd as [Hd|]; [|by right|..].
    2, 3: repeat (apply Forall_cons; split); eauto using u64_le_addressable; done.
    do 2 apply cons_parts in Hd as [_ Hd]. apply cons_parts in Hd as [-> Hd].
    apply cons_parts in Hd as [_ Hd]. apply sort_bytes_canonical, sha256_permutation in Hd as [Hp|]; [left|by right].
    by split.
Qed.

(** The fields of a per-value capability. *)
Definition opt_in_ok (conn : VgiConnection) (catalog schema_name function : string) (version : Z) : Prop :=
  Forall addressable [bytes_of (cache_worker_identity conn); bytes_of catalog; bytes_of schema_name;
                      bytes_of function; attach_context conn catalog] /\
  attach_ok (attach_options conn catalog) /\ i64_range version.

(** The per-value caching a scalar function advertised once is believed of
    that function only: one identity means one endpoint, catalog, schema,
    function, ATTACH context and catalog version, unless SHA-256 collides. *)
Theorem per_value_opt_in_exact conn conn' cat cat' sch sch' f f' v v' :
  opt_in_ok conn cat sch f v -> opt_in_ok conn' cat' sch' f' v' ->
  per_value_opt_in_identity sha256 conn cat sch f v = per_value_opt_in_identity sha256 conn' cat' sch' f' v' ->
  (cache_worker_identity conn = cache_worker_identity conn' /\ cat = cat' /\ sch = sch' /\ f = f' /\
   attach_fields (attach_options conn cat) = attach_fields (attach_options conn' cat') /\ v = v') \/
  collision sha256.
Proof.
  intros (Ha & Ho & Hv) (Ha' & Ho' & Hv') H. unfold per_value_opt_in_identity in H.
  apply sha256_exact in H as [H|]; [left|by right]. rewrite !fold_append_identity_part in H.
  apply app_inj_2 in H as [H Hver]; [|by unfold u64_le; rewrite !to_le_bytes_length].
  apply i64_le_inj in Hver; [|done..]. cbn [app] in H.
  apply identity_parts_inj in H; [|by apply Forall_cons..].
  apply cons_parts in H as [_ H]. apply cons_parts in H as [?%(inj bytes_of) H].
  apply cons_parts in H as [?%(inj bytes_of) H]. apply cons_parts in H as [?%(inj bytes_of) H].
  apply cons_parts in H as [?%(inj bytes_of) H]. apply cons_parts in H as [Hctx _].
  apply attach_context_exact in Hctx; naive_solver.
Qed.
End Exchanges.

(** Names are joined with a dot before they are keyed, so a dotted schema and
    a dotted function share keys. *)
Lemma qualified_ambiguous a b c : qualified (a +:+ "." +:+ b) c = qualified a (b +:+ "." +:+ c).
Proof.
  unfold qualified. induction a as [|x a IH]; [done|].
  change ((String.String x a +:+ "." +:+ b) +:+ "." +:+ c)
    with (String.String x ((a +:+ "." +:+ b) +:+ "." +:+ c)).
  by rewrite IH.
Qed.

(** ** Instances *)

Module Sample.
(** A stand-in for SHA-256 with its output length; batches are lists of
    one-byte rows that serialize as themselves. *)
Definition digest (x : bytes) : bytes := take 32 (x ++ repeat "000"%char 32).
Definition write (b : bytes) : result bytes := if decide (Z.of_nat (length b) < 2 ^ 63) then Ok b else Err (Plan "too large").
Definition rows (b : bytes) : list bytes := map (fun x => [x]) b.
Definition conn : VgiConnection := {|
  cache_enabled := true;
  runtime_cache_enabled := true;
  cache_identity_scope := fun catalog => Some (catalog +:+ ":anonymous");
  label := "worker";
  cache_worker_identity := "subprocess:0af1";
  attach_options := fun _ => Some (mkAttachOptions (Some (bytes_of "opts")) (Some "v2") None);
  settings_identity := fun _ => bytes_of "tz=UTC"
|}.
Definition scan_with (raw typed : option bytes) : ScanRequest := {|
  sc_catalog := "sales";
  sc_schema_name := "main";
  sc_function := "orders";
  sc_raw_arguments := raw;
  sc_typed_arguments := typed;
  sc_projection := Some [0; 2];
  sc_projection_pushdown := true;
  sc_pushdown := mkPushdown (Some (bytes_of "blob")) [1] [bytes_of "keys"] 1;
  sc_limit := Some 10;
  sc_order_by := Some (mkOrderBy "total" Descending First (Some 10));
  sc_sample := Some (mkSample 4607182418800017408 (Some 7));
  sc_at := None;
  sc_catalog_version := 3;
  sc_secret_dependent := false
|}.
(** The same arguments, typed and as a catalog's opaque bytes. *)
Definition scan : ScanRequest := scan_with None (Some (bytes_of "args")).
Definition raw_scan : ScanRequest := scan_with (Some (bytes_of "args")) None.
Definition call : ExchangeCall (Schema := bytes) :=
  mkExchangeCall conn "sales" "main" "enrich" (bytes_of "args") 3 (bytes_of "schema")
    (bytes_of "table_in_out_batch_v2").

Lemma digest_length x : length (digest x) = 32%nat.
Proof. unfold digest. rewrite length_take, length_app, repeat_length. lia. Qed.
Lemma write_addressable b x : write b = Ok x -> addressable x.
Proof. unfold write, addressable, u64_modulus. case_decide; intros [= <-]. lia. Qed.

Lemma scan_ok raw typed : request_ok conn (scan_with raw typed).
Proof.
  split; cbn.
  - split; [|split; [done|by repeat constructor]]. intros blob [= <-]. split; [done|]. by intros rest [=].
  - done.
  - intros o [= <-]. split; [done|]. intros z [= <-]. split; done.
  - intros s [= <-]. split; [done|]. intros z [= <-]. split; done.
  - intros n [= <-]. done.
Qed.
Lemma sample_call_ok : call_ok call.
Proof. split; try done. cbn. by intros s [= <-]. Qed.
End Sample.

Lemma scan_cache_key_exact_witness :
  exists k, scan_cache_key Sample.conn Sample.scan None false true = inr k /\
            scan_cache_key Sample.conn Sample.raw_scan None false true = inr k /\
            argument_bytes Sample.scan = argument_bytes Sample.raw_scan.
Proof.
  eexists. split; [reflexivity|]. split; [reflexivity|].
  destruct (scan_cache_key_exact Sample.conn Sample.conn Sample.scan Sample.raw_scan None None false false
              true true _ (Sample.scan_ok _ _) (Sample.scan_ok _ _) eq_refl eq_refl) as ((_ & _ & _ & _ & H) & _).
  exact H.
Defined.

Lemma plan_cache_key_exact_witness :
  exists k, plan_cache_key Sample.conn Sample.scan 4 = Some k /\
            plan_cache_key Sample.conn Sample.raw_scan 4 = Some k /\
            argument_bytes Sample.scan = argument_bytes Sample.raw_scan.
Proof.
  eexists. split; [reflexivity|]. split; [reflexivity|].
  destruct (plan_cache_key_exact Sample.conn Sample.conn Sample.scan Sample.raw_scan 4 4 _
              (Sample.scan_ok _ _) (Sample.scan_ok _ _) eq_refl eq_refl) as (_ & _ & _ & H & _).
  exact H.
Defined.

Lemma exchange_key_exact_witness :
  exists t k, template_of Sample.digest Sample.write Sample.call = Ok (Some t) /\
    key_for_input Sample.digest Sample.write t (bytes_of "row") = Ok k /\
    ((same_exchange Sample.write Sample.call Sample.call /\
      Sample.write (bytes_of "row") = Sample.write (bytes_of "row")) \/ collision Sample.digest).
Proof.
  eexists _, _. split; [vm_compute; reflexivity|]. split; [vm_compute; reflexivity|].
  eapply (exchange_key_exact Sample.digest Sample.write Sample.write Sample.digest_length
            Sample.write_addressable Sample.write_addressable);
    [exact Sample.sample_call_ok|exact Sample.sample_call_ok|vm_compute; reflexivity..].
Defined.

Lemma unordered_key_multiset_witness :
  exists t k, template_of Sample.digest Sample.write Sample.call = Ok (Some t) /\
    key_for_unordered_inputs Sample.digest Sample.write Sample.write Sample.rows t
      [bytes_of "ab"; bytes_of "a"] (bytes_of "s") = Ok k /\
    key_for_unordered_inputs Sample.digest Sample.write Sample.write Sample.rows t
      [bytes_of "aab"] (bytes_of "s") = Ok k.
Proof.
  eexists _, _. split; [vm_compute; reflexivity|]. split; [vm_compute; reflexivity|].
  refine (proj1 (unordered_key_multiset Sample.digest Sample.write Sample.write Sample.rows
            Sample.digest_length Sample.write_addressable _ [bytes_of "ab"; bytes_of "a"] [bytes_of "aab"]
            (bytes_of "s") (bytes_of "s") [bytes_of "a"; bytes_of "b"; bytes_of "a"]
            [bytes_of "a"; bytes_of "a"; bytes_of "b"] _ _ _ _ _) _ _);
    [done|vm_compute; reflexivity..| |reflexivity].
  apply Permutation_cons, Permutation_swap; reflexivity.
Defined.

Lemma per_value_opt_in_exact_witness :
  (cache_worker_identity Sample.conn = cache_worker_identity Sample.conn /\ "sales" = "sales" /\
   "main" = "main" /\ "upper" = "upper" /\
   attach_fields (attach_options Sample.conn "sales") = attach_fields (attach_options Sample.conn "sales") /\
   3 = 3) \/ collision Sample.digest.
Proof.
  assert (opt_in_ok Sample.conn "sales" "main" "upper" 3) as H by (split; [repeat constructor|done]).
  exact (per_value_opt_in_exact Sample.digest _ _ _ _ _ _ _ _ _ _ H H eq_refl).
Defined.
