(* ===== verification/AttachSqlTheorems.v ===== *)
(** * ATTACH statements: round trips and rejected input

    Rendering a specification in either spelling and parsing it gives the
    specification back, whatever the quoted texts contain; splitting an option
    list loses no byte. *)

From S2P Require Import Prelude Text AttachSql.
From Stdlib Require Import Strings.Ascii.

(** ** Characters and trimming *)

(** Printable ASCII other than the space. *)
Definition graphic (c : ascii) : bool :=
  let n := nat_of_ascii c in (33 <=? n)%nat && (n <=? 126)%nat.

(** Case analysis on a byte. *)
Ltac by_byte c := destruct c as [[] [] [] [] [] [] [] []]; try done; vm_compute; try done.

Lemma no_leading_space c s :
  graphic c = true ->
  first_some (fun p => drop_prefix p (c :: s)) (map (map ascii_of_nat) white_space) = None.
Proof. by_byte c. Qed.
Lemma no_trailing_space c s :
  graphic c = true ->
  first_some (fun p => drop_prefix p (c :: s))
    (map (fun p => rev (map ascii_of_nat p)) white_space) = None.
Proof. by_byte c. Qed.

Lemma trim_start_graphic c s : graphic c = true -> trim_start_bytes (c :: s) = c :: s.
Proof. intros Hc. unfold trim_start_bytes. cbn [length strip]. by rewrite no_leading_space. Qed.
Lemma trim_start_nil : trim_start_bytes [] = [].
Proof. done. Qed.
Lemma trim_start_space s : trim_start_bytes (" "%char :: s) = trim_start_bytes s.
Proof. done. Qed.
Lemma trim_end_graphic s c : graphic c = true -> trim_end_bytes (s ++ [c]) = s ++ [c].
Proof.
  intros Hc. unfold trim_end_bytes. rewrite rev_app_distr, length_app. simpl length.
  rewrite Nat.add_1_r. cbn [strip app rev]. rewrite no_trailing_space by done.
  cbn [rev]. by rewrite rev_involutive.
Qed.
Lemma trim_graphic c s d :
  graphic c = true -> graphic d = true -> trim_bytes (c :: s ++ [d]) = c :: s ++ [d].
Proof.
  intros Hc Hd. unfold trim_bytes. rewrite trim_start_graphic by done.
  change (c :: s ++ [d]) with ((c :: s) ++ [d]). by rewrite trim_end_graphic.
Qed.

(** ** Quoting *)

(** What may follow a quoted string for its end to be recognised. *)
Definition no_quote (s : str) : Prop := head s <> Some "'"%char.

Lemma quoted_body_double v rest :
  no_quote rest -> quoted_body (double_quotes v ++ "'"%char :: rest) = Some (v, rest).
Proof.
  intros Hr. induction v as [|c v IH]; simpl.
  - destruct rest as [|d rest]; [done|]. destruct (Ascii.eqb_spec d "'") as [->|]; [by destruct Hr|done].
  - destruct (Ascii.eqb_spec c "'") as [->|Hc]; simpl.
    + by rewrite IH.
    + rewrite (proj2 (Ascii.eqb_neq c "'") Hc), IH. done.
Qed.

Lemma sql_string_cons v rest :
  sql_string v ++ rest = "'"%char :: double_quotes v ++ "'"%char :: rest.
Proof. unfold sql_string. simpl. by rewrite <- app_assoc. Qed.

Lemma take_quoted_sql_string v rest :
  no_quote rest -> take_quoted (sql_string v ++ rest) = Some (v, rest).
Proof.
  intros Hr. unfold take_quoted. rewrite sql_string_cons, trim_start_graphic by done.
  simpl. by apply quoted_body_double.
Qed.

Lemma sql_string_shape v : sql_string v = "'"%char :: double_quotes v ++ ["'"%char].
Proof. done. Qed.

(** Quoting a value with [sql_string] and reading it with [option_string]
    gives the value back, whatever bytes it has. *)
Theorem option_string_sql_string (v : str) : option_string (sql_string v) = Ok v.
Proof.
  unfold option_string. rewrite sql_string_shape, trim_graphic, <- sql_string_shape by done.
  pose proof (take_quoted_sql_string v [] ltac:(done)) as Hq. rewrite app_nil_r in Hq.
  rewrite Hq. done.
Qed.

(** ** Splitting option lists *)

Definition prepend (p : str) (pieces : str * list str) : str * list str :=
  (p ++ pieces.1, pieces.2).
Lemma cons_piece_prepend c p pieces : cons_piece c (prepend p pieces) = prepend (c :: p) pieces.
Proof. done. Qed.
Lemma prepend_app p q pieces : prepend p (prepend q pieces) = prepend (p ++ q) pieces.
Proof. unfold prepend. simpl. by rewrite app_assoc. Qed.

(** A text is one piece when the scanner leaves it in the state it entered it. *)
Definition one_piece (p : str) : Prop :=
  forall rest, no_quote rest -> split_at_commas None 0 (p ++ rest) = prepend p (split_at_commas None 0 rest).

Definition plain (c : ascii) : bool :=
  negb (vec_contains c ["'"; quote_mark; "("; "["; "{"; ")"; "]"; "}"; ","]%char).

Lemma plain_step c rest :
  plain c = true ->
  split_at_commas None 0 (c :: rest) = cons_piece c (split_at_commas None 0 rest).
Proof. by_byte c. Qed.

Lemma one_piece_nil : one_piece [].
Proof. intros rest _. unfold prepend. simpl. by destruct (split_at_commas _ _ _). Qed.
Lemma one_piece_plain c p : plain c = true -> one_piece p -> one_piece (c :: p).
Proof.
  intros Hc Hp rest Hr. cbn [app]. by rewrite plain_step, (Hp rest Hr), cons_piece_prepend.
Qed.

Lemma split_quoted v rest :
  no_quote rest ->
  split_at_commas (Some "'"%char) 0 (double_quotes v ++ "'"%char :: rest)
  = prepend (double_quotes v ++ ["'"%char]) (split_at_commas None 0 rest).
Proof.
  intros Hr. induction v as [|c v IH].
  - cbn [double_quotes app split_at_commas]. rewrite Ascii.eqb_refl.
    destruct rest as [|d rest]; [done|]. destruct (Ascii.eqb_spec d "'") as [->|]; [by destruct Hr|done].
  - cbn [double_quotes]. destruct (Ascii.eqb_spec c "'") as [->|Hc]; cbn [app split_at_commas].
    + by rewrite Ascii.eqb_refl, IH, !cons_piece_prepend.
    + rewrite (proj2 (Ascii.eqb_neq c "'") Hc).
      change (Ascii.eqb "'" quote_mark) with false. rewrite andb_false_r, IH. done.
Qed.

Lemma one_piece_quoted v : one_piece (sql_string v).
Proof.
  intros rest Hr. rewrite sql_string_cons. cbn [split_at_commas].
  change (Ascii.eqb "'" "'" || Ascii.eqb "'" quote_mark) with true. cbv iota.
  rewrite split_quoted by done. done.
Qed.

Lemma one_piece_app p q : one_piece p -> one_piece q -> (q <> [] -> no_quote q) -> one_piece (p ++ q).
Proof.
  intros Hp Hq Hn rest Hr. rewrite <- app_assoc. rewrite Hp.
  - rewrite Hq by done. by rewrite prepend_app.
  - destruct q as [|c q]; [done|]. by apply Hn.
Qed.

Definition join (sep : str) (pieces : list str) : str :=
  match pieces with [] => [] | p :: ps => p ++ concat (map (fun q => sep ++ q) ps) end.

(** Pieces joined by commas are found again. *)
Lemma split_join p ps :
  Forall one_piece (p :: ps) ->
  split_top_level_commas (join [","%char] (p :: ps)) = p :: ps.
Proof.
  assert (forall p ps, Forall one_piece (p :: ps) ->
    split_at_commas None 0 (join [","%char] (p :: ps)) = (p, ps)) as Hgo.
  { clear. intros p ps. revert p. induction ps as [|q ps IH]; intros p Hall.
    - inversion Hall as [|? ? Hp]; subst. simpl.
      rewrite (Hp [] ltac:(done)). by unfold prepend; simpl; rewrite app_nil_r.
    - inversion Hall as [|? ? Hp Hps]; subst. cbn [join map concat].
      rewrite Hp by done. change ([","%char] ++ q) with (","%char :: q). cbn [app].
      cbn [split_at_commas]. cbn [Ascii.eqb]. 
      change (q ++ concat (map (fun q0 => ","%char :: q0) ps)) with (join [","%char] (q :: ps)).
      assert (split_at_commas None 0 (","%char :: join [","%char] (q :: ps)) = ([], q :: ps)) as Hc.
      { cbn -[join]. by rewrite (IH q Hps). }
      cbn -[join] in Hc |- *. rewrite Hc. unfold prepend. simpl. by rewrite app_nil_r. }
  intros Hall. unfold split_top_level_commas. by rewrite Hgo.
Qed.

(** Whatever the text, the pieces joined by commas are the text. *)
Lemma split_at_commas_join open depth s :
  let pieces := split_at_commas open depth s in join [","%char] (pieces.1 :: pieces.2) = s.
Proof.
  remember (length s) as n eqn:Hn. revert open depth s Hn.
  induction (lt_wf n) as [n _ IH]. intros open depth s ->.
  assert (forall o d t, (length t < length s)%nat ->
    join [","%char] ((split_at_commas o d t).1 :: (split_at_commas o d t).2) = t) as Hrec.
  { intros o d t Ht. by apply (IH (length t)). }
  assert (forall c o d t, (length t < length s)%nat ->
    join [","%char] ((cons_piece c (split_at_commas o d t)).1 :: (cons_piece c (split_at_commas o d t)).2)
    = c :: t) as Hcons by (intros c o d t Ht; exact (f_equal (cons c) (Hrec o d t Ht))).
  assert (forall c c' o d t, (length t < length s)%nat ->
    join [","%char] ((cons_piece c (cons_piece c' (split_at_commas o d t))).1
                     :: (cons_piece c (cons_piece c' (split_at_commas o d t))).2)
    = c :: c' :: t) as Hcons2
    by (intros c c' o d t Ht; exact (f_equal (fun x => c :: c' :: x) (Hrec o d t Ht))).
  destruct s as [|c r]; [done|]. cbv zeta. destruct open as [q|].
  - cbn [split_at_commas]. destruct (Ascii.eqb c q).
    + destruct r as [|c' r']; [done|].
      destruct (Ascii.eqb c' q); [apply Hcons2|apply Hcons]; simpl; lia.
    + destruct (_ && _); [|apply Hcons; simpl; lia].
      destruct r as [|c' r']; [done|]. apply Hcons2; simpl; lia.
  - cbn [split_at_commas].
    destruct (_ || _); [apply Hcons; simpl; lia|].
    destruct (opens c); [apply Hcons; simpl; lia|].
    destruct (closes c); [apply Hcons; simpl; lia|].
    destruct (_ && _) eqn:Hcomma; [|apply Hcons; simpl; lia].
    apply andb_true_iff in Hcomma as [->%Ascii.eqb_eq _].
    exact (f_equal (cons ","%char) (Hrec None depth r ltac:(simpl; lia))).
Qed.

(** ** Identifiers *)

Definition ident_byte (c : ascii) : bool := ascii_alphanumeric c || vec_contains c ["_"; "."]%char.
Definition ident (s : str) : Prop := s <> [] /\ Forall (fun c => ident_byte c = true) s.

Lemma ident_byte_facts c :
  ident_byte c = true -> graphic c = true /\ plain c = true /\ is_continuation c = false.
Proof. by_byte c. Qed.
Lemma graphic_not_continuation c : graphic c = true -> is_continuation c = false.
Proof. by_byte c. Qed.

Lemma concat_chars s : concat (chars s) = s.
Proof.
  induction s as [|c s IH]; [done|]. simpl. destruct (chars s) as [|[|d ch] rest]; simpl in *.
  - by rewrite <- IH.
  - by rewrite IH.
  - destruct (is_continuation d); simpl; by rewrite <- IH.
Qed.
Lemma chars_head c s : exists ch rest, chars (c :: s) = (c :: ch) :: rest.
Proof.
  simpl. destruct (chars s) as [|[|d ch] rest]; eauto. destruct (is_continuation d); eauto.
Qed.
Lemma chars_cons c d s :
  is_continuation d = false -> chars (c :: d :: s) = [c] :: chars (d :: s).
Proof.
  intros Hd. destruct (chars_head d s) as (ch & rest & He).
  change (chars (c :: d :: s)) with
    (match chars (d :: s) with
     | (e :: ch) :: rest => if is_continuation e then (c :: e :: ch) :: rest else [c] :: (e :: ch) :: rest
     | rest => [c] :: rest end).
  rewrite He. by rewrite Hd.
Qed.

Section Unicode.
Variable unicode_alphanumeric : str -> bool.
Abbreviation take_ident := (take_ident unicode_alphanumeric).

Lemma ident_char_byte c : ident_char unicode_alphanumeric [c] = ident_byte c.
Proof. done. Qed.

Lemma take_chars_ident s d rest :
  Forall (fun c => ident_byte c = true) s -> is_continuation d = false ->
  take_chars unicode_alphanumeric (chars (s ++ " "%char :: d :: rest))
  = (map (fun c => [c]) s, chars (" "%char :: d :: rest)).
Proof.
  intros Hs Hd. induction Hs as [|c s Hc Hs IH].
  - cbn [app map]. by rewrite chars_cons.
  - destruct (s ++ " "%char :: d :: rest) as [|e t] eqn:He; [by destruct s|].
    assert (is_continuation e = false) as Hec.
    { destruct s as [|e' s]; injection He as <- _; [done|].
      inversion Hs; subst. by apply ident_byte_facts. }
    cbn [app map]. rewrite He, chars_cons by done. cbn [take_chars].
    by rewrite ident_char_byte, Hc, IH.
Qed.

Lemma concat_singletons (s : str) : concat (map (fun c => [c]) s) = s.
Proof. induction s as [|c s IH]; simpl; [done|]. by rewrite IH. Qed.

Lemma take_ident_ident s d rest :
  ident s -> is_continuation d = false ->
  take_ident (s ++ " "%char :: d :: rest) = (s, " "%char :: d :: rest).
Proof.
  intros [Hne Hs] Hd. unfold AttachSql.take_ident.
  assert (trim_start_bytes (s ++ " "%char :: d :: rest) = s ++ " "%char :: d :: rest) as ->.
  { destruct s as [|c s]; [done|]. inversion Hs; subst.
    apply trim_start_graphic. by apply ident_byte_facts. }
  rewrite take_chars_ident by done. cbv beta iota. by rewrite concat_singletons, concat_chars.
Qed.

(** ** Keywords *)

Lemma strip_prefix_ci_app p rest :
  match rest with c :: _ => is_continuation c = false | [] => True end ->
  strip_prefix_ci (p ++ rest) p = Some rest.
Proof.
  intros Hr. unfold strip_prefix_ci, get_prefix.
  rewrite length_app. destruct (Nat.ltb_spec (length p + length rest) (length p)); [lia|].
  rewrite drop_app_length, take_app_length.
  assert (match rest with c :: _ => if is_continuation c then None else Some p | [] => Some p end
          = Some p) as -> by (destruct rest as [|c rest]; [done|by rewrite Hr]).
  simpl. by rewrite bool_decide_eq_true_2.
Qed.
Lemma strip_prefix_ci_ne c s d p :
  to_lower c <> to_lower d -> strip_prefix_ci (c :: s) (d :: p) = None.
Proof.
  intros Hne. unfold strip_prefix_ci, get_prefix. destruct (_ <? _)%nat; [done|].
  assert (forall x : str, bool_decide (lower (take (length (d :: p)) (c :: s)) = lower (d :: p)) = false) as Hb.
  { intros _. apply bool_decide_eq_false_2. simpl. by intros [= ?]. }
  destruct (drop _ _) as [|e t]; [|destruct (is_continuation e); [done|]]; simpl in *; by rewrite Hb.
Qed.

(** ** The option list *)

Definition render_option (kv : str * str) : str := kv.1 ++ " "%char :: sql_string kv.2.
Definition bind_option (m : gmap string string) (kv : str * str) : gmap string string :=
  <[string_of (lower kv.1) := string_of (sql_string kv.2)]> m.
(** The map of the options of a list: the last one of a name wins. *)
Definition bind_options (opts : list (str * str)) (m : gmap string string) : gmap string string :=
  fold_left bind_option opts m.

Lemma trim_quoted_tail s v :
  match s with c :: _ => graphic c = true | [] => False end ->
  trim_bytes (s ++ sql_string v) = s ++ sql_string v.
Proof.
  intros Hs. destruct s as [|c s]; [done|].
  assert ((c :: s) ++ sql_string v = c :: (s ++ "'"%char :: double_quotes v) ++ ["'"%char]) as ->.
  { rewrite sql_string_shape. cbn [app]. by rewrite <- app_assoc. }
  by apply trim_graphic.
Qed.
Lemma trim_quoted v : trim_bytes (sql_string v) = sql_string v.
Proof. by rewrite sql_string_shape, trim_graphic. Qed.

Lemma parse_rendered_option k v :
  ident k -> parse_option unicode_alphanumeric (render_option (k, v)) = Ok (k, sql_string v).
Proof.
  intros Hk. unfold parse_option, render_option. cbn [fst snd].
  rewrite sql_string_shape at 1. rewrite take_ident_ident by done.
  rewrite bool_decide_eq_false_2 by apply Hk. cbv zeta.
  rewrite trim_start_space, sql_string_shape, trim_start_graphic by done.
  change (drop_prefix (B ":=") ("'"%char :: double_quotes v ++ ["'"%char])) with (@None str).
  change (drop_prefix (B "=") ("'"%char :: double_quotes v ++ ["'"%char])) with (@None str).
  rewrite <- sql_string_shape. cbv beta iota delta [default from_option id].
  rewrite trim_quoted. by rewrite bool_decide_eq_false_2.
Qed.

Lemma trim_rendered k v :
  ident k -> trim_bytes (" "%char :: render_option (k, v)) = render_option (k, v).
Proof.
  intros [Hne Hk]. unfold trim_bytes. rewrite trim_start_space.
  change (trim_bytes (render_option (k, v)) = render_option (k, v)).
  unfold render_option. cbn [fst snd].
  change (k ++ " "%char :: sql_string v) with (k ++ [" "%char] ++ sql_string v). rewrite app_assoc.
  apply trim_quoted_tail. destruct k as [|c k]; [done|]. inversion Hk; subst. by apply ident_byte_facts.
Qed.

Lemma parse_rendered_options opts m :
  Forall (fun kv => ident kv.1) opts ->
  parse_options unicode_alphanumeric (map (fun kv => " "%char :: render_option kv) opts) m
  = Ok (bind_options opts m).
Proof.
  intros Hall. revert m. induction Hall as [|[k v] opts Hk Hall IH]; intros m; [done|].
  cbn [map parse_options]. rewrite trim_rendered by done.
  rewrite bool_decide_eq_false_2 by (unfold render_option; by destruct k).
  rewrite parse_rendered_option by done. simpl. by rewrite IH.
Qed.

Lemma one_piece_option kv : ident kv.1 -> one_piece (" "%char :: render_option kv).
Proof.
  intros [_ Hk]. apply one_piece_plain; [done|]. destruct kv as [k v]. cbn [fst] in Hk.
  unfold render_option. cbn [fst snd]. induction Hk as [|c k Hc Hk IH].
  - apply one_piece_plain; [done|]. apply one_piece_quoted.
  - apply one_piece_plain; [by apply ident_byte_facts|done].
Qed.

Definition avoids (x : string) (opts : list (str * str)) : Prop :=
  Forall (fun kv => string_of (lower kv.1) <> x) opts.

Lemma bind_options_insert x v opts m :
  avoids x opts -> bind_options opts (<[x := v]> m) = <[x := v]> (bind_options opts m).
Proof.
  intros Hall. revert m. induction Hall as [|kv opts Hk Hall IH]; intros m; [done|].
  cbn [bind_options fold_left]. unfold bind_option at 2 4. 
  rewrite insert_insert_ne by done. apply IH.
Qed.
Lemma bind_options_lookup x opts m : avoids x opts -> bind_options opts m !! x = m !! x.
Proof.
  intros Hall. revert m. induction Hall as [|kv opts Hk Hall IH]; intros m; [done|].
  cbn [bind_options fold_left]. change (bind_options opts (bind_option m kv) !! x = m !! x).
  rewrite IH. unfold bind_option. by rewrite lookup_insert_ne.
Qed.

(** ** The statement *)

Definition render_options (location : str) (opts : list (str * str)) : str :=
  join [","%char] (B "TYPE vgi" :: map (fun kv => " "%char :: render_option kv)
                                     ((B "LOCATION", location) :: opts)).
Definition render_attach (catalog alias location : str) (opts : list (str * str)) : str :=
  B "ATTACH " ++ sql_string catalog ++ B " AS " ++ alias ++ B " ("
    ++ render_options location opts ++ B ")".

Lemma parse_rendered_list location opts :
  Forall (fun kv => ident kv.1) opts ->
  option_list unicode_alphanumeric (B "(" ++ render_options location opts ++ B ")")
  = Ok (bind_options ((B "LOCATION", location) :: opts) {[ "type" := "vgi" ]}).
Proof.
  intros Hall. unfold option_list.
  assert (Forall (fun kv => ident kv.1) ((B "LOCATION", location) :: opts)) as Hall'.
  { constructor; [|done]. split; [done|]. by repeat constructor. }
  change (drop_prefix (B "(") (B "(" ++ render_options location opts ++ B ")"))
    with (Some (render_options location opts ++ [")"%char])).
  cbn [mbind option_bind]. unfold strip_suffix_char. rewrite rev_app_distr. cbn [rev app].
  rewrite Ascii.eqb_refl, rev_involutive. unfold render_options. rewrite split_join.
  - cbn [parse_options]. change (trim_bytes (B "TYPE vgi")) with (B "TYPE vgi").
    change (parse_option unicode_alphanumeric (B "TYPE vgi")) with (Ok (B "TYPE", B "vgi")).
    rewrite bool_decide_eq_false_2 by done. cbn [mbind result_bind].
    by rewrite parse_rendered_options.
  - constructor.
    + repeat (apply one_piece_plain; [done|]). apply one_piece_nil.
    + apply Forall_map. eapply Forall_impl; [exact Hall'|]. intros kv ?. by apply one_piece_option.
Qed.

Definition option_ok (kv : str * str) : Prop :=
  ident kv.1 /\ string_of (lower kv.1) ∉ ["type"; "location"].

(** Parsing a rendered ATTACH statement returns the specification it was
    rendered from: the catalog and the location unquoted, the alias, and the
    options under their lower-case names with their texts as written, whatever
    commas, quotes or brackets the quoted texts contain. *)
Theorem parse_rendered_attach (c a l : str) (opts : list (str * str)) :
  ident a -> l <> [] -> Forall option_ok opts ->
  parse_duckdb_attach unicode_alphanumeric (render_attach c a l opts)
  = Some (Ok (mkAttachSpec (string_of c) (string_of a) (string_of l) (bind_options opts ∅))).
Proof.
  intros Ha Hl Hopts. unfold parse_duckdb_attach.
  assert (Forall (fun kv => ident kv.1) opts) as Hid
    by (eapply Forall_impl; [exact Hopts|]; by intros kv []).
  assert (forall x, x ∈ ["type"; "location"] -> avoids x opts) as Hav.
  { intros x Hx. eapply Forall_impl; [exact Hopts|]. intros kv [_ Hn] <-. done. }
  set (list_text := B "(" ++ render_options l opts ++ B ")").
  set (tail := " "%char :: "A"%char :: "S"%char :: " "%char :: a ++ " "%char :: list_text).
  assert (render_attach c a l opts = B "ATTACH" ++ " "%char :: sql_string c ++ tail) as Hr.
  { unfold render_attach, tail, list_text. change (B "ATTACH ") with (B "ATTACH" ++ [" "%char]).
    rewrite <- app_assoc. done. }
  assert (exists t, B "ATTACH" ++ " "%char :: sql_string c ++ tail = "A"%char :: t ++ [")"%char]) as (t & Ht).
  { exists (B "TTACH" ++ " "%char :: sql_string c ++ " "%char :: "A"%char :: "S"%char :: " "%char :: a
              ++ " "%char :: B "(" ++ render_options l opts).
    unfold tail, list_text. rewrite <- !app_assoc. cbn [app]. rewrite <- !app_assoc. cbn [app].
    rewrite <- !app_assoc. done. }
  assert (trim_end_matches_char ";" (trim_bytes (render_attach c a l opts))
          = B "ATTACH" ++ " "%char :: sql_string c ++ tail) as Htrim.
  { rewrite Hr, Ht, trim_graphic by done. unfold trim_end_matches_char.
    rewrite app_comm_cons, (rev_app_distr ("A"%char :: t)).
    change (drop_while_char ";" (rev [")"%char] ++ rev ("A"%char :: t)))
      with (rev [")"%char] ++ rev ("A"%char :: t)).
    by rewrite <- rev_app_distr, rev_involutive. }
  rewrite Htrim, strip_prefix_ci_app by done. cbn [mbind option_bind].
  rewrite trim_start_space, sql_string_cons, trim_start_graphic by done.
  change (B "IF NOT EXISTS") with ("I"%char :: B "F NOT EXISTS").
  rewrite strip_prefix_ci_ne by done. rewrite <- sql_string_cons.
  rewrite take_quoted_sql_string by done. f_equal.
  assert (trim_start_bytes tail = B "AS" ++ " "%char :: a ++ " "%char :: list_text) as ->
    by (unfold tail; by rewrite trim_start_space, trim_start_graphic).
  unfold parse_alias. rewrite strip_prefix_ci_app by done.
  assert (trim_start_bytes (" "%char :: a ++ " "%char :: list_text) = a ++ " "%char :: list_text) as ->.
  { rewrite trim_start_space. destruct Ha as [Hne Hal]. destruct a as [|d a']; [done|].
    inversion Hal; subst. apply trim_start_graphic. by apply ident_byte_facts. }
  change list_text with ("("%char :: render_options l opts ++ B ")") at 1.
  rewrite take_ident_ident by done. cbn [mbind result_bind].
  rewrite bool_decide_eq_false_2 by apply Ha. cbn [mbind result_bind].
  rewrite trim_start_space, trim_start_graphic by done.
  change ("("%char :: render_options l opts ++ B ")") with (B "(" ++ render_options l opts ++ B ")").
  rewrite parse_rendered_list by done. cbn [mbind result_bind].
  assert (bind_options ((B "LOCATION", l) :: opts) {["type" := "vgi"]}
          = <["location" := string_of (sql_string l)]> (<["type" := "vgi"]> (bind_options opts ∅))) as ->.
  { change (bind_options opts (<["location" := string_of (sql_string l)]> (<["type" := "vgi"]> ∅))
            = <["location" := string_of (sql_string l)]> (<["type" := "vgi"]> (bind_options opts ∅))).
    rewrite !bind_options_insert; [done|apply Hav; set_solver..]. }
  assert (bind_options opts ∅ !! "type" = None /\ bind_options opts ∅ !! "location" = None) as [Hnt Hnl]
    by (by rewrite !bind_options_lookup by (apply Hav; set_solver)).
  unfold check_type. rewrite lookup_insert_ne, lookup_insert_eq by done.
  change (option_string (B "vgi")) with (Ok (B "vgi")). cbn [mbind result_bind].
  rewrite bool_decide_eq_true_2 by done. cbn [mbind result_bind].
  rewrite delete_insert_ne, delete_insert_id by done.
  unfold located_spec, remove_location. rewrite lookup_insert_eq, delete_insert_id by done.
  rewrite bytes_of_string_of, option_string_sql_string. cbn [mbind result_bind].
  by rewrite bool_decide_eq_false_2.
Qed.
End Unicode.

(** Decide a closed proposition by evaluation. *)
Ltac by_decide := apply (bool_decide_eq_true_1 _); vm_compute; reflexivity.

#[export] Instance ident_dec s : Decision (ident s).
Proof. unfold ident. apply _. Defined.
#[export] Instance option_ok_dec kv : Decision (option_ok kv).
Proof. unfold option_ok. apply _. Defined.

(** ** The query-string spelling *)

Lemma split_once_app c a b : c ∉ a -> split_once c (a ++ c :: b) = Some (a, b).
Proof.
  induction a as [|d a IH]; intros Ha; simpl; [by rewrite Ascii.eqb_refl|].
  apply not_elem_of_cons in Ha as [Hd Ha].
  rewrite (proj2 (Ascii.eqb_neq c d) Hd), IH by done. done.
Qed.

Lemma split_char_piece c p rest :
  c ∉ p -> split_char_go c (p ++ rest) = prepend p (split_char_go c rest).
Proof.
  induction p as [|d p IH]; intros Hp; [cbn; by destruct (split_char_go c rest)|].
  apply not_elem_of_cons in Hp as [Hd Hp]. cbn [app split_char_go].
  by rewrite (proj2 (Ascii.eqb_neq c d) Hd), IH.
Qed.
Lemma split_char_join c p ps :
  Forall (fun q => c ∉ q) (p :: ps) -> split_char c (join [c] (p :: ps)) = p :: ps.
Proof.
  unfold split_char. intros Hall.
  assert (split_char_go c (join [c] (p :: ps)) = (p, ps)) as ->; [|done].
  revert p Hall. induction ps as [|q ps IH]; intros p Hall; inversion Hall as [|? ? Hp Hps]; subst.
  - cbn [join map concat]. rewrite split_char_piece by done.
    unfold prepend. simpl. by rewrite app_nil_r.
  - cbn [join map concat]. rewrite split_char_piece by done.
    change (([c] ++ q) ++ concat (map (fun q0 => [c] ++ q0) ps)) with (c :: join [c] (q :: ps)).
    cbn [split_char_go]. rewrite Ascii.eqb_refl, IH by done.
    unfold prepend. simpl. by rewrite app_nil_r.
Qed.

Definition render_pair (kv : str * str) : str := kv.1 ++ "="%char :: kv.2.
Definition render_target (catalog location : str) (opts : list (str * str)) : str :=
  catalog ++ "?"%char :: join ["&"%char] (map render_pair ((B "location", location) :: opts)).
(** What the spelling can carry: [&] nowhere, [=] not in a name, no blanks at
    the ends of names and values. *)
Definition pair_ok (kv : str * str) : Prop :=
  "="%char ∉ kv.1 /\ "&"%char ∉ kv.1 ++ kv.2 /\ trim_bytes kv.1 = kv.1 /\ trim_bytes kv.2 = kv.2.

Lemma filter_nonempty (l : list str) : Forall (fun p => p <> []) l -> filter (fun p => nonempty p) l = l.
Proof.
  induction 1 as [|p l Hp Hl IH]; [done|]. rewrite filter_cons_True, IH; [done|].
  unfold nonempty. by rewrite bool_decide_eq_false_2.
Qed.

#[export] Instance pair_ok_dec kv : Decision (pair_ok kv).
Proof. unfold pair_ok. apply _. Defined.

Lemma query_options_rendered opts m :
  Forall pair_ok opts -> query_options (map render_pair opts) m = Ok (bind_options opts m).
Proof.
  intros Hall. revert m. induction Hall as [|[k v] opts (Hk & _ & Htk & Htv) Hall IH]; intros m; [done|].
  cbn [map query_options]. unfold render_pair at 1. cbn [fst snd] in *.
  rewrite split_once_app by done. rewrite Htk, Htv. apply IH.
Qed.

Lemma parse_rendered_target (c a l : str) (opts : list (str * str)) :
  c <> [] -> "?"%char ∉ c -> l <> [] ->
  Forall pair_ok ((B "location", l) :: opts) -> avoids "location" opts ->
  attach_spec_parse (render_target c l opts) a
  = Ok (mkAttachSpec (string_of c) (string_of a) (string_of l) (bind_options opts ∅)).
Proof.
  intros Hc Hq Hl Hok Hav. unfold attach_spec_parse, render_target. rewrite split_once_app by done.
  cbv beta iota delta [default from_option id]. rewrite bool_decide_eq_false_2 by done.
  change (map render_pair ((B "location", l) :: opts))
    with (render_pair (B "location", l) :: map render_pair opts).
  rewrite split_char_join, filter_nonempty.
  - change (render_pair (B "location", l) :: map render_pair opts)
      with (map render_pair ((B "location", l) :: opts)).
    rewrite query_options_rendered by done. cbn [mbind result_bind].
    change (bind_options ((B "location", l) :: opts) ∅)
      with (bind_options opts (<["location" := string_of (sql_string l)]> ∅)).
    rewrite bind_options_insert, lookup_insert_eq by done. cbn [ok_or mbind result_bind].
    rewrite bytes_of_string_of, option_string_sql_string. cbn [mbind result_bind].
    rewrite bool_decide_eq_false_2 by done. rewrite delete_insert_id; [done|].
    by rewrite bind_options_lookup.
  - change (Forall (fun p => p <> []) (map render_pair ((B "location", l) :: opts))).
    apply Forall_map, Forall_true. intros [k v]. unfold render_pair. by destruct k.
  - change (Forall (fun q => "&"%char ∉ q) (map render_pair ((B "location", l) :: opts))).
    apply Forall_map. eapply Forall_impl; [exact Hok|]. intros [k v] (_ & Hn & _). unfold render_pair.
    cbn [fst snd] in *. set_solver.
Qed.

(** Both spellings of an ATTACH, the statement with an option list and the
    query-string target, give the specification they were rendered from, and
    so the same one; a value of the query string may hold [=] and [?]. *)
Theorem attach_spellings_agree (u : str -> bool) (c a l : str) (opts : list (str * str)) :
  c <> [] -> "?"%char ∉ c -> ident a -> l <> [] ->
  Forall option_ok opts -> Forall pair_ok ((B "location", l) :: opts) ->
  parse_duckdb_attach u (render_attach c a l opts)
  = Some (Ok (mkAttachSpec (string_of c) (string_of a) (string_of l) (bind_options opts ∅)))
  /\ attach_spec_parse (render_target c l opts) a
     = Ok (mkAttachSpec (string_of c) (string_of a) (string_of l) (bind_options opts ∅)).
Proof.
  intros Hc Hq Ha Hl Ho Hp. split; [by apply parse_rendered_attach|].
  apply parse_rendered_target; try done.
  eapply Forall_impl; [exact Ho|]. intros kv [_ Hn] Heq. apply Hn. rewrite Heq. set_solver.
Qed.

Lemma attach_spellings_agree_witness :
  attach_spec_parse (B "example?location=https://h/p?x=1&token=a=b") (B "ex")
  = Ok (mkAttachSpec "example" "ex" "https://h/p?x=1" {[ "token" := "'a=b'" ]}).
Proof.
  destruct (attach_spellings_agree no_unicode (B "example") (B "ex") (B "https://h/p?x=1")
              [(B "token", B "a=b")]) as [_ H]; [..|exact H];
    by_decide.
Defined.

(** Splitting an option list at its top-level commas loses nothing: the
    pieces joined by commas are the text, and a list of pieces each of which
    leaves the scanner outside quotes and brackets is split into exactly them. *)
Theorem split_top_level_commas_exact (s : str) (pieces : list str) :
  join [","%char] (split_top_level_commas s) = s
  /\ (pieces <> [] -> Forall one_piece pieces ->
      split_top_level_commas (join [","%char] pieces) = pieces).
Proof.
  split; [apply split_at_commas_join|].
  intros Hne Hall. destruct pieces as [|p ps]; [done|]. by apply split_join.
Qed.

Lemma split_top_level_commas_exact_witness :
  split_top_level_commas (join [","%char] [sql_string (B "a,'b'"); B " x "]) = [sql_string (B "a,'b'"); B " x "].
Proof.
  destruct (split_top_level_commas_exact [] [sql_string (B "a,'b'"); B " x "]) as [_ H].
  apply H; [done|]. apply Forall_cons_2; [apply one_piece_quoted|].
  apply Forall_singleton.
  repeat (apply one_piece_plain; [done|]). apply one_piece_nil.
Defined.

(** ** Blob literals *)

Definition hex_escape (c : ascii) : str :=
  B "\x" ++ [hex_digit (nat_of_ascii c / 16); hex_digit (nat_of_ascii c mod 16)].

Lemma hex_escape_parts c :
  exists d e, hex_escape c = B "\x" ++ [d; e] /\ utf8_pair d e = true /\ from_hex d e = Some c
              /\ d <> "'"%char /\ e <> "'"%char.
Proof. eexists _, _. split; [reflexivity|]. by_byte c. Qed.

Lemma blob_bytes_escapes bytes : blob_bytes (concat (map hex_escape bytes)) = Ok bytes.
Proof.
  induction bytes as [|c bytes IH]; [done|]. cbn [map concat].
  destruct (hex_escape_parts c) as (d & e & -> & Hu & Hh & _).
  cbn [app bytes_of String.list_ascii_of_string blob_bytes]. rewrite !Ascii.eqb_refl. cbn [andb].
  by rewrite Hu, Hh, IH.
Qed.
Lemma blob_bytes_plain s : "\"%char ∉ s -> blob_bytes s = Ok s.
Proof.
  induction s as [|c s IH]; intros Hs; [done|]. apply not_elem_of_cons in Hs as [Hc Hs].
  cbn [blob_bytes]. rewrite (proj2 (Ascii.eqb_neq c "\")), IH by done.
  by destruct s as [|? [|? [|? ?]]].
Qed.

Lemma ends_with_app p s : ends_with p (s ++ p) = true.
Proof.
  unfold ends_with, starts_with. rewrite rev_app_distr. apply bool_decide_eq_true_2.
  assert (forall (x y : str), drop_prefix x (x ++ y) = Some y) as ->; [|done].
  induction x as [|a x IH]; intros y; simpl; [done|]. by rewrite Ascii.eqb_refl.
Qed.

Lemma blob_literal_quoted v t :
  t ∈ [B "::BLOB"; B "::blob"] ->
  blob_literal (sql_string v ++ t) = (out ← blob_bytes v; Ok (Some out)).
Proof.
  intros Ht.
  assert (trim_bytes (sql_string v ++ t) = sql_string v ++ t) as Htrim.
  { assert (exists t' d, t = t' ++ [d] /\ graphic d = true) as (t' & d & -> & Hd).
    { set_unfold in Ht. destruct Ht as [-> |[-> |[]]]; [exists (B "::BLO"), "B"%char|exists (B "::blo"), "b"%char]; done. }
    rewrite sql_string_shape, app_assoc. cbn [app]. by rewrite trim_graphic. }
  assert (lower t = B "::blob" /\ length t = 6%nat) as [Hl Hn]
    by (set_unfold in Ht; by destruct Ht as [-> |[-> |[]]]).
  unfold blob_literal. rewrite Htrim. unfold lower in *. rewrite map_app, Hl, ends_with_app.
  rewrite length_app, Hn, Nat.add_sub, take_app_length, trim_quoted, option_string_sql_string. done.
Qed.

(** A quoted literal cast to BLOB denotes its bytes: every byte string
    written in hex escapes is read back, and text without a backslash denotes
    itself. *)
Theorem blob_literal_roundtrip (bytes text : str) :
  "\"%char ∉ text ->
  blob_literal (sql_string (concat (map hex_escape bytes)) ++ B "::BLOB") = Ok (Some bytes)
  /\ blob_literal (sql_string text ++ B "::blob") = Ok (Some text).
Proof.
  intros Ht. split; rewrite blob_literal_quoted by set_solver.
  - by rewrite blob_bytes_escapes.
  - by rewrite blob_bytes_plain.
Qed.

Lemma blob_literal_roundtrip_witness :
  blob_literal (sql_string (B "it's") ++ B "::blob") = Ok (Some (B "it's")).
Proof. apply (blob_literal_roundtrip [] (B "it's")). by_decide. Defined.

(** ** Where parsing loses or refuses something *)

(** Options of the list are dropped when the target carries the location:
    here a bearer token. *)
Lemma mixed_spelling_drops_options :
  parse_duckdb_attach no_unicode
    (B "ATTACH 'example?location=https://h' AS ex (TYPE vgi, bearer_token 's')")
  = Some (Ok (mkAttachSpec "example" "ex" "https://h" ∅)).
Proof. vm_compute. reflexivity. Qed.

(** A blank between the option list and the semicolon is an error. *)
Lemma blank_before_semicolon_fails :
  parse_duckdb_attach no_unicode (B "ATTACH 'example' AS ex (LOCATION 'w') ;")
  = Some (Err (Plan "unexpected text after ATTACH alias: (LOCATION 'w') ")).
Proof. vm_compute. reflexivity. Qed.
