(* ===== verification/Connections.v ===== *)
(** * Connections

    [VgiConnection] of lib.rs: the factory every scan opens its worker
    connections from. Modelled are its builder methods, the cache of attach
    handles (the worker's session tokens) with the store its clones share, the
    test whether a worker may name local files, the discovery of a function's
    capabilities, and [AttachSpec::connection], which configures a connection
    from ATTACH options. Opening a connection is I/O of vgi_client. *)

From S2P Require Import Prelude Text Arrow Identity AttachSql.
From Stdlib Require Import Strings.Ascii.

#[local] Open Scope Z_scope.

(** ** Locations *)

(** The variants of [VgiLocation] the adapter matches on. *)
Inductive VgiLocation :=
  | Subprocess (argv : list string)
  | Unix (path : string)
  | Launch (target : string)
  | Http (url : str)
  | Tcp (host : str) (port : Z).

Definition is_http (l : VgiLocation) : bool := match l with Http _ => true | _ => false end.
Definition is_launch (l : VgiLocation) : bool := match l with Launch _ => true | _ => false end.

(** [str::rsplit(c).next()]: the text after the last [c]. *)
Definition after_last (c : ascii) (s : str) : str := List.last (split_char c s) [].
(** [str::split(chars).next()]: the text before the first of the characters. *)
Fixpoint until (cs : list ascii) (s : str) : str :=
  match s with
  | [] => []
  | c :: r => if vec_contains c cs then [] else c :: until cs r
  end.
(** [str::rsplit_once(char)] *)
Definition rsplit_once (c : ascii) (s : str) : option (str * str) :=
  '(a, b) ← split_once c (rev s); Some (rev b, rev a).
(** [str::split_once("://")] *)
Fixpoint after_scheme (s : str) : option str :=
  match drop_prefix (B "://") s with
  | Some rest => Some rest
  | None => match s with [] => None | _ :: r => after_scheme r end
  end.
Definition is_ascii_digit (c : ascii) : bool := bool_decide (is_Some (digit c)).

Definition http_host (url : str) : option str :=
  rest ← after_scheme url;
  let authority := after_last "@" (until ["/"; "?"; "#"]%char rest) in
  match drop_prefix (B "[") authority with
  | Some bracketed => fst <$> split_once "]" bracketed
  | None =>
      match rsplit_once ":" authority with
      | Some (host, port) => if forallb is_ascii_digit port then Some host else Some authority
      | None => Some authority
      end
  end.

(** [trim_matches(['[', ']'])] *)
Fixpoint drop_while (p : ascii -> bool) (s : str) : str :=
  match s with c :: r => if p c then drop_while p r else s | [] => [] end.
Definition bracket (c : ascii) : bool := vec_contains c ["["; "]"]%char.
Definition trim_brackets (s : str) : str :=
  rev (drop_while bracket (rev (drop_while bracket s))).

Section Loopback.
(** Whether a text is an IP address literal of the loopback range
    ([parse::<IpAddr>().is_ok_and(|a| a.is_loopback())] of [std::net]). *)
Variable ip_is_loopback : str -> bool.

Definition host_is_loopback (host : str) : bool :=
  bool_decide (lower host = B "localhost") || ip_is_loopback (trim_brackets host).

Definition allows_local_format_paths_for (opted_in : bool) (l : VgiLocation) : bool :=
  opted_in
  || match l with Subprocess _ | Unix _ | Launch _ => true | _ => false end
  || match l with
     | Http url => match http_host url with Some h => host_is_loopback h | None => false end
     | Tcp host _ => host_is_loopback host
     | _ => false
     end.
End Loopback.

(** ** The connection record *)

Record ConnectionOptions := mkConnectionOptions {
  worker_debug : bool;
  launcher_idle_timeout : option Z;
  launcher_state_dir : option string;
  rpc_timeout : option Z;
}.
Definition default_connection_options : ConnectionOptions := mkConnectionOptions false None None None.

Inductive Pool :=
  | PoolDisabled
  | PoolOf (max_idle : Z) (idle_timeout : Z).

(** The authentication state of an attachment. *)
Inductive Auth :=
  | BearerAuth (token : string)
  | OAuthAuth (refresh_token : option string).

Definition default_attach_options : AttachOptions := mkAttachOptions None None None.

(** [attached] is the address of the handle cache, which clones share. *)
Record VgiConnection := mkConnection {
  pool : Pool;
  conn_location : VgiLocation;
  connection_options : ConnectionOptions;
  auth : option Auth;
  runtime : nat;
  worker_log_runtime : nat;
  cache_enabled : bool;
  allow_local_format_paths : bool;
  attach_options : gmap string AttachOptions;
  attached : nat;
}.

(** [VgiConnection::pooled], with the addresses of the new runtime and cache. *)
Definition pooled (l : VgiLocation) (p : Pool) (new_runtime new_cache : nat) : VgiConnection :=
  mkConnection p l default_connection_options (if is_http l then Some (OAuthAuth None) else None)
    new_runtime new_runtime true false ∅ new_cache.

Definition with_auth (c : VgiConnection) (a : Auth) (new_cache : nat) : result VgiConnection :=
  if negb (is_http (conn_location c))
  then Err (Plan "VGI authentication requires an HTTP(S) LOCATION")
  else Ok (mkConnection (pool c) (conn_location c) (connection_options c) (Some a) (runtime c)
             (worker_log_runtime c) (cache_enabled c) (allow_local_format_paths c)
             (attach_options c) new_cache).

Definition set_rpc_timeout (o : ConnectionOptions) (t : option Z) : ConnectionOptions :=
  mkConnectionOptions (worker_debug o) (launcher_idle_timeout o) (launcher_state_dir o) t.

(** [with_runtime], given the runtime's address and its session timeout. *)
Definition with_runtime (c : VgiConnection) (r : nat) (session_timeout : option Z) : VgiConnection :=
  mkConnection (pool c) (conn_location c) (set_rpc_timeout (connection_options c) session_timeout)
    (auth c) r r (cache_enabled c) (allow_local_format_paths c) (attach_options c) (attached c).

Definition with_cache_enabled (c : VgiConnection) (b : bool) : VgiConnection :=
  mkConnection (pool c) (conn_location c) (connection_options c) (auth c) (runtime c)
    (worker_log_runtime c) b (allow_local_format_paths c) (attach_options c) (attached c).

Definition with_local_format_paths (c : VgiConnection) (b : bool) : VgiConnection :=
  mkConnection (pool c) (conn_location c) (connection_options c) (auth c) (runtime c)
    (worker_log_runtime c) (cache_enabled c) b (attach_options c) (attached c).

Definition metadata_connection (c : VgiConnection) (new_runtime : nat) : VgiConnection :=
  mkConnection (pool c) (conn_location c) (connection_options c) (auth c) new_runtime
    (worker_log_runtime c) (cache_enabled c) (allow_local_format_paths c) (attach_options c) (attached c).

Definition with_catalog_attach_options (c : VgiConnection) (catalog : string) (o : AttachOptions)
    (new_cache : nat) : VgiConnection :=
  mkConnection (pool c) (conn_location c) (connection_options c) (auth c) (runtime c)
    (worker_log_runtime c) (cache_enabled c) (allow_local_format_paths c)
    (<[catalog := o]> (attach_options c)) new_cache.

Definition with_connection_options (c : VgiConnection) (o : ConnectionOptions) (new_cache : nat)
    : VgiConnection :=
  mkConnection (pool c) (conn_location c) o (auth c) (runtime c) (worker_log_runtime c)
    (cache_enabled c) (allow_local_format_paths c) (attach_options c) new_cache.

Definition allows_local_format_paths (ip_is_loopback : str -> bool) (c : VgiConnection) : bool :=
  allows_local_format_paths_for ip_is_loopback (allow_local_format_paths c) (conn_location c).

(** ** Attach handles

    The handles live in a store of caches; a mutex guards each cache, and is
    not held during the attach request. *)

Abbreviation Caches Handle := (gmap nat (gmap string Handle)).

Section Attach.
Context {Handle : Type}.

Definition cached_handle (m : Caches Handle) (c : VgiConnection) (catalog : string) : option Handle :=
  h ← m !! attached c; h !! catalog.
Definition cache_handle (m : Caches Handle) (c : VgiConnection) (catalog : string) (h : Handle) : Caches Handle :=
  <[attached c := <[catalog := h]> (default ∅ (m !! attached c))]> m.

(** [VgiConnection::attach]; [worker] answers the attach request, if it is made. *)
Definition attach (m : Caches Handle) (c : VgiConnection) (catalog : string)
    (worker : string -> AttachOptions -> result Handle) : Caches Handle * result Handle :=
  match cached_handle m c catalog with
  | Some h => (m, Ok h)
  | None =>
      match worker catalog (default default_attach_options (attach_options c !! catalog)) with
      | Ok h => (cache_handle m c catalog h, Ok h)
      | Err e => (m, Err e)
      end
  end.

(** Concurrent calls: each looks the handle up, and after a miss stores the
    worker's answer. *)
Inductive AttachCall := Start | Missed | Attached (h : Handle).
Inductive attach_step (c : VgiConnection) (catalog : string)
    : Caches Handle * list AttachCall -> Caches Handle * list AttachCall -> Prop :=
  | AttachHit m calls i h :
      calls !! i = Some Start -> cached_handle m c catalog = Some h ->
      attach_step c catalog (m, calls) (m, <[i := Attached h]> calls)
  | AttachMiss m calls i :
      calls !! i = Some Start -> cached_handle m c catalog = None ->
      attach_step c catalog (m, calls) (m, <[i := Missed]> calls)
  | AttachStore m calls i h :
      calls !! i = Some Missed ->
      attach_step c catalog (m, calls) (cache_handle m c catalog h, <[i := Attached h]> calls).
End Attach.

(** ** Discovery *)

(** [FunctionCapabilities] and the fields of [FunctionInfo] it is read from. *)
Record FunctionCapabilities := mkCapabilities {
  projection_pushdown : bool;
  filter_pushdown : option bool;
  supports_splits : option bool;
  sampling_pushdown : bool;
  filters_exactly_applied : bool;
}.
Definition default_capabilities : FunctionCapabilities := mkCapabilities false None None false false.
Record FunctionInfo := mkFunctionInfo {
  fi_name : string;
  fi_projection_pushdown : option bool;
  fi_filter_pushdown : option bool;
  fi_supports_splits : bool;
  fi_sampling_pushdown : option bool;
  fi_filters_exactly_applied : bool;
}.
(** [RpcError]: its type and its text. *)
Record RpcError := mkRpcError { error_type : string; error_text : string }.
Definition to_df (e : RpcError) : DFError := External (error_text e).

Definition opted_in (o : option bool) : bool := bool_decide (o = Some true).

(** [function_capabilities], given the worker's answer to [functions]. *)
Definition function_capabilities (functions : list FunctionInfo + RpcError) (function : string)
    : result FunctionCapabilities :=
  match functions with
  | inr e => if String.eqb (error_type e) "MethodNotImplementedError" then Ok default_capabilities
             else Err (to_df e)
  | inl functions =>
      match filter (fun info => String.eqb (fi_name info) function) functions with
      | [] => Ok default_capabilities
      | overloads => Ok (mkCapabilities
          (forallb (fun i => opted_in (fi_projection_pushdown i)) overloads)
          (Some (forallb (fun i => opted_in (fi_filter_pushdown i)) overloads))
          (Some (forallb fi_supports_splits overloads))
          (forallb (fun i => opted_in (fi_sampling_pushdown i)) overloads)
          (forallb fi_filters_exactly_applied overloads))
      end
  end.

(** [narrowest_column]: the first column of least width. *)
Definition column_width (t : DataType) : Z :=
  match t with
  | Boolean | Int8 | UInt8 => 1
  | Int16 | UInt16 => 2
  | Int32 | UInt32 | Float32 | Date32 => 4
  | Int64 | UInt64 | Float64 => 8
  | _ => 2 ^ 32 - 1
  end.
Definition narrowest_column (output_schema : Schema) : option Z :=
  match output_schema with
  | [] => None
  | fields => Z.of_nat ∘ fst <$> argmin (map (fun f => column_width (field_type f)) fields)
  end.

(** ** [AttachSpec::connection] *)

Section FromSpec.
(** [VgiLocation::parse] and the defaults of [PoolConfig] belong to vgi_client. *)
Variable parse_location : string -> result VgiLocation.
Variables default_max_idle default_idle_timeout : Z.

Definition text_option (s : AttachSpec) (name : string) : result (option string) :=
  match options s !! name with
  | None => Ok None
  | Some raw => v ← option_string (B raw); Ok (Some (string_of v))
  end.
Definition bool_option (s : AttachSpec) (name : string) (dflt : bool) : result bool :=
  v ← text_option s name;
  match v with
  | None => Ok dflt
  | Some v => ok_or (Plan ("ATTACH option `" +:+ name +:+ "` must be true or false")) (parse_bool_str v)
  end.
(** [u64] and [usize] have the same width on the target. *)
Definition integer_option (s : AttachSpec) (name : string) : result (option Z) :=
  v ← text_option s name;
  match v with
  | None => Ok None
  | Some v => Some <$> ok_or (Plan ("ATTACH option `" +:+ name +:+ "` must be a non-negative integer"))
                         (parse_usize_str v)
  end.

Definition rpc_timeout_option (s : AttachSpec) : result (option Z) :=
  t ← integer_option s "rpc_timeout";
  if bool_decide (t = Some 0)
  then Err (Plan "ATTACH option `rpc_timeout` must be greater than zero")
  else Ok t.

Definition pool_option (s : AttachSpec) : result Pool :=
  use_pool ← bool_option s "pool" true;
  if negb use_pool then Ok PoolDisabled
  else max_idle ← integer_option s "pool_max";
       idle ← integer_option s "pool_timeout";
       Ok (PoolOf (default default_max_idle max_idle) (default default_idle_timeout idle)).

(** The credentials of the options. *)
Definition auth_option (s : AttachSpec) : result (option Auth) :=
  bearer ← text_option s "bearer_token";
  refresh ← text_option s "oauth_refresh_token";
  match bearer, refresh with
  | Some _, Some _ => Err (Plan "cannot specify both bearer_token and oauth_refresh_token")
  | Some token, None => Ok (Some (BearerAuth token))
  | None, Some token => Ok (Some (OAuthAuth (Some token)))
  | None, None => Ok None
  end.

(** [AttachSpec::connection]; every builder that resets the handle cache takes
    the same new address, as the earlier caches are dropped unused. *)
Definition connection (s : AttachSpec) (new_runtime new_cache : nat) : result VgiConnection :=
  l ← parse_location (location s);
  debug ← bool_option s "worker_debug" false;
  timeout ← rpc_timeout_option s;
  idle ← integer_option s "launcher_idle_timeout";
  state_dir ← text_option s "launcher_state_dir";
  if bool_decide (state_dir = Some "") then Err (Plan "launcher_state_dir, if set, must not be empty")
  else if (bool_decide (is_Some idle) || bool_decide (is_Some state_dir)) && negb (is_launch l)
  then Err (Plan "launcher_idle_timeout / launcher_state_dir are only valid for `launch:` LOCATIONs")
  else
    p ← pool_option s;
    cache ← bool_option s "cache" true;
    local_paths ← bool_option s "allow_local_format_paths" false;
    let c := with_connection_options
               (with_local_format_paths (with_cache_enabled (pooled l p new_runtime new_cache) cache) local_paths)
               (mkConnectionOptions debug idle state_dir timeout) new_cache in
    a ← auth_option s;
    match a with
    | Some a => with_auth c a new_cache
    | None => Ok c
    end.

(** [AttachSpec::connection_with_runtime]: a timeout of the attachment wins
    over the session's. *)
Definition connection_with_runtime (s : AttachSpec) (new_runtime new_cache session : nat)
    (session_timeout : option Z) : result VgiConnection :=
  c ← connection s new_runtime new_cache;
  let attachment_timeout := rpc_timeout (connection_options c) in
  let c := with_runtime c session session_timeout in
  Ok (if bool_decide (is_Some attachment_timeout)
      then with_connection_options c (set_rpc_timeout (connection_options c) attachment_timeout) (attached c)
      else c).
End FromSpec.
