(* ===== verification/ConnectionTheorems.v ===== *)
(** * Connections: credentials, local files and session tokens

    What [Connections] guarantees: credentials only travel over HTTP, a remote
    worker may not name local files without consent, and a catalog's session
    token stays the same through sequential calls (and can change in a race). *)

From S2P Require Import Prelude Text Arrow Identity AttachSql AttachSqlTheorems Connections.
From Stdlib Require Import Strings.Ascii.

#[local] Open Scope Z_scope.

(** Split a monadic hypothesis [x ← r; k x = Ok y] into its steps. *)
Ltac inv_bind H :=
  repeat match type of H with
  | context [@mbind result _ _ _ _ ?r] =>
      let E := fresh "Hstep" in destruct r eqn:E; cbn [mbind result_bind] in H; [|discriminate H]
  end.

(** ** Hosts *)

Lemma after_scheme_app scheme rest :
  ":"%char ∉ scheme -> after_scheme (scheme ++ B "://" ++ rest) = Some rest.
Proof.
  induction scheme as [|c s IH]; intros Hs; [done|]. apply not_elem_of_cons in Hs as [Hc Hs].
  cbn [app after_scheme]. change (B "://") with [":"; "/"; "/"]%char. cbn [drop_prefix].
  rewrite (proj2 (Ascii.eqb_neq ":" c) Hc). apply (IH Hs).
Qed.

Lemma until_app cs a d rest :
  (forall c, c ∈ a -> c ∉ cs) -> d ∈ cs -> until cs (a ++ d :: rest) = a.
Proof.
  intros Ha Hd. unfold vec_contains. induction a as [|c a IH]; cbn [app until].
  - unfold vec_contains. by rewrite bool_decide_eq_true_2.
  - unfold vec_contains. rewrite bool_decide_eq_false_2 by (apply Ha; left).
    rewrite IH; [done|]. intros e He. apply Ha. by right.
Qed.
Lemma until_all cs a : (forall c, c ∈ a -> c ∉ cs) -> until cs a = a.
Proof.
  induction a as [|c a IH]; intros Ha; [done|]. cbn [until]. unfold vec_contains.
  rewrite bool_decide_eq_false_2 by (apply Ha; left). rewrite IH; [done|]. intros e He. apply Ha. by right.
Qed.

Lemma split_char_go_last c a b :
  c ∉ b -> exists p q ps, split_char_go c (a ++ c :: b) = (p, q :: ps) /\ List.last (q :: ps) [] = b.
Proof.
  intros Hb. induction a as [|d a IH].
  - exists [], b, []. split; [|done]. cbn [app split_char_go]. rewrite Ascii.eqb_refl.
    pose proof (split_char_piece c b [] Hb) as He. rewrite app_nil_r in He. rewrite He.
    unfold prepend. simpl. by rewrite app_nil_r.
  - destruct IH as (p & q & ps & He & Hl). cbn [app split_char_go]. rewrite He.
    destruct (Ascii.eqb c d).
    + exists [], p, (q :: ps). split; [done|]. exact Hl.
    + by exists (d :: p), q, ps.
Qed.
Lemma after_last_app c a b : c ∉ b -> after_last c (a ++ c :: b) = b.
Proof.
  intros Hb. unfold after_last, split_char.
  destruct (split_char_go_last c a b Hb) as (p & q & ps & -> & Hl). exact Hl.
Qed.
Lemma after_last_none c b : c ∉ b -> after_last c b = b.
Proof.
  intros Hb. unfold after_last, split_char.
  pose proof (split_char_piece c b [] Hb) as He. rewrite app_nil_r in He. rewrite He.
  unfold prepend. simpl. apply app_nil_r.
Qed.

(** The parts of an HTTP location: [scheme://user@host:port/path]. *)
Record UrlParts := mkUrl {
  u_scheme : str; u_user : option str; u_host : str; u_port : option str; u_path : option (ascii * str);
}.
Definition render_url (u : UrlParts) : str :=
  u_scheme u ++ B "://"
  ++ (match u_user u with Some s => s ++ ["@"%char] | None => [] end)
  ++ u_host u ++ (match u_port u with Some p => ":"%char :: p | None => [] end)
  ++ (match u_path u with Some (d, p) => d :: p | None => [] end).
Definition path_start : list ascii := ["/"; "?"; "#"]%char.
Definition url_ok (u : UrlParts) : Prop :=
  ":"%char ∉ u_scheme u
  /\ (forall c, c ∈ default [] (u_user u) -> c ∉ path_start)
  /\ (forall c, c ∈ u_host u -> c ∉ "@"%char :: ":"%char :: "["%char :: path_start)
  /\ (forall c, c ∈ default [] (u_port u) -> is_ascii_digit c = true)
  /\ (match u_path u with Some (d, _) => d ∈ path_start | None => True end).

Lemma digit_facts c : is_ascii_digit c = true -> c ∉ "@"%char :: ":"%char :: "["%char :: path_start.
Proof. intros Hc. apply (bool_decide_eq_true_1 _). revert Hc. by_byte c. Qed.

Lemma rsplit_once_app c a b : c ∉ b -> rsplit_once c (a ++ c :: b) = Some (a, b).
Proof.
  intros Hb. unfold rsplit_once. rewrite rev_app_distr. cbn [rev].
  rewrite <- app_assoc. cbn [app]. rewrite split_once_app by (by rewrite list_elem_of_In, <- in_rev, <- list_elem_of_In).
  cbn. by rewrite !rev_involutive.
Qed.

Lemma http_host_render u : url_ok u -> http_host (render_url u) = Some (u_host u).
Proof.
  destruct u as [scheme user host port path]. unfold url_ok, render_url, http_host.
  cbn [u_scheme u_user u_host u_port u_path]. intros (Hs & Hu & Hh & Hp & Hpath).
  rewrite after_scheme_app by done. cbn [mbind option_bind].
  set (hostport := host ++ match port with Some p => ":"%char :: p | None => [] end).
  assert (forall c, c ∈ hostport -> c ∉ "@"%char :: "["%char :: path_start) as Hhp.
  { intros c Hc. unfold hostport in Hc. apply elem_of_app in Hc as [Hc|Hc].
    - pose proof (Hh c Hc). set_solver.
    - destruct port as [p|]; [|by apply not_elem_of_nil in Hc]. apply elem_of_cons in Hc as [->|Hc]; [by_decide|].
      pose proof (digit_facts c (Hp c Hc)). set_solver. }
  assert (until path_start
    ((match user with Some s => s ++ ["@"%char] | None => [] end) ++ hostport
      ++ match path with Some (d, p) => d :: p | None => [] end)
    = (match user with Some s => s ++ ["@"%char] | None => [] end) ++ hostport) as Huntil.
  { assert (forall c, c ∈ (match user with Some s => s ++ ["@"%char] | None => [] end) ++ hostport ->
              c ∉ path_start) as Hall.
    { intros c [Hc|Hc]%elem_of_app; [|pose proof (Hhp c Hc); set_solver].
      destruct user as [s|]; [|by apply not_elem_of_nil in Hc].
      apply elem_of_app in Hc as [Hc|Hc%list_elem_of_singleton]; [by apply Hu|subst c; by_decide]. }
    rewrite app_assoc. destruct path as [[d p]|]; [by apply until_app|].
    rewrite app_nil_r. by apply until_all. }
  unfold path_start in Huntil. unfold hostport in Huntil at 1. rewrite <- app_assoc in Huntil. rewrite Huntil.
  assert (after_last "@" ((match user with Some s => s ++ ["@"%char] | None => [] end) ++ hostport)
          = hostport) as ->.
  { assert ("@"%char ∉ hostport) as Hat by (intros Hc; apply Hhp in Hc; set_solver).
    destruct user as [s|]; [|by apply after_last_none].
    rewrite <- app_assoc. by apply after_last_app. }
  assert (drop_prefix (B "[") hostport = None) as ->.
  { destruct hostport as [|c r] eqn:Hhost; [done|]. change (B "[") with ["["%char]. cbn [drop_prefix].
    destruct (Ascii.eqb_spec "[" c) as [<-|]; [|done]. exfalso. apply (Hhp "["%char); [left|set_solver]. }
  unfold hostport. destruct port as [p|].
  - rewrite rsplit_once_app.
    + assert (forallb is_ascii_digit p = true) as ->; [|done].
      apply forallb_forall. intros c Hc. apply Hp. by apply list_elem_of_In.
    + intros Hc. apply Hp in Hc. by apply (digit_facts ":"%char) in Hc; set_solver.
  - rewrite app_nil_r. assert (rsplit_once ":" host = None) as ->; [|done].
    assert (forall s, ":"%char ∉ s -> split_once ":" s = None) as Hnone.
    { induction s as [|c s IH]; intros Hn; [done|]. apply not_elem_of_cons in Hn as [Hc Hn].
      cbn [split_once]. by rewrite (proj2 (Ascii.eqb_neq ":" c) Hc), IH. }
    unfold rsplit_once. rewrite Hnone; [done|].
    rewrite list_elem_of_In, <- in_rev, <- list_elem_of_In. intros Hc. apply Hh in Hc. set_solver.
Qed.

(** A worker behind an HTTP location may name local files exactly when the
    caller opted in or the host of the URL is the loopback host, whatever user
    name, port or path the URL has. *)
Theorem local_paths_need_consent (ip_is_loopback : str -> bool) (opt_in : bool) (u : UrlParts) :
  url_ok u ->
  allows_local_format_paths_for ip_is_loopback opt_in (Http (render_url u))
  = opt_in || host_is_loopback ip_is_loopback (u_host u).
Proof.
  intros Hu. unfold allows_local_format_paths_for. rewrite http_host_render by done.
  by rewrite orb_false_r.
Qed.

Definition loopback_v4 : str -> bool := fun s => bool_decide (s = B "127.0.0.1").
Definition ex_url : UrlParts :=
  mkUrl (B "https") (Some (B "127.0.0.1")) (B "evil.example") (Some (B "80")) (Some ("/"%char, B "localhost")).
Example ex_url_text : render_url ex_url = B "https://127.0.0.1@evil.example:80/localhost".
Proof. reflexivity. Qed.

Lemma ex_url_ok : url_ok ex_url.
Proof.
  assert (forall (l cs : str), bool_decide (Forall (fun c => c ∉ cs) l) = true -> forall c, c ∈ l -> c ∉ cs) as Hall.
  { intros l cs H. apply bool_decide_eq_true_1 in H. by apply Forall_forall. }
  repeat split; try by_decide; try (apply Hall; vm_compute; reflexivity).
  assert (Forall (fun c => is_ascii_digit c = true) (B "80")) as Hd by by_decide.
  intros c Hc. by apply (proj1 (Forall_forall _ _) Hd).
Qed.

Lemma local_paths_need_consent_witness :
  allows_local_format_paths_for loopback_v4 false (Http (render_url ex_url)) = false.
Proof. rewrite (local_paths_need_consent loopback_v4 false ex_url ex_url_ok). reflexivity. Defined.

(** ** Options of an attachment *)

Section FromSpec.
Context (parse_location : string -> result VgiLocation) (max_idle idle_timeout : Z).

(** What a configured connection was built from. *)
Record built_from (s : AttachSpec) (c : VgiConnection) : Prop := {
  bf_timeout : rpc_timeout_option s = Ok (rpc_timeout (connection_options c));
  bf_idle : integer_option s "launcher_idle_timeout" = Ok (launcher_idle_timeout (connection_options c));
  bf_dir : text_option s "launcher_state_dir" = Ok (launcher_state_dir (connection_options c));
  bf_launch : is_launch (conn_location c) = false ->
    launcher_idle_timeout (connection_options c) = None /\ launcher_state_dir (connection_options c) = None;
  bf_cache : bool_option s "cache" true = Ok (cache_enabled c);
  bf_local : bool_option s "allow_local_format_paths" false = Ok (allow_local_format_paths c);
  bf_auth : exists a, auth_option s = Ok a
    /\ (a = None -> is_http (conn_location c) = false -> auth c = None)
    /\ (forall x, a = Some x -> is_http (conn_location c) = true /\ auth c = Some x);
}.

Lemma connection_built s r k c :
  connection parse_location max_idle idle_timeout s r k = Ok c -> built_from s c.
Proof.
  unfold connection. intros H.
  destruct (parse_location (location s)) as [l|] eqn:Hl; [|done]. cbn [mbind result_bind] in H.
  destruct (bool_option s "worker_debug" false) as [debug|] eqn:Hd; [|done]. cbn [mbind result_bind] in H.
  destruct (rpc_timeout_option s) as [timeout|] eqn:Ht; [|done]. cbn [mbind result_bind] in H.
  destruct (integer_option s "launcher_idle_timeout") as [idle|] eqn:Hi; [|done]. cbn [mbind result_bind] in H.
  destruct (text_option s "launcher_state_dir") as [dir|] eqn:Hsd; [|done]. cbn [mbind result_bind] in H.
  destruct (bool_decide (dir = Some "")); [done|].
  destruct ((_ || _) && _) eqn:Hlaunch; [done|].
  destruct (pool_option _ _ s) as [p|] eqn:Hp; [|done]. cbn [mbind result_bind] in H.
  destruct (bool_option s "cache" true) as [cache|] eqn:Hc; [|done]. cbn [mbind result_bind] in H.
  destruct (bool_option s "allow_local_format_paths" false) as [local|] eqn:Hlp; [|done]. cbn [mbind result_bind] in H.
  destruct (auth_option s) as [a|] eqn:Ha; [|done]. cbn [mbind result_bind] in H.
  assert (is_launch l = false -> idle = None /\ dir = None) as Hll.
  { intros Hnl. rewrite Hnl, andb_true_r in Hlaunch. apply orb_false_iff in Hlaunch as [H1 H2].
    apply bool_decide_eq_false_1 in H1, H2. split; [destruct idle|destruct dir]; try done;
      [destruct H1|destruct H2]; by eexists. }
  destruct a as [a|].
  - unfold with_auth in H. cbn in H. destruct (is_http l) eqn:Hh; [|done]. injection H as <-.
    split; try done. exists (Some a). split; [done|]. split; [done|]. by intros x [= <-].
  - injection H as <-. split; try done. exists None. split; [done|]. split; [|done].
    cbn. by intros _ ->.
Qed.

(** A connection configured from ATTACH options keeps the policy of the
    options: credentials are used only with an HTTP location and are the ones
    given, launcher settings only with a launcher, timeouts are positive, the
    cache and the consent to local files are as written; and the session keeps
    an attachment's own timeout. *)
Theorem connection_policy (s : AttachSpec) (r k session : nat) (session_timeout : option Z) (c : VgiConnection) :
  connection_with_runtime parse_location max_idle idle_timeout s r k session session_timeout = Ok c ->
  (forall token, text_option s "bearer_token" = Ok (Some token) ->
     is_http (conn_location c) = true /\ auth c = Some (BearerAuth token))
  /\ (forall token, text_option s "oauth_refresh_token" = Ok (Some token) ->
       is_http (conn_location c) = true /\ auth c = Some (OAuthAuth (Some token)))
  /\ (is_http (conn_location c) = false -> auth c = None)
  /\ (is_launch (conn_location c) = false ->
       launcher_idle_timeout (connection_options c) = None
       /\ launcher_state_dir (connection_options c) = None)
  /\ (forall t, integer_option s "rpc_timeout" = Ok (Some t) ->
       0 < t /\ rpc_timeout (connection_options c) = Some t)
  /\ (integer_option s "rpc_timeout" = Ok None -> rpc_timeout (connection_options c) = session_timeout)
  /\ bool_option s "cache" true = Ok (cache_enabled c)
  /\ bool_option s "allow_local_format_paths" false = Ok (allow_local_format_paths c)
  /\ runtime c = session.
Proof.
  unfold connection_with_runtime. intros H.
  destruct (connection _ _ _ s r k) as [c0|] eqn:Hc; [|done]. cbn [mbind result_bind] in H.
  apply connection_built in Hc as [Ht Hi Hd Hl Hcache Hlp (a & Ha & Hnone & Hsome)].
  assert (auth c = auth c0 /\ conn_location c = conn_location c0
    /\ launcher_idle_timeout (connection_options c) = launcher_idle_timeout (connection_options c0)
    /\ launcher_state_dir (connection_options c) = launcher_state_dir (connection_options c0)
    /\ cache_enabled c = cache_enabled c0 /\ allow_local_format_paths c = allow_local_format_paths c0
    /\ runtime c = session
    /\ rpc_timeout (connection_options c)
       = match rpc_timeout (connection_options c0) with Some t => Some t | None => session_timeout end)
    as (-> & -> & -> & -> & -> & -> & -> & ->).
  { injection H as <-. case_bool_decide as Hb; cbn.
    - destruct Hb as [t Hb]. by rewrite Hb.
    - destruct (rpc_timeout (connection_options c0)); [|done]. destruct Hb. by eexists. }
  assert (forall t, integer_option s "rpc_timeout" = Ok (Some t) -> 0 < t /\ rpc_timeout (connection_options c0) = Some t) as Hpos.
  { clear H. intros t Hint. unfold rpc_timeout_option in Ht. rewrite Hint in Ht. cbn [mbind result_bind] in Ht.
    case_bool_decide as H0; [done|]. injection Ht as <-. split; [|done].
    unfold integer_option in Hint. destruct (text_option s "rpc_timeout") as [[v|]|]; try done.
    cbn [mbind result_bind] in Hint. destruct (parse_usize_str v) as [n|] eqn:Hn; [|done].
    injection Hint as <-. apply parse_usize_str_range in Hn. assert (n <> 0) by congruence. lia. }
  split_and!; try done.
  - intros token Hb. unfold auth_option in Ha. rewrite Hb in Ha. cbn [mbind result_bind] in Ha.
    destruct (text_option s "oauth_refresh_token") as [[?|]|]; try done. injection Ha as <-. by apply Hsome.
  - intros token Hb. unfold auth_option in Ha. rewrite Hb in Ha.
    destruct (text_option s "bearer_token") as [[?|]|]; try done. injection Ha as <-. by apply Hsome.
  - intros Hh. destruct a as [a|]; [|by apply Hnone]. destruct (Hsome a eq_refl). congruence.
  - intros t Hint. destruct (Hpos t Hint) as [? ->]. done.
  - intros Hint. unfold rpc_timeout_option in Ht. rewrite Hint in Ht. injection Ht as <-. done.
Qed.

End FromSpec.

Definition ex_parse_location : string -> result VgiLocation := fun _ => Ok (Http (B "https://h")).

Lemma connection_policy_witness :
  exists c, connection_with_runtime ex_parse_location 4 300
      (mkAttachSpec "example" "ex" "https://h"
         (list_to_map [("bearer_token", "'s'"); ("rpc_timeout", "7")])) 1 2 3 (Some 11) = Ok c
    /\ auth c = Some (BearerAuth "s") /\ rpc_timeout (connection_options c) = Some 7.
Proof.
  eexists. split; [vm_compute; reflexivity|].
  match goal with |- auth ?c = _ /\ _ =>
    destruct (connection_policy ex_parse_location 4 300 (mkAttachSpec "example" "ex" "https://h"
         (list_to_map [("bearer_token", "'s'"); ("rpc_timeout", "7")])) 1 2 3 (Some 11) c) as (Hb & _ & _ & _ & Ht & _)
  end; [vm_compute; reflexivity|].
  split; [by apply (Hb "s")|by apply (Ht 7)].
Defined.

(** ** Session tokens *)

Section Attach.
Context {Handle : Type}.

(** A call of [attach]: the connection, the catalog and what the worker would
    answer. *)
Record AttachOp := mkAttachOp {
  op_conn : VgiConnection; op_catalog : string; op_worker : string -> AttachOptions -> result Handle;
}.
Definition run_attaches (m : Caches Handle) (ops : list AttachOp) : Caches Handle :=
  fold_left (fun m op => (attach m (op_conn op) (op_catalog op) (op_worker op)).1) ops m.

Lemma cached_cache_handle (m : Caches Handle) c catalog h c' catalog' :
  cached_handle (cache_handle m c catalog h) c' catalog'
  = if bool_decide (attached c' = attached c /\ catalog' = catalog) then Some h
    else cached_handle m c' catalog'.
Proof.
  unfold cached_handle, cache_handle. case_bool_decide as Hb.
  - destruct Hb as [-> ->]. rewrite lookup_insert_eq. simpl. by rewrite lookup_insert_eq.
  - destruct (decide (attached c' = attached c)) as [He|He].
    + rewrite He, lookup_insert_eq. simpl. rewrite lookup_insert_ne by naive_solver.
      by destruct (m !! attached c).
    + by rewrite lookup_insert_ne.
Qed.

Lemma attach_keeps (m : Caches Handle) c catalog w c' catalog' h :
  cached_handle m c' catalog' = Some h ->
  cached_handle (attach m c catalog w).1 c' catalog' = Some h.
Proof.
  intros Hh. unfold attach. destruct (cached_handle m c catalog) as [h0|] eqn:Hc; [done|].
  destruct (w _ _) as [h1|]; [|done]. simpl. rewrite cached_cache_handle.
  case_bool_decide as Hb; [|done]. destruct Hb as [Ha ->]. exfalso.
  unfold cached_handle in Hc, Hh. rewrite Ha in Hh. congruence.
Qed.
Lemma run_attaches_keeps (m : Caches Handle) ops c catalog h :
  cached_handle m c catalog = Some h -> cached_handle (run_attaches m ops) c catalog = Some h.
Proof.
  revert m. induction ops as [|op ops IH]; intros m Hh; [done|]. apply IH. by apply attach_keeps.
Qed.

(** The session token of a catalog is stable: after one successful attach,
    every later attach through any clone of the connection, whatever happened
    in between, returns the same handle without asking the worker. *)
Theorem attach_handle_stable (m : Caches Handle) (c : VgiConnection) (catalog : string)
    (worker : string -> AttachOptions -> result Handle) (h : Handle) (ops : list AttachOp) :
  (attach m c catalog worker).2 = Ok h ->
  let later := run_attaches (attach m c catalog worker).1 ops in
  forall c' worker', attached c' = attached c -> attach later c' catalog worker' = (later, Ok h).
Proof.
  intros Hok later c' worker' Hc'.
  assert (cached_handle (attach m c catalog worker).1 c' catalog = Some h) as Hin.
  { assert (forall m0 : Caches Handle, cached_handle m0 c' catalog = cached_handle m0 c catalog) as ->
      by (intros m0; unfold cached_handle; by rewrite Hc').
    clear later. unfold attach in *. destruct (cached_handle m c catalog) as [h0|] eqn:Hm.
    - simpl in *. by injection Hok as ->.
    - destruct (worker _ _) as [h1|]; simpl in *; [|done]. injection Hok as ->.
      rewrite cached_cache_handle. by rewrite bool_decide_eq_true_2. }
  unfold attach. unfold later. by rewrite (run_attaches_keeps _ ops _ _ _ Hin).
Qed.
End Attach.

Definition ex_conn : VgiConnection := pooled (Unix "/run/w") PoolDisabled 1 1.

Definition ex_later : Caches Z :=
  run_attaches (attach ∅ ex_conn "example" (fun _ _ => Ok 5)).1
    [mkAttachOp ex_conn "other" (fun _ _ => Ok 7)].

Lemma attach_handle_stable_witness :
  attach ex_later (with_cache_enabled ex_conn false) "example" (fun _ _ => Ok 9) = (ex_later, Ok 5).
Proof.
  apply (attach_handle_stable ∅ ex_conn "example" (fun _ _ => Ok 5) 5
    [mkAttachOp ex_conn "other" (fun _ _ => Ok 7)]); [vm_compute; reflexivity|reflexivity].
Defined.

(** Two calls that race on an empty cache get different tokens. *)
Lemma attach_race :
  exists m, rtc (attach_step ex_conn "example") (∅, [Start; Start]) (m, [Attached 5; Attached 9]).
Proof.
  eexists.
  eapply rtc_l; [eapply (AttachMiss _ _ _ _ 0%nat); reflexivity|].
  eapply rtc_l; [eapply (AttachMiss _ _ _ _ 1%nat); reflexivity|].
  eapply rtc_l; [eapply (AttachStore _ _ _ _ 0%nat 5); reflexivity|].
  eapply rtc_l; [eapply (AttachStore _ _ _ _ 1%nat 9); reflexivity|].
  apply rtc_refl.
Qed.

(** ** Capabilities *)

(** A capability that discovery reports holds of every advertised overload. *)
Lemma capabilities_conservative functions function caps :
  function_capabilities functions function = Ok caps ->
  forall infos info, functions = inl infos -> info ∈ infos -> fi_name info = function ->
  (projection_pushdown caps = true -> fi_projection_pushdown info = Some true)
  /\ (filter_pushdown caps = Some true -> fi_filter_pushdown info = Some true)
  /\ (filters_exactly_applied caps = true -> fi_filters_exactly_applied info = true)
  /\ (supports_splits caps = Some true -> fi_supports_splits info = true)
  /\ (sampling_pushdown caps = true -> fi_sampling_pushdown info = Some true).
Proof.
  intros Hcaps infos info -> Hin Hname. unfold function_capabilities in Hcaps.
  assert (info ∈ filter (fun i => String.eqb (fi_name i) function) infos) as Hf.
  { apply list_elem_of_filter. split; [|done]. by rewrite Hname, String.eqb_refl. }
  destruct (filter _ infos) as [|i0 l]; [by apply not_elem_of_nil in Hf|].
  injection Hcaps as <-. cbn [projection_pushdown filter_pushdown filters_exactly_applied supports_splits sampling_pushdown].
  assert (forall f : FunctionInfo -> bool, forallb f (i0 :: l) = true -> f info = true) as Hall.
  { intros f Hf'. rewrite forallb_forall in Hf'. apply Hf'. by apply list_elem_of_In. }
  split_and!; intros Ht.
  - apply (Hall (fun i => opted_in (fi_projection_pushdown i))) in Ht. by apply bool_decide_eq_true_1 in Ht.
  - injection Ht as Ht. apply (Hall (fun i => opted_in (fi_filter_pushdown i))) in Ht.
    by apply bool_decide_eq_true_1 in Ht.
  - by apply (Hall fi_filters_exactly_applied).
  - injection Ht as Ht. by apply (Hall fi_supports_splits).
  - apply (Hall (fun i => opted_in (fi_sampling_pushdown i))) in Ht. by apply bool_decide_eq_true_1 in Ht.
Qed.
