(* ===== verification/Registry.v ===== *)
(** * Function registration

    session.rs publishes the functions of an attached catalog in DataFusion's
    session-wide registries and takes them back on DETACH. A registry is flat:
    an entry is keyed by its kind and name, and holds a reference-counted
    implementation, identified here by a fresh owner number. Names are never
    overwritten, and only entries an alias still owns are removed. *)

From S2P Require Import Prelude Text.

(** ** State *)

Inductive FunctionKind := FScalar | FAggregate | FTable.
#[export] Instance FunctionKind_eq_dec : EqDecision FunctionKind.
Proof. solve_decision. Defined.
#[export] Instance FunctionKind_countable : Countable FunctionKind.
Proof.
  refine (inj_countable' (fun k => match k with FScalar => 0 | FAggregate => 1 | FTable => 2 end)
            (fun n => match n with 0 => FScalar | 1 => FAggregate | _ => FTable end) _)%nat.
  by intros [].
Defined.
Abbreviation Key := (FunctionKind * string)%type.

(** A registered function: its [Arc], and the worker function it dispatches to
    (catalog, schema, name), or [None] for one that dispatches to no worker:
    DataFusion's own, the user's, and the diagnostics of the adapter. *)
Record Implementation := mkImpl { owner : nat; target : option (string * string * string) }.

(** An entry of [RegisteredNames]: the name sets and the owner maps of the
    source are always written together, and are one map here. *)
Record Registration := mkReg { reg_owner : nat; reg_nullary : bool; reg_named : gset string }.
Abbreviation RegisteredNames := (gmap Key Registration).

Record Registry := mkRegistry {
  functions : gmap Key Implementation;
  registrations : gmap string RegisteredNames;
  next_owner : nat;
}.

(** [record_registration] *)
Definition record_registration (regs : gmap string RegisteredNames) (alias : string) (k : Key)
    (r : Registration) : gmap string RegisteredNames :=
  let alias := to_ascii_lowercase alias in
  <[alias := <[k := r]> (default ∅ (regs !! alias))]> regs.

(** [register_scalar_if_absent], [register_aggregate_if_absent] and
    [register_table_if_absent]: the new implementation takes the next owner
    number, also when it is dropped again. *)
Definition register_if_absent (s : Registry) (alias : string) (k : Key)
    (t : string * string * string) (nullary : bool) (named : gset string) : Registry * bool :=
  let o := next_owner s in
  match functions s !! k with
  | Some _ => (mkRegistry (functions s) (registrations s) (S o), false)
  | None => (mkRegistry (<[k := mkImpl o (Some t)]> (functions s))
               (record_registration (registrations s) alias k (mkReg o nullary named)) (S o), true)
  end.
Definition register_scalar_if_absent s alias name t := register_if_absent s alias (FScalar, name) t false ∅.
Definition register_aggregate_if_absent s alias name t nullary :=
  register_if_absent s alias (FAggregate, name) t nullary ∅.
Definition register_table_if_absent s alias name t named :=
  register_if_absent s alias (FTable, name) t false named.

(** One entry of [deregister_alias_functions]: removed if the alias's weak
    reference still is the registry's current implementation. *)
Definition deregister_entry (fs : gmap Key Implementation) (e : Key * Registration) : gmap Key Implementation :=
  match fs !! e.1 with
  | Some current => if (owner current =? reg_owner e.2)%nat then delete e.1 fs else fs
  | None => fs
  end.
Definition deregister_alias_functions (s : Registry) (alias : string) : Registry :=
  let alias := to_ascii_lowercase alias in
  match registrations s !! alias with
  | None => s
  | Some regs => mkRegistry (fold_left deregister_entry (map_to_list regs) (functions s))
                   (delete alias (registrations s)) (next_owner s)
  end.

(** [diagnostics::register]: names the session has are left alone; [Diagnostics]
    holds what the functions do. *)
Definition diagnostics_keys : list Key :=
  map (pair FTable)
    ["vgi_cache_stats"; "vgi_plan_cache_stats"; "vgi_cache_entries"; "vgi_logs"; "vgi_log_stats";
     "vgi_result_cache_stats"; "vgi_result_cache"; "vgi_result_cache_flush"; "vgi_result_cache_reap";
     "duckdb_logs"; "duckdb_functions"; "duckdb_settings"; "vgi_global_functions"; "duckdb_databases";
     "duckdb_schemas"; "duckdb_tables"; "duckdb_views"; "duckdb_columns"; "duckdb_constraints";
     "vgi_function_arguments"; "vgi_table_branches"; "vgi_table_statistics"; "vgi_catalogs"]
  ++ map (pair FScalar) ["typeof"; "vgi_cache_flush"; "vgi_cache_reap"; "vgi_logs_clear"].
Definition register_diagnostic (state : gmap Key Implementation) (s : Registry) (k : Key) : Registry :=
  match state !! k with
  | Some _ => s
  | None => mkRegistry (<[k := mkImpl (next_owner s) None]> (functions s)) (registrations s) (S (next_owner s))
  end.
Definition register_diagnostics (s : Registry) : Registry :=
  fold_left (register_diagnostic (functions s)) diagnostics_keys s.

(** ** Look-ups of the SQL front end *)

(** Some registration of some alias satisfies [p]. *)
Definition any_registration (s : Registry) (p : Key -> Registration -> bool) : bool :=
  existsb (fun aliased => existsb (fun e => p e.1 e.2) (map_to_list aliased.2))
    (map_to_list (registrations s)).
Definition is_declared_named_table_argument (s : Registry) (function_name argument_name : string) : bool :=
  any_registration s (fun k r =>
    bool_decide (k.1 = FTable) && eq_ignore_ascii_case k.2 function_name
    && bool_decide (to_ascii_lowercase argument_name ∈ reg_named r)).
Definition is_declared_nullary_aggregate (s : Registry) (function_name : string) : bool :=
  any_registration s (fun k r =>
    bool_decide (k.1 = FAggregate) && reg_nullary r && eq_ignore_ascii_case k.2 function_name).

(** ** Publication *)

Definition publish_names (alias schema function : string) : list string :=
  [alias +:+ "." +:+ schema +:+ "." +:+ function; alias +:+ "." +:+ function;
   alias +:+ "_" +:+ function; function].

Section Publish.
(** [vgi_client::ArgSpecs]: its declarations, and its method
    [minimum_positional_arity]. *)
Context {ArgSpecs : Type}.
Record ArgSpec := mkArgSpec { spec_name : string; is_named : bool }.
Variable declarations : ArgSpecs -> list ArgSpec.
Variable minimum_positional_arity : ArgSpecs -> nat.

Definition named_arguments (specs : ArgSpecs) : gset string :=
  list_to_set (map (fun spec => to_ascii_lowercase (spec_name spec))
                 (filter (fun spec => is_named spec = true) (declarations specs))).
Definition nullary (specs : ArgSpecs) : bool := (minimum_positional_arity specs =? 0)%nat.

(** What [VgiSchemaProvider] knows of one worker schema. *)
Record SchemaFunctions := mkSchema {
  table_functions : list (string * option ArgSpecs);
  scalars : list string;
  aggregates : list (string * ArgSpecs);
}.
Abbreviation Schemas := (list (string * SchemaFunctions)).

(** One call of a [register_*_if_absent] by the publication loops. *)
Record Publication := mkPublication {
  p_key : Key; p_target : string * string * string; p_nullary : bool; p_named : gset string;
}.
Definition publish (alias : string) (s : Registry) (p : Publication) : Registry :=
  (register_if_absent s alias (p_key p) (p_target p) (p_nullary p) (p_named p)).1.

(** The calls [register_table_functions], [register_scalar_functions] and
    [register_aggregate_functions] make, in order. *)
Definition table_publications (catalog alias : string) (schemas : Schemas) : list Publication :=
  '(schema, fs) ← schemas; '(function, specs) ← table_functions fs;
  let named := match specs with Some specs => named_arguments specs | None => ∅ end in
  name ← publish_names alias schema function;
  [mkPublication (FTable, name) (catalog, schema, function) false named].
Definition scalar_publications (catalog alias : string) (schemas : Schemas) : list Publication :=
  '(schema, fs) ← schemas; function ← scalars fs; name ← publish_names alias schema function;
  [mkPublication (FScalar, name) (catalog, schema, function) false ∅].
Definition aggregate_publications (catalog alias : string) (schemas : Schemas) : list Publication :=
  '(schema, fs) ← schemas; '(function, specs) ← aggregates fs;
  name ← publish_names alias schema function;
  [mkPublication (FAggregate, name) (catalog, schema, function) (nullary specs) ∅].

Definition register_table_functions (s : Registry) (catalog alias : string) (schemas : Schemas) : Registry :=
  fold_left (publish alias) (table_publications catalog alias schemas) s.
Definition register_scalar_functions (s : Registry) (catalog alias : string) (schemas : Schemas) : Registry :=
  fold_left (publish alias) (scalar_publications catalog alias schemas) s.
Definition register_aggregate_functions (s : Registry) (catalog alias : string) (schemas : Schemas) : Registry :=
  fold_left (publish alias) (aggregate_publications catalog alias schemas) s.

(** ** Global functions *)

Inductive Volatility := Immutable | Stable | Volatile.
(** [metadata_volatility], from the advertised stability. *)
Definition metadata_volatility (stability : option string) : Volatility :=
  match stability with
  | Some v => if eq_ignore_ascii_case v "VOLATILE" then Volatile
              else if eq_ignore_ascii_case v "CONSISTENT_WITHIN_QUERY" then Stable else Immutable
  | None => Immutable
  end.
Definition most_volatile (a b : Volatility) : Volatility :=
  match a, b with
  | Volatile, _ | _, Volatile => Volatile
  | Stable, _ | _, Stable => Stable
  | _, _ => Immutable
  end.

(** The fields of [FunctionInfo] used for a nominated global function;
    [gi_strict] is [metadata_is_strict] of it. *)
Record GlobalInfo := mkGlobal {
  gi_name : string;
  gi_schema_path : list string;
  gi_function_type : string;
  gi_arguments : list Ascii.ascii;
  gi_stability : option string;
  gi_strict : bool;
  gi_sink_order_dependent : bool;
  gi_input_from_args : bool;
  gi_max_workers : option Z;
  gi_has_finalize : bool;
}.
(** [crate::catalog::TableFunctionMetadata] *)
Record TableFunctionMetadata := mkTableMetadata {
  tm_specs : ArgSpecs; tm_buffered : bool; tm_sink_order_dependent : bool;
  tm_input_from_args : bool; tm_stream_cache_eligible : bool;
}.
Inductive PreparedGlobalKind :=
  | GScalar (overloads : list ArgSpecs) (volatility : Volatility) (strict : bool)
  | GAggregate (specs : ArgSpecs) (is_nullary : bool)
  | GTable (metadata : TableFunctionMetadata).
Record PreparedGlobalFunction := mkPrepared {
  pg_info : GlobalInfo; pg_name : string; pg_kind : PreparedGlobalKind;
}.

(** [schema_leaf] of protocol_v3.rs *)
Definition schema_leaf (path : list string) : string := List.last path "".

(** [ArgSpecs::parse] belongs to vgi_client. *)
Variable parse_specs : list Ascii.ascii -> result ArgSpecs.

Definition same_scalar_group (name : string) (info : GlobalInfo) (c : PreparedGlobalFunction) : bool :=
  String.eqb (pg_name c) name && eq_ignore_ascii_case (gi_name (pg_info c)) (gi_name info)
  && eq_ignore_ascii_case (schema_leaf (gi_schema_path (pg_info c))) (schema_leaf (gi_schema_path info))
  && match pg_kind c with GScalar _ _ _ => true | _ => false end.
(** Another overload joins a scalar group. *)
Definition add_overload (specs : ArgSpecs) (info : GlobalInfo) (c : PreparedGlobalFunction)
    : PreparedGlobalFunction :=
  match pg_kind c with
  | GScalar overloads v strict =>
      mkPrepared (pg_info c) (pg_name c)
        (GScalar (overloads ++ [specs]) (most_volatile v (metadata_volatility (gi_stability info)))
           (strict && gi_strict info))
  | _ => c
  end.

Definition global_name (prefix : string) (info : GlobalInfo) : string :=
  if String.eqb prefix "" then to_ascii_lowercase (gi_name info)
  else to_ascii_lowercase (prefix +:+ "_" +:+ gi_name info).

(** One round of the loop of [prepare_global_functions]. *)
Definition prepare_global (prefix : string) (prepared : list PreparedGlobalFunction) (info : GlobalInfo)
    : result (list PreparedGlobalFunction) :=
  let name := global_name prefix info in
  let function_type := to_ascii_lowercase (gi_function_type info) in
  specs ← parse_specs (gi_arguments info);
  if String.eqb function_type "scalar" then
    match position (same_scalar_group name info) prepared with
    | Some i => Ok (alter (add_overload specs info) i prepared)
    | None => Ok (prepared ++ [mkPrepared info name
                    (GScalar [specs] (metadata_volatility (gi_stability info)) (gi_strict info))])
    end
  else if String.eqb function_type "aggregate"
  then Ok (prepared ++ [mkPrepared info name (GAggregate specs (nullary specs))])
  else if vec_contains function_type ["table"; "table_buffering"]
  then Ok (prepared ++ [mkPrepared info name (GTable (mkTableMetadata specs
             (String.eqb function_type "table_buffering") (gi_sink_order_dependent info)
             (gi_input_from_args info)
             (negb (bool_decide (gi_max_workers info = Some 1%Z)) && negb (gi_has_finalize info))))])
  else Err (Plan ("worker nominated global function `" +:+ gi_name info +:+ "` with unsupported type `"
                  +:+ gi_function_type info +:+ "`")).

Fixpoint prepare_global_functions (prefix : string) (infos : list GlobalInfo)
    (prepared : list PreparedGlobalFunction) : result (list PreparedGlobalFunction) :=
  match infos with
  | [] => Ok prepared
  | info :: infos => prepared ← prepare_global prefix prepared info;
                     prepare_global_functions prefix infos prepared
  end.

(** The call that registers a prepared function. *)
Definition global_publication (catalog : string) (f : PreparedGlobalFunction) : Publication :=
  let t := (catalog, schema_leaf (gi_schema_path (pg_info f)), gi_name (pg_info f)) in
  match pg_kind f with
  | GScalar _ _ _ => mkPublication (FScalar, pg_name f) t false ∅
  | GAggregate _ n => mkPublication (FAggregate, pg_name f) t n ∅
  | GTable m => mkPublication (FTable, pg_name f) t false (named_arguments (tm_specs m))
  end.
(** [register_global_functions]: the registry and the published names. *)
Fixpoint register_global_functions (s : Registry) (catalog alias : string)
    (fs : list PreparedGlobalFunction) : Registry * list string :=
  match fs with
  | [] => (s, [])
  | f :: fs =>
      let p := global_publication catalog f in
      let '(s, registered) :=
        register_if_absent s alias (p_key p) (p_target p) (p_nullary p) (p_named p) in
      let '(s, published) := register_global_functions s catalog alias fs in
      (s, if registered then pg_name f :: published else published)
  end.
End Publish.

(** The registry part of [attach_one]: re-attaching an alias first takes back
    what it had published. *)
Definition publish_catalog {ArgSpecs} (declarations : ArgSpecs -> list ArgSpec)
    (minimum_positional_arity : ArgSpecs -> nat) (s : Registry) (catalog alias : string)
    (schemas : list (string * @SchemaFunctions ArgSpecs)) (globals : list (@PreparedGlobalFunction ArgSpecs))
    : Registry * list string :=
  let s := deregister_alias_functions s alias in
  let s := register_table_functions declarations s catalog alias schemas in
  let s := register_scalar_functions s catalog alias schemas in
  let s := register_aggregate_functions minimum_positional_arity s catalog alias schemas in
  register_global_functions declarations s catalog alias globals.
