(* ===== verification/RegistryTheorems.v ===== *)
(** * Function registration: what attaching and detaching change

    A registry changes by attaching, by detaching, and by what the user
    registers and removes meanwhile. Publication never replaces an existing
    function; detaching takes back exactly what the alias published and still
    owns, whatever the user has put in its place. *)

From S2P Require Import Prelude Text AttachSql AttachSqlTheorems Registry.
From Stdlib Require Import Strings.Ascii.

(** ** What an alias has published *)

(** What an alias has registered. *)
Definition recorded (s : Registry) (alias : string) : RegisteredNames :=
  default ∅ (registrations s !! alias).

Lemma recorded_record regs alias k r alias' :
  default ∅ (record_registration regs alias k r !! alias')
  = if bool_decide (alias' = to_ascii_lowercase alias)
    then <[k := r]> (default ∅ (regs !! to_ascii_lowercase alias)) else default ∅ (regs !! alias').
Proof.
  unfold record_registration. case_bool_decide as Ha; subst; [by rewrite lookup_insert_eq|by rewrite lookup_insert_ne].
Qed.

Lemma recorded_Some s alias k r :
  recorded s alias !! k = Some r <->
  exists regs, registrations s !! alias = Some regs /\ regs !! k = Some r.
Proof.
  unfold recorded. destruct (registrations s !! alias) as [regs|]; simpl; [|by split; [|intros (? & ? & _)]].
  split; [eauto|]. by intros (? & [= <-] & ?).
Qed.

(** The current implementation of a name is the one the alias published. *)
Definition owns (s : Registry) (alias : string) (k : Key) (im : Implementation) : bool :=
  match recorded s alias !! k with Some r => (owner im =? reg_owner r)%nat | None => false end.
Lemma owns_spec s alias k im :
  owns s alias k im = true <-> exists r, recorded s alias !! k = Some r /\ owner im = reg_owner r.
Proof.
  unfold owns. destruct (recorded s alias !! k) as [r|]; [|split; [done|by intros (? & ? & _)]].
  rewrite Nat.eqb_eq. split; [eauto|]. by intros (? & [= <-] & ?).
Qed.

(** ** Deregistration *)

Lemma deregister_entries (l : list (Key * Registration)) fs k :
  NoDup l.*1 ->
  fold_left deregister_entry l fs !! k
  = match fs !! k with
    | Some im => if existsb (fun e => bool_decide (e.1 = k) && (owner im =? reg_owner e.2)%nat) l
                 then None else Some im
    | None => None
    end.
Proof.
  revert fs. induction l as [|[k0 r0] l IH]; intros fs Hnd; cbn [fold_left existsb fmap list_fmap fst].
  - by destruct (fs !! k).
  - apply NoDup_cons in Hnd as [Hk0 Hnd]. cbn [fst] in Hk0. rewrite IH by done.
    assert (forall im, existsb (fun e => bool_decide (e.1 = k0) && (owner im =? reg_owner e.2)%nat) l = false) as Hno.
    { intros im. apply not_true_is_false. intros (e & He & Hb)%existsb_exists.
      apply andb_true_iff in Hb as [Hb _]. apply bool_decide_eq_true_1 in Hb. apply Hk0. rewrite <- Hb.
      apply list_elem_of_fmap. exists e. split; [done|]. by apply list_elem_of_In. }
    unfold deregister_entry at 1. cbn [fst snd].
    destruct (decide (k0 = k)) as [->|Hne].
    + rewrite bool_decide_eq_true_2 by done. cbn [andb].
      destruct (fs !! k) as [im|] eqn:Hk; [|by rewrite Hk]. rewrite Hno, orb_false_r.
      destruct (owner im =? reg_owner r0)%nat; [by rewrite lookup_delete_eq|by rewrite Hk, Hno].
    + rewrite (bool_decide_eq_false_2 (k0 = k)) by done. cbn [andb orb].
      destruct (fs !! k0) as [im0|]; [|done].
      destruct (_ =? _)%nat; [by rewrite lookup_delete_ne|done].
Qed.

(** The functions after deregistration: those the alias does not own. *)
Lemma deregister_functions s alias k :
  functions (deregister_alias_functions s alias) !! k
  = match functions s !! k with
    | Some im => if owns s (to_ascii_lowercase alias) k im then None else Some im
    | None => None
    end.
Proof.
  unfold deregister_alias_functions, owns, recorded.
  destruct (registrations s !! to_ascii_lowercase alias) as [regs|]; simpl.
  - rewrite deregister_entries by apply NoDup_fst_map_to_list.
    destruct (functions s !! k) as [im|]; [|done].
    match goal with |- (if ?b then _ else _) = (if ?c then _ else _) => assert (b = c) as ->; [|done] end.
    apply eq_true_iff_eq. rewrite existsb_exists. split.
    + intros ([k' r] & He%list_elem_of_In%elem_of_map_to_list & Hx). simpl in Hx.
      apply andb_true_iff in Hx as [->%bool_decide_eq_true Ho]. by rewrite He.
    + destruct (regs !! k) as [r|] eqn:Hr; [|done]. intros Ho. exists (k, r).
      split; [by apply list_elem_of_In, elem_of_map_to_list|]. simpl. by rewrite bool_decide_eq_true_2.
  - rewrite lookup_empty. by destruct (functions s !! k).
Qed.
Lemma deregister_recorded s alias alias' :
  recorded (deregister_alias_functions s alias) alias'
  = if bool_decide (alias' = to_ascii_lowercase alias) then ∅ else recorded s alias'.
Proof.
  unfold deregister_alias_functions, recorded.
  destruct (registrations s !! to_ascii_lowercase alias) as [regs|] eqn:Hr; simpl.
  - case_bool_decide; subst; [by rewrite lookup_delete_eq|by rewrite lookup_delete_ne].
  - case_bool_decide; subst; [by rewrite Hr|done].
Qed.
Lemma deregister_next s alias : next_owner (deregister_alias_functions s alias) = next_owner s.
Proof. unfold deregister_alias_functions. by destruct (registrations s !! _). Qed.

(** ** Publication *)

(** What publishing under an alias may change: absent keys appear, owned by
    the alias; nothing else. *)
Record published_by (alias : string) (s s' : Registry) : Prop := {
  pb_keeps : forall k im, functions s !! k = Some im -> functions s' !! k = Some im;
  pb_new : forall k im, functions s' !! k = Some im -> functions s !! k = None ->
    owns s' (to_ascii_lowercase alias) k im = true;
  pb_others : forall a, a <> to_ascii_lowercase alias -> recorded s' a = recorded s a;
  pb_own : forall k im, functions s !! k = Some im ->
    recorded s' (to_ascii_lowercase alias) !! k = recorded s (to_ascii_lowercase alias) !! k;
}.

#[local] Instance published_by_refl alias : Reflexive (published_by alias).
Proof. split; try done. congruence. Qed.

#[local] Instance published_by_trans alias : Transitive (published_by alias).
Proof.
  intros s1 s2 s3 H12 H23. split.
  - intros k im Hk. by apply (pb_keeps _ _ _ H23), (pb_keeps _ _ _ H12).
  - intros k im Hk H1. destruct (functions s2 !! k) as [im2|] eqn:H2; [|by apply (pb_new _ _ _ H23)].
    pose proof (pb_keeps _ _ _ H23 k im2 H2). assert (im2 = im) as -> by congruence.
    pose proof (pb_new _ _ _ H12 k im H2 H1) as Ho. unfold owns in *. by rewrite (pb_own _ _ _ H23 k im H2).
  - intros a Ha. by rewrite (pb_others _ _ _ H23), (pb_others _ _ _ H12).
  - intros k im Hk. rewrite (pb_own _ _ _ H23 k im), (pb_own _ _ _ H12 k im); [done..|]. by apply (pb_keeps _ _ _ H12).
Qed.

Lemma publish_published alias s p : published_by alias s (publish alias s p).
Proof.
  unfold publish, register_if_absent. destruct (functions s !! p_key p) as [im0|] eqn:Hk.
  - simpl. split; try done. simpl. congruence.
  - cbn [fst]. split; unfold owns, recorded; cbn [functions registrations].
    + intros k im Him. rewrite lookup_insert_ne; [done|]. congruence.
    + intros k im Him Hn. destruct (decide (k = p_key p)) as [->|Hne].
      * rewrite lookup_insert_eq in Him. injection Him as <-.
        rewrite recorded_record, bool_decide_eq_true_2, lookup_insert_eq by done. apply Nat.eqb_refl.
      * rewrite lookup_insert_ne in Him by done. congruence.
    + intros a Ha. by rewrite recorded_record, bool_decide_eq_false_2.
    + intros k im Him. rewrite recorded_record, bool_decide_eq_true_2 by done.
      rewrite lookup_insert_ne; [done|]. congruence.
Qed.

Lemma publications_published alias ps s : published_by alias s (fold_left (publish alias) ps s).
Proof.
  revert s. induction ps as [|p ps IH]; intros s; [done|]. cbn [fold_left].
  etrans; [apply publish_published|apply IH].
Qed.
(** An absent key goes to the first publication of it. *)
Lemma publications_first alias ps s k :
  functions s !! k = None ->
  target <$> functions (fold_left (publish alias) ps s) !! k
  = Some ∘ p_target <$> first_some (fun p => if bool_decide (p_key p = k) then Some p else None) ps.
Proof.
  revert s. induction ps as [|p ps IH]; intros s Hk; cbn [fold_left first_some]; [by rewrite Hk|].
  case_bool_decide as Hp.
  - assert (exists im, functions (publish alias s p) !! k = Some im /\ target im = Some (p_target p))
      as (im & Him & Ht).
    { unfold publish, register_if_absent. rewrite Hp, Hk. simpl. rewrite lookup_insert_eq. by eexists. }
    rewrite (pb_keeps _ _ _ (publications_published alias ps _) _ _ Him). simpl. by rewrite Ht.
  - apply IH. unfold publish, register_if_absent. destruct (functions s !! p_key p); [done|].
    simpl. by rewrite lookup_insert_ne.
Qed.

Section Publish.
Context {ArgSpecs : Type} (declarations : ArgSpecs -> list ArgSpec) (minimum_positional_arity : ArgSpecs -> nat).
Abbreviation publish_catalog := (publish_catalog declarations minimum_positional_arity).

Lemma register_global_fold s catalog alias gs :
  (register_global_functions declarations s catalog alias gs).1
  = fold_left (publish alias) (map (global_publication declarations catalog) gs) s.
Proof.
  revert s. induction gs as [|g gs IH]; intros s; [done|]. cbn [register_global_functions map fold_left].
  rewrite <- IH. unfold publish.
  destruct (register_if_absent s alias _ _ _ _) as [s1 b]. simpl.
  by destruct (register_global_functions declarations s1 catalog alias gs).
Qed.

(** All publications of a catalog. *)
Definition catalog_publications (catalog alias : string) (schemas : list (string * @SchemaFunctions ArgSpecs))
    (gs : list (@PreparedGlobalFunction ArgSpecs)) : list Publication :=
  table_publications declarations catalog alias schemas ++ scalar_publications catalog alias schemas
  ++ aggregate_publications minimum_positional_arity catalog alias schemas
  ++ map (global_publication declarations catalog) gs.

Lemma publish_catalog_fold s catalog alias schemas gs :
  (publish_catalog s catalog alias schemas gs).1
  = fold_left (publish alias) (catalog_publications catalog alias schemas gs) (deregister_alias_functions s alias).
Proof.
  unfold Registry.publish_catalog. rewrite register_global_fold. unfold catalog_publications.
  by rewrite !fold_left_app.
Qed.

(** ** The life of a registry

    What the user does to a session's registries is DataFusion's: [register_udf]
    and its like put a new implementation under a name, whatever was there;
    [deregister_udf] takes one away. *)
Definition user_registers (s : Registry) (k : Key) : Registry :=
  mkRegistry (<[k := mkImpl (next_owner s) None]> (functions s)) (registrations s) (S (next_owner s)).
Definition user_removes (s : Registry) (k : Key) : Registry :=
  mkRegistry (delete k (functions s)) (registrations s) (next_owner s).

Inductive registry_step : Registry -> Registry -> Prop :=
  | step_diagnostics s : registry_step s (register_diagnostics s)
  | step_attach s catalog alias schemas gs : registry_step s (publish_catalog s catalog alias schemas gs).1
  | step_detach s alias : registry_step s (deregister_alias_functions s alias)
  | step_user_registers s k : registry_step s (user_registers s k)
  | step_user_removes s k : registry_step s (user_removes s k).
(** A session that has attached nothing yet. *)
Definition pristine (s : Registry) : Prop :=
  registrations s = ∅ /\
  forall k im, functions s !! k = Some im -> (owner im < next_owner s)%nat /\ target im = None.

(** The invariant: owner numbers are below the counter, no two registrations
    share one, and the current implementations the aliases own are exactly
    those that dispatch to a worker. A registration need not be current: its
    function may have been removed or replaced by the user. *)
Record registry_ok (s : Registry) : Prop := {
  ok_below : forall k im, functions s !! k = Some im -> (owner im < next_owner s)%nat;
  ok_below_recorded : forall a k r, recorded s a !! k = Some r -> (reg_owner r < next_owner s)%nat;
  ok_owner : forall a1 a2 k1 k2 r1 r2, recorded s a1 !! k1 = Some r1 -> recorded s a2 !! k2 = Some r2 ->
    reg_owner r1 = reg_owner r2 -> a1 = a2 /\ k1 = k2;
  ok_target : forall k im, functions s !! k = Some im -> is_Some (target im) <-> exists a, owns s a k im = true;
}.

Lemma pristine_ok s : pristine s -> registry_ok s.
Proof.
  intros [Hr Hf]. assert (forall a, recorded s a = ∅) as Hnone by (intros a; unfold recorded; by rewrite Hr).
  split.
  - intros k im Hk. by apply (Hf k).
  - intros a k r. by rewrite Hnone, lookup_empty.
  - intros a1 a2 k1 k2 r1 r2. by rewrite Hnone, lookup_empty.
  - intros k im Hk. destruct (Hf k im Hk) as [_ ->]. split; [by intros []|].
    intros (a & (r & Hrec & _)%owns_spec). by rewrite Hnone, lookup_empty in Hrec.
Qed.

(** A name gets a new implementation that no alias owns. *)
Lemma user_registers_ok s k : registry_ok s -> registry_ok (user_registers s k).
Proof.
  intros [Hb Hr Ho Ht]. assert (forall a, recorded (user_registers s k) a = recorded s a) as Hrec by done.
  split; cbn [user_registers functions next_owner].
  - intros k' im. destruct (decide (k' = k)) as [->|Hne].
    + rewrite lookup_insert_eq. intros [= <-]. simpl. lia.
    + rewrite lookup_insert_ne by done. intros H%Hb. lia.
  - intros a k' r H%Hr. lia.
  - exact Ho.
  - intros k' im. destruct (decide (k' = k)) as [->|Hne].
    + rewrite lookup_insert_eq. intros [= <-]. split; [by intros []|].
      intros (a & (r & H%Hr & Heq)%owns_spec). simpl in Heq. lia.
    + rewrite lookup_insert_ne by done. apply Ht.
Qed.
Lemma user_removes_ok s k : registry_ok s -> registry_ok (user_removes s k).
Proof.
  intros [Hb Hr Ho Ht]. split; cbn [user_removes functions next_owner]; [| exact Hr|exact Ho|].
  - intros k' im [_ H]%lookup_delete_Some. by apply (Hb k').
  - intros k' im [_ H]%lookup_delete_Some. by apply Ht.
Qed.
Lemma diagnostics_ok s : registry_ok s -> registry_ok (register_diagnostics s).
Proof.
  unfold register_diagnostics. generalize (functions s) as state. intros state. revert s.
  induction diagnostics_keys as [|k ks IH]; intros s Hs; [done|]. cbn [fold_left]. apply IH.
  unfold register_diagnostic. destruct (state !! k); [done|]. by apply (user_registers_ok s k).
Qed.

Lemma register_ok s alias p : registry_ok s -> registry_ok (publish alias s p).
Proof.
  intros [Hb Hr Ho Ht]. unfold publish, register_if_absent.
  destruct (functions s !! p_key p) as [im0|] eqn:Hk; cbn [fst].
  { split; simpl; [intros k im H%Hb; lia|intros a k r H%Hr; lia|exact Ho|exact Ht]. }
  assert (forall a k r, recorded (mkRegistry (<[p_key p := mkImpl (next_owner s) (Some (p_target p))]> (functions s))
      (record_registration (registrations s) alias (p_key p) (mkReg (next_owner s) (p_nullary p) (p_named p)))
      (S (next_owner s))) a !! k = Some r ->
    a = to_ascii_lowercase alias /\ k = p_key p /\ reg_owner r = next_owner s \/
    recorded s a !! k = Some r /\ (reg_owner r < next_owner s)%nat) as Hrec.
  { intros a k r. unfold recorded at 1. cbn [registrations]. rewrite recorded_record. case_bool_decide as Ha.
    - destruct (decide (k = p_key p)) as [->|Hne]; [rewrite lookup_insert_eq; intros [= <-]; by left|].
      rewrite lookup_insert_ne by done. rewrite <- Ha. intros H. right. split; [done|by eapply Hr].
    - intros H. right. split; [done|by eapply Hr]. }
  split; cbn [functions next_owner].
  - intros k im. destruct (decide (k = p_key p)) as [->|Hne].
    + rewrite lookup_insert_eq. intros [= <-]. simpl. lia.
    + rewrite lookup_insert_ne by done. intros H%Hb. lia.
  - intros a k r [(_ & _ & ->)|[_ H]]%Hrec; lia.
  - intros a1 a2 k1 k2 r1 r2 [(-> & -> & E1)|[H1 L1]]%Hrec [(-> & -> & E2)|[H2 L2]]%Hrec Heq; [done|lia|lia|by eapply Ho].
  - intros k im. destruct (decide (k = p_key p)) as [->|Hne].
    + rewrite lookup_insert_eq. intros [= <-]. split; [|by eexists]. intros _. exists (to_ascii_lowercase alias).
      apply owns_spec. unfold recorded. cbn [registrations].
      rewrite recorded_record, bool_decide_eq_true_2, lookup_insert_eq by done. by eexists.
    + rewrite lookup_insert_ne by done. intros H. rewrite (Ht k im H).
      assert (forall a, owns (mkRegistry (<[p_key p := mkImpl (next_owner s) (Some (p_target p))]> (functions s))
        (record_registration (registrations s) alias (p_key p) (mkReg (next_owner s) (p_nullary p) (p_named p)))
        (S (next_owner s))) a k im = owns s a k im) as Heq; [|by setoid_rewrite Heq].
      intros a. unfold owns, recorded. cbn [registrations]. rewrite recorded_record.
      case_bool_decide as Ha; [|done]. by rewrite lookup_insert_ne, Ha.
Qed.
Lemma deregister_ok s alias : registry_ok s -> registry_ok (deregister_alias_functions s alias).
Proof.
  intros [Hb Hr Ho Ht].
  assert (forall a k r, recorded (deregister_alias_functions s alias) a !! k = Some r ->
    a <> to_ascii_lowercase alias /\ recorded s a !! k = Some r) as Hrec.
  { intros a k r. rewrite deregister_recorded. case_bool_decide; [by rewrite lookup_empty|done]. }
  assert (forall k im, functions (deregister_alias_functions s alias) !! k = Some im ->
    functions s !! k = Some im /\ owns s (to_ascii_lowercase alias) k im = false) as Hfun.
  { intros k im. rewrite deregister_functions. destruct (functions s !! k) as [im'|]; [|done].
    destruct (owns s _ k im') eqn:H; [done|]. by intros [= <-]. }
  split; rewrite ?deregister_next.
  - intros k im [H _]%Hfun. by apply (Hb k).
  - intros a k r [_ H]%Hrec. by eapply Hr.
  - intros a1 a2 k1 k2 r1 r2 [_ H1]%Hrec [_ H2]%Hrec. by eapply Ho.
  - intros k im [H Hno]%Hfun. rewrite (Ht k im H).
    assert (forall a, owns (deregister_alias_functions s alias) a k im = owns s a k im) as Heq; [|by setoid_rewrite Heq].
    intros a. unfold owns at 1. rewrite deregister_recorded. case_bool_decide as Ha; [|done]. by rewrite lookup_empty, Ha, Hno.
Qed.

(** The invariant holds throughout a session. *)
Lemma registry_step_ok s s' : registry_step s s' -> registry_ok s -> registry_ok s'.
Proof.
  intros [s0|s0 catalog alias schemas gs|s0 alias|s0 k|s0 k] Hs.
  - by apply diagnostics_ok.
  - rewrite publish_catalog_fold. generalize (catalog_publications catalog alias schemas gs). intros ps.
    apply (deregister_ok _ alias) in Hs. revert Hs. generalize (deregister_alias_functions s0 alias). clear s0.
    induction ps as [|p ps IH]; intros s0 Hs; [done|]. cbn [fold_left]. by apply IH, register_ok.
  - by apply deregister_ok.
  - by apply user_registers_ok.
  - by apply user_removes_ok.
Qed.
Lemma reached_ok s0 s : pristine s0 -> rtc registry_step s0 s -> registry_ok s.
Proof.
  intros Hp Hr. apply pristine_ok in Hp. induction Hr as [s|s1 s2 s3 Hs _ IH]; [done|].
  apply IH. by eapply registry_step_ok.
Qed.

(** A function of another owner: it dispatches to no worker (DataFusion's, a
    diagnostic, or the user's, registered before or after the alias published
    the name), or another alias published it. *)
Definition foreign (s : Registry) (alias : string) (k : Key) (im : Implementation) : Prop :=
  target im = None \/ exists other, other <> to_ascii_lowercase alias /\ owns s other k im = true.

(** C29: attaching never replaces or removes a function of another owner, and
    neither does detaching: DataFusion's own functions, those of another alias,
    and the user's, also where the user has replaced a function the alias had
    published, keep their entries, at any point of a session in which catalogs
    are attached, re-attached and detached and the user registers and removes
    functions. What the alias published and nobody replaced goes with it; and
    every function is one or the other. *)
Theorem publication_keeps_foreign (s0 s : Registry) (catalog alias : string)
    (schemas : list (string * SchemaFunctions)) (gs : list PreparedGlobalFunction) (k : Key) (im : Implementation) :
  pristine s0 -> rtc registry_step s0 s -> functions s !! k = Some im ->
  (foreign s alias k im ->
     functions (publish_catalog s catalog alias schemas gs).1 !! k = Some im
     /\ functions (deregister_alias_functions s alias) !! k = Some im)
  /\ (owns s (to_ascii_lowercase alias) k im = true ->
     functions (deregister_alias_functions s alias) !! k = None)
  /\ (foreign s alias k im \/ owns s (to_ascii_lowercase alias) k im = true).
Proof.
  intros Hp Hr Hk. pose proof (reached_ok s0 s Hp Hr) as [_ _ Ho Ht]. split_and!.
  - intros Hf. assert (functions (deregister_alias_functions s alias) !! k = Some im) as Hd.
    { rewrite deregister_functions, Hk. destruct (owns s (to_ascii_lowercase alias) k im) eqn:Hown; [|done]. exfalso.
      destruct Hf as [Hnone|(other & Hne & (r & Hrec & Heq)%owns_spec)].
      - assert (is_Some (target im)) as [? ?] by (apply (Ht k im Hk); by eexists). congruence.
      - apply owns_spec in Hown as (r' & Hrec' & Heq'). destruct Hne. eapply Ho; [exact Hrec|exact Hrec'|congruence]. }
    split; [|done]. rewrite publish_catalog_fold. by apply (pb_keeps _ _ _ (publications_published _ _ _)).
  - intros Hown. by rewrite deregister_functions, Hk, Hown.
  - destruct (target im) as [t|] eqn:Htar; [|left; by left].
    destruct (proj1 (Ht k im Hk)) as [a Ha]; [by eexists|].
    destruct (decide (a = to_ascii_lowercase alias)) as [->|Hne]; [by right|]. left. right. by exists a.
Qed.

(** Deregistering an alias undoes publishing it: the registry has the functions
    it would have had if the alias had been detached instead of (re-)attached. *)
Lemma deregister_undoes_publish (s : Registry) (catalog alias : string)
    (schemas : list (string * SchemaFunctions)) (gs : list PreparedGlobalFunction) :
  functions (deregister_alias_functions (publish_catalog s catalog alias schemas gs).1 alias)
  = functions (deregister_alias_functions s alias).
Proof.
  pose proof (publications_published alias (catalog_publications catalog alias schemas gs)
                (deregister_alias_functions s alias)) as Hp.
  rewrite <- publish_catalog_fold in Hp.
  apply map_eq. intros k. rewrite deregister_functions.
  destruct (functions (deregister_alias_functions s alias) !! k) as [im|] eqn:Hk.
  - rewrite (pb_keeps _ _ _ Hp k im Hk). unfold owns. rewrite (pb_own _ _ _ Hp k im Hk).
    by rewrite deregister_recorded, bool_decide_eq_true_2, lookup_empty.
  - destruct (functions (publish_catalog s catalog alias schemas gs).1 !! k) as [im|] eqn:Hk'; [|done].
    by rewrite (pb_new _ _ _ Hp k im Hk' Hk).
Qed.

(** ** Qualified names *)

Definition dotless (s : string) : Prop := "."%char ∉ bytes_of s.

Lemma qualified_inj alias s1 f1 s2 f2 :
  dotless s1 -> dotless s2 ->
  alias +:+ "." +:+ s1 +:+ "." +:+ f1 = alias +:+ "." +:+ s2 +:+ "." +:+ f2 -> s1 = s2 /\ f1 = f2.
Proof.
  intros H1 H2 He. apply (f_equal bytes_of) in He. rewrite !bytes_of_app in He.
  apply app_inv_head, app_inv_head in He.
  change (bytes_of ".") with ["."%char] in He. cbn [app] in He.
  apply (f_equal (split_once ".")) in He. rewrite !split_once_app in He by done.
  injection He as Hs Hf. split; by apply bytes_of_inj.
Qed.

(** A name published for another function is not the qualified name of this
    one. *)
Lemma publish_names_qualified alias s f s' f' :
  dotless s -> dotless s' -> dotless f' ->
  alias +:+ "." +:+ s +:+ "." +:+ f ∈ publish_names alias s' f' -> s' = s /\ f' = f.
Proof.
  intros Hs Hs' Hf' Hin. unfold publish_names in Hin.
  apply elem_of_cons in Hin as [He|Hin]; [by apply qualified_inj in He as [-> ->]|].
  exfalso. 
  assert (forall x, "."%char ∈ bytes_of (x +:+ "." +:+ s +:+ "." +:+ f)) as Hdot.
  { intros x. rewrite !bytes_of_app. change (bytes_of ".") with ["."%char]. set_solver. }
  apply elem_of_cons in Hin as [He|Hin].
  - apply (f_equal bytes_of) in He. rewrite !bytes_of_app in He. apply app_inv_head, app_inv_head in He.
    apply Hf'. rewrite <- He. change (bytes_of ".") with ["."%char]. set_solver.
  - apply elem_of_cons in Hin as [He|Hin].
    + apply (f_equal bytes_of) in He. rewrite !bytes_of_app in He. apply app_inv_head in He. discriminate He.
    + apply list_elem_of_singleton in Hin. apply Hf'. rewrite <- Hin. apply Hdot.
Qed.

(** The functions a schema list offers under a kind. *)
Definition offers (kind : FunctionKind) (fs : @SchemaFunctions ArgSpecs) : list string :=
  match kind with
  | FTable => (table_functions fs).*1 | FScalar => scalars fs | FAggregate => (aggregates fs).*1
  end.
Definition dotless_schemas (schemas : list (string * @SchemaFunctions ArgSpecs)) : Prop :=
  forall schema fs, (schema, fs) ∈ schemas ->
    dotless schema /\ forall kind f, f ∈ offers kind fs -> dotless f.

(** The publications of one function surface have targets in the catalog, and
    publish the names of a function the schema offers. *)
Definition published_as (catalog alias : string) (schemas : list (string * @SchemaFunctions ArgSpecs))
    (p : Publication) : Prop :=
  exists schema fs f, (schema, fs) ∈ schemas /\ f ∈ offers (p_key p).1 fs
    /\ (p_key p).2 ∈ publish_names alias schema f /\ p_target p = (catalog, schema, f).

Lemma offered_publications catalog alias schemas p :
  p ∈ table_publications declarations catalog alias schemas ++ scalar_publications catalog alias schemas
      ++ aggregate_publications minimum_positional_arity catalog alias schemas ->
  published_as catalog alias schemas p.
Proof.
  intros [Hp|[Hp|Hp]%elem_of_app]%elem_of_app.
  - apply list_elem_of_bind in Hp as ([schema fs] & Hp & Hs).
    apply list_elem_of_bind in Hp as ([f specs] & Hp & Hf).
    apply list_elem_of_bind in Hp as (name & Hp%list_elem_of_singleton & Hn). subst p.
    exists schema, fs, f. split_and!; try done. apply list_elem_of_fmap. by exists (f, specs).
  - apply list_elem_of_bind in Hp as ([schema fs] & Hp & Hs).
    apply list_elem_of_bind in Hp as (f & Hp & Hf).
    apply list_elem_of_bind in Hp as (name & Hp%list_elem_of_singleton & Hn). subst p.
    by exists schema, fs, f.
  - apply list_elem_of_bind in Hp as ([schema fs] & Hp & Hs).
    apply list_elem_of_bind in Hp as ([f specs] & Hp & Hf).
    apply list_elem_of_bind in Hp as (name & Hp%list_elem_of_singleton & Hn). subst p.
    exists schema, fs, f. split_and!; try done. apply list_elem_of_fmap. by exists (f, specs).
Qed.

Lemma publication_offered catalog alias schemas kind schema fs f name :
  (schema, fs) ∈ schemas -> f ∈ offers kind fs -> name ∈ publish_names alias schema f ->
  exists p, p ∈ table_publications declarations catalog alias schemas ++ scalar_publications catalog alias schemas
      ++ aggregate_publications minimum_positional_arity catalog alias schemas /\ p_key p = (kind, name).
Proof.
  intros Hs Hf Hn. destruct kind; cbn [offers] in Hf.
  - exists (mkPublication (FScalar, name) (catalog, schema, f) false ∅). split; [|done].
    apply elem_of_app; right; apply elem_of_app; left.
    apply list_elem_of_bind. exists (schema, fs). split; [|done].
    apply list_elem_of_bind. exists f. split; [|done].
    apply list_elem_of_bind. exists name. split; [|done]. by apply list_elem_of_singleton.
  - apply list_elem_of_fmap in Hf as ([f' specs] & -> & Hf).
    exists (mkPublication (FAggregate, name) (catalog, schema, f') (nullary minimum_positional_arity specs) ∅).
    split; [|done]. apply elem_of_app; right; apply elem_of_app; right.
    apply list_elem_of_bind. exists (schema, fs). split; [|done].
    apply list_elem_of_bind. exists (f', specs). split; [|done].
    apply list_elem_of_bind. exists name. split; [|done]. by apply list_elem_of_singleton.
  - apply list_elem_of_fmap in Hf as ([f' specs] & -> & Hf).
    exists (mkPublication (FTable, name) (catalog, schema, f') false
              (match specs with Some specs => named_arguments declarations specs | None => ∅ end)).
    split; [|done]. apply elem_of_app; left.
    apply list_elem_of_bind. exists (schema, fs). split; [|done].
    apply list_elem_of_bind. exists (f', specs). split; [|done].
    apply list_elem_of_bind. exists name. split; [|done]. by apply list_elem_of_singleton.
Qed.

Lemma first_some_Some {A C} (g : A -> option C) l y :
  first_some g l = Some y -> exists x, x ∈ l /\ g x = Some y.
Proof.
  induction l as [|x l IH]; simpl; [done|]. destruct (g x) eqn:Hg.
  - intros [= <-]. exists x. split; [left|done].
  - intros H. destruct (IH H) as (x' & ? & ?). exists x'. split; [by right|done].
Qed.
Lemma first_some_app {A C} (g : A -> option C) l k :
  first_some g (l ++ k) = match first_some g l with Some y => Some y | None => first_some g k end.
Proof. induction l as [|x l IH]; simpl; [done|]. by destruct (g x). Qed.
Lemma first_some_None {A C} (g : A -> option C) l x : first_some g l = None -> x ∈ l -> g x = None.
Proof.
  induction l as [|y l IH]; intros Hn Hx; [by apply not_elem_of_nil in Hx|]. simpl in Hn.
  destruct (g y) eqn:Hg; [done|]. apply elem_of_cons in Hx as [->|Hx]; [done|by apply IH].
Qed.

(** The fully qualified name of a published function reaches that function:
    after attaching, [alias.schema.function] resolves to the worker's function
    of that schema, for scalar, aggregate and table functions alike, whatever
    the catalog publishes elsewhere, unless another owner held the name. *)
Theorem qualified_name_resolves (s : Registry) (catalog alias : string)
    (schemas : list (string * SchemaFunctions)) (gs : list PreparedGlobalFunction)
    (kind : FunctionKind) (schema : string) (fs : SchemaFunctions) (f : string) :
  dotless_schemas schemas -> (schema, fs) ∈ schemas -> f ∈ offers kind fs ->
  let k := (kind, alias +:+ "." +:+ schema +:+ "." +:+ f) in
  functions (deregister_alias_functions s alias) !! k = None ->
  target <$> functions (publish_catalog s catalog alias schemas gs).1 !! k
  = Some (Some (catalog, schema, f)).
Proof.
  intros Hdl Hs Hf k Hk. rewrite publish_catalog_fold, publications_first by done.
  unfold catalog_publications. rewrite !app_assoc, first_some_app, <- app_assoc.
  destruct (first_some _ (table_publications _ _ _ _ ++ _)) as [p|] eqn:Hfirst.
  - apply first_some_Some in Hfirst as (p' & Hin & Hp). case_bool_decide as Hkey; [|done]. injection Hp as ->.
    apply offered_publications in Hin as (schema' & fs' & f' & Hs' & Hf' & Hname & Ht).
    rewrite Hkey in Hname, Hf'. cbn [fst snd k] in Hname, Hf'.
    destruct (Hdl _ _ Hs) as [Hd _]. destruct (Hdl _ _ Hs') as [Hd' Hfd'].
    apply publish_names_qualified in Hname as [-> ->]; [|done|done|by apply (Hfd' kind)].
    simpl. by rewrite Ht.
  - exfalso. destruct (publication_offered catalog alias schemas kind schema fs f (k.2)) as (p & Hp & Hpk);
      [done|done|by left|].
    pose proof (first_some_None _ _ p Hfirst Hp) as Hn. cbv beta in Hn. by rewrite bool_decide_eq_true_2 in Hn.
Qed.
End Publish.

(** ** Examples *)

Definition ex_registry : Registry :=
  mkRegistry {[ (FScalar, "abs") := mkImpl 0 None ]} ∅ 1.
Lemma ex_registry_pristine : pristine ex_registry.
Proof.
  split; [done|]. cbn [ex_registry functions next_owner]. intros k im [_ <-]%lookup_singleton_Some. split; [simpl; lia|done].
Qed.
(** Argument declarations of the examples: names, and the count of positional
    ones. *)
Definition ex_schemas : list (string * @SchemaFunctions (list ArgSpec)) :=
  [("main", mkSchema [("sequence", Some [mkArgSpec "Step" true])] ["abs"; "double"] [("total", [])])].
Abbreviation ex_publish := (publish_catalog (ArgSpecs := list ArgSpec) id length ex_registry "example" "ex" ex_schemas []).

Example ex_published :
  functions ex_publish.1 !! (FScalar, "abs") = Some (mkImpl 0 None)
  /\ is_declared_named_table_argument ex_publish.1 "EX.sequence" "STEP" = true
  /\ is_declared_nullary_aggregate ex_publish.1 "total" = true.
Proof. vm_compute. auto. Qed.

(** The user replaces the published [double]; re-attaching and detaching leave
    the user's function alone, and take back [sequence]. *)
Abbreviation ex_replaced := (user_registers ex_publish.1 (FScalar, "double")).
Lemma publication_keeps_foreign_witness :
  exists im, functions ex_replaced !! (FScalar, "double") = Some im
  /\ functions (publish_catalog (ArgSpecs := list ArgSpec) id length ex_replaced "example" "EX" ex_schemas []).1 !! (FScalar, "double") = Some im
  /\ functions (deregister_alias_functions ex_replaced "EX") !! (FScalar, "double") = Some im
  /\ functions (deregister_alias_functions ex_replaced "EX") !! (FTable, "sequence") = None.
Proof.
  assert (rtc (registry_step (ArgSpecs := list ArgSpec) id length) ex_registry ex_replaced) as Hr.
  { eapply rtc_l; [apply (step_attach id length ex_registry "example" "ex" ex_schemas [])|].
    eapply rtc_l; [apply step_user_registers|apply rtc_refl]. }
  eexists. split; [vm_compute; reflexivity|].
  edestruct (publication_keeps_foreign (ArgSpecs := list ArgSpec) id length ex_registry ex_replaced "example" "EX" ex_schemas []
    (FScalar, "double")) as (Hf & _); [apply ex_registry_pristine|exact Hr|vm_compute; reflexivity|].
  destruct Hf as [Hpub Hder]; [by left|]. split; [exact Hpub|]. split; [exact Hder|].
  edestruct (publication_keeps_foreign (ArgSpecs := list ArgSpec) id length ex_registry ex_replaced "example" "EX" ex_schemas []
    (FTable, "sequence")) as (_ & Hown & _); [apply ex_registry_pristine|exact Hr|vm_compute; reflexivity|].
  apply Hown. vm_compute. reflexivity.
Defined.

Lemma qualified_name_resolves_witness :
  target <$> functions ex_publish.1 !! (FScalar, "ex.main.abs") = Some (Some ("example", "main", "abs")).
Proof.
  apply (qualified_name_resolves id length ex_registry "example" "ex" ex_schemas [] FScalar "main"
    (mkSchema [("sequence", Some [mkArgSpec "Step" true])] ["abs"; "double"] [("total", [])]) "abs").
  - intros schema fs [= -> ->]%list_elem_of_singleton. split; [by_decide|].
    intros kind f Hf. assert (Forall dotless (offers kind
      (mkSchema [("sequence", Some [mkArgSpec "Step" true])] ["abs"; "double"] [("total", [])]))) as Hall.
    { destruct kind; repeat constructor; by_decide. }
    by apply (proj1 (Forall_forall _ _) Hall).
  - by left.
  - left.
  - vm_compute. reflexivity.
Defined.
