(* ===== verification/SqlTree.v ===== *)
(** * SQL syntax trees

    sqlparser's syntax trees as far as session.rs inspects them: identifiers,
    calls and their arguments, equalities, table factors and queries with their
    common table expressions; every other node keeps its children in visiting
    order under a tag. Also the visitor the expansion of macros is written
    with, and a monad for computations that may run out of fuel. *)

From S2P Require Import Prelude Text.

(** ** Trees *)

(** [ObjectNamePart]: an identifier or something else. *)
Inductive NamePart := PartIdent (s : string) | PartOther (s : string).
Abbreviation ObjectName := (list NamePart).
#[export] Instance NamePart_eq_dec : EqDecision NamePart.
Proof. solve_decision. Defined.

Definition as_ident (p : NamePart) : option string :=
  match p with PartIdent s => Some s | PartOther _ => None end.
Definition part_text (p : NamePart) : string := match p with PartIdent s | PartOther s => s end.
Definition dots (ss : list string) : string := String.concat "." ss.
Definition name_text (n : ObjectName) : string := dots (map part_text n).

(** How an argument is named: [f(e)], [Named] ([f(s => e)]) or [ExprNamed]. *)
Inductive ArgName (N : Type) := Unnamed | Named (s : string) | ExprNamed (n : N).
Arguments Unnamed {N}.
Arguments Named {N} s.
Arguments ExprNamed {N} n.

(** The value of an argument is [None] for a wildcard; the argument list of a
    call is [None] for a call without one. [modified] says that a call has a
    DISTINCT, FILTER, OVER, WITHIN GROUP, parameter or argument clause;
    [extras] that a table factor has one of the clauses macros refuse.
    [suffix] stands for a factor's alias and sample. *)
Inductive node :=
  | Ident (s : string)
  | Call (name : ObjectName) (args : option (list (ArgName node * option node))) (modified : bool)
  | BinaryEq (l r : node)
  | Expr (tag : string) (children : list node)
  | Table (name : ObjectName) (args : option (list (ArgName node * option node)))
      (suffix : string) (extras : bool)
  | Derived (query : node) (suffix : string)
  | Query (recursive : bool) (ctes : list (string * node)) (body : list node)
  | Other (tag : string) (children : list node).
Abbreviation FunctionArg := (ArgName node * option node)%type.

(** A property of the nodes of an argument. *)
Definition arg_all (P : node -> Prop) (a : FunctionArg) : Prop :=
  match a.1 with ExprNamed n => P n | _ => True end /\ match a.2 with Some n => P n | None => True end.
Definition args_all (P : node -> Prop) (args : option (list FunctionArg)) : Prop :=
  match args with Some l => Forall (arg_all P) l | None => True end.
(** The children of a node. *)
Definition children_all (P : node -> Prop) (n : node) : Prop :=
  match n with
  | Ident _ => True
  | Call _ args _ | Table _ args _ _ => args_all P args
  | BinaryEq l r => P l /\ P r
  | Expr _ ns | Other _ ns => Forall P ns
  | Derived q _ => P q
  | Query _ ctes body => Forall (fun c => P c.2) ctes /\ Forall P body
  end.

Lemma arg_all_impl (P Q : node -> Prop) a : (forall m, P m -> Q m) -> arg_all P a -> arg_all Q a.
Proof. intros H [Hn Hv]. split; [destruct a.1|destruct a.2]; auto. Qed.
Lemma children_all_impl (P Q : node -> Prop) n :
  (forall m, P m -> Q m) -> children_all P n -> children_all Q n.
Proof.
  intros H. assert (forall args, args_all P args -> args_all Q args) as Hargs.
  { intros [l|]; simpl; [|done]. intros Hl. eapply Forall_impl; [exact Hl|]. intros a. by apply arg_all_impl. }
  assert (forall l, Forall P l -> Forall Q l) as Hl by (intros l Hl; by eapply Forall_impl).
  destruct n; simpl; auto.
  - intros []; auto.
  - intros [Hc Hb]. split; [|auto]. eapply Forall_impl; [exact Hc|]. intros c; apply H.
Qed.
Lemma children_all_and (P Q : node -> Prop) n :
  children_all P n -> children_all Q n -> children_all (fun m => P m /\ Q m) n.
Proof.
  assert (forall args, args_all P args -> args_all Q args -> args_all (fun m => P m /\ Q m) args) as Hargs.
  { intros [l|]; simpl; [|done]. intros H1 H2. pose proof (conj H1 H2) as H. apply Forall_and in H. eapply Forall_impl; [exact H|].
    intros [nm v] [[? ?] [? ?]]. split; simpl in *; [by destruct nm|by destruct v]. }
  assert (forall l, Forall P l -> Forall Q l -> Forall (fun m => P m /\ Q m) l) as Hl
    by (intros; by apply Forall_and).
  destruct n; simpl; auto.
  - intros [] []; auto.
  - intros [H1 H2] [H3 H4]. split; [|auto]. by apply Forall_and.
Qed.
Lemma children_all_true (P : node -> Prop) n : (forall m, P m) -> children_all P n.
Proof.
  intros H. assert (forall args, args_all P args) as Hargs.
  { intros [l|]; simpl; [|done]. apply Forall_true. intros [nm v]. split; simpl; [destruct nm|destruct v]; auto. }
  destruct n; simpl; auto using Forall_true.
Qed.

(** Structural induction through the lists of children. *)
Lemma node_children_ind (P : node -> Prop) :
  (forall n, children_all P n -> P n) -> forall n, P n.
Proof.
  intros Hstep. fix IH 1. intros n. apply Hstep.
  assert (forall l : list node, Forall P l) as Hlist.
  { fix go 1. intros [|m l]; constructor; [apply IH|apply go]. }
  assert (forall args, args_all P args) as Hargs.
  { intros [l|]; [|exact I]. simpl. revert l. fix go 1. intros [|[a v] l]; constructor; [|apply go].
    split; simpl; [destruct a as [| |m]; try exact I; apply IH|destruct v as [m|]; [apply IH|exact I]]. }
  destruct n as [s|name args m|l r|tag ns|name args sfx ex|q sfx|rec ctes body|tag ns]; simpl;
    try exact I; try apply Hargs; try apply Hlist; try apply IH.
  - split; apply IH.
  - split; [|apply Hlist]. revert ctes. fix go 1. intros [|[a c] l]; constructor; [apply IH|apply go].
Qed.

(** ** Computations with fuel *)

(** [None] is running out of fuel. *)
Abbreviation fueled A := (option (result A)).
Definition fuel_bind {A C} (m : fueled A) (k : A -> fueled C) : fueled C :=
  match m with None => None | Some (Err e) => Some (Err e) | Some (Ok a) => k a end.
Declare Scope fuel_scope.
Delimit Scope fuel_scope with fuel.
Notation "x <~ m ; k" := (fuel_bind m (fun x => k))
  (at level 20, m at level 100, k at level 200, right associativity) : fuel_scope.
Notation "' x <~ m ; k" := (fuel_bind m (fun x => k))
  (at level 20, x strict pattern, m at level 100, k at level 200, right associativity) : fuel_scope.
#[local] Open Scope fuel_scope.

Definition fuel_map {A C} (f : A -> fueled C) : list A -> fueled (list C) :=
  fix go l := match l with
              | [] => Some (Ok [])
              | x :: l => y <~ f x; ys <~ go l; Some (Ok (y :: ys))
              end.
Definition fuel_option {A C} (f : A -> fueled C) (o : option A) : fueled (option C) :=
  match o with Some x => y <~ f x; Some (Ok (Some y)) | None => Some (Ok None) end.

(** ** The expression visitor *)

(** Apply [visit] to the children of a node, left to right. *)
Definition visit_args (visit : node -> fueled node) (args : option (list FunctionArg))
    : fueled (option (list FunctionArg)) :=
  fuel_option (fuel_map (fun a =>
    name <~ match a.1 with
            | ExprNamed n => n <~ visit n; Some (Ok (ExprNamed n))
            | Named s => Some (Ok (Named s))
            | Unnamed => Some (Ok Unnamed)
            end;
    value <~ fuel_option visit a.2;
    Some (Ok (name, value)))) args.

Definition is_expr (n : node) : bool :=
  match n with Ident _ | Call _ _ _ | BinaryEq _ _ | Expr _ _ => true | _ => false end.

(** [VisitorMut] with only [post_visit_expr]: the children first, then the
    replacement of the expression by [post], which is not visited again. *)
Section Visit.
Variable post : node -> fueled (option node).

Definition finish (n : node) : fueled node :=
  if is_expr n then r <~ post n; Some (Ok (default n r)) else Some (Ok n).

Fixpoint visit_exprs (n : node) : fueled node :=
  match n with
  | Ident s => finish (Ident s)
  | Call name args m => args <~ visit_args visit_exprs args; finish (Call name args m)
  | BinaryEq l r => l <~ visit_exprs l; r <~ visit_exprs r; finish (BinaryEq l r)
  | Expr tag ns => ns <~ fuel_map visit_exprs ns; finish (Expr tag ns)
  | Table name args sfx ex => args <~ visit_args visit_exprs args; finish (Table name args sfx ex)
  | Derived q sfx => q <~ visit_exprs q; finish (Derived q sfx)
  | Query rec ctes body =>
      ctes <~ fuel_map (fun c => q <~ visit_exprs c.2; Some (Ok (c.1, q))) ctes;
      body <~ fuel_map visit_exprs body; finish (Query rec ctes body)
  | Other tag ns => ns <~ fuel_map visit_exprs ns; finish (Other tag ns)
  end.
End Visit.

(** ** Reasoning about fueled computations *)

(** The computation ends, with an error only if [E] holds of it; any result
    satisfies [Q]. *)
Definition safe (E : DFError -> Prop) {A} (m : fueled A) : Prop :=
  match m with None => False | Some (Err e) => E e | Some (Ok _) => True end.
Abbreviation ends := (safe (fun _ => True)).
Abbreviation succeeds := (safe (fun _ => False)).
Definition yields {A} (Q : A -> Prop) (m : fueled A) : Prop := forall a, m = Some (Ok a) -> Q a.

Lemma safe_bind {A C} E (m : fueled A) (k : A -> fueled C) :
  safe E m -> (forall a, m = Some (Ok a) -> safe E (k a)) -> safe E (x <~ m; k x).
Proof. destruct m as [[a|e]|]; simpl; [|done|done]. intros _ Hk. by apply Hk. Qed.
Lemma fuel_yields_bind {A C} (Q : A -> Prop) (R : C -> Prop) (m : fueled A) (k : A -> fueled C) :
  yields Q m -> (forall a, Q a -> yields R (k a)) -> yields R (x <~ m; k x).
Proof.
  unfold yields. destruct m as [[a|e]|]; simpl; try done. intros Hm Hk c Hc. eapply Hk; [|done]. by apply Hm.
Qed.
Lemma fuel_yields_ret {C} (R : C -> Prop) c : R c -> yields R (Some (Ok c)).
Proof. by intros Hr c' [= <-]. Qed.
Lemma yields_err {C} (R : C -> Prop) e : yields R (Some (Err e)).
Proof. by intros c'. Qed.

Lemma safe_map {A C} E (f : A -> fueled C) l : Forall (fun x => safe E (f x)) l -> safe E (fuel_map f l).
Proof.
  induction 1 as [|x l Hx Hl IH]; [done|]. simpl. apply safe_bind; [done|]. intros y _.
  by apply safe_bind.
Qed.
Lemma yields_map {A C} (R : C -> Prop) (f : A -> fueled C) l :
  Forall (fun x => yields R (f x)) l -> yields (Forall R) (fuel_map f l).
Proof.
  induction 1 as [|x l Hx Hl IH]; simpl; [by apply fuel_yields_ret|].
  eapply fuel_yields_bind; [exact Hx|]. intros y Hy. eapply fuel_yields_bind; [exact IH|].
  intros ys Hys. apply fuel_yields_ret. by constructor.
Qed.
Lemma safe_option {A C} E (f : A -> fueled C) o : (forall x, o = Some x -> safe E (f x)) -> safe E (fuel_option f o).
Proof. destruct o as [x|]; simpl; [|done]. intros H. apply safe_bind; [by apply H|done]. Qed.
Lemma succeeds_Ok {A} (m : fueled A) : succeeds m -> exists a, m = Some (Ok a).
Proof. destruct m as [[a|]|]; simpl; try done. eauto. Qed.

Section VisitFacts.
Variable post : node -> fueled (option node).

Lemma safe_args E (v : node -> fueled node) args :
  args_all (fun n => safe E (v n)) args -> safe E (visit_args v args).
Proof.
  intros Ha. apply safe_option. intros l ->. apply safe_map. simpl in Ha.
  eapply Forall_impl; [exact Ha|]. intros [nm val] [Hn Hv]; simpl in *.
  apply safe_bind.
  - destruct nm; try done. by apply safe_bind.
  - intros nm' _. apply safe_bind; [|done]. apply safe_option. by intros x ->.
Qed.
Lemma yields_args (R : node -> Prop) (v : node -> fueled node) args :
  args_all (fun n => yields R (v n)) args -> yields (args_all R) (visit_args v args).
Proof.
  destruct args as [l|]; simpl; [|by intros _; apply fuel_yields_ret]. intros Ha.
  apply (fuel_yields_bind (Forall (arg_all R))); [|intros l' Hl'; by apply fuel_yields_ret].
  apply yields_map. eapply Forall_impl; [exact Ha|]. intros [nm val] [Hn Hv]; simpl in *.
  apply (fuel_yields_bind (fun nm => match nm with ExprNamed n => R n | _ => True end)).
  - destruct nm as [|s|n]; [by apply fuel_yields_ret..|]. eapply fuel_yields_bind; [exact Hn|]. intros n' ?. by apply fuel_yields_ret.
  - intros nm' Hnm'. apply (fuel_yields_bind (fun val => match val with Some n => R n | None => True end)).
    + destruct val as [n|]; simpl; [|by apply fuel_yields_ret]. eapply fuel_yields_bind; [exact Hv|]. intros n' ?. by apply fuel_yields_ret.
    + intros val' Hval'. by apply fuel_yields_ret.
Qed.

(** The visit ends if [post] does; its results satisfy what [post] establishes
    from the children. *)
Lemma visit_exprs_safe E n : (forall m, safe E (post m)) -> safe E (visit_exprs post n).
Proof.
  intros Hp. assert (forall m, safe E (finish post m)) as Hf.
  { intros m. unfold finish. destruct (is_expr m); [|done]. by apply safe_bind. }
  induction n as [n IH] using node_children_ind.
  destruct n as [s|name args m|l r|tag ns|name args sfx ex|q sfx|rec ctes body|tag ns]; simpl in IH |- *.
  - apply Hf.
  - apply safe_bind; [by apply safe_args|intros; apply Hf].
  - apply safe_bind; [by apply IH|]. intros. apply safe_bind; [by apply IH|intros; apply Hf].
  - apply safe_bind; [by apply safe_map|intros; apply Hf].
  - apply safe_bind; [by apply safe_args|intros; apply Hf].
  - apply safe_bind; [by apply IH|intros; apply Hf].
  - apply safe_bind.
    + apply safe_map. eapply Forall_impl; [apply IH|]. intros c Hc. by apply safe_bind.
    + intros. apply safe_bind; [apply safe_map, IH|intros; apply Hf].
  - apply safe_bind; [by apply safe_map|intros; apply Hf].
Qed.

Lemma visit_exprs_yields (R : node -> Prop) n :
  (forall m, children_all R m -> is_expr m = true ->
     yields (fun r => R (default m r)) (post m)) ->
  (forall m, children_all R m -> is_expr m = false -> R m) ->
  yields R (visit_exprs post n).
Proof.
  intros Hp Hn. assert (forall m, children_all R m -> yields R (finish post m)) as Hf.
  { intros m Hm. unfold finish. destruct (is_expr m) eqn:He; [|apply fuel_yields_ret; by apply Hn].
    eapply fuel_yields_bind; [by apply Hp|]. intros r Hr. by apply fuel_yields_ret. }
  induction n as [n IH] using node_children_ind.
  destruct n as [s|name args m|l r|tag ns|name args sfx ex|q sfx|rec ctes body|tag ns]; simpl in IH |- *.
  - by apply Hf.
  - eapply fuel_yields_bind; [by apply yields_args|]. intros args' Ha. by apply Hf.
  - eapply fuel_yields_bind; [by apply IH|]. intros l' Hl. eapply fuel_yields_bind; [by apply IH|]. intros r' Hr. by apply Hf.
  - eapply fuel_yields_bind; [by apply yields_map|]. intros ns' Ha. by apply Hf.
  - eapply fuel_yields_bind; [by apply yields_args|]. intros args' Ha. by apply Hf.
  - eapply fuel_yields_bind; [by apply IH|]. intros q' Hq. by apply Hf.
  - destruct IH as [IHc IHb]. apply (fuel_yields_bind (Forall (fun c : string * node => R c.2))).
    + apply yields_map. eapply Forall_impl; [exact IHc|]. intros c Hc.
      eapply fuel_yields_bind; [exact Hc|]. intros q Hq. by apply fuel_yields_ret.
    + intros ctes' Hc. eapply fuel_yields_bind; [by apply yields_map|]. intros body' Hb. by apply Hf.
  - eapply fuel_yields_bind; [by apply yields_map|]. intros ns' Ha. by apply Hf.
Qed.
End VisitFacts.
