(* ===== verification/Macros.v ===== *)
(** * SQL macros

    A worker declares macros; session.rs keeps the families of an attached
    catalog under their qualified names and replaces calls by their bodies:
    binding of arguments, choice of an overload, substitution, and expansion of
    scalar macros with detection of recursion. *)

From S2P Require Import Prelude Text AttachSql SqlTree.

#[local] Open Scope fuel_scope.

(** ** Declarations *)

Inductive SqlMacroKind := Scalar | TableMacro.
#[export] Instance SqlMacroKind_eq_dec : EqDecision SqlMacroKind.
Proof. solve_decision. Defined.

(** The body of a macro: an expression, a query, or why it is unusable. *)
Inductive SqlMacroBody :=
  | ScalarBody (e : node)
  | TableBody (q : node)
  | Invalid (reason : string).

Section Macros.
(** Values of parameter defaults (one-element Arrow arrays). *)
Context {Value : Type}.

Record SqlMacro := mkMacro {
  kind : SqlMacroKind;
  parameters : list string;
  defaults : gmap string Value;
  body : SqlMacroBody;
}.
Abbreviation SqlMacroFamily := (list SqlMacro).

Definition debug_text (s : string) : string := debug (bytes_of s).

Definition sql_macro_kind (value : string) : SqlMacroKind + string :=
  let v := to_ascii_lowercase value in
  if vec_contains v ["scalar"; "scalar_macro"; "macro"] then inl Scalar
  else if vec_contains v ["table"; "table_macro"] then inl TableMacro
  else inr ("unsupported macro type " +:+ debug_text v).

(** [parse_macro_body], given the statements the parser returned: each is a
    query, with the expressions of its projection if it is a SELECT, or another
    statement. [select_text] renders a query whose body is a SELECT of [e]
    only, [query_text] any query. *)
Record ParsedQuery := mkParsedQuery {
  pq_query : node;
  (** [None]: not a SELECT; the items of the projection, [Some e] for an
      unnamed expression. *)
  pq_projection : option (list (option node));
  pq_text : string;
}.
Definition parse_macro_body (expr_text : node -> string) (k : SqlMacroKind)
    (parsed : list (option ParsedQuery) + string) : SqlMacroBody :=
  match parsed with
  | inr error => Invalid error
  | inl [statement] =>
      match statement with
      | None => Invalid "definition is not a SQL query"
      | Some q =>
          match k with
          | TableMacro => TableBody (pq_query q)
          | Scalar =>
              match pq_projection q with
              | None => Invalid "scalar definition is not a SELECT expression"
              | Some [Some e] =>
                  if String.eqb (pq_text q) ("SELECT " +:+ expr_text e) then ScalarBody e
                  else Invalid "scalar definition must contain only one expression"
              | Some _ => Invalid "scalar definition must contain exactly one unnamed expression"
              end
          end
      end
  | inl _ => Invalid "definition must contain exactly one statement"
  end.

(** [macro_key]: two- and three-part names of identifiers. *)
Definition macro_key (name : ObjectName) : option string :=
  path ← option_collect as_ident name;
  if (length path =? 2)%nat || (length path =? 3)%nat then Some (to_ascii_lowercase (dots path)) else None.

(** The macros of the session, by key. *)
Variable macros : gmap string SqlMacroFamily.
Definition lookup_macro (name : ObjectName) : option SqlMacroFamily :=
  key ← macro_key name; macros !! key.

(** [macro_default_expr]: DataFusion's unparser of literals. *)
Variable macro_default_expr : Value -> result node.

(** ** Binding *)

Definition is_parameter (info : SqlMacro) (name : string) : bool :=
  existsb (fun p => eq_ignore_ascii_case p name) (parameters info).

(** The name, if any, and the expression of one argument. *)
Definition named_or_positional (name : ObjectName) (info : SqlMacro) (a : FunctionArg)
    : result (option string * node) :=
  let wildcard := Err (Plan ("VGI macro `" +:+ name_text name +:+ "` does not accept wildcard arguments")) in
  match a with
  | (Named s, Some e) => Ok (Some s, e)
  | (Named _, None) => wildcard
  | (ExprNamed (Ident s), Some e) => Ok (Some s, e)
  | (ExprNamed (Ident _), None) => wildcard
  | (ExprNamed _, _) =>
      Err (Plan ("VGI macro `" +:+ name_text name +:+ "` requires identifier argument names"))
  | (Unnamed, Some (BinaryEq (Ident s) r)) =>
      if is_parameter info s then Ok (Some s, r) else Ok (None, BinaryEq (Ident s) r)
  | (Unnamed, Some e) => Ok (None, e)
  | (Unnamed, None) => wildcard
  end.

(** The state of the binding loop. *)
Record Binding := mkBinding { actual : list (option node); positional : nat; saw_named : bool }.

Definition bind_argument (name : ObjectName) (info : SqlMacro) (b : Binding) (a : FunctionArg)
    : result Binding :=
  '(named, e) ← named_or_positional name info a;
  match named with
  | Some s =>
      match position (fun p => eq_ignore_ascii_case p s) (parameters info) with
      | None => Err (Plan ("VGI macro `" +:+ name_text name +:+ "` has no parameter named `" +:+ s +:+ "`"))
      | Some i =>
          match actual b !! i with
          | Some None => Ok (mkBinding (<[i := Some e]> (actual b)) (positional b) true)
          | _ => Err (Plan ("VGI macro `" +:+ name_text name +:+ "` received parameter `"
                            +:+ default "" (parameters info !! i) +:+ "` more than once"))
          end
      end
  | None =>
      if saw_named b
      then Err (Plan ("VGI macro `" +:+ name_text name
                      +:+ "` does not accept positional arguments after named arguments"))
      else if (length (actual b) <=? positional b)%nat
      then Err (Plan ("VGI macro `" +:+ name_text name +:+ "` expects at most "
                      +:+ pretty (length (actual b)) +:+ " argument(s), received more"))
      else Ok (mkBinding (<[positional b := Some e]> (actual b)) (S (positional b)) false)
  end.
Fixpoint bind_arguments (name : ObjectName) (info : SqlMacro) (b : Binding) (args : list FunctionArg)
    : result Binding :=
  match args with
  | [] => Ok b
  | a :: args => b ← bind_argument name info b a; bind_arguments name info b args
  end.

(** The second loop: defaults, and the names of the missing parameters. *)
Fixpoint fill_defaults (info : SqlMacro) (ps : list string) (actual : list (option node))
    : result (list node * list string) :=
  match ps, actual with
  | p :: ps, a :: actual =>
      match a with
      | Some e => '(es, missing) ← fill_defaults info ps actual; Ok (e :: es, missing)
      | None =>
          match defaults info !! to_ascii_lowercase p with
          | Some v => e ← macro_default_expr v;
                      '(es, missing) ← fill_defaults info ps actual; Ok (e :: es, missing)
          | None => '(es, missing) ← fill_defaults info ps actual; Ok (es, p :: missing)
          end
      end
  | _, _ => Ok ([], [])
  end.

Definition bind_macro_arguments (name : ObjectName) (info : SqlMacro) (args : list FunctionArg)
    : result (list node) :=
  b ← bind_arguments name info (mkBinding (replicate (length (parameters info)) None) 0 false) args;
  '(es, missing) ← fill_defaults info (parameters info) (actual b);
  match missing with
  | [] => Ok es
  | _ => Err (Plan ("VGI macro `" +:+ name_text name +:+ "` is missing required argument(s): "
                    +:+ String.concat ", " missing))
  end.

(** The text of an error value, as [to_string] of [DataFusionError::Plan]. *)
Definition error_text (e : DFError) : string :=
  match e with
  | Plan m => "Error during planning: " +:+ m
  | Execution m => "Execution error: " +:+ m
  | NotImplemented m => "This feature is not implemented: " +:+ m
  | Configuration m => "Invalid or Unsupported Configuration: " +:+ m
  | External m => "External error: " +:+ m
  | Internal m => "Internal error: " +:+ m
  | ArrowError m => "Arrow error: " +:+ m
  | Panicked m => m
  end.

(** Binding each candidate overload: the matches and the failures, in order. *)
Fixpoint bind_candidates (name : ObjectName) (candidates : SqlMacroFamily) (args : list FunctionArg)
    : list (SqlMacro * list node) * list string :=
  match candidates with
  | [] => ([], [])
  | c :: cs =>
      let '(ms, fs) := bind_candidates name cs args in
      match bind_macro_arguments name c args with
      | Ok a => ((c, a) :: ms, fs)
      | Err e => (ms, error_text e :: fs)
      end
  end.

Definition bind_macro_overload (name : ObjectName) (family : SqlMacroFamily) (k : SqlMacroKind)
    (args : list FunctionArg) : result (SqlMacro * list node) :=
  match filter (fun m => kind m = k) family with
  | [] => let other := match k with Scalar => "table" | TableMacro => "scalar" end in
          Err (Plan ("VGI " +:+ other +:+ " macro `" +:+ name_text name +:+ "` cannot be used in this context"))
  | candidates =>
      match bind_candidates name candidates args with
      | ([m], _) => Ok m
      | ([], failures) =>
          if (length family =? 1)%nat
          then Err (Plan (List.last failures ("VGI macro `" +:+ name_text name +:+ "` has no usable overload")))
          else Err (Plan ("VGI macro `" +:+ name_text name +:+ "` has no overload matching these arguments ("
                          +:+ String.concat "; " failures +:+ ")"))
      | (ms, _) =>
          Err (Plan ("VGI macro `" +:+ name_text name +:+ "` call is ambiguous across "
                     +:+ pretty (length ms) +:+ " overloads; DataFusion cannot dispatch macro overloads by declared parameter type before expression planning"))
      end
  end.

(** ** Substitution *)

(** [substitute_macro]: the identifiers that name parameters, anywhere in the
    template, simultaneously. [visit_exprs] with this [post] cannot fail. *)
Definition substitute_post (params : list string) (actual : list node) (n : node) : fueled (option node) :=
  match n with
  | Ident s => match position (fun p => eq_ignore_ascii_case p s) params with
               | Some i => match actual !! i with
                           | Some e => Some (Ok (Some e))
                           | None => Some (Err (Panicked "index out of bounds"))
                           end
               | None => Some (Ok None)
               end
  | _ => Some (Ok None)
  end.
Definition substitute_macro (template : node) (params : list string) (actual : list node) : fueled node :=
  visit_exprs (substitute_post params actual) template.

(** ** Expansion of scalar macros *)

(** One call of [expand_scalar_macro], with the expansion of the calls in the
    body as a parameter; [active] is the stack of macros being expanded. *)
Definition expand_call (nested : list string -> node -> fueled (option node)) (active : list string)
    (name : ObjectName) (family : SqlMacroFamily) (args : option (list FunctionArg)) (modified : bool)
    : fueled (option node) :=
  match args with
  | None => Some (Err (Plan ("VGI scalar macro `" +:+ name_text name +:+ "` requires an argument list")))
  | Some args =>
      if modified
      then Some (Err (Plan ("VGI scalar macro `" +:+ name_text name
                            +:+ "` does not accept DISTINCT, FILTER, OVER, or argument clauses")))
      else
        '(info, actual) <~ Some (bind_macro_overload name family Scalar args);
        match body info with
        | Invalid error => Some (Err (Plan ("invalid VGI macro `" +:+ name_text name +:+ "`: " +:+ error)))
        | TableBody _ => Some (Err (Plan ("VGI macro `" +:+ name_text name +:+ "` has an invalid scalar body")))
        | ScalarBody template =>
            let key := default "" (macro_key name) in
            match position (String.eqb key) active with
            | Some start => Some (Err (Plan ("recursive VGI scalar macro expansion: "
                                             +:+ String.concat " -> " (drop start active ++ [key]))))
            | None =>
                expanded <~ substitute_macro template (parameters info) actual;
                expanded <~ visit_exprs (nested (active ++ [key])) expanded;
                Some (Ok (Some expanded))
            end
        end
  end.

(** [expand_scalar_macro]: [Ok None] for an expression that is no macro call. *)
Fixpoint expand_scalar_macro (fuel : nat) (active : list string) (n : node) : fueled (option node) :=
  match fuel with
  | O => None
  | S fuel =>
      match n with
      | Call name args modified =>
          match lookup_macro name with
          | None => Some (Ok None)
          | Some family => expand_call (expand_scalar_macro fuel) active name family args modified
          end
      | _ => Some (Ok None)
      end
  end.

(** [expand_table_macro] *)
Definition expand_table_macro (factor : node) : fueled (option node) :=
  match factor with
  | Table name (Some args) suffix extras =>
      match lookup_macro name with
      | None => Some (Ok None)
      | Some family =>
          if extras
          then Some (Err (Plan ("VGI table macro `" +:+ name_text name
            +:+ "` does not accept SETTINGS, hints, versions, ordinality, partitions, JSON paths, or index hints")))
          else
            '(info, actual) <~ Some (bind_macro_overload name family TableMacro args);
            match body info with
            | Invalid error => Some (Err (Plan ("invalid VGI macro `" +:+ name_text name +:+ "`: " +:+ error)))
            | ScalarBody _ => Some (Err (Plan ("VGI macro `" +:+ name_text name +:+ "` has an invalid table body")))
            | TableBody template =>
                subquery <~ substitute_macro template (parameters info) actual;
                Some (Ok (Some (Derived subquery suffix)))
            end
      end
  | _ => Some (Ok None)
  end.
End Macros.
