(* ===== verification/SqlRewrite.v ===== *)
(** * Rewriting statements

    [rewrite_vgi_sql] of session.rs walks a statement once before planning:
    it expands macros, gives two-part table names the attached catalog's default
    schema, collapses qualified table-function names, carries named arguments
    through DataFusion's positional interface, and marks calls of nullary
    aggregates. The walk always ends, though expansions are walked again:
    [rewrite_ends]. *)

From S2P Require Import Prelude Text Registry SqlTree Macros.

#[local] Open Scope fuel_scope.

(** The private names of session.rs and aggregate.rs. *)
Definition NAMED_ARG_PREFIX : string := "__vgi_datafusion_named_arg__".
Definition ROW_WITNESS_FIELD : string := "__vgi_datafusion_row_witness__".

(** A struct literal with one named field. *)
Definition named_struct (field : string) (value : node) : node :=
  Expr "Struct" [Expr ("Named " +:+ field) [value]].

Section Rewrite.
Context {Value : Type}.
Variable macros : gmap string (list (@SqlMacro Value)).
Variable macro_default_expr : Value -> result node.
(** The session: its function registry, and the default schemas of attached
    catalogs by lower-case alias. *)
Variable registry : Registry.
Variable default_schemas : gmap string string.

Definition attached_default_schema (alias : string) : option string :=
  default_schemas !! to_ascii_lowercase alias.

(** The spellings of semi and anti joins DataFusion plans. *)
Definition normalize_join (tag : string) : string :=
  if String.eqb tag "Semi" then "LeftSemi" else if String.eqb tag "Anti" then "LeftAnti" else tag.

(** The name of a table factor without arguments. *)
Definition qualify_table (name : ObjectName) : ObjectName :=
  match name with
  | [PartIdent catalog; table] =>
      match attached_default_schema catalog with
      | Some schema => [PartIdent catalog; PartIdent schema; table]
      | None => name
      end
  | _ => name
  end.
(** The name of a table function, as one identifier. *)
Definition collapse_name (name : ObjectName) : ObjectName :=
  if (1 <? length name)%nat then
    let dotted := dots (omap as_ident name) in
    if String.eqb dotted "" then name else [PartIdent dotted]
  else name.
Definition first_ident (name : ObjectName) : string :=
  default "" (p ← head name; as_ident p).

(** The name under which an argument of a table function is carried. *)
Definition carried_name (function : string) (a : FunctionArg) : option string :=
  match a with
  | (Named s, Some _) => Some s
  | (ExprNamed (Ident s), Some _) => Some s
  | (Unnamed, Some (BinaryEq (Ident s) _)) =>
      if is_declared_named_table_argument registry function s then Some s else None
  | _ => None
  end.

(** The row witness of a zero-argument call. *)
Definition witness_call (n : node) : node :=
  match n with
  | Call name (Some []) modified =>
      let f := name_text name in
      let scalar_collision :=
        existsb (fun e => bool_decide (e.1.1 = FScalar) && eq_ignore_ascii_case e.1.2 f)
          (map_to_list (functions registry)) in
      if negb scalar_collision && is_declared_nullary_aggregate registry f
      then Call name (Some [(Unnamed, Some (named_struct ROW_WITNESS_FIELD (Expr "1" [])))]) modified
      else n
  | _ => n
  end.

Definition table_macro_key (n : node) : option string :=
  match n with
  | Table name (Some _) _ _ =>
      match lookup_macro macros name with Some _ => macro_key name | None => None end
  | _ => None
  end.

(** The walk; [scalar_fuel] bounds the nesting of scalar macros, [fuel] how
    often an expansion is walked again. [active] holds the table macros whose
    expansion is being walked. *)
Section Walk.
Variable scalar_fuel : nat.
(** The walk over expansions. *)
Variable again : list string -> node -> fueled node.
Variable active : list string.

(** [post_visit_expr]: an expanded scalar macro is walked again. *)
Definition post_visit_expr (n : node) : fueled node :=
  r <~ expand_scalar_macro macros macro_default_expr scalar_fuel [] n;
  match r with
  | Some expanded => again active expanded
  | None => Some (Ok (witness_call n))
  end.

(** An argument of a table function with its value walked. *)
Definition walk_arg (walk : node -> fueled node) (function : string) (a : FunctionArg) : fueled FunctionArg :=
  match carried_name function a, a with
  | Some s, (Unnamed, Some (BinaryEq _ v)) =>
      v <~ walk v; Some (Ok (Unnamed, Some (named_struct (NAMED_ARG_PREFIX +:+ s) v)))
  | Some s, (_, Some v) =>
      v <~ walk v; Some (Ok (Unnamed, Some (named_struct (NAMED_ARG_PREFIX +:+ s) v)))
  | _, _ =>
      name <~ match a.1 with
              | ExprNamed n => n <~ walk n; Some (Ok (ExprNamed n))
              | Named s => Some (Ok (Named s))
              | Unnamed => Some (Ok Unnamed)
              end;
      value <~ fuel_option walk a.2;
      Some (Ok (name, value))
  end.

Fixpoint walk (n : node) : fueled node :=
  match n with
  | Ident s => post_visit_expr (Ident s)
  | Call name args m => args <~ visit_args walk args; post_visit_expr (Call name args m)
  | BinaryEq l r => l <~ walk l; r <~ walk r; post_visit_expr (BinaryEq l r)
  | Expr tag ns => ns <~ fuel_map walk ns; post_visit_expr (Expr tag ns)
  | Table name args suffix extras =>
      match table_macro_key n with
      | Some key =>
          if vec_contains key active
          then Some (Err (Plan ("recursive VGI table macro expansion involving `" +:+ key +:+ "`")))
          else
            expanded <~ expand_table_macro macros macro_default_expr n;
            match expanded with
            | Some (Derived q suffix) => q <~ again (key :: active) q; Some (Ok (Derived q suffix))
            | _ => Some (Err (Panicked "an expanded table macro has a registered key"))
            end
      | None =>
          match args with
          | None => Some (Ok (Table (qualify_table name) None suffix extras))
          | Some args =>
              let name := collapse_name name in
              args <~ fuel_map (walk_arg walk (first_ident name)) args;
              Some (Ok (Table name (Some args) suffix extras))
          end
      end
  | Derived q suffix => q <~ walk q; Some (Ok (Derived q suffix))
  | Query rec ctes body =>
      ctes <~ fuel_map (fun c => q <~ walk c.2; Some (Ok (c.1, q))) ctes;
      body <~ fuel_map walk body; Some (Ok (Query rec ctes body))
  | Other tag ns => ns <~ fuel_map walk ns; Some (Ok (Other (normalize_join tag) ns))
  end.
End Walk.

Fixpoint rewrite_vgi_sql (scalar_fuel fuel : nat) (active : list string) (n : node) : fueled node :=
  match fuel with
  | O => None
  | S fuel => walk scalar_fuel (rewrite_vgi_sql scalar_fuel fuel) active n
  end.
End Rewrite.
