(* ===== verification/MacroTheorems.v ===== *)
(** * Macros: complete binding, no calls left, and termination *)

From S2P Require Import Prelude Text Registry SqlTree Macros SqlRewrite.
From stdpp Require Import fin_sets fin_map_dom.

#[local] Open Scope fuel_scope.

Section Facts.
Context {Value : Type} (macros : gmap string (list (@SqlMacro Value))).
Context (macro_default_expr : Value -> result node).
Abbreviation lookup_macro := (lookup_macro macros).
Abbreviation expand_scalar_macro := (expand_scalar_macro macros macro_default_expr).
Abbreviation bind_macro_arguments := (bind_macro_arguments macro_default_expr).

(** ** Binding *)

Lemma bind_argument_length name (info : @SqlMacro Value) b a b' :
  bind_argument name info b a = Ok b' -> length (actual b') = length (actual b).
Proof.
  unfold bind_argument. destruct (named_or_positional name info a) as [[[s|] e]|]; simpl; [| |done].
  - destruct (position _ _) as [i|]; [|done]. destruct (actual b !! i) as [[|]|]; try done.
    intros [= <-]. simpl. apply length_insert.
  - destruct (saw_named b); [done|]. destruct (_ <=? _)%nat; [done|]. intros [= <-]. simpl. apply length_insert.
Qed.
Lemma bind_arguments_length name (info : @SqlMacro Value) args b b' :
  bind_arguments name info b args = Ok b' -> length (actual b') = length (actual b).
Proof.
  revert b. induction args as [|a args IH]; intros b; simpl; [by intros [= <-]|].
  destruct (bind_argument name info b a) as [b1|] eqn:Hb; simpl; [|done].
  intros Hr. apply IH in Hr. apply bind_argument_length in Hb. congruence.
Qed.

Lemma fill_defaults_spec (info : @SqlMacro Value) ps actual es :
  length actual = length ps -> fill_defaults macro_default_expr info ps actual = Ok (es, []) ->
  Forall2 (fun pa e => match pa.2 with
                       | Some e' => e = e'
                       | None => exists v, defaults info !! to_ascii_lowercase pa.1 = Some v
                                           /\ macro_default_expr v = Ok e
                       end) (zip ps actual) es.
Proof.
  revert actual es. induction ps as [|p ps IH]; intros [|a actual] es Hlen; simpl; try done.
  - intros [= <-]. constructor.
  - injection Hlen as Hlen. destruct a as [e|].
    + destruct (fill_defaults _ info ps actual) as [[es' missing]|] eqn:Hf; simpl; [|done].
      intros [= <- ->]. constructor; [done|]. by apply IH.
    + destruct (defaults info !! to_ascii_lowercase p) as [v|] eqn:Hv.
      * destruct (macro_default_expr v) as [e|] eqn:He; simpl; [|done].
        destruct (fill_defaults _ info ps actual) as [[es' missing]|] eqn:Hf; simpl; [|done].
        intros [= <- ->]. apply Forall2_cons_2; [by exists v|]. exact (IH actual es' Hlen Hf).
      * destruct (fill_defaults _ info ps actual) as [[es' missing]|] eqn:Hf; simpl; [|done]. done.
Qed.

Lemma bind_complete name (info : @SqlMacro Value) args es :
  bind_macro_arguments name info args = Ok es -> length es = length (parameters info).
Proof.
  unfold Macros.bind_macro_arguments. destruct (bind_arguments _ _ _ _) as [b|] eqn:Hb; simpl; [|done].
  apply bind_arguments_length in Hb. simpl in Hb. rewrite length_replicate in Hb.
  destruct (fill_defaults _ _ _ _) as [[es' missing]|] eqn:Hf; simpl; [|done].
  destruct missing; [|done]. intros [= <-].
  apply fill_defaults_spec, Forall2_length in Hf; [|done]. rewrite <- Hf, length_zip. lia.
Qed.

Lemma bind_candidates_In name cs args ms fs m a :
  bind_candidates macro_default_expr name cs args = (ms, fs) -> (m, a) ∈ ms ->
  m ∈ cs /\ bind_macro_arguments name m args = Ok a.
Proof.
  revert ms fs. induction cs as [|c cs IH]; intros ms fs; simpl.
  - intros [= <- <-] Hm. by apply not_elem_of_nil in Hm.
  - destruct (bind_candidates _ name cs args) as [ms' fs'] eqn:Hc.
    destruct (Macros.bind_macro_arguments _ name c args) as [a'|] eqn:Ha; intros [= <- <-] Hm.
    + apply elem_of_cons in Hm as [[= -> ->]|Hm]; [split; [left|done]|].
      destruct (IH ms' fs' eq_refl Hm). split; [by right|done].
    + destruct (IH ms' fs' eq_refl Hm). split; [by right|done].
Qed.

Lemma bind_overload_Ok name family k args m a :
  bind_macro_overload macro_default_expr name family k args = Ok (m, a) ->
  m ∈ family /\ kind m = k /\ bind_macro_arguments name m args = Ok a.
Proof.
  unfold bind_macro_overload. intros H.
  assert (exists cs ms fs, (forall x, x ∈ cs -> x ∈ family /\ kind x = k) /\
    bind_candidates macro_default_expr name cs args = (ms, fs) /\ (m, a) ∈ ms) as (cs & ms & fs & Hcs & Hb & Hm).
  { exists (filter (fun m => kind m = k) family).
    destruct (filter (fun m => kind m = k) family) as [|c cs] eqn:Hf; [done|].
    destruct (bind_candidates _ name (c :: cs) args) as [ms fs] eqn:Hb. exists ms, fs.
    split; [|split; [done|]].
    - intros x Hx. rewrite <- Hf in Hx. by apply list_elem_of_filter in Hx as [? ?].
    - destruct ms as [|m0 [|m1 ms]]; [by destruct (length family =? 1)%nat| |done].
      injection H as ->. left. }
  destruct (bind_candidates_In _ _ _ _ _ _ _ Hb Hm) as [Hin Ha]. destruct (Hcs _ Hin). done.
Qed.

(** Binding a macro call is complete and typed: the overload chosen has
    the kind of the context, every parameter receives exactly one expression,
    and substituting them into a template never reaches outside the list and
    always gives a result. *)
Theorem macro_binding_complete (name : ObjectName) (family : list SqlMacro) (k : SqlMacroKind)
    (args : list FunctionArg) (m : SqlMacro) (es : list node) (template : node) :
  bind_macro_overload macro_default_expr name family k args = Ok (m, es) ->
  m ∈ family /\ kind m = k /\ length es = length (parameters m)
  /\ exists e, substitute_macro template (parameters m) es = Some (Ok e).
Proof.
  intros H. apply bind_overload_Ok in H as (Hin & Hk & Ha). apply bind_complete in Ha. split_and!; try done.
  apply succeeds_Ok, visit_exprs_safe. intros n. unfold substitute_post. destruct n; simpl; try done.
  destruct (position _ _) as [i|] eqn:Hp; simpl; [|done].
  apply position_Some in Hp as (x & Hx & _). apply lookup_lt_Some in Hx. rewrite <- Ha in Hx.
  apply lookup_lt_is_Some in Hx as [e He]. by rewrite He.
Qed.

(** ** No calls left *)

Definition is_macro_call (n : node) : bool :=
  match n with Call name _ _ => bool_decide (is_Some (lookup_macro name)) | _ => false end.

(** No scalar macro is called anywhere in the tree. *)
Fixpoint macro_free (n : node) : bool :=
  let arg_free (a : FunctionArg) :=
    match a.1 with ExprNamed n => macro_free n | _ => true end
    && match a.2 with Some n => macro_free n | None => true end in
  negb (is_macro_call n) &&
  match n with
  | Ident _ => true
  | Call _ args _ | Table _ args _ _ => match args with Some l => forallb arg_free l | None => true end
  | BinaryEq l r => macro_free l && macro_free r
  | Expr _ ns | Other _ ns => forallb macro_free ns
  | Derived q _ => macro_free q
  | Query _ ctes body => forallb (fun c => macro_free c.2) ctes && forallb macro_free body
  end.
Abbreviation free := (fun n => macro_free n = true).

Lemma forallb_Forall {A} (p : A -> bool) l : forallb p l = true <-> Forall (fun x => p x = true) l.
Proof.
  rewrite forallb_forall, Forall_forall. split; intros H x Hx; apply H; by apply list_elem_of_In.
Qed.

Lemma macro_free_unfold n : free n <-> is_macro_call n = false /\ children_all free n.
Proof.
  assert (forall l : list FunctionArg, forallb (fun a =>
     match a.1 with ExprNamed n => macro_free n | _ => true end
     && match a.2 with Some n => macro_free n | None => true end) l = true <-> Forall (arg_all free) l) as Hargs.
  { intros l. rewrite forallb_Forall. apply Forall_iff. intros [nm v]. unfold arg_all. simpl.
    rewrite andb_true_iff. destruct nm, v; naive_solver. }
  assert (forall b (P : bool), negb b && P = true <-> b = false /\ P = true) as Hb
    by (intros [] []; naive_solver).
  destruct n as [s|name args m|l r|tag ns|name args sfx ex|q sfx|rec ctes body|tag ns]; cbn [macro_free children_all];
    rewrite Hb; apply and_iff_compat_l.
  - naive_solver.
  - destruct args as [l|]; simpl; [apply Hargs|naive_solver].
  - by rewrite andb_true_iff.
  - apply forallb_Forall.
  - destruct args as [l|]; simpl; [apply Hargs|naive_solver].
  - done.
  - by rewrite andb_true_iff, !forallb_Forall.
  - apply forallb_Forall.
Qed.

Lemma expand_call_free nested active name family args modified :
  (forall act m, children_all free m -> is_expr m = true -> yields (fun r => free (default m r)) (nested act m)) ->
  yields (fun r => exists e, r = Some e /\ free e)
    (expand_call macro_default_expr nested active name family args modified).
Proof.
  intros Hn. unfold expand_call. destruct args as [args|]; [|apply yields_err].
  destruct modified; [apply yields_err|].
  destruct (bind_macro_overload _ _ _ _ _) as [[info es]|e]; [|by intros ?]. simpl.
  destruct (body info) as [template| |]; [|apply yields_err..].
  destruct (position _ _); [apply yields_err|].
  apply (fuel_yields_bind (fun _ => True)); [by intros ?|]. intros expanded _.
  apply (fuel_yields_bind (fun e => free e)).
  - apply (visit_exprs_yields _ (fun m => free m)).
    + intros m Hm He. by apply Hn.
    + intros m Hm He. apply macro_free_unfold. split; [by destruct m|done].
  - intros e He. apply fuel_yields_ret. by exists e.
Qed.

(** What [expand_scalar_macro] leaves of an expression with expanded children. *)
Lemma expand_free fuel active m :
  children_all free m -> yields (fun r => free (default m r)) (expand_scalar_macro fuel active m).
Proof.
  revert active m. induction fuel as [|fuel IH]; intros active m Hm; [by intros ?|].
  assert (is_macro_call m = false -> free m) as Hfree by (intros; by apply macro_free_unfold).
  destruct m as [s|name args md|l r|tag ns|name args sfx ex|q sfx|rec ctes body|tag ns];
    try (apply fuel_yields_ret; simpl; by apply Hfree).
  simpl. destruct (Macros.lookup_macro macros name) as [family|] eqn:Hl.
  - intros r Hr. eapply expand_call_free in Hr as (e & -> & He); [done|]. intros act m' Hm' _. by apply IH.
  - apply fuel_yields_ret. apply Hfree. simpl. by rewrite Hl.
Qed.

(** ** Termination of scalar expansion *)

(** The macros not being expanded. *)
Definition inactive (active : list string) : nat := size (dom macros ∖ list_to_set active).

Lemma inactive_push active key :
  key ∈ dom macros -> key ∉ active -> (inactive (key :: active) < inactive active)%nat.
Proof. intros Hk Ha. unfold inactive. apply subset_size. set_solver. Qed.

Lemma lookup_macro_key name family :
  lookup_macro name = Some family -> exists key, macro_key name = Some key /\ key ∈ dom macros.
Proof.
  unfold Macros.lookup_macro. destruct (macro_key name) as [key|]; simpl; [|done].
  intros Hf. exists key. split; [done|]. by apply elem_of_dom_2 in Hf.
Qed.

Lemma position_None {A} (p : A -> bool) l : position p l = None -> forall x, x ∈ l -> p x = false.
Proof.
  induction l as [|y l IH]; simpl; [by intros _ x Hx; apply not_elem_of_nil in Hx|].
  destruct (p y) eqn:Hy; [done|]. destruct (position p l); [done|]. intros _ x [->|Hx]%elem_of_cons; [done|by apply IH].
Qed.

Lemma expand_ends fuel active n :
  (inactive active < fuel)%nat -> ends (expand_scalar_macro fuel active n).
Proof.
  revert active n. induction fuel as [|fuel IH]; intros active n Hf; [lia|].
  destruct n as [s|name args md|l r|tag ns|name args sfx ex|q sfx|rec ctes body|tag ns]; try done. simpl.
  destruct (Macros.lookup_macro macros name) as [family|] eqn:Hl; [|done].
  destruct (lookup_macro_key _ _ Hl) as (key & Hkey & Hdom).
  unfold expand_call. destruct args as [args|]; [|done]. destruct md; [done|].
  destruct (bind_macro_overload _ _ _ _ _) as [[info es]|e] eqn:Hb; [|done]. cbn [fuel_bind].
  destruct (body info) as [template| |]; [|done..].
  rewrite Hkey. cbn [default from_option id].
  destruct (position (String.eqb key) active) as [i|] eqn:Hp; [done|].
  apply safe_bind.
  - apply bind_overload_Ok in Hb as (_ & _ & Ha). apply bind_complete in Ha.
    apply visit_exprs_safe. intros m. unfold substitute_post. destruct m; simpl; try done.
    destruct (position _ (parameters info)) as [i|]; simpl; [|done]. by destruct (es !! i).
  - intros expanded _. apply safe_bind; [|done]. apply visit_exprs_safe. intros m. apply IH.
    assert (key ∉ active) as Hk.
    { intros Hin. pose proof (position_None _ _ Hp key Hin) as Hx. by rewrite String.eqb_refl in Hx. }
    assert (inactive (active ++ [key]) = inactive (key :: active)) as ->
      by (unfold inactive; f_equal; set_solver).
    pose proof (inactive_push active key Hdom Hk). lia.
Qed.

(** Expanding the scalar macros of an expression always ends, with fuel for
    each registered macro to be active once, however macros call each other;
    and no macro call is left in what it returns. *)
Theorem scalar_expansion_complete (n : node) :
  let result := visit_exprs (expand_scalar_macro (S (size macros)) []) n in
  ends result /\ yields (fun e => macro_free e = true) result.
Proof.
  intros result. split.
  - apply visit_exprs_safe. intros m. apply expand_ends. unfold inactive. rewrite <- size_dom.
    apply Nat.lt_succ_r, subseteq_size. set_solver.
  - apply (visit_exprs_yields _ (fun m => macro_free m = true)).
    + intros m Hm _. by apply expand_free.
    + intros m Hm He. apply macro_free_unfold. split; [by destruct m|done].
Qed.

(** ** Termination of the walk *)

Context (registry : Registry) (default_schemas : gmap string string).
Abbreviation walk := (walk macros macro_default_expr registry default_schemas).
Abbreviation rewrite_vgi_sql := (rewrite_vgi_sql macros macro_default_expr registry default_schemas).

Lemma expand_some_free fuel active n :
  yields (fun r => forall e, r = Some e -> free e) (expand_scalar_macro fuel active n).
Proof.
  destruct fuel as [|fuel]; [by intros ?|].
  destruct n as [s|name args md|l r|tag ns|name args sfx ex|q sfx|rec ctes body|tag ns]; try by apply fuel_yields_ret.
  simpl. destruct (Macros.lookup_macro macros name) as [family|]; [|by apply fuel_yields_ret].
  intros r Hr e ->. eapply expand_call_free in Hr as (e' & [= ->] & He); [done|].
  intros act m Hm _. by apply expand_free.
Qed.

Section Walk.
Context (scalar_fuel : nat) (again : list string -> node -> fueled node) (active : list string).
Hypothesis enough : (size macros < scalar_fuel)%nat.
Hypothesis tables_end : forall key q,
  key ∈ dom macros -> key ∉ active -> ends (again (key :: active) q).

(** Either the expression has no macro call, or expansions can be walked. *)
Definition walkable (n : node) : Prop :=
  macro_free n = true \/ (forall e, macro_free e = true -> ends (again active e)).

Lemma expand_top_ends n : ends (expand_scalar_macro scalar_fuel [] n).
Proof.
  apply expand_ends. unfold inactive. rewrite <- size_dom in enough.
  eapply Nat.le_lt_trans; [|exact enough]. apply subseteq_size. set_solver.
Qed.

Lemma post_visit_ends n :
  is_macro_call n = false \/ (forall e, macro_free e = true -> ends (again active e)) ->
  ends (post_visit_expr macros macro_default_expr registry scalar_fuel again active n).
Proof.
  intros Hn. unfold post_visit_expr. apply safe_bind; [apply expand_top_ends|]. intros [e|] He; [|done].
  destruct Hn as [Hn|Hn].
  - exfalso. destruct scalar_fuel as [|f]; [done|]. destruct n; try done. simpl in He, Hn.
    destruct (Macros.lookup_macro macros name) as [family|]; [|done].
    apply bool_decide_eq_false_1 in Hn. apply Hn. by eexists.
  - apply Hn. by apply (expand_some_free _ _ _ _ He).
Qed.

Lemma walkable_children n : walkable n -> children_all walkable n.
Proof.
  intros [Hn|Hn].
  - apply macro_free_unfold in Hn as [_ Hc]. eapply children_all_impl; [|exact Hc]. intros m Hm. by left.
  - apply children_all_true. intros m. by right.
Qed.

Lemma walkable_root n : walkable n ->
  is_macro_call n = false \/ (forall e, macro_free e = true -> ends (again active e)).
Proof. intros [Hn|Hn]; [left; by apply macro_free_unfold|by right]. Qed.

(** What the walk owes a node: to end on it, and on the right-hand side of an
    equality, which may be walked as the value of a named argument. *)
Definition walk_ends_at (w : node -> fueled node) (n : node) : Prop :=
  ends (w n) /\ match n with BinaryEq _ r => ends (w r) | _ => True end.

Lemma walk_args_end (w : node -> fueled node) f args :
  args_all (walk_ends_at w) (Some args) -> ends (fuel_map (walk_arg registry w f) args).
Proof.
  simpl. intros Ha. apply safe_map. eapply Forall_impl; [exact Ha|]. intros [nm v] [Hnm Hv]; simpl in *.
  assert (ends (name <~ match nm with
              | ExprNamed n => n <~ w n; Some (Ok (ExprNamed n))
              | Named s => Some (Ok (Named s))
              | Unnamed => Some (Ok Unnamed)
              end;
      value <~ fuel_option w v;
      Some (Ok (name, value)))) as Hplain.
  { apply safe_bind.
    - destruct nm as [|s|n]; [done|done|]. apply safe_bind; [apply Hnm|done].
    - intros nm' _. apply safe_bind; [|done]. apply safe_option. intros x ->. apply Hv. }
  unfold walk_arg. cbn [fst snd]. destruct (carried_name registry f (nm, v)) as [s|]; [|done].
  destruct nm as [|s'|n]; destruct v as [v|]; try done.
  - destruct v; try (apply safe_bind; [apply Hv|done]).
  - apply safe_bind; [apply Hv|done].
  - apply safe_bind; [apply Hv|done].
Qed.

Lemma expand_table_ends n : ends (expand_table_macro macros macro_default_expr n).
Proof.
  destruct n as [| | | |name [args|] sfx ex| | |]; try done. simpl.
  destruct (Macros.lookup_macro macros name) as [family|]; [|done]. destruct ex; [done|].
  destruct (bind_macro_overload _ _ _ _ _) as [[info es]|e] eqn:Hb; [|done]. cbn [fuel_bind].
  destruct (body info) as [|template|]; [done| |done].
  apply safe_bind; [|done]. apply bind_overload_Ok in Hb as (_ & _ & Ha). apply bind_complete in Ha.
  apply visit_exprs_safe. intros m. unfold substitute_post. destruct m; simpl; try done.
  destruct (position _ (parameters info)) as [i|]; simpl; [|done]. by destruct (es !! i).
Qed.

Lemma walk_end n : walkable n -> walk_ends_at (walk scalar_fuel again active) n.
Proof.
  induction n as [n IH] using node_children_ind. intros Hn.
  assert (children_all (walk_ends_at (walk scalar_fuel again active)) n) as Hc.
  { pose proof (walkable_children n Hn) as Hw. revert IH Hw. clear.
    intros H1 H2. assert (children_all (fun m => (walkable m -> walk_ends_at (walk scalar_fuel again active) m) /\ walkable m) n)
      as H by (by apply children_all_and). eapply children_all_impl; [|exact H]. naive_solver. }
  assert (children_all (fun m => ends (walk scalar_fuel again active m)) n) as Hce
    by (eapply children_all_impl; [|exact Hc]; by intros m []).
  pose proof (walkable_root n Hn) as Hr. split; [|destruct n; try done; apply Hce].
  assert (forall m, is_macro_call m = is_macro_call n ->
    ends (post_visit_expr macros macro_default_expr registry scalar_fuel again active m)) as Hpost
    by (intros m Hm; apply post_visit_ends; by rewrite Hm).
  destruct n as [s|name args m|l r|tag ns|name args sfx ex|q sfx|rec ctes body|tag ns]; cbn [SqlRewrite.walk children_all] in *.
  - by apply Hpost.
  - apply safe_bind; [by apply safe_args|]. intros args' _. by apply Hpost.
  - apply safe_bind; [apply Hce|]. intros l' _. apply safe_bind; [apply Hce|]. intros r' _. by apply Hpost.
  - apply safe_bind; [by apply safe_map|]. intros ns' _. by apply Hpost.
  - destruct (table_macro_key macros (Table name args sfx ex)) as [key|] eqn:Hk.
    + unfold vec_contains. case_bool_decide as Hact; [done|].
      apply safe_bind; [apply expand_table_ends|]. intros [[]|] _; try done.
      apply safe_bind; [|done]. apply tables_end; [|done].
      simpl in Hk. destruct args as [args|]; [|done].
      destruct (Macros.lookup_macro macros name) as [family|] eqn:Hl; [|done].
      destruct (lookup_macro_key _ _ Hl) as (key' & Hkey & Hdom). congruence.
    + destruct args as [args|]; [|done]. apply safe_bind; [by apply walk_args_end|done].
  - apply safe_bind; [apply Hce|done].
  - destruct Hce as [Hc1 Hc2]. apply safe_bind.
    + apply safe_map. eapply Forall_impl; [exact Hc1|]. intros c ?. by apply safe_bind.
    + intros ctes' _. apply safe_bind; [by apply safe_map|done].
  - apply safe_bind; [by apply safe_map|done].
Qed.
End Walk.

Lemma rewrite_ends_at k active n scalar_fuel :
  (size macros < scalar_fuel)%nat -> (inactive active <= k)%nat ->
  (forall fuel, (2 * k + 1 <= fuel)%nat -> macro_free n = true -> ends (rewrite_vgi_sql scalar_fuel fuel active n))
  /\ (forall fuel, (2 * k + 2 <= fuel)%nat -> ends (rewrite_vgi_sql scalar_fuel fuel active n)).
Proof.
  intros Hs. revert active n. induction k as [|k IH]; intros active n Hk.
  - assert (forall key, key ∈ dom macros -> key ∉ active -> False) as Hall.
    { intros key Hd Ha. pose proof (inactive_push active key Hd Ha). lia. }
    assert (forall m fuel, (1 <= fuel)%nat -> macro_free m = true -> ends (rewrite_vgi_sql scalar_fuel fuel active m)) as H1.
    { intros m [|fuel] Hf Hm; [lia|]. apply walk_end; [done| |by left]. intros key q Hd Ha. by destruct (Hall key). }
    split; [by apply H1|]. intros [|fuel] Hf; [lia|]. apply walk_end; [done| |].
    + intros key q Hd Ha. by destruct (Hall key).
    + right. intros e He. apply H1; [lia|done].
  - assert (forall fuel key q, (2 * k + 2 <= fuel)%nat -> key ∈ dom macros -> key ∉ active ->
      ends (rewrite_vgi_sql scalar_fuel fuel (key :: active) q)) as Htab.
    { intros fuel key q Hf Hd Ha. apply IH; [|done]. pose proof (inactive_push active key Hd Ha). lia. }
    assert (forall m fuel, (2 * S k + 1 <= fuel)%nat -> macro_free m = true ->
      ends (rewrite_vgi_sql scalar_fuel fuel active m)) as H1.
    { intros m [|fuel] Hf Hm; [lia|]. apply walk_end; [done| |by left].
      intros key q Hd Ha. apply Htab; [lia|done|done]. }
    split; [by apply H1|]. intros [|fuel] Hf; [lia|]. apply walk_end; [done| |].
    + intros key q Hd Ha. apply Htab; [lia|done|done].
    + right. intros e He. apply H1; [lia|done].
Qed.

(** C35: rewriting a statement always ends, although expansions of macros are
    walked again and may contain further macros: each table macro can be active
    once, and an expanded scalar macro contains no scalar call. *)
Theorem rewrite_ends (statement : node) :
  ends (rewrite_vgi_sql (S (size macros)) (2 * size macros + 2) [] statement).
Proof.
  assert (inactive [] <= size macros)%nat as Hi.
  { unfold inactive. rewrite <- size_dom. apply subseteq_size. set_solver. }
  apply (rewrite_ends_at (size macros) [] statement (S (size macros))); lia.
Qed.
End Facts.

(** ** Examples *)

Definition ex_call (f : string) (args : list node) : node :=
  Call [PartIdent "ex"; PartIdent f] (Some (map (fun e => (Unnamed, Some e)) args)) false.
(** [twice(x) AS plus(x, x)], [four(x, y := 2) AS twice(twice(x))], [loop() AS loop()],
    and the table macro [pick(n)]. *)
Definition ex_macros : gmap string (list (@SqlMacro string)) :=
  list_to_map [
    ("ex.twice", [mkMacro Scalar ["x"] ∅ (ScalarBody (Expr "plus" [Ident "x"; Ident "X"]))]);
    ("ex.four", [mkMacro Scalar ["x"; "y"] {[ "y" := "2" ]} (ScalarBody (ex_call "twice" [ex_call "twice" [Ident "x"]]))]);
    ("ex.loop", [mkMacro Scalar [] ∅ (ScalarBody (ex_call "loop" []))]);
    ("ex.pick", [mkMacro TableMacro ["n"] ∅ (TableBody (Query false [] [Ident "n"]))])].
Definition ex_default : string -> result node := fun v => Ok (Expr v []).
Definition ex_walk : node -> fueled node :=
  rewrite_vgi_sql ex_macros ex_default (mkRegistry ∅ ∅ 0) ∅ 5 10 [].

Example ex_expansion :
  ex_walk (ex_call "four" [Ident "a"])
  = Some (Ok (Expr "plus" [Expr "plus" [Ident "a"; Ident "a"]; Expr "plus" [Ident "a"; Ident "a"]])).
Proof. vm_compute. reflexivity. Qed.
Example ex_recursion :
  ex_walk (ex_call "loop" []) = Some (Err (Plan "recursive VGI scalar macro expansion: ex.loop -> ex.loop")).
Proof. vm_compute. reflexivity. Qed.

Lemma macro_binding_complete_witness :
  exists e, substitute_macro (Expr "plus" [Ident "x"; Ident "y"]) ["x"; "y"] [Ident "a"; Expr "2" []] = Some (Ok e).
Proof.
  apply (macro_binding_complete ex_default [PartIdent "ex"; PartIdent "four"]
    [mkMacro Scalar ["x"; "y"] {[ "y" := "2" ]} (ScalarBody (Ident "x"))] Scalar
    [(Named "X", Some (Ident "a"))]
    (mkMacro Scalar ["x"; "y"] {[ "y" := "2" ]} (ScalarBody (Ident "x"))) [Ident "a"; Expr "2" []]).
  vm_compute. reflexivity.
Defined.

(** A table macro in the argument of another call of it is no recursion, but is
    rejected as one. *)
Definition ex_pick (arg : node) : node :=
  Table [PartIdent "ex"; PartIdent "pick"] (Some [(Unnamed, Some arg)]) "" false.
Lemma nested_table_macro_rejected :
  ex_walk (ex_pick (Query false [] [ex_pick (Ident "a")]))
  = Some (Err (Plan "recursive VGI table macro expansion involving `ex.pick`")).
Proof. vm_compute. reflexivity. Qed.
