(* ===== verification/SqlQualify.v ===== *)
(** * Names in catalog-owned SQL

    Views and macros of a worker are written in terms of its own schemas.
    [qualify_catalog_sql] of session.rs qualifies the names that denote objects
    of the catalog. Its visitor walks every common table expression twice, once
    with only the preceding names in scope and once more as part of the generic
    walk; [qualify_is_lexical] shows that this computes lexical scoping. *)

From S2P Require Import Prelude Text SqlTree.

(** [SqlMacroNamespace] and [SqlCatalogNamespace], with lower-case names. *)
Record SqlMacroNamespace := mkNamespace {
  expression_functions : gset string;
  relation_functions : gset string;
  relations : gset string;
}.
Definition empty_namespace : SqlMacroNamespace := mkNamespace ∅ ∅ ∅.

Section Qualify.
Variables catalog owning_schema : string.
Variable schemas : gmap string SqlMacroNamespace.

Definition object_key (name : ObjectName) : option (string * string) :=
  identifiers ← option_collect as_ident name;
  match identifiers with
  | [object] => Some (to_ascii_lowercase owning_schema, to_ascii_lowercase object)
  | [schema; object] => Some (to_ascii_lowercase schema, to_ascii_lowercase object)
  | _ => None
  end.

Definition qualify_name (name : ObjectName) : ObjectName :=
  match name with
  | [local] => [PartIdent catalog; PartIdent owning_schema; local]
  | [a; b] => [PartIdent catalog; a; b]
  | _ => name
  end.

Abbreviation Scopes := (list (gset string)).
Definition cte_in_scope (scopes : Scopes) (name : string) : bool :=
  existsb (fun scope => bool_decide (to_ascii_lowercase name ∈ scope)) scopes.

(** [pre_visit_table_factor] *)
Definition qualify_factor (scopes : Scopes) (name : ObjectName) (has_args : bool) : ObjectName :=
  match object_key name with
  | None => name
  | Some (schema, object) =>
      match schemas !! schema with
      | None => name
      | Some ns =>
          let worker_object :=
            if has_args then bool_decide (object ∈ relation_functions ns)
            else (negb (length name =? 1)%nat || negb (cte_in_scope scopes object))
                 && bool_decide (object ∈ relations ns) in
          if worker_object then qualify_name name else name
      end
  end.
(** [post_visit_expr] of a call. *)
Definition qualify_function (name : ObjectName) : ObjectName :=
  match object_key name with
  | None => name
  | Some (schema, object) =>
      match schemas !! schema with
      | Some ns => if bool_decide (object ∈ expression_functions ns) then qualify_name name else name
      | None => name
      end
  end.

Definition map_args (f : node -> node) (args : option (list FunctionArg)) : option (list FunctionArg) :=
  option_map (map (fun a : FunctionArg =>
    (match a.1 with ExprNamed n => ExprNamed (f n) | Named s => Named s | Unnamed => Unnamed end,
     option_map f a.2))) args.
Definition lower_aliases (ctes : list (string * node)) : gset string :=
  list_to_set (map (fun c => to_ascii_lowercase c.1) ctes).
Definition is_some_list {A} (o : option A) : bool := match o with Some _ => true | None => false end.

(** ** Lexical scoping

    Every name once; a common table expression sees the ones before it, or all
    of them in a recursive WITH; the body sees all. *)

Fixpoint qualify_lexical (scopes : Scopes) (n : node) : node :=
  match n with
  | Ident s => Ident s
  | Call name args m => Call (qualify_function name) (map_args (qualify_lexical scopes) args) m
  | BinaryEq l r => BinaryEq (qualify_lexical scopes l) (qualify_lexical scopes r)
  | Expr tag ns => Expr tag (map (qualify_lexical scopes) ns)
  | Table name args sfx ex =>
      Table (qualify_factor scopes name (is_some_list args)) (map_args (qualify_lexical scopes) args) sfx ex
  | Derived q sfx => Derived (qualify_lexical scopes q) sfx
  | Query rec ctes body =>
      let all := lower_aliases ctes in
      let fix preceding (seen : gset string) (l : list (string * node)) : list (string * node) :=
        match l with
        | [] => []
        | c :: l => (c.1, qualify_lexical ((if rec then all else seen) :: scopes) c.2)
                    :: preceding ({[ to_ascii_lowercase c.1 ]} ∪ seen) l
        end in
      Query rec (preceding ∅ ctes) (map (qualify_lexical (all :: scopes)) body)
  | Other tag ns => Other tag (map (qualify_lexical scopes) ns)
  end.

(** ** The visitor

    [fuel] bounds the height of the tree. *)

(** The loop of [pre_visit_query] over non-recursive definitions: the visited
    definitions; the scope ends up holding every alias. *)
Fixpoint visit_definitions (visit : Scopes -> node -> node) (scopes : Scopes) (seen : gset string)
    (ctes : list (string * node)) : list (string * node) :=
  match ctes with
  | [] => []
  | c :: ctes => (c.1, visit (seen :: scopes) c.2)
                 :: visit_definitions visit scopes ({[ to_ascii_lowercase c.1 ]} ∪ seen) ctes
  end.

Fixpoint qualify_catalog_sql (fuel : nat) (scopes : Scopes) (n : node) : node :=
  match fuel with
  | O => n
  | S fuel =>
      let visit := qualify_catalog_sql fuel in
      match n with
      | Ident s => Ident s
      | Call name args m => Call (qualify_function name) (map_args (visit scopes) args) m
      | BinaryEq l r => BinaryEq (visit scopes l) (visit scopes r)
      | Expr tag ns => Expr tag (map (visit scopes) ns)
      | Table name args sfx ex =>
          Table (qualify_factor scopes name (is_some_list args)) (map_args (visit scopes) args) sfx ex
      | Derived q sfx => Derived (visit scopes q) sfx
      | Query rec ctes body =>
          (* pre_visit_query pushes a scope and fills it *)
          let ctes := if rec then ctes else visit_definitions visit scopes ∅ ctes in
          let scopes := lower_aliases ctes :: scopes in
          (* the generic walk *)
          Query rec (map (fun c => (c.1, visit scopes c.2)) ctes) (map (visit scopes) body)
      | Other tag ns => Other tag (map (visit scopes) ns)
      end
  end.
End Qualify.

(** The height of a tree, the fuel of the visitor. *)
Fixpoint height (n : node) : nat :=
  let arg_height (a : FunctionArg) :=
    Nat.max (match a.1 with ExprNamed n => height n | _ => 0 end)
            (match a.2 with Some n => height n | None => 0 end) in
  S match n with
    | Ident _ => 0
    | Call _ args _ | Table _ args _ _ => match args with Some l => max_list (map arg_height l) | None => 0 end
    | BinaryEq l r => Nat.max (height l) (height r)
    | Expr _ ns | Other _ ns => max_list (map height ns)
    | Derived q _ => height q
    | Query _ ctes body => Nat.max (max_list (map (fun c => height c.2) ctes)) (max_list (map height body))
    end.

(** ** The visitor is lexical *)

Lemma max_list_le l x : x ∈ l -> (x <= max_list l)%nat.
Proof.
  induction l as [|y l IH]; [by intros Hx%not_elem_of_nil|]. simpl.
  intros [->|Hx]%elem_of_cons; [lia|]. specialize (IH Hx). lia.
Qed.
Lemma max_list_map_le {A} (f : A -> nat) l h : (max_list (map f l) <= h)%nat -> Forall (fun x => (f x <= h)%nat) l.
Proof.
  intros Hl. apply Forall_forall. intros x Hx. etrans; [|exact Hl]. apply max_list_le.
  change (f x ∈ f <$> l). apply list_elem_of_fmap. by exists x.
Qed.

Lemma children_height n h : (height n <= S h)%nat -> children_all (fun m => (height m <= h)%nat) n.
Proof.
  destruct n as [s|name args m|l r|tag ns|name args sfx ex|q sfx|rec ctes body|tag ns]; simpl; intros Hh; try done.
  - destruct args as [l|]; [|done]. apply le_S_n, max_list_map_le in Hh. simpl.
    eapply Forall_impl; [exact Hh|]. intros [nm v] Ha. split; simpl in *; [by destruct nm; try done; lia|by destruct v; try done; lia].
  - lia.
  - by apply max_list_map_le, le_S_n.
  - destruct args as [l|]; [|done]. apply le_S_n, max_list_map_le in Hh. simpl.
    eapply Forall_impl; [exact Hh|]. intros [nm v] Ha. split; simpl in *; [by destruct nm; try done; lia|by destruct v; try done; lia].
  - lia.
  - split; apply max_list_map_le; lia.
  - by apply max_list_map_le, le_S_n.
Qed.

Section Lexical.
Context (catalog owning_schema : string) (schemas : gmap string SqlMacroNamespace).
Abbreviation qualify_lexical := (qualify_lexical catalog owning_schema schemas).
Abbreviation qualify_catalog_sql := (qualify_catalog_sql catalog owning_schema schemas).
Abbreviation Scopes := (list (gset string)).

(** The definitions of a WITH, lexically. *)
Definition lexical_definitions (rec : bool) (scopes : Scopes) (ctes : list (string * node)) : list (string * node) :=
  if rec then map (fun c => (c.1, qualify_lexical (lower_aliases ctes :: scopes) c.2)) ctes
  else visit_definitions qualify_lexical scopes ∅ ctes.
Lemma qualify_lexical_query scopes rec ctes body :
  qualify_lexical scopes (Query rec ctes body)
  = Query rec (lexical_definitions rec scopes ctes) (map (qualify_lexical (lower_aliases ctes :: scopes)) body).
Proof.
  simpl. f_equal. unfold lexical_definitions. destruct rec.
  - generalize (lower_aliases ctes). intros all. generalize (∅ : gset string).
    induction ctes as [|c ctes IH]; intros seen; simpl; [done|]. by rewrite IH.
  - generalize (∅ : gset string). induction ctes as [|c ctes IH]; intros seen; simpl; [done|]. by rewrite IH.
Qed.

Lemma visit_definitions_aliases visit scopes seen ctes :
  map fst (visit_definitions visit scopes seen ctes) = map fst ctes.
Proof. revert seen. induction ctes as [|c ctes IH]; intros seen; simpl; [done|]. by rewrite IH. Qed.
Lemma lower_aliases_ext l k : map fst l = map fst k -> lower_aliases l = lower_aliases k.
Proof.
  intros H. unfold lower_aliases.
  assert (forall m : list (string * node), map (fun c => to_ascii_lowercase c.1) m = map to_ascii_lowercase (map fst m)) as Hm
    by (intros m; by rewrite map_map).
  by rewrite !Hm, H.
Qed.
Lemma lexical_definitions_aliases rec scopes ctes :
  lower_aliases (lexical_definitions rec scopes ctes) = lower_aliases ctes.
Proof.
  apply lower_aliases_ext. destruct rec; simpl; [by rewrite map_map|apply visit_definitions_aliases].
Qed.

(** *** Qualified names stay *)

Lemma object_key_qualified name schema object :
  object_key owning_schema name = Some (schema, object) ->
  object_key owning_schema (qualify_name catalog owning_schema name) = None.
Proof.
  unfold object_key. destruct name as [|a [|b [|c name]]]; simpl; try done.
  - destruct (as_ident a); done.
  - destruct (as_ident a), (as_ident b); done.
  - destruct (as_ident a), (as_ident b), (as_ident c), (option_collect as_ident name); done.
Qed.

Lemma qualify_function_idem name :
  let q := qualify_function catalog owning_schema schemas in q (q name) = q name.
Proof.
  simpl. unfold qualify_function at 2 3. destruct (object_key owning_schema name) as [[schema object]|] eqn:Hk.
  - destruct (schemas !! schema) as [ns|] eqn:Hs.
    + case_bool_decide as Hin.
      * unfold qualify_function. by rewrite (object_key_qualified _ _ _ Hk).
      * unfold qualify_function. by rewrite Hk, Hs, bool_decide_eq_false_2.
    + unfold qualify_function. by rewrite Hk, Hs.
  - unfold qualify_function. by rewrite Hk.
Qed.

(** One list of scopes covers another. *)
Definition covers (outer inner : Scopes) : Prop :=
  forall x, cte_in_scope inner x = true -> cte_in_scope outer x = true.

Lemma covers_cons s t outer inner : s ⊆ t -> covers outer inner -> covers (t :: outer) (s :: inner).
Proof.
  intros Hst Hc x. simpl. rewrite !orb_true_iff, !bool_decide_eq_true. intros [Hx|Hx]; [left; set_solver|right; by apply Hc].
Qed.
Lemma covers_refl s : covers s s.
Proof. by intros x. Qed.

Lemma qualify_factor_absorbed outer inner name b :
  covers outer inner ->
  let q scopes := qualify_factor catalog owning_schema schemas scopes name b in
  qualify_factor catalog owning_schema schemas outer (q inner) b = q inner.
Proof.
  intros Hc. simpl. unfold qualify_factor at 2 3. destruct (object_key owning_schema name) as [[schema object]|] eqn:Hk.
  - destruct (schemas !! schema) as [ns|] eqn:Hs; [|unfold qualify_factor; by rewrite Hk, Hs].
    destruct (if b then _ else _) eqn:Hw.
    + unfold qualify_factor. by rewrite (object_key_qualified _ _ _ Hk).
    + unfold qualify_factor. rewrite Hk, Hs. destruct b; [by rewrite Hw|].
      assert ((negb (length name =? 1)%nat || negb (cte_in_scope outer object)) && bool_decide (object ∈ relations ns) = false) as ->; [|done].
      apply andb_false_iff in Hw as [Hw|Hw]; apply andb_false_iff; [left|by right].
      apply orb_false_iff in Hw as [Hl Hi]. apply orb_false_iff. split; [done|].
      apply negb_false_iff in Hi. apply negb_false_iff. by apply Hc.
  - unfold qualify_factor. by rewrite Hk.
Qed.

Lemma map_args_compose (f g h : node -> node) args :
  args_all (fun n => f (g n) = h n) args -> map_args f (map_args g args) = map_args h args.
Proof.
  destruct args as [l|]; [|done]. simpl. intros Hl. f_equal. rewrite map_map. apply map_ext_in.
  intros [nm v] Hin. apply list_elem_of_In in Hin. apply (proj1 (Forall_forall _ _) Hl) in Hin as [Hn Hv].
  simpl in *. f_equal; [destruct nm; simpl; congruence|destruct v; simpl; congruence].
Qed.
Lemma map_compose_ext {A} (f g h : A -> A) l : Forall (fun n => f (g n) = h n) l -> map f (map g l) = map h l.
Proof.
  intros Hl. rewrite map_map. apply map_ext_in. intros n Hin.
  apply (proj1 (Forall_forall _ _) Hl). by apply list_elem_of_In.
Qed.

(** Walking a qualified tree again, with more names in scope, changes nothing. *)
Lemma qualify_absorbed n outer inner :
  covers outer inner -> qualify_lexical outer (qualify_lexical inner n) = qualify_lexical inner n.
Proof.
  revert outer inner. induction n as [n IH] using node_children_ind. intros outer inner Hc.
  assert (children_all (fun m => qualify_lexical outer (qualify_lexical inner m) = qualify_lexical inner m) n) as H
    by (eapply children_all_impl; [|exact IH]; eauto).
  destruct n as [s|name args m|l r|tag ns|name args sfx ex|q sfx|rec ctes body|tag ns]; simpl in H.
  - done.
  - cbn [SqlQualify.qualify_lexical]. f_equal; [apply qualify_function_idem|by apply map_args_compose].
  - destruct H. cbn [SqlQualify.qualify_lexical]. by f_equal.
  - cbn [SqlQualify.qualify_lexical]. f_equal. by apply map_compose_ext.
  - cbn [SqlQualify.qualify_lexical]. f_equal; [|by apply map_args_compose].
    destruct args as [l|]; [by apply (qualify_factor_absorbed _ _ _ true)|by apply (qualify_factor_absorbed _ _ _ false)].
  - cbn [SqlQualify.qualify_lexical]. by f_equal.
  - clear H. destruct IH as [IHc IHb]. rewrite !qualify_lexical_query, lexical_definitions_aliases. f_equal.
    + unfold lexical_definitions. destruct rec.
      * assert (lower_aliases (map (fun c => (c.1, qualify_lexical (lower_aliases ctes :: inner) c.2)) ctes) = lower_aliases ctes) as ->
          by (apply lower_aliases_ext; by rewrite map_map).
        rewrite map_map. apply map_ext_in. intros c Hin. apply list_elem_of_In in Hin. simpl. f_equal.
        apply (proj1 (Forall_forall _ _) IHc _ Hin). by apply covers_cons.
      * generalize (∅ : gset string). induction IHc as [|c ctes Hx IHc IHl]; intros seen; simpl; [done|].
        f_equal; [|apply IHl]. simpl. f_equal. apply Hx. by apply covers_cons.
    + apply map_compose_ext. eapply Forall_impl; [exact IHb|]. intros m Hm. apply Hm. by apply covers_cons.
  - cbn [SqlQualify.qualify_lexical]. f_equal. by apply map_compose_ext.
Qed.

(** *** Heights *)

Lemma map_args_height (f : node -> node) args :
  args_all (fun n => height (f n) = height n) args ->
  forall name name' m, height (Call name (map_args f args) m) = height (Call name' args m).
Proof.
  intros Ha name name' m. destruct args as [l|]; [|done]. simpl in *. do 2 f_equal. rewrite map_map.
  apply map_ext_in. intros [nm v] Hin. apply list_elem_of_In in Hin.
  apply (proj1 (Forall_forall _ _) Ha) in Hin as [Hn Hv]. simpl in *.
  f_equal; [by destruct nm|by destruct v].
Qed.
Lemma map_height_ext (f : node -> node) ns :
  Forall (fun n => height (f n) = height n) ns -> map height (map f ns) = map height ns.
Proof.
  intros Ha. rewrite map_map. apply map_ext_in. intros n Hin.
  apply (proj1 (Forall_forall _ _) Ha). by apply list_elem_of_In.
Qed.

Lemma qualify_height n scopes : height (qualify_lexical scopes n) = height n.
Proof.
  revert scopes. induction n as [n IH] using node_children_ind. intros scopes.
  assert (children_all (fun m => height (qualify_lexical scopes m) = height m) n) as H
    by (eapply children_all_impl; [|exact IH]; eauto).
  destruct n as [s|name args m|l r|tag ns|name args sfx ex|q sfx|rec ctes body|tag ns]; simpl in H.
  - done.
  - by apply map_args_height.
  - destruct H as [Hl Hr]. simpl. by rewrite Hl, Hr.
  - simpl. by rewrite map_height_ext.
  - by apply (map_args_height (qualify_lexical scopes) args H [] [] false).
  - simpl. by rewrite H.
  - clear H. destruct IH as [IHc IHb]. rewrite qualify_lexical_query. cbn [height]. do 2 f_equal.
    + f_equal. unfold lexical_definitions. destruct rec.
      * rewrite map_map. apply map_ext_in. intros c Hin. apply list_elem_of_In in Hin. simpl.
        by apply (proj1 (Forall_forall _ _) IHc _ Hin).
      * generalize (∅ : gset string). induction IHc as [|c ctes Hx IHc IHl]; intros seen; simpl; [done|].
        by rewrite Hx, IHl.
    + f_equal. apply map_height_ext. eapply Forall_impl; [exact IHb|]. intros m Hm. apply Hm.
  - simpl. by rewrite map_height_ext.
Qed.

(** *** Main theorem *)

Lemma map_args_ext (f g : node -> node) args :
  args_all (fun n => f n = g n) args -> map_args f args = map_args g args.
Proof.
  destruct args as [l|]; [|done]. simpl. intros Hl. f_equal. apply map_ext_in.
  intros [nm v] Hin. apply list_elem_of_In in Hin. apply (proj1 (Forall_forall _ _) Hl) in Hin as [Hn Hv].
  simpl in *. f_equal; [destruct nm; simpl; congruence|destruct v; simpl; congruence].
Qed.
Lemma map_Forall_ext {A} (f g : A -> A) l : Forall (fun n => f n = g n) l -> map f l = map g l.
Proof. intros Hl. apply map_ext_in. intros n Hin. apply (proj1 (Forall_forall _ _) Hl). by apply list_elem_of_In. Qed.

(** The first walk of the definitions, if walks are lexical up to a height. *)
Lemma visit_definitions_lexical visit h scopes ctes :
  (forall m scopes, (height m <= h)%nat -> visit scopes m = qualify_lexical scopes m) ->
  Forall (fun c => (height c.2 <= h)%nat) ctes ->
  forall seen, visit_definitions visit scopes seen ctes = visit_definitions qualify_lexical scopes seen ctes.
Proof.
  intros Hv. induction 1 as [|c ctes Hc Hctes IH]; intros seen; simpl; [done|]. by rewrite Hv, IH.
Qed.

(** The second walk changes no definition. *)
Lemma second_walk scopes all ctes seen :
  seen ∪ lower_aliases ctes ⊆ all ->
  map (fun c => (c.1, qualify_lexical (all :: scopes) c.2)) (visit_definitions qualify_lexical scopes seen ctes)
  = visit_definitions qualify_lexical scopes seen ctes.
Proof.
  revert seen. induction ctes as [|c ctes IH]; intros seen Hs; simpl; [done|].
  unfold lower_aliases in *. simpl in Hs. rewrite IH by set_solver. do 2 f_equal.
  apply qualify_absorbed, covers_cons; [set_solver|apply covers_refl].
Qed.

(** C36: the visitor that qualifies catalog-owned SQL computes lexical scoping:
    although it walks the definitions of a WITH twice, with different names in
    scope, every table reference is qualified exactly when no preceding common
    table expression (in a recursive WITH: none at all) hides it and the catalog
    has the object, and no function reference depends on the scope. *)
Theorem qualify_is_lexical (n : node) (scopes : list (gset string)) (fuel : nat) :
  (height n <= fuel)%nat -> qualify_catalog_sql fuel scopes n = qualify_lexical scopes n.
Proof.
  revert n scopes. induction fuel as [|fuel IH]; intros n scopes Hh; [by destruct n; simpl in Hh; lia|].
  apply children_height in Hh.
  assert (children_all (fun m => qualify_catalog_sql fuel scopes m = qualify_lexical scopes m) n) as H
    by (eapply children_all_impl; [|exact Hh]; intros m Hm; by apply IH).
  destruct n as [s|name args m|l r|tag ns|name args sfx ex|q sfx|rec ctes body|tag ns]; simpl in H.
  - done.
  - simpl. f_equal. by apply map_args_ext.
  - destruct H as [Hl Hr]. simpl. by rewrite Hl, Hr.
  - simpl. f_equal. by apply map_Forall_ext.
  - simpl. f_equal. by apply map_args_ext.
  - simpl. by rewrite H.
  - clear H. destruct Hh as [Hc Hb]. rewrite qualify_lexical_query. cbn [SqlQualify.qualify_catalog_sql].
    assert (forall l, map fst l = map fst ctes ->
      map (qualify_catalog_sql fuel (lower_aliases l :: scopes)) body
      = map (qualify_lexical (lower_aliases ctes :: scopes)) body) as Hbody.
    { intros l Hl. rewrite (lower_aliases_ext l ctes Hl). apply map_Forall_ext.
      eapply Forall_impl; [exact Hb|]. intros m Hm. by apply IH. }
    destruct rec; f_equal; try by apply Hbody.
    + simpl. apply map_ext_in. intros c Hin. apply list_elem_of_In in Hin. f_equal.
      apply IH. by apply (proj1 (Forall_forall _ _) Hc).
    + rewrite (visit_definitions_lexical _ fuel) by done.
      assert (lower_aliases (visit_definitions qualify_lexical scopes ∅ ctes) = lower_aliases ctes) as ->
        by (apply lower_aliases_ext, visit_definitions_aliases).
      simpl. rewrite <- (second_walk scopes (lower_aliases ctes) ctes ∅) at 2 by set_solver.
      apply map_ext_in. intros c Hin. apply list_elem_of_In in Hin. f_equal. apply IH.
      assert (Forall (fun c => (height c.2 <= fuel)%nat) (visit_definitions qualify_lexical scopes ∅ ctes)) as Hall.
      { generalize (∅ : gset string). clear -Hc. induction Hc as [|c ctes Hx Hc IH]; intros seen; simpl; [done|].
        constructor; [simpl; by rewrite qualify_height|apply IH]. }
      by apply (proj1 (Forall_forall _ _) Hall).
    + apply Hbody. apply visit_definitions_aliases.
  - simpl. f_equal. by apply map_Forall_ext.
Qed.
End Lexical.

(** The crate's example: a definition does not see itself, the body does. *)
Definition ex_namespaces : gmap string SqlMacroNamespace := {[ "data" := mkNamespace ∅ ∅ {[ "items" ]} ]}.
Definition ex_items : node := Table [PartIdent "items"] None "" false.
Definition ex_with : node := Query false [("Items", ex_items)] [ex_items].

Lemma qualify_is_lexical_witness :
  qualify_catalog_sql "ex" "data" ex_namespaces 5 [] ex_with
  = Query false [("Items", Table [PartIdent "ex"; PartIdent "data"; PartIdent "items"] None "" false)] [ex_items].
Proof. rewrite (qualify_is_lexical "ex" "data" ex_namespaces ex_with [] 5); [vm_compute; reflexivity|simpl; lia]. Defined.
