(* ===== verification/Protocol3.v ===== *)
(** * Schema paths

    protocol_v3.rs: VGI 3.0 names a schema by a path, DataFusion by one name.
    Only flat paths are accepted; nested ones are displayed, unambiguously. *)

From S2P Require Import Prelude Text AttachSql AttachSqlTheorems Registry.
From Stdlib Require Import Strings.Ascii.

Definition display_schema_path (path : list string) : string :=
  String.concat "/" (map (fun part => debug (bytes_of part)) path).

Definition require_flat_schema_path (path : list string) (object : string) : result string :=
  match path with
  | [] => Err (NotImplemented ("VGI 3.0 " +:+ object +:+ " has an empty schema path"))
  | [name] =>
      if negb (String.eqb name "") then Ok name
      else Err (NotImplemented ("VGI 3.0 " +:+ object +:+ " uses nested schema path "
        +:+ display_schema_path path +:+ "; DataFusion's catalog SPI exposes only one schema level"))
  | _ => Err (NotImplemented ("VGI 3.0 " +:+ object +:+ " uses nested schema path "
        +:+ display_schema_path path +:+ "; DataFusion's catalog SPI exposes only one schema level"))
  end.

Definition display_column_path (path : list string) : string :=
  match path with [name] => name | _ => display_schema_path path end.

(** ** The display is unambiguous *)

(** Read back one escaped character; [None] at a quotation mark. *)
Definition read_char (s : str) : option (ascii * str) :=
  match s with
  | [] => None
  | c :: r =>
      if Ascii.eqb c quote_mark then None
      else if Ascii.eqb c "\" then
        match r with
        | d :: r' =>
            if Ascii.eqb d "0" then Some (ascii_of_nat 0, r')
            else if Ascii.eqb d "t" then Some (ascii_of_nat 9, r')
            else if Ascii.eqb d "n" then Some (ascii_of_nat 10, r')
            else if Ascii.eqb d "r" then Some (ascii_of_nat 13, r')
            else if Ascii.eqb d "u" then
              match r' with
              | _ :: a :: b :: r'' =>
                  if Ascii.eqb b "}" then Some (ascii_of_nat (default 0 (hex_value a)), r'')
                  else match r'' with
                       | _ :: r3 => Some (ascii_of_nat (16 * default 0 (hex_value a) + default 0 (hex_value b)), r3)
                       | [] => None
                       end
              | _ => None
              end
            else Some (d, r')
        | [] => None
        end
      else Some (c, r)
  end%nat.
Lemma read_debug_char c rest : read_char (debug_char c ++ rest) = Some (c, rest).
Proof. by_byte c. Qed.

(** An escaped text and its closing mark determine the text. *)
Lemma escaped_inj a b x y :
  concat (map debug_char a) ++ quote_mark :: x = concat (map debug_char b) ++ quote_mark :: y -> a = b /\ x = y.
Proof.
  assert (forall r, read_char (quote_mark :: r) = None) as Hq by done.
  revert b. induction a as [|c a IH]; intros [|d b]; cbn [map concat app]; intros He.
  - by injection He.
  - exfalso. apply (f_equal read_char) in He. rewrite <- app_assoc, read_debug_char, Hq in He. done.
  - exfalso. apply (f_equal read_char) in He. rewrite <- app_assoc, read_debug_char, Hq in He. done.
  - rewrite <- !app_assoc in He. apply (f_equal read_char) in He. rewrite !read_debug_char in He.
    injection He as -> He. by apply IH in He as [-> ->].
Qed.

(** The bytes of a displayed path. *)
Fixpoint path_bytes (path : list string) : str :=
  match path with
  | [] => []
  | [p] => quote_mark :: concat (map debug_char (bytes_of p)) ++ [quote_mark]
  | p :: path => quote_mark :: concat (map debug_char (bytes_of p)) ++ quote_mark :: "/"%char :: path_bytes path
  end.
Lemma display_bytes path : bytes_of (display_schema_path path) = path_bytes path.
Proof.
  unfold display_schema_path. induction path as [|p path IH]; [done|].
  assert (bytes_of (debug (bytes_of p)) = quote_mark :: concat (map debug_char (bytes_of p)) ++ [quote_mark]) as Hd
    by (unfold debug; by rewrite bytes_of_string_of).
  destruct path as [|q path]; [by cbn [map String.concat]|].
  cbn [map]. change (String.concat "/" (debug (bytes_of p) :: debug (bytes_of q) :: map (fun part => debug (bytes_of part)) path))
    with (debug (bytes_of p) +:+ "/" +:+ String.concat "/" (map (fun part => debug (bytes_of part)) (q :: path))).
  rewrite !bytes_of_app, Hd, IH. change (bytes_of "/") with ["/"%char].
  cbn [path_bytes app]. rewrite <- app_assoc. done.
Qed.

(** Displayed schema paths are unambiguous: two paths with the same display
    are the same path, whatever separators or quotes their names contain; and a
    path is accepted as a flat name exactly when it is one non-empty name. *)
Theorem display_schema_path_inj (p q : list string) (object name : string) :
  (display_schema_path p = display_schema_path q <-> p = q)
  /\ (require_flat_schema_path p object = Ok name <-> p = [name] /\ name <> "").
Proof.
  split.
  - split; [|by intros ->]. intros He. apply (f_equal bytes_of) in He. rewrite !display_bytes in He.
    revert q He. induction p as [|a p IH]; intros [|b q] He; [done| | |].
    + by destruct q.
    + by destruct p.
    + destruct p as [|a' p], q as [|b' q]; cbn [path_bytes] in He; injection He as He.
      * apply escaped_inj in He as [Hab _]. apply bytes_of_inj in Hab. by subst.
      * apply escaped_inj in He as [_ Hr]. done.
      * apply escaped_inj in He as [_ Hr]. done.
      * apply escaped_inj in He as [Hab Hr]. apply bytes_of_inj in Hab. subst b. injection Hr as Hr.
        f_equal. by apply IH.
  - destruct p as [|a [|b p]]; simpl; try by split; [|intros [? _]].
    destruct (String.eqb_spec a "") as [->|Ha]; simpl; split; try done.
    + intros [[= <-] ?]. done.
    + by intros [= <-].
    + by intros [[= <-] _].
Qed.
