(* ===== verification/AttachFlow.v ===== *)
(** * Attaching and detaching catalogs

    [attach], [attach_one] and [detach] of session.rs on the adapter's state of
    one session: DataFusion's function registries and catalog list, the default
    schemas, the macros, and the metadata of the runtime. The worker's answer to
    discovery is a parameter that may differ from request to request. Companion
    catalogs announced by a worker are attached breadth first, to eight levels. *)

From S2P Require Import Prelude Text AttachSql Arrow Settings Identity Connections Registry SqlTree.
From S2P Require Import Macros SqlQualify Protocol3.
From Stdlib Require Import Strings.Ascii.

(** ** What discovery returns *)

Record MacroOverload := mkOverload {
  mo_type : string; mo_definition : string; mo_schema_path : list string; mo_parameters : list string;
}.
Record MacroInfo := mkMacroInfo {
  mi_name : string; mi_schema_path : list string; mi_type : string; mi_overloads : list MacroOverload;
}.
(** [AttachCatalogInfo]: a companion catalog. *)
Record AttachCatalogInfo := mkCompanion {
  ac_target : string; ac_alias : string; ac_db_type : string; ac_secret_ref : string;
  ac_options : list (string * string); ac_required : bool;
}.

Section Flow.
Context {ArgSpecs Value : Type}.

(** [VgiSchemaProvider] and [VgiCatalogProvider] *)
Record SchemaProvider := mkSchemaProvider {
  sp_functions : @SchemaFunctions ArgSpecs;
  sp_tables : list string;
  sp_views : list string;
  sp_macros : list MacroInfo;
}.
Record Provider := mkProvider {
  pr_schemas : list (string * SchemaProvider);
  pr_default_schema : string;
  pr_prefix : string;
  pr_globals : list GlobalInfo;
  pr_companions : list AttachCatalogInfo;
}.

(** ** State *)

(** [catalogs] maps an alias to the worker catalog mounted there, or to [None]
    for the empty catalog DETACH leaves. *)
Record Session := mkSession {
  registry : Registry;
  catalogs : gmap string (option string);
  default_schemas : gmap string string;
  macros : gmap string (list (@SqlMacro Value));
  metadata : gmap string string;
}.

(** ** Names and macros of a catalog *)

Definition lowers (l : list string) : gset string := list_to_set (map to_ascii_lowercase l).
(** One schema of [sql_catalog_namespace]. *)
Definition schema_namespace (sp : SchemaProvider) : SqlMacroNamespace :=
  let fs := sp_functions sp in
  let of_kind k := omap (fun info => match sql_macro_kind (mi_type info) with
                                     | inl k' => if bool_decide (k' = k) then Some (mi_name info) else None
                                     | inr _ => None
                                     end) (sp_macros sp) in
  mkNamespace (lowers (scalars fs ++ (aggregates fs).*1 ++ of_kind Scalar))
              (lowers ((table_functions fs).*1 ++ of_kind TableMacro))
              (lowers (sp_tables sp ++ sp_views sp)).
Definition sql_catalog_namespace (p : Provider) : gmap string SqlMacroNamespace :=
  fold_left (fun m e => <[to_ascii_lowercase e.1 := schema_namespace e.2]> m) (pr_schemas p) ∅.

(** [qualify_macro_body] *)
Definition qualify_macro_body (b : SqlMacroBody) (catalog schema : string)
    (ns : gmap string SqlMacroNamespace) : SqlMacroBody :=
  match b with
  | ScalarBody e => ScalarBody (qualify_catalog_sql catalog schema ns (height e) [] e)
  | TableBody q => TableBody (qualify_catalog_sql catalog schema ns (height q) [] q)
  | Invalid r => Invalid r
  end.

(** sqlparser on a definition, its rendering of expressions, and vgi_client's
    decoding of parameter defaults. *)
Variable parse_definition : SqlMacroKind -> string -> list (option ParsedQuery) + string.
Variable expr_text : node -> string.
Variable decode_macro_defaults : MacroOverload -> list (string * Value) + string.

(** One overload of a family in [register_macros]. *)
Definition macro_overload (alias family_schema : string) (ns : gmap string SqlMacroNamespace)
    (o : MacroOverload) : SqlMacro :=
  match sql_macro_kind (mo_type o) with
  | inr error => mkMacro Scalar [] ∅ (Invalid error)
  | inl k =>
      let body := parse_macro_body expr_text k (parse_definition k (mo_definition o)) in
      let '(schema, body) :=
        match require_flat_schema_path (mo_schema_path o) "macro overload" with
        | Ok schema => (schema, body)
        | Err e => (family_schema, Invalid (error_text e))
        end in
      let '(defaults, body) :=
        match decode_macro_defaults o with
        | inl ds => (fold_left (fun m d => <[to_ascii_lowercase d.1 := d.2]> m) ds ∅, body)
        | inr e => (∅, Invalid ("invalid parameter defaults: " +:+ e))
        end in
      mkMacro k (mo_parameters o) defaults (qualify_macro_body body alias schema ns)
  end.
Definition macro_family (alias : string) (ns : gmap string SqlMacroNamespace) (info : MacroInfo)
    : list SqlMacro :=
  match map (macro_overload alias (schema_leaf (mi_schema_path info)) ns) (mi_overloads info) with
  | [] => [mkMacro Scalar [] ∅ (Invalid "macro declares no overloads")]
  | family => family
  end.

Definition alias_prefix (alias : string) : str := bytes_of (to_ascii_lowercase alias +:+ ".").
(** [macros.retain(|name, _| !name.starts_with(&prefix))] *)
Definition drop_alias_macros (ms : gmap string (list SqlMacro)) (alias : string)
    : gmap string (list (@SqlMacro Value)) :=
  filter (fun e => starts_with (alias_prefix alias) (bytes_of e.1) = false) ms.

Definition register_macro (alias default_schema : string) (ns : gmap string SqlMacroNamespace)
    (ms : gmap string (list SqlMacro)) (info : MacroInfo) : gmap string (list (@SqlMacro Value)) :=
  let family_schema := schema_leaf (mi_schema_path info) in
  let family := macro_family alias ns info in
  let ms := <[to_ascii_lowercase (alias +:+ "." +:+ family_schema +:+ "." +:+ mi_name info) := family]> ms in
  if eq_ignore_ascii_case family_schema default_schema
  then <[to_ascii_lowercase (alias +:+ "." +:+ mi_name info) := family]> ms else ms.
Definition register_macros (ms : gmap string (list SqlMacro)) (alias : string) (p : Provider)
    : gmap string (list (@SqlMacro Value)) :=
  fold_left (register_macro alias (pr_default_schema p) (sql_catalog_namespace p))
    (concat (map (fun e => sp_macros e.2) (pr_schemas p))) (drop_alias_macros ms alias).

(** ** Options for the worker *)

Definition IMPLEMENTED_LOCAL_OPTIONS : list string :=
  ["cache"; "pool"; "pool_max"; "pool_timeout"; "rpc_timeout"; "worker_debug"; "launcher_idle_timeout";
   "launcher_state_dir"; "data_version_spec"; "implementation_version"; "bearer_token";
   "oauth_refresh_token"; "attach_companions"; "global_functions"; "allow_local_format_paths"].
Definition UNAVAILABLE_LOCAL_OPTIONS : list string := ["secrets"; "attach_companion_secrets"].

(** [AttachOptionSpec] *)
Record OptionSpec := mkOptionSpec { os_name : string; os_type : DataType; os_required : bool }.

(** Values of options: blobs are built here; other expressions are checked by
    sqlparser and evaluated and cast by DataFusion. *)
Context {OptionValue : Type}.
Variable blob_value : DataType -> list ascii -> OptionValue.
Variable validate_constant_option : string -> string -> result unit.
Variable select_and_cast : string -> string -> DataType -> result OptionValue.
Variable encode_attach_options : list (string * DataType * OptionValue) -> result (list ascii).

Definition evaluate_attach_option (name raw : string) (ty : DataType) : result OptionValue :=
  _ ← validate_constant_option name raw;
  if bool_decide (ty = Binary) || bool_decide (ty = LargeBinary) then
    blob ← blob_literal (bytes_of raw);
    match blob with
    | Some bytes => Ok (blob_value ty bytes)
    | None => select_and_cast name raw ty
    end
  else select_and_cast name raw ty.

(** The options forwarded to the worker, in the order of the [BTreeMap]. *)
Definition worker_values (spec : AttachSpec) : list (string * string) :=
  merge_sort entry_le (filter (fun e => e.1 ∉ IMPLEMENTED_LOCAL_OPTIONS) (map_to_list (options spec))).

Definition declared_option (specs : list OptionSpec) (name : string) : option OptionSpec :=
  first_some (fun s => if eq_ignore_ascii_case (os_name s) name then Some s else None) specs.
Definition join_texts (sep : string) (l : list string) : string := String.concat sep l.

(** One option of the batch. *)
Definition option_column (specs : list OptionSpec) (e : string * string)
    : result (string * DataType * OptionValue) :=
  match declared_option specs e.1 with
  | None => Err (Panicked "validated above")
  | Some s => v ← evaluate_attach_option (os_name s) e.2 (os_type s); Ok (os_name s, os_type s, v)
  end.

(** [build_attach_options]; [worker_specs] is the worker's declaration, asked
    for when there are values to send. *)
Definition build_attach_options (spec : AttachSpec) (worker_specs : result (list OptionSpec))
    : result AttachOptions :=
  match list_find (fun n => is_Some (options spec !! n)) UNAVAILABLE_LOCAL_OPTIONS with
  | Some (_, n) => Err (Plan ("ATTACH option `" +:+ n +:+ "` is not supported by vgi-datafusion yet"))
  | None =>
      data_version ← text_option spec "data_version_spec";
      implementation ← text_option spec "implementation_version";
      match worker_values spec with
      | [] => Ok (mkAttachOptions None data_version implementation)
      | values =>
          specs ← worker_specs;
          let accepted := join_texts ", " (map os_name specs) in
          match list_find (fun e => declared_option specs e.1 = None) values with
          | Some (_, e) =>
              Err (Plan ("unknown ATTACH option `" +:+ e.1 +:+ "` for catalog `" +:+ catalog spec
                +:+ "`; accepted worker options: " +:+ (if String.eqb accepted "" then "(none)" else accepted)))
          | None =>
              match filter (fun s => os_required s = true
                              /\ existsb (fun e => eq_ignore_ascii_case (os_name s) e.1) values = false) specs with
              | [] =>
                  columns ← result_collect (option_column specs) values;
                  encoded ← encode_attach_options columns;
                  Ok (mkAttachOptions (Some encoded) data_version implementation)
              | missing =>
                  Err (Plan ("catalog `" +:+ catalog spec +:+ "` requires ATTACH option(s) "
                    +:+ join_texts ", " (map (fun s => "`" +:+ os_name s +:+ "`") missing)))
              end
          end
      end
  end.

(** ** One catalog *)

Variable parse_specs : list ascii -> result ArgSpecs.
Variable declarations : ArgSpecs -> list ArgSpec.
Variable minimum_positional_arity : ArgSpecs -> nat.
Variable parse_location : string -> result VgiLocation.
Variables default_max_idle default_idle_timeout : Z.
(** The services of the session: their address and timeout. *)
Variable session_runtime : nat.
Variable session_timeout : option Z.

(** A worker: its option declarations for a catalog, and discovery through a
    configured connection. *)
Record Worker := mkWorker {
  w_options : VgiConnection -> string -> result (list OptionSpec);
  w_discover : VgiConnection -> string -> string -> result Provider;
}.

Definition global_functions_option (spec : AttachSpec) : result bool :=
  v ← text_option spec "global_functions";
  match v with
  | None => Ok true
  | Some v => let v := trim v in
              if eq_ignore_ascii_case v "true" then Ok true
              else if eq_ignore_ascii_case v "false" then Ok false
              else Err (Plan "ATTACH option `global_functions` must be true or false")
  end.

(** The local policy and the connection: nothing of the session changes. *)
Definition connect_attach (spec : AttachSpec) : result (bool * VgiConnection) :=
  globals ← global_functions_option spec;
  conn ← connection_with_runtime parse_location default_max_idle default_idle_timeout spec 0 0
           session_runtime session_timeout;
  Ok (globals, conn).
(** [crate::diagnostics::register], which [sql] has called as well. *)
Definition with_diagnostics (s : Session) : Session :=
  mkSession (register_diagnostics (registry s)) (catalogs s) (default_schemas s) (macros s) (metadata s).
(** Discovery: nothing of the session changes. *)
Definition prepare_attach (w : Worker) (spec : AttachSpec) (globals : bool) (conn : VgiConnection)
    : result (Provider * list (@PreparedGlobalFunction ArgSpecs)) :=
  o ← build_attach_options spec (w_options w conn (catalog spec));
  let conn := with_catalog_attach_options conn (catalog spec) o 0 in
  p ← w_discover w conn (catalog spec) (alias spec);
  prepared ← (if globals
              then prepare_global_functions minimum_positional_arity parse_specs (pr_prefix p) (pr_globals p) []
              else Ok []);
  Ok (p, prepared).

Definition function_schemas (p : Provider) : list (string * @SchemaFunctions ArgSpecs) :=
  map (fun e => (e.1, sp_functions e.2)) (pr_schemas p).

(** Registration, which cannot fail. *)
Definition commit_attach (s : Session) (spec : AttachSpec) (p : Provider)
    (prepared : list (@PreparedGlobalFunction ArgSpecs)) : Session :=
  let '(r, _) := publish_catalog declarations minimum_positional_arity (registry s) (catalog spec)
                   (alias spec) (function_schemas p) prepared in
  mkSession r
    (<[alias spec := Some (catalog spec)]> (catalogs s))
    (<[to_ascii_lowercase (alias spec) := pr_default_schema p]> (default_schemas s))
    (register_macros (macros s) (alias spec) p)
    (<[to_ascii_lowercase (alias spec) := catalog spec]> (metadata s)).

Definition attach_one (w : Worker) (s : Session) (spec : AttachSpec)
    : Session * result (list AttachCatalogInfo) :=
  match connect_attach spec with
  | Err e => (s, Err e)
  | Ok (globals, conn) =>
      let s := with_diagnostics s in
      match prepare_attach w spec globals conn with
      | Err e => (s, Err e)
      | Ok (p, prepared) => (commit_attach s spec p prepared, Ok (pr_companions p))
      end
  end.

(** ** Companions *)

(** The options of a companion: the declared ones, then those embedded in the
    target that are not declared. *)
Definition embed_option (m : gmap string string) (entry : str) : gmap string string :=
  match split_once "=" entry with
  | Some (k, v) => let k := to_ascii_lowercase (string_of k) in
                   match m !! k with Some _ => m | None => <[k := string_of (sql_string v)]> m end
  | None => m
  end.
Definition companion_options (declared : list (string * string)) (embedded : str) : gmap string string :=
  fold_left embed_option (filter (fun p => nonempty p) (split_char "&" embedded))
    (fold_left (fun m e => <[to_ascii_lowercase e.1 := string_of (sql_string (bytes_of e.2))]> m) declared ∅).

(** [companion_spec]: [Ok None] for a companion of another system. *)
Definition companion_spec (parent : AttachSpec) (info : AttachCatalogInfo) : result (option AttachSpec) :=
  if negb (eq_ignore_ascii_case (ac_db_type info) "vgi") then
    if ac_required info
    then Err (Plan ("required companion `" +:+ ac_alias info +:+ "` has type `" +:+ ac_db_type info
                    +:+ "`; vgi-datafusion only attaches VGI companions"))
    else Ok None
  else if negb (String.eqb (ac_secret_ref info) "")
  then Err (Plan ("VGI companion `" +:+ ac_alias info +:+ "` requires secret reference `" +:+ ac_secret_ref info
                  +:+ "`; companion secrets are not exposed by DataFusion"))
  else
    let target := bytes_of (ac_target info) in
    let '(cat, embedded) := default (target, []) (split_once "?" target) in
    let al := if String.eqb (ac_alias info) "" then string_of (until ["?"%char] target) else ac_alias info in
    let opts := companion_options (ac_options info) embedded in
    loc ← match opts !! "location" with
          | Some l => string_of <$> option_string (bytes_of l)
          | None => Ok (location parent)
          end;
    Ok (Some (mkAttachSpec (string_of cat) al loc (delete "location" opts))).

Definition companion_key (spec : AttachSpec) : string :=
  location spec +:+ String (ascii_of_nat 0) "" +:+ catalog spec.

Abbreviation Pending := (list (AttachCatalogInfo * nat)).

(** What one turn of the loop does with a companion: skip it, fail, or attach. *)
Inductive Turn := Skip | Fail (e : DFError) | AttachIt (spec : AttachSpec).
Definition companion_turn (s : Session) (root : AttachSpec) (seen : list string)
    (info : AttachCatalogInfo) (depth : nat) : Turn :=
  if (8 <? depth)%nat then
    if ac_required info then Fail (Plan "required VGI companion catalog nesting exceeds 8 levels") else Skip
  else
    match companion_spec root info with
    | Ok None => Skip
    | Err e => if ac_required info then Fail e else Skip
    | Ok (Some spec) =>
        match catalogs s !! alias spec with
        | Some _ =>
            if ac_required info
            then Fail (Plan ("required VGI companion alias `" +:+ alias spec +:+ "` is already registered"))
            else Skip
        | None =>
            if vec_contains (companion_key spec) seen then
              if ac_required info then Fail (Plan "required VGI companion catalog cycle detected") else Skip
            else AttachIt spec
        end
    end.

(** The loop of [attach]; [worlds] is the worker at the successive attaches and
    [log] the catalogs attached so far with what they announced, newest first. *)
Abbreviation Log := (list (AttachSpec * nat * list AttachCatalogInfo)).
Fixpoint attach_companions (fuel : nat) (worlds : nat -> Worker) (root : AttachSpec) (s : Session)
    (pending : Pending) (seen : list string) (log : Log) : option (Session * Log * result unit) :=
  match fuel with
  | O => None
  | S fuel =>
      match pending with
      | [] => Some (s, log, Ok tt)
      | (info, depth) :: pending =>
          match companion_turn s root seen info depth with
          | Skip => attach_companions fuel worlds root s pending seen log
          | Fail e => Some (s, log, Err e)
          | AttachIt spec =>
              match attach_one (worlds (length log)) s spec with
              | (s, Err e) => Some (s, log, Err e)
              | (s, Ok nested) =>
                  attach_companions fuel worlds root s
                    (pending ++ map (fun c => (c, S depth)) nested)
                    (companion_key spec :: seen) ((spec, depth, nested) :: log)
              end
          end
      end
  end.

Definition attach_companions_option (spec : AttachSpec) : result bool :=
  v ← text_option spec "attach_companions";
  match v with
  | None => Ok true
  | Some v => ok_or (Plan "ATTACH option `attach_companions` must be true or false") (parse_bool_str v)
  end.

(** [attach]; the session's lifecycle lock makes it one step of the session. *)
Definition attach_catalog (fuel : nat) (worlds : nat -> Worker) (s : Session) (spec : AttachSpec)
    : option (Session * Log * result unit) :=
  match attach_companions_option spec with
  | Err e => Some (s, [], Err e)
  | Ok enabled =>
      match attach_one (worlds 0) s spec with
      | (s, Err e) => Some (s, [], Err e)
      | (s, Ok companions) =>
          let log := [(spec, 0, companions)] in
          if negb enabled then Some (s, log, Ok tt)
          else attach_companions fuel worlds spec s (map (fun c => (c, 1)) companions)
                 [companion_key spec] log
      end
  end%nat.

(** ** DETACH *)

Definition detach (s : Session) (al : string) : Session * result unit :=
  match catalogs s !! al with
  | None => (s, Err (Plan ("no catalog attached as " +:+ debug (bytes_of al))))
  | Some _ =>
      (mkSession (deregister_alias_functions (registry s) al)
         (<[al := None]> (catalogs s))
         (delete (to_ascii_lowercase al) (default_schemas s))
         (drop_alias_macros (macros s) al)
         (delete (to_ascii_lowercase al) (metadata s)), Ok tt)
  end.
End Flow.
