(* ===== verification/AttachFlowTheorems.v ===== *)
(** * Attaching: termination, safety, and taking it back *)

From S2P Require Import Prelude Text AttachSql AttachSqlTheorems Arrow Settings Identity.
From S2P Require Import Connections Registry RegistryTheorems SqlTree Macros AttachFlow.
From Stdlib Require Import Strings.Ascii.

Section Flow.
Context {ArgSpecs Value OptionValue : Type}.
Context (parse_definition : SqlMacroKind -> string -> list (option ParsedQuery) + string).
Context (expr_text : node -> string) (decode_macro_defaults : MacroOverload -> list (string * Value) + string).
Context (blob_value : DataType -> list ascii -> OptionValue).
Context (validate_constant_option : string -> string -> result unit).
Context (select_and_cast : string -> string -> DataType -> result OptionValue).
Context (encode_attach_options : list (string * DataType * OptionValue) -> result (list ascii)).
Context (parse_specs : list ascii -> result ArgSpecs) (declarations : ArgSpecs -> list ArgSpec).
Context (minimum_positional_arity : ArgSpecs -> nat) (parse_location : string -> result VgiLocation).
Context (max_idle idle_timeout : Z) (session_runtime : nat) (session_timeout : option Z).

Abbreviation Session := (@Session Value).
Abbreviation Worker := (@Worker ArgSpecs).
Abbreviation build_attach_options := (build_attach_options blob_value validate_constant_option
  select_and_cast encode_attach_options).
Abbreviation attach_one := (attach_one parse_definition expr_text decode_macro_defaults blob_value
  validate_constant_option select_and_cast encode_attach_options parse_specs declarations
  minimum_positional_arity parse_location max_idle idle_timeout session_runtime session_timeout).
Abbreviation attach_companions := (attach_companions parse_definition expr_text decode_macro_defaults blob_value
  validate_constant_option select_and_cast encode_attach_options parse_specs declarations
  minimum_positional_arity parse_location max_idle idle_timeout session_runtime session_timeout).
Abbreviation attach_catalog := (attach_catalog parse_definition expr_text decode_macro_defaults blob_value
  validate_constant_option select_and_cast encode_attach_options parse_specs declarations
  minimum_positional_arity parse_location max_idle idle_timeout session_runtime session_timeout).

(** ** Termination *)

(** Companions of depth [9 - k] and more need [k] more levels. *)
Definition level (k : nat) (pending : list (AttachCatalogInfo * nat)) : Prop :=
  Forall (fun c => (9 <= c.2 + k)%nat) pending.

Lemma companion_turn_deep (s : Session) root seen info depth :
  (9 <= depth)%nat -> forall spec, companion_turn s root seen info depth <> AttachIt spec.
Proof.
  intros Hd spec. unfold companion_turn. rewrite (proj2 (Nat.ltb_lt 8 depth)) by lia. by destruct (ac_required info).
Qed.

Lemma attach_companions_end k (worlds : nat -> Worker) root cur next (s : Session) seen log :
  level k cur -> level (pred k) next ->
  exists fuel, attach_companions fuel worlds root s (cur ++ next) seen log <> None.
Proof.
  revert cur next s seen log. induction k as [|k IHk].
  - intros cur next s seen log Hc Hn. assert (level 0 (cur ++ next)) as H by (by apply Forall_app).
    revert H. generalize (cur ++ next). clear Hc Hn cur next. intros pending H. revert s seen log.
    induction H as [|[info depth] pending Hd H IH]; intros s seen log; [by exists 1%nat|]. simpl in Hd.
    destruct (IH s seen log) as [fuel Hf]. exists (S fuel). cbn [AttachFlow.attach_companions].
    destruct (companion_turn s root seen info depth) as [|e|spec] eqn:Ht; [done|done|].
    exfalso. revert Ht. apply companion_turn_deep. lia.
  - intros cur. induction cur as [|[info depth] cur IH]; intros next s seen log Hc Hn.
    + specialize (IHk next [] s seen log Hn ltac:(constructor)). by rewrite app_nil_r in IHk.
    + apply Forall_cons in Hc as [Hd Hc]. simpl in Hd, Hn.
      destruct (companion_turn s root seen info depth) as [|e|spec] eqn:Ht.
      * destruct (IH next s seen log Hc Hn) as [fuel Hf]. exists (S fuel).
        cbn [app AttachFlow.attach_companions]. by rewrite Ht.
      * exists 1%nat. cbn [app AttachFlow.attach_companions]. by rewrite Ht.
      * destruct (attach_one (worlds (length log)) s spec) as [s' [nested|e]] eqn:Ha.
        -- destruct (IH (next ++ map (fun c => (c, S depth)) nested) s' (companion_key spec :: seen)
                       ((spec, depth, nested) :: log) Hc) as [fuel Hf].
           { apply Forall_app. split; [done|]. apply Forall_map, Forall_true. intros c. simpl. lia. }
           exists (S fuel). cbn [app AttachFlow.attach_companions]. by rewrite Ht, Ha, <- app_assoc.
        -- exists 1%nat. cbn [app AttachFlow.attach_companions]. by rewrite Ht, Ha.
Qed.

(** Attaching a catalog always ends, whatever companions the workers
    announce at each request, also when they announce each other in cycles or
    ever new ones. *)
Theorem attach_ends (worlds : nat -> Worker) (s : Session) (spec : AttachSpec) :
  exists fuel, attach_catalog fuel worlds s spec <> None.
Proof.
  unfold AttachFlow.attach_catalog. destruct (attach_companions_option spec) as [enabled|e]; [|by exists 0%nat].
  destruct (attach_one (worlds 0%nat) s spec) as [s' [companions|e]]; [|by exists 0%nat].
  destruct enabled; simpl; [|by exists 0%nat].
  destruct (attach_companions_end 8 worlds spec (map (fun c => (c, 1%nat)) companions) [] s' [companion_key spec]
              [(spec, 0%nat, companions)]) as [fuel Hf].
  - apply Forall_map, Forall_true. intros c. simpl. lia.
  - constructor.
  - exists fuel. by rewrite app_nil_r in Hf.
Qed.

(** ** What attaching changes *)

Abbreviation Log := (list (AttachSpec * nat * list AttachCatalogInfo)).
Abbreviation commit_attach := (commit_attach parse_definition expr_text decode_macro_defaults declarations
  minimum_positional_arity).

Lemma attach_one_cases w (s : Session) spec s' r :
  attach_one w s spec = (s', r) ->
  (exists e, (s' = s \/ s' = with_diagnostics s) /\ r = Err e)
  \/ exists p prepared, r = Ok (pr_companions p) /\ s' = commit_attach (with_diagnostics s) spec p prepared.
Proof.
  unfold AttachFlow.attach_one. destruct (connect_attach _ _ _ _ _ spec) as [[globals conn]|e];
    [|intros [= <- <-]; left; eauto].
  cbv zeta. destruct (prepare_attach _ _ _ _ _ _ w spec globals conn) as [[p prepared]|e];
    intros [= <- <-]; [right|left]; eauto.
Qed.

Lemma commit_catalogs (s : Session) spec p (prepared : list (@PreparedGlobalFunction ArgSpecs)) :
  catalogs (commit_attach s spec p prepared) = <[alias spec := Some (catalog spec)]> (catalogs s).
Proof. unfold AttachFlow.commit_attach. by destruct (publish_catalog _ _ _ _ _ _ _). Qed.

Lemma attach_one_catalogs w (s : Session) spec s' r :
  attach_one w s spec = (s', r) ->
  catalogs s' = match r with Ok _ => <[alias spec := Some (catalog spec)]> (catalogs s) | Err _ => catalogs s end.
Proof.
  intros [(e & [->| ->] & ->)|(p & prepared & -> & ->)]%attach_one_cases; [done..|]. by rewrite commit_catalogs.
Qed.

(** The catalogs a statement has mounted, newest first. *)
Definition mounted (log : Log) : list AttachSpec := map (fun e => e.1.1) log.

(** The progress of the loop: the catalogs of the log are mounted under their
    aliases, which differ and, the root's apart, were not registered when the
    statement began; no two have the same key; every other alias has what it
    had. *)
Record progress (s0 : Session) (root : AttachSpec) (s : Session) (seen : list string) (log : Log) : Prop := {
  pg_keys : map companion_key (mounted log) = seen;
  pg_nodup : NoDup seen;
  pg_root : exists companions, mounted log = companions ++ [root] /\
    Forall (fun c => catalogs s0 !! alias c = None) companions;
  pg_aliases : NoDup (map alias (mounted log));
  pg_mounted : Forall (fun c => catalogs s !! alias c = Some (Some (catalog c))) (mounted log);
  pg_others : forall a, a ∉ map alias (mounted log) -> catalogs s !! a = catalogs s0 !! a;
}.

Lemma turn_attach (s : Session) root seen info depth spec :
  companion_turn s root seen info depth = AttachIt spec ->
  companion_spec root info = Ok (Some spec) /\ catalogs s !! alias spec = None /\ companion_key spec ∉ seen
  /\ (depth <= 8)%nat.
Proof.
  unfold companion_turn. destruct (Nat.ltb_spec 8 depth); [by destruct (ac_required info)|].
  destruct (companion_spec root info) as [[sp|]|]; [|done|by destruct (ac_required info)].
  destruct (catalogs s !! alias sp) eqn:Hc; [by destruct (ac_required info)|].
  unfold vec_contains. case_bool_decide; [by destruct (ac_required info)|]. by intros [= <-].
Qed.

Lemma free_not_mounted (s : Session) (l : list AttachSpec) al :
  Forall (fun c => catalogs s !! alias c = Some (Some (catalog c))) l -> catalogs s !! al = None -> al ∉ map alias l.
Proof.
  intros Hm Hfree Hin. change (al ∈ alias <$> l) in Hin. apply list_elem_of_fmap in Hin as (c & -> & Hc).
  rewrite Forall_forall in Hm. rewrite (Hm c Hc) in Hfree. discriminate Hfree.
Qed.
Lemma progress_root w (s : Session) spec s1 companions :
  attach_one w s spec = (s1, Ok companions) -> progress s spec s1 [companion_key spec] [(spec, 0%nat, companions)].
Proof.
  intros Ha%attach_one_catalogs. split.
  - done.
  - apply NoDup_singleton.
  - by exists [].
  - apply NoDup_singleton.
  - constructor; [|done]. by rewrite Ha, lookup_insert_eq.
  - intros a Hn. rewrite Ha, lookup_insert_ne; [done|]. intros <-. apply Hn. left.
Qed.
Lemma progress_companion w s0 root (s : Session) seen log spec depth s1 nested :
  progress s0 root s seen log -> catalogs s !! alias spec = None -> companion_key spec ∉ seen ->
  attach_one w s spec = (s1, Ok nested) ->
  progress s0 root s1 (companion_key spec :: seen) ((spec, depth, nested) :: log).
Proof.
  intros [Hk Hnd (cs & Hroot & Hcs) Hal Hm Ho] Hfree Hkey Ha%attach_one_catalogs.
  pose proof (free_not_mounted _ _ _ Hm Hfree) as Hnew. split; change (mounted ((spec, depth, nested) :: log)) with (spec :: mounted log).
  - by rewrite <- Hk.
  - by constructor.
  - exists (spec :: cs). split; [by rewrite Hroot|]. constructor; [by rewrite <- Ho|done].
  - by constructor.
  - constructor; [by rewrite Ha, lookup_insert_eq|]. eapply Forall_impl; [apply Forall_and; split; [exact Hm|]|].
    + apply Forall_forall. intros c Hc. apply (list_elem_of_fmap_2 alias), Hc.
    + intros c [Hc Hin]. rewrite Ha, lookup_insert_ne; [done|]. intros Heq. apply Hnew. by rewrite Heq.
  - intros a Hn. apply not_elem_of_cons in Hn as [Hne Hn]. rewrite Ha, lookup_insert_ne by done. by apply Ho.
Qed.

Lemma attach_companions_progress fuel (worlds : nat -> Worker) s0 root (s : Session) pending seen log s' log' r :
  progress s0 root s seen log ->
  attach_companions fuel worlds root s pending seen log = Some (s', log', r) ->
  exists seen', progress s0 root s' seen' log' /\ log `suffix_of` log'.
Proof.
  revert s pending seen log. induction fuel as [|fuel IH]; intros s pending seen log Hp; [done|].
  cbn [AttachFlow.attach_companions].
  destruct pending as [|[info depth] pending]; [intros [= <- <- <-]; by exists seen|].
  destruct (companion_turn s root seen info depth) as [|e|spec] eqn:Ht.
  - by apply IH.
  - intros [= <- <- <-]. by exists seen.
  - apply turn_attach in Ht as (_ & Hfree & Hkey & _).
    destruct (attach_one (worlds (length log)) s spec) as [s1 [nested|e]] eqn:Ha.
    + intros Hrun. apply IH in Hrun as (seen' & Hp' & Hsuf); [|by eapply progress_companion].
      exists seen'. split; [done|]. etrans; [|exact Hsuf]. by apply suffix_cons_r.
    + intros [= <- <- <-]. exists seen. split; [|done]. apply attach_one_catalogs in Ha.
      destruct Hp as [Hk Hnd Hr Hal Hm Ho]. split; [done..| |].
      * by rewrite Ha.
      * intros a. rewrite Ha. apply Ho.
Qed.

(** A statement fails before it has mounted anything, or mounts its root first. *)
Lemma attach_catalog_progress fuel (worlds : nat -> Worker) (s : Session) spec s' log r :
  attach_catalog fuel worlds s spec = Some (s', log, r) ->
  (log = [] /\ (exists e, r = Err e) /\ (s' = s \/ s' = with_diagnostics s)) \/
  exists seen, progress s spec s' seen log.
Proof.
  unfold AttachFlow.attach_catalog.
  destruct (attach_companions_option spec) as [enabled|e]; [|intros [= <- <- <-]; left; by eauto].
  destruct (attach_one (worlds 0%nat) s spec) as [s1 [companions|e]] eqn:Ha.
  - pose proof (progress_root _ _ _ _ _ Ha) as Hp. destruct enabled; simpl.
    + intros Hrun. right.
      destruct (attach_companions_progress _ _ _ _ _ _ _ _ _ _ _ Hp Hrun) as (seen' & Hp' & _). by exists seen'.
    + intros [= <- <- <-]. right. by exists [companion_key spec].
  - intros [= <- <- <-]. left. apply attach_one_cases in Ha as [(e' & Hs & [= ->])|(p & prepared & ? & _)]; [eauto|done].
Qed.

(** C28: attaching mounts the root first, under its alias, whatever was there
    (re-attaching replaces a catalog), and then its companions, each under an
    alias that no catalog had: none of the session's, not the root, no other
    companion. Each is mounted once, and the catalog found under its alias is
    its own; every other alias keeps its catalog. All of this holds also when an
    error ends the statement half way; one that succeeds has mounted its root. *)
Theorem attach_mounts_safely (fuel : nat) (worlds : nat -> Worker) (s : Session) (spec : AttachSpec)
    (s' : Session) (log : list (AttachSpec * nat * list AttachCatalogInfo)) (r : result unit) :
  attach_catalog fuel worlds s spec = Some (s', log, r) ->
  (mounted log = [] /\ (exists e, r = Err e) \/
   exists companions, mounted log = companions ++ [spec] /\
     Forall (fun c => catalogs s !! alias c = None) companions)
  /\ NoDup (map companion_key (mounted log)) /\ NoDup (map alias (mounted log))
  /\ (forall c, c ∈ mounted log -> catalogs s' !! alias c = Some (Some (catalog c)))
  /\ (forall a, a ∉ map alias (mounted log) -> catalogs s' !! a = catalogs s !! a).
Proof.
  intros [(-> & He & Hs)|(seen & [Hk Hnd Hr Hal Hm Ho])]%attach_catalog_progress.
  - split_and!; [by left|constructor..|by intros c ?%not_elem_of_nil|by intros a; destruct Hs as [->| ->]].
  - split_and!; [by right|by rewrite Hk|done|by apply Forall_forall|done].
Qed.

(** ** Required companions *)

(** A companion is attached: its specification is in the log. *)
Definition satisfied (root : AttachSpec) (log : list (AttachSpec * nat * list AttachCatalogInfo))
    (info : AttachCatalogInfo) : Prop :=
  exists e, e ∈ log /\ companion_spec root info = Ok (Some e.1.1).
Definition all_required (root : AttachSpec) (pending : list (AttachCatalogInfo * nat))
    (log : list (AttachSpec * nat * list AttachCatalogInfo)) : Prop :=
  forall e info, e ∈ log -> info ∈ e.2 -> ac_required info = true ->
    (exists d, (info, d) ∈ pending) \/ satisfied root log info.

Lemma satisfied_mono root log e info : satisfied root log info -> satisfied root (e :: log) info.
Proof. intros (x & Hx & Hs). exists x. split; [by right|done]. Qed.

Lemma companion_spec_none root info : companion_spec root info = Ok None -> ac_required info = false.
Proof.
  unfold companion_spec.
  destruct (negb (eq_ignore_ascii_case (ac_db_type info) "vgi")); [by destruct (ac_required info)|].
  destruct (negb (String.eqb (ac_secret_ref info) "")); [done|].
  destruct (default _ _) as [c embedded].
  destruct (companion_options (ac_options info) embedded !! "location") as [l|]; [|done].
  by destruct (option_string (bytes_of l)).
Qed.
Lemma turn_skip (s : Session) root seen info depth :
  companion_turn s root seen info depth = Skip -> ac_required info = false.
Proof.
  unfold companion_turn. intros Ht. destruct (ac_required info) eqn:Hr; [|done]. exfalso.
  destruct (8 <? depth)%nat; [done|].
  destruct (companion_spec root info) as [[sp|]|] eqn:Hs; [|apply companion_spec_none in Hs; congruence|done].
  destruct (catalogs s !! alias sp); [done|]. by destruct (vec_contains _ _).
Qed.

Lemma attach_companions_required fuel (worlds : nat -> Worker) root (s : Session) pending seen log s' log' :
  all_required root pending log ->
  attach_companions fuel worlds root s pending seen log = Some (s', log', Ok tt) ->
  all_required root [] log'.
Proof.
  revert s pending seen log. induction fuel as [|fuel IH]; intros s pending seen log Hreq; [done|].
  cbn [AttachFlow.attach_companions].
  destruct pending as [|[info depth] pending]; [by intros [= <- <-]|].
  destruct (companion_turn s root seen info depth) as [|e|spec] eqn:Ht; [|done|].
  - apply IH. intros e i He Hi Hr. destruct (Hreq e i He Hi Hr) as [(d & [[= -> ->]|Hd]%elem_of_cons)|Hs].
    + apply turn_skip in Ht. congruence.
    + left. by exists d.
    + by right.
  - destruct (attach_one (worlds (length log)) s spec) as [s1 [nested|e]] eqn:Ha; [|done].
    apply IH. apply turn_attach in Ht as (Hspec & _).
    intros e i [->|He]%elem_of_cons Hi Hr.
    + left. exists (S depth). apply elem_of_app. right.
      change ((i, S depth) ∈ (fun c => (c, S depth)) <$> nested). apply list_elem_of_fmap. by exists i.
    + destruct (Hreq e i He Hi Hr) as [(d & [[= -> ->]|Hd]%elem_of_cons)|Hs].
      * right. exists (spec, depth, nested). split; [by left|done].
      * left. exists d. apply elem_of_app. by left.
      * right. by apply satisfied_mono.
Qed.

(** When attaching with companions succeeds, every required companion
    announced by the root or by any attached companion is attached itself: its
    specification is in the list of attached catalogs and its alias mounted. *)
Theorem required_companions_attached (fuel : nat) (worlds : nat -> Worker) (s : Session) (spec : AttachSpec)
    (s' : Session) (log : list (AttachSpec * nat * list AttachCatalogInfo)) :
  attach_companions_option spec = Ok true ->
  attach_catalog fuel worlds s spec = Some (s', log, Ok tt) ->
  forall e info, e ∈ log -> info ∈ e.2 -> ac_required info = true ->
  exists e', e' ∈ log /\ companion_spec spec info = Ok (Some e'.1.1).
Proof.
  intros Hopt. unfold AttachFlow.attach_catalog. rewrite Hopt.
  destruct (attach_one (worlds 0%nat) s spec) as [s1 [companions|e]] eqn:Ha; [|done]. simpl.
  intros Hrun e info He Hi Hr.
  assert (all_required spec (map (fun c => (c, 1%nat)) companions) [(spec, 0%nat, companions)]) as Hreq.
  { intros e0 i ->%list_elem_of_singleton Hi0 _. left. exists 1%nat.
    change ((i, 1%nat) ∈ (fun c => (c, 1%nat)) <$> companions). apply list_elem_of_fmap. by exists i. }
  destruct (attach_companions_required _ _ _ _ _ _ _ _ _ Hreq Hrun e info He Hi Hr) as [(d & Hd)|Hs]; [|exact Hs].
  by apply not_elem_of_nil in Hd.
Qed.

(** ** Options for the worker *)

(** What ATTACH sends to the worker: nothing, or one value for each of the
    statement's options that is not local to the adapter, under the name and
    type the worker declared; every option the worker requires is among them,
    and no local option, credentials in particular, is. *)
Theorem worker_options_exact (spec : AttachSpec) (specs : list OptionSpec) (o : AttachOptions) (encoded : list ascii) :
  (forall name, is_Some (options spec !! name) -> to_ascii_lowercase name = name) ->
  build_attach_options spec (Ok specs) = Ok o -> ao_options o = Some encoded ->
  exists columns, encode_attach_options columns = Ok encoded
    /\ Forall2 (fun e c => exists d, d ∈ specs /\ eq_ignore_ascii_case (os_name d) e.1 = true
                  /\ c.1 = (os_name d, os_type d)) (worker_values spec) columns
    /\ Forall (fun c => to_ascii_lowercase c.1.1 ∉ IMPLEMENTED_LOCAL_OPTIONS) columns
    /\ Forall (fun d => os_required d = true ->
          exists c, c ∈ columns /\ eq_ignore_ascii_case (os_name d) c.1.1 = true) specs.
Proof.
  intros Hlow. unfold AttachFlow.build_attach_options.
  destruct (list_find _ UNAVAILABLE_LOCAL_OPTIONS) as [[? ?]|]; [done|].
  destruct (text_option spec "data_version_spec") as [dv|]; [|done]. cbn [mbind result_bind].
  destruct (text_option spec "implementation_version") as [iv|]; [|done]. cbn [mbind result_bind].
  destruct (worker_values spec) as [|e0 vs] eqn:Hvals; [by intros [= <-]|].
  set (values := e0 :: vs) in *.
  assert (forall e, e ∈ values -> to_ascii_lowercase e.1 = e.1 /\ e.1 ∉ IMPLEMENTED_LOCAL_OPTIONS) as Hv.
  { intros e He. rewrite <- Hvals in He. unfold worker_values in He. rewrite merge_sort_Permutation in He.
    apply list_elem_of_filter in He as [Hn He]. split; [|done]. apply Hlow.
    destruct e as [k v]. apply elem_of_map_to_list in He. by eexists. }
  destruct (list_find _ values) as [[? ?]|] eqn:Hfind; [done|].
  destruct (filter _ specs) as [|d0 missing] eqn:Hmissing; [|done].
  destruct (result_collect _ values) as [columns|] eqn:Hcols; [|done]. cbn [mbind result_bind].
  destruct (encode_attach_options columns) as [enc|] eqn:Henc; [|done]. cbn [mbind result_bind].
  intros [= <-] Hopt. cbn [ao_options] in Hopt. injection Hopt as ->. exists columns. split; [done|].
  apply result_collect_Ok in Hcols.
  assert (Forall2 (fun e c => exists d, d ∈ specs /\ eq_ignore_ascii_case (os_name d) e.1 = true
                  /\ c.1 = (os_name d, os_type d)) values columns) as H2.
  { eapply Forall2_impl; [exact Hcols|]. intros e c Hc. unfold option_column in Hc.
    destruct (declared_option specs e.1) as [d|] eqn:Hd; [|done].
    apply first_some_Some in Hd as (d' & Hin & Hd). 
    destruct (eq_ignore_ascii_case (os_name d') e.1) eqn:Heq; [|done]. injection Hd as ->.
    destruct (evaluate_attach_option _ _ _ _ _ _) as [v|]; [|done]. injection Hc as <-. by exists d. }
  split; [done|]. split.
  - apply Forall_forall. intros c Hc. apply list_elem_of_lookup in Hc as (i & Hc).
    destruct (Forall2_lookup_r _ _ _ _ _ H2 Hc) as (e & He & d & _ & Heq & ->). simpl.
    apply list_elem_of_lookup_2 in He. destruct (Hv e He) as [Hl Hn].
    apply eq_ignore_ascii_case_spec in Heq. by rewrite Heq, Hl.
  - apply Forall_forall. intros d Hd Hreq.
    assert (existsb (fun e => eq_ignore_ascii_case (os_name d) e.1) values = true) as Hex.
    { apply not_false_is_true. intros Hno.
      assert (d ∈ @nil OptionSpec) as Hin by (rewrite <- Hmissing; by apply list_elem_of_filter).
      by apply not_elem_of_nil in Hin. }
    apply existsb_exists in Hex as (e & He & Heq). apply list_elem_of_In, list_elem_of_lookup in He as (i & He).
    destruct (Forall2_lookup_l _ _ _ _ _ H2 He) as (c & Hc & d' & _ & Heq' & Hcd). exists c.
    split; [by eapply list_elem_of_lookup_2|]. rewrite Hcd. simpl.
    apply eq_ignore_ascii_case_spec in Heq, Heq'. apply eq_ignore_ascii_case_spec. congruence.
Qed.

(** ** DETACH *)

Lemma bytes_lower s : bytes_of (to_ascii_lowercase s) = lower (bytes_of s).
Proof. induction s as [|c s IH]; simpl; [done|]. by rewrite IH. Qed.
Lemma starts_with_app p s : starts_with p (p ++ s) = true.
Proof.
  unfold starts_with. apply bool_decide_eq_true_2. assert (drop_prefix p (p ++ s) = Some s) as ->; [|by eexists].
  induction p as [|c p IH]; simpl; [done|]. by rewrite Ascii.eqb_refl.
Qed.
Lemma alias_key_prefix al rest :
  starts_with (alias_prefix al) (bytes_of (to_ascii_lowercase (al +:+ "." +:+ rest))) = true.
Proof.
  unfold alias_prefix. rewrite bytes_lower, !bytes_of_app, bytes_lower. unfold lower. rewrite !map_app.
  change (map to_lower (bytes_of ".")) with (bytes_of "."). rewrite app_assoc. apply starts_with_app.
Qed.
Lemma drop_insert (ms : gmap string (list (@SqlMacro Value))) al k v :
  starts_with (alias_prefix al) (bytes_of k) = true ->
  drop_alias_macros (<[k := v]> ms) al = drop_alias_macros ms al.
Proof.
  intros Hk. unfold drop_alias_macros. apply map_eq. intros x. apply option_eq. intros y.
  rewrite !map_lookup_filter_Some. destruct (decide (x = k)) as [->|Hne].
  - split; intros [_ Hx]; simpl in Hx; congruence.
  - by rewrite lookup_insert_ne.
Qed.
Lemma drop_register_macros (ms : gmap string (list (@SqlMacro Value))) al (p : @Provider ArgSpecs) :
  drop_alias_macros (register_macros parse_definition expr_text decode_macro_defaults ms al p) al
  = drop_alias_macros ms al.
Proof.
  unfold register_macros.
  assert (drop_alias_macros (drop_alias_macros ms al) al = drop_alias_macros ms al) as Hidem.
  { unfold drop_alias_macros. apply map_eq. intros x. apply option_eq. intros y.
    rewrite !map_lookup_filter_Some. naive_solver. }
  assert (forall ns infos ms', drop_alias_macros (fold_left (register_macro parse_definition expr_text
    decode_macro_defaults al (pr_default_schema p) ns) infos ms') al = drop_alias_macros ms' al) as Hfold.
  { intros ns. induction infos as [|info infos IH]; intros ms'; [done|]. cbn [fold_left]. rewrite IH.
    unfold register_macro. destruct (eq_ignore_ascii_case _ _).
    - rewrite !drop_insert; [done|apply alias_key_prefix|apply alias_key_prefix].
    - rewrite drop_insert; [done|apply alias_key_prefix]. }
  by rewrite Hfold.
Qed.

(** The alias is unknown to the session. *)
Record fresh_alias (s : Session) (al : string) : Prop := {
  fa_recorded : recorded (registry s) (to_ascii_lowercase al) = ∅;
  fa_schema : default_schemas s !! to_ascii_lowercase al = None;
  fa_metadata : metadata s !! to_ascii_lowercase al = None;
  fa_macros : drop_alias_macros (macros s) al = macros s;
}.
(** [sql] has registered the diagnostics' functions. *)
Definition diagnostics_present (s : Session) : Prop :=
  Forall (fun k => is_Some (functions (registry s) !! k)) diagnostics_keys.

(** [s] is [s0] with catalogs attached under the aliases [L], in lower case:
    what [s0] had is there, and everything new belongs to one of them. *)
Record attached (s0 s : Session) (L : list string) : Prop := {
  at_keeps : forall k im, functions (registry s0) !! k = Some im ->
    functions (registry s) !! k = Some im /\ forall a, a ∈ L -> recorded (registry s) a !! k = None;
  at_new : forall k im, functions (registry s) !! k = Some im -> functions (registry s0) !! k = None ->
    exists a, a ∈ L /\ owns (registry s) a k im = true;
  at_recorded : forall a, a ∉ L -> recorded (registry s) a = recorded (registry s0) a;
  at_schemas : forall a, a ∉ L -> default_schemas s !! a = default_schemas s0 !! a;
  at_metadata : forall a, a ∉ L -> metadata s !! a = metadata s0 !! a;
  at_macros : forall k, (forall a, a ∈ L -> starts_with (bytes_of (a +:+ ".")) (bytes_of k) = false) ->
    macros s !! k = macros s0 !! k;
}.

Lemma attached_refl s : attached s s [].
Proof.
  split; try done; [|congruence]. intros k im Hk. split; [done|]. by intros a ?%not_elem_of_nil.
Qed.
Lemma attached_perm s0 s L L' : L ≡ₚ L' -> attached s0 s L -> attached s0 s L'.
Proof.
  intros HL [Hk Hn Hr Hs Hm Hma]. split; [|intros k im; setoid_rewrite <- HL; by apply Hn|intros a; rewrite <- HL..|].
  - intros k im H. destruct (Hk k im H) as [? Hno]. split; [done|]. intros a. rewrite <- HL. by apply Hno.
  - apply Hr.
  - apply Hs.
  - apply Hm.
  - intros k. setoid_rewrite <- HL. apply Hma.
Qed.
Lemma drop_macros_lookup (ms : gmap string (list (@SqlMacro Value))) al k :
  drop_alias_macros ms al !! k = if starts_with (alias_prefix al) (bytes_of k) then None else ms !! k.
Proof.
  unfold drop_alias_macros. rewrite map_lookup_filter. destruct (ms !! k) as [m|]; simpl; [|by destruct (starts_with _ _)].
  case_guard as Hg; simpl in *; [by rewrite Hg|]. by destruct (starts_with _ _).
Qed.
Lemma register_macros_lookup (ms : gmap string (list (@SqlMacro Value))) al (p : @Provider ArgSpecs) k :
  starts_with (alias_prefix al) (bytes_of k) = false ->
  register_macros parse_definition expr_text decode_macro_defaults ms al p !! k = ms !! k.
Proof.
  intros Hk. pose proof (f_equal (fun m => m !! k) (drop_register_macros ms al p)) as H. cbv beta in H.
  by rewrite !drop_macros_lookup, Hk in H.
Qed.

Lemma diagnostics_still (s : Session) : diagnostics_present s -> with_diagnostics s = s.
Proof.
  intros Hd. unfold with_diagnostics. assert (register_diagnostics (registry s) = registry s) as ->; [|by destruct s].
  unfold diagnostics_present, register_diagnostics in *. generalize (registry s) at 2 3 as r. intros r.
  induction Hd as [|k ks [im Hk] _ IH]; [done|]. cbn [fold_left]. unfold register_diagnostic at 2. rewrite Hk. apply IH.
Qed.
Lemma attached_diagnostics s0 s L : diagnostics_present s0 -> attached s0 s L -> with_diagnostics s = s.
Proof.
  intros Hd Ha. apply diagnostics_still. eapply Forall_impl; [exact Hd|]. intros k [im Hk]. exists im.
  by apply (at_keeps _ _ _ Ha).
Qed.

(** A name of [s0] is never recorded for an alias new to [s0]. *)
Lemma attached_unrecorded s0 s L al k im :
  attached s0 s L -> fresh_alias s0 al -> functions (registry s0) !! k = Some im ->
  recorded (registry s) (to_ascii_lowercase al) !! k = None.
Proof.
  intros Ha Hf Hk. destruct (decide (to_ascii_lowercase al ∈ L)) as [Hin|Hn]; [by apply (at_keeps _ _ _ Ha k im Hk)|].
  by rewrite (at_recorded _ _ _ Ha _ Hn), (fa_recorded _ _ Hf), lookup_empty.
Qed.

(** One more catalog. *)
Lemma attached_commit s0 s L spec p prepared :
  attached s0 s L -> fresh_alias s0 (alias spec) ->
  attached s0 (commit_attach s spec p prepared) (to_ascii_lowercase (alias spec) :: L).
Proof.
  intros Ha Hf. unfold AttachFlow.commit_attach.
  destruct (publish_catalog _ _ _ _ _ _ _) as [r pub] eqn:Hpub.
  pose proof (publications_published (alias spec) (catalog_publications declarations minimum_positional_arity
    (catalog spec) (alias spec) (function_schemas p) prepared) (deregister_alias_functions (registry s) (alias spec))) as Hp.
  rewrite <- publish_catalog_fold, Hpub in Hp. cbn [fst] in Hp. set (r1 := deregister_alias_functions (registry s) (alias spec)) in *.
  assert (Hrec1 : forall a, recorded r1 a = if bool_decide (a = (to_ascii_lowercase (alias spec))) then ∅ else recorded (registry s) a)
    by (intros a; apply deregister_recorded).
  assert (Hfun1 : forall k, functions r1 !! k = match functions (registry s) !! k with
    | Some im => if owns (registry s) (to_ascii_lowercase (alias spec)) k im then None else Some im | None => None end)
    by (intros k; apply deregister_functions).
  split; cbn [registry default_schemas metadata macros].
  - intros k im Hk. pose proof (attached_unrecorded _ _ _ _ _ _ Ha Hf Hk) as Hno. destruct (at_keeps _ _ _ Ha k im Hk) as [Hs HL].
    assert (functions r1 !! k = Some im) as Hk1 by (rewrite Hfun1, Hs; unfold owns; by rewrite Hno).
    split; [by apply (pb_keeps _ _ _ Hp)|]. intros a Hin. destruct (decide (a = (to_ascii_lowercase (alias spec)))) as [->|Hne].
    + rewrite (pb_own _ _ _ Hp k im Hk1), Hrec1, bool_decide_eq_true_2 by done. apply lookup_empty.
    + rewrite (pb_others _ _ _ Hp a Hne), Hrec1, bool_decide_eq_false_2 by done. apply HL. set_solver.
  - intros k im Hk Hk0. destruct (functions r1 !! k) as [im1|] eqn:Hk1; [|exists (to_ascii_lowercase (alias spec)); split; [left|by apply (pb_new _ _ _ Hp)]].
    pose proof (pb_keeps _ _ _ Hp k im1 Hk1). assert (im1 = im) as -> by congruence.
    rewrite Hfun1 in Hk1. destruct (functions (registry s) !! k) as [im'|] eqn:Hs; [|done].
    destruct (owns (registry s) (to_ascii_lowercase (alias spec)) k im') eqn:Hown; [done|]. injection Hk1 as ->.
    destruct (at_new _ _ _ Ha k im Hs Hk0) as (a & Hin & Hoa). exists a. split; [by right|].
    assert (a <> (to_ascii_lowercase (alias spec))) as Hne by (intros ->; congruence).
    unfold owns in *. by rewrite (pb_others _ _ _ Hp a Hne), Hrec1, bool_decide_eq_false_2.
  - intros a [Hne Hn]%not_elem_of_cons. rewrite (pb_others _ _ _ Hp a Hne), Hrec1, bool_decide_eq_false_2 by done.
    by apply (at_recorded _ _ _ Ha).
  - intros a [Hne Hn]%not_elem_of_cons. rewrite lookup_insert_ne by done. by apply (at_schemas _ _ _ Ha).
  - intros a [Hne Hn]%not_elem_of_cons. rewrite lookup_insert_ne by done. by apply (at_metadata _ _ _ Ha).
  - intros k Hk. rewrite register_macros_lookup; [apply (at_macros _ _ _ Ha)|apply (Hk (to_ascii_lowercase (alias spec))); left].
    intros a Hin. apply Hk. by right.
Qed.

(** One catalog fewer. *)
Lemma attached_detach s0 s L al :
  attached s0 s (to_ascii_lowercase al :: L) -> fresh_alias s0 al -> is_Some (catalogs s !! al) ->
  exists s', detach s al = (s', Ok tt) /\ attached s0 s' L /\ catalogs s' = <[al := None]> (catalogs s).
Proof.
  intros Ha Hf [c Hc]. unfold detach. rewrite Hc. eexists. split; [done|]. split; [|done].
  split; cbn [registry default_schemas metadata macros].
  - intros k im Hk. destruct (at_keeps _ _ _ Ha k im Hk) as [Hs HL].
    assert (recorded (registry s) (to_ascii_lowercase al) !! k = None) as Hno by (apply HL; left).
    split; [rewrite deregister_functions, Hs; unfold owns; by rewrite Hno|].
    intros a Hin. rewrite deregister_recorded. case_bool_decide; [apply lookup_empty|]. apply HL. by right.
  - intros k im. rewrite deregister_functions. destruct (functions (registry s) !! k) as [im'|] eqn:Hs; [|done].
    destruct (owns (registry s) (to_ascii_lowercase al) k im') eqn:Hown; [done|]. intros [= ->] Hk0.
    destruct (at_new _ _ _ Ha k im Hs Hk0) as (a & [->|Hin]%elem_of_cons & Hoa); [congruence|]. exists a. split; [done|].
    assert (a <> (to_ascii_lowercase al)) as Hne by (intros ->; congruence).
    unfold owns in *. by rewrite deregister_recorded, bool_decide_eq_false_2.
  - intros a Hn. rewrite deregister_recorded. case_bool_decide as Hl; [by rewrite Hl, (fa_recorded _ _ Hf)|].
    apply (at_recorded _ _ _ Ha). by apply not_elem_of_cons.
  - intros a Hn. destruct (decide (a = (to_ascii_lowercase al))) as [->|Hne]; [by rewrite lookup_delete_eq, (fa_schema _ _ Hf)|].
    rewrite lookup_delete_ne by done. apply (at_schemas _ _ _ Ha). by apply not_elem_of_cons.
  - intros a Hn. destruct (decide (a = (to_ascii_lowercase al))) as [->|Hne]; [by rewrite lookup_delete_eq, (fa_metadata _ _ Hf)|].
    rewrite lookup_delete_ne by done. apply (at_metadata _ _ _ Ha). by apply not_elem_of_cons.
  - intros k Hk. rewrite drop_macros_lookup. destruct (starts_with (alias_prefix al) (bytes_of k)) eqn:Hpre.
    + rewrite <- (fa_macros _ _ Hf), drop_macros_lookup. by rewrite Hpre.
    + apply (at_macros _ _ _ Ha). intros a [->|Hin]%elem_of_cons; [exact Hpre|by apply Hk].
Qed.

(** DETACH for each of the aliases, in order. *)
Fixpoint detach_all (s : Session) (aliases : list string) : Session * result unit :=
  match aliases with
  | [] => (s, Ok tt)
  | al :: aliases => match detach s al with (s, Ok _) => detach_all s aliases | (s, Err e) => (s, Err e) end
  end.
Lemma attached_detach_all s0 aliases : forall s,
  attached s0 s (map to_ascii_lowercase aliases) -> Forall (fresh_alias s0) aliases ->
  Forall (fun al => is_Some (catalogs s !! al)) aliases ->
  exists s', detach_all s aliases = (s', Ok tt) /\ attached s0 s' []
    /\ forall a, catalogs s' !! a = if bool_decide (a ∈ aliases) then Some None else catalogs s !! a.
Proof.
  induction aliases as [|al aliases IH]; intros s Ha Hf Hc.
  { exists s. split_and!; [done..|]. intros a. rewrite bool_decide_eq_false_2; [done|]. apply not_elem_of_nil. }
  apply Forall_cons in Hf as [Hfal Hf]. apply Forall_cons in Hc as [Hal Hc]. cbn [map detach_all] in *.
  destruct (attached_detach _ _ _ _ Ha Hfal Hal) as (s1 & -> & Ha1 & Hcat).
  destruct (IH s1 Ha1 Hf) as (s2 & -> & Ha2 & Hcat2).
  { eapply Forall_impl; [exact Hc|]. intros a Hin. rewrite Hcat, lookup_insert_is_Some. destruct (decide (al = a)); auto. }
  exists s2. split_and!; [done..|]. intros a. rewrite Hcat2, Hcat. destruct (decide (a = al)) as [->|Hne].
  - rewrite lookup_insert_eq. rewrite (bool_decide_eq_true_2 (al ∈ al :: aliases)) by left. by case_bool_decide.
  - rewrite lookup_insert_ne by done. rewrite (bool_decide_ext (a ∈ al :: aliases) (a ∈ aliases)); [done|].
    rewrite elem_of_cons. tauto.
Qed.

(** A whole statement. *)
Lemma attach_companions_attached fuel (worlds : nat -> Worker) s0 root (s : Session) pending seen log s' log' r :
  diagnostics_present s0 -> Forall (fun c => fresh_alias s0 (alias c)) (mounted log') ->
  progress s0 root s seen log -> attached s0 s (map to_ascii_lowercase (map alias (mounted log))) ->
  attach_companions fuel worlds root s pending seen log = Some (s', log', r) ->
  attached s0 s' (map to_ascii_lowercase (map alias (mounted log'))).
Proof.
  intros Hd Hf. revert s pending seen log. induction fuel as [|fuel IH]; intros s pending seen log Hp Hat; [done|].
  cbn [AttachFlow.attach_companions].
  destruct pending as [|[info depth] pending]; [by intros [= <- <- <-]|].
  destruct (companion_turn s root seen info depth) as [|e|spec] eqn:Ht; [by apply IH|by intros [= <- <- <-]|].
  apply turn_attach in Ht as (_ & Hfree & Hkey & _). pose proof (attached_diagnostics _ _ _ Hd Hat) as Hsame.
  destruct (attach_one (worlds (length log)) s spec) as [s1 [nested|e]] eqn:Ha.
  - intros Hrun. pose proof (progress_companion _ _ _ _ _ _ _ depth _ _ Hp Hfree Hkey Ha) as Hp1.
    destruct (attach_companions_progress _ _ _ _ _ _ _ _ _ _ _ Hp1 Hrun) as (_ & _ & Hsuf).
    eapply IH; [exact Hp1| |exact Hrun].
    apply attach_one_cases in Ha as [(e & _ & ?)|(p & prepared & _ & ->)]; [done|]. rewrite Hsame.
    change (mounted ((spec, depth, nested) :: log)) with (spec :: mounted log). apply attached_commit; [exact Hat|].
    rewrite Forall_forall in Hf. apply Hf. destruct Hsuf as [more ->]. unfold mounted. rewrite map_app. apply elem_of_app.
    right. left.
  - intros [= <- <- <-]. by apply attach_one_cases in Ha as [(e' & [->| ->] & _)|(p & prepared & ? & _)]; rewrite ?Hsame.
Qed.
Lemma attach_catalog_attached fuel (worlds : nat -> Worker) (s : Session) spec s' log r :
  diagnostics_present s -> Forall (fun c => fresh_alias s (alias c)) (mounted log) ->
  attach_catalog fuel worlds s spec = Some (s', log, r) ->
  attached s s' (map to_ascii_lowercase (map alias (mounted log))).
Proof.
  intros Hd Hf. unfold AttachFlow.attach_catalog. pose proof (diagnostics_still _ Hd) as Hsame.
  destruct (attach_companions_option spec) as [enabled|e]; [|intros [= <- <- <-]; apply attached_refl].
  destruct (attach_one (worlds 0%nat) s spec) as [s1 [companions|e]] eqn:Ha.
  - pose proof (progress_root _ _ _ _ _ Ha) as Hp. intros Hrun.
    assert (spec ∈ mounted log -> attached s s1 [to_ascii_lowercase (alias spec)]) as Hroot.
    { intros Hin. rewrite Forall_forall in Hf.
      apply attach_one_cases in Ha as [(e & _ & ?)|(p & prepared & _ & ->)]; [done|]. rewrite Hsame.
      apply attached_commit; [apply attached_refl|]. by apply Hf. }
    destruct enabled; simpl in Hrun.
    + destruct (attach_companions_progress _ _ _ _ _ _ _ _ _ _ _ Hp Hrun) as (_ & _ & [more Hmore]).
      eapply attach_companions_attached; [done|done|exact Hp| |exact Hrun]. apply Hroot.
      rewrite Hmore. unfold mounted. rewrite map_app. apply elem_of_app. right. left.
    + injection Hrun as <- <- <-. apply Hroot. left.
  - intros [= <- <- <-].
    apply attach_one_cases in Ha as [(e' & [->| ->] & _)|(p & prepared & ? & _)]; rewrite ?Hsame; [apply attached_refl..|done].
Qed.

(** C30: DETACH undoes ATTACH: after an ATTACH, with the companions it attached,
    or cut short by an error, the DETACH of every alias it mounted, in any
    order, succeeds and leaves the session's functions, the registrations of
    all aliases, the default schemas, the macros and the metadata as they were
    before; only an empty catalog stays under each of the aliases. The aliases
    are new to the session, and [sql] has registered the diagnostics' functions,
    which are not taken back. DETACH of the root alone leaves its companions
    attached ([companions_outlive_root]). *)
Theorem detach_undoes_attach (fuel : nat) (worlds : nat -> Worker) (s s1 : Session) (spec : AttachSpec)
    (log : list (AttachSpec * nat * list AttachCatalogInfo)) (r : result unit) (aliases : list string) :
  diagnostics_present s -> Forall (fun c => fresh_alias s (alias c)) (mounted log) ->
  attach_catalog fuel worlds s spec = Some (s1, log, r) -> aliases ≡ₚ map alias (mounted log) ->
  exists s2, detach_all s1 aliases = (s2, Ok tt)
  /\ functions (registry s2) = functions (registry s)
  /\ (forall a, recorded (registry s2) a = recorded (registry s) a)
  /\ default_schemas s2 = default_schemas s /\ macros s2 = macros s /\ metadata s2 = metadata s
  /\ (forall a, catalogs s2 !! a = if bool_decide (a ∈ aliases) then Some None else catalogs s !! a).
Proof.
  intros Hd Hf Hrun Hperm. pose proof (attach_catalog_attached _ _ _ _ _ _ _ Hd Hf Hrun) as Hat.
  assert (Hcat : Forall (fun al => is_Some (catalogs s1 !! al)) aliases /\
    forall a, a ∉ aliases -> catalogs s1 !! a = catalogs s !! a).
  { setoid_rewrite Hperm. apply attach_catalog_progress in Hrun as [(-> & _ & Hs)|(seen & [_ _ _ _ Hm Ho])].
    - split; [constructor|]. intros a _. by destruct Hs as [->| ->].
    - split; [|done]. apply Forall_map. eapply Forall_impl; [exact Hm|]. intros c Hc. exists (Some (catalog c)). exact Hc. }
  destruct Hcat as [Hsome Hother].
  destruct (attached_detach_all s aliases s1) as (s2 & Hall & Ha2 & Hc2); [| |done|].
  - eapply attached_perm; [|exact Hat]. by rewrite Hperm.
  - rewrite Hperm. by apply Forall_map.
  - exists s2. split; [done|]. split_and!.
    + apply map_eq. intros k. destruct (functions (registry s) !! k) as [im|] eqn:Hk; [by apply (at_keeps _ _ _ Ha2)|].
      destruct (functions (registry s2) !! k) as [im|] eqn:Hk2; [|done].
      by destruct (at_new _ _ _ Ha2 k im Hk2 Hk) as (a & ?%not_elem_of_nil & _).
    + intros a. apply (at_recorded _ _ _ Ha2), not_elem_of_nil.
    + apply map_eq. intros a. apply (at_schemas _ _ _ Ha2), not_elem_of_nil.
    + apply map_eq. intros k. apply (at_macros _ _ _ Ha2). by intros a ?%not_elem_of_nil.
    + apply map_eq. intros a. apply (at_metadata _ _ _ Ha2), not_elem_of_nil.
    + intros a. rewrite Hc2. case_bool_decide; [done|by apply Hother].
Qed.
End Flow.

(** ** Examples

    Workers "one" and "two" announce each other; "bad" cannot be discovered. *)

Definition ex_companion (target alias : string) (required : bool) : AttachCatalogInfo :=
  mkCompanion target alias "vgi" "" [] required.
Definition ex_provider (companions : list AttachCatalogInfo) : @Provider (list ArgSpec) :=
  mkProvider [("main", mkSchemaProvider (mkSchema [] ["double"] []) ["t"] [] [])] "main" "" [] companions.
Definition ex_worker : @Worker (list ArgSpec) := mkWorker
  (fun _ _ => Ok [mkOptionSpec "Region" Utf8 true])
  (fun _ catalog _ =>
     if String.eqb catalog "bad" then Err (External "unreachable")
     else Ok (ex_provider (if String.eqb catalog "one" then [ex_companion "two?location=w2&REGION=eu" "b" true]
                           else if String.eqb catalog "fails" then [ex_companion "bad" "c" false]
                           else if String.eqb catalog "cased" then [ex_companion "plain" "A" false]
                           else if String.eqb catalog "two" then [ex_companion "one?region=eu" "d" false]
                           else []))).
Definition ex_session : @AttachFlow.Session string := mkSession (register_diagnostics ex_registry) ∅ ∅ ∅ ∅.
Definition ex_spec (catalog : string) : AttachSpec :=
  mkAttachSpec catalog "a" "w1" (list_to_map [("region", "'eu'"); ("bearer_token", "'s'")]).

Abbreviation run_ex := (attach_catalog (OptionValue := string)
  (fun _ _ => inl [None]) (fun _ => "") (fun _ => inl [])
  (fun _ bytes => string_of bytes) (fun _ _ => Ok tt) (fun _ raw _ => Ok raw)
  (fun columns => Ok (bytes_of (String.concat "," (map (fun c => c.1.1 +:+ "=" +:+ c.2) columns))))
  (fun _ => Ok []) id length (fun _ => Ok (Http (bytes_of "https://h"))) 4 300 7 None).

Definition outcome {A C} (r : option (A * C * result unit)) : option (result unit) := snd <$> r.
Definition attached_catalogs {A} (r : option (A * list (AttachSpec * nat * list AttachCatalogInfo) * result unit))
    : list (string * string * string) :=
  match r with
  | Some (_, log, _) => map (fun e => (catalog e.1.1, alias e.1.1, location e.1.1)) log
  | None => []
  end.

(** "one" and "two" are attached once each; the announcement of "one" by "two",
    without a location, goes to the root's location [w1], not to [w2], where
    "two" lives. *)
Lemma companion_location_is_roots :
  attached_catalogs (run_ex 10 (fun _ => ex_worker) ex_session (ex_spec "two"))
  = [("two", "b", "w2"); ("one", "d", "w1"); ("two", "a", "w1")].
Proof. vm_compute. reflexivity. Qed.

(** An optional companion that cannot be attached fails the whole statement. *)
Lemma optional_companion_fails :
  outcome (run_ex 10 (fun _ => ex_worker) ex_session (mkAttachSpec "fails" "a" "w1" {[ "region" := "'eu'" ]}))
  = Some (Err (External "unreachable")).
Proof. vm_compute. reflexivity. Qed.

(** A companion whose alias differs from the root's in case only is mounted
    beside it, but the functions are recorded without regard to case: attaching
    the companion takes the root's functions back. *)
Lemma cased_companion_takes_functions :
  match run_ex 10 (fun _ => ex_worker) ex_session (ex_spec "cased") with
  | Some (s1, _, r) => r = Ok tt /\ catalogs s1 !! "a" = Some (Some "cased") /\ catalogs s1 !! "A" = Some (Some "plain")
      /\ functions (registry s1) !! (FScalar, "a.main.double") = None
      /\ target <$> functions (registry s1) !! (FScalar, "A.main.double") = Some (Some ("plain", "main", "double"))
  | None => False
  end.
Proof. vm_compute. auto 6. Qed.

Abbreviation ex_run := (run_ex 10 (fun _ => ex_worker) ex_session (ex_spec "two")).

Lemma required_companions_attached_witness :
  match ex_run with
  | Some (_, log, Ok _) => forall e info, e ∈ log -> info ∈ e.2 -> ac_required info = true ->
      exists e', e' ∈ log /\ companion_spec (ex_spec "two") info = Ok (Some e'.1.1)
  | _ => False
  end.
Proof.
  destruct ex_run as [[[s' log] [[]|e]]|] eqn:E; [|vm_compute in E; discriminate E..].
  refine (required_companions_attached _ _ _ _ _ _ _ _ _ _ _ _ _ _ _ _ _ _ _ _ _ _ E). reflexivity.
Defined.

Lemma attach_mounts_safely_witness :
  match ex_run with
  | Some (s', log, _) => NoDup (map alias (mounted log)) /\ catalogs s' !! "b" = Some (Some "two")
  | None => False
  end.
Proof.
  destruct ex_run as [[[s' log] r]|] eqn:E; [|vm_compute in E; discriminate E].
  pose proof (attach_mounts_safely _ _ _ _ _ _ _ _ _ _ _ _ _ _ _ _ _ _ _ _ _ _ E) as (_ & _ & Hnd & Hm & _).
  split; [exact Hnd|]. refine (Hm (mkAttachSpec "two" "b" "w2" _) _).
  assert (Hlog : mounted log = match ex_run with Some (_, log, _) => mounted log | None => [] end) by (by rewrite E).
  rewrite Hlog. vm_compute. left.
Defined.

(** The bearer token stays local; the region is sent under the declared name. *)
Abbreviation ex_build := (build_attach_options (OptionValue := string)
  (fun _ bytes => string_of bytes) (fun _ _ => Ok tt) (fun _ raw _ => Ok raw)
  (fun columns => Ok (bytes_of (String.concat "," (map (fun c => c.1.1 +:+ "=" +:+ c.2) columns))))).

Lemma worker_options_exact_witness :
  exists o, ex_build (ex_spec "one") (Ok [mkOptionSpec "Region" Utf8 true]) = Ok o
  /\ ao_options o = Some (bytes_of "Region='eu'")
  /\ exists columns : list (string * DataType * string),
       Forall (fun c => to_ascii_lowercase c.1.1 ∉ IMPLEMENTED_LOCAL_OPTIONS) columns.
Proof.
  eexists. split; [vm_compute; reflexivity|]. split; [vm_compute; reflexivity|].
  destruct (worker_options_exact (OptionValue := string)
    (fun _ bytes => string_of bytes) (fun _ _ => Ok tt) (fun _ raw _ => Ok raw)
    (fun columns => Ok (bytes_of (String.concat "," (map (fun c => c.1.1 +:+ "=" +:+ c.2) columns))))
    (ex_spec "one") [mkOptionSpec "Region" Utf8 true]
    (mkAttachOptions (Some (bytes_of "Region='eu'")) None None) (bytes_of "Region='eu'"))
    as (columns & _ & _ & H & _); [|vm_compute; reflexivity|reflexivity|by exists columns].
  intros name [v Hv].
  assert (map_Forall (fun k _ => to_ascii_lowercase k = k) (options (ex_spec "one"))) as Hall by by_decide.
  exact (Hall name v Hv).
Defined.

(** DETACH of the root leaves its companions, and their functions. *)
Lemma companions_outlive_root :
  match ex_run with
  | Some (s1, _, _) =>
      let s2 := (detach s1 "a").1 in
      target <$> functions (registry s2) !! (FScalar, "b.main.double") = Some (Some ("two", "main", "double"))
      /\ catalogs s2 !! "b" = Some (Some "two") /\ catalogs s2 !! "a" = Some None
  | None => False
  end.
Proof. vm_compute. auto. Qed.

Lemma detach_undoes_attach_witness :
  match ex_run with
  | Some (s1, _, _) =>
      exists s2, detach_all s1 ["a"; "b"; "d"] = (s2, Ok tt)
      /\ functions (registry s2) = functions (registry ex_session) /\ macros s2 = ∅
  | None => False
  end.
Proof.
  destruct ex_run as [[[s1 log] r]|] eqn:E; [|vm_compute in E; discriminate E].
  assert (Hlog : map alias (mounted log) = ["b"; "d"; "a"]).
  { transitivity (match ex_run with Some (_, log, _) => map alias (mounted log) | None => [] end); [by rewrite E|].
    vm_compute. reflexivity. }
  assert (Hd : diagnostics_present ex_session) by (apply (bool_decide_unpack _); vm_compute; exact I).
  pose proof (fun Hf Hp => detach_undoes_attach _ _ _ _ _ _ _ _ _ _ _ _ _ _ _ _ _ _ _ _ _ _ ["a"; "b"; "d"] Hd Hf E Hp) as H.
  destruct H as (s2 & Hall & Hfun & _ & _ & Hmac & _);
    [| |exists s2; split; [exact Hall|split; [exact Hfun|exact Hmac]]].
  - apply (Forall_map alias). rewrite Hlog. repeat constructor.
  - rewrite Hlog. apply (Permutation_cons_append ["b"; "d"] "a").
Defined.
