(* ===== verification/OrderTheorems.v ===== *)
(** * Top-N hints are sound

    What a worker may leave out because of a hint, no Top-N above the scan
    shows: [top_n_hint_sound] for the logical plans of [OrderPushdown], and
    [physical_rule_validates] for the physical rule, which changes no hint. *)

From S2P Require Import Prelude Text Arrow Identity Splits ScanShape OrderPushdown.

Lemma set_limit_ob h l : ob_column (set_limit h l) = ob_column h /\ ob_limit (set_limit h l) = l.
Proof. by destruct h. Qed.

(** ** Names *)

Definition names (fs : list (option string * string)) : list string := fs.*2.
Definition name_index (fs : list (option string * string)) (name : string) : option nat :=
  position (fun f => String.eqb f.2 name) fs.

(** A column resolves by its name when names are unique. *)
Lemma resolve_name fs c i : NoDup (names fs) -> resolve fs c = Some i -> name_index fs c.2 = Some i.
Proof.
  intros Hnd (f & Hf & Hp)%position_Some. apply andb_true_iff in Hp as [Hn _].
  apply (position_unique _ _ _ f); [done|done|]. intros j g Hj Hg%String.eqb_eq.
  apply String.eqb_eq in Hn. eapply NoDup_lookup; [exact Hnd|..];
    unfold names; rewrite list_lookup_fmap; [by rewrite Hj|rewrite Hf; cbn; congruence].
Qed.

Lemma name_index_relabel fs a name :
  name_index (map (fun f : option string * string => (Some a, f.2)) fs) name = name_index fs name.
Proof. unfold name_index. induction fs as [|f fs IH]; cbn; [done|]. by rewrite IH. Qed.

Lemma names_relabel fs (a : string) : names (map (fun f : option string * string => (Some a, f.2)) fs) = names fs.
Proof. unfold names. induction fs as [|f fs IH]; cbn; [done|]. by f_equal. Qed.

Lemma names_scan (t : string) l : names (map (fun n => (Some t, n)) l) = l.
Proof. unfold names. induction l as [|n l IH]; cbn; [done|]. by f_equal. Qed.

Lemma name_index_scan (t : string) l name i :
  name_index (map (fun n => (Some t, n)) l) name = Some i -> l !! i = Some name.
Proof.
  intros (f & Hf & Hn%String.eqb_eq)%position_Some. change (map ?g l) with (g <$> l) in Hf.
  rewrite list_lookup_fmap in Hf. destruct (l !! i) as [x|]; [|done]. injection Hf as <-.
  cbn in Hn. by subst.
Qed.

Section Sound.
Context {Value : Type}.
Abbreviation Cell := (option Value).
Abbreviation Row := (list (option Value)).
Abbreviation WorkerRow := (string -> option Value).
Variable other_value : Expr -> list (option string * string) -> Row -> Cell.
Variable truth : Cell -> bool.
Variable table_rows : Z -> list WorkerRow.
Variable filtered : list Expr -> list WorkerRow -> list WorkerRow -> Prop.
Variable other_outcome : Z -> list (list Row -> Prop) -> list Row -> Prop.
Variable other_scan : Z -> option (list nat) -> list Expr -> list Row -> Prop.
Variable compare : bool -> bool -> Cell -> Cell -> comparison.

(** Another operator has more outcomes when its inputs have. *)
Hypothesis other_monotone : forall id ds es out,
  Forall2 (fun d e => forall o : list Row, d o -> e o) ds es -> other_outcome id ds out -> other_outcome id es out.
(** Comparison is a total preorder under each direction and null placement. *)
Hypothesis compare_opp : forall d n a b, compare d n b a = CompOpp (compare d n a b).
Hypothesis compare_trans : forall d n a b c,
  compare d n a b <> Gt -> compare d n b c <> Gt -> compare d n a c <> Gt.

Local Abbreviation outcome := (outcome other_value truth table_rows filtered other_outcome other_scan compare).
Local Abbreviation eval := (eval other_value).
Local Abbreviation hint_leb := (hint_leb compare).
Local Abbreviation honours := (honours compare).
Local Abbreviation sort_le := (sort_le other_value compare).
Local Abbreviation sort_compare := (sort_compare other_value compare).

(** ** Lexicographic order *)

Lemma compare_eq_l d n a b c : compare d n a b = Eq -> compare d n b c = compare d n a c.
Proof.
  intros Hab. assert (compare d n b a = Eq) as Hba by (by rewrite compare_opp, Hab).
  pose proof (compare_trans d n a b c) as H1. pose proof (compare_trans d n b a c) as H2.
  pose proof (compare_trans d n c b a) as H3. pose proof (compare_trans d n c a b) as H4.
  rewrite (compare_opp d n b c), (compare_opp d n a c) in *.
  rewrite Hab, Hba in *. destruct (compare d n b c), (compare d n a c); cbn in *; try done;
    exfalso; (by apply H1) || (by apply H2) || (by apply H3) || (by apply H4).
Qed.

Lemma compare_eq_r d n b c a : compare d n b c = Eq -> compare d n a b = compare d n a c.
Proof.
  intros Hbc. rewrite (compare_opp d n b a), (compare_opp d n c a). by rewrite (compare_eq_l _ _ _ _ _ Hbc).
Qed.

Lemma sort_compare_opp fs es a b : sort_compare fs es b a = CompOpp (sort_compare fs es a b).
Proof.
  unfold OrderPushdown.sort_compare. induction es as [|e es IH]; [done|]. cbn.
  rewrite (compare_opp _ _ (eval fs a (so_expr e))).
  by destruct (compare _ _ (eval fs a (so_expr e)) _); cbn.
Qed.

Lemma sort_le_total fs es a b : sort_le fs es a b \/ sort_le fs es b a.
Proof.
  unfold OrderPushdown.sort_le. rewrite (sort_compare_opp fs es a b).
  destruct (sort_compare fs es a b); [by left|by left|by right].
Qed.

Lemma sort_le_trans fs es a b c : sort_le fs es a b -> sort_le fs es b c -> sort_le fs es a c.
Proof.
  unfold OrderPushdown.sort_le, OrderPushdown.sort_compare.
  induction es as [|e es IH]; [done|]. cbn.
  pose proof (compare_trans (negb (so_asc e)) (so_nulls_first e) (eval fs a (so_expr e))
    (eval fs b (so_expr e)) (eval fs c (so_expr e))) as Ht.
  destruct (compare _ _ (eval fs a _) (eval fs b _)) eqn:Hab; [|intros _|done].
  - rewrite (compare_eq_l _ _ _ _ _ Hab). destruct (compare _ _ (eval fs a _) (eval fs c _)); [apply IH|done|done].
  - intros Hbc. destruct (compare _ _ (eval fs b _) (eval fs c _)) eqn:Hbc'; [..|done].
    + by rewrite <- (compare_eq_r _ _ _ _ (eval fs a (so_expr e)) Hbc'), Hab.
    + specialize (Ht ltac:(done) ltac:(done)).
      destruct (compare _ _ (eval fs a _) (eval fs c _)) eqn:Hac; [|done|done].
      exfalso. pose proof (compare_eq_l _ _ _ _ (eval fs b (so_expr e)) Hac) as Hx.
      rewrite (compare_opp _ _ (eval fs b (so_expr e)) (eval fs c _)), Hbc', Hab in Hx. cbn in Hx. done.
Qed.

(** ** The first rows of a sort *)

#[local] Instance sort_le_dec fs es : RelDecision (sort_le fs es).
Proof.
  intros a b. unfold OrderPushdown.sort_le.
  destruct (OrderPushdown.sort_compare _ _ _ _ _ _); [left|left|right]; congruence.
Defined.
#[local] Instance sort_le_Total fs es : Total (sort_le fs es).
Proof. intros a b. apply sort_le_total. Qed.
#[local] Instance sort_le_Transitive fs es : Transitive (sort_le fs es).
Proof. intros a b c. apply sort_le_trans. Qed.

(** Fewer rows than its position precede a row that does not precede [d]. *)
Lemma preceding_few {R} (le : relation R) `{!Total le, !Transitive le} (leb : R -> R -> bool) s i x d :
  (forall a b, leb a b = true -> le a b) ->
  StronglySorted le s -> s !! i = Some x -> ~ le x d -> (length (List.filter (fun r => leb r d) s) <= i)%nat.
Proof.
  intros Hleb Hs. revert i. induction Hs as [|y s Hs IH Hy]; intros i Hi Hx; [done|].
  destruct i as [|i]; cbn.
  - injection Hi as ->. assert (leb x d = false) as -> by (destruct (leb x d) eqn:E; [by apply Hleb in E|done]).
    rewrite Forall_forall in Hy. enough (List.filter (fun r => leb r d) s = []) as -> by done.
    clear IH Hs. induction s as [|z s IHs]; [done|]. cbn. destruct (leb z d) eqn:E.
    + exfalso. apply Hx. trans z; [apply Hy; by left|by apply Hleb].
    + apply IHs. intros w Hw. apply Hy. by right.
  - specialize (IH i Hi Hx). destruct (leb y d); cbn; lia.
Qed.

(** Rows left out behind [n] others change no first [n] rows. *)
Lemma first_rows_kept {R} (le : relation R) `{!RelDecision le, !Total le, !Transitive le}
    (leb : R -> R -> bool) (n : nat) s dropped :
  (forall a b, leb a b = true -> le a b) -> StronglySorted le s ->
  (forall d, d ∈ dropped -> (n <= length (List.filter (fun r => leb r d) s))%nat) ->
  exists t, Permutation t (s ++ dropped) /\ StronglySorted le t /\ take n t = take n s.
Proof.
  intros Hleb Hs Hd. exists (take n s ++ merge_sort le (drop n s ++ dropped)).
  assert (Permutation (merge_sort le (drop n s ++ dropped)) (drop n s ++ dropped)) as Hperm
    by apply merge_sort_Permutation.
  rewrite <- (take_drop n s) in Hs. apply StronglySorted_app in Hs as (Hs1 & Hs2 & Hs3).
  split; [|split].
  - rewrite Hperm, app_assoc, take_drop. done.
  - apply StronglySorted_app. split; [|split; [done|by apply StronglySorted_merge_sort]].
    intros x y Hx Hy. rewrite Hperm in Hy. apply elem_of_app in Hy as [Hy|Hy]; [by apply Hs1|].
    destruct (decide (le x y)) as [|Hn]; [done|exfalso].
    apply list_elem_of_lookup in Hx as [i Hi]. assert (i < n)%nat as Hlt.
    { apply lookup_lt_Some in Hi. rewrite length_take in Hi. lia. }
    rewrite lookup_take_lt in Hi by done.
    assert (StronglySorted le s) as Hss by (rewrite <- (take_drop n s); by apply StronglySorted_app).
    pose proof (preceding_few le leb s i x y Hleb Hss Hi Hn). specialize (Hd y Hy). lia.
  - destruct (decide (n <= length s)%nat).
    + rewrite take_app_le by (rewrite length_take; lia). rewrite take_take. f_equal. lia.
    + destruct dropped as [|d dropped].
      * rewrite app_nil_r, drop_ge by lia. cbn. by rewrite app_nil_r, take_take, Nat.min_id.
      * specialize (Hd d ltac:(left)).
        pose proof (List.filter_length_le (fun r => leb r d) s). lia.
Qed.

(** ** Hints through a plan *)

(** Plans DataFusion makes: names on the way of a hint are unique, columns
    resolve, and no provider carries a hint yet. *)
Fixpoint plan_ok (p : LogicalPlan) : Prop :=
  match p with
  | TableScan _ s pr _ =>
      NoDup (scan_names s pr) /\ match s with VgiSource v => vp_order_by v = None | _ => True end
  | Projection fs es i =>
      NoDup (names fs) /\ Forall (fun e => forall c, direct_column e = Some c -> is_Some (resolve (plan_fields i) c)) es
      /\ plan_ok i
  | Sort es _ i =>
      Forall (fun e => forall c, direct_column (so_expr e) = Some c -> is_Some (resolve (plan_fields i) c)) es
      /\ plan_ok i
  | Filter _ i | Repartition i | SubqueryAlias _ i => plan_ok i
  | OtherPlan _ _ ps => (fix all l := match l with [] => True | x :: l => plan_ok x /\ all l end) ps
  end.

Definition cell (fs : list (option string * string)) (name : string) (row : Row) : Cell :=
  default None (row_at row <$> name_index fs name).
Definition row_leb (fs : list (option string * string)) (h : OrderBy) (a b : Row) : bool :=
  hint_leb h (cell fs (ob_column h) a) (cell fs (ob_column h) b).

Lemma eval_direct fs row e c i : NoDup (names fs) -> direct_column e = Some c -> resolve fs c = Some i ->
  eval fs row e = cell fs c.2 row.
Proof.
  intros Hnd Hc Hi. unfold cell. rewrite (resolve_name fs c i Hnd Hi).
  destruct e as [r n| | | | | | | |e n| |]; try done; [|destruct e as [r n'| | | | | | | | | |]; try done];
    injection Hc as <-; cbn; by rewrite Hi.
Qed.

Lemma hint_leb_limit h l c a b : hint_leb (set_limit (set_column h c) l) a b = hint_leb h a b.
Proof. by destruct h. Qed.
Lemma hint_leb_column h c a b : hint_leb (set_column h c) a b = hint_leb h a b.
Proof. by destruct h. Qed.

Lemma filter_map_length {A B} (f : A -> B) (p : B -> bool) l :
  length (List.filter p (map f l)) = length (List.filter (fun x => p (f x)) l).
Proof. induction l as [|x l IH]; cbn; [done|]. by destruct (p (f x)); cbn; rewrite IH. Qed.

Lemma filter_ext_length {A} (p q : A -> bool) l : (forall x, p x = q x) ->
  length (List.filter p l) = length (List.filter q l).
Proof. intros H. f_equal. by apply List.filter_ext. Qed.

Lemma dispensable_map {A B} (f : A -> B) limit lebA lebB dropped kept :
  (forall a b, lebB (f a) (f b) = lebA a b) ->
  dispensable limit lebA dropped kept -> dispensable limit lebB (map f dropped) (map f kept).
Proof.
  intros H. destruct limit as [n|]; cbn; [|by intros ->].
  intros Hd ? (d & -> & Hin)%list_elem_of_fmap. specialize (Hd d Hin).
  rewrite filter_map_length. rewrite (filter_ext_length _ (fun r => lebA r d)); [done|].
  intros r. apply H.
Qed.

Lemma dispensable_ext {R} limit (f g : R -> R -> bool) dropped kept :
  (forall a b, f a b = g a b) -> dispensable limit f dropped kept -> dispensable limit g dropped kept.
Proof.
  intros H Hd. rewrite <- (List.map_id dropped), <- (List.map_id kept).
  by apply (dispensable_map (fun r => r) limit f g).
Qed.

(** What a hinted input may leave out. *)
Definition hinted_input (p p' : LogicalPlan) (h : OrderBy) : Prop :=
  plan_fields p' = plan_fields p /\ NoDup (names (plan_fields p))
  /\ forall out', outcome p' out' -> exists dropped out,
       outcome p out /\ Permutation out (out' ++ dropped)
       /\ dispensable (ob_limit h) (row_leb (plan_fields p) h) dropped out'.

Lemma hinted_scan t s pr fs h p' :
  plan_ok (TableScan t s pr fs) -> is_Some (name_index (plan_fields (TableScan t s pr fs)) (ob_column h)) ->
  hint_logical_input (TableScan t s pr fs) h = Some p' ->
  hinted_input (TableScan t s pr fs) p' h.
Proof.
  intros [Hnd Hnone] Hname. cbn [hint_logical_input]. destruct s as [v|id]; [|done].
  set (h1 := match fs with [] => h | _ => set_limit h None end).
  assert (ob_column h1 = ob_column h) as Hcol by (by destruct fs, h).
  assert (forall a b, hint_leb h1 a b = hint_leb h a b) as Hleb by (intros; by destruct fs, h).
  rewrite Hcol. unfold remote_column_name.
  destruct (vec_contains (ob_column h) (vp_output_schema v)) eqn:Hin; [|done].
  cbn [mbind option_bind]. intros [= <-].
  split; [done|]. split; [cbn; by rewrite names_scan|].
  intros out' (kept & rows & Hkept & Hrows & ->). cbn [vp_order_by vp_table with_order_by honours] in Hkept.
  destruct Hkept as (dropped & Hperm & Hd).
  change (ob_limit (set_column h1 _)) with (ob_limit h1) in Hd.
  change (ob_column (set_column h1 _)) with (mapped_name (vp_column_mapping v) (ob_column h)) in Hd.
  change (@project Value (with_order_by v _) pr) with (@project Value v pr).
  destruct Hname as [i Hi]. cbn [plan_fields] in Hi |- *.
  pose proof (name_index_scan _ _ _ _ Hi) as Hn.
  assert (forall r, cell (map (fun n => (Some t, n)) (scan_names (VgiSource v) pr)) (ob_column h) (project v pr r)
    = r (mapped_name (vp_column_mapping v) (ob_column h))) as Hcell.
  { intros r. unfold cell. rewrite Hi. cbn. unfold row_at, project.
    change (default None (((fun n => r (mapped_name (vp_column_mapping v) n)) <$> scan_names (VgiSource v) pr) !! i)
            = r (mapped_name (vp_column_mapping v) (ob_column h))).
    by rewrite list_lookup_fmap, Hn. }
  destruct fs as [|e fs].
  - subst rows. exists (map (project v pr) dropped), (map (project v pr) (kept ++ dropped)).
    split; [|split].
    + exists (kept ++ dropped), (kept ++ dropped). cbn in Hnone. rewrite Hnone. by split.
    + by rewrite map_app.
    + eapply dispensable_map, Hd. intros a b. unfold row_leb. rewrite !Hcell, hint_leb_column. symmetry. apply Hleb.
  - assert (dropped = []) as -> by (destruct h; exact Hd). rewrite app_nil_r in Hperm.
    exists [], (map (project v pr) rows). split; [|split; [by rewrite app_nil_r|]].
    + exists kept, rows. cbn in Hnone. rewrite Hnone. by split.
    + cbn. destruct (ob_limit h); [|done]. by intros d ?%elem_of_nil.
Qed.

Lemma names_unique_hinted p p' h : hinted_input p p' h -> NoDup (names (plan_fields p)).
Proof. by intros (_ & ? & _). Qed.

(** Nothing is left out for a hint without a limit. *)
Lemma hinted_no_limit p p' h out' : hinted_input p p' (set_limit h None) -> outcome p' out' ->
  exists out, outcome p out /\ Permutation out out'.
Proof.
  intros (_ & _ & H) Ho. destruct (H out' Ho) as (dropped & out & Hout & Hperm & ->).
  rewrite app_nil_r in Hperm. eauto.
Qed.

Lemma dispensable_nil {R} limit (leb : R -> R -> bool) kept : dispensable limit leb [] kept.
Proof. destruct limit; cbn; [by intros d ?%elem_of_nil|done]. Qed.

Lemma filter_Permutation_bool {A} (p : A -> bool) l k : Permutation l k -> Permutation (List.filter p l) (List.filter p k).
Proof.
  induction 1 as [|x l k _ IH|x y l|l k j _ IH1 _ IH2]; cbn.
  - done.
  - destruct (p x); by rewrite IH.
  - destruct (p x), (p y); try done. apply Permutation_swap.
  - by rewrite IH1.
Qed.

Lemma hinted_projection fs es i h p' :
  plan_ok (Projection fs es i) ->
  (forall h i', is_Some (name_index (plan_fields i) (ob_column h)) -> hint_logical_input i h = Some i' -> hinted_input i i' h) ->
  (forall h i', hint_logical_input i h = Some i' -> NoDup (names (plan_fields i))) ->
  hint_logical_input (Projection fs es i) h = Some p' ->
  hinted_input (Projection fs es i) p' h.
Proof.
  intros (Hnd & Hres & _) IH Hun. cbn.
  destruct (position _ fs) as [index|] eqn:Hpos; [|done]. cbn.
  destruct (es !! index) as [e|] eqn:He; [|done]. cbn.
  destruct (direct_column e) as [c|] eqn:Hc; [|done]. cbn.
  destruct (hint_logical_input i (set_column h c.2)) as [i'|] eqn:Hi; [|done]. intros [= <-].
  rewrite Forall_forall in Hres. destruct (Hres e ltac:(by eapply list_elem_of_lookup_2) c Hc) as [j Hj].
  pose proof (Hun _ _ Hi) as Hndi. pose proof (resolve_name _ _ _ Hndi Hj) as Hj'.
  destruct (IH (set_column h c.2) i' (mk_is_Some _ _ Hj') Hi) as (Hfields & _ & Hout).
  split; [done|]. split; [done|].
  intros out' (input' & Hin' & ->). destruct (Hout input' Hin') as (dropped & input & Hin & Hperm & Hd).
  cbn [plan_fields] in *. rewrite Hfields.
  set (f := fun row => map (eval (plan_fields i) row) es).
  exists (map f dropped), (map f input). split; [by exists input|].
  split; [rewrite Hperm; by rewrite map_app|].
  eapply dispensable_map, Hd. intros a b. unfold row_leb.
  assert (forall r, cell fs (ob_column h) (f r) = cell (plan_fields i) c.2 r) as Hcell.
  { intros r. rewrite <- (eval_direct _ r e c j Hndi Hc Hj). unfold cell, name_index. rewrite Hpos. cbn.
    unfold row_at, f. change (default None ((eval (plan_fields i) r <$> es) !! index) = eval (plan_fields i) r e).
    by rewrite list_lookup_fmap, He. }
  rewrite !Hcell. destruct h; done.
Qed.

(** Hinting resolves names where it succeeds, so names below are unique. *)
Lemma hint_names_unique p h p' : plan_ok p -> hint_logical_input p h = Some p' -> NoDup (names (plan_fields p)).
Proof.
  revert h p'. induction p as [t s pr fs|e i IH|fs es i IH|i IH|a i IH|es k i IH|id fs ps IH] using plan_ind';
    intros h p' Hok; cbn.
  - intros _. destruct Hok as [Hnd _]. by rewrite names_scan.
  - destruct (hint_logical_input i _) eqn:E; [|done]. intros _. by eapply IH.
  - intros _. by destruct Hok.
  - destruct (hint_logical_input i _) eqn:E; [|done]. intros _. by eapply IH.
  - destruct (hint_logical_input i _) eqn:E; [|done]. intros _. rewrite names_relabel. by eapply IH.
  - done.
  - done.
Qed.

Lemma hint_input_sound p h p' : plan_ok p -> is_Some (name_index (plan_fields p) (ob_column h)) ->
  hint_logical_input p h = Some p' -> hinted_input p p' h.
Proof.
  revert h p'. induction p as [t s pr fs|e i IH|fs es i IH|i IH|a i IH|es k i IH|id fs ps IH] using plan_ind';
    intros h p' Hok Hname Hh.
  - by apply hinted_scan.
  - pose proof (hint_names_unique _ _ _ Hok Hh) as Hnd. cbn in Hh.
    destruct (hint_logical_input i (set_limit h None)) as [i'|] eqn:Hi; [|done]. injection Hh as <-.
    specialize (IH (set_limit h None) i' Hok ltac:(by destruct h) Hi).
    split; [exact (proj1 IH)|]. split; [done|]. intros out' (input' & Hin' & ->).
    destruct (hinted_no_limit _ _ _ _ IH Hin') as (input & Hin & Hperm).
    eexists [], _. split; [by exists input|]. split; [|apply dispensable_nil].
    rewrite app_nil_r. rewrite (proj1 IH). by apply filter_Permutation_bool.
  - destruct Hok as (Hnd & Hres & Hok). apply hinted_projection; [done| | |done].
    + intros. by apply IH.
    + intros. by eapply hint_names_unique.
  - cbn in Hh. destruct (hint_logical_input i h) as [i'|] eqn:Hi; [|done]. injection Hh as <-.
    destruct (IH h i' Hok Hname Hi) as (Hf & Hnd & H). split; [done|]. split; [done|].
    intros out' (input' & Hin' & Hperm'). destruct (H input' Hin') as (dropped & out & Hout & Hperm & Hd).
    exists dropped, (out' ++ dropped). split; [|split; [done|]].
    + exists out. split; [done|]. by rewrite Hperm, Hperm'.
    + cbn [plan_fields]. destruct (ob_limit h) as [n|]; cbn in Hd |- *; [|done].
      intros d Hd'. specialize (Hd d Hd'). etrans; [exact Hd|]. apply Nat2Z.inj_le, Nat.eq_le_incl.
      apply Permutation_length. by apply filter_Permutation_bool.
  - cbn in Hh. destruct (hint_logical_input i h) as [i'|] eqn:Hi; [|done]. injection Hh as <-.
    cbn [plan_fields] in Hname. rewrite name_index_relabel in Hname.
    destruct (IH h i' Hok Hname Hi) as (Hf & Hnd & H). split; [cbn; by rewrite Hf|].
    split; [cbn; by rewrite names_relabel|]. intros out' Ho.
    destruct (H out' Ho) as (dropped & out & Hout & Hperm & Hd). exists dropped, out.
    split; [done|]. split; [done|]. cbn. eapply dispensable_ext, Hd. intros x y.
    unfold row_leb, cell. by rewrite !name_index_relabel.
  - done.
  - done.
Qed.

(** ** Top-N above a hinted input *)

Lemma sort_hint_leb es k h fs : sort_hint es k = Some h -> NoDup (names fs) ->
  Forall (fun e => forall c, direct_column (so_expr e) = Some c -> is_Some (resolve fs c)) es ->
  is_Some (name_index fs (ob_column h)) /\
  (ob_limit h = None \/ exists e, es = [e] /\ ob_limit h = Some k
     /\ forall a b, row_leb fs h a b = true -> sort_le fs [e] a b).
Proof.
  intros Hh Hnd Hres. destruct es as [|e es]; [done|]. cbn in Hh.
  destruct (so_expr e) as [r n| | | | | | | | | |] eqn:He; try done. injection Hh as <-.
  apply Forall_cons in Hres as [Hres _]. rewrite He in Hres.
  destruct (Hres (r, n) eq_refl) as [i Hi]. split; [by exists i; apply (resolve_name fs (r, n))|].
  destruct es as [|]; [|by left]. cbn. unfold i64_try_from. destruct (k <=? i64_max)%Z; [|by left].
  right. exists e. split; [done|]. split; [done|]. intros a b. unfold row_leb, OrderPushdown.hint_leb.
  unfold OrderPushdown.sort_le, OrderPushdown.sort_compare. cbn.
  pose proof (fun row => eval_direct fs row (so_expr e) (r, n) i Hnd ltac:(by rewrite He) Hi) as Hev.
  cbn in Hev. rewrite !Hev.
  replace (bool_decide ((if so_asc e then Ascending else Descending) = Descending)) with (negb (so_asc e))
    by (by destruct (so_asc e)).
  replace (bool_decide ((if so_nulls_first e then First else Last) = First)) with (so_nulls_first e)
    by (by destruct (so_nulls_first e)).
  by destruct (compare _ _ _ _).
Qed.

Lemma hinted_top_n es k h i i' out : plan_ok i ->
  Forall (fun e => forall c, direct_column (so_expr e) = Some c -> is_Some (resolve (plan_fields i) c)) es ->
  sort_hint es k = Some h -> hint_logical_input i h = Some i' ->
  outcome (Sort es (Some k) i') out -> outcome (Sort es (Some k) i) out.
Proof.
  intros Hok Hres Hh Hi (input' & Hin' & s & Hs & Hsort & ->).
  pose proof (hint_names_unique _ _ _ Hok Hi) as Hnd.
  destruct (sort_hint_leb _ _ _ _ Hh Hnd Hres) as [Hname Hlimit].
  destruct (hint_input_sound _ _ _ Hok Hname Hi) as (Hf & _ & H).
  rewrite Hf in Hsort. destruct (H input' Hin') as (dropped & input & Hin & Hperm & Hd).
  exists input. split; [done|]. destruct Hlimit as [Hnone|(e & -> & Hlim & Hleb)].
  - rewrite Hnone in Hd. cbn in Hd. subst dropped. rewrite app_nil_r in Hperm.
    exists s. split; [by rewrite Hs, Hperm|]. done.
  - rewrite Hlim in Hd. cbn in Hd.
    destruct (first_rows_kept (sort_le (plan_fields i) [e]) (row_leb (plan_fields i) h) (Z.to_nat k) s dropped)
      as (t & Ht & Hts & Htake); [done|done| |].
    { intros d Hd'. specialize (Hd d Hd'). rewrite (Permutation_length (filter_Permutation_bool _ _ _ Hs)). lia. }
    exists t. split; [by rewrite Ht, Hperm, Hs|]. split; [done|]. cbn. by rewrite Htake.
Qed.

(** C31: hints never change a query: whatever rows workers leave out because of
    the hints the plan pass installs, every outcome of the hinted plan is one of
    the plan without hints, ties broken either way. *)
Theorem top_n_hint_sound (p : LogicalPlan) (out : list Row) :
  plan_ok p -> outcome (hint_logical_plan p) out -> outcome p out.
Proof.
  intros Hok. enough (plan_fields (hint_logical_plan p) = plan_fields p
    /\ forall out, outcome (hint_logical_plan p) out -> outcome p out) as [_ H] by apply H. clear out.
  induction p as [t s pr fs|e i IH|fs es i IH|i IH|a i IH|es k i IH|id fs ps IH] using plan_ind'.
  - by split.
  - destruct (IH Hok) as [Hf H]. split; [exact Hf|]. intros out (input & Hin & ->). exists input.
    rewrite Hf. split; [by apply H|done].
  - destruct (IH (proj2 (proj2 Hok))) as [Hf H]. split; [done|]. intros out (input & Hin & ->). exists input.
    rewrite Hf. split; [by apply H|done].
  - destruct (IH Hok) as [Hf H]. split; [exact Hf|]. intros out (input & Hin & ?). exists input.
    split; [by apply H|done].
  - destruct (IH Hok) as [Hf H]. split; [cbn; by rewrite Hf|done].
  - destruct Hok as [Hres Hok]. destruct (IH Hok) as [Hf H]. cbn [hint_logical_plan].
    destruct k as [k|]; cbn [mbind option_bind].
    2: { split; [exact Hf|]. intros out (input & Hin & Hs). exists input. rewrite <- Hf. split; [by apply H|done]. }
    destruct (sort_hint es k) as [h|] eqn:Hh; cbn [mbind option_bind];
      [destruct (hint_logical_input i h) as [i'|] eqn:Hi|].
    2, 3: split; [exact Hf|]; intros out (input & Hin & Hs); exists input; rewrite <- Hf; split; [by apply H|done].
    split; [|intros out; by apply (hinted_top_n es k h)].
    pose proof (hint_names_unique _ _ _ Hok Hi) as Hnd.
    destruct (sort_hint_leb _ _ _ _ Hh Hnd Hres) as [Hname _]. cbn.
    by destruct (hint_input_sound _ _ _ Hok Hname Hi).
  - split; [done|]. intros out. cbn. apply other_monotone.
    induction IH as [|p ps Hp _ IH]; constructor; [by apply Hp, Hok|]. by apply IH, Hok.
Qed.
End Sound.

(** ** The physical rule *)

Section Validates.
Context {Key Capture : Type}.
Variable new_capture : Key -> nat -> Capture.
Abbreviation Plan := (@ExecutionPlan Key Capture).
Local Abbreviation hint_input := (hint_physical_input new_capture).

(** A planned scan that has not started: its capture is new, and its names and
    hint fit the machine. *)
Definition scan_ready (s : @VgiScan Key Capture) : Prop :=
  sx_capture s = (fun k => new_capture k (Nat.max 1 (sx_partitions s))) <$> sx_cache_key s
  /\ (forall o, sx_order_by s = Some o -> order_ok o)
  /\ forall n, n ∈ sx_filter_schema s -> addressable (bytes_of (mapped_name (sx_column_mapping s) n)).
(** Numbers of a plan are usizes. *)
Definition usize_ok (o : option Z) : Prop := forall z, o = Some z -> (0 <= z)%Z.
Fixpoint exec_ok (p : Plan) : Prop :=
  match p with
  | ScanExec s => scan_ready s
  | ProjectionExec _ i | FilterExec _ i | CoalesceBatchesExec i | CoalescePartitionsExec i
  | RepartitionExec i => exec_ok i
  | SortExec _ fetch _ i => usize_ok fetch /\ exec_ok i
  | GlobalLimitExec skip fetch i => (0 <= skip)%Z /\ usize_ok fetch /\ exec_ok i
  | OtherExec _ ps => (fix all l := match l with [] => True | x :: l => exec_ok x /\ all l end) ps
  end.

Lemma scan_same (s s' : @VgiScan Key Capture) h n : scan_ready s -> n ∈ sx_filter_schema s ->
  (forall z, ob_limit h = Some z -> i64_range z) ->
  scan_with_order_by new_capture s (set_column h (mapped_name (sx_column_mapping s) n)) = Some s' -> s' = s.
Proof.
  intros (Hcap & Hok & Hn) Hin Hl. unfold scan_with_order_by. case_bool_decide as He; [|done]. intros [= <-].
  destruct (sx_order_by s) as [o|] eqn:Ho; [|done]. apply (inj Some) in He.
  assert (o = set_column h (mapped_name (sx_column_mapping s) n)) as <-.
  { apply (delimited_inj order_ok encode_order_by); [apply order_delimited|by apply Hok| |done].
    split; [by apply Hn|done]. }
  rewrite <- Hcap, <- Ho. by destruct s.
Qed.

Lemma hint_input_same (p p' : Plan) index h : exec_ok p -> (forall z, ob_limit h = Some z -> i64_range z) ->
  hint_input p index h = Some p' -> p' = p.
Proof.
  revert p' index h. induction p; intros p' index h Hok Hl Hh; cbn in Hh; try done.
  - destruct (sx_schema s !! index) as [n|]; [|done]. cbn in Hh. unfold scan_remote_column_name in Hh.
    destruct (vec_contains n (sx_filter_schema s)) eqn:Hin; [|done]. cbn in Hh.
    destruct (scan_with_order_by _ _ _) as [s'|] eqn:Hs; [|done]. injection Hh as <-. f_equal.
    apply (scan_same s s' h n); [done|by apply bool_decide_eq_true_1 in Hin|done|done].
  - destruct (exprs !! index) as [e|]; [|done]. cbn in Hh. destruct e as [nm j| | | | | | | |]; try done.
    destruct (hint_input p j h) as [q|] eqn:Hq; [|done]. injection Hh as <-. f_equal. eapply IHp; [exact Hok| |exact Hq]; done.
  - destruct (hint_input p index _) as [q|] eqn:Hq; [|done]. injection Hh as <-. f_equal. eapply IHp; [exact Hok| |exact Hq]; done.
  - destruct (hint_input p index _) as [q|] eqn:Hq; [|done]. injection Hh as <-. f_equal. eapply IHp; [exact Hok| |exact Hq]; done.
  - destruct (hint_input p index _) as [q|] eqn:Hq; [|done]. injection Hh as <-. f_equal. eapply IHp; [exact Hok| |exact Hq]; done.
  - destruct (hint_input p index _) as [q|] eqn:Hq; [|done]. injection Hh as <-. f_equal. eapply IHp; [exact Hok| |exact Hq]; done.
Qed.

Lemma hint_sort_same es fetch preserve (i p' : Plan) k : (0 <= k)%Z -> exec_ok i ->
  hint_physical_sort new_capture es fetch preserve i k = Some p' -> p' = SortExec es fetch preserve i.
Proof.
  intros Hk Hok Hh. destruct es as [|e es]; [done|]. cbn in Hh.
  destruct (ps_expr e) as [n j| | | | | | | |]; try done.
  destruct (hint_input i j _) as [q|] eqn:Hq; [|done]. injection Hh as <-. f_equal.
  eapply hint_input_same; [done| |done]. cbn. intros z. destruct es; [|done].
  unfold i64_try_from. destruct (Z.leb_spec k i64_max); [|done]. intros [= <-]. unfold i64_range. lia.
Qed.

Section ExecInd.
Variable P : Plan -> Prop.
Hypothesis Hscan : forall s, P (ScanExec s).
Hypothesis Hproj : forall es i, P i -> P (ProjectionExec es i).
Hypothesis Hfilter : forall e i, P i -> P (FilterExec e i).
Hypothesis Hbatches : forall i, P i -> P (CoalesceBatchesExec i).
Hypothesis Hparts : forall i, P i -> P (CoalescePartitionsExec i).
Hypothesis Hrep : forall i, P i -> P (RepartitionExec i).
Hypothesis Hsort : forall es k b i, P i -> P (SortExec es k b i).
Hypothesis Hlimit : forall s k i, P i -> P (GlobalLimitExec s k i).
Hypothesis Hother : forall id ps, Forall P ps -> P (OtherExec id ps).
Fixpoint exec_ind' (p : Plan) : P p :=
  match p with
  | ScanExec s => Hscan s
  | ProjectionExec es i => Hproj es i (exec_ind' i)
  | FilterExec e i => Hfilter e i (exec_ind' i)
  | CoalesceBatchesExec i => Hbatches i (exec_ind' i)
  | CoalescePartitionsExec i => Hparts i (exec_ind' i)
  | RepartitionExec i => Hrep i (exec_ind' i)
  | SortExec es k b i => Hsort es k b i (exec_ind' i)
  | GlobalLimitExec s k i => Hlimit s k i (exec_ind' i)
  | OtherExec id ps =>
      Hother id ps ((fix go l : Forall P l :=
        match l with [] => Forall_nil_2 P | x :: l => Forall_cons_2 P x l (exec_ind' x) (go l) end) ps)
  end.
End ExecInd.

(** The physical rule changes no hint: scans were planned with the hints they
    carry, and the rule accepts only those. *)
Theorem physical_rule_validates (p : Plan) : exec_ok p -> optimize new_capture p = p.
Proof.
  induction p as [s|es i IH|e i IH|i IH|i IH|i IH|es k b i IH|skip k i IH|id ps IH] using exec_ind';
    intros Hok; cbn [optimize]; try (by rewrite IH).
  - done.
  - destruct Hok as [Hk Hok]. rewrite IH by done.
    destruct k as [k|]; cbn [mbind option_bind]; [|done].
    destruct (hint_physical_sort _ _ _ _ _ _) as [q|] eqn:Hq; [|done].
    by apply (hint_sort_same es (Some k) b i q k); [apply Hk| |].
  - destruct Hok as (Hskip & Hk & Hok). rewrite IH by done.
    destruct i as [| | | | | |es sk b i| |]; try done.
    destruct k as [k|]; cbn [mbind option_bind]; [|done].
    destruct (checked_add skip k) as [n|] eqn:Hn; cbn [mbind option_bind]; [|done].
    destruct (hint_physical_sort new_capture es sk b i n) as [q|] eqn:Hq; [|done]. f_equal.
    apply (hint_sort_same es sk b i q n); [|by destruct Hok|exact Hq].
    unfold checked_add in Hn. destruct (_ <=? _)%Z; [|done]. injection Hn as <-.
    specialize (Hk k eq_refl). lia.
  - f_equal. induction IH as [|p ps Hp _ IH]; [done|]. destruct Hok as [H1 H2]. cbn.
    by rewrite (Hp H1), (IH H2).
Qed.
End Validates.

(** ** Examples *)

(** Integers with NULLs; [lex] flips the sides for a descending order. *)
Definition ex_compare (descending nulls_first : bool) (a b : option Z) : comparison :=
  match a, b with
  | None, None => Eq
  | None, Some _ => if nulls_first then Lt else Gt
  | Some _, None => if nulls_first then Gt else Lt
  | Some x, Some y => if descending then Z.compare y x else Z.compare x y
  end.

(** [SELECT price AS p FROM items ORDER BY p LIMIT 2] over a table whose column
    [price] is the worker's [c1]. *)
Definition ex_provider : VgiTableProvider :=
  mkProvider 7 ["id"; "price"] (Some {[ "price" := "c1" ]}) None.
Definition ex_plan : LogicalPlan :=
  Sort [mkSort (Column None "p") true false] (Some 2%Z)
    (Projection [(None, "p")] [Alias (Column (Some "items") "price") "p"]
       (TableScan "items" (VgiSource ex_provider) None [])).
Definition ex_row (id price : Z) : string -> option Z :=
  fun c => if String.eqb c "id" then Some id else if String.eqb c "c1" then Some price else None.
Definition ex_rows : list (string -> option Z) := [ex_row 1 30; ex_row 2 10; ex_row 3 20].

Example ex_hint : hint_logical_plan ex_plan =
  Sort [mkSort (Column None "p") true false] (Some 2%Z)
    (Projection [(None, "p")] [Alias (Column (Some "items") "price") "p"]
       (TableScan "items" (VgiSource (with_order_by ex_provider (Some (mkOrderBy "c1" Ascending Last (Some 2%Z))))) None [])).
Proof. vm_compute. reflexivity. Qed.

(** A filter between keeps the order and drops the limit; a computed column
    gets no hint. *)
Example ex_hint_filter :
  hint_logical_input (Filter (Column None "id") (TableScan "items" (VgiSource ex_provider) None []))
    (mkOrderBy "price" Descending First (Some 2%Z))
  = Some (Filter (Column None "id") (TableScan "items"
      (VgiSource (with_order_by ex_provider (Some (mkOrderBy "c1" Descending First None)))) None [])).
Proof. vm_compute. reflexivity. Qed.
Example ex_hint_computed :
  hint_logical_input (Projection [(None, "p")] [ScalarFunction "abs" [Column None "price"]]
    (TableScan "items" (VgiSource ex_provider) None [])) (mkOrderBy "p" Ascending Last None) = None.
Proof. vm_compute. reflexivity. Qed.

Definition ex_outcome : LogicalPlan -> list (list (option Z)) -> Prop :=
  outcome (fun _ _ _ => None) (fun _ => true) (fun _ => ex_rows) (fun _ a b => a = b) (fun _ _ _ => False)
    (fun _ _ _ _ => False) ex_compare.

(** The worker keeps its two cheapest rows; the query cannot tell. *)
Lemma ex_hinted_outcome : ex_outcome (hint_logical_plan ex_plan) [[Some 10%Z]; [Some 20%Z]].
Proof.
  rewrite ex_hint. exists [[Some 10%Z]; [Some 20%Z]]. split.
  - exists [[Some 2%Z; Some 10%Z]; [Some 3%Z; Some 20%Z]]. split; [|vm_compute; reflexivity].
    exists [ex_row 2 10; ex_row 3 20], [ex_row 2 10; ex_row 3 20].
    split; [|split; vm_compute; reflexivity].
    exists [ex_row 1 30]. split.
    + apply (Permutation_app_comm [ex_row 1 30]).
    + intros d ->%list_elem_of_singleton. vm_compute. discriminate.
  - exists [[Some 10%Z]; [Some 20%Z]]. split; [done|]. split; [|vm_compute; reflexivity].
    repeat constructor; vm_compute; discriminate.
Qed.

Lemma top_n_hint_sound_witness : ex_outcome ex_plan [[Some 10%Z]; [Some 20%Z]].
Proof.
  unfold ex_outcome. apply top_n_hint_sound.
  - intros id ds es out _ [].
  - intros d n [x|] [y|]; destruct d, n; cbn; try done; apply Z.compare_antisym.
  - intros d n [x|] [y|] [z|]; destruct d, n; cbn; try done;
      rewrite ?Z.compare_gt_iff; intros H1 H2 H3; apply H1 || apply H2; lia.
  - vm_compute. repeat split; repeat (constructor; [set_solver|]); try apply NoDup_nil_2;
      repeat constructor; intros c [= <-]; by eexists.
  - apply ex_hinted_outcome.
Defined.
