(* ===== verification/RangePartition.v ===== *)
(** * Exact range partitioning (src/src/lib.rs: [split_range_partitioning])

    DataFusion joins partition against partition when both sides claim the same
    ranges, so a false claim loses or invents rows. The claim is made from the
    worker's keys and split points; [range_claim_sound] shows that it holds of
    the rows of every partition [pack_splits] makes. *)

From S2P Require Import Prelude Splits ScanShape.

(** ** Decoded plan metadata *)

(** [TransformSpec] and [RangeKey] with their encoded parts decoded: inputs are
    [FieldPath]s, lists of names. *)
Record TransformSpec (Blob : Type) := mkTransform {
  tr_id : string; tr_inputs : list Blob; tr_has_parameters : bool;
}.
Arguments mkTransform {Blob}. Arguments tr_id {Blob}. Arguments tr_inputs {Blob}.
Arguments tr_has_parameters {Blob}.
Record RangeKey (Blob : Type) := mkRangeKey {
  rk_transform : Blob; rk_direction : string; rk_null_order : string;
}.
Arguments mkRangeKey {Blob}. Arguments rk_transform {Blob}. Arguments rk_direction {Blob}.
Arguments rk_null_order {Blob}.

Section Ranges.
Context {Blob DataType Meta Value : Type} `{!EqDecision DataType}.
Abbreviation Schema := (@Schema DataType Meta).
Abbreviation Cell := (option Value).
(** The split points: typed columns of equally many rows. *)
Record PointBatch := mkPoints { pb_columns : list (DataType * list (option Value)); pb_rows : nat }.

(** [vgi_protocol] decoding, with failures as [None]. *)
Variable read_points : Blob -> option PointBatch.
Variable decode_key : Blob -> option (RangeKey Blob).
Variable decode_transform : Blob -> option (TransformSpec Blob).
Variable decode_path : Blob -> option (list string).
(** DataFusion's [LexOrdering::new] and [RangePartitioning::try_new]. *)
Variable lex_ordering : list PhysicalSortExpr -> option (list PhysicalSortExpr).
Variable range_try_new : list PhysicalSortExpr -> list (list (option Value)) -> bool.

(** The worker column of a key: an identity transform of one plain column. *)
Definition key_column (key : RangeKey Blob) : option string :=
  t ← decode_transform (rk_transform key);
  if negb (String.eqb (tr_id t) "vgi.identity/1") || negb (length (tr_inputs t) =? 1)%nat || tr_has_parameters t
  then None
  else match tr_inputs t with
       | [input] => path ← decode_path input; match path with [name] => Some name | _ => None end
       | _ => None
       end.
(** The only public column the worker column has. *)
Definition public_name (mapping : Mapping) (remote : string) : option string :=
  match mapping with
  | None => Some remote
  | Some m => match filter (fun e => e.2 = remote) (map_to_list m) with
              | [(public, _)] => Some public
              | _ => None
              end
  end.
Definition key_descending (d : string) : option bool :=
  if String.eqb d "ASC" then Some false else if String.eqb d "DESC" then Some true else None.
Definition key_nulls_first (n : string) : option bool :=
  if String.eqb n "NULLS_FIRST" then Some true else if String.eqb n "NULLS_LAST" then Some false else None.

(** One key of the loop. *)
Definition range_key (schema remote_schema : Schema) (mapping : Mapping) (column : option (DataType * list Cell))
    (encoded : Blob) : option PhysicalSortExpr :=
  key ← decode_key encoded;
  remote ← key_column key;
  remote_index ← index_of remote_schema remote;
  public ← public_name mapping remote;
  column_index ← index_of schema public;
  remote_field ← fields remote_schema !! remote_index;
  public_field ← fields schema !! column_index;
  column ← column;
  if negb (bool_decide (data_type remote_field = data_type public_field))
     || negb (bool_decide (column.1 = data_type remote_field))
  then None
  else
    descending ← key_descending (rk_direction key);
    nulls_first ← key_nulls_first (rk_null_order key);
    Some (mkSortExpr public column_index descending nulls_first).

(** The points, row by row; [ScalarValue::try_from_array] of a missing row is
    a failure. *)
Definition split_point (points : PointBatch) (row : nat) : option (list Cell) :=
  option_collect (fun column : DataType * list Cell => column.2 !! row) (pb_columns points).

(** [split_range_partitioning] *)
Definition split_range_partitioning (schema remote_schema : Schema) (mapping : Mapping)
    (planned : PlannedSplits Blob) (keys : list Blob) : option (list PhysicalSortExpr * list (list Cell)) :=
  if negb (range_grouped planned) then None
  else
    encoded ← split_points (planned_plan planned);
    points ← read_points encoded;
    if negb (length (pb_columns points) =? length keys)%nat
       || negb (S (pb_rows points) =? length (groups planned))%nat
    then None
    else
      ordering ← option_collect (fun k => range_key schema remote_schema mapping (pb_columns points !! k.1) k.2)
                   (imap pair keys);
      ordering ← lex_ordering ordering;
      rows ← option_collect (split_point points) (seq 0 (pb_rows points));
      if range_try_new ordering rows then Some (ordering, rows) else None.

(** ** What a range means *)

Variable compare : bool -> bool -> Cell -> Cell -> comparison.
Abbreviation WorkerRow := (string -> option Value).

(** Comparison of a row's key values with a point, key by key. *)
Fixpoint point_compare (options : list (bool * bool)) (row point : list Cell) : comparison :=
  match options, row, point with
  | (d, n) :: options, v :: row, p :: point =>
      match compare d n v p with Eq => point_compare options row point | c => c end
  | _, _, _ => Eq
  end.
(** Range [k] of the points: not before point [k - 1], before point [k]. *)
Definition in_range (options : list (bool * bool)) (points : list (list Cell)) (k : nat) (row : list Cell) : Prop :=
  (forall j p, (j < k)%nat -> points !! j = Some p -> point_compare options row p <> Lt)
  /\ (forall j p, (k <= j)%nat -> points !! j = Some p -> point_compare options row p = Lt).

Definition sort_options (e : PhysicalSortExpr) : bool * bool := (se_descending e, se_nulls_first e).
Definition cell_at (row : list Cell) (i : nat) : Cell := default None (row !! i).
Definition public_cells (schema : Schema) (mapping : Mapping) (row : WorkerRow) : list Cell :=
  map (fun f => row (worker_name mapping (field_name f))) (fields schema).

(** What the worker declares of a key: column, direction and null order. *)
Definition declared_key (encoded : Blob) : option (string * (bool * bool)) :=
  key ← decode_key encoded; column ← key_column key;
  d ← key_descending (rk_direction key); n ← key_nulls_first (rk_null_order key);
  Some (column, (d, n)).

(** ** Soundness *)

Hypothesis lex_ordering_same : forall l o, lex_ordering l = Some o -> length o = length l -> o = l.
Hypothesis try_new_width : forall o rows, range_try_new o rows = true ->
  forall p, p ∈ rows -> length p = length o.

Lemma public_name_mapped mapping remote public :
  public_name mapping remote = Some public -> worker_name mapping public = remote.
Proof.
  unfold public_name, worker_name. destruct mapping as [m|]; [|by intros [= ->]].
  destruct (filter _ _) as [|[p r] [|]] eqn:Hf; try done. intros [= ->]. cbn.
  assert ((public, r) ∈ filter (fun e : string * string => e.2 = remote) (map_to_list m)) as H by (rewrite Hf; left).
  apply list_elem_of_filter in H as [H1 H2]. cbn in H1. subst. apply elem_of_map_to_list in H2.
  by rewrite H2.
Qed.

(** An accepted key is the declared one, read from the public column. *)
Lemma range_key_spec schema remote_schema mapping column encoded e :
  range_key schema remote_schema mapping column encoded = Some e ->
  exists name, declared_key encoded = Some (name, sort_options e)
    /\ forall row, cell_at (public_cells schema mapping row) (se_index e) = row name.
Proof.
  unfold range_key, declared_key. destruct (decode_key encoded) as [key|]; [|done]. cbn.
  destruct (key_column key) as [name|]; [|done]. cbn.
  destruct (index_of remote_schema name) as [ri|]; [|done]. cbn.
  destruct (public_name mapping name) as [public|] eqn:Hp; [|done]. cbn.
  destruct (index_of schema public) as [ci|] eqn:Hci; [|done]. cbn.
  destruct (fields remote_schema !! ri) as [rf|]; [|done]. cbn.
  destruct (fields schema !! ci) as [pf|] eqn:Hpf; [|done]. cbn.
  destruct column as [col|]; [|done]. cbn. destruct (_ || _); [done|].
  destruct (key_descending _) as [d|]; [|done]. cbn.
  destruct (key_nulls_first _) as [n|]; [|done]. cbn. intros [= <-].
  exists name. split; [done|]. intros row. unfold cell_at, public_cells. cbn.
  change (default None (((fun f => row (worker_name mapping (field_name f))) <$> fields schema) !! ci) = row name).
  rewrite list_lookup_fmap, Hpf. cbn.
  destruct (index_of_name _ _ _ Hci) as (f & Hf & <-). assert (f = pf) as -> by congruence.
  by rewrite (public_name_mapped _ _ _ Hp).
Qed.

Lemma option_collect_length {A B} (f : A -> option B) l k : option_collect f l = Some k -> length k = length l.
Proof. intros H%option_collect_Some%Forall2_length. done. Qed.

Lemma collect_keys schema remote_schema mapping (columns : list (DataType * list Cell)) keys ordering i :
  option_collect (fun k => range_key schema remote_schema mapping (columns !! k.1) k.2)
    (imap (fun j k => (i + j, k)%nat) keys) = Some ordering ->
  exists decl, option_collect declared_key keys = Some decl
    /\ map snd decl = map sort_options ordering
    /\ forall row, map (fun d => row d.1) decl
          = map (fun e => cell_at (public_cells schema mapping row) (se_index e)) ordering.
Proof.
  revert i ordering. induction keys as [|k keys IH]; intros i ordering; cbn.
  - intros [= <-]. by exists [].
  - destruct (range_key _ _ _ _ k) as [e|] eqn:He; [|done].
    destruct (option_collect _ (imap _ _)) as [es|] eqn:Hes; intros [= <-].
    destruct (range_key_spec _ _ _ _ _ _ He) as (name & Hd & Hrow).
    assert (imap ((fun j k => (i + j, k)%nat) ∘ S) keys = imap (fun j k => (S i + j, k)%nat) keys) as Himap
      by (apply imap_ext; intros; cbn; f_equal; lia).
    rewrite Himap in Hes. destruct (IH _ _ Hes) as (decl & Hdecl & Ho & Hr). exists ((name, sort_options e) :: decl).
    rewrite Hd, Hdecl. split; [done|]. split; [cbn; by rewrite Ho|].
    intros row. cbn. by rewrite Hrow, Hr.
Qed.

Definition read_num_rows (b : Blob) : option Z := (fun p => Z.of_nat (pb_rows p)) <$> read_points b.

(** C32: a claimed range partitioning is true. If every split the worker puts in
    a range holds only rows of that range, by the keys and points of its plan,
    then every partition of the packed scan holds only rows of its own claimed
    range, by the public columns and the claimed order, renamed columns
    included; and there is one partition for each range. *)
Theorem range_claim_sound (schema remote_schema : Schema) (mapping : Mapping) (plan : ScanPlan Blob) (target : nat)
    (keys : list Blob) (ordering : list PhysicalSortExpr) (points : list (list Cell)) (split_rows : nat -> list WorkerRow) :
  let planned := pack_splits read_num_rows plan target in
  split_range_partitioning schema remote_schema mapping planned keys = Some (ordering, points) ->
  (forall i s k row decl, splits plan !! i = Some s -> range_index s = Some (Z.of_nat k) -> row ∈ split_rows i ->
     option_collect declared_key keys = Some decl ->
     in_range (map snd decl) points k (map (fun d => row d.1) decl)) ->
  length (groups planned) = S (length points)
  /\ forall k g row, groups planned !! k = Some g -> row ∈ flat_map split_rows (split_indices g) ->
     in_range (map sort_options ordering) points k
       (map (fun e => cell_at (public_cells schema mapping row) (se_index e)) ordering).
Proof.
  intros planned Hclaim Hworker. unfold split_range_partitioning in Hclaim.
  destruct (range_grouped planned) eqn:Hrg; [|done]. cbn in Hclaim.
  destruct (split_points _) as [encoded|]; [|done]. cbn in Hclaim.
  destruct (read_points encoded) as [pts|]; [|done]. cbn in Hclaim.
  destruct (_ || _) eqn:Hlens; [done|]. apply orb_false_iff in Hlens as [Hk Hg].
  apply negb_false_iff, Nat.eqb_eq in Hk. apply negb_false_iff in Hg.
  change (match length (groups planned) with 0%nat => false | S m => (pb_rows pts =? m)%nat end = true)
    with ((S (pb_rows pts) =? length (groups planned))%nat = true) in Hg. apply Nat.eqb_eq in Hg.
  destruct (option_collect _ (imap pair keys)) as [l|] eqn:Hl; [|done]. cbn in Hclaim.
  destruct (lex_ordering l) as [o|] eqn:Ho; [|done]. cbn in Hclaim.
  destruct (option_collect _ (seq 0 _)) as [rows|] eqn:Hrows; [|done]. cbn in Hclaim.
  destruct (range_try_new o rows) eqn:Htry; [|done]. injection Hclaim as -> ->.
  pose proof (option_collect_length _ _ _ Hrows) as Hlen. rewrite length_seq in Hlen.
  split; [lia|]. intros k g row Hgk Hrow. destruct points as [|p ps].
  { split; intros j q _ Hj; by rewrite lookup_nil in Hj. }
  assert (ordering = l) as ->.
  { apply lex_ordering_same; [done|]. rewrite <- (try_new_width _ _ Htry p ltac:(left)).
    apply option_collect_Some in Hrows. destruct (pb_rows pts); [done|]. cbn in Hrows.
    apply Forall2_cons in Hrows as [Hp _]. apply option_collect_length in Hp.
    apply option_collect_length in Hl. rewrite length_imap in Hl. lia. }
  destruct (collect_keys _ _ _ _ _ _ 0 Hl) as (decl & Hdecl & Hopts & Hcells).
  rewrite <- Hopts, <- Hcells. apply list_elem_of_In, in_flat_map in Hrow as (i & Hi & Hin).
  apply list_elem_of_In in Hi, Hin. destruct (pack_splits_ranges read_num_rows plan target Hrg) as [_ Hranges].
  apply (Hranges k g Hgk) in Hi as (s & Hs & Hr). by apply (Hworker i s k row decl).
Qed.
End Ranges.

(** ** An instance

    A plan of two ranges of the worker's column [c1], public as [key], divided
    at 10; one split each. *)

Definition ex_compare (descending nulls_first : bool) (a b : option Z) : comparison :=
  match a, b with
  | None, None => Eq
  | None, Some _ => if nulls_first then Lt else Gt
  | Some _, None => if nulls_first then Gt else Lt
  | Some x, Some y => if descending then Z.compare y x else Z.compare x y
  end.
Definition ex_read_points (b : nat) : option (@PointBatch unit Z) :=
  if (b =? 0)%nat then Some (mkPoints [(tt, [Some 10%Z])] 1) else None.
Definition ex_key (_ : nat) : option (RangeKey nat) := Some (mkRangeKey 0 "ASC" "NULLS_FIRST").
Definition ex_transform (_ : nat) : option (TransformSpec nat) := Some (mkTransform "vgi.identity/1" [0%nat] false).
Definition ex_path (_ : nat) : option (list string) := Some ["c1"].
Definition ex_width (o : list PhysicalSortExpr) (rows : list (list (option Z))) : bool :=
  forallb (fun p => length p =? length o)%nat rows.
Definition ex_schema (l : list string) : @Schema unit unit := mkSchema (map (fun n => mkField n tt tt) l) tt.
Definition ex_mapping : Mapping := Some {[ "id" := "c0"; "key" := "c1" ]}.
Definition ex_split (range : Z) : ScanSplitInfo nat := mkSplit 0%nat None false None (Some range) None None.
Definition ex_plan : ScanPlan nat := mkPlan [ex_split 1; ex_split 0] None None None (Some 0%nat) None.
Definition ex_row (v : Z) : string -> option Z := fun c => if String.eqb c "c1" then Some v else None.
(** Split 0 is in the upper range, split 1 in the lower. *)
Definition ex_rows (i : nat) : list (string -> option Z) :=
  match i with 0 => [ex_row 10; ex_row 12] | 1 => [ex_row 3] | _ => [] end%nat.
Definition ex_planned : PlannedSplits nat := pack_splits (read_num_rows ex_read_points) ex_plan 4.
Definition ex_claim := split_range_partitioning ex_read_points ex_key ex_transform ex_path Some ex_width
  (ex_schema ["id"; "key"]) (ex_schema ["c0"; "c1"]) ex_mapping ex_planned [0%nat].

Example ex_claim_ok : ex_claim = Some ([mkSortExpr "key" 1 false true], [[Some 10%Z]]).
Proof. vm_compute. reflexivity. Qed.

Lemma ex_rows_in_range i s k row decl :
  splits ex_plan !! i = Some s -> range_index s = Some (Z.of_nat k) -> row ∈ ex_rows i ->
  option_collect (declared_key ex_key ex_transform ex_path) [0%nat] = Some decl ->
  in_range ex_compare (map snd decl) [[Some 10%Z]] k (map (fun d => row d.1) decl).
Proof.
  intros Hs Hk Hrow [= <-].
  assert (k = 1%nat /\ (row = ex_row 10 \/ row = ex_row 12) \/ k = 0%nat /\ row = ex_row 3) as
    [(-> & [-> | ->]) | (-> & ->)].
  { destruct i as [|[|]]; [injection Hs as <-..|done]; injection Hk as Hk.
    - left. split; [lia|]. apply elem_of_cons in Hrow as [->|Hrow]; [by left|].
      apply list_elem_of_singleton in Hrow as ->. by right.
    - right. split; [lia|]. by apply list_elem_of_singleton in Hrow. }
  all: split; intros [|j] p Hj; cbn; intros [= <-]; try lia; vm_compute; congruence.
Qed.

Lemma ex_width_ok o rows : ex_width o rows = true -> forall p, p ∈ rows -> length p = length o.
Proof.
  intros H p Hp%list_elem_of_In. unfold ex_width in H. rewrite forallb_forall in H. by apply Nat.eqb_eq, H.
Qed.

Lemma range_claim_sound_witness : length (groups ex_planned) = 2%nat /\
  in_range ex_compare [(false, true)] [[Some 10%Z]] 0 [Some 3%Z].
Proof.
  destruct (range_claim_sound ex_read_points ex_key ex_transform ex_path Some ex_width ex_compare
    ltac:(by intros l o [= <-]) ex_width_ok
    (ex_schema ["id"; "key"]) (ex_schema ["c0"; "c1"]) ex_mapping ex_plan 4 [0%nat]
    [mkSortExpr "key" 1 false true] [[Some 10%Z]] ex_rows ltac:(vm_compute; reflexivity) ex_rows_in_range) as [H1 H2].
  split; [exact H1|].
  exact (H2 0%nat _ (ex_row 3) ltac:(vm_compute; reflexivity) ltac:(vm_compute; left)).
Defined.
