(* ===== verification/ScanStatsTheorems.v ===== *)
(** * Claimed statistics hold

    Statistics the adapter claims exact, against the rows a scan returns:
    [partition_statistics_sound] for any set of splits,
    [catalog_statistics_sound] for a catalog table; and two counterexamples. *)

From S2P Require Import Prelude Splits ScanShape ScanStats.

Section Sound.
Context {DataType Meta Value Blob : Type} `{!EqDecision Value}.
Abbreviation Schema := (@Schema DataType Meta).
Abbreviation Cell := (option Value).
Abbreviation Column := (ColumnStatistics Value).
Abbreviation WorkerRow := (string -> option Value).
Variable try_from_array : list (option Value) -> nat -> option Cell.
Variable cast_to : Cell -> DataType -> option Cell.
Variable scalar_gt : Cell -> Cell -> bool.
Variable try_merge : list (Statistics Value) -> Schema -> option (Statistics Value).
(** The order of values. *)
Variable le : Value -> Value -> Prop.
Context `{!PartialOrder le}.

(** ** What exact statistics claim of a column *)

Definition is_null (c : Cell) : bool := match c with None => true | Some _ => false end.
Definition nulls (cells : list Cell) : Z := Z.of_nat (length (List.filter is_null cells)).
(** The order of [ScalarValue]: NULL comes before every value. So an exact NULL
    maximum claims that a column has no values, and an exact NULL minimum
    claims nothing. *)
Definition cell_le (a b : Cell) : Prop :=
  match a, b with None, _ => True | Some v, Some w => le v w | Some _, None => False end.
Record column_sound (c : Column) (cells : list Cell) : Prop := {
  sound_min : forall m v, min_value c = Exact m -> Some v ∈ cells -> cell_le m (Some v);
  sound_max : forall m v, max_value c = Exact m -> Some v ∈ cells -> cell_le (Some v) m;
  sound_nulls : forall n, null_count c = Exact n -> n = nulls cells;
  sound_distinct : distinct_count c = Exact 1%Z -> forall v w, Some v ∈ cells -> Some w ∈ cells -> v = w;
}.

#[export] Instance cell_le_transitive : Transitive cell_le.
Proof. intros a b c. destruct a, b, c; cbn; try done. intros. by etrans. Qed.
Lemma unknown_sound cells : column_sound unknown_column cells.
Proof. by constructor. Qed.

Lemma nulls_none cells : (None : Cell) ∉ cells -> nulls cells = 0%Z.
Proof.
  unfold nulls. induction cells as [|[v|] cells IH]; cbn; intros H; [done| |].
  - apply IH. intros Hin. apply H. by right.
  - exfalso. apply H. left.
Qed.
Lemma nulls_all cells : Forall (eq None) cells -> nulls cells = Z.of_nat (length cells).
Proof.
  unfold nulls. induction 1 as [|c cells <- _ IH]; cbn; [done|]. lia.
Qed.

(** Claims about the columns of a schema survive their collection. *)
Lemma take_columns_all (P : string -> Column -> Prop) fs (m : gmap string Column) i f c :
  (forall name, P name unknown_column) -> (forall name c, m !! name = Some c -> P name c) ->
  fs !! i = Some f -> take_columns (Meta := Meta) (DataType := DataType) fs m !! i = Some c -> P (field_name f) c.
Proof.
  intros Hu. revert m i. induction fs as [|g fs IH]; intros m i Hm; [done|].
  destruct i as [|i]; cbn.
  - intros [= ->] [= <-]. destruct (m !! field_name f) eqn:E; [by apply Hm|apply Hu].
  - apply IH. intros name c' [_ Hc]%lookup_delete_Some. by apply Hm.
Qed.

(** A loop that inserts sound claims keeps all claims sound. *)
Lemma fold_claims {A} (P : string -> Column -> Prop) (step : gmap string Column -> A -> gmap string Column) l m :
  (forall m x, (forall name c, m !! name = Some c -> P name c) -> x ∈ l ->
     forall name c, step m x !! name = Some c -> P name c) ->
  (forall name c, m !! name = Some c -> P name c) ->
  forall name c, fold_left step l m !! name = Some c -> P name c.
Proof.
  revert m. induction l as [|x l IH]; intros m Hstep Hm; [done|]. cbn.
  apply IH; [|by apply Hstep; [|left]].
  intros m' y Hm' Hy. by apply Hstep; [|right].
Qed.

Lemma insert_claim (P : string -> Column -> Prop) name c (m : gmap string Column) :
  (forall n c, m !! n = Some c -> P n c) -> P name c -> forall n c', <[name := c]> m !! n = Some c' -> P n c'.
Proof. intros Hm Hc n c' [[<- <-]|[_ H]]%lookup_insert_Some; [done|by apply Hm]. Qed.

Lemma exact_Exact {A} (o : option A) a : exact o = Exact a -> o = Some a.
Proof. by destruct o; intros [= ->]. Qed.
Lemma inexact_Exact {A} (o : option A) a : inexact o <> Exact a.
Proof. by destruct o. Qed.

(** ** Splits *)

(** What a worker declares of a split's rows: null facts, exact row counts, and
    bounds, in the type of the scan's column; a NULL upper bound is that of a
    column without values. *)
Record declared (schema : Schema) (s : SplitInfo (Value := Value) (Blob := Blob)) (rows : list WorkerRow) : Prop := {
  decl_no_null : forall b names row name, si_column_statistics s = Some b -> names_column b = Some names ->
    names !! row = Some (Some name) -> bool_at b "has_null" row = Some false -> None ∉ map (fun r => r name) rows;
  decl_all_null : forall b names row name, si_column_statistics s = Some b -> names_column b = Some names ->
    names !! row = Some (Some name) -> bool_at b "has_not_null" row = Some false ->
    Forall (eq None) (map (fun r => r name) rows);
  decl_rows : rows_exact (si_split s) = true -> estimated_rows (si_split s) = Some (Z.of_nat (length rows));
  decl_bounds : forall b name f a m v, split_bounds s = Some b -> stat_column b name = Some a ->
    field_with_name schema name = Some f -> Some v ∈ map (fun r => r name) rows ->
    (array_scalar try_from_array cast_to a 0 (data_type f) = Some m -> cell_le m (Some v))
    /\ (array_scalar try_from_array cast_to a 1 (data_type f) = Some m -> cell_le (Some v) m);
}.

Lemma exact_rows (l : list (ScanSplitInfo Blob)) (counts : list nat) n :
  Forall2 (fun s k => rows_exact s = true -> estimated_rows s = Some (Z.of_nat k)) l counts ->
  split_row_count l = Exact n -> n = Z.of_nat (sum_list counts).
Proof.
  intros Hl. rewrite split_row_count_spec.
  destruct (option_collect split_rows l) as [rows|] eqn:Hrows; [|done].
  destruct (_ <=? _)%Z; [|done]. destruct (forallb rows_exact l) eqn:Hex; [|done]. intros [= <-].
  apply option_collect_Some in Hrows. revert counts Hl. induction Hrows as [|s r l rows Hs _ IH];
    intros counts Hl; inversion Hl as [|? k ? counts' Hk Hl']; subst; [done|].
  cbn in Hex. apply andb_true_iff in Hex as [He Hex]. cbn. rewrite (IH Hex counts' Hl').
  unfold split_rows in Hs. rewrite (Hk He) in Hs. cbn in Hs. unfold usize_try_from in Hs.
  destruct (0 <=? Z.of_nat k)%Z eqn:E; [|lia]. injection Hs as <-. lia.
Qed.

Lemma null_count_sound num_rows (b : StatBatch (Value := Value)) row cells :
  (bool_at b "has_null" row = Some false -> (None : Cell) ∉ cells) ->
  (bool_at b "has_not_null" row = Some false -> Forall (eq None) cells) ->
  (forall n, num_rows = Exact n -> n = Z.of_nat (length cells)) ->
  forall n, null_count_of num_rows b row = Exact n -> n = nulls cells.
Proof.
  intros H1 H2 Hn n. unfold null_count_of.
  destruct (bool_at b "has_null" row) as [[]|], (bool_at b "has_not_null" row) as [[]|]; try done;
    (by intros [= <-]; rewrite nulls_none; [|apply H1]) || (intros Hx; rewrite nulls_all by (by apply H2); by apply Hn).
Qed.
Lemma distinct_Exact (b : StatBatch (Value := Value)) row n : distinct_count_of b row <> Exact n.
Proof. unfold distinct_count_of. by destruct (_ ≫= _). Qed.

Definition claim (rows : list WorkerRow) (name : string) (c : Column) : Prop :=
  column_sound c (map (fun r => r name) rows).

Lemma split_column_sound schema s rows b names m row :
  declared schema s rows -> si_column_statistics s = Some b -> names_column b = Some names ->
  (forall name c, m !! name = Some c -> claim rows name c) ->
  forall name c, split_column try_from_array cast_to schema (split_row_count [si_split s]) b names m row !! name = Some c ->
  claim rows name c.
Proof.
  intros Hd Hb Hnames Hm. unfold split_column.
  destruct (names !! row) as [[name|]|] eqn:Hn; cbn; try done.
  destruct (field_with_name schema name) as [f|]; [|done]. apply insert_claim; [done|].
  constructor; cbn.
  - by intros v w ?%inexact_Exact.
  - by intros v w ?%inexact_Exact.
  - apply null_count_sound; [by eapply decl_no_null|by eapply decl_all_null|].
    rewrite length_map. intros n Hx. rewrite (exact_rows [si_split s] [length rows] n); [cbn; lia| |done].
    constructor; [apply (decl_rows _ _ _ Hd)|constructor].
  - by intros ?%distinct_Exact.
Qed.

Lemma bounds_column_sound schema s rows b m name :
  declared schema s rows -> split_bounds s = Some b ->
  (forall name c, m !! name = Some c -> claim rows name c) ->
  forall n c, bounds_column try_from_array cast_to schema b m name !! n = Some c -> claim rows n c.
Proof.
  intros Hd Hb Hm. unfold bounds_column.
  destruct (field_with_name schema name) as [f|] eqn:Hf; [|done].
  destruct (stat_column b name) as [a|] eqn:Ha; [|done].
  assert (column_sound (default unknown_column (m !! name)) (map (fun r => r name) rows)) as Hold
    by (destruct (m !! name) eqn:E; [by apply Hm|apply unknown_sound]).
  apply insert_claim; [done|].
  set (lo := array_scalar try_from_array cast_to a 0 (data_type f)).
  set (hi := array_scalar try_from_array cast_to a 1 (data_type f)).
  assert (forall x v, lo = Some x -> Some v ∈ map (fun r => r name) rows -> cell_le x (Some v)) as Hlo
    by (intros x v Hx Hv; by apply (decl_bounds _ _ _ Hd b name f a x v)).
  assert (forall x v, hi = Some x -> Some v ∈ map (fun r => r name) rows -> cell_le (Some v) x) as Hhi
    by (intros x v Hx Hv; by apply (decl_bounds _ _ _ Hd b name f a x v)).
  constructor; cbn.
  - intros x v Hx%exact_Exact. by apply Hlo.
  - intros x v Hx%exact_Exact. by apply Hhi.
  - apply (sound_nulls _ _ Hold).
  - destruct lo as [[x|]|] eqn:Hx; try by apply (sound_distinct _ _ Hold).
    case_bool_decide as Heq; [|by apply (sound_distinct _ _ Hold)].
    intros _ v w Hv Hw. symmetry in Heq.
    assert (v = x) as -> by (apply (anti_symm le); [by apply (Hhi (Some x))|by apply (Hlo (Some x))]).
    apply (anti_symm le); [by apply (Hlo (Some x))|by apply (Hhi (Some x))].
Qed.

Lemma split_sound schema s rows i f c :
  declared schema s rows -> fields schema !! i = Some f ->
  st_columns (statistics_for_split try_from_array cast_to schema s) !! i = Some c ->
  column_sound c (map (fun r => r (field_name f)) rows).
Proof.
  intros Hd Hf Hc. cbn in Hc. revert Hf Hc. apply (take_columns_all (claim rows)).
  { intros name. apply unknown_sound. }
  assert (forall m : gmap string Column, (forall name c, m !! name = Some c -> claim rows name c) ->
    forall name c, match split_bounds s with
      | Some b => fold_left (bounds_column try_from_array cast_to schema b) (sb_columns b).*1 m
      | None => m end !! name = Some c -> claim rows name c) as Hbounds.
  { intros m Hm. destruct (split_bounds s) as [b|] eqn:Hb; [|done].
    apply fold_claims; [|done]. intros. by eapply bounds_column_sound. }
  apply Hbounds. destruct (si_column_statistics s) as [b|] eqn:Hb; [|done].
  destruct (names_column b) as [names|] eqn:Hn; [|done].
  apply fold_claims; [|done]. intros. by eapply split_column_sound.
Qed.

(** [Statistics::try_merge_iter], as DataFusion documents it, column by column:
    exactness survives only where every input is exact; then the bounds are the
    least minimum and the greatest maximum, NULL being least, and null counts
    add up; a distinct count stays exact only if there is nothing to merge. *)
Record merges : Prop := {
  merge_min : forall sts schema st i c m, try_merge sts schema = Some st -> st_columns st !! i = Some c ->
    min_value c = Exact m ->
    Forall (fun s => exists c' m', st_columns s !! i = Some c' /\ min_value c' = Exact m' /\ cell_le m m') sts;
  merge_max : forall sts schema st i c m, try_merge sts schema = Some st -> st_columns st !! i = Some c ->
    max_value c = Exact m ->
    Forall (fun s => exists c' m', st_columns s !! i = Some c' /\ max_value c' = Exact m' /\ cell_le m' m) sts;
  merge_nulls : forall sts schema st i c n, try_merge sts schema = Some st -> st_columns st !! i = Some c ->
    null_count c = Exact n -> exists ns, n = foldr Z.add 0%Z ns /\
    Forall2 (fun s k => exists c', st_columns s !! i = Some c' /\ null_count c' = Exact k) sts ns;
  merge_distinct : forall sts schema st i c n, try_merge sts schema = Some st -> st_columns st !! i = Some c ->
    distinct_count c = Exact n -> exists s c', sts = [s] /\ st_columns s !! i = Some c' /\ distinct_count c' = Exact n;
}.
Hypothesis merging : merges.

Lemma nulls_app a b : nulls (a ++ b) = (nulls a + nulls b)%Z.
Proof. unfold nulls. rewrite List.filter_app, length_app. lia. Qed.

(** Merged claims hold of the union of the rows. *)
Lemma merge_sound sts schema st (cells : list (list Cell)) i c :
  try_merge sts schema = Some st -> st_columns st !! i = Some c ->
  Forall2 (fun s cs => forall c, st_columns s !! i = Some c -> column_sound c cs) sts cells ->
  column_sound c (concat cells).
Proof.
  intros Hm Hc Hall.
  assert (Hcell : forall x, x ∈ concat cells -> exists s cs, s ∈ sts /\ x ∈ cs /\
    forall c, st_columns s !! i = Some c -> column_sound c cs).
  { intros x (cs & Hcs%list_elem_of_In%list_elem_of_lookup & Hin)%list_elem_of_In%in_concat. destruct Hcs as [k Hk].
    destruct (Forall2_lookup_r _ _ _ _ _ Hall Hk) as (s & Hs & Hsound). exists s, cs.
    split; [by eapply list_elem_of_lookup_2|]. split; [by apply list_elem_of_In|done]. }
  constructor.
  - intros m v Hmin (s & cs & Hs & Hin & Hsound)%Hcell.
    pose proof (merge_min merging _ _ _ _ _ _ Hm Hc Hmin) as H. rewrite Forall_forall in H.
    destruct (H s Hs) as (c' & m' & Hc' & Hm' & Hle).
    etrans; [exact Hle|]. by apply (sound_min _ _ (Hsound c' Hc')).
  - intros m v Hmax (s & cs & Hs & Hin & Hsound)%Hcell.
    pose proof (merge_max merging _ _ _ _ _ _ Hm Hc Hmax) as H. rewrite Forall_forall in H.
    destruct (H s Hs) as (c' & m' & Hc' & Hm' & Hle).
    etrans; [|exact Hle]. by apply (sound_max _ _ (Hsound c' Hc')).
  - intros n Hn. destruct (merge_nulls merging _ _ _ _ _ _ Hm Hc Hn) as (ns & -> & Hns). clear -Hall Hns.
    revert cells Hall. induction Hns as [|s k sts ns (c' & Hc' & Hk) _ IH]; intros cells Hall;
      inversion Hall as [|? cs ? cells' Hs Hrest]; subst; [done|]. cbn.
    by rewrite nulls_app, <- (IH cells' Hrest), <- (sound_nulls _ _ (Hs c' Hc') k Hk).
  - intros Hd. destruct (merge_distinct merging _ _ _ _ _ _ Hm Hc Hd) as (s & c' & -> & Hc' & Hd').
    inversion Hall as [|? cs ? l Hs Hl]; subst. inversion Hl; subst. cbn. rewrite app_nil_r.
    apply (sound_distinct _ _ (Hs c' Hc') Hd').
Qed.

Lemma omap_valid {A} (l : list A) indices : Forall (fun i => (i < length l)%nat) indices ->
  Forall2 (fun i x => l !! i = Some x) indices (omap (fun i => l !! i) indices).
Proof.
  induction 1 as [|i indices Hi _ IH]; cbn; [constructor|].
  destruct (lookup_lt_is_Some_2 _ _ Hi) as [x Hx]. rewrite Hx. by constructor.
Qed.

Lemma map_flat_map {A B C} (f : B -> C) (g : A -> list B) l : map f (flat_map g l) = flat_map (fun x => map f (g x)) l.
Proof. induction l as [|x l IH]; cbn; [done|]. by rewrite map_app, IH. Qed.

(** C33: exact statistics of a scan partition are true of its rows: whatever
    splits it reads, a claimed exact row count is their number, and claimed
    exact null counts, minima, maxima and single values are those of its
    columns, when the worker's declarations hold, no column is renamed, and
    DataFusion merges the statistics of splits as it documents. *)
Theorem partition_statistics_sound (schema : Schema) (mapping : Mapping) (plan : ScanPlan Blob)
    (infos : list (SplitInfo (Value := Value) (Blob := Blob))) (indices : list nat)
    (rows_of : nat -> list WorkerRow) :
  (forall f, f ∈ fields schema -> worker_name mapping (field_name f) = field_name f) ->
  map si_split infos = splits plan -> Forall (fun i => (i < length infos)%nat) indices ->
  (forall i s, infos !! i = Some s -> declared schema s (rows_of i)) ->
  let g := make_group plan indices in
  let st := statistics_for_splits try_from_array cast_to try_merge schema infos indices
              (group_num_rows g) (group_byte_size g) in
  let rows := flat_map rows_of indices in
  (forall n, st_num_rows st = Exact n -> n = Z.of_nat (length rows))
  /\ forall i f c, fields schema !! i = Some f -> st_columns st !! i = Some c ->
       column_sound c (map (fun r => r (worker_name mapping (field_name f))) rows).
Proof.
  intros Hnames Hsplits Hvalid Hdecl g st rows. pose proof (omap_valid infos indices Hvalid) as Hinfos.
  split.
  - cbn. intros n Hn. rewrite (exact_rows (omap (split_at plan) indices) (map (fun i => length (rows_of i)) indices) n); [| |exact Hn].
    + unfold rows. f_equal. clear. induction indices as [|i l IH]; cbn; [done|]. by rewrite length_app, IH.
    + clear -Hsplits Hvalid Hdecl. unfold split_at. rewrite <- Hsplits.
      induction Hvalid as [|i indices Hi _ IH]; cbn; [constructor|].
      destruct (lookup_lt_is_Some_2 _ _ Hi) as [s Hs].
      change (map si_split infos !! i) with ((si_split <$> infos) !! i). rewrite list_lookup_fmap, Hs. cbn.
      constructor; [apply (decl_rows _ _ _ (Hdecl i s Hs))|exact IH].
  - intros i f c Hf Hc. rewrite (Hnames f) by (by eapply list_elem_of_lookup_2). cbn in Hc.
    destruct (try_merge _ schema) as [merged|] eqn:Hm; cbn in Hc.
    2: { apply list_lookup_fmap_Some in Hc as (? & -> & _). apply unknown_sound. }
    assert (flat_map (fun k => map (fun r : WorkerRow => r (field_name f)) (rows_of k)) indices
            = map (fun r => r (field_name f)) rows) as <- by (unfold rows; by rewrite map_flat_map).
    rewrite flat_map_concat_map. eapply merge_sound; [exact Hm|exact Hc|].
    clear Hm Hc. induction Hinfos as [|k s indices' infos' Hs _ IH]; cbn; constructor.
    + intros c' Hc'. by apply (split_sound schema s (rows_of k) i f c' (Hdecl k s Hs)).
    + apply IH. by inversion Hvalid.
Qed.

(** ** Tables *)

(** What a worker declares of a table; disordered bounds are ordinals of another
    order and promise nothing. *)
Record table_declared (b : StatBatch (Value := Value)) (estimate maximum : option Z) (schema : Schema)
    (rows : list WorkerRow) : Prop := {
  tab_no_null : forall names row name, names_column b = Some names -> names !! row = Some (Some name) ->
    bool_at b "has_null" row = Some false -> None ∉ map (fun r => r name) rows;
  tab_all_null : forall names row name, names_column b = Some names -> names !! row = Some (Some name) ->
    bool_at b "has_not_null" row = Some false -> Forall (eq None) (map (fun r => r name) rows);
  tab_rows : forall n, estimate = Some n -> maximum = Some n -> n = Z.of_nat (length rows);
  tab_bounds : forall names row name t v, names_column b = Some names -> names !! row = Some (Some name) ->
    (forall lo hi, statistic_value try_from_array cast_to b "min" row t = Some lo ->
       statistic_value try_from_array cast_to b "max" row t = Some hi -> scalar_gt lo hi = false) ->
    Some v ∈ map (fun r => r name) rows ->
    (forall m, statistic_value try_from_array cast_to b "min" row t = Some m -> cell_le m (Some v))
    /\ (forall m, statistic_value try_from_array cast_to b "max" row t = Some m -> cell_le (Some v) m);
}.

(** Every worker column of the metadata is renamed, or its name is free. *)
Definition renaming_covers (mapping : Mapping) (b : StatBatch (Value := Value)) : Prop :=
  forall names w m, mapping = Some m -> names_column b = Some names -> Some w ∈ names ->
    (exists public, m !! public = Some w) \/ m !! w = None.

Lemma catalog_name_mapped mapping w :
  (forall m, mapping = Some m -> (exists public, m !! public = Some w) \/ m !! w = None) ->
  worker_name mapping (catalog_name mapping w) = w.
Proof.
  intros H. unfold catalog_name, worker_name. destruct mapping as [m|]; [|done]. cbn.
  destruct (find _ (map_to_list m)) as [[public w']|] eqn:Hf; cbn.
  - apply find_some in Hf as [Hin Hw]. cbn in Hw. apply String.eqb_eq in Hw as ->.
    apply list_elem_of_In, elem_of_map_to_list in Hin. by rewrite Hin.
  - destruct (H m eq_refl) as [[public Hp]|Hn]; [|by rewrite Hn]. exfalso.
    apply elem_of_map_to_list, list_elem_of_In in Hp. pose proof (find_none _ _ Hf _ Hp) as Hw. cbn in Hw.
    by rewrite String.eqb_refl in Hw.
Qed.

(** Exact statistics of a catalog table are true of its rows under any
    renaming of its columns: bounds in the order of values, null counts, and
    the row count, which is claimed only when estimate and maximum agree. *)
Theorem catalog_statistics_sound (schema : Schema) (b : StatBatch) (estimate maximum : option Z) (mapping : Mapping)
    (rows : list WorkerRow) :
  table_declared b estimate maximum schema rows -> renaming_covers mapping b ->
  let st := statistics_for_catalog_table try_from_array cast_to scalar_gt schema b estimate maximum mapping in
  (forall n, st_num_rows st = Exact n -> n = Z.of_nat (length rows))
  /\ forall i f c, fields schema !! i = Some f -> st_columns st !! i = Some c ->
       column_sound c (map (fun r => r (worker_name mapping (field_name f))) rows).
Proof.
  intros Hd Hren st.
  assert (forall n, st_num_rows st = Exact n -> n = Z.of_nat (length rows)) as Hrows.
  { intros n. cbn. unfold cardinality_statistics. pose proof (tab_rows _ _ _ _ _ Hd) as Hn.
    destruct estimate as [e|], maximum as [x|]; cbn; try done; unfold usize_try_from;
      destruct (0 <=? _)%Z eqn:He0; cbn; try done; destruct (0 <=? x)%Z eqn:Hx0; cbn; try done.
    destruct (Nat.eqb_spec (Z.to_nat e) (Z.to_nat x)) as [He|]; cbn; [|done]. intros [= <-].
    assert (e = x) as -> by lia. rewrite <- (Hn x) by done. lia. }
  split; [exact Hrows|]. intros i f c Hf Hc. cbn in Hc. revert Hf Hc.
  apply (take_columns_all (fun name c => column_sound c (map (fun r => r (worker_name mapping name)) rows))).
  { intros name. apply unknown_sound. }
  destruct (names_column b) as [names|] eqn:Hnames; [|done]. apply fold_claims; [|done].
  intros m row Hm _. unfold catalog_column.
  destruct (names !! row) as [[w|]|] eqn:Hw; cbn; try done.
  destruct (field_with_name schema (catalog_name mapping w)) as [g|] eqn:Hg; [|done].
  destruct (match statistic_value _ _ b "min" row (data_type g), _ with Some a, Some b => scalar_gt a b | _, _ => false end)
    eqn:Hgt.
  all: apply (insert_claim (fun name c => column_sound c (map (fun r => r (worker_name mapping name)) rows))); [done|];
    rewrite catalog_name_mapped by (intros m' Hm'; by eapply Hren; [..|eapply list_elem_of_lookup_2]).
  - constructor; cbn; try done; [|by intros ?%distinct_Exact].
    apply null_count_sound; [by eapply tab_no_null|by eapply tab_all_null|].
    intros n Hn. rewrite length_map. by apply Hrows.
  - constructor; cbn.
    + intros x v Hx%exact_Exact Hv. eapply (tab_bounds _ _ _ _ _ Hd names row w (data_type g) v); try done.
      intros lo hi Hlo Hhi. by rewrite Hlo, Hhi in Hgt.
    + intros x v Hx%exact_Exact Hv. eapply (tab_bounds _ _ _ _ _ Hd names row w (data_type g) v); try done.
      intros lo hi Hlo Hhi. by rewrite Hlo, Hhi in Hgt.
    + apply null_count_sound; [by eapply tab_no_null|by eapply tab_all_null|].
      intros n Hn. rewrite length_map. by apply Hrows.
    + by intros ?%distinct_Exact.
Qed.
End Sound.

(** ** Instances

    Columns of integers, and a merge of any number of splits. *)

Definition ex_read (l : list (option Z)) (i : nat) : option (option Z) := l !! i.
Definition ex_cast (c : option Z) (_ : unit) : option (option Z) := Some c.
Definition ex_gt (a b : option Z) : bool :=
  match a, b with Some x, Some y => (y <? x)%Z | Some _, None => true | None, _ => false end.
(** [Precision]'s binary operations, and NULL-first minima and maxima. *)
Definition precision_op {A} (op : A -> A -> A) (p q : Precision A) : Precision A :=
  match p, q with
  | Absent, _ | _, Absent => Absent
  | Exact a, Exact b => Exact (op a b)
  | Exact a, Inexact b | Inexact a, Exact b | Inexact a, Inexact b => Inexact (op a b)
  end.
Definition ex_min (a b : option Z) : option Z :=
  match a, b with Some x, Some y => Some (Z.min x y) | _, _ => None end.
Definition ex_max (a b : option Z) : option Z :=
  match a, b with Some x, Some y => Some (Z.max x y) | None, c | c, None => c end.
Definition ex_merge_column (c d : ColumnStatistics Z) : ColumnStatistics Z :=
  mkColumn (precision_op Z.add (null_count c) (null_count d)) Absent
    (precision_op ex_min (min_value c) (min_value d)) (precision_op ex_max (max_value c) (max_value d)).
Definition ex_merge2 (s t : Statistics Z) : Statistics Z :=
  mkStatistics (precision_op Z.add (st_num_rows s) (st_num_rows t))
    (precision_op Z.add (st_total_byte_size s) (st_total_byte_size t))
    (zip_with ex_merge_column (st_columns s) (st_columns t)).
Definition ex_merge (sts : list (Statistics Z)) (schema : @Schema unit unit) : option (Statistics Z) :=
  match sts with [] => Some (unknown_statistics schema) | s :: sts => Some (fold_left ex_merge2 sts s) end.
Definition ex_schema (l : list string) : @Schema unit unit := mkSchema (map (fun n => mkField n tt tt) l) tt.
Definition ex_row (l : list (string * Z)) : string -> option Z :=
  fun c => snd <$> find (fun e => String.eqb e.1 c) l.

Lemma precision_op_Exact {A} (op : A -> A -> A) p q r :
  precision_op op p q = Exact r -> exists a b, p = Exact a /\ q = Exact b /\ r = op a b.
Proof. destruct p, q; intros [= <-]. by eexists _, _. Qed.
Lemma ex_min_le a b : cell_le Z.le (ex_min a b) a /\ cell_le Z.le (ex_min a b) b.
Proof. destruct a, b; cbn; split; try done; lia. Qed.
Lemma ex_max_le a b : cell_le Z.le a (ex_max a b) /\ cell_le Z.le b (ex_max a b).
Proof. destruct a, b; cbn; split; try done; lia. Qed.

(** What holds of one statistics record, and is passed on from a merge of two
    to each, holds of all that were merged. *)
Lemma ex_fold (P : Statistics Z -> Prop) : 
  (forall s t, P (ex_merge2 s t) -> P s /\ P t) -> forall sts s, P (fold_left ex_merge2 sts s) -> Forall P (s :: sts).
Proof.
  intros Hstep sts. induction sts as [|t sts IH]; intros s H; [by repeat constructor|].
  apply IH, Forall_cons in H as [[Hs Ht]%Hstep H]. by repeat constructor.
Qed.
Lemma ex_column s t i c :
  st_columns (ex_merge2 s t) !! i = Some c ->
  exists cs ct, st_columns s !! i = Some cs /\ st_columns t !! i = Some ct /\ c = ex_merge_column cs ct.
Proof. cbn. rewrite lookup_zip_with_Some. naive_solver. Qed.
Lemma ex_unknown (schema : @Schema unit unit) i c :
  st_columns (unknown_statistics (Value := Z) schema) !! i = Some c -> c = unknown_column.
Proof. cbn. intros (? & -> & _)%list_lookup_fmap_Some. done. Qed.

Lemma ex_merges : merges (DataType := unit) (Meta := unit) ex_merge Z.le.
Proof.
  split; intros sts schema st i c x Hst Hc Hx;
    (destruct sts as [|s sts]; [injection Hst as <-; apply ex_unknown in Hc as ->; discriminate Hx|]); injection Hst as <-.
  - apply (ex_fold (fun s => exists c' m', st_columns s !! i = Some c' /\ min_value c' = Exact m' /\ cell_le Z.le x m')); [|by exists c, x; destruct x; cbn; auto with zarith].
    intros s1 s2 (c' & m' & (cs & ct & H1 & H2 & ->)%ex_column & (a & b & Ha & Hb & ->)%precision_op_Exact & Hle).
    destruct (ex_min_le a b). split; [exists cs, a|exists ct, b]; (split; [done|split; [done|]]); (etrans; [exact Hle|done]).
  - apply (ex_fold (fun s => exists c' m', st_columns s !! i = Some c' /\ max_value c' = Exact m' /\ cell_le Z.le m' x)); [|by exists c, x; destruct x; cbn; auto with zarith].
    intros s1 s2 (c' & m' & (cs & ct & H1 & H2 & ->)%ex_column & (a & b & Ha & Hb & ->)%precision_op_Exact & Hle).
    destruct (ex_max_le a b). split; [exists cs, a|exists ct, b]; (split; [done|split; [done|]]); (etrans; [|exact Hle]; done).
  - revert s c x Hc Hx. induction sts as [|t sts IH]; intros s c x Hc Hx.
    { exists [x]. split; [cbn; lia|]. constructor; [by exists c|constructor]. }
    destruct (IH (ex_merge2 s t) c x Hc Hx) as ([|k ns] & -> & H); [by inversion H|].
    apply Forall2_cons in H as [(c' & (cs & ct & H1 & H2 & ->)%ex_column & (a & b & Ha & Hb & ->)%precision_op_Exact) H].
    exists (a :: b :: ns). split; [cbn; lia|]. constructor; [by exists cs|]. constructor; [by exists ct|done].
  - destruct sts as [|t sts]; [by exists s, c|]. exfalso. cbn [fold_left] in Hc.
    assert (forall c', st_columns (ex_merge2 s t) !! i = Some c' -> distinct_count c' = Absent) as Habs
      by (intros c' (? & ? & _ & _ & ->)%ex_column; done).
    revert Hc Habs. generalize (ex_merge2 s t). clear s t. induction sts as [|t sts IH]; intros s Hc Habs.
    + rewrite (Habs c Hc) in Hx. discriminate Hx.
    + apply (IH (ex_merge2 s t)); [exact Hc|]. by intros c' (? & ? & _ & _ & ->)%ex_column.
Qed.

(** A split of two rows with bounds for the worker's columns [a] and [b], and
    one of a row without an [a], whose bounds are NULL. *)
Definition ex_split (rows : Z) (bounds : list (string * list (option Z))) : SplitInfo (Value := Z) (Blob := nat) :=
  mkSplitInfo (mkSplit 0%nat (Some rows) true None None None None) None None
    (Some (mkStatBatch (map (fun e => (e.1, ValueColumn e.2)) bounds) 2)).
Definition ex_info := ex_split 2 [("a", [Some 1%Z; Some 2%Z]); ("b", [Some 10%Z; Some 20%Z])].
Definition ex_infos := [ex_info; ex_split 1 [("a", [None; None]); ("b", [Some 30%Z; Some 40%Z])]].
Definition ex_split_rows (i : nat) : list (string -> option Z) :=
  match i with
  | 0%nat => [ex_row [("a", 1%Z); ("b", 20%Z)]; ex_row [("a", 2%Z); ("b", 10%Z)]]
  | _ => [ex_row [("b", 35%Z)]]
  end.
Definition ex_split_plan : ScanPlan nat := mkPlan (map si_split ex_infos) None None None None None.
Definition ex_partition (schema : @Schema unit unit) (indices : list nat) : Statistics Z :=
  statistics_for_splits ex_read ex_cast ex_merge schema ex_infos indices
    (group_num_rows (make_group ex_split_plan indices)) (group_byte_size (make_group ex_split_plan indices)).

Lemma ex_declared i s :
  ex_infos !! i = Some s -> declared ex_read ex_cast Z.le (ex_schema ["a"; "b"]) s (ex_split_rows i).
Proof.
  intros Hi. destruct i as [|[|i]]; [| |done]; injection Hi as <-; constructor; try done.
  all: intros b name f a m v [= <-] Ha Hf Hv.
  all: destruct (decide (name = "a")) as [->|Hna]; [|destruct (decide (name = "b")) as [->|Hnb]].
  3, 6: exfalso; unfold stat_column in Ha; cbn [sb_columns find fst map] in Ha;
       by rewrite !(proj2 (String.eqb_neq _ _)) in Ha by done.
  all: injection Ha as <-; cbn in Hv; (split; intros [= <-]); cbn;
    repeat (apply elem_of_cons in Hv as [Hv|Hv]; [discriminate Hv || (injection Hv as ->; lia)|]); by apply elem_of_nil in Hv.
Qed.

Lemma partition_statistics_sound_witness :
  let st := ex_partition (ex_schema ["a"; "b"]) [0%nat; 1%nat] in
  st_num_rows st = Exact 3%Z
  /\ exists c, st_columns st !! 0%nat = Some c /\ min_value c = Exact None /\ max_value c = Exact (Some 2%Z)
    /\ column_sound Z.le c [Some 1%Z; Some 2%Z; None].
Proof.
  intros st. split; [vm_compute; reflexivity|]. eexists. split; [vm_compute; reflexivity|].
  split; [reflexivity|]. split; [reflexivity|].
  refine (proj2 (partition_statistics_sound ex_read ex_cast ex_merge Z.le ex_merges (ex_schema ["a"; "b"]) None ex_split_plan
    ex_infos [0%nat; 1%nat] ex_split_rows _ _ _ _) 0%nat (mkField "a" tt tt) _ _ _); try reflexivity.
  - repeat constructor.
  - exact ex_declared.
Defined.

(** Splits are described in the worker's names, and [statistics_for_split] looks
    these up among the public ones: a table whose public columns [b] and [a]
    are the worker's [a] and [b] claims for [b] the exact bounds of another
    column, which its rows violate. *)
Definition ex_swapped : Mapping := Some {[ "b" := "a"; "a" := "b" ]}.
Lemma split_statistics_ignore_mapping :
  exists c, st_columns (ex_partition (ex_schema ["b"; "a"]) [0%nat]) !! 0%nat = Some c
    /\ min_value c = Exact (Some 10%Z)
    /\ map (fun r => r (worker_name ex_swapped "b")) (ex_split_rows 0) = [Some 1%Z; Some 2%Z].
Proof. eexists. split; [vm_compute; reflexivity|]. split; vm_compute; reflexivity. Qed.

(** A table's statistics with one row per worker column. *)
Definition ex_union (l : list Z) : StatArray (Value := Z) :=
  UnionColumn (imap (fun i _ => (0%Z, i)) l) {[ 0%Z := map Some l ]}.
Definition ex_table (min max : Z) : StatBatch (Value := Z) :=
  mkStatBatch [("column_name", StringColumn [Some "a"]); ("has_null", BooleanColumn [Some false]);
               ("min", ex_union [min]); ("max", ex_union [max])] 1.

Lemma catalog_statistics_sound_witness :
  exists c, st_columns (statistics_for_catalog_table ex_read ex_cast ex_gt (ex_schema ["b"]) (ex_table 1 2)
                          (Some 2%Z) (Some 2%Z) (Some {[ "b" := "a" ]})) !! 0%nat = Some c
    /\ min_value c = Exact (Some 1%Z) /\ column_sound Z.le c [Some 1%Z; Some 2%Z].
Proof.
  eexists. split; [vm_compute; reflexivity|]. split; [reflexivity|].
  refine (proj2 (catalog_statistics_sound ex_read ex_cast ex_gt Z.le (ex_schema ["b"]) (ex_table 1 2)
    (Some 2%Z) (Some 2%Z) (Some {[ "b" := "a" ]}) (ex_split_rows 0) _ _) 0%nat (mkField "b" tt tt) _ _ _);
    try (vm_compute; reflexivity).
  - constructor.
    + intros names [|row] name [= <-] [= <-] _ H.
      change (None ∈ [Some 1%Z; Some 2%Z]) in H. by repeat (apply elem_of_cons in H as [?|H]; [done|]); apply elem_of_nil in H.
    + by intros names [|row] name [= <-] [= <-].
    + intros n [= <-] _. reflexivity.
    + intros names [|row] name t v [= <-] [= <-] _ Hv.
      change (Some v ∈ [Some 1%Z; Some 2%Z]) in Hv.
      split; intros m Hm; vm_compute in Hm; injection Hm as <-; cbn; repeat (apply elem_of_cons in Hv as [[= ->]|Hv]; [lia|]); by apply elem_of_nil in Hv.
  - intros names w m [= <-] [= <-] [= ->]%list_elem_of_singleton. left. exists "b". vm_compute. reflexivity.
Defined.

(** Bounds that are ordinals of an enumeration are dropped only when they are
    disordered as strings: an enumeration [b, a, c] keeps the exact minimum [b]
    over a table that holds [a]. *)
Definition ex_text_table : StatBatch (Value := string) :=
  mkStatBatch [("column_name", StringColumn [Some "a"]);
    ("min", UnionColumn [(0%Z, 0%nat)] {[ 0%Z := [Some "b"] ]});
    ("max", UnionColumn [(0%Z, 0%nat)] {[ 0%Z := [Some "c"] ]})] 1.
Definition text_gt (a b : option string) : bool :=
  match a, b with Some x, Some y => match String.compare x y with Gt => true | _ => false end | _, _ => false end.
Lemma ordinal_bounds_survive :
  exists c, st_columns (statistics_for_catalog_table (fun l i => l !! i) (fun c (_ : unit) => Some c) text_gt
                          (ex_schema ["a"]) ex_text_table None None None) !! 0%nat = Some c
    /\ min_value c = Exact (Some "b") /\ String.compare "a" "b" = Lt.
Proof. eexists. split; [vm_compute; reflexivity|]. split; vm_compute; reflexivity. Qed.
