(* ===== verification/ScanPlanning.v ===== *)
(** * Planning a scan (src/src/lib.rs: [plan_splits], [scan], [VgiScanExec::new])

    How a table scan becomes a physical node: the worker is asked to divide it,
    or a cached plan answers; the splits are packed into partitions; and the
    node settles what it claims (ordering, range partitioning, statistics) and
    whether its result may be cached. Composes [CacheKeys], [Runtime], [Splits],
    [ScanShape], [RangePartition] and [ScanStats]. *)

From S2P Require Import Prelude Text Arrow Filters Identity Settings Runtime CacheKeys Splits.
From S2P Require Import ScanShape RangePartition ScanStats.
From Stdlib Require Import Strings.Ascii.

Section Planning.
Context {Blob Branches : Type}.

(** [vgi_client::ScanPlan]: the packed part and what planning reads besides. *)
Record WorkerPlan := mkWorkerPlan {
  wp_plan : ScanPlan Blob;
  wp_total_rows : option Z;
  wp_total_bytes : option Z;
  wp_cache_max_age_seconds : option Z;
  wp_cache_scope : string;
  wp_locations : option (list string);
  wp_location_ids : list (option (list Z));
}.
Variable is_empty : Blob -> bool.
Variable read_num_rows : Blob -> option Z.
Variable CACHE_SCOPE_CATALOG : string.
Abbreviation Runtime := (@VgiRuntime WorkerPlan Branches).
Local Abbreviation plan_insert := (plan_insert wp_cache_scope CACHE_SCOPE_CATALOG).

(** What the worker answers to the planning call: a plan, or an error with its
    type; connecting, attaching and binding may fail before. *)
Inductive PlanAnswer := Planned (p : WorkerPlan) | Refused (error_type : string) (e : DFError).
Definition plan_answer (a : result PlanAnswer) : result (option WorkerPlan) :=
  a ← a;
  match a with
  | Planned p => Ok (Some p)
  | Refused t e => if String.eqb t "MethodNotImplementedError" then Ok None else Err e
  end.
(** Whether the connection must not return to the pool. *)
Definition poisoned (a : result PlanAnswer) : bool :=
  match a with
  | Ok (Refused t _) => negb (String.eqb t "MethodNotImplementedError")
  | _ => false
  end.

(** [VgiSplitLocality] *)
Record SplitLocality := mkLocality { split_index : nat; locations : list string }.
Definition localities (p : WorkerPlan) : option (list SplitLocality) :=
  table ← wp_locations p;
  Some (imap (fun i ids =>
    mkLocality i (omap (fun id => table !! id) (omap usize_try_from (default [] ids)))) (wp_location_ids p)).

(** A plan of one split that carries nothing is no plan. *)
Definition no_plan (p : WorkerPlan) : bool :=
  match splits (wp_plan p) with
  | [s] => is_empty (token s) && match estimated_rows s, estimated_bytes s with None, None => true | _, _ => false end
  | _ => false
  end.

(** Plan-level totals where the splits' own sums are absent. *)
Definition advisory (own : Precision Z) (total : option Z) : Precision Z :=
  match own with
  | Absent => match total ≫= usize_try_from with Some n => Inexact (Z.of_nat n) | None => Absent end
  | _ => own
  end.
Definition with_totals (p : WorkerPlan) (planned : PlannedSplits Blob) : PlannedSplits Blob :=
  mkPlanned (groups planned) (advisory (Splits.num_rows planned) (wp_total_rows p))
    (advisory (total_byte_size planned) (wp_total_bytes p))
    (planned_plan planned) (range_grouped planned) (unbounded planned).

Definition plan_event (now : Z) (kind : string) (r : ScanRequest) (duration : option Z) (message : option string)
    : VgiEvent :=
  mkEvent now kind (Some (sc_catalog r)) (Some (qualified (sc_schema_name r) (sc_function r))) None duration message.

(** The plan of a request: from the cache, or from the worker, whose plan is
    then stored for as long as it allows; and whether the worker was asked.
    [asked_at] and [answered_at] are the times around the call. *)
Definition obtain_plan (asked_at answered_at : Z) (rt : Runtime) (key : option PlanCacheKey) (r : ScanRequest)
    (answer : result PlanAnswer) : Runtime * bool * result (option WorkerPlan) :=
  let '(rt, cached) := match key with Some key => plan_get asked_at rt key | None => (rt, None) end in
  match cached with
  | Some plan => (emit rt (plan_event asked_at "plan_cache.hit" r None None), false, Ok (Some plan))
  | None =>
      let rt := emit rt (plan_event asked_at "plan_cache.miss" r None None) in
      match plan_answer answer with
      | Err e => (rt, true, Err e)
      | Ok plan =>
          let count := match plan with Some p => length (splits (wp_plan p)) | None => 0%nat end in
          let rt := emit rt (plan_event answered_at "split_plan.complete" r (Some (age answered_at asked_at))
                               (Some (pretty count +:+ " split(s)"))) in
          let rt := match key, plan with
                    | Some key, Some p =>
                        match wp_cache_max_age_seconds p with
                        | Some seconds => if (0 <=? seconds)%Z
                                          then plan_insert answered_at rt key p (seconds * 1000000000)%Z else rt
                        | None => rt
                        end
                    | _, _ => rt
                    end in
          (rt, true, Ok plan)
      end
  end.

(** What [plan_splits] leaves: the runtime, the result ([None]: the scan is one
    unit of work), what the locality hook was told, and whether the connection
    was poisoned. *)
Record Planning := mkPlanning {
  pl_runtime : Runtime;
  pl_result : result (option (WorkerPlan * PlannedSplits Blob));
  pl_hook : option (list SplitLocality);
  pl_poisoned : bool;
}.

(** [plan_splits] *)
Definition plan_splits (asked_at answered_at : Z) (rt : Runtime) (locality_hook : bool) (conn : VgiConnection)
    (r : ScanRequest) (supports_splits : option bool) (target_partitions : nat) (answer : result PlanAnswer)
    : Planning :=
  if bool_decide (supports_splits = Some false) then mkPlanning rt (Ok None) None false
  else
    let '(rt, asked, plan) :=
      obtain_plan asked_at answered_at rt (plan_cache_key conn r target_partitions) r answer in
    let poisoned := asked && poisoned answer in
    match plan with
    | Err e => mkPlanning rt (Err e) None poisoned
    | Ok None => mkPlanning rt (Ok None) None poisoned
    | Ok (Some p) =>
        let told := if locality_hook then localities p else None in
        mkPlanning rt
          (Ok (if no_plan p then None
               else Some (p, with_totals p (pack_splits read_num_rows (wp_plan p) target_partitions))))
          told poisoned
    end.
End Planning.

(** ** The physical node *)

Section Node.
Context {DataType Meta Value Blob : Type} `{!EqDecision DataType, !EqDecision Value}.
Abbreviation Schema := (@Schema DataType Meta).
Variable statistics_of_splits : Schema -> list (SplitInfo (Value := Value) (Blob := Blob)) -> list nat ->
  Precision Z -> Precision Z -> Statistics Value.
Variable range_partitioning : Schema -> Schema -> Mapping -> PlannedSplits Blob ->
  option (list PhysicalSortExpr * list (list (option Value))).

(** The properties a [VgiScanExec] is created with. *)
Record ScanNode := mkNode {
  nd_ordering : option (list PhysicalSortExpr);
  nd_range : option (list PhysicalSortExpr * list (list (option Value)));
  nd_partitions : nat;
  nd_unbounded : bool;
  nd_statistics : Statistics Value;
  nd_partition_statistics : list (Statistics Value);
  nd_cache : CacheIneligibleReason + CacheKey;
  nd_capture_partitions : option nat;
}.

(** [VgiScanExec::new]; [infos] is the plan's splits with their metadata. *)
Definition new_scan (conn : VgiConnection) (r : ScanRequest) (schema remote_schema : Schema) (mapping : Mapping)
    (partitions : nat) (planned : option (PlannedSplits Blob * list (SplitInfo (Value := Value) (Blob := Blob))))
    (cardinality_estimate cardinality_max : option Z)
    (result_cache_ineligible : option CacheIneligibleReason) : ScanNode :=
  let ordering := p ← planned; split_ordering schema p.1 in
  let range := p ← planned; range_partitioning schema remote_schema mapping p.1 in
  let '(statistics, partition_statistics) :=
    match planned with
    | Some (p, infos) =>
        let overall := statistics_of_splits schema infos (seq 0 (length (splits (planned_plan p))))
                         (Splits.num_rows p) (total_byte_size p) in
        (overall, match groups p with
                  | [] => [overall]
                  | gs => map (fun g => statistics_of_splits schema infos (split_indices g)
                                          (group_num_rows g) (group_byte_size g)) gs
                  end)
    | None =>
        let declared := default (unknown_statistics schema)
                          (cardinality_statistics schema cardinality_estimate cardinality_max) in
        (declared, replicate (Nat.max partitions 1) declared)
    end in
  let range_partitioned := match planned with Some (p, _) => is_some (split_points (planned_plan p)) | None => false end in
  let cache := scan_cache_key conn r result_cache_ineligible range_partitioned (negb (is_some ordering)) in
  let cached := match cache with inr _ => true | inl _ => false end in
  let no_splits := match planned with Some (p, _) => match groups p with [] => true | _ => false end | None => false end in
  let '(statistics, partition_statistics) :=
    if cached && no_splits
    then (unknown_statistics schema, replicate (Nat.max partitions 1) (unknown_statistics schema))
    else (statistics, partition_statistics) in
  mkNode ordering range
    (match range with Some (_, points) => S (length points) | None => Nat.max partitions 1 end)
    (match planned with Some (p, _) => unbounded p | None => false end)
    statistics partition_statistics cache
    (if cached then Some (Nat.max partitions 1) else None).

(** The planned end of [scan]: the partition count and the scan's own reasons
    against caching. *)
Definition scan_node (conn : VgiConnection) (r : ScanRequest) (schema remote_schema : Schema) (mapping : Mapping)
    (max_workers : nat) (planned : option (PlannedSplits Blob * list (SplitInfo (Value := Value) (Blob := Blob))))
    (cardinality_estimate cardinality_max : option Z) : ScanNode :=
  let partitions := match planned with None => max_workers | Some (p, _) => Nat.max (length (groups p)) 1 end in
  let is_unbounded := match planned with Some (p, _) => unbounded p | None => false end in
  new_scan conn r schema remote_schema mapping partitions planned cardinality_estimate cardinality_max
    (if sc_secret_dependent r then Some SecretDependent else if is_unbounded then Some Unbounded else None).
End Node.
