(* ===== verification/ScanPlanningTheorems.v ===== *)
(** * Planning is sound

    [plan_cache_invisible]: a cached plan is the one the worker would give.
    [node_claims_consistent]: what a physical scan claims fits together, and a
    scan whose result may be replayed from the cache claims nothing a replay
    breaks. *)

From S2P Require Import Prelude Text Arrow Filters Identity Settings Runtime CacheKeys Splits.
From S2P Require Import ScanShape RangePartition ScanStats ScanPlanning.
From Stdlib Require Import Strings.Ascii.

Section Cache.
Context {Blob Branches : Type}.
Variable is_empty : Blob -> bool.
Variable read_num_rows : Blob -> option Z.
Variable CACHE_SCOPE_CATALOG : string.
Abbreviation Plan := (@WorkerPlan Blob).
Abbreviation Runtime := (@VgiRuntime Plan Branches).
Abbreviation Answer := (result (@PlanAnswer Blob)).
Local Abbreviation plan_splits := (plan_splits (Branches := Branches) is_empty read_num_rows CACHE_SCOPE_CATALOG).
Local Abbreviation obtain_plan := (obtain_plan (Branches := Branches) CACHE_SCOPE_CATALOG).

(** Every cached plan is the answer to the requests with its key. *)
Definition cache_honest (answers : PlanCacheKey -> Answer) (rt : Runtime) : Prop :=
  forall k c, rt_plan_cache rt !! k = Some c -> answers k = Ok (Planned (cp_plan c)).

Lemma emit_plans (rt : Runtime) e : rt_plan_cache (emit rt e) = rt_plan_cache rt.
Proof. unfold emit. by destruct (_ =? _)%nat. Qed.

Lemma plan_get_honest answers now (rt : Runtime) k : cache_honest answers rt ->
  cache_honest answers (plan_get now rt k).1
  /\ forall p, (plan_get now rt k).2 = Some p -> answers k = Ok (Planned p).
Proof.
  intros H. unfold plan_get. cbv zeta. destruct (rt_plan_cache rt !! k) as [c|] eqn:Hk; cbn [mbind option_bind].
  - destruct (_ <? _)%Z; cbn.
    + split; [exact H|]. intros p [= <-]. by apply H.
    + split; [|done]. intros k' c' Hk'. cbn in Hk'. apply lookup_delete_Some in Hk' as [_ Hk']. by apply H.
  - cbn. split; [|done]. intros k' c' Hk'. cbn in Hk'. apply lookup_delete_Some in Hk' as [_ Hk']. by apply H.
Qed.

Lemma plan_insert_honest answers now (rt : Runtime) k p age : cache_honest answers rt ->
  answers k = Ok (Planned p) -> cache_honest answers (plan_insert wp_cache_scope CACHE_SCOPE_CATALOG now rt k p age).
Proof.
  intros H Hp. unfold plan_insert. destruct (_ || _); [done|].
  intros k' c Hc. cbn in Hc. apply lookup_insert_Some in Hc as [[<- <-]|[_ Hc]]; [done|by apply H].
Qed.

Lemma plan_answer_planned (a : Answer) p : plan_answer a = Ok (Some p) -> a = Ok (Planned p).
Proof. destruct a as [[q|t e]|e]; cbn; [by intros [= ->]|by destruct (String.eqb _ _)|done]. Qed.

Lemma obtain_plan_honest answers asked_at answered_at rt key r (answer : Answer) :
  cache_honest answers rt -> (forall k, key = Some k -> answer = answers k) ->
  let '(rt', asked, plan) := obtain_plan asked_at answered_at rt key r answer in
  plan = plan_answer answer /\ cache_honest answers rt' /\ (asked = false -> exists p, plan = Ok (Some p)).
Proof.
  intros H Ha. unfold ScanPlanning.obtain_plan.
  assert (exists rt1 cached, match key with Some key => plan_get asked_at rt key | None => (rt, None) end = (rt1, cached)
    /\ cache_honest answers rt1 /\ forall p, cached = Some p -> answer = Ok (Planned p)) as (rt1 & cached & -> & H1 & Hc).
  { destruct key as [k|]; [|by exists rt, None]. destruct (plan_get asked_at rt k) as [rt1 cached] eqn:E.
    exists rt1, cached. pose proof (plan_get_honest answers asked_at rt k H) as [Hh Hp]. rewrite E in Hh, Hp.
    split; [done|]. split; [done|]. intros p ->. rewrite (Ha k) by done. by apply Hp. }
  destruct cached as [p|].
  { rewrite (Hc p) by done. cbn. split; [done|]. split; [|by eexists]. intros k c. rewrite emit_plans. apply H1. }
  destruct (plan_answer answer) as [plan|e] eqn:Hplan.
  2: { split; [done|]. split; [|done]. intros k c. rewrite emit_plans. apply H1. }
  split; [done|]. split; [|done].
  set (rt2 := emit (emit rt1 _) _).
  assert (cache_honest answers rt2) as H2 by (intros k c; unfold rt2; rewrite !emit_plans; apply H1).
  destruct key as [k|], plan as [p|]; try done. destruct (wp_cache_max_age_seconds p) as [seconds|]; [|done].
  destruct (0 <=? seconds)%Z; [|done]. apply plan_insert_honest; [done|].
  rewrite <- (Ha k) by done. by apply plan_answer_planned.
Qed.

(** Caching plans is invisible: on any runtime whose cached plans are the
    worker's answers for their keys, planning gives what the worker's answer
    gives without a cache, keeps every cached plan such an answer, reports a
    refusal as an error except a missing method, and poisons the connection
    only for a refusal of this very call. *)
Theorem plan_cache_invisible (answers : PlanCacheKey -> Answer) (asked_at answered_at : Z) (rt fresh : Runtime)
    (hook : bool) (conn : VgiConnection) (r : ScanRequest) (supports : option bool) (target : nat) (answer : Answer) :
  cache_honest answers rt -> rt_plan_cache fresh = ∅ ->
  (forall k, plan_cache_key conn r target = Some k -> answer = answers k) ->
  let planned := plan_splits asked_at answered_at rt hook conn r supports target answer in
  let uncached := plan_splits asked_at answered_at fresh hook conn r supports target answer in
  pl_result planned = pl_result uncached /\ pl_hook planned = pl_hook uncached
  /\ cache_honest answers (pl_runtime planned)
  /\ (pl_poisoned planned = true ->
        exists t e, answer = Ok (Refused t e) /\ pl_result planned = Err e).
Proof.
  intros H Hf Ha planned uncached. unfold planned, uncached, ScanPlanning.plan_splits.
  case_bool_decide; [done|].
  assert (cache_honest answers fresh) as Hfh by (intros k c; rewrite Hf; by rewrite lookup_empty).
  pose proof (obtain_plan_honest answers asked_at answered_at rt _ r answer H Ha) as Hrt.
  pose proof (obtain_plan_honest answers asked_at answered_at fresh _ r answer Hfh Ha) as Hfr.
  destruct (obtain_plan _ _ rt _ _ _) as [[rt1 asked1] plan1], (obtain_plan _ _ fresh _ _ _) as [[rt2 asked2] plan2].
  destruct Hrt as (-> & Hh & Hasked), Hfr as (-> & _ & _).
  assert (asked1 && poisoned answer = true -> exists t e, answer = Ok (Refused t e) /\ plan_answer answer = Err e)
    as Hpois.
  { intros [_ Hp]%andb_true_iff. destruct answer as [[p|t e]|e]; try done. exists t, e. split; [done|].
    cbn in Hp |- *. by destruct (String.eqb _ _). }
  destruct (plan_answer answer) as [[p|]|e] eqn:Hplan; cbn; (split; [done|]; split; [done|]; split; [done|]);
    intros Hp; destruct (Hpois Hp) as (t & e' & ? & ?); try done; exists t, e'; by split; [|congruence].
Qed.
End Cache.

(** ** The node *)

Section Claims.
Context {DataType Meta Value Blob : Type} `{!EqDecision DataType, !EqDecision Value}.
Abbreviation Schema := (@Schema DataType Meta).
Variable statistics_of_splits : Schema -> list (SplitInfo (Value := Value) (Blob := Blob)) -> list nat ->
  Precision Z -> Precision Z -> Statistics Value.
Variable read_points : Blob -> option (@PointBatch DataType Value).
Variable decode_key : Blob -> option (RangeKey Blob).
Variable decode_transform : Blob -> option (TransformSpec Blob).
Variable decode_path : Blob -> option (list string).
Variable lex_ordering : list PhysicalSortExpr -> option (list PhysicalSortExpr).
Variable range_try_new : list PhysicalSortExpr -> list (list (option Value)) -> bool.
Variable keys : list Blob.
Local Abbreviation ranges := (fun schema remote mapping planned =>
  split_range_partitioning (Meta := Meta) read_points decode_key decode_transform decode_path lex_ordering range_try_new
    schema remote mapping planned keys).
Local Abbreviation scan_node := (scan_node (Meta := Meta) statistics_of_splits ranges).

Lemma range_claim_shape (schema remote : Schema) mapping (planned : PlannedSplits Blob) ordering points :
  ranges schema remote mapping planned = Some (ordering, points) ->
  is_some (split_points (planned_plan planned)) = true /\ length (groups planned) = S (length points).
Proof.
  unfold split_range_partitioning. destruct (negb _); [done|].
  destruct (split_points _) as [encoded|]; [|done]. cbn [mbind option_bind].
  destruct (read_points encoded) as [pts|]; [|done]. cbn [mbind option_bind].
  destruct (negb (length (pb_columns pts) =? length keys)%nat || negb (S (pb_rows pts) =? length (groups planned))%nat)
    eqn:Hl; [done|]. apply orb_false_iff in Hl as [_ Hl]. apply negb_false_iff, Nat.eqb_eq in Hl.
  destruct (option_collect _ (imap _ _)) as [l|]; [|done]. cbn [mbind option_bind].
  destruct (lex_ordering l) as [o|]; [|done]. cbn [mbind option_bind].
  destruct (option_collect _ (seq _ _)) as [rows|] eqn:Hr; [|done]. cbn [mbind option_bind].
  destruct (range_try_new o rows); [|done]. intros [= <- <-]. split; [done|].
  apply option_collect_Some, Forall2_length in Hr. rewrite length_seq in Hr. lia.
Qed.

(** C34: the claims of a physical scan fit together: it has statistics for
    exactly its partitions, the cache capture waits for exactly these, and a
    scan whose result may be cached, and so replayed from its first partition,
    claims no order and no ranges, is bounded and depends on no secret. *)
Theorem node_claims_consistent (conn : VgiConnection) (r : ScanRequest) (schema remote : Schema) (mapping : Mapping)
    (max_workers : nat) (planned : option (PlannedSplits Blob * list (SplitInfo (Value := Value) (Blob := Blob))))
    (estimate maximum : option Z) :
  let node := scan_node conn r schema remote mapping max_workers planned estimate maximum in
  length (nd_partition_statistics node) = nd_partitions node /\ (0 < nd_partitions node)%nat
  /\ (forall n, nd_capture_partitions node = Some n -> n = nd_partitions node)
  /\ (forall k, nd_cache node = inr k ->
        nd_ordering node = None /\ nd_range node = None /\ nd_unbounded node = false /\ sc_secret_dependent r = false).
Proof.
  unfold ScanPlanning.scan_node, new_scan.
  set (ordering := p ← planned; split_ordering schema p.1).
  set (range := p ← planned; split_range_partitioning read_points decode_key decode_transform decode_path
                  lex_ordering range_try_new schema remote mapping p.1 keys).
  set (ranged := match planned with Some (p, _) => is_some (split_points (planned_plan p)) | None => false end).
  assert (forall o points, range = Some (o, points) -> ranged = true /\
    exists p infos, planned = Some (p, infos) /\ length (groups p) = S (length points)) as Hrange.
  { intros o points. unfold range, ranged. destruct planned as [[p infos]|]; [|done]. cbn. intros Hr.
    destruct (range_claim_shape _ _ _ _ _ _ Hr) as [H1 H2]. split; [done|]. by exists p, infos. }
  set (why := if sc_secret_dependent r then Some SecretDependent else _).
  set (cache := scan_cache_key conn r why ranged (negb (is_some ordering))).
  assert (forall k, cache = inr k -> why = None /\ ranged = false /\ ordering = None) as Hcache.
  { intros k. unfold cache, scan_cache_key, scan_ineligible.
    destruct why, (cache_environment_ineligible_reason conn (sc_catalog r)), ranged, ordering; try done. }
  assert (forall k, cache = inr k -> range = None) as Hnone.
  { intros k Hk. destruct (Hcache k Hk) as (_ & Hr & _). destruct range as [[o points]|] eqn:E; [|done].
    destruct (Hrange o points eq_refl) as [? _]. congruence. }
  assert (why = None -> sc_secret_dependent r = false
    /\ match planned with Some (p, _) => unbounded p | None => false end = false) as Hwhy.
  { unfold why. destruct (sc_secret_dependent r); [done|]. by destruct planned as [[p infos]|]; [destruct (unbounded p)|]. }
  set (wanted := match planned with None => max_workers | Some (p, _) => Nat.max (length (groups p)) 1 end).
  set (parts := match range with Some (_, points) => S (length points) | None => Nat.max wanted 1 end).
  assert (parts = Nat.max wanted 1) as Hparts.
  { unfold parts, wanted. destruct range as [[o points]|]; [|done].
    destruct (Hrange o points eq_refl) as (_ & p & infos & -> & ->). lia. }
  assert (match planned with Some (p, _) => wanted = Nat.max (length (groups p)) 1 | None => True end) as Hwanted
    by (by destruct planned as [[]|]).
  clearbody parts cache why range ordering ranged wanted. clear Hrange.
  assert (forall k, cache = inr k -> ordering = None /\ range = None
    /\ match planned with Some (p, _) => unbounded p | None => false end = false /\ sc_secret_dependent r = false)
    as Hclaims.
  { intros k Hk. destruct (Hcache k Hk) as (Hw & _ & ?). destruct (Hwhy Hw) as [? ?].
    split; [done|]. split; [by apply (Hnone k)|done]. }
  destruct planned as [[p infos]|], cache as [e|k]; cbn [andb].
  - cbn. rewrite Hparts. split; [|split; [lia|done]].
    destruct (groups p); cbn in *; rewrite ?length_map; lia.
  - destruct (groups p) as [|g gs]; cbn in *; rewrite ?length_replicate, ?length_map, Hparts;
      (split; [lia|]; split; [lia|]; split; [intros n [= <-]; lia|]); intros k' [= <-]; by apply (Hclaims k).
  - cbn. rewrite Hparts, length_replicate. split; [lia|]. split; [lia|done].
  - cbn. rewrite Hparts, length_replicate. split; [lia|]. split; [lia|]. split; [intros n [= <-]; lia|].
    intros k' [= <-]. by apply (Hclaims k).
Qed.
End Claims.

(** ** An instance *)

Definition ex_plan : @WorkerPlan nat :=
  mkWorkerPlan (mkPlan [mkSplit 1%nat (Some 3%Z) true None None None None] None None None None None)
    None None (Some 60%Z) "catalog" None [None].
Definition ex_conn : VgiConnection :=
  mkConnection true true (fun _ => Some "anonymous") "worker" "worker" (fun _ => None) (fun _ => []).
Definition ex_request : ScanRequest :=
  mkScan "example" "data" "items" (Some []) None None false (mkPushdown None [] [] 0) None None None None 1%Z false.
Definition ex_answer : result (@PlanAnswer nat) := Ok (Planned ex_plan).
Definition ex_runtime : @VgiRuntime (@WorkerPlan nat) unit :=
  new_runtime true 10 (mkLimits 64 256 10 5) false.
Definition ex_first := plan_splits (fun b => b =? 0)%nat (fun _ => None) "catalog" 0 5 ex_runtime false ex_conn ex_request
  None 4 ex_answer.
Definition ex_second := plan_splits (fun b => b =? 0)%nat (fun _ => None) "catalog" 7 9 (pl_runtime ex_first) false ex_conn
  ex_request None 4 (Err (Panicked "not asked")).

(** The second request is answered from the cache, its worker not asked. *)
Example ex_cached : pl_result ex_second = pl_result ex_first /\ exists p, pl_result ex_second = Ok (Some p)
  /\ map ev_kind (rt_events (pl_runtime ex_second)) = ["plan_cache.miss"; "split_plan.complete"; "plan_cache.hit"].
Proof. split; [vm_compute; reflexivity|]. eexists. split; vm_compute; reflexivity. Qed.

Lemma ex_first_honest : cache_honest (fun _ => ex_answer) (pl_runtime ex_first).
Proof.
  unfold ex_first, ScanPlanning.plan_splits. cbn [bool_decide decide_rel].
  pose proof (obtain_plan_honest "catalog" (fun _ => ex_answer) 0 5 ex_runtime (plan_cache_key ex_conn ex_request 4)
    ex_request ex_answer ltac:(intros k c; unfold ex_runtime; cbn; by rewrite lookup_empty) ltac:(done)) as H.
  destruct (obtain_plan _ _ _ _ _ _ _) as [[rt asked] plan]. destruct H as (-> & H & _). exact H.
Qed.

Lemma plan_cache_invisible_witness :
  pl_result (plan_splits (fun b => b =? 0)%nat (fun _ => None) "catalog" 7 9 (pl_runtime ex_first) false ex_conn
    ex_request None 4 ex_answer) = pl_result ex_first.
Proof.
  destruct (plan_cache_invisible (fun b => b =? 0)%nat (fun _ => None) "catalog" (fun _ => ex_answer) 7 9
    (pl_runtime ex_first) ex_runtime false ex_conn ex_request None 4 ex_answer ex_first_honest
    ltac:(vm_compute; reflexivity) ltac:(reflexivity)) as [H _].
  rewrite H. vm_compute. reflexivity.
Defined.
