(* ===== verification/CallArgs.v ===== *)
(** * Arguments of worker calls

    What the three kinds of calls share: the values a bind carries
    (vgi_client's [ArgValue] and [Arguments]), a worker's declaration of its
    parameters, the Arrow operations on whole arrays, and the conversion of
    table-function arguments (table_function.rs). The operations on arrays and
    on declarations are classes: [ArrayOps] with the laws Arrow documents in
    [ArrayLaws], and [SpecOps]. *)

From S2P Require Import Prelude Arrow SqlRewrite.

(** ** Bind arguments *)

(** [vgi_client::ArgValue]: a typed null or a one-row Arrow array. *)
Inductive ArgValue (Arr : Type) := NullArg (ty : DataType) | ArrowArg (a : Arr).
Arguments NullArg {Arr} ty.
Arguments ArrowArg {Arr} a.

(** [vgi_client::Arguments]. *)
Record BindArguments (Arr : Type) := mkArguments {
  positional : list (ArgValue Arr);
  named : list (string * ArgValue Arr);
}.
Arguments mkArguments {Arr} positional named.
Arguments positional {Arr} _.
Arguments named {Arr} _.

Definition no_arguments {Arr} : BindArguments Arr := mkArguments [] [].
Definition add_positional {Arr} (v : ArgValue Arr) (a : BindArguments Arr) : BindArguments Arr :=
  mkArguments (positional a ++ [v]) (named a).
Definition add_named {Arr} (n : string) (v : ArgValue Arr) (a : BindArguments Arr) : BindArguments Arr :=
  mkArguments (positional a) (named a ++ [(n, v)]).

(** ** Declarations *)

(** [vgi_client::ArgSpec]. *)
Record ArgSpec := mkSpec {
  spec_name : string; spec_type : DataType; spec_varargs : bool; spec_const : bool;
}.

(** DataFusion's [TypeSignature], the forms used here. *)
Inductive TypeSignature :=
  | Any (n : nat) | VariadicAny | Nullary | OneOf (l : list TypeSignature).

(** The methods of [vgi_client::ArgSpecs] the adapter calls. *)
Class SpecOps (Specs : Type) := {
  positional_specs : Specs -> list ArgSpec;
  minimum_positional_arity : Specs -> nat;
  positional_is_const : Specs -> nat -> bool;
}.

(** ** Arrays *)

Class ArrayOps (Arr : Type) := {
  arr_type : Arr -> DataType;
  arr_len : Arr -> nat;
  (** [ScalarValue::try_from_array], [to_array_of_size] and [cast_to] *)
  scalar_at : Arr -> nat -> result ScalarValue;
  broadcast : ScalarValue -> nat -> result Arr;
  scalar_cast : ScalarValue -> DataType -> result ScalarValue;
  (** [compute::cast], [compute::concat], [Array::slice], [new_empty_array] *)
  arr_cast : Arr -> DataType -> result Arr;
  concat_arrays : list Arr -> result Arr;
  slice : Arr -> nat -> nat -> Arr;
  empty_array : DataType -> Arr;
  (** [ArgValue::from_array_row0] *)
  arg_row0 : Arr -> string -> result (ArgValue Arr);
}.

(** Arrays are compared by content, as Arrow's [PartialEq] does. *)
Class ArrayLaws (Arr : Type) `{!ArrayOps Arr} := {
  rows : Arr -> list ScalarValue;
  array_ext (a b : Arr) : arr_type a = arr_type b -> rows a = rows b -> a = b;
  arr_len_rows (a : Arr) : arr_len a = length (rows a);
  scalar_at_rows (a : Arr) i v : rows a !! i = Some v -> scalar_at a i = Ok v;
  concat_rows (ty : DataType) (l : list Arr) :
    l <> [] -> Forall (fun a => arr_type a = ty) l ->
    exists c, concat_arrays l = Ok c /\ arr_type c = ty /\ rows c = mjoin (map rows l);
  slice_type (a : Arr) o n : (o + n <= arr_len a)%nat -> arr_type (slice a o n) = arr_type a;
  slice_rows (a : Arr) o n :
    (o + n <= arr_len a)%nat -> rows (slice a o n) = take n (drop o (rows a));
  cast_type (a c : Arr) ty : arr_cast a ty = Ok c -> arr_type c = ty;
  broadcast_type v n (a : Arr) : broadcast v n = Ok a -> arr_type a = data_type v;
  empty_type ty : arr_type (empty_array ty) = ty;
  empty_rows ty : rows (empty_array ty) = [];
}.

(** ** Conversion of scalars (table_function.rs) *)

Section Convert.
Context {Arr : Type} {OA : ArrayOps Arr}.

Definition scalar_to_arg (function : string) (i : nat) (v : ScalarValue) : result (ArgValue Arr) :=
  if is_null v then Ok (NullArg (data_type v))
  else a ← broadcast v 1; arg_row0 a (function +:+ " argument " +:+ pretty i).

(** [Display] of expressions and columns, DataFusion's constant evaluator, and
    row 0 of the only column of a struct array. *)
Variable show_expr : Expr -> string.
Variable show_column : option string -> string -> string.
Variable simplify : Expr -> result Expr.
Variable column_row0 : list Field -> list (option (list ScalarValue)) -> result ScalarValue.

Definition to_arg_value (function : string) (i : nat) (e : Expr) : result (ArgValue Arr) :=
  let subject := "VGI function `" +:+ function +:+ "` argument " +:+ pretty i in
  match e with
  | Literal v => scalar_to_arg function i v
  | Alias _ name =>
      Err (Plan (subject +:+ " is named (`" +:+ name +:+ "`), and DataFusion table functions take"
                 +:+ " positional arguments only; pass it positionally"))
  | Column relation name =>
      Err (Plan (subject +:+ " refers to column `" +:+ show_column relation name +:+ "`, but a table"
                 +:+ " function's arguments are bound during planning, before any row exists; pass a constant"))
  | other =>
      folded ← simplify other;
      match folded with
      | Literal v => scalar_to_arg function i v
      | _ => Err (Plan (subject +:+ " is not a constant: " +:+ show_expr folded))
      end
  end.

(** [str::strip_prefix] for the private prefix. *)
Definition carried (field : string) : option string :=
  if String.prefix NAMED_ARG_PREFIX field
  then Some (String.substring (String.length NAMED_ARG_PREFIX)
               (String.length field - String.length NAMED_ARG_PREFIX) field)
  else None.

(** A named argument is carried by a one-field struct, folded or not. *)
Definition named_arg (function : string) (i : nat) (e : Expr) : result (option (string * ArgValue Arr)) :=
  let folded := match e with
                | Literal (SVStruct [f] rs) => n ← carried (field_name f); Some (n, [f], rs)
                | _ => None
                end in
  match folded with
  | Some (n, fs, rs) => v ← column_row0 fs rs; v ← scalar_to_arg function i v; Ok (Some (n, v))
  | None =>
      match e with
      | ScalarFunction fn [Literal (SVPrim Utf8 (Some (PString field))); value] =>
          if String.eqb fn "named_struct" then
            match carried field with
            | Some n => v ← to_arg_value function i value; Ok (Some (n, v))
            | None => Ok None
            end
          else Ok None
      | _ => Ok None
      end
  end.

Definition add_argument (function : string) (i : nat) (e : Expr) (out : BindArguments Arr)
    : result (BindArguments Arr) :=
  n ← named_arg function i e;
  match n with
  | Some (name, v) => Ok (add_named name v out)
  | None => v ← to_arg_value function i e; Ok (add_positional v out)
  end.
Fixpoint to_arguments_from (function : string) (i : nat) (es : list Expr) (out : BindArguments Arr)
    : result (BindArguments Arr) :=
  match es with
  | [] => Ok out
  | e :: es => out ← add_argument function i e out; to_arguments_from function (S i) es out
  end.
Definition to_arguments (function : string) (es : list Expr) : result (BindArguments Arr) :=
  to_arguments_from function 0 es no_arguments.

(** ** A childless call of a blended function *)

(** One input row: its schema and its columns. *)
Record LiteralRow := mkRow { row_fields : list Field; row_columns : list Arr }.

Definition literal_column (function : string) (i : nat) (spec : ArgSpec) (e : Expr) : result Arr :=
  let subject := "VGI function `" +:+ function +:+ "` argument " +:+ pretty i in
  v ← match e with
      | Literal v => Ok v
      | Column relation name =>
          Err (Plan (subject +:+ " refers to column `" +:+ show_column relation name +:+ "`; correlated"
                     +:+ " LATERAL table functions are not yet representable in DataFusion"))
      | other => Err (Plan (subject +:+ " is not a constant: " +:+ show_expr other))
      end;
  v ← scalar_cast v (spec_type spec);
  broadcast v 1.

Fixpoint blended_from (function : string) (specs : list ArgSpec) (i p : nat) (es : list Expr)
    (arguments : BindArguments Arr) (row : LiteralRow) : result (BindArguments Arr * LiteralRow) :=
  match es with
  | [] => Ok (arguments, row)
  | e :: es =>
      n ← named_arg function i e;
      match n with
      | Some (name, v) => blended_from function specs (S i) p es (add_named name v arguments) row
      | None =>
          spec ← ok_or (Plan ("VGI function `" +:+ function +:+ "` received more positional arguments"
                              +:+ " than it declares")) (specs !! p);
          column ← literal_column function i spec e;
          blended_from function specs (S i) (S p) es arguments
            (mkRow (row_fields row ++ [mkField (spec_name spec) (spec_type spec) true []])
                   (row_columns row ++ [column]))
      end
  end.

(** [RecordBatch::try_new_with_options] with one row. *)
Variable try_new : list Field -> list Arr -> nat -> result unit.

Definition blended_literal_input {Specs} `{SpecOps Specs} (function : string) (specs : Specs) (es : list Expr)
    : result (BindArguments Arr * LiteralRow) :=
  r ← blended_from function (positional_specs specs) 0 0 es no_arguments (mkRow [] []);
  _ ← try_new (row_fields r.2) (row_columns r.2) 1;
  Ok r.
End Convert.
Arguments LiteralRow Arr : clear implicits.
