(* ===== verification/ArrayModel.v ===== *)
(** * A concrete model of arrays

    Arrays as a type with their values: the instance of [ArrayOps] and
    [ArrayLaws] the examples compute with. A cast renames the type of
    primitive values; arguments are taken from row 0. *)

From S2P Require Import Prelude Arrow CallArgs.

Abbreviation ListArray := (DataType * list ScalarValue)%type.

Definition retype (ty : DataType) (v : ScalarValue) : ScalarValue :=
  match v with SVPrim _ p => SVPrim ty p | v => v end.

#[export] Instance list_arrays : ArrayOps ListArray := {
  arr_type := fst;
  arr_len a := length a.2;
  scalar_at a i := ok_or (Panicked "index out of bounds") (a.2 !! i);
  broadcast v n := Ok (data_type v, replicate n v);
  scalar_cast v ty := Ok (retype ty v);
  arr_cast a ty := Ok (ty, map (retype ty) a.2);
  concat_arrays l :=
    match l with
    | [] => Err (ArrowError "concat requires input of at least one array")
    | a :: _ =>
        if forallb (fun b => bool_decide (b.1 = a.1)) l then Ok (a.1, mjoin (map snd l))
        else Err (ArrowError "It is not possible to concatenate arrays of different data types")
    end;
  slice a o n := (a.1, take n (drop o a.2));
  empty_array ty := (ty, []);
  arg_row0 a _ :=
    match a.2 with
    | [] => Err (Plan "empty argument")
    | v :: _ => if is_null v then Ok (NullArg a.1) else Ok (ArrowArg (a.1, [v]))
    end;
}.

#[export] Instance list_array_laws : ArrayLaws ListArray.
Proof.
  refine {| rows := snd |}.
  - intros [] []; simpl; congruence.
  - done.
  - intros a i v H. simpl. by rewrite H.
  - intros ty [|a l] Hne Hl; [done|]. simpl. apply Forall_cons in Hl as [Ha Hl]. simpl in Ha.
    rewrite bool_decide_eq_true_2 by done. simpl. rewrite (proj2 (forallb_forall _ _)).
    + eexists. split; [done|]. done.
    + intros b Hb. apply bool_decide_eq_true. rewrite Ha. rewrite Forall_forall in Hl.
      apply (Hl b). by apply list_elem_of_In.
  - done.
  - done.
  - by intros a c ty [= <-].
  - by intros v n a [= <-].
  - done.
  - done.
Defined.

(** Declarations as lists: no defaults, and the last parameter repeats when it
    is variadic. *)
#[export] Instance list_specs : SpecOps (list ArgSpec) := {
  positional_specs l := l;
  minimum_positional_arity l := length l;
  positional_is_const l i :=
    match l !! i with
    | Some s => spec_const s
    | None => match last l with Some s => spec_varargs s && spec_const s | None => false end
    end;
}.
