(* ===== verification/TableCalls.v ===== *)
(** * Calls of table functions

    How a call in FROM becomes a bind request: [TableArgument] of
    table_input.rs, [VgiTableFunction] of table_function.rs, the relation
    planner of table_input_planner.rs, and the look-up of registered table
    functions of session.rs. Binding itself is a worker call; here is which one
    of the three kinds is made and with what. *)

From S2P Require Import Prelude Text Registry SqlTree Arrow CallArgs.

(** A table function's catalog metadata ([TableFunctionMetadata]), as far as
    calls look at it. *)
Record TableFunctionMetadata (Specs : Type) := mkMetadata {
  md_specs : Specs;
  buffered : bool;
  sink_order_dependent : bool;
  stream_cache_eligible : bool;
  input_from_args : bool;
}.
Arguments mkMetadata {Specs} _ _ _ _ _.
Arguments md_specs {Specs} _.
Arguments buffered {Specs} _.
Arguments sink_order_dependent {Specs} _.
Arguments stream_cache_eligible {Specs} _.
Arguments input_from_args {Specs} _.

Section TableCalls.
Context {Arr : Type} {OA : ArrayOps Arr} {Specs : Type} {OS : SpecOps Specs}.
(** [LogicalPlan] and its schema; [scalar_subquery] is the plan of an
    [Expr::ScalarSubquery]. *)
Context {LogicalPlan : Type}.
Variable plan_fields : LogicalPlan -> list Field.
Variable scalar_subquery : Z -> option LogicalPlan.
(** As in [CallArgs]. *)
Variable show_expr : Expr -> string.
Variable show_column : option string -> string -> string.
Variable simplify : Expr -> result Expr.
Variable column_row0 : list Field -> list (option (list ScalarValue)) -> result ScalarValue.
Variable try_new : list Field -> list Arr -> nat -> result unit.

Abbreviation to_arguments := (to_arguments show_expr show_column simplify column_row0).
Abbreviation blended_literal_input :=
  (blended_literal_input show_expr show_column simplify column_row0 try_new).

(** ** [TableArgument] *)

Record TableArgument := mkTable { ta_index : nat; ta_plan : LogicalPlan }.

Definition subquery (e : Expr) : option LogicalPlan :=
  match e with OtherExpr id => scalar_subquery id | _ => None end.
Fixpoint find_from (i : nat) (found : option TableArgument) (es : list Expr) : result (option TableArgument) :=
  match es with
  | [] => Ok found
  | e :: es =>
      match subquery e, found with
      | Some _, Some _ => Err (Plan "a VGI call may take at most one table argument")
      | Some p, None => find_from (S i) (Some (mkTable i p)) es
      | None, _ => find_from (S i) found es
      end
  end.
Definition find (es : list Expr) : result (option TableArgument) := find_from 0 None es.

Definition input_schema (t : TableArgument) : list Field :=
  map (fun f => mkField (field_name f) (field_type f) true []) (plan_fields (ta_plan t)).

(** ** [VgiTableFunction] *)

Record VgiTableFunction := mkFunction {
  tf_catalog : string; tf_schema : string; tf_function : string;
  tf_metadata : option (TableFunctionMetadata Specs);
}.

(** The bind a call asks for: [VgiTableInputProvider], [VgiLiteralInputProvider]
    and [VgiTableProvider::bind_blocking]. *)
Inductive BindRequest :=
  | TableInputBind (catalog schema function : string) (arguments : BindArguments Arr) (table : TableArgument)
      (is_buffered is_order_dependent is_cache_eligible : bool)
  | LiteralInputBind (catalog schema function : string) (arguments : BindArguments Arr) (row : LiteralRow Arr)
  | ScanBind (catalog schema function : string) (arguments : BindArguments Arr).

Definition flag (f : VgiTableFunction) (p : TableFunctionMetadata Specs -> bool) : bool :=
  match tf_metadata f with Some m => p m | None => false end.

Definition bind_table_argument (f : VgiTableFunction) (t : TableArgument) (scalars : list Expr)
    : result BindRequest :=
  arguments ← to_arguments (tf_function f) scalars;
  Ok (TableInputBind (tf_catalog f) (tf_schema f) (tf_function f) arguments t
        (flag f buffered) (flag f sink_order_dependent) (flag f stream_cache_eligible)).

(** [iter().enumerate().filter(|(i, _)| i != index)] *)
Definition without {A} (i : nat) (l : list A) : list A := take i l ++ drop (S i) l.

Definition call_with_args (f : VgiTableFunction) (es : list Expr) : result BindRequest :=
  table ← find es;
  match table with
  | Some t => bind_table_argument f t (without (ta_index t) es)
  | None =>
      match tf_metadata f with
      | Some m =>
          if input_from_args m then
            r ← blended_literal_input (tf_function f) (md_specs m) es;
            Ok (LiteralInputBind (tf_catalog f) (tf_schema f) (tf_function f) r.1 r.2)
          else arguments ← to_arguments (tf_function f) es;
               Ok (ScanBind (tf_catalog f) (tf_schema f) (tf_function f) arguments)
      | None => arguments ← to_arguments (tf_function f) es;
                Ok (ScanBind (tf_catalog f) (tf_schema f) (tf_function f) arguments)
      end
  end.

(** ** Registered functions (session.rs)

    The table functions a session registered, by alias: each name with the
    function its weak reference still leads to. *)
Abbreviation TableOwners := (list (string * list (string * option VgiTableFunction))).
Fixpoint registered_vgi_table_function (aliases : TableOwners) (name : string) : option VgiTableFunction :=
  match aliases with
  | [] => None
  | (_, owners) :: rest =>
      match o ← List.find (fun e => eq_ignore_ascii_case e.1 name) owners; o.2 with
      | Some f => Some f
      | None => registered_vgi_table_function rest name
      end
  end.

(** ** The relation planner *)

(** [TableFactor::Table] with its alias; other factors. *)
Record TableFactor := mkFactor {
  factor_name : ObjectName; factor_alias : option string;
  factor_args : option (list FunctionArg); factor_sample : bool;
}.
(** [Original]: left to DataFusion; [Planned]: a scan of the bound provider
    under a table name and the factor's alias. *)
Inductive RelationPlanning :=
  | Original
  | Planned (bind : BindRequest) (table : string) (alias : option string).

(** The query of an [SQLExpr::Subquery]; the planner context's [plan] of a
    derived table and [sql_expr_to_logical_expr] without columns. *)
Variable sql_subquery : node -> option node.
Variable plan_query : node -> result LogicalPlan.
Variable sql_expr_to_logical_expr : node -> result Expr.
Variable show_arg : FunctionArg -> string.

Definition table_query (a : FunctionArg) : option node :=
  match a with (Unnamed, Some e) => sql_subquery e | _ => None end.
Fixpoint table_positions (i : nat) (args : list FunctionArg) : list (nat * node) :=
  match args with
  | [] => []
  | a :: args => match table_query a with
                 | Some q => (i, q) :: table_positions (S i) args
                 | None => table_positions (S i) args
                 end
  end.
Definition scalar_expr (a : FunctionArg) : result Expr :=
  match a with
  | (Unnamed, Some e) => sql_expr_to_logical_expr e
  | _ => Err (Plan ("Unsupported function argument type: " +:+ show_arg a))
  end.

Definition object_name (n : ObjectName) : string := dots (omap as_ident n).

Definition plan_relation (aliases : TableOwners) (r : TableFactor) : result RelationPlanning :=
  match factor_args r with
  | Some args =>
      if factor_sample r then Ok Original
      else
        let name := object_name (factor_name r) in
        match registered_vgi_table_function aliases name with
        | None => Ok Original
        | Some f =>
            match table_positions 0 args with
            | [] => Ok Original
            | [(i, query)] =>
                plan ← plan_query query;
                scalars ← result_collect scalar_expr (without i args);
                bind ← bind_table_argument f (mkTable i plan) scalars;
                Ok (Planned bind (name +:+ "()") (factor_alias r))
            | _ => Err (Plan "a VGI call may take at most one table argument")
            end
        end
  | None => Ok Original
  end.
End TableCalls.
