(* ===== verification/TableCallTheorems.v ===== *)
(** * Theorems on calls of table functions *)

From S2P Require Import Prelude Text Registry SqlTree Arrow CallArgs ArrayModel SqlRewrite TableCalls.

(** ** The private prefix *)

Lemma prefix_app p s : String.prefix p (p +:+ s) = true.
Proof.
  induction p as [|c p IH]; [by destruct s|].
  change (String.prefix (String c p) (String c p +:+ s))
    with (if Ascii.ascii_dec c c then String.prefix p (p +:+ s) else false).
  by destruct (Ascii.ascii_dec c c).
Qed.
Lemma substring_all s : String.substring 0 (String.length s) s = s.
Proof. induction s as [|c s IH]; cbn; [done|]. by rewrite IH. Qed.
Lemma substring_app p s :
  String.substring (String.length p) (String.length (p +:+ s) - String.length p) (p +:+ s) = s.
Proof.
  induction p as [|c p IH]; [|exact IH].
  change (String.substring 0 (String.length s - 0) s = s). rewrite Nat.sub_0_r. apply substring_all.
Qed.
Lemma carried_prefix n : carried (NAMED_ARG_PREFIX +:+ n) = Some n.
Proof. unfold carried. by rewrite prefix_app, substring_app. Qed.

Section Theorems.
Context {Arr : Type} {OA : ArrayOps Arr} {Specs : Type} {OS : SpecOps Specs} {LogicalPlan : Type}.
Variable scalar_subquery : Z -> option LogicalPlan.
Variable show_expr : Expr -> string.
Variable show_column : option string -> string -> string.
Variable simplify : Expr -> result Expr.
Variable column_row0 : list Field -> list (option (list ScalarValue)) -> result ScalarValue.
Variable try_new : list Field -> list Arr -> nat -> result unit.

Abbreviation to_arg_value := (to_arg_value show_expr show_column simplify).
Abbreviation named_arg := (named_arg show_expr show_column simplify column_row0).
Abbreviation add_argument := (add_argument show_expr show_column simplify column_row0).
Abbreviation to_arguments_from := (to_arguments_from show_expr show_column simplify column_row0).
Abbreviation to_arguments := (to_arguments show_expr show_column simplify column_row0).
Abbreviation find := (find scalar_subquery).
Abbreviation find_from := (find_from scalar_subquery).
Abbreviation subquery := (subquery scalar_subquery).
Abbreviation call_with_args :=
  (call_with_args scalar_subquery show_expr show_column simplify column_row0 try_new).

(** ** Named arguments survive planning *)

(** An argument as the caller wrote it. *)
Inductive CallArg := Pos (e : Expr) | Nam (name : string) (e : Expr).
Definition arg_expr (c : CallArg) : Expr := match c with Pos e | Nam _ e => e end.

(** How it reaches the table-function hook: a positional argument as itself, a
    named one in the struct the SQL rewrite put it in, perhaps folded. *)
Inductive encodes (function : string) : Expr -> CallArg -> Prop :=
  | encodes_pos e : (forall i, named_arg function i e = Ok None) -> encodes function e (Pos e)
  | encodes_named n e :
      encodes function
        (ScalarFunction "named_struct" [Literal (SVPrim Utf8 (Some (PString (NAMED_ARG_PREFIX +:+ n)))); e])
        (Nam n e)
  | encodes_folded n ty nl md rs v :
      column_row0 [mkField (NAMED_ARG_PREFIX +:+ n) ty nl md] rs = Ok v ->
      encodes function (Literal (SVStruct [mkField (NAMED_ARG_PREFIX +:+ n) ty nl md] rs))
        (Nam n (Literal v)).

Definition place (c : CallArg) (v : ArgValue Arr) (out : BindArguments Arr) : BindArguments Arr :=
  match c with Pos _ => add_positional v out | Nam n _ => add_named n v out end.

Lemma add_argument_encoded f i e c out :
  encodes f e c ->
  add_argument f i e out = (v ← to_arg_value f i (arg_expr c); Ok (place c v out)).
Proof.
  destruct 1 as [e Hplain|n e|n ty nl md rs v Hv]; unfold CallArgs.add_argument.
  - by rewrite Hplain.
  - unfold CallArgs.named_arg. rewrite carried_prefix. simpl.
    by destruct (CallArgs.to_arg_value _ _ _ _ _ e).
  - unfold CallArgs.named_arg. cbn [field_name mbind option_bind]. rewrite carried_prefix.
    cbn [mbind option_bind result_bind]. rewrite Hv. cbn. by destruct (scalar_to_arg f i v).
Qed.

(** The values of the positional and of the named arguments, in order. *)
Definition positional_values (cs : list CallArg) (vs : list (ArgValue Arr)) : list (ArgValue Arr) :=
  omap (fun '(c, v) => match c with Pos _ => Some v | Nam _ _ => None end) (zip cs vs).
Definition named_values (cs : list CallArg) (vs : list (ArgValue Arr)) : list (string * ArgValue Arr) :=
  omap (fun '(c, v) => match c with Pos _ => None | Nam n _ => Some (n, v) end) (zip cs vs).
(** The calls with their positions, from [i] on. *)
Fixpoint numbered {A} (i : nat) (l : list A) : list (nat * A) :=
  match l with [] => [] | x :: l => (i, x) :: numbered (S i) l end.

Lemma to_arguments_from_encoded f es cs : Forall2 (encodes f) es cs -> forall i out,
  to_arguments_from f i es out =
    (vs ← result_collect (fun '(j, c) => to_arg_value f j (arg_expr c)) (numbered i cs);
     Ok (mkArguments (positional out ++ positional_values cs vs) (named out ++ named_values cs vs))).
Proof.
  induction 1 as [|e c es cs He _ IH]; intros i out; simpl.
  - rewrite !app_nil_r. by destruct out.
  - rewrite (add_argument_encoded _ _ _ _ _ He).
    destruct (CallArgs.to_arg_value _ _ _ f i (arg_expr c)) as [v|err]; simpl; [|done].
    rewrite IH. destruct (result_collect _ (numbered (S i) cs)) as [vs|err]; simpl; [|done].
    destruct c as [e'|n e']; simpl; unfold positional_values, named_values; simpl;
      by rewrite <- ?app_assoc.
Qed.

(** Named arguments, which DataFusion's table functions do not have, arrive
    all the same: from the struct literals the SQL rewrite wraps them in, folded
    by DataFusion or not, exactly the caller's positional values and named values
    reach the bind, each in the caller's order and under its name; the first
    argument that does not convert decides the error. *)
Theorem arguments_carried f es cs :
  Forall2 (encodes f) es cs ->
  to_arguments f es =
    (vs ← result_collect (fun '(j, c) => to_arg_value f j (arg_expr c)) (numbered 0 cs);
     Ok (mkArguments (positional_values cs vs) (named_values cs vs))).
Proof. intros H. unfold CallArgs.to_arguments. by rewrite (to_arguments_from_encoded f es cs H 0). Qed.

(** ** Arguments are constants *)

(** A column, also one behind a name. *)
Definition row_dependent (e : Expr) : Prop :=
  match e with
  | Column _ _ => True
  | ScalarFunction fn [Literal (SVPrim Utf8 (Some (PString s))); Column _ _] =>
      fn = "named_struct" /\ is_Some (carried s)
  | _ => False
  end.

Lemma to_arg_value_column f i r n v : to_arg_value f i (Column r n) <> Ok v.
Proof. done. Qed.
Lemma named_arg_column f i e o : row_dependent e -> named_arg f i e = Ok o -> o = None /\ exists r n, e = Column r n.
Proof.
  unfold CallArgs.named_arg. destruct e as [r n|v|l op r|e|e|e|e items neg|e ty|e n|fn args|id]; simpl; try done.
  - intros _ [= <-]. eauto.
  - destruct args as [|[|[ty [[]|]|]| | | | | | | | |] [|[] [|]]]; simpl; try done; destruct ty; try done.
    intros [-> [n Hc]]. by rewrite Hc.
Qed.
Lemma to_arguments_no_column f es i out args :
  to_arguments_from f i es out = Ok args -> Forall (fun e => ~ row_dependent e) es.
Proof.
  revert i out. induction es as [|e es IH]; intros i out; [constructor|]. simpl.
  destruct (add_argument f i e out) as [out'|] eqn:Ha; simpl; [|done]. intros H. constructor; [|eauto].
  intros Hr. unfold CallArgs.add_argument in Ha. destruct (named_arg f i e) as [o|] eqn:Hn; [|done].
  destruct (named_arg_column _ _ _ _ Hr Hn) as [-> (r & n & ->)]. done.
Qed.
Lemma blended_no_column f specs es i p args row r :
  blended_from show_expr show_column simplify column_row0 f specs i p es args row = Ok r ->
  Forall (fun e => ~ row_dependent e) es.
Proof.
  revert i p args row. induction es as [|e es IH]; intros i p args row; [constructor|]. simpl.
  destruct (named_arg f i e) as [o|] eqn:Hn; simpl; [|done]. destruct o as [[name v]|].
  - intros H. constructor; [|eauto]. intros Hr. by destruct (named_arg_column _ _ _ _ Hr Hn).
  - destruct (specs !! p) as [spec|]; simpl; [|done].
    destruct (literal_column _ _ f i spec e) as [c|] eqn:Hc; simpl; [|done].
    intros H. constructor; [|eauto]. intros Hr.
    destruct (named_arg_column _ _ _ _ Hr Hn) as [_ (r' & n & ->)]. done.
Qed.

(** ** The two ways of planning a table argument *)

(** The table arguments of a call. *)
Fixpoint tables (i : nat) (es : list Expr) : list (@TableArgument LogicalPlan) :=
  match es with
  | [] => []
  | e :: es => match subquery e with Some p => mkTable i p :: tables (S i) es | None => tables (S i) es end
  end.
Lemma find_from_tables es i found :
  find_from i found es = match option_list found ++ tables i es with
                         | [] => Ok None
                         | [t] => Ok (Some t)
                         | _ => Err (Plan "a VGI call may take at most one table argument")
                         end.
Proof.
  revert i found. induction es as [|e es IH]; intros i found; simpl.
  - by destruct found.
  - destruct (subquery e) as [p|]; [|apply IH]. destruct found as [t|]; simpl; [done|].
    rewrite IH. done.
Qed.

Lemma row_dependent_no_subquery e : row_dependent e -> subquery e = None.
Proof. by destruct e. Qed.
Lemma tables_index es i t :
  t ∈ tables i es -> (i <= ta_index t)%nat /\ exists e, es !! (ta_index t - i)%nat = Some e /\ subquery e = Some (ta_plan t).
Proof.
  revert i. induction es as [|e es IH]; intros i; simpl; [by intros ?%elem_of_nil|].
  assert (t ∈ tables (S i) es -> (i <= ta_index t)%nat /\
            exists x, (e :: es) !! (ta_index t - i)%nat = Some x /\ subquery x = Some (ta_plan t)) as Htail.
  { intros [Hle (x & Hx & Hs)]%IH. split; [lia|]. exists x. split; [|done].
    by replace (ta_index t - i)%nat with (S (ta_index t - S i)) by lia. }
  destruct (subquery e) as [p|] eqn:He; [|done].
  rewrite elem_of_cons. intros [->|]; [|by apply Htail]. simpl. split; [lia|]. exists e.
  by rewrite Nat.sub_diag.
Qed.

(** No argument of a successful call depends on a row: a column is refused by
    all three kinds of bind, also as the value of a named argument. *)
Theorem call_arguments_constant (f : @VgiTableFunction Specs) es b :
  call_with_args f es = Ok b -> Forall (fun e => ~ row_dependent e) es.
Proof.
  unfold TableCalls.call_with_args.
  destruct (find es) as [[t|]|] eqn:Hf; simpl; [| |done].
  - unfold bind_table_argument. destruct (to_arguments _ _) as [a|] eqn:Ha; simpl; [|done]. intros _.
    apply to_arguments_no_column in Ha. unfold TableCalls.find in Hf. rewrite find_from_tables in Hf. simpl in Hf.
    destruct (tables 0 es) as [|t' [|]] eqn:Ht; try done. injection Hf as ->.
    destruct (tables_index es 0 t) as [_ (e & He & Hs)]; [rewrite Ht; by left|]. rewrite Nat.sub_0_r in He.
    unfold without in Ha. apply Forall_app in Ha as [H1 H2].
    rewrite <- (take_drop_middle _ _ _ He). apply Forall_app. split; [done|]. constructor; [|done].
    intros Hr. by rewrite (row_dependent_no_subquery _ Hr) in Hs.
  - destruct (tf_metadata f) as [m|]; [destruct (input_from_args m)|];
      [|destruct (to_arguments _ _) as [a|] eqn:Ha; simpl; [|done]; intros _;
        by apply to_arguments_no_column in Ha..].
    unfold blended_literal_input.
    destruct (blended_from _ _ _ _ _ _ _ _ _ _ _) as [r|] eqn:Hb; simpl; [|done].
    intros _. by apply blended_no_column in Hb.
Qed.

(** What the relation planner and the ordinary hook are given for one written
    argument: a subquery is planned as a relation by the one and arrives as a
    scalar subquery with the same plan at the other; other expressions are
    converted the same way. *)
Variable sql_subquery : node -> option node.
Variable plan_query : node -> result LogicalPlan.
Variable sql_expr_to_logical_expr : node -> result Expr.
Variable show_arg : FunctionArg -> string.
Abbreviation plan_relation := (plan_relation show_expr show_column simplify column_row0
  sql_subquery plan_query sql_expr_to_logical_expr show_arg).

Definition same_argument (a : FunctionArg) (e : Expr) : Prop :=
  exists n, a = (Unnamed, Some n) /\
    match sql_subquery n with
    | Some q => exists p, plan_query q = Ok p /\ subquery e = Some p
    | None => sql_expr_to_logical_expr n = Ok e /\ subquery e = None
    end.

Lemma table_positions_tables args es : Forall2 same_argument args es -> forall i,
  Forall2 (fun iq t => iq.1 = ta_index t /\ plan_query iq.2 = Ok (ta_plan t))
    (table_positions sql_subquery i args) (tables i es).
Proof.
  induction 1 as [|a e args es (n & -> & Hn) _ IH]; intros i; simpl; [constructor|].
  destruct (sql_subquery n) as [q|].
  - destruct Hn as (p & Hp & ->). constructor; [done|apply IH].
  - destruct Hn as [_ ->]. apply IH.
Qed.
Lemma no_tables_scalars args es :
  Forall2 same_argument args es -> forall i, tables i es = [] ->
  result_collect (scalar_expr sql_expr_to_logical_expr show_arg) args = Ok es.
Proof.
  induction 1 as [|a e args es (n & -> & Hn) _ IH]; intros i; [done|]. simpl.
  destruct (sql_subquery n) as [q|].
  - by destruct Hn as (p & _ & ->).
  - destruct Hn as [-> ->]. intros Ht. by rewrite (IH _ Ht).
Qed.
Lemma one_table_scalars args es : Forall2 same_argument args es -> forall i t,
  tables i es = [t] ->
  result_collect (scalar_expr sql_expr_to_logical_expr show_arg) (without (ta_index t - i) args)
    = Ok (without (ta_index t - i) es).
Proof.
  induction 1 as [|a e args es (n & -> & Hn) Hrest IH]; intros i t; [done|]. simpl.
  destruct (sql_subquery n) as [q|].
  - destruct Hn as (p & _ & ->). intros [= <- Ht]. simpl. rewrite Nat.sub_diag. unfold without. simpl.
    by rewrite !drop_0, (no_tables_scalars _ _ Hrest _ Ht).
  - destruct Hn as [Hc ->]. intros Ht. specialize (IH _ _ Ht).
    destruct (tables_index es (S i) t) as [Hle _]; [rewrite Ht; by left|].
    replace (ta_index t - i)%nat with (S (ta_index t - S i)) by lia.
    unfold without in *. simpl. by rewrite Hc, IH.
Qed.

(** C26: the relation planner and DataFusion's own table-function hook agree on
    calls with a table argument: whatever the position of the subquery, both
    take the same arguments, in the same order, and ask for the same bind; a call
    with two subqueries is refused by both, and one without is left to the
    hook. So a wide table argument means what a one-column one does. *)
Theorem planner_paths_agree (aliases : list (string * list (string * option (@VgiTableFunction Specs))))
    (r : TableFactor) (f : @VgiTableFunction Specs) args es :
  registered_vgi_table_function aliases (object_name (factor_name r)) = Some f ->
  factor_args r = Some args -> factor_sample r = false ->
  Forall2 same_argument args es ->
  plan_relation aliases r =
    (t ← find es;
     match t with
     | None => Ok Original
     | Some _ => b ← call_with_args f es;
                 Ok (Planned b (object_name (factor_name r) +:+ "()") (factor_alias r))
     end).
Proof.
  intros Hf Hargs Hs Hsame. unfold TableCalls.plan_relation. rewrite Hargs, Hs, Hf.
  pose proof (table_positions_tables _ _ Hsame 0) as Hpos. unfold TableCalls.call_with_args.
  assert (find es = match tables 0 es with
                    | [] => Ok None | [t] => Ok (Some t)
                    | _ => Err (Plan "a VGI call may take at most one table argument") end) as Hfind
    by (unfold TableCalls.find; by rewrite find_from_tables).
  pose proof (one_table_scalars _ _ Hsame 0) as Hone. revert Hfind Hpos Hone.
  destruct (tables 0 es) as [|t [|t2 ts]]; intros Hfind Hpos Hone.
  - rewrite Hfind. by apply Forall2_nil_inv_r in Hpos as ->.
  - rewrite Hfind. apply Forall2_cons_inv_r in Hpos as ([i q] & l & [Hi Hq] & Hl & ->).
    apply Forall2_nil_inv_r in Hl as ->. simpl in *. subst i. rewrite Hq. simpl.
    specialize (Hone t eq_refl). rewrite Nat.sub_0_r in Hone. rewrite Hone. simpl.
    destruct t as [i p]. done.
  - rewrite Hfind. apply Forall2_cons_inv_r in Hpos as ([i q] & l & _ & Hl & ->).
    by apply Forall2_cons_inv_r in Hl as ([i' q'] & l' & _ & _ & ->).
Qed.

(** ** Blended calls do not fold *)

(** A constant expression is a constant argument everywhere else, but a call
    of a blended function refuses whatever is not yet a literal. *)
Lemma blended_refuses_foldable (specs : Specs) spec id v (a : ArgValue Arr) :
  positional_specs specs = [spec] -> simplify (OtherExpr id) = Ok (Literal v) ->
  scalar_to_arg "f" 0 v = Ok a ->
  (exists args, to_arguments "f" [OtherExpr id] = Ok args)
  /\ (exists msg, blended_literal_input show_expr show_column simplify column_row0 try_new "f" specs
                    [OtherExpr id] = Err (Plan msg)).
Proof.
  intros Hspecs Hs Ha. split.
  - unfold CallArgs.to_arguments. simpl. unfold CallArgs.add_argument. simpl.
    unfold CallArgs.to_arg_value. rewrite Hs. cbn. rewrite Ha. simpl. eauto.
  - unfold blended_literal_input. rewrite Hspecs. simpl. eauto.
Qed.
End Theorems.

(** ** At concrete inputs *)

Section Concrete.
#[local] Existing Instance list_arrays.

Definition int (z : Z) : ScalarValue := SVPrim Int64 (Some (PInt z)).
Definition fold_constants (e : Expr) : result Expr :=
  match e with
  | BinaryExpr (Literal (SVPrim Int64 (Some (PInt a)))) (OpOther 0) (Literal (SVPrim Int64 (Some (PInt b)))) =>
      Ok (Literal (int (a + b)))
  | e => Ok e
  end.
Definition first_row (fs : list Field) (rs : list (option (list ScalarValue))) : result ScalarValue :=
  match rs with Some (v :: _) :: _ => Ok v | _ => Err (Internal "null") end.

(** [f(10, step => 2 + 3, 'x' folded under its name)]. *)
Lemma arguments_carried_witness :
  CallArgs.to_arguments (fun _ => "e") (fun _ n => n) fold_constants first_row "f"
    [Literal (int 10);
     ScalarFunction "named_struct"
       [Literal (SVPrim Utf8 (Some (PString (NAMED_ARG_PREFIX +:+ "step"))));
        BinaryExpr (Literal (int 2)) (OpOther 0) (Literal (int 3))];
     Literal (SVStruct [mkField (NAMED_ARG_PREFIX +:+ "label") Int64 true []] [Some [int 7]])]
  = Ok (mkArguments [ArrowArg (Int64, [int 10])]
          [("step", ArrowArg (Int64, [int 5])); ("label", ArrowArg (Int64, [int 7]))]).
Proof.
  rewrite (arguments_carried (fun _ => "e") (fun _ n => n) fold_constants first_row "f" _
             [Pos (Literal (int 10)); Nam "step" (BinaryExpr (Literal (int 2)) (OpOther 0) (Literal (int 3)));
              Nam "label" (Literal (int 7))]); [vm_compute; reflexivity|].
  repeat constructor.
Defined.

Lemma call_arguments_constant_witness :
  Forall (fun e => ~ row_dependent e) [Literal (int 10)].
Proof.
  apply (call_arguments_constant (LogicalPlan := unit) (fun _ => None) (fun _ => "e") (fun _ n => n) fold_constants
           first_row (fun _ _ _ => Ok tt) (mkFunction "c" "s" "f" (None : option (TableFunctionMetadata (list ArgSpec))))
           [Literal (int 10)]
           (ScanBind "c" "s" "f" (mkArguments [ArrowArg (Int64, [int 10])] []))).
  vm_compute. reflexivity.
Defined.

(** [f(10, (SELECT ..))]. *)
Lemma planner_paths_agree_witness :
  let f := mkFunction "c" "s" "f" (None : option (TableFunctionMetadata (list ArgSpec))) in
  TableCalls.plan_relation (fun _ => "e") (fun _ n => n) fold_constants first_row
    (fun n => match n with Other "Subquery" [q] => Some q | _ => None end) (fun _ => Ok "plan")
    (fun n => match n with Ident _ => Ok (Literal (int 10)) | _ => Err (Plan "unplanned") end) (fun _ => "a")
    [("al", [("al.f", Some f)])]
    (mkFactor [PartIdent "AL"; PartIdent "f"] (Some "t")
       (Some [(Unnamed, Some (Ident "ten")); (Unnamed, Some (Other "Subquery" [Ident "q"]))]) false)
  = Ok (Planned (TableInputBind "c" "s" "f" (mkArguments [ArrowArg (Int64, [int 10])] []) (mkTable 1 "plan")
                   false false false) "AL.f()" (Some "t")).
Proof.
  intros f.
  rewrite (planner_paths_agree (fun id => if (id =? 0)%Z then Some "plan" else None) (fun _ => "e") (fun _ n => n)
             fold_constants first_row (fun _ _ _ => Ok tt) _ _ _ _ _ _ f
             [(Unnamed, Some (Ident "ten")); (Unnamed, Some (Other "Subquery" [Ident "q"]))]
             [Literal (int 10); OtherExpr 0]);
    [vm_compute; reflexivity|reflexivity|reflexivity|reflexivity|].
  constructor; [|constructor; [|constructor]]; eexists; (split; [reflexivity|]); cbn; eauto.
Defined.
End Concrete.
