(* ===== verification/Aggregate.v ===== *)
(** * Remote aggregates (src/src/aggregate.rs)

    A worker aggregate's state cannot be shipped, so an accumulator buffers its
    input rows: a partial state is the rows themselves, merging concatenates,
    retracting drops from the front, and the worker sees everything once, when
    the accumulator is evaluated. Sliding windows evaluate each frame through
    one worker thread that keeps its connection and its bind.

    The accumulator's local operations are functions on [VgiAccumulator]; what
    talks to the worker is a program of calls (Interact.v). The thread and its
    channels are rendezvous: [WindowWorker] is the thread's state between two
    commands. *)

From S2P Require Import Prelude Arrow CallArgs SqlRewrite Interact.

(** ** Signatures *)

Definition is_invocation_row_witness (arg_types : list DataType) : bool :=
  match arg_types with
  | [Struct [f]] => String.eqb (field_name f) ROW_WITNESS_FIELD && bool_decide (field_type f = Int64)
  | _ => false
  end.

Section Aggregate.
Context {Arr : Type} {OA : ArrayOps Arr} {Specs : Type} {OS : SpecOps Specs}.
(** Secrets and their resolution; an attached catalog, a bound aggregate and
    its output schema, a window partition: what vgi_client hands out. *)
Context {Secret Resolved Attached Bound Partition Grouped : Type}.
Variable output_schema : Bound -> list Field.

Record VgiAggregateUdf := mkUdf {
  catalog : string; schema_name : string; function : string; registered_name : string;
  signature : TypeSignature; specs : Specs;
  row_witness : bool; supports_window : bool; required_secrets : list Secret;
}.

Variable default_specs : Specs.
Definition new_udf (catalog schema_name function registered_name : string) : VgiAggregateUdf :=
  mkUdf catalog schema_name function registered_name VariadicAny default_specs false false [].

(** The arities a declaration admits. *)
Definition declared_signature (s : Specs) : TypeSignature :=
  let positional := positional_specs s in
  let minimum := Nat.max (minimum_positional_arity s) 1 in
  match positional with
  | [] => Any 1
  | _ =>
      if existsb spec_varargs positional then OneOf [Nullary; VariadicAny]
      else if (minimum =? length positional)%nat then Any (length positional)
      else OneOf (map (fun arity => if (arity =? 0)%nat then Nullary else Any arity)
                    (seq minimum (S (length positional) - minimum)))
  end.
Definition with_arg_specs (s : Specs) (u : VgiAggregateUdf) : VgiAggregateUdf :=
  mkUdf (catalog u) (schema_name u) (function u) (registered_name u) (declared_signature s) s
    (match positional_specs s with [] => true | _ => false end) (supports_window u) (required_secrets u).
Definition with_window_support (b : bool) (u : VgiAggregateUdf) : VgiAggregateUdf :=
  mkUdf (catalog u) (schema_name u) (function u) (registered_name u) (signature u) (specs u)
    (row_witness u) b (required_secrets u).
Definition with_required_secrets (l : list Secret) (u : VgiAggregateUdf) : VgiAggregateUdf :=
  mkUdf (catalog u) (schema_name u) (function u) (registered_name u) (signature u) (specs u)
    (row_witness u) (supports_window u) l.
(** [PartialEq]. *)
Definition same_udf (u v : VgiAggregateUdf) : bool :=
  String.eqb (registered_name u) (registered_name v) && String.eqb (catalog u) (catalog v)
  && String.eqb (schema_name u) (schema_name v).

(** ** Arguments *)

Definition column_input_fields (arg_types : list DataType) (s : Specs) : list Field :=
  imap (fun column ty => mkField ("col_" +:+ pretty column) ty true [])
    (map snd (filter (fun p => positional_is_const s p.1 = false) (imap pair arg_types))).
Definition typed_null_arguments (arg_types : list DataType) (s : Specs) : BindArguments Arr * list Field :=
  (fold_left (fun arguments p => if positional_is_const s p.1 then add_positional (NullArg p.2) arguments
                                 else arguments) (imap pair arg_types) no_arguments,
   column_input_fields arg_types s).

(** A physical expression evaluated without rows: [Some] for a scalar. *)
Variable evaluate_constant : PhysicalExpr -> option ScalarValue.

Fixpoint aggregate_arguments_from (function : string) (s : Specs) (i : nat) (exprs : list PhysicalExpr)
    (arguments : BindArguments Arr) : result (BindArguments Arr) :=
  match exprs with
  | [] => Ok arguments
  | e :: exprs =>
      if positional_is_const s i then
        value ← ok_or (Plan ("VGI aggregate `" +:+ function +:+ "` argument " +:+ pretty i
                             +:+ " is a ConstParam and must be a constant")) (evaluate_constant e);
        v ← scalar_to_arg function i value;
        aggregate_arguments_from function s (S i) exprs (add_positional v arguments)
      else aggregate_arguments_from function s (S i) exprs arguments
  end.
Definition aggregate_arguments (function : string) (s : Specs) (exprs : list PhysicalExpr)
    : result (BindArguments Arr) := aggregate_arguments_from function s 0 exprs no_arguments.

(** ** Accumulators *)

(** The window thread between two commands: it holds a bind, or has ended. *)
Inductive WindowWorker := Running (attached : Attached) (bound : Bound) | Exited.

Record VgiAccumulator := mkAcc {
  a_catalog : string; a_schema : string; a_function : string;
  arg_types : list DataType; a_specs : Specs; arguments : BindArguments Arr;
  a_secrets : list Secret; use_window_callback : bool; a_row_witness : bool;
  (** one list of chunks per argument *)
  buffered : list (list Arr);
  window_worker : option WindowWorker;
}.
Definition set_buffered (b : list (list Arr)) (a : VgiAccumulator) : VgiAccumulator :=
  mkAcc (a_catalog a) (a_schema a) (a_function a) (arg_types a) (a_specs a) (arguments a) (a_secrets a)
    (use_window_callback a) (a_row_witness a) b (window_worker a).
Definition set_window_worker (w : option WindowWorker) (a : VgiAccumulator) : VgiAccumulator :=
  mkAcc (a_catalog a) (a_schema a) (a_function a) (arg_types a) (a_specs a) (arguments a) (a_secrets a)
    (use_window_callback a) (a_row_witness a) (buffered a) w.

Definition make_accumulator (u : VgiAggregateUdf) (expr_fields : list Field) (exprs : list PhysicalExpr)
    (use_window : bool) : result VgiAccumulator :=
  let types := map field_type expr_fields in
  let witness := row_witness u || is_invocation_row_witness types in
  arguments ← (if witness then Ok no_arguments else aggregate_arguments (function u) (specs u) exprs);
  Ok (mkAcc (catalog u) (schema_name u) (function u) types (specs u) arguments (required_secrets u)
        use_window witness [] None).
Definition accumulator u expr_fields exprs := make_accumulator u expr_fields exprs false.
Definition create_sliding_accumulator u expr_fields exprs :=
  make_accumulator u expr_fields exprs (supports_window u).

(** The fields of the intermediate state. *)
Definition state_fields (u : VgiAggregateUdf) (input_fields : list Field) : list Field :=
  imap (fun i f => mkField (registered_name u +:+ "_input_" +:+ pretty i)
                     (List (mkField "item" (field_type f) true [])) false []) input_fields.

Definition push (values : list Arr) (a : VgiAccumulator) : VgiAccumulator :=
  let b := match buffered a with [] => replicate (length values) [] | b => b end in
  set_buffered (imap (fun i slot => match values !! i with Some v => slot ++ [v] | None => slot end) b) a.

Definition collected_column (a : VgiAccumulator) (p : nat * DataType) : result Arr :=
  match buffered a !! p.1 with
  | Some (c :: chunks) => concat_arrays (c :: chunks)
  | _ => Ok (empty_array p.2)
  end.
Definition collected (a : VgiAccumulator) : result (list Arr) :=
  result_collect (collected_column a) (imap pair (arg_types a)).

Definition update_batch (values : list Arr) (a : VgiAccumulator) : VgiAccumulator * result unit :=
  (push values a, Ok tt).

(** One column of partial states: a list array, its entries null or the rows
    of one partial accumulator. *)
Inductive StateColumn := ListColumn (value_type : DataType) (entries : list (option Arr)) | OtherColumn.

Definition flatten_state (function : string) (c : StateColumn) : result Arr :=
  match c with
  | OtherColumn => Err (Internal ("VGI aggregate `" +:+ function +:+ "` state is not a list"))
  | ListColumn value_type entries =>
      match omap id entries with
      | [] => Ok (empty_array value_type)
      | parts => concat_arrays parts
      end
  end.
Definition merge_batch (states : list StateColumn) (a : VgiAccumulator) : VgiAccumulator * result unit :=
  match result_collect (flatten_state (a_function a)) states with
  | Err e => (a, Err e)
  | Ok flattened => (push flattened a, Ok tt)
  end.

(** Dropping rows from the front of one column; [None]: there were not enough. *)
Fixpoint retract_chunks (remaining : nat) (chunks : list Arr) : option (list Arr) :=
  match remaining with
  | O => Some chunks
  | _ =>
      match chunks with
      | [] => None
      | first :: rest =>
          if (arr_len first <=? remaining)%nat then retract_chunks (remaining - arr_len first) rest
          else Some (slice first remaining (arr_len first - remaining) :: rest)
      end
  end.
(** Columns in order; a column that is too short is left empty and ends it. *)
Fixpoint retract_columns (rows : nat) (columns : list (list Arr)) : list (list Arr) * bool :=
  match columns with
  | [] => ([], true)
  | c :: cs =>
      match retract_chunks rows c with
      | None => ([] :: cs, false)
      | Some c' => let '(cs', ok) := retract_columns rows cs in (c' :: cs', ok)
      end
  end.
Definition retract_batch (values : list Arr) (a : VgiAccumulator) : VgiAccumulator * result unit :=
  let rows := match values with [] => 0%nat | v :: _ => arr_len v end in
  if existsb (fun v => negb (arr_len v =? rows)%nat) values then
    (a, Err (Internal ("VGI aggregate `" +:+ a_function a
                       +:+ "` received retract columns with different lengths")))
  else
    let '(columns, ok) := retract_columns rows (buffered a) in
    (set_buffered columns a,
     if ok then Ok tt
     else Err (Internal ("VGI aggregate `" +:+ a_function a +:+ "` retracted more rows than it holds"))).
Definition supports_retract_batch : bool := true.

(** [ScalarValue::List]: an item type and the items. *)
Record ListScalar := mkList { item_type : DataType; items : list ScalarValue }.
Definition state (a : VgiAccumulator) : result (list ListScalar) :=
  columns ← collected a;
  result_collect (fun c => items ← result_collect (scalar_at c) (seq 0 (arr_len c));
                           Ok (mkList (arr_type c) items)) columns.

#[local] Open Scope Z_scope.

Variable size_of_val : Z.
Variable memory_size : Arr -> Z.
Definition size (a : VgiAccumulator) : Z :=
  size_of_val + fold_right Z.add 0 (map memory_size (mjoin (buffered a))).

(** ** The worker *)

Record Batch := mkInput { b_fields : list Field; b_columns : list Arr; b_rows : nat }.
Record Answer := mkAnswer { num_rows : nat; columns : list Arr }.

(** What is bound: [BindSpec] for an aggregate. *)
Record Target := mkTarget {
  t_catalog : string; t_schema : string; t_function : string;
  t_arguments : BindArguments Arr; t_secrets : list Secret;
}.
Definition target (a : VgiAccumulator) : Target :=
  mkTarget (a_catalog a) (a_schema a) (a_function a) (arguments a) (a_secrets a).

Inductive Call :=
  | SpawnThread
  | Connect
  | Attach (catalog : string)
  | ResolveSecrets (l : list Secret)
  | Bind (attached : Attached) (schema function : string) (arguments : BindArguments Arr)
      (input : list Field) (secrets : option Resolved)
  | AggregateUpdate (attached : Attached) (bound : Bound) (input : Grouped)
  | AggregateFinalize (attached : Attached) (bound : Bound) (groups : list Z)
  | AggregateDestroy (attached : Attached) (bound : Bound) (groups : list Z)
  | WindowInit (bound : Bound) (partition : Z) (input : Batch)
  | WindowEvaluate (p : Partition) (group : Z) (frames : list (Z * Z))
  | WindowDestroy (p : Partition)
  | Poison
  (** whether an ended thread's channel is already closed *)
  | ReceiverGone.
Definition Resp (c : Call) : Type :=
  match c with
  | SpawnThread | Connect | AggregateUpdate _ _ _ | AggregateDestroy _ _ _ | WindowDestroy _ => result unit
  | Attach _ => result Attached
  | ResolveSecrets _ => result Resolved
  | Bind _ _ _ _ _ _ => result Bound
  | AggregateFinalize _ _ _ | WindowEvaluate _ _ _ => result Answer
  | WindowInit _ _ _ => result Partition
  | Poison => unit
  | ReceiverGone => bool
  end.

Section Programs.
Context {S : Type}.
Abbreviation Prog := (body Resp S).
#[local] Notation "x <-- m ;;; k" := (bind m (fun x => k))
  (at level 100, m at next level, right associativity).
#[local] Notation "x <-? m ;;; k" := (bind m (fun r => bind (try_ r) (fun x => k)))
  (at level 100, m at next level, right associativity).

Definition aggregate_bind (attached : Attached) (t : Target) (input : list Field) : Prog Bound :=
  match t_secrets t with
  | [] => b <-? do_ (Bind attached (t_schema t) (t_function t) (t_arguments t) input None : Call) ;;; ret b
  | l =>
      secrets <-? do_ (ResolveSecrets l : Call) ;;;
      b <-? do_ (Bind attached (t_schema t) (t_function t) (t_arguments t) input (Some secrets) : Call) ;;;
      ret b
  end.
(** Connection, attachment and bind, as every path begins. *)
Definition open_aggregate (t : Target) (input : list Field) : Prog (Attached * Bound) :=
  _ <-? do_ (Connect : Call) ;;;
  attached <-? do_ (Attach (t_catalog t) : Call) ;;;
  bound <-- aggregate_bind attached t input ;;;
  ret (attached, bound).

(** [bind_output_type]; the result of the destruction is dropped. *)
Definition bind_output_type (catalog schema function : string) (types : list DataType) (s : Specs)
    (secrets : list Secret) : Prog DataType :=
  let '(arguments, fields) := typed_null_arguments types s in
  ab <-- open_aggregate (mkTarget catalog schema function arguments secrets) fields ;;;
  out <-- try_ (ok_or (Plan ("VGI aggregate `" +:+ function +:+ "` bound to an output schema with no columns"))
                  (head (map field_type (output_schema ab.2)))) ;;;
  _ <-- do_ (AggregateDestroy ab.1 ab.2 [0] : Call) ;;;
  ret out.
Definition return_type (u : VgiAggregateUdf) (types : list DataType) : Prog DataType :=
  let types := if row_witness u || is_invocation_row_witness types then [] else types in
  bind_output_type (catalog u) (schema_name u) (function u) types (specs u) (required_secrets u).

(** One value from the worker's answer. *)
Definition single_value (what : string) (function : string) (verb : string) (out : Answer) : result ScalarValue :=
  match columns out with
  | c :: _ =>
      if (num_rows out =? 1)%nat then scalar_at c 0
      else Err (Execution (what +:+ " `" +:+ function +:+ "` " +:+ verb +:+ " to " +:+ pretty (num_rows out)
                           +:+ " rows / " +:+ pretty (length (columns out)) +:+ " columns; expected one value"))
  | [] => Err (Execution (what +:+ " `" +:+ function +:+ "` " +:+ verb +:+ " to " +:+ pretty (num_rows out)
                          +:+ " rows / 0 columns; expected one value"))
  end.

(** ** One group through the worker *)

(** [vgi_client::with_group_ids]: a column of group ids in front. *)
Variable with_group_ids : list Z -> Batch -> result Grouped.

Definition aggregate_once (t : Target) (batch : Batch) : Prog ScalarValue :=
  ab <-- open_aggregate t (b_fields batch) ;;;
  let '(attached, bound) := ab in
  grouped <-- try_ (with_group_ids (replicate (b_rows batch) 0) batch) ;;;
  _ <-? do_ (AggregateUpdate attached bound grouped : Call) ;;;
  out <-? do_ (AggregateFinalize attached bound [0] : Call) ;;;
  _ <-- do_ (AggregateDestroy attached bound [0] : Call) ;;;
  try_ (single_value "VGI aggregate" (t_function t) "finalized" out).

(** ** Window frames *)

Definition evaluate_window_frame (bound : Bound) (function : string) (batch : Batch) : Prog ScalarValue :=
  partition <-? do_ (WindowInit bound 0 batch : Call) ;;;
  out <-? do_ (WindowEvaluate partition 0 [(0, Z.of_nat (b_rows batch))] : Call) ;;;
  _ <-? do_ (WindowDestroy partition : Call) ;;;
  try_ (single_value "VGI window aggregate" function "evaluated" out).
End Programs.

(** ** [WindowWorker] and [evaluate] *)

(** The rows of an accumulator as the worker gets them. *)
Variable try_new : list Field -> list Arr -> nat -> result unit.
Definition input_batch (a : VgiAccumulator) : result Batch :=
  columns ← collected a;
  let rows := match columns with [] => 0%nat | c :: _ => arr_len c end in
  let sent := map snd (filter (fun p => negb (a_row_witness a) && negb (positional_is_const (a_specs a) p.1) = true)
                         (imap pair columns)) in
  let fields := if a_row_witness a then [] else column_input_fields (arg_types a) (a_specs a) in
  _ ← try_new fields sent rows;
  Ok (mkInput fields sent rows).

Variable with_group_ids : list Z -> Batch -> result Grouped.
Abbreviation Prog := (body Resp VgiAccumulator).
#[local] Notation "x <-- m ;;; k" := (bind m (fun x => k))
  (at level 100, m at next level, right associativity).
#[local] Notation "x <-? m ;;; k" := (bind m (fun r => bind (try_ r) (fun x => k)))
  (at level 100, m at next level, right associativity).

Definition WindowWorker_start (t : Target) (input : list Field) : Prog WindowWorker :=
  _ <-? do_ (SpawnThread : Call) ;;;
  ab <-- open_aggregate t input ;;;
  ret (Running ab.1 ab.2).

(** A body's result as a value. *)
Definition attempt {A} (m : Prog A) : Prog (result A) :=
  fun s => prog_bind (m s) (fun r => Ret (r.1, Ok r.2)).

(** A command to the thread and its reply: a failed frame poisons the thread's
    connection and ends it. *)
Definition WindowWorker_evaluate (w : WindowWorker) (function : string) (batch : Batch) : Prog ScalarValue :=
  match w with
  | Exited =>
      gone <-- do_ (ReceiverGone : Call) ;;;
      fail (Execution (if gone : bool then "VGI window worker is no longer running"
                       else "VGI window worker exited without returning a result"))
  | Running _ bound =>
      r <-- attempt (evaluate_window_frame bound function batch) ;;;
      match r with
      | Ok v => ret v
      | Err e =>
          _ <-- do_ (Poison : Call) ;;;
          a <-- get_state ;;;
          _ <-- put_state (set_window_worker (Some Exited) a) ;;;
          fail e
      end
  end.

Definition evaluate : Prog ScalarValue :=
  a <-- get_state ;;;
  batch <-- try_ (input_batch a) ;;;
  if use_window_callback a then
    w <-- (match window_worker a with
           | Some w => ret w
           | None =>
               w <-- WindowWorker_start (target a) (b_fields batch) ;;;
               _ <-- put_state (set_window_worker (Some w) a) ;;;
               ret w
           end) ;;;
    WindowWorker_evaluate w (a_function a) batch
  else aggregate_once with_group_ids (target a) batch.

(** The accumulator's drop: a thread still running is told to stop, and
    releases its bind. *)
Definition drop_accumulator (a : VgiAccumulator) : prog Resp unit :=
  match window_worker a with
  | Some (Running attached bound) =>
      prog_bind (call (AggregateDestroy attached bound [0] : Call)) (fun _ => Ret tt)
  | _ => Ret tt
  end.
End Aggregate.
