(* ===== verification/AggregateTheorems.v ===== *)
(** * Theorems on remote aggregates

    What the rows in an accumulator are after any sequence of operations:
    partial and final accumulation gather the same input as one accumulator,
    sliding windows hold exactly the rows of their frame, and the declared
    signature admits exactly the arities the worker can be asked. *)

From S2P Require Import Prelude Arrow CallArgs ArrayModel Interact Aggregate.

(** ** Arities *)

(** When DataFusion admits a call with [n] arguments. *)
Fixpoint admits (n : nat) (s : TypeSignature) : bool :=
  match s with
  | Any k => (0 <? n)%nat && (n =? k)%nat
  | VariadicAny => (0 <? n)%nat
  | Nullary => (n =? 0)%nat
  | OneOf l => existsb (admits n) l
  end.

(** The planner lets through exactly the calls the worker can be asked: one
    argument, the row witness, for an aggregate without positional
    parameters; any number for a variadic one, so that the worker itself can
    complain; and otherwise every count from the required parameters to all of
    them, except that at least one is needed, since a call without arguments would
    lose its rows. *)
Theorem declared_arities {Specs} {OS : SpecOps Specs} (s : Specs) n :
  (minimum_positional_arity s <= length (positional_specs s))%nat ->
  admits n (declared_signature s) =
    match positional_specs s with
    | [] => (n =? 1)%nat
    | ps => existsb spec_varargs ps
            || ((Nat.max (minimum_positional_arity s) 1 <=? n)%nat && (n <=? length ps)%nat)
    end.
Proof.
  intros Hmin. unfold declared_signature. destruct (positional_specs s) as [|p ps] eqn:Hp.
  { by destruct n as [|[|n]]. }
  set (m := Nat.max _ 1). set (k := length (p :: ps)).
  assert (1 <= m <= k)%nat as Hm by (subst m k; rewrite <- Hp; rewrite Hp; simpl in *; lia).
  destruct (existsb spec_varargs (p :: ps)); [by destruct n|]. cbn [orb].
  destruct (m =? k)%nat eqn:Hmk.
  - apply Nat.eqb_eq in Hmk. apply eq_true_iff_eq. cbn [admits].
    rewrite !andb_true_iff, !Nat.leb_le, Nat.ltb_lt, Nat.eqb_eq. lia.
  - cbn [admits]. apply eq_true_iff_eq. rewrite existsb_exists, andb_true_iff, !Nat.leb_le. split.
    + intros (sig & Hin & Ha). apply in_map_iff in Hin as (arity & <- & Hin%in_seq).
      destruct (arity =? 0)%nat eqn:H0; [apply Nat.eqb_eq in H0; lia|]. cbn [admits] in Ha.
      apply andb_true_iff in Ha as [_ ->%Nat.eqb_eq]. lia.
    + intros [H1 H2]. exists (Any n). split.
      * apply in_map_iff. exists n. rewrite (proj2 (Nat.eqb_neq n 0)) by lia. split; [done|].
        apply in_seq. lia.
      * cbn [admits]. rewrite Nat.eqb_refl, (proj2 (Nat.ltb_lt 0 n)) by lia. done.
Qed.

Lemma declared_arities_witness :
  let s := [mkSpec "x" Int64 false false; mkSpec "q" Float64 false true] in
  admits 2 (declared_signature s) = true /\ admits 1 (declared_signature s) = false.
Proof.
  split.
  - rewrite (declared_arities [mkSpec "x" Int64 false false; mkSpec "q" Float64 false true] 2) by (simpl; lia).
    reflexivity.
  - rewrite (declared_arities [mkSpec "x" Int64 false false; mkSpec "q" Float64 false true] 1) by (simpl; lia).
    reflexivity.
Defined.

(** ** The rows of an accumulator *)

Section Rows.
Context {Arr : Type} {OA : ArrayOps Arr} {LA : ArrayLaws Arr} {Specs : Type} {OS : SpecOps Specs}.
Context {Secret Attached Bound : Type}.

Abbreviation Acc := (@VgiAccumulator Arr Specs Secret Attached Bound).
Abbreviation Columns := (list (list ScalarValue)).
Abbreviation types_of := (map arr_type).
Abbreviation rows_of := (map (rows (Arr:=Arr))).

(** [a]'s chunks are typed as its arguments and hold the rows [cols]; before
    the first batch there are no chunks at all. *)
Definition holds (a : Acc) (cols : Columns) : Prop :=
  (buffered a = [] /\ cols = replicate (length (arg_types a)) []) \/
  (Forall2 (fun chunks ty => Forall (fun c => arr_type c = ty) chunks) (buffered a) (arg_types a) /\
   cols = map (fun chunks => mjoin (rows_of chunks)) (buffered a)).

(** A new accumulator: nothing seen. *)
Definition fresh (a : Acc) : Prop := buffered a = [].
Lemma fresh_holds a : fresh a -> holds a (replicate (length (arg_types a)) []).
Proof. left. done. Qed.
Lemma holds_length a cols : holds a cols -> length cols = length (arg_types a).
Proof.
  intros [[_ ->]|[H ->]]; [by rewrite length_replicate|].
  rewrite length_map. by eapply Forall2_length.
Qed.

Lemma collect_each {A B} (f : A -> result B) (P : A -> B -> Prop) l :
  (forall x, x ∈ l -> exists y, f x = Ok y /\ P x y) ->
  exists ys, result_collect f l = Ok ys /\ Forall2 P l ys.
Proof.
  induction l as [|x l IH]; intros H; [by exists []|].
  destruct (H x) as (y & Hy & HP); [by left|]. destruct IH as (ys & Hys & HPs); [intros; apply H; by right|].
  exists (y :: ys). simpl. rewrite Hy, Hys. split; [done|]. by constructor.
Qed.
(** Arrays that have the types [ts] and the rows [cols], column by column. *)
Lemma columns_eq ts (cols : Columns) cs :
  length cols = length ts ->
  Forall2 (fun p c => arr_type c = p.2 /\ rows c = default [] (cols !! p.1)) (imap pair ts) cs ->
  types_of cs = ts /\ rows_of cs = cols.
Proof.
  intros Hl H. pose proof (Forall2_length _ _ _ H) as Hlen. rewrite length_imap in Hlen.
  assert (forall k c, cs !! k = Some c -> exists ty, ts !! k = Some ty /\ arr_type c = ty /\ cols !! k = Some (rows c)) as Hk.
  { intros k c Hc. destruct (Forall2_lookup_r _ _ _ _ _ H Hc) as ([k' ty] & Hp & H1 & H2).
    rewrite list_lookup_imap_Some in Hp. destruct Hp as (ty' & Hty & [= <- <-]). simpl in *.
    exists ty. split; [done|]. split; [done|]. rewrite H2.
    apply lookup_lt_Some in Hty. rewrite <- Hl in Hty. by destruct (lookup_lt_is_Some_2 _ _ Hty) as [x ->]. }
  split; apply list_eq_same_length with (n := length ts); rewrite ?length_map; try done.
  - intros k x y _ Hx Hy. change (map ?f ?l !! k) with ((f <$> l) !! k) in Hx. rewrite list_lookup_fmap in Hx.
    destruct (cs !! k) as [c|] eqn:Hc; [|done]. destruct (Hk _ _ Hc) as (ty & Ht & Hty & _). simpl in Hx. congruence.
  - intros k x y _ Hx Hy. change (map ?f ?l !! k) with ((f <$> l) !! k) in Hx. rewrite list_lookup_fmap in Hx.
    destruct (cs !! k) as [c|] eqn:Hc; [|done]. destruct (Hk _ _ Hc) as (ty & _ & _ & Ht). simpl in Hx. congruence.
Qed.

(** What the accumulator hands over depends on the rows it holds alone. *)
Lemma collected_holds (a : Acc) cols :
  holds a cols -> exists cs, collected a = Ok cs /\ types_of cs = arg_types a /\ rows_of cs = cols.
Proof.
  intros H. pose proof (holds_length _ _ H) as Hl.
  destruct (collect_each (collected_column a)
              (fun p c => arr_type c = p.2 /\ rows c = default [] (cols !! p.1)) (imap pair (arg_types a)))
    as (cs & Hcs & Hall).
  - intros [k ty] Hin. apply list_elem_of_lookup in Hin as [k' Hk]. rewrite list_lookup_imap_Some in Hk.
    destruct Hk as (ty' & Hty & [= <- <-]). unfold collected_column. simpl. destruct H as [[Hb ->]|[Hb ->]].
    + rewrite Hb. simpl. eexists. split; [done|]. rewrite empty_type, empty_rows. split; [done|].
      apply lookup_lt_Some in Hty. by rewrite lookup_replicate_2.
    + destruct (Forall2_lookup_r _ _ _ _ _ Hb Hty) as (chunks & Hch & Htys).
      change (map ?f ?l !! k) with ((f <$> l) !! k). rewrite list_lookup_fmap, Hch. simpl.
      destruct chunks as [|c chunks].
      * eexists. split; [done|]. by rewrite empty_type, empty_rows.
      * by apply concat_rows.
  - exists cs. split; [exact Hcs|]. by apply columns_eq.
Qed.

Lemma rows_types_inj (xs ys : list Arr) : types_of xs = types_of ys -> rows_of xs = rows_of ys -> xs = ys.
Proof.
  revert ys. induction xs as [|x xs IH]; intros [|y ys]; simpl; try done.
  intros [= H1 H2] [= H3 H4]. f_equal; [by apply array_ext|by apply IH].
Qed.
Lemma collected_same (a b : Acc) cols :
  holds a cols -> holds b cols -> arg_types a = arg_types b -> collected a = collected b.
Proof.
  intros (xs & -> & Hx1 & Hx2)%collected_holds (ys & -> & Hy1 & Hy2)%collected_holds Ht.
  f_equal. apply rows_types_inj; congruence.
Qed.

(** ** Pushing *)

(** A batch with one column per argument. *)
Definition typed (ts : list DataType) (b : list Arr) : Prop := types_of b = ts.

Lemma push_slots (values : list Arr) slots :
  length slots = length values ->
  imap (fun i slot => match values !! i with Some v => slot ++ [v] | None => slot end) slots
    = zip_with (fun slot v => slot ++ [v]) slots values.
Proof.
  intros Hl. apply list_eq. intros i. rewrite list_lookup_imap, lookup_zip_with.
  destruct (slots !! i) as [s|] eqn:Hs; simpl; [|done].
  destruct (values !! i) as [v|] eqn:Hv; simpl; [done|].
  apply lookup_lt_Some in Hs. apply lookup_ge_None in Hv. lia.
Qed.
Lemma push_column (chunks : list Arr) v : mjoin (rows_of (chunks ++ [v])) = mjoin (rows_of chunks) ++ rows v.
Proof. rewrite map_app, join_app. simpl. by rewrite app_nil_r. Qed.

Lemma push_arg_types values (a : Acc) : arg_types (push values a) = arg_types a.
Proof. done. Qed.
Lemma push_types (slots : list (list Arr)) values :
  Forall2 (fun chunks ty => Forall (fun c => arr_type c = ty) chunks) slots (types_of values) ->
  Forall2 (fun chunks ty => Forall (fun c => arr_type c = ty) chunks)
    (zip_with (fun slot v => slot ++ [v]) slots values) (types_of values).
Proof.
  revert slots. induction values as [|v values IH]; intros [|s slots]; simpl; try by inversion 1.
  intros [Hs H]%Forall2_cons. constructor; [|by apply IH]. apply Forall_app. split; [done|]. by constructor.
Qed.
Lemma push_rows (slots : list (list Arr)) values :
  map (fun chunks => mjoin (rows_of chunks)) (zip_with (fun slot v => slot ++ [v]) slots values)
    = zip_with app (map (fun chunks => mjoin (rows_of chunks)) slots) (rows_of values).
Proof.
  revert slots. induction values as [|v values IH]; intros [|s slots]; simpl; try done.
  rewrite push_column. f_equal. apply IH.
Qed.

Lemma push_holds (a : Acc) cols values :
  holds a cols -> typed (arg_types a) values ->
  holds (push values a) (zip_with app cols (rows_of values)).
Proof.
  intros H Ht. right.
  assert (length values = length (arg_types a)) as Hlen by (rewrite <- Ht; by rewrite length_map).
  assert (exists slots,
            Forall2 (fun chunks ty => Forall (fun c => arr_type c = ty) chunks) slots (arg_types a)
            /\ cols = map (fun chunks => mjoin (rows_of chunks)) slots
            /\ buffered (push values a) = zip_with (fun slot v => slot ++ [v]) slots values)
    as (slots & Hty & -> & ->).
  { destruct H as [[Hb ->]|[Hb ->]].
    - exists (replicate (length values) []). split; [|split].
      + rewrite Hlen. apply Forall2_replicate_l; [done|apply Forall_true; constructor].
      + rewrite Hlen. symmetry. exact (fmap_replicate (fun chunks => mjoin (rows_of chunks)) _ []).
      + unfold push. rewrite Hb. exact (push_slots values (replicate (length values) []) (length_replicate _ _)).
    - exists (buffered a). pose proof (Forall2_length _ _ _ Hb). split; [done|]. split; [done|].
      unfold push. destruct (buffered a) as [|c cs]; simpl.
      + destruct values; [done|]. simpl in *. lia.
      + apply (push_slots values (c :: cs)). simpl in *. lia. }
  simpl. rewrite <- Ht in Hty |- *. split; [by apply push_types|]. by rewrite push_rows.
Qed.

(** ** Sliding windows *)

Lemma retract_chunks_drop ty k chunks :
  Forall (fun c => arr_type c = ty) chunks ->
  match retract_chunks k chunks with
  | Some c' => (k <= length (mjoin (rows_of chunks)))%nat /\ Forall (fun c => arr_type c = ty) c'
               /\ mjoin (rows_of c') = drop k (mjoin (rows_of chunks))
  | None => (length (mjoin (rows_of chunks)) < k)%nat
  end.
Proof.
  revert k. induction chunks as [|c chunks IH]; intros [|k] Hty; simpl; try (split; [lia|]; by rewrite ?drop_0).
  { lia. }
  apply Forall_cons in Hty as [Hc Hty]. rewrite length_app, arr_len_rows.
  destruct (length (rows c) <=? S k)%nat eqn:Hle.
  - apply Nat.leb_le in Hle. specialize (IH (S k - length (rows c))%nat Hty).
    destruct (retract_chunks _ chunks) as [c'|]; [|lia]. destruct IH as (H1 & H2 & ->).
    split; [lia|]. split; [done|]. by rewrite drop_app_ge by done.
  - apply Nat.leb_gt in Hle. split; [lia|].
    assert (S k + (length (rows c) - S k) <= arr_len c)%nat as Hs by (rewrite arr_len_rows; lia). split.
    + constructor; [|done]. rewrite slice_type by done. done.
    + simpl. rewrite slice_rows by done. rewrite take_ge by (rewrite length_drop; lia).
      rewrite drop_app_le by lia. done.
Qed.

Lemma retract_columns_drop (bs : list (list Arr)) ts k m :
  Forall2 (fun chunks ty => Forall (fun c => arr_type c = ty) chunks) bs ts ->
  Forall (fun col => length col = m) (map (fun chunks => mjoin (rows_of chunks)) bs) ->
  if decide (k <= m)%nat then
    exists bs', retract_columns k bs = (bs', true)
      /\ Forall2 (fun chunks ty => Forall (fun c => arr_type c = ty) chunks) bs' ts
      /\ map (fun chunks => mjoin (rows_of chunks)) bs' = map (drop k) (map (fun chunks => mjoin (rows_of chunks)) bs)
  else bs = [] \/ (retract_columns k bs).2 = false.
Proof.
  intros Hty Hm. induction Hty as [|chunks ty bs ts Hc Hty IH]; simpl.
  - destruct (decide _); [by exists []|by left].
  - apply Forall_cons in Hm as [Hm Hms]. specialize (IH Hms). pose proof (retract_chunks_drop _ k _ Hc) as Hr.
    destruct (retract_chunks k chunks) as [c'|].
    + destruct Hr as (H1 & H2 & H3). rewrite decide_True in IH |- * by lia.
      destruct IH as (bs' & -> & Hbs & Hrows). eexists. split; [done|]. split; [by constructor|].
      simpl. by rewrite H3, Hrows.
    + rewrite decide_False by lia. by right.
Qed.

(** A batch's height, and batches whose columns have one height. *)
Definition height (v : list Arr) : nat := match v with [] => 0%nat | c :: _ => arr_len c end.
Definition rectangular (v : list Arr) : Prop := Forall (fun c => arr_len c = height v) v.

(** Rows enter a frame at the back and leave it at the front. *)
Inductive Op := Enter (v : list Arr) | Leave (v : list Arr).
Definition apply_op (o : Op) (a : Acc) : Acc * result unit :=
  match o with Enter v => update_batch v a | Leave v => retract_batch v a end.
Fixpoint run (os : list Op) (a : Acc) : Acc * result unit :=
  match os with
  | [] => (a, Ok tt)
  | o :: os => match apply_op o a with (a', Ok _) => run os a' | failed => failed end
  end.
(** All rows that entered, and how many left. *)
Fixpoint entered (cols : Columns) (os : list Op) : Columns :=
  match os with
  | [] => cols
  | Enter v :: os => entered (zip_with app cols (rows_of v)) os
  | Leave _ :: os => entered cols os
  end.
Fixpoint gone (os : list Op) : nat :=
  match os with [] => 0%nat | Enter _ :: os => gone os | Leave v :: os => (height v + gone os)%nat end.
(** No more rows leave than have entered ([e] rows did and [l] of them left). *)
Fixpoint legal (ts : list DataType) (e l : nat) (os : list Op) : Prop :=
  match os with
  | [] => True
  | Enter v :: os => typed ts v /\ rectangular v /\ legal ts (e + height v) l os
  | Leave v :: os => rectangular v /\ (l + height v <= e)%nat /\ legal ts e (l + height v) os
  end.

Lemma zip_lengths (cols : Columns) (v : list Arr) e :
  Forall (fun c => length c = e) cols -> rectangular v ->
  Forall (fun c => length c = (e + height v)%nat) (zip_with app cols (rows_of v)).
Proof.
  unfold rectangular. generalize (height v). intros h Hc. revert v. induction Hc as [|c cols Hc _ IH]; intros v Hv; [constructor|].
  destruct v as [|x v]; simpl; [constructor|]. apply Forall_cons in Hv as [Hx Hv]. constructor; [|by apply IH].
  rewrite length_app, Hc. f_equal. by rewrite <- arr_len_rows.
Qed.
Lemma zip_drop l (cols : Columns) (v : list Arr) e :
  Forall (fun c => length c = e) cols -> (l <= e)%nat ->
  zip_with app (map (drop l) cols) (rows_of v) = map (drop l) (zip_with app cols (rows_of v)).
Proof.
  intros Hc Hl. revert v. induction Hc as [|c cols Hc _ IH]; intros [|x v]; simpl; try done.
  rewrite IH, drop_app_le by lia. done.
Qed.
Lemma rectangular_check v : rectangular v -> existsb (fun c => negb (arr_len c =? height v)%nat) v = false.
Proof.
  unfold rectangular. generalize (height v). intros h. induction 1 as [|c v Hc _ IH]; [done|]. simpl.
  rewrite Hc, Nat.eqb_refl. exact IH.
Qed.

Lemma retract_holds (a : Acc) cols v m :
  holds a cols -> Forall (fun c => length c = m) cols -> rectangular v ->
  if decide (height v <= m)%nat
  then exists a', retract_batch v a = (a', Ok tt) /\ holds a' (map (drop (height v)) cols)
                  /\ arg_types a' = arg_types a
  else buffered a = [] \/ exists e, (retract_batch v a).2 = Err (Internal e).
Proof.
  intros H Hm Hv. unfold retract_batch.
  change (match v with [] => 0%nat | c :: _ => arr_len c end) with (height v).
  rewrite rectangular_check by done. destruct H as [[Hb ->]|[Hb ->]].
  - rewrite Hb. simpl. destruct (decide _); [|by left]. eexists. split; [done|]. split; [|done].
    left. split; [done|]. simpl. induction (length (arg_types a)) as [|n IH]; simpl; [done|].
    rewrite drop_nil. f_equal. apply IH. by apply Forall_cons in Hm as [_ Hm].
  - pose proof (retract_columns_drop _ _ (height v) _ Hb Hm) as Hr. destruct (decide _).
    + destruct Hr as (bs' & -> & Hty & Hrows). eexists. split; [done|]. split; [|done]. right. by split.
    + destruct Hr as [Hr|Hr]; [by left|right]. destruct (retract_columns _ _) as [bs' ok]. simpl in Hr. subst ok.
      eexists. reflexivity.
Qed.

(** Retracting more rows than a frame holds is an error, once a batch was seen. *)
Lemma retract_too_many (a : Acc) cols v m :
  holds a cols -> Forall (fun c => length c = m) cols -> rectangular v -> (m < height v)%nat ->
  buffered a <> [] -> exists e, (retract_batch v a).2 = Err (Internal e).
Proof.
  intros H Hm Hv Hlt Hne. pose proof (retract_holds _ _ _ _ H Hm Hv) as Hr.
  rewrite decide_False in Hr by lia. by destruct Hr.
Qed.

Lemma run_holds os : forall (a : Acc) cols e l,
  holds a (map (drop l) cols) -> length cols = length (arg_types a) ->
  Forall (fun c => length c = e) cols -> (l <= e)%nat -> legal (arg_types a) e l os ->
  exists a', run os a = (a', Ok tt) /\ arg_types a' = arg_types a
    /\ holds a' (map (drop (l + gone os)) (entered cols os)).
Proof.
  induction os as [|[v|v] os IH]; intros a cols e l Ha Hlen He Hl Hlegal; simpl.
  - exists a. by rewrite Nat.add_0_r.
  - destruct Hlegal as (Hty & Hrect & Hlegal).
    apply (IH (push v a) (zip_with app cols (rows_of v)) (e + height v)%nat l); simpl; try done.
    + rewrite <- (zip_drop _ _ _ e) by done. by apply push_holds.
    + pose proof (f_equal length Hty) as Hn. rewrite length_map in Hn. rewrite length_zip_with, length_map.
      change (arg_types (push v a)) with (arg_types a). lia.
    + by apply zip_lengths.
    + lia.
  - destruct Hlegal as (Hrect & Hle & Hlegal).
    pose proof (retract_holds a (map (drop l) cols) v (e - l)%nat Ha) as Hr.
    rewrite decide_True in Hr by lia. destruct Hr as (a' & -> & Ha' & Hty); [|done|].
    + apply Forall_map. eapply Forall_impl; [exact He|]. intros c Hc. simpl in *. rewrite length_drop. lia.
    + rewrite map_map in Ha'.
      rewrite (map_ext _ (drop (l + height v))) in Ha' by (intros; by rewrite drop_drop).
      rewrite <- Hty in Hlegal, Hlen. rewrite Nat.add_assoc, <- Hty. by apply (IH a' cols e (l + height v)%nat).
Qed.

(** C25: a sliding window's accumulator is a queue: after any updates and
    retractions in which no more rows leave than entered, every operation has
    succeeded and what is handed to the worker is, column by column, the rows that
    entered less those that left at the front, whatever the chunks they came
    in. *)
Theorem sliding_frame_exact (a : Acc) (os : list Op) :
  fresh a -> legal (arg_types a) 0 0 os ->
  exists a' cs, run os a = (a', Ok tt) /\ collected a' = Ok cs
    /\ types_of cs = arg_types a
    /\ rows_of cs = map (drop (gone os)) (entered (replicate (length (arg_types a)) []) os).
Proof.
  intros Hf Hlegal.
  destruct (run_holds os a (replicate (length (arg_types a)) []) 0 0) as (a' & Hrun & Hty & Ha'); try done.
  - left. split; [done|]. exact (fmap_replicate (drop 0) _ []).
  - by rewrite length_replicate.
  - apply Forall_replicate. done.
  - destruct (collected_holds _ _ Ha') as (cs & H1 & H2 & H3). exists a', cs. split_and!; [done|done|congruence|done].
Qed.

(** ** Partial and final accumulation *)

(** [new_list_nullable] keeps a state's items; DataFusion assembles the states
    of several partial accumulators into one list column per argument. *)
Variable list_values : DataType -> list ScalarValue -> Arr.
Hypothesis list_values_type : forall ty vs, arr_type (list_values ty vs) = ty.
Hypothesis list_values_rows : forall ty vs, rows (list_values ty vs) = vs.

Definition assemble (ts : list DataType) (partials : list (list ListScalar)) : list StateColumn :=
  map (fun p => ListColumn p.2
                  (map (fun st => l ← st !! p.1; Some (list_values (item_type l) (items l))) partials))
    (imap pair ts).

(** One accumulator over some batches. *)
Definition gather (a : Acc) (batches : list (list Arr)) : Acc :=
  fold_left (fun a b => (update_batch b a).1) batches a.
(** A final accumulator over groups of partial ones: each group's states are
    assembled and merged. *)
Fixpoint two_phase (start a : Acc) (groups : list (list (list (list Arr)))) : result Acc :=
  match groups with
  | [] => Ok a
  | g :: groups =>
      states ← result_collect (fun batches => state (gather start batches)) g;
      match merge_batch (assemble (arg_types start) states) a with
      | (a', Ok _) => two_phase start a' groups
      | (_, Err e) => Err e
      end
  end.

(** Tables below each other. *)
Definition stack (n : nat) (l : list Columns) : Columns :=
  map (fun i => mjoin (map (fun cols => default [] (cols !! i)) l)) (seq 0 n).
Lemma stack_lookup n l i :
  (i < n)%nat -> stack n l !! i = Some (mjoin (map (fun cols => default [] (cols !! i)) l)).
Proof.
  intros Hi. unfold stack. change (map ?f ?l !! i) with ((f <$> l) !! i).
  by rewrite list_lookup_fmap, lookup_seq_lt.
Qed.
Lemma length_stack n l : length (stack n l) = n.
Proof. unfold stack. by rewrite length_map, length_seq. Qed.
Lemma stack_nil n : stack n [] = replicate n [].
Proof.
  apply list_eq_same_length with (n := n); [by rewrite length_replicate|apply length_stack|].
  intros i x y Hi. rewrite stack_lookup, lookup_replicate_2 by done. simpl. congruence.
Qed.
Lemma stack_snoc n l cols :
  length cols = n -> zip_with app (stack n l) cols = stack n (l ++ [cols]).
Proof.
  intros Hl. apply list_eq_same_length with (n := n);
    [apply length_stack|rewrite length_zip_with, length_stack; lia|].
  intros i x y Hi. rewrite lookup_zip_with, !stack_lookup by done. simpl.
  rewrite map_app, join_app. simpl. rewrite app_nil_r.
  destruct (cols !! i) as [c|] eqn:Hc; simpl; [congruence|].
  apply lookup_ge_None in Hc. lia.
Qed.
Lemma stack_stack n l k : stack n (l ++ [stack n k]) = stack n (l ++ k).
Proof.
  apply list_eq_same_length with (n := n); [apply length_stack|apply length_stack|].
  intros i x y Hi. rewrite !stack_lookup by done. rewrite !map_app, !join_app. simpl.
  rewrite stack_lookup by done. simpl. rewrite app_nil_r. congruence.
Qed.

Lemma stack_stacks n l (g : list (list Columns)) :
  stack n (l ++ map (stack n) g) = stack n (l ++ mjoin g).
Proof.
  apply list_eq_same_length with (n := n); [apply length_stack..|].
  intros i x y Hi. rewrite !stack_lookup, !map_app, !join_app by done.
  assert (mjoin (map (fun cols => default [] (cols !! i)) (map (stack n) g))
          = mjoin (map (fun cols => default [] (cols !! i)) (mjoin g))) as ->; [|congruence].
  induction g as [|k g IH]; simpl; [done|]. rewrite stack_lookup by done. simpl.
  by rewrite IH, map_app, join_app.
Qed.
Lemma map_map_stack n l (g : list (list (list Arr))) :
  stack n (l ++ map (fun batches => stack n (map (fun b => rows_of b) batches)) g)
    = stack n (l ++ map (fun b => rows_of b) (mjoin g)).
Proof.
  rewrite <- (map_map (map (fun b => rows_of b)) (stack n)), stack_stacks. do 2 f_equal.
  induction g as [|k g IH]; simpl; [done|]. by rewrite map_app, IH.
Qed.

Lemma gather_holds (a : Acc) l batches :
  holds a (stack (length (arg_types a)) l) -> Forall (typed (arg_types a)) batches ->
  holds (gather a batches) (stack (length (arg_types a)) (l ++ map (fun b => rows_of b) batches))
  /\ arg_types (gather a batches) = arg_types a.
Proof.
  revert a l. induction batches as [|b batches IH]; intros a l Ha Hb; simpl.
  - by rewrite app_nil_r.
  - apply Forall_cons in Hb as [Hb Hbs]. specialize (IH (push b a) (l ++ [rows_of b])).
    rewrite <- app_assoc in IH. apply IH; [|done]. simpl. rewrite <- stack_snoc; [by apply push_holds|].
    rewrite length_map, <- Hb, length_map. done.
Qed.

Lemma state_holds (a : Acc) cols :
  holds a cols -> state a = Ok (zip_with mkList (arg_types a) cols).
Proof.
  intros (cs & Hc & <- & <-)%collected_holds. unfold state. rewrite Hc. simpl. clear Hc.
  induction cs as [|c cs IH]; simpl; [done|].
  assert (result_collect (scalar_at c) (seq 0 (arr_len c)) = Ok (rows c)) as ->.
  { apply result_collect_Ok. rewrite arr_len_rows. apply Forall2_same_length_lookup.
    split; [apply length_seq|]. intros i j v [-> _]%lookup_seq Hv. by apply scalar_at_rows. }
  simpl. by rewrite IH.
Qed.

Lemma flatten_typed f ty entries :
  Forall (fun c => arr_type c = ty) (omap id entries) ->
  exists c, flatten_state f (ListColumn ty entries) = Ok c /\ arr_type c = ty
    /\ rows c = mjoin (rows_of (omap id entries)).
Proof.
  intros H. unfold flatten_state. destruct (omap id entries) as [|c l] eqn:Hl.
  - eexists. split; [done|]. by rewrite empty_type, empty_rows.
  - by apply concat_rows.
Qed.
Lemma assembled_rows (ts : list DataType) (tables : list Columns) i ty :
  ts !! i = Some ty -> Forall (fun cols => length cols = length ts) tables ->
  let entries := map (fun st => l ← st !! i; Some (list_values (item_type l) (items l)))
                   (map (zip_with mkList ts) tables) in
  Forall (fun c => arr_type c = ty) (omap id entries)
  /\ rows_of (omap id entries) = map (fun cols => default [] (cols !! i)) tables.
Proof.
  intros Hi. induction 1 as [|cols tables Hc _ [IH1 IH2]]; simpl; [done|].
  rewrite lookup_zip_with, Hi. apply lookup_lt_Some in Hi. rewrite <- Hc in Hi.
  destruct (lookup_lt_is_Some_2 _ _ Hi) as [c Hci]. rewrite Hci. simpl. split.
  - constructor; [apply list_values_type|done].
  - rewrite list_values_rows. f_equal. exact IH2.
Qed.

Lemma merge_holds (a : Acc) l tables :
  let ts := arg_types a in
  holds a (stack (length ts) l) -> Forall (fun cols => length cols = length ts) tables ->
  exists a', merge_batch (assemble ts (map (zip_with mkList ts) tables)) a = (a', Ok tt)
    /\ arg_types a' = ts /\ holds a' (stack (length ts) (l ++ tables)).
Proof.
  intros ts Ha Ht.
  destruct (collect_each (fun p => flatten_state (a_function a) (ListColumn p.2
               (map (fun st => l ← st !! p.1; Some (list_values (item_type l) (items l)))
                  (map (zip_with mkList ts) tables))))
              (fun p c => arr_type c = p.2 /\ rows c = default [] (stack (length ts) tables !! p.1)) (imap pair ts))
    as (vals & Hvals & Hall).
  { intros [k ty] Hin. apply list_elem_of_lookup in Hin as [k' Hk]. rewrite list_lookup_imap_Some in Hk.
    destruct Hk as (ty' & Hty & [= <- <-]). simpl. destruct (assembled_rows ts tables k ty Hty Ht) as [H1 H2].
    destruct (flatten_typed (a_function a) ty _ H1) as (c & Hc & Hct & Hcr). exists c. split; [exact Hc|].
    split; [done|]. rewrite stack_lookup by (by eapply lookup_lt_Some). exact (eq_trans Hcr (f_equal mjoin H2)). }
  destruct (columns_eq ts (stack (length ts) tables) vals (length_stack _ _) Hall) as [Hty Hrows].
  exists (push vals a). split; [|split; [done|]].
  - unfold merge_batch, assemble.
    assert (forall l', result_collect (flatten_state (a_function a)) (map (fun p : nat * DataType =>
              ListColumn p.2 (map (fun st => l ← st !! p.1; Some (list_values (item_type l) (items l)))
                                (map (zip_with mkList ts) tables))) l')
            = result_collect (fun p => flatten_state (a_function a) (ListColumn p.2
               (map (fun st => l ← st !! p.1; Some (list_values (item_type l) (items l)))
                  (map (zip_with mkList ts) tables)))) l') as ->.
    { induction l' as [|p l' IH]; simpl; [done|]. by rewrite IH. }
    by rewrite Hvals.
  - rewrite <- stack_stack, <- stack_snoc by apply length_stack. rewrite <- Hrows. by apply push_holds.
Qed.

Lemma group_states (start : Acc) (g : list (list (list Arr))) :
  fresh start -> Forall (Forall (typed (arg_types start))) g ->
  let ts := arg_types start in
  result_collect (fun batches => state (gather start batches)) g
    = Ok (map (zip_with mkList ts) (map (fun batches => stack (length ts) (map (fun b => rows_of b) batches)) g)).
Proof.
  intros Hf Hg ts. induction Hg as [|batches g Hb _ IH]; simpl; [done|].
  destruct (gather_holds start [] batches) as [Hh Hty]; [rewrite stack_nil; by apply fresh_holds|done|].
  rewrite (state_holds _ _ Hh), Hty. simpl. by rewrite IH.
Qed.

Lemma two_phase_holds (start : Acc) groups : fresh start ->
  Forall (Forall (Forall (typed (arg_types start)))) groups -> forall (a : Acc) l,
  arg_types a = arg_types start -> holds a (stack (length (arg_types start)) l) ->
  exists a', two_phase start a groups = Ok a' /\ arg_types a' = arg_types start
    /\ holds a' (stack (length (arg_types start)) (l ++ map (fun b => rows_of b) (mjoin (mjoin groups)))).
Proof.
  intros Hf. induction 1 as [|g groups Hg _ IH]; intros a l Hty Ha; simpl.
  - exists a. by rewrite app_nil_r.
  - rewrite (group_states start g Hf Hg). cbn [mbind result_bind].
    set (tables := map (fun batches => stack _ _) g).
    destruct (merge_holds a l tables) as (a' & Hm & Hty' & Ha').
    { by rewrite Hty. }
    { apply Forall_map, Forall_true. intros x. simpl. rewrite Hty. apply length_stack. }
    rewrite Hty in Hm, Ha', Hty'. rewrite Hm.
    destruct (IH a' (l ++ map (fun b => rows_of b) (mjoin g)) Hty') as (a'' & -> & Hty'' & Ha'').
    + subst tables. rewrite map_map_stack in Ha'. exact Ha'.
    + exists a''. split; [done|]. split; [done|]. rewrite <- app_assoc, <- map_app in Ha''.
      by rewrite join_app.
Qed.

(** Everything but the rows. *)
Definition same_call (a b : Acc) : Prop := set_buffered [] a = set_buffered [] b.
Lemma gather_same_call (a : Acc) batches : same_call (gather a batches) a.
Proof. revert a. induction batches as [|b batches IH]; intros a; [done|]. exact (IH (push b a)). Qed.
Lemma two_phase_same_call start groups : forall (a a' : Acc),
  two_phase start a groups = Ok a' -> same_call a' a.
Proof.
  induction groups as [|g groups IH]; intros a a'; simpl; [by intros [= ->]|].
  destruct (result_collect _ g) as [states|]; cbn; [|done]. unfold merge_batch.
  destruct (result_collect _ _) as [vals|]; [|done]. intros H. exact (IH (push vals a) _ H).
Qed.

Context {Resolved Partition Grouped : Type}.
Variable try_new : list Field -> list Arr -> nat -> result unit.
Variable with_group_ids : list Z -> @Batch Arr -> result Grouped.
Abbreviation evaluate :=
  (@evaluate Arr OA Specs OS Secret Resolved Attached Bound Partition Grouped try_new with_group_ids).

Lemma input_batch_same (a b : Acc) cols :
  holds a cols -> holds b cols -> same_call a b -> input_batch try_new a = input_batch try_new b.
Proof.
  intros Ha Hb Hs. unfold input_batch. injection Hs as _ _ _ Hty Hsp _ _ _ Hw _.
  by rewrite (collected_same a b cols Ha Hb Hty), Hty, Hsp, Hw.
Qed.

Abbreviation Answers := (@Resp Arr Secret Resolved Attached Bound Partition Grouped).
(** A program that neither reads nor changes the state. *)
Definition blind {St A} (m : body Answers St A) : Prop :=
  forall s s' tr s1 r, runs (m s) tr (s1, r) -> runs (m s') tr (s', r).

Lemma blind_bind {St A B} (m : body Answers St A) (f : A -> body Answers St B) :
  blind m -> (forall x, blind (f x)) -> blind (bind m f).
Proof.
  intros Hm Hf s s' tr s1 r (tr1 & tr2 & [s2 r2] & -> & H1 & H2)%runs_bind_inv.
  eapply runs_bind; [exact (Hm _ s' _ _ _ H1)|]. destruct r2 as [x|e]; [exact (Hf x _ _ _ _ _ H2)|].
  inversion H2; subst. constructor.
Qed.
Lemma blind_do {St} c : blind (do_ (S:=St) (c : @Call Arr Secret Resolved Attached Bound Partition Grouped)).
Proof.
  intros s s' tr s1 r (x & tr' & -> & H)%runs_vis_inv. constructor. inversion H; subst. constructor.
Qed.
Lemma blind_try {St A} (x : result A) : blind (St:=St) (try_ x).
Proof. intros s s' tr s1 r H. destruct x; inversion H; subst; constructor. Qed.

Lemma aggregate_once_blind {St} t batch :
  blind (@aggregate_once Arr OA Secret Resolved Attached Bound Partition Grouped St with_group_ids t batch).
Proof.
  unfold aggregate_once, open_aggregate, aggregate_bind.
  repeat (apply blind_bind; [try apply blind_do; try apply blind_try|intros]);
    repeat match goal with
           | |- blind (try_ _) => apply blind_try
           | |- blind (match ?x with _ => _ end) => destruct x
           | |- blind (bind _ _) => apply blind_bind; [try apply blind_do; try apply blind_try|intros]
           | |- blind (ret _) => apply (blind_try (Ok _))
           end.
Qed.

Lemma evaluate_same (a b : Acc) cols :
  holds a cols -> holds b cols -> same_call a b -> use_window_callback b = false -> forall tr r,
  (exists s, runs (evaluate a) tr (s, r)) -> exists s, runs (evaluate b) tr (s, r).
Proof.
  intros Ha Hb Hs Hw tr r [s H]. unfold Aggregate.evaluate, bind, get_state in *. cbn [prog_bind] in *.
  rewrite (input_batch_same a b cols Ha Hb Hs) in H.
  assert (use_window_callback a = false) as Hwa by (injection Hs; congruence).
  assert (target a = target b) as Ht.
  { injection Hs as H1 H2 H3 _ _ H4 H5 _ _ _. unfold target. by rewrite H1, H2, H3, H4, H5. }
  rewrite Hwa, Ht in H. rewrite Hw.
  destruct (input_batch try_new b) as [batch|e].
  - exists b. exact (aggregate_once_blind (target b) batch a b _ _ _ H).
  - exists b. inversion H; subst. constructor.
Qed.

(** C21: however the engine divides an aggregation, into partial accumulators
    over any batches, whose states are merged in any groups in order, nothing
    fails on the way and the final accumulator has exactly the exchanges with the
    worker, and answers, of one accumulator that saw all batches: for an aggregate
    whose function is unknown. *)
Theorem two_phase_equivalent (start : Acc) groups :
  fresh start -> use_window_callback start = false ->
  Forall (Forall (Forall (typed (arg_types start)))) groups ->
  exists final, two_phase start start groups = Ok final /\
    forall tr r, (exists s, runs (evaluate final) tr (s, r))
                 <-> (exists s, runs (evaluate (gather start (mjoin (mjoin groups)))) tr (s, r)).
Proof.
  intros Hf Hw Hg.
  destruct (two_phase_holds start groups Hf Hg start [] eq_refl) as (final & Hfinal & _ & Hh).
  { rewrite stack_nil. by apply fresh_holds. }
  destruct (gather_holds start [] (mjoin (mjoin groups))) as [Hh' _].
  { rewrite stack_nil. by apply fresh_holds. }
  { apply Forall_join, Forall_join. exact Hg. }
  pose proof (two_phase_same_call _ _ _ _ Hfinal) as Hc1.
  pose proof (gather_same_call start (mjoin (mjoin groups))) as Hc2.
  assert (same_call final (gather start (mjoin (mjoin groups)))) as Hc by (unfold same_call in *; congruence).
  exists final. split; [exact Hfinal|]. intros tr r. split.
  - apply (evaluate_same _ _ _ Hh Hh' Hc). injection Hc2; congruence.
  - apply (evaluate_same _ _ _ Hh' Hh); [by symmetry|]. injection Hc1; congruence.
Qed.
End Rows.

(** ** At concrete inputs *)

Section Concrete.
#[local] Existing Instance list_arrays.
#[local] Existing Instance list_specs.

Definition num (z : Z) : ScalarValue := SVPrim Int64 (Some (PInt z)).
Definition nums (l : list Z) : ListArray := (Int64, map num l).
Definition accept (fs : list Field) (cols : list ListArray) (n : nat) : result unit := Ok tt.
Definition sum_call : @VgiAccumulator ListArray (list ArgSpec) unit unit unit :=
  mkAcc "c" "s" "sum" [Int64] [mkSpec "x" Int64 false false] no_arguments [] false false [] None.

(** Rows 1 2 3 4 enter in two chunks, 1 2 3 leave again, across both. *)
Lemma sliding_frame_exact_witness :
  exists a' cs, run [Enter [nums [1; 2]%Z]; Enter [nums [3; 4]%Z]; Leave [nums [1; 2; 3]%Z]] sum_call = (a', Ok tt)
    /\ collected a' = Ok cs /\ map arr_type cs = [Int64] /\ map snd cs = [[num 4%Z]].
Proof.
  destruct (sliding_frame_exact sum_call [Enter [nums [1; 2]%Z]; Enter [nums [3; 4]%Z]; Leave [nums [1; 2; 3]%Z]])
    as (a' & cs & H1 & H2 & H3 & H4).
  - reflexivity.
  - repeat split; repeat constructor.
  - exists a', cs. split; [exact H1|]. split; [exact H2|]. split; [exact H3|]. exact H4.
Defined.

(** Three partial accumulators, merged in two steps. *)
Lemma two_phase_equivalent_witness :
  let groups := [[[[nums [1]%Z]; [nums [2; 3]%Z]]; []]; [[[nums [4]%Z]]]] in
  exists final, two_phase (fun ty vs => (ty, vs)) sum_call sum_call groups = Ok final /\
    forall tr r,
      (exists s, runs (evaluate accept (fun _ b => Ok b) final : prog (@Resp _ _ unit _ _ unit _) _) tr (s, r))
      <-> (exists s, runs (evaluate accept (fun _ b => Ok b)
                            (gather sum_call [[nums [1]%Z]; [nums [2; 3]%Z]; [nums [4]%Z]])
                          : prog (@Resp _ _ unit _ _ unit _) _) tr (s, r)).
Proof.
  intros groups.
  apply (two_phase_equivalent (OA := list_arrays) (LA := list_array_laws) (fun ty vs => (ty, vs))).
  - reflexivity.
  - reflexivity.
  - reflexivity.
  - reflexivity.
  - repeat constructor.
Defined.
End Concrete.
