(* ===== verification/AggregateProtocol.v ===== *)
(** * Aggregates and their worker

    The exchanges of a sliding window with its worker, over its whole life: one
    bind at a time, frames one after the other, and at the end the bind is
    released or its connection poisoned. The contract below observes what the
    worker holds; the answers are then the worker's function of the frames. *)

From S2P Require Import Prelude Arrow CallArgs ArrayModel Interact Aggregate AggregateTheorems.

Section Protocol.
Context {Arr : Type} {OA : ArrayOps Arr} {Specs : Type} {OS : SpecOps Specs}.
Context {Secret Resolved Attached Bound Partition Grouped : Type}.
Variable try_new : list Field -> list Arr -> nat -> result unit.
Variable with_group_ids : list Z -> @Batch Arr -> result Grouped.

Abbreviation Acc := (@VgiAccumulator Arr Specs Secret Attached Bound).
Abbreviation Answers := (@Resp Arr Secret Resolved Attached Bound Partition Grouped).
Abbreviation Call := (@Call Arr Secret Resolved Attached Bound Partition Grouped).
Abbreviation evaluate :=
  (@evaluate Arr OA Specs OS Secret Resolved Attached Bound Partition Grouped try_new with_group_ids).
Abbreviation drop_accumulator :=
  (@drop_accumulator Arr Specs Secret Resolved Attached Bound Partition Grouped).

(** ** The contract *)

(** What the worker holds for the accumulator: nothing; a bind; a bind with
    the partition of one frame, not yet or already evaluated; a bind on a
    connection a frame has failed on; nothing that can still be used. *)
Inductive phase :=
  | Closed
  | Held (b : Bound)
  | Frame (b : Bound) (p : Partition) (input : @Batch Arr)
  | Framed (b : Bound) (p : Partition)
  | Broken (b : Bound)
  | Dead.

(** An honest worker's window function. *)
Variable window : @Batch Arr -> ScalarValue.
Variable honest : Prop.

Definition window_rely (g : phase) (c : Call) : Answers c -> Prop :=
  match c with
  | WindowEvaluate _ _ _ => fun r =>
      honest -> match g, r with
                | Frame _ _ input, Ok out =>
                    match columns out with col :: _ => scalar_at col 0 = Ok (window input) | [] => True end
                | _, _ => True
                end
  | _ => fun _ => True
  end.
Definition window_guarantee (g : phase) (c : Call) : Prop :=
  match c with
  | SpawnThread | Connect | Attach _ | ResolveSecrets _ | Bind _ _ _ _ _ _ => g = Closed
  | WindowInit b i _ => g = Held b /\ i = 0%Z
  | WindowEvaluate p i frames =>
      i = 0%Z /\ exists b input, g = Frame b p input /\ frames = [(0%Z, Z.of_nat (b_rows input))]
  | WindowDestroy p => exists b, g = Framed b p
  | Poison => exists b, g = Held b \/ g = Broken b
  | AggregateDestroy _ b groups => g = Held b /\ groups = [0%Z]
  | ReceiverGone => g = Dead
  | AggregateUpdate _ _ _ | AggregateFinalize _ _ _ => False
  end.
Definition window_update (g : phase) (c : Call) : Answers c -> phase :=
  match c with
  | Bind _ _ _ _ _ _ => fun r => match r with Ok b => Held b | Err _ => g end
  | WindowInit b _ input => fun r => match r with Ok p => Frame b p input | Err _ => Broken b end
  | WindowEvaluate p _ _ => fun r =>
      match g, r with Frame b _ _, Ok _ => Framed b p | Frame b _ _, Err _ => Broken b | _, _ => g end
  | WindowDestroy _ => fun r =>
      match g, r with Framed b _, Ok _ => Held b | Framed b _, Err _ => Broken b | _, _ => g end
  | Poison => fun _ => Dead
  | AggregateDestroy _ _ _ => fun _ => Closed
  | _ => fun _ => g
  end.
Definition window_contract : contract Answers :=
  {| ghost := phase; rely := window_rely; guarantee := window_guarantee; update := window_update |}.

(** The thread's state is what the worker holds. *)
Definition covers (a : Acc) (g : phase) : Prop :=
  g = match window_worker a with None => Closed | Some (Running _ b) => Held b | Some Exited => Dead end.

Section Frame.
Variable a0 : Acc.
(** What evaluation leaves behind: nothing changed but the thread. *)
Definition left_as (a : Acc) (g : phase) : Prop :=
  covers a g /\ set_window_worker None a = set_window_worker None a0.
Abbreviation wpb := (Interact.wpb window_contract left_as).

Lemma wpb_answer (leave : Acc -> phase -> Prop) {A} g s (r : result A) Q :
  (forall a, r = Ok a -> Q a s g) -> (forall e, r = Err e -> leave s g) ->
  Interact.wpb window_contract leave g s (try_ r) Q.
Proof. intros H1 H2. destruct r; [by apply (H1 a)|by apply (H2 e)]. Qed.

(** [call?]: the answer decides how it goes on. *)
#[local] Ltac ask r := apply wpb_bind, wpb_do; [|intros r _; apply wpb_bind, wpb_answer].

Lemma wpb_open_aggregate t input s Q :
  left_as s Closed ->
  (forall at_ b, Q (at_, b) s (Held b)) ->
  wpb Closed s (open_aggregate t input) Q.
Proof.
  intros Hs HQ. unfold open_aggregate, aggregate_bind.
  ask r1; [done|intros [] _|done].
  ask r2; [done|intros at_ _|done].
  apply wpb_bind. destruct (t_secrets t) as [|x l].
  - ask r3; [done|intros b ->; apply wpb_ret, wpb_ret, HQ|by intros e ->].
  - ask r3; [done|intros secrets _|done].
    ask r4; [done|intros b ->; apply wpb_ret, wpb_ret, HQ|by intros e ->].
Qed.

(** One frame: the bind survives it, or its connection is to be poisoned. *)
Lemma wp_frame b f batch (s : Acc) :
  wp window_contract (Held b) (evaluate_window_frame b f batch s) (fun r g =>
    r.1 = s /\ match r.2 with
               | Ok v => g = Held b /\ (honest -> v = window batch)
               | Err _ => g = Held b \/ g = Broken b
               end).
Proof.
  apply wp_mono with (Q := fun r g => match r.2 with
      | Ok v => r.1 = s /\ g = Held b /\ (honest -> v = window batch)
      | Err _ => r.1 = s /\ (g = Held b \/ g = Broken b) end).
  { intros [s' [v|e]] g; simpl; tauto. }
  change (Interact.wpb window_contract (fun a g => a = s /\ (g = Held b \/ g = Broken b)) (Held b) s
            (evaluate_window_frame b f batch) (fun v a g => a = s /\ g = Held b /\ (honest -> v = window batch))).
  unfold evaluate_window_frame.
  ask r1; [done|intros p ->|intros e ->; simpl; auto].
  apply wpb_bind, wpb_do; [simpl; eauto|intros r2 Hout; apply wpb_bind, wpb_answer];
    [intros out ->|intros e ->; simpl; auto].
  ask r3; [simpl; eauto|intros [] ->|intros e ->; simpl; auto].
  apply wpb_try; [|simpl; auto]. intros v Hv. split; [done|]. split; [done|]. intros Hh.
  specialize (Hout Hh). unfold single_value in Hv. simpl in Hout. destruct (columns out) as [|col cols]; [done|].
  destruct (num_rows out =? 1)%nat; congruence.
Qed.

Lemma wpb_worker_evaluate w f batch (s : Acc) :
  set_window_worker None s = set_window_worker None a0 -> window_worker s = Some w ->
  wpb (match w with Running _ b => Held b | Exited => Dead end) s (WindowWorker_evaluate w f batch)
    (fun v a g => left_as a g /\ (honest -> v = window batch)).
Proof.
  intros Hs Hw. destruct w as [at_ b|]; unfold WindowWorker_evaluate.
  - assert (left_as s (Held b)) as Hl by (split; [unfold covers; by rewrite Hw|done]).
    apply wpb_bind. unfold attempt. apply wp_bind. eapply wp_mono; [|apply wp_frame].
    intros [s' [v|e]] g [Hs' H]; simpl in Hs', H; subst s'; simpl.
    + destruct H as [-> H]. apply wpb_ret. done.
    + unfold Interact.wpb, bind, do_, lift, call. simpl. split; [destruct H; eauto|]. intros [] _. by split.
  - apply wpb_bind, wpb_do; [done|]. intros gone _. apply wpb_fail. split; [|done]. unfold covers. by rewrite Hw.
Qed.

Lemma wpb_evaluate g (s : Acc) :
  covers s g -> use_window_callback s = true -> set_window_worker None s = set_window_worker None a0 ->
  wpb g s evaluate (fun v a g => left_as a g /\
    (honest -> exists batch, input_batch try_new s = Ok batch /\ v = window batch)).
Proof.
  intros Hg Hw Hs. assert (left_as s g) as Hl by done. unfold Aggregate.evaluate.
  apply wpb_bind, wpb_get. apply wpb_bind, wpb_answer; [intros batch Hbatch|done]. rewrite Hw.
  apply wpb_bind. unfold covers in Hg. destruct (window_worker s) as [w|] eqn:Hww.
  - apply wpb_ret. subst g. eapply wpb_mono; [|destruct w; by apply (wpb_worker_evaluate _ _ _ _ Hs Hww)].
    intros v a g [H1 H2]. split; [done|]. eauto.
  - subst g. apply wpb_bind. unfold WindowWorker_start. ask r; [done|intros [] _|done].
    apply wpb_bind, wpb_open_aggregate; [done|]. intros at_ b. apply wpb_ret.
    apply wpb_bind, wpb_put, wpb_ret.
    eapply wpb_mono; [|apply (wpb_worker_evaluate (Running at_ b)); [exact Hs|done]].
    intros v a g [H1 H2]. split; [done|]. eauto.
Qed.
End Frame.

(** ** A whole window *)

Lemma covers_drop (a : Acc) g : covers a g -> wp window_contract g (drop_accumulator a) (fun _ g' => g' = Closed \/ g' = Dead).
Proof.
  unfold covers, Aggregate.drop_accumulator. destruct (window_worker a) as [[at_ b|]|]; intros ->; simpl; auto.
Qed.

(** One frame after the other: its rows enter and leave, it is evaluated; at
    last the accumulator is dropped. *)
Fixpoint session (frames : list (list Op)) (a : Acc) : prog Answers (list (result ScalarValue)) :=
  match frames with
  | [] => prog_bind (drop_accumulator a) (fun _ => Ret [])
  | os :: frames =>
      prog_bind (evaluate (run os a).1) (fun r =>
        prog_bind (session frames r.1) (fun rs => Ret (r.2 :: rs)))
  end.
(** The accumulator as each frame is evaluated, on its own. *)
Fixpoint frame_states (frames : list (list Op)) (a : Acc) : list Acc :=
  match frames with [] => [] | os :: frames => (run os a).1 :: frame_states frames (run os a).1 end.
Definition answered (a : Acc) (r : result ScalarValue) : Prop :=
  forall v, r = Ok v -> exists batch, input_batch try_new a = Ok batch /\ v = window batch.

(** The thread plays no part in the rows. *)
Lemma apply_op_worker o w (a : Acc) :
  apply_op o (set_window_worker w a) = (set_window_worker w (apply_op o a).1, (apply_op o a).2).
Proof.
  destruct o as [v|v]; [done|]. simpl. unfold retract_batch. simpl.
  destruct (existsb _ v); [done|]. by destruct (retract_columns _ _).
Qed.
Lemma run_worker os w (a : Acc) : (run os (set_window_worker w a)).1 = set_window_worker w (run os a).1.
Proof.
  revert a. induction os as [|o os IH]; intros a; simpl; [done|]. rewrite apply_op_worker.
  destruct (apply_op o a) as [a' [[]|e]]; simpl; [apply IH|done].
Qed.
Lemma input_batch_worker w (a : Acc) : input_batch try_new (set_window_worker w a) = input_batch try_new a.
Proof. done. Qed.
Lemma set_worker_id (a : Acc) : set_window_worker (window_worker a) a = a.
Proof. by destruct a. Qed.
Lemma set_worker_set w w' (a : Acc) : set_window_worker w (set_window_worker w' a) = set_window_worker w a.
Proof. done. Qed.

Lemma apply_op_keeps o (a : Acc) :
  window_worker (apply_op o a).1 = window_worker a
  /\ use_window_callback (apply_op o a).1 = use_window_callback a.
Proof.
  destruct o as [v|v]; [done|]. simpl. unfold retract_batch.
  destruct (existsb _ v); [done|]. by destruct (retract_columns _ _).
Qed.
Lemma run_keeps os (a : Acc) :
  window_worker (run os a).1 = window_worker a /\ use_window_callback (run os a).1 = use_window_callback a.
Proof.
  revert a. induction os as [|o os IH]; intros a; simpl; [done|].
  destruct (apply_op_keeps o a) as [H1 H2]. destruct (apply_op o a) as [a' [[]|e]]; simpl in *; [|done].
  destruct (IH a') as [H3 H4]. by rewrite H3, H4.
Qed.

Lemma session_wp frames : forall (a a' : Acc) g,
  covers a g -> use_window_callback a = true ->
  set_window_worker None a = set_window_worker None a' ->
  wp window_contract g (session frames a) (fun rs g' =>
    (g' = Closed \/ g' = Dead) /\
    (honest -> Forall2 answered (frame_states frames a') rs)).
Proof.
  induction frames as [|os frames IH]; intros a a' g Hg Hw Hs; cbn [session].
  - apply wp_bind. eapply wp_mono; [|by apply covers_drop]. intros ? ? H. simpl. split; [exact H|]. constructor.
  - destruct (run_keeps os a) as [Hk1 Hk2].
    assert (set_window_worker None (run os a).1 = set_window_worker None (run os a').1) as Hrun
      by (rewrite <- !run_worker; by rewrite Hs).
    apply wp_bind. eapply wp_mono; [|apply (wpb_evaluate (run os a').1 g (run os a).1)].
    + intros [a2 r] g2 H. assert (left_as (run os a').1 a2 g2 /\ (honest -> answered (run os a').1 r)) as [[H1 H2] H3].
      { destruct r as [v|e]; simpl in H; [|split; [exact H|done]]. destruct H as [H1 H2]. split; [exact H1|].
        intros Hh v' [= <-]. destruct (H2 Hh) as (batch & Hb & ->). exists batch. split; [|done].
        rewrite <- (input_batch_worker None), <- Hrun. exact Hb. }
      simpl. apply wp_bind. eapply wp_mono; [|apply (IH a2 (run os a').1 g2 H1)].
      * intros rs g3 [H4 H5]. simpl. split; [done|]. intros Hh. constructor; auto.
      * assert (use_window_callback a2 = use_window_callback (run os a').1) as -> by (injection H2; congruence).
        rewrite <- Hw, <- Hk2. injection Hrun; congruence.
      * exact H2.
    + unfold covers. by rewrite Hk1.
    + by rewrite Hk2.
    + exact Hrun.
Qed.
End Protocol.

Section Theorems.
Context {Arr : Type} {OA : ArrayOps Arr} {Specs : Type} {OS : SpecOps Specs}.
Context {Secret Resolved Attached Bound Partition Grouped : Type}.
Variable try_new : list Field -> list Arr -> nat -> result unit.
Variable with_group_ids : list Z -> @Batch Arr -> result Grouped.
Abbreviation Acc := (@VgiAccumulator Arr Specs Secret Attached Bound).
Abbreviation session := (@session Arr OA Specs OS Secret Resolved Attached Bound Partition Grouped try_new
  with_group_ids).
Abbreviation window_contract := (@window_contract Arr OA Secret Resolved Attached Bound Partition Grouped).

(** The contract of an environment nothing is assumed of. *)
Definition any_worker := window_contract (fun _ => SVPrim Null None) False.

Lemma start_covers (a : Acc) : window_worker a = None -> covers (Partition := Partition) a Closed.
Proof. intros Hw. unfold covers. by rewrite Hw. Qed.
Lemma any_worker_relied g tr : relied any_worker g tr.
Proof.
  revert g. induction tr as [|[c r] tr IH]; intros g; [done|].
  split; [|apply IH]. destruct c; try exact I. intros [].
Qed.

(** C22: whatever the worker answers, over the life of a sliding window every call
    is in order: one thread, connection and bind serve all frames until a call
    fails; each frame's partition is evaluated over all its rows and destroyed
    before the next; a connection on which a frame fails is poisoned and never
    used again (one whose attach or bind fails while the session starts is
    dropped as it is, and not used by the session again); and when the
    accumulator is dropped nothing is left at the worker on a connection that
    will be reused. *)
Theorem window_session_protocol (frames : list (list Op)) (a : Acc) tr rs :
  window_worker a = None -> use_window_callback a = true ->
  runs (session frames a) tr rs ->
  guaranteed any_worker (Closed : ghost any_worker) tr
  /\ (observe any_worker (Closed : ghost any_worker) tr = Closed
      \/ observe any_worker (Closed : ghost any_worker) tr = Dead).
Proof.
  intros Hw Hu Hrun.
  destruct (wp_sound any_worker (Closed : ghost any_worker) _ _ _ _ Hrun
              (session_wp try_new with_group_ids (fun _ => SVPrim Null None) False frames a a Closed
                 (start_covers a Hw) Hu eq_refl) (any_worker_relied _ _)) as [H1 [H2 _]].
  by split.
Qed.

(** With a worker whose window function is [window], every frame that is
    answered is answered with [window] of exactly the rows the accumulator holds
    for that frame, though one bind serves them all and frames may fail in
    between. *)
Theorem window_session_answers (window : @Batch Arr -> ScalarValue) (frames : list (list Op)) (a : Acc) tr rs :
  window_worker a = None -> use_window_callback a = true ->
  runs (session frames a) tr rs ->
  relied (window_contract window True) (Closed : ghost (window_contract window True)) tr ->
  Forall2 (answered try_new window) (frame_states frames a) rs.
Proof.
  intros Hw Hu Hrun Hrelied.
  destruct (wp_sound (window_contract window True) (Closed : ghost (window_contract window True)) _ _ _ _ Hrun
              (session_wp try_new with_group_ids window True frames a a Closed
                 (start_covers a Hw) Hu eq_refl) Hrelied) as [_ [_ H]].
  by apply H.
Qed.
End Theorems.

(** ** At concrete inputs *)

Section Concrete.
#[local] Existing Instance list_arrays.
#[local] Existing Instance list_specs.
#[local] Open Scope Z_scope.

Abbreviation Answers := (@Resp ListArray unit unit unit nat nat (list Z * @Batch ListArray)).

(** A worker that counts the rows of a frame: binds and partitions are
    numbered by the calls so far. *)
Definition rows_env (past : list (event Answers)) (c : @Call ListArray unit unit unit nat nat (list Z * @Batch ListArray))
    : Answers c :=
  match c with
  | SpawnThread | Connect | AggregateUpdate _ _ _ | AggregateDestroy _ _ _ | WindowDestroy _ | Attach _
  | ResolveSecrets _ => Ok tt
  | Bind _ _ _ _ _ _ | WindowInit _ _ _ => Ok (length past)
  | AggregateFinalize _ _ _ => Ok (Aggregate.mkAnswer 1 [nums [0]])
  | WindowEvaluate _ _ frames => Ok (Aggregate.mkAnswer 1 [nums (map snd frames)])
  | Poison => tt
  | ReceiverGone => true
  end.
Definition count_rows (b : @Batch ListArray) : ScalarValue := num (Z.of_nat (b_rows b)).
Definition pairs (_ : list Z) (b : @Batch ListArray) : result (list Z * @Batch ListArray) := Ok ([], b).

Definition window_call : @VgiAccumulator ListArray (list ArgSpec) unit unit nat :=
  mkAcc "c" "s" "count" [Int64] [mkSpec "x" Int64 false false] no_arguments [] true false [] None.
Definition three_frames : list (list (@Op ListArray)) :=
  [[Enter [nums [1; 2]]]; [Leave [nums [1]]; Enter [nums [3; 4]]]; [Leave [nums [2; 3]]]].
Definition window_program : prog Answers (list (result ScalarValue)) :=
  session accept pairs three_frames window_call.
Definition window_run := interp rows_env [] window_program.

Lemma window_session_protocol_witness :
  length window_run.1 = 14%nat /\ guaranteed any_worker (Closed : ghost any_worker) window_run.1.
Proof.
  split; [vm_compute; reflexivity|].
  exact (proj1 (window_session_protocol accept pairs three_frames window_call _ _ eq_refl eq_refl
                  (interp_runs rows_env [] window_program))).
Defined.

Lemma window_session_answers_witness :
  window_run.2 = [Ok (num 2); Ok (num 3); Ok (num 1)]
  /\ Forall2 (answered accept count_rows) (frame_states three_frames window_call) window_run.2.
Proof.
  split; [vm_compute; reflexivity|].
  apply (window_session_answers accept pairs count_rows three_frames window_call _ _ eq_refl eq_refl
           (interp_runs rows_env [] window_program)).
  vm_compute. repeat split.
Defined.

(** ** Released, or left to the idle sweep

    [bind_output_type] releases the bind's state rather than leaving it for the
    worker's idle sweep, as its comment says; but when an aggregate's update
    fails, nothing is released and the connection is not poisoned: the whole
    exchange after the bind is the failed update. *)
Lemma failed_update_leaves_state e :
  exists tr,
    runs (aggregate_once (S := unit) (Secret := unit) (Resolved := unit) (Attached := unit) (Bound := nat)
            (Partition := nat) pairs (mkTarget "c" "s" "sum" no_arguments []) (mkInput [] [] 0) tt : prog Answers _)
      tr (tt, Err e)
    /\ Forall (fun ev => match projT1 ev with AggregateDestroy _ _ _ | Poison => False | _ => True end) tr.
Proof.
  exists [existT Connect (Ok tt); existT (Attach "c") (Ok tt);
          existT (Bind tt "s" "sum" no_arguments [] None) (Ok 7%nat);
          existT (AggregateUpdate tt 7%nat ([], mkInput [] [] 0)) (Err e)].
  split; [|repeat constructor]. repeat constructor.
Qed.
End Concrete.
