(* ===== verification/ScalarArgs.v ===== *)
(** * Arguments of scalar calls (src/src/scalar.rs)

    What happens to a scalar call before the exchange of [Scalar]: choosing the
    overload that tells constants from columns, typing untyped NULLs in a
    variadic group, and building the bind's arguments and the input batch; and
    the return type the planner asks for, which a worker resolves at bind and
    the function remembers. *)

From S2P Require Import Prelude Arrow Registry CallArgs.

#[export] Instance Volatility_eq_dec : EqDecision Volatility.
Proof. solve_decision. Defined.

(** [ColumnarValue]. *)
Inductive ColumnarValue (Arr : Type) := ScalarValueOf (v : ScalarValue) | ArrayOf (a : Arr).
Arguments ScalarValueOf {Arr} v.
Arguments ArrayOf {Arr} a.

Section ScalarArgs.
Context {Arr : Type} {OA : ArrayOps Arr} {Specs : Type} {OS : SpecOps Specs}.

(** A function: its overloads are never none, an empty list being replaced by
    the default declaration. *)
Record VgiScalarUdf := mkScalarUdf {
  s_catalog : string; s_schema : string; s_function : string; s_registered : string;
  s_signature : TypeSignature; s_volatility : Volatility; s_strict : bool;
  s_return_type : option DataType;
  first_overload : Specs; other_overloads : list Specs;
  s_batch_size : option nat;
}.
Definition overloads (u : VgiScalarUdf) : list Specs := first_overload u :: other_overloads u.

Variable default_specs : Specs.
Definition new_scalar (catalog schema name : string) (signature : TypeSignature) (volatility : Volatility)
    (return_type : DataType) : VgiScalarUdf :=
  mkScalarUdf catalog schema name name signature volatility false (Some return_type) default_specs [] None.
Definition discovered_overloads_with_volatility (catalog schema function registered : string)
    (l : list Specs) (volatility : Volatility) : VgiScalarUdf :=
  let accepts_zero_arguments :=
    match l with [] => true | _ => existsb (fun s => (minimum_positional_arity s =? 0)%nat) l end in
  mkScalarUdf catalog schema function registered
    (if accepts_zero_arguments then OneOf [Nullary; VariadicAny] else VariadicAny) volatility false None
    (match l with [] => default_specs | s :: _ => s end) (tail l) None.
Definition discovered_with_volatility (catalog schema function registered : string) (s : Specs)
    (volatility : Volatility) : VgiScalarUdf :=
  discovered_overloads_with_volatility catalog schema function registered [s] volatility.
Definition discovered (catalog schema function registered : string) (s : Specs) : VgiScalarUdf :=
  discovered_with_volatility catalog schema function registered s Volatile.

(** ** Choosing the overload *)

Definition is_integer (ty : DataType) : bool :=
  match ty with Int8 | Int16 | Int32 | Int64 | UInt8 | UInt16 | UInt32 | UInt64 => true | _ => false end.
Definition is_numeric (ty : DataType) : bool :=
  is_integer ty || match ty with Float16 | Float32 | Float64 | Decimal128 _ _ | Decimal256 _ _ => true | _ => false end.
Definition is_text (ty : DataType) : bool :=
  match ty with Utf8 | LargeUtf8 | Utf8View => true | _ => false end.
Definition is_binary (ty : DataType) : bool :=
  match ty with Binary | LargeBinary | BinaryView => true | _ => false end.
Definition scalar_type_score (actual expected : DataType) : option Z :=
  if bool_decide (actual = expected) then Some 4%Z
  else if bool_decide (actual = Null) || bool_decide (expected = Null) then Some 0%Z
  else if is_integer actual && is_integer expected then Some 3%Z
  else if is_numeric actual && is_numeric expected && negb (is_integer actual) && negb (is_integer expected)
  then Some 2%Z
  else if (is_text actual && is_text expected) || (is_binary actual && is_binary expected) then Some 3%Z
  else None.

Definition varargs_position (s : Specs) : option nat := position spec_varargs (positional_specs s).
(** The declaration of a position: of the variadic parameter past the end. *)
Definition positional_spec (s : Specs) (i : nat) : option ArgSpec :=
  match positional_specs s !! i with
  | Some spec => Some spec
  | None => List.find spec_varargs (positional_specs s)
  end.

Definition arity_matches (s : Specs) (n : nat) : bool :=
  match varargs_position s with
  | Some _ => (minimum_positional_arity s <=? n)%nat
  | None => (minimum_positional_arity s <=? n)%nat && (n <=? length (positional_specs s))%nat
  end.
(** The score of the arguments from position [i] on; [None]: one of them does
    not fit and is not a constant. *)
Fixpoint score_from (s : Specs) (i : nat) (types : list DataType) (score : Z) : option Z :=
  match types with
  | [] => Some score
  | actual :: types =>
      match positional_spec s i with
      | None => score_from s (S i) types score
      | Some spec =>
          match scalar_type_score actual (spec_type spec) with
          | Some v => score_from s (S i) types (score + v)%Z
          | None => if spec_const spec then score_from s (S i) types (score - 1)%Z else None
          end
      end
  end.

(** The loop over the overloads: the best so far, and the first whose arity
    matches. *)
Fixpoint select_from (types : list DataType) (l : list Specs) (best : option (Specs * Z))
    (arity_fallback : option Specs) : option (Specs * Z) * option Specs :=
  match l with
  | [] => (best, arity_fallback)
  | s :: l =>
      if arity_matches s (length types) then
        let fallback := match arity_fallback with Some f => Some f | None => Some s end in
        let best := match score_from s 0 types 0%Z with
                    | Some score => match best with
                                    | None => Some (s, score)
                                    | Some (_, current) => if (current <? score)%Z then Some (s, score) else best
                                    end
                    | None => best
                    end in
        select_from types l best fallback
      else select_from types l best arity_fallback
  end.
Definition select_specs (u : VgiScalarUdf) (types : list DataType) : Specs * bool :=
  let '(best, fallback) := select_from types (overloads u) None None in
  match best with
  | Some (s, _) => (s, true)
  | None => (default (first_overload u) fallback, false)
  end.

(** ** Constants and columns *)

Abbreviation Values := (list (option (ArgValue Arr))).

(** The type an argument is sent with: the declared one when it is known and
    the call is coerced, else its own. *)
Definition sent_type (s : Specs) (coerce : bool) (i : nat) (ty : DataType) : DataType :=
  match (if coerce then positional_spec s i else None) with
  | Some spec => if bool_decide (spec_type spec = Null) then ty else spec_type spec
  | None => ty
  end.
Fixpoint split_from (s : Specs) (values : Values) (coerce : bool) (i : nat) (types : list DataType)
    (arguments : BindArguments Arr) (columns : list Field) : BindArguments Arr * list Field :=
  match types with
  | [] => (arguments, columns)
  | ty :: types =>
      if positional_is_const s i then
        let value := match values !! i with Some (Some v) => v | _ => NullArg (sent_type s coerce i ty) end in
        split_from s values coerce (S i) types (add_positional value arguments) columns
      else
        split_from s values coerce (S i) types arguments
          (columns ++ [mkField ("col_" +:+ pretty (length columns)) (sent_type s coerce i ty) true []])
  end.
Definition split_arguments (s : Specs) (types : list DataType) (values : Values) (coerce : bool)
    : BindArguments Arr * list Field := split_from s values coerce 0 types no_arguments [].

(** An untyped NULL in an AnyArrow variadic group takes the type of its
    peers, when they agree. *)
Definition resolve_untyped_null_varargs (s : Specs) (types : list DataType) : list DataType :=
  match varargs_position s with
  | None => types
  | Some v =>
      match positional_specs s !! v with
      | None => types
      | Some spec =>
          if negb (bool_decide (spec_type spec = Null)) || (length types <=? v)%nat then types
          else
            match List.filter (fun ty => negb (bool_decide (ty = Null))) (drop v types) with
            | [] => types
            | inferred :: concrete =>
                if existsb (fun ty => negb (bool_decide (ty = inferred))) concrete then types
                else imap (fun i ty => if (v <=? i)%nat && bool_decide (ty = Null) then inferred else ty) types
            end
      end
  end.

Variable show_type : DataType -> string.
Variable show_error : DFError -> string.

Definition map_err {A} (f : DFError -> DFError) (r : result A) : result A :=
  match r with Ok a => Ok a | Err e => Err (f e) end.
Definition declared_const_type (s : Specs) (i : nat) : DataType :=
  match positional_spec s i with Some spec => if spec_const spec then spec_type spec else Null | None => Null end.
Definition cannot_cast (function : string) (i : nat) (from to : DataType) (e : DFError) : DFError :=
  Plan ("VGI scalar `" +:+ function +:+ "` const argument " +:+ pretty i +:+ " cannot be cast from "
        +:+ show_type from +:+ " to " +:+ show_type to +:+ ": " +:+ show_error e).
Definition const_scalar_to_arg (u : VgiScalarUdf) (s : Specs) (i : nat) (v : ScalarValue) : result (ArgValue Arr) :=
  let declared := declared_const_type s i in
  v ← (if bool_decide (declared = Null) then Ok v
       else map_err (cannot_cast (s_function u) i (data_type v) declared) (scalar_cast v declared));
  scalar_to_arg (s_function u) i v.
Definition const_array_to_arg (u : VgiScalarUdf) (s : Specs) (i : nat) (a : Arr) : result (ArgValue Arr) :=
  let declared := declared_const_type s i in
  if bool_decide (declared = Null) || bool_decide (arr_type a = declared) then arg_row0 a (s_function u)
  else
    c ← map_err (cannot_cast (s_function u) i (arr_type a) declared) (arr_cast a declared);
    arg_row0 c (s_function u).

(** ** The planner's question *)

(** [resolved]: what binds have answered, by a key that spells out the
    argument types, the constants and the identity of the settings. *)
Variable memo_key : list DataType -> Values -> list Ascii.ascii -> string.
Abbreviation Memo := (gmap string DataType).

(** The bind a plan-time question makes. *)
Definition planned_bind (u : VgiScalarUdf) (types : list DataType) (values : Values)
    : BindArguments Arr * list Field :=
  let '(s, compatible) := select_specs u types in split_arguments s types values compatible.
Definition output_type (function : string) (fields : list Field) : result DataType :=
  ok_or (Plan ("VGI scalar `" +:+ function +:+ "` bound to an output schema with no columns"))
    (head (map field_type fields)).

(** [worker] answers the bind: the output fields, and whether they depend on a
    secret. *)
Definition resolve_return_type (u : VgiScalarUdf) (worker : BindArguments Arr -> list Field -> result (list Field * bool))
    (settings : list Ascii.ascii) (types : list DataType) (values : Values) (memo : Memo)
    : Memo * result DataType :=
  match s_return_type u with
  | Some t => (memo, Ok t)
  | None =>
      let key := memo_key types values settings in
      match memo !! key with
      | Some t => (memo, Ok t)
      | None =>
          let '(arguments, columns) := planned_bind u types values in
          match b ← worker arguments columns; t ← output_type (s_function u) b.1; Ok (t, b.2) with
          | Err e => (memo, Err e)
          | Ok (t, secret_dependent) => (if secret_dependent : bool then memo else <[key := t]> memo, Ok t)
          end
      end
  end.

Definition return_type (u : VgiScalarUdf) worker settings (types : list DataType) (memo : Memo) :=
  let '(s, _) := select_specs u types in
  resolve_return_type u worker settings (resolve_untyped_null_varargs s types) [] memo.

(** The constants a plan knows: literals at constant positions. *)
Definition planned_value (u : VgiScalarUdf) (s : Specs) (compatible : bool) (p : nat * option ScalarValue)
    : result (option (ArgValue Arr)) :=
  if positional_is_const s p.1 then
    match p.2 with
    | Some v => a ← (if compatible then const_scalar_to_arg u s p.1 v else scalar_to_arg (s_function u) p.1 v);
                Ok (Some a)
    | None => Ok None
    end
  else Ok None.
Definition return_field_from_args (u : VgiScalarUdf) worker settings (fields : list Field)
    (scalars : list (option ScalarValue)) (memo : Memo) : Memo * result Field :=
  let types := map field_type fields in
  let '(s, compatible) := select_specs u types in
  match result_collect (planned_value u s compatible) (imap pair scalars) with
  | Err e => (memo, Err e)
  | Ok values =>
      let '(memo, out) := resolve_return_type u worker settings (resolve_untyped_null_varargs s types) values memo in
      (memo, t ← out; Ok (mkField (s_registered u) t true []))
  end.

(** ** The call itself *)

Definition value_type (v : ColumnarValue Arr) : DataType :=
  match v with ScalarValueOf v => data_type v | ArrayOf a => arr_type a end.
Definition to_array (v : ColumnarValue Arr) (rows : nat) : result Arr :=
  match v with ScalarValueOf v => broadcast v rows | ArrayOf a => Ok a end.

Definition invoked_value (u : VgiScalarUdf) (s : Specs) (compatible : bool) (p : nat * ColumnarValue Arr)
    : result (option (ArgValue Arr)) :=
  if positional_is_const s p.1 then
    a ← match p.2 with
        | ScalarValueOf v => if compatible then const_scalar_to_arg u s p.1 v else scalar_to_arg (s_function u) p.1 v
        | ArrayOf a => if compatible then const_array_to_arg u s p.1 a else arg_row0 a (s_function u)
        end;
    Ok (Some a)
  else Ok None.

(** A column, cast to what the declaration or its variadic peers say. *)
Definition column_target (s : Specs) (compatible : bool) (resolved : list DataType) (i : nat) (actual : DataType)
    : option DataType :=
  let resolved_null := match resolved !! i with
                       | Some ty => if bool_decide (actual = Null) && negb (bool_decide (ty = Null))
                                    then Some ty else None
                       | None => None
                       end in
  match positional_spec s i with
  | Some spec => if compatible && negb (bool_decide (spec_type spec = Null)) then Some (spec_type spec)
                 else resolved_null
  | None => resolved_null
  end.
Definition input_column (u : VgiScalarUdf) (s : Specs) (compatible : bool) (resolved : list DataType) (rows : nat)
    (p : nat * ColumnarValue Arr) : result Arr :=
  a ← to_array p.2 rows;
  match column_target s compatible resolved p.1 (arr_type a) with
  | Some declared =>
      if bool_decide (arr_type a = declared) then Ok a
      else map_err (fun e => Execution ("VGI scalar `" +:+ s_function u +:+ "` argument " +:+ pretty p.1
                                        +:+ " cannot be cast from " +:+ show_type (arr_type a) +:+ " to "
                                        +:+ show_type declared +:+ ": " +:+ show_error e))
                   (arr_cast a declared)
  | None => Ok a
  end.

(** What [invoke_async_with_args] sends: the bind's arguments, the batch, and
    its number of rows. *)
Record Prepared := mkPrepared {
  p_arguments : BindArguments Arr; p_fields : list Field; p_columns : list Arr; rpc_rows : nat;
}.
Variable try_new : list Field -> list Arr -> nat -> result unit.
Definition prepare_call (u : VgiScalarUdf) (args : list (ColumnarValue Arr)) (rows : nat) : result Prepared :=
  let types := map value_type args in
  let '(s, compatible) := select_specs u types in
  let resolved := resolve_untyped_null_varargs s types in
  values ← result_collect (invoked_value u s compatible) (imap pair args);
  let arguments := (split_arguments s resolved values compatible).1 in
  columns ← result_collect (input_column u s compatible resolved rows)
              (filter (fun p => positional_is_const s p.1 = false) (imap pair args));
  let n := if (0 <? rows)%nat && (length columns =? 0)%nat && negb (bool_decide (s_volatility u = Volatile))
           then 1%nat else rows in
  let fields := imap (fun i c => mkField ("col_" +:+ pretty i) (arr_type c) true []) columns in
  _ ← try_new fields columns n;
  Ok (mkPrepared arguments fields columns n).
Definition cacheable (u : VgiScalarUdf) : bool := negb (bool_decide (s_volatility u = Volatile)).

(** The synchronous form does not exist. *)
Definition invoke_with_args (u : VgiScalarUdf) : result (ColumnarValue Arr) :=
  Err (Internal (s_registered u +:+ " is a remote function and must be invoked asynchronously")).
End ScalarArgs.
