(* ===== verification/ScalarArgTheorems.v ===== *)
(** * Theorems on the arguments of scalar calls *)

From S2P Require Import Prelude Arrow Registry CallArgs ArrayModel ScalarArgs.

Section Theorems.
Context {Arr : Type} {OA : ArrayOps Arr} {LA : ArrayLaws Arr} {Specs : Type} {OS : SpecOps Specs}.
Variable show_type : DataType -> string.
Variable show_error : DFError -> string.
Variable try_new : list Field -> list Arr -> nat -> result unit.

Abbreviation Udf := (@VgiScalarUdf Specs).
Abbreviation prepare_call := (prepare_call show_type show_error try_new).
Abbreviation invoked_value := (invoked_value show_type show_error).
Abbreviation planned_value := (planned_value show_type show_error).
Abbreviation input_column := (input_column show_type show_error).

(** ** The best overload *)

(** How well an overload fits; [None]: not at all. *)
Definition fit (types : list DataType) (s : Specs) : option Z :=
  if arity_matches s (length types) then score_from s 0 types 0%Z else None.
(** The first of the best. *)
Inductive first_best (types : list DataType) : list Specs -> Specs -> Z -> Prop :=
  | first_best_here before s after score :
      fit types s = Some score ->
      Forall (fun x => forall k, fit types x = Some k -> (k < score)%Z) before ->
      Forall (fun x => forall k, fit types x = Some k -> (k <= score)%Z) after ->
      first_best types (before ++ s :: after) s score.

Lemma select_from_spec types l : forall seen best fallback,
  match best with
  | Some (s, score) => first_best types seen s score
  | None => Forall (fun x => fit types x = None) seen
  end ->
  fallback = List.find (fun s => arity_matches s (length types)) seen ->
  let '(best', fallback') := select_from types l best fallback in
  match best' with
  | Some (s, score) => first_best types (seen ++ l) s score
  | None => Forall (fun x => fit types x = None) (seen ++ l)
  end /\ fallback' = List.find (fun s => arity_matches s (length types)) (seen ++ l).
Proof.
  induction l as [|s l IH]; intros seen best fallback Hbest Hf; simpl; [by rewrite app_nil_r|].
  assert (List.find (fun s => arity_matches s (length types)) (seen ++ [s])
          = match fallback with Some f => Some f | None => if arity_matches s (length types) then Some s else None end) as Hfind.
  { rewrite Hf. clear. induction seen as [|x seen IH]; simpl; [by destruct (arity_matches s _)|].
    destruct (arity_matches x _); [done|exact IH]. }
  replace (seen ++ s :: l) with ((seen ++ [s]) ++ l) by (by rewrite <- app_assoc).
  destruct (arity_matches s (length types)) eqn:Ha.
  - apply IH; [|rewrite Hfind; by destruct fallback].
    assert (fit types s = score_from s 0 types 0%Z) as Hfit by (unfold fit; by rewrite Ha).
    destruct (score_from s 0 types 0%Z) as [score|].
    + destruct best as [[b current]|].
      * destruct (current <? score)%Z eqn:Hlt.
        -- apply Z.ltb_lt in Hlt. destruct Hbest as [before b after current Hb H1 H2].
           constructor; [done| |constructor]. apply Forall_app. split.
           ++ eapply Forall_impl; [exact H1|]. intros x Hx k Hk. specialize (Hx k Hk). lia.
           ++ constructor; [intros k Hk; rewrite Hb in Hk; injection Hk; lia|].
              eapply Forall_impl; [exact H2|]. intros x Hx k Hk. specialize (Hx k Hk). lia.
        -- apply Z.ltb_ge in Hlt. destruct Hbest as [before b after current Hb H1 H2].
           rewrite <- app_assoc. simpl. constructor; [done|done|]. apply Forall_app. split; [done|].
           constructor; [|done]. intros k Hk. rewrite Hfit in Hk. injection Hk. lia.
      * constructor; [done| |done]. eapply Forall_impl; [exact Hbest|]. intros x Hx k Hk. by rewrite Hx in Hk.
    + destruct best as [[b current]|].
      * destruct Hbest as [before b after current Hb H1 H2]. rewrite <- app_assoc. simpl.
        constructor; [done|done|]. apply Forall_app. split; [done|]. constructor; [|done].
        intros k Hk. by rewrite Hfit in Hk.
      * apply Forall_app. split; [done|]. by constructor.
  - apply IH; [|rewrite Hfind; by destruct fallback].
    assert (fit types s = None) as Hfit by (unfold fit; by rewrite Ha).
    destruct best as [[b current]|].
    + destruct Hbest as [before b after current Hb H1 H2]. rewrite <- app_assoc. simpl.
      constructor; [done|done|]. apply Forall_app. split; [done|]. constructor; [|done].
      intros k Hk. by rewrite Hfit in Hk.
    + apply Forall_app. split; [done|]. by constructor.
Qed.

(** Overload selection: when some overload of matching arity takes every
    column's type, the one chosen has the highest score and is the first
    advertised with that score; otherwise the call is left uncoerced for the
    worker to refuse, laid out after the first overload of matching arity, or
    after the first at all. *)
Theorem select_specs_best (u : Udf) types :
  match select_specs u types with
  | (s, true) => exists score, first_best types (overloads u) s score
  | (s, false) =>
      Forall (fun x => fit types x = None) (overloads u) /\
      s = default (first_overload u) (List.find (fun x => arity_matches x (length types)) (overloads u))
  end.
Proof.
  unfold select_specs.
  pose proof (select_from_spec types (overloads u) [] None None (Forall_nil_2 _) eq_refl) as H.
  destruct (select_from types (overloads u) None None) as [[[s score]|] fallback]; simpl in H.
  - exists score. apply H.
  - destruct H as [H1 ->]. by split.
Qed.

(** ** Untyped NULLs *)

Lemma resolve_lookup (s : Specs) types i ty :
  types !! i = Some ty ->
  exists ty', resolve_untyped_null_varargs s types !! i = Some ty' /\ (ty' = ty \/ ty = Null).
Proof.
  intros Hi. assert (exists ty', types !! i = Some ty' /\ (ty' = ty \/ ty = Null)) as Hsame by eauto.
  unfold resolve_untyped_null_varargs. destruct (varargs_position s) as [v|]; [|done].
  destruct (positional_specs s !! v) as [spec|]; [|done]. destruct (_ || _); [done|].
  destruct (List.filter _ _) as [|inferred concrete]; [done|]. destruct (existsb _ concrete); [done|].
  rewrite list_lookup_imap, Hi. simpl. eexists. split; [done|].
  destruct (v <=? i)%nat; simpl; [|auto]. destruct (decide (ty = Null)); [auto|].
  rewrite bool_decide_eq_false_2 by done. auto.
Qed.
Lemma resolve_length (s : Specs) types : length (resolve_untyped_null_varargs s types) = length types.
Proof.
  unfold resolve_untyped_null_varargs. destruct (varargs_position s) as [v|]; [|done].
  destruct (positional_specs s !! v) as [spec|]; [|done]. destruct (_ || _); [done|].
  destruct (List.filter _ _) as [|inferred concrete]; [done|]. destruct (existsb _ concrete); [done|].
  apply length_imap.
Qed.
(** Without untyped NULLs nothing is resolved. *)
Lemma resolve_typed (s : Specs) types : Null ∉ types -> resolve_untyped_null_varargs s types = types.
Proof.
  intros Hn. apply list_eq_same_length with (n := length types); [done|apply resolve_length|].
  intros i x y _ Hx Hy. destruct (resolve_lookup s types i y Hy) as (ty' & Hty & [-> | ->]); [congruence|].
  by apply list_elem_of_lookup_2 in Hy.
Qed.

(** ** Planning and execution *)

(** The constants of a call are literals, known to the planner. *)
Definition literal_constants (s : Specs) (args : list (ColumnarValue Arr)) (scalars : list (option ScalarValue)) : Prop :=
  length args = length scalars /\
  forall i, positional_is_const s i = true -> forall a, args !! i = Some a ->
            exists v, a = ScalarValueOf v /\ scalars !! i = Some (Some v).

Lemma invoked_planned (u : Udf) s c args scalars :
  literal_constants s args scalars ->
  result_collect (invoked_value u s c) (imap pair args) = result_collect (planned_value u s c) (imap pair scalars).
Proof.
  intros [Hl Hc]. 
  assert (forall k, length args = length scalars ->
            (forall i, positional_is_const s (k + i) = true -> forall a, args !! i = Some a ->
               exists v, a = ScalarValueOf v /\ scalars !! i = Some (Some v)) ->
            result_collect (invoked_value u s c) (imap (fun i a => ((k + i)%nat, a)) args)
            = result_collect (planned_value u s c) (imap (fun i a => ((k + i)%nat, a)) scalars)) as Hgen;
    [|by apply (Hgen 0%nat)].
  clear Hl Hc. revert scalars. induction args as [|a args IH]; intros [|v scalars] k Hl Hc; try done.
  rewrite !imap_cons. simpl. injection Hl as Hl.
  assert (invoked_value u s c ((k + 0)%nat, a) = planned_value u s c ((k + 0)%nat, v)) as ->.
  { unfold ScalarArgs.invoked_value, ScalarArgs.planned_value. simpl.
    destruct (positional_is_const s (k + 0)) eqn:Hk; [|done].
    destruct (Hc 0%nat Hk a eq_refl) as (w & -> & [= ->]). done. }
  rewrite (imap_ext _ (fun i a => ((S k + i)%nat, a)) args) by (intros; simpl; f_equal; lia).
  rewrite (imap_ext _ (fun i a => ((S k + i)%nat, a)) scalars) by (intros; simpl; f_equal; lia).
  rewrite (IH scalars (S k) Hl); [done|]. intros i Hi a' Ha.
  apply (Hc (S i)); [|exact Ha]. rewrite <- Hi. f_equal. lia.
Qed.

Lemma input_column_type (u : Udf) s c resolved rows i (a : ColumnarValue Arr) ty col :
  resolved !! i = Some ty -> ty = value_type a \/ value_type a = Null ->
  input_column u s c resolved rows (i, a) = Ok col -> arr_type col = sent_type s c i ty.
Proof.
  intros Hi Hty. unfold ScalarArgs.input_column. simpl.
  destruct (to_array a rows) as [arr|] eqn:Harr; simpl; [|done].
  assert (arr_type arr = value_type a) as Ha.
  { destruct a as [v|b]; simpl in *; [by eapply broadcast_type|by injection Harr as ->]. }
  assert (forall target, match (if bool_decide (arr_type arr = target) then Ok arr
              else map_err (fun e => Execution ("VGI scalar `" +:+ s_function u +:+ "` argument " +:+ pretty i
                                        +:+ " cannot be cast from " +:+ show_type (arr_type arr) +:+ " to "
                                        +:+ show_type target +:+ ": " +:+ show_error e)) (arr_cast arr target))
            with Ok r => arr_type r = target | Err _ => True end) as Hcast.
  { intros target. case_bool_decide as Heq; [done|].
    destruct (arr_cast arr target) as [r|] eqn:Hr; simpl; [|done]. by eapply cast_type. }
  set (own := match resolved !! i with
              | Some ty => if bool_decide (arr_type arr = Null) && negb (bool_decide (ty = Null))
                           then Some ty else None
              | None => None
              end).
  assert (match own with Some t => t = ty | None => arr_type arr = ty end) as Hown.
  { subst own. rewrite Hi, Ha. destruct Hty as [->|Hn].
    - by destruct (bool_decide (value_type a = Null)).
    - rewrite bool_decide_eq_true_2 by done. simpl. case_bool_decide as H1; simpl; congruence. }
  unfold column_target. fold own. unfold sent_type.
  destruct c; simpl.
  - destruct (positional_spec s i) as [spec|]; simpl.
    + destruct (bool_decide (spec_type spec = Null)); simpl.
      * destruct own as [t|]; [|by intros [= <-]]. subst t. specialize (Hcast ty). intros H. rewrite H in Hcast. done.
      * specialize (Hcast (spec_type spec)). intros H. rewrite H in Hcast. done.
    + destruct own as [t|]; [|by intros [= <-]]. subst t. specialize (Hcast ty). intros H. rewrite H in Hcast. done.
  - assert ((match positional_spec s i with Some _ => own | None => own end) = own) as -> by (by destruct (positional_spec s i)).
    destruct own as [t|]; [|by intros [= <-]]. subst t. specialize (Hcast ty). intros H. rewrite H in Hcast. done.
Qed.

(** The columns of a layout, from position [i] on. *)
Fixpoint sent_types (s : Specs) (c : bool) (i : nat) (types : list DataType) : list DataType :=
  match types with
  | [] => []
  | ty :: types =>
      if positional_is_const s i then sent_types s c (S i) types
      else sent_type s c i ty :: sent_types s c (S i) types
  end.
Definition column_fields (from : nat) (types : list DataType) : list Field :=
  imap (fun k ty => mkField ("col_" +:+ pretty (from + k)%nat) ty true []) types.

Lemma split_from_fields (s : Specs) (values : list (option (ArgValue Arr))) c types : forall i arguments columns,
  (split_from s values c i types arguments columns).2
    = columns ++ column_fields (length columns) (sent_types s c i types).
Proof.
  induction types as [|ty types IH]; intros i arguments columns; simpl; [by rewrite app_nil_r|].
  destruct (positional_is_const s i); [apply IH|]. rewrite IH, length_app, <- app_assoc. f_equal.
  unfold column_fields. rewrite imap_cons, Nat.add_0_r. simpl. f_equal. apply imap_ext. intros k ty' _.
  simpl. do 3 f_equal. lia.
Qed.

Lemma input_columns_types (u : Udf) s c resolved rows args : forall i types cols,
  length types = length args ->
  (forall k a ty, args !! k = Some a -> types !! k = Some ty ->
     resolved !! (i + k)%nat = Some ty /\ (ty = value_type a \/ value_type a = Null)) ->
  result_collect (input_column u s c resolved rows)
    (filter (fun p => positional_is_const s p.1 = false) (imap (fun k a => ((i + k)%nat, a)) args)) = Ok cols ->
  map arr_type cols = sent_types s c i types.
Proof.
  induction args as [|a args IH]; intros i [|ty types] cols Hl Hres; try done.
  { simpl. by intros [= <-]. }
  injection Hl as Hl. rewrite imap_cons, Nat.add_0_r.
  rewrite (imap_ext _ (fun k a => ((S i + k)%nat, a)) args) by (intros; simpl; f_equal; lia).
  assert (forall k a' ty', args !! k = Some a' -> types !! k = Some ty' ->
            resolved !! (S i + k)%nat = Some ty' /\ (ty' = value_type a' \/ value_type a' = Null)) as Hres'.
  { intros k a' ty' Ha Ht. replace (S i + k)%nat with (i + S k)%nat by lia. by apply (Hres (S k)). }
  cbn [sent_types]. rewrite filter_cons. simpl. destruct (positional_is_const s i) eqn:Hc.
  - rewrite decide_False by done. exact (IH (S i) types cols Hl Hres').
  - rewrite decide_True by done. cbn [result_collect].
    destruct (input_column u s c resolved rows (i, a)) as [col|] eqn:Hcol; [|done].
    destruct (result_collect _ (filter _ _)) as [cols'|] eqn:Hcols; [|done]. intros [= <-]. simpl. f_equal.
    + destruct (Hres 0%nat a ty eq_refl eq_refl) as [Hr Hty]. rewrite Nat.add_0_r in Hr.
      by apply (input_column_type u s c resolved rows i a).
    + exact (IH (S i) types cols' Hl Hres' Hcols).
Qed.

(** The planner and the call agree. When the types of untyped NULLs do not
    change which overload is chosen, what a call sends the worker is exactly what
    was bound while planning: the same constants in the same places, and columns
    of the names and types the plan was made for. So the return type the plan
    relies on is the one the worker resolved for this very call. *)
Theorem planned_layout_is_sent (u : Udf) args scalars rows p s c :
  let types := map value_type args in
  let resolved := resolve_untyped_null_varargs s types in
  select_specs u types = (s, c) -> select_specs u resolved = (s, c) ->
  literal_constants s args scalars ->
  prepare_call u args rows = Ok p ->
  exists values,
    result_collect (planned_value u s c) (imap pair scalars) = Ok values /\
    planned_bind u resolved values = (p_arguments p, p_fields p).
Proof.
  intros types resolved Hsel Hres Hlit.
  unfold ScalarArgs.prepare_call. fold types. rewrite Hsel. fold resolved.
  rewrite (invoked_planned u s c args scalars Hlit).
  destruct (result_collect _ (imap pair scalars)) as [values|] eqn:Hvalues; simpl; [|done].
  destruct (result_collect _ (filter _ _)) as [cols|] eqn:Hcols; simpl; [|done].
  destruct (try_new _ _ _); simpl; [|done]. intros [= <-]. exists values. split; [done|].
  unfold planned_bind. rewrite Hres. simpl.
  rewrite (surjective_pairing (split_arguments s resolved values c)). f_equal.
  unfold split_arguments. rewrite split_from_fields. simpl.
  assert (map arr_type cols = sent_types s c 0 resolved) as <-.
  { apply (input_columns_types u s c resolved rows args 0); [|clear Hcols|exact Hcols].
    - subst resolved. rewrite resolve_length. subst types. apply length_map.
    - intros k b ty Ha Hty. simpl. split; [done|]. assert (types !! k = Some (value_type b)) as Htk.
      { subst types. change (map value_type args !! k) with ((value_type <$> args) !! k).
        by rewrite list_lookup_fmap, Ha. }
      destruct (resolve_lookup s types k _ Htk) as (ty' & Hty' & Hor). fold resolved in Hty'.
      rewrite Hty in Hty'. injection Hty' as <-. done. }
  unfold column_fields. clear.
  assert (forall cs m, imap (fun k (ty : DataType) => mkField ("col_" +:+ pretty (m + k)%nat) ty true []) (map arr_type cs)
                  = imap (fun k (c : Arr) => mkField ("col_" +:+ pretty (m + k)%nat) (arr_type c) true []) cs) as Hmap.
  { induction cs as [|x cs IH]; intros m; [done|].
    change (map arr_type (x :: cs)) with (arr_type x :: map arr_type cs). rewrite !imap_cons. f_equal.
    etransitivity; [apply (imap_ext _ (fun k ty => mkField ("col_" +:+ pretty (S m + k)%nat) ty true []))|].
    - intros k ty _. simpl. do 3 f_equal. lia.
    - rewrite IH. apply imap_ext. intros k ty _. simpl. do 3 f_equal. lia. }
  apply (Hmap cols 0%nat).
Qed.

(** ** When the choice is stable *)

Lemma score_from_resolved (s : Specs) v spec types inferred : forall i score score',
  positional_specs s !! v = Some spec -> spec_type spec = Null -> spec_varargs spec = true ->
  List.find spec_varargs (positional_specs s) = Some spec -> length (positional_specs s) = S v ->
  is_Some (score_from s i types score)
  <-> is_Some (score_from s i (imap (fun k ty => if (v <=? i + k)%nat && bool_decide (ty = Null)
                                                 then inferred else ty) types) score').
Proof.
  induction types as [|ty types IH]; intros i score score' Hv Hn Hva Hfind Hlen; [by split|].
  rewrite imap_cons, Nat.add_0_r.
  rewrite (imap_ext _ (fun k ty => if (v <=? S i + k)%nat && bool_decide (ty = Null) then inferred else ty) types)
    by (intros; simpl; by rewrite Nat.add_succ_r).
  simpl. destruct (positional_spec s i) as [d|] eqn:Hd; [|by apply IH].
  assert (is_Some (scalar_type_score ty (spec_type d))
          <-> is_Some (scalar_type_score (if (v <=? i)%nat && bool_decide (ty = Null) then inferred else ty)
                         (spec_type d))) as Hscore.
  { destruct (v <=? i)%nat eqn:Hle; simpl; [|done]. apply Nat.leb_le in Hle.
    case_bool_decide as Hty; [|done].
    assert (d = spec) as ->.
    { unfold positional_spec in Hd. destruct (decide (i = v)) as [->|Hne]; [rewrite Hv in Hd; congruence|].
      rewrite (proj2 (lookup_ge_None _ _)) in Hd by lia. congruence. }
    rewrite Hn. unfold scalar_type_score. rewrite Hty.
    split; intros _; repeat case_bool_decide; simpl; by eauto. }
  destruct (scalar_type_score ty _) as [k1|], (scalar_type_score _ (spec_type d)) as [k2|]; try by apply IH.
  - exfalso. destruct Hscore as [Hs _]. by destruct Hs.
  - exfalso. destruct Hscore as [_ Hs]. by destruct Hs.
  - destruct (spec_const d); [by apply IH|done].
Qed.

(** One overload with its variadic parameter last, as most functions have. *)
Lemma single_overload_stable (u : Udf) types :
  other_overloads u = [] ->
  (forall v, varargs_position (first_overload u) = Some v ->
     length (positional_specs (first_overload u)) = S v) ->
  let '(s, c) := select_specs u types in
  select_specs u (resolve_untyped_null_varargs s types) = (s, c).
Proof.
  intros Hone Hlast. unfold select_specs, overloads. rewrite Hone. simpl.
  set (s0 := first_overload u) in *.
  assert (forall ts, (match (if arity_matches s0 (length ts)
             then match score_from s0 0 ts 0 with Some score => Some (s0, score) | None => None end else None)
           with Some (s, _) => (s, true) | None => (s0, false) end)
          = (s0, bool_decide (is_Some (fit ts s0)))) as Hsel.
  { intros ts. unfold fit. destruct (arity_matches s0 (length ts)); [|by rewrite bool_decide_eq_false_2 by by intros []].
    destruct (score_from s0 0 ts 0) as [k|];
      [by rewrite bool_decide_eq_true_2 by eauto|by rewrite bool_decide_eq_false_2 by by intros []]. }
  assert (forall ts, (let '(best, fallback) :=
             if arity_matches s0 (length ts)
             then (match score_from s0 0 ts 0 with Some score => Some (s0, score) | None => None end, Some s0)
             else (None, None) in
           match best with Some (s, _) => (s, true) | None => (default s0 fallback, false) end)
          = (s0, bool_decide (is_Some (fit ts s0)))) as Hsel'.
  { intros ts. rewrite <- Hsel. destruct (arity_matches s0 (length ts)); [|done]. by destruct (score_from s0 0 ts 0). }
  rewrite Hsel', Hsel'. f_equal. apply bool_decide_ext. clear Hsel Hsel'. unfold fit.
  rewrite resolve_length. destruct (arity_matches s0 (length types)); [|done].
  unfold resolve_untyped_null_varargs. destruct (varargs_position s0) as [v|] eqn:Hv; [|done].
  destruct (positional_specs s0 !! v) as [spec|] eqn:Hs; [|done]. destruct (_ || _) eqn:Hor; [done|].
  apply orb_false_iff in Hor as [Hn _]. apply negb_false_iff, bool_decide_eq_true in Hn.
  destruct (List.filter _ _) as [|inferred concrete]; [done|]. destruct (existsb _ concrete); [done|].
  assert (spec_varargs spec = true /\ List.find spec_varargs (positional_specs s0) = Some spec) as [Hva Hfind].
  { unfold varargs_position in Hv. clear - Hv Hs. revert v Hv Hs.
    induction (positional_specs s0) as [|d l IH]; intros v; simpl; [done|].
    destruct (spec_varargs d) eqn:Hd; [intros [= <-] [= ->]; done|].
    destruct (position spec_varargs l) as [k|]; simpl; [|done]. intros [= <-]. simpl. by apply IH. }
  symmetry. exact (score_from_resolved s0 v spec types inferred 0 0 0 Hs Hn Hva Hfind (Hlast v eq_refl)).
Qed.
End Theorems.

(** ** At concrete inputs *)

Section Concrete.
#[local] Existing Instance list_arrays.
#[local] Existing Instance list_specs.

Definition col (ty : DataType) : ArgSpec := mkSpec "c" ty false false.
Definition const (ty : DataType) : ArgSpec := mkSpec "k" ty false true.
Definition rest (ty : DataType) : ArgSpec := mkSpec "r" ty true false.
Definition udf (l : list (list ArgSpec)) : VgiScalarUdf :=
  discovered_overloads_with_volatility [] "c" "s" "f" "f" l Immutable.
Definition i64 (z : Z) : ScalarValue := SVPrim Int64 (Some (PInt z)).
Definition always (fs : list Field) (cols : list ListArray) (n : nat) : result unit := Ok tt.

(** A constant and a column: [f('5', x)] binds the constant as an Int64. *)
Lemma planned_layout_is_sent_witness :
  exists values,
    result_collect (planned_value (fun _ => "t") (fun _ => "e") (udf [[const Int64; col Int64]]) [const Int64; col Int64] true)
      [(0%nat, Some (SVPrim Utf8 (Some (PString "5")))); (1%nat, None)] = Ok values /\
    planned_bind (udf [[const Int64; col Int64]]) [Utf8; Int64] values
    = (mkArguments [ArrowArg (Int64, [SVPrim Int64 (Some (PString "5"))])] [], [mkField "col_0" Int64 true []]).
Proof.
  destruct (planned_layout_is_sent (fun _ => "t") (fun _ => "e") always (udf [[const Int64; col Int64]])
           [ScalarValueOf (SVPrim Utf8 (Some (PString "5"))); ArrayOf (Int64, [i64 1; i64 2])]
           [Some (SVPrim Utf8 (Some (PString "5"))); None] 2
           (mkPrepared (mkArguments [ArrowArg (Int64, [SVPrim Int64 (Some (PString "5"))])] [])
              [mkField "col_0" Int64 true []] [(Int64, [i64 1; i64 2])] 2) [const Int64; col Int64] true)
    as (values & H1 & H2).
  - vm_compute. reflexivity.
  - vm_compute. reflexivity.
  - split; [done|]. intros [|[|i]] Hc a Ha; simpl in *; [|done|done]. injection Ha as <-. eauto.
  - vm_compute. reflexivity.
  - exists values. split; [exact H1|exact H2].
Defined.

(** Two overloads whose constants differ: the call [f(x, NULL, y)] is laid out
    after the variadic one, three columns; but with the NULL typed, the planner's
    bind chooses the other, whose first parameter is a constant. *)
Definition first_const : list ArgSpec := [const Null; col Int64; col Null].
Definition variadic : list ArgSpec := [col Int32; rest Null].
Lemma planning_layout_differs :
  let u := udf [first_const; variadic] in
  let args := [ArrayOf (Int32, []); ScalarValueOf (SVPrim Null None); ArrayOf (Int64, [])] in
  let types := map value_type args in
  let resolved := resolve_untyped_null_varargs variadic types in
  select_specs u types = (variadic, true) /\
  (planned_bind u resolved [] : BindArguments ListArray * _)
    = (mkArguments [NullArg Int32] [],
       [mkField "col_0" Int64 true []; mkField "col_1" Int64 true []]) /\
  exists p, prepare_call (fun _ => "t") (fun _ => "e") always u args 0 = Ok p
    /\ p_arguments p = mkArguments [] []
    /\ map field_type (p_fields p) = [Int32; Int64; Int64].
Proof.
  split; [vm_compute; reflexivity|]. split; [vm_compute; reflexivity|].
  eexists. split; [vm_compute; reflexivity|]. split; reflexivity.
Qed.
End Concrete.
