(* ===== verification/TableStream.v ===== *)
(** * Streaming table-input calls

    [VgiLimitedTableInputExec] of table_input_stream.rs runs an exchange under a
    pushed limit while its input is still being produced: a task drives the
    child, a blocking thread talks to the worker, and channels of two batches on
    either side of the thread hold both back. The three parties are a step
    relation on [Stream]. Also the two providers of table_input.rs that choose
    between this node and the calls of [Exchange] and [Buffered]. *)

From S2P Require Import Prelude Splits Runtime ScanShape.

Section Stream.
Context {DataType Meta Column Args : Type} `{EqDecision DataType, EqDecision Meta}.
Abbreviation Schema := (@Schema DataType Meta).
Abbreviation Batch := (@RecordBatch DataType Meta Column).

(** Arrow: [RecordBatch::try_new] without and with a row count, [project] and
    [slice(0, n)] of a batch, [Schema::project]. *)
Variable rebuild : Schema -> list Column -> result Batch.
Variable try_new : Schema -> list Column -> nat -> result Batch.
Variable project : Batch -> list nat -> result Batch.
Variable slice : Batch -> nat -> Batch.
Variable project_schema : Schema -> list nat -> result Schema.

(** The child plan as it will behave: per output partition, whether it starts,
    and the items of its stream. *)
Abbreviation ChildPlan := (list (result (list (result Batch)))).

(** A worker's side of one exchange: opening it (connection, attachment, bind
    and [open_exchange] with a row limit), its answer to an input after the
    inputs before, and closing it. *)
Record Worker := mkWorker {
  w_open : option Z -> result unit;
  w_send : list Batch -> Batch -> result (option Batch);
  w_close : list Batch -> result unit;
}.

(** ** The node *)

Record VgiLimitedTableInputExec := mkExec {
  e_function : string; e_arguments : Args; e_input : ChildPlan;
  e_input_schema : Schema; e_worker_schema : Schema;
  e_projection : option (list nat); e_limit : nat;
  e_schema : Schema; e_partitions : nat; e_bounded : bool;
}.
Definition try_new_exec (function : string) (arguments : Args) (input : ChildPlan)
    (input_schema worker_schema : Schema) (projection : option (list nat)) (limit : nat)
    : result VgiLimitedTableInputExec :=
  schema ← match projection with Some p => project_schema worker_schema p | None => Ok worker_schema end;
  Ok (mkExec function arguments input input_schema worker_schema projection limit schema 1 true).
Definition with_input (e : VgiLimitedTableInputExec) (input : ChildPlan) : result VgiLimitedTableInputExec :=
  try_new_exec (e_function e) (e_arguments e) input (e_input_schema e) (e_worker_schema e) (e_projection e) (e_limit e).
Definition replace_children (e : VgiLimitedTableInputExec) (children : list ChildPlan)
    : result VgiLimitedTableInputExec :=
  match children with
  | [input] => with_input e input
  | _ => Err (Internal ("VgiLimitedTableInputExec expected one child, got " +:+ pretty (length children)))
  end.

(** ** One running stream *)

(** The task that drives the child: not spawned; about to execute the next
    partition; polling a partition's stream; about to send an item (with what it
    does next, nothing after an error); returned. *)
Inductive Child :=
  | Waiting
  | Execute (rest : ChildPlan)
  | Streaming (items : list (result Batch)) (rest : ChildPlan)
  | Sending (item : result Batch) (next : option (list (result Batch) * ChildPlan))
  | ChildDone.
(** The thread: not spawned; opening the exchange; waiting for input after the
    inputs [sent] and [emitted] rows; about to send an answer; about to report an
    error; returned. *)
Inductive Thread :=
  | NotSpawned
  | Opening
  | Receiving (sent : list Batch) (emitted : nat)
  | Emitting (b : Batch) (sent : list Batch) (emitted : nat)
  | Failing (e : DFError)
  | ThreadDone.
(** Who polls the stream: still interested, told of the end, or gone. *)
Inductive Consumer := Polling | Ended | Dropped.
#[global] Instance Consumer_eq_dec : EqDecision Consumer.
Proof. solve_decision. Defined.

(** The events of one call: that it is not cached, as a part of an exchange, and
    each input written to the worker with its rows. *)
Inductive Event := Ineligible (reason : CacheIneligibleReason) | WriteInput (input_rows : nat).

Record Stream := mkStream {
  child : Child;
  inputs : list (result Batch);
  thread : Thread;
  outputs : list (result Batch);
  consumer : Consumer;
  received : list (result Batch);
  events : list Event;
}.

(** Both channels hold two batches. *)
Definition capacity : nat := 2.

Section Running.
Variable e : VgiLimitedTableInputExec.
Variable w : Worker.

Definition worker_limit : option Z :=
  if (Z.of_nat (e_limit e) <=? i64_max)%Z then Some (Z.of_nat (e_limit e)) else None.

(** [execute]: the call is noted as ineligible for the cache; nothing else runs
    until the stream is polled, and nothing at all under a limit of zero. *)
Definition execute (partition : nat) : result Stream :=
  if (partition =? 0)%nat then
    if (e_limit e =? 0)%nat then Ok (mkStream ChildDone [] ThreadDone [] Polling [] [Ineligible PartialExchange])
    else Ok (mkStream Waiting [] NotSpawned [] Polling [] [Ineligible PartialExchange])
  else Err (Internal ("VgiLimitedTableInputExec has one output partition, requested " +:+ pretty partition)).

(** The body of the thread's loop for one input: what the worker was sent, and
    the batch to emit. *)
Definition truncate (remaining : nat) (b : Batch) : Batch :=
  if (remaining <? num_rows b)%nat then slice b remaining else b.
Definition answer (sent : list Batch) (input : result Batch) : result (Batch * option Batch) :=
  input ← input;
  input ← rebuild (e_input_schema e) (columns input);
  answer ← w_send w sent input;
  match answer with
  | None => Ok (input, None)
  | Some b =>
      b ← conform try_new b (e_worker_schema e) None;
      b ← match e_projection e with Some p => project b p | None => Ok b end;
      Ok (input, Some b)
  end.
(** [emit_table_input_write], once the worker has answered. *)
Definition written (sent : list Batch) (input : result Batch) : list Event :=
  match input with
  | Ok input =>
      match rebuild (e_input_schema e) (columns input) with
      | Ok input => match w_send w sent input with Ok _ => [WriteInput (num_rows input)] | Err _ => [] end
      | Err _ => []
      end
  | Err _ => []
  end.
Definition respond (sent : list Batch) (emitted : nat) (input : result Batch) : result (Batch * option Batch) :=
  match answer sent input with
  | Err error => Err error
  | Ok (input, output) => Ok (input, truncate (e_limit e - emitted) <$> output)
  end.
Definition after_response (sent : list Batch) (emitted : nat) (r : result (Batch * option Batch)) : Thread :=
  match r with
  | Err error => Failing error
  | Ok (input, None) => Receiving (sent ++ [input]) emitted
  | Ok (input, Some b) => Emitting b (sent ++ [input]) (emitted + num_rows b)
  end.
(** The state after an item was sent. *)
Definition after_send (next : option (list (result Batch) * ChildPlan)) : Child :=
  match next with Some (items, rest) => Streaming items rest | None => ChildDone end.
Definition next_after (item : result Batch) (items : list (result Batch)) (rest : ChildPlan)
    : option (list (result Batch) * ChildPlan) :=
  match item with Ok _ => Some (items, rest) | Err _ => None end.

Inductive step : Stream -> Stream -> Prop :=
  (** the first poll spawns both *)
  | step_start r v :
      step (mkStream Waiting [] NotSpawned [] Polling r v) (mkStream (Execute (e_input e)) [] Opening [] Polling r v)
  (** the child task *)
  | step_execute items rest i t o c r v :
      step (mkStream (Execute (Ok items :: rest)) i t o c r v) (mkStream (Streaming items rest) i t o c r v)
  | step_execute_failed error rest i t o c r v :
      step (mkStream (Execute (Err error :: rest)) i t o c r v) (mkStream (Sending (Err error) None) i t o c r v)
  | step_child_returns i t o c r v : step (mkStream (Execute []) i t o c r v) (mkStream ChildDone i t o c r v)
  | step_item item items rest i t o c r v :
      step (mkStream (Streaming (item :: items) rest) i t o c r v)
        (mkStream (Sending item (next_after item items rest)) i t o c r v)
  | step_partition_ends rest i t o c r v :
      step (mkStream (Streaming [] rest) i t o c r v) (mkStream (Execute rest) i t o c r v)
  | step_child_sends item next i t o c r v :
      t <> ThreadDone -> (length i < capacity)%nat ->
      step (mkStream (Sending item next) i t o c r v) (mkStream (after_send next) (i ++ [item]) t o c r v)
  | step_child_closed item next i o c r v :
      step (mkStream (Sending item next) i ThreadDone o c r v) (mkStream ChildDone i ThreadDone o c r v)
  (** the worker thread *)
  | step_open ch i o c r v :
      step (mkStream ch i Opening o c r v)
        (mkStream ch i (match w_open w worker_limit with Ok _ => Receiving [] 0 | Err error => Failing error end) o c r v)
  | step_receive ch item i sent n o c r v :
      step (mkStream ch (item :: i) (Receiving sent n) o c r v)
        (mkStream ch i (after_response sent n (respond sent n item)) o c r (v ++ written sent item))
  | step_close sent n o c r v :
      step (mkStream ChildDone [] (Receiving sent n) o c r v)
        (mkStream ChildDone [] (match w_close w sent with Ok _ => ThreadDone | Err error => Failing error end) o c r v)
  | step_emit ch i b sent n o c r v :
      c <> Dropped -> (length o < capacity)%nat ->
      step (mkStream ch i (Emitting b sent n) o c r v)
        (mkStream ch i (if (e_limit e <=? n)%nat then ThreadDone else Receiving sent n) (o ++ [Ok b]) c r v)
  | step_emit_closed ch i b sent n o r v :
      step (mkStream ch i (Emitting b sent n) o Dropped r v) (mkStream ch i ThreadDone o Dropped r v)
  | step_fail ch i error o c r v :
      c <> Dropped -> (length o < capacity)%nat ->
      step (mkStream ch i (Failing error) o c r v) (mkStream ch i ThreadDone (o ++ [Err error]) c r v)
  | step_fail_closed ch i error o r v :
      step (mkStream ch i (Failing error) o Dropped r v) (mkStream ch i ThreadDone o Dropped r v)
  (** the consumer *)
  | step_poll ch i t item o r v :
      step (mkStream ch i t (item :: o) Polling r v) (mkStream ch i t o Polling (r ++ [item]) v)
  | step_end ch i r v : step (mkStream ch i ThreadDone [] Polling r v) (mkStream ch i ThreadDone [] Ended r v)
  | step_drop ch i t o r v : step (mkStream ch i t o Polling r v) (mkStream ch i t o Dropped r v).

(** A panic of the spawned thread or task: the runtime catches it and drops what
    the closure held, its ends of the channels included. Nobody joins the
    handles. *)
Inductive panics : Stream -> Stream -> Prop :=
  | thread_panics ch i t o c r v : t <> NotSpawned -> panics (mkStream ch i t o c r v) (mkStream ch i ThreadDone o c r v)
  | child_panics ch i t o c r v : ch <> Waiting -> panics (mkStream ch i t o c r v) (mkStream ChildDone i t o c r v).

Inductive reachable : Stream -> Prop :=
  | reachable_execute s : execute 0 = Ok s -> reachable s
  | reachable_step s s' : reachable s -> step s s' -> reachable s'.
End Running.

(** ** The providers of table_input.rs *)

Record VgiTableInputProvider := mkProvider {
  t_function : string; t_arguments : Args;
  t_input_schema : Schema; t_output_schema : Schema;
  t_buffered : bool; t_sink_order_dependent : bool; t_stream_cache_eligible : bool;
}.
(** The whole-input calls, [run_buffered] and [run_exchange], by their
    outcome on given inputs: the programs of [Buffered] and [Exchange]. *)
Inductive WholeCall := RunBuffered (sink_order_dependent : bool) | RunExchange (ineligible : option CacheIneligibleReason).
Variable run_call : WholeCall -> Args -> list Batch -> result (list Batch).
(** Connecting, attaching and binding a call to the schema of its input: the
    worker's output schema. *)
Variable bind_output : string -> Args -> Schema -> result Schema.
(** Whether [MemorySourceConfig::try_new_exec] takes batches, schema and
    projection. *)
Variable memory_exec : list Batch -> Schema -> option (list nat) -> result unit.

(** What a scan plans: the streaming node, or the finished result in memory
    under a projection. *)
Inductive ScanNode :=
  | Limited (e : VgiLimitedTableInputExec)
  | InMemory (batches : list Batch) (schema : Schema) (projection : option (list nat)).
Definition try_new_memory (batches : list Batch) (schema : Schema) (projection : option (list nat)) : result ScanNode :=
  _ ← memory_exec batches schema projection;
  Ok (InMemory batches schema projection).

Definition bind_table_input (function : string) (arguments : Args) (input_schema : Schema)
    (buffered sink_order_dependent stream_cache_eligible : bool) : result VgiTableInputProvider :=
  output_schema ← bind_output function arguments input_schema;
  Ok (mkProvider function arguments input_schema output_schema buffered sink_order_dependent stream_cache_eligible).

Definition collect_child (plan : ChildPlan) : result (list Batch) :=
  inputs ← result_collect (B := list Batch) (fun p => items ← p; result_collect id items) plan;
  Ok (mjoin (M := list) inputs).
(** [physical_plan] is the session's plan of the subquery. *)
Definition scan (p : VgiTableInputProvider) (physical_plan : result ChildPlan) (projection : option (list nat))
    (limit : option nat) : result ScanNode :=
  plan ← physical_plan;
  match t_buffered p, limit with
  | false, Some limit =>
      e ← try_new_exec (t_function p) (t_arguments p) plan (t_input_schema p) (t_output_schema p) projection limit;
      Ok (Limited e)
  | _, _ =>
      inputs ← collect_child plan;
      inputs ← result_collect (fun b => rebuild (t_input_schema p) (columns b)) inputs;
      out ← run_call (if t_buffered p then RunBuffered (t_sink_order_dependent p)
                      else RunExchange (if t_stream_cache_eligible p then None else Some StatefulExchange))
              (t_arguments p) inputs;
      out ← result_collect (fun b => conform try_new b (t_output_schema p) None) out;
      try_new_memory out (t_output_schema p) projection
  end.

(** [VgiLiteralInputProvider]: one input row, bound when the call was planned. *)
Record VgiLiteralInputProvider := mkLiteral {
  l_function : string; l_arguments : Args; l_input_schema : Schema; l_input : Batch; l_output_schema : Schema;
}.
Definition bind_literal_input (function : string) (arguments : Args) (input_schema : Schema) (input : Batch)
    : result VgiLiteralInputProvider :=
  output_schema ← bind_output function arguments input_schema;
  Ok (mkLiteral function arguments input_schema input output_schema).
Definition literal_scan (p : VgiLiteralInputProvider) (projection : option (list nat)) : result ScanNode :=
  out ← run_call (RunExchange (Some LiteralInput)) (l_arguments p) [l_input p];
  out ← result_collect (fun b => conform try_new b (l_output_schema p) None) out;
  try_new_memory out (l_output_schema p) projection.
End Stream.
