(* ===== verification/TableStreamTheorems.v ===== *)
(** * Theorems on streaming table-input calls

    Whatever the interleaving of child, thread and consumer: the stream is the
    sequential exchange, cut at the limit; it ends; nobody waits for anybody
    forever; and little is read ahead. *)

From S2P Require Import Prelude Splits Runtime ScanShape TableStream.

Section Theorems.
Context {DataType Meta Column Args : Type} `{EqDecision DataType, EqDecision Meta}.
Abbreviation Schema := (@Schema DataType Meta).
Abbreviation Batch := (@RecordBatch DataType Meta Column).
Abbreviation ChildPlan := (list (result (list (result Batch)))).
Abbreviation Stream := (@Stream DataType Meta Column).
Variable rebuild : Schema -> list Column -> result Batch.
Variable try_new : Schema -> list Column -> nat -> result Batch.
Variable project : Batch -> list nat -> result Batch.
Variable slice : Batch -> nat -> Batch.
Variable e : @VgiLimitedTableInputExec DataType Meta Column Args.
Variable w : @Worker DataType Meta Column.
Abbreviation step := (step rebuild try_new project slice e w).
Abbreviation reachable := (reachable rebuild try_new project slice e w).
Abbreviation respond := (respond rebuild try_new project slice e w).
Abbreviation answer := (answer rebuild try_new project e w).

(** ** The sequential exchange *)

(** The items the child's task sends: partition after partition, up to the
    first error. *)
Fixpoint partition_items (items rest : list (result Batch)) : list (result Batch) :=
  match items with
  | [] => rest
  | Ok b :: items => Ok b :: partition_items items rest
  | Err error :: _ => [Err error]
  end.
Fixpoint child_items (plan : ChildPlan) : list (result Batch) :=
  match plan with
  | [] => []
  | Err error :: _ => [Err error]
  | Ok items :: rest => partition_items items (child_items rest)
  end.
(** One input after the other, until the limit is reached, an error, or the
    end. *)
Fixpoint exchange (sent : list Batch) (emitted : nat) (items : list (result Batch)) : list (result Batch) :=
  match items with
  | [] => match w_close w sent with Ok _ => [] | Err error => [Err error] end
  | item :: items =>
      match respond sent emitted item with
      | Err error => [Err error]
      | Ok (input, None) => exchange (sent ++ [input]) emitted items
      | Ok (input, Some b) =>
          Ok b :: (if (e_limit e <=? emitted + num_rows b)%nat then []
                   else exchange (sent ++ [input]) (emitted + num_rows b) items)
      end
  end.
Definition sequential : list (result Batch) :=
  if (e_limit e =? 0)%nat then []
  else match w_open w (worker_limit e) with
       | Err error => [Err error]
       | Ok _ => exchange [] 0 (child_items (e_input e))
       end.

(** ** What is still to come *)

Definition upcoming (c : @Child DataType Meta Column) : list (result Batch) :=
  match c with
  | Waiting => child_items (e_input e)
  | Execute rest => child_items rest
  | Streaming items rest => partition_items items (child_items rest)
  | Sending item next =>
      item :: match next with Some (items, rest) => partition_items items (child_items rest) | None => [] end
  | ChildDone => []
  end.
Definition to_come (t : @Thread DataType Meta Column) (items : list (result Batch)) : list (result Batch) :=
  match t with
  | NotSpawned | Opening =>
      match w_open w (worker_limit e) with Err error => [Err error] | Ok _ => exchange [] 0 items end
  | Receiving sent n => exchange sent n items
  | Emitting b sent n => Ok b :: (if (e_limit e <=? n)%nat then [] else exchange sent n items)
  | Failing error => [Err error]
  | ThreadDone => []
  end.
Definition pending (s : Stream) : list (result Batch) :=
  to_come (thread s) (inputs s ++ upcoming (child s)).

(** What is noted of a call whose worker was sent [sent]. *)
Definition noted (sent : list Batch) : list Event :=
  Ineligible PartialExchange :: map (fun b => WriteInput (num_rows b)) sent.
(** The parties start together, and the end is only told when the thread is
    done and the channel empty. *)
Definition consistent (s : Stream) : Prop :=
  (child s = Waiting <-> thread s = NotSpawned) /\
  (thread s = NotSpawned -> inputs s = [] /\ outputs s = []) /\
  (consumer s = Ended -> thread s = ThreadDone /\ outputs s = []) /\
  (length (inputs s) <= capacity)%nat /\ (length (outputs s) <= capacity)%nat /\
  match thread s with
  | NotSpawned | Opening => events s = [Ineligible PartialExchange]
  | Receiving sent _ | Emitting _ sent _ => events s = noted sent
  | Failing _ | ThreadDone => exists sent, events s = noted sent
  end.
(** The stream so far and to come is the sequential exchange; a consumer that
    is gone has seen a part. *)
Definition on_track (s : Stream) : Prop :=
  match consumer s with
  | Dropped => received s `prefix_of` sequential
  | _ => received s ++ outputs s ++ pending s = sequential
  end.

Lemma upcoming_item item items rest :
  upcoming (Streaming (item :: items) rest) = upcoming (Sending item (next_after item items rest)).
Proof. by destruct item. Qed.
Lemma upcoming_send item next : upcoming (Sending item next) = item :: upcoming (after_send next).
Proof. by destruct next as [[]|]. Qed.

(** Unfolds the cases of a step: what the worker answers, and what the child
    does after sending. *)
Ltac step_cases :=
  repeat match goal with
         | |- context [match w_open w ?l with _ => _ end] => destruct (w_open w l)
         | |- context [match w_close w ?l with _ => _ end] => destruct (w_close w l)
         | |- context [after_response _ _ (respond ?a ?b ?i)] => destruct (respond a b i) as [[? [?|]]|]
         | next : option (_ * _) |- context [after_send ?next] => destruct next as [[? ?]|]
         | |- context [if ?b then _ else _] => destruct b
         end; cbn in *.

Lemma written_cases sent n item :
  match respond sent n item with
  | Ok (input, _) => noted sent ++ written rebuild e w sent item = noted (sent ++ [input])
  | Err _ => exists sent', noted sent ++ written rebuild e w sent item = noted sent'
  end.
Proof.
  unfold TableStream.respond, TableStream.answer, written, noted. destruct item as [b|]; cbn.
  - destruct (rebuild _ _) as [b'|]; cbn; [|exists sent; by rewrite app_nil_r].
    destruct (w_send w sent b') as [[out|]|]; cbn; [| |exists sent; by rewrite app_nil_r].
    + destruct (conform _ _ _ _); cbn; [|exists (sent ++ [b']); by rewrite map_app].
      destruct (match e_projection e with Some _ => _ | None => _ end); cbn;
        [by rewrite map_app|exists (sent ++ [b']); by rewrite map_app].
    + by rewrite map_app.
  - exists sent. by rewrite app_nil_r.
Qed.
Lemma step_consistent s s' : consistent s -> step s s' -> consistent s'.
Proof.
  intros Hc Hs. revert Hc. destruct Hs; intros (H1 & H2 & H3 & H4 & H5 & H6); unfold consistent;
    cbn [consumer received outputs inputs child thread events] in *; rewrite ?length_app;
    cbn [length] in *; try (pose proof (written_cases sent n item) as Hw; revert Hw; rewrite H6);
    step_cases; intros; split_and!; try done; try lia; try (by eexists; eauto).
  all: try (split; intros ?; done); try (intros ?; split; done); try (by exists []).
  all: clear H6; try (by destruct t as [| | | | |]; naive_solver); naive_solver.
Qed.
(** The thread's next move takes its items, or emits, from what is to come. *)
Lemma receive_to_come sent n item items :
  to_come (Receiving sent n) (item :: items) = to_come (after_response sent n (respond sent n item)) items.
Proof. cbn. by destruct (respond sent n item) as [[? [?|]]|]. Qed.

(** No step changes the stream so far and to come. *)
Lemma step_future s s' :
  step s s' -> consumer s' <> Dropped ->
  received s' ++ outputs s' ++ pending s' = received s ++ outputs s ++ pending s.
Proof.
  unfold pending. intros [] Hd; cbn [consumer received outputs inputs child thread] in *; try done;
    rewrite ?upcoming_item, ?upcoming_send, <- ?receive_to_come, <- ?(assoc_L (++)); try done.
  all: do 2 f_equal; cbn; step_cases; done.
Qed.
Lemma step_on_track s s' : on_track s -> step s s' -> on_track s'.
Proof.
  intros Ht Hs. unfold on_track in *.
  pose proof (step_future s s' Hs) as Hf. revert Ht Hf.
  destruct Hs; cbn [consumer]; intros Ht Hf;
    try (destruct c; [..|exact Ht]); try (by rewrite Hf); try exact Ht.
  rewrite <- Ht. cbn. by eexists.
Qed.

Lemma reachable_consistent s : reachable s -> consistent s /\ on_track s.
Proof.
  induction 1 as [s Hs|s s' _ [Hc Ht] Hs].
  - unfold execute, on_track, sequential in *. cbn in Hs.
    destruct (e_limit e =? 0)%nat; injection Hs as <-; cbn; unfold consistent; cbn;
      (split; [split_and!; try done; try lia; try (by exists [])|done]).
  - split; [by eapply step_consistent|by eapply step_on_track].
Qed.

(** ** The steps end *)

Definition item_work : nat := 8.
Definition partition_work (p : result (list (result Batch))) : nat :=
  match p with Ok items => 2 + item_work * length items | Err _ => 9 end.
Definition plan_work (plan : ChildPlan) : nat := sum_list_with partition_work plan.
Definition next_work (next : option (list (result Batch) * ChildPlan)) : nat :=
  match next with Some (items, rest) => item_work * length items + plan_work rest + 2 | None => 0 end.
Definition child_work (c : @Child DataType Meta Column) : nat :=
  match c with
  | Waiting => plan_work (e_input e) + 2
  | Execute rest => plan_work rest + 1
  | Streaming items rest => next_work (Some (items, rest))
  | Sending _ next => 7 + next_work next
  | ChildDone => 0
  end.
Definition thread_work (t : @Thread DataType Meta Column) : nat :=
  match t with
  | NotSpawned => 5 | Opening => 4 | Receiving _ _ => 3 | Emitting _ _ _ => 5 | Failing _ => 2 | ThreadDone => 0
  end.
Definition work (s : Stream) : nat :=
  child_work (child s) + 6 * length (inputs s) + thread_work (thread s) + length (outputs s)
    + match consumer s with Polling => 2 | _ => 0 end.

Lemma step_work s s' : step s s' -> (work s' < work s)%nat.
Proof.
  unfold work, child_work, plan_work. intros []; cbn [consumer received outputs inputs child thread] in *;
    rewrite ?length_app; cbn [length]; step_cases; unfold item_work, plan_work in *; try lia.
  destruct item; cbn; unfold item_work, plan_work; lia.
Qed.
Lemma steps_work n s s' : nsteps step n s s' -> (n + work s' <= work s)%nat.
Proof. induction 1 as [s|n s s' s'' Hs _ IH]; [lia|]. apply step_work in Hs. lia. Qed.

(** ** Somebody can move *)

(** Both parties have returned, or never started; the consumer knows. *)
Definition settled (s : Stream) : Prop :=
  consumer s <> Polling /\
  (child s = ChildDone /\ thread s = ThreadDone \/ child s = Waiting /\ thread s = NotSpawned).
(** A step that is not the consumer losing interest. *)
Definition moves (s : Stream) : Prop := exists s', step s s' /\ (consumer s' = Dropped -> consumer s = Dropped).

Ltac move_by H := right; eexists; split; [by eapply H; cbn; unfold capacity; try done; try lia|done].

Lemma child_moves (c : @Child DataType Meta Column) i t o co r v :
  c <> Waiting -> t = ThreadDone \/ (length i < capacity)%nat ->
  c = ChildDone \/ moves (mkStream c i t o co r v).
Proof.
  intros Hw Ht. destruct c as [|[|[items|error] rest]|[|item items] rest|item next|]; [done|..].
  - move_by @step_child_returns.
  - move_by @step_execute.
  - move_by @step_execute_failed.
  - move_by @step_partition_ends.
  - move_by @step_item.
  - destruct Ht as [->|Ht]; [move_by @step_child_closed|].
    destruct t; try move_by @step_child_sends. move_by @step_child_closed.
  - by left.
Qed.

Lemma undropped_moves s : consistent s -> settled s \/ moves s.
Proof.
  destruct s as [ch i t o co r v]. intros (H1 & H2 & H3 & H4 & H5 & H6). cbn in *.
  destruct (decide (co = Polling)) as [->|Hco].
  - (* the consumer polls: it takes, is told of the end, or the thread moves *)
    destruct o as [|item o]; [|move_by @step_poll].
    destruct t as [| |sent n|b sent n|error|].
    + destruct H1 as [_ ->]; [|done]. destruct (H2 eq_refl) as [-> _]. move_by @step_start.
    + move_by @step_open.
    + destruct i as [|item i]; [|move_by @step_receive].
      destruct (child_moves ch [] (Receiving sent n) [] Polling r v) as [->|?]; [naive_solver|right; cbn; unfold capacity; lia|..];
        [by move_by @step_close|by right].
    + move_by @step_emit.
    + move_by @step_fail.
    + move_by @step_end.
  - destruct t as [| |sent n|b sent n|error|].
    + left. split; [done|]. right. split; [|done]. by apply H1.
    + move_by @step_open.
    + destruct i as [|item i]; [|move_by @step_receive].
      destruct (child_moves ch [] (Receiving sent n) o co r v) as [->|?]; [naive_solver|right; cbn; unfold capacity; lia|..];
        [by move_by @step_close|by right].
    + destruct co; [done|naive_solver|move_by @step_emit_closed].
    + destruct co; [done|naive_solver|move_by @step_fail_closed].
    + destruct (child_moves ch i ThreadDone o co r v) as [->|?]; [naive_solver|by left|left; split; auto|by right].
Qed.

(** ** The exchange without a limit *)

(** The same worker, never stopped and never cut. *)
Fixpoint exchange_all (sent : list Batch) (items : list (result Batch)) : list (result Batch) :=
  match items with
  | [] => match w_close w sent with Ok _ => [] | Err error => [Err error] end
  | item :: items =>
      match answer sent item with
      | Err error => [Err error]
      | Ok (input, None) => exchange_all (sent ++ [input]) items
      | Ok (input, Some b) => Ok b :: exchange_all (sent ++ [input]) items
      end
  end.
Definition unlimited : list (result Batch) :=
  match w_open w (worker_limit e) with
  | Err error => [Err error]
  | Ok _ => exchange_all [] (child_items (e_input e))
  end.

Section Rows.
Context {Row : Type} (rows : Batch -> list Row).
(** Arrow: a batch has as many rows as it says, and [slice] keeps the first. *)
Hypothesis rows_length : forall b, length (rows b) = num_rows b.
Hypothesis slice_rows : forall b n, (n <= num_rows b)%nat -> rows (slice b n) = take n (rows b).

Definition stream_rows (items : list (result Batch)) : list Row :=
  flat_map (fun i => match i with Ok b => rows b | Err _ => [] end) items.

Lemma truncate_rows n b : rows (truncate slice n b) = take n (rows b).
Proof.
  unfold truncate. destruct (Nat.ltb_spec n (num_rows b)); [apply slice_rows; lia|].
  rewrite take_ge; [done|]. rewrite rows_length. lia.
Qed.
Lemma truncate_num_rows n b : num_rows (truncate slice n b) = n `min` num_rows b.
Proof. by rewrite <- rows_length, truncate_rows, length_take, rows_length. Qed.
Lemma truncate_whole n b : (num_rows b < n)%nat -> truncate slice n b = b.
Proof. intros. unfold truncate. by rewrite (proj2 (Nat.ltb_ge _ _)) by lia. Qed.

(** The cut exchange has the first rows of the uncut one; one that stays under
    the limit was not cut. *)
Lemma exchange_rows items : forall sent n,
  (n < e_limit e)%nat ->
  stream_rows (exchange sent n items) = take (e_limit e - n) (stream_rows (exchange_all sent items)) /\
  ((length (stream_rows (exchange sent n items)) < e_limit e - n)%nat ->
   exchange sent n items = exchange_all sent items).
Proof.
  induction items as [|item items IH]; intros sent n Hn; cbn.
  - destruct (w_close w sent); cbn; by rewrite take_nil.
  - unfold TableStream.respond. destruct (answer sent item) as [[input [b|]]|error]; cbn;
      [|by apply IH|by rewrite take_nil].
    rewrite truncate_num_rows, truncate_rows, take_app, rows_length.
    destruct (Nat.leb_spec (e_limit e) (n + (e_limit e - n) `min` num_rows b)) as [Hl|Hl]; cbn.
    + replace (e_limit e - n - num_rows b)%nat with 0%nat by lia. rewrite take_0. split; [done|].
      rewrite length_app, length_take, rows_length. cbn. lia.
    + rewrite (truncate_whole _ b) by lia.
      destruct (IH (sent ++ [input]) (n + (e_limit e - n) `min` num_rows b)%nat Hl) as [IH1 IH2].
      replace (e_limit e - (n + (e_limit e - n) `min` num_rows b))%nat
        with (e_limit e - n - num_rows b)%nat in * by lia.
      fold (stream_rows (exchange (sent ++ [input]) (n + (e_limit e - n) `min` num_rows b) items)).
      fold (stream_rows (exchange_all (sent ++ [input]) items)).
      split; [by rewrite IH1|]. rewrite length_app, length_take, rows_length. intros Hlen.
      rewrite IH2; [done|lia].
Qed.

Lemma sequential_rows : stream_rows sequential = take (e_limit e) (stream_rows unlimited).
Proof.
  unfold sequential, unlimited. destruct (Nat.eqb_spec (e_limit e) 0) as [->|Hl]; [done|].
  destruct (w_open w (worker_limit e)); [|cbn; by rewrite take_nil].
  destruct (exchange_rows (child_items (e_input e)) [] 0) as [-> _]; [lia|]. by rewrite Nat.sub_0_r.
Qed.

(** C23: whatever the interleaving of child, thread and consumer, what a
    limited streaming call has handed out is the beginning of the sequential
    exchange, and all of it once the consumer was told of the end: inputs in
    order of the child's partitions, errors in their place, nothing after an
    error. Its rows are the first [limit] of the exchange without a limit, whose
    result it is, errors included, when it has fewer. Neither channel ever holds
    more than its two batches. *)
Theorem limited_stream_exact s :
  reachable s ->
  received s `prefix_of` sequential /\
  (consumer s = Ended -> received s = sequential) /\
  stream_rows sequential = take (e_limit e) (stream_rows unlimited) /\
  ((length (stream_rows sequential) < e_limit e)%nat -> sequential = unlimited) /\
  (length (inputs s) <= capacity)%nat /\ (length (outputs s) <= capacity)%nat.
Proof.
  intros [(H1 & H2 & H3 & H4 & H5 & H6) Ht]%reachable_consistent.
  split_and!; [| | | |done|done].
  - unfold on_track in Ht. destruct (consumer s); [rewrite <- Ht; by eexists..|done].
  - intros He. destruct (H3 He) as [Hd Ho]. unfold on_track, pending in Ht.
    by rewrite He, Ho, Hd, app_nil_r in Ht.
  - apply sequential_rows.
  - unfold sequential, unlimited. destruct (Nat.eqb_spec (e_limit e) 0) as [->|Hl]; [cbn; lia|].
    destruct (w_open w (worker_limit e)); [|done].
    intros Hlen. apply exchange_rows; [lia|]. by rewrite Nat.sub_0_r.
Qed.

(** ** The limit and the whole call *)

(** The worker's answers to all inputs in turn, as [run_exchange] keeps them
    (see [Exchange.exchange_transparent]). *)
Fixpoint direct (sent : list Batch) (inputs : list Batch) : result (list Batch) :=
  match inputs with
  | [] => Ok []
  | input :: inputs =>
      match w_send w sent input, direct (sent ++ [input]) inputs with
      | Ok answer, Ok rest => Ok (option_list answer ++ rest)
      | Err error, _ | _, Err error => Err error
      end
  end.
Definition project_one (b : Batch) : result Batch :=
  match e_projection e with Some p => project b p | None => Ok b end.

Lemma partition_items_Ok items bs rest :
  result_collect id items = Ok bs -> partition_items items rest = map Ok bs ++ rest.
Proof.
  intros H%result_collect_Ok. induction H as [|item b items bs Hb _ IH]; [done|].
  cbn in Hb. subst item. cbn. by rewrite IH.
Qed.
Lemma child_items_Ok plan raws : collect_child plan = Ok raws -> child_items plan = map Ok raws.
Proof.
  unfold collect_child. destruct (result_collect _ plan) as [parts|] eqn:Hp; [|done].
  intros [= <-]. apply result_collect_Ok in Hp.
  induction Hp as [|p part plan parts Hp _ IH]; [done|].
  destruct p as [items|]; [|done]. cbn [child_items].
  change (mjoin (M := list) (part :: parts)) with (part ++ mjoin (M := list) parts).
  rewrite map_app, <- IH. by apply partition_items_Ok.
Qed.
Lemma exchange_all_direct raws : forall sent inputs answers out outp,
  result_collect (fun b => rebuild (e_input_schema e) (columns b)) raws = Ok inputs ->
  direct sent inputs = Ok answers ->
  result_collect (fun b => conform try_new b (e_worker_schema e) None) answers = Ok out ->
  result_collect project_one out = Ok outp ->
  stream_rows (exchange_all sent (map Ok raws)) = flat_map rows outp.
Proof.
  induction raws as [|raw raws IH]; intros sent inputs answers out outp Hin Hd Ho Hp.
  - injection Hin as <-. injection Hd as <-. injection Ho as <-. injection Hp as <-.
    cbn. by destruct (w_close w sent).
  - cbn in *. destruct (rebuild _ _) as [input|]; [|done]. cbn in *.
    destruct (result_collect _ raws) as [inputs'|] eqn:Hr; [|done]. injection Hin as <-. cbn in Hd.
    destruct (w_send w sent input) as [a|]; [|done]. cbn.
    destruct (direct (sent ++ [input]) inputs') as [rest|] eqn:Hd'; [|done]. injection Hd as <-.
    destruct a as [b|]; cbn in *; [|by eapply IH].
    destruct (conform _ _ _ _) as [b1|]; [|done]. cbn in *.
    destruct (result_collect _ rest) as [out'|] eqn:Ho'; [|done]. injection Ho as <-. cbn in Hp.
    unfold project_one in Hp at 1. destruct (match e_projection e with Some _ => _ | None => _ end) as [b2|]; [|done].
    destruct (result_collect project_one out') as [outp'|] eqn:Hp'; [|done]. injection Hp as <-.
    cbn. f_equal. by eapply IH.
Qed.

(** Pushing a limit into a TABLE-input call changes no row. If the call
    without a limit answers, through the whole-input exchange, and the worker
    opens under the limit, the rows the streaming node hands out are the first
    [limit] rows of that answer under the same projection, in the same order. *)
Theorem limit_pushdown_exact project_schema run_call memory_exec p plan projection limit out schema outp :
  t_buffered p = false ->
  (forall c inputs answers, run_call (RunExchange c) (t_arguments p) inputs = Ok answers ->
     direct [] inputs = Ok answers) ->
  scan rebuild try_new project_schema run_call memory_exec p (Ok plan) projection (Some limit) = Ok (Limited e) ->
  scan rebuild try_new project_schema run_call memory_exec p (Ok plan) projection None
    = Ok (InMemory out schema projection) ->
  result_collect (fun b => match projection with Some p => project b p | None => Ok b end) out = Ok outp ->
  w_open w (Some (Z.of_nat limit)) = Ok tt -> (Z.of_nat limit <= i64_max)%Z ->
  stream_rows sequential = take limit (flat_map rows outp).
Proof.
  unfold scan. cbn. intros -> Hrun Hl Hs Hp Hw Hlim.
  assert (He : e_limit e = limit /\ e_input e = plan /\ e_projection e = projection
               /\ e_input_schema e = t_input_schema p /\ e_worker_schema e = t_output_schema p).
  { unfold try_new_exec in Hl. destruct (match projection with Some _ => _ | None => _ end); [|done].
    cbn in Hl. by injection Hl as <-. }
  destruct He as (<- & <- & <- & Hi & Ho).
  destruct (collect_child (e_input e)) as [raws|] eqn:Hraws; [|done]. cbn in Hs.
  destruct (result_collect _ raws) as [inputs|] eqn:Hin; [|done]. cbn in Hs.
  destruct (run_call _ _ inputs) as [answers|] eqn:Hcall; [|done]. cbn in Hs.
  destruct (result_collect _ answers) as [out'|] eqn:Hout; [|done]. cbn in Hs.
  unfold try_new_memory in Hs. destruct (memory_exec _ _ _); [|done]. cbn in Hs. injection Hs as -> <-.
  rewrite sequential_rows. f_equal. unfold unlimited, worker_limit.
  rewrite (proj2 (Z.leb_le _ _)) by done. rewrite Hw, (child_items_Ok _ _ Hraws).
  eapply exchange_all_direct; [by rewrite Hi|by apply Hrun in Hcall|by rewrite Ho|done].
Qed.
End Rows.

Lemma dropped_stays s s' : step s s' -> consumer s' <> Dropped -> consumer s <> Dropped.
Proof. by intros []. Qed.
Lemma eventually_settled s :
  consistent s -> exists s', rtc step s s' /\ settled s' /\ (consumer s <> Dropped -> consumer s' = Ended).
Proof.
  induction s as [s IH] using (induction_ltof1 _ work). intros Hc.
  destruct (undropped_moves s Hc) as [Hs|(s' & Hs & Hd)].
  - exists s. split_and!; [done|done|]. destruct Hs as [Hp _]. by destruct (consumer s).
  - destruct (IH s') as (s'' & ? & ? & He); [by apply step_work|by eapply step_consistent|].
    exists s''. split_and!; [by eapply rtc_l|done|]. intros Hn. apply He. intros H'%Hd. done.
Qed.

(** No party of a limited streaming call waits for another forever. From a
    reachable state at most [work] steps are left; as long as the consumer polls,
    some step other than its losing interest is possible; and when nobody can
    move, the child's task and the worker's thread have returned (or were never
    started), and a consumer that stayed was told of the end. *)
Theorem limited_stream_settles s :
  reachable s ->
  (forall n s', nsteps step n s s' -> (n <= work s)%nat) /\
  ((forall s', step s s' -> consumer s' = Dropped /\ consumer s <> Dropped) -> settled s) /\
  (exists s', rtc step s s' /\ settled s' /\ (consumer s <> Dropped -> consumer s' = Ended)).
Proof.
  intros Hr. destruct (reachable_consistent s Hr) as [Hc _]. split_and!.
  - intros n s' H%steps_work. lia.
  - intros Hno. destruct (undropped_moves s Hc) as [|(s' & Hs & Hd)]; [done|].
    destruct (Hno s' Hs) as [Hd' Hn]. by apply Hd in Hd'.
  - by apply eventually_settled.
Qed.

(** ** What nobody watches *)

(** A panic of the worker's thread ends the stream like success: the consumer
    keeps what it has and is told of the end. *)
Lemma panic_reads_as_end ch i t r v :
  t <> NotSpawned ->
  exists s1 s2, panics (mkStream ch i t [] Polling r v) s1 /\ step s1 s2 /\ consumer s2 = Ended /\ received s2 = r.
Proof.
  intros Ht. do 2 eexists. split; [by apply thread_panics|]. split; [apply step_end|done].
Qed.
(** A panic of the child's task ends the worker's input like success: the
    exchange is closed over the inputs sent so far. *)
Lemma child_panic_closes ch sent n o c r v :
  ch <> Waiting -> w_close w sent = Ok tt ->
  exists s1 s2, panics (mkStream ch [] (Receiving sent n) o c r v) s1 /\ step s1 s2 /\ thread s2 = ThreadDone.
Proof.
  intros Hch Hw. do 2 eexists. split; [by apply child_panics|]. split; [apply step_close|cbn; by rewrite Hw].
Qed.
(** A consumer that is gone is only noticed when there is a batch for it: an
    input the worker answers with nothing is still taken and sent. *)
Lemma dropped_consumer_still_served ch item i sent n o r v input :
  respond sent n item = Ok (input, None) ->
  exists s', step (mkStream ch (item :: i) (Receiving sent n) o Dropped r v) s' /\
             thread s' = Receiving (sent ++ [input]) n /\ inputs s' = i.
Proof. intros Hr. eexists. split; [apply step_receive|]. cbn. by rewrite Hr. Qed.
End Theorems.

(** ** A run *)

(** Batches of one column of numbers; a worker that answers every input with
    itself. *)
Definition echo_schema : @Schema nat nat := mkSchema [mkField "n" 0 0] 0.
Definition echo_batch (l : list nat) : @RecordBatch nat nat (list nat) := mkBatch echo_schema [l] (length l).
Definition echo_rows (b : @RecordBatch nat nat (list nat)) : list nat :=
  resize (num_rows b) 0 (default [] (head (columns b))).
Definition echo_slice (b : @RecordBatch nat nat (list nat)) (n : nat) : @RecordBatch nat nat (list nat) :=
  mkBatch (batch_schema b) (take n <$> columns b) (n `min` num_rows b).
Definition echo_rebuild (schema : @Schema nat nat) (cs : list (list nat)) : result (@RecordBatch nat nat (list nat)) :=
  Ok (mkBatch schema cs (length (default [] (head cs)))).
Definition echo_worker : @Worker nat nat (list nat) :=
  mkWorker (fun _ => Ok tt) (fun _ b => Ok (Some b)) (fun _ => Ok tt).
Definition echo_exec (limit : nat) : @VgiLimitedTableInputExec nat nat (list nat) unit :=
  mkExec "echo" tt [Ok [Ok (echo_batch [1; 2]); Ok (echo_batch [3; 4])]] echo_schema echo_schema None limit echo_schema 1 true.
Abbreviation echo_step :=
  (step echo_rebuild (fun s cs n => Ok (mkBatch s cs n)) (fun b _ => Ok b) echo_slice (echo_exec 1) echo_worker).
Abbreviation echo_reachable :=
  (reachable echo_rebuild (fun s cs n => Ok (mkBatch s cs n)) (fun b _ => Ok b) echo_slice (echo_exec 1) echo_worker).

Lemma echo_rows_length b : length (echo_rows b) = num_rows b.
Proof. apply length_resize. Qed.
Lemma echo_slice_rows b n : (n <= num_rows b)%nat -> echo_rows (echo_slice b n) = take n (echo_rows b).
Proof.
  intros Hn. unfold echo_rows, echo_slice. cbn. rewrite Nat.min_l by done.
  rewrite take_resize_le by done.
  destruct (columns b) as [|c cs]; cbn; [done|]. by rewrite resize_take_le.
Qed.

(** A whole run under a limit of one row: the second batch is never asked
    for. *)
Definition echo_end : @Stream nat nat (list nat) :=
  mkStream (Streaming [Ok (echo_batch [3; 4])] []) [] ThreadDone [] Ended
    [Ok (echo_slice (echo_batch [1; 2]) 1)] [Ineligible PartialExchange; WriteInput 2].
Lemma echo_run : echo_reachable echo_end.
Proof.
  unfold echo_end. eapply reachable_step; [|apply step_end].
  eapply reachable_step; [|apply (step_poll _ _ _ _ _ _ _ _ _ (Ok (echo_slice (echo_batch [1; 2]) 1)) [] [])].
  eapply reachable_step; [|refine (step_emit _ _ _ _ _ _ _ _ (echo_slice (echo_batch [1; 2]) 1) [echo_batch [1; 2]] 1 [] _ _ _ _ _); [done|cbn; unfold capacity; lia]].
  eapply reachable_step; [|refine (step_receive _ _ _ _ _ _ _ (Ok (echo_batch [1; 2])) [] [] 0 [] _ _ [Ineligible PartialExchange])].
  eapply reachable_step; [|refine (step_open _ _ _ _ _ _ _ _ _ _ _ _)].
  eapply reachable_step; [|refine (step_child_sends _ _ _ _ _ _ (Ok (echo_batch [1; 2])) (Some ([Ok (echo_batch [3; 4])], [])) [] _ _ _ _ _ _ _); [done|cbn; unfold capacity; lia]].
  eapply reachable_step; [|refine (step_item _ _ _ _ _ _ _ _ _ _ _ _ _ _ _)].
  eapply reachable_step; [|refine (step_execute _ _ _ _ _ _ _ _ _ _ _ _ _ _)].
  eapply reachable_step; [|refine (step_start _ _ _ _ _ _ _ _)].
  by apply reachable_execute.
Qed.

Lemma limited_stream_exact_witness :
  stream_rows echo_rows (received echo_end) = [1] /\ consumer echo_end = Ended.
Proof.
  destruct (limited_stream_exact echo_rebuild (fun s cs n => Ok (mkBatch s cs n)) (fun b _ => Ok b) echo_slice
    (echo_exec 1) echo_worker echo_rows echo_rows_length echo_slice_rows echo_end echo_run) as (_ & He & Hr & _).
  rewrite He by done. by rewrite Hr.
Defined.

Lemma limited_stream_settles_witness :
  exists s', rtc echo_step echo_end s' /\ settled s' /\ consumer s' = Ended.
Proof.
  destruct (limited_stream_settles echo_rebuild (fun s cs n => Ok (mkBatch s cs n)) (fun b _ => Ok b) echo_slice
    (echo_exec 1) echo_worker echo_end echo_run) as (_ & _ & s' & Hs & Hd & He).
  exists s'. auto.
Defined.

(** [LIMIT 1] over the same two batches. *)
Lemma limit_pushdown_exact_witness :
  stream_rows echo_rows
    (sequential echo_rebuild (fun s cs n => Ok (mkBatch s cs n)) (fun b _ => Ok b) echo_slice (echo_exec 1) echo_worker) = [1].
Proof.
  rewrite (limit_pushdown_exact echo_rebuild (fun s cs n => Ok (mkBatch s cs n)) (fun b _ => Ok b) echo_slice
    (echo_exec 1) echo_worker echo_rows echo_rows_length echo_slice_rows
    (fun s _ => Ok s) (fun _ _ inputs => direct echo_worker [] inputs) (fun _ _ _ => Ok tt)
    (mkProvider "echo" tt echo_schema echo_schema false false true)
    (e_input (echo_exec 1)) None 1 [echo_batch [1; 2]; echo_batch [3; 4]] echo_schema [echo_batch [1; 2]; echo_batch [3; 4]]);
    done.
Defined.
