(* ===== verification/CatalogFilters.v ===== *)
(** * Required filters of catalog tables

    A worker may require that a scan of one of its tables is filtered on certain
    columns or struct fields ([required_filters], a conjunction of groups of
    alternatives). catalog.rs collects the paths that the pushed predicates
    constrain and refuses the scan when a group is not met. *)

From S2P Require Import Prelude Text AttachSql.
From Stdlib Require Import Strings.Ascii.

(** Expressions by what this code looks into: columns, string literals of the
    three string types, function calls, and the children of anything else in
    the order DataFusion visits them. *)
Inductive Expr :=
  | Column (name : string)
  | TextLiteral (value : option string)
  | ScalarFunction (name : string) (args : list Expr)
  | OtherExpr (children : list Expr).
Definition children (e : Expr) : list Expr :=
  match e with Column _ | TextLiteral _ => [] | ScalarFunction _ args => args | OtherExpr cs => cs end.

Section Expr_ind.
Variable P : Expr -> Prop.
Hypothesis H : forall e, Forall P (children e) -> P e.
Lemma Expr_children_ind : forall e, P e.
Proof.
  fix IH 1. intros e. apply H. destruct e as [| |n args|cs]; cbn; [constructor|constructor|..].
  - induction args; constructor; auto.
  - induction cs; constructor; auto.
Qed.
End Expr_ind.

(** ** Paths *)

Definition field_step (e : Expr) : option string := match e with TextLiteral name => name | _ => None end.
Fixpoint static_get_field_path (e : Expr) : option (list string) :=
  match e with
  | Column name => Some [name]
  | ScalarFunction name (base :: ((_ :: _) as fields)) =>
      if String.eqb name "get_field" then
        path ← static_get_field_path base;
        names ← option_collect field_step fields;
        Some (path ++ names)
      else None
  | _ => None
  end.

(** The traversal of one filter: a static path is recorded and not entered. *)
Fixpoint paths_of (e : Expr) : list (list string) :=
  match e with
  | Column name => [[name]]
  | TextLiteral _ => []
  | ScalarFunction name args =>
      match (if String.eqb name "get_field" then static_get_field_path e else None) with
      | Some path => [path]
      | None => flat_map paths_of args
      end
  | OtherExpr cs => flat_map paths_of cs
  end.
Definition filtered_catalog_paths (filters : list Expr) : gset (list string) :=
  list_to_set (flat_map paths_of filters).

Definition required_path_is_present (required : list string) (present : gset (list string)) : bool :=
  existsb (fun n => bool_decide (take n required ∈ present)) (rev (seq 1 (length required))).

(** ** The refusal *)

Definition plain_char (c : ascii) : bool := ascii_alphanumeric c || Ascii.eqb c "_"%char.
Definition render_part (part : string) : string :=
  if forallb plain_char (bytes_of part) then part else debug (bytes_of part).
Definition render_required_path (path : list string) : string := String.concat "." (map render_part path).
Definition render_required_filter_group (group : list (list string)) : string :=
  match group with
  | [path] => render_required_path path
  | _ => "one of (" +:+ String.concat ", " (map render_required_path group) +:+ ")"
  end.
Definition render_required_filter_groups (groups : list (list (list string))) : string :=
  String.concat ", " (map render_required_filter_group groups).

Definition group_met (present : gset (list string)) (group : list (list string)) : bool :=
  existsb (fun path => required_path_is_present path present) group.
(** [table] is the mount alias, schema and name. *)
Definition enforce_required_filters (table : string * string * string) (required : list (list (list string)))
    (filters : list Expr) : result unit :=
  match required with
  | [] => Ok tt
  | _ =>
      let present := filtered_catalog_paths filters in
      match List.filter (fun group => negb (group_met present group)) required with
      | [] => Ok tt
      | missing =>
          Err (Plan ("VGI table '" +:+ table.1.1 +:+ "." +:+ table.1.2 +:+ "." +:+ table.2
                     +:+ "' requires WHERE filters on: " +:+ render_required_filter_groups required
                     +:+ ". Missing: " +:+ render_required_filter_groups missing
                     +:+ ". Add predicates targeting those columns (or a filter on a parent struct) to avoid scanning the entire table."))
      end
  end.

(** ** What a predicate constrains *)

(** A filter constrains a path where it reads it: a column by itself, or a chain
    of field accesses as a whole, and not the struct it starts from. *)
Definition is_access (e : Expr) : bool :=
  match e with
  | ScalarFunction name _ =>
      String.eqb name "get_field" && match static_get_field_path e with Some _ => true | None => false end
  | _ => false
  end.
Inductive constrains : Expr -> list string -> Prop :=
  | constrains_column name : constrains (Column name) [name]
  | constrains_access e path : is_access e = true -> static_get_field_path e = Some path -> constrains e path
  | constrains_child e c path : is_access e = false -> c ∈ children e -> constrains c path -> constrains e path.

(** A group is covered when some path of it, or a struct on the way to it, is
    constrained. *)
Definition covered (filters : list Expr) (group : list (list string)) : Prop :=
  exists path p f, path ∈ group /\ p <> [] /\ p `prefix_of` path /\ f ∈ filters /\ constrains f p.

Lemma elem_of_flat_map {A B} (g : A -> list B) l y : y ∈ flat_map g l <-> exists x, x ∈ l /\ y ∈ g x.
Proof. setoid_rewrite list_elem_of_In. apply in_flat_map. Qed.

Lemma paths_of_constrains e : forall p, p ∈ paths_of e <-> constrains e p.
Proof.
  induction e as [e IH] using Expr_children_ind. intros p.
  assert (Hk : p ∈ flat_map paths_of (children e) <-> exists c, c ∈ children e /\ constrains c p).
  { rewrite elem_of_flat_map. rewrite Forall_forall in IH. split; intros (c & Hc & Hp); exists c;
      (split; [done|]); by apply IH. }
  destruct e as [name|t|name args|cs]; cbn [paths_of children] in *.
  - rewrite list_elem_of_singleton. split; [intros ->; constructor|inversion 1; by try set_solver].
  - split; [by intros ?%elem_of_nil|inversion 1; by try set_solver].
  - destruct (is_access (ScalarFunction name args)) eqn:Ha.
    + pose proof Ha as Ha'. cbn -[static_get_field_path] in Ha'. apply andb_prop in Ha' as [Hn Hs]. rewrite Hn.
      destruct (static_get_field_path _) as [path|] eqn:Hp; [|done].
      rewrite list_elem_of_singleton. split; [intros ->; by apply constrains_access|].
      inversion 1; congruence.
    + assert (Hs : (if String.eqb name "get_field" then static_get_field_path (ScalarFunction name args) else None) = None).
      { cbn -[static_get_field_path] in Ha. destruct (String.eqb name "get_field"); [|done]. by destruct (static_get_field_path _). }
      rewrite Hs, Hk. split; [intros (c & ? & ?); by eapply constrains_child|].
      inversion 1; [congruence|]. eauto.
  - rewrite Hk. split; [intros (c & ? & ?); by eapply constrains_child|].
    inversion 1; [done|]. eauto.
Qed.

Lemma filtered_catalog_paths_spec filters p :
  p ∈ filtered_catalog_paths filters <-> exists f, f ∈ filters /\ constrains f p.
Proof.
  unfold filtered_catalog_paths. rewrite elem_of_list_to_set, elem_of_flat_map.
  split; intros (f & ? & ?%paths_of_constrains); eauto.
Qed.
Lemma required_path_is_present_spec required present :
  required_path_is_present required present = true <->
  exists p, p <> [] /\ p `prefix_of` required /\ p ∈ present.
Proof.
  unfold required_path_is_present. rewrite existsb_exists. setoid_rewrite <- in_rev.
  setoid_rewrite in_seq. setoid_rewrite bool_decide_eq_true. split.
  - intros (n & Hn & Hp). exists (take n required). split_and!; [|apply prefix_take|done].
    intros He%(f_equal length). rewrite length_take in He. cbn in He. lia.
  - intros (p & Hne & [k ->] & Hp). exists (length p). rewrite take_app_length. split; [|done].
    rewrite length_app. destruct p; [done|cbn; lia].
Qed.
Lemma group_met_covered filters group :
  group_met (filtered_catalog_paths filters) group = true <-> covered filters group.
Proof.
  unfold group_met, covered. rewrite existsb_exists. setoid_rewrite <- list_elem_of_In.
  setoid_rewrite required_path_is_present_spec. setoid_rewrite filtered_catalog_paths_spec. naive_solver.
Qed.

(** A chain of accesses, written in one call or in several, is the dotted path
    from its column. *)
Definition access (column : string) (steps : list (list string)) : Expr :=
  fold_left (fun e names => ScalarFunction "get_field" (e :: map (fun n => TextLiteral (Some n)) names)) steps (Column column).
Lemma access_step b n names :
  static_get_field_path (ScalarFunction "get_field" (b :: map (fun n => TextLiteral (Some n)) (n :: names)))
  = (path ← static_get_field_path b; Some (path ++ n :: names)).
Proof.
  cbn. destruct (static_get_field_path b); [|done]. cbn.
  assert (Hc : option_collect field_step (map (fun n => TextLiteral (Some n)) names) = Some names).
  { apply option_collect_Some. induction names; by constructor. }
  by rewrite Hc.
Qed.
Lemma access_path column steps :
  Forall (fun names => names <> []) steps ->
  static_get_field_path (access column steps) = Some (column :: concat steps).
Proof.
  unfold access. induction steps as [|names steps IH] using rev_ind; intros Hs; [done|].
  apply Forall_app in Hs as [Hs Hn]. rewrite Forall_singleton in Hn.
  rewrite fold_left_app. cbn [fold_left]. destruct names as [|n names]; [done|].
  rewrite access_step, (IH Hs), concat_app. cbn. by rewrite app_nil_r.
Qed.
Lemma access_constrains column steps p :
  Forall (fun names => names <> []) steps -> steps <> [] ->
  constrains (access column steps) p <-> p = column :: concat steps.
Proof.
  intros Hs Hne. pose proof (access_path column steps Hs) as Hp.
  assert (Ha : is_access (access column steps) = true).
  { unfold is_access. revert Hp. unfold access. destruct (exists_last Hne) as (l & names & ->).
    rewrite fold_left_app. cbn [fold_left]. intros ->. done. }
  split; [|intros ->; by apply constrains_access].
  inversion 1; subst; [|congruence..].
  exfalso. revert Hp. unfold access in *. destruct (exists_last Hne) as (l & names & ->).
  rewrite fold_left_app in *. done.
Qed.

Lemma filter_sublist_bool {A} (p : A -> bool) l : List.filter p l `sublist_of` l.
Proof. induction l as [|x l IH]; cbn; [done|]. destruct (p x); by constructor. Qed.

(** A scan of a catalog table is refused exactly when some required group
    is not covered by its filters, naming the required and the missing groups;
    and a filter on a chain of struct fields covers that field and what is below
    it, never its siblings or the struct. *)
Theorem required_filters_enforced table required filters :
  (enforce_required_filters table required filters = Ok tt <->
   forall group, group ∈ required -> covered filters group) /\
  (forall e, enforce_required_filters table required filters = Err e ->
   exists missing,
     e = Plan ("VGI table '" +:+ table.1.1 +:+ "." +:+ table.1.2 +:+ "." +:+ table.2
               +:+ "' requires WHERE filters on: " +:+ render_required_filter_groups required
               +:+ ". Missing: " +:+ render_required_filter_groups missing
               +:+ ". Add predicates targeting those columns (or a filter on a parent struct) to avoid scanning the entire table.") /\
     missing `sublist_of` required /\ missing <> [] /\
     forall group, group ∈ missing <-> group ∈ required /\ ~ covered filters group) /\
  (forall column steps path, Forall (fun names => names <> []) steps -> steps <> [] ->
   covered [access column steps] [path] <-> (column :: concat steps) `prefix_of` path).
Proof.
  set (missing := List.filter (fun group => negb (group_met (filtered_catalog_paths filters) group)) required).
  assert (Hm : forall group, group ∈ missing <-> group ∈ required /\ ~ covered filters group).
  { intros group. unfold missing. rewrite !list_elem_of_In, filter_In, negb_true_iff, <- group_met_covered.
    by rewrite not_true_iff_false. }
  assert (He : enforce_required_filters table required filters = Ok tt <-> missing = []).
  { unfold enforce_required_filters. destruct required as [|g gs]; [done|]. fold missing. by destruct missing. }
  split_and!.
  - rewrite He. split.
    + intros Hn group Hg. rewrite <- group_met_covered. apply not_false_iff_true. intros Hf.
      assert (group ∈ missing) as Hin; [|rewrite Hn in Hin; by apply elem_of_nil in Hin].
      apply Hm. split; [done|]. by rewrite <- group_met_covered, Hf.
    + intros Hc. apply elem_of_nil_inv. intros group [Hg Hn]%Hm. by apply Hn, Hc.
  - intros e Hr. exists missing. unfold enforce_required_filters in Hr.
    destruct required as [|g gs]; [done|]. fold missing in Hr.
    destruct missing as [|m ms] eqn:Hms; [done|]. injection Hr as <-. split_and!; [done| |done|done].
    rewrite <- Hms. apply filter_sublist_bool.
  - intros column steps path Hs Hne. unfold covered. split.
    + intros (q & p & f & ->%list_elem_of_singleton & _ & Hp & ->%list_elem_of_singleton & Hc).
      by apply access_constrains in Hc as ->.
    + intros Hp. exists path, (column :: concat steps), (access column steps).
      split_and!; [by apply list_elem_of_singleton|done|done|by apply list_elem_of_singleton|by apply access_constrains].
Qed.

(** [WHERE s.a = 1 AND t > 0] meets [s.a] and [t.u], not [s.b]. *)
Example enforce_test :
  let filters := [OtherExpr [ScalarFunction "get_field" [Column "s"; TextLiteral (Some "a")]; OtherExpr []];
                  OtherExpr [Column "t"; OtherExpr []]] in
  enforce_required_filters ("ex", "data", "r") [[["s"; "a"]]; [["x"]; ["t"; "u"]]] filters = Ok tt /\
  enforce_required_filters ("ex", "data", "r") [[["s"; "b"]; ["s.c"]]] filters
  = Err (Plan ("VGI table 'ex.data.r' requires WHERE filters on: one of (s.b, " +:+ debug (bytes_of "s.c")
               +:+ "). Missing: one of (s.b, " +:+ debug (bytes_of "s.c")
               +:+ "). Add predicates targeting those columns (or a filter on a parent struct) to avoid scanning the entire table.")).
Proof. split; vm_compute; reflexivity. Qed.

Lemma required_filters_enforced_witness :
  covered [access "s" [["a"]]] [["s"; "a"; "b"]] /\ ~ covered [access "s" [["a"]]] [["s"; "b"]].
Proof.
  destruct (required_filters_enforced ("ex", "data", "r") [] [access "s" [["a"]]]) as (_ & _ & Hc).
  rewrite !Hc by (try done; by constructor). split.
  - by exists ["b"].
  - intros [k Hk]. done.
Defined.
