(* ===== verification/CatalogSources.v ===== *)
(** * The sources a scan branch names

    A catalog table may be assembled from branches: another catalog's table, a
    file format DataFusion reads itself, or a worker function. This file reads a
    branch the way catalog.rs does ([catalog_table_spec], [native_format_spec]
    and what they call) and resolves the catalog a branch names to an attached
    alias ([select_catalog_alias]). *)

From S2P Require Import Prelude Text AttachSql Macros Protocol3.
From Stdlib Require Import Strings.Ascii.

(** [aliases.sort(); aliases.dedup()] of strings. *)
Definition sort_strings (l : list string) : list string := map string_of (sort_bytes (map bytes_of l)).
Fixpoint dedup (l : list string) : list string :=
  match l with
  | a :: ((b :: _) as rest) => if String.eqb a b then dedup rest else a :: dedup rest
  | _ => l
  end.

(** ** Catalog-table branches *)

Record CatalogTableSpec := mkTableSpec { spec_catalog : string; spec_schema : string; spec_table : string }.

(** [vgi_client::ScanBranch]: what the reading looks at. [Raw] stands for
    undecoded arguments. *)
Record ScanBranch (Raw : Type) := mkBranch {
  function_name : string; branch_arguments : Raw; branch_schema_path : option (list string);
  branch_filter : option string; writable : bool;
  source_catalog : option string; source_schema_path : option (list string); source_table : option string;
  format_name : option string; format_locations : option (list string); format_options : option Raw;
}.
Arguments mkBranch {Raw}.
Arguments function_name {Raw} _.
Arguments branch_arguments {Raw} _.
Arguments branch_schema_path {Raw} _.
Arguments branch_filter {Raw} _.
Arguments writable {Raw} _.
Arguments source_catalog {Raw} _.
Arguments source_schema_path {Raw} _.
Arguments source_table {Raw} _.
Arguments format_name {Raw} _.
Arguments format_locations {Raw} _.
Arguments format_options {Raw} _.

(** [as_deref().filter(|value| !value.is_empty())] *)
Definition nonempty (o : option string) : option string :=
  match o with Some value => if String.eqb value "" then None else Some value | None => None end.

Definition catalog_table_spec {Raw} (branch : ScanBranch Raw) : result (option CatalogTableSpec) :=
  match nonempty (source_table branch) with
  | None => Ok None
  | Some table =>
      catalog ← ok_or (Plan ("VGI catalog-table branch for source table " +:+ debug_text table +:+ " has no source_catalog"))
                  (nonempty (source_catalog branch));
      schema_path ← ok_or (Plan ("VGI catalog-table branch for source table " +:+ debug_text table +:+ " has no source_schema_path"))
                      (source_schema_path branch);
      schema ← require_flat_schema_path schema_path ("catalog-table branch for " +:+ debug_text table);
      Ok (Some (mkTableSpec catalog schema table))
  end.

(** The alias a requested catalog stands for: itself, the only alias that
    differs in case, or the only alias mounted from a worker catalog of that
    name. *)
Definition select_catalog_alias (requested : string) (catalog_names : list string)
    (worker_catalogs : list (string * string)) : result string :=
  if vec_contains requested catalog_names then Ok requested
  else
    match dedup (sort_strings (List.filter (fun name => eq_ignore_ascii_case name requested) catalog_names)) with
    | [alias] => Ok alias
    | [] =>
        match dedup (sort_strings (map fst (List.filter (fun e => eq_ignore_ascii_case e.2 requested
                                                          && vec_contains e.1 catalog_names) worker_catalogs))) with
        | [alias] => Ok alias
        | [] => Err (Plan ("VGI catalog-table source catalog " +:+ debug_text requested +:+ " is not attached"))
        | aliases => Err (Plan ("VGI catalog-table source catalog " +:+ debug_text requested
                                +:+ " maps to multiple attached aliases " +:+ String.concat ", " aliases
                                +:+ "; use the companion attachment alias"))
        end
    | aliases => Err (Plan ("VGI catalog-table source catalog " +:+ debug_text requested
                            +:+ " ambiguously matches attached aliases " +:+ String.concat ", " aliases))
    end.

(** ** Native formats *)

Definition native_reader_format (function : string) : option string :=
  let f := to_ascii_lowercase function in
  if vec_contains f ["read_csv"; "read_csv_auto"] then Some "csv"
  else if vec_contains f ["read_parquet"; "parquet_scan"] then Some "parquet"
  else if vec_contains f ["read_json"; "read_json_auto"; "read_ndjson"] then Some "json"
  else if String.eqb f "read_arrow" then Some "arrow"
  else None.

(** Arrow arrays by what an argument may hold: strings, lists, or neither, of
    which only emptiness and nullness of the first row matter. *)
Inductive NestedArray := NestedStrings (rows : list (option string)) | NestedOther.
Inductive Array :=
  | StringRows (rows : list (option string))
  | ListRows (rows : list (option NestedArray))
  | OtherRows (nulls : list bool).
Definition first_missing (a : Array) : bool :=
  match a with
  | StringRows rows => match rows with Some _ :: _ => false | _ => true end
  | ListRows rows => match rows with Some _ :: _ => false | _ => true end
  | OtherRows nulls => match nulls with false :: _ => false | _ => true end
  end.

(** [vgi_client::ArgValue] and [vgi_client::Arguments]. *)
Inductive ArgValue :=
  | Int (z : Z) | Float (bits : Z) | Text (s : string) | Bool (b : bool)
  | Arrow (a : Array) | Null | Placeholder.
Record Arguments_ := mkArguments { positional_values : list ArgValue; named_values : list (string * ArgValue) }.

Section Formats.
Context {Raw : Type}.
Variable from_scan_arguments : Raw -> result Arguments_.
(** Printing what has no fixed text here: a float, a type, an argument, the
    first value of an array. *)
Variable show_float : Z -> string.
Variable show_type : Array -> string.
Variable show_argument : ArgValue -> string.
Variable format_first : Array -> result string.

Definition strings_from_arrow (a : Array) (label : string) : result (list string) :=
  if first_missing a then Err (Plan ("VGI native format " +:+ label +:+ " must not be NULL"))
  else
    match a with
    | StringRows (Some s :: _) => Ok [s]
    | ListRows (Some (NestedStrings rows) :: _) =>
        result_collect (ok_or (Plan ("VGI native format " +:+ label +:+ " contains a NULL location"))) rows
    | _ => Err (Plan ("VGI native format " +:+ label +:+ " must be a string or list of strings, found " +:+ show_type a))
    end.
Definition locations_from_argument (value : ArgValue) : result (list string) :=
  match value with
  | Text s => Ok [s]
  | Arrow a => strings_from_arrow a "location"
  | Null | Placeholder => Err (Plan "VGI native format location must not be NULL")
  | other => Err (Plan ("VGI native format location must be a string or list of strings, found " +:+ show_argument other))
  end.
Definition option_value (value : ArgValue) (name : string) : result string :=
  match value with
  | Int z => Ok (pretty z)
  | Float bits => Ok (show_float bits)
  | Text s => Ok s
  | Bool b => Ok (if b then "true" else "false")
  | Arrow a =>
      if first_missing a then Err (Plan ("VGI native format option " +:+ debug_text name +:+ " must not be NULL"))
      else format_first a
  | Null | Placeholder => Err (Plan ("VGI native format option " +:+ debug_text name +:+ " must not be NULL"))
  end.

(** The characters with a meaning in a pattern. *)
Definition meta_chars : list ascii := bytes_of "\.+*?()[]{}^$|".
Definition exact_regex (value : string) : string :=
  "^" +:+ string_of (flat_map (fun ch => if vec_contains ch meta_chars then ["\"%char; ch] else [ch]) (bytes_of value)) +:+ "$".

(** An option under its DataFusion name, with the exact null marker as a
    pattern. *)
Definition is_null_option (name : string) : bool :=
  vec_contains (to_ascii_lowercase name) ["nullstr"; "null_string"].
Definition option_key (name : string) : string :=
  let n := to_ascii_lowercase name in
  if vec_contains n ["delim"; "delimiter"] then "format.delimiter"
  else if vec_contains n ["header"; "has_header"] then "format.has_header"
  else if vec_contains n ["nullstr"; "null_string"] then "format.null_regex"
  else if String.prefix "format." n then n
  else "format." +:+ n.
Definition option_text (name : string) (value : ArgValue) : result string :=
  text ← option_value value name;
  Ok (if is_null_option name then exact_regex text else text).
Fixpoint translate_options (translated : gmap string string) (options : list (string * ArgValue))
    : result (gmap string string) :=
  match options with
  | [] => Ok translated
  | (name, value) :: options =>
      text ← option_text name value;
      match translated !! option_key name with
      | Some _ => Err (Plan ("VGI native format supplied duplicate option " +:+ debug_text (option_key name) +:+ " through aliases"))
      | None => translate_options (<[option_key name := text]> translated) options
      end
  end.
Definition datafusion_format_options (options : list (string * ArgValue)) : result (gmap string string) :=
  translate_options ∅ options.

Definition exact_null_string (options : list (string * ArgValue)) : result (option string) :=
  match List.find (fun o => is_null_option o.1) options with
  | None => Ok None
  | Some (name, value) => text ← option_value value name; Ok (Some text)
  end.

Record NativeFormatSpec := mkFormatSpec {
  spec_format : string; spec_locations : list string; spec_options : list (string * ArgValue);
}.
Definition native_format_spec (branch : ScanBranch Raw) : result (option NativeFormatSpec) :=
  match nonempty (format_name branch) with
  | Some format =>
      arguments ← match format_options branch with
                  | Some options => from_scan_arguments options
                  | None => Ok (mkArguments [] [])
                  end;
      match positional_values arguments with
      | [] => Ok (Some (mkFormatSpec (to_ascii_lowercase format) (default [] (format_locations branch)) (named_values arguments)))
      | _ => Err (Plan "VGI native format options must all be named")
      end
  | None =>
      match native_reader_format (function_name branch) with
      | None => Ok None
      | Some format =>
          arguments ← from_scan_arguments (branch_arguments branch);
          match positional_values arguments with
          | [location] =>
              locations ← locations_from_argument location;
              Ok (Some (mkFormatSpec format locations (named_values arguments)))
          | _ => Err (Plan ("VGI native reader " +:+ debug_text (function_name branch)
                            +:+ " requires exactly one positional location argument"))
          end
      end
  end.
End Formats.
