(* ===== verification/CatalogSourceTheorems.v ===== *)
(** * Theorems on the sources of scan branches

    The alias a branch's catalog resolves to is determined, whatever the order
    of the catalogs; format options are translated one for one, and the pattern
    for the exact null marker matches that marker only. *)

From S2P Require Import Prelude Text AttachSql Macros Protocol3 CatalogSources.
From Stdlib Require Import Strings.Ascii.

(** ** Sorting and deduplicating *)

Lemma sort_strings_perm l : Permutation (sort_strings l) l.
Proof.
  unfold sort_strings. rewrite sort_bytes_perm, map_map.
  erewrite map_ext; [by rewrite map_id|]. intros. apply string_of_bytes_of.
Qed.
Lemma elem_of_sort_strings x l : x ∈ sort_strings l <-> x ∈ l.
Proof. by rewrite sort_strings_perm. Qed.
Lemma sort_strings_canonical l k : Permutation l k -> sort_strings l = sort_strings k.
Proof. intros H. unfold sort_strings. f_equal. apply sort_bytes_canonical. by rewrite H. Qed.
Lemma elem_of_dedup x l : x ∈ dedup l <-> x ∈ l.
Proof.
  induction l as [|a [|b l] IH]; [done|done|]. cbn [dedup].
  destruct (String.eqb_spec a b) as [->|]; rewrite !elem_of_cons in *; [|set_solver].
  rewrite IH. set_solver.
Qed.
Lemma dedup_nil l : dedup l = [] <-> l = [].
Proof.
  split; [|by intros ->]. intros H. apply elem_of_nil_inv. intros x Hx.
  apply elem_of_dedup in Hx. rewrite H in Hx. by apply elem_of_nil in Hx.
Qed.
Lemma dedup_singleton a l : dedup l = [a] <-> l <> [] /\ forall x, x ∈ l -> x = a.
Proof.
  split.
  - intros H. split.
    + intros ->. done.
    + intros x Hx%elem_of_dedup. rewrite H in Hx. by apply list_elem_of_singleton in Hx.
  - intros [Hne Ha]. induction l as [|b [|c l] IH]; [done| |].
    + cbn. by rewrite (Ha b) by left.
    + cbn [dedup]. rewrite (Ha b), (Ha c) in * by set_solver. rewrite String.eqb_refl.
      apply IH; [done|]. intros x Hx. apply Ha. set_solver.
Qed.
Definition unique_alias (l : list string) : list string := dedup (sort_strings l).
Lemma elem_of_unique_alias x l : x ∈ unique_alias l <-> x ∈ l.
Proof. unfold unique_alias. by rewrite elem_of_dedup, elem_of_sort_strings. Qed.
Lemma unique_alias_nil l : unique_alias l = [] <-> l = [].
Proof.
  unfold unique_alias. rewrite dedup_nil. split; [|by intros ->]. intros H.
  apply Permutation_nil. by rewrite <- H, sort_strings_perm.
Qed.
Lemma unique_alias_singleton a l : unique_alias l = [a] <-> a ∈ l /\ forall x, x ∈ l -> x = a.
Proof.
  unfold unique_alias. rewrite dedup_singleton. setoid_rewrite elem_of_sort_strings. split.
  - intros [Hne Ha]. split; [|done]. destruct l as [|b l]; [done|]. rewrite (Ha b) by left. left.
  - intros [Hin Ha]. split; [|done]. intros H. assert (l = []) as -> by (apply Permutation_nil; by rewrite <- H, sort_strings_perm).
    by apply elem_of_nil in Hin.
Qed.

#[local] Instance filter_perm {A} (p : A -> bool) : Proper (Permutation ==> Permutation) (List.filter p).
Proof.
  intros l k H. induction H as [|x l k _ IH|x y l|l k m _ IH1 _ IH2]; cbn.
  - done.
  - destruct (p x); by rewrite IH.
  - destruct (p x), (p y); try done. apply Permutation_swap.
  - by rewrite IH1.
Qed.

(** ** Aliases *)

Definition same_name (a b : string) : Prop := eq_ignore_ascii_case a b = true.
(** What a branch's catalog name stands for. *)
Definition resolves (requested : string) (catalog_names : list string) (worker_catalogs : list (string * string))
    (alias : string) : Prop :=
  alias = requested /\ requested ∈ catalog_names \/
  requested ∉ catalog_names /\
    ((alias ∈ catalog_names /\ same_name alias requested /\
      forall other, other ∈ catalog_names -> same_name other requested -> other = alias) \/
     (forall other, other ∈ catalog_names -> ~ same_name other requested) /\
     alias ∈ catalog_names /\ (exists worker, (alias, worker) ∈ worker_catalogs /\ same_name worker requested) /\
     (forall other worker, (other, worker) ∈ worker_catalogs -> other ∈ catalog_names -> same_name worker requested -> other = alias)).

Section Aliases.
Variable requested : string.
Definition candidates (catalog_names : list string) : list string :=
  List.filter (fun name => eq_ignore_ascii_case name requested) catalog_names.
Definition mounts (catalog_names : list string) (worker_catalogs : list (string * string)) : list string :=
  map fst (List.filter (fun e => eq_ignore_ascii_case e.2 requested && vec_contains e.1 catalog_names) worker_catalogs).
Lemma elem_of_candidates names x : x ∈ candidates names <-> x ∈ names /\ same_name x requested.
Proof. unfold candidates. by rewrite !list_elem_of_In, filter_In. Qed.
Lemma elem_of_mounts names wc x :
  x ∈ mounts names wc <-> x ∈ names /\ exists worker, (x, worker) ∈ wc /\ same_name worker requested.
Proof.
  unfold mounts. rewrite list_elem_of_In, in_map_iff. setoid_rewrite filter_In. setoid_rewrite andb_true_iff.
  setoid_rewrite vec_contains_spec. setoid_rewrite <- list_elem_of_In. split.
  - intros ([y w] & <- & Hw & Hs & Hn). eauto.
  - intros (Hn & w & Hw & Hs). by exists (x, w).
Qed.
End Aliases.

(** A branch's catalog resolves to an attached alias exactly when the name
    determines one: the alias itself, else the only alias that differs in case,
    else the only alias mounted from a worker catalog of that name. The answer,
    refusals included, does not depend on the order in which the session lists
    its catalogs. *)
Theorem select_catalog_alias_determined requested catalog_names worker_catalogs :
  (forall alias, select_catalog_alias requested catalog_names worker_catalogs = Ok alias <->
     resolves requested catalog_names worker_catalogs alias) /\
  (forall catalog_names' worker_catalogs',
     Permutation catalog_names catalog_names' -> Permutation worker_catalogs worker_catalogs' ->
     select_catalog_alias requested catalog_names' worker_catalogs'
       = select_catalog_alias requested catalog_names worker_catalogs).
Proof.
  split.
  - intros alias. unfold select_catalog_alias, resolves.
    fold (candidates requested catalog_names) (mounts requested catalog_names worker_catalogs).
    fold (unique_alias (candidates requested catalog_names)) (unique_alias (mounts requested catalog_names worker_catalogs)).
    destruct (vec_contains requested catalog_names) eqn:Hv.
    + apply vec_contains_spec in Hv. split; [intros [= <-]; by left|]. by intros [[-> _]|[? _]].
    + assert (Hn : requested ∉ catalog_names) by (rewrite <- vec_contains_spec; by rewrite Hv).
      destruct (unique_alias (candidates _ _)) as [|c [|c' cs]] eqn:Hc.
      * rewrite unique_alias_nil in Hc.
        assert (Hno : forall other, other ∈ catalog_names -> ~ same_name other requested).
        { intros o Ho Hs. assert (o ∈ candidates requested catalog_names) as Hin by by apply elem_of_candidates.
          rewrite Hc in Hin. by apply elem_of_nil in Hin. }
        destruct (unique_alias (mounts _ _ _)) as [|m [|m' ms]] eqn:Hm.
        -- rewrite unique_alias_nil in Hm. split; [done|]. intros [[_ ?]|[_ [(? & ? & _)|(_ & Ha & Hw & _)]]]; [done|naive_solver|].
           assert (alias ∈ mounts requested catalog_names worker_catalogs) as Hin by by apply elem_of_mounts.
           rewrite Hm in Hin. by apply elem_of_nil in Hin.
        -- apply unique_alias_singleton in Hm as [Hin Hu]. apply elem_of_mounts in Hin.
           setoid_rewrite elem_of_mounts in Hu. split; [intros [= <-]|].
           ++ right. split; [done|]. right. naive_solver.
           ++ intros [[_ ?]|[_ [(? & ? & _)|(_ & Ha & Hw & _)]]]; [done|naive_solver|]. f_equal. symmetry. by apply Hu.
        -- split; [done|]. intros [[_ ?]|[_ [(? & ? & _)|(_ & Ha & Hw & Hu)]]]; [done|naive_solver|].
           assert (unique_alias (mounts requested catalog_names worker_catalogs) = [alias]) as He; [|congruence].
           apply unique_alias_singleton. setoid_rewrite elem_of_mounts. naive_solver.
      * apply unique_alias_singleton in Hc as [Hin Hu]. apply elem_of_candidates in Hin.
        setoid_rewrite elem_of_candidates in Hu. split; [intros [= <-]|].
        -- right. split; [done|]. left. naive_solver.
        -- intros [[_ ?]|[_ [(? & ? & _)|(Hno & _)]]]; [done| |naive_solver]. f_equal. symmetry. by apply Hu.
      * split; [done|]. intros [[_ ?]|[_ [(? & ? & Hu)|(Hno & _)]]]; [done| |].
        -- assert (unique_alias (candidates requested catalog_names) = [alias]) as He; [|congruence].
           apply unique_alias_singleton. setoid_rewrite elem_of_candidates. naive_solver.
        -- assert (c ∈ unique_alias (candidates requested catalog_names)) as Hin by (rewrite Hc; left).
           apply elem_of_unique_alias, elem_of_candidates in Hin. naive_solver.
  - intros names' wc' Hnames Hwc. unfold select_catalog_alias.
    assert (Hv : forall x, vec_contains x names' = vec_contains x catalog_names).
    { intros x. apply eq_true_iff_eq. rewrite !vec_contains_spec. by rewrite Hnames. }
    rewrite Hv. fold (candidates requested names') (candidates requested catalog_names).
    fold (mounts requested names' wc') (mounts requested catalog_names worker_catalogs).
    rewrite (sort_strings_canonical (candidates requested names') (candidates requested catalog_names))
      by (unfold candidates; by rewrite Hnames).
    rewrite (sort_strings_canonical (mounts requested names' wc') (mounts requested catalog_names worker_catalogs)); [done|].
    unfold mounts. rewrite <- Hwc. apply Permutation_map. erewrite filter_ext; [done|]. intros e. cbn. by rewrite Hv.
Qed.

Lemma select_catalog_alias_determined_witness :
  select_catalog_alias "Lake" ["other"; "lk"] [("lk", "LAKE"); ("gone", "lake")] = Ok "lk".
Proof.
  destruct (select_catalog_alias_determined "Lake" ["lk"; "other"] [("gone", "lake"); ("lk", "LAKE")]) as [_ H].
  rewrite H by apply Permutation_swap. vm_compute. reflexivity.
Defined.

(** ** Exact patterns *)

(** What a pattern of plain and escaped characters between anchors matches: one
    string. The syntax of the patterns: these characters are operators when they
    stand bare, and a backslash takes the meaning from any punctuation; before a
    letter or digit it would be a class. *)
Definition operators : list ascii := bytes_of "\.+*?()[]{}^$|".
Definition punctuation : list ascii := bytes_of "!#$%&'()*+,-./:;<=>?@[\]^_`{|}~".
Fixpoint literal_pattern (body : list ascii) : option (list ascii) :=
  match body with
  | [] => Some []
  | c :: rest =>
      if Ascii.eqb c "\"%char then
        match rest with
        | d :: rest => if vec_contains d punctuation then cons d <$> literal_pattern rest else None
        | [] => None
        end
      else if vec_contains c operators then None
      else cons c <$> literal_pattern rest
  end.
Definition matches_only (pattern s : string) : Prop :=
  exists body, pattern = "^" +:+ string_of body +:+ "$" /\ literal_pattern body = Some (bytes_of s).

(** The code escapes every operator, and only punctuation. *)
Lemma operators_escaped c : vec_contains c operators = true -> vec_contains c meta_chars = true.
Proof.
  rewrite vec_contains_spec. intros Hc%list_elem_of_In. revert c Hc. apply forallb_forall. by vm_compute.
Qed.
Lemma meta_chars_punctuation c : vec_contains c meta_chars = true -> vec_contains c punctuation = true.
Proof.
  rewrite vec_contains_spec. intros Hc%list_elem_of_In. revert c Hc. apply forallb_forall. by vm_compute.
Qed.
Lemma literal_escaped value :
  literal_pattern (flat_map (fun ch => if vec_contains ch meta_chars then ["\"%char; ch] else [ch]) value) = Some value.
Proof.
  induction value as [|c value IH]; [done|]. cbn [flat_map].
  destruct (vec_contains c meta_chars) eqn:Hc; cbn -[meta_chars operators punctuation].
  - apply meta_chars_punctuation in Hc. by rewrite Hc, IH.
  - destruct (Ascii.eqb_spec c "\"%char) as [->|]; [done|].
    destruct (vec_contains c operators) eqn:Ho; [|by rewrite IH].
    apply operators_escaped in Ho. congruence.
Qed.
Lemma exact_regex_matches value s : matches_only (exact_regex value) s <-> s = value.
Proof.
  unfold exact_regex. split.
  - intros (body & H%(f_equal bytes_of) & Hl). rewrite !bytes_of_app, !bytes_of_string_of in H.
    apply app_inv_head, app_inv_tail in H. subst body. rewrite literal_escaped in Hl. injection Hl as Hl.
    by rewrite <- (string_of_bytes_of s), <- Hl, string_of_bytes_of.
  - intros ->. eexists. split; [done|]. apply literal_escaped.
Qed.

(** ** Options *)

Section Options.
Variable show_float : Z -> string.
Variable format_first : Array -> result string.
Abbreviation option_text := (option_text show_float format_first).
Abbreviation options_of := (datafusion_format_options show_float format_first).
Abbreviation Options := (list (string * ArgValue)).

Lemma translate_options_Ok options : forall done translated,
  translate_options show_float format_first done options = Ok translated <->
  NoDup (map (fun o => option_key o.1) options) /\
  (forall o, o ∈ options -> done !! option_key o.1 = None) /\
  exists texts, Forall2 (fun o t => option_text o.1 o.2 = Ok t) options texts /\
    translated = list_to_map (zip (map (fun o => option_key o.1) options) texts) ∪ done.
Proof.
  induction options as [|[name value] options IH]; intros done translated; cbn [translate_options map].
  - split.
    + intros [= <-]. split_and!; [constructor|by intros o ?%elem_of_nil|]. exists []. split; [constructor|].
      cbn. by rewrite (left_id_L ∅ (∪)).
    + intros (_ & _ & texts & Ht & ->). inversion Ht; subst. cbn. by rewrite (left_id_L ∅ (∪)).
  - cbn [fst]. destruct (CatalogSources.option_text _ _ name value) as [text|] eqn:Htext; cbn.
    2: { split; [done|]. intros (_ & _ & texts & Ht & _). inversion Ht; subst. cbn in *. congruence. }
    destruct (done !! option_key name) as [old|] eqn:Hold.
    { split; [done|]. intros (_ & Hd & _). specialize (Hd (name, value) ltac:(left)). cbn in Hd. congruence. }
    rewrite IH. rewrite NoDup_cons. split.
    + intros (Hnd & Hd & texts & Ht & ->).
      assert (Hfresh : option_key name ∉ map (fun o => option_key o.1) options).
      { intros (o & Hk & Ho)%list_elem_of_fmap. specialize (Hd o Ho). rewrite Hk, lookup_insert in Hd. by rewrite decide_True in Hd. }
      split_and!; [done|done| |].
      * intros o [->|Ho]%elem_of_cons; [done|]. specialize (Hd o Ho). by apply lookup_insert_None in Hd as [? _].
      * exists (text :: texts). split; [by constructor|]. cbn. rewrite <- insert_union_l.
        rewrite insert_union_r; [done|]. apply not_elem_of_list_to_map_1.
        rewrite fst_zip; [done|]. rewrite length_map. apply Forall2_length in Ht. lia.
    + intros ([Hf Hnd] & Hd & texts & Ht & ->). inversion Ht as [|? text' ? texts' Htx Hts]; subst. cbn in Htx.
      split_and!; [done| |].
      * intros o Ho. apply lookup_insert_None. split; [apply Hd; by right|].
        intros He. apply Hf. rewrite He. apply list_elem_of_fmap. by exists o.
      * exists texts'. split; [done|]. cbn. assert (text' = text) as -> by congruence.
        rewrite <- insert_union_l, insert_union_r; [done|]. apply not_elem_of_list_to_map_1.
        rewrite fst_zip; [done|]. rewrite length_map. apply Forall2_length in Hts. lia.
Qed.

Lemma options_of_Ok options m :
  options_of options = Ok m <->
  NoDup (map (fun o => option_key o.1) options) /\
  exists texts, Forall2 (fun o t => option_text o.1 o.2 = Ok t) options texts /\
    m = list_to_map (zip (map (fun o => option_key o.1) options) texts).
Proof.
  unfold datafusion_format_options. rewrite translate_options_Ok. setoid_rewrite (right_id_L ∅ (∪)).
  split; [naive_solver|]. intros [? ?]. split_and!; [done| |done]. intros. apply lookup_empty.
Qed.
Lemma options_lookup options m :
  options_of options = Ok m ->
  forall k t, m !! k = Some t <->
    exists o, o ∈ options /\ option_key o.1 = k /\ option_text o.1 o.2 = Ok t.
Proof.
  intros (Hnd & texts & Ht & ->)%options_of_Ok k t.
  assert (Hl : length (map (fun o => option_key o.1) options) = length texts)
    by (rewrite length_map; by eapply Forall2_length).
  rewrite <- elem_of_list_to_map by (rewrite fst_zip by lia; done).
  rewrite list_elem_of_lookup. setoid_rewrite lookup_zip_with_Some. split.
  - intros (i & k' & t' & [= <- <-] & Hk & Hti). change (map ?f options) with (f <$> options) in Hk.
    apply list_lookup_fmap_Some in Hk as (o & -> & Ho).
    exists o. split_and!; [by eapply list_elem_of_lookup_2|done|]. by eapply Forall2_lookup_lr in Ht.
  - intros (o & [i Ho]%list_elem_of_lookup & <- & Hot). exists i, (option_key o.1), t.
    change (map ?f options) with (f <$> options). rewrite list_lookup_fmap, Ho. split_and!; [done|done|].
    destruct (Forall2_lookup_l _ _ _ _ _ Ht Ho) as (t' & Ht' & Hv). congruence.
Qed.
Lemma is_null_option_key name : is_null_option name = true -> option_key name = "format.null_regex".
Proof.
  unfold is_null_option, option_key. rewrite vec_contains_spec. intros [->| ->%list_elem_of_singleton]%elem_of_cons; done.
Qed.

(** Format options reach DataFusion one for one: no two under one name
    (aliases included), each with its own value, whatever their order; and the
    pattern for the exact null marker matches the marker and nothing else. *)
Theorem format_options_exact options m :
  options_of options = Ok m ->
  NoDup (map (fun o => option_key o.1) options) /\
  (forall k t, m !! k = Some t <-> exists o, o ∈ options /\ option_key o.1 = k /\ option_text o.1 o.2 = Ok t) /\
  (forall options', Permutation options options' -> options_of options' = Ok m) /\
  (forall marker, exact_null_string show_float format_first options = Ok (Some marker) ->
   exists pattern, m !! "format.null_regex" = Some pattern /\ forall s, matches_only pattern s <-> s = marker).
Proof.
  intros Hm. pose proof (options_lookup options m Hm) as Hl.
  pose proof Hm as (Hnd & texts & Ht & Heq)%options_of_Ok. split_and!; [done|done| |].
  - intros options' Hp. destruct (options_of options') as [m'|] eqn:Hm'.
    + f_equal. apply map_eq. intros k. apply option_eq. intros t.
      rewrite Hl, (options_lookup _ _ Hm'). by setoid_rewrite Hp.
    + exfalso.
      assert (Hall : forall o, o ∈ options' -> exists t, option_text o.1 o.2 = Ok t).
      { intros o Ho. rewrite <- Hp in Ho. apply list_elem_of_lookup in Ho as [i Ho].
        destruct (Forall2_lookup_l _ _ _ _ _ Ht Ho) as (t & _ & ?). eauto. }
      assert (exists texts', Forall2 (fun o t => option_text o.1 o.2 = Ok t) options' texts') as [texts' Ht'].
      { clear - Hall. induction options' as [|o os IH]; [by exists []|].
        destruct (Hall o) as [t ?]; [left|]. destruct IH as [ts ?]; [intros; apply Hall; by right|].
        exists (t :: ts). by constructor. }
      assert (options_of options' = Ok (list_to_map (zip (map (fun o => option_key o.1) options') texts'))); [|congruence].
      apply options_of_Ok. split; [by rewrite <- Hp|]. eauto.
  - intros marker. unfold exact_null_string. destruct (List.find _ options) as [[name value]|] eqn:Hf; [|done].
    apply find_some in Hf as [Hin Hn]. cbn in Hn. apply list_elem_of_In in Hin.
    destruct (option_value _ _ value name) as [text|] eqn:Hv; [|done]. cbn. intros [= <-].
    exists (exact_regex text). split; [|apply exact_regex_matches].
    apply Hl. exists (name, value). split_and!; [done|by apply is_null_option_key|].
    unfold CatalogSources.option_text. cbn. by rewrite Hv, Hn.
Qed.
End Options.

(** A delimiter, a header flag and the marker [N.A.]. *)
Definition sample_options : list (string * ArgValue) :=
  [("NULLSTR", Text "N.A."); ("delim", Text ";"); ("has_header", Bool true)].
Lemma sample_options_parse : exists m, datafusion_format_options (fun _ => "1.5") (fun _ => Ok "x") sample_options = Ok m.
Proof.
  assert (is_ok (datafusion_format_options (fun _ => "1.5") (fun _ => Ok "x") sample_options) = true)
    as H by (vm_compute; reflexivity).
  destruct (datafusion_format_options _ _ sample_options) as [m|]; [by exists m|discriminate H].
Qed.
Lemma sample_options_null : exact_null_string (fun _ => "1.5") (fun _ => Ok "x") sample_options = Ok (Some "N.A.").
Proof. by vm_compute. Qed.
Lemma format_options_exact_witness :
  exists m, datafusion_format_options (fun _ => "1.5") (fun _ => Ok "x") sample_options = Ok m /\
  (exists pattern, m !! "format.null_regex" = Some pattern /\ ~ matches_only pattern "NXAX").
Proof.
  destruct sample_options_parse as [m Hm]. exists m. split; [exact Hm|].
  destruct (format_options_exact (fun _ => "1.5") (fun _ => Ok "x") sample_options m Hm) as (_ & _ & _ & Hn).
  destruct (Hn "N.A." sample_options_null) as (p & Hp & Hs). exists p. split; [exact Hp|]. rewrite Hs. done.
Defined.
