(* ===== verification/CatalogPlans.v ===== *)
(** * Plans over the branches of a catalog table

    The physical plans catalog.rs builds around what a branch's source emits:
    reconciling its columns with the declared ones, restoring exact nulls,
    filtering a branch by its own predicate, and computing generated columns.
    Plans are a small syntax with their rows as meaning. *)

From S2P Require Import Prelude Text AttachSql Macros CatalogFilters ScanShape.

Section Plans.
Context {DataType Meta Value Logical Computed : Type} `{EqDecision DataType, EqDecision Meta}.
Abbreviation Field := (@Field DataType Meta).
Abbreviation Schema := (@Schema DataType Meta).
Abbreviation Row := (list Value).

(** Metadata [generated_expression] of a field; the three string types; the
    value of SQL expressions over a row of a schema. *)
Variable generated_expression : Meta -> option string.
Variable is_text : DataType -> bool.
Variable create_logical_expr : string -> Schema -> result Logical.
Variable logical_columns : Logical -> list string.
Variable logical_cast : Logical -> DataType -> Schema -> result Logical.
Variable create_physical_expr : Logical -> Schema -> result Computed.
Variable compute : Computed -> Row -> Value.
Variable computes_true : Computed -> Row -> bool.
(** Whether the session is DataFusion's own, with SQL expressions. *)
Variable session_state : bool.
(** NULL of a type, casts between types, and the text of a value. *)
Variable null : DataType -> Value.
Variable castable : DataType -> DataType -> result unit.
Variable cast_value : DataType -> DataType -> Value -> Value.
Variable text_of : Value -> option string.

(** ** Plans *)

Inductive PhysExpr :=
  | Col (index : nat)
  | NullLiteral (ty : DataType)
  | CastCol (index : nat) (from to : DataType)
  | NullWhen (index : nat) (marker : string) (ty : DataType)
  | Sql (e : Computed).
Inductive ExecutionPlan :=
  | Source (schema : Schema) (rows : list Row)
  | Empty (schema : Schema)
  | Project (exprs : list PhysExpr) (schema : Schema) (input : ExecutionPlan)
  | Filter (predicate : Computed) (input : ExecutionPlan)
  | Union (schema : Schema) (inputs : list ExecutionPlan)
  | GlobalLimit (n : nat) (input : ExecutionPlan).
(** What the constructors of DataFusion's nodes check. *)
Variable accepts : ExecutionPlan -> result unit.
Definition build (p : ExecutionPlan) : result ExecutionPlan := _ ← accepts p; Ok p.

Fixpoint plan_schema (p : ExecutionPlan) : Schema :=
  match p with
  | Source schema _ | Empty schema | Project _ schema _ | Union schema _ => schema
  | Filter _ input | GlobalLimit _ input => plan_schema input
  end.

(** The rows of a run in which nothing fails. A column that is not there has no
    value. *)
Definition eval (e : PhysExpr) (r : Row) : option Value :=
  match e with
  | Col i => r !! i
  | NullLiteral ty => Some (null ty)
  | CastCol i from to => cast_value from to <$> r !! i
  | NullWhen i marker ty =>
      (fun v => if bool_decide (text_of v = Some marker) then null ty else v) <$> r !! i
  | Sql e => Some (compute e r)
  end.
Definition eval_row (es : list PhysExpr) (r : Row) : Row := omap (fun e => eval e r) es.
Fixpoint rows (p : ExecutionPlan) : list Row :=
  match p with
  | Source _ rs => rs
  | Empty _ => []
  | Project es _ input => map (eval_row es) (rows input)
  | Filter predicate input => List.filter (computes_true predicate) (rows input)
  | Union _ inputs => flat_map rows inputs
  | GlobalLimit n input => take n (rows input)
  end.

(** ** The schemas of a table *)

(** The table's declared schema; the columns its sources emit are those that
    are not generated. *)
Definition is_stored (f : Field) : bool := match generated_expression (field_meta f) with Some _ => false | None => true end.
Definition physical_schema_of (output : Schema) : Schema :=
  mkSchema (List.filter is_stored (fields output)) (schema_meta output).
Definition has_generated_columns (output : Schema) : bool :=
  negb (length (fields (physical_schema_of output)) =? length (fields output))%nat.
(** [Schema::project] *)
Definition project_schema (s : Schema) (indices : list nat) : result Schema :=
  fs ← result_collect (fun i => ok_or (ArrowError "project index out of bounds") (fields s !! i)) indices;
  Ok (mkSchema fs (schema_meta s)).

(** ** Reconciling a branch *)

(** [table] is [schema.name], for messages. *)
Definition same_field (name : string) (f : Field) : bool := eq_ignore_ascii_case (field_name f) name.
Fixpoint field_positions (n : nat) (name : string) (fs : list Field) : list (nat * Field) :=
  match fs with
  | [] => []
  | f :: fs => if same_field name f then (n, f) :: field_positions (S n) name fs else field_positions (S n) name fs
  end.
Definition reconcile_column (raw : Schema) (canonical : Field) : result PhysExpr :=
  match field_positions 0 (field_name canonical) (fields raw) with
  | [] => Ok (NullLiteral (data_type canonical))
  | [(i, f)] =>
      if decide (data_type f = data_type canonical) then Ok (Col i)
      else _ ← castable (data_type f) (data_type canonical); Ok (CastCol i (data_type f) (data_type canonical))
  | _ => Err (Plan ("VGI branch returned duplicate case-insensitive column " +:+ debug_text (field_name canonical)))
  end.
Definition reconcile_branch (table : string) (physical : Schema) (input : ExecutionPlan) : result ExecutionPlan :=
  let raw := plan_schema input in
  match List.find (fun f => negb (existsb (same_field (field_name f)) (fields physical))) (fields raw) with
  | Some f => Err (Plan ("VGI branch returned column " +:+ debug_text (field_name f)
                                 +:+ " which is not in table `" +:+ table +:+ "`"))
  | None =>
      es ← result_collect (reconcile_column raw) (fields physical);
      build (Project es physical input)
  end.

(** ** Exact nulls of a native format *)

Definition apply_native_null_string (null_string : option string) (input : ExecutionPlan) : result ExecutionPlan :=
  match null_string with
  | None => Ok input
  | Some marker =>
      build (Project (imap (fun i f => if is_text (data_type f) then NullWhen i marker (data_type f) else Col i)
                        (fields (plan_schema input))) (plan_schema input) input)
  end.

(** ** A branch's own filter *)

(** [describe] is the branch in messages. *)
Definition apply_branch_filter (physical provider_schema : Schema) (describe : string)
    (branch_filter : option string) (input : ExecutionPlan) : result ExecutionPlan :=
  match branch_filter with
  | None => Ok input
  | Some sql =>
      if String.eqb (trim sql) "" then Ok input
      else if negb session_state
      then Err (Plan "VGI branch filters require DataFusion SessionState SQL expression support")
      else
        logical ← create_logical_expr sql physical;
        match List.find (fun c => negb (existsb (same_field c) (fields provider_schema))) (logical_columns logical) with
        | Some c => Err (Plan ("VGI branch filter references column " +:+ debug_text c
                                       +:+ " not exposed by branch " +:+ describe))
        | None =>
            predicate ← create_physical_expr logical physical;
            build (Filter predicate input)
        end
  end.

(** What [scan_multi_branches] does to the plan of one branch. *)
Definition branch_plan (table describe : string) (physical provider_schema : Schema) (null_string branch_filter : option string)
    (raw : ExecutionPlan) : result ExecutionPlan :=
  raw ← apply_native_null_string null_string raw;
  reconciled ← reconcile_branch table physical raw;
  apply_branch_filter physical provider_schema describe branch_filter reconciled.

(** ** Predicates a source can be given *)

(** [expr_to_columns] *)
Fixpoint expr_columns (e : Expr) : list string :=
  match e with
  | Column name => [name]
  | TextLiteral _ => []
  | ScalarFunction _ args => flat_map expr_columns args
  | OtherExpr cs => flat_map expr_columns cs
  end.
Definition physical_filters (physical : Schema) (filters : list Expr) : list Expr :=
  let names := map field_name (fields physical) in
  List.filter (fun f => forallb (fun c => vec_contains c names) (expr_columns f)) filters.
Definition branch_filters (provider_schema : Schema) (filters : list Expr) : list Expr :=
  let raw_names := map (fun f => to_ascii_lowercase (field_name f)) (fields provider_schema) in
  List.filter (fun f => forallb (fun c => vec_contains (to_ascii_lowercase c) raw_names) (expr_columns f)) filters.

(** ** What the query sees *)

Definition generated_column (physical : Schema) (f : Field) : result PhysExpr :=
  match generated_expression (field_meta f) with
  | Some sql =>
      logical ← create_logical_expr sql physical;
      logical ← logical_cast logical (data_type f) physical;
      e ← create_physical_expr logical physical;
      Ok (Sql e)
  | None =>
      i ← ok_or (ArrowError (field_name f)) (index_of physical (field_name f));
      Ok (Col i)
  end.
Definition generated_projection (output : Schema) (projection : option (list nat)) (input : ExecutionPlan) : result ExecutionPlan :=
  if negb session_state
  then Err (Plan "VGI generated columns require DataFusion SessionState SQL expression support")
  else
  let physical := physical_schema_of output in
  let selected := default (seq 0 (length (fields output))) projection in
  projected ← project_schema output selected;
  es ← result_collect (generated_column physical) (fields projected);
  build (Project es projected input).

(** The tail of [scan_multi_branches]. *)
Definition assemble_branches (output : Schema) (projection : option (list nat)) (limit : option nat)
    (inputs : list ExecutionPlan) : result ExecutionPlan :=
  plan ← build (Union (physical_schema_of output) inputs);
  if has_generated_columns output then generated_projection output projection plan
  else
    plan ← match projection with
           | Some indices =>
               projected ← project_schema output indices;
               build (Project (map Col indices) projected plan)
           | None => Ok plan
           end;
    Ok (match limit with Some n => GlobalLimit n plan | None => plan end).
End Plans.
