(* ===== verification/CatalogPlanTheorems.v ===== *)
(** * Theorems on the plans of catalog tables

    Reconciling a branch gives every declared column its value by name; and the
    predicates handed to a branch's source are invisible to the query, as long as
    the branch emits the columns they read in the declared type. *)

From S2P Require Import Prelude Text AttachSql Macros CatalogFilters ScanShape CatalogPlans.

Section Theorems.
Context {DataType Meta Value Logical Computed : Type} `{EqDecision DataType, EqDecision Meta}.
Abbreviation Field := (@Field DataType Meta).
Abbreviation Schema := (@Schema DataType Meta).
Abbreviation Row := (list Value).
Abbreviation ExecutionPlan := (@ExecutionPlan DataType Meta Value Computed).
Variable generated_expression : Meta -> option string.
Variable is_text : DataType -> bool.
Variable create_logical_expr : string -> Schema -> result Logical.
Variable logical_columns : Logical -> list string.
Variable logical_cast : Logical -> DataType -> Schema -> result Logical.
Variable create_physical_expr : Logical -> Schema -> result Computed.
Variable compute : Computed -> Row -> Value.
Variable computes_true : Computed -> Row -> bool.
Variable session_state : bool.
Variable null : DataType -> Value.
Variable castable : DataType -> DataType -> result unit.
Variable cast_value : DataType -> DataType -> Value -> Value.
Variable text_of : Value -> option string.
Variable accepts : ExecutionPlan -> result unit.
(** A cast to the type a value has leaves it alone. *)
Hypothesis cast_same : forall ty v, cast_value ty ty v = v.

Abbreviation reconcile_branch := (reconcile_branch castable accepts).
Abbreviation reconcile_column := (reconcile_column castable).
Abbreviation eval := (eval compute null cast_value text_of).
Abbreviation eval_row := (eval_row compute null cast_value text_of).
Abbreviation rows := (rows compute computes_true null cast_value text_of).
Abbreviation build := (build accepts).
Abbreviation physical_schema_of := (physical_schema_of generated_expression).
Abbreviation null_string_plan := (apply_native_null_string is_text accepts).
Abbreviation branch_filter_plan := (apply_branch_filter create_logical_expr logical_columns create_physical_expr session_state accepts).
Abbreviation generated_projection := (generated_projection generated_expression create_logical_expr logical_cast create_physical_expr session_state accepts).

(** ** Rows by name *)

Lemma Forall2_map_of {A B} (P : A -> Prop) (R : A -> B -> Prop) (g : A -> B) l :
  Forall P l -> (forall x, P x -> R x (g x)) -> Forall2 R l (map g l).
Proof. intros Hl HR. induction Hl; cbn; constructor; auto. Qed.


Lemma build_Ok (p q : ExecutionPlan) : build p = Ok q -> q = p.
Proof. unfold CatalogPlans.build. destruct (accepts p); cbn; [by intros [= <-]|done]. Qed.

Lemma field_positions_spec name (fs : list Field) : forall n i f,
  (i, f) ∈ field_positions n name fs <-> exists k, i = (n + k)%nat /\ fs !! k = Some f /\ same_field name f = true.
Proof.
  induction fs as [|g fs IH]; intros n i f; cbn.
  - split; [by intros ?%elem_of_nil|]. intros (k & _ & Hk & _). by rewrite lookup_nil in Hk.
  - assert (Hshift : (i, f) ∈ field_positions (S n) name fs <->
      exists k, i = (n + S k)%nat /\ fs !! k = Some f /\ same_field name f = true).
    { rewrite IH. split; intros (k & -> & ? & ?); exists k; split_and!; try done; lia. }
    destruct (same_field name g) eqn:Hg; rewrite ?elem_of_cons, Hshift; split.
    + intros [[= -> ->]|(k & -> & ? & ?)]; [exists 0%nat|exists (S k)]; split_and!; try done; lia.
    + intros ([|k] & -> & Hk & Hs); cbn in Hk; [left; rewrite Nat.add_0_r; congruence|right]. by exists k.
    + intros (k & -> & ? & ?). by exists (S k).
    + intros ([|k] & -> & Hk & Hs); cbn in Hk; [congruence|]. by exists k.
Qed.

(** What reconciling does to one row, by name. *)
Definition reconciled (raw : Schema) (physical : Schema) (r r' : Row) : Prop :=
  length r' = length (fields physical) /\
  forall j canonical, fields physical !! j = Some canonical ->
    (forall i f, fields raw !! i = Some f -> same_field (field_name canonical) f = true ->
       r' !! j = cast_value (data_type f) (data_type canonical) <$> r !! i) /\
    ((forall f : Field, f ∈ fields raw -> same_field (field_name canonical) f = false) ->
       r' !! j = Some (null (data_type canonical))).

Lemma reconcile_column_eval raw canonical pe r :
  reconcile_column raw canonical = Ok pe -> length r = length (fields raw) ->
  exists v, eval pe r = Some v /\
    (forall i f, fields raw !! i = Some f -> same_field (field_name canonical) f = true ->
       Some v = cast_value (data_type f) (data_type canonical) <$> r !! i) /\
    ((forall f : Field, f ∈ fields raw -> same_field (field_name canonical) f = false) ->
       v = null (data_type canonical)).
Proof.
  unfold CatalogPlans.reconcile_column. intros Hp Hlen.
  destruct (field_positions 0 (field_name canonical) (fields raw)) as [|[i f] [|? ?]] eqn:Hf; [| |done].
  - injection Hp as <-. exists (null (data_type canonical)). split_and!; [done| |done].
    intros i f Hi Hs. exfalso. assert ((i, f) ∈ field_positions 0 (field_name canonical) (fields raw)) as Hin
      by (apply field_positions_spec; by exists i). rewrite Hf in Hin. by apply elem_of_nil in Hin.
  - assert ((i, f) ∈ field_positions 0 (field_name canonical) (fields raw)) as Hin by (rewrite Hf; left).
    apply field_positions_spec in Hin as (k & -> & Hi & Hs). cbn in *.
    destruct (lookup_lt_is_Some_2 r k) as [v Hv]; [rewrite Hlen; by eapply lookup_lt_Some|].
    assert (Huniq : forall i' f', fields raw !! i' = Some f' -> same_field (field_name canonical) f' = true -> i' = k /\ f' = f).
    { intros i' f' Hi' Hs'. assert ((i', f') ∈ field_positions 0 (field_name canonical) (fields raw)) as Hin
        by (apply field_positions_spec; by exists i'). rewrite Hf in Hin. apply list_elem_of_singleton in Hin. by injection Hin as -> ->. }
    exists (cast_value (data_type f) (data_type canonical) v). split_and!.
    + destruct (decide (data_type f = data_type canonical)) as [He|].
      * injection Hp as <-. cbn. by rewrite Hv, He, cast_same.
      * destruct (castable _ _); [|done]. cbn in Hp. injection Hp as <-. cbn. by rewrite Hv.
    + intros i' f' Hi' Hs'. destruct (Huniq i' f' Hi' Hs') as [-> ->]. by rewrite Hv.
    + intros Hno. assert (f ∈ fields raw) as Hin by by eapply list_elem_of_lookup_2.
      apply Hno in Hin. congruence.
Qed.

(** Every row of a plan has the width of its schema. *)
Definition wide (p : ExecutionPlan) : Prop := Forall (fun r => length r = length (fields (plan_schema p))) (rows p).

Lemma eval_row_lookup es r vs :
  Forall2 (fun e v => eval e r = Some v) es vs -> eval_row es r = vs.
Proof. unfold CatalogPlans.eval_row. induction 1 as [|e v es vs He _ IH]; cbn; [done|]. by rewrite He, IH. Qed.

Lemma reconcile_row raw physical es r :
  result_collect (reconcile_column raw) (fields physical) = Ok es -> length r = length (fields raw) ->
  reconciled raw physical r (eval_row es r).
Proof.
  intros Hes%result_collect_Ok Hlen.
  assert (exists vs, Forall2 (fun e v => eval e r = Some v) es vs /\
    Forall2 (fun canonical v =>
      (forall i f, fields raw !! i = Some f -> same_field (field_name canonical) f = true ->
         Some v = cast_value (data_type f) (data_type canonical) <$> r !! i) /\
      ((forall f : Field, f ∈ fields raw -> same_field (field_name canonical) f = false) ->
         v = null (data_type canonical))) (fields physical) vs) as (vs & Hvs & Hspec).
  { induction Hes as [|canonical e cs es He _ IH]; [by exists []|].
    destruct IH as (vs & ? & ?). destruct (reconcile_column_eval _ _ _ _ He Hlen) as (v & ? & ? & ?).
    exists (v :: vs). by repeat constructor. }
  rewrite (eval_row_lookup _ _ _ Hvs). split; [symmetry; by eapply Forall2_length|].
  intros j canonical Hj. destruct (Forall2_lookup_l _ _ _ _ _ Hspec Hj) as (v & Hv & H1 & H2). rewrite Hv. split.
  - intros i f Hi Hs. by rewrite (H1 i f Hi Hs).
  - intros Hno. by rewrite (H2 Hno).
Qed.

(** Reconciling a branch gives each declared column its value by name,
    whatever the case and the order in which the branch emits it: cast to the
    declared type, NULL when the branch has no such column; and it refuses a
    branch that emits anything else. *)
Theorem reconcile_by_name table physical input p :
  wide input -> reconcile_branch table physical input = Ok p ->
  plan_schema p = physical /\
  Forall2 (reconciled (plan_schema input) physical) (rows input) (rows p) /\
  (forall f : Field, f ∈ fields (plan_schema input) ->
   exists canonical : Field, canonical ∈ fields physical /\ same_field (field_name f) canonical = true).
Proof.
  unfold CatalogPlans.reconcile_branch. intros Hw.
  destruct (List.find _ _) as [f|] eqn:Hfind; [done|].
  destruct (result_collect _ _) as [es|] eqn:Hes; [|done]. cbn. intros ->%build_Ok. split_and!.
  - done.
  - cbn. eapply Forall2_map_of; [exact Hw|]. intros r Hr. by apply reconcile_row.
  - intros f Hf. apply list_elem_of_In in Hf. pose proof (find_none _ _ Hfind f Hf) as Hn.
    apply negb_false_iff, existsb_exists in Hn as (c & Hc & Hs). exists c. by rewrite list_elem_of_In.
Qed.

Lemma List_filter_true {A} (l : list A) : List.filter (fun _ => true) l = l.
Proof. induction l; cbn; congruence. Qed.

(** ** Predicates handed to a source *)

Abbreviation branch_plan :=
  (branch_plan is_text create_logical_expr logical_columns create_physical_expr session_state castable accepts).

(** The meaning of a predicate: it reads its columns by name. *)
Variable holds : Expr -> (string -> option Value) -> bool.
Hypothesis holds_columns : forall f e1 e2, (forall c, c ∈ expr_columns f -> e1 c = e2 c) -> holds f e1 = holds f e2.
Definition env (s : Schema) (r : Row) (c : string) : option Value := index_of s c ≫= fun i => r !! i.
Definition all_hold (s : Schema) (fs : list Expr) (r : Row) : bool := forallb (fun f => holds f (env s r)) fs.

(** A source takes predicates as hints ([Inexact]): it may leave out rows on
    which one of them fails, and nothing else. *)
Definition honours (hints : list Expr) (raw full : ExecutionPlan) : Prop :=
  plan_schema raw = plan_schema full /\
  List.filter (all_hold (plan_schema full) hints) (rows raw) = List.filter (all_hold (plan_schema full) hints) (rows full).

(** The columns the query's predicates read, as far as the branch has them
    (whatever their case), are emitted under their names, in the declared types,
    and not subject to a null marker. *)
Definition emitted (raw physical : Schema) (null_string : option string) (c : string) : Prop :=
  exists i j rf cf, index_of raw c = Some i /\ fields raw !! i = Some rf /\ field_name rf = c /\
    index_of physical c = Some j /\ fields physical !! j = Some cf /\ field_name cf = c /\
    data_type rf = data_type cf /\ (null_string = None \/ is_text (data_type rf) = false).
Definition faithful (filters : list Expr) (raw physical : Schema) (null_string : option string) : Prop :=
  forall f c rf, f ∈ filters -> c ∈ expr_columns f -> rf ∈ fields raw -> same_field c rf = true ->
  emitted raw physical null_string c.

(** The branch's treatment of a row depends on the schema only. *)
Definition null_row (schema : Schema) (null_string : option string) (r : Row) : Row :=
  match null_string with
  | None => r
  | Some marker =>
      eval_row (imap (fun i f => if is_text (data_type f) then NullWhen i marker (data_type f) else Col i) (fields schema)) r
  end.
Lemma null_string_rows null_string p q :
  null_string_plan null_string p = Ok q ->
  plan_schema q = plan_schema p /\ rows q = map (null_row (plan_schema p) null_string) (rows p).
Proof.
  unfold apply_native_null_string. destruct null_string as [marker|].
  - intros ->%build_Ok. done.
  - intros [= <-]. split; [done|]. cbn. by rewrite map_id.
Qed.
Lemma eval_row_total es r :
  (forall e, e ∈ es -> is_Some (eval e r)) -> length (eval_row es r) = length es /\
  forall i e, es !! i = Some e -> eval_row es r !! i = eval e r.
Proof.
  unfold CatalogPlans.eval_row. induction es as [|e es IH]; intros Hs; cbn; [by split|].
  destruct (Hs e ltac:(left)) as [v Hv]. rewrite Hv.
  destruct IH as [Hl Hi]; [intros; apply Hs; by right|]. split; [cbn; by rewrite Hl|].
  intros [|i] e'; cbn; [intros [= <-]; by rewrite Hv|apply Hi].
Qed.
Lemma null_row_spec schema null_string r :
  length r = length (fields schema) ->
  length (null_row schema null_string r) = length (fields schema) /\
  forall i f, fields schema !! i = Some f -> null_string = None \/ is_text (data_type f) = false ->
    null_row schema null_string r !! i = r !! i.
Proof.
  intros Hlen. unfold null_row. destruct null_string as [marker|]; [|done].
  set (es := imap _ _).
  assert (Hes : forall i e, es !! i = Some e -> exists f, fields schema !! i = Some f /\
            e = (if is_text (data_type f) then NullWhen i marker (data_type f) else Col i)).
  { intros i e He. unfold es in He. rewrite list_lookup_imap in He. destruct (fields schema !! i) as [f|]; [|done].
    cbn in He. injection He as <-. eauto. }
  destruct (eval_row_total es r) as [Hl Hi].
  { intros e [i He]%list_elem_of_lookup. destruct (Hes i e He) as (f & Hf & ->).
    destruct (lookup_lt_is_Some_2 r i) as [v Hv]; [rewrite Hlen; by eapply lookup_lt_Some|].
    destruct (is_text _); cbn; rewrite Hv; cbn; eauto. }
  split; [rewrite Hl; unfold es; by rewrite length_imap|].
  intros i f Hf [|Ht]; [done|]. rewrite (Hi i (Col i)); [done|]. unfold es.
  by rewrite list_lookup_imap, Hf; cbn; rewrite Ht.
Qed.

Lemma branch_filter_rows physical provider_schema describe branch_filter p q :
  branch_filter_plan physical provider_schema describe branch_filter p = Ok q ->
  exists keep, (keep = (fun _ => true) \/ exists e, keep = computes_true e) /\
    rows q = List.filter keep (rows p) /\
    forall p' q', branch_filter_plan physical provider_schema describe branch_filter p' = Ok q' ->
      rows q' = List.filter keep (rows p').
Proof.
  unfold apply_branch_filter. destruct branch_filter as [sql|].
  2: { intros [= <-]. exists (fun _ => true). rewrite List_filter_true. split_and!; [by left|done|]. intros p' q' [= <-]. by rewrite List_filter_true. }
  destruct (String.eqb _ _).
  { intros [= <-]. exists (fun _ => true). rewrite List_filter_true. split_and!; [by left|done|]. intros p' q' [= <-]. by rewrite List_filter_true. }
  destruct session_state; [|done]. cbn [negb].
  destruct (create_logical_expr sql physical) as [logical|]; [|done]. cbn.
  destruct (List.find _ _); [done|]. destruct (create_physical_expr logical physical) as [e|]; [|done]. cbn.
  intros ->%build_Ok. exists (computes_true e). split_and!; [right; eauto|done|]. by intros p' q' ->%build_Ok.
Qed.

(** One branch: a row function and a filter, the same for every plan of the
    source. *)
Lemma branch_plan_rows table describe physical provider_schema null_string branch_filter raw p :
  branch_plan table describe physical provider_schema null_string branch_filter raw = Ok p ->
  exists g keep,
    (forall r, length r = length (fields (plan_schema raw)) ->
       reconciled (plan_schema raw) physical (null_row (plan_schema raw) null_string r) (g r)) /\
    rows p = List.filter keep (map g (rows raw)) /\
    forall raw' p', plan_schema raw' = plan_schema raw ->
      branch_plan table describe physical provider_schema null_string branch_filter raw' = Ok p' ->
      rows p' = List.filter keep (map g (rows raw')).
Proof.
  unfold CatalogPlans.branch_plan.
  destruct (null_string_plan null_string raw) as [raw1|] eqn:H1; [|done]. cbn.
  destruct (null_string_rows _ _ _ H1) as [Hs1 Hr1].
  unfold CatalogPlans.reconcile_branch at 1. rewrite Hs1.
  destruct (List.find _ _) eqn:Hfind; [done|].
  destruct (result_collect _ _) as [es|] eqn:Hes; [|done]. cbn.
  destruct (build _) as [rec|] eqn:Hb; [|done]. apply build_Ok in Hb as ->. cbn.
  intros (keep & _ & Hk & Hall)%branch_filter_rows.
  exists (fun r => eval_row es (null_row (plan_schema raw) null_string r)), keep. split_and!.
  - intros r Hr. apply reconcile_row; [done|]. by apply null_row_spec.
  - rewrite Hk. cbn. by rewrite Hr1, map_map.
  - intros raw' p' Hs. destruct (null_string_plan null_string raw') as [raw1'|] eqn:H1'; [|done]. cbn.
    destruct (null_string_rows _ _ _ H1') as [Hs1' Hr1'].
    unfold CatalogPlans.reconcile_branch. rewrite Hs1', Hs, Hfind, Hes. cbn.
    destruct (build _) as [rec'|] eqn:Hb'; [|done]. apply build_Ok in Hb' as ->. cbn.
    intros Hp'. rewrite (Hall _ _ Hp'). cbn. by rewrite Hr1', map_map, Hs.
Qed.

(** A branch is given a predicate of the query only when it has every column the
    predicate reads. *)
Lemma branch_filters_present (raw : Schema) filters f :
  f ∈ branch_filters raw filters ->
  f ∈ filters /\ forall c, c ∈ expr_columns f -> exists rf : Field, rf ∈ fields raw /\ same_field c rf = true.
Proof.
  unfold branch_filters. rewrite !list_elem_of_In, filter_In, forallb_forall. intros [Hf Hall]. split; [done|].
  intros c Hc%list_elem_of_In. specialize (Hall c Hc). apply vec_contains_spec, list_elem_of_fmap in Hall as (rf & He & Hrf).
  exists rf. split; [done|]. unfold same_field. by apply eq_ignore_ascii_case_spec.
Qed.

(** On a faithful branch a hint means the same before and after. *)
Lemma faithful_holds filters raw physical null_string f r r' :
  faithful filters raw physical null_string -> f ∈ branch_filters raw filters -> length r = length (fields raw) ->
  reconciled raw physical (null_row raw null_string r) r' ->
  holds f (env physical r') = holds f (env raw r).
Proof.
  intros Hf Hin Hlen [Hl Hr]. apply holds_columns. intros c Hc.
  apply branch_filters_present in Hin as [Hin Hall]. destruct (Hall c Hc) as (rf0 & Hrf0 & Hs).
  destruct (Hf f c rf0 Hin Hc Hrf0 Hs) as (i & j & rf & cf & Hi & Hrf & Hn & Hj & Hcf & Hcn & Hty & Hnull).
  unfold env. rewrite Hi, Hj. cbn. destruct (Hr j cf Hcf) as [Hv _].
  rewrite (Hv i rf Hrf); [|unfold same_field; rewrite Hn, Hcn; apply eq_ignore_ascii_case_refl].
  destruct (null_row_spec raw null_string r Hlen) as [_ Hsame]. rewrite (Hsame i rf Hrf Hnull).
  rewrite Hty. destruct (r !! i); cbn; [by rewrite cast_same|done].
Qed.

Lemma filter_filter_map {A B} (q keep : B -> bool) (h : A -> bool) (g : A -> B) l :
  (forall x, x ∈ l -> q (g x) = true -> h x = true) ->
  List.filter q (List.filter keep (map g l)) = List.filter q (List.filter keep (map g (List.filter h l))).
Proof.
  induction l as [|x l IH]; intros Hq; cbn; [done|].
  assert (Hl : forall y, y ∈ l -> q (g y) = true -> h y = true) by (intros; apply Hq; [by right|done]).
  specialize (IH Hl). specialize (Hq x ltac:(left)).
  destruct (h x), (keep (g x)) eqn:Hk; cbn; rewrite ?Hk; cbn; try done.
  - by rewrite IH.
  - destruct (q (g x)); [by discriminate Hq|done].
Qed.

(** One branch of a scan: its source with the predicates it was given, the
    source as it is without, and the plans made of both. *)
Record HintedBranch := mkHinted {
  h_provider_schema : Schema; h_null_string : option string; h_filter : option string; h_describe : string;
  h_raw : ExecutionPlan; h_full : ExecutionPlan; h_plan : ExecutionPlan; h_full_plan : ExecutionPlan;
}.
Definition hinted (table : string) (physical : Schema) (filters : list Expr) (b : HintedBranch) : Prop :=
  let hints := branch_filters (h_provider_schema b) filters in
  plan_schema (h_full b) = h_provider_schema b /\ wide (h_full b) /\ wide (h_raw b) /\
  honours hints (h_raw b) (h_full b) /\
  faithful filters (h_provider_schema b) physical (h_null_string b) /\
  branch_plan table (h_describe b) physical (h_provider_schema b) (h_null_string b) (h_filter b) (h_raw b) = Ok (h_plan b) /\
  branch_plan table (h_describe b) physical (h_provider_schema b) (h_null_string b) (h_filter b) (h_full b) = Ok (h_full_plan b).

Lemma filter_flat_map {A B} (q : B -> bool) (g : A -> list B) l :
  List.filter q (flat_map g l) = flat_map (fun x => List.filter q (g x)) l.
Proof. induction l as [|x l IH]; cbn; [done|]. by rewrite List.filter_app, IH. Qed.

Lemma hinted_rows table physical filters b q :
  hinted table physical filters b ->
  (forall f r, f ∈ filters -> q r = true -> holds f (env physical r) = true) ->
  List.filter q (rows (h_plan b)) = List.filter q (rows (h_full_plan b)).
Proof.
  intros (Hs & Hw & Hwr & [Hsame Hhon] & Hfaith & Hp & Hfp) Hq.
  destruct (branch_plan_rows _ _ _ _ _ _ _ _ Hfp) as (g & keep & Hg & Hrows & Hall).
  rewrite Hrows, (Hall _ _ Hsame Hp).
  set (hints := branch_filters (h_provider_schema b) filters) in *.
  assert (Hsub : forall f, f ∈ hints -> f ∈ filters).
  { intros f. unfold hints, branch_filters. rewrite !list_elem_of_In, filter_In. by intros [? _]. }
  assert (Hhint : forall r, length r = length (fields (plan_schema (h_full b))) -> q (g r) = true ->
            all_hold (plan_schema (h_full b)) hints r = true).
  { intros r Hr Hqr. unfold all_hold. apply forallb_forall. intros f Hf%list_elem_of_In.
    rewrite Hs. rewrite <- (faithful_holds filters _ physical (h_null_string b) f r (g r)); try done.
    - apply Hq; [by apply Hsub|done].
    - by rewrite <- Hs.
    - rewrite <- Hs. by apply Hg. }
  rewrite (filter_filter_map q keep (all_hold (plan_schema (h_full b)) hints) g (rows (h_raw b))),
    (filter_filter_map q keep (all_hold (plan_schema (h_full b)) hints) g (rows (h_full b))).
  - by rewrite Hhon.
  - intros r Hr. apply Hhint. unfold wide in Hw. rewrite Forall_forall in Hw. by apply Hw.
  - intros r Hr. apply Hhint. unfold wide in Hwr. rewrite Forall_forall in Hwr. rewrite <- Hsame. by apply Hwr.
Qed.

(** Predicates given to the branches of a table are invisible to the query.
    Each branch gets those over its own columns and may leave out rows that fail
    one; when what they read is emitted under its name, in its declared type and
    without a null marker, the rows that satisfy the query, and their order, are
    those of branches that were given nothing. *)
Theorem branch_hints_invisible table physical filters branches schema q :
  Forall (hinted table physical filters) branches ->
  (forall f r, f ∈ filters -> q r = true -> holds f (env physical r) = true) ->
  List.filter q (rows (Union schema (map h_plan branches)))
  = List.filter q (rows (Union schema (map h_full_plan branches))).
Proof.
  intros Hb Hq. cbn. rewrite !filter_flat_map. induction Hb as [|b bs Hb _ IH]; [done|]. cbn.
  by rewrite IH, (hinted_rows _ _ _ _ _ Hb Hq).
Qed.

(** ** Generated columns *)

Abbreviation generated_column := (generated_column generated_expression create_logical_expr logical_cast create_physical_expr).
Abbreviation is_stored := (is_stored generated_expression).

(** What a generated column of a row is: its expression over the stored row,
    cast to the declared type. *)
Definition generates (physical : Schema) (f : Field) (sql : string) (r : Row) (v : Value) : Prop :=
  exists l l' e, create_logical_expr sql physical = Ok l /\ logical_cast l (data_type f) physical = Ok l' /\
    create_physical_expr l' physical = Ok e /\ v = compute e r.
(** A row under the catalog's schema, from the stored row. *)
Definition presented (physical projected : Schema) (r r' : Row) : Prop :=
  length r' = length (fields projected) /\
  forall k f, fields projected !! k = Some f ->
    match generated_expression (field_meta f) with
    | None => r' !! k = env physical r (field_name f)
    | Some sql => exists v, r' !! k = Some v /\ generates physical f sql r v
    end.

Lemma index_of_lookup (s : Schema) name i : index_of s name = Some i -> exists f, fields s !! i = Some f /\ field_name f = name.
Proof. intros (f & Hf & Hn)%position_Some. exists f. split; [done|]. by apply String.eqb_eq. Qed.
Lemma env_width (s : Schema) (r : Row) name i : index_of s name = Some i -> length r = length (fields s) -> is_Some (r !! i).
Proof. intros (f & Hf & _)%index_of_lookup Hl. apply lookup_lt_is_Some_2. rewrite Hl. by eapply lookup_lt_Some. Qed.

Lemma generated_column_eval physical f pe r :
  generated_column physical f = Ok pe -> length r = length (fields physical) ->
  exists v, eval pe r = Some v /\
    match generated_expression (field_meta f) with
    | None => env physical r (field_name f) = Some v
    | Some sql => generates physical f sql r v
    end.
Proof.
  unfold CatalogPlans.generated_column. intros Hg Hlen. destruct (generated_expression _) as [sql|].
  - destruct (create_logical_expr sql physical) as [l|] eqn:H1; [|done]. cbn in Hg.
    destruct (logical_cast l _ _) as [l'|] eqn:H2; [|done]. cbn in Hg.
    destruct (create_physical_expr l' _) as [e|] eqn:H3; [|done]. cbn in Hg. injection Hg as <-.
    eexists. split; [done|]. by exists l, l', e.
  - destruct (index_of physical (field_name f)) as [i|] eqn:Hi; [|done]. cbn in Hg. injection Hg as <-.
    destruct (env_width _ _ _ _ Hi Hlen) as [v Hv]. exists v. split; [done|]. unfold env. by rewrite Hi.
Qed.
Lemma presented_row physical projected es r :
  result_collect (generated_column physical) (fields projected) = Ok es -> length r = length (fields physical) ->
  presented physical projected r (eval_row es r).
Proof.
  intros Hes%result_collect_Ok Hlen.
  assert (exists vs, Forall2 (fun e v => eval e r = Some v) es vs /\
    Forall2 (fun f v => match generated_expression (field_meta f) with
                        | None => env physical r (field_name f) = Some v
                        | Some sql => generates physical f sql r v
                        end) (fields projected) vs) as (vs & Hvs & Hspec).
  { induction Hes as [|f e fs es He _ IH]; [by exists []|]. destruct IH as (vs & ? & ?).
    destruct (generated_column_eval _ _ _ _ He Hlen) as (v & ? & ?). exists (v :: vs). by repeat constructor. }
  rewrite (eval_row_lookup _ _ _ Hvs). split; [symmetry; by eapply Forall2_length|].
  intros k f Hk. destruct (Forall2_lookup_l _ _ _ _ _ Hspec Hk) as (v & Hv & Hm).
  rewrite Hv. destruct (generated_expression _); [by exists v|done].
Qed.

Lemma project_all (s : Schema) : project_schema s (seq 0 (length (fields s))) = Ok s.
Proof.
  unfold project_schema. assert (result_collect (fun i => ok_or (ArrowError "project index out of bounds") (fields s !! i))
    (seq 0 (length (fields s))) = Ok (fields s)) as ->; [|by destruct s].
  apply result_collect_Ok. apply Forall2_same_length_lookup. rewrite length_seq. split; [done|].
  intros i j f Hi Hf. apply lookup_seq in Hi as [-> _]. cbn. by rewrite Hf.
Qed.

Lemma generated_rows output p input :
  generated_projection output None input = Ok p -> plan_schema input = physical_schema_of output ->
  plan_schema p = output /\ exists h,
    (forall r, length r = length (fields (physical_schema_of output)) -> presented (physical_schema_of output) output r (h r)) /\
    rows p = map h (rows input) /\
    forall input' p', generated_projection output None input' = Ok p' -> rows p' = map h (rows input').
Proof.
  unfold CatalogPlans.generated_projection. intros Hp Hs. destruct session_state; [|done]. cbn [negb default] in *.
  rewrite project_all in *. cbn in Hp.
  destruct (result_collect _ _) as [es|] eqn:Hes; [|done]. cbn in *. apply build_Ok in Hp as ->. split; [done|].
  exists (eval_row es). split_and!; [|done|].
  - intros r Hr. by apply presented_row.
  - intros input' p'. rewrite Hes. cbn. by intros ->%build_Ok.
Qed.

(** Names of a schema, each once: a stored column is the same by either
    schema. *)
Lemma presented_env output r r' c :
  NoDup (map field_name (fields output)) -> c ∈ map field_name (fields (physical_schema_of output)) ->
  presented (physical_schema_of output) output r r' -> env output r' c = env (physical_schema_of output) r c.
Proof.
  intros Hnd (f & -> & Hf)%list_elem_of_fmap [_ Hp]. cbn in Hf.
  apply list_elem_of_In, filter_In in Hf as [Hin Hst]. apply list_elem_of_In, list_elem_of_lookup in Hin as [k Hk].
  assert (Hi : index_of output (field_name f) = Some k) by by apply index_of_own.
  unfold env at 1. rewrite Hi. cbn. specialize (Hp k f Hk). unfold is_stored, CatalogPlans.is_stored in Hst.
  by destruct (generated_expression (field_meta f)).
Qed.

(** A table with generated columns is its stored rows with every stored
    column under its name and every generated one computed from the stored row;
    and giving its source the predicates that read stored columns only is
    invisible to the query. *)
Theorem generated_scan_exact output filters raw full p p_full q :
  NoDup (map field_name (fields output)) ->
  plan_schema full = physical_schema_of output -> wide full -> wide raw ->
  honours (physical_filters (physical_schema_of output) filters) raw full ->
  generated_projection output None raw = Ok p -> generated_projection output None full = Ok p_full ->
  (forall f r, f ∈ filters -> q r = true -> holds f (env output r) = true) ->
  plan_schema p = output /\
  Forall2 (presented (physical_schema_of output) output) (rows full) (rows p_full) /\
  List.filter q (rows p) = List.filter q (rows p_full).
Proof.
  intros Hnd Hs Hw Hwr [Hsame Hhon] Hp Hpf Hq.
  destruct (generated_rows _ _ _ Hpf Hs) as (_ & h & Hh & Hrows & Hall).
  destruct (generated_rows _ _ _ Hp ltac:(by rewrite Hsame)) as (Hps & _).
  rewrite (Hall _ _ Hp), Hrows. split_and!; [done| |].
  - unfold wide in Hw. rewrite Hs in Hw. by eapply Forall2_map_of.
  - rewrite <- (List_filter_true (map h (rows raw))), <- (List_filter_true (map h (rows full))).
    set (hints := physical_filters (physical_schema_of output) filters) in *.
    assert (Hhint : forall r, length r = length (fields (physical_schema_of output)) -> q (h r) = true ->
              all_hold (plan_schema full) hints r = true).
    { intros r Hr Hqr. unfold all_hold. apply forallb_forall. intros f Hf%list_elem_of_In. rewrite Hs.
      assert (Hin : f ∈ filters /\ forall c, c ∈ expr_columns f -> c ∈ map field_name (fields (physical_schema_of output))).
      { unfold hints, physical_filters in Hf. rewrite list_elem_of_In, filter_In, forallb_forall, <- list_elem_of_In in Hf.
        destruct Hf as [Hf Hc]. split; [done|]. intros c Hin%list_elem_of_In. specialize (Hc c Hin). by apply bool_decide_eq_true in Hc. }
      destruct Hin as [Hin Hcs]. rewrite <- (Hq f (h r) Hin Hqr). symmetry. apply holds_columns.
      intros c Hc. apply presented_env; [done|by apply Hcs|by apply Hh]. }
    rewrite (filter_filter_map q (fun _ => true) (all_hold (plan_schema full) hints) h (rows raw)),
      (filter_filter_map q (fun _ => true) (all_hold (plan_schema full) hints) h (rows full)).
    + by rewrite Hhon.
    + intros r Hr. apply Hhint. unfold wide in Hw. rewrite Forall_forall, Hs in Hw. by apply Hw.
    + intros r Hr. apply Hhint. unfold wide in Hwr. rewrite Forall_forall, Hsame, Hs in Hwr. by apply Hwr.
Qed.
End Theorems.

(** ** Examples *)

(** Two types of numbers, tenths and units; predicates [c = 3]; generated
    columns that copy the first column. *)
Definition ex_cast (from to : bool) (v : nat) : nat :=
  match from, to with false, true => v / 10 | true, false => v * 10 | _, _ => v end.
Definition ex_holds (f : Expr) (e : string -> option nat) : bool :=
  match f with OtherExpr [Column c] => bool_decide (e c = Some 3) | _ => true end.
Definition ex_field (name : string) (ty : bool) : @Field bool (option string) := mkField name ty None.
Definition ex_schema (fs : list (@Field bool (option string))) : @Schema bool (option string) := mkSchema fs None.
Definition equals_3 (c : string) : Expr := OtherExpr [Column c].
Abbreviation ex_plan := (@ExecutionPlan bool (option string) nat unit).
Abbreviation ex_rows := (rows (DataType := bool) (Meta := option string) (fun (_ : unit) r => default 0 (head r)) (fun _ _ => true) (fun _ => 0) ex_cast (fun _ => None)).
Abbreviation ex_branch := (branch_plan (Logical := unit) (fun _ => false) (fun _ _ => Ok tt) (fun _ => []) (fun _ _ => Ok tt) true
  (fun _ _ => Ok tt) (fun _ : ex_plan => Ok tt)).

Lemma ex_cast_same ty v : ex_cast ty ty v = v.
Proof. by destruct ty. Qed.
Lemma ex_holds_columns f e1 e2 : (forall c, c ∈ expr_columns f -> e1 c = e2 c) -> ex_holds f e1 = ex_holds f e2.
Proof.
  intros H. destruct f as [| | |[|[c| | |] [|? ?]]]; try done. cbn in *. by rewrite (H c) by left.
Qed.

(** A branch that emits [B] in tenths and [a], for a table of [a], [b] and
    [z]. *)
Lemma reconcile_by_name_witness :
  exists p, reconcile_branch (Value := nat) (Computed := unit) (fun _ _ => Ok tt) (fun _ => Ok tt) "s.t"
      (ex_schema [ex_field "a" true; ex_field "b" true; ex_field "z" true])
      (Source (ex_schema [ex_field "B" false; ex_field "a" true]) [[37; 1]]) = Ok p /\
    ex_rows p = [[1; 3; 0]] /\ plan_schema p = ex_schema [ex_field "a" true; ex_field "b" true; ex_field "z" true].
Proof.
  eexists. split; [vm_compute; reflexivity|]. split; [reflexivity|].
  apply (reconcile_by_name (fun (_ : unit) r => default 0 (head r)) (fun _ _ => true) (fun _ => 0) (fun _ _ => Ok tt) ex_cast
    (fun _ => None) (fun _ => Ok tt) ex_cast_same "s.t" (ex_schema [ex_field "a" true; ex_field "b" true; ex_field "z" true])
    (Source (ex_schema [ex_field "B" false; ex_field "a" true]) [[37; 1]])).
  - by repeat constructor.
  - vm_compute. reflexivity.
Defined.

(** A source that leaves out the rows where its own [a] is not 3. *)
Definition ex_hinted (ty : bool) (raw full : list (list nat)) (plan full_plan : ex_plan) : @HintedBranch bool (option string) nat unit :=
  mkHinted (ex_schema [ex_field "a" ty]) None None "function f"
    (Source (ex_schema [ex_field "a" ty]) raw) (Source (ex_schema [ex_field "a" ty]) full) plan full_plan.
Definition ex_physical := ex_schema [ex_field "a" true].

Lemma branch_hints_invisible_witness :
  List.filter (fun r => bool_decide (head r = Some 3))
    (ex_rows (Union ex_physical [Project [Col 0] ex_physical (Source ex_physical [[3]])])) = [[3]].
Proof.
  set (b := ex_hinted true [[3]] [[3]; [4]] (Project [Col 0] ex_physical (Source ex_physical [[3]]))
              (Project [Col 0] ex_physical (Source ex_physical [[3]; [4]]))).
  pose proof (branch_hints_invisible (fun _ => false) (fun _ _ => Ok tt) (fun _ : unit => []) (fun _ _ => Ok tt)
    (fun (_ : unit) r => default 0 (head r)) (fun _ _ => true) true (fun _ => 0) (fun _ _ => Ok tt) ex_cast
    (fun _ => None) (fun _ => Ok tt) ex_cast_same ex_holds ex_holds_columns "s.t" ex_physical [equals_3 "a"] [b] ex_physical
    (fun r => bool_decide (head r = Some 3))) as H.
  cbn [map h_plan h_full_plan b ex_hinted] in H. rewrite H; [reflexivity| |].
  - apply Forall_singleton. unfold hinted, b, ex_hinted. cbn [h_provider_schema h_raw h_full h_plan h_full_plan h_null_string h_filter h_describe].
    split_and!; try (by repeat constructor); try (by vm_compute).
    intros f c rf ->%list_elem_of_singleton ->%list_elem_of_singleton _ _.
    exists 0, 0, (ex_field "a" true), (ex_field "a" true). split_and!; try done. by left.
  - intros f r ->%list_elem_of_singleton Hr. destruct r as [|v [|? ?]]; cbn in *; try done; by apply bool_decide_eq_true in Hr as [= ->].
Defined.

(** When the branch emits the column in another type, a hint may lose rows: the
    source leaves out 3.7, which the query would have seen as 3. *)
Lemma cast_hint_loses_rows :
  let full := Source (ex_schema [ex_field "a" false]) [[37]] in
  let raw := Source (ex_schema [ex_field "a" false]) [] in
  let hints := branch_filters (ex_schema [ex_field "a" false]) [equals_3 "a"] in
  hints = [equals_3 "a"] /\
  honours (fun (_ : unit) r => default 0 (head r)) (fun _ _ => true) (fun _ => 0) ex_cast (fun _ => None) ex_holds hints raw full /\
  exists p p_full, ex_branch "s.t" "function f" ex_physical (ex_schema [ex_field "a" false]) None None raw = Ok p /\
    ex_branch "s.t" "function f" ex_physical (ex_schema [ex_field "a" false]) None None full = Ok p_full /\
    ex_rows p = [] /\ ex_rows p_full = [[3]].
Proof. split; [reflexivity|]. split; [by vm_compute|]. do 2 eexists. by vm_compute. Qed.

(** A table of [a] and a generated [g], the copy of [a]. *)
Lemma generated_scan_exact_witness :
  let g := mkField "g" true (Some "a") in
  exists p p_full,
    generated_projection (Value := nat) (Logical := unit) (Computed := unit) id (fun _ _ => Ok tt) (fun _ _ _ => Ok tt)
      (fun _ _ => Ok tt) true (fun _ => Ok tt) (ex_schema [g; ex_field "a" true]) None (Source ex_physical [[3]]) = Ok p /\
    generated_projection (Value := nat) (Logical := unit) (Computed := unit) id (fun _ _ => Ok tt) (fun _ _ _ => Ok tt)
      (fun _ _ => Ok tt) true (fun _ => Ok tt) (ex_schema [g; ex_field "a" true]) None (Source ex_physical [[3]; [4]]) = Ok p_full /\
    ex_rows p_full = [[3; 3]; [4; 4]] /\
    List.filter (fun r => bool_decide (r !! 1 = Some 3)) (ex_rows p) = List.filter (fun r => bool_decide (r !! 1 = Some 3)) (ex_rows p_full).
Proof.
  intros g.
  set (over := fun rs => Project [Sql tt; Col 0] (ex_schema [g; ex_field "a" true]) (Source ex_physical rs) : ex_plan).
  exists (over [[3]]), (over [[3]; [4]]). split; [vm_compute; reflexivity|]. split; [vm_compute; reflexivity|].
  split; [reflexivity|].
  destruct (generated_scan_exact id (fun _ _ => Ok tt) (fun (_ : unit) _ _ => Ok tt) (fun _ _ => Ok tt)
    (fun (_ : unit) r => default 0 (head r)) (fun _ _ => true) true (fun _ => 0) ex_cast (fun _ => None) (fun _ => Ok tt)
    ex_holds ex_holds_columns (ex_schema [g; ex_field "a" true]) [equals_3 "a"] (Source ex_physical [[3]])
    (Source ex_physical [[3]; [4]]) (over [[3]]) (over [[3]; [4]]) (fun r => bool_decide (r !! 1 = Some 3))) as (_ & _ & H);
    [..|exact H]; try (by repeat constructor); try (by vm_compute).
  - by apply (bool_decide_unpack _).
  - intros f r ->%list_elem_of_singleton Hr. destruct r as [|u [|v r]]; cbn in *; try done.
Defined.
