(* ===== verification/CatalogScan.v ===== *)
(** * Catalog tables

    [VgiCatalogTableProvider] of catalog.rs: a table known from discovery whose
    source is bound when it is first scanned. A table may be a union of branches,
    and a branch another catalog table, so providers refer to each other; they
    live at addresses, and what each has resolved so far in cells that are filled
    once ([tokio::sync::OnceCell]). Other scans fill cells in between. *)

From S2P Require Import Prelude Text AttachSql Macros Protocol3 CatalogFilters CatalogSources ScanShape CatalogPlans.

Section Catalog.
Context {DataType Meta Value Logical Computed Raw Other At Stats StatBatch : Type} `{EqDecision DataType, EqDecision Meta}.
Abbreviation Schema := (@Schema DataType Meta).
Abbreviation ExecutionPlan := (@ExecutionPlan DataType Meta Value Computed).

(** ** Providers *)

(** [Arc<dyn TableProvider>]: a catalog table by its address, or anything
    else. *)
Inductive TableProvider := CatalogTable (address : nat) | OtherProvider (p : Other).
(** [std::ptr::eq] with a catalog table. *)
Definition is_table (self : nat) (p : TableProvider) : bool :=
  match p with CatalogTable a => (a =? self)%nat | OtherProvider _ => false end.

Record BoundCatalogBranch := mkBound {
  info : ScanBranch Raw; provider : TableProvider; null_string : option string;
}.
(** What discovery says of a table. *)
Record VgiCatalogTableProvider := mkCatalogTable {
  mount_alias : string; catalog : string; schema_name : string; table_name : string;
  at_ : option At; output_schema : Schema; required_filters : list (list (list string));
  cardinality_estimate : option Z; cardinality_max : option Z;
  supports_column_statistics : bool; inline_statistics : option (result StatBatch); schema_path : list string;
  allows_local_format_paths : bool;
}.
(** What it has resolved. *)
Record Cells := mkCells {
  bound_cell : option Other;
  branches_cell : option (option (list BoundCatalogBranch));
  statistics_cell : option (option Stats);
}.
Definition no_cells : Cells := mkCells None None None.

(** Events, and the branches noted for the diagnostics tables. *)
Inductive CatalogEvent :=
  | Emit (kind : string) (catalog function message : string)
  | SetTableBranches (alias schema table : string) (branches : list (ScanBranch Raw)).
Record State := mkState { clock : nat; cells : gmap nat Cells; log : list CatalogEvent }.
Definition cell (s : State) (a : nat) : Cells := default no_cells (cells s !! a).
Definition set_cell (a : nat) (c : Cells) (s : State) : State := mkState (clock s) (<[a := c]> (cells s)) (log s).
Definition emit (e : CatalogEvent) (s : State) : State := mkState (clock s) (cells s) (log s ++ [e]).

(** The tables there are. *)
Variable tables : gmap nat VgiCatalogTableProvider.

(** ** Identities and cycles *)

Record CatalogTableIdentity := mkIdentity { id_catalog : string; id_schema : string; id_table : string }.
Definition new_identity (catalog schema table : string) : CatalogTableIdentity :=
  mkIdentity (to_ascii_lowercase catalog) (to_ascii_lowercase schema) (to_ascii_lowercase table).
Definition display (i : CatalogTableIdentity) : string :=
  id_catalog i +:+ "." +:+ id_schema i +:+ "." +:+ id_table i.
Definition identity (t : VgiCatalogTableProvider) : CatalogTableIdentity :=
  new_identity (mount_alias t) (schema_name t) (table_name t).

(** The branches a table has resolved to, none when it has not or has one
    function. *)
Definition resolved_branches (s : State) (a : nat) : list BoundCatalogBranch :=
  match branches_cell (cell s a) with Some (Some bs) => bs | _ => [] end.
(** [reaches]: visited addresses and the path so far are shared by the calls. *)
Fixpoint reaches (fuel : nat) (s : State) (target : nat) (p : TableProvider) (visited : gset nat)
    (path : list CatalogTableIdentity) : bool * gset nat * list CatalogTableIdentity :=
  match fuel, p with
  | S fuel, CatalogTable a =>
      match tables !! a with
      | None => (false, visited, path)
      | Some t =>
          if decide (a ∈ visited) then (false, visited, path)
          else if (a =? target)%nat then (true, {[a]} ∪ visited, path ++ [identity t])
          else
            (fix each (bs : list BoundCatalogBranch) (visited : gset nat) (path : list CatalogTableIdentity) :=
               match bs with
               | [] => (false, visited, removelast path)
               | b :: bs =>
                   match reaches fuel s target (provider b) visited path with
                   | (true, visited, path) => (true, visited, path)
                   | (false, visited, path) => each bs visited path
                   end
               end) (resolved_branches s a) ({[a]} ∪ visited) (path ++ [identity t])
      end
  | _, _ => (false, visited, path)
  end.
Definition catalog_source_cycle (s : State) (self : nat) (p : TableProvider) : option (list string) :=
  match tables !! self with
  | None => None
  | Some t =>
      match reaches (S (size tables)) s self p ∅ [identity t] with
      | (true, _, path) => Some (map display path)
      | (false, _, _) => None
      end
  end.
Definition cycle_error (path : list string) : DFError :=
  Plan ("VGI catalog-table scan branch cycle detected: " +:+ String.concat " -> " path).

(** ** Binding a branch *)

(** The session: its catalogs as a lookup of tables, and what DataFusion's
    [SessionState] offers. *)
Inductive Lookup := NoCatalog | NoSchema | Table (answer : result (option TableProvider)).
Record Session := mkSession {
  session_state : bool;
  catalog_names : list string;
  worker_catalogs : list (string * string);
  lookup_table : string -> string -> string -> Lookup;
}.
Variable session : Session.

(** Worker calls: the branches of a table with how they were obtained, a
    branch's function, a table's own function; then a provider's declared schema. *)
Inductive Resolution := BranchesRpc | LegacyFallbackAfterProbe | LegacyCached.
Variable table_scan_branches : VgiCatalogTableProvider -> result (Resolution * list (ScanBranch Raw)).
Variable bind_catalog_branch : VgiCatalogTableProvider -> string -> Raw -> option string -> result Other.
Variable bind_catalog_table : VgiCatalogTableProvider -> result Other.
Variable with_declared_schema : Other -> Schema -> result Other.
(** DataFusion's listing tables: the scheme of a location, whether a format is
    registered, and a table over locations. *)
Variable location_scheme : string -> result string.
Variable format_registered : string -> bool.
Variable listing_table : string -> gmap string string -> list string -> result Other.
Variable from_scan_arguments : Raw -> result Arguments_.
Variable show_float : Z -> string.
Variable show_type : Array -> string.
Variable show_argument : ArgValue -> string.
Variable format_first : Array -> result string.

Definition qualified (t : VgiCatalogTableProvider) : string := schema_name t +:+ "." +:+ table_name t.

Definition bind_native_format (t : VgiCatalogTableProvider) (spec : NativeFormatSpec) (index : nat) : result TableProvider :=
  if negb (session_state session)
  then Err (Plan "VGI native format branches require DataFusion SessionState file-format support")
  else if (length (spec_locations spec) =? 0)%nat
  then Err (Plan ("VGI native format branch " +:+ pretty index +:+ " for `" +:+ qualified t +:+ "` names no locations"))
  else
    paths ← result_collect (fun location =>
              scheme ← location_scheme location;
              if String.eqb scheme "file" && negb (allows_local_format_paths t)
              then Err (Plan ("remote VGI catalog " +:+ debug_text (mount_alias t)
                              +:+ " may not nominate local format location " +:+ debug_text location))
              else Ok location) (spec_locations spec);
    if negb (format_registered (spec_format spec))
    then Err (NotImplemented ("VGI native format branch " +:+ pretty index +:+ " for `" +:+ qualified t
                              +:+ "` requires DataFusion file format " +:+ debug_text (spec_format spec)
                              +:+ ", but no such format is registered"))
    else
      options ← datafusion_format_options show_float format_first (spec_options spec);
      p ← listing_table (spec_format spec) options paths;
      Ok (OtherProvider p).

Definition bind_catalog_table_source (s : State) (self : nat) (t : VgiCatalogTableProvider)
    (spec : CatalogTableSpec) (index : nat) : result TableProvider :=
  if negb (session_state session)
  then Err (Plan "VGI catalog-table branches require DataFusion SessionState catalog support")
  else
    alias ← select_catalog_alias (spec_catalog spec) (catalog_names session) (worker_catalogs session);
    match lookup_table session alias (spec_schema spec) (spec_table spec) with
    | NoCatalog => Err (Plan ("VGI catalog-table scan branch " +:+ pretty index +:+ " resolved source catalog "
                              +:+ debug_text (spec_catalog spec) +:+ " to alias " +:+ debug_text alias
                              +:+ ", but that alias is no longer attached"))
    | NoSchema => Err (Plan ("VGI catalog-table scan branch " +:+ pretty index +:+ " references missing schema "
                             +:+ alias +:+ "." +:+ spec_schema spec))
    | Table answer =>
        found ← answer;
        p ← ok_or (Plan ("VGI catalog-table scan branch " +:+ pretty index +:+ " references missing table "
                         +:+ alias +:+ "." +:+ spec_schema spec +:+ "." +:+ spec_table spec)) found;
        if is_table self p
        then Err (Plan ("VGI catalog-table scan branch " +:+ pretty index +:+ " for `" +:+ qualified t
                        +:+ "` directly references itself as " +:+ alias +:+ "." +:+ spec_schema spec +:+ "." +:+ spec_table spec))
        else match catalog_source_cycle s self p with
             | Some path => Err (cycle_error path)
             | None => Ok p
             end
    end.

(** ** Resolving the branches *)

Definition bind_branch (s : State) (self : nat) (t : VgiCatalogTableProvider) (index : nat) (branch : ScanBranch Raw)
    : result BoundCatalogBranch :=
  table ← catalog_table_spec branch;
  match table with
  | Some spec => p ← bind_catalog_table_source s self t spec index; Ok (mkBound branch p None)
  | None =>
      native ← native_format_spec from_scan_arguments show_type show_argument branch;
      match native with
      | Some spec =>
          marker ← exact_null_string show_float format_first (spec_options spec);
          p ← bind_native_format t spec index;
          Ok (mkBound branch p marker)
      | None =>
          if String.eqb (function_name branch) ""
          then Err (NotImplemented ("VGI scan branch " +:+ pretty index +:+ " for `" +:+ qualified t +:+ "` names no supported provider"))
          else
            schema ← match branch_schema_path branch with
                     | Some path => schema ← require_flat_schema_path path "scan function branch"; Ok (Some schema)
                     | None => Ok None
                     end;
            p ← bind_catalog_branch t (function_name branch) (branch_arguments branch) schema;
            Ok (mkBound branch (OtherProvider p) None)
      end
  end.
Fixpoint bind_branches (s : State) (self : nat) (t : VgiCatalogTableProvider) (index : nat) (branches : list (ScanBranch Raw))
    : result (list BoundCatalogBranch) :=
  match branches with
  | [] => Ok []
  | branch :: branches =>
      b ← bind_branch s self t index branch;
      bs ← bind_branches s self t (S index) branches;
      Ok (b :: bs)
  end.

Definition needs_union (branches : list (ScanBranch Raw)) : bool :=
  (1 <? length branches)%nat
  || existsb (fun b => is_some (branch_filter b) || writable b || is_some (source_table b) || is_some (format_name b)) branches.
Definition resolution_event (r : Resolution) : string * string :=
  match r with
  | BranchesRpc => ("catalog.rpc.scan_branches", "method=catalog_table_scan_branches_get")
  | LegacyFallbackAfterProbe => ("catalog.rpc.scan_branches.fallback",
      "catalog_table_scan_branches_get unsupported; method=catalog_table_scan_function_get")
  | LegacyCached => ("catalog.rpc.scan_branches.legacy", "method=catalog_table_scan_function_get")
  end.
Definition fill_branches (self : nat) (bs : option (list BoundCatalogBranch)) (s : State) : State :=
  let c := cell s self in set_cell self (mkCells (bound_cell c) (Some bs) (statistics_cell c)) s.
Definition multi_branches (self : nat) (t : VgiCatalogTableProvider) (s : State)
    : State * result (option (list BoundCatalogBranch)) :=
  match branches_cell (cell s self) with
  | Some bs => (s, Ok bs)
  | None =>
      match table_scan_branches t with
      | Err e => (s, Err e)
      | Ok (resolution, branches) =>
          let event := resolution_event resolution in
          let s := emit (Emit event.1 (mount_alias t) (qualified t) event.2) s in
          let s := emit (SetTableBranches (mount_alias t) (schema_name t) (table_name t) branches) s in
          if negb (needs_union branches) then (fill_branches self None s, Ok None)
          else if is_some (at_ t)
          then (s, Err (Plan ("AT (...) clauses are not supported on multi-branch VGI table `" +:+ qualified t +:+ "`")))
          else match bind_branches s self t 0 branches with
               | Err e => (s, Err e)
               | Ok bs => (fill_branches self (Some bs) s, Ok (Some bs))
               end
      end
  end.

(** [bound]: the single function of a table, under the stored columns. *)
Variable generated_expression : Meta -> option string.
Abbreviation physical_schema t := (physical_schema_of generated_expression (output_schema t)).
Definition bound (self : nat) (t : VgiCatalogTableProvider) (s : State) : State * result Other :=
  let c := cell s self in
  match bound_cell c with
  | Some p => (s, Ok p)
  | None =>
      match (p ← bind_catalog_table t; with_declared_schema p (physical_schema t)) with
      | Err e => (s, Err e)
      | Ok p => (set_cell self (mkCells (Some p) (branches_cell c) (statistics_cell c)) s, Ok p)
      end
  end.

(** ** Statistics *)

Variable table_column_statistics : VgiCatalogTableProvider -> string -> result StatBatch.
(** [statistics_for_catalog_table] and [filters_prune_statistics] of lib.rs. *)
Variable statistics_for_catalog_table : VgiCatalogTableProvider -> StatBatch -> Stats.
Variable filters_prune_statistics : Schema -> Stats -> list Expr -> bool.
Definition column_statistics (self : nat) (t : VgiCatalogTableProvider) (s : State) : State * result (option Stats) :=
  let c := cell s self in
  let fill o := (set_cell self (mkCells (bound_cell c) (branches_cell c) (Some o)) s, Ok o) in
  match statistics_cell c with
  | Some o => (s, Ok o)
  | None =>
      if negb (supports_column_statistics t) || is_some (at_ t) then fill None
      else
        match (match inline_statistics t with
               | Some inline => inline
               | None => schema ← require_flat_schema_path (schema_path t) "catalog table"; table_column_statistics t schema
               end) with
        | Err e => (s, Err e)
        | Ok raw => fill (Some (statistics_for_catalog_table t raw))
        end
  end.
Definition filters_prune_table (self : nat) (t : VgiCatalogTableProvider) (filters : list Expr) (s : State) : State * result bool :=
  match column_statistics self t s with
  | (s, Err e) => (s, Err e)
  | (s, Ok None) => (s, Ok false)
  | (s, Ok (Some statistics)) => (s, Ok (filters_prune_statistics (output_schema t) statistics filters))
  end.

(** ** Scanning *)

Variable is_text : DataType -> bool.
Variable create_logical_expr : string -> Schema -> result Logical.
Variable logical_columns : Logical -> list string.
Variable logical_cast : Logical -> DataType -> Schema -> result Logical.
Variable create_physical_expr : Logical -> Schema -> result Computed.
Variable castable : DataType -> DataType -> result unit.
Variable accepts : ExecutionPlan -> result unit.
(** Providers that are not catalog tables. *)
Variable other_schema : Other -> Schema.
Variable other_scan : Other -> option (list nat) -> list Expr -> option nat -> result ExecutionPlan.
(** What other scans have filled by the next time this one waits. *)
Variable others : nat -> gmap nat Cells -> gmap nat Cells.
Definition await (s : State) : State := mkState (S (clock s)) (others (clock s) (cells s)) (log s).

Definition provider_schema (p : TableProvider) : option Schema :=
  match p with
  | OtherProvider o => Some (other_schema o)
  | CatalogTable a => output_schema <$> tables !! a
  end.
(** A branch in messages. *)
Definition describe_branch (b : ScanBranch Raw) : string :=
  match source_table b with
  | Some table => "catalog table " +:+ default "?" (source_catalog b) +:+ "."
                  +:+ default "?" (display_schema_path <$> source_schema_path b) +:+ "." +:+ table
  | None => "function " +:+ debug_text (function_name b)
  end.
(** The source's part of the work, by a given way to scan a provider. *)
Section Branches.
Variable scan_provider : State -> TableProvider -> option (list nat) -> list Expr -> option nat ->
  option (State * result ExecutionPlan).
Fixpoint scan_branches (self : nat) (t : VgiCatalogTableProvider) (filters : list Expr)
    (branches : list BoundCatalogBranch) (inputs : list ExecutionPlan) (s : State)
    : option (State * result (list ExecutionPlan)) :=
  match branches with
  | [] => Some (s, Ok inputs)
  | b :: branches =>
      match catalog_source_cycle s self (provider b) with
      | Some path => Some (s, Err (cycle_error path))
      | None =>
          match provider_schema (provider b) with
          | None => Some (s, Err (Internal "no such table"))
          | Some schema =>
              match scan_provider s (provider b) None (branch_filters schema filters) None with
              | None => None
              | Some (s, Err e) => Some (s, Err e)
              | Some (s, Ok raw) =>
                  match branch_plan is_text create_logical_expr logical_columns create_physical_expr (session_state session)
                          castable accepts (qualified t) (describe_branch (info b)) (physical_schema t) schema
                          (null_string b) (branch_filter (info b)) raw with
                  | Err e => Some (s, Err e)
                  | Ok plan => scan_branches self t filters branches (inputs ++ [plan]) s
                  end
              end
          end
      end
  end.
End Branches.

Definition cardinality_text (o : option Z) : string := match o with Some z => pretty z | None => "unknown" end.
Definition cardinality_event (t : VgiCatalogTableProvider) (s : State) : State :=
  if negb (is_some (at_ t)) && (is_some (cardinality_estimate t) || is_some (cardinality_max t))
  then emit (Emit "vgi.cardinality.inlined" (catalog t) (qualified t)
               ("estimate=" +:+ cardinality_text (cardinality_estimate t) +:+ " max=" +:+ cardinality_text (cardinality_max t))) s
  else s.

(** [scan]: [fuel] bounds the nesting of catalog tables; running out is
    [None]. *)
Fixpoint scan (fuel : nat) (s : State) (p : TableProvider) (projection : option (list nat)) (filters : list Expr)
    (limit : option nat) : option (State * result ExecutionPlan) :=
  match p with
  | OtherProvider o => Some (await s, other_scan o projection filters limit)
  | CatalogTable self =>
      match fuel, tables !! self with
      | O, _ => None
      | _, None => Some (s, Err (Internal "no such table"))
      | S fuel, Some t =>
          match enforce_required_filters (mount_alias t, schema_name t, table_name t) (required_filters t) filters with
          | Err e => Some (s, Err e)
          | Ok _ =>
              let s := await (cardinality_event t s) in
              match filters_prune_table self t filters s with
              | (s, Err e) => Some (s, Err e)
              | (s, Ok true) =>
                  Some (s, schema ← match projection with
                                    | Some indices => project_schema (output_schema t) indices
                                    | None => Ok (output_schema t)
                                    end;
                           Ok (Empty schema))
              | (s, Ok false) =>
                  match multi_branches self t (await s) with
                  | (s, Err e) => Some (s, Err e)
                  | (s, Ok (Some branches)) =>
                      match scan_branches (scan fuel) self t filters branches [] (await s) with
                      | None => None
                      | Some (s, Err e) => Some (s, Err e)
                      | Some (s, Ok inputs) =>
                          Some (s, assemble_branches generated_expression create_logical_expr logical_cast create_physical_expr
                                     (session_state session) accepts (output_schema t) projection limit inputs)
                      end
                  | (s, Ok None) =>
                      match bound self t (await s) with
                      | (s, Err e) => Some (s, Err e)
                      | (s, Ok o) =>
                          Some (await s,
                            if negb (has_generated_columns generated_expression (output_schema t))
                            then other_scan o projection filters limit
                            else
                              input ← other_scan o None (physical_filters (physical_schema t) filters) None;
                              generated_projection generated_expression create_logical_expr logical_cast create_physical_expr
                                (session_state session) accepts (output_schema t) projection input)
                      end
                  end
              end
          end
      end
  end.
End Catalog.
