(* ===== verification/CatalogScanTheorems.v ===== *)
(** * Theorems on catalog tables that refer to each other

    The search for a cycle is exact, and a scan ends: whatever other scans
    resolve in the meantime, tables nest no deeper than there are tables. *)

From S2P Require Import Prelude Text AttachSql Macros Protocol3 CatalogFilters CatalogSources ScanShape CatalogPlans CatalogScan.

Section Cycles.
Context {DataType Meta Raw Other At Stats StatBatch : Type}.
Abbreviation TableProvider := (@TableProvider Other).
Abbreviation State := (@State Raw Other Stats).
Abbreviation BoundCatalogBranch := (@BoundCatalogBranch Raw Other).
Variable tables : gmap nat (@VgiCatalogTableProvider DataType Meta At StatBatch).
Abbreviation reaches := (reaches tables).
Abbreviation catalog_source_cycle := (catalog_source_cycle tables).

(** One table refers to another through a branch it has resolved. *)
Definition refers (s : State) (a b : nat) : Prop :=
  is_Some (tables !! b) /\ exists br, br ∈ resolved_branches s a /\ provider br = CatalogTable b.
(** A search from [p] along references, and a sequence of addresses it may
    have gone through. *)
Definition enters (p : TableProvider) (a : nat) : Prop := p = CatalogTable a /\ is_Some (tables !! a).
Fixpoint walk (s : State) (p : TableProvider) (target : nat) (nodes : list nat) : Prop :=
  match nodes with
  | [] => False
  | [a] => enters p a /\ a = target
  | a :: ((b :: _) as rest) => enters p a /\ refers s a b /\ walk s (CatalogTable b) target rest
  end.
Definition identity_at (a : nat) : CatalogTableIdentity :=
  match tables !! a with Some t => identity t | None => new_identity "" "" "" end.

(** What the search has learned when it does not find the target: the tables
    it has seen are closed under references. *)
Definition explored (s : State) (target : nat) (before after : gset nat) : Prop :=
  before ⊆ after /\
  forall x, x ∈ after -> x ∉ before -> x <> target /\ forall y, refers s x y -> y ∈ after.

Lemma explored_refl s target v : explored s target v v.
Proof. split; [done|]. intros x Hx Hn. done. Qed.

Lemma walk_cons s a b target nodes :
  is_Some (tables !! a) -> refers s a b -> walk s (CatalogTable b) target nodes -> walk s (CatalogTable a) target (a :: nodes).
Proof.
  intros Ha Hab Hw. destruct nodes as [|c nodes]; [done|].
  assert (c = b) as ->. { destruct nodes; cbn in Hw; destruct Hw as [[Hc _] _]; by injection Hc. }
  done.
Qed.

Lemma unvisited_smaller (a : nat) (visited : gset nat) :
  is_Some (tables !! a) -> a ∉ visited ->
  (size (dom tables ∖ ({[a]} ∪ visited)) < size (dom tables ∖ visited))%nat.
Proof.
  intros Ha Hn. apply subset_size. split; [set_solver|].
  intros Hsub. assert (a ∈ dom tables ∖ visited) as Hin by (apply elem_of_difference; split; [by apply elem_of_dom|done]).
  apply Hsub in Hin. set_solver.
Qed.

Lemma reaches_spec fuel : forall s target p visited path r after path',
  (size (dom tables ∖ visited) < fuel)%nat ->
  reaches fuel s target p visited path = (r, after, path') ->
  visited ⊆ after /\
  (if r then exists nodes, walk s p target nodes /\ path' = path ++ map identity_at nodes
   else path' = path /\ (forall a, enters p a -> a ∈ after) /\
        forall x, x ∈ after -> x ∉ visited -> x <> target /\ forall y, refers s x y -> y ∈ after).
Proof.
  induction fuel as [|fuel IH]; intros s target p visited path r after path' Hf Hr; [lia|].
  cbn [CatalogScan.reaches] in Hr. destruct p as [a|o].
  2: { injection Hr as <- <- <-. split; [done|]. split_and!; [done|by intros a [? _]|by intros]. }
  destruct (tables !! a) as [t|] eqn:Ht.
  2: { injection Hr as <- <- <-. split; [done|]. split_and!; [done| |by intros]. intros b [[= <-] Hb]. rewrite Ht in Hb. by destruct Hb. }
  destruct (decide (a ∈ visited)) as [Hv|Hv].
  { injection Hr as <- <- <-. split; [done|]. split_and!; [done|by intros b [[= <-] _]|by intros]. }
  destruct (Nat.eqb_spec a target) as [->|Hne].
  { injection Hr as <- <- <-. split; [set_solver|]. exists [target].
    split; [split; [split; [done|by rewrite Ht]|done]|]. cbn [map]. unfold identity_at. by rewrite Ht. }
  assert (Hloop : forall bs v pth r after path',
    (forall b, b ∈ bs -> b ∈ resolved_branches s a) -> {[a]} ∪ visited ⊆ v ->
    (fix each (bs : list BoundCatalogBranch) (visited : gset nat) (path : list CatalogTableIdentity) :=
       match bs with
       | [] => (false, visited, removelast path)
       | b :: bs =>
           match reaches fuel s target (provider b) visited path with
           | (true, visited, path) => (true, visited, path)
           | (false, visited, path) => each bs visited path
           end
       end) bs v pth = (r, after, path') ->
    v ⊆ after /\
    (if r then exists b nodes, refers s a b /\ walk s (CatalogTable b) target nodes /\ path' = pth ++ map identity_at nodes
     else path' = removelast pth /\
          (forall b y, b ∈ bs -> enters (provider b) y -> y ∈ after) /\
          forall x, x ∈ after -> x ∉ v -> x <> target /\ forall y, refers s x y -> y ∈ after)).
  { induction bs as [|b bs IHbs]; intros v pth r0 after0 path0 Hin Hsub Heach.
    - injection Heach as <- <- <-. split; [done|]. split_and!; [done|by intros b y ?%elem_of_nil|by intros].
    - destruct (reaches fuel s target (provider b) v pth) as [[r1 v1] pth1] eqn:Hr1.
      apply IH in Hr1 as [Hv1 Hr1].
      2: { pose proof (unvisited_smaller a visited ltac:(by rewrite Ht) Hv).
           assert (size (dom tables ∖ v) <= size (dom tables ∖ ({[a]} ∪ visited)))%nat by (apply subseteq_size; clear - Hsub; set_solver). lia. }
      destruct r1.
      + injection Heach as <- <- <-. split; [done|]. destruct Hr1 as (nodes & Hw & ->).
        destruct nodes as [|c nodes]; [done|]. assert (enters (provider b) c) as [Hpc Hc] by (destruct nodes; apply Hw).
        exists c, (c :: nodes). split; [|by rewrite <- Hpc]. split; [done|]. exists b. split; [apply Hin; left|done].
      + destruct Hr1 as (-> & Hent & Hcl).
        apply IHbs in Heach as [Hv2 Hr2]; [|intros; apply Hin; by right|by etrans].
        split; [by etrans|]. destruct r0; [done|]. destruct Hr2 as (-> & Hent2 & Hcl2). split_and!; [done| |].
        * intros b' y [->|Hb']%elem_of_cons Hy; [by apply Hv2, Hent|by eapply Hent2].
        * intros x Hx Hnx. destruct (decide (x ∈ v1)) as [Hx1|Hx1]; [|by apply Hcl2].
          destruct (Hcl x Hx1 Hnx) as [? Hy]. split; [done|]. intros y ?%Hy. by apply Hv2. }
  apply Hloop in Hr as [Hsub Hres]; [|done|done]. split; [clear - Hsub; set_solver|]. destruct r.
  - destruct Hres as (b & nodes & Hab & Hw & ->). exists (a :: nodes). split; [apply (walk_cons _ _ b); [by rewrite Ht|done..]|].
    cbn [map]. unfold identity_at at 2. rewrite Ht. by rewrite <- app_assoc.
  - destruct Hres as (-> & Hent & Hcl). rewrite removelast_last. split_and!; [done| |].
    + intros b [[= <-] _]. apply Hsub. clear. set_solver.
    + intros x Hx Hnx. destruct (decide (x = a)) as [->|Hxa].
      * split; [done|]. intros y [Hy (br & Hbr & Hp)]. by eapply Hent.
      * apply Hcl; [done|]. clear - Hnx Hxa. set_solver.
Qed.

Lemma walk_closed s target (v : gset nat) p nodes :
  (forall x, x ∈ v -> x <> target /\ forall y, refers s x y -> y ∈ v) ->
  (forall a, enters p a -> a ∈ v) -> ~ walk s p target nodes.
Proof.
  intros Hv. revert p. induction nodes as [|a nodes IH]; intros p Hp; [by intros []|].
  destruct nodes as [|b nodes].
  - intros [Ha ->]. by destruct (Hv target (Hp _ Ha)).
  - intros (Ha & Hab & Hw). apply (IH (CatalogTable b)); [|done].
    intros c [[= <-] _]. apply (Hv a (Hp a Ha)). done.
Qed.

Lemma catalog_source_cycle_spec s self p :
  is_Some (tables !! self) ->
  (catalog_source_cycle s self p = None <-> forall nodes, ~ walk s p self nodes) /\
  (forall path, catalog_source_cycle s self p = Some path ->
   exists nodes, walk s p self nodes /\ path = map (fun a => display (identity_at a)) (self :: nodes)).
Proof.
  intros [t Ht]. unfold CatalogScan.catalog_source_cycle. rewrite Ht.
  destruct (reaches _ s self p ∅ [identity t]) as [[r after] path'] eqn:Hr.
  apply reaches_spec in Hr as [_ Hr].
  2: { rewrite difference_empty_L, size_dom. lia. }
  destruct r.
  - destruct Hr as (nodes & Hw & ->). split.
    + split; [done|]. intros Hno. by destruct (Hno nodes).
    + intros path [= <-]. exists nodes. split; [done|].
      assert (identity_at self = identity t) as E by (unfold identity_at; by rewrite Ht).
      cbn [map app]. by rewrite map_map, E.
  - destruct Hr as (_ & Hent & Hcl). split; [|done]. split; [|done]. intros _ nodes.
    eapply walk_closed; [|exact Hent]. intros x Hx. apply Hcl; [done|set_solver].
Qed.

(** C27: the search for a cycle before a branch is scanned is exact. It reports a
    path exactly when the branch's provider leads back to the table through
    branches resolved so far, and the path it reports is one; tables it has
    visited on another way do not mislead it. *)
Theorem catalog_source_cycle_exact s self p :
  is_Some (tables !! self) ->
  (catalog_source_cycle s self p = None <-> forall nodes, ~ walk s p self nodes) /\
  (forall path, catalog_source_cycle s self p = Some path ->
   exists nodes, walk s p self nodes /\ path = map (fun a => display (identity_at a)) (self :: nodes)).
Proof. apply catalog_source_cycle_spec. Qed.
End Cycles.

(** ** A scan ends *)

Section Scans.
Context {DataType Meta Value Logical Computed Raw Other At Stats StatBatch : Type} `{EqDecision DataType, EqDecision Meta}.
Abbreviation Schema := (@Schema DataType Meta).
Abbreviation ExecutionPlan := (@ExecutionPlan DataType Meta Value Computed).
Abbreviation VgiCatalogTableProvider := (@VgiCatalogTableProvider DataType Meta At StatBatch).
Abbreviation Cells := (@Cells Raw Other Stats).
Abbreviation State := (@State Raw Other Stats).
Variable tables : gmap nat VgiCatalogTableProvider.
Variable session : @Session Other.
Variable table_scan_branches : VgiCatalogTableProvider -> result (Resolution * list (ScanBranch Raw)).
Variable bind_catalog_branch : VgiCatalogTableProvider -> string -> Raw -> option string -> result Other.
Variable bind_catalog_table : VgiCatalogTableProvider -> result Other.
Variable with_declared_schema : Other -> Schema -> result Other.
Variable location_scheme : string -> result string.
Variable format_registered : string -> bool.
Variable listing_table : string -> gmap string string -> list string -> result Other.
Variable from_scan_arguments : Raw -> result Arguments_.
Variable show_float : Z -> string.
Variable show_type : Array -> string.
Variable show_argument : ArgValue -> string.
Variable format_first : Array -> result string.
Variable generated_expression : Meta -> option string.
Variable table_column_statistics : VgiCatalogTableProvider -> string -> result StatBatch.
Variable statistics_for_catalog_table : VgiCatalogTableProvider -> StatBatch -> Stats.
Variable filters_prune_statistics : Schema -> Stats -> list Expr -> bool.
Variable is_text : DataType -> bool.
Variable create_logical_expr : string -> Schema -> result Logical.
Variable logical_columns : Logical -> list string.
Variable logical_cast : Logical -> DataType -> Schema -> result Logical.
Variable create_physical_expr : Logical -> Schema -> result Computed.
Variable castable : DataType -> DataType -> result unit.
Variable accepts : ExecutionPlan -> result unit.
Variable other_schema : Other -> Schema.
Variable other_scan : Other -> option (list nat) -> list Expr -> option nat -> result ExecutionPlan.
Variable others : nat -> gmap nat Cells -> gmap nat Cells.
Abbreviation multi_branches := (multi_branches tables session table_scan_branches bind_catalog_branch location_scheme
  format_registered listing_table from_scan_arguments show_float show_type show_argument format_first).
Abbreviation bound := (bound bind_catalog_table with_declared_schema generated_expression).
Abbreviation filters_prune_table := (filters_prune_table table_column_statistics statistics_for_catalog_table filters_prune_statistics).
Abbreviation await := (await others).
Abbreviation scan_branches := (scan_branches tables session generated_expression is_text create_logical_expr
  logical_columns create_physical_expr castable accepts other_schema).
Abbreviation scan := (scan tables session table_scan_branches bind_catalog_branch bind_catalog_table with_declared_schema
  location_scheme format_registered listing_table from_scan_arguments show_float show_type show_argument format_first
  generated_expression table_column_statistics statistics_for_catalog_table filters_prune_statistics is_text
  create_logical_expr logical_columns logical_cast create_physical_expr castable accepts other_schema other_scan others).

(** A cell that is filled stays as it is. *)
Definition keeps (m m' : gmap nat Cells) : Prop :=
  forall a bs, branches_cell (default no_cells (m !! a)) = Some bs -> branches_cell (default no_cells (m' !! a)) = Some bs.
Hypothesis others_keep : forall n m, keeps m (others n m).
Definition extends (s s' : State) : Prop := keeps (cells s) (cells s').

#[local] Instance extends_preorder : PreOrder extends.
Proof. split; unfold extends, keeps; [by intros s a bs|]. intros s1 s2 s3 H12 H23 a bs H. by apply H23, H12. Qed.
Lemma extends_await s : extends s (await s).
Proof. apply others_keep. Qed.
Lemma extends_set_cell s a c :
  (forall bs, branches_cell (cell s a) = Some bs -> branches_cell c = Some bs) -> extends s (set_cell a c s).
Proof.
  intros Hc b bs Hb. cbn. destruct (decide (a = b)) as [->|Hne]; [|by rewrite lookup_insert_ne].
  rewrite lookup_insert, decide_True by done. by apply Hc.
Qed.
Lemma refers_extends s s' a b : extends s s' -> refers tables s a b -> refers tables s' a b.
Proof.
  intros He [Hb (br & Hbr & Hp)]. split; [done|]. exists br. split; [|done]. unfold resolved_branches, cell in *.
  destruct (branches_cell (default no_cells (cells s !! a))) as [[bs|]|] eqn:Hc; [|by apply elem_of_nil in Hbr..].
  by rewrite (He _ _ Hc).
Qed.

Lemma prune_extends self t filters s : extends s (filters_prune_table self t filters s).1.
Proof.
  unfold CatalogScan.filters_prune_table, column_statistics.
  destruct (statistics_cell _) as [[?|]|]; [done..|].
  destruct (negb _ || _); [cbn; by apply extends_set_cell|].
  destruct (match inline_statistics t with Some _ => _ | None => _ end); [|done]. cbn. by apply extends_set_cell.
Qed.
Lemma bound_extends self t s : extends s (bound self t s).1.
Proof.
  unfold CatalogScan.bound. destruct (bound_cell _); [done|].
  destruct (_ ≫= _); [cbn; by apply extends_set_cell|done].
Qed.
Lemma multi_branches_extends self t s :
  extends s (multi_branches self t s).1 /\
  forall bs, (multi_branches self t s).2 = Ok bs -> branches_cell (cell (multi_branches self t s).1 self) = Some bs.
Proof.
  unfold CatalogScan.multi_branches. destruct (branches_cell (cell s self)) as [bs|] eqn:Hc.
  { split; [done|]. by intros bs' [= <-]. }
  destruct (table_scan_branches t) as [[r branches]|]; [|split; [by intros ? ?|done]].
  assert (Hfill : forall bs s0, cells s0 = cells s -> extends s (fill_branches self bs s0) /\
            branches_cell (cell (fill_branches self bs s0) self) = Some bs).
  { intros bs s0 Hs0. unfold fill_branches. split.
    - assert (extends s s0) as H1 by (intros ? ?; by rewrite Hs0). rewrite H1. apply extends_set_cell.
      unfold cell in *. rewrite Hs0, Hc. done.
    - unfold cell. cbn. by rewrite lookup_insert, decide_True. }
  destruct (negb _).
  { cbn. destruct (Hfill None _ eq_refl) as [H1 H2]. split; [apply H1|]. intros bs [= <-]. apply H2. }
  destruct (is_some (at_ t)); [split; [by intros ? ?|done]|].
  destruct (bind_branches _ _ _ _ _ _ _ _ _ _ _ _ _ _ _ _) as [bs|]; [|split; [by intros ? ?|done]].
  cbn. destruct (Hfill (Some bs) _ eq_refl) as [H1 H2]. split; [apply H1|]. intros bs' [= <-]. apply H2.
Qed.

(** The tables being scanned, innermost first: each refers to the one inside
    it. *)
Fixpoint chain (s : State) (l : list nat) : Prop :=
  match l with
  | x :: ((y :: _) as rest) => refers tables s y x /\ chain s rest
  | _ => True
  end.
Lemma chain_extends s s' l : extends s s' -> chain s l -> chain s' l.
Proof.
  intros He. induction l as [|x [|y l] IH]; [done|done|]. intros [Hr Hc]. split; [by eapply refers_extends|by apply IH].
Qed.
Lemma walk_snoc (s : State) p target b nodes :
  walk tables s p target nodes -> refers tables s target b -> walk tables s p b (nodes ++ [b]).
Proof.
  revert p. induction nodes as [|a nodes IH]; intros p Hw Hb; [done|]. destruct nodes as [|c nodes].
  - destruct Hw as [Ha ->]. cbn. split; [done|]. split; [done|]. split; [|done]. split; [done|apply Hb].
  - destruct Hw as (Ha & Hac & Hw). specialize (IH _ Hw Hb). by split_and!.
Qed.
Lemma chain_walk (s : State) a stack x :
  chain s (a :: stack) -> (forall y, y ∈ a :: stack -> is_Some (tables !! y)) -> x ∈ a :: stack ->
  exists nodes, walk tables s (CatalogTable x) a nodes.
Proof.
  revert a. induction stack as [|y stack IH]; intros a Hc Hv [->|Hx]%elem_of_cons.
  - exists [a]. split; [|done]. split; [done|]. apply Hv. left.
  - by apply elem_of_nil in Hx.
  - exists [a]. split; [|done]. split; [done|]. apply Hv. left.
  - destruct Hc as [Hr Hc]. destruct (IH y Hc) as [nodes Hw]; [intros; apply Hv; by right|done|].
    exists (nodes ++ [a]). by eapply walk_snoc.
Qed.
Lemma stack_bounded (stack : list nat) :
  NoDup stack -> (forall x, x ∈ stack -> is_Some (tables !! x)) -> (length stack <= size tables)%nat.
Proof.
  intros Hnd Hv. rewrite <- (size_list_to_set (C := gset nat)) by done. rewrite <- size_dom.
  apply subseteq_size. intros x Hx%elem_of_list_to_set. by apply elem_of_dom, Hv.
Qed.

(** A result, later than a state. *)
Definition ends {A} (s : State) (r : option (State * A)) : Prop := exists s' a, r = Some (s', a) /\ extends s s'.
Lemma ends_now {A} s s' (a : A) : extends s s' -> ends s (Some (s', a)).
Proof. intros. by exists s', a. Qed.

Lemma scan_branches_ends scan_provider self t filters all stack :
  (forall s c, chain s (c :: self :: stack) -> is_Some (tables !! c) -> c ∉ self :: stack ->
     forall proj fs lim, ends s (scan_provider s (CatalogTable c) proj fs lim)) ->
  (forall s o proj fs lim, ends s (scan_provider s (OtherProvider o) proj fs lim)) ->
  (forall y, y ∈ self :: stack -> is_Some (tables !! y)) ->
  forall branches inputs s,
  branches_cell (cell s self) = Some (Some all) -> (forall b, b ∈ branches -> b ∈ all) -> chain s (self :: stack) ->
  ends s (scan_branches scan_provider self t filters branches inputs s).
Proof.
  intros Hcat Hother Hv. induction branches as [|b branches IH]; intros inputs s Hcell Hin Hch; cbn; [by apply ends_now|].
  destruct (catalog_source_cycle tables s self (provider b)) as [path|] eqn:Hcy; [by apply ends_now|].
  destruct (provider_schema tables other_schema (provider b)) as [schema|] eqn:Hsch; [|by apply ends_now].
  assert (Hp : ends s (scan_provider s (provider b) None (branch_filters schema filters) None)).
  { destruct (provider b) as [c|o] eqn:Hb; [|apply Hother]. cbn in Hsch.
    assert (Hc : is_Some (tables !! c)) by (destruct (tables !! c); [by eexists|done]).
    apply Hcat; [|done|].
    - split; [|done]. split; [done|]. exists b. split; [|done]. unfold resolved_branches. rewrite Hcell. apply Hin. left.
    - intros Hcin. destruct (chain_walk s self stack c Hch Hv Hcin) as [nodes Hw].
      destruct (catalog_source_cycle_spec tables s self (CatalogTable c) ltac:(apply Hv; left)) as [[Hno _] _].
      by destruct (Hno Hcy nodes). }
  destruct Hp as (s' & r & -> & He). destruct r as [raw|err]; [|by apply ends_now].
  destruct (branch_plan _ _ _ _ _ _ _ _ _ _ _ _ _ _) as [plan|err]; [|by apply ends_now].
  destruct (IH (inputs ++ [plan]) s') as (s'' & r & -> & He'); [by apply He|intros; apply Hin; by right|by eapply chain_extends|].
  exists s'', r. split; [done|]. by transitivity s'.
Qed.

Lemma scan_ends_on_stack fuel : forall stack a s proj filters limit,
  NoDup stack -> (forall x, x ∈ stack -> is_Some (tables !! x)) ->
  (is_Some (tables !! a) -> a ∉ stack) -> chain s (a :: stack) ->
  (size tables < length stack + fuel)%nat ->
  ends s (scan fuel s (CatalogTable a) proj filters limit).
Proof.
  induction fuel as [|fuel IH]; intros stack a s proj filters limit Hnd Hv Ha Hch Hf.
  { pose proof (stack_bounded stack Hnd Hv). lia. }
  cbn [CatalogScan.scan]. destruct (tables !! a) as [t|] eqn:Ht; [|by apply ends_now].
  assert (Hin : a ∉ stack) by (apply Ha; by eexists).
  destruct (enforce_required_filters _ _ _); [|by apply ends_now].
  set (s1 := await (cardinality_event t s)).
  assert (H1 : extends s s1).
  { unfold s1. transitivity (cardinality_event t s); [|apply extends_await].
    unfold cardinality_event. destruct (_ && _); intros ? ?; done. }
  pose proof (prune_extends a t filters s1) as H2.
  destruct (filters_prune_table a t filters s1) as [s2 [[|]|]]; cbn in H2;
    [apply ends_now; by transitivity s1| |apply ends_now; by transitivity s1].
  pose proof (multi_branches_extends a t (await s2)) as [H3 H3'].
  pose proof (extends_await s2) as H2'.
  destruct (multi_branches a t (await s2)) as [s3 [[bs|]|]]; cbn in H3, H3';
    [| |apply ends_now; transitivity s1; [done|]; transitivity s2; [done|]; by transitivity (await s2)].
  - assert (H : extends s (await s3)).
    { transitivity s1; [done|]. transitivity s2; [done|]. transitivity (await s2); [done|].
      transitivity s3; [done|apply extends_await]. }
    assert (Hb : ends (await s3) (scan_branches (scan fuel) a t filters bs [] (await s3))).
    { apply (scan_branches_ends _ _ _ _ bs stack).
      - intros s' c Hc Hcv Hcn proj' fs lim. apply (IH (a :: stack)); [by constructor| |done|done|cbn; lia].
        intros x [->|Hx]%elem_of_cons; [by eexists|by apply Hv].
      - intros s' o proj' fs lim. destruct fuel; cbn; apply ends_now, extends_await.
      - intros y [->|Hy]%elem_of_cons; [by eexists|by apply Hv].
      - apply extends_await. by apply H3'.
      - done.
      - by eapply chain_extends. }
    destruct Hb as (s' & r & -> & He). destruct r; apply ends_now; by transitivity (await s3).
  - pose proof (bound_extends a t (await s3)) as H4. pose proof (extends_await s3) as H3''.
    assert (H : extends s (bound a t (await s3)).1).
    { transitivity s1; [done|]. transitivity s2; [done|]. transitivity (await s2); [done|].
      transitivity s3; [done|]. by transitivity (await s3). }
    destruct (bound a t (await s3)) as [s4 [o|]]; cbn in H; [|by apply ends_now].
    apply ends_now. transitivity s4; [done|apply extends_await].
Qed.

(** A scan of a catalog table ends, with a plan or an error, however its
    branches refer to each other and whatever other scans resolve meanwhile: the
    tables in the middle of being scanned are all different, so nesting stops at
    the number of tables. What was resolved once stays. *)
Theorem scan_ends s p projection filters limit :
  exists s' r, scan (S (size tables)) s p projection filters limit = Some (s', r) /\ extends s s'.
Proof.
  destruct p as [a|o].
  - apply (scan_ends_on_stack (S (size tables)) []); [constructor|by intros x ?%elem_of_nil|by intros _ ?%elem_of_nil|done|cbn; lia].
  - do 2 eexists. split; [done|apply extends_await].
Qed.
End Scans.

(** ** Two tables that are each other's source *)

Definition ex_table (name : string) : @VgiCatalogTableProvider unit unit unit unit :=
  mkCatalogTable "Ex" "worker" "main" name None (mkSchema [mkField "x" tt tt] tt) [] None None false None ["main"] false.
Definition ex_branch (table : string) : ScanBranch unit :=
  mkBranch "" tt None None false (Some "Ex") (Some ["main"]) (Some table) None None None.
Definition ex_tables : gmap nat (@VgiCatalogTableProvider unit unit unit unit) :=
  {[ 0%nat := ex_table "A"; 1%nat := ex_table "B" ]}.
Definition ex_session : @Session unit :=
  mkSession true ["Ex"] [] (fun _ _ t => CatalogScan.Table (Ok (if String.eqb t "A" then Some (CatalogTable 0)
                                             else if String.eqb t "B" then Some (CatalogTable 1) else None))).
Definition ex_state (resolved : bool) : @State unit unit unit :=
  mkState 0 (if resolved then {[ 0%nat := mkCells None (Some (Some [mkBound (ex_branch "B") (CatalogTable 1) None])) None;
                                 1%nat := mkCells None (Some (Some [mkBound (ex_branch "A") (CatalogTable 0) None])) None ]}
             else ∅) [].
Definition ex_scan (fuel : nat) (s : @State unit unit unit) (p : @TableProvider unit) :=
  scan (Value := unit) (Logical := unit) (Computed := unit) ex_tables ex_session
    (fun t => Ok (BranchesRpc, [ex_branch (if String.eqb (table_name t) "A" then "B" else "A")]))
    (fun _ _ _ _ => Ok tt) (fun _ => Ok tt) (fun _ _ => Ok tt) (fun l => Ok l) (fun _ => false) (fun _ _ _ => Ok tt)
    (fun _ => Ok (mkArguments [] [])) (fun _ => "") (fun _ => "") (fun _ => "") (fun _ => Ok "") (fun _ => None)
    (fun _ _ => Ok tt) (fun _ _ => tt) (fun _ _ _ => false) (fun _ => false) (fun _ _ => Ok tt) (fun _ => [])
    (fun _ _ _ => Ok tt) (fun _ _ => Ok tt) (fun _ _ => Ok tt) (fun _ => Ok tt) (fun _ => mkSchema [] tt)
    (fun _ _ _ _ => Ok (Source (mkSchema [] tt) [])) (fun _ m => m) fuel s p None [] None.

(** Resolved one after the other, or at the same time by two scans: the second
    reference back is refused. *)
Example mutual_sources :
  (snd <$> ex_scan 3 (ex_state false) (CatalogTable 0)) = Some (Err (cycle_error ["ex.main.b"; "ex.main.a"; "ex.main.b"])) /\
  (snd <$> ex_scan 3 (ex_state true) (CatalogTable 0)) = Some (Err (cycle_error ["ex.main.a"; "ex.main.b"; "ex.main.a"])).
Proof. split; vm_compute; reflexivity. Qed.

Lemma catalog_source_cycle_exact_witness :
  exists nodes, walk ex_tables (ex_state true) (CatalogTable 1) 0 nodes.
Proof.
  destruct (catalog_source_cycle_exact ex_tables (ex_state true) 0 (CatalogTable 1)) as [_ H]; [by eexists|].
  destruct (H ["ex.main.a"; "ex.main.b"; "ex.main.a"]) as (nodes & Hw & _); [vm_compute; reflexivity|]. by exists nodes.
Defined.

Lemma scan_ends_witness : exists s' r, ex_scan 3 (ex_state true) (CatalogTable 0) = Some (s', r) /\ extends (ex_state true) s'.
Proof. unfold ex_scan. apply (scan_ends ex_tables). intros n m a bs H. exact H. Defined.
