(* ===== verification/CatalogDiscovery.v ===== *)
(** * Discovery of catalogs and schemas

    [VgiCatalogProvider] and [VgiSchemaProvider] of catalog.rs: what a worker
    advertises, read once at attach time, and the lookup of tables by name, which
    binds them when they are first asked for and remembers the answer; with the
    constraints a table's declaration justifies (lib.rs). *)

From S2P Require Import Prelude Text AttachSql Macros Protocol3 Registry ScanShape.

(** ** Functions of a schema *)

Section Discovery.
Context {DataType Meta Raw ArgSpecs MacroInfo Provider : Type} `{EqDecision DataType, EqDecision Meta}.
Abbreviation Schema := (@Schema DataType Meta).
Variable parse_specs : Raw -> result ArgSpecs.

Record SecretLookupRequest := mkSecret { secret_type : string; secret_scope : option string; secret_name : option string }.
(** [vgi_client::dtos::FunctionInfo] *)
Record FunctionInfo := mkFunctionInfo {
  fi_name : string; fi_arguments : Raw; fi_function_type : string; fi_sink_order_dependent : bool;
  fi_input_from_args : bool; fi_max_workers : option Z; fi_has_finalize : bool;
  fi_stability : option string; fi_null_handling : option string; fi_supports_window : bool;
  fi_required_secrets : list SecretLookupRequest;
}.
Abbreviation TableFunctionMetadata := (@TableFunctionMetadata ArgSpecs).

Definition volatility (value : option string) : Volatility :=
  match value with
  | Some value => if eq_ignore_ascii_case value "VOLATILE" then Volatile
                  else if eq_ignore_ascii_case value "CONSISTENT_WITHIN_QUERY" then Stable else Immutable
  | None => Immutable
  end.
Definition catalog_most_volatile (l r : Volatility) : Volatility :=
  match l, r with
  | Volatile, _ | _, Volatile => Volatile
  | Stable, _ | _, Stable => Stable
  | _, _ => Immutable
  end.
(** [null_handling_is_strict] of scalar.rs. *)
Definition null_handling_is_strict (value : option string) : bool :=
  match value with Some value => eq_ignore_ascii_case value "DEFAULT" | None => false end.

Definition table_function (f : FunctionInfo) : result (string * TableFunctionMetadata) :=
  specs ← parse_specs (fi_arguments f);
  Ok (fi_name f, mkTableMetadata specs (eq_ignore_ascii_case (fi_function_type f) "table_buffering")
                   (fi_sink_order_dependent f) (fi_input_from_args f)
                   (negb (bool_decide (fi_max_workers f = Some 1%Z)) && negb (fi_has_finalize f))).
Record AggregateFunction := mkAggregateFunction {
  ag_name : string; ag_specs : ArgSpecs; ag_volatility : Volatility; ag_window : bool; ag_secrets : list SecretLookupRequest;
}.
Definition aggregate_function (f : FunctionInfo) : result AggregateFunction :=
  specs ← parse_specs (fi_arguments f);
  Ok (mkAggregateFunction (fi_name f) specs (volatility (fi_stability f)) (fi_supports_window f) (fi_required_secrets f)).

(** One entry per SQL name: every overload, the most volatile declaration, and
    strict only when all are. *)
Record ScalarFunction := mkScalarFunction { sc_overloads : list ArgSpecs; sc_volatility : Volatility; sc_strict : bool }.
Definition add_overload (m : gmap string ScalarFunction) (f : FunctionInfo) : result (gmap string ScalarFunction) :=
  specs ← parse_specs (fi_arguments f);
  let declared := volatility (fi_stability f) in
  let strict := null_handling_is_strict (fi_null_handling f) in
  let entry := default (mkScalarFunction [] declared strict) (m !! fi_name f) in
  Ok (<[fi_name f := mkScalarFunction (sc_overloads entry ++ [specs])
                       (catalog_most_volatile (sc_volatility entry) declared) (sc_strict entry && strict)]> m).
Fixpoint scalar_overloads (m : gmap string ScalarFunction) (infos : list FunctionInfo) : result (gmap string ScalarFunction) :=
  match infos with
  | [] => Ok m
  | f :: infos => m ← add_overload m f; scalar_overloads m infos
  end.

(** ** Tables *)

(** [vgi_client::TableInfo], with its columns and constraints undecoded. *)
Record TableInfo := mkTableInfo { ti_name : string; ti_columns : Raw; ti_constraints : list Raw }.
Record At := mkAt { at_unit : string; at_value : string }.
Record ViewInfo := mkViewInfo { vi_name : string; vi_definition : string }.

(** [ConstraintInfo] and [ConstraintDefinition], decoded one after the other. *)
Record ConstraintDefinition := mkConstraintDefinition { cd_kind : string; cd_column_paths : list (list string) }.
Variable read_constraint : Raw -> result (string * string * Raw).
Variable read_definition : Raw -> result ConstraintDefinition.
Inductive Constraint := PrimaryKey (indices : list nat) | Unique (indices : list nat).

(** The ordinals of the columns; [None] when one is not a top-level column. *)
Fixpoint constraint_indices (kind : string) (schema : Schema) (paths : list (list string)) : result (option (list nat)) :=
  match paths with
  | [] => Ok (Some [])
  | [name] :: paths =>
      i ← ok_or (Plan ("VGI " +:+ kind +:+ " constraint references missing column path " +:+ display_schema_path [name]))
            (index_of schema name);
      rest ← constraint_indices kind schema paths;
      Ok (option_map (cons i) rest)
  | _ :: _ => Ok None
  end.
Definition constraint_of (schema : Schema) (encoded : Raw) : result (option Constraint) :=
  info ← read_constraint encoded;
  if negb (String.eqb info.1.1 "ENFORCED") || negb (String.eqb info.1.2 "ALL_ROWS") then Ok None
  else
    definition ← read_definition info.2;
    let kind := cd_kind definition in
    if negb (String.eqb kind "PRIMARY_KEY") && negb (String.eqb kind "UNIQUE") then Ok None
    else
      indices ← constraint_indices kind schema (cd_column_paths definition);
      Ok (match indices with
          | None | Some [] => None
          | Some indices => Some (if String.eqb kind "PRIMARY_KEY" then PrimaryKey indices else Unique indices)
          end).
Definition datafusion_constraints_v3 (encoded : list Raw) (schema : Schema) : result (list Constraint) :=
  found ← result_collect (constraint_of schema) encoded;
  Ok (omap (M := list) id (found : list (option Constraint))).

Variable read_schema : Raw -> result Schema.
(** [VgiCatalogTableProvider::new]: a provider at a fresh address, from the
    declaration alone. *)
Variable new_provider : TableInfo -> option At -> Schema -> list Constraint -> Provider.
Definition new_catalog_table (info : TableInfo) (at_ : option At) : result Provider :=
  output_schema ← read_schema (ti_columns info);
  constraints ← datafusion_constraints_v3 (ti_constraints info) output_schema;
  Ok (new_provider info at_ output_schema constraints).

(** ** A schema *)

Abbreviation CachedTable := (result Provider).
Record VgiSchemaProvider := mkSchemaProvider {
  sp_name : string;
  sp_names : list string; sp_relation_names : list string;
  sp_tables : gmap string TableInfo; sp_views : gmap string ViewInfo;
  sp_table_functions : gmap string TableFunctionMetadata;
  sp_scalars : gmap string ScalarFunction; sp_aggregates : list AggregateFunction;
  sp_macros : list MacroInfo; sp_functions : list FunctionInfo;
}.
(** What it remembers: current tables by name, historical ones by name, unit
    and value. A failure is remembered by its text. *)
Record Caches := mkCaches {
  bound : gmap string (Provider + string);
  versioned : gmap (string * string * string) (Provider + string);
}.

(** A worker's answers while a schema is discovered, in the order they are
    asked for. *)
Record SchemaListing := mkListing {
  ls_tables : result (list TableInfo);
  ls_table_functions : result (list FunctionInfo);
  ls_scalar_functions : result (list FunctionInfo);
  ls_aggregate_functions : result (list FunctionInfo);
  ls_scalar_macros : result (list MacroInfo);
  ls_table_macros : result (list MacroInfo);
  ls_views : result (list ViewInfo);
}.
Definition map_keys {A} (m : gmap string A) : list string := map fst (map_to_list m).
Definition without {A} (m : gmap string A) (l : list string) : list string :=
  List.filter (fun name => bool_decide (m !! name = None)) l.
Definition discover_schema (schema_name : string) (w : SchemaListing) : result (VgiSchemaProvider * Caches) :=
  table_list ← ls_tables w;
  table_infos ← ls_table_functions w;
  table_functions ← result_collect table_function table_infos;
  scalar_infos ← ls_scalar_functions w;
  aggregate_infos ← ls_aggregate_functions w;
  aggregates ← result_collect aggregate_function aggregate_infos;
  scalar_macros ← ls_scalar_macros w;
  table_macros ← ls_table_macros w;
  view_list ← ls_views w;
  scalars ← scalar_overloads ∅ scalar_infos;
  let tables := fold_left (fun m t => <[ti_name t := t]> m) table_list ∅ in
  let views := fold_left (fun m v => <[vi_name v := v]> m) view_list ∅ in
  let functions := fold_left (fun m e => <[e.1 := e.2]> m) table_functions ∅ in
  let relation_names := map_keys tables ++ without tables (map_keys views) in
  Ok (mkSchemaProvider schema_name (relation_names ++ without tables (map_keys functions)) relation_names
        tables views functions scalars aggregates (scalar_macros ++ table_macros) (table_infos ++ scalar_infos ++ aggregate_infos),
      mkCaches ∅ ∅).

Definition install_view (name : string) (planned : Provider + string) (c : Caches) : Caches :=
  mkCaches (<[name := planned]> (bound c)) (versioned c).
(** A finished bind replaces what another caller has left in the meantime. *)
Definition commit (name : string) (fresh : Provider + string) (c : Caches) : Caches :=
  mkCaches (<[name := fresh]> (bound c)) (versioned c).
Definition cached (c : Caches) (name : string) : option (Provider + string) := bound c !! name.

(** Printing a failure, and what it becomes when it is reported. *)
Variable error_text : DFError -> string.
Definition bind_failed (name reason : string) : DFError :=
  Plan ("VGI function `" +:+ name +:+ "` is advertised by the worker but does not bind as a bare table: " +:+ reason).
Definition report (name : string) (t : Provider + string) : result Provider :=
  match t with inl p => Ok p | inr reason => Err (bind_failed name reason) end.
Definition remember (r : result Provider) : Provider + string :=
  match r with Ok p => inl p | Err e => inr (error_text e) end.

(** [table]: [bind_bare] is the worker's answer to a bare call of a table
    function, now. *)
Definition table (sp : VgiSchemaProvider) (bind_bare : string -> result Provider) (name : string) (c : Caches)
    : Caches * result (option Provider) :=
  if negb (vec_contains name (sp_names sp)) then (c, Ok None)
  else match cached c name with
       | Some hit => (c, p ← report name hit; Ok (Some p))
       | None =>
           if bool_decide (is_Some (sp_views sp !! name))
           then (c, Err (Plan ("VGI view `" +:+ name +:+ "` was discovered but has not been planned")))
           else
             let fresh := remember (match sp_tables sp !! name with
                                    | Some info => new_catalog_table info None
                                    | None => bind_bare name
                                    end) in
             (commit name fresh c, p ← report name fresh; Ok (Some p))
       end.
Inductive TableType := Base | View.
Definition table_type (sp : VgiSchemaProvider) (name : string) : option TableType :=
  if bool_decide (is_Some (sp_tables sp !! name)) then Some Base
  else if bool_decide (is_Some (sp_views sp !! name)) then Some View else None.
Definition table_exist (sp : VgiSchemaProvider) (name : string) : bool := vec_contains name (sp_names sp).

(** [table_at]: [table_get] is the worker's answer at a coordinate, now. *)
Definition table_at (sp : VgiSchemaProvider) (table_get : string -> At -> result (option TableInfo))
    (name : string) (at_ : At) (c : Caches) : Caches * result Provider :=
  match sp_tables sp !! name with
  | None => (c, Err (Plan ("VGI time travel is only supported for catalog tables; `" +:+ name +:+ "` is not one")))
  | Some _ =>
      let key := (name, at_unit at_, at_value at_) in
      match versioned c !! key with
      | Some hit => (c, report name hit)
      | None =>
          match (info ← table_get name at_;
                 ok_or (Plan ("VGI catalog table `" +:+ sp_name sp +:+ "." +:+ name +:+ "` was not found at "
                              +:+ at_unit at_ +:+ " " +:+ at_value at_)) info) with
          | Err e => (c, Err e)
          | Ok info =>
              let fresh := remember (new_catalog_table info (Some at_)) in
              (mkCaches (bound c) (<[key := fresh]> (versioned c)), report name fresh)
          end
      end
  end.

(** ** A catalog *)

Record CatalogListing := mkCatalogListing {
  cl_default_schema : option string;
  cl_schemas : result (list (list string));
  cl_schema : string -> SchemaListing;
}.
Record VgiCatalogProvider := mkCatalogProvider {
  cp_schemas : gmap string (VgiSchemaProvider * Caches);
  cp_default_schema : string;
}.
Fixpoint discover_schemas (w : CatalogListing) (paths : list (list string)) (m : gmap string (VgiSchemaProvider * Caches))
    : result (gmap string (VgiSchemaProvider * Caches)) :=
  match paths with
  | [] => Ok m
  | path :: paths =>
      name ← require_flat_schema_path path "catalog schema";
      sp ← discover_schema name (cl_schema w name);
      discover_schemas w paths (<[name := sp]> m)
  end.
(** [keys().min()] *)
Definition min_string (l : list string) : option string :=
  match l with
  | [] => None
  | n :: l => Some (fold_left (fun a b => if String.leb b a then b else a) l n)
  end.
Definition discover_as (w : CatalogListing) : result VgiCatalogProvider :=
  paths ← cl_schemas w;
  schemas ← discover_schemas w paths ∅;
  let declared := match cl_default_schema w with
                  | Some name => if bool_decide (is_Some (schemas !! name)) then Some name else None
                  | None => None
                  end in
  Ok (mkCatalogProvider schemas
        (default "" (match declared with Some n => Some n | None => min_string (map_keys schemas) end))).
Definition schema_names (p : VgiCatalogProvider) : list string := map_keys (cp_schemas p).
Definition schema (p : VgiCatalogProvider) (name : string) : option (VgiSchemaProvider * Caches) := cp_schemas p !! name.
Definition catalog_table_at (p : VgiCatalogProvider) (table_get : string -> At -> result (option TableInfo))
    (schema table : string) (at_ : At) : VgiCatalogProvider * result Provider :=
  match cp_schemas p !! schema with
  | None => (p, Err (Plan ("VGI schema `" +:+ schema +:+ "` does not exist")))
  | Some (sp, c) =>
      let found := table_at sp table_get table at_ c in
      (mkCatalogProvider (<[schema := (sp, found.1)]> (cp_schemas p)) (cp_default_schema p), found.2)
  end.
(** [metadata_views]: views with the columns of their plans, as far as they are
    planned. *)
Definition metadata_views (column_names : Provider -> list string) (p : VgiCatalogProvider) : list (ViewInfo * list string) :=
  flat_map (fun e => map (fun v => (v.2, match cached e.2.2 v.1 with Some (inl t) => column_names t | _ => [] end))
                       (map_to_list (sp_views e.2.1))) (map_to_list (cp_schemas p)).
End Discovery.
