(* ===== verification/CatalogDiscoveryTheorems.v ===== *)
(** * Theorems on the discovery of catalogs

    A name keeps the answer it got; a schema's functions are its declarations,
    grouped; constraints are claimed only where the declaration justifies them. *)

From S2P Require Import Prelude Text AttachSql Macros Protocol3 Registry ScanShape CatalogDiscovery.

(** ** Lookups *)

Section Lookups.
Context {DataType Meta Raw ArgSpecs MacroInfo Provider : Type} `{EqDecision DataType, EqDecision Meta}.
Abbreviation Schema := (@Schema DataType Meta).
Abbreviation TableInfo := (@TableInfo Raw).
Abbreviation VgiSchemaProvider := (@VgiSchemaProvider Raw ArgSpecs MacroInfo).
Abbreviation Caches := (@Caches Provider).
Variable read_constraint : Raw -> result (string * string * Raw).
Variable read_definition : Raw -> result ConstraintDefinition.
Variable read_schema : Raw -> result Schema.
Variable new_provider : TableInfo -> option At -> Schema -> list Constraint -> Provider.
Variable error_text : DFError -> string.
Variable sp : VgiSchemaProvider.
Abbreviation table := (table read_constraint read_definition read_schema new_provider error_text sp).
Abbreviation table_at := (table_at read_constraint read_definition read_schema new_provider error_text sp).

(** What a session does to one schema, with the worker's answers at the time. *)
Inductive Op :=
  | LookUp (name : string) (bind_bare : string -> result Provider)
  | LookUpAt (name : string) (at_ : At) (table_get : string -> At -> result (option TableInfo))
  | InstallView (name : string) (planned : Provider + string).
Definition perform (c : Caches) (o : Op) : Caches :=
  match o with
  | LookUp name bind_bare => (table bind_bare name c).1
  | LookUpAt name at_ table_get => (table_at table_get name at_ c).1
  | InstallView name planned => install_view name planned c
  end.
Definition installs (name : string) (o : Op) : Prop := exists planned, o = InstallView name planned.

Lemma perform_keeps name hit c o :
  ~ installs name o -> bound c !! name = Some hit -> bound (perform c o) !! name = Some hit.
Proof.
  intros Hn Hb. destruct o as [n bind_bare|n at_ get|n planned]; cbn.
  - unfold CatalogDiscovery.table. destruct (negb _); [done|]. unfold cached. destruct (bound c !! n) eqn:Hc; [done|].
    destruct (bool_decide _); [done|]. cbn. rewrite lookup_insert_ne; [done|]. intros ->. congruence.
  - unfold CatalogDiscovery.table_at. destruct (sp_tables sp !! n); [|done].
    destruct (versioned c !! _); [done|]. by destruct (_ ≫= _).
  - cbn. rewrite lookup_insert_ne; [done|]. intros ->. apply Hn. by exists planned.
Qed.
Lemma perform_keeps_versioned key hit c o :
  versioned c !! key = Some hit -> versioned (perform c o) !! key = Some hit.
Proof.
  intros Hb. destruct o as [n bind_bare|n at_ get|n planned]; cbn; [| |done].
  - unfold CatalogDiscovery.table. destruct (negb _); [done|]. destruct (cached c n); [done|]. by destruct (bool_decide _).
  - unfold CatalogDiscovery.table_at. destruct (sp_tables sp !! n); [|done].
    destruct (versioned c !! (n, at_unit at_, at_value at_)) eqn:Hc; [done|]. destruct (_ ≫= _); [|done].
    cbn. rewrite lookup_insert_ne; [done|]. intros <-. congruence.
Qed.
Lemma perform_all_keeps name hit ops c :
  Forall (fun o => ~ installs name o) ops -> bound c !! name = Some hit -> bound (fold_left perform ops c) !! name = Some hit.
Proof. revert c. induction ops as [|o ops IH]; intros c Hn Hb; [done|]. inversion Hn; subst. apply IH; [done|]. by apply perform_keeps. Qed.
Lemma perform_all_keeps_versioned key hit ops c :
  versioned c !! key = Some hit -> versioned (fold_left perform ops c) !! key = Some hit.
Proof. revert c. induction ops as [|o ops IH]; intros c Hb; [done|]. apply IH. by apply perform_keeps_versioned. Qed.

(** A lookup that was answered has left its answer. *)
Lemma table_remembers bind_bare name c :
  let answer := table bind_bare name c in
  answer.2 = Ok None \/
  (exists hit, bound answer.1 !! name = Some hit /\ answer.2 = (p ← report name hit; Ok (Some p))) \/
  answer = (c, Err (Plan ("VGI view `" +:+ name +:+ "` was discovered but has not been planned"))).
Proof.
  cbn. unfold CatalogDiscovery.table. destruct (negb _); [by left|]. unfold cached.
  destruct (bound c !! name) as [hit|] eqn:Hc; [right; left; by exists hit|].
  destruct (bool_decide _); [by right; right|]. right. left. eexists. split; [|done]. cbn. by rewrite lookup_insert, decide_True.
Qed.

(** A name of a schema keeps its answer. Once a lookup was answered with a
    provider or with the reason it cannot be bound, every later lookup gives the
    same answer without asking the worker, whatever else is looked up, bound or
    planned in between; only planning a view of that name replaces it. A
    historical table keeps its answer as well, and neither kind of lookup
    changes what the other sees. *)
Theorem table_lookup_stable name c ops :
  (forall bind_bare r, Forall (fun o => ~ installs name o) ops ->
     (table bind_bare name c).2 = r -> r <> Ok None ->
     r <> Err (Plan ("VGI view `" +:+ name +:+ "` was discovered but has not been planned")) ->
     let later := fold_left perform ops (table bind_bare name c).1 in
     forall bind_later, table bind_later name later = (later, r)) /\
  (forall at_ table_get r, (table_at table_get name at_ c).2 = r ->
     is_Some (versioned (table_at table_get name at_ c).1 !! (name, at_unit at_, at_value at_)) ->
     let later := fold_left perform ops (table_at table_get name at_ c).1 in
     forall get_later, table_at get_later name at_ later = (later, r)) /\
  (forall bind_bare, versioned (table bind_bare name c).1 = versioned c) /\
  (forall at_ table_get, bound (table_at table_get name at_ c).1 = bound c).
Proof.
  split_and!.
  - intros bind_bare r Hops Hr Hn1 Hn2 later bind_later.
    destruct (table_remembers bind_bare name c) as [H|[(hit & Hb & Hrep)|H]]; [congruence| |rewrite H in Hr; cbn in Hr; congruence].
    rewrite Hr in Hrep. assert (Hl : bound later !! name = Some hit) by by apply perform_all_keeps.
    unfold CatalogDiscovery.table at 1. unfold cached. rewrite Hl.
    destruct (vec_contains name (sp_names sp)) eqn:Hv; cbn; [by rewrite Hrep|].
    exfalso. apply Hn1. rewrite <- Hr. unfold CatalogDiscovery.table. by rewrite Hv.
  - intros at_ table_get r Hr [hit Hb] later get_later.
    assert (Hl : versioned later !! (name, at_unit at_, at_value at_) = Some hit) by by apply perform_all_keeps_versioned.
    unfold CatalogDiscovery.table_at at 1. rewrite Hl. revert Hr Hb. clear. unfold CatalogDiscovery.table_at.
    destruct (sp_tables sp !! name); [|by intros <-].
    destruct (versioned c !! _) as [old|] eqn:Hc; [cbn; rewrite Hc; by intros <- [= <-]|].
    destruct (_ ≫= _) as [info|]; cbn; [|by rewrite Hc]. rewrite lookup_insert, decide_True by done. by intros <- [= <-].
  - intros bind_bare. unfold CatalogDiscovery.table. destruct (negb _); [done|]. destruct (cached c name); [done|]. by destruct (bool_decide _).
  - intros at_ table_get. unfold CatalogDiscovery.table_at. destruct (sp_tables sp !! name); [|done].
    destruct (versioned c !! _); [done|]. by destruct (_ ≫= _).
Qed.

(** A failure of the moment, a lost connection say, is remembered like a
    function that does not bind. *)
Lemma transient_failure_sticks name e p c :
  name ∈ sp_names sp -> sp_tables sp !! name = None -> sp_views sp !! name = None -> bound c !! name = None ->
  (table (fun _ => Ok p) name (table (fun _ => Err e) name c).1).2 = Err (bind_failed name (error_text e)).
Proof.
  intros Hin Ht Hv Hb. unfold CatalogDiscovery.table, cached.
  assert (vec_contains name (sp_names sp) = true) as -> by by apply bool_decide_eq_true. cbn. rewrite Hb, Hv, Ht. cbn.
  by rewrite lookup_insert, decide_True.
Qed.
(** Of two callers that bind a name at the same time the later one's result is
    kept, a failure over a success too. *)
Lemma later_bind_replaces name p reason (c : Caches) :
  cached (commit name (inr reason) (commit name (inl p) c)) name = Some (inr reason).
Proof. unfold cached. cbn. by rewrite lookup_insert, decide_True. Qed.
(** A table that has a view's name is listed as a table and cannot be looked
    up. *)
Lemma view_shadows_table name info view bind_bare :
  name ∈ sp_names sp -> sp_tables sp !! name = Some info -> sp_views sp !! name = Some view ->
  table_type sp name = Some Base /\
  (table bind_bare name (mkCaches ∅ ∅)).2 = Err (Plan ("VGI view `" +:+ name +:+ "` was discovered but has not been planned")).
Proof.
  intros Hin Ht Hv. unfold table_type, CatalogDiscovery.table, cached. rewrite Ht, Hv.
  assert (vec_contains name (sp_names sp) = true) as -> by by apply bool_decide_eq_true. done.
Qed.
End Lookups.

(** ** Functions *)

Section Functions.
Context {Raw ArgSpecs : Type}.
Abbreviation FunctionInfo := (@FunctionInfo Raw).
Variable parse_specs : Raw -> result ArgSpecs.

Definition overloads_of (name : string) (infos : list FunctionInfo) : list FunctionInfo :=
  List.filter (fun f => String.eqb (fi_name f) name) infos.
(** The entry a list of overloads makes. *)
Definition extends_entry (old : option ScalarFunction) (fs : list FunctionInfo) (new : option ScalarFunction) : Prop :=
  match fs with
  | [] => new = old
  | f :: _ =>
      exists specs, Forall2 (fun f s => parse_specs (fi_arguments f) = Ok s) fs specs /\
      let start := default (mkScalarFunction [] (volatility (fi_stability f)) (null_handling_is_strict (fi_null_handling f))) old in
      new = Some (mkScalarFunction (sc_overloads start ++ specs)
                    (fold_left catalog_most_volatile (map (fun f => volatility (fi_stability f)) fs) (sc_volatility start))
                    (sc_strict start && forallb (fun f => null_handling_is_strict (fi_null_handling f)) fs))
  end.

Lemma scalar_overloads_spec infos : forall m m' name,
  scalar_overloads parse_specs m infos = Ok m' ->
  extends_entry (m !! name) (overloads_of name infos) (m' !! name).
Proof.
  induction infos as [|f infos IH]; intros m m' name H; cbn in H; [by injection H as ->|].
  unfold add_overload in H. destruct (parse_specs (fi_arguments f)) as [s|] eqn:Hs; [|done]. cbn in H.
  specialize (IH _ _ name H). cbn [overloads_of List.filter].
  destruct (String.eqb_spec (fi_name f) name) as [<-|Hne]; [|by rewrite lookup_insert_ne in IH].
  rewrite lookup_insert, decide_True in IH by done. fold (overloads_of (fi_name f) infos).
  destruct (overloads_of (fi_name f) infos) as [|g gs]; cbn [extends_entry] in IH |- *.
  - exists [s]. split; [by repeat constructor|]. rewrite IH. cbn. by rewrite andb_true_r.
  - destruct IH as (specs & Hsp & ->). exists (s :: specs). split; [by constructor|]. cbn.
    by rewrite <- app_assoc, <- andb_assoc.
Qed.

Lemma most_volatile_same v : catalog_most_volatile v v = v.
Proof. by destruct v. Qed.

(** Every scalar function of a schema is one entry with all the overloads
    the worker lists for its name, in their order; it is as volatile as the most
    volatile of them, and strict only if each is; and a name without overloads
    has none. *)
Lemma scalar_entry_exact infos m name :
  scalar_overloads parse_specs ∅ infos = Ok m ->
  match m !! name with
  | None => overloads_of name infos = []
  | Some entry =>
      Forall2 (fun f s => parse_specs (fi_arguments f) = Ok s) (overloads_of name infos) (sc_overloads entry) /\
      overloads_of name infos <> [] /\
      (forall f, f ∈ overloads_of name infos ->
         catalog_most_volatile (sc_volatility entry) (volatility (fi_stability f)) = sc_volatility entry) /\
      (exists f, f ∈ overloads_of name infos /\ volatility (fi_stability f) = sc_volatility entry) /\
      (sc_strict entry = true <-> forall f, f ∈ overloads_of name infos -> null_handling_is_strict (fi_null_handling f) = true)
  end.
Proof.
  intros H%(scalar_overloads_spec infos ∅ m name). rewrite lookup_empty in H.
  destruct (overloads_of name infos) as [|f fs]; cbn [extends_entry] in H; [by rewrite H|].
  destruct H as (specs & Hs & ->). cbn [sc_overloads sc_volatility sc_strict default].
  assert (Hmax : forall vs v, (forall u, u ∈ vs \/ u = v -> catalog_most_volatile (fold_left catalog_most_volatile vs v) u = fold_left catalog_most_volatile vs v) /\
            (fold_left catalog_most_volatile vs v = v \/ fold_left catalog_most_volatile vs v ∈ vs)).
  { induction vs as [|u vs IHv]; intros v; cbn.
    - split; [|by left]. intros w [Hw| ->]; [by apply elem_of_nil in Hw|apply most_volatile_same].
    - destruct (IHv (catalog_most_volatile v u)) as [H1 H2].
      assert (Hle : forall w, w = u \/ w = v -> catalog_most_volatile (fold_left catalog_most_volatile vs (catalog_most_volatile v u)) w
                = fold_left catalog_most_volatile vs (catalog_most_volatile v u)).
      { intros w Hw. specialize (H1 (catalog_most_volatile v u) (or_intror eq_refl)).
        destruct Hw as [-> | ->]; revert H1; generalize (fold_left catalog_most_volatile vs (catalog_most_volatile v u));
          intros []; by destruct u, v. }
      split.
      + intros w [[->|Hw]%elem_of_cons| ->]; [apply Hle; by left|apply H1; by left|apply Hle; by right].
      + destruct H2 as [->|H2]; [|right; by right]. destruct u, v; cbn; auto; right; left. }
  split_and!; [done|done| | |].
  - intros g Hg. apply Hmax. left. apply list_elem_of_fmap. by exists g.
  - destruct (Hmax (map (fun f => volatility (fi_stability f)) (f :: fs)) (volatility (fi_stability f))) as [_ [He|He]].
    + exists f. split; [left|by rewrite He].
    + apply list_elem_of_fmap in He as (g & Hg & Hin). exists g. by split.
  - rewrite andb_true_iff. setoid_rewrite list_elem_of_In. rewrite forallb_forall. cbn. split; [by intros [_ ?]|].
    intros Hall. split; [apply Hall; by left|done].
Qed.
End Functions.

(** ** Constraints *)

Section Constraints.
Context {DataType Meta Raw : Type}.
Abbreviation Schema := (@Schema DataType Meta).
Variable read_constraint : Raw -> result (string * string * Raw).
Variable read_definition : Raw -> result ConstraintDefinition.

(** A declaration that holds of the rows there are: enforced, validated for all
    of them, over columns of the table itself. *)
Definition justifies (schema : Schema) (encoded : Raw) (c : Constraint) : Prop :=
  exists definition d names,
    read_constraint encoded = Ok ("ENFORCED", "ALL_ROWS", definition) /\ read_definition definition = Ok d /\
    cd_column_paths d = map (fun n => [n]) names /\ names <> [] /\
    exists indices, Forall2 (fun n i => index_of schema n = Some i) names indices /\
      (cd_kind d = "PRIMARY_KEY" /\ c = PrimaryKey indices \/ cd_kind d = "UNIQUE" /\ c = Unique indices).

Lemma constraint_indices_spec kind (schema : Schema) paths indices :
  constraint_indices kind schema paths = Ok (Some indices) <->
  exists names, paths = map (fun n => [n]) names /\ Forall2 (fun n i => index_of schema n = Some i) names indices.
Proof.
  split.
  - revert indices. induction paths as [|[|n [|? ?]] paths IH]; intros indices H; cbn in H; try done.
    + injection H as <-. by exists [].
    + destruct (index_of schema n) as [i|] eqn:Hi; [|done]. cbn in H.
      destruct (constraint_indices kind schema paths) as [[js|]|]; cbn in H; try done. injection H as <-.
      destruct (IH _ eq_refl) as (names & -> & ?). exists (n :: names). split; [done|by constructor].
  - intros (names & -> & Hn). induction Hn as [|n i names js Hi _ IH]; [done|]. cbn. rewrite Hi. cbn. by rewrite IH.
Qed.
Lemma constraint_of_spec (schema : Schema) encoded r c :
  constraint_of read_constraint read_definition schema encoded = Ok r ->
  (r = Some c <-> justifies schema encoded c).
Proof.
  unfold constraint_of, justifies. destruct (read_constraint encoded) as [[[e v] def]|]; [|done]. cbn.
  destruct (String.eqb_spec e "ENFORCED") as [->|He]; cbn.
  2: { intros [= <-]. split; [done|]. intros (? & ? & ? & [= -> ->] & _). done. }
  destruct (String.eqb_spec v "ALL_ROWS") as [->|Hv]; cbn.
  2: { intros [= <-]. split; [done|]. intros (? & ? & ? & [= ->] & _). done. }
  destruct (read_definition def) as [d|] eqn:Hd; [|done]. cbn.
  assert (Hfin : forall js names, cd_column_paths d = map (fun n => [n]) names ->
            Forall2 (fun n i => index_of schema n = Some i) names js ->
            forall names' js', cd_column_paths d = map (fun n => [n]) names' ->
            Forall2 (fun n i => index_of schema n = Some i) names' js' -> names' = names /\ js' = js).
  { intros js names Hp Hf names' js' Hp' Hf'. rewrite Hp in Hp'.
    assert (names' = names) as ->. { clear - Hp'. revert names' Hp'. induction names as [|n names IHn]; intros [|n' names'] Hn; try done. injection Hn as <- Hn. f_equal. auto. }
    split; [done|]. clear - Hf Hf'. revert js' Hf'. induction Hf; intros js' Hf'; inversion Hf'; subst; [done|]. f_equal; [congruence|auto]. }
  destruct (String.eqb_spec (cd_kind d) "PRIMARY_KEY") as [Hk|Hk]; cbn;
    [|destruct (String.eqb_spec (cd_kind d) "UNIQUE") as [Hu|Hu]; cbn].
  3: { intros [= <-]. split; [done|]. intros (? & ? & ? & [= <-] & Hd' & _ & _ & _ & _ & [[? _]|[? _]]); congruence. }
  all: destruct (constraint_indices _ schema (cd_column_paths d)) as [[js|]|] eqn:Hi; [| |done]; cbn.
  2, 4: intros [= <-]; (split; [done|]); intros (? & d' & names & [= <-] & Hd' & Hp & _ & js & Hf & _);
    assert (d' = d) as -> by congruence;
    assert (constraint_indices (cd_kind d) schema (cd_column_paths d) = Ok (Some js)) by (apply constraint_indices_spec; eauto); congruence.
  all: apply constraint_indices_spec in Hi as (names & Hp & Hf).
  all: intros Hr; split.
  all: try (intros ->; destruct js as [|i js]; [done|]; injection Hr as <-; exists def, d, names;
            split_and!; [done|done|done|by inversion Hf|]; exists (i :: js); split; [done|]; auto).
  all: intros (? & d' & names' & [= <-] & Hd' & Hp' & Hne & js' & Hf' & Hc);
    assert (d' = d) as -> by congruence; destruct (Hfin _ _ Hp Hf _ _ Hp' Hf') as [-> ->].
  all: destruct js as [|i js]; [by inversion Hf; subst|]; injection Hr as <-.
  all: destruct Hc as [[? ->]|[? ->]]; congruence.
Qed.

(** The optimizer is told of a key exactly when the worker declares it
    enforced and validated for all rows over columns of the table itself, with
    those columns' positions; a declaration over a nested column, or
    one that is only metadata, justifies nothing (a missing column refuses the table). *)
Theorem constraints_justified encoded (schema : Schema) cs :
  datafusion_constraints_v3 read_constraint read_definition encoded schema = Ok cs ->
  forall c, c ∈ cs <-> exists e, e ∈ encoded /\ justifies schema e c.
Proof.
  unfold datafusion_constraints_v3. destruct (result_collect _ encoded) as [found|] eqn:Hf; [|done]. cbn. intros [= <-] c.
  apply result_collect_Ok in Hf. induction Hf as [|e r encoded found He _ IH].
  - split; [by intros ?%elem_of_nil|]. intros (e & He & _). by apply elem_of_nil in He.
  - pose proof (constraint_of_spec schema e r c He) as Hs. cbn. split.
    + intros Hc. destruct r as [c'|]; cbn in Hc.
      * apply elem_of_cons in Hc as [->|Hc]; [exists e; split; [left|by apply Hs]|].
        apply IH in Hc as (e' & ? & ?). exists e'. split; [by right|done].
      * apply IH in Hc as (e' & ? & ?). exists e'. split; [by right|done].
    + intros (e' & [->|Hin]%elem_of_cons & Hj).
      * apply Hs in Hj as ->. left.
      * destruct r; cbn; [right|]; apply IH; by exists e'.
Qed.
End Constraints.

(** ** The default schema *)

Lemma min_string_elem l n : min_string l = Some n -> n ∈ l.
Proof.
  destruct l as [|m l]; [done|]. cbn. intros [= <-]. revert m.
  induction l as [|k l IH]; intros m; cbn; [left|].
  specialize (IH (if String.leb k m then k else m)). destruct (String.leb k m); set_solver.
Qed.
(** The default schema is one of the schemas: the declared one if it is there,
    else the least; and empty when there is none. *)
Lemma default_schema_there {DataType Meta Raw ArgSpecs MacroInfo Provider : Type} parse_specs w (p : @VgiCatalogProvider Raw ArgSpecs MacroInfo Provider) :
  discover_as parse_specs w = Ok p ->
  (cp_schemas p = ∅ /\ cp_default_schema p = "" \/ is_Some (cp_schemas p !! cp_default_schema p)) /\
  (forall n, cl_default_schema w = Some n -> is_Some (cp_schemas p !! n) -> cp_default_schema p = n).
Proof.
  unfold discover_as. destruct (cl_schemas w) as [paths|]; [|done]. cbn.
  destruct (discover_schemas _ _ _ _) as [schemas|]; [|done]. cbn. intros [= <-]. cbn.
  assert (Hmin : schemas = ∅ /\ min_string (map_keys schemas) = None \/
                 exists n, min_string (map_keys schemas) = Some n /\ is_Some (schemas !! n)).
  { destruct (min_string (map_keys schemas)) as [n|] eqn:Hm.
    - right. exists n. split; [done|]. apply min_string_elem in Hm. unfold map_keys in Hm.
      apply list_elem_of_fmap in Hm as ([k v] & -> & Hkv). apply elem_of_map_to_list in Hkv. by exists v.
    - left. split; [|done]. apply map_to_list_empty_iff. unfold map_keys in Hm. by destruct (map_to_list schemas). }
  split.
  - destruct (cl_default_schema w) as [n|]; [case_bool_decide as Hn; [by right|]|];
      (destruct Hmin as [[-> ->]|(m & -> & Hm)]; [by left|by right]).
  - intros n -> Hn. by rewrite bool_decide_eq_true_2.
Qed.

(** ** Examples *)

Definition ex_schema_provider : @VgiSchemaProvider string unit unit :=
  mkSchemaProvider "data" ["t"; "f"] ["t"] {[ "t" := mkTableInfo "t" "cols" ["pk"; "hint"] ]} ∅
    {[ "f" := mkTableMetadata tt false false false true ]} ∅ [] [] [].
Definition ex_read_constraint (raw : string) : result (string * string * string) :=
  if String.eqb raw "pk" then Ok ("ENFORCED", "ALL_ROWS", "on x") else Ok ("NOT_ENFORCED", "ALL_ROWS", "on x").
Definition ex_read_definition (raw : string) : result ConstraintDefinition := Ok (mkConstraintDefinition "PRIMARY_KEY" [["x"]]).
Definition ex_schema : @Schema unit unit := mkSchema [mkField "y" tt tt; mkField "x" tt tt] tt.
Abbreviation ex_lookup := (table ex_read_constraint ex_read_definition (fun _ => Ok ex_schema)
  (fun info _ _ cs => (ti_name info, cs)) (fun _ => "reason") ex_schema_provider).

(** A table function that does not bind bare, with other lookups and a binding
    worker afterwards. *)
Lemma table_lookup_stable_witness :
  let later := fold_left (perform ex_read_constraint ex_read_definition (fun _ => Ok ex_schema)
                 (fun info _ _ cs => (ti_name info, cs)) (fun _ => "reason") ex_schema_provider)
                 [LookUp "t" (fun _ => Err (Plan "")); InstallView "v" (inr "")]
                 (ex_lookup (fun _ => Err (Plan "needs arguments")) "f" (mkCaches ∅ ∅)).1 in
  ex_lookup (fun _ => Ok ("f", [])) "f" later = (later, Err (bind_failed "f" "reason")).
Proof.
  intros later.
  destruct (table_lookup_stable ex_read_constraint ex_read_definition (fun _ => Ok ex_schema)
              (fun info _ _ cs => (ti_name info, cs)) (fun _ => "reason") ex_schema_provider "f" (mkCaches ∅ ∅)
              [LookUp "t" (fun _ => Err (Plan "")); InstallView "v" (inr "")]) as (H & _).
  apply (H (fun _ => Err (Plan "needs arguments"))); [|vm_compute; reflexivity|done|done].
  repeat constructor; intros [? ?]; done.
Defined.

Lemma constraints_justified_witness :
  datafusion_constraints_v3 ex_read_constraint ex_read_definition ["pk"; "hint"] ex_schema = Ok [PrimaryKey [1]] /\
  exists e, e ∈ ["pk"; "hint"] /\ justifies ex_read_constraint ex_read_definition ex_schema e (PrimaryKey [1]).
Proof.
  split; [vm_compute; reflexivity|].
  apply (constraints_justified ex_read_constraint ex_read_definition ["pk"; "hint"] ex_schema [PrimaryKey [1]]);
    [vm_compute; reflexivity|left].
Defined.
