(* ===== verification/ScanProfile.v ===== *)
(** * Worker profiles of a scan (src/src/lib.rs, src/src/profiling.rs)

    Under EXPLAIN ANALYZE each partition of a scan records what its worker
    reported: [DynamicProfile], its summary, the escaping of the worker's texts,
    and the rule that turns profiling on. Texts are lists of code points, which
    is what [str::chars] gives. *)

From S2P Require Import Prelude.
From stdpp Require Import gmap sorting.
From Stdlib Require Import Strings.Ascii.

#[local] Open Scope Z_scope.

(** ** Texts *)

Definition MAX_DYNAMIC_PROFILE_FIELDS : nat := 64.
Definition MAX_DYNAMIC_PROFILE_KEY_CHARS : nat := 128.
Definition MAX_DYNAMIC_PROFILE_VALUE_CHARS : nat := 1024.
Definition MAX_DYNAMIC_PROFILE_ERROR_CHARS : nat := 512.

Definition backslash : Z := 92.
Definition ellipsis : Z := 8230.
(** [char::is_control]: the category Cc. *)
Definition is_control (c : Z) : bool := (c <? 32) || ((127 <=? c) && (c <? 160)).
Definition hex_digit (d : Z) : Z := if d <? 10 then 48 + d else 87 + d.
(** [{:x}] of a control character, which is below 256. *)
Definition hex_text (c : Z) : list Z :=
  if c <? 16 then [hex_digit c] else [hex_digit (c / 16); hex_digit (c mod 16)].

Definition escaped (c : Z) : list Z :=
  if c =? backslash then [backslash; backslash]
  else if c =? 44 then [backslash; 44]
  else if c =? 58 then [backslash; 58]
  else if c =? 10 then [backslash; 110]
  else if c =? 13 then [backslash; 114]
  else if c =? 9 then [backslash; 116]
  else if is_control c then [backslash; 117; 123] ++ hex_text c ++ [125]
  else [c].

Fixpoint sanitize_dynamic_profile_text (value : list Z) (max_chars : nat) : list Z :=
  match max_chars, value with
  | _, [] => []
  | O, _ :: _ => [ellipsis]
  | S max_chars, c :: value => escaped c ++ sanitize_dynamic_profile_text value max_chars
  end.

(** A text as the bytes of a string: UTF-8. *)
Definition utf8_char (c : Z) : list ascii :=
  map (fun b => ascii_of_nat (Z.to_nat b))
    (if c <? 128 then [c]
     else if c <? 2048 then [192 + c / 64; 128 + c mod 64]
     else if c <? 65536 then [224 + c / 4096; 128 + (c / 64) mod 64; 128 + c mod 64]
     else [240 + c / 262144; 128 + (c / 4096) mod 64; 128 + (c / 64) mod 64; 128 + c mod 64]).
Definition utf8 (text : list Z) : string := String.string_of_list_ascii (flat_map utf8_char text).

(** ** Profiles *)

Definition combine {A} (f : A -> A -> A) (a b : option A) : option A :=
  match a, b with
  | Some x, Some y => Some (f x y)
  | Some x, None => Some x
  | None, y => y
  end.
Definition min_option : option Z -> option Z -> option Z := combine Z.min.
Definition max_option : option Z -> option Z -> option Z := combine Z.max.

Record DynamicProfilePartition := mkPartitionProfile {
  pp_values : list (list Z * list Z);
  pp_batches : Z; pp_rows : Z; pp_bytes : Z;
  pp_min_rows : option Z; pp_max_rows : option Z;
  pp_min_bytes : option Z; pp_max_bytes : option Z;
}.
Definition default_profile : DynamicProfilePartition := mkPartitionProfile [] 0 0 0 None None None None.

(** What the scan loop adds for a batch, and what the worker's answer adds at
    the end. *)
Definition note_batch (p : DynamicProfilePartition) (batch_rows batch_bytes : Z) : DynamicProfilePartition :=
  mkPartitionProfile (pp_values p) (pp_batches p + 1) (pp_rows p + batch_rows) (pp_bytes p + batch_bytes)
    (min_option (pp_min_rows p) (Some batch_rows)) (max_option (pp_max_rows p) (Some batch_rows))
    (min_option (pp_min_bytes p) (Some batch_bytes)) (max_option (pp_max_bytes p) (Some batch_bytes)).
Definition reported_values (keys values : list (list Z)) : list (list Z * list Z) :=
  map (fun e => (sanitize_dynamic_profile_text e.1 MAX_DYNAMIC_PROFILE_KEY_CHARS,
                 sanitize_dynamic_profile_text e.2 MAX_DYNAMIC_PROFILE_VALUE_CHARS))
    (take MAX_DYNAMIC_PROFILE_FIELDS (zip keys values)).
Definition with_values (p : DynamicProfilePartition) (values : list (list Z * list Z)) : DynamicProfilePartition :=
  mkPartitionProfile values (pp_batches p) (pp_rows p) (pp_bytes p) (pp_min_rows p) (pp_max_rows p)
    (pp_min_bytes p) (pp_max_bytes p).

Record DynamicProfileValue := mkProfileValue { pv_partition : nat; pv_key : list Z; pv_value : list Z }.
Record DynamicProfileSnapshot := mkSnapshot {
  sn_values : list DynamicProfileValue;
  sn_partition_count : nat;
  sn_batches : Z; sn_rows : Z; sn_bytes : Z;
  sn_min_rows : option Z; sn_max_rows : option Z;
  sn_min_bytes : option Z; sn_max_bytes : option Z;
}.
Definition default_snapshot : DynamicProfileSnapshot := mkSnapshot [] 0 0 0 0 None None None None.

(** [BTreeMap<usize, _>], visited by increasing partition. *)
Definition DynamicProfile : Type := gmap nat DynamicProfilePartition.
Definition record (profile : DynamicProfile) (partition : nat) (p : DynamicProfilePartition) : DynamicProfile :=
  <[partition := p]> profile.
Definition partition_le (a b : nat * DynamicProfilePartition) : Prop := (a.1 <= b.1)%nat.
#[export] Instance partition_le_dec a b : Decision (partition_le a b).
Proof. unfold partition_le. apply _. Defined.
Definition in_order (profile : DynamicProfile) : list (nat * DynamicProfilePartition) :=
  merge_sort partition_le (map_to_list profile).
Definition add_partition (s : DynamicProfileSnapshot) (e : nat * DynamicProfilePartition) : DynamicProfileSnapshot :=
  let p := e.2 in
  mkSnapshot (sn_values s ++ map (fun v => mkProfileValue e.1 v.1 v.2) (pp_values p))
    (S (sn_partition_count s)) (sn_batches s + pp_batches p) (sn_rows s + pp_rows p) (sn_bytes s + pp_bytes p)
    (min_option (sn_min_rows s) (pp_min_rows p)) (max_option (sn_max_rows s) (pp_max_rows p))
    (min_option (sn_min_bytes s) (pp_min_bytes p)) (max_option (sn_max_bytes s) (pp_max_bytes p)).
Definition snapshot (profile : DynamicProfile) : DynamicProfileSnapshot :=
  fold_left add_partition (in_order profile) default_snapshot.

(** ** Turning profiling on (profiling.rs) *)

Section Rule.
Context {Scan Other : Type}.
Variable with_dynamic_profile : Scan -> Scan.

(** A physical plan as far as the rule looks: scans have no children. *)
Inductive PhysicalPlan :=
  | ScanPlan (s : Scan)
  | AnalyzeExec (input : PhysicalPlan)
  | OtherExec (o : Other) (children : list PhysicalPlan).

(** [transform_down] *)
Fixpoint mark_scans (plan : PhysicalPlan) : PhysicalPlan :=
  match plan with
  | ScanPlan s => ScanPlan (with_dynamic_profile s)
  | AnalyzeExec input => AnalyzeExec (mark_scans input)
  | OtherExec o children => OtherExec o (map mark_scans children)
  end.
(** [VgiExplainAnalyzeProfiling::optimize] *)
Definition optimize (plan : PhysicalPlan) : PhysicalPlan :=
  match plan with
  | AnalyzeExec _ => mark_scans plan
  | _ => plan
  end.
(** [VgiQueryPlanner::create_physical_plan] over what the planner it wraps, or
    the default one, makes. *)
Definition create_physical_plan (planned : result PhysicalPlan) : result PhysicalPlan :=
  plan ← planned; Ok (optimize plan).
End Rule.

(** ** What is shown can be read back *)

(** The reader of escaped texts. *)
Definition hex_value (c : Z) : Z := if c <? 58 then c - 48 else c - 87.
Fixpoint read_hex (acc : Z) (l : list Z) : option (Z * list Z) :=
  match l with
  | [] => None
  | c :: l => if c =? 125 then Some (acc, l) else read_hex (acc * 16 + hex_value c) l
  end.
Definition unescape_one (l : list Z) : option (Z * list Z) :=
  match l with
  | [] => None
  | c :: l =>
      if c =? backslash then
        match l with
        | 110 :: l => Some (10, l)
        | 114 :: l => Some (13, l)
        | 116 :: l => Some (9, l)
        | 117 :: 123 :: l => read_hex 0 l
        | c :: l => Some (c, l)
        | [] => None
        end
      else Some (c, l)
  end.
Fixpoint unescape (fuel : nat) (l : list Z) : option (list Z) :=
  match l, fuel with
  | [], _ => Some []
  | _, O => None
  | _, S fuel => '(c, l) ← unescape_one l; cs ← unescape fuel l; Some (c :: cs)
  end.

Definition controls : list Z := map Z.of_nat (seq 0 32) ++ map Z.of_nat (seq 127 33).
Lemma control_listed c : 0 <= c -> is_control c = true -> c ∈ controls.
Proof.
  unfold is_control, controls. intros Hc [H%Z.ltb_lt|[H1%Z.leb_le H2%Z.ltb_lt]%andb_true_iff]%orb_true_iff;
    apply elem_of_app; [left|right]; apply list_elem_of_fmap; exists (Z.to_nat c);
    (split; [lia|apply elem_of_seq; lia]).
Qed.

Lemma unescape_escaped c rest : 0 <= c -> unescape_one (escaped c ++ rest) = Some (c, rest).
Proof.
  intros Hc. unfold escaped.
  destruct (Z.eqb_spec c backslash) as [->|H1]; [done|]. destruct (Z.eqb_spec c 44) as [->|H2]; [done|].
  destruct (Z.eqb_spec c 58) as [->|H3]; [done|]. destruct (Z.eqb_spec c 10) as [->|H4]; [done|].
  destruct (Z.eqb_spec c 13) as [->|H5]; [done|]. destruct (Z.eqb_spec c 9) as [->|H6]; [done|].
  destruct (is_control c) eqn:Hctl.
  - apply control_listed in Hctl; [|done]. clear - Hctl. unfold controls in Hctl. cbn in Hctl.
    repeat (apply elem_of_cons in Hctl as [->|Hctl]; [reflexivity|]). by apply elem_of_nil in Hctl.
  - cbn. by destruct (Z.eqb_spec c backslash).
Qed.
Lemma escaped_visible c x : 0 <= c -> x ∈ escaped c -> is_control x = false.
Proof.
  intros Hc. unfold escaped.
  repeat (case_match; [intros Hx; repeat (apply elem_of_cons in Hx as [->|Hx]; [reflexivity|]); by apply elem_of_nil in Hx|]).
  destruct (is_control c) eqn:Hctl; [|by intros ->%list_elem_of_singleton].
  apply control_listed in Hctl; [|done].
  assert (forallb (fun c => forallb (fun x => negb (is_control x)) ([backslash; 117; 123] ++ hex_text c ++ [125])) controls = true)
    as Hall by by vm_compute.
  rewrite forallb_forall in Hall. apply list_elem_of_In, Hall in Hctl. rewrite forallb_forall in Hctl.
  intros Hx%list_elem_of_In%Hctl. by apply negb_true_iff.
Qed.
Lemma escaped_length c : (1 <= length (escaped c) <= 6)%nat.
Proof. unfold escaped, hex_text. repeat (case_match; cbn; try lia). Qed.

Lemma unescape_sanitized value : forall max fuel,
  Forall (fun c => 0 <= c) value -> (length (sanitize_dynamic_profile_text value max) <= fuel)%nat ->
  unescape fuel (sanitize_dynamic_profile_text value max)
  = Some (if (length value <=? max)%nat then value else take max value ++ [ellipsis]).
Proof.
  induction value as [|c value IH]; intros max fuel Hv Hf.
  - destruct max, fuel; done.
  - apply Forall_cons in Hv as [Hc Hv]. destruct max as [|max].
    { cbn in *. destruct fuel as [|[|fuel]]; [lia|done..]. }
    change (sanitize_dynamic_profile_text (c :: value) (S max)) with (escaped c ++ sanitize_dynamic_profile_text value max) in *.
    pose proof (unescape_escaped c (sanitize_dynamic_profile_text value max) Hc) as He.
    rewrite length_app in Hf. destruct (escaped_length c) as [Hl _].
    destruct (escaped c) as [|x text] eqn:Htext; [cbn in Hl; lia|]. destruct fuel as [|fuel]; [cbn in Hf; lia|].
    cbn [app] in *. cbn [unescape]. rewrite He. cbn. rewrite IH by (done || cbn in *; lia). cbn.
    by destruct (_ <=? _)%nat.
Qed.

(** C38: whatever a worker reports is shown safely: the text has no control
    character, is within six characters per character kept and the mark of
    truncation, and reads back as what was reported, or as its first characters
    and that mark. *)
Theorem worker_text_shown value max :
  Forall (fun c => 0 <= c) value ->
  let shown := sanitize_dynamic_profile_text value max in
  (forall x, x ∈ shown -> is_control x = false) /\
  (length shown <= 6 * max + 1)%nat /\
  unescape (length shown) shown = Some (if (length value <=? max)%nat then value else take max value ++ [ellipsis]).
Proof.
  intros Hv shown. split_and!; [| |by apply unescape_sanitized].
  - unfold shown. clear shown. revert max. induction Hv as [|c value Hc _ IH]; intros [|max] x Hx; cbn in Hx.
    + by apply elem_of_nil in Hx.
    + by apply elem_of_nil in Hx.
    + by apply list_elem_of_singleton in Hx as ->.
    + apply elem_of_app in Hx as [Hx|Hx]; [by eapply escaped_visible|by apply (IH max)].
  - unfold shown. clear shown Hv. revert max. induction value as [|c value IH]; intros [|max]; cbn; try lia.
    rewrite length_app. pose proof (escaped_length c). specialize (IH max). lia.
Qed.
Lemma worker_text_shown_witness :
  unescape 10 (sanitize_dynamic_profile_text [107; 58; 27; 120] 3) = Some [107; 58; 27; ellipsis].
Proof.
  destruct (worker_text_shown [107; 58; 27; 120] 3) as (_ & _ & H); [|exact H].
  repeat constructor; lia.
Defined.

(** The summary adds up the partitions, in their order. *)
Definition sum_of (f : DynamicProfilePartition -> Z) (l : list (nat * DynamicProfilePartition)) : Z :=
  foldr Z.add 0 (map (fun e => f e.2) l).
Lemma in_order_perm profile : Permutation (in_order profile) (map_to_list profile).
Proof. apply merge_sort_Permutation. Qed.
Lemma fold_partitions l s :
  fold_left add_partition l s =
  mkSnapshot (sn_values s ++ flat_map (fun e => map (fun v => mkProfileValue e.1 v.1 v.2) (pp_values e.2)) l)
    (sn_partition_count s + length l) (sn_batches s + sum_of pp_batches l) (sn_rows s + sum_of pp_rows l)
    (sn_bytes s + sum_of pp_bytes l)
    (fold_left (fun m e => min_option m (pp_min_rows e.2)) l (sn_min_rows s))
    (fold_left (fun m e => max_option m (pp_max_rows e.2)) l (sn_max_rows s))
    (fold_left (fun m e => min_option m (pp_min_bytes e.2)) l (sn_min_bytes s))
    (fold_left (fun m e => max_option m (pp_max_bytes e.2)) l (sn_max_bytes s)).
Proof.
  revert s. induction l as [|e l IH]; intros s; cbn.
  - unfold sum_of. cbn. rewrite app_nil_r, Nat.add_0_r, !Z.add_0_r. by destruct s.
  - rewrite IH. unfold sum_of. cbn. rewrite <- app_assoc. f_equal; lia.
Qed.

Lemma combine_min_fold l (m : option Z) f x :
  fold_left (fun m (e : nat * DynamicProfilePartition) => min_option m (f e.2)) l m = Some x ->
  (forall y, m = Some y -> x <= y) /\ (forall e y, e ∈ l -> f e.2 = Some y -> x <= y) /\
  (m = Some x \/ exists e, e ∈ l /\ f e.2 = Some x).
Proof.
  revert m. induction l as [|e l IH]; intros m Hm; cbn in Hm.
  - subst m. split_and!; [by intros ? [= ->]|by intros ? ? ?%elem_of_nil|by left].
  - apply IH in Hm as (Hle & Hall & Hone). unfold min_option, combine in *.
    destruct m as [a|], (f e.2) as [b|] eqn:Hb; cbn in *.
    + specialize (Hle _ eq_refl) as Hab. split_and!.
      * intros ? [= <-]. lia.
      * intros e' y [->|He]%elem_of_cons Hy; [|by eapply Hall]. rewrite Hb in Hy. injection Hy as <-. lia.
      * destruct Hone as [[= Hx]|(e' & ? & ?)]; [|right; exists e'; split; [by right|done]].
        destruct (Z.min_spec a b) as [[? Hmin]|[? Hmin]]; rewrite Hmin in Hx; subst x; [by left|].
        right. exists e. split; [left|done].
    + split_and!; [exact Hle| |].
      * intros e' y [->|He]%elem_of_cons Hy; [congruence|by eapply Hall].
      * destruct Hone as [|(e' & ? & ?)]; [by left|right; exists e'; split; [by right|done]].
    + split_and!; [done| |].
      * intros e' y [->|He]%elem_of_cons Hy; [apply Hle; congruence|by eapply Hall].
      * destruct Hone as [[= ->]|(e' & ? & ?)]; right; [exists e; split; [left|done]|exists e'; split; [by right|done]].
    + split_and!; [done| |].
      * intros e' y [->|He]%elem_of_cons Hy; [congruence|by eapply Hall].
      * destruct Hone as [|(e' & ? & ?)]; [done|right; exists e'; split; [by right|done]].
Qed.

(** The summary of a profiled scan is that of its partitions: totals are sums,
    the reported values come partition by partition, and the least number of
    rows is one a partition saw and no more than any saw. *)
Lemma snapshot_exact profile :
  let s := snapshot profile in
  sn_partition_count s = size profile /\
  sn_rows s = sum_of pp_rows (map_to_list profile) /\
  sn_bytes s = sum_of pp_bytes (map_to_list profile) /\
  sn_values s = flat_map (fun e => map (fun v => mkProfileValue e.1 v.1 v.2) (pp_values e.2)) (in_order profile) /\
  Sorted partition_le (in_order profile) /\
  (forall x, sn_min_rows s = Some x ->
     (exists i p, profile !! i = Some p /\ pp_min_rows p = Some x) /\
     forall i p y, profile !! i = Some p -> pp_min_rows p = Some y -> x <= y).
Proof.
  cbv zeta. unfold snapshot. rewrite fold_partitions. cbn [sn_partition_count sn_rows sn_bytes sn_values sn_min_rows default_snapshot].
  assert (Hsum : forall f, 0 + sum_of f (in_order profile) = sum_of f (map_to_list profile)).
  { intros f. unfold sum_of. rewrite Z.add_0_l. generalize (in_order_perm profile). generalize (in_order profile) (map_to_list profile).
    induction 1; cbn; try lia. }
  split_and!.
  - rewrite (Permutation_length (in_order_perm profile)). apply length_map_to_list.
  - apply Hsum.
  - apply Hsum.
  - done.
  - apply Sorted_merge_sort. intros a b. unfold partition_le. lia.
  - intros x Hx. apply (combine_min_fold _ _ pp_min_rows) in Hx as (_ & Hall & Hone). split.
    + destruct Hone as [|(e & He & Hp)]; [done|]. rewrite in_order_perm in He. exists e.1, e.2. split; [|done].
      apply elem_of_map_to_list. by destruct e.
    + intros i p y Hi Hy. apply (Hall (i, p) y); [|done]. rewrite in_order_perm. by apply elem_of_map_to_list.
Qed.

(** A plan that is not under EXPLAIN ANALYZE is left alone. *)
Lemma ordinary_plans_unprofiled {Scan Other} (f : Scan -> Scan) (plan : @PhysicalPlan Scan Other) :
  (forall input, plan <> AnalyzeExec input) -> optimize f plan = plan.
Proof. destruct plan; [done|intros H; by destruct (H plan)|done]. Qed.
