(* ===== verification/ScanRun.v ===== *)
(** * Running a scan (src/src/lib.rs: the job of [VgiScanExec::execute])

    One partition of a scan, from the connection to the last batch: binding,
    the dynamic filters of the moment, validation of a stale cached result, the
    loop over the worker's batches with its limit, and what the result cache is
    told. The job talks to the worker, the channel to the consumer, the capture
    of the scan and the cache tiers through calls (Interact.v). *)

From S2P Require Import Prelude Runtime Arrow Filters Identity CacheKeys Connections ScanShape ScanCache Exchange ScanProfile Interact.
From Stdlib Require Import Strings.Ascii.

#[local] Open Scope Z_scope.
#[local] Open Scope job_scope.

Section Run.
Context {DataType Meta Column : Type} `{!EqDecision DataType, !EqDecision Meta}.
Context {Text : Type} `{!ArrowKernel Text (list ascii)}.
Context {Args Plan Hit Bound ExecId Freshness Rest : Type} `{!EqDecision Rest}.

Abbreviation Batch := (@RecordBatch DataType Meta Column).
Abbreviation Schema := (@ScanShape.Schema DataType Meta).
Abbreviation Entry := (@CachedEntry Batch).
Abbreviation bytes := (list ascii).

(** Arrow, and what is read of a bound function and of a durable hit. *)
Variable new_batch : Schema -> list Column -> nat -> result Batch.
Variable slice : Batch -> nat -> Batch.
Variable memory_size : Batch -> Z.
Variable output_schema : Bound -> Arrow.Schema.
Variables hit_etag hit_last_modified : Hit -> option string.
Variable hit_partitions : Hit -> nat.
Variable error_text : DFError -> string.

(** [CacheControl]: [not_modified] beside the fields the capture reads. *)
Abbreviation Control := (@CacheControl (bool * Rest)).
Definition not_modified (c : option Control) : bool :=
  match c with Some c => (control_rest c).1 | None => false end.

(** ** A stale result to revalidate *)

Inductive ScanCacheRevalidation :=
  | Memory (entry : Entry) (disk_companion : option Hit)
  | Disk (hit : Hit).

Definition memory_with_matching_disk (entry : Entry) (disk : option Hit) : ScanCacheRevalidation :=
  Memory entry (
    hit ← disk;
    let has_validator := is_some (entry_etag entry) || is_some (entry_last_modified entry) in
    if has_validator && bool_decide (entry_etag entry = hit_etag hit)
       && bool_decide (entry_last_modified entry = hit_last_modified hit)
    then Some hit else None).
Definition etag_of (r : ScanCacheRevalidation) : option string :=
  match r with Memory entry _ => entry_etag entry | Disk hit => hit_etag hit end.
Definition last_modified_of (r : ScanCacheRevalidation) : option string :=
  match r with Memory entry _ => entry_last_modified entry | Disk hit => hit_last_modified hit end.

(** ** The scan node, as far as its execution reads it *)

Record ScanExec := mkExec {
  ex_request : ScanRequest;
  ex_arguments : Args;
  ex_filter_schema : Arrow.Schema;
  ex_remote_bind_schema : Arrow.Schema;
  ex_schema : Schema;
  ex_storage_schema : Schema;
  ex_mapping : Mapping;
  (** the plan and each group's tokens *)
  ex_splits : option (Plan * list (list bytes));
  ex_cache_key : option CacheKey;
  ex_durable : bool;
  ex_profiled : bool;
}.
Variable exec : ScanExec.
Variable partition : nat.
Abbreviation limit := (sc_limit (ex_request exec)).
Abbreviation function := (sc_function (ex_request exec)).

Definition split_tokens : option (list bytes) :=
  '(_, groups) ← ex_splits exec; Some (default [] (groups !! partition)).

(** [BindSpec] and [ScanOptions]; a redemption of tokens adds the plan. *)
Record BindSpec := mkSpec {
  spec_function : string; spec_schema : string; spec_arguments : bytes + Args;
  spec_at : option (string * string);
}.
Definition bind_spec : BindSpec :=
  let r := ex_request exec in
  mkSpec (sc_function r) (sc_schema_name r)
    (match sc_raw_arguments r with Some raw => inl raw | None => inr (ex_arguments exec) end) (sc_at r).
Record ScanOptions := mkScanOptions {
  so_projection : option (list Z);
  so_pushdown_filters : option bytes;
  so_join_keys : option (list bytes);
  so_filter_columns : option (list Z);
  so_row_limit : option Z;
  so_order_by : option OrderBy;
  so_sample : option Sample;
  so_if_none_match : option string;
  so_if_modified_since : option string;
}.
Inductive Request :=
  | Plain (opts : ScanOptions)
  | Redeem (plan : Plan) (tokens : list bytes) (opts : ScanOptions).

(** ** Calls *)

Inductive Call :=
  (** the worker *)
  | Connect | Attach | Bind (spec : BindSpec)
  | OpenScan (b : Bound) (r : Request)
  | NextBatch (tick : option bytes)
  | CacheControlOf | CancelScan | CloseScan
  | DynamicToString (b : Bound) (id : ExecId)
  (** the runtime filters of the query *)
  | DynamicGeneration | SnapshotDynamicFilters
  (** the channel to the consumer *)
  | Send (item : result Batch)
  (** shared with the execution stream *)
  | RevalidationProbe | LoadBackground
  (** the capture of the scan *)
  | Capture (op : @Op Batch (bool * Rest))
  (** the cache tiers *)
  | CacheRemove (k : CacheKey)
  | CacheSlide (k : CacheKey) (f : Freshness) (c : Control)
  | FreshnessDeadline (c : Control) (identity_scope : string)
  | MaxEntryBytes
  | RecordStaleServe | DiskRecordStaleServe
  | DiskRemoveHit (h : Hit)
  | DiskRevalidate (h : Hit) (f : Freshness) (c : Control)
  | OpenPartition (h : Hit) (i : nat)
  | MayServeOnError (r : ScanCacheRevalidation)
  (** metrics, profiles and events *)
  | Count (metric : string) (n : Z)
  | RecordProfile (p : nat) (profile : DynamicProfilePartition)
  | Emit (kind : string) (split message : option string) (timed : bool).

Definition Resp (c : Call) : Type :=
  match c with
  | Connect | Attach => result unit
  | Bind _ => result Bound
  | OpenScan _ _ => result ExecId
  | NextBatch _ => result (option Batch)
  | CacheControlOf => option Control
  | DynamicToString _ _ => (list (list Z) * list (list Z)) + list Z
  | DynamicGeneration => Z
  | SnapshotDynamicFilters => result (Z * list PhysicalExpr)
  | Send _ => bool
  | RevalidationProbe => option ScanCacheRevalidation
  | LoadBackground => bool
  | CacheSlide _ _ _ => bool
  | FreshnessDeadline _ _ => Freshness + string
  | MaxEntryBytes => Z
  | DiskRemoveHit _ => unit + string
  | DiskRevalidate _ _ _ => bool + string
  | OpenPartition _ _ => (list (Batch + string)) + string
  | MayServeOnError _ => bool
  | _ => unit
  end.

Abbreviation Job := (job Resp).
Definition do_ (c : Call) : Job (Resp c) := job_call c.
Definition ask (c : Call) {A} (to_result : Resp c -> result A) : Job A := job_ask c to_result.

Definition has_capture : bool := is_some (ex_cache_key exec).
(** [if let Some(capture) = &cache_capture { .. }] *)
Definition capture (op : Op) : Job unit := if has_capture then do_ (Capture op) else job_ret tt.
Definition emit (kind : string) (message : option string) : Job unit := do_ (Emit kind None message false).
Definition function_text (text : string) : DFError :=
  Execution ("VGI function `" +:+ function +:+ "` " +:+ text).

Definition conform_scan (b : Batch) : result Batch := conform new_batch b (ex_schema exec) (ex_mapping exec).
Definition conform_storage (b : Batch) : result Batch := conform new_batch b (ex_storage_schema exec) (ex_mapping exec).

(** ** Revalidated results *)

(** [ScanCacheRevalidation::replay] *)
Definition send_cached (dropped : string) (b : Batch) : Job unit :=
  b <~ job_try (conform_scan b) ;;
  sent <~ do_ (Send (Ok b)) ;;
  if sent then job_ret tt else job_fail (Execution dropped).
Definition send_stored (item : Batch + string) : Job unit :=
  match item with
  | inl b => send_cached "durable cached revalidation consumer dropped" b
  | inr e => job_fail (ArrowError e)
  end.
Definition replay_partition (hit : Hit) (i : nat) : Job unit :=
  items <~ ask (OpenPartition hit i)
             (fun r => match r with
                       | inl items => Ok items
                       | inr e => Err (Execution ("VGI durable cache replay failed: " +:+ e))
                       end) ;;
  job_each items send_stored.
Definition replay (r : ScanCacheRevalidation) : Job unit :=
  match r with
  | Memory entry _ => job_each (entry_batches entry) (send_cached "cached revalidation consumer dropped")
  | Disk hit => job_each (seq 0 (hit_partitions hit)) (replay_partition hit)
  end.

(** [ScanCacheRevalidation::remove_selected] *)
Definition remove_hit (hit : Hit) : Job unit :=
  ask (DiskRemoveHit hit)
    (fun r => match r with
              | inl _ => Ok tt
              | inr e => Err (Execution ("could not remove the selected durable validator generation: " +:+ e))
              end).
Definition remove_selected (r : ScanCacheRevalidation) (key : CacheKey) : Job unit :=
  match r with
  | Memory _ companion =>
      do_ (CacheRemove key) ;;
      match companion with
      | Some hit => if ex_durable exec then remove_hit hit else job_ret tt
      | None => job_ret tt
      end
  | Disk hit => if ex_durable exec then remove_hit hit else job_ret tt
  end.

(** An entry that outgrew the memory tier's live limit gives way to its durable
    companion. *)
Definition within_memory (r : ScanCacheRevalidation) (key : CacheKey) (too_big : DFError) : Job ScanCacheRevalidation :=
  match r with
  | Memory entry companion =>
      max <~ do_ MaxEntryBytes ;;
      if max <? entry_bytes entry then
        do_ (CacheRemove key) ;;
        match companion with Some hit => job_ret (Disk hit) | None => job_fail too_big end
      else job_ret r
  | Disk _ => job_ret r
  end.

(** [ScanCacheRevalidation::refresh_selected]: the result replaces the selected
    entry. *)
Definition refresh_selected (r : ScanCacheRevalidation) (key : CacheKey) (f : Freshness) (control : Control)
    : Job ScanCacheRevalidation :=
  r <~ within_memory r key (Execution "selected L1 validator exceeded the current max_entry_bytes limit") ;;
  match r with
  | Memory _ companion =>
      slid <~ do_ (CacheSlide key f control) ;;
      if negb slid then job_fail (Execution "selected L1 validator generation changed before refresh")
      else
        match companion with
        | Some hit =>
            if ex_durable exec then
              ask (DiskRevalidate hit f control)
                (fun a => match a with
                          | inl _ => Ok r
                          | inr e => Err (Execution ("could not refresh the matching durable validator generation: " +:+ e))
                          end)
            else job_ret r
        | None => job_ret r
        end
  | Disk hit =>
      if negb (ex_durable exec) then job_fail (Execution "selected durable validator cache is unavailable")
      else
        ask (DiskRevalidate hit f control)
          (fun a => match a with
                    | inl true => Ok r
                    | inl false => Err (Execution "selected durable validator generation changed before refresh")
                    | inr e => Err (Execution ("could not refresh the selected durable validator generation: " +:+ e))
                    end)
  end.

(** ** The request *)

(** An empty projection asks for one column, which is dropped locally. *)
Definition pushed_projection (b : Bound) : option (list Z) :=
  let r := ex_request exec in
  match sc_projection r, sc_projection_pushdown r with
  | Some [], true => (fun i => [i]) <$> narrowest_column (output_schema b)
  | other, true => other
  | _, false => None
  end.
Definition scan_options (b : Bound) (pushdown : Pushdown bytes) (conditional : option ScanCacheRevalidation)
    : ScanOptions :=
  let r := ex_request exec in
  {| so_projection := pushed_projection b;
     so_pushdown_filters := pd_blob pushdown;
     so_join_keys := match pd_join_keys pushdown with [] => None | keys => Some keys end;
     so_filter_columns := Some (pd_columns pushdown);
     so_row_limit := i64_wrap <$> sc_limit r;
     so_order_by := sc_order_by r;
     so_sample := sc_sample r;
     so_if_none_match := conditional ≫= etag_of;
     so_if_modified_since := conditional ≫= last_modified_of |}.

(** ** Validation of a stale split result *)

(** A validation scan is read to its end; its rows are counted and dropped. *)
Fixpoint drain (fuel : nat) (rows : Z) : Job Z :=
  match fuel with
  | O => job_running
  | S fuel =>
      next <~ ask (NextBatch None) id ;;
      match next with
      | None => job_ret rows
      | Some batch =>
          do_ (Count "worker_batches" 1) ;;
          do_ (Count "worker_rows" (Z.of_nat (num_rows batch))) ;;
          do_ (Count "worker_bytes" (memory_size batch)) ;;
          drain fuel (saturating_add rows (Z.of_nat (num_rows batch)))
      end
  end.

(** The votes of the groups that have tokens: how many said [not_modified],
    with which control, and whether the result has to be computed again. *)
Record Votes := mkVotes { votes : nat; agreed_control : option Control; rerun : bool }.
Fixpoint validate_groups (fuel : nat) (b : Bound) (pushdown : Pushdown bytes) (plan : Plan)
    (entry : ScanCacheRevalidation) (groups : list (list bytes)) (v : Votes) : Job Votes :=
  match groups with
  | [] => job_ret v
  | tokens :: groups =>
      if bool_decide (tokens = []) then validate_groups fuel b pushdown plan entry groups v else
      _ <~ ask (OpenScan b (Redeem plan tokens (scan_options b pushdown (Some entry)))) id ;;
      do_ (Count "worker_scans" 1) ;;
      rows <~ drain fuel 0 ;;
      control <~ do_ CacheControlOf ;;
      if not_modified control && negb (rows =? 0)
      then job_fail (function_text "returned rows and not_modified together during split validation")
      else
        match (if not_modified control then control else None) with
        | None => job_ret (mkVotes (votes v) (agreed_control v) true)
        | Some c =>
            match agreed_control v with
            | Some agreed =>
                if bool_decide (agreed = c)
                then validate_groups fuel b pushdown plan entry groups (mkVotes (S (votes v)) (agreed_control v) false)
                else job_ret (mkVotes (S (votes v)) (agreed_control v) true)
            | None => validate_groups fuel b pushdown plan entry groups (mkVotes (S (votes v)) (Some c) false)
            end
        end
  end.

(** What the wave comes to: nothing to do any more, or all tokens of all groups
    to be redeemed without conditions. *)
Inductive Wave := WaveDone | WaveRerun (tokens : list bytes).
Definition missing_key : DFError := Execution "split revalidation is missing its cache key".
Definition rerun_groups (entry : ScanCacheRevalidation) (groups : list (list bytes)) : Job Wave :=
  key <~ job_try (ok_or missing_key (ex_cache_key exec)) ;;
  remove_selected entry key ;;
  job_ret (WaveRerun (concat groups)).
Definition unanimous (entry : ScanCacheRevalidation) (groups : list (list bytes)) (control : Control) : Job Wave :=
  key <~ job_try (ok_or (function_text "returned not_modified without a cache key") (ex_cache_key exec)) ;;
  freshness <~ do_ (FreshnessDeadline control (ck_identity_scope key)) ;;
  match freshness with
  | inl freshness =>
      entry <~ refresh_selected entry key freshness control ;;
      background <~ do_ LoadBackground ;;
      job_when (negb background) (replay entry) ;;
      capture OpRevalidated ;;
      do_ (Count "revalidations" 1) ;;
      emit "cache.revalidated" (Some "split_validation=unanimous") ;;
      job_ret WaveDone
  | inr _ => rerun_groups entry groups
  end.
Definition validate_split (fuel : nat) (b : Bound) (pushdown : Pushdown bytes) (plan : Plan)
    (entry : ScanCacheRevalidation) (groups : list (list bytes)) : Job Wave :=
  v <~ validate_groups fuel b pushdown plan entry groups (mkVotes 0 None false) ;;
  if (votes v =? 0)%nat && bool_decide (groups = []) then
    key <~ job_try (ok_or missing_key (ex_cache_key exec)) ;;
    remove_selected entry key ;;
    capture (OpComplete partition NoWork) ;;
    job_ret WaveDone
  else if (votes v =? 0)%nat then job_fail (function_text "had no executed split group to validate")
  else if rerun v then rerun_groups entry groups
  else
    match agreed_control v with
    | Some control => unanimous entry groups control
    | None => job_fail (Panicked "a validation vote has cache control")
    end.

(** ** The loop over the worker's batches *)

(** A stale entry served because the worker failed. *)
Definition serve_stale (entry : ScanCacheRevalidation) : Job unit :=
  replay entry ;;
  do_ RecordStaleServe ;;
  match entry with
  | Disk _ => if ex_durable exec then do_ DiskRecordStaleServe else job_ret tt
  | Memory _ _ => job_ret tt
  end ;;
  do_ (Count "stale_serves" 1) ;;
  capture OpRevalidated.
(** [!background && revalidation.is_some_and(may_serve_on_error)], with the
    entry when it holds. *)
Definition stale_allowed (revalidation : option ScanCacheRevalidation) : Job (option ScanCacheRevalidation) :=
  background <~ do_ LoadBackground ;;
  match revalidation with
  | Some entry =>
      if background then job_ret None
      else may <~ do_ (MayServeOnError entry) ;; job_ret (if may : bool then Some entry else None)
  | None => job_ret None
  end.

Record LoopState := mkLoop {
  ls_emitted : Z;
  ls_generation : Z;
  ls_revision : Z;
  ls_predicate_count : nat;
  ls_tick : option (Pushdown bytes);
  ls_profile : DynamicProfilePartition;
}.
(** Whether the rows sent reach the limit. *)
Definition limit_reached (emitted : Z) : bool :=
  match limit with Some l => l <=? emitted | None => false end.
Definition truncate (emitted : Z) (b : Batch) : Batch :=
  match limit with
  | Some l => if l <? emitted + Z.of_nat (num_rows b) then slice b (Z.to_nat (l - emitted)) else b
  | None => b
  end.

(** A changed runtime filter is sent with the next request for a batch. *)
Definition refresh_filters (st : LoopState) : Job LoopState :=
  generation <~ do_ DynamicGeneration ;;
  if generation =? ls_generation st then job_ret st
  else
    snap <~ ask SnapshotDynamicFilters id ;;
    let revision := u64_saturating_add (ls_revision st) 1 in
    dynamic <~ job_try (serialize_physical_delta_for_remote snap.2 (ex_filter_schema exec)
                          (ex_remote_bind_schema exec) revision (ls_predicate_count st)) ;;
    job_ret (mkLoop (ls_emitted st) snap.1 revision (pd_predicate_count dynamic)
               (if is_some (pd_blob dynamic) then Some dynamic else None) (ls_profile st)).

(** How the loop is left: with the scan still open, or with the job done. *)
Inductive LoopEnd := Ended (st : LoopState) | Returned.
Definition cancelled (message reason : string) : Job unit :=
  do_ CancelScan ;; emit "scan.cancelled" (Some message) ;; capture (OpAbort reason).

Fixpoint scan_loop (fuel : nat) (revalidation : option ScanCacheRevalidation) (st : LoopState) : Job LoopEnd :=
  match fuel with
  | O => job_running
  | S fuel =>
      st <~ refresh_filters st ;;
      next <~ do_ (NextBatch (ls_tick st ≫= pd_blob)) ;;
      match next with
      | Err error =>
          stale <~ (if ls_emitted st =? 0 then stale_allowed revalidation else job_ret None) ;;
          match stale with
          | Some entry => serve_stale entry ;; job_ret Returned
          | None => capture (OpAbort "worker error") ;; job_fail error
          end
      | Ok None => job_ret (Ended st)
      | Ok (Some batch) =>
          do_ (Count "worker_batches" 1) ;;
          do_ (Count "worker_rows" (Z.of_nat (num_rows batch))) ;;
          do_ (Count "worker_bytes" (memory_size batch)) ;;
          let profile := note_batch (ls_profile st) (Z.of_nat (num_rows batch)) (memory_size batch) in
          cache_batch <~ (if has_capture then job_try (Some <$> conform_storage batch) else job_ret None) ;;
          batch <~ job_try (conform_scan batch) ;;
          let batch := truncate (ls_emitted st) batch in
          let st := mkLoop (ls_emitted st + Z.of_nat (num_rows batch)) (ls_generation st) (ls_revision st)
                      (ls_predicate_count st) (ls_tick st) profile in
          match cache_batch with
          | Some cache_batch => capture (OpPush partition (slice cache_batch (num_rows batch)))
          | None => job_ret tt
          end ;;
          sent <~ do_ (Send (Ok batch)) ;;
          if negb sent then cancelled "consumer dropped" "consumer dropped" ;; job_ret Returned
          else if limit_reached (ls_emitted st) then
            cancelled "limit satisfied" "limit abandoned scan" ;; job_ret (Ended st)
          else scan_loop fuel revalidation st
      end
  end.

(** ** After the last batch *)

(** The worker's report on the finished scan, under EXPLAIN ANALYZE. *)
Definition profile_scan (b : Bound) (id : ExecId) (profile : DynamicProfilePartition) : Job unit :=
  response <~ do_ (DynamicToString b id) ;;
  profile <~ match response with
             | inl (keys, values) =>
                 if (length keys =? length values)%nat then
                   emit "table_function.dynamic_to_string"
                     (Some ("keys=" +:+ pretty (length keys) +:+ " retained="
                            +:+ pretty (Nat.min (length keys) MAX_DYNAMIC_PROFILE_FIELDS))) ;;
                   job_ret (with_values profile (reported_values keys values))
                 else
                   emit "table_function.dynamic_to_string_error"
                     (Some ("worker returned " +:+ pretty (length keys) +:+ " profiling keys and "
                            +:+ pretty (length values) +:+ " values")) ;;
                   job_ret profile
             | inr error =>
                 emit "table_function.dynamic_to_string_error"
                   (Some (utf8 (sanitize_dynamic_profile_text error MAX_DYNAMIC_PROFILE_ERROR_CHARS))) ;;
                 job_ret profile
             end ;;
  do_ (RecordProfile partition profile).

(** The answer was [not_modified]: the stale entry is the result. *)
Definition disk_error (what : string) (r : unit + string) : Job unit :=
  match r with
  | inl _ => job_ret tt
  | inr error => emit "cache.disk_error" (Some (what +:+ error))
  end.
Definition revoke (entry : ScanCacheRevalidation) (key : CacheKey) : Job unit :=
  match entry with
  | Memory _ companion =>
      do_ (CacheRemove key) ;;
      match companion with
      | Some hit =>
          if ex_durable exec then
            r <~ do_ (DiskRemoveHit hit) ;; disk_error "durable companion validator revocation failed: " r
          else job_ret tt
      | None => job_ret tt
      end
  | Disk hit =>
      if ex_durable exec then
        r <~ do_ (DiskRemoveHit hit) ;; disk_error "durable validator revocation failed: " r
      else job_ret tt
  end.
Definition slide (entry : ScanCacheRevalidation) (key : CacheKey) (f : Freshness) (control : Control) : Job unit :=
  match entry with
  | Memory _ companion =>
      _ <~ do_ (CacheSlide key f control) ;;
      match companion with
      | Some hit =>
          if ex_durable exec then
            r <~ do_ (DiskRevalidate hit f control) ;;
            disk_error "durable companion validator refresh failed: " (match r with inl _ => inl tt | inr e => inr e end)
          else job_ret tt
      | None => job_ret tt
      end
  | Disk hit =>
      if ex_durable exec then
        r <~ do_ (DiskRevalidate hit f control) ;;
        disk_error "durable validator refresh failed: " (match r with inl _ => inl tt | inr e => inr e end)
      else job_ret tt
  end.
Definition scan_unchanged (revalidation : option ScanCacheRevalidation) (emitted : Z) (control : Control) : Job unit :=
  entry <~ job_try (ok_or (function_text "returned not_modified without a conditional request") revalidation) ;;
  if negb (emitted =? 0) then job_fail (function_text "returned rows and not_modified together")
  else
    key <~ job_try (ok_or (function_text "returned not_modified without a cache key") (ex_cache_key exec)) ;;
    freshness <~ do_ (FreshnessDeadline control (ck_identity_scope key)) ;;
    match freshness with
    | inr reason =>
        revoke entry key ;;
        job_fail (function_text ("returned not_modified with ineligible cache control: " +:+ reason))
    | inl freshness =>
        entry <~ within_memory entry key
          (function_text "returned not_modified after its L1 cache entry exceeded the current max_entry_bytes limit") ;;
        slide entry key freshness control ;;
        background <~ do_ LoadBackground ;;
        job_when (negb background) (replay entry) ;;
        capture OpRevalidated ;;
        do_ (Count "revalidations" 1) ;;
        emit "cache.revalidated" (match entry with Disk _ => Some "tier=disk" | Memory _ _ => None end)
    end.

(** The scan has been read to its end, or to the limit. *)
Definition finish_scan (b : Bound) (id : ExecId) (revalidation : option ScanCacheRevalidation) (st : LoopState)
    : Job unit :=
  if limit_reached (ls_emitted st) then job_ret tt
  else
    control <~ do_ CacheControlOf ;;
    do_ CloseScan ;;
    match (if not_modified control then control else None) with
    | Some c => scan_unchanged revalidation (ls_emitted st) c
    | None =>
        capture (OpComplete partition (Scanned control)) ;;
        job_when (ex_profiled exec) (profile_scan b id (ls_profile st))
    end.

(** ** The job *)

Definition redeem (plan : option Plan) (tokens : option (list bytes)) (opts : ScanOptions) : Request :=
  match plan, tokens with Some plan, Some tokens => Redeem plan tokens opts | _, _ => Plain opts end.

(** The scan proper. *)
Definition worker_scan (fuel : nat) (b : Bound) (snap : Z * list PhysicalExpr) (pushdown : Pushdown bytes)
    (initial_count : nat) (revalidation : option ScanCacheRevalidation) (tokens : option (list bytes)) : Job unit :=
  opened <~ do_ (OpenScan b (redeem (fst <$> ex_splits exec) tokens (scan_options b pushdown revalidation))) ;;
  match opened with
  | Err error =>
      stale <~ stale_allowed revalidation ;;
      match stale with
      | Some entry => serve_stale entry
      | None => job_fail error
      end
  | Ok id =>
      do_ (Count "worker_scans" 1) ;;
      e <~ scan_loop fuel revalidation (mkLoop 0 snap.1 0 initial_count None default_profile) ;;
      match e with
      | Ended st => finish_scan b id revalidation st
      | Returned => job_ret tt
      end
  end.

(** Whether this partition has anything to read. *)
Definition has_work (tokens : option (list bytes)) : bool :=
  match tokens with
  | Some tokens => negb (bool_decide (tokens = []))
  | None => (partition =? 0)%nat
  end.

Definition run_scan (fuel : nat) : Job unit :=
  revalidation <~ do_ RevalidationProbe ;;
  if is_some revalidation && is_some (ex_splits exec) && (0 <? partition)%nat then
    capture (OpComplete partition NoWork)
  else
    ask Connect id ;;
    ask Attach id ;;
    b <~ ask (Bind bind_spec) id ;;
    snap <~ ask SnapshotDynamicFilters id ;;
    initial <~ job_try (serialize_physical_for_remote snap.2 (ex_filter_schema exec) (ex_remote_bind_schema exec) true) ;;
    pushdown <~ job_try (merge (sc_pushdown (ex_request exec)) initial) ;;
    wave <~ match revalidation, ex_splits exec with
            | Some entry, Some (plan, groups) =>
                wave <~ validate_split fuel b pushdown plan entry groups ;; job_ret (Some wave)
            | _, _ => job_ret None
            end ;;
    match wave with
    | Some WaveDone => job_ret tt
    | _ =>
        let tokens := match wave with Some (WaveRerun tokens) => Some tokens | _ => split_tokens end in
        let revalidation := match wave with Some (WaveRerun _) => None | _ => revalidation end in
        if has_work tokens
        then worker_scan fuel b snap pushdown (pd_predicate_count initial) revalidation tokens
        else capture (OpComplete partition NoWork)
    end.

(** What is spawned for the partition: it reports its end, and an error to the
    consumer as well. *)
Definition scan_job (fuel : nat) : Job unit :=
  capture (OpStart partition) ;;
  do_ (Emit "scan.start"
         ((fun tokens : list bytes => "partition=" +:+ pretty partition +:+ ", tokens=" +:+ pretty (length tokens)) <$> split_tokens)
         None false) ;;
  prog_bind (run_scan fuel) (fun r =>
    match r with
    | Some (Ok _) => do_ (Emit "scan.complete" None None true)
    | Some (Err e) =>
        capture (OpAbort "scan failed") ;;
        do_ (Emit "scan.error" None (Some (error_text e)) true) ;;
        _ <~ do_ (Send (Err e)) ;;
        job_ret tt
    | None => job_running
    end).
End Run.
