(* ===== verification/ScanRunTheorems.v ===== *)
(** * A scan's job delivers its share of the answer

    The contract of [ScanRun.scan_job]: what an honest worker and cache answer,
    what the job may send and tell the capture. Then the properties: a partition
    sends exactly its share, or announces an error after a prefix of it; what it
    hands to the capture is complete; and it ends when the worker's stream
    does. *)

From S2P Require Import Prelude Runtime Arrow Filters Identity CacheKeys Connections ScanShape ScanCache Exchange ScanProfile Interact ScanRun.
From Stdlib Require Import Strings.Ascii.

#[local] Open Scope Z_scope.
#[local] Open Scope job_scope.

Section Contract.
Context {DataType Meta Column : Type} `{!EqDecision DataType, !EqDecision Meta}.
Context {Text : Type} `{!ArrowKernel Text (list ascii)}.
Context {Args Plan Hit Bound ExecId Freshness Rest Row : Type} `{!EqDecision Rest}.

Abbreviation Batch := (@RecordBatch DataType Meta Column).
Abbreviation Schema := (@ScanShape.Schema DataType Meta).
Abbreviation bytes := (list ascii).
Abbreviation Reval := (@ScanCacheRevalidation DataType Meta Column Hit).

Variable new_batch : Schema -> list Column -> nat -> result Batch.
Hypothesis new_batch_rows : forall s cs n b, new_batch s cs n = Ok b -> num_rows b = n.
Variable slice : Batch -> nat -> Batch.
Variable memory_size : Batch -> Z.
Variable output_schema : Bound -> Arrow.Schema.
Variables hit_etag hit_last_modified : Hit -> option string.
Variable hit_partitions : Hit -> nat.
Variable error_text : DFError -> string.
(** The rows of a batch; [slice] keeps the first ones. *)
Variable rows : Batch -> list Row.
Hypothesis rows_count : forall b, num_rows b = length (rows b).
Hypothesis rows_slice : forall b n, rows (slice b n) = take n (rows b).
Hypothesis slice_all : forall b, slice b (num_rows b) = b.

Variable exec : @ScanExec DataType Meta Args Plan.
Variable partition : nat.
Abbreviation limit := (sc_limit (ex_request exec)).
Hypothesis limit_usize : forall l, limit = Some l -> 0 <= l.

Abbreviation Call := (@Call DataType Meta Column Args Plan Hit Bound ExecId Freshness Rest).
Abbreviation Resp := (@Resp DataType Meta Column Args Plan Hit Bound ExecId Freshness Rest).
Abbreviation Request := (@Request Plan).
Abbreviation conform_scan := (conform_scan new_batch exec).
Abbreviation conform_storage := (conform_storage new_batch exec).

(** ** What is assumed of the worker and the cache

    [right tokens bs]: a worker redeeming these tokens (or none at all) may
    answer with the batches [bs]. *)
Variable right : option (list bytes) -> list Batch -> Prop.
Hypothesis right_nothing : right (Some []) [].
(** The batches a durable hit holds, and whether somebody is being served
    meanwhile by stale-while-revalidate. *)
Variable hit_parts : Hit -> list (list Batch).
Hypothesis hit_parts_length : forall h, length (hit_parts h) = hit_partitions h.
Variable background : bool.
Variable honest : Prop.

Definition partial (tokens : option (list bytes)) (bs : list Batch) : Prop := exists more, right tokens (bs ++ more).
Definition total_rows (bs : list Batch) : Z := foldr Z.add 0 (map (fun b => Z.of_nat (num_rows b)) bs).
(** A result that did not reach the limit. *)
Definition short (bs : list Batch) : Prop := forall l, limit = Some l -> total_rows bs < l.
Definition view (b v : Batch) : Prop := conform_scan b = Ok v.

(** The tokens of the whole scan; and this partition's share of it: nothing,
    or some tokens. A stale split result is validated as a whole by the first
    partition. *)
Definition whole : option (list bytes) := '(_, groups) ← ex_splits exec; Some (concat groups).
Definition share (stale : bool) : option (option (list bytes)) :=
  match ex_splits exec with
  | None => if (partition =? 0)%nat then Some None else None
  | Some (_, groups) =>
      if stale then (if (partition =? 0)%nat then Some (Some (concat groups)) else None)
      else Some (Some (default [] (groups !! partition)))
  end.

(** A stored result shows what an answer to the whole scan would. *)
Definition stored_right (bs : list Batch) : Prop :=
  exists raw, right whole raw /\ Forall2 (fun s r => conform_scan s = conform_scan r) bs raw.
Definition entry_right (e : Reval) : Prop :=
  match e with
  | Memory entry companion =>
      stored_right (entry_batches entry) /\ (forall h, companion = Some h -> stored_right (concat (hit_parts h)))
  | Disk h => stored_right (concat (hit_parts h))
  end.

(** ** The ghost state *)

Record Ghost := mkGhost {
  g_sent : list (result Batch);
  g_refused : bool;
  (** whether a stale entry was there, once asked *)
  g_probe : option bool;
  (** the scan that is open: its tokens, its batches so far, whether it ended *)
  g_tokens : option (list bytes);
  g_received : list Batch;
  g_ended : bool;
  (** what the capture was given *)
  g_pushed : list Batch;
  g_completed : bool;
}.
Definition start : Ghost := mkGhost [] false None None [] false [] false.
Definition g_stale (g : Ghost) : bool := default false (g_probe g).

Definition request_tokens (r : Request) : option (list bytes) :=
  match r with Plain _ => None | Redeem _ tokens _ => Some tokens end.

Definition scan_rely (g : Ghost) (c : Call) : Resp c -> Prop :=
  match c with
  | OpenScan _ r => fun a => honest -> forall id, a = Ok id -> partial (request_tokens r) []
  | NextBatch _ => fun a => honest -> forall b, a = Ok (Some b) -> partial (g_tokens g) (g_received g ++ [b])
  | CacheControlOf => fun c => honest -> g_ended g = true -> not_modified c = false -> right (g_tokens g) (g_received g)
  | RevalidationProbe => fun a => honest -> forall e, a = Some e -> entry_right e
  | LoadBackground => fun b => b = background
  | OpenPartition h i => fun a => honest -> forall items, a = inl items ->
      exists bs rest, items = map inl bs ++ rest /\
        (rest = [] /\ hit_parts h !! i = Some bs \/
         exists e rest' more, rest = inr e :: rest' /\ hit_parts h !! i = Some (bs ++ more))
  | _ => fun _ => True
  end.

(** The capture is told of this partition only, gets every batch before the
    end, and is told of an end only when it has the whole share; cache entries
    are changed under the scan's key only. *)
Definition scan_guarantee (g : Ghost) (c : Call) : Prop :=
  match c with
  | Capture (OpStart p) => p = partition
  | Capture (OpPush p _) => p = partition /\ g_completed g = false
  | Capture (OpComplete p NoWork) =>
      p = partition /\ g_completed g = false /\ is_Some (g_probe g) /\ g_pushed g = [] /\
      (share (g_stale g) = None \/ share (g_stale g) = Some (Some []))
  | Capture (OpComplete p (Scanned _)) =>
      p = partition /\ g_completed g = false /\ is_Some (g_probe g) /\
      Forall2 (fun r s => conform_storage r = Ok s) (g_received g) (g_pushed g) /\ short (g_received g) /\
      share (g_stale g) = Some (g_tokens g) /\ (honest -> right (g_tokens g) (g_received g))
  | CacheRemove k | CacheSlide k _ _ => ex_cache_key exec = Some k
  | _ => True
  end.

Definition with_scan (g : Ghost) tokens received ended : Ghost :=
  mkGhost (g_sent g) (g_refused g) (g_probe g) tokens received ended (g_pushed g) (g_completed g).
Definition scan_update (g : Ghost) (c : Call) : Resp c -> Ghost :=
  match c with
  | OpenScan _ r => fun _ => with_scan g (request_tokens r) [] false
  | NextBatch _ => fun a =>
      match a with
      | Ok (Some b) => with_scan g (g_tokens g) (g_received g ++ [b]) (g_ended g)
      | Ok None => with_scan g (g_tokens g) (g_received g) true
      | Err _ => g
      end
  | Send item => fun accepted =>
      if accepted : bool
      then mkGhost (g_sent g ++ [item]) (g_refused g) (g_probe g) (g_tokens g) (g_received g) (g_ended g) (g_pushed g) (g_completed g)
      else mkGhost (g_sent g) true (g_probe g) (g_tokens g) (g_received g) (g_ended g) (g_pushed g) (g_completed g)
  | RevalidationProbe => fun a =>
      mkGhost (g_sent g) (g_refused g) (Some (is_some a)) (g_tokens g) (g_received g) (g_ended g) (g_pushed g) (g_completed g)
  | Capture (OpPush _ b) => fun _ =>
      mkGhost (g_sent g) (g_refused g) (g_probe g) (g_tokens g) (g_received g) (g_ended g) (g_pushed g ++ [b]) (g_completed g)
  | Capture (OpComplete _ _) => fun _ =>
      mkGhost (g_sent g) (g_refused g) (g_probe g) (g_tokens g) (g_received g) (g_ended g) (g_pushed g) true
  | _ => fun _ => g
  end.

Definition scan_contract : contract Resp :=
  {| ghost := Ghost; rely := scan_rely; guarantee := scan_guarantee; update := scan_update |}.

(** ** What a partition delivers *)

Definition limited (l : list Row) : list Row :=
  match limit with Some n => take (Z.to_nat n) l | None => l end.
Definition all_rows (bs : list Batch) : list Row := concat (map rows bs).
(** Read from the worker: the rows of [bs] are those of the view of the
    beginning of an answer to [t], cut at the limit. *)
Definition begins (t : option (list bytes)) (done more bs : list Batch) : Prop :=
  right t (done ++ more) /\ exists vs, Forall2 view done vs /\ all_rows bs = limited (all_rows vs).
(** Read from a stored result: the rows of the view of its beginning. The
    limit is part of the entry's key, and a stored result is replayed as it
    is; the query's LIMIT is applied above the scan. *)
Definition stored_rows (done more bs : list Batch) : Prop :=
  right whole (done ++ more) /\ exists vs, Forall2 view done vs /\ all_rows bs = all_rows vs.
(** No rows; or the beginning of this partition's share, never more than the
    limit; or, where a stored entry was found, the beginning of it. *)
Definition so_far (g : Ghost) (bs : list Batch) : Prop :=
  all_rows bs = [] \/
  (exists t done more, share (g_stale g) = Some t /\ begins t done more bs) \/
  (g_stale g = true /\ share (g_stale g) = Some whole /\ exists done more, stored_rows done more bs).
(** The whole share, as far as the limit asks; or the whole stored result. *)
Definition share_done (g : Ghost) (bs : list Batch) : Prop :=
  match share (g_stale g) with
  | None => all_rows bs = []
  | Some t =>
      (exists done more, begins t done more bs /\ (more = [] \/ exists l, limit = Some l /\ l <= total_rows done)) \/
      (g_stale g = true /\ t = whole /\ exists done, stored_rows done [] bs)
  end.

(** The job's three ends. *)
Definition told (g : Ghost) : Prop :=
  exists bs, g_sent g = map Ok bs /\ (honest -> so_far g bs).
Definition delivered (g : Ghost) : Prop :=
  exists bs, g_sent g = map Ok bs /\ (honest -> so_far g bs) /\
    (honest -> g_refused g = false -> share_done g bs \/ background = true /\ all_rows bs = []).
Definition still (fuel : nat) (g : Ghost) : Prop := told g /\ (fuel <= length (g_received g))%nat.

Abbreviation WP fuel := (wpj scan_contract (fun _ => told) (still fuel)).
Abbreviation capture := (capture exec).
Abbreviation has_capture := (has_capture exec).
Abbreviation replay := (replay new_batch hit_partitions exec).
Abbreviation validate_groups := (validate_groups memory_size output_schema hit_etag hit_last_modified exec).
Abbreviation validate_split := (validate_split new_batch memory_size output_schema hit_etag hit_last_modified hit_partitions exec partition).
Abbreviation scan_loop := (scan_loop new_batch slice memory_size hit_partitions exec partition).
Abbreviation scan_unchanged := (scan_unchanged new_batch hit_partitions exec).
Abbreviation finish_scan := (finish_scan new_batch hit_partitions exec partition).
Abbreviation worker_scan := (worker_scan new_batch slice memory_size output_schema hit_etag hit_last_modified hit_partitions exec partition).
Abbreviation run_scan := (run_scan new_batch slice memory_size output_schema hit_etag hit_last_modified hit_partitions exec partition).
Abbreviation scan_job := (scan_job new_batch slice memory_size output_schema hit_etag hit_last_modified hit_partitions error_text exec partition).

Lemma run_do {A} fuel g c (f : Resp c -> job Resp A) Q :
  scan_guarantee g c -> (forall r, scan_rely g c r -> WP fuel (scan_update g c r) (f r) Q) ->
  WP fuel g (job_bind (do_ c) f) Q.
Proof. intros Hg Hf. split; [exact Hg|exact Hf]. Qed.
Lemma run_ask {A B} fuel g c (to_result : Resp c -> result A) (f : A -> job Resp B) Q :
  scan_guarantee g c ->
  (forall r, scan_rely g c r -> match to_result r with
                                | Ok a => WP fuel (scan_update g c r) (f a) Q
                                | Err e => told (scan_update g c r)
                                end) ->
  WP fuel g (job_bind (ask c to_result) f) Q.
Proof.
  intros Hg Hf. split; [exact Hg|]. intros r Hr. specialize (Hf r Hr). cbn. by destruct (to_result r).
Qed.
Lemma run_try {A B} fuel g (r : result A) (f : A -> job Resp B) Q :
  (forall a, r = Ok a -> WP fuel g (f a) Q) -> told g -> WP fuel g (job_bind (job_try r) f) Q.
Proof. intros Hf Ht. destruct r as [a|e]; [by apply Hf|exact Ht]. Qed.
Lemma run_fail {A} fuel g e (Q : A -> Ghost -> Prop) : told g -> WP fuel g (job_fail e) Q.
Proof. done. Qed.
(** The capture is told, if there is one. *)
Lemma wp_capture {A} fuel g op (f : unit -> job Resp A) Q :
  (has_capture = true -> scan_guarantee g (Capture op)) ->
  (forall g', g' = g \/ g' = scan_update g (Capture op) tt -> WP fuel g' (f tt) Q) ->
  WP fuel g (job_bind (capture op) f) Q.
Proof.
  intros Hg Hf. unfold ScanRun.capture. destruct has_capture; [|by apply Hf; left].
  apply run_do; [by apply Hg|]. intros [] _. apply Hf. by right.
Qed.
Lemma wp_captured fuel g op (Q : unit -> Ghost -> Prop) :
  (has_capture = true -> scan_guarantee g (Capture op)) ->
  (forall g', g' = g \/ g' = scan_update g (Capture op) tt -> Q tt g') -> WP fuel g (capture op) Q.
Proof.
  intros Hg Hf. unfold ScanRun.capture. destruct has_capture; [|by apply Hf; left].
  split; [by apply Hg|]. intros [] _. apply Hf. by right.
Qed.

(** ** Sending a stored result *)

Definition with_sent (g : Ghost) (items : list (result Batch)) : Ghost :=
  mkGhost items (g_refused g) (g_probe g) (g_tokens g) (g_received g) (g_ended g) (g_pushed g) (g_completed g).
(** No row has been sent. *)
Definition fresh (g : Ghost) (es : list Batch) : Prop :=
  g_sent g = map Ok es /\ all_rows es = [] /\ g_refused g = false.
(** From [g0], the views of [done] have been sent. *)
Definition replayed (g0 : Ghost) (done : list Batch) (g : Ghost) : Prop :=
  exists vs, Forall2 view done vs /\ g = with_sent g0 (g_sent g0 ++ map Ok vs).

Lemma all_rows_app a b : all_rows (a ++ b) = all_rows a ++ all_rows b.
Proof. unfold all_rows. by rewrite map_app, concat_app. Qed.
Lemma sent_unique (vs ws : list Batch) : map Ok vs = map Ok ws -> vs = ws.
Proof. revert ws. induction vs as [|v vs IH]; intros [|w ws] H; try done. injection H as -> H. f_equal. by apply IH. Qed.
Lemma total_rows_app a b : total_rows (a ++ b) = total_rows a + total_rows b.
Proof. unfold total_rows. rewrite map_app. induction a as [|x a IH]; cbn; lia. Qed.
Lemma total_rows_pos bs : 0 <= total_rows bs.
Proof. unfold total_rows. induction bs; cbn; lia. Qed.

Lemma conform_rows (schema : Schema) mapping b v : conform new_batch b schema mapping = Ok v -> num_rows v = num_rows b.
Proof.
  unfold conform. destruct (decide _); [by intros [= ->]|]. destruct (fields schema); [apply new_batch_rows|].
  destruct (result_collect _ _); [|done]. cbn. apply new_batch_rows.
Qed.
Lemma view_rows bs vs : Forall2 view bs vs -> Z.of_nat (length (all_rows vs)) = total_rows bs.
Proof.
  unfold all_rows, total_rows. induction 1 as [|b v bs vs Hv _ IH]; cbn; [done|].
  rewrite length_app, <- rows_count, (conform_rows _ _ _ _ Hv). lia.
Qed.
(** Nothing is cut while the limit is not reached. *)
Lemma short_limited bs vs : short bs \/ bs = [] -> Forall2 view bs vs -> limited (all_rows vs) = all_rows vs.
Proof.
  intros Hs Hv. pose proof (view_rows _ _ Hv) as Hn. unfold limited. destruct limit as [l|] eqn:Hl; [|done].
  destruct Hs as [Hs| ->].
  - pose proof (Hs l Hl). apply take_ge. lia.
  - inversion Hv. apply take_nil.
Qed.
Lemma short_begins t done more vs :
  short done \/ done = [] -> right t (done ++ more) -> Forall2 view done vs -> begins t done more vs.
Proof. intros Hs Hr Hv. split; [done|]. exists vs. split; [done|]. by rewrite (short_limited _ _ Hs Hv). Qed.
Lemma begins_nothing t : right t [] -> begins t [] [] [].
Proof. intros Hr. apply short_begins; [by right|done|constructor]. Qed.
(** A prefix of a stored result shows the beginning of an answer. *)
Lemma stored_begins done rest vs ws :
  stored_right (done ++ rest) -> Forall2 view done vs -> all_rows ws = all_rows vs ->
  exists rd rm, stored_rows rd rm ws /\ (rest = [] -> rm = []).
Proof.
  intros (raw & Hr & Hall) Hv Hw. apply Forall2_app_inv_l in Hall as (rd & rm & Hd & Hm & ->).
  exists rd, rm. split; [|by intros ->; inversion Hm].
  split; [done|]. exists vs. split; [|done].
  clear - Hv Hd. revert rd Hd. induction Hv as [|b v bs vs Hb _ IH]; intros rd Hd; inversion Hd; subst; constructor; [|by apply IH].
  unfold view in *. congruence.
Qed.

Section Replay.
Variables (g0 : Ghost) (es stored : list Batch).
Hypothesis g0_fresh : fresh g0 es.
Hypothesis g0_share : share (g_stale g0) = Some whole.
Hypothesis g0_stale : g_stale g0 = true.
Hypothesis stored_ok : honest -> stored_right stored.

Lemma replayed_told done g : replayed g0 done g -> (honest -> done `prefix_of` stored) -> told g.
Proof.
  intros (vs & Hv & ->) Hp. destruct g0_fresh as (Hs & He & _). exists (es ++ vs). cbn. rewrite Hs, map_app. split; [done|].
  intros Hh. destruct (Hp Hh) as [rest Hrest]. right. right. destruct (stored_begins done rest vs (es ++ vs)) as (rd & rm & Hr & _);
    [rewrite <- Hrest; by apply stored_ok|done|by rewrite all_rows_app, He|].
  split; [done|]. split; [done|]. by exists rd, rm.
Qed.
Lemma replayed_delivered g : forall done, replayed g0 done g -> (honest -> done = stored) -> delivered g.
Proof.
  intros done Hd Heq. destruct (replayed_told done g Hd) as (bs & Hbs & Hso); [by intros Hh; rewrite Heq|].
  exists bs. split; [done|]. split; [done|]. intros Hh _. left. destruct Hd as (vs & Hv & ->). cbn in *.
  destruct g0_fresh as (Hs & He & _). rewrite Hs, <- map_app in Hbs.
  apply sent_unique in Hbs as <-.
  unfold share_done. change (share (g_stale _)) with (share (g_stale g0)). rewrite g0_share. right.
  destruct (stored_begins done [] vs (es ++ vs)) as (rd & rm & Hr & Hnil);
    [rewrite app_nil_r, Heq by done; by apply stored_ok|done|by rewrite all_rows_app, He|].
  rewrite Hnil in Hr by done. split; [done|]. split; [done|]. by exists rd.
Qed.

Lemma send_cached_spec fuel dropped done b g :
  replayed g0 done g -> (honest -> done `prefix_of` stored) ->
  WP fuel g (send_cached new_batch exec dropped b) (fun _ g' => replayed g0 (done ++ [b]) g').
Proof.
  intros Hr Hp. pose proof (replayed_told done g Hr Hp) as Ht. unfold send_cached.
  apply run_try; [|done]. intros v Hv. apply run_do; [done|]. intros [] _.
  - apply wpj_ret. destruct Hr as (vs & Hvs & ->). exists (vs ++ [v]). split; [apply Forall2_app; [done|by repeat constructor]|].
    cbn. unfold with_sent. cbn. by rewrite map_app, app_assoc.
  - apply run_fail. destruct Ht as (bs & ? & ?). by exists bs.
Qed.

Lemma replay_memory_spec fuel dropped bs g :
  stored = bs -> replayed g0 [] g ->
  WP fuel g (job_each bs (send_cached new_batch exec dropped)) (fun _ g' => replayed g0 stored g').
Proof.
  intros Hst Hr.
  eapply wpj_mono; [|apply (wpj_each scan_contract _ _ (fun rest g' => exists done, stored = done ++ rest /\ replayed g0 done g'))].
  - intros ? g' (done & Hd & H). rewrite app_nil_r in Hd. by rewrite Hd.
  - intros b rest g' (done & Hd & H). eapply wpj_mono; [|apply (send_cached_spec _ _ done)].
    + intros ? g'' H'. exists (done ++ [b]). by rewrite <- app_assoc.
    + done.
    + intros _. rewrite Hd. by eexists.
  - exists []. by rewrite Hst.
Qed.

(** Within a part of a durable hit: what is left to read of it. *)
Definition reading (before part done : list Batch) (items : list (Batch + string)) : Prop :=
  exists bs tail, items = map inl bs ++ tail /\
    (tail = [] /\ before ++ part = done ++ bs \/
     exists e tail' more, tail = inr e :: tail' /\ before ++ part = done ++ bs ++ more).

Lemma replay_items_spec fuel before part items g done :
  replayed g0 done g -> (honest -> (before ++ part) `prefix_of` stored /\ reading before part done items) ->
  WP fuel g (job_each items (send_stored new_batch exec)) (fun _ g' =>
    exists done', replayed g0 done' g' /\ (honest -> done' = before ++ part)).
Proof.
  intros Hr Hh.
  eapply wpj_mono; [|apply (wpj_each scan_contract _ _ (fun items g' => exists done, replayed g0 done g' /\
     (honest -> (before ++ part) `prefix_of` stored /\ reading before part done items)))].
  - intros ? g' (done' & H & Hb). exists done'. split; [done|]. intros Hho. destruct (Hb Hho) as [_ (bs & tail & Hnil & Hcase)].
    symmetry in Hnil. apply app_eq_nil in Hnil as [Hbs ->]. apply map_eq_nil in Hbs as ->.
    destruct Hcase as [[_ ->]|(? & ? & ? & ? & _)]; [by rewrite app_nil_r|done].
  - intros item rest g' (done' & H & Hb).
    assert (Hpre : honest -> done' `prefix_of` stored).
    { intros Hho. destruct (Hb Hho) as [Hp (bs & tail & _ & Hcase)]. etrans; [|exact Hp].
      destruct Hcase as [[_ ->]|(? & ? & more & _ & ->)]; by eexists. }
    destruct item as [b|e]; cbn [send_stored].
    + eapply wpj_mono; [|by apply (send_cached_spec _ _ done')]. intros ? g'' H'. exists (done' ++ [b]). split; [done|].
      intros Hho. destruct (Hb Hho) as [Hp (bs & tail & Hitems & Hcase)]. split; [done|].
      destruct bs as [|b' bs]; cbn in Hitems.
      { destruct Hcase as [[-> _]|(? & ? & ? & -> & _)]; done. }
      injection Hitems as <- ->. exists bs, tail. split; [done|].
      destruct Hcase as [[-> ->]|(e & t' & more & -> & ->)]; [left|right; exists e, t', more]; by rewrite <- !app_assoc.
    + apply run_fail. by eapply replayed_told.
  - by exists done.
Qed.

Lemma concat_take_S {A} (parts : list (list A)) i part :
  parts !! i = Some part -> concat (take (S i) parts) = concat (take i parts) ++ part.
Proof. intros Hi. by rewrite (take_S_r _ _ part), concat_app by done; cbn; rewrite app_nil_r. Qed.
Lemma concat_take_prefix {A} (parts : list (list A)) i : concat (take i parts) `prefix_of` concat parts.
Proof. exists (concat (drop i parts)). by rewrite <- concat_app, take_drop. Qed.

Lemma replay_disk_spec fuel hit g :
  stored = concat (hit_parts hit) -> replayed g0 [] g ->
  WP fuel g (job_each (seq 0 (hit_partitions hit)) (replay_partition new_batch exec hit)) (fun _ g' =>
    exists done, replayed g0 done g' /\ (honest -> done = stored)).
Proof.
  intros Hst Hr. rewrite <- hit_parts_length. set (n := length (hit_parts hit)).
  eapply wpj_mono; [|apply (wpj_each scan_contract _ _ (fun rest g' => exists i done, (i <= n)%nat /\ rest = seq i (n - i) /\
     replayed g0 done g' /\ (honest -> done = concat (take i (hit_parts hit)))))].
  - intros ? g' (i & done & Hi & Hrest & H & Hd). exists done. split; [done|]. intros Hho. rewrite (Hd Hho), Hst, take_ge; [done|].
    destruct (n - i)%nat eqn:Hni; [|done]. unfold n in *. lia.
  - intros p rest g' (i & done & Hi & Hrest & H & Hd).
    destruct (n - i)%nat as [|k] eqn:Hni; [done|]. injection Hrest as -> ->.
    assert (i < length (hit_parts hit))%nat as [part Hpart]%lookup_lt_is_Some_2 by (unfold n in *; lia).
    assert (Hpre : honest -> done `prefix_of` stored).
    { intros Hho. rewrite (Hd Hho), Hst. apply concat_take_prefix. }
    unfold replay_partition. apply run_ask; [done|]. intros [items|e] Hitems; [|by eapply replayed_told].
    eapply wpj_mono; [|apply (replay_items_spec _ (concat (take i (hit_parts hit))) part _ _ done)].
    + intros ? g'' (done' & H' & Hd'). exists (S i), done'. split_and!; [unfold n in *; lia| |done|].
      * assert (n - S i = k)%nat as -> by lia. done.
      * intros Hho. by rewrite (concat_take_S _ _ part), (Hd' Hho).
    + exact H.
    + intros Hho. split; [rewrite <- (concat_take_S _ _ part) by done; rewrite Hst; apply concat_take_prefix|].
      destruct (Hitems Hho items eq_refl) as (bs & tail & -> & Hcase). exists bs, tail. split; [done|].
      rewrite (Hd Hho). destruct Hcase as [[-> Hp]|(e & t' & more & -> & Hp)].
      * left. split; [done|]. congruence.
      * right. exists e, t', more. split; [done|]. assert (part = bs ++ more) as -> by congruence. done.
  - exists 0%nat, []. split_and!; [lia|by rewrite Nat.sub_0_r|done|done].
Qed.
End Replay.

(** Replaying a stale entry delivers the share it stands for. *)
Definition same (g g' : Ghost) : Prop :=
  g_stale g' = g_stale g /\ g_tokens g' = g_tokens g /\ g_received g' = g_received g /\ g_pushed g' = g_pushed g /\
  g_completed g' = g_completed g.
Lemma replay_spec fuel g es entry :
  fresh g es -> share (g_stale g) = Some whole -> g_stale g = true -> (honest -> entry_right entry) ->
  WP fuel g (replay entry) (fun _ g' => delivered g').
Proof.
  intros Hf Hs Hst0 He.
  assert (Hr : replayed g [] g).
  { exists []. split; [constructor|]. unfold with_sent. cbn. rewrite app_nil_r. by destruct g. }
  destruct entry as [entry companion|hit]; cbn [ScanRun.replay].
  - assert (Hst : honest -> stored_right (entry_batches entry)) by (intros Hh; apply (He Hh)).
    eapply wpj_mono; [|by apply (replay_memory_spec g es (entry_batches entry) Hf Hs Hst0 Hst)].
    intros ? g' H. by eapply (replayed_delivered g es (entry_batches entry) Hf Hs Hst0 Hst _ (entry_batches entry)).
  - assert (Hst : honest -> stored_right (concat (hit_parts hit))) by (intros Hh; apply (He Hh)).
    eapply wpj_mono; [|by apply (replay_disk_spec g es (concat (hit_parts hit)) Hf Hs Hst0 Hst)].
    intros ? g' (done & H & Hd). by eapply (replayed_delivered g es (concat (hit_parts hit)) Hf Hs Hst0 Hst _ done).
Qed.

(** ** Steps that leave the ghost state alone *)

Lemma remove_hit_spec fuel g hit : told g -> WP fuel g (remove_hit hit) (fun _ g' => g' = g).
Proof. intros Ht. apply wpj_ask; [done|]. by intros [[]|e] _. Qed.
Lemma remove_selected_spec fuel g entry key :
  ex_cache_key exec = Some key -> told g -> WP fuel g (remove_selected exec entry key) (fun _ g' => g' = g).
Proof.
  intros Hk Ht. destruct entry as [entry [hit|]|hit]; cbn [remove_selected].
  - apply run_do; [done|]. intros [] _. destruct (ex_durable exec); [by apply remove_hit_spec|done].
  - apply run_do; [done|]. by intros [] _.
  - destruct (ex_durable exec); [by apply remove_hit_spec|done].
Qed.
Lemma within_memory_spec fuel g entry key too_big :
  ex_cache_key exec = Some key -> told g ->
  WP fuel g (within_memory entry key too_big) (fun r g' => g' = g /\ (entry_right entry -> entry_right r)).
Proof.
  intros Hk Ht. destruct entry as [entry companion|hit]; cbn [within_memory]; [|done].
  apply run_do; [done|]. intros max _. destruct (max <? entry_bytes entry); [|done].
  apply run_do; [done|]. intros [] _. destruct companion as [hit|]; [|done].
  apply wpj_ret. split; [done|]. intros [_ H]. by apply H.
Qed.
Lemma refresh_selected_spec fuel g entry key f control :
  ex_cache_key exec = Some key -> told g ->
  WP fuel g (refresh_selected exec entry key f control) (fun r g' => g' = g /\ (entry_right entry -> entry_right r)).
Proof.
  intros Hk Ht. unfold refresh_selected. eapply wpj_seq; [by apply within_memory_spec|].
  intros r g' [-> Hr]. destruct r as [entry' companion|hit].
  - apply run_do; [done|]. intros [] _; cbn [negb]; [|done].
    destruct companion as [hit|]; [|done]. destruct (ex_durable exec); [|done].
    apply wpj_ask; [done|]. by intros [?|e] _.
  - destruct (ex_durable exec); [|done]. apply wpj_ask; [done|]. by intros [[]|e] _.
Qed.
Lemma disk_error_spec {A} fuel g what r (f : unit -> job Resp A) Q :
  WP fuel g (f tt) Q -> WP fuel g (job_bind (disk_error what r) f) Q.
Proof. intros H. destruct r; [exact H|]. apply run_do; [done|]. by intros [] _. Qed.
Lemma disk_error_ret fuel g what r : WP fuel g (disk_error what r) (fun _ g' => g' = g).
Proof. destruct r; [done|]. split; [done|]. by intros [] _. Qed.
Lemma revoke_spec fuel g entry key :
  ex_cache_key exec = Some key -> WP fuel g (revoke exec entry key) (fun _ g' => g' = g).
Proof.
  intros Hk. destruct entry as [entry [hit|]|hit]; cbn [revoke].
  - apply run_do; [done|]. intros [] _. destruct (ex_durable exec); [|done].
    apply run_do; [done|]. intros r _. apply disk_error_ret.
  - apply run_do; [done|]. by intros [] _.
  - destruct (ex_durable exec); [|done]. apply run_do; [done|]. intros r _. apply disk_error_ret.
Qed.
Lemma slide_spec fuel g entry key f control :
  ex_cache_key exec = Some key -> WP fuel g (slide exec entry key f control) (fun _ g' => g' = g).
Proof.
  intros Hk. destruct entry as [entry [hit|]|hit]; cbn [slide].
  - apply run_do; [done|]. intros slid _. destruct (ex_durable exec); [|done].
    apply run_do; [done|]. intros r _. apply disk_error_ret.
  - apply run_do; [done|]. by intros slid _.
  - destruct (ex_durable exec); [|done]. apply run_do; [done|]. intros r _. apply disk_error_ret.
Qed.

(** ** Serving a stale entry *)

Lemma delivered_told g : delivered g -> told g.
Proof. intros (bs & Hs & Hso & _). by exists bs. Qed.
Lemma fresh_told g es : fresh g es -> told g.
Proof. intros (Hs & He & _). exists es. split; [done|]. intros _. by left. Qed.

Lemma captured_spec fuel g op :
  (forall g', scan_guarantee g' (Capture op)) -> (forall g', scan_update g' (Capture op) tt = g') ->
  delivered g -> WP fuel g (capture op) (fun _ g' => delivered g').
Proof. intros Hg Hu Hd. apply wp_captured; [done|]. intros g' [->| ->]; by rewrite ?Hu. Qed.

Lemma stale_allowed_spec fuel g revalidation :
  WP fuel g (stale_allowed revalidation)
    (fun r g' => g' = g /\ forall e, r = Some e -> revalidation = Some e /\ background = false).
Proof.
  apply run_do; [done|]. intros b Hb. cbn in Hb. destruct revalidation as [entry|]; [|by apply wpj_ret].
  destruct b; [by apply wpj_ret|]. apply run_do; [done|]. intros may _. apply wpj_ret. split; [done|].
  intros e. by destruct may; intros [= <-].
Qed.

Lemma serve_stale_spec fuel g es entry :
  fresh g es -> share (g_stale g) = Some whole -> g_stale g = true -> (honest -> entry_right entry) ->
  WP fuel g (serve_stale new_batch hit_partitions exec entry) (fun _ g' => delivered g').
Proof.
  intros Hf Hs Hst He. eapply wpj_seq; [by eapply replay_spec|]. intros [] g1 Hd.
  apply run_do; [done|]. intros [] _.
  assert (Hrest : WP fuel g1 (job_bind (do_ (Count "stale_serves" 1)) (fun _ => capture OpRevalidated)) (fun _ g' => delivered g')).
  { apply run_do; [done|]. intros [] _. by apply captured_spec. }
  destruct entry; [exact Hrest|]. destruct (ex_durable exec); [|exact Hrest].
  apply run_do; [done|]. intros [] _. exact Hrest.
Qed.

(** ** The validation wave *)

Lemma drain_spec fuel n : forall g acc,
  told g -> (n + length (g_received g))%nat = fuel ->
  WP fuel g (drain memory_size n acc) (fun _ g' => exists received ended, g' = with_scan g (g_tokens g) received ended).
Proof.
  induction n as [|n IH]; intros g acc Ht Hn; cbn [drain].
  - split; [done|]. cbn in Hn. lia.
  - apply run_ask; [done|]. intros [[b|]|e] _; cbn [scan_update id]; [| |exact Ht].
    + do 3 (apply run_do; [done|]; intros [] _). cbn [scan_update].
      eapply wpj_mono; [|apply IH; cbn; [exact Ht|rewrite length_app; cbn; lia]].
      intros acc' g' (received & ended & ->). by exists received, ended.
    + by exists (g_received g), true.
Qed.

Lemma validate_groups_spec fuel b pushdown plan entry groups : forall v g,
  told g ->
  WP fuel g (validate_groups fuel b pushdown plan entry groups v)
    (fun _ g' => exists tokens received ended, g' = with_scan g tokens received ended).
Proof.
  induction groups as [|tokens groups IH]; intros v g Ht; cbn [ScanRun.validate_groups].
  { exists (g_tokens g), (g_received g), (g_ended g). by destruct g. }
  destruct (bool_decide _); [by apply IH|].
  assert (Hnext : forall v received ended,
    WP fuel (with_scan g (Some tokens) received ended) (validate_groups fuel b pushdown plan entry groups v)
      (fun _ g' => exists tokens received ended, g' = with_scan g tokens received ended)).
  { intros v' received ended. eapply wpj_mono; [|by apply IH]. intros ? g' (t & r & e & ->). by exists t, r, e. }
  apply run_ask; [done|]. intros [opened|e] _; [|exact Ht]. cbn [scan_update request_tokens id].
  apply run_do; [done|]. intros [] _. cbn [scan_update].
  eapply wpj_seq; [apply drain_spec; [exact Ht|cbn; lia]|]. intros n g' (received & ended & ->). cbn [g_tokens with_scan].
  apply run_do; [done|]. intros control _. cbn [scan_update].
  assert (with_scan (with_scan g (Some tokens) [] false) (Some tokens) received ended = with_scan g (Some tokens) received ended)
    as -> by done.
  destruct (not_modified control && negb (n =? 0)); [exact Ht|].
  destruct (if not_modified control then control else None) as [c|]; [|by exists (Some tokens), received, ended].
  destruct (agreed_control v) as [agreed|]; [|apply Hnext].
  destruct (bool_decide _); [apply Hnext|]. by exists (Some tokens), received, ended.
Qed.

Lemma replay_then fuel g es entry background' (f : unit -> job Resp Wave) Q :
  fresh g es -> share (g_stale g) = Some whole -> g_stale g = true -> (honest -> entry_right entry) -> background' = background ->
  (forall g', delivered g' -> WP fuel g' (f tt) Q) ->
  WP fuel g (job_bind (job_when (negb background') (replay entry)) f) Q.
Proof.
  intros Hf Hs Hst He -> Hq. destruct background eqn:Hb; cbn [negb job_when].
  - apply Hq. destruct Hf as (Hsent & Hrows & _). exists es. split; [done|]. split; [by left|]. intros _ _. by right.
  - eapply wpj_seq; [by eapply replay_spec|]. intros [] g' Hd. by apply Hq.
Qed.

(** The wave settles the partition, or leaves everything to be read anew. *)
Lemma validate_split_spec fuel b pushdown plan groups g entry :
  fresh g [] -> g_stale g = true -> partition = 0%nat -> ex_splits exec = Some (plan, groups) ->
  g_pushed g = [] -> g_completed g = false -> (honest -> entry_right entry) ->
  WP fuel g (validate_split fuel b pushdown plan entry groups) (fun wave g' =>
    match wave with
    | WaveDone => delivered g'
    | WaveRerun tokens => tokens = concat groups /\ exists t received ended, g' = with_scan g t received ended
    end).
Proof.
  intros Hf Hstale Hp Hsplit Hpush Hcomp He. pose proof (fresh_told g [] Hf) as Ht.
  assert (Hwhole : whole = Some (concat groups)) by (unfold whole; by rewrite Hsplit).
  assert (Hshare : share (g_stale g) = Some whole) by (unfold share; by rewrite Hsplit, Hstale, Hp, Hwhole).
  eapply wpj_seq; [by apply validate_groups_spec|]. intros v g1 (t & received & ended & ->).
  set (g1 := with_scan g t received ended).
  assert (Hf1 : fresh g1 []) by done. assert (Ht1 : told g1) by exact Ht.
  assert (Hrerun : WP fuel g1 (rerun_groups exec entry groups) (fun wave g' =>
    match wave with
    | WaveDone => delivered g'
    | WaveRerun tokens => tokens = concat groups /\ exists t received ended, g' = with_scan g t received ended
    end)).
  { apply run_try; [|done]. intros key Hkey. destruct (ex_cache_key exec) as [key'|] eqn:Hk; [|done]. injection Hkey as ->.
    eapply wpj_seq; [by apply remove_selected_spec|]. intros ? g2 ->. apply wpj_ret. split; [done|]. by exists t, received, ended. }
  destruct ((votes v =? 0)%nat && bool_decide (groups = [])) eqn:Hnone.
  - apply andb_true_iff in Hnone as [_ Hnil%bool_decide_eq_true].
    apply run_try; [|done]. intros key Hkey. destruct (ex_cache_key exec) as [key'|] eqn:Hk; [|done]. injection Hkey as ->.
    eapply wpj_seq; [by apply remove_selected_spec|]. intros ? g2 ->.
    assert (Hprobe : is_Some (g_probe g1)).
    { change (g_stale g1 = true) in Hstale. unfold g_stale in Hstale. destruct (g_probe g1); [by eexists|done]. }
    apply wp_capture.
    { intros _. split_and!; try done. right. change (share (g_stale g1) = Some (Some [])).
      change (share (g_stale g1) = Some whole) in Hshare. by rewrite Hshare, Hwhole, Hnil. }
    intros g' Hg'. apply wpj_ret. exists []. assert (g_stale g' = g_stale g /\ g_sent g' = []) as [Hst Hse].
    { destruct Hf as (Hse & _). destruct Hg' as [->| ->]; by cbn. }
    split; [done|]. split; [by left|]. intros _ _. left. unfold share_done. rewrite Hst, Hshare, Hwhole, Hnil.
    left. exists [], []. split; [by apply begins_nothing|by left].
  - destruct (votes v =? 0)%nat; [exact Ht1|]. destruct (rerun v); [exact Hrerun|].
    destruct (agreed_control v) as [control|]; [|exact Ht1].
    apply run_try; [|done]. intros key Hkey. destruct (ex_cache_key exec) as [key'|] eqn:Hk; [|done]. injection Hkey as ->.
    apply run_do; [done|]. intros [f|reason] _; [|exact Hrerun]. cbn [scan_update].
    eapply wpj_seq; [by apply refresh_selected_spec|]. intros e g2 [-> Her].
    apply run_do; [done|]. intros bg Hbg. cbn in Hbg. cbn [scan_update].
    eapply replay_then; [exact Hf1|done|done|intros Hh; by apply Her, He|done|]. intros g3 Hd.
    apply wp_capture; [done|]. intros g4 Hg4. assert (g4 = g3) as -> by by destruct Hg4.
    do 2 (apply run_do; [done|]; intros [] _). by apply wpj_ret.
Qed.

(** ** The loop *)

Lemma refresh_filters_spec fuel g st :
  told g -> WP fuel g (refresh_filters exec st) (fun st' g' => g' = g /\ ls_emitted st' = ls_emitted st).
Proof.
  intros Ht. apply run_do; [done|]. intros generation _. destruct (generation =? _); [done|].
  apply run_ask; [done|]. intros [snap|e] _; [|exact Ht]. cbn [scan_update]. cbv zeta.
  apply run_try; [|exact Ht]. intros dynamic _. done.
Qed.

(** What has been sent is the view of what was received, all of it while the
    limit is not reached. *)
Record looping (g : Ghost) (emitted : Z) : Prop := {
  lp_share : share (g_stale g) = Some (g_tokens g);
  lp_probed : is_Some (g_probe g);
  lp_refused : g_refused g = false;
  lp_completed : g_completed g = false;
  lp_sent : exists vs, g_sent g = map Ok vs /\ Forall2 view (g_received g) vs;
  lp_pushed : has_capture = true -> Forall2 (fun r s => conform_storage r = Ok s) (g_received g) (g_pushed g);
  lp_emitted : emitted = total_rows (g_received g);
  lp_limit : short (g_received g) \/ g_received g = [];
  lp_partial : honest -> partial (g_tokens g) (g_received g);
}.

Lemma looping_begins g emitted :
  looping g emitted -> honest ->
  exists vs, g_sent g = map Ok vs /\ exists more, begins (g_tokens g) (g_received g) more vs.
Proof.
  intros [] Hh. destruct lp_sent0 as (vs & Hs & Hv). exists vs. split; [done|].
  destruct (lp_partial0 Hh) as [more Hm]. exists more. by apply short_begins.
Qed.
Lemma looping_told g emitted : looping g emitted -> told g.
Proof.
  intros Hl. destruct (lp_sent _ _ Hl) as (vs & Hs & _).   exists vs. split; [done|]. intros Hh. right. left.
  destruct (looping_begins _ _ Hl Hh) as (vs' & Hs' & more & Hb).
  exists (g_tokens g), (g_received g), more. split; [apply (lp_share _ _ Hl)|].
  rewrite Hs in Hs'. by apply sent_unique in Hs' as ->.
Qed.
(** No row sent yet. *)
Lemma looping_fresh g emitted : looping g emitted -> emitted = 0 -> exists es, fresh g es.
Proof.
  intros [] ->. destruct lp_sent0 as (vs & Hs & Hv). exists vs. split; [done|]. split; [|done].
  apply view_rows in Hv. destruct (all_rows vs); [done|]. cbn in Hv. lia.
Qed.

(** How the loop may be left. *)
Definition left_loop (stale : bool) (g : Ghost) (e : LoopEnd) : Prop :=
  match e with
  | Returned => delivered g
  | Ended st =>
      if limit_reached exec (ls_emitted st) then delivered g
      else looping g (ls_emitted st) /\ g_ended g = true /\ g_stale g = stale
  end.

Lemma limit_reached_spec emitted :
  limit_reached exec emitted = true <-> exists l, limit = Some l /\ l <= emitted.
Proof.
  unfold limit_reached. destruct limit as [l|]; [|split; [done|intros (l & ? & _); done]].
  rewrite Z.leb_le. split; [intros H; by exists l|intros (l' & [= <-] & H); done].
Qed.
Lemma not_reached_short bs : limit_reached exec (total_rows bs) = false -> short bs.
Proof.
  intros H l Hl. unfold limit_reached in H. rewrite Hl in H. by apply Z.leb_gt in H.
Qed.

(** The limit is reached by the batches received so far. *)
Lemma reached_delivered g vs :
  share (g_stale g) = Some (g_tokens g) -> g_sent g = map Ok vs ->
  (honest -> exists more, begins (g_tokens g) (g_received g) more vs) ->
  limit_reached exec (total_rows (g_received g)) = true -> delivered g.
Proof.
  intros Hs Hsent Hb (l & Hl & Hle)%limit_reached_spec. exists vs. split; [done|]. split.
  - intros Hh. destruct (Hb Hh) as [more Hbm]. right. left. by exists (g_tokens g), (g_received g), more.
  - intros Hh _. left. unfold share_done. rewrite Hs. destruct (Hb Hh) as [more Hbm]. left. exists (g_received g), more.
    split; [done|]. right. by exists l.
Qed.

(** One more batch: what is sent, and how many rows that makes. *)
Lemma truncate_spec g emitted b v vs :
  looping g emitted -> g_sent g = map Ok vs -> view b v ->
  let v' := truncate slice exec emitted v in
  let emitted' := emitted + Z.of_nat (num_rows v') in
  (honest -> partial (g_tokens g) (g_received g ++ [b]) ->
   exists more, begins (g_tokens g) (g_received g ++ [b]) more (vs ++ [v'])) /\
  limit_reached exec emitted' = limit_reached exec (total_rows (g_received g ++ [b])) /\
  (limit_reached exec emitted' = false -> v' = v /\ emitted' = total_rows (g_received g ++ [b])).
Proof.
  intros Hl Hs Hv v' emitted'. destruct Hl as [_ _ _ _ (vs' & Hs' & Hvs) _ He Hshort _].
  rewrite Hs in Hs'. apply sent_unique in Hs' as <-.
  pose proof (view_rows _ _ Hvs) as Hrows. pose proof (conform_rows _ _ _ _ Hv) as Hnum.
  assert (Hall : Forall2 view (g_received g ++ [b]) (vs ++ [v])) by (apply Forall2_app; [done|by repeat constructor]).
  assert (Htotal : total_rows (g_received g ++ [b]) = emitted + Z.of_nat (num_rows v)).
  { rewrite total_rows_app, He. unfold total_rows. cbn. lia. }
  assert (Hcut : all_rows (vs ++ [v']) = limited (all_rows (vs ++ [v]))).
  { rewrite !all_rows_app. unfold all_rows at 2 4. cbn. rewrite !app_nil_r. unfold limited, v', truncate in *.
    destruct limit as [l|] eqn:Hlim; [|done].
    assert (Hle : emitted <= l).
    { rewrite He. destruct Hshort as [Hsh| ->]; [by apply Z.lt_le_incl, Hsh|]. by apply limit_usize. }
    destruct (l <? emitted + Z.of_nat (num_rows v)) eqn:Hlt.
    - apply Z.ltb_lt in Hlt. rewrite rows_slice, take_app, (take_ge (all_rows vs)) by lia.
      f_equal. f_equal. lia.
    - apply Z.ltb_ge in Hlt. rewrite take_ge; [done|]. rewrite length_app, <- rows_count. lia. }
  split_and!.
  - intros _ [more Hm]. exists more. split; [done|]. by exists (vs ++ [v]).
  - rewrite Htotal. unfold emitted', v', truncate, limit_reached in *. destruct limit as [l|] eqn:Hlim; [|done].
    destruct (l <? _) eqn:Hlt; [|done]. apply Z.ltb_lt in Hlt.
    assert (Z.of_nat (num_rows (slice v (Z.to_nat (l - emitted)))) = l - emitted) as ->.
    { rewrite rows_count, rows_slice, length_take, <- rows_count.
      assert (emitted <= l) by (rewrite He; destruct Hshort as [Hsh| ->]; [by apply Z.lt_le_incl, Hsh|by apply limit_usize]).
      lia. }
    transitivity true; [apply Z.leb_le; lia|symmetry; apply Z.leb_le; lia].
  - unfold emitted', v', truncate, limit_reached in *. rewrite Htotal. destruct limit as [l|] eqn:Hlim; [|done].
    destruct (l <? _) eqn:Hlt; [|done]. apply Z.ltb_lt in Hlt. intros Hf. exfalso.
    apply Z.leb_gt in Hf. rewrite rows_count, rows_slice, length_take, <- rows_count in Hf. 
    assert (emitted <= l) by (rewrite He; destruct Hshort as [Hsh| ->]; [by apply Z.lt_le_incl, Hsh|by apply limit_usize]).
    lia.
Qed.

Lemma cancelled_spec fuel g message reason :
  delivered g -> WP fuel g (cancelled exec message reason) (fun _ g' => delivered g').
Proof.
  intros Hd. apply run_do; [done|]. intros [] _. apply run_do; [done|]. intros [] _. by apply captured_spec.
Qed.

(** Once a batch has been sent: the consumer is gone, or the limit is reached,
    or the loop goes on. *)
Lemma after_send g emitted b v c items :
  let v' := truncate slice exec emitted v in
  looping g emitted -> view b v -> (has_capture = true -> conform_storage b = Ok c) ->
  (honest -> partial (g_tokens g) (g_received g ++ [b])) ->
  items = (if has_capture then g_pushed g ++ [slice c (num_rows v')] else g_pushed g) ->
  let g1 := mkGhost (g_sent g ++ [Ok v']) false (g_probe g) (g_tokens g) (g_received g ++ [b]) (g_ended g) items (g_completed g) in
  let emitted' := emitted + Z.of_nat (num_rows v') in
  (limit_reached exec emitted' = true -> delivered g1) /\
  (limit_reached exec emitted' = false -> looping g1 emitted').
Proof.
  intros v' Hl Hv Hc Hpart Hitems g1 emitted'.
  destruct (lp_sent _ _ Hl) as (vs & Hs & Hvs).
  destruct (truncate_spec g emitted b v vs Hl Hs Hv) as (Hbegin & Hreach & Hgo).
  fold v' in Hbegin, Hreach, Hgo. fold emitted' in Hreach, Hgo. split; intros Hlim.
  - apply (reached_delivered g1 (vs ++ [v'])).
    + apply (lp_share _ _ Hl).
    + cbn. by rewrite Hs, map_app.
    + intros Hh. apply (Hbegin Hh). by apply Hpart.
    + cbn [g1 g_received]. by rewrite <- Hreach.
  - destruct (Hgo Hlim) as [Hvv Htot]. rewrite Hvv in *.
    split; cbn; try apply Hl; try done.
    + exists (vs ++ [v]). split; [by rewrite Hs, map_app, Hvv|]. apply Forall2_app; [done|by repeat constructor].
    + intros Hcap. rewrite Hitems, Hcap. apply Forall2_app; [by apply Hl|]. constructor; [|constructor].
      specialize (Hc Hcap). rewrite Hc. f_equal. symmetry.
      assert (num_rows v = num_rows c) as -> by (rewrite (conform_rows _ _ _ _ Hv), (conform_rows _ _ _ _ Hc); done).
      apply slice_all.
    + left. apply not_reached_short. by rewrite <- Htot.
Qed.

Lemma scan_loop_spec fuel n revalidation : forall g st,
  looping g (ls_emitted st) -> (n + length (g_received g))%nat = fuel ->
  (is_Some revalidation -> share (g_stale g) = Some whole /\ g_stale g = true) ->
  (honest -> forall e, revalidation = Some e -> entry_right e) ->
  WP fuel g (scan_loop n revalidation st) (fun e g' => left_loop (g_stale g) g' e).
Proof.
  induction n as [|n IH]; intros g st Hl Hn Hwhole Hright; cbn [ScanRun.scan_loop].
  { apply wpj_running. split; [by eapply looping_told|]. cbn in Hn. lia. }
  pose proof (looping_told _ _ Hl) as Ht.
  eapply wpj_seq; [by apply refresh_filters_spec|]. intros st1 g1 [-> He]. rewrite <- He in Hl. clear st He.
  apply run_do; [done|]. intros [[b|]|error] Hnext; cbn [scan_update].
  - do 3 (apply run_do; [done|]; intros [] _). cbn [scan_update]. cbv zeta.
    set (g1 := with_scan g (g_tokens g) (g_received g ++ [b]) (g_ended g)).
    assert (Ht1 : told g1) by exact Ht.
    assert (Hpart : honest -> partial (g_tokens g) (g_received g ++ [b])) by (intros Hh; by apply Hnext).
    assert (Hrest : forall c g2 items,
      (has_capture = true -> conform_storage b = Ok c) ->
      forall v, view b v -> let v' := truncate slice exec (ls_emitted st1) v in
      items = (if has_capture then g_pushed g ++ [slice c (num_rows v')] else g_pushed g) ->
      g2 = mkGhost (g_sent g) (g_refused g) (g_probe g) (g_tokens g) (g_received g ++ [b]) (g_ended g) items (g_completed g) ->
      let st' := mkLoop (ls_emitted st1 + Z.of_nat (num_rows v')) (ls_generation st1) (ls_revision st1) (ls_predicate_count st1)
                   (ls_tick st1) (note_batch (ls_profile st1) (Z.of_nat (num_rows b)) (memory_size b)) in
      WP fuel g2 (job_bind (do_ (Send (Ok v'))) (fun sent =>
        if negb sent then job_bind (cancelled exec "consumer dropped" "consumer dropped") (fun _ => job_ret Returned)
        else if limit_reached exec (ls_emitted st') then
          job_bind (cancelled exec "limit satisfied" "limit abandoned scan") (fun _ => job_ret (Ended st'))
        else scan_loop n revalidation st')) (fun e g' => left_loop (g_stale g) g' e)).
    { intros c g2 items Hc v Hv v' Hitems -> st'.
      destruct (after_send g (ls_emitted st1) b v c items Hl Hv Hc Hpart Hitems) as [Hstop Hgo].
      apply run_do; [done|]. intros [] _; cbn [negb scan_update].
      - rewrite (lp_refused _ _ Hl). cbn [g_sent g_refused g_stale g_tokens g_received g_ended g_pushed g_completed].
        destruct (limit_reached exec (ls_emitted st')) eqn:Hlim.
        + eapply wpj_seq; [by apply cancelled_spec, Hstop|]. intros [] g3 Hd. apply wpj_ret. cbn [left_loop]. by rewrite Hlim.
        + match goal with |- wpj _ _ _ ?g1 _ _ => apply (IH g1) end; [by apply Hgo| |done|done]. cbn. rewrite length_app. cbn. lia.
      - eapply wpj_seq; [apply cancelled_spec|intros [] g3 Hd; by apply wpj_ret].
        destruct Ht as (bs & Hbs & Hso). exists bs. split; [done|]. split; [done|]. by intros _ ?. }
    destruct has_capture eqn:Hcap.
    + destruct (conform_storage b) as [c|e] eqn:Hc; [|exact Ht1]. cbn [fmap result_fmap].
      apply (run_try _ _ (Ok (Some c))); [|done]. intros ? [= <-].
      apply run_try; [|done]. intros v Hv.
      unfold ScanRun.capture. rewrite Hcap. apply run_do; [|intros [] _; by eapply Hrest].
      split; [done|apply (lp_completed _ _ Hl)].
    + apply wpj_bind, wpj_ret. apply run_try; [|done]. intros v Hv. apply wpj_bind, wpj_ret. by eapply (Hrest b).
  - apply wpj_ret. cbn [left_loop]. destruct (limit_reached exec (ls_emitted st1)) eqn:Hlim.
    + destruct (lp_sent _ _ Hl) as (vs & Hs & Hv).
      apply (reached_delivered (with_scan g (g_tokens g) (g_received g) true) vs); [apply (lp_share _ _ Hl)|done| |].
      * intros Hh. destruct (looping_begins _ _ Hl Hh) as (vs' & Hs' & more & Hb).
        rewrite Hs in Hs'. apply sent_unique in Hs' as <-. by exists more.
      * cbn [g_received with_scan]. by rewrite <- (lp_emitted _ _ Hl).
    + split; [|done]. destruct Hl. by split.
  - eapply wpj_seq with (P := fun r g' => g' = g /\ forall e, r = Some e -> revalidation = Some e /\ ls_emitted st1 = 0).
    + destruct (Z.eqb_spec (ls_emitted st1) 0); [|by apply wpj_ret].
      eapply wpj_mono; [|apply stale_allowed_spec]. intros r g' [-> Hr]. split; [done|]. intros entry Hre. by destruct (Hr entry Hre).
    + intros r g' [-> Hr]. destruct r as [entry|].
      * destruct (Hr entry eq_refl) as [Hrev Hz]. destruct (looping_fresh _ _ Hl Hz) as [es Hf].
        destruct Hwhole as [Hwh Hst]; [by eexists|].
        eapply wpj_seq; [eapply serve_stale_spec; [exact Hf|done|done|intros Hh; by apply (Hright Hh)]|].
        intros [] g2 Hd. by apply wpj_ret.
      * apply wp_capture; [done|]. intros g2 Hg2. assert (g2 = g) as -> by by destruct Hg2. exact Ht.
Qed.

(** ** The end of the scan *)

Lemma profile_scan_spec fuel b id profile g :
  delivered g -> WP fuel g (profile_scan partition b id profile) (fun _ g' => delivered g').
Proof.
  intros Hd. apply run_do; [done|]. intros [[keys values]|error] _; cbn [scan_update].
  - destruct (_ =? _)%nat.
    + apply run_do; [done|]. intros [] _. by split.
    + apply run_do; [done|]. intros [] _. by split.
  - apply run_do; [done|]. intros [] _. by split.
Qed.

Lemma scan_unchanged_spec fuel revalidation g emitted control :
  looping g emitted ->
  (is_Some revalidation -> share (g_stale g) = Some whole /\ g_stale g = true) ->
  (honest -> forall e, revalidation = Some e -> entry_right e) ->
  WP fuel g (scan_unchanged revalidation emitted control) (fun _ g' => delivered g').
Proof.
  intros Hl Hwhole Hright. pose proof (looping_told _ _ Hl) as Ht.
  apply run_try; [|done]. intros entry He. destruct revalidation as [e|]; [|done]. injection He as ->.
  destruct (Z.eqb_spec emitted 0) as [Hz|]; cbn [negb]; [|exact Ht].
  destruct (looping_fresh _ _ Hl Hz) as [es Hf].
  apply run_try; [|done]. intros key Hk. destruct (ex_cache_key exec) as [key'|] eqn:Hkey; [|done]. injection Hk as ->.
  apply run_do; [done|]. intros [f|reason] _; cbn [scan_update].
  2: { eapply wpj_seq; [by apply revoke_spec|]. intros [] g' ->. exact Ht. }
  eapply wpj_seq; [by apply within_memory_spec|]. intros e g' [-> He].
  eapply wpj_seq; [by apply slide_spec|]. intros [] g' ->.
  apply run_do; [done|]. intros bg Hbg. cbn in Hbg. cbn [scan_update]. subst bg.
  assert (Hend : forall g', delivered g' -> WP fuel g' (job_bind (capture OpRevalidated) (fun _ =>
    job_bind (do_ (Count "revalidations" 1)) (fun _ =>
    emit "cache.revalidated" (match e with Disk _ => Some "tier=disk"%string | Memory _ _ => None end)))) (fun _ g' => delivered g')).
  { intros g1 Hd. apply wp_capture; [done|]. intros g2 Hg2. assert (g2 = g1) as -> by by destruct Hg2.
    apply run_do; [done|]. intros [] _. by split. }
  destruct background eqn:Hb; cbn [negb job_when].
  - apply Hend. destruct Hf as (Hsent & Hrows & _). exists es. split; [done|]. split; [by left|]. intros _ _. by right.
  - destruct Hwhole as [Hwh Hst]; [by eexists|].
    eapply wpj_seq; [eapply replay_spec; [exact Hf|done|done|intros Hh; by apply He, (Hright Hh)]|].
    intros [] g1 Hd. by apply Hend.
Qed.

Lemma finish_scan_spec fuel b id revalidation st g :
  left_loop (g_stale g) g (Ended st) ->
  (is_Some revalidation -> share (g_stale g) = Some whole /\ g_stale g = true) ->
  (honest -> forall e, revalidation = Some e -> entry_right e) ->
  WP fuel g (finish_scan b id revalidation st) (fun _ g' => delivered g').
Proof.
  intros Hleft Hwhole Hright. unfold ScanRun.finish_scan. cbn [left_loop] in Hleft.
  destruct (limit_reached exec (ls_emitted st)) eqn:Hlim; [by apply wpj_ret|]. destruct Hleft as (Hl & Hended & _).
  apply run_do; [done|]. intros control Hcontrol. apply run_do; [done|]. intros [] _. cbn [scan_update].
  destruct (if not_modified control then control else None) as [c|] eqn:Hnm; [by eapply scan_unchanged_spec|].
  assert (Hfresh : not_modified control = false).
  { destruct control as [c|]; [|done]. by destruct (not_modified (Some c)). }
  assert (Hr : honest -> right (g_tokens g) (g_received g)) by (intros Hh; by apply Hcontrol).
  assert (Hshort : short (g_received g)) by (apply not_reached_short; by rewrite <- (lp_emitted _ _ Hl)).
  assert (Hd : forall g', g' = g \/ g' = scan_update g (Capture (OpComplete partition (Scanned control))) tt -> delivered g').
  { intros g' Hg'. destruct (lp_sent _ _ Hl) as (vs & Hs & Hv). exists vs.
    assert (g_sent g' = map Ok vs /\ g_stale g' = g_stale g) as [Hs' Hst] by by destruct Hg' as [->| ->].
    assert (Hb : honest -> begins (g_tokens g) (g_received g) [] vs).
    { intros Hh. apply short_begins; [by left|rewrite app_nil_r; by apply Hr|done]. }
    split; [done|]. split.
    - intros Hh. right. left. exists (g_tokens g), (g_received g), []. rewrite Hst. split; [apply (lp_share _ _ Hl)|by apply Hb].
    - intros Hh _. left. unfold share_done. rewrite Hst, (lp_share _ _ Hl). left. exists (g_received g), []. split; [by apply Hb|by left]. }
  apply wp_capture.
  - intros Hcap. split_and!; [done|apply (lp_completed _ _ Hl)|apply (lp_probed _ _ Hl)|by apply (lp_pushed _ _ Hl)|done|apply (lp_share _ _ Hl)|done].
  - intros g' Hg'. specialize (Hd g' Hg'). unfold job_when. destruct (ex_profiled exec); [by apply profile_scan_spec|by apply wpj_ret].
Qed.

Lemma worker_scan_spec fuel b snap pushdown count revalidation tokens g :
  fresh g [] -> share (g_stale g) = Some tokens -> is_Some (g_probe g) -> g_pushed g = [] -> g_completed g = false ->
  (tokens = None \/ is_Some (ex_splits exec)) -> (is_Some (ex_splits exec) -> is_Some tokens) ->
  (is_Some revalidation -> tokens = whole /\ g_stale g = true) ->
  (honest -> forall e, revalidation = Some e -> entry_right e) ->
  WP fuel g (worker_scan fuel b snap pushdown count revalidation tokens) (fun _ g' => delivered g').
Proof.
  intros Hf Hshare Hprobe Hpush Hcomp Htok Htok' Hwhole Hright. pose proof (fresh_told g [] Hf) as Ht.
  assert (Hw : is_Some revalidation -> share (g_stale g) = Some whole /\ g_stale g = true).
  { intros H. destruct (Hwhole H) as [Htw Hst]. split; [by rewrite Hshare, Htw|done]. }
  apply run_do; [done|]. set (req := redeem _ tokens _).
  assert (Hreq : request_tokens req = tokens).
  { unfold req, redeem. destruct (ex_splits exec) as [[plan groups]|] eqn:Hsplit, tokens as [tokens|]; cbn; try done.
    destruct Htok as [|[? ?]]; done. }
  intros [id|error] Hopen; cbn [scan_update]; rewrite Hreq.
  - set (g1 := with_scan g tokens [] false). apply run_do; [done|]. intros [] _. cbn [scan_update].
    eapply wpj_seq; [apply (scan_loop_spec fuel)|].
    + destruct Hf as (Hs & _ & Hrf). split; cbn; try done.
      * by exists [].
      * intros _. rewrite Hpush. constructor.
      * by right.
      * intros Hh. rewrite <- Hreq. by apply (Hopen Hh id).
    + cbn. lia.
    + exact Hw.
    + exact Hright.
    + intros [st|] g2 Hleft; [|by apply wpj_ret]. cbn [g_stale g1 with_scan] in Hleft.
      assert (Hst : limit_reached exec (ls_emitted st) = false -> g_stale g2 = g_stale g).
      { intros Hlim. cbn [left_loop] in Hleft. rewrite Hlim in Hleft. by destruct Hleft as (_ & _ & ?). }
      destruct (limit_reached exec (ls_emitted st)) eqn:Hlim.
      * unfold ScanRun.finish_scan. rewrite Hlim. apply wpj_ret. cbn [left_loop] in Hleft. by rewrite Hlim in Hleft.
      * specialize (Hst eq_refl). apply finish_scan_spec; rewrite ?Hst; done.
  - eapply wpj_seq; [apply stale_allowed_spec|]. intros r g' [-> Hr]. destruct r as [entry|].
    + destruct (Hr entry eq_refl) as [Hrev _]. destruct Hw as [Hwh Hst]; [by eexists|]. apply (serve_stale_spec _ _ []); [done..|].
      intros Hh. by apply (Hright Hh).
    + exact Ht.
Qed.

Lemma no_work_spec fuel g :
  fresh g [] -> is_Some (g_probe g) -> g_pushed g = [] -> g_completed g = false ->
  (share (g_stale g) = None \/ share (g_stale g) = Some (Some [])) ->
  WP fuel g (capture (OpComplete partition NoWork)) (fun _ g' => delivered g').
Proof.
  intros (Hs & Hrows & Hrf) Hprobe Hpush Hcomp Hshare. apply wp_captured; [intros _; cbn; done|].
  intros g' Hg'. exists []. assert (g_sent g' = [] /\ g_stale g' = g_stale g) as [Hs' Hst] by by destruct Hg' as [->| ->].
  split; [done|]. split; [by left|]. intros _ _. left. unfold share_done. rewrite Hst. destruct Hshare as [->| ->]; [done|].
  left. exists [], []. split; [by apply begins_nothing|by left].
Qed.

(** ** The job *)

Lemma run_scan_spec fuel :
  WP fuel start (run_scan fuel) (fun _ g' => delivered g').
Proof.
  apply run_do; [done|]. intros revalidation Hrev. cbn [scan_update].
  set (g := mkGhost _ _ _ _ _ _ _ _).
  assert (Hf : fresh g []) by done. pose proof (fresh_told g [] Hf) as Ht.
  assert (Hstale : g_stale g = is_some revalidation) by done. assert (Hprobe : is_Some (g_probe g)) by by eexists.
  destruct (is_some revalidation && is_some (ex_splits exec) && (0 <? partition)%nat) eqn:Hidle.
  { apply andb_true_iff in Hidle as [[Hr Hs]%andb_true_iff Hp%Nat.ltb_lt]. apply no_work_spec; [done..|]. left.
    unfold share. rewrite Hstale, Hr. destruct (ex_splits exec) as [[plan groups]|]; [|done].
    by destruct (Nat.eqb_spec partition 0); [lia|]. }
  do 2 (apply run_ask; [done|]; intros [[]|e] _; [|exact Ht]; cbn [scan_update]).
  apply run_ask; [done|]. intros [b|e] _; [|exact Ht]. cbn [scan_update].
  apply run_ask; [done|]. intros [snap|e] _; [|exact Ht]. cbn [scan_update].
  apply run_try; [|exact Ht]. intros initial _. apply run_try; [|exact Ht]. intros pushdown _.
  assert (Hplain : forall tokens, tokens = split_tokens exec partition ->
    (is_some revalidation = true -> ex_splits exec = None) ->
    WP fuel g (if has_work partition tokens
               then worker_scan fuel b snap pushdown (pd_predicate_count initial) revalidation tokens
               else capture (OpComplete partition NoWork)) (fun _ g' => delivered g')).
  { intros tokens -> Hno. unfold split_tokens, has_work.
    assert (Hshare : share (g_stale g) = match ex_splits exec with
                                         | None => if (partition =? 0)%nat then Some None else None
                                         | Some (_, groups) => Some (Some (default [] (groups !! partition)))
                                         end).
    { unfold share. rewrite Hstale. destruct (ex_splits exec) as [[plan groups]|] eqn:Hsplit; [|done].
      destruct (is_some revalidation); [|done]. by specialize (Hno eq_refl). }
    destruct (ex_splits exec) as [[plan groups]|] eqn:Hsplit; cbn.
    - destruct (default [] (groups !! partition)) as [|tok toks] eqn:Htok; cbn [negb bool_decide].
      + apply no_work_spec; [done..|]. rewrite Hshare. by right.
      + apply worker_scan_spec; [done..| | | |].
        * right. rewrite Hsplit. by eexists.
        * intros _. by eexists.
        * intros [e ->]. by specialize (Hno eq_refl).
        * done.
    - destruct (partition =? 0)%nat.
      + apply worker_scan_spec; [done..| | | |].
        * by left.
        * rewrite Hsplit. by intros [? ?].
        * intros [e He]. unfold whole. rewrite Hsplit, Hstale, He. done.
        * done.
      + apply no_work_spec; [done..|]. rewrite Hshare. by left. }
  destruct revalidation as [entry|]; [|by apply (Hplain (split_tokens exec partition))].
  destruct (ex_splits exec) as [[plan groups]|] eqn:Hsplit; [|by apply (Hplain (split_tokens exec partition))].
  cbn in Hidle. assert (partition = 0%nat) as Hp by (destruct partition; [done|discriminate]).
  apply wpj_bind. eapply wpj_seq; [eapply (validate_split_spec _ b pushdown plan groups g entry); try done; intros Hh; by apply Hrev|].
  intros [|tokens] g1 Hwave; apply wpj_ret; [by apply wpj_ret|]. cbv zeta.
  destruct Hwave as (-> & t & received & ended & ->). set (g1 := with_scan g t received ended).
  assert (Hshare : share (g_stale g1) = Some (Some (concat groups))).
  { unfold share. rewrite Hsplit, Hp. done. }
  unfold has_work. destruct (bool_decide (concat groups = [])) eqn:Hnil; cbn [negb].
  - apply bool_decide_eq_true in Hnil. rewrite Hnil in Hshare. apply no_work_spec; [done..|]. by right.
  - apply worker_scan_spec; [done..| | | |].
    + right. rewrite Hsplit. by eexists.
    + intros _. by eexists.
    + by intros [? ?].
    + done.
Qed.

(** The job's end, as the consumer sees it. *)
Definition announced (g : Ghost) : Prop :=
  delivered g \/
  exists bs, (honest -> so_far g bs) /\ (g_sent g = map Ok bs /\ g_refused g = true \/ exists e, g_sent g = map Ok bs ++ [Err e]).
Lemma wp_step {A} g c (f : Resp c -> job Resp A) Q :
  scan_guarantee g c -> (forall r, scan_rely g c r -> wp scan_contract (scan_update g c r) (f r) Q) ->
  wp scan_contract g (job_bind (do_ c) f) Q.
Proof. intros Hg Hf. split; [exact Hg|exact Hf]. Qed.
Lemma wp_told {A} g op (f : unit -> job Resp A) Q :
  scan_guarantee g (Capture op) -> scan_update g (Capture op) tt = g ->
  wp scan_contract g (f tt) Q -> wp scan_contract g (job_bind (capture op) f) Q.
Proof.
  intros Hg Hu Hf. unfold ScanRun.capture. destruct has_capture; [|exact Hf].
  apply wp_step; [done|]. intros [] _. by rewrite Hu.
Qed.
Lemma scan_job_spec fuel :
  wp scan_contract start (scan_job fuel) (fun r g' => match r with Some _ => announced g' | None => still fuel g' end).
Proof.
  apply wp_told; [done..|]. apply wp_step; [done|]. intros [] _. cbn [scan_update].
  apply wp_bind. eapply wp_mono; [|apply run_scan_spec].
  intros [[[]|e]|] g' Hg'; [| |exact Hg'].
  - split; [done|]. intros [] _. by left.
  - destruct Hg' as (bs & Hs & Hso). apply wp_told; [done..|].
    apply wp_step; [done|]. intros [] _. apply wp_step; [done|]. intros [] _.
    + right. exists bs. split; [done|]. right. exists e. cbn. by rewrite Hs.
    + right. exists bs. split; [done|]. by left.
Qed.

(** C5: a partition's job delivers its share of the answer, whichever way it
    goes: from the worker, from a stale entry the worker confirmed, or from a
    stale entry that may stand in for a failing worker. When the worker and the
    cache are honest, the rows sent are at all times the beginning of the
    share, cut exactly at the limit ([so_far]; only a stored entry, which was
    stored under the same limit, is replayed uncut), and rows of the cache and
    of the worker are never mixed. A job that ends has sent the whole share, as
    far as the limit asks ([share_done]), with three exceptions: the consumer
    refused a batch; an error follows the rows; or the job runs in the
    background, and the stale entry was already shown: it sends no rows. *)
Theorem scan_share_exact fuel tr r :
  honest -> relied scan_contract start tr -> runs (scan_job fuel) tr (Some r) ->
  let g := observe scan_contract start tr in
  exists bs, so_far g bs /\
    ((exists e, g_sent g = map Ok bs ++ [Err e]) \/
     g_sent g = map Ok bs /\ (g_refused g = true \/ share_done g bs \/ background = true /\ all_rows bs = [])).
Proof.
  intros Hh Hrely Hrun g.
  destruct (wp_sound _ _ _ _ _ _ Hrun (scan_job_spec fuel) Hrely) as [_ [(bs & Hs & Hso & Hdone)|(bs & Hso & [[Hs Href]|[e Hs]])]];
    exists bs; (split; [by apply Hso|]).
  - right. split; [done|]. destruct (g_refused g) eqn:Href; [by left|]. right. by apply Hdone.
  - right. split; [done|]. by left.
  - left. by exists e.
Qed.

(** C37: a job ends when the worker's stream does: with more fuel than the open
    scan has yielded batches, no run is cut short by the fuel. *)
Theorem scan_job_ends fuel tr r :
  relied scan_contract start tr -> runs (scan_job fuel) tr r ->
  (length (g_received (observe scan_contract start tr)) < fuel)%nat -> is_Some r.
Proof.
  intros Hrely Hrun Hlt. destruct r as [r|]; [by eexists|].
  destruct (wp_sound _ _ _ _ _ _ Hrun (scan_job_spec fuel) Hrely) as [_ [_ Hle]]. lia.
Qed.

Lemma scan_job_keeps fuel tr r before c answer after :
  relied scan_contract start tr -> runs (scan_job fuel) tr r -> tr = before ++ existT c answer :: after ->
  scan_guarantee (observe scan_contract start before) c.
Proof.
  intros Hrely Hrun ->. destruct (wp_sound _ _ _ _ _ _ Hrun (scan_job_spec fuel) Hrely) as [Hg _].
  exact (guaranteed_at scan_contract start before c answer after Hg).
Qed.

(** ** What the capture hears *)

Definition capture_op (c : Call) : option (@Op Batch (bool * Rest)) :=
  match c with Capture (OpPush _ _ as op) | Capture (OpComplete _ _ as op) => Some op | _ => None end.
Definition capture_ops (tr : list (event Resp)) : list Op := omap (fun e => capture_op (projT1 e)) tr.
Definition op_batch (op : @Op Batch (bool * Rest)) : option Batch := match op with OpPush _ b => Some b | _ => None end.
Definition is_complete (op : @Op Batch (bool * Rest)) : bool := match op with OpComplete _ _ => true | _ => false end.

Lemma observed_capture g tr :
  g_pushed (observe scan_contract g tr) = g_pushed g ++ omap op_batch (capture_ops tr) /\
  g_completed (observe scan_contract g tr) = g_completed g || existsb is_complete (capture_ops tr).
Proof.
  revert g. induction tr as [|[c a] tr IH]; intros g; cbn [observe].
  - cbn. by rewrite app_nil_r, orb_false_r.
  - destruct (IH (update scan_contract g c a)) as [-> ->].
    assert (Hquiet : capture_op c = None -> g_pushed (scan_update g c a) = g_pushed g /\ g_completed (scan_update g c a) = g_completed g).
    { destruct c as [| | | |tick| | | | | | |item| | |op| | | | | | | | | | | | |]; try done.
      - intros _. by destruct a as [[b|]|e].
      - intros _. by destruct a.
      - by destruct op. }
    unfold capture_ops. cbn [omap list_omap]. cbn [projT1 update scan_contract].
    destruct (capture_op c) as [op|] eqn:Hop.
    + destruct c as [| | | | | | | | | | | | | |op'| | | | | | | | | | | | |]; try done.
      destruct op' as [| | | | |p b|p oc]; try done; injection Hop as <-; cbn; by rewrite <- ?app_assoc, ?orb_true_r.
    + destruct (Hquiet eq_refl) as [-> ->]. done.
Qed.

(** The cell every partition probes holds one answer. *)
Definition probes (stale : bool) (tr : list (event Resp)) : Prop :=
  forall a, existT RevalidationProbe a ∈ tr -> is_some a = stale.
Lemma observed_probe stale tr g :
  probes stale tr -> (forall b, g_probe g = Some b -> b = stale) ->
  forall b, g_probe (observe scan_contract g tr) = Some b -> b = stale.
Proof.
  revert g. induction tr as [|[c a] tr IH]; intros g Hp Hg; [done|]. cbn [observe]. apply IH.
  - intros x Hx. apply Hp. by right.
  - intros b. destruct c as [| | | |tick| | | | | | |item| | |op| | | | | | | | | | | | |]; try apply Hg.
    + by destruct a as [[?|]|e]; apply Hg.
    + destruct a; apply Hg.
    + intros [= <-]. apply Hp. left.
    + destruct op; apply Hg.
Qed.

Lemma capture_ops_split tr before op after :
  capture_ops tr = before ++ op :: after ->
  exists tb c a ta, tr = tb ++ existT c a :: ta /\ capture_op c = Some op /\ capture_ops tb = before /\ capture_ops ta = after.
Proof.
  revert before. induction tr as [|[c a] tr IH]; intros before H; cbn in H.
  { by destruct before. }
  unfold capture_ops in H. cbn [omap list_omap projT1] in H. destruct (capture_op c) as [op'|] eqn:Hop.
  - destruct before as [|op1 before].
    + injection H as -> H. by exists [], c, a, tr.
    + injection H as -> H. destruct (IH before H) as (tb & c' & a' & ta & -> & ? & <- & ?).
      exists (existT c a :: tb), c', a', ta. split; [done|]. split; [done|]. split; [|done].
      unfold capture_ops. cbn [omap list_omap projT1]. by rewrite Hop.
  - destruct (IH before H) as (tb & c' & a' & ta & -> & ? & <- & ?).
    exists (existT c a :: tb), c', a', ta. split; [done|]. split; [done|]. split; [|done].
    unfold capture_ops. cbn [omap list_omap projT1]. by rewrite Hop.
Qed.
Lemma capture_op_inv c op : capture_op c = Some op -> c = Capture op.
Proof.
  destruct c as [| | | | | | | | | | | | | |op'| | | | | | | | | | | | |]; try done.
  by destruct op'; intros [= <-].
Qed.

(** Up to a completion: what has been pushed is the share as stored, and
    nothing follows. *)
Lemma capture_complete stale fuel tr r before p oc after :
  relied scan_contract start tr -> runs (scan_job fuel) tr r -> probes stale tr ->
  capture_ops tr = before ++ OpComplete p oc :: after ->
  p = partition /\ omap op_batch after = [] /\
  match oc with
  | NoWork => omap op_batch before = [] /\ (share stale = None \/ share stale = Some (Some []))
  | Scanned _ => exists t raw, share stale = Some t /\ Forall2 (fun r s => conform_storage r = Ok s) raw (omap op_batch before) /\
                   (honest -> right t raw)
  end.
Proof.
  intros Hrely Hrun Hp Hops. destruct (capture_ops_split _ _ _ _ Hops) as (tb & c & a & ta & Htr & Hc%capture_op_inv & Hb & Ha).
  subst c. pose proof (scan_job_keeps _ _ _ _ _ _ _ Hrely Hrun Htr) as Hg.
  destruct (observed_capture start tb) as [Hpushed _]. rewrite Hb in Hpushed. cbn in Hpushed.
  assert (Hstale : is_Some (g_probe (observe scan_contract start tb)) -> g_stale (observe scan_contract start tb) = stale).
  { intros [b Hbp]. unfold g_stale. rewrite Hbp. apply (observed_probe stale tb start); [|done|exact Hbp].
    intros x Hx. apply Hp. rewrite Htr. apply elem_of_app. by left. }
  split; [by destruct oc as [|?]; apply Hg|]. split.
  - destruct (omap op_batch after) as [|b bs] eqn:Hafter; [done|]. exfalso.
    assert (exists op, op ∈ after /\ op_batch op = Some b) as (op & Hin & Hob).
    { assert (b ∈ omap op_batch after) as Hbin by (rewrite Hafter; left).
      by apply list_elem_of_omap in Hbin as (op & ? & ?); exists op. }
    apply list_elem_of_split in Hin as (l1 & l2 & ->).
    assert (capture_ops tr = (before ++ OpComplete p oc :: l1) ++ op :: l2) as Hops2 by (rewrite Hops, <- app_assoc; done).
    destruct (capture_ops_split _ _ _ _ Hops2) as (tb2 & c2 & a2 & ta2 & Htr2 & Hc2%capture_op_inv & Hb2 & _). subst c2.
    pose proof (scan_job_keeps _ _ _ _ _ _ _ Hrely Hrun Htr2) as Hg2. destruct op; try done.
    destruct Hg2 as [_ Hnot]. destruct (observed_capture start tb2) as [_ Hcomp]. rewrite Hcomp, Hb2 in Hnot.
    rewrite existsb_app in Hnot. cbn in Hnot. by rewrite orb_true_r in Hnot.
  - destruct oc as [|control]; cbn in Hg.
    + destruct Hg as (_ & _ & Hpr & Hnil & Hshare). rewrite Hpushed in Hnil. split; [done|]. by rewrite <- (Hstale Hpr).
    + destruct Hg as (_ & _ & Hpr & Hall & _ & Hshare & Hright). rewrite Hpushed in Hall.
      eexists _, _. split; [by rewrite <- (Hstale Hpr)|]. split; [exact Hall|done].
Qed.
End Contract.

(** ** A scan of five rows with a limit of three *)

Module Counting.
#[export] Instance kernel : ArrowKernel unit (list ascii) := {|
  cast_to v _ := Ok v;
  iter_to_array _ := Ok (StringArray []);
  to_array_of_size_1 _ := Ok (StringArray [tt]);
  Arrow.try_new fields meta cols := Ok (Arrow.mkBatch fields meta cols);
  ipc_write _ := Ok [];
  ipc_read _ := Err (Plan "no batch");
  json_to_string _ := tt;
  json_from_str _ := Err (Plan "no document");
|}.

Definition Batch : Type := @RecordBatch unit unit (list nat).
Definition schema : @ScanShape.Schema unit unit := mkSchema [mkField "n" tt tt] tt.
Definition batch (l : list nat) : Batch := mkBatch schema [l] (length l).
Definition rows (b : Batch) : list nat := map (fun i => nth i (concat (columns b)) 0%nat) (seq 0 (num_rows b)).
Definition slice (b : Batch) (n : nat) : Batch := mkBatch (batch_schema b) (columns b) (Nat.min n (num_rows b)).
Definition new_batch (s : @ScanShape.Schema unit unit) (cs : list (list nat)) (n : nat) : result Batch := Ok (mkBatch s cs n).
Definition answer : list Batch := [batch [1; 2]; batch [3; 4]; batch [5]]%nat.
Definition right (tokens : option (list (list ascii))) (bs : list Batch) : Prop :=
  match tokens with None => bs = answer | Some _ => bs = [] end.

Definition request : ScanRequest :=
  mkScan "c" "main" "f" None (Some []) None true default_pushdown (Some 3) None None None 0 false.
Definition exec : @ScanExec unit unit unit unit :=
  mkExec request tt [] [] schema schema None None None false false.

Abbreviation Resp := (@Resp unit unit (list nat) unit unit unit unit nat unit unit).
Abbreviation Event := (event Resp).
Definition is_next (e : Event) : bool := match projT1 e with NextBatch _ => true | _ => false end.
Definition env (past : list Event) (c : @Call unit unit (list nat) unit unit unit unit nat unit unit) : Resp c :=
  match c with
  | Connect | Attach => Ok tt
  | Bind _ => Ok tt
  | OpenScan _ _ => Ok 7%nat
  | NextBatch _ => Ok (answer !! length (List.filter is_next past))
  | CacheControlOf => None
  | DynamicToString _ _ => inr []
  | DynamicGeneration => 0
  | SnapshotDynamicFilters => Ok (0, [])
  | Send _ => true
  | RevalidationProbe => None
  | LoadBackground => false
  | CacheSlide _ _ _ => true
  | FreshnessDeadline _ _ => inl tt
  | MaxEntryBytes => 0
  | DiskRemoveHit _ => inl tt
  | DiskRevalidate _ _ _ => inl true
  | OpenPartition _ _ => inl []
  | MayServeOnError _ => false
  | CancelScan | CloseScan | Capture _ | CacheRemove _ | RecordStaleServe | DiskRecordStaleServe
  | Count _ _ | RecordProfile _ _ | Emit _ _ _ _ => tt
  end.
Definition scan : job Resp unit :=
  scan_job new_batch slice (fun _ => 8) (fun _ => []) (fun _ => None) (fun _ => None) (fun _ => 0%nat) (fun _ => "error"%string)
    exec 0 4.
Definition trace : list Event := Eval vm_compute in (interp env [] scan).1.
Lemma scan_runs : runs scan trace (Some (Ok tt)).
Proof. exact (interp_runs env [] scan). Qed.

Lemma rows_count b : num_rows b = length (rows b).
Proof. unfold rows. by rewrite length_map, length_seq. Qed.
Lemma rows_slice b n : rows (slice b n) = take n (rows b).
Proof.
  unfold rows, slice. cbn. generalize (num_rows b) as k. intros k. by rewrite firstn_map, take_seq.
Qed.
Lemma slice_all b : slice b (num_rows b) = b.
Proof. unfold slice. rewrite Nat.min_id. by destruct b. Qed.
Lemma new_batch_rows s cs n b : new_batch s cs n = Ok b -> num_rows b = n.
Proof. by intros [= <-]. Qed.
Lemma counting_limit l : sc_limit (ex_request exec) = Some l -> 0 <= l.
Proof. by intros [= <-]. Qed.

Definition contract : Interact.contract Resp := scan_contract new_batch exec 0 right (fun _ => []) false True.

(** The first three of the five rows: the second batch is cut. *)
Lemma trace_relied : relied contract start trace.
Proof.
  unfold trace.
  repeat match goal with
         | |- relied _ _ (_ :: _) => split
         | |- relied _ _ [] => exact I
         | |- rely _ _ (OpenScan _ _) _ => intros _ id _; exists answer; reflexivity
         | |- rely _ _ (NextBatch _) _ => intros _ b [= <-]
         | |- rely _ _ RevalidationProbe _ => intros _ e [=]
         | |- rely _ _ _ _ => first [exact I | reflexivity | intros _; discriminate]
         end.
  - by exists [batch [3; 4]; batch [5]]%nat.
  - by exists [batch [5]]%nat.
Qed.
End Counting.

Lemma scan_share_exact_witness :
  let sent := [Counting.batch [1; 2]; Counting.slice (Counting.batch [3; 4]) 1]%nat in
  share_done Counting.new_batch Counting.rows Counting.exec 0 Counting.right (observe Counting.contract start Counting.trace) sent /\
  all_rows Counting.rows sent = [1; 2; 3]%nat.
Proof.
  intros sent.
  destruct (scan_share_exact Counting.new_batch Counting.new_batch_rows Counting.slice (fun _ => 8) (fun _ => []) (fun _ => None)
    (fun _ => None) (fun _ => 0%nat) (fun _ => "error"%string) Counting.rows Counting.rows_count Counting.rows_slice
    Counting.slice_all Counting.exec 0 Counting.counting_limit Counting.right eq_refl (fun _ => []) (fun _ => eq_refl)
    false True 4 Counting.trace (Ok tt) I Counting.trace_relied Counting.scan_runs)
    as (bs & _ & [[e Hs]|[Hs [H|[Hd|[H _]]]]]); [|by vm_compute in H| |done].
  - apply (f_equal last) in Hs. rewrite last_snoc in Hs. vm_compute in Hs. discriminate.
  - assert (bs = sent) as <-; [|split; [exact Hd|]].
    + apply sent_unique. rewrite <- Hs. vm_compute. reflexivity.
    + assert (bs = [Counting.batch [1; 2]; Counting.slice (Counting.batch [3; 4]) 1]%nat) as ->; [|vm_compute; reflexivity].
      apply sent_unique. rewrite <- Hs. vm_compute. reflexivity.
Defined.

Lemma scan_job_ends_witness : is_Some (interp Counting.env [] Counting.scan).2.
Proof.
  refine (scan_job_ends Counting.new_batch Counting.new_batch_rows Counting.slice (fun _ => 8) (fun _ => []) (fun _ => None)
    (fun _ => None) (fun _ => 0%nat) (fun _ => "error"%string) Counting.rows Counting.rows_count Counting.rows_slice
    Counting.slice_all Counting.exec 0 Counting.counting_limit Counting.right eq_refl (fun _ => []) (fun _ => eq_refl)
    false True 4 Counting.trace _ Counting.trace_relied Counting.scan_runs _).
  vm_compute. lia.
Defined.
