(* ===== verification/ScanPublish.v ===== *)
(** * What the scans of a query put into the result cache

    The jobs of all partitions (ScanRun.v) feed one capture (ScanCache.v), in
    any interleaving. Whatever reaches the memory tier is a complete answer to
    the whole scan. *)

From S2P Require Import Prelude Settings Runtime Arrow Filters Identity CacheKeys Connections ScanShape ScanCache Exchange ScanProfile Interact ScanRun ScanRunTheorems.
From Stdlib Require Import Strings.Ascii.

#[local] Open Scope Z_scope.

Section Publish.
Context {DataType Meta Column : Type} `{!EqDecision DataType, !EqDecision Meta}.
Context {Text : Type} `{!ArrowKernel Text (list ascii)}.
Context {Args Plan Hit Bound ExecId Freshness Rest Row : Type} `{!EqDecision Rest}.
Abbreviation Batch := (@RecordBatch DataType Meta Column).
Abbreviation Op := (@ScanCache.Op Batch (bool * Rest)).

Variable new_batch : @ScanShape.Schema DataType Meta -> list Column -> nat -> result Batch.
Hypothesis new_batch_rows : forall s cs n b, new_batch s cs n = Ok b -> num_rows b = n.
Variable slice : Batch -> nat -> Batch.
Variable memory_size : Batch -> Z.
Variable output_schema : Bound -> Arrow.Schema.
Variables hit_etag hit_last_modified : Hit -> option string.
Variable hit_partitions : Hit -> nat.
Variable error_text : DFError -> string.
Variable rows : Batch -> list Row.
Hypothesis rows_count : forall b, num_rows b = length (rows b).
Hypothesis rows_slice : forall b n, rows (slice b n) = take n (rows b).
Hypothesis slice_all : forall b, slice b (num_rows b) = b.
Variable exec : @ScanExec DataType Meta Args Plan.
Hypothesis limit_usize : forall l, sc_limit (ex_request exec) = Some l -> 0 <= l.
Variable right : option (list (list ascii)) -> list Batch -> Prop.
Hypothesis right_nothing : right (Some []) [].
(** Tokens redeemed together answer like tokens redeemed apart. *)
Hypothesis right_concat : forall groups raws,
  Forall2 (fun tokens raw => right (Some tokens) raw) groups raws -> right (Some (concat groups)) (concat raws).
Variable hit_parts : Hit -> list (list Batch).
Hypothesis hit_parts_length : forall h, length (hit_parts h) = hit_partitions h.
Variable background : bool.

Abbreviation Resp := (@ScanRun.Resp DataType Meta Column Args Plan Hit Bound ExecId Freshness Rest).
Abbreviation job_of j := (scan_job (Freshness := Freshness) (Rest := Rest) (ExecId := ExecId) (Bound := Bound)
  new_batch slice memory_size output_schema hit_etag hit_last_modified hit_partitions error_text exec j).
Abbreviation contract_of j := (scan_contract (Freshness := Freshness) (Rest := Rest) (ExecId := ExecId) (Bound := Bound)
  new_batch exec j right hit_parts background True).

(** ** Partitions and histories *)

Definition of_partition (j : nat) (op : Op) : bool :=
  match op with OpPush p _ | OpComplete p _ => (p =? j)%nat | _ => false end.
(** What the capture has heard from partition [j]. *)
Definition heard {E : Type} (j : nat) (es : list (E * Op)) : list Op := List.filter (of_partition j) (map snd es).
(** The history is one of an honest run: what each partition said is the
    beginning of what its job says. *)
Definition honest_history {E : Type} (n : nat) (stale : bool) (es : list (E * Op)) : Prop :=
  forall j, (j < n)%nat -> exists fuel tr r,
    runs (job_of j fuel) tr r /\ relied (contract_of j) start tr /\ probes stale tr /\
    heard j es `prefix_of` capture_ops tr.

Lemma heard_app {E : Type} j (a b : list (E * Op)) : heard j (a ++ b) = heard j a ++ heard j b.
Proof. unfold heard. by rewrite map_app, List.filter_app. Qed.
Lemma pushed_heard {Capture Fr} j (es : list (@ScanCache.Env Batch Capture Fr (bool * Rest) * Op)) :
  pushed j es = omap op_batch (heard j es).
Proof.
  unfold pushed, heard. induction es as [|[e op] es IH]; [done|]. cbn. destruct op; cbn; try exact IH.
  - destruct (_ =? _)%nat; cbn; by rewrite IH.
  - destruct (_ =? _)%nat; cbn; by rewrite IH.
Qed.
Lemma completed_heard {Capture Fr} j (es : list (@ScanCache.Env Batch Capture Fr (bool * Rest) * Op)) oc :
  completed j es = Some oc ->
  exists before after, heard j es = before ++ OpComplete j oc :: after.
Proof.
  unfold heard. induction es as [|[e op] es IH]; [done|]. cbn.
  destruct op; cbn; try exact IH.
  - intros H. destruct (IH H) as (before & after & ->). destruct (_ =? _)%nat; [|by exists before, after].
    by exists (OpPush partition batch :: before), after.
  - destruct (Nat.eqb_spec partition j) as [->|]; [|exact IH].
    intros [= ->]. by eexists [], _.
Qed.

(** What a completed partition has handed over. *)
Definition handed (stale : bool) (j : nat) (stored : list Batch) : Prop :=
  exists raw, Forall2 (fun r s => conform_storage new_batch exec r = Ok s) raw stored /\
    match share exec j stale with
    | None => raw = []
    | Some t => right t raw
    end.

Lemma partition_handed {Capture Fr} n stale (es : list (@ScanCache.Env Batch Capture Fr (bool * Rest) * Op)) j oc :
  honest_history n stale es -> (j < n)%nat -> completed j es = Some oc -> handed stale j (pushed j es).
Proof.
  intros Hh Hj (before & after & Hheard)%completed_heard. destruct (Hh j Hj) as (fuel & tr & r & Hrun & Hrely & Hp & [rest Hpre]).
  rewrite Hheard, <- app_assoc in Hpre. cbn in Hpre.
  destruct (capture_complete new_batch new_batch_rows slice memory_size output_schema hit_etag hit_last_modified hit_partitions error_text
    rows rows_count rows_slice slice_all exec j limit_usize right right_nothing hit_parts hit_parts_length background True
    stale fuel tr r before j oc (after ++ rest) Hrely Hrun Hp Hpre) as (_ & Hnil & Hout).
  rewrite omap_app in Hnil. apply app_eq_nil in Hnil as [Hnil _].
  assert (pushed j es = omap op_batch before) as ->.
  { rewrite pushed_heard, Hheard, omap_app. cbn. rewrite Hnil. by rewrite app_nil_r. }
  destruct oc as [|control].
  - destruct Hout as [-> Hshare]. exists []. split; [constructor|]. by destruct Hshare as [->| ->].
  - destruct Hout as (t & raw & Hshare & Hall & Hright). exists raw. split; [done|]. rewrite Hshare. by apply Hright.
Qed.

(** The partitions together. *)
Definition answers (stale : bool) (j : nat) (raw : list Batch) : Prop :=
  match share exec j stale with None => raw = [] | Some t => right t raw end.
Lemma handed_all stale (stored : nat -> list Batch) js :
  (forall j, j ∈ js -> handed stale j (stored j)) ->
  exists raws, Forall2 (answers stale) js raws /\
    Forall2 (fun r s => conform_storage new_batch exec r = Ok s) (concat raws) (concat (map stored js)).
Proof.
  induction js as [|j js IH]; intros H; [by exists []; repeat constructor|].
  destruct IH as (raws & Ha & Hs); [intros i Hi; apply H; by right|].
  destruct (H j) as (raw & Hraw & Hr); [left|]. exists (raw :: raws). split; [by constructor|]. cbn. by apply Forall2_app.
Qed.

Lemma default_groups {A} (groups : list (list A)) k : forall m,
  (length groups <= m)%nat -> concat (map (fun j => default [] ((k ++ groups) !! j)) (seq (length k) m)) = concat groups.
Proof.
  revert k. induction groups as [|g groups IH]; intros k m Hm.
  - cbn. rewrite app_nil_r. clear Hm. assert (forall i, (length k <= i)%nat -> concat (map (fun j => default [] (k !! j)) (seq i m)) = []) as Hz.
    { induction m as [|m IHm]; intros i Hi; [done|]. cbn. rewrite lookup_ge_None_2 by done. cbn. apply IHm. lia. }
    by apply Hz.
  - destruct m as [|m]; [cbn in Hm; lia|]. cbn [seq map concat]. rewrite list_lookup_middle by done. cbn [default from_option id]. f_equal.
    specialize (IH (k ++ [g]) m ltac:(cbn in Hm; lia)). rewrite length_app, Nat.add_1_r in IH. cbn in IH.
    rewrite <- IH. f_equal. apply map_ext. intros j. by rewrite <- app_assoc.
Qed.

(** Only the first partition has anything. *)
Lemma first_only stale n raws t :
  (1 <= n)%nat -> share exec 0 stale = Some t -> (forall j, (0 < j)%nat -> share exec j stale = None) ->
  Forall2 (answers stale) (seq 0 n) raws -> right t (concat raws).
Proof.
  intros Hn H0 Hrest Ha. destruct n as [|n]; [lia|]. cbn [seq] in Ha.
  inversion Ha as [|j raw js raws' Hraw Hraws]; subst. unfold answers in Hraw. rewrite H0 in Hraw.
  assert (concat raws' = []) as Hnil.
  { clear - Hraws Hrest. assert (forall j, j ∈ seq 1 n -> (0 < j)%nat) as Hpos by (intros j Hj%elem_of_seq; lia).
    induction Hraws as [|j raw js raws Hr _ IH]; [done|]. cbn. unfold answers in Hr.
    rewrite Hrest in Hr by (apply Hpos; left). subst raw. apply IH. intros i Hi. apply Hpos. by right. }
  cbn. by rewrite Hnil, app_nil_r.
Qed.

Lemma handed_whole stale n (stored : nat -> list Batch) :
  (match ex_splits exec with None => 1 | Some (_, groups) => Nat.max (length groups) 1 end <= n)%nat ->
  (forall j, (j < n)%nat -> handed stale j (stored j)) ->
  exists raw, right (whole exec) raw /\
    Forall2 (fun r s => conform_storage new_batch exec r = Ok s) raw (concat (map stored (seq 0 n))).
Proof.
  intros Hn Hh. destruct (handed_all stale stored (seq 0 n)) as (raws & Ha & Hs); [intros j Hj%elem_of_seq; apply Hh; lia|].
  exists (concat raws). split; [|done]. unfold whole. unfold answers in *.
  destruct (ex_splits exec) as [[plan groups]|] eqn:Hsplit; cbn.
  - destruct stale.
    + eapply (first_only true n); [lia|unfold share; rewrite Hsplit; done| |done].
      intros j Hj. unfold share. rewrite Hsplit. by destruct (Nat.eqb_spec j 0); [lia|].
    + rewrite <- (default_groups groups [] n) by lia. apply right_concat. cbn [length app].
      apply Forall2_fmap_l. eapply Forall2_impl; [exact Ha|]. intros j raw Hr. cbn in Hr.
      unfold share in Hr. by rewrite Hsplit in Hr.
  - eapply (first_only stale n); [lia|unfold share; rewrite Hsplit; done| |done].
    intros j Hj. unfold share. rewrite Hsplit. by destruct (Nat.eqb_spec j 0); [lia|].
Qed.

(** C6: whatever the scans of a query leave in the memory tier is a complete
    answer to the whole scan, batch by batch as conformed for storage: in any
    interleaving of the partitions' jobs, with an honest worker, whether the
    partitions redeemed their own tokens, or the first one all of them after a
    stale result was revoked. *)
Theorem cached_scan_complete {Capture Fr} catalog function disk revalidation n stale
    (es : list (@ScanCache.Env Batch Capture Fr (bool * Rest) * Op)) batches substreams ttl control :
  (match ex_splits exec with None => 1 | Some (_, groups) => Nat.max (length groups) 1 end <= n)%nat ->
  honest_history n stale es ->
  ScanCache.CacheInsert batches substreams ttl control
    ∈ log (run memory_size (new_capture catalog function disk revalidation n) es) ->
  exists raw, right (whole exec) raw /\ Forall2 (fun r s => conform_storage new_batch exec r = Ok s) raw batches.
Proof.
  intros Hn Hh Hc. apply published_results_complete in Hc as (before & env & i & oc & after & -> & _ & fr & Hall & _ & _ & _ & Hcase & _); [|done].
  subst batches. apply (handed_whole stale n (fun j => pushed j before)); [done|]. intros j Hj.
  set (esb := before ++ [(env, OpComplete i oc)]) in *.
  assert (Hb : honest_history n stale esb).
  { intros k Hk. destruct (Hh k Hk) as (fuel & tr & r & Hrun & Hrely & Hp & Hpre). exists fuel, tr, r. split_and!; [done..|].
    etrans; [|exact Hpre]. exists (heard k after). rewrite <- heard_app. unfold esb. by rewrite <- app_assoc. }
  assert (is_Some (completed j esb)) as [ocj Hj'].
  { rewrite Forall_forall in Hall. apply (Hall (completed j esb)). apply list_elem_of_fmap. exists j. split; [done|]. apply elem_of_seq. lia. }
  assert (pushed j before = pushed j esb) as ->; [|by eapply partition_handed].
  unfold esb. rewrite !pushed_heard, heard_app, omap_app. unfold heard at 3. cbn.
  destruct (_ =? _)%nat; cbn; by rewrite app_nil_r.
Qed.
End Publish.

(** ** Two splits, two partitions *)

Module TwoSplits.
Import Counting.
Definition key : CacheKey := mkCacheKey "c" "principal" "w" "main.f" [] None None 0 None [] [] None None None None.
Definition token_a : list ascii := ["a"%char].
Definition token_b : list ascii := ["b"%char].
Definition rows_of_token (t : list ascii) : list Batch := if decide (t = token_a) then [batch [1%nat]] else [batch [2%nat]].
Definition answer_to (tokens : list (list ascii)) : list Batch := concat (map rows_of_token tokens).
Definition right (tokens : option (list (list ascii))) (bs : list Batch) : Prop := bs = answer_to (default [] tokens).
Lemma right_concat groups raws :
  Forall2 (fun tokens raw => right (Some tokens) raw) groups raws -> right (Some (concat groups)) (concat raws).
Proof.
  unfold right. cbn [default from_option id]. induction 1 as [|g raw gs raws -> _ IH]; [done|].
  cbn. rewrite IH. unfold answer_to. by rewrite map_app, concat_app.
Qed.

Definition request : ScanRequest :=
  mkScan "c" "main" "f" None (Some []) None true default_pushdown None None None None 0 false.
Definition exec : @ScanExec unit unit unit unit :=
  mkExec request tt [] [] schema schema None (Some (tt, [[token_a]; [token_b]])) (Some key) false false.
Lemma two_splits_limit l : sc_limit (ex_request exec) = Some l -> 0 <= l.
Proof. done. Qed.

Definition control : @CacheControl (bool * unit) := mkControl (Some "v1") None true None None (false, tt).
Definition stale_entry : @ScanCacheRevalidation unit unit (list nat) unit := Memory (mkEntry [batch [1]; batch [2]]%nat 16 (Some "v0") None) None.
(** A worker that answers each token; [stale] is the entry found. *)
Definition env (j : nat) (stale : option (@ScanCacheRevalidation unit unit (list nat) unit)) (past : list Event)
    (c : @Call unit unit (list nat) unit unit unit unit nat unit unit) : Counting.Resp c :=
  match c as c return Counting.Resp c with
  | NextBatch _ => Ok (answer_to [if (j =? 0)%nat then token_a else token_b] !! length (List.filter is_next past))
  | CacheControlOf => Some control
  | RevalidationProbe => stale
  | c => Counting.env past c
  end.
Definition scan (j : nat) : job Counting.Resp unit :=
  scan_job new_batch slice (fun _ => 8) (fun _ => []) (fun _ => None) (fun _ => None) (fun _ => 0%nat) (fun _ => "error"%string)
    exec j 3.
Definition trace_0 : list Event := Eval vm_compute in (interp (env 0 None) [] (scan 0)).1.
Definition trace_1 : list Event := Eval vm_compute in (interp (env 1 None) [] (scan 1)).1.
Lemma runs_0 : runs (scan 0) trace_0 (Some (Ok tt)).
Proof. exact (interp_runs (env 0 None) [] (scan 0)). Qed.
Lemma runs_1 : runs (scan 1) trace_1 (Some (Ok tt)).
Proof. exact (interp_runs (env 1 None) [] (scan 1)). Qed.

Definition contract j : Interact.contract Counting.Resp := scan_contract new_batch exec j right (fun _ => []) false True.
Ltac rely_trace :=
  repeat match goal with
         | |- relied _ _ (_ :: _) => split
         | |- relied _ _ [] => exact I
         | |- rely _ _ (OpenScan _ _) _ => intros _ id _; eexists; reflexivity
         | |- rely _ _ (NextBatch _) _ => intros _ b [= <-]; eexists; reflexivity
         | |- rely _ _ (NextBatch _) _ => intros _ b; discriminate
         | |- rely _ _ CacheControlOf _ => intros _ _ _; reflexivity
         | |- rely _ _ RevalidationProbe _ => intros _ e [=]
         | |- rely _ _ _ _ => first [exact I | reflexivity | intros _; discriminate]
         end.
Lemma relied_0 : relied (contract 0) start trace_0.
Proof. unfold trace_0. rely_trace. Qed.
Lemma relied_1 : relied (contract 1) start trace_1.
Proof. unfold trace_1. rely_trace. Qed.

Definition capture_env : @ScanCache.Env Batch nat unit (bool * unit) :=
  ScanCache.mkEnv 0 (mkLimits 100 1000 10 60) (inl 0%nat) (fun c _ _ => (S c, None)) (fun _ => None)
    (fun _ => inl tt) CommitStored (fun _ => false) (fun _ => 60) (fun _ => false).
Definition history : list (@ScanCache.Env Batch nat unit (bool * unit) * @ScanCache.Op Batch (bool * unit)) :=
  map (pair capture_env)
    [OpStart 0; OpStart 1; OpPush 1 (batch [2]); OpPush 0 (batch [1]); OpComplete 0 (Scanned (Some control));
     OpComplete 1 (Scanned (Some control))]%nat.
Lemma probes_of (tr : list Event) :
  forallb (fun e : Event => match e with existT RevalidationProbe (Some _) => false | _ => true end) tr = true -> probes false tr.
Proof.
  rewrite forallb_forall. intros H a Ha%list_elem_of_In. specialize (H _ Ha). by destruct a.
Qed.
Lemma history_honest :
  honest_history (Hit := unit) (Bound := unit) (ExecId := nat) (Freshness := unit) new_batch slice (fun _ => 8) (fun _ => []) (fun _ => None) (fun _ => None) (fun _ => 0%nat)
    (fun _ => "error"%string) exec right (fun _ => []) false 2 false history.
Proof.
  intros j Hj. destruct j as [|[|j]]; [| |lia].
  - exists 3%nat, trace_0, (Some (Ok tt)). split_and!; [exact runs_0|exact relied_0|by apply probes_of|].
    exists []. vm_compute. reflexivity.
  - exists 3%nat, trace_1, (Some (Ok tt)). split_and!; [exact runs_1|exact relied_1|by apply probes_of|].
    exists []. vm_compute. reflexivity.
Qed.
End TwoSplits.

Lemma cached_scan_complete_witness :
  exists raw, raw = TwoSplits.answer_to [TwoSplits.token_a; TwoSplits.token_b] /\
    Forall2 (fun r s => conform_storage Counting.new_batch TwoSplits.exec r = Ok s) raw
      [Counting.batch [1]; Counting.batch [2]]%nat.
Proof.
  apply (cached_scan_complete (Text := unit) (ArrowKernel0 := Counting.kernel) (Hit := unit) (Bound := unit) (ExecId := nat)
    (Freshness := unit) Counting.new_batch Counting.new_batch_rows Counting.slice (fun _ => 8) (fun _ => []) (fun _ => None)
    (fun _ => None) (fun _ => 0%nat) (fun _ => "error"%string) Counting.rows Counting.rows_count Counting.rows_slice
    Counting.slice_all TwoSplits.exec TwoSplits.two_splits_limit TwoSplits.right eq_refl TwoSplits.right_concat (fun _ => [])
    (fun _ => eq_refl) false "c" "main.f" false true 2 false TwoSplits.history _ 2 60 TwoSplits.control).
  - vm_compute. lia.
  - exact TwoSplits.history_honest.
  - apply list_elem_of_In. vm_compute. tauto.
Defined.

(** A stale split result whose first group answers afresh is not computed again:
    the only thing the consumer gets is an error, although the worker answered,
    and the stale entry stays. *)
Lemma fresh_vote_fails :
  let tr := (interp (TwoSplits.env 0 (Some TwoSplits.stale_entry)) [] (TwoSplits.scan 0)).1 in
  g_sent (observe (TwoSplits.contract 0) start tr)
    = [Err (Execution "VGI function `f` had no executed split group to validate")] /\
  forallb (fun e : Counting.Event => match projT1 e with CacheRemove _ => false | _ => true end) tr = true.
Proof. split; vm_compute; reflexivity. Qed.
