(* ===== verification/ScanStream.v ===== *)
(** * The stream of a scan (src/src/lib.rs: [VgiScanExec::execute])

    What [execute] hands to DataFusion for one partition, and what its stream
    does when it is polled for the first time: replay a cached result, serve a
    stale one while refreshing it, follow another query's scan, or start the
    partition's job (ScanRun.v). The cells the partitions of one scan share, the
    flight registry and the tasks it spawns are calls (Interact.v). *)

From S2P Require Import Prelude Runtime CacheKeys ScanShape ScanCache Exchange ResultFlight Interact ScanRun.

#[local] Open Scope Z_scope.
#[local] Open Scope job_scope.

Section Stream.
Context {DataType Meta Column : Type} `{!EqDecision DataType, !EqDecision Meta}.
Context {Args Plan Hit : Type}.
Abbreviation Batch := (@RecordBatch DataType Meta Column).
Abbreviation Entry := (@CachedEntry Batch).
Abbreviation Reval := (@ScanCacheRevalidation DataType Meta Column Hit).

Variable new_batch : @ScanShape.Schema DataType Meta -> list Column -> nat -> result Batch.
Variables hit_etag hit_last_modified : Hit -> option string.
Variable exec : @ScanExec DataType Meta Args Plan.
Variable partition : nat.
(** [cache_ineligible_reason], and whether the connection has an RPC timeout. *)
Variable ineligible : option CacheIneligibleReason.
Variable has_rpc_timeout : bool.

Inductive Call :=
  (** cells shared by the partitions of the scan *)
  | CacheProbe (k : CacheKey)
  | DiskProbe | DiskRevalidationProbe
  | SetRevalidation (selected : option Reval) | GetRevalidation
  | Flight (k : CacheKey)
  | FlightProbe (k : CacheKey) | FlightDiskProbe
  (** shared by the partitions that run in one task context *)
  | Observe
  (** caches *)
  | GetForRevalidation (k : CacheKey)
  | DurableStaleLookup
  | MaxEntryBytes | CacheRemove (k : CacheKey)
  | MayServeWhileRevalidate (e : Entry)
  | RecordStaleServe
  (** the capture *)
  | DiscardUnstarted | SetFlight (p : nat)
  (** another query's flight *)
  | Wait (f : nat)
  (** tasks *)
  | StoreBackground | SpawnJob | SpawnRefresh | SpawnDurableReplay (h : Hit)
  (** metrics and events *)
  | Count (metric : string)
  | Emit (kind : string) (message : option string)
  | EmitIneligible (reason : CacheIneligibleReason).

Definition Resp (c : Call) : Type :=
  match c with
  | CacheProbe _ | FlightProbe _ | GetForRevalidation _ => option Entry
  | DiskProbe | DiskRevalidationProbe | FlightDiskProbe | DurableStaleLookup => option Hit
  | GetRevalidation => option Reval
  | Flight _ => ResultFlightClaim
  | Observe | MayServeWhileRevalidate _ => bool
  | MaxEntryBytes => Z
  | Wait _ => ResultFlightOutcome
  | _ => unit
  end.
Abbreviation Job := (job Resp).
Definition do_ (c : Call) : Job (Resp c) := job_call c.

Definition conform_replay (b : Batch) : result Batch := conform new_batch b (ex_schema exec) (ex_mapping exec).
(** [if let Some(capture) = &capture { .. }]: a capture exists with a key. *)

(** ** The stream's state once it has been polled

    The channel from the partition's tasks, and who may still send on it: the
    job holds a sender from the start, the poll itself one that it passes to a
    durable replay. *)

Inductive JobState := Unstarted | Spawned | Dropped.
Record Polled := mkPolled {
  po_replay : list (result Batch);
  po_job : JobState;
  (** the stream reads a channel nobody sends on; its own is drained elsewhere *)
  po_closed : bool;
  po_durable : option Hit;
  (** the poll's own sender is alive while it waits for the channel *)
  po_holding : bool;
}.
Definition job_only : Polled := mkPolled [] Spawned false None false.
Definition durable_only (h : Hit) : Polled := mkPolled [] Dropped false (Some h) false.
(** A stored result goes through the first partition's stream. *)
Definition replay_items (e : Entry) : list (result Batch) :=
  if (partition =? 0)%nat then map conform_replay (entry_batches e) else [].

(** ** [execute] *)

Inductive Stream := Items (batches : list Batch) | Lazy (memory_revalidation : option Entry).

Definition execute : Job Stream :=
  match ineligible with
  | Some reason =>
      first <~ do_ Observe ;;
      if first : bool then do_ (EmitIneligible reason) else job_ret tt
  | None => job_ret tt
  end ;;
  match ex_cache_key exec with
  | None => job_ret (Lazy None)
  | Some key =>
      cached <~ do_ (CacheProbe key) ;;
      match cached with
      | Some entry =>
          first <~ do_ Observe ;;
          (if first : bool then do_ (Count "hits") ;; do_ (Emit "cache.hit" (Some "tier=memory")) else job_ret tt) ;;
          do_ DiscardUnstarted ;;
          batches <~ job_try (if (partition =? 0)%nat then result_collect conform_replay (entry_batches entry) else Ok []) ;;
          job_ret (Items batches)
      | None => stale <~ do_ (GetForRevalidation key) ;; job_ret (Lazy stale)
      end
  end.

(** ** The first poll *)

(** Choosing what to revalidate: the memory tier first, unless its live limit
    no longer admits the entry. *)
Definition select_revalidation (key : CacheKey) (memory : option Entry) : Job unit :=
  durable <~ do_ DiskRevalidationProbe ;;
  memory <~ match memory with
            | Some entry =>
                max <~ do_ MaxEntryBytes ;;
                if entry_bytes entry <=? max then job_ret (Some entry) else do_ (CacheRemove key) ;; job_ret None
            | None => job_ret None
            end ;;
  do_ (SetRevalidation
         match memory with
         | Some entry => Some (memory_with_matching_disk hit_etag hit_last_modified entry durable)
         | None => Disk <$> durable
         end).
(** [memory_stale_while_revalidate], allowed to one reader under a timeout. *)
Definition stale_while_revalidate : Job (option Entry) :=
  if negb (is_some (ex_splits exec)) && has_rpc_timeout then
    selected <~ do_ GetRevalidation ;;
    match selected with
    | Some (Memory entry _) =>
        may <~ do_ (MayServeWhileRevalidate entry) ;; job_ret (if may : bool then Some entry else None)
    | _ => job_ret None
    end
  else job_ret None.
Definition report_miss (stale : option Entry) : Job unit :=
  first <~ do_ Observe ;;
  if first : bool then
    do_ (Count "misses") ;;
    match stale with
    | Some _ =>
        do_ RecordStaleServe ;; do_ (Count "stale_serves") ;;
        do_ (Emit "cache.stale_while_revalidate" (Some "tier=memory"))
    | None => do_ (Emit "cache.miss" None)
    end
  else job_ret tt.

(** Serving the stale entry; the job, if it is this query's to run, refreshes
    the cache behind it. The poll ends inside this branch, its own sender with
    it only if there is an item to return. *)
Definition serve_while_revalidating (key : CacheKey) (entry : Entry) : Job Polled :=
  do_ StoreBackground ;;
  let replay := replay_items entry in
  let holding := match replay with [] => true | _ => false end in
  claim <~ do_ (Flight key) ;;
  match claim with
  | Producer p =>
      do_ (SetFlight p) ;; do_ SpawnRefresh ;; do_ SpawnJob ;;
      job_ret (mkPolled replay Spawned true None holding)
  | Follower _ =>
      do_ DiscardUnstarted ;;
      job_ret (mkPolled replay Dropped false None holding)
  end.

(** Another query's scan has filled the cache, or failed to. *)
Definition coalesced_durable (h : Hit) : Job Polled :=
  do_ (SpawnDurableReplay h) ;; do_ (Count "coalesced_hits") ;;
  do_ (Emit "cache.coalesced_hit" (Some "tier=disk")) ;; job_ret (durable_only h).
Definition follow_flight (key : CacheKey) (f : nat) : Job Polled :=
  do_ (Count "waits") ;; do_ (Emit "cache.wait" None) ;;
  outcome <~ do_ (Wait f) ;;
  match outcome with
  | Stored =>
      memory <~ do_ (FlightProbe key) ;;
      match memory with
      | Some entry =>
          (if (partition =? 0)%nat
           then do_ (Count "coalesced_hits") ;; do_ (Emit "cache.coalesced_hit" None)
           else job_ret tt) ;;
          job_ret (mkPolled (replay_items entry) Dropped false None false)
      | None =>
          durable <~ do_ FlightDiskProbe ;;
          match durable with
          | Some hit => coalesced_durable hit
          | None =>
              stale <~ do_ DurableStaleLookup ;;
              match stale with
              | Some hit => coalesced_durable hit
              | None =>
                  do_ (Count "coalesced_retries") ;; do_ (Emit "cache.coalesced_retry" None) ;;
                  do_ SpawnJob ;; job_ret job_only
              end
          end
      end
  | Aborted reason =>
      do_ (Count "coalesced_aborts") ;; do_ (Emit "cache.coalesced_abort" (Some reason)) ;;
      do_ SpawnJob ;; job_ret job_only
  end.

Definition cold_scan (key : CacheKey) : Job Polled :=
  claim <~ do_ (Flight key) ;;
  match claim with
  | Producer p => do_ (SetFlight p) ;; do_ SpawnJob ;; job_ret job_only
  | Follower f => follow_flight key f
  end.

Definition first_poll (memory_revalidation : option Entry) : Job Polled :=
  match ex_cache_key exec with
  | None => do_ SpawnJob ;; job_ret job_only
  | Some key =>
      durable <~ do_ DiskProbe ;;
      match durable with
      | Some hit =>
          first <~ do_ Observe ;;
          (if first : bool then do_ (Count "hits") ;; do_ (Emit "cache.hit" (Some "tier=disk")) else job_ret tt) ;;
          do_ DiscardUnstarted ;;
          do_ (SpawnDurableReplay hit) ;; job_ret (durable_only hit)
      | None =>
          select_revalidation key memory_revalidation ;;
          stale <~ stale_while_revalidate ;;
          report_miss stale ;;
          match stale with
          | Some entry => serve_while_revalidating key entry
          | None => cold_scan key
          end
      end
  end.

(** The whole stream: what it has at hand, and what it will read from the
    channel. *)
Definition open_stream : Job Polled :=
  s <~ execute ;;
  match s with
  | Items batches => job_ret (mkPolled (map Ok batches) Dropped false None false)
  | Lazy memory => first_poll memory
  end.

(** ** What the tasks put on the channel *)

(** [spawn_durable_replay]: a stored result goes through the first partition,
    however many wrote it; [parts] is what opening its partitions answers. *)
Definition durable_item (item : Batch + string) : result Batch :=
  match item with inl b => conform_replay b | inr error => Err (ArrowError error) end.
Fixpoint durable_parts (parts : list (list (Batch + string) + string)) : list (result Batch) :=
  match parts with
  | [] => []
  | inr error :: _ => [Err (Execution ("VGI durable cache replay failed: " +:+ error))]
  | inl items :: parts => map durable_item items ++ durable_parts parts
  end.
Definition spawn_durable_replay (hit_partitions : Hit -> nat) (open_partition : Hit -> nat -> list (Batch + string) + string)
    (h : Hit) : list (result Batch) :=
  if (partition =? 0)%nat then durable_parts (map (open_partition h) (seq 0 (hit_partitions h))) else [].
End Stream.

(** ** Polling the stream

    The channel holds two items. A task that has sent everything drops its
    sender; the channel ends when it is empty and nobody can send any more. A
    poll takes from what is at hand first, then from the channel. *)

Section Channel.
Context {Item : Type}.
Definition CHANNEL_CAPACITY : nat := 2.
Record Channel := mkChannel {
  ch_replay : list Item;
  ch_queue : list Item;
  (** what the tasks have left to send; [None] once they are gone *)
  ch_job : option (list Item);
  ch_durable : option (list Item);
  ch_closed : bool;
  ch_holding : bool;
  (** what the consumer has got, and whether it was told of the end *)
  ch_out : list Item;
  ch_finished : bool;
}.
Definition drained (ch : Channel) : bool :=
  ch_closed ch ||
  bool_decide (ch_queue ch = []) && is_none (ch_job ch) && is_none (ch_durable ch) && negb (ch_holding ch).

Inductive step : Channel -> Channel -> Prop :=
  | poll_replay i replay queue job durable closed holding out :
      step (mkChannel (i :: replay) queue job durable closed holding out false)
           (mkChannel replay queue job durable closed holding (out ++ [i]) false)
  | poll_queue i queue job durable holding out :
      step (mkChannel [] (i :: queue) job durable false holding out false)
           (mkChannel [] queue job durable false holding (out ++ [i]) false)
  | poll_end queue job durable closed holding out :
      drained (mkChannel [] queue job durable closed holding out false) = true ->
      step (mkChannel [] queue job durable closed holding out false)
           (mkChannel [] queue job durable closed holding out true)
  | job_sends i items replay queue durable holding out finished :
      (length queue < CHANNEL_CAPACITY)%nat ->
      step (mkChannel replay queue (Some (i :: items)) durable false holding out finished)
           (mkChannel replay (queue ++ [i]) (Some items) durable false holding out finished)
  (** the refresh in the background is drained by a task of its own *)
  | job_drained i items replay queue durable holding out finished :
      step (mkChannel replay queue (Some (i :: items)) durable true holding out finished)
           (mkChannel replay queue (Some items) durable true holding out finished)
  | job_ends replay queue durable closed holding out finished :
      step (mkChannel replay queue (Some []) durable closed holding out finished)
           (mkChannel replay queue None durable closed holding out finished)
  | durable_sends i items replay queue job closed holding out finished :
      (length queue < CHANNEL_CAPACITY)%nat ->
      step (mkChannel replay queue job (Some (i :: items)) closed holding out finished)
           (mkChannel replay (queue ++ [i]) job (Some items) closed holding out finished)
  | durable_ends replay queue job closed holding out finished :
      step (mkChannel replay queue job (Some []) closed holding out finished)
           (mkChannel replay queue job None closed holding out finished).
End Channel.
Arguments Channel Item : clear implicits.

(** The channel as the first poll leaves it, given what the job and the durable
    replay will send. *)
Definition channel_of {DataType Meta Column Hit} (job : list (result (@RecordBatch DataType Meta Column)))
    (durable : Hit -> list (result (@RecordBatch DataType Meta Column))) (st : Polled)
    : Channel (result (@RecordBatch DataType Meta Column)) :=
  mkChannel (po_replay st) [] (match po_job st with Spawned => Some job | _ => None end) (durable <$> po_durable st)
    (po_closed st) (po_holding st) [] false.
