(* ===== verification/ScanStreamTheorems.v ===== *)
(** * A scan's stream ends, and its partitions read one source

    Whatever path the first poll takes, the stream delivers exactly what it has
    at hand and what its task sends, and ends; one case keeps it waiting. And
    the partitions of a scan that hear the same answers take the same source. *)

From S2P Require Import Prelude Settings Runtime CacheKeys ScanShape ScanCache Exchange ResultFlight Interact ScanRun ScanRunTheorems ScanPublish ScanStream.

#[local] Open Scope Z_scope.

(** ** The channel *)

Section Channel.
Context {Item : Type}.
Implicit Types ch : Channel Item.

Definition left_to_send (task : option (list Item)) : list Item := default [] task.
(** What the consumer has still to get. *)
Definition due ch : list Item :=
  ch_replay ch ++
  if ch_closed ch then [] else ch_queue ch ++ left_to_send (ch_job ch) ++ left_to_send (ch_durable ch).
(** One task at most sends on the channel, none on a closed one; the end is
    told only when nothing is left. *)
Record channel_ok ch : Prop := {
  ok_one : ch_job ch = None \/ ch_durable ch = None;
  ok_closed : ch_closed ch = true -> ch_queue ch = [] /\ ch_durable ch = None;
  ok_end : ch_finished ch = true -> due ch = [];
}.
Definition task_size (task : option (list Item)) : nat := match task with Some items => S (2 * length items) | None => 0 end.
Definition size ch : nat :=
  (length (ch_replay ch) + length (ch_queue ch) + task_size (ch_job ch) + task_size (ch_durable ch)
   + if ch_finished ch then 0 else 1)%nat.

Lemma drained_spec (replay queue : list Item) job durable closed holding out finished :
  drained (mkChannel replay queue job durable closed holding out finished) = true <->
  closed = true \/ queue = [] /\ job = None /\ durable = None /\ holding = false.
Proof.
  unfold drained. cbn. rewrite orb_true_iff, !andb_true_iff, bool_decide_eq_true, negb_true_iff.
  destruct job, durable; cbn; intuition congruence.
Qed.

(** A step delivers nothing else, keeps the channel in order and has less left
    to do. *)
Lemma step_exact ch ch' :
  step ch ch' -> channel_ok ch ->
  ch_out ch' ++ due ch' = ch_out ch ++ due ch /\ channel_ok ch' /\ (size ch' < size ch)%nat /\
  ch_closed ch' = ch_closed ch /\ ch_holding ch' = ch_holding ch.
Proof.
  intros Hstep [Hone Hclosed Hend].
  destruct Hstep as [i replay queue job durable closed holding out|i queue job durable holding out
    |queue job durable closed holding out Hd|i items replay queue durable holding out finished Hq
    |i items replay queue durable holding out finished|replay queue durable closed holding out finished
    |i items replay queue job closed holding out finished Hq|replay queue job closed holding out finished];
    cbn in *; unfold due, size in *; cbn in *.
  - split; [by rewrite <- app_assoc|]. split; [done|]. split; [lia|done].
  - split; [by rewrite <- app_assoc|]. split; [done|]. split; [lia|done].
  - split; [done|]. split; [split; cbn; [done|done|]|split; [lia|done]].
    intros _. unfold due. cbn. apply drained_spec in Hd as [->|(-> & -> & -> & ->)]; [done|by destruct closed].
  - destruct Hone as [Hone| ->]; [done|]. split; [by rewrite <- !app_assoc|].
    split; [split; cbn; [by right|done|]|rewrite length_app; cbn; split; [lia|done]].
    intros Hf. specialize (Hend Hf). unfold due. cbn. by rewrite <- !app_assoc.
  - destruct (Hclosed eq_refl) as [-> ->]. split; [done|]. split; [split; cbn; [by right|done|done]|split; [lia|done]].
  - split; [done|]. split; [split; cbn; [by left|done|done]|split; [lia|done]].
  - destruct Hone as [->|Hone]; [|done]. destruct closed; [by destruct (Hclosed eq_refl)|].
    split; [by rewrite <- !app_assoc|].
    split; [split; cbn; [by left|done|]|rewrite length_app; cbn; split; [lia|done]].
    intros Hf. specialize (Hend Hf). unfold due. cbn. by rewrite <- !app_assoc.
  - split; [done|]. split; [split; cbn; [by right|intros Hc; by destruct (Hclosed Hc)|done]|split; [lia|done]].
Qed.
Lemma steps_exact ch ch' :
  rtc step ch ch' -> channel_ok ch ->
  ch_out ch' ++ due ch' = ch_out ch ++ due ch /\ channel_ok ch' /\
  ch_closed ch' = ch_closed ch /\ ch_holding ch' = ch_holding ch.
Proof.
  induction 1 as [|ch1 ch2 ch3 Hs _ IH]; [done|]. intros Hok.
  destruct (step_exact _ _ Hs Hok) as (Hd & Hok2 & _ & Hc & Hh). destruct (IH Hok2) as (Hd3 & Hok3 & Hc3 & Hh3).
  split_and!; congruence.
Qed.
(** No run of the channel goes on for ever. *)
Lemma channel_sn ch : channel_ok ch -> sn step ch.
Proof.
  remember (size ch) as n eqn:Hn. revert ch Hn. induction (lt_wf n) as [n _ IH]. intros ch -> Hok.
  constructor. intros ch' Hs. destruct (step_exact _ _ Hs Hok) as (_ & Hok' & Hlt & _). by apply (IH (size ch')).
Qed.
(** It can only stop when the consumer has been told of the end, or while the
    poll itself keeps the channel open. *)
Lemma channel_stops ch :
  channel_ok ch -> nf step ch ->
  due ch = [] /\ (ch_finished ch = true \/ ch_holding ch = true /\ ch_closed ch = false).
Proof.
  intros Hok Hnf. destruct ch as [replay queue job durable closed holding out finished].
  assert (forall ch', step (mkChannel replay queue job durable closed holding out finished) ch' -> False) as Hno
    by (intros ch' H; apply Hnf; by exists ch').
  destruct finished; [split; [by apply (ok_end _ Hok)|by left]|].
  destruct replay as [|i replay]; [|exfalso; eapply Hno, poll_replay].
  destruct closed.
  { exfalso. eapply Hno, poll_end. done. }
  destruct queue as [|i queue]; [|exfalso; eapply Hno, poll_queue].
  destruct job as [[|i items]|]; [exfalso; eapply Hno, job_ends|exfalso; eapply Hno, job_sends; cbn; unfold CHANNEL_CAPACITY; lia|].
  destruct durable as [[|i items]|]; [exfalso; eapply Hno, durable_ends|exfalso; eapply Hno, durable_sends; cbn; unfold CHANNEL_CAPACITY; lia|].
  split; [done|]. destruct holding; [by right|]. exfalso. eapply Hno, poll_end. done.
Qed.
(** While the poll keeps the channel open, the end is never told. *)
Lemma held_never_finishes ch ch' :
  rtc step ch ch' -> ch_holding ch = true -> ch_closed ch = false -> ch_finished ch = false -> ch_finished ch' = false.
Proof.
  induction 1 as [|ch1 ch2 ch3 Hs _ IH]; [done|]. intros Hh Hc Hf.
  destruct Hs; cbn in *; subst; try (by apply IH); try done.
  apply drained_spec in H as [?|(? & ? & ? & ?)]; done.
Qed.
End Channel.

(** ** The first poll *)

Section Poll.
Context {DataType Meta Column : Type} `{!EqDecision DataType, !EqDecision Meta}.
Context {Args Plan Hit : Type}.
Abbreviation Batch := (@RecordBatch DataType Meta Column).
Abbreviation Entry := (@CachedEntry Batch).
Abbreviation Item := (result Batch).

Variable new_batch : @ScanShape.Schema DataType Meta -> list Column -> nat -> result Batch.
Variables hit_etag hit_last_modified : Hit -> option string.
Variable exec : @ScanExec DataType Meta Args Plan.
Variable ineligible : option CacheIneligibleReason.
Variable has_rpc_timeout : bool.

Abbreviation Call := (@ScanStream.Call DataType Meta Column Hit).
Abbreviation Resp := (@ScanStream.Resp DataType Meta Column Hit).
Abbreviation Trace := (list (event Resp)).
Abbreviation Polled := (@ScanStream.Polled DataType Meta Column Hit).
Abbreviation stream_of j := (open_stream new_batch hit_etag hit_last_modified exec j ineligible has_rpc_timeout).
Abbreviation replay_of j := (replay_items new_batch exec j).

Implicit Types (g tr : Trace) (st : Polled).

(** *** Rules for calls whose answers are recorded *)

Section Rules.
Variable answers : forall c : Call, Resp c -> Prop.
Abbreviation WP := (wpj (traced answers) (fun _ _ => True) (fun _ => True)).

Lemma poll_do {A} g c (f : Resp c -> job Resp A) Q :
  (forall r, answers c r -> WP (g ++ [existT c r]) (f r) Q) -> WP g (job_bind (do_ c) f) Q.
Proof. intros H. split; [exact I|exact H]. Qed.
(** Steps whose answers do not matter. *)
Lemma wpj_prefix {A} g (m : job Resp A) : WP g m (fun _ g' => g `prefix_of` g').
Proof.
  assert (H : wp (traced answers) g m (fun _ g' => g `prefix_of` g')).
  { revert g. induction m as [a|c k IH]; intros g; cbn; [done|]. split; [done|]. intros r _.
    eapply wp_mono; [|apply IH]. intros a g' [rest ->]. exists (existT c r :: rest). by rewrite <- app_assoc. }
  eapply wp_mono; [|exact H]. intros [[a|e]|] g'; done.
Qed.
Lemma poll_skip {A B} g (m : job Resp A) (f : A -> job Resp B) Q :
  (forall a g', g `prefix_of` g' -> WP g' (f a) Q) -> WP g (job_bind m f) Q.
Proof. intros H. eapply wpj_seq; [apply wpj_prefix|exact H]. Qed.
End Rules.

(** *** What the first poll decides *)

Inductive Source :=
  | FromJobs
  | FromEntry (e : Entry)
  | FromHit (h : Hit)
  (** the stale entry, while this query or another one refreshes it *)
  | FromStale (e : Entry) (refreshing : bool).
Definition polled (j : nat) (src : Source) : Polled :=
  match src with
  | FromJobs => job_only
  | FromEntry e => mkPolled (replay_of j e) Dropped false None false
  | FromHit h => durable_only h
  | FromStale e refreshing =>
      mkPolled (replay_of j e) (if refreshing then Spawned else Dropped) refreshing None
        (match replay_of j e with [] => true | _ => false end)
  end.

Definition heard (g : Trace) (c : Call) (r : Resp c) : Prop := existT c r ∈ g.
(** The answers on which each source is taken. *)
Inductive follows (g : Trace) (f : nat) (key : CacheKey) : Source -> Prop :=
  | follow_entry e :
      heard g (Wait f) Stored -> heard g (FlightProbe key) (Some e) -> follows g f key (FromEntry e)
  | follow_hit h :
      heard g (Wait f) Stored -> heard g (FlightProbe key) None -> heard g FlightDiskProbe (Some h) ->
      follows g f key (FromHit h)
  | follow_stale_hit h :
      heard g (Wait f) Stored -> heard g (FlightProbe key) None -> heard g FlightDiskProbe None ->
      heard g DurableStaleLookup (Some h) -> follows g f key (FromHit h)
  | follow_retry :
      heard g (Wait f) Stored -> heard g (FlightProbe key) None -> heard g FlightDiskProbe None ->
      heard g DurableStaleLookup None -> follows g f key FromJobs
  | follow_aborted reason : heard g (Wait f) (Aborted reason) -> follows g f key FromJobs.
Inductive decides (g : Trace) : Source -> Prop :=
  | decide_uncached : ex_cache_key exec = None -> decides g FromJobs
  | decide_memory key e :
      ex_cache_key exec = Some key -> heard g (CacheProbe key) (Some e) -> decides g (FromEntry e)
  | decide_disk key h :
      ex_cache_key exec = Some key -> heard g (CacheProbe key) None -> heard g DiskProbe (Some h) ->
      decides g (FromHit h)
  | decide_stale key e companion claim :
      ex_cache_key exec = Some key -> ex_splits exec = None -> has_rpc_timeout = true ->
      heard g GetRevalidation (Some (Memory e companion)) -> heard g (MayServeWhileRevalidate e) true ->
      heard g (Flight key) claim ->
      decides g (FromStale e (match claim with Producer _ => true | Follower _ => false end))
  | decide_produce key p :
      ex_cache_key exec = Some key -> heard g (CacheProbe key) None -> heard g DiskProbe None ->
      heard g (Flight key) (Producer p) -> decides g FromJobs
  | decide_follow key f src :
      ex_cache_key exec = Some key -> heard g (CacheProbe key) None -> heard g DiskProbe None ->
      heard g (Flight key) (Follower f) -> follows g f key src -> decides g src.

Lemma heard_here g c r : heard (g ++ [existT c r]) c r.
Proof. apply elem_of_app. right. by left. Qed.
Lemma heard_prefix g g' c r : heard g c r -> g `prefix_of` g' -> heard g' c r.
Proof. intros H [rest ->]. apply elem_of_app. by left. Qed.
Lemma heard_more g e c r : heard g c r -> heard (g ++ [e]) c r.
Proof. intros H. apply elem_of_app. by left. Qed.

Section Spec.
Variable answers : forall c : Call, Resp c -> Prop.
Variable partition : nat.
Abbreviation WP := (wpj (traced answers) (fun _ _ => True) (fun _ => True)).
Definition decided st g : Prop := exists src, st = polled partition src /\ decides g src.

#[local] Hint Resolve heard_here heard_more : poll.
#[local] Hint Extern 2 (heard _ _ _) => eapply heard_prefix; [|eassumption] : poll.
#[local] Hint Constructors follows decides : poll.
Ltac skip := apply poll_skip; intros ? ? ?.

Lemma decided_ret g src : decides g src -> WP g (job_ret (polled partition src)) decided.
Proof. intros H. by exists src. Qed.
Lemma decides_follow g key f src :
  ex_cache_key exec = Some key -> heard g (CacheProbe key) None -> heard g DiskProbe None ->
  heard g (Flight key) (Follower f) -> follows g f key src -> decides g src.
Proof. eauto with poll. Qed.

Lemma coalesced_durable_spec g key f h :
  ex_cache_key exec = Some key -> heard g (CacheProbe key) None -> heard g DiskProbe None ->
  heard g (Flight key) (Follower f) -> heard g (Wait f) Stored -> heard g (FlightProbe key) None ->
  heard g FlightDiskProbe (Some h) \/ heard g FlightDiskProbe None /\ heard g DurableStaleLookup (Some h) ->
  WP g (coalesced_durable h) decided.
Proof.
  intros Hk Hc Hd Hf Hw Hp Hh. unfold coalesced_durable. do 3 skip. apply (decided_ret _ (FromHit h)).
  eapply decides_follow; [done|eauto 12 with poll..|].
  destruct Hh as [Hh|[Hn Hh]]; [apply follow_hit|apply follow_stale_hit]; eauto 12 with poll.
Qed.
Lemma follow_flight_spec g key f :
  ex_cache_key exec = Some key -> heard g (CacheProbe key) None -> heard g DiskProbe None ->
  heard g (Flight key) (Follower f) -> WP g (follow_flight new_batch exec partition key f) decided.
Proof.
  intros Hk Hc Hd Hf. unfold follow_flight. do 2 skip.
  apply poll_do. intros outcome _. destruct outcome as [|reason].
  - apply poll_do. intros memory _. destruct memory as [e|].
    + skip. apply (decided_ret _ (FromEntry e)). eapply decides_follow; eauto 12 with poll.
    + apply poll_do. intros durable _. destruct durable as [h|].
      * eapply coalesced_durable_spec; eauto 12 with poll.
      * apply poll_do. intros stale _. destruct stale as [h|].
        { eapply coalesced_durable_spec; eauto 12 with poll. }
        do 3 skip. apply (decided_ret _ FromJobs). eapply decides_follow; [done|eauto 20 with poll..|].
        apply follow_retry; eauto 20 with poll.
  - do 3 skip. apply (decided_ret _ FromJobs). eapply decides_follow; [done|eauto 12 with poll..|].
    eapply follow_aborted; eauto 12 with poll.
Qed.
Lemma cold_scan_spec g key :
  ex_cache_key exec = Some key -> heard g (CacheProbe key) None -> heard g DiskProbe None ->
  WP g (cold_scan new_batch exec partition key) decided.
Proof.
  intros Hk Hc Hd. apply poll_do. intros claim _. destruct claim as [p|f].
  - do 2 skip. apply (decided_ret _ FromJobs). eauto 12 with poll.
  - apply follow_flight_spec; eauto with poll.
Qed.
Lemma serve_while_revalidating_spec g key e companion :
  ex_cache_key exec = Some key -> ex_splits exec = None -> has_rpc_timeout = true ->
  heard g GetRevalidation (Some (Memory e companion)) -> heard g (MayServeWhileRevalidate e) true ->
  WP g (serve_while_revalidating new_batch exec partition key e) decided.
Proof.
  intros Hk Hs Ht Hg Hm. unfold serve_while_revalidating. skip. apply poll_do. intros claim _. cbv zeta.
  destruct claim as [p|f].
  - do 3 skip. apply (decided_ret _ (FromStale e true)). apply (decide_stale _ key e companion (Producer p)); eauto 12 with poll.
  - skip. apply (decided_ret _ (FromStale e false)). apply (decide_stale _ key e companion (Follower f)); eauto 12 with poll.
Qed.
Lemma stale_while_revalidate_spec g :
  WP g (stale_while_revalidate exec has_rpc_timeout) (fun stale g' => g `prefix_of` g' /\
    forall e, stale = Some e -> ex_splits exec = None /\ has_rpc_timeout = true /\
      heard g' (MayServeWhileRevalidate e) true /\ exists companion, heard g' GetRevalidation (Some (Memory e companion))).
Proof.
  unfold stale_while_revalidate. destruct (ex_splits exec), has_rpc_timeout; cbn [is_some negb andb]; try done.
  apply poll_do. intros selected _. destruct selected as [[e companion|h]|]; [|by split; [eexists|]..].
  apply poll_do. intros may _. apply wpj_ret. split; [by rewrite <- app_assoc; eexists|].
  destruct may; [|done]. intros e' [= <-]. split_and!; [done..|eauto with poll|eauto with poll].
Qed.
Lemma first_poll_spec g key memory :
  ex_cache_key exec = Some key -> heard g (CacheProbe key) None ->
  WP g (first_poll new_batch hit_etag hit_last_modified exec partition has_rpc_timeout memory) decided.
Proof.
  intros Hk Hc. unfold first_poll. rewrite Hk. apply poll_do. intros durable _. destruct durable as [h|].
  - do 4 skip. apply (decided_ret _ (FromHit h)). eauto 14 with poll.
  - skip. eapply wpj_seq; [apply stale_while_revalidate_spec|]. intros stale g2 [Hpre Hstale]. skip.
    destruct stale as [e|].
    + destruct (Hstale e eq_refl) as (Hs & Ht & Hm & companion & Hg).
      eapply (serve_while_revalidating_spec _ key e companion); eauto with poll.
    + apply cold_scan_spec; eauto 12 with poll.
Qed.

Lemma collected {A B} (f : A -> result B) l bs : result_collect f l = Ok bs -> map Ok bs = map f l.
Proof.
  revert bs. induction l as [|a l IH]; intros bs; cbn; [by intros [= <-]|].
  destruct (f a) as [b|]; cbn; [|done]. destruct (result_collect f l) as [bs'|]; cbn; [|done].
  intros [= <-]. cbn. by rewrite IH.
Qed.
Lemma execute_spec g :
  WP g (execute new_batch exec partition ineligible) (fun s g' =>
    match s with
    | Items bs => exists key e, ex_cache_key exec = Some key /\ heard g' (CacheProbe key) (Some e) /\ map Ok bs = replay_of partition e
    | Lazy _ => forall key, ex_cache_key exec = Some key -> heard g' (CacheProbe key) None
    end).
Proof.
  unfold execute. skip. destruct (ex_cache_key exec) as [key|]; [|done].
  apply poll_do. intros cached _. destruct cached as [e|].
  - do 3 skip. unfold replay_items. destruct (_ =? _)%nat.
    + apply wpj_bind, wpj_try; [|done]. intros bs Hbs. apply wpj_ret. exists key, e. split; [done|].
      split; [eauto 12 with poll|]. by apply collected.
    + apply wpj_bind, wpj_ret, wpj_ret. exists key, e. split; [done|]. split; [eauto 12 with poll|done].
  - apply poll_do. intros stale _. apply wpj_ret. intros key' [= <-]. eauto with poll.
Qed.
(** The poll decides as the answers say. *)
Lemma open_stream_spec g : WP g (stream_of partition) decided.
Proof.
  unfold open_stream. eapply wpj_seq; [apply execute_spec|]. intros s g1 Hs. destruct s as [bs|memory].
  - destruct Hs as (key & e & Hk & He & ->). apply (decided_ret _ (FromEntry e)). eauto with poll.
  - destruct (ex_cache_key exec) as [key|] eqn:Hk; [by apply (first_poll_spec _ key), Hs|].
    unfold first_poll. rewrite Hk. skip. apply (decided_ret _ FromJobs). by constructor.
Qed.
End Spec.

(** What the first poll does is what its answers decide. *)
Lemma opened j tr st :
  runs (stream_of j) tr (Some (Ok st)) -> exists src, st = polled j src /\ decides tr src.
Proof.
  intros Hr. pose proof (open_stream_spec (fun _ _ => True) j []) as H.
  eapply wp_sound in Hr as [_ Hr]; [|exact H|by apply relied_traced]. by rewrite observe_traced in Hr.
Qed.

(** *** What the consumer gets *)

Section Delivery.
(** What the job of each partition, and the replay of a durable hit, will send. *)
Variable job_items : nat -> list Item.
Variable hit_partitions : Hit -> nat.
Variable open_partition : Hit -> nat -> list (Batch + string) + string.
Definition durable_items (j : nat) (h : Hit) : list Item :=
  spawn_durable_replay new_batch exec j hit_partitions open_partition h.
Abbreviation channel_at j := (channel_of (job_items j) (durable_items j)).

Definition items_from (j : nat) (src : Source) : list Item :=
  match src with
  | FromJobs => job_items j
  | FromEntry e | FromStale e _ => replay_of j e
  | FromHit h => durable_items j h
  end.
Lemma due_from j src : due (channel_at j (polled j src)) = items_from j src.
Proof.
  unfold due, channel_of. destruct src as [|e|h|e [|]]; cbn; rewrite ?app_nil_r; done.
Qed.
Lemma opened_ok j src : channel_ok (channel_at j (polled j src)).
Proof. destruct src as [|e|h|e [|]]; split; cbn; auto; done. Qed.

(** A reader of a stale entry that another query refreshes, with nothing of the
    entry to replay. *)
Definition idle_stale_reader j tr : Prop :=
  exists key f e, heard tr (MayServeWhileRevalidate e) true /\ heard tr (Flight key) (Follower f) /\ replay_of j e = [].
(** C7: however the calls of the first poll are answered and the tasks then
    interleave with the consumer's polls, the stream comes to rest; by then the
    consumer has got exactly what was at hand and what its task sent, and has
    been told of the end, unless it reads a stale entry that another query
    refreshes and has nothing of it to replay. *)
Theorem stream_ends j tr st :
  runs (stream_of j) tr (Some (Ok st)) ->
  sn step (channel_at j st) /\
  forall ch, rtc step (channel_at j st) ch -> nf step ch ->
    ch_out ch = due (channel_at j st) /\ (ch_finished ch = true \/ idle_stale_reader j tr).
Proof.
  intros (src & -> & Hd)%opened. pose proof (opened_ok j src) as Hok. split; [by apply channel_sn|].
  intros ch Hs Hnf. destruct (steps_exact _ _ Hs Hok) as (Hout & Hok' & Hc & Hh).
  destruct (channel_stops _ Hok' Hnf) as [Hdue Hend]. rewrite Hdue, app_nil_r in Hout. split; [exact Hout|].
  destruct Hend as [Hend|[Hhold Hopen]]; [by left|]. right. rewrite Hc in Hopen. rewrite Hh in Hhold. clear - Hd Hopen Hhold.
  destruct Hd as [| | |key e companion claim Hk Hsp Ht Hg Hm Hf| |key f src _ _ _ _ Hfollow]; try done.
  - destruct claim as [p|f]; [done|]. exists key, f, e. split; [done|]. split; [done|]. cbn in Hhold.
    by destruct (replay_of j e).
  - by destruct Hfollow.
Qed.

(** That reader waits for ever. *)
Lemma idle_reader_hangs j e ch :
  replay_of j e = [] -> rtc step (channel_at j (polled j (FromStale e false))) ch -> ch_finished ch = false.
Proof.
  intros He Hs. eapply held_never_finishes; [exact Hs|cbn; by rewrite He|done..].
Qed.

(** *** The partitions of a scan *)

(** Calls that every partition hears alike: the cells they share; and for the
    same source, the outcome of the flight and the last look at the durable
    cache, which each partition asks for on its own. *)
Definition shared (c : Call) : bool :=
  match c with Observe | GetForRevalidation _ | MayServeWhileRevalidate _ | MaxEntryBytes => false | _ => true end.
Variable cell : forall c : Call, Resp c.
Definition agrees tr : Prop := forall c r, heard tr c r -> shared c = true -> r = cell c.

Lemma agrees_eq tr c r : agrees tr -> heard tr c r -> shared c = true -> cell c = r.
Proof. intros Ha Hh Hs. symmetry. by apply Ha. Qed.
Ltac by_cell :=
  repeat match goal with
         | Ha : agrees ?tr, Hh : heard ?tr ?c ?r |- _ =>
             let E := fresh "E" in pose proof (agrees_eq tr c r Ha Hh eq_refl) as E; clear Hh
         end.
Definition is_stale (src : Source) : bool := match src with FromStale _ _ => true | _ => false end.
Lemma follows_unique tr1 tr2 f key src1 src2 :
  agrees tr1 -> agrees tr2 -> follows tr1 f key src1 -> follows tr2 f key src2 -> src1 = src2.
Proof. intros Ha1 Ha2 H1 H2. destruct H1; destruct H2; by_cell; congruence. Qed.
Lemma decides_unique tr1 tr2 src1 src2 :
  agrees tr1 -> agrees tr2 -> decides tr1 src1 -> decides tr2 src2 ->
  is_stale src1 = false -> is_stale src2 = false -> src1 = src2.
Proof.
  intros Ha1 Ha2 H1 H2 Hs1 Hs2.
  destruct H1 as [|key1 e1 Hk1|key1 h1 Hk1|?????|key1 p1 Hk1|key1 f1 src1 Hk1]; try done;
    destruct H2 as [|key2 e2 Hk2|key2 h2 Hk2|?????|key2 p2 Hk2|key2 f2 src2 Hk2]; try done; try congruence;
    assert (key2 = key1) as -> by congruence; by_cell; try congruence.
  assert (f2 = f1) as -> by congruence. by eapply (follows_unique tr1 tr2).
Qed.
Lemma stale_without_splits g src : decides g src -> is_Some (ex_splits exec) -> is_stale src = false.
Proof.
  intros Hd [plan Hs]. destruct Hd as [| | |key e companion claim Hk Hsp| |key f src _ _ _ _ Hf]; [done..|congruence|done|].
  by destruct Hf.
Qed.

(** C8: the partitions of a scan that hear the same answers from the cells they
    share, from another query's flight and from the durable cache read one
    source: the first partition's. With splits, all of them run their own jobs
    or none does and the first one replays the stored result; without, the other
    partitions deliver nothing but what a job without a share of the scan sends. *)
Theorem streams_one_source (n : nat) (tr : nat -> Trace) (st : nat -> Polled) :
  (forall j, (j < n)%nat -> runs (stream_of j) (tr j) (Some (Ok (st j))) /\ agrees (tr j)) ->
  exists src, forall j, (j < n)%nat ->
    (j = 0%nat \/ is_Some (ex_splits exec) -> due (channel_at j (st j)) = items_from j src) /\
    ((0 < j)%nat -> due (channel_at j (st j)) = [] \/ due (channel_at j (st j)) = job_items j).
Proof.
  intros Hall. destruct n as [|n]; [by exists FromJobs; lia|].
  destruct (Hall 0%nat) as [H0 Ha0]; [lia|]. apply opened in H0 as (src & Hst & Hd0). exists src. intros j Hj.
  destruct (Hall j Hj) as [Hr Ha]. apply opened in Hr as (srcj & Hstj & Hd). split.
  - intros [->|Hsplit]; [by rewrite Hst, due_from|]. rewrite Hstj, due_from. f_equal.
    eapply decides_unique; [exact Ha|exact Ha0|exact Hd|exact Hd0|by eapply stale_without_splits..].
  - intros Hpos. rewrite Hstj, due_from. destruct srcj as [|e|h|e refreshing]; cbn; [by right|left..];
      unfold durable_items, spawn_durable_replay, replay_items; by destruct (Nat.eqb_spec j 0); [lia|].
Qed.
End Delivery.
End Poll.

(** ** Readers of one result *)

Module Readers.
Import Counting.
Definition entry : @CachedEntry Batch := mkEntry [batch [1]; batch [2]]%nat 16 (Some "v1") None.
Abbreviation Call := (@ScanStream.Call unit unit (list nat) unit).
Abbreviation Resp := (@ScanStream.Resp unit unit (list nat) unit).
Abbreviation Event := (event Resp).
(** The cells when another query has the flight, and what its outcome is to this
    partition; [stale] is the entry kept for revalidation. *)
Definition cell (stale : option (@ScanCacheRevalidation unit unit (list nat) unit)) (outcome : ResultFlightOutcome) (c : Call) : Resp c :=
  match c with
  | FlightProbe _ => Some entry
  | CacheProbe _ | GetForRevalidation _ => None
  | DiskProbe | DiskRevalidationProbe | FlightDiskProbe | DurableStaleLookup => None
  | GetRevalidation => stale
  | Flight _ => Follower 0
  | Observe => false
  | MayServeWhileRevalidate _ => true
  | MaxEntryBytes => 100
  | Wait _ => outcome
  | _ => tt
  end.
Definition stream (exec : @ScanExec unit unit unit unit) j : job Resp Polled :=
  open_stream new_batch (fun _ : unit => None) (fun _ => None) exec j None true.
Definition opened_with exec stale outcome j := interp (fun _ : list Event => cell stale outcome) [] (stream exec j).
Definition trace exec stale outcome j : list Event := (opened_with exec stale outcome j).1.
Lemma stream_runs exec stale outcome j : runs (stream exec j) (trace exec stale outcome j) (opened_with exec stale outcome j).2.
Proof. apply interp_runs. Qed.
(** A deterministic environment answers like itself. *)
Lemma interp_agrees {A} stale outcome (p : prog Resp A) past c r :
  existT c r ∈ (interp (fun _ : list Event => cell stale outcome) past p).1 -> r = cell stale outcome c.
Proof.
  revert past. induction p as [a|c' k IH]; intros past; cbn.
  - intros H. inversion H.
  - specialize (IH (cell stale outcome c') (past ++ [existT c' (cell stale outcome c')])).
    destruct (interp _ _ _) as [tr a]. cbn in *. intros [E|Hin]%elem_of_cons; [|by apply IH].
    exact (match E in _ = e return match e with existT c' r' => r' = cell stale outcome c' end -> r = cell stale outcome c with
           | eq_refl => fun H => H end eq_refl).
Qed.
(** One partition, or as many as the worker allows, but no splits. *)
Definition whole_exec : @ScanExec unit unit unit unit :=
  mkExec TwoSplits.request tt [] [] schema schema None None (Some TwoSplits.key) false false.
Definition job_items (j : nat) : list (result Batch) := [Ok (batch [S j])].
Definition channel_at (exec : @ScanExec unit unit unit unit) (st : Polled) j := channel_of (job_items j)
  (durable_items new_batch exec (fun _ : unit => 0%nat) (fun _ _ => inl []) j) st.
Definition polled_with exec stale outcome j : Polled :=
  match (opened_with exec stale outcome j).2 with Some (Ok st) => st | _ => job_only end.
End Readers.

Definition rested : Channel (result Counting.Batch) :=
  mkChannel [] [] None None false false [Ok (Counting.batch [1]%nat); Ok (Counting.batch [2]%nat)] true.
Lemma rested_nf : nf step rested.
Proof. intros [ch H]. inversion H. Qed.
Lemma rested_reached :
  rtc step (Readers.channel_at TwoSplits.exec (Readers.polled_with TwoSplits.exec None Stored 0) 0) rested.
Proof.
  eapply rtc_l; [apply poll_replay|]. eapply rtc_l; [apply poll_replay|]. eapply rtc_l; [by apply poll_end|]. apply rtc_refl.
Qed.
Lemma stream_ends_witness :
  sn step (Readers.channel_at TwoSplits.exec (Readers.polled_with TwoSplits.exec None Stored 0) 0) /\
  due (Readers.channel_at TwoSplits.exec (Readers.polled_with TwoSplits.exec None Stored 0) 0)
    = [Ok (Counting.batch [1]%nat); Ok (Counting.batch [2]%nat)].
Proof.
  destruct (stream_ends Counting.new_batch (fun _ => None) (fun _ => None) TwoSplits.exec None true Readers.job_items
    (fun _ : unit => 0%nat) (fun _ _ => inl []) 0 _ _ (Readers.stream_runs TwoSplits.exec None Stored 0)) as [Hsn H].
  split; [exact Hsn|]. destruct (H rested rested_reached rested_nf) as [Hdue _]. symmetry. exact Hdue.
Defined.

Lemma streams_one_source_witness : exists src, forall j, (j < 2)%nat ->
  due (Readers.channel_at TwoSplits.exec (Readers.polled_with TwoSplits.exec None Stored j) j)
    = items_from Counting.new_batch TwoSplits.exec Readers.job_items (fun _ : unit => 0%nat) (fun _ _ => inl []) j src.
Proof.
  destruct (streams_one_source Counting.new_batch (fun _ => None) (fun _ => None) TwoSplits.exec None true Readers.job_items
    (fun _ : unit => 0%nat) (fun _ _ => inl []) (Readers.cell None Stored) 2 (Readers.trace TwoSplits.exec None Stored)
    (Readers.polled_with TwoSplits.exec None Stored)) as [src H].
  - intros j Hj. split; [destruct j as [|[|j]]; [| |lia]; exact (Readers.stream_runs TwoSplits.exec None Stored _)|].
    intros c r Hin _. by eapply Readers.interp_agrees.
  - exists src. intros j Hj. apply H; [done|]. right. by eexists.
Defined.

(** Two partitions that wait for one flight apart, one of them too briefly: the
    first runs its own split, the second leaves its rows to the first. What the
    second split answers is delivered by nobody. The other way round, its rows are
    delivered twice. *)
Lemma flight_waits_disagree :
  due (Readers.channel_at TwoSplits.exec (Readers.polled_with TwoSplits.exec None (Aborted "cache flight wait exceeded rpc_timeout") 0) 0)
    = Readers.job_items 0 /\
  due (Readers.channel_at TwoSplits.exec (Readers.polled_with TwoSplits.exec None Stored 1) 1) = [] /\
  due (Readers.channel_at TwoSplits.exec (Readers.polled_with TwoSplits.exec None Stored 0) 0)
    = [Ok (Counting.batch [1]%nat); Ok (Counting.batch [2]%nat)] /\
  due (Readers.channel_at TwoSplits.exec (Readers.polled_with TwoSplits.exec None (Aborted "cache flight wait exceeded rpc_timeout") 1) 1)
    = Readers.job_items 1.
Proof. by vm_compute. Qed.

(** The second partition of a scan without splits that reads a stale entry while
    another query refreshes it: its stream never ends. *)
Lemma stale_follower_hangs : forall ch,
  rtc step (Readers.channel_at Readers.whole_exec (Readers.polled_with Readers.whole_exec (Some (Memory Readers.entry None)) Stored 1) 1) ch ->
  ch_finished ch = false.
Proof.
  intros ch. apply (idle_reader_hangs Counting.new_batch Readers.whole_exec Readers.job_items (fun _ : unit => 0%nat) (fun _ _ => inl []) 1
    Readers.entry). reflexivity.
Qed.
