(* ===== verification/DynamicFilters.v ===== *)
(** * Snapshots of runtime filters (src/src/lib.rs: [snapshot_dynamic_filters])

    A join or a Top-K updates its runtime filters while the scan reads them, one
    filter at a time. The reader sums their generations before and after and
    tries again until the sums agree. Time is counted in the reader's steps;
    between two of them the writers may do anything. *)

From S2P Require Import Prelude.

#[local] Open Scope Z_scope.

Section Snapshot.
Context {Expr : Type}.
(** [DynamicFilterPhysicalExpr::snapshot_generation] and [current] of each
    filter, by time. *)
Variable snapshot_generation : nat -> nat -> Z.
Variable current : nat -> nat -> result Expr.
(** The number of filters. *)
Variable n : nat.

(** [u64::wrapping_add] over the filters, read one after the other from [t]. *)
Definition dynamic_filter_generation (t : nat) : Z :=
  fold_left (fun generation i => u64_add generation (snapshot_generation (t + i) i)) (seq 0 n) 0.
Fixpoint snapshot_dynamic_filters (fuel t : nat) : option (result (Z * list Expr)) :=
  match fuel with
  | O => None
  | S fuel =>
      let before := dynamic_filter_generation t in
      match result_collect (fun i => current (t + n + i) i) (seq 0 n) with
      | Err e => Some (Err e)
      | Ok snapshots =>
          let after := dynamic_filter_generation (t + 2 * n) in
          if before =? after then Some (Ok (after, snapshots)) else snapshot_dynamic_filters fuel (t + 3 * n)
      end
  end.

(** ** What the producers of the filters guarantee *)

(** An update moves the generation forward, and nothing else changes a filter;
    fewer than 2^64 updates ever happen. *)
Hypothesis generation_mono : forall i t t', (t <= t')%nat -> snapshot_generation t i <= snapshot_generation t' i.
Hypothesis generation_decides : forall i t t', snapshot_generation t i = snapshot_generation t' i -> current t i = current t' i.
Definition total (time : nat -> nat) (filters : list nat) : Z :=
  foldr Z.add 0 (map (fun i => snapshot_generation (time i) i) filters).
Hypothesis updates_fit : forall t t', total (fun _ => t') (seq 0 n) - total (fun _ => t) (seq 0 n) < u64_modulus.

Lemma fold_total time filters acc :
  fold_left (fun g i => u64_add g (snapshot_generation (time i) i)) filters (acc mod u64_modulus)
    = (acc + total time filters) mod u64_modulus.
Proof.
  revert acc. induction filters as [|i filters IH]; intros acc; cbn; [by rewrite Z.add_0_r|].
  assert (u64_add (acc mod u64_modulus) (snapshot_generation (time i) i)
          = (acc + snapshot_generation (time i) i) mod u64_modulus) as -> by (unfold u64_add; by rewrite Zplus_mod_idemp_l).
  rewrite IH. unfold total. f_equal. cbn. lia.
Qed.
Lemma generation_total t : dynamic_filter_generation t = total (fun i => (t + i)%nat) (seq 0 n) mod u64_modulus.
Proof. exact (fold_total (fun i => (t + i)%nat) (seq 0 n) 0). Qed.

Lemma total_mono time time' filters :
  (forall i, i ∈ filters -> (time i <= time' i)%nat) -> total time filters <= total time' filters.
Proof.
  induction filters as [|i filters IH]; intros Ht; [done|]. unfold total in *. cbn.
  pose proof (generation_mono i _ _ (Ht i (list_elem_of_here _ _))).
  assert (foldr Z.add 0 (map (fun i => snapshot_generation (time i) i) filters)
          <= foldr Z.add 0 (map (fun i => snapshot_generation (time' i) i) filters)) by (apply IH; intros k Hk; apply Ht; by right).
  lia.
Qed.
(** Equal sums of growing generations: no filter moved. *)
Lemma total_equal time time' filters :
  (forall i, i ∈ filters -> (time i <= time' i)%nat) -> total time filters = total time' filters ->
  forall i, i ∈ filters -> snapshot_generation (time i) i = snapshot_generation (time' i) i.
Proof.
  induction filters as [|k filters IH]; intros Ht He i Hi; [by apply elem_of_nil in Hi|].
  pose proof (generation_mono k _ _ (Ht k (list_elem_of_here _ _))) as Hk.
  pose proof (total_mono time time' filters (fun i Hi => Ht i (list_elem_of_further _ _ _ Hi))) as Hm.
  unfold total in He, Hm. cbn in He. apply elem_of_cons in Hi as [->|Hi]; [lia|].
  apply IH; [intros x Hx; apply Ht; by right|unfold total; lia|done].
Qed.

(** A filter whose generation agrees at two times was the same all the while. *)
Lemma unmoved i a b t :
  snapshot_generation a i = snapshot_generation b i -> (a <= t <= b)%nat ->
  snapshot_generation t i = snapshot_generation a i /\ current t i = current a i.
Proof.
  intros He [H1 H2]. pose proof (generation_mono i _ _ H1). pose proof (generation_mono i _ _ H2).
  assert (snapshot_generation t i = snapshot_generation a i) as Hg by lia. split; [done|]. by apply generation_decides.
Qed.

(** One attempt whose sums agree saw the filters as they were together at one
    time, its middle. *)
Lemma attempt_atomic t :
  dynamic_filter_generation t = dynamic_filter_generation (t + 2 * n) ->
  dynamic_filter_generation (t + 2 * n) = total (fun _ => t + n)%nat (seq 0 n) mod u64_modulus /\
  forall i, (i < n)%nat -> current (t + n + i) i = current (t + n) i.
Proof.
  rewrite !generation_total. intros He.
  set (early := fun i => (t + i)%nat) in *. set (late := fun i => (t + 2 * n + i)%nat) in *.
  assert (Hin : forall i, i ∈ seq 0 n -> (i < n)%nat) by (intros i Hi%elem_of_seq; lia).
  assert (Hle : total early (seq 0 n) <= total late (seq 0 n)) by (apply total_mono; intros i _; unfold early, late; lia).
  assert (Hlt : total late (seq 0 n) - total early (seq 0 n) < u64_modulus).
  { pose proof (updates_fit t (t + 3 * n)).
    assert (total (fun _ => t) (seq 0 n) <= total early (seq 0 n)) by (apply total_mono; intros i _; unfold early; lia).
    assert (total late (seq 0 n) <= total (fun _ => t + 3 * n)%nat (seq 0 n))
      by (apply total_mono; intros i Hi%Hin; unfold late; lia).
    lia. }
  assert (Heq : total early (seq 0 n) = total late (seq 0 n)).
  { assert (0 < u64_modulus) by done.
    assert ((total late (seq 0 n) - total early (seq 0 n)) mod u64_modulus = 0) as Hm
      by (rewrite Zminus_mod, He, Z.sub_diag; done).
    rewrite Z.mod_small in Hm by lia. lia. }
  pose proof (total_equal early late (seq 0 n) ltac:(intros i _; unfold early, late; lia) Heq) as Hall.
  assert (Hmid : forall i, (i < n)%nat ->
    snapshot_generation (t + n) i = snapshot_generation (late i) i /\ current (t + n + i) i = current (t + n) i).
  { intros i Hi. assert (Hgen : snapshot_generation (early i) i = snapshot_generation (late i) i)
      by (apply Hall, elem_of_seq; lia).
    destruct (unmoved i _ _ (t + n) Hgen) as [Hg Hc]; [unfold early, late; lia|].
    destruct (unmoved i _ _ (t + n + i) Hgen) as [_ Hc']; [unfold early, late; lia|]. split; congruence. }
  split; [|intros i Hi; by apply Hmid]. f_equal. unfold total. f_equal. apply map_ext_in.
  intros i Hi. symmetry. apply Hmid, Hin. by apply list_elem_of_In.
Qed.

(** No update from [T] on. *)
Definition quiet (T : nat) : Prop :=
  forall a b i, (T <= a)%nat -> (a <= b)%nat -> snapshot_generation a i = snapshot_generation b i.
Lemma quiet_generation T t : quiet T -> (T <= t)%nat -> dynamic_filter_generation t = dynamic_filter_generation (t + 2 * n).
Proof.
  intros Hq Ht. rewrite !generation_total. f_equal. unfold total. f_equal. apply map_ext. intros i. apply Hq; lia.
Qed.
Lemma quiet_settles T fuel : forall t,
  quiet T -> (T <= t + 3 * n * (fuel - 1))%nat -> (0 < fuel)%nat -> is_Some (snapshot_dynamic_filters fuel t).
Proof.
  induction fuel as [|fuel IH]; intros t Hq HT Hf; [lia|]. cbn [snapshot_dynamic_filters].
  destruct (result_collect _ _) as [snapshots|e]; [|by eexists].
  destruct (Z.eqb_spec (dynamic_filter_generation t) (dynamic_filter_generation (t + 2 * n))) as [|Hne]; [by eexists|].
  destruct fuel as [|fuel]; [exfalso; apply Hne, (quiet_generation T); [done|lia]|].
  apply IH; [done| |lia]. rewrite Nat.sub_succ, Nat.sub_0_r in *. lia.
Qed.

(** C11: a snapshot of the runtime filters is atomic: its expressions are those
    that all filters had together at one time while it was taken, and its
    generation is the wrapped sum of their generations then, whatever the
    producers of the filters did meanwhile. And the reader ends: with as many
    attempts as it takes to reach a time from which nothing is updated. *)
Theorem snapshot_atomic fuel t :
  (forall generation snapshots, snapshot_dynamic_filters fuel t = Some (Ok (generation, snapshots)) ->
    exists time, (t <= time)%nat /\
      Forall2 (fun i snapshot => current time i = Ok snapshot) (seq 0 n) snapshots /\
      generation = total (fun _ => time) (seq 0 n) mod u64_modulus) /\
  (forall T, quiet T -> (T <= t + 3 * n * (fuel - 1))%nat -> (0 < fuel)%nat -> is_Some (snapshot_dynamic_filters fuel t)).
Proof.
  split; [|intros T; apply quiet_settles]. revert t.
  induction fuel as [|fuel IH]; intros t generation snapshots; [done|]. cbn [snapshot_dynamic_filters].
  destruct (result_collect _ _) as [snaps|e] eqn:Hc; [|done].
  destruct (Z.eqb_spec (dynamic_filter_generation t) (dynamic_filter_generation (t + 2 * n))) as [He|].
  - intros [= <- <-]. destruct (attempt_atomic t He) as [Hg Hcur]. exists (t + n)%nat. split; [lia|]. split; [|done].
    apply result_collect_Ok in Hc. apply Forall2_same_length_lookup in Hc as [Hl Hc]. apply Forall2_same_length_lookup.
    split; [done|]. intros k i s Hi Hs. specialize (Hc k i s Hi Hs). cbn in Hc. rewrite <- Hc. symmetry. apply Hcur.
    apply lookup_seq in Hi as [-> Hk]. lia.
  - intros Hr. destruct (IH _ _ _ Hr) as (time & Ht & H). exists time. split; [lia|done].
Qed.
End Snapshot.

(** ** Witness: a join publishes its filter while a Top-K's is read *)

Module Publishing.
(** Filter 0 is updated at times 1 and 3, filter 1 at time 2. *)
Definition snapshot_generation (t i : nat) : Z :=
  if (i =? 0)%nat then (if (t <? 1)%nat then 1 else if (t <? 3)%nat then 2 else 3) else if (t <? 2)%nat then 1 else 2.
Definition current (t i : nat) : result Z := Ok (10 * Z.of_nat i + snapshot_generation t i).
Lemma generation_mono i t t' : (t <= t')%nat -> snapshot_generation t i <= snapshot_generation t' i.
Proof.
  intros Ht. unfold snapshot_generation.
  destruct (i =? 0)%nat, (Nat.ltb_spec t 1), (Nat.ltb_spec t 2), (Nat.ltb_spec t 3), (Nat.ltb_spec t' 1), (Nat.ltb_spec t' 2),
    (Nat.ltb_spec t' 3); lia.
Qed.
Lemma generation_decides i t t' : snapshot_generation t i = snapshot_generation t' i -> current t i = current t' i.
Proof. unfold current. by intros ->. Qed.
Lemma updates_fit t t' :
  total snapshot_generation (fun _ => t') (seq 0 2) - total snapshot_generation (fun _ => t) (seq 0 2) < u64_modulus.
Proof.
  assert (forall t i, 1 <= snapshot_generation t i <= 3) as Hb.
  { intros u i. unfold snapshot_generation. destruct (i =? 0)%nat, (u <? 1)%nat, (u <? 2)%nat, (u <? 3)%nat; lia. }
  unfold total, u64_modulus. cbn [seq map foldr].
  pose proof (Hb t' 0%nat). pose proof (Hb t' 1%nat). pose proof (Hb t 0%nat). pose proof (Hb t 1%nat). lia.
Qed.
End Publishing.

(** The first attempt sees generations 2 and 5 and is thrown away. *)
Lemma snapshot_atomic_witness :
  snapshot_dynamic_filters Publishing.snapshot_generation Publishing.current 2 1 0 = None /\
  snapshot_dynamic_filters Publishing.snapshot_generation Publishing.current 2 2 0 = Some (Ok (5, [3; 12])) /\
  exists time, Forall2 (fun i snapshot => Publishing.current time i = Ok snapshot) [0; 1]%nat [3; 12].
Proof.
  split; [vm_compute; reflexivity|]. split; [vm_compute; reflexivity|].
  destruct (snapshot_atomic Publishing.snapshot_generation Publishing.current 2 Publishing.generation_mono
    Publishing.generation_decides Publishing.updates_fit 2 0) as [H _].
  destruct (H 5 [3; 12] ltac:(vm_compute; reflexivity)) as (time & _ & Hs & _). exists time. exact Hs.
Defined.
