(* ===== verification/ScanNode.v ===== *)
(** * The scan node in DataFusion's hands (src/src/lib.rs: [VgiScanExec])

    What planning does to a scan node before it runs: linking the runtime
    filters a join or a Top-K offers it, marking it for profiling, sharing or
    renewing its cells; and the small services it gives meanwhile: visiting its
    expressions, statistics, the observation that reports once per query, the
    lookups in the durable tier and the text EXPLAIN shows. *)

From S2P Require Import Prelude Identity Settings Runtime CacheKeys ScanShape ScanCache Exchange ResultFlight ScanStats Interact ScanProfile ScanRun ScanRunTheorems ScanPublish ScanStream ScanStreamTheorems.
From stdpp Require Import gmap.

#[local] Open Scope Z_scope.

(** ** The node *)

Section Node.
(** A runtime filter, shared with its producer, and everything of a node that
    its clones keep. *)
Context {Filter Rest : Type}.
Variable expression_id : Filter -> Z.

Record Handle := mkHandle {
  h_dynamic_filters : list Filter;
  h_cache_key : option CacheKey;
  h_cache_ineligible_reason : option CacheIneligibleReason;
  (** shared objects, by identity: the capture, the metrics, the memory probe,
      the other cells, the profile *)
  h_cache_capture : option nat;
  h_metrics : nat;
  h_cache_probe : nat;
  h_cells : nat;
  h_dynamic_profile : option nat;
  h_rest : Rest;
}.

(** [VgiScanExec::new], with [fresh] the identity of what it allocates. *)
Definition new_handle (cache : CacheIneligibleReason + CacheKey) (fresh : nat) (rest : Rest) : Handle :=
  let key := match cache with inr key => Some key | inl _ => None end in
  {| h_dynamic_filters := [];
     h_cache_key := key;
     h_cache_ineligible_reason := match cache with inl reason => Some reason | inr _ => None end;
     h_cache_capture := match key with Some _ => Some fresh | None => None end;
     h_metrics := fresh; h_cache_probe := fresh; h_cells := fresh;
     h_dynamic_profile := None;
     h_rest := rest |}.
(** [VgiScanExec::with_order_by], when the hint is the node's own. *)
Definition renewed (h : Handle) (fresh : nat) : Handle :=
  {| h_dynamic_filters := h_dynamic_filters h;
     h_cache_key := h_cache_key h;
     h_cache_ineligible_reason := h_cache_ineligible_reason h;
     h_cache_capture := match h_cache_key h with Some _ => Some fresh | None => None end;
     h_metrics := fresh; h_cache_probe := fresh; h_cells := fresh;
     h_dynamic_profile := h_dynamic_profile h;
     h_rest := h_rest h |}.
Definition with_dynamic_filters (h : Handle) (dynamic_filters : list Filter) (fresh : nat) : Handle :=
  {| h_dynamic_filters := dynamic_filters;
     h_cache_key := None;
     h_cache_ineligible_reason := Some (default DynamicFilter (h_cache_ineligible_reason h));
     h_cache_capture := None;
     h_metrics := fresh; h_cache_probe := fresh; h_cells := fresh;
     h_dynamic_profile := h_dynamic_profile h;
     h_rest := h_rest h |}.
Definition with_dynamic_profile (h : Handle) (fresh : nat) : Handle :=
  {| h_dynamic_filters := h_dynamic_filters h;
     h_cache_key := h_cache_key h;
     h_cache_ineligible_reason := h_cache_ineligible_reason h;
     h_cache_capture := h_cache_capture h;
     h_metrics := h_metrics h; h_cache_probe := fresh; h_cells := h_cells h;
     h_dynamic_profile := Some fresh;
     h_rest := h_rest h |}.

(** *** Pushing filters down from above *)

Inductive FilterPushdownPhase := Pre | Post.
Inductive PushedDown := Yes | No.
(** A filter of a parent: a runtime filter, or any other predicate. *)
Inductive ParentFilter := Dynamic (f : Filter) | Other.

Definition known (filters : list Filter) (f : Filter) : bool :=
  existsb (fun existing => expression_id existing =? expression_id f) filters.
Definition link_filter (phase : FilterPushdownPhase) (acc : list Filter * list PushedDown) (parent : ParentFilter)
    : list Filter * list PushedDown :=
  let '(filters, results) := acc in
  match phase, parent with
  | Post, Dynamic f => (if known filters f then filters else filters ++ [f], results ++ [Yes])
  | _, _ => (filters, results ++ [No])
  end.
(** The answers to the parents, and the node that replaces this one if any. *)
Definition handle_child_pushdown_result (filter_pushdown : option bool) (phase : FilterPushdownPhase)
    (parents : list ParentFilter) (h : Handle) (fresh : nat) : list PushedDown * option Handle :=
  if bool_decide (filter_pushdown = Some false) then (map (fun _ => No) parents, None)
  else
    let '(filters, results) := fold_left (link_filter phase) parents (h_dynamic_filters h, []) in
    (results,
     if (length filters =? length (h_dynamic_filters h))%nat then None else Some (with_dynamic_filters h filters fresh)).

(** [apply_expressions]: the runtime filters are shown until one says stop. *)
Inductive TreeNodeRecursion := Continue | Stop.
Fixpoint apply_expressions {E} (f : Filter -> result TreeNodeRecursion + E) (filters : list Filter)
    : result TreeNodeRecursion + E :=
  match filters with
  | [] => inl (Ok Continue)
  | filter :: filters =>
      match f filter with
      | inl (Ok Stop) => inl (Ok Stop)
      | inl (Ok Continue) => apply_expressions f filters
      | other => other
      end
  end.

Definition replace_children {Child} (name : string) (children : list Child) (h : Handle) : result Handle :=
  match children with
  | [] => Ok h
  | _ => Err (Internal (name +:+ " expected no children, got " +:+ pretty (length children)))
  end.
Definition statistics_from_inputs {Value Schema} (unknown : Schema -> Statistics Value) (schema : Schema)
    (statistics : Statistics Value) (partition_statistics : list (Statistics Value)) (partition : option nat)
    : Statistics Value :=
  match partition with
  | Some partition => default (unknown schema) (partition_statistics !! partition)
  | None => statistics
  end.

(** *** How a node is changed on its way *)

Inductive change : Handle -> Handle -> Prop :=
  | change_order h fresh : change h (renewed h fresh)
  | change_profile h fresh : change h (with_dynamic_profile h fresh)
  | change_filters filter_pushdown phase parents h fresh h' :
      (handle_child_pushdown_result filter_pushdown phase parents h fresh).2 = Some h' -> change h h'.
Definition planned (h : Handle) : Prop := exists cache fresh rest, rtc change (new_handle cache fresh rest) h.

(** The node that stays after the parents were answered. *)
Definition remaining (h : Handle) (o : option Handle) : Handle := default h o.

Record node_ok (h : Handle) : Prop := {
  nk_uncached : h_dynamic_filters h <> [] ->
    h_cache_key h = None /\ h_cache_capture h = None /\ is_Some (h_cache_ineligible_reason h);
  nk_capture : is_Some (h_cache_capture h) <-> is_Some (h_cache_key h);
  nk_distinct : NoDup (map expression_id (h_dynamic_filters h));
}.

Lemma known_spec filters f : known filters f = true <-> expression_id f ∈ map expression_id filters.
Proof.
  unfold known. rewrite existsb_exists, list_elem_of_fmap. split.
  - intros (x & Hx & Heq%Z.eqb_eq). exists x. split; [done|]. by apply list_elem_of_In.
  - intros (x & Heq & Hx). exists x. split; [by apply list_elem_of_In|]. by apply Z.eqb_eq.
Qed.
(** What linking does: nothing is forgotten, filters stay distinct, and exactly
    the runtime filters of the last phase are taken. *)
Lemma link_all_spec phase parents : forall filters results,
  NoDup (map expression_id filters) ->
  let acc := fold_left (link_filter phase) parents (filters, results) in
  filters `prefix_of` acc.1 /\ NoDup (map expression_id acc.1) /\
  acc.2 = results ++ map (fun p => match phase, p with Post, Dynamic _ => Yes | _, _ => No end) parents /\
  (forall f, phase = Post -> Dynamic f ∈ parents -> expression_id f ∈ map expression_id acc.1).
Proof.
  induction parents as [|parent parents IH]; intros filters results Hnd; cbn.
  { split_and!; [done|done|by rewrite app_nil_r|]. intros f _ Hf. by apply elem_of_nil in Hf. }
  destruct phase, parent as [f|]; cbn.
  1,2,4: specialize (IH filters (results ++ [No]) Hnd) as (Hp & Hn & Hr & Hin); split_and!;
    [done|done|by rewrite Hr, <- app_assoc|intros g Hph [Heq|Hg]%elem_of_cons; [done|by apply Hin]].
  set (filters' := if known filters f then filters else filters ++ [f]).
  assert (Hpre : filters `prefix_of` filters') by (unfold filters'; destruct (known filters f); [done|by eexists]).
  assert (Hnd' : NoDup (map expression_id filters')).
  { unfold filters'. destruct (known filters f) eqn:Hk; [done|]. rewrite map_app. apply NoDup_app. split_and!; [done| |apply NoDup_singleton].
    intros x Hx ->%list_elem_of_singleton. apply known_spec in Hx. congruence. }
  assert (Hhere : expression_id f ∈ map expression_id filters').
  { unfold filters'. destruct (known filters f) eqn:Hk; [by apply known_spec|]. rewrite map_app. apply elem_of_app. right. by left. }
  specialize (IH filters' (results ++ [Yes]) Hnd') as (Hp & Hn & Hr & Hin).
  split_and!; [by etrans|done|by rewrite Hr, <- app_assoc|].
  intros g Hph [[= ->]|Hg]%elem_of_cons; [|by apply Hin]. destruct Hp as [more ->]. rewrite map_app. apply elem_of_app. by left.
Qed.

Lemma captured_with_key (key : option CacheKey) (fresh : nat) :
  is_Some (match key with Some _ => Some fresh | None => None end) <-> is_Some key.
Proof. destruct key; split; intros [? H]; done || by eexists. Qed.
Lemma change_ok h h' : change h h' -> node_ok h -> node_ok h'.
Proof.
  intros Hc [Hun Hcap Hnd]. destruct Hc as [h fresh|h fresh|fp phase parents h fresh h' Hh].
  - split; cbn; [|apply captured_with_key|done].
    intros Hne. destruct (Hun Hne) as (-> & _ & Hr). done.
  - by split.
  - unfold handle_child_pushdown_result in Hh. destruct (bool_decide _); [done|].
    pose proof (link_all_spec phase parents (h_dynamic_filters h) [] Hnd) as (_ & Hn & _).
    destruct (fold_left _ _ _) as [filters results]. cbn in *. destruct (_ =? _)%nat; [done|]. injection Hh as <-.
    split; cbn; [intros _; by split_and!|split; by intros [??]|done].
Qed.
Lemma planned_ok h : planned h -> node_ok h.
Proof.
  intros (cache & fresh & rest & Hs).
  assert (Hnew : node_ok (new_handle cache fresh rest)).
  { split; cbn; [done|apply captured_with_key|constructor]. }
  revert Hnew. generalize (new_handle cache fresh rest) Hs. clear Hs. intros h0 Hs.
  induction Hs as [|a b c Hc _ IH]; [done|]. intros Ha. by eapply IH, change_ok.
Qed.

(** A parent's filter is answered Yes only if it is a runtime filter that
    the node watches from then on, itself or in the node that replaces it; the
    answers are in the parents' order, one for each, and no filter the node
    watched before is lost. *)
Theorem answered_filters_watched filter_pushdown phase parents h fresh :
  planned h ->
  let '(results, node) := handle_child_pushdown_result filter_pushdown phase parents h fresh in
  let watched := map expression_id (h_dynamic_filters (default h node)) in
  length results = length parents /\
  (forall i, results !! i = Some Yes -> exists f, parents !! i = Some (Dynamic f) /\ phase = Post /\ expression_id f ∈ watched) /\
  map expression_id (h_dynamic_filters h) `prefix_of` watched /\ NoDup watched.
Proof.
  intros [_ _ Hnd]%planned_ok. unfold handle_child_pushdown_result. destruct (bool_decide _).
  { split_and!; [by rewrite length_map| |done|done]. intros i Hi. apply list_lookup_fmap_Some in Hi as (? & ? & ?). done. }
  pose proof (link_all_spec phase parents (h_dynamic_filters h) [] Hnd) as (Hp & Hn & Hr & Hin).
  destruct (fold_left _ _ _) as [filters results]. cbn [fst snd app] in *. cbv zeta.
  assert (Hw : h_dynamic_filters (default h (if (length filters =? length (h_dynamic_filters h))%nat then None
                                            else Some (with_dynamic_filters h filters fresh))) = filters).
  { destruct (Nat.eqb_spec (length filters) (length (h_dynamic_filters h))) as [He|]; [|done]. cbn.
    destruct Hp as [more ->]. rewrite length_app in He. destruct more; [by rewrite app_nil_r|cbn in He; lia]. }
  rewrite Hw, Hr. split_and!; [by rewrite length_map| |by destruct Hp as [more ->]; rewrite map_app; eexists|done].
  intros i Hi. apply list_lookup_fmap_Some in Hi as (p & Heq & Hi). destruct phase, p as [f|]; try done.
  exists f. split_and!; [done|done|]. apply Hin; [done|]. by eapply list_elem_of_lookup_2.
Qed.
End Node.

(** ** A scan with runtime filters and the result cache *)

Section Uncached.
Context {Filter Rest : Type}.
Variable expression_id : Filter -> Z.
Context {DataType Meta Column : Type} `{!EqDecision DataType, !EqDecision Meta}.
Context {Args Plan Hit : Type}.
Variable new_batch : @ScanShape.Schema DataType Meta -> list Column -> nat -> result (@RecordBatch DataType Meta Column).
Variables hit_etag hit_last_modified : Hit -> option string.

(** C10: a planned node that watches runtime filters neither reads nor fills the
    result cache: it has no cache key, no capture and a reason to report; every
    partition's stream, whatever it is answered, is its own job and nothing
    else, and that job tells no capture. *)
Theorem dynamic_scans_uncached (h : @Handle Filter Rest) (exec : @ScanExec DataType Meta Args Plan) j ineligible has_rpc_timeout tr st :
  planned expression_id h -> h_dynamic_filters h <> [] -> ex_cache_key exec = h_cache_key h ->
  runs (open_stream new_batch hit_etag hit_last_modified exec j ineligible has_rpc_timeout) tr (Some (Ok st)) ->
  h_cache_capture h = None /\ is_Some (h_cache_ineligible_reason h) /\ has_capture exec = false /\ st = job_only.
Proof.
  intros [Hun _ _]%planned_ok Hne Hkey Hrun. destruct (Hun Hne) as (Hk & Hc & Hr). rewrite Hk in Hkey.
  split_and!; [done|done|by unfold has_capture; rewrite Hkey|].
  apply opened in Hrun as (src & -> & Hd). by destruct Hd; try congruence.
Qed.
End Uncached.

(** ** Witnesses: a join offers two runtime filters, one of them twice *)

Module Join.
Definition handle : @Handle Z unit := new_handle (inr TwoSplits.key) 0 tt.
Definition parents : list (@ParentFilter Z) := [Dynamic 7; Other; Dynamic 9; Dynamic 7].
Definition answer := handle_child_pushdown_result id None Post parents handle 1.
Definition linked : @Handle Z unit := default handle answer.2.
Lemma handle_planned : planned id handle.
Proof. exists (inr TwoSplits.key), 0%nat, tt. constructor. Qed.
Lemma linked_planned : planned id linked.
Proof.
  exists (inr TwoSplits.key), 0%nat, tt. apply rtc_once. apply (change_filters id None Post parents _ 1). reflexivity.
Qed.
Definition exec : @ScanExec unit unit unit unit :=
  mkExec TwoSplits.request tt [] [] Counting.schema Counting.schema None None (h_cache_key linked) false false.
Definition polled : option (result (@Polled unit unit (list nat) unit)) :=
  (interp (fun _ : list Readers.Event => Readers.cell None Stored) []
     (open_stream Counting.new_batch (fun _ : unit => None) (fun _ => None) exec 0 (h_cache_ineligible_reason linked) true)).2.
End Join.

Lemma answered_filters_watched_witness :
  Join.answer.1 = [Yes; No; Yes; Yes] /\ length Join.answer.1 = 4%nat /\
  NoDup (h_dynamic_filters Join.linked) /\ h_dynamic_filters Join.linked = [7; 9].
Proof.
  pose proof (answered_filters_watched id None Post Join.parents Join.handle 1 Join.handle_planned) as (Hl & _ & _ & Hn).
  split; [reflexivity|]. split; [exact Hl|]. split; [exact Hn|reflexivity].
Defined.

Lemma dynamic_scans_uncached_witness :
  h_cache_key Join.handle = Some TwoSplits.key /\ has_capture Join.exec = false /\
  Join.polled = Some (Ok job_only).
Proof.
  split; [reflexivity|].
  destruct (dynamic_scans_uncached id Counting.new_batch (fun _ : unit => None) (fun _ => None) Join.linked Join.exec 0
    (h_cache_ineligible_reason Join.linked) true _ job_only Join.linked_planned ltac:(discriminate) eq_refl
    (interp_runs (fun _ : list Readers.Event => Readers.cell None Stored) []
       (open_stream Counting.new_batch (fun _ : unit => None) (fun _ => None) Join.exec 0 (h_cache_ineligible_reason Join.linked) true)))
    as (_ & _ & Hc & _).
  split; [exact Hc|reflexivity].
Defined.

(** * What a scan node reports

    The observation that reports once per query however many partitions run,
    the lookups in the durable tier, the log messages of workers, and the text
    EXPLAIN shows of a scan. *)

From Stdlib Require Import Strings.Ascii.

(** ** [ExecutionObservation] *)

(** Task contexts by identity; [alive] says which are still held by someone. A
    cell is set by the first partition that reports. *)
Record ExecutionObservationEntry := mkObservation { ob_context : nat; ob_emitted : nat }.
Definition ExecutionObservation : Type := list ExecutionObservationEntry.
Definition for_context (alive : nat -> bool) (context fresh : nat) (active : ExecutionObservation)
    : nat * ExecutionObservation :=
  let active := filter (fun entry => alive (ob_context entry) = true) active in
  match list_find (fun entry => ob_context entry = context) active with
  | Some (_, entry) => (ob_emitted entry, active)
  | None => (fresh, active ++ [mkObservation context fresh])
  end.

(** A partition of a query observes: [cache_observation.set(()).is_ok()]. *)
Record Observations := mkObservations { obs_active : ExecutionObservation; obs_set : list nat; obs_fresh : nat }.
Definition no_observations : Observations := mkObservations [] [] 0.
Definition observe (alive : nat -> bool) (context : nat) (s : Observations) : bool * Observations :=
  let '(cell, active) := for_context alive context (obs_fresh s) (obs_active s) in
  (negb (bool_decide (cell ∈ obs_set s)),
   mkObservations active (if bool_decide (cell ∈ obs_set s) then obs_set s else obs_set s ++ [cell]) (S (obs_fresh s))).
Fixpoint observe_all (es : list ((nat -> bool) * nat)) (s : Observations) : list bool :=
  match es with
  | [] => []
  | (alive, context) :: es => let '(b, s) := observe alive context s in b :: observe_all es s
  end.

(** Observers hold their contexts; a context that is gone does not come back. *)
Definition observers_hold (es : list ((nat -> bool) * nat)) : Prop :=
  forall i j k e e' e'', (i <= j <= k)%nat -> es !! i = Some e -> es !! j = Some e' -> es !! k = Some e'' ->
    e.2 = e''.2 -> e'.1 e.2 = true.

Lemma holds_alive es i j k e e' e'' c :
  observers_hold es -> (i <= j <= k)%nat -> es !! i = Some e -> es !! j = Some e' -> es !! k = Some e'' ->
  e.2 = c -> e''.2 = c -> e'.1 c = true.
Proof. intros Hh Hle He He' He'' <- Hc. by apply (Hh i j k e e' e''). Qed.

Record observed (past : list nat) (s : Observations) : Prop := {
  od_distinct : NoDup (map ob_context (obs_active s));
  od_cells : NoDup (map ob_emitted (obs_active s));
  od_fresh : Forall (fun c => (c < obs_fresh s)%nat) (map ob_emitted (obs_active s) ++ obs_set s);
  (** a context that is listed has reported *)
  od_set : Forall (fun e => ob_emitted e ∈ obs_set s /\ ob_context e ∈ past) (obs_active s);
}.
Lemma filter_fmap_NoDup {A B} (f : A -> B) (P : A -> Prop) `{!forall x, Decision (P x)} l :
  NoDup (map f l) -> NoDup (map f (filter P l)).
Proof.
  induction l as [|a l IH]; [done|]. rewrite map_cons, NoDup_cons, filter_cons. intros [Ha Hl]. destruct (decide (P a)); [|by apply IH].
  rewrite map_cons, NoDup_cons. split; [|by apply IH]. intros Hin. apply Ha.
  apply list_elem_of_fmap in Hin as (x & -> & Hx). apply list_elem_of_filter in Hx as [_ Hx]. apply list_elem_of_fmap. by exists x.
Qed.
Lemma filter_fmap_sub {A B} (f : A -> B) (P : A -> Prop) `{!forall x, Decision (P x)} l y :
  y ∈ map f (filter P l) -> y ∈ map f l.
Proof.
  intros (x & -> & Hx)%list_elem_of_fmap. apply list_elem_of_filter in Hx as [_ Hx]. apply list_elem_of_fmap. by exists x.
Qed.

(** The contexts that are listed after an observation: those that were and are
    alive, and the observer's. *)
Lemma observe_spec alive context past s :
  observed past s ->
  let '(b, s') := observe alive context s in
  observed (context :: past) s' /\
  (b = true <-> ~ exists e, e ∈ obs_active s /\ ob_context e = context /\ alive context = true) /\
  forall e, e ∈ obs_active s' <-> (e ∈ obs_active s /\ alive (ob_context e) = true) \/
    (e = mkObservation context (obs_fresh s) /\ ~ exists e, e ∈ obs_active s /\ ob_context e = context /\ alive context = true).
Proof.
  intros [Hd Hc Hf Hs]. unfold observe, for_context.
  set (kept := filter (fun entry => alive (ob_context entry) = true) (obs_active s)).
  assert (Hkept : forall e, e ∈ kept <-> e ∈ obs_active s /\ alive (ob_context e) = true).
  { intros e. unfold kept. rewrite list_elem_of_filter. tauto. }
  assert (Hkd : NoDup (map ob_context kept)) by by apply filter_fmap_NoDup.
  assert (Hkc : NoDup (map ob_emitted kept)) by by apply filter_fmap_NoDup.
  destruct (list_find _ kept) as [[i e]|] eqn:Hfind.
  - apply list_find_Some in Hfind as (He & Hctx & _). apply list_elem_of_lookup_2 in He as Hin. apply Hkept in Hin as [Hact Hal].
    rewrite Forall_forall in Hs. destruct (Hs _ Hact) as [Hset _].
    rewrite (bool_decide_eq_true_2 (ob_emitted e ∈ obs_set s)) by done. cbn [negb].
    assert (Hex : exists e, e ∈ obs_active s /\ ob_context e = context /\ alive context = true)
      by (exists e; rewrite <- Hctx; done).
    split; [|split; [by split; [|intros []]|]].
    + split; cbn; [done|done| |].
      * apply Forall_forall. intros c Hin. rewrite Forall_forall in Hf. specialize (Hf c). revert Hf. rewrite elem_of_app in *.
        intros Hf. destruct Hin as [Hin|Hin]; [apply filter_fmap_sub in Hin|]; specialize (Hf ltac:(tauto)); lia.
      * apply Forall_forall. intros x [Hx _]%Hkept. destruct (Hs _ Hx). split; [done|by right].
    + intros x. cbn. rewrite Hkept. tauto.
  - assert (Hno : ~ exists e, e ∈ obs_active s /\ ob_context e = context /\ alive context = true).
    { intros (e & Hin & Hctx & Hal). apply list_find_None in Hfind. rewrite Forall_forall in Hfind. apply (Hfind e); [|done].
      apply Hkept. by rewrite Hctx. }
    assert (Hnew : obs_fresh s ∉ obs_set s).
    { intros Hin. rewrite Forall_forall in Hf. specialize (Hf (obs_fresh s) ltac:(apply elem_of_app; by right)). lia. }
    rewrite (bool_decide_eq_false_2 (obs_fresh s ∈ obs_set s)) by done. cbn [negb].
    split; [|split; [done|]].
    + split; cbn [obs_active obs_set obs_fresh].
      * rewrite map_app. apply NoDup_app. split_and!; [done| |apply NoDup_singleton].
        intros c Hin ->%list_elem_of_singleton. apply list_elem_of_fmap in Hin as (e & Hctx & Hin). apply Hno.
        apply Hkept in Hin as [? ?]. exists e. cbn in Hctx. by rewrite Hctx.
      * rewrite map_app. apply NoDup_app. split_and!; [done| |apply NoDup_singleton].
        intros c Hin ->%list_elem_of_singleton. apply filter_fmap_sub in Hin. rewrite Forall_forall in Hf.
        specialize (Hf (obs_fresh s) ltac:(apply elem_of_app; by left)). lia.
      * apply Forall_forall. intros c. rewrite map_app, !elem_of_app. intros [[Hin|Hin]|[Hin|Hin]].
        -- apply filter_fmap_sub in Hin. rewrite Forall_forall in Hf. specialize (Hf c ltac:(apply elem_of_app; by left)). lia.
        -- apply list_elem_of_singleton in Hin as ->. cbn. lia.
        -- rewrite Forall_forall in Hf. specialize (Hf c ltac:(apply elem_of_app; by right)). lia.
        -- apply list_elem_of_singleton in Hin as ->. lia.
      * apply Forall_forall. intros x [Hx|Hx]%elem_of_app.
        -- apply Hkept in Hx as [Hx _]. rewrite Forall_forall in Hs. destruct (Hs _ Hx).
           split; [apply elem_of_app; by left|by right].
        -- apply list_elem_of_singleton in Hx as ->. cbn. split; [apply elem_of_app; right; by left|by left].
    + intros x. cbn [obs_active]. rewrite elem_of_app, list_elem_of_singleton, Hkept. tauto.
Qed.

Definition listed (context : nat) (s : Observations) : Prop := exists e, e ∈ obs_active s /\ ob_context e = context.
(** Between two observations of a query its context stays listed. *)
Lemma observe_all_spec es : forall before s i alive context b,
  observers_hold (before ++ es) -> observed (map snd before) s ->
  (forall c, c ∈ map snd before -> c ∈ map snd es -> listed c s) ->
  es !! i = Some (alive, context) -> observe_all es s !! i = Some b ->
  (b = true <-> context ∉ map snd before ++ map snd (take i es)).
Proof.
  induction es as [|[alive0 c0] es IH]; intros before s i alive context b Hhold Hok Hlist Hi Hb; [done|].
  cbn [observe_all] in Hb. pose proof (observe_spec alive0 c0 (map snd before) s Hok) as Hspec.
  destruct (observe alive0 c0 s) as [b0 s']. destruct Hspec as (Hok' & Hb0 & Hact).
  assert (Hhead : (before ++ (alive0, c0) :: es) !! length before = Some (alive0, c0)) by (rewrite list_lookup_middle; done).
  assert (Halive : forall c k e, (before ++ (alive0, c0) :: es) !! k = Some e -> e.2 = c -> (length before <= k)%nat ->
    c ∈ map snd before \/ c = c0 -> alive0 c = true).
  { intros c k e Hk Hec Hle [Hc|Hc].
    - apply list_elem_of_fmap in Hc as (e' & Heq & Hin). apply list_elem_of_lookup in Hin as [i' Hi'].
      assert (i' < length before)%nat by (by eapply lookup_lt_Some).
      apply (holds_alive _ i' (length before) k e' (alive0, c0) e c Hhold); [lia| |done..].
      by rewrite lookup_app_l.
    - rewrite Hc. by apply (holds_alive _ (length before) (length before) (length before) _ _ _ c0 Hhold ltac:(lia) Hhead Hhead Hhead). }
  destruct i as [|i].
  - injection Hi as -> ->. injection Hb as ->. cbn [take map]. rewrite app_nil_r, Hb0. split.
    + intros Hno Hin. apply Hno. destruct (Hlist context Hin) as (e & He & Hc); [by left|]. exists e. split; [done|]. split; [done|].
      eapply Halive; [exact Hhead|done|lia|by right].
    + intros Hno (e & He & Hc & _). apply Hno. destruct Hok as [_ _ _ Hs]. rewrite Forall_forall in Hs.
      destruct (Hs _ He) as [_ Hpast]. by rewrite <- Hc.
  - cbn in Hi, Hb. rewrite (IH (before ++ [(alive0, c0)]) s' i alive context b); [|..|exact Hi|exact Hb].
    + rewrite map_app. cbn [take map]. by rewrite <- app_assoc.
    + by rewrite <- app_assoc.
    + destruct Hok' as [Hd Hc Hf Hs]. split; [done..|]. eapply Forall_impl; [exact Hs|]. intros e [He Hin]. split; [done|].
      rewrite map_app. apply elem_of_app. apply elem_of_cons in Hin as [->|Hin]; [right; by left|by left].
    + intros c Hc Hin. rewrite map_app in Hc. cbn in Hc.
      assert (Hlater : exists k e, (before ++ (alive0, c0) :: es) !! k = Some e /\ e.2 = c /\ (length before <= k)%nat).
      { apply list_elem_of_fmap in Hin as (e & -> & Hin). apply list_elem_of_lookup in Hin as [k Hk].
        exists (length before + S k)%nat, e. split; [|split; [done|lia]]. rewrite lookup_app_r by lia.
        by replace (length before + S k - length before)%nat with (S k) by lia. }
      destruct Hlater as (k & e & Hk & He & Hle).
      assert (Hal : alive0 c = true).
      { eapply Halive; [exact Hk|exact He|exact Hle|]. apply elem_of_app in Hc as [Hc|Hc]; [by left|right; by apply list_elem_of_singleton in Hc]. }
      destruct (decide (c = c0)) as [->|Hne].
      * destruct (decide (b0 = true)) as [Hnew|Hold].
        -- exists (mkObservation c0 (obs_fresh s)). split; [|done]. apply Hact. right. split; [done|]. by apply Hb0.
        -- assert (Hex : ~ ~ exists e, e ∈ obs_active s /\ ob_context e = c0 /\ alive0 c0 = true) by (intros H; apply Hold; by apply Hb0).
           destruct (list_find (fun e => ob_context e = c0) (obs_active s)) as [[k' e']|] eqn:Hf.
           ++ apply list_find_Some in Hf as (Hl & Hctx & _). exists e'. split; [|done]. apply Hact. left.
              split; [by eapply list_elem_of_lookup_2|by rewrite Hctx].
           ++ exfalso. apply Hex. intros (x & Hx & Hctx & _). apply list_find_None in Hf. rewrite Forall_forall in Hf. by apply (Hf x).
      * destruct (Hlist c) as (x & Hx & Hctx).
        { apply elem_of_app in Hc as [Hc|Hc]; [done|]. by apply list_elem_of_singleton in Hc. }
        { by right. }
        exists x. split; [|done]. apply Hact. left. by rewrite Hctx.
Qed.

(** A query's cache diagnostic is reported exactly once, by the first of
    its partitions that observes: each observation succeeds just when its task
    context has not observed before, whatever other queries share the node. *)
Theorem observed_once es i alive context b :
  observers_hold es -> es !! i = Some (alive, context) -> observe_all es no_observations !! i = Some b ->
  (b = true <-> context ∉ map snd (take i es)).
Proof.
  intros Hhold. apply (observe_all_spec es [] no_observations); [done| |].
  - split; constructor.
  - intros c Hc. by apply elem_of_nil in Hc.
Qed.

(** Query 1 runs two partitions while query 2 starts; then it is gone and query
    3 comes. *)
Definition shared_node : list ((nat -> bool) * nat) :=
  [(fun c => (c <=? 1)%nat, 1); (fun c => (c <=? 2)%nat, 2); (fun c => (c <=? 2)%nat, 1); (fun c => (1 <? c)%nat, 2);
   (fun c => (1 <? c)%nat, 3)]%nat.
Lemma observed_once_witness :
  observe_all shared_node no_observations = [true; true; false; false; true] /\
  (false = true <-> 1%nat ∉ map snd (take 2 shared_node)).
Proof.
  split; [vm_compute; reflexivity|]. eapply (observed_once shared_node 2); [|reflexivity|vm_compute; reflexivity].
  intros i j k e e' e'' Hle He He' He'' Hq.
  assert (k < 5)%nat by (by apply lookup_lt_Some in He'').
  destruct k as [|[|[|[|[|k]]]]]; [..|lia]; destruct j as [|[|[|[|[|j]]]]]; try lia; destruct i as [|[|[|[|[|i]]]]]; try lia;
    cbn in He, He', He''; simplify_eq/=; done.
Defined.

(** ** Lookups in the durable tier *)

Section Lookups.
Context {Plan Branches Schema Hit : Type}.
Abbreviation VgiRuntime := (@VgiRuntime Plan Branches).
(** [DurableResultCache::lookup_expected_schema] and
    [lookup_for_revalidation_expected_schema], with the text of an error. *)
Record DurableResultCache := mkDurable {
  lookup_expected_schema : CacheKey -> Schema -> option Hit + string;
  lookup_for_revalidation_expected_schema : CacheKey -> Schema -> option Hit + string;
}.
Variable durable_result_cache : VgiRuntime -> option DurableResultCache.
(** The clock an event is stamped with. *)
Variable now : Z.

Definition disk_error (function : option (string * string)) (message : string) : VgiEvent :=
  mkEvent now "cache.disk_error" (fst <$> function) (snd <$> function) None None (Some message).
Definition durable_cache_lookup (runtime : VgiRuntime) (key : CacheKey) (expected_schema : Schema)
    : option Hit * VgiRuntime :=
  match durable_result_cache runtime with
  | None => (None, runtime)
  | Some cache =>
      match lookup_expected_schema cache key expected_schema with
      | inl (Some hit) => (Some hit, runtime)
      | inl None => (None, runtime)
      | inr error =>
          (None, Runtime.emit runtime (disk_error (Some (ck_catalog key, ck_function key)) ("durable lookup failed: " +:+ error)))
      end
  end.
Definition durable_cache_revalidation_lookup (runtime : VgiRuntime) (key : CacheKey) (expected_schema : Schema)
    : option Hit * VgiRuntime :=
  match durable_result_cache runtime with
  | None => (None, runtime)
  | Some cache =>
      match lookup_for_revalidation_expected_schema cache key expected_schema with
      | inl (Some hit) => (Some hit, runtime)
      | inl None => (None, runtime)
      | inr error =>
          (None, Runtime.emit runtime
                   (disk_error (Some (ck_catalog key, ck_function key)) ("durable revalidation lookup failed: " +:+ error)))
      end
  end.
(** On a blocking thread, whose failure to run [join] tells. *)
Definition durable_cache_lookup_async (join : option string) (runtime : VgiRuntime) (key : CacheKey)
    (expected_schema : Schema) : option Hit * VgiRuntime :=
  match join with
  | None => durable_cache_lookup runtime key expected_schema
  | Some error => (None, Runtime.emit runtime (disk_error None ("durable lookup task failed: " +:+ error)))
  end.
Definition durable_cache_revalidation_lookup_async (join : option string) (runtime : VgiRuntime) (key : CacheKey)
    (expected_schema : Schema) : option Hit * VgiRuntime :=
  match join with
  | None => durable_cache_revalidation_lookup runtime key expected_schema
  | Some error => (None, Runtime.emit runtime (disk_error None ("durable revalidation lookup task failed: " +:+ error)))
  end.
End Lookups.

(** ** Worker logs *)

Inductive WorkerLogLevel := LTrace | LDebug | LInfo | LWarn | LError | LException.
(** [vgi_client::WorkerLogMessage]; [extras_json] is given with its emptiness. *)
Record WorkerLogMessage := mkLogMessage { lm_level : WorkerLogLevel; lm_message : string; lm_extras : option string }.
Definition worker_log_event_kind (level : WorkerLogLevel) : string :=
  match level with
  | LTrace => "worker.log.trace"
  | LDebug => "worker.log.debug"
  | LInfo => "worker.log.info"
  | LWarn => "worker.log.warn"
  | LError | LException => "worker.log.error"
  end.
Definition format_worker_log_message (message : WorkerLogMessage) : string :=
  match lm_extras message with
  | None => lm_message message
  | Some extras_json => lm_message message +:+ " " +:+ extras_json
  end.
Definition worker_log_event (now : Z) (message : WorkerLogMessage) : VgiEvent :=
  mkEvent now (worker_log_event_kind (lm_level message)) None None None None (Some (format_worker_log_message message)).
(** The sink holds the session's runtime weakly: [None] once it is gone. *)
Definition worker_log_sink {Plan Branches} (now : Z) (runtime : option (@VgiRuntime Plan Branches)) (message : WorkerLogMessage)
    : option (@VgiRuntime Plan Branches) :=
  (fun runtime => Runtime.emit runtime (worker_log_event now message)) <$> runtime.

(** ** The text of a scan in EXPLAIN *)

(** What [fmt_as] reads of a node; a percentage as Rust prints it. *)
Record ScanText := mkScanText {
  st_label : string; st_schema_name : string; st_function : string;
  st_projection : option (list Z); st_limit : option Z;
  st_sample : option (string * option Z);
  st_order_by : option (string * option Z);
  st_dynamic_filters : nat; st_dynamic_profile : option DynamicProfile;
}.
Definition shown_value (partition_count : nat) (value : DynamicProfileValue) : string :=
  if (1 <? partition_count)%nat
  then ", partition_" +:+ pretty (pv_partition value) +:+ "." +:+ utf8 (pv_key value) +:+ ": " +:+ utf8 (pv_value value)
  else ", " +:+ utf8 (pv_key value) +:+ ": " +:+ utf8 (pv_value value).
Definition shown_profile (t : ScanText) (profile : DynamicProfile) : string :=
  let snapshot := snapshot profile in
  ", Worker: " +:+ st_label t +:+ ", Function: " +:+ st_function t +:+
  (if (0 <? sn_batches snapshot)%Z
   then ", Batches: " +:+ pretty (sn_batches snapshot) +:+ " (rows: min " +:+ pretty (default 0%Z (sn_min_rows snapshot)) +:+
        ", max " +:+ pretty (default 0%Z (sn_max_rows snapshot)) +:+ ", total " +:+ pretty (sn_rows snapshot) +:+ ")" +:+
        ", Batch Bytes: min " +:+ pretty (default 0%Z (sn_min_bytes snapshot)) +:+ ", max " +:+
        pretty (default 0%Z (sn_max_bytes snapshot)) +:+ ", total " +:+ pretty (sn_bytes snapshot)
   else "") +:+
  String.concat "" (map (shown_value (sn_partition_count snapshot)) (sn_values snapshot)).
Definition fmt_as (t : ScanText) : string :=
  "VgiScanExec: worker=" +:+ st_label t +:+ ", function=" +:+ st_schema_name t +:+ "." +:+ st_function t +:+
  (match st_projection t with Some _ => ", projected" | None => "" end) +:+
  (match st_limit t with Some l => ", limit=" +:+ pretty l | None => "" end) +:+
  (match st_sample t with
   | Some (percentage, seed) =>
       ", sample=" +:+ percentage +:+ " percent" +:+
       match seed with Some seed => ", sample_seed=" +:+ pretty seed | None => "" end
   | None => ""
   end) +:+
  (match st_order_by t with
   | Some (column, limit) =>
       ", order_by=" +:+ column +:+ match limit with Some limit => ", top_n=" +:+ pretty limit | None => "" end
   | None => ""
   end) +:+
  (if (st_dynamic_filters t =? 0)%nat then "" else ", dynamic_filters=" +:+ pretty (st_dynamic_filters t)) +:+
  (match st_dynamic_profile t with Some profile => shown_profile t profile | None => "" end).
