(* ===== verification/TableBind.v ===== *)
(** * Binding a table function (src/src/lib.rs)

    How a remote function becomes a table provider: the bind and its one retry
    with secrets the host resolved, the schema a catalog table's function is
    searched in, and what the provider keeps of the call it was bound with. The
    worker and the host's secret resolver answer calls (Interact.v). *)

From S2P Require Import Prelude Text Arrow Identity Settings Runtime Protocol3 Connections ScanShape ScanStats CatalogDiscovery Interact ScanRun.
From Stdlib Require Import Strings.Ascii.

#[local] Open Scope Z_scope.

Section Bind.
Context {Meta : Type} `{!EqDecision Meta}.
Context {Text Bytes : Type} `{AK : !ArrowKernel Text Bytes} `{SK : !SettingKernel Text}.
Context {Args Bound Raw Value : Type} `{!EqDecision Value}.

Abbreviation bytes := (list ascii).
Abbreviation Schema := (@ScanShape.Schema DataType Meta).
Abbreviation BindSpec := (@BindSpec Args).
Abbreviation Stats := (Statistics Value).
Abbreviation StatBatch := (@StatBatch Value).
Abbreviation SecretLookupRequest := CatalogDiscovery.SecretLookupRequest.

(** ** Secrets *)

(** [VgiResolvedSecret]; the fields in the order of their names. *)
Record VgiResolvedSecret := mkResolved { rs_name : string; rs_fields : list (string * ScalarValue) }.

(** [StructArray::new], which panics on columns that do not fit the fields. *)
Variable struct_array : list Arrow.Field -> list (ArrayRef Text) -> result (ArrayRef Text).

Definition secret_field (e : string * ScalarValue) : result (Arrow.Field * ArrayRef Text) :=
  array ← to_array_of_size_1 e.2;
  Ok (Arrow.mkField e.1 (Arrow.data_type e.2) (is_null e.2) [], array).
Definition secret_column (secret : VgiResolvedSecret) : result (Arrow.Field * ArrayRef Text) :=
  inner ← result_collect secret_field (rs_fields secret);
  array ← struct_array (map fst inner) (map snd inner);
  Ok (Arrow.mkField (rs_name secret) (Struct (map fst inner)) false [], array).
Fixpoint secret_columns (names : gset string) (resolved : list VgiResolvedSecret)
    : result (list (Arrow.Field * ArrayRef Text)) :=
  match resolved with
  | [] => Ok []
  | secret :: resolved =>
      if String.eqb (rs_name secret) "" || bool_decide (rs_name secret ∈ names)
      then Err (Plan "VGI secret resolver returned an empty or duplicate secret name")
      else
        column ← secret_column secret;
        columns ← secret_columns ({[rs_name secret]} ∪ names) resolved;
        Ok (column :: columns)
  end.
Definition secret_batch (resolved : list VgiResolvedSecret) : result Bytes :=
  columns ← secret_columns ∅ resolved;
  batch ← try_new (map fst columns) [] (map snd columns);
  ipc_write batch.

(** ** Calls *)

(** What an attach answers: the catalog's version, its default schema and its
    setting declarations ([decode_setting_specs]). *)
Record AttachedCatalog := mkAttached {
  at_catalog_version : Z; at_default_schema : option string; at_settings : result (list SettingSpec);
}.
(** [TableInfo] and [ScanFunctionResult] as far as binding reads them. *)
Record TableInfo := mkTable {
  ti_constraints : list Raw; ti_schema_path : list string;
  ti_cardinality_estimate : option Z; ti_cardinality_max : option Z;
}.
Record ScanFunction := mkScanFunction {
  sf_function_name : string; sf_arguments : bytes; sf_schema_path : option (list string);
}.
Abbreviation At := (string * string)%type.

Inductive Call :=
  | Connect | Attach (catalog : string)
  | TableScanFunction (info : TableInfo) (at_ : option At)
  | CallBind (spec : BindSpec) (settings : option Bytes) (input : option Schema)
  | CallBindResolved (spec : BindSpec) (settings : option Bytes) (input : option Schema) (secrets : Bytes)
  | Functions (schema : string)
  | TableFunctionStatistics (bound : Bound) | Emit (event : VgiEvent)
  (** the host: the resolver's thread, and the resolver, which may panic *)
  | SpawnResolver
  | Resolve (request : SecretLookupRequest).
Definition Resp (c : Call) : Type :=
  match c with
  | Connect => result unit
  | Attach _ => result AttachedCatalog
  | TableScanFunction _ _ => ScanFunction + RpcError
  | CallBind _ _ _ | CallBindResolved _ _ _ _ => Bound + RpcError
  | Functions _ => list Connections.FunctionInfo + RpcError
  | TableFunctionStatistics _ => StatBatch + RpcError
  | Emit _ => unit
  | SpawnResolver => result unit
  | Resolve _ => option (result (option VgiResolvedSecret))
  end.

(** Programs that fail. *)
Definition planner (A : Type) : Type := prog Resp (result A).
Definition done_ {A} (a : A) : planner A := Ret (Ok a).
Definition try_ {A} (r : result A) : planner A := Ret r.
Definition then_ {A B} (m : planner A) (f : A -> planner B) : planner B :=
  prog_bind m (fun r => match r with Ok a => f a | Err e => Ret (Err e) end).
Definition ask {A} (c : Call) (to_result : Resp c -> result A) : planner A := Vis c (fun r => Ret (to_result r)).
Definition rpc {A} (answer : A + RpcError) : result A :=
  match answer with inl a => Ok a | inr e => Err (to_df e) end.

Declare Scope planner_scope.
Delimit Scope planner_scope with planner.
Notation "x <~ m ;; k" := (then_ m (fun x => k)) (at level 100, m at next level, right associativity) : planner_scope.
Local Open Scope planner_scope.

(** The session of the connection: its resolver and its settings. *)
Variable secret_resolver : bool.
Variable session_settings : VgiSettings.
(** What a bound function says. *)
Variable output_schema : Bound -> Schema.
Variable required_secrets : Bound -> list SecretLookupRequest.
Variable required_secret_types : Bound -> list string.

(** [VgiConnection::settings_for] *)
Definition settings_for (attached : AttachedCatalog) : result (option Bytes) :=
  declarations ← at_settings attached;
  encode_settings session_settings declarations.

(** ** Resolving *)

Definition no_secret (request : SecretLookupRequest) : DFError :=
  Plan ("no host secret matched VGI type `" +:+ secret_type request +:+ "`" +:+
        match secret_scope request with Some scope => ", scope `" +:+ scope +:+ "`" | None => "" end +:+
        match secret_name request with Some name => ", name `" +:+ name +:+ "`" | None => "" end).
Definition resolved_one (request : SecretLookupRequest) (answer : option (result (option VgiResolvedSecret)))
    : result VgiResolvedSecret :=
  match answer with
  | None => Err (Execution "VGI secret resolver thread panicked")
  | Some answer => secret ← answer; ok_or (no_secret request) secret
  end.
Fixpoint resolve_all (requests : list SecretLookupRequest) : planner (list VgiResolvedSecret) :=
  match requests with
  | [] => done_ []
  | request :: requests =>
      secret <~ ask (Resolve request) (resolved_one request) ;;
      out <~ resolve_all requests ;;
      done_ (secret :: out)
  end.
Definition resolve_secret_batch (requests : list SecretLookupRequest) : planner Bytes :=
  if negb secret_resolver
  then try_ (Err (Plan ("VGI worker requested " +:+ pretty (length requests) +:+
                        " secret(s), but this session has no VgiSecretResolver")))
  else
    _ <~ ask SpawnResolver id ;;
    resolved <~ resolve_all requests ;;
    try_ (secret_batch resolved).

(** ** The bind *)

Definition declared_secret_dependency (request_count : nat) : bool := negb (request_count =? 0)%nat.
(** The two forms below differ in the input schema only. [settings] are the
    spec's own. *)
Definition bind_retry (attached : AttachedCatalog) (spec : BindSpec) (settings : option Bytes) (input : option Schema)
    : planner (Bound * bool) :=
  settings <~ match settings with Some _ => done_ settings | None => try_ (settings_for attached) end ;;
  first <~ ask (CallBind spec settings input) rpc ;;
  let requests := required_secrets first in
  if negb (declared_secret_dependency (length requests)) then done_ (first, false)
  else
    secrets <~ resolve_secret_batch requests ;;
    second <~ ask (CallBindResolved spec settings input secrets) rpc ;;
    match required_secret_types second with
    | [] => done_ (second, true)
    | _ => try_ (Err (Execution "VGI worker requested secrets twice; only one resolved retry is allowed"))
    end.
Definition bind_with_secrets_dependency (attached : AttachedCatalog) (spec : BindSpec) (settings : option Bytes)
    : planner (Bound * bool) := bind_retry attached spec settings None.
Definition bind_with_input_secrets_dependency (attached : AttachedCatalog) (spec : BindSpec) (settings : option Bytes)
    (input_schema : Schema) : planner (Bound * bool) := bind_retry attached spec settings (Some input_schema).
Definition bind_with_secrets (attached : AttachedCatalog) (spec : BindSpec) (settings : option Bytes) : planner Bound :=
  r <~ bind_with_secrets_dependency attached spec settings ;; done_ r.1.
Definition bind_with_input_secrets (attached : AttachedCatalog) (spec : BindSpec) (settings : option Bytes)
    (input_schema : Schema) : planner Bound :=
  r <~ bind_with_input_secrets_dependency attached spec settings input_schema ;; done_ r.1.

(** [run_blocking_planner_call]: a bind on a thread of its own; [None] is a
    panic there. *)
Definition run_blocking_planner_call {T} (spawned : result unit) (work : option (result T)) : result T :=
  _ ← spawned;
  match work with Some result => result | None => Err (Execution "VGI planner RPC thread panicked") end.

(** ** Providers *)

(** [VgiTableProvider] without its connection; [function_statistics] is a cell
    that is filled once. *)
Record VgiTableProvider := mkProvider {
  vp_catalog : string; vp_schema_name : string; vp_function : string;
  vp_arguments : Args; vp_raw_arguments : option bytes;
  vp_statistics_bind : Bound; vp_function_statistics : option (option Stats);
  vp_output_schema : Schema;
  vp_projection_pushdown : bool; vp_filter_pushdown : option bool; vp_supports_splits : option bool;
  vp_sampling_pushdown : bool; vp_sample : option Sample; vp_filters_exactly_applied : bool;
  vp_cardinality_estimate : option Z; vp_cardinality_max : option Z;
  vp_catalog_version : Z; vp_secret_dependent : bool;
  vp_at : option At; vp_order_by : option OrderBy; vp_constraints : option (list Constraint);
  vp_column_mapping : Mapping; vp_max_workers : nat;
}.
(** A provider as the entry points below build it. *)
Definition bound_provider (catalog schema_name function : string) (arguments : Args) (bound : Bound)
    (capabilities : FunctionCapabilities) (cardinality_estimate cardinality_max : option Z) (catalog_version : Z)
    (secret_dependent : bool) (at_ : option At) (constraints : option (list Constraint)) (max_workers : nat)
    : VgiTableProvider :=
  {| vp_catalog := catalog; vp_schema_name := schema_name; vp_function := function;
     vp_arguments := arguments; vp_raw_arguments := None;
     vp_statistics_bind := bound; vp_function_statistics := None;
     vp_output_schema := output_schema bound;
     vp_projection_pushdown := projection_pushdown capabilities;
     vp_filter_pushdown := filter_pushdown capabilities;
     vp_supports_splits := supports_splits capabilities;
     vp_sampling_pushdown := sampling_pushdown capabilities; vp_sample := None;
     vp_filters_exactly_applied := filters_exactly_applied capabilities;
     vp_cardinality_estimate := cardinality_estimate; vp_cardinality_max := cardinality_max;
     vp_catalog_version := catalog_version; vp_secret_dependent := secret_dependent;
     vp_at := at_; vp_order_by := None; vp_constraints := constraints;
     vp_column_mapping := None; vp_max_workers := max_workers |}.

(** [BindSpec::table(function).in_schema(schema).with_arguments(arguments)] *)
Definition table_spec (function schema : string) (arguments : Args) (at_ : option At) : BindSpec :=
  ScanRun.mkSpec function schema (inr arguments) at_.

(** A call by name: [bind_blocking], and [bind_with_arguments] with its one
    worker at bind time. *)
Definition bind_named (catalog schema_name function : string) (arguments : Args) (max_workers : nat)
    : planner VgiTableProvider :=
  _ <~ ask Connect id ;;
  attached <~ ask (Attach catalog) id ;;
  bound <~ bind_with_secrets_dependency attached (table_spec function schema_name arguments None) None ;;
  capabilities <~ ask (Functions schema_name) (fun functions => function_capabilities functions function) ;;
  done_ (bound_provider catalog schema_name function arguments bound.1 capabilities None None
           (at_catalog_version attached) bound.2 None None max_workers).
Definition bind_blocking (catalog schema_name function : string) (arguments : Args) : planner VgiTableProvider :=
  bind_named catalog schema_name function arguments 1.
Definition bind_with_arguments (catalog schema_name function : string) (arguments : Args) : planner VgiTableProvider :=
  bind_named catalog schema_name function arguments 1.
Variable no_arguments : Args.
Definition bind (catalog schema_name function : string) : planner VgiTableProvider :=
  bind_with_arguments catalog schema_name function no_arguments.

(** *** Catalog tables *)

(** A catalog table's function is searched for in some schemas: the first that
    binds is taken, the last error told. *)
Fixpoint bind_first (attached : AttachedCatalog) (function : string) (arguments : Args) (at_ : option At)
    (candidates : list string) (last_error : DFError) : planner (string * Bound * FunctionCapabilities * bool) :=
  match candidates with
  | [] => try_ (Err last_error)
  | schema :: candidates =>
      prog_bind (bind_with_secrets_dependency attached (table_spec function schema arguments at_) None)
        (fun r => match r with
                  | Ok (bound, secret_dependent) =>
                      capabilities <~ ask (Functions schema) (fun functions => function_capabilities functions function) ;;
                      done_ (schema, bound, capabilities, secret_dependent)
                  | Err error => bind_first attached function arguments at_ candidates error
                  end)
  end.
(** The table's schema, then the catalog's default. *)
Definition legacy_candidates (table_schema : string) (default_schema : option string) : list string :=
  table_schema :: match default_schema with
                  | Some default_schema => if String.eqb default_schema table_schema then [] else [default_schema]
                  | None => []
                  end.
Definition branch_candidates (table_schema : string) (default_schema : option string)
    (branch_schema_name : option string) : list string :=
  match branch_schema_name with
  | Some schema => if String.eqb schema "" then legacy_candidates table_schema default_schema else [schema]
  | None => legacy_candidates table_schema default_schema
  end.
Definition table_candidates (table_schema : string) (default_schema : option string) (scan : ScanFunction)
    : result (list string) :=
  match sf_schema_path scan with
  | Some schema => name ← require_flat_schema_path schema "scan function"; Ok [name]
  | None => Ok (legacy_candidates table_schema default_schema)
  end.
(** [last_error.expect(..)] *)
Definition expected (what : string) : DFError := Panicked what.

Variable from_scan_arguments : bytes -> result Args.
Definition scan_arguments (raw : bytes) : result Args :=
  match raw with [] => Ok no_arguments | _ => from_scan_arguments raw end.

Definition bind_catalog_branch (catalog table_schema function : string) (raw_arguments : bytes)
    (branch_schema_name : option string) : planner VgiTableProvider :=
  arguments <~ try_ (scan_arguments raw_arguments) ;;
  _ <~ ask Connect id ;;
  attached <~ ask (Attach catalog) id ;;
  found <~ bind_first attached function arguments None
             (branch_candidates table_schema (at_default_schema attached) branch_schema_name)
             (expected "at least one catalog branch schema candidate") ;;
  let '(schema, bound, capabilities, secret_dependent) := found in
  done_ (bound_provider catalog schema function arguments bound capabilities None None
           (at_catalog_version attached) secret_dependent None None 1).

Variable read_constraint : Raw -> result (string * string * Raw).
Variable read_definition : Raw -> result ConstraintDefinition.
Definition bind_catalog_table_inner (catalog : string) (info : TableInfo) (at_ : option At)
    : planner VgiTableProvider :=
  table_schema <~ try_ (require_flat_schema_path (ti_schema_path info) "catalog table") ;;
  let cardinality_estimate := match at_ with None => ti_cardinality_estimate info | Some _ => None end in
  let cardinality_max := match at_ with None => ti_cardinality_max info | Some _ => None end in
  _ <~ ask Connect id ;;
  attached <~ ask (Attach catalog) id ;;
  scan <~ ask (TableScanFunction info at_) rpc ;;
  arguments <~ try_ (scan_arguments (sf_arguments scan)) ;;
  candidates <~ try_ (table_candidates table_schema (at_default_schema attached) scan) ;;
  found <~ bind_first attached (sf_function_name scan) arguments at_ candidates (expected "at least one candidate schema") ;;
  let '(schema, bound, capabilities, secret_dependent) := found in
  constraints <~ try_ (datafusion_constraints_v3 read_constraint read_definition (ti_constraints info) (output_schema bound)) ;;
  done_ (bound_provider catalog schema (sf_function_name scan) arguments bound capabilities cardinality_estimate
           cardinality_max (at_catalog_version attached) secret_dependent at_ (Some constraints) 1).
Definition bind_catalog_table (catalog : string) (info : TableInfo) : planner VgiTableProvider :=
  bind_catalog_table_inner catalog info None.
Definition bind_catalog_table_at (catalog : string) (info : TableInfo) (at_ : At) : planner VgiTableProvider :=
  bind_catalog_table_inner catalog info (Some at_).

(** ** Statistics of a bound function *)

Definition with_function_statistics (p : VgiTableProvider) (cell : option Stats) : VgiTableProvider :=
  {| vp_catalog := vp_catalog p; vp_schema_name := vp_schema_name p; vp_function := vp_function p;
     vp_arguments := vp_arguments p; vp_raw_arguments := vp_raw_arguments p;
     vp_statistics_bind := vp_statistics_bind p; vp_function_statistics := Some cell;
     vp_output_schema := vp_output_schema p;
     vp_projection_pushdown := vp_projection_pushdown p; vp_filter_pushdown := vp_filter_pushdown p;
     vp_supports_splits := vp_supports_splits p; vp_sampling_pushdown := vp_sampling_pushdown p;
     vp_sample := vp_sample p; vp_filters_exactly_applied := vp_filters_exactly_applied p;
     vp_cardinality_estimate := vp_cardinality_estimate p; vp_cardinality_max := vp_cardinality_max p;
     vp_catalog_version := vp_catalog_version p; vp_secret_dependent := vp_secret_dependent p;
     vp_at := vp_at p; vp_order_by := vp_order_by p; vp_constraints := vp_constraints p;
     vp_column_mapping := vp_column_mapping p; vp_max_workers := vp_max_workers p |}.

(** [ScalarValue::try_from_array], [cast_to] and [>]; the clock. *)
Variable try_from_array : list (option Value) -> nat -> option (option Value).
Variable cast_to : option Value -> DataType -> option (option Value).
Variable scalar_gt : option Value -> option Value -> bool.
Variable now : Z.
Definition statistics_error (p : VgiTableProvider) (error : DFError) : VgiEvent :=
  mkEvent now "table_function.statistics_error" (Some (vp_catalog p))
    (Some (vp_schema_name p +:+ "." +:+ vp_function p)) None None (Some (Settings.error_text error)).
(** The blocking task of [bound_function_statistics]. *)
Definition ask_statistics (p : VgiTableProvider) : planner StatBatch :=
  _ <~ ask Connect id ;;
  _ <~ ask (Attach (vp_catalog p)) id ;;
  ask (TableFunctionStatistics (vp_statistics_bind p)) rpc.
(** The statistics, and the provider with its cell filled. *)
Definition bound_function_statistics (p : VgiTableProvider) : prog Resp (option Stats * VgiTableProvider) :=
  match vp_function_statistics p with
  | Some statistics => Ret (statistics, p)
  | None =>
      prog_bind (ask_statistics p) (fun result =>
        match result with
        | Err error => Vis (Emit (statistics_error p error)) (fun _ => Ret (None, with_function_statistics p None))
        | Ok raw =>
            let statistics := if (length (sb_columns raw) =? 0)%nat then None
                              else Some (statistics_for_catalog_table try_from_array cast_to scalar_gt
                                           (vp_output_schema p) raw None None (vp_column_mapping p)) in
            Ret (statistics, with_function_statistics p statistics)
        end)
  end.

(** [with_sample_hint] *)
Definition with_sample_hint (p : VgiTableProvider) (sample : Sample) : result VgiTableProvider :=
  if negb (vp_sampling_pushdown p)
  then Err (NotImplemented ("VGI function `" +:+ vp_schema_name p +:+ "." +:+ vp_function p +:+
                            "` does not advertise sampling pushdown"))
  else Ok
    {| vp_catalog := vp_catalog p; vp_schema_name := vp_schema_name p; vp_function := vp_function p;
       vp_arguments := vp_arguments p; vp_raw_arguments := vp_raw_arguments p;
       vp_statistics_bind := vp_statistics_bind p; vp_function_statistics := vp_function_statistics p;
       vp_output_schema := vp_output_schema p;
       vp_projection_pushdown := vp_projection_pushdown p; vp_filter_pushdown := vp_filter_pushdown p;
       vp_supports_splits := vp_supports_splits p; vp_sampling_pushdown := vp_sampling_pushdown p;
       vp_sample := Some sample; vp_filters_exactly_applied := vp_filters_exactly_applied p;
       vp_cardinality_estimate := vp_cardinality_estimate p; vp_cardinality_max := vp_cardinality_max p;
       vp_catalog_version := vp_catalog_version p; vp_secret_dependent := vp_secret_dependent p;
       vp_at := vp_at p; vp_order_by := vp_order_by p; vp_constraints := vp_constraints p;
       vp_column_mapping := vp_column_mapping p; vp_max_workers := vp_max_workers p |}.
End Bind.

Arguments VgiTableProvider Meta Args Bound Value : clear implicits.

(** * A bound table's scan

    From a provider and what DataFusion pushes into it to the physical node:
    pruning by the bound function's statistics, the filters sent, the split plan
    and the request its caches are keyed by. Composes [TableBind],
    [FilterExact], [ScanPlanning] and [CacheKeys]. *)
From S2P Require Import Filters CacheKeys Splits ScanPlanning FilterExact.

Section Scan.
Context {Text : Type} `{AK : !ArrowKernel Text (list ascii)}.
Context {Args Bound Value Blob Branches PhysicalExpr Predicate : Type} `{!EqDecision Value}.

Abbreviation bytes := (list ascii).
(** Nullability and metadata of a field or schema. *)
Abbreviation Meta := (bool * list (string * string))%type.
Abbreviation Schema := (@ScanShape.Schema DataType Meta).
Abbreviation VgiTableProvider := (VgiTableProvider Meta Args Bound Value).
Abbreviation Stats := (Statistics Value).
Abbreviation Runtime := (@VgiRuntime (WorkerPlan (Blob := Blob)) Branches).

Definition arrow_schema (schema : Schema) : Arrow.Schema :=
  map (fun f => Arrow.mkField (field_name f) (ScanShape.data_type f) (field_meta f).1 (field_meta f).2) (fields schema).
(** [Schema::project] *)
Definition project (schema : Schema) (indices : list nat) : result Schema :=
  fs ← result_collect
         (fun i => ok_or (ArrowError ("project index " +:+ pretty i +:+ " out of bounds, max field "
                                      +:+ pretty (length (fields schema)))) (fields schema !! i)) indices;
  Ok (mkSchema fs (schema_meta schema)).

(** [Arguments::to_ipc] *)
Variable to_ipc : Args -> option bytes.
Variable output_schema : Bound -> Schema.

(** ** Pruning *)

(** DataFusion's: the conjunction's physical form, its pruning predicate, and
    which containers it keeps. *)
Variable conjunction : list Expr -> option Expr.
Variable create_physical_expr : Expr -> Schema -> option PhysicalExpr.
Variable pruning_predicate : Schema -> PhysicalExpr -> option Predicate.
Variable prune : Predicate -> list Stats -> option (list bool).
Definition filters_prune_statistics (schema : Schema) (statistics : Stats) (filters : list Expr) : bool :=
  match conjunction filters with
  | None => false
  | Some filter =>
      match create_physical_expr filter schema with
      | None => false
      | Some predicate =>
          match pruning_predicate schema predicate with
          | None => false
          | Some predicate => bool_decide (prune predicate [statistics] = Some [false])
          end
      end
  end.

(** ** The scan *)

(** What the plan and the result are requested and cached by. *)
Definition provider_request (p : VgiTableProvider) (projection : option (list Z)) (pushdown : Pushdown bytes)
    (limit : option Z) : ScanRequest :=
  {| sc_catalog := vp_catalog p; sc_schema_name := vp_schema_name p; sc_function := vp_function p;
     sc_raw_arguments := vp_raw_arguments p; sc_typed_arguments := to_ipc (vp_arguments p);
     sc_projection := projection; sc_projection_pushdown := vp_projection_pushdown p;
     sc_pushdown := pushdown; sc_limit := limit;
     sc_order_by := vp_order_by p; sc_sample := vp_sample p; sc_at := vp_at p;
     sc_catalog_version := vp_catalog_version p; sc_secret_dependent := vp_secret_dependent p |}.

Variable is_empty : Blob -> bool.
Variable read_num_rows : Blob -> option Z.
Variable CACHE_SCOPE_CATALOG : string.
(** A plan's splits with their decoded metadata. *)
Variable split_infos : WorkerPlan (Blob := Blob) -> list (SplitInfo (Value := Value) (Blob := Blob)).
Variable statistics_of_splits : Schema -> list (SplitInfo (Value := Value) (Blob := Blob)) -> list nat ->
  Precision Z -> Precision Z -> Stats.
Variable range_partitioning : Schema -> Schema -> Mapping -> PlannedSplits Blob ->
  option (list PhysicalSortExpr * list (list (option Value))).

Inductive Scanned :=
  | EmptyExec (schema : Schema)
  | VgiScan (request : ScanRequest) (schema filter_schema remote_schema storage_schema : Schema)
      (node : ScanNode (Value := Value)).

(** [scan]; [statistics] is the answer of [bound_function_statistics], which is
    asked when there are filters, and [answer] the planning call's. *)
Definition scan (asked_at answered_at : Z) (rt : Runtime) (locality_hook : bool) (conn : VgiConnection)
    (configured_partitions : nat) (p : VgiTableProvider) (statistics : option Stats) (answer : result (PlanAnswer (Blob := Blob)))
    (projection : option (list nat)) (filters : list Expr) (limit : option Z) : Runtime * result Scanned :=
  match match projection with None => Ok (vp_output_schema p) | Some ids => project (vp_output_schema p) ids end with
  | Err e => (rt, Err e)
  | Ok projected =>
      if match filters, statistics with
         | _ :: _, Some statistics => filters_prune_statistics (vp_output_schema p) statistics filters
         | _, _ => false
         end
      then (rt, Ok (EmptyExec projected))
      else
        let projection_ids := map Z.of_nat <$> projection in
        let pushed_projection := if vp_projection_pushdown p then projection_ids else None in
        match scan_pushdown (vp_filter_pushdown p) filters (arrow_schema (vp_output_schema p)) with
        | Err e => (rt, Err e)
        | Ok pushdown =>
            let planning := plan_splits is_empty read_num_rows CACHE_SCOPE_CATALOG asked_at answered_at rt locality_hook
                              conn (provider_request p pushed_projection pushdown limit) (vp_supports_splits p)
                              (Nat.max configured_partitions 1) answer in
            (pl_runtime planning,
             planned ← pl_result planning;
             let request := provider_request p projection_ids pushdown limit in
             let remote_schema := output_schema (vp_statistics_bind p) in
             Ok (VgiScan request projected (vp_output_schema p) remote_schema
                   (cache_storage_schema (vp_projection_pushdown p) projected (vp_output_schema p))
                   (scan_node statistics_of_splits range_partitioning conn request projected remote_schema
                      (vp_column_mapping p) (vp_max_workers p)
                      ((fun e => (e.2, split_infos e.1)) <$> planned)
                      (vp_cardinality_estimate p) (vp_cardinality_max p))))
        end
  end.
End Scan.
