(* ===== verification/TableBindTheorems.v ===== *)
(** * Binding a table function: theorems

    What the bind's retry sends, which schema a catalog table's function is
    found in, and that a provider stands for the call it was bound with: its
    scans repeat that call, and nothing of it is cached when the worker asked
    for secrets. *)

From S2P Require Import Prelude Text Arrow Identity Settings Runtime Protocol3 CacheKeys Connections ScanShape ScanStats CatalogDiscovery Interact ScanPlanning ScanPlanningTheorems ScanRun KernelModel RuntimeExamples TableBind.
From Stdlib Require Import Strings.Ascii.

#[local] Open Scope Z_scope.

(** ** Runs of planner programs *)

Section Runs.
Context {Meta Text Bytes Args Bound Raw Value : Type} `{!EqDecision Value}.
Local Abbreviation Resp := (@Resp Meta Bytes Args Bound Raw Value).
Local Abbreviation planner := (@planner Meta Bytes Args Bound Raw Value).

Lemma runs_ret_inv {A} (a b : A) tr : runs (R := Resp) (Ret a) tr b -> tr = [] /\ b = a.
Proof. by inversion 1. Qed.
Lemma then_inv {A B} (m : planner A) (f : A -> planner B) tr b :
  runs (then_ m f) tr (Ok b) ->
  exists tr1 tr2 a, tr = tr1 ++ tr2 /\ runs m tr1 (Ok a) /\ runs (f a) tr2 (Ok b).
Proof.
  intros (tr1 & tr2 & [a|e] & -> & H1 & H2)%runs_bind_inv; [by exists tr1, tr2, a|]. by apply runs_ret_inv in H2 as [_ ?].
Qed.
Lemma try_inv {A} (r : result A) tr a : runs (TableBind.try_ r : planner A) tr (Ok a) -> tr = [] /\ r = Ok a.
Proof. by intros [-> ->]%runs_ret_inv. Qed.
Lemma done_inv {A} (a b : A) tr : runs (done_ a : planner A) tr (Ok b) -> tr = [] /\ b = a.
Proof. by intros [-> [= ->]]%runs_ret_inv. Qed.
Lemma ask_inv {A} c (to_result : Resp c -> result A) tr a :
  runs (ask c to_result : planner A) tr (Ok a) -> exists r, tr = [existT c r] /\ to_result r = Ok a.
Proof. intros (r & tr' & -> & [-> Hr]%runs_ret_inv)%runs_vis_inv. by exists r. Qed.
Lemma rpc_Ok {A} (answer : A + RpcError) a : rpc answer = Ok a -> answer = inl a.
Proof. destruct answer; [by intros [= ->]|done]. Qed.
End Runs.

(** A program that succeeded, one step at a time. *)
Ltac run_steps := repeat (first
  [ progress cbv beta zeta
  | match goal with
    | H : runs (then_ _ _) _ (Ok _) |- _ => apply then_inv in H as (? & ? & ? & -> & ? & H)
    | H : runs (TableBind.try_ _) _ (Ok _) |- _ => apply try_inv in H as [-> H]
    | H : runs (done_ _) _ (Ok _) |- _ => apply done_inv in H as [-> ->]
    | H : runs (ask _ _) _ (Ok _) |- _ => apply ask_inv in H as (? & -> & H)
    end ]).

Section Theorems.
Local Abbreviation Meta := (bool * list (string * string))%type.
Context {Text Bytes : Type} `{AK : !ArrowKernel Text Bytes} `{SK : !SettingKernel Text}.
Context {Args Bound Raw Value : Type} `{!EqDecision Value}.
Local Abbreviation Schema := (@ScanShape.Schema DataType Meta).
Local Abbreviation Resp := (@Resp Meta Bytes Args Bound Raw Value).
Local Abbreviation Call := (@Call Meta Bytes Args Bound Raw).
Local Abbreviation planner := (@planner Meta Bytes Args Bound Raw Value).
Variable struct_array : list Arrow.Field -> list (ArrayRef Text) -> result (ArrayRef Text).
Variable secret_resolver : bool.
Variable session_settings : VgiSettings.
Variable output_schema : Bound -> Schema.
Variable required_secrets : Bound -> list CatalogDiscovery.SecretLookupRequest.
Variable required_secret_types : Bound -> list string.
Local Abbreviation bind_retry :=
  (TableBind.bind_retry (Meta := Meta) (Args := Args) (Raw := Raw) (Value := Value) struct_array secret_resolver session_settings
     required_secrets required_secret_types).
Local Abbreviation secret_batch := (TableBind.secret_batch struct_array).
Local Abbreviation bind_table :=
  (bind_with_secrets_dependency (Meta := Meta) (Args := Args) (Raw := Raw) (Value := Value) struct_array secret_resolver session_settings
     required_secrets required_secret_types).

(** ** The retry *)

Definition resolved_event (request : CatalogDiscovery.SecretLookupRequest) (secret : VgiResolvedSecret)
    : event Resp := existT (Resolve request) (Some (Ok (Some secret))).
Lemma resolve_all_spec requests tr out :
  runs (resolve_all requests : planner _) tr (Ok out) ->
  length out = length requests /\ tr = zip_with resolved_event requests out.
Proof.
  revert tr out. induction requests as [|q requests IH]; intros tr out H; cbn [resolve_all] in H; run_steps; [done|].
  match goal with H : runs (resolve_all requests) _ _ |- _ => apply IH in H as [Hl ->] end.
  match goal with H : resolved_one q ?r = Ok _ |- _ => destruct r as [[[s|]|e]|]; try done; injection H as -> end.
  rewrite app_nil_r. cbn [length zip_with app]. split; [by f_equal|done].
Qed.
(** A request the host has no secret for fails the bind. *)
Lemma unmatched_secret_fails requests tr out :
  runs (resolve_all requests : planner _) tr (Ok out) -> forall q, existT (Resolve q) (Some (Ok None)) ∉ tr.
Proof.
  intros [_ ->]%resolve_all_spec q Hin.
  pose (unmatched := fun e : event Resp => match e with existT (Resolve _) (Some (Ok None)) => true | _ => false end).
  assert (Hall : Forall (fun e => unmatched e = false) (zip_with resolved_event requests out)).
  { clear Hin. revert out. induction requests as [|r requests IH]; intros [|s out]; constructor; done. }
  rewrite Forall_forall in Hall. by specialize (Hall _ Hin).
Qed.
Lemma secret_columns_names names resolved columns :
  secret_columns struct_array names resolved = Ok columns ->
  NoDup (map rs_name resolved) /\ Forall (fun n => n <> "" /\ n ∉ names) (map rs_name resolved).
Proof.
  revert names columns. induction resolved as [|s resolved IH]; intros names columns H; cbn in H |- *; [split; constructor|].
  destruct (String.eqb_spec (rs_name s) "") as [|Hne]; [done|]. case_bool_decide as Hin; [done|]. cbn in H.
  destruct (secret_column _ _); [|done]. cbn in H.
  destruct (secret_columns _ _ resolved) as [cs|] eqn:Hcs; [|done]. apply IH in Hcs as [Hn Hf]. split.
  - constructor; [|done]. intros Hs. rewrite Forall_forall in Hf. destruct (Hf _ Hs) as [_ Hno]. set_solver.
  - constructor; [done|]. eapply Forall_impl; [exact Hf|]. cbn. intros n [? ?]. split; [done|set_solver].
Qed.
Lemma secret_batch_names resolved b :
  secret_batch resolved = Ok b -> NoDup (map rs_name resolved) /\ "" ∉ map rs_name resolved.
Proof.
  unfold secret_batch. destruct (secret_columns _ _ _) as [cs|] eqn:Hcs; [|done]. intros _.
  apply secret_columns_names in Hcs as [Hn Hf]. split; [done|]. intros Hin. rewrite Forall_forall in Hf. by destruct (Hf _ Hin).
Qed.

Definition chosen_settings (attached : AttachedCatalog) (settings : option Bytes) : result (option Bytes) :=
  match settings with Some _ => Ok settings | None => settings_for session_settings attached end.
(** A successful bind is one call, or one call, the host's secrets and a second
    call. *)
Definition one_bind (spec : BindSpec) (sent : option Bytes) (input : option Schema) (first bound : Bound) (dependent : bool)
    (tr : list (event Resp)) : Prop :=
  (dependent = false /\ required_secrets first = [] /\ bound = first /\
   tr = [existT (CallBind spec sent input) (inl first)]) \/
  (dependent = true /\ required_secrets first <> [] /\ secret_resolver = true /\ required_secret_types bound = [] /\
   exists resolved secrets,
     length resolved = length (required_secrets first) /\
     NoDup (map rs_name resolved) /\ "" ∉ map rs_name resolved /\
     secret_batch resolved = Ok secrets /\
     tr = existT (CallBind spec sent input) (inl first) :: existT SpawnResolver (Ok tt)
            :: zip_with resolved_event (required_secrets first) resolved
            ++ [existT (CallBindResolved spec sent input secrets) (inl bound)]).
Lemma bind_retry_spec attached spec settings input tr bound dependent :
  runs (bind_retry attached spec settings input) tr (Ok (bound, dependent)) ->
  exists sent first, chosen_settings attached settings = Ok sent /\ one_bind spec sent input first bound dependent tr.
Proof.
  unfold TableBind.bind_retry. intros H. apply then_inv in H as (tr1 & tr2 & sent & -> & Hs & H).
  assert (tr1 = [] /\ chosen_settings attached settings = Ok sent) as [-> Hc].
  { destruct settings; run_steps; done. }
  apply then_inv in H as (tr1 & tr3 & first & -> & Hf & H). apply ask_inv in Hf as (r & -> & ->%rpc_Ok).
  exists sent, first. split; [done|]. cbn zeta in H. unfold declared_secret_dependency in H.
  destruct (required_secrets first) as [|q qs] eqn:Hq; cbn [length Nat.eqb negb] in H.
  - left. apply done_inv in H as [-> [= -> ->]]. done.
  - right. apply then_inv in H as (tr1 & tr2 & secrets & -> & Hr & H).
    apply then_inv in H as (tr3 & tr4 & second & -> & Hb & H). apply ask_inv in Hb as (r & -> & ->%rpc_Ok).
    destruct (required_secret_types second) eqn:Ht; [|by apply try_inv in H as [_ ?]].
    apply done_inv in H as [-> [= -> ->]]. split; [done|]. split; [by rewrite Hq|].
    unfold resolve_secret_batch in Hr. destruct secret_resolver; [|by apply try_inv in Hr as [_ ?]]. cbn [negb] in Hr.
    apply then_inv in Hr as (tr1' & tr2' & [] & -> & Hsp & Hr). apply ask_inv in Hsp as (r & -> & Hsp).
    apply then_inv in Hr as (tr1 & tr3 & resolved & -> & Hall & Hr). apply resolve_all_spec in Hall as [Hl ->].
    apply try_inv in Hr as [-> Hbatch]. unfold id in Hsp. subst r.
    split; [done|]. split; [done|]. exists resolved, secrets. rewrite Hq. split; [done|].
    destruct (secret_batch_names _ _ Hbatch) as [? ?]. split_and!; [done..|].
    by rewrite !app_nil_r.
Qed.

(** The steps of a run that succeeds. *)
Lemma runs_then {A B} (m : planner A) (f : A -> planner B) tr1 tr2 a b :
  runs m tr1 (Ok a) -> runs (f a) tr2 b -> runs (then_ m f) (tr1 ++ tr2) b.
Proof. intros H1 H2. by eapply runs_bind. Qed.
Lemma runs_ask {A} c (to_result : Resp c -> result A) r x :
  to_result r = x -> runs (ask c to_result : planner A) [existT c r] x.
Proof. intros <-. constructor. constructor. Qed.
Lemma runs_resolve_all requests out :
  length out = length requests ->
  runs (resolve_all requests : planner _) (zip_with resolved_event requests out) (Ok out).
Proof.
  revert out. induction requests as [|q requests IH]; intros [|s out] Hl; try done; [constructor|].
  cbn [resolve_all zip_with]. apply (runs_then _ _ [_] _ s); [by apply runs_ask|].
  rewrite <- (app_nil_r (zip_with _ _ _)). eapply runs_then; [apply IH; by injection Hl|constructor].
Qed.
Lemma runs_bind_retry attached spec settings input tr bound dependent sent first :
  chosen_settings attached settings = Ok sent -> one_bind spec sent input first bound dependent tr ->
  runs (bind_retry attached spec settings input) tr (Ok (bound, dependent)).
Proof.
  intros Hc Hone. unfold TableBind.bind_retry. rewrite <- (app_nil_l tr). apply runs_then with (a := sent).
  { unfold chosen_settings in Hc. destruct settings; [injection Hc as <-|rewrite Hc]; constructor. }
  destruct Hone as [(-> & Hq & -> & ->)|(-> & Hq & Hres & Ht & resolved & secrets & Hl & _ & _ & Hb & ->)].
  - apply (runs_then _ _ [_] [] first); [by apply runs_ask|]. rewrite Hq. constructor.
  - apply (runs_then _ _ [_] _ first); [by apply runs_ask|]. cbn zeta.
    unfold declared_secret_dependency. destruct (required_secrets first) as [|q qs] eqn:He; [done|]. rewrite <- He in *.
    replace (length (required_secrets first) =? 0)%nat with false by by rewrite He.
    cbn [negb]. unfold resolve_secret_batch. rewrite Hres. cbn [negb].
    change (existT SpawnResolver (Ok tt) :: ?l ++ ?l') with (([existT SpawnResolver (Ok tt)] ++ l) ++ l').
    apply runs_then with (a := secrets).
    + apply (runs_then _ _ [_] _ tt); [by apply runs_ask|].
      rewrite <- (app_nil_r (zip_with _ _ _)). eapply runs_then; [by apply runs_resolve_all|]. unfold TableBind.try_. rewrite Hb. constructor.
    + rewrite <- (app_nil_r [_]). apply (runs_then _ _ [_] [] bound); [by apply runs_ask|].
      rewrite Ht. constructor.
Qed.

(** C14: a bind succeeds with exactly these calls: the worker is sent the
    secrets it asked for and no others, one resolver answer per request, in the
    order of the requests, under distinct non-empty names, with the call and
    settings of the first time; a worker that asks for nothing is called once
    and the resolver never, and one that still asks after the retry is refused. *)
Theorem secrets_sent_once attached spec settings input tr bound dependent :
  runs (bind_retry attached spec settings input) tr (Ok (bound, dependent)) <->
  exists sent first, chosen_settings attached settings = Ok sent /\ one_bind spec sent input first bound dependent tr.
Proof.
  split; [apply bind_retry_spec|]. intros (sent & first & Hs & Ho). by eapply runs_bind_retry.
Qed.

(** ** Providers *)

Variable no_arguments : Args.
Variable from_scan_arguments : list ascii -> result Args.
Variable read_constraint : Raw -> result (string * string * Raw).
Variable read_definition : Raw -> result ConstraintDefinition.
Local Abbreviation VgiTableProvider := (TableBind.VgiTableProvider Meta Args Bound Value).
Local Abbreviation bind_named :=
  (TableBind.bind_named (Meta := Meta) (Args := Args) (Raw := Raw) (Value := Value) struct_array secret_resolver session_settings
     output_schema required_secrets required_secret_types).
Local Abbreviation bind_catalog_branch :=
  (TableBind.bind_catalog_branch (Meta := Meta) (Args := Args) (Raw := Raw) (Value := Value) struct_array secret_resolver session_settings
     output_schema required_secrets required_secret_types no_arguments from_scan_arguments).
Local Abbreviation bind_catalog_table_inner :=
  (TableBind.bind_catalog_table_inner (Meta := Meta) (Args := Args) (Raw := Raw) (Value := Value) struct_array secret_resolver
     session_settings output_schema required_secrets required_secret_types no_arguments from_scan_arguments
     read_constraint read_definition).
Local Abbreviation bind_first :=
  (TableBind.bind_first (Meta := Meta) (Args := Args) (Raw := Raw) (Value := Value) struct_array secret_resolver session_settings
     required_secrets required_secret_types).

(** The ways a table provider is bound. *)
Inductive binds_provider : planner VgiTableProvider -> Prop :=
  | by_name catalog schema function arguments workers :
      binds_provider (bind_named catalog schema function arguments workers)
  | by_branch catalog schema function raw branch_schema :
      binds_provider (bind_catalog_branch catalog schema function raw branch_schema)
  | by_table catalog info at_ : binds_provider (bind_catalog_table_inner catalog info at_).

(** A provider's call is the one its run bound last. *)
Definition is_bind (e : event Resp) : Prop :=
  match e with existT (CallBind _ _ _) _ => True | _ => False end.
Definition bound_by (attached : AttachedCatalog) (p : VgiTableProvider) (tr : list (event Resp)) : Prop :=
  exists before made after,
    tr = before ++ made ++ after /\ Forall (fun e => ~ is_bind e) after /\
    runs (bind_table attached (table_spec (vp_function p) (vp_schema_name p) (vp_arguments p) (vp_at p)) None) made
      (Ok (vp_statistics_bind p, vp_secret_dependent p)).

(** The search: failed binds, then the one that is taken. *)
Lemma bind_first_spec attached function arguments at_ candidates e0 tr schema bound capabilities dependent :
  runs (bind_first attached function arguments at_ candidates e0) tr (Ok (schema, bound, capabilities, dependent)) ->
  exists tried rest before made functions,
    candidates = tried ++ schema :: rest /\
    tr = concat before ++ made ++ [existT (Functions schema) functions] /\
    Forall2 (fun s tr => exists e, runs (bind_table attached (table_spec function s arguments at_) None) tr (Err e)) tried before /\
    runs (bind_table attached (table_spec function schema arguments at_) None) made (Ok (bound, dependent)) /\
    function_capabilities functions function = Ok capabilities.
Proof.
  revert e0 tr. induction candidates as [|s candidates IH]; intros e0 tr H; cbn [TableBind.bind_first] in H.
  { by apply try_inv in H as [_ ?]. }
  apply runs_bind_inv in H as (tr1 & tr2 & [[b d]|e] & -> & Hb & H).
  - apply then_inv in H as (tr3 & tr4 & caps & -> & Hc & H). apply ask_inv in Hc as (fs & -> & Hc).
    apply done_inv in H as [-> [= -> -> -> ->]].
    exists [], candidates, [], tr1, fs. split_and!; [done| |constructor|done..].
    by rewrite app_nil_r.
  - apply IH in H as (tried & rest & before & made & fs & -> & -> & Hf & ? & ?).
    exists (s :: tried), rest, (tr1 :: before), made, fs. split_and!; [done| |constructor; [by exists e|done]|done..].
    cbn [concat]. by rewrite !app_assoc.
Qed.

Lemma provider_bind m tr p :
  binds_provider m -> runs m tr (Ok p) ->
  vp_output_schema p = output_schema (vp_statistics_bind p) /\ vp_raw_arguments p = None /\
  exists attached, vp_catalog_version p = at_catalog_version attached /\ bound_by attached p tr.
Proof.
  intros [catalog schema function arguments workers|catalog schema function raw branch|catalog info at_] H.
  - unfold TableBind.bind_named in H.
    apply then_inv in H as (tr1 & tr2 & [] & -> & _ & H). apply then_inv in H as (tr3 & tr4 & attached & -> & _ & H).
    apply then_inv in H as (made & tr6 & [bound dep] & -> & Hb & H).
    apply then_inv in H as (tr7 & tr8 & caps & -> & Hc & H). apply ask_inv in Hc as (fs & -> & _).
    apply done_inv in H as [-> ->]. split; [done|]. split; [done|]. exists attached. split; [done|].
    exists (tr1 ++ tr3), made, ([existT (Functions schema) fs] ++ []). split; [by rewrite <- app_assoc|].
    split; [repeat constructor; intros []|exact Hb].
  - unfold TableBind.bind_catalog_branch in H.
    apply then_inv in H as (tr0 & tr9 & arguments & -> & _ & H).
    apply then_inv in H as (tr1 & tr2 & [] & -> & _ & H). apply then_inv in H as (tr3 & tr4 & attached & -> & _ & H).
    apply then_inv in H as (tr5 & tr6 & [[[s bound] caps] dep] & -> & Hf & H). apply done_inv in H as [-> ->].
    apply bind_first_spec in Hf as (tried & rest & before & made & fs & _ & -> & _ & Hb & _).
    split; [done|]. split; [done|]. exists attached. split; [done|].
    exists (tr0 ++ tr1 ++ tr3 ++ concat before), made, ([existT (Functions s) fs] ++ []).
    split; [by rewrite <- !app_assoc|]. split; [repeat constructor; intros []|exact Hb].
  - unfold TableBind.bind_catalog_table_inner in H.
    apply then_inv in H as (tr0 & tr9 & table_schema & -> & _ & H).
    apply then_inv in H as (tr1 & tr2 & [] & -> & _ & H). apply then_inv in H as (tr3 & tr4 & attached & -> & _ & H).
    apply then_inv in H as (tr5 & tr6 & scan & -> & _ & H). apply then_inv in H as (tr7 & tr8 & arguments & -> & _ & H).
    apply then_inv in H as (tr10 & tr11 & cands & -> & _ & H).
    apply then_inv in H as (tr12 & tr13 & [[[s bound] caps] dep] & -> & Hf & H).
    apply then_inv in H as (tr14 & tr15 & constraints & -> & Hc & H). apply try_inv in Hc as [-> _].
    apply done_inv in H as [-> ->].
    apply bind_first_spec in Hf as (tried & rest & before & made & fs & _ & -> & _ & Hb & _).
    split; [done|]. split; [done|]. exists attached. split; [done|].
    exists (tr0 ++ tr1 ++ tr3 ++ tr5 ++ tr7 ++ tr10 ++ concat before), made, ([existT (Functions s) fs] ++ []).
    split; [by rewrite !app_nil_r, <- !app_assoc|]. split; [repeat constructor; intros []|exact Hb].
Qed.

(** C13: a scan repeats the call its table was bound with: whatever provider an
    entry point returns, the call its scans send (function, schema, arguments,
    version) is the last one the run bound, and the schema it shows DataFusion is
    that of the worker's final answer to it. *)
Theorem scan_repeats_bind {Rest Plan : Type} m tr p to_ipc projection pushdown limit
    (exec : ScanExec (DataType := DataType) (Meta := Rest) (Args := Args) (Plan := Plan)) :
  binds_provider m -> runs m tr (Ok p) ->
  ex_request exec = provider_request to_ipc p projection pushdown limit -> ex_arguments exec = vp_arguments p ->
  exists before sent first after,
    tr = before ++ existT (CallBind (bind_spec exec) sent None) (inl first) :: after /\
    Forall (fun e => ~ is_bind e) after /\
    (vp_secret_dependent p = false /\ vp_statistics_bind p = first \/
     vp_secret_dependent p = true /\ exists secrets,
       existT (CallBindResolved (bind_spec exec) sent None secrets) (inl (vp_statistics_bind p)) ∈ after) /\
    vp_output_schema p = output_schema (vp_statistics_bind p).
Proof.
  intros Hm Hr Hreq Hargs. destruct (provider_bind m tr p Hm Hr) as (Hs & Hraw & attached & _ & before & made & after & -> & Hno & Hb).
  assert (bind_spec exec = table_spec (vp_function p) (vp_schema_name p) (vp_arguments p) (vp_at p)) as ->.
  { unfold bind_spec, table_spec. rewrite Hreq, Hargs. cbn. by rewrite Hraw. }
  unfold bind_with_secrets_dependency in Hb. apply bind_retry_spec in Hb as (sent & first & _ & Hone).
  destruct Hone as [(Hd & Hq & Hf & ->)|(Hd & Hq & _ & _ & resolved & secrets & _ & _ & _ & _ & ->)].
  - exists before, sent, first, after. split_and!; [done|done|by left|done].
  - exists before, sent, first.
    exists (existT SpawnResolver (Ok tt) :: zip_with resolved_event (required_secrets first) resolved ++
         [existT (CallBindResolved (table_spec (vp_function p) (vp_schema_name p) (vp_arguments p) (vp_at p)) sent None secrets)
            (inl (vp_statistics_bind p))] ++ after).
    split_and!; [cbn [app]; by rewrite <- app_assoc| |right; split; [done|]; exists secrets|done].
    + constructor; [by intros []|]. apply Forall_app. split; [|constructor; [by intros []|done]].
      clear. revert resolved. induction (required_secrets first) as [|q qs IH]; intros [|s resolved]; cbn; constructor; [by intros []|done].
    + apply elem_of_cons. right. apply elem_of_app. right. by left.
Qed.

(** *** Secrets and caches *)

Lemma last_unique {A} (P : A -> Prop) before x after before' x' after' :
  before ++ x :: after = before' ++ x' :: after' -> P x -> P x' ->
  Forall (fun y => ~ P y) after -> Forall (fun y => ~ P y) after' -> x = x' /\ after = after'.
Proof.
  intros Heq Hx Hx' Ha Ha'. apply app_eq_inv in Heq as [(k & -> & Heq)|(k & -> & Heq)]; destruct k as [|y k]; cbn in Heq.
  - by injection Heq as -> ->.
  - injection Heq as -> ->. apply Forall_app in Ha' as [_ Ha']. by inversion Ha'.
  - by injection Heq as -> ->.
  - injection Heq as -> ->. apply Forall_app in Ha as [_ Ha]. by inversion Ha.
Qed.
(** The worker's answer to a bind. *)
Definition bind_answer (e : event Resp) : option Bound :=
  match e with existT (CallBind _ _ _) (inl bound) => Some bound | _ => None end.
Lemma secret_dependent_iff m tr p spec sent first before after :
  binds_provider m -> runs m tr (Ok p) ->
  tr = before ++ existT (CallBind spec sent None) (inl first) :: after -> Forall (fun e => ~ is_bind e) after ->
  vp_secret_dependent p = true <-> required_secrets first <> [].
Proof.
  intros Hm Hr Htr Hno. destruct (provider_bind m tr p Hm Hr) as (_ & _ & attached & _ & before' & made & after' & Htr' & Hno' & Hb).
  unfold bind_with_secrets_dependency in Hb. apply bind_retry_spec in Hb as (sent' & first' & _ & Hone).
  assert (exists rest, made = existT (CallBind (table_spec (vp_function p) (vp_schema_name p) (vp_arguments p) (vp_at p)) sent' None)
            (inl first') :: rest /\ Forall (fun e => ~ is_bind e) rest) as (rest & -> & Hrest).
  { destruct Hone as [(_ & _ & _ & ->)|(_ & _ & _ & _ & resolved & secrets & _ & _ & _ & _ & ->)]; eexists; (split; [reflexivity|]); [done|].
    constructor; [by intros []|]. apply Forall_app. split; [|repeat constructor; by intros []].
    clear. revert resolved. induction (required_secrets first') as [|q qs IH]; intros [|s resolved]; cbn; constructor; [by intros []|done]. }
  rewrite Htr in Htr'. cbn [app] in Htr'.
  destruct (last_unique is_bind _ _ _ _ _ _ Htr') as [He _]; [done..|by apply Forall_app|].
  apply (f_equal bind_answer) in He. injection He as ->.
  destruct Hone as [(-> & -> & _)|(-> & Hq & _)]; by split.
Qed.

(** Without a key the plan cache is left alone. *)
Lemma planned_without_key {Blob Branches : Type} is_empty read_num_rows scope asked_at answered_at
    (rt : @VgiRuntime (WorkerPlan (Blob := Blob)) Branches) hook conn r supports_splits target answer :
  plan_cache_key conn r target = None ->
  rt_plan_cache (pl_runtime (plan_splits is_empty read_num_rows scope asked_at answered_at rt hook conn r supports_splits target answer))
    = rt_plan_cache rt.
Proof.
  intros Hk. unfold plan_splits. case_bool_decide; [done|]. rewrite Hk. unfold obtain_plan.
  destruct (plan_answer answer) as [[plan|]|]; cbn [pl_runtime]; by rewrite ?emit_plans.
Qed.
Lemma dependent_node {DT M V Blob : Type} stats range conn r schema remote mapping workers planned estimate maximum :
  sc_secret_dependent r = true ->
  let node := scan_node (DataType := DT) (Meta := M) (Value := V) (Blob := Blob) stats range conn r schema remote mapping workers planned estimate maximum in
  nd_cache node = inl SecretDependent /\ nd_capture_partitions node = None.
Proof.
  intros Hd. cbn zeta. unfold scan_node, new_scan. rewrite Hd. unfold scan_cache_key, scan_ineligible.
  destruct planned as [[pl infos]|]; cbn; done.
Qed.

(** C12: what depends on secrets is never cached: if the worker answered the last
    bind of a provider with a request for secrets, no scan of that provider has a
    plan-cache key or a result-cache key, its node captures nothing, and planning
    it leaves the plan cache as it was. *)
Theorem secret_scans_uncached {Blob Branches PhysicalExpr Predicate : Type} `{HB : !ArrowKernel Text (list ascii)}
    m tr p spec sent first before after to_ipc conjunction create_physical_expr pruning_predicate prune is_empty read_num_rows scope
    split_infos statistics_of_splits range_partitioning asked_at answered_at
    (rt rt' : @VgiRuntime (WorkerPlan (Blob := Blob)) Branches) hook conn target statistics answer projection filters limit
    request schema filter_schema remote storage node :
  binds_provider m -> runs m tr (Ok p) ->
  tr = before ++ existT (CallBind spec sent None) (inl first) :: after -> Forall (fun e => ~ is_bind e) after ->
  required_secrets first <> [] ->
  TableBind.scan (PhysicalExpr := PhysicalExpr) (Predicate := Predicate) to_ipc output_schema conjunction create_physical_expr
    pruning_predicate prune is_empty read_num_rows scope split_infos statistics_of_splits range_partitioning asked_at answered_at
    rt hook conn target p statistics answer projection filters limit
    = (rt', Ok (VgiScan request schema filter_schema remote storage node)) ->
  plan_cache_key conn request target = None /\ nd_cache node = inl SecretDependent /\ nd_capture_partitions node = None /\
  rt_plan_cache rt' = rt_plan_cache rt.
Proof.
  intros Hm Hr Htr Hno Hq Hscan.
  assert (Hdep : vp_secret_dependent p = true) by by eapply secret_dependent_iff.
  revert Hscan. unfold TableBind.scan.
  destruct (match projection with None => _ | Some _ => _ end) as [projected|]; [|done].
  destruct (match filters with [] => _ | _ => _ end); [done|].
  destruct (FilterExact.scan_pushdown _ _ _) as [pushdown|]; [|done].
  assert (Hkey : forall projection t, plan_cache_key conn (provider_request to_ipc p projection pushdown limit) t = None)
    by (intros; unfold plan_cache_key; cbn; by rewrite Hdep).
  set (planning := plan_splits _ _ _ _ _ _ _ _ _ _ _ _). intros [= <- Hplanned].
  destruct (pl_result planning) as [planned|]; [|done]. injection Hplanned as <- <- <- <- <- <-.
  split; [apply Hkey|]. destruct (dependent_node statistics_of_splits range_partitioning conn
    (provider_request to_ipc p (map Z.of_nat <$> projection) pushdown limit) projected (output_schema (vp_statistics_bind p))
    (vp_column_mapping p) (vp_max_workers p) ((fun e => (e.2, split_infos e.1)) <$> planned)
    (vp_cardinality_estimate p) (vp_cardinality_max p) Hdep) as [Hn Hc].
  split; [exact Hn|]. split; [exact Hc|]. apply planned_without_key, Hkey.
Qed.

(** *** Where a function is searched *)

Lemma flat_path path object name : require_flat_schema_path path object = Ok name -> path = [name].
Proof.
  destruct path as [|a [|b path]]; cbn; [done| |done]. destruct (negb _); [|done]. by intros [= ->].
Qed.
Lemma legacy_search attached function arguments at_ table_schema e0 tr schema bound capabilities dependent :
  runs (bind_first attached function arguments at_ (legacy_candidates table_schema (at_default_schema attached)) e0) tr
    (Ok (schema, bound, capabilities, dependent)) ->
  schema = table_schema \/
  schema <> table_schema /\ at_default_schema attached = Some schema /\
  exists failed rest e, tr = failed ++ rest /\
    runs (bind_table attached (table_spec function table_schema arguments at_) None) failed (Err e).
Proof.
  intros H. apply bind_first_spec in H as (tried & rest & before & made & fs & Hc & -> & Hf & _).
  destruct tried as [|s tried]; cbn in Hc; [left; by injection Hc as ->|]. injection Hc as <- Hc. right.
  inversion Hf as [|? failed ? before' [e He] Hf']; subst.
  destruct (at_default_schema attached) as [d|]; [|by destruct tried].
  destruct (String.eqb_spec d table_schema) as [|Hne]; [by destruct tried|].
  destruct tried as [|? tried]; [|by destruct tried]. injection Hc as -> _. inversion Hf'; subst.
  split; [done|]. split; [done|]. exists failed, (made ++ [existT (Functions schema) fs]), e. split; [|done].
  cbn [concat]. by rewrite app_nil_r.
Qed.

(** A catalog table's function is bound in the schema the worker names, and
    in no other; when it names none, in the table's own schema, or, only after
    binding it there has failed, in the catalog's default schema. The
    cardinalities of discovery are used for the current version alone. *)
Theorem table_function_searched catalog info at_ tr p :
  runs (bind_catalog_table_inner catalog info at_) tr (Ok p) ->
  exists attached scan arguments,
    existT (Attach catalog) (Ok attached) ∈ tr /\ existT (TableScanFunction info at_) (inl scan) ∈ tr /\
    vp_function p = sf_function_name scan /\ vp_at p = at_ /\
    (vp_cardinality_estimate p = if at_ then None else ti_cardinality_estimate info) /\
    match sf_schema_path scan with
    | Some path => path = [vp_schema_name p]
    | None =>
        ti_schema_path info = [vp_schema_name p] \/
        at_default_schema attached = Some (vp_schema_name p) /\
        exists table_schema before failed after e,
          ti_schema_path info = [table_schema] /\ table_schema <> vp_schema_name p /\ tr = before ++ failed ++ after /\
          runs (bind_table attached (table_spec (vp_function p) table_schema arguments at_) None) failed (Err e)
    end.
Proof.
  intros H. unfold TableBind.bind_catalog_table_inner in H.
  apply then_inv in H as (tr0 & tr9 & table_schema & -> & Ht & H). apply try_inv in Ht as [-> Ht%flat_path].
  apply then_inv in H as (tr1 & tr2 & [] & -> & _ & H). apply then_inv in H as (tr3 & tr4 & attached & -> & Ha & H).
  apply ask_inv in Ha as (ra & -> & Ha). cbn [id] in Ha.
  apply then_inv in H as (tr5 & tr6 & scan & -> & Hs & H). apply ask_inv in Hs as (rs & -> & ->%rpc_Ok).
  apply then_inv in H as (tr7 & tr8 & arguments & -> & _ & H).
  apply then_inv in H as (tr10 & tr11 & cands & -> & Hc & H). apply try_inv in Hc as [-> Hc].
  apply then_inv in H as (tr12 & tr13 & [[[s bound] caps] dep] & -> & Hf & H).
  apply then_inv in H as (tr14 & tr15 & constraints & -> & Hx & H). apply try_inv in Hx as [-> _].
  apply done_inv in H as [-> ->]. exists attached, scan, arguments. unfold id in Ha. subst ra.
  split; [set_solver|]. split; [set_solver|]. split; [done|]. split; [done|]. split; [by destruct at_|].
  unfold table_candidates in Hc. cbn [vp_schema_name vp_function bound_provider]. destruct (sf_schema_path scan) as [path|].
  - destruct (require_flat_schema_path path _) as [name|] eqn:Hp; [|done]. injection Hc as <-. apply flat_path in Hp as ->.
    apply bind_first_spec in Hf as (tried & rest & before & made & fs & Hc & _).
    destruct tried as [|? tried]; [by injection Hc as ->|]. injection Hc as _ Hc. by destruct tried.
  - injection Hc as <-. destruct (legacy_search _ _ _ _ _ _ _ _ _ _ _ Hf) as [->|(Hne & Hd & failed & rest & e & -> & He)]; [by left|].
    right. split; [done|]. exists table_schema, (tr1 ++ [existT (Attach catalog) (Ok attached)]
      ++ [existT (TableScanFunction info at_) (inl scan)] ++ tr7), failed, rest, e.
    split_and!; [done|congruence| |done]. rewrite !app_nil_r. cbn [app]. by rewrite <- ?app_assoc, <- ?app_comm_cons, <- ?app_assoc.
Qed.

(** The statistics of a bound function are asked for once. *)
Lemma statistics_asked_once try_from_array cast_to scalar_gt now p tr statistics p' :
  runs (R := Resp) (bound_function_statistics try_from_array cast_to scalar_gt now p) tr (statistics, p') ->
  vp_function_statistics p' = Some statistics /\
  forall tr' answer, runs (R := Resp) (bound_function_statistics try_from_array cast_to scalar_gt now p') tr' answer ->
    tr' = [] /\ answer = (statistics, p').
Proof.
  intros H. assert (Hcell : vp_function_statistics p' = Some statistics).
  { unfold bound_function_statistics in H. destruct (vp_function_statistics p) as [cell|] eqn:Hc.
    - apply runs_ret_inv in H as [_ [= -> ->]]. done.
    - apply runs_bind_inv in H as (tr1 & tr2 & [raw|e] & -> & _ & H).
      + apply runs_ret_inv in H as [_ [= -> ->]]. done.
      + apply runs_vis_inv in H as (r & tr3 & -> & H). apply runs_ret_inv in H as [_ [= -> ->]]. done. }
  split; [done|]. intros tr' answer H'. unfold bound_function_statistics in H'. rewrite Hcell in H'.
  by apply runs_ret_inv in H' as [-> ->].
Qed.
End Theorems.

(** ** A catalog whose function wants a key *)

Module Keyed.
Abbreviation Meta := (bool * list (string * string))%type.
Abbreviation Stream := (Arrow.RecordBatch Json.json).
Abbreviation Resp := (@TableBind.Resp Meta Stream unit nat string Z).
Abbreviation Call := (@TableBind.Call Meta Stream unit nat string).
Abbreviation planner := (@TableBind.planner Meta Stream unit nat string Z).
(** The first answer of the worker asks for a key, the second for nothing. *)
Definition asks (b : nat) : list CatalogDiscovery.SecretLookupRequest :=
  if (b =? 0)%nat then [CatalogDiscovery.mkSecret "weather" None (Some "key")] else [].
Definition quiet (b : nat) : list string := [].
Definition column : @ScanShape.Field DataType Meta := ScanShape.mkField "t" Int64 (true, []).
Definition schema_of (b : nat) : @ScanShape.Schema DataType Meta := ScanShape.mkSchema [column] (true, []).
Definition attached : AttachedCatalog := mkAttached 7 (Some "main") (Ok []).
Definition key : VgiResolvedSecret := mkResolved "key" [("token", SVPrim Utf8 (Some (PString "s3cret")))].
Definition struct_array (fs : list Arrow.Field) (arrays : list (ArrayRef Json.json)) : result (ArrayRef Json.json) :=
  Ok (TypedArray (Struct fs) [SVStruct fs [Some (flat_map array_values arrays)]]).
Definition settings : VgiSettings := with_cache_limits (mkLimits 64 256 10 5).
Definition scan_function : ScanFunction := mkScanFunction "forecast" [] None.
Definition info : TableInfo := mkTable (Raw := string) [] ["data"] (Some 5) None.
(** Nothing binds outside [main]. *)
Definition worker (past : list (event Resp)) (c : Call) : Resp c :=
  match c with
  | Connect => Ok tt
  | Attach _ => Ok attached
  | TableScanFunction _ _ => inl scan_function
  | CallBind spec _ _ => if String.eqb (spec_schema spec) "main" then inl 0%nat else inr (mkRpcError "BindError" "no such function")
  | CallBindResolved _ _ _ _ => inl 1%nat
  | Functions _ => inl []
  | TableFunctionStatistics _ => inr (mkRpcError "E" "none")
  | Emit _ => tt
  | SpawnResolver => Ok tt
  | Resolve _ => Some (Ok (Some key))
  end.
Definition forecast : planner (VgiTableProvider Meta unit nat Z) :=
  bind_catalog_table_inner struct_array true settings schema_of asks quiet tt (fun _ => Ok tt)
    (fun _ => Err (Plan "no constraint")) (fun _ => Err (Plan "no constraint")) "cat" info None.
Definition history : list (event Resp) := (interp worker [] forecast).1.
Definition provider : VgiTableProvider Meta unit nat Z :=
  bound_provider schema_of "cat" "main" "forecast" tt 1%nat default_capabilities (Some 5) None 7 true None (Some []) 1.
Lemma forecast_runs : runs (R := Resp) forecast history (Ok provider).
Proof.
  assert (H : (interp worker [] forecast).2 = Ok provider) by (vm_compute; reflexivity).
  rewrite <- H. apply interp_runs.
Qed.
Lemma forecast_binds :
  binds_provider struct_array true settings schema_of asks quiet tt (fun _ => Ok tt)
    (fun _ => Err (Plan "no constraint")) (fun _ => Err (Plan "no constraint")) forecast.
Proof. constructor. Qed.

Definition spec : ScanRun.BindSpec := table_spec "forecast" "main" tt None.
Definition retried : list (event Resp) := take 4 (drop 4 history).
Definition retry : planner (nat * bool) :=
  bind_retry struct_array true settings asks quiet attached spec None None.
Lemma retry_runs : runs (R := Resp) retry retried (Ok (1%nat, true)).
Proof.
  assert (H : interp worker [] retry = (retried, Ok (1%nat, true))) by (vm_compute; reflexivity).
  pose proof (interp_runs worker [] retry) as Hr. by rewrite H in Hr.
Qed.
(** The streams of scans are bytes; these are never read. *)
Definition scan_kernel : ArrowKernel Json.json (list ascii) := {|
  Arrow.cast_to v ty := Arrow.cast_to (Text := Json.json) (Bytes := Stream) v ty;
  iter_to_array vs := iter_to_array (Bytes := Stream) vs;
  to_array_of_size_1 v := to_array_of_size_1 (Bytes := Stream) v;
  try_new fs meta cols := try_new (Bytes := Stream) fs meta cols;
  ipc_write b := Ok [];
  ipc_read b := Err (ArrowError "empty");
  json_to_string j := j;
  json_from_str j := Ok j
|}.
Definition scanned := TableBind.scan (AK := scan_kernel) (PhysicalExpr := unit) (Predicate := unit) (Branches := unit)
  (fun _ : unit => Some []) schema_of
  (fun _ => None) (fun _ _ => None) (fun _ _ => None) (fun _ _ => None) (fun b => b =? 0)%nat (fun _ => None) "catalog"
  (fun _ => []) (fun s _ _ _ _ => unknown_statistics s) (fun _ _ _ _ => None) 0 5 ScanPlanningTheorems.ex_runtime false
  ex_conn 4 provider None ex_answer None [] None.
Definition scanned_node : ScanNode (Value := Z) :=
  match scanned.2 with Ok (VgiScan _ _ _ _ _ node) => node | _ => mkNode None None 0 false (mkStatistics Splits.Absent Splits.Absent []) [] (inl Unbounded) None end.
Definition exec : ScanExec (DataType := DataType) (Meta := unit) (Args := unit) (Plan := unit) :=
  mkExec (provider_request (fun _ => Some []) provider None (Filters.default_pushdown) None) tt [] [] (ScanShape.mkSchema [] tt)
    (ScanShape.mkSchema [] tt) None None None false false.
Definition request : ScanRequest := match scanned.2 with Ok (VgiScan r _ _ _ _ _) => r | _ => ScanPlanningTheorems.ex_request end.
Lemma scanned_is :
  scanned = (scanned.1, Ok (VgiScan request (schema_of 0) (schema_of 0) (schema_of 0) (schema_of 0) scanned_node)).
Proof. vm_compute. reflexivity. Qed.
End Keyed.

Lemma secrets_sent_once_witness :
  length Keyed.retried = 4%nat /\
  exists sent first, chosen_settings Keyed.settings Keyed.attached None = Ok sent /\
    one_bind Keyed.struct_array true Keyed.asks Keyed.quiet Keyed.spec sent None first 1%nat true Keyed.retried.
Proof. split; [vm_compute; reflexivity|]. apply secrets_sent_once. exact Keyed.retry_runs. Defined.

Lemma scan_repeats_bind_witness :
  exists before sent first after,
    Keyed.history = before ++ existT (CallBind (bind_spec Keyed.exec) sent None) (inl first) :: after /\
    Forall (fun e => ~ is_bind e) after /\
    (vp_secret_dependent Keyed.provider = false /\ vp_statistics_bind Keyed.provider = first \/
     vp_secret_dependent Keyed.provider = true /\ exists secrets,
       existT (CallBindResolved (bind_spec Keyed.exec) sent None secrets) (inl (vp_statistics_bind Keyed.provider)) ∈ after) /\
    vp_output_schema Keyed.provider = Keyed.schema_of (vp_statistics_bind Keyed.provider).
Proof.
  eapply (scan_repeats_bind Keyed.struct_array true Keyed.settings Keyed.schema_of Keyed.asks Keyed.quiet tt);
    [exact Keyed.forecast_binds|exact Keyed.forecast_runs|reflexivity|reflexivity].
Defined.

Lemma secret_scans_uncached_witness :
  plan_cache_key ex_conn Keyed.request 4 = None /\ nd_cache Keyed.scanned_node = inl SecretDependent /\
  nd_capture_partitions Keyed.scanned_node = None /\ rt_plan_cache Keyed.scanned.1 = rt_plan_cache ScanPlanningTheorems.ex_runtime.
Proof.
  eapply (secret_scans_uncached (HB := Keyed.scan_kernel) Keyed.struct_array true Keyed.settings Keyed.schema_of
            Keyed.asks Keyed.quiet tt _ _ _) with (before := take 4 Keyed.history) (after := drop 5 Keyed.history) (first := 0%nat)
            (spec := Keyed.spec) (sent := None);
    [exact Keyed.forecast_binds|exact Keyed.forecast_runs|vm_compute; reflexivity| |discriminate|].
  - assert (Forall (fun e => is_bind e -> False) (drop 5 Keyed.history)) as H by (repeat (constructor; [by intros []|]); constructor). exact H.
  - exact Keyed.scanned_is.
Defined.

Lemma table_function_searched_witness :
  exists attached scan arguments,
    existT (Attach "cat") (Ok attached) ∈ Keyed.history /\
    existT (TableScanFunction Keyed.info None) (inl scan) ∈ Keyed.history /\
    vp_function Keyed.provider = sf_function_name scan /\ vp_at Keyed.provider = None /\
    vp_cardinality_estimate Keyed.provider = Some 5 /\
    match sf_schema_path scan with
    | Some path => path = ["main"]
    | None =>
        ["data"] = ["main"] \/
        at_default_schema attached = Some "main" /\
        exists table_schema before failed after e,
          ["data"] = [table_schema] /\ table_schema <> "main" /\ Keyed.history = before ++ failed ++ after /\
          runs (R := Keyed.Resp)
            (bind_with_secrets_dependency Keyed.struct_array true Keyed.settings Keyed.asks Keyed.quiet attached
               (table_spec "forecast" table_schema arguments None) None) failed (Err e)
    end.
Proof.
  exact (table_function_searched Keyed.struct_array true Keyed.settings Keyed.schema_of Keyed.asks Keyed.quiet tt (fun _ => Ok tt)
           (fun _ => Err (Plan "no constraint")) (fun _ => Err (Plan "no constraint")) "cat" Keyed.info None Keyed.history
           Keyed.provider Keyed.forecast_runs).
Defined.
