(* ===== verification/Sampling.v ===== *)
(** * TABLESAMPLE (src/src/sampling.rs)

    The relation planner that hands a SYSTEM sample to the worker: it plans the
    relation without its sample, finds the one VGI scan it became, and gives that
    scan a provider with the sample hint of [TableBind.with_sample_hint]. *)

From S2P Require Import Prelude Text Arrow Identity TableBind.
From Stdlib Require Import Strings.Ascii.

#[local] Open Scope Z_scope.

(** ** Double precision by its bits *)

Definition f64_100 : Z := 0x4059000000000000.
Definition f64_is_finite (bits : Z) : bool := negb ((bits / 2 ^ 52) mod 2 ^ 11 =? 2047).
(** [(0.0..=100.0).contains]: the bits of non-negative numbers are in order, and
    [-0.0] equals [0.0]. *)
Definition f64_in_0_100 (bits : Z) : bool := (bits =? 2 ^ 63) || ((0 <=? bits) && (bits <=? f64_100)).

(** [str::parse::<i64>] *)
Definition parse_i64_str (s : string) : option Z :=
  match s with
  | String c r =>
      if Ascii.eqb c "-"%char then
        match r with
        | EmptyString => None
        | _ => n ← parse_digits 0 r; if n <=? 2 ^ 63 then Some (- n) else None
        end
      else n ← parse_usize_str s; if n <=? i64_max then Some n else None
  | EmptyString => None
  end.

Section Sampling.
Context {Meta Args Bound Value : Type}.
(** sqlparser's expressions and aliases, the rest of a table factor and of a
    scan, and DataFusion's expressions and schemas. *)
Context {SqlExpr Alias FactorRest ScanRest Expr Schema : Type}.
Abbreviation VgiTableProvider := (VgiTableProvider Meta Args Bound Value).

(** ** Syntax *)

Inductive TableSampleMethod := Bernoulli | System | Row | Block.
Inductive TableSampleUnit := Rows | Percent.
Record TableSampleQuantity := mkQuantity { qu_value : SqlExpr; qu_unit : option TableSampleUnit }.
(** A seed by its text; the clauses VGI refuses by their presence. *)
Record TableSample := mkTableSample {
  ts_name : option TableSampleMethod; ts_quantity : option TableSampleQuantity; ts_seed : option string;
  ts_bucket : bool; ts_offset : bool;
}.
Inductive TableSampleKind := BeforeTableAlias (sample : TableSample) | AfterTableAlias (sample : TableSample).
Inductive TableFactor :=
  | Table (sample : option TableSampleKind) (alias : option Alias) (rest : FactorRest)
  | OtherFactor (rest : FactorRest).
Inductive RelationPlanning (Plan : Type) :=
  | Original (relation : TableFactor)
  | Planned (plan : Plan) (alias : option Alias).
Arguments Original {Plan} relation.
Arguments Planned {Plan} plan alias.

(** ** Plans *)

Inductive Source := Vgi (provider : VgiTableProvider) | OtherSource (id : Z).
Inductive LogicalPlan :=
  | TableScan (source : Source) (scan : ScanRest)
  | OtherPlan (id : Z) (inputs : list LogicalPlan).

(** [rewrite_vgi_scans]: [transform_up], with the scans found so far. *)
Definition rewrite_inputs (rewrite : LogicalPlan -> nat -> result (LogicalPlan * nat))
    : list LogicalPlan -> nat -> result (list LogicalPlan * nat) :=
  fix each inputs found :=
    match inputs with
    | [] => Ok ([], found)
    | input :: inputs =>
        r ← rewrite input found;
        rs ← each inputs r.2;
        Ok (r.1 :: rs.1, rs.2)
    end.
Fixpoint rewrite_scans (sample : option Sample) (plan : LogicalPlan) (found : nat) : result (LogicalPlan * nat) :=
  match plan with
  | TableScan (Vgi provider) scan =>
      match sample with
      | None => Ok (plan, S found)
      | Some sample => provider ← with_sample_hint provider sample; Ok (TableScan (Vgi provider) scan, S found)
      end
  | TableScan (OtherSource _) _ => Ok (plan, found)
  | OtherPlan id inputs =>
      r ← rewrite_inputs (rewrite_scans sample) inputs found;
      Ok (OtherPlan id r.1, r.2)
  end.
Definition rewrite_vgi_scans (plan : LogicalPlan) (sample : option Sample) : result (LogicalPlan * nat) :=
  rewrite_scans sample plan 0.

(** ** The planner *)

(** The context: [plan], [sql_to_expr] and [parse_literal]; how Rust prints a
    number and sqlparser a method. *)
Variable context_plan : TableFactor -> result LogicalPlan.
Variable schema : LogicalPlan -> Schema.
Variable sql_to_expr : SqlExpr -> Schema -> result Expr.
Variable parse_literal : Expr -> result Z.
Variable show_f64 : Z -> string.
Variable show_method : TableSampleMethod -> string.

Definition sample_of (kind : TableSampleKind) : TableSample :=
  match kind with BeforeTableAlias sample | AfterTableAlias sample => sample end.
Definition sample_percentage (sample : TableSample) (input : LogicalPlan) : result Z :=
  match ts_quantity sample with
  | None => Err (Plan "VGI TABLESAMPLE requires a percentage")
  | Some quantity =>
      match qu_unit quantity with
      | Some Percent =>
          expr ← sql_to_expr (qu_value quantity) (schema input);
          percentage ← parse_literal expr;
          if negb (f64_is_finite percentage) || negb (f64_in_0_100 percentage)
          then Err (Plan ("VGI TABLESAMPLE percentage must be between 0 and 100, got " +:+ show_f64 percentage))
          else Ok percentage
      | _ => Err (NotImplemented "VGI TABLESAMPLE supports percentage sampling only")
      end
  end.
Definition sample_seed (sample : TableSample) : result (option Z) :=
  match ts_seed sample with
  | None => Ok None
  | Some seed => seed ← ok_or (Plan "TABLESAMPLE seed must be an integer") (parse_i64_str seed); Ok (Some seed)
  end.
Definition plan_relation (relation : TableFactor) : result (RelationPlanning LogicalPlan) :=
  match relation with
  | Table (Some kind) alias rest =>
      let sample := sample_of kind in
      input ← context_plan (Table None alias rest);
      counted ← rewrite_vgi_scans input None;
      let input := counted.1 in
      match counted.2 with
      | O => Ok (Original relation)
      | 1%nat =>
          if ts_offset sample || ts_bucket sample
          then Err (NotImplemented "VGI TABLESAMPLE does not support OFFSET or BUCKET sampling")
          else
            percentage ← sample_percentage sample input;
            seed ← sample_seed sample;
            plan ← match ts_name sample with
                   | Some System => r ← rewrite_vgi_scans input (Some (mkSample percentage seed)); Ok r.1
                   | Some Bernoulli =>
                       if percentage =? f64_100 then Ok input
                       else Err (NotImplemented ("VGI TABLESAMPLE " +:+ show_method Bernoulli +:+
                              " is not supported; only SYSTEM percentage sampling and BERNOULLI(100 PERCENT) are available"))
                   | Some method =>
                       Err (NotImplemented ("VGI TABLESAMPLE " +:+ show_method method +:+
                              " is not supported; only SYSTEM percentage sampling and BERNOULLI(100 PERCENT) are available"))
                   | None => Err (NotImplemented "VGI TABLESAMPLE requires the SYSTEM method")
                   end;
            Ok (Planned plan alias)
      | _ => Err (NotImplemented "TABLESAMPLE on a relation expanding to multiple VGI scans is not supported")
      end
  | _ => Ok (Original relation)
  end.

(** ** Installing the planner *)

(** [ensure_registered]: the sessions that have the planner, by id, with their
    runtime held weakly; [alive] says which runtimes are still held, and
    [register] what the context answers. *)
Definition ensure_registered (alive : nat -> bool) (register : result unit) (sessions : gmap string nat)
    (session_id : string) (runtime : nat) : gmap string nat * result bool :=
  let sessions := filter (fun e => alive e.2 = true) sessions in
  match sessions !! session_id with
  | Some _ => (sessions, Ok false)
  | None =>
      match register with
      | Ok _ => (<[session_id := runtime]> sessions, Ok true)
      | Err e => (sessions, Err e)
      end
  end.

(** ** What becomes of the scans *)

Fixpoint vgi_scans (plan : LogicalPlan) : list VgiTableProvider :=
  match plan with
  | TableScan (Vgi provider) _ => [provider]
  | TableScan (OtherSource _) _ => []
  | OtherPlan _ inputs => flat_map vgi_scans inputs
  end.
Fixpoint with_provider (f : VgiTableProvider -> VgiTableProvider) (plan : LogicalPlan) : LogicalPlan :=
  match plan with
  | TableScan (Vgi provider) scan => TableScan (Vgi (f provider)) scan
  | TableScan (OtherSource _) _ => plan
  | OtherPlan id inputs => OtherPlan id (map (with_provider f) inputs)
  end.
Lemma plan_ind' (P : LogicalPlan -> Prop) :
  (forall source scan, P (TableScan source scan)) ->
  (forall id inputs, Forall P inputs -> P (OtherPlan id inputs)) -> forall plan, P plan.
Proof.
  intros Hs Ho. fix IH 1. intros [source scan|id inputs]; [apply Hs|apply Ho].
  induction inputs as [|input inputs IHi]; constructor; [apply IH|exact IHi].
Qed.
Lemma with_provider_ext f g plan :
  (forall p, p ∈ vgi_scans plan -> f p = g p) -> with_provider f plan = with_provider g plan.
Proof.
  induction plan as [[p|i] scan|id inputs IH] using plan_ind'; cbn; intros H; [|done|].
  - rewrite H; [done|by left].
  - f_equal. induction IH as [|input inputs Hi _ IH]; [done|]. cbn in *. rewrite Hi by (intros; apply H, elem_of_app; by left).
    rewrite IH; [done|]. intros. apply H, elem_of_app. by right.
Qed.
(** Counting changes nothing. *)
Lemma count_scans plan found : rewrite_scans None plan found = Ok (plan, found + length (vgi_scans plan))%nat.
Proof.
  revert found. induction plan as [[p|i] scan|id inputs IH] using plan_ind'; intros found; cbn.
  - f_equal. f_equal. lia.
  - by rewrite Nat.add_0_r.
  - assert (rewrite_inputs (rewrite_scans None) inputs found = Ok (inputs, found + length (flat_map vgi_scans inputs))%nat) as ->; [|done].
    revert found. induction IH as [|input inputs Hi _ IH]; intros found; cbn; [by rewrite Nat.add_0_r|].
    rewrite Hi. cbn. rewrite IH. cbn. by rewrite length_app, Nat.add_assoc.
Qed.
(** Sampling gives every VGI scan the sample, or fails. *)
Definition sampled (sample : Sample) (p : VgiTableProvider) : VgiTableProvider :=
  match with_sample_hint p sample with Ok p => p | Err _ => p end.
Lemma sample_scans sample plan found plan' found' :
  rewrite_scans (Some sample) plan found = Ok (plan', found') ->
  plan' = with_provider (sampled sample) plan /\ Forall (fun p => vp_sampling_pushdown p = true) (vgi_scans plan).
Proof.
  revert found plan' found'. induction plan as [[p|i] scan|id inputs IH] using plan_ind'; intros found plan' found'; cbn.
  - destruct (with_sample_hint p sample) as [p'|] eqn:Hp; [|done]. intros [= <- <-]. unfold sampled. rewrite Hp. split; [done|].
    constructor; [|done]. unfold with_sample_hint in Hp. by destruct (vp_sampling_pushdown p).
  - intros [= <- <-]. done.
  - assert (forall inputs' found', rewrite_inputs (rewrite_scans (Some sample)) inputs found = Ok (inputs', found') ->
      inputs' = map (with_provider (sampled sample)) inputs /\
      Forall (fun p => vp_sampling_pushdown p = true) (flat_map vgi_scans inputs)) as Heach.
    { revert found. induction IH as [|input inputs Hi _ IH]; intros found inputs' f'; cbn; [intros [= <- <-]; done|].
      destruct (rewrite_scans (Some sample) input found) as [[i' f1]|] eqn:Hr; [|done]. cbn.
      destruct (rewrite_inputs _ inputs f1) as [[is' f2]|] eqn:He; [|done]. cbn. intros [= <- <-].
      destruct (Hi _ _ _ Hr) as [-> Hall]. destruct (IH _ _ _ He) as [-> Hall']. split; [done|]. by apply Forall_app. }
    destruct (rewrite_inputs _ inputs found) as [[is' f1]|]; [|done]. cbn. intros [= <- <-].
    destruct (Heach _ _ eq_refl) as [-> ?]. done.
Qed.

(** C17: a sampled relation is planned only when it becomes one VGI scan, and then
    as it is without the sample except that this scan's provider carries the
    percentage and seed; the worker must have advertised sampling, and the
    percentage lies between 0 and 100. Only a Bernoulli sample of 100 percent
    leaves the provider alone. *)
Theorem sample_reaches_its_scan kind alias rest plan alias' :
  plan_relation (Table (Some kind) alias rest) = Ok (Planned plan alias') ->
  exists input p percentage seed,
    context_plan (Table None alias rest) = Ok input /\ vgi_scans input = [p] /\ alias' = alias /\
    sample_percentage (sample_of kind) input = Ok percentage /\ f64_in_0_100 percentage = true /\
    sample_seed (sample_of kind) = Ok seed /\
    ((ts_name (sample_of kind) = Some System /\
       exists p', with_sample_hint p (mkSample percentage seed) = Ok p' /\ vp_sample p' = Some (mkSample percentage seed) /\
         vp_sampling_pushdown p = true /\ plan = with_provider (fun _ => p') input) \/
     ts_name (sample_of kind) = Some Bernoulli /\ percentage = f64_100 /\ plan = input).
Proof.
  cbn [plan_relation]. destruct (context_plan _) as [input|]; [|done]. cbn. unfold rewrite_vgi_scans. rewrite count_scans. cbn.
  destruct (vgi_scans input) as [|p [|]] eqn:Hscans; [done| |done]. cbn.
  destruct (ts_offset _ || ts_bucket _); [done|].
  destruct (sample_percentage _ _) as [percentage|] eqn:Hp; [|done]. cbn.
  destruct (sample_seed _) as [seed|] eqn:Hs; [|done]. cbn. intros Hplan. exists input, p, percentage, seed.
  assert (Hrange : f64_in_0_100 percentage = true).
  { unfold sample_percentage in Hp. destruct (ts_quantity _) as [[v [[]|]]|]; try done. cbn in Hp.
    destruct (sql_to_expr _ _); [|done]. cbn in Hp. destruct (parse_literal _) as [bits|]; [|done]. cbn in Hp.
    destruct (f64_in_0_100 bits) eqn:Hr; [|by rewrite orb_true_r in Hp]. rewrite orb_false_r in Hp.
    destruct (negb _); [done|]. by injection Hp as <-. }
  destruct (ts_name _) as [[]|]; try done.
  - destruct (Z.eqb_spec percentage f64_100); [|done]. injection Hplan as <- <-. split_and!; try done. by right.
  - destruct (rewrite_scans _ input 0) as [[plan' n]|] eqn:Hr; [|done]. cbn in Hplan. injection Hplan as <- <-.
    apply sample_scans in Hr as [-> Hall]. assert (vp_sampling_pushdown p = true) as Hall' by (rewrite Forall_forall in Hall; apply Hall; rewrite Hscans; by left).
    clear Hall. rename Hall' into Hall.
    split_and!; try done. left. split; [done|].
    destruct (with_sample_hint p (mkSample percentage seed)) as [p'|] eqn:Hh; [|unfold with_sample_hint in Hh; by rewrite Hall in Hh].
    exists p'. split; [done|]. split; [unfold with_sample_hint in Hh; rewrite Hall in Hh; by injection Hh as <-|]. split; [done|].
    apply with_provider_ext. rewrite Hscans. intros q ->%list_elem_of_singleton. unfold sampled. by rewrite Hh.
Qed.
End Sampling.

(** ** A sample of ten percent *)

Module Tenth.
Abbreviation Provider := (TableBind.VgiTableProvider unit unit nat Z).
Definition provider : Provider :=
  bound_provider (fun _ => ScanShape.mkSchema [] tt) "cat" "main" "rows" tt 0%nat
    (Connections.mkCapabilities false None None true false) None None 1 false None None 1.
Definition base : @LogicalPlan unit unit nat Z unit := OtherPlan 7 [TableScan (Vgi provider) tt].
Definition f64_10 : Z := 0x4024000000000000.
Definition sample : @TableSample unit := mkTableSample (Some System) (Some (mkQuantity tt (Some Percent))) (Some "-3") false false.
Definition kind := AfterTableAlias sample.
Definition context_plan (relation : @TableFactor unit unit unit) := Ok base.
Definition planned := plan_relation context_plan (fun _ => tt) (fun _ _ => Ok tt) (fun _ : unit => Ok f64_10) (fun _ => "10")
  (fun _ => "SYSTEM") (Table (Some kind) None tt).
Definition plan := match planned with Ok (Planned _ plan _) => plan | _ => base end.
End Tenth.

Lemma sample_reaches_its_scan_witness :
  vgi_scans Tenth.plan <> [Tenth.provider] /\
  exists input p percentage seed,
    Tenth.context_plan (Table None None tt) = Ok input /\ vgi_scans input = [p] /\ None = (None : option unit) /\
    sample_percentage (fun _ => tt) (fun _ _ => Ok tt) (fun _ : unit => Ok Tenth.f64_10) (fun _ => "10") (sample_of Tenth.kind) input
      = Ok percentage /\ f64_in_0_100 percentage = true /\
    sample_seed (sample_of Tenth.kind) = Ok seed /\
    ((ts_name (sample_of Tenth.kind) = Some System /\
       exists p', with_sample_hint p (mkSample percentage seed) = Ok p' /\ vp_sample p' = Some (mkSample percentage seed) /\
         vp_sampling_pushdown p = true /\ Tenth.plan = with_provider (fun _ => p') input) \/
     ts_name (sample_of Tenth.kind) = Some Bernoulli /\ percentage = f64_100 /\ Tenth.plan = input).
Proof.
  split; [vm_compute; discriminate|].
  eapply (sample_reaches_its_scan Tenth.context_plan (fun _ => tt) (fun _ _ => Ok tt) (fun _ : unit => Ok Tenth.f64_10)
    (fun _ => "10") (fun _ => "SYSTEM") Tenth.kind None tt Tenth.plan None). vm_compute. reflexivity.
Defined.
