(* ===== verification/SqlFront.v ===== *)
(** * The SQL front end (src/src/session.rs: [sql])

    A pre-pass around DataFusion's planner: session settings are mirrored into
    the runtime, SET and RESET reach the [vgi] namespace, ATTACH and DETACH are
    taken out, and [table AT (...)] relations are replaced by private tables of
    one version for as long as the statement is planned. DataFusion, the parser
    and the rest of the adapter answer calls (Interact.v). *)

From S2P Require Import Prelude Text Settings Runtime AttachSql SqlTree Interact.
From Stdlib Require Import Strings.Ascii.

#[local] Open Scope Z_scope.

(** ** Syntax *)

(** [Value]: numbers by their text, the kinds of strings, NULL. *)
Inductive SqlValue :=
  | Number (text : string) | SingleQuotedString (s : string) | DoubleQuotedString (s : string)
  | OtherString (s : string) | Null | OtherValue (id : Z).
(** [Value::into_string] *)
Definition into_string (v : SqlValue) : option string :=
  match v with
  | SingleQuotedString s | DoubleQuotedString s | OtherString s => Some s
  | _ => None
  end.
Inductive SqlExpr :=
  | EValue (v : SqlValue)
  | UnaryMinus (e : SqlExpr)
  | TypedString (data_type : string) (v : SqlValue)
  | Identifier (s : string)
  | OtherExpr (text : string).
Inductive FunctionArg :=
  | NamedArg (name : string) (value : SqlExpr)
  | ExprNamedArg (name : SqlExpr) (value : SqlExpr)
  | OtherArg.
Inductive FunctionArguments := ArgList (args : list FunctionArg) (clauses : bool) | OtherArguments.
Inductive TableVersion := VersionFunction (name : string) (args : FunctionArguments) | OtherVersion.
(** A statement's table factors, in visiting order, with whatever is below. An
    alias is its name; [ObjectName] as in [SqlTree]. *)
Inductive Tree :=
  | Factor (name : ObjectName) (alias : option string) (version : option TableVersion) (children : list Tree)
  | Branch (id : Z) (children : list Tree).

Inductive SqlStatement :=
  | SetVariable (variable : ObjectName) (tree : Tree)
  | AttachDatabase (schema_name : string) (file_name : SqlExpr)
  | AttachDuckDBDatabase (path : string) (alias : option string)
  | DetachDuckDBDatabase (alias : string)
  | OrdinaryStatement (tree : Tree).
(** [DFStatement] *)
Inductive Statement :=
  | SqlStmt (s : SqlStatement)
  | Explain (s : Statement)
  | ResetVariable (variable : ObjectName)
  | OtherStatement (id : Z).

(** ** Services of a session *)

(** The process-wide registries of runtimes and lifecycle locks: by session id,
    what is registered being held weakly. [alive] says what is still held, and
    [fresh] is what is made when nothing is. *)
Section Registries.
Variable alive : nat -> bool.
Definition registered (registry : gmap string nat) (session_id : string) (fresh : nat) : nat * gmap string nat :=
  let registry := filter (fun e => alive e.2 = true) registry in
  match registry !! session_id with
  | Some held => (held, registry)
  | None => (fresh, <[session_id := fresh]> registry)
  end.
(** The runtime is the session's extension if it has one. *)
Definition session_runtime (extension : option nat) (registry : gmap string nat) (session_id : string) (fresh : nat)
    : nat * gmap string nat :=
  match extension with
  | Some runtime => (runtime, registry)
  | None => registered registry session_id fresh
  end.
Definition session_lifecycle_lock (registry : gmap string nat) (session_id : string) (fresh : nat) : nat * gmap string nat :=
  registered registry session_id fresh.
End Registries.

(** [record_default_schema] *)
Definition record_default_schema (registry : gmap string (gmap string string)) (session_id alias schema : string)
    : gmap string (gmap string string) :=
  <[session_id := <[to_ascii_lowercase alias := schema]> (default ∅ (registry !! session_id))]> registry.

(** ** Settings statements *)

Section Settings.
Context {Plan Branches : Type}.
Abbreviation Runtime := (@VgiRuntime Plan Branches).
(** The config extension of the session and the runtime that mirrors it. *)
Record Front := mkFront { config : option VgiSettings; runtime : Runtime }.

Definition ensure_vgi_settings (f : Front) : Front :=
  match config f with
  | Some _ => f
  | None => mkFront (Some (with_cache_limits (rt_cache_limits (runtime f)))) (runtime f)
  end.
Definition sync_vgi_settings (f : Front) : Front :=
  match config f with
  | Some settings => mkFront (config f) (replace_session_settings (runtime f) settings)
  | None => f
  end.
Definition declared_vgi_setting (runtime : Runtime) (name : string) : bool :=
  existsb (fun e => existsb (fun setting => eq_ignore_ascii_case (spec_name setting) name) (md_settings e.2))
    (map_to_list (rt_catalog_metadata runtime)).
(** Whether a name has the prefix, and what it is without. *)
Definition setting_object_name (name : ObjectName) : option (bool * string) :=
  match name with
  | [part] => s ← as_ident part; Some (false, to_ascii_lowercase s)
  | [prefix; part] =>
      p ← as_ident prefix;
      if eq_ignore_ascii_case p "vgi" then s ← as_ident part; Some (true, to_ascii_lowercase s) else None
  | _ => None
  end.
Definition qualify_vgi_set (statement : Statement) (runtime : Runtime) : Statement :=
  match statement with
  | SqlStmt (SetVariable variable tree) =>
      match setting_object_name variable with
      | Some (prefixed, name) =>
          if negb prefixed && (is_adapter_setting name || declared_vgi_setting runtime name)
          then SqlStmt (SetVariable (PartIdent "vgi" :: variable) tree) else statement
      | None => statement
      end
  | _ => statement
  end.
(** Whether the statement was handled, and the session afterwards. *)
Definition reset_vgi_setting (statement : Statement) (f : Front) : Front * result bool :=
  match statement with
  | ResetVariable variable =>
      match setting_object_name variable with
      | None => (f, Ok false)
      | Some (prefixed, name) =>
          let configured := match config f with Some s => is_some (get_setting s name) | None => false end in
          let adapter_owned := is_adapter_setting name in
          let known := adapter_owned || declared_vgi_setting (runtime f) name || configured in
          if negb prefixed && negb known then (f, Ok false)
          else if prefixed && negb known then (f, Err (Prelude.Plan ("unknown VGI setting `" +:+ name +:+ "`")))
          else match config f with
               | None => (f, Err (Panicked "VGI settings extension was installed"))
               | Some settings =>
                   let settings := (reset_value settings name).1 in
                   (mkFront (Some settings) (replace_session_settings (runtime f) settings), Ok true)
               end
      end
  | _ => (f, Ok false)
  end.
End Settings.
Arguments Front Plan Branches : clear implicits.

(** ** Statements that are taken out *)

Inductive Intercepted := AttachStmt (target alias : string) | DetachStmt (alias : string).
Definition expr_text (show : SqlExpr -> string) (e : SqlExpr) : string := show e.
Definition string_literal (show : SqlExpr -> string) (e : SqlExpr) : result string :=
  match e with
  | EValue (SingleQuotedString s) | EValue (DoubleQuotedString s) => Ok s
  | other => Err (Prelude.Plan ("ATTACH target must be a string literal, found: " +:+ show other))
  end.
Definition classify (show : SqlExpr -> string) (statement : Statement) : result (option Intercepted) :=
  match statement with
  | SqlStmt (AttachDatabase schema_name file_name) =>
      target ← string_literal show file_name; Ok (Some (AttachStmt target schema_name))
  | SqlStmt (AttachDuckDBDatabase path alias) => Ok (Some (AttachStmt path (default path alias)))
  | SqlStmt (DetachDuckDBDatabase alias) => Ok (Some (DetachStmt alias))
  | _ => Ok None
  end.

(** ** Time travel *)

Definition to_upper (c : ascii) : ascii :=
  let n := nat_of_ascii c in if (97 <=? n)%nat && (n <=? 122)%nat then ascii_of_nat (n - 32) else c.
Definition to_ascii_uppercase (s : string) : string := string_of (map to_upper (bytes_of s)).
Fixpoint contains_bytes (p l : list ascii) : bool :=
  is_some (drop_prefix p l) || match l with [] => false | _ :: l => contains_bytes p l end.
Definition contains_time_travel_clause (sql : string) : bool :=
  let upper := bytes_of (to_ascii_uppercase sql) in
  contains_bytes (bytes_of " AT (") upper || contains_bytes (bytes_of " AT(") upper.

Definition version_error : DFError := Prelude.Plan "VGI AT VERSION value must be an integer literal".
Definition timestamp_error : DFError := Prelude.Plan "VGI AT TIMESTAMP value must be a timestamp literal".
(** [str::starts_with] *)
Definition starts_with (prefix s : string) : bool := is_some (drop_prefix (bytes_of prefix) (bytes_of s)).
Definition expr_value (e : SqlExpr) (unit_ : string) : result string :=
  match e with
  | EValue Null => Err (Prelude.Plan "VGI time travel value must not be NULL")
  | _ =>
      if String.eqb unit_ "VERSION" then
        match e with
        | EValue (Number number) => Ok number
        | UnaryMinus (EValue (Number number)) => Ok ("-" +:+ number)
        | _ => Err version_error
        end
      else if String.eqb unit_ "TIMESTAMP" then
        match e with
        | TypedString data_type v =>
            if starts_with "TIMESTAMP" (to_ascii_uppercase data_type) then ok_or timestamp_error (into_string v)
            else Err timestamp_error
        | EValue v => ok_or timestamp_error (into_string v)
        | _ => Err timestamp_error
        end
      else Err (Prelude.Plan "VGI time travel unit must be VERSION or TIMESTAMP")
  end.
Abbreviation At := (string * string)%type.
Definition parse_at (version : TableVersion) : result At :=
  match version with
  | VersionFunction name args =>
      if negb (eq_ignore_ascii_case name "AT") then Err (Prelude.Plan "VGI time travel only supports the AT clause")
      else
        match args with
        | ArgList [arg] false =>
            named ← match arg with
                    | NamedArg name value | ExprNamedArg (Identifier name) value => Ok (name, value)
                    | _ => Err (Prelude.Plan "VGI AT requires VERSION => value or TIMESTAMP => value")
                    end;
            let unit_ := to_ascii_uppercase named.1 in
            value ← expr_value named.2 unit_;
            Ok (unit_, value)
        | _ => Err (Prelude.Plan "VGI AT requires exactly one named argument")
        end
  | OtherVersion => Err (Prelude.Plan "VGI time travel uses AT (VERSION => ...) or AT (TIMESTAMP => ...)")
  end.

Record HistoricalTable := mkHistorical { hidden : string; ht_catalog : string; ht_schema : string; ht_table : string; ht_at : At }.
Definition hidden_name (n : Z) : string := "__vgi_time_travel_" +:+ pretty n.
(** The visitor, [ids] giving what the statement's turns at the global counter
    return; with the tables found so far. *)
Section Extract.
Variable ids : nat -> Z.
Definition extract_all (extract : Tree -> list HistoricalTable -> result (Tree * list HistoricalTable))
    : list Tree -> list HistoricalTable -> result (list Tree * list HistoricalTable) :=
  fix each trees tables :=
    match trees with
    | [] => Ok ([], tables)
    | tree :: trees =>
        r ← extract tree tables;
        rs ← each trees r.2;
        Ok (r.1 :: rs.1, rs.2)
    end.
Definition historical (name : ObjectName) (version : TableVersion) (tables : list HistoricalTable) : result HistoricalTable :=
  match omap as_ident name with
  | [catalog; schema; table] =>
      at_ ← parse_at version;
      Ok (mkHistorical (hidden_name (ids (length tables))) catalog schema table at_)
  | _ => Err (Prelude.Plan "VGI time travel requires a fully qualified catalog.schema.table name")
  end.
Fixpoint extract (tree : Tree) (tables : list HistoricalTable) : result (Tree * list HistoricalTable) :=
  match tree with
  | Factor name alias None children =>
      r ← extract_all extract children tables; Ok (Factor name alias None r.1, r.2)
  | Factor name alias (Some version) children =>
      table ← historical name version tables;
      r ← extract_all extract children (tables ++ [table]);
      Ok (Factor [PartIdent (hidden table)] (Some (default (ht_table table) alias)) None r.1, r.2)
  | Branch id children => r ← extract_all extract children tables; Ok (Branch id r.1, r.2)
  end.
(** The statement with its versions taken out; EXPLAIN is looked into. *)
Fixpoint extract_statement (statement : Statement) : result (Statement * list HistoricalTable) :=
  match statement with
  | SqlStmt (OrdinaryStatement tree) => r ← extract tree []; Ok (SqlStmt (OrdinaryStatement r.1), r.2)
  | SqlStmt (SetVariable variable tree) => r ← extract tree []; Ok (SqlStmt (SetVariable variable r.1), r.2)
  | SqlStmt s => Ok (SqlStmt s, [])
  | Explain s => r ← extract_statement s; Ok (Explain r.1, r.2)
  | _ => Ok (statement, [])
  end.
End Extract.

(** ** The statement *)

Section Sql.
Context {Plan Branches Provider LogicalPlan DataFrame : Type}.
Abbreviation Front := (Front Plan Branches).

(** A catalog of the session, as [downcast_ref::<VgiCatalogProvider>] sees it. *)
Inductive CatalogKind := NoCatalog | ForeignCatalog | VgiCatalog.
Inductive Call :=
  (** planners, parsers, ATTACH and DETACH *)
  | EnsureSamplePlanner | EnsureTableInputPlanner | RegisterDiagnostics
  | SqlToStatement (query : string) | ParseSnowflake (query : string)
  | DoAttach (spec : AttachSpec) | DoDetach (alias : string)
  (** time travel *)
  | Catalog (name : string) | TableAt (catalog schema table : string) (at_ : At)
  | RegisterTable (hidden : string) (provider : Provider) | DeregisterTable (hidden : string)
  (** the rewrite of [SqlRewrite], DataFusion's planning and execution, which
      may change the session's configuration *)
  | RewriteVgiSql (statement : Statement)
  | StatementToPlan (statement : Statement) (settings : VgiSettings)
  | ExecuteLogicalPlan (plan : LogicalPlan).
Definition Resp (c : Call) : Type :=
  match c with
  | EnsureSamplePlanner | EnsureTableInputPlanner => result unit
  | RegisterDiagnostics => unit
  | SqlToStatement _ => result Statement
  | ParseSnowflake _ => option (list Statement)
  | DoAttach _ => result unit
  | DoDetach _ => result unit
  | Catalog _ => CatalogKind
  | TableAt _ _ _ _ => result Provider
  | RegisterTable _ _ => result unit
  | DeregisterTable _ => unit
  | RewriteVgiSql _ => result Statement
  | StatementToPlan _ _ => option VgiSettings * result LogicalPlan
  | ExecuteLogicalPlan _ => option VgiSettings * result DataFrame
  end.
Abbreviation front := (body Resp Front).
#[local] Notation "x <-- m ;;; k" := (bind m (fun x => k)) (at level 100, m at next level, right associativity).
#[local] Notation "m ;;; k" := (bind m (fun _ => k)) (at level 100, right associativity).
(** A call and [?] on its answer. *)
Definition ask (c : Call) {A} (to_result : Resp c -> result A) : front A := r <-- do_ c ;;; try_ (to_result r).
Definition modify (g : Front -> Front) : front unit := f <-- get_state ;;; put_state (g f).

Variable unicode_alphanumeric : str -> bool.
Variable show_expr : SqlExpr -> string.
Variable ids : nat -> Z.
(** [ctx.read_empty()] *)
Variable read_empty : DataFrame.

(** *** Time travel *)

Definition table_provider (table : HistoricalTable) : front (string * Provider) :=
  kind <-- do_ (Catalog (ht_catalog table)) ;;;
  match kind with
  | NoCatalog => fail (Prelude.Plan ("catalog `" +:+ ht_catalog table +:+ "` does not exist"))
  | ForeignCatalog =>
      fail (Prelude.Plan ("time travel relation `" +:+ ht_schema table +:+ "." +:+ ht_table table +:+ "` is not in a VGI catalog"))
  | VgiCatalog =>
      bound <-- ask (TableAt (ht_catalog table) (ht_schema table) (ht_table table) (ht_at table)) id ;;;
      ret (hidden table, bound)
  end.
Fixpoint table_providers (tables : list HistoricalTable) : front (list (string * Provider)) :=
  match tables with
  | [] => ret []
  | table :: tables => p <-- table_provider table ;;; ps <-- table_providers tables ;;; ret (p :: ps)
  end.
Fixpoint register_tables (providers : list (string * Provider)) : front (list string) :=
  match providers with
  | [] => ret []
  | (hidden, provider) :: providers =>
      ask (RegisterTable hidden provider) id ;;;
      registered <-- register_tables providers ;;;
      ret (hidden :: registered)
  end.
Definition rewrite_time_travel (statement : Statement) : front (Statement * list string) :=
  extracted <-- try_ (extract_statement ids statement) ;;;
  providers <-- table_providers extracted.2 ;;;
  registered <-- register_tables providers ;;;
  ret (extracted.1, registered).

(** *** [sql] *)

(** The parse, with Snowflake's dialect for statements that travel in time. *)
Definition parse_statement (query : string) : front Statement :=
  parsed <-- do_ (SqlToStatement query) ;;;
  match parsed with
  | Ok statement => ret statement
  | Err original =>
      if contains_time_travel_clause query then
        statements <-- do_ (ParseSnowflake query) ;;;
        match statements with
        | None => fail original
        | Some [statement] => ret statement
        | Some _ => fail (Prelude.Plan "the context currently only supports a single SQL statement")
        end
      else fail original
  end.
(** Planning with the private tables in place, and then without them. *)
Definition plan_statement (statement : Statement) : front LogicalPlan :=
  rewritten <-- do_ (RewriteVgiSql statement) ;;;
  match rewritten with
  | Err error => fail error
  | Ok statement =>
      f <-- get_state ;;;
      answer <-- do_ (StatementToPlan statement (rt_session_settings (runtime f))) ;;;
      modify (fun f => mkFront answer.1 (runtime f)) ;;;
      try_ answer.2
  end.
(** A body whose error is kept for later. *)
Definition catch {A} (m : front A) : front (result A) :=
  fun f => prog_bind (m f) (fun r => Ret (r.1, Ok r.2)).
Definition ordinary (statement : Statement) : front DataFrame :=
  travelled <-- rewrite_time_travel statement ;;;
  plan <-- catch (plan_statement travelled.1) ;;;
  for_each travelled.2 (fun hidden => do_ (DeregisterTable hidden)) ;;;
  plan <-- try_ plan ;;;
  answer <-- do_ (ExecuteLogicalPlan plan) ;;;
  modify (fun f => mkFront answer.1 (runtime f)) ;;;
  frame <-- try_ answer.2 ;;;
  modify sync_vgi_settings ;;;
  ret frame.
Definition sql (query : string) : front DataFrame :=
  modify ensure_vgi_settings ;;;
  ask EnsureSamplePlanner id ;;;
  ask EnsureTableInputPlanner id ;;;
  do_ RegisterDiagnostics ;;;
  modify sync_vgi_settings ;;;
  match parse_duckdb_attach unicode_alphanumeric (bytes_of query) with
  | Some spec => spec <-- try_ spec ;;; ask (DoAttach spec) id ;;; ret read_empty
  | None =>
      statement <-- parse_statement query ;;;
      f <-- get_state ;;;
      let '(f, handled) := reset_vgi_setting statement f in
      put_state f ;;;
      handled <-- try_ handled ;;;
      if (handled : bool) then ret read_empty
      else
        let statement := qualify_vgi_set statement (runtime f) in
        intercepted <-- try_ (classify show_expr statement) ;;;
        match intercepted with
        | Some (AttachStmt target alias) =>
            spec <-- try_ (attach_spec_parse (bytes_of target) (bytes_of alias)) ;;;
            ask (DoAttach spec) id ;;; ret read_empty
        | Some (DetachStmt alias) => ask (DoDetach alias) id ;;; ret read_empty
        | None => ordinary statement
        end
  end.
End Sql.

(** ** Views of an attached catalog *)

Section Views.
Context {Syntax LogicalPlan : Type}.
(** DataFusion's parser and planner, [qualify_catalog_sql] (SqlQualify) with the
    owning schema, the rewrite, and how an error is printed. *)
Variable sql_to_statement : string -> result Syntax.
Variable qualify_catalog_sql : string -> Syntax -> Syntax.
Variable rewrite_vgi_sql : Syntax -> result Syntax.
Variable statement_to_plan : Syntax -> result LogicalPlan.
Variable error_text : DFError -> string.
(** [ViewTable]: the plan and its definition. *)
Record ViewTable := mkView { view_plan : LogicalPlan; view_definition : string }.
Definition plan_view (schema definition : string) : result ViewTable :=
  statement ← sql_to_statement definition;
  statement ← rewrite_vgi_sql (qualify_catalog_sql schema statement);
  plan ← statement_to_plan statement;
  Ok (mkView plan definition).
Definition planned_view (schema definition : string) : ViewTable + string :=
  match plan_view schema definition with Ok view => inl view | Err error => inr (error_text error) end.
(** The views of each schema, installed under their names. *)
Definition register_views (schemas : list (string * list (string * string)))
    (installed : gmap (string * string) (ViewTable + string)) : gmap (string * string) (ViewTable + string) :=
  fold_left (fun installed schema =>
    fold_left (fun installed view => <[(schema.1, view.1) := planned_view schema.1 view.2]> installed) schema.2 installed)
    schemas installed.
End Views.

(** ** Values of ATTACH options *)

(** The visitor [ConstantsOnly]: no name, call or subquery among the
    expressions. *)
Definition forbidden_tag (tag : string) : bool :=
  vec_contains tag ["CompoundIdentifier"; "Subquery"; "Exists"; "InSubquery"].
Fixpoint constants_only (n : node) : bool :=
  let arg := fun a => match a.1 with ExprNamed n => constants_only n | _ => true end &&
                      match a.2 with Some v => constants_only v | None => true end in
  match n with
  | Ident _ | SqlTree.Call _ _ _ => false
  | BinaryEq l r => constants_only l && constants_only r
  | Expr tag ns => negb (forbidden_tag tag) && forallb constants_only ns
  | Table _ args _ _ => match args with Some args => forallb arg args | None => true end
  | Derived q _ => constants_only q
  | Query _ ctes body => forallb (fun c => constants_only c.2) ctes && forallb constants_only body
  | Other _ ns => forallb constants_only ns
  end.
(** [parse] is the parse of [SELECT raw]: its statements, [None] for one that is
    not sqlparser's. *)
Definition validate_constant_option (parse : string -> result (list (option node))) (name raw : string) : result unit :=
  statements ← parse ("SELECT " +:+ raw);
  match statements with
  | Some statement :: _ =>
      if constants_only statement then Ok tt
      else Err (Prelude.Plan ("ATTACH option `" +:+ name +:+
                              "` must be a constant literal, cast, list, or struct expression"))
  | _ => Err (Prelude.Plan ("ATTACH option `" +:+ name +:+ "` is not a SQL value expression"))
  end.

(** * What a statement leaves behind

    What a statement leaves behind: its private tables are gone, and the runtime
    has the settings of the session; what is taken out of a statement that
    travels in time; what RESET does. *)

(** ** Time travel *)

Section Extract.
Variable ids : nat -> Z.

Lemma tree_ind' (P : Tree -> Prop) :
  (forall name alias version children, Forall P children -> P (Factor name alias version children)) ->
  (forall id children, Forall P children -> P (Branch id children)) -> forall tree, P tree.
Proof.
  intros Hf Hb. fix IH 1. intros [name alias version children|id children]; [apply Hf|apply Hb].
  all: induction children as [|c cs IHc]; constructor; [apply IH|exact IHc].
Qed.
(** The relations with a version, in visiting order; and whether there is none. *)
Fixpoint versions (tree : Tree) : list (ObjectName * TableVersion) :=
  match tree with
  | Factor name _ version children =>
      match version with Some v => [(name, v)] | None => [] end ++ flat_map versions children
  | Branch _ children => flat_map versions children
  end.
(** A tree whose versions the first of [tables] replace, in visiting order, and
    the tables left. *)
Definition replaced_all (replaced : Tree -> list HistoricalTable -> Tree * list HistoricalTable)
    : list Tree -> list HistoricalTable -> list Tree * list HistoricalTable :=
  fix all trees tables :=
    match trees with
    | [] => ([], tables)
    | tree :: trees => let r := replaced tree tables in let rs := all trees r.2 in (r.1 :: rs.1, rs.2)
    end.
Fixpoint replaced (tree : Tree) (tables : list HistoricalTable) : Tree * list HistoricalTable :=
  match tree with
  | Factor name alias None children =>
      let r := replaced_all replaced children tables in (Factor name alias None r.1, r.2)
  | Factor name alias (Some version) children =>
      match tables with
      | table :: tables =>
          let r := replaced_all replaced children tables in
          (Factor [PartIdent (hidden table)] (Some (default (ht_table table) alias)) None r.1, r.2)
      | [] => (tree, [])
      end
  | Branch id children => let r := replaced_all replaced children tables in (Branch id r.1, r.2)
  end.

Definition travels (relation : ObjectName * TableVersion) (table : HistoricalTable) : Prop :=
  omap as_ident relation.1 = [ht_catalog table; ht_schema table; ht_table table] /\ parse_at relation.2 = Ok (ht_at table).
Lemma expr_value_unit v unit_ x : expr_value v unit_ = Ok x -> unit_ = "VERSION" \/ unit_ = "TIMESTAMP".
Proof.
  unfold expr_value. destruct (String.eqb_spec unit_ "VERSION"); [by left|].
  destruct (String.eqb_spec unit_ "TIMESTAMP"); [by right|]. by destruct v as [[]| | | |].
Qed.
Lemma parse_at_unit version unit_ value : parse_at version = Ok (unit_, value) -> unit_ = "VERSION" \/ unit_ = "TIMESTAMP".
Proof.
  destruct version as [name args|]; [|done]. cbn [parse_at]. destruct (negb _); [done|].
  destruct args as [[|arg [|]] [|]|]; try done. unfold mbind, result_bind.
  destruct (match arg with NamedArg _ _ => _ | _ => _ end) as [[n v]|]; [|done].
  destruct (expr_value _ _) as [x|] eqn:He; [|done]. intros [= <- _]. by apply expr_value_unit in He.
Qed.
Definition hidden_from (first : nat) (tables : list HistoricalTable) : Prop :=
  map hidden tables = map (fun i => hidden_name (ids i)) (seq first (length tables)).
Definition extracts (tree : Tree) : Prop := forall tables tree' tables',
  extract ids tree tables = Ok (tree', tables') ->
  exists found, tables' = tables ++ found /\ Forall2 travels (versions tree) found /\ hidden_from (length tables) found /\
    forall rest, replaced tree (found ++ rest) = (tree', rest).
Lemma hidden_from_app first a b : hidden_from first a -> hidden_from (first + length a) b -> hidden_from first (a ++ b).
Proof. unfold hidden_from. intros Ha Hb. by rewrite map_app, length_app, seq_app, map_app, Ha, Hb. Qed.
Lemma extract_all_spec children : Forall extracts children -> forall tables children' tables',
  extract_all (extract ids) children tables = Ok (children', tables') ->
  exists found, tables' = tables ++ found /\ Forall2 travels (flat_map versions children) found /\
    hidden_from (length tables) found /\
    forall rest, replaced_all replaced children (found ++ rest) = (children', rest).
Proof.
  induction 1 as [|c cs Hc _ IH]; intros tables children' tables'; cbn.
  - intros [= <- <-]. exists []. split_and!; [by rewrite app_nil_r|constructor|done|done].
  - destruct (extract ids c tables) as [[c' t1]|] eqn:He; [|done]. cbn.
    destruct (extract_all _ cs t1) as [[cs' t2]|] eqn:Hes; [|done]. cbn. intros [= <- <-].
    destruct (Hc _ _ _ He) as (f1 & -> & Hf1 & Hh1 & Hv1). destruct (IH _ _ _ Hes) as (f2 & -> & Hf2 & Hh2 & Hv2).
    exists (f1 ++ f2). split_and!; [by rewrite app_assoc|by apply Forall2_app|rewrite length_app in Hh2; by apply hidden_from_app|].
    intros rest. cbn. rewrite <- app_assoc, Hv1. cbn. by rewrite Hv2.
Qed.
Lemma extract_spec tree : extracts tree.
Proof.
  induction tree as [name alias version children IH|id children IH] using tree_ind'; intros tables tree' tables'; cbn.
  - destruct version as [version|].
    + unfold historical. destruct (omap as_ident name) as [|catalog [|schema [|table [|]]]] eqn:Hn; try done.
      destruct (parse_at version) as [at_|] eqn:Hat; [|done]. cbn.
      destruct (extract_all _ children _) as [[cs' t']|] eqn:He; [|done]. cbn. intros [= <- <-].
      destruct (extract_all_spec children IH _ _ _ He) as (found & -> & Hf & Hh & Hv).
      eexists (_ :: found). split_and!; [by rewrite <- app_assoc| | |intros rest; cbn; by rewrite Hv].
      * constructor; [by split|done].
      * rewrite length_app in Hh. cbn in Hh. unfold hidden_from in *. cbn. f_equal. rewrite Nat.add_1_r in Hh. exact Hh.
    + destruct (extract_all _ children tables) as [[cs' t']|] eqn:He; [|done]. cbn. intros [= <- <-].
      destruct (extract_all_spec children IH _ _ _ He) as (found & -> & Hf & Hh & Hv).
    exists found. split_and!; [done..|]. intros rest. cbn. by rewrite Hv.
  - destruct (extract_all _ children tables) as [[cs' t']|] eqn:He; [|done]. cbn. intros [= <- <-].
    destruct (extract_all_spec children IH _ _ _ He) as (found & -> & Hf & Hh & Hv).
    exists found. split_and!; [done..|]. intros rest. cbn. by rewrite Hv.
Qed.

(** Taking the versions out of a statement replaces each relation with a
    version by a private table and nothing else: the relations in visiting order
    are fully qualified and get the tables in that order, each for the catalog,
    schema, table and coordinate that were written, under the next private name;
    the coordinate is a VERSION or a TIMESTAMP. *)
Theorem versions_extracted tree tree' tables :
  extract ids tree [] = Ok (tree', tables) ->
  replaced tree tables = (tree', []) /\ Forall2 travels (versions tree) tables /\
  map hidden tables = map (fun i => hidden_name (ids i)) (seq 0 (length tables)) /\
  Forall (fun t => (ht_at t).1 = "VERSION" \/ (ht_at t).1 = "TIMESTAMP") tables.
Proof.
  intros (found & -> & Hf & Hh & Hr)%extract_spec. cbn [app]. specialize (Hr []). rewrite app_nil_r in Hr.
  split_and!; [done..|]. clear - Hf. induction Hf as [|[name version] t vs ts [_ Hat] _ IH]; constructor; [|done].
  cbn in Hat. destruct (ht_at t). by apply parse_at_unit in Hat.
Qed.
End Extract.

(** ** Statements *)

Section Sql.
Context {Plan Branches Provider LogicalPlan DataFrame : Type}.
Local Abbreviation Front := (Front Plan Branches).
Local Abbreviation Resp := (@Resp Provider LogicalPlan DataFrame).
Local Abbreviation Call := (@Call Provider LogicalPlan).
Local Abbreviation front := (body Resp Front).
Variable unicode_alphanumeric : str -> bool.
Variable show_expr : SqlExpr -> string.
Variable ids : nat -> Z.
Variable read_empty : DataFrame.
Local Abbreviation sql := (SqlFront.sql (Plan := Plan) (Branches := Branches) (Provider := Provider) (LogicalPlan := LogicalPlan)
  unicode_alphanumeric show_expr ids read_empty).

(** *** Private tables *)

(** The private tables a run registered and took back, in order, and whether a
    registration was refused. *)
Record Tables := mkTables { put : list string; taken : list string; refused : bool }.
Definition tables_update (g : Tables) (c : Call) : Resp c -> Tables :=
  match c return Resp c -> Tables with
  | RegisterTable hidden _ => fun r => match r with
                                       | Ok _ => mkTables (put g ++ [hidden]) (taken g) (refused g)
                                       | Err _ => mkTables (put g) (taken g) true
                                       end
  | DeregisterTable hidden => fun _ => mkTables (put g) (taken g ++ [hidden]) (refused g)
  | _ => fun _ => g
  end.
Definition tables_contract : contract Resp :=
  {| ghost := Tables; rely := fun _ _ _ => True; guarantee := fun _ _ => True; update := tables_update |}.
Definition settled (g : Tables) : Prop := refused g = true \/ put g = taken g.
Local Abbreviation W := (wpb tables_contract (fun (_ : Front) => settled)).

(** Steps that concern no private table. *)
Definition neutral {A} (m : front A) : Prop :=
  forall g s, wp tables_contract g (m s) (fun r g' => g' = g).
Lemma neutral_W {A} (m : front A) g s (Q : A -> Front -> Tables -> Prop) :
  neutral m -> settled g -> (forall a s', Q a s' g) -> W g s m Q.
Proof. intros Hm Hg HQ. eapply wp_mono; [|exact (Hm g s)]. intros [s' [a|e]] g' ->; [apply HQ|exact Hg]. Qed.
Lemma neutral_bind {A B} (m : front A) (f : A -> front B) : neutral m -> (forall a, neutral (f a)) -> neutral (bind m f).
Proof.
  intros Hm Hf g s. apply wp_bind. eapply wp_mono; [|exact (Hm g s)]. intros [s' [a|e]] g' ->; [apply Hf|done].
Qed.
Lemma neutral_do c : (forall g r, tables_update g c r = g) -> neutral (do_ c : front (Resp c)).
Proof. intros H g s. split; [done|]. intros r _. apply H. Qed.
Lemma neutral_ret {A} (a : A) : neutral (ret a : front A).
Proof. by intros g s. Qed.
Lemma neutral_fail {A} e : neutral (fail e : front A).
Proof. by intros g s. Qed.
Lemma neutral_try {A} (r : result A) : neutral (try_ r : front A).
Proof. destruct r; by intros g s. Qed.
Lemma neutral_ask {A} c (to_result : Resp c -> result A) :
  (forall g r, tables_update g c r = g) -> neutral (SqlFront.ask c to_result : front A).
Proof. intros H. apply neutral_bind; [by apply neutral_do|]. intros a. apply neutral_try. Qed.
Lemma neutral_modify f : neutral (SqlFront.modify f : front unit).
Proof. by intros g s. Qed.
Lemma neutral_get : neutral (get_state : front Front).
Proof. by intros g s. Qed.
Lemma neutral_put s : neutral (put_state s : front unit).
Proof. by intros g s'. Qed.
#[local] Hint Resolve neutral_bind neutral_do neutral_ret neutral_fail neutral_try neutral_ask neutral_modify neutral_get neutral_put : neutral.
Ltac neutral := repeat match goal with
  | |- forall _, _ => intro
  | |- neutral (match ?x with _ => _ end) => destruct x
  | |- neutral (bind _ _) => apply neutral_bind
  | |- neutral _ => solve [auto with neutral]
  end.

Lemma plan_statement_neutral statement : neutral (plan_statement statement : front LogicalPlan).
Proof. unfold plan_statement. neutral. Qed.
Lemma table_providers_neutral tables : neutral (table_providers tables : front (list (string * Provider))).
Proof. induction tables as [|t ts IH]; cbn [table_providers]; unfold table_provider; neutral. Qed.
Lemma parse_statement_neutral query : neutral (parse_statement query : front Statement).
Proof. unfold parse_statement. neutral. Qed.

Lemma register_tables_spec (providers : list (string * Provider)) g s :
  refused g = false ->
  W g s (register_tables providers) (fun names _ g' => taken g' = taken g /\ put g' = put g ++ names /\ refused g' = false).
Proof.
  revert g s. induction providers as [|[h p] ps IH]; intros g s Hg; cbn [register_tables].
  - apply wpb_ret. by rewrite app_nil_r.
  - apply wpb_bind. split; [done|]. intros [[]|e] _; [|by left].
    cbn [prog_bind Interact.try_ ret]. apply wpb_bind. eapply wpb_mono; [|apply IH; exact Hg].
    cbn. intros names s' g' (Ht & Hp & Hr). by rewrite Ht, Hp, <- app_assoc.
Qed.
Lemma deregister_spec names g s :
  W g s (for_each names (fun hidden => do_ (DeregisterTable hidden)))
    (fun _ _ g' => taken g' = taken g ++ names /\ put g' = put g /\ refused g' = refused g).
Proof.
  revert g s. induction names as [|h names IH]; intros g s; cbn [for_each]; [apply wpb_ret; by rewrite app_nil_r|].
  apply wpb_bind. split; [done|]. intros r _. cbn. eapply wpb_mono; [|apply IH]. cbn. intros _ s' g' (-> & -> & ->).
  by rewrite <- app_assoc.
Qed.
Lemma ordinary_settles statement g s :
  refused g = false -> put g = taken g -> W g s (ordinary ids statement) (fun _ _ g' => settled g').
Proof.
  intros Hr Hg. unfold ordinary. apply wpb_bind. eapply wpb_mono with (Q := fun a _ g' => taken g' = taken g /\ put g' = put g ++ a.2 /\ refused g' = false).
  2: { unfold rewrite_time_travel. apply wpb_bind, neutral_W; [apply neutral_try|by right|]. intros extracted s1.
       apply wpb_bind, neutral_W; [apply table_providers_neutral|by right|]. intros providers s2.
       apply wpb_bind. eapply wpb_mono; [|by apply register_tables_spec]. intros names s3 g3 H. by apply wpb_ret. }
  intros [statement' names] s1 g1 (Ht & Hp & Hr1). cbn [snd] in Hp. apply wpb_bind.
  assert (W g1 s1 (catch (plan_statement statement' : front LogicalPlan)) (fun _ _ g' => g' = g1)) as Hplan.
  { unfold catch. apply wp_bind. eapply wp_mono; [|apply plan_statement_neutral]. by intros r g' ->. }
  eapply wpb_mono; [|exact Hplan]. intros plan s2 g2 ->. apply wpb_bind. eapply wpb_mono; [|apply deregister_spec].
  cbn. intros _ s3 g3 (Ht3 & Hp3 & Hr3).
  assert (settled g3) as Hs by (right; by rewrite Ht3, Hp3, Ht, Hp, Hg).
  apply neutral_W; [neutral; by apply neutral_do|done|done].
Qed.

(** C15: no private table outlives its statement: however a statement ends,
    planned or refused or failed, the private tables it registered for versions
    are taken back in order, unless the context refused one of them. *)
Theorem private_tables_released query s tr r :
  runs (sql query s) tr r ->
  let g := observe tables_contract (mkTables [] [] false) tr in refused g = false -> put g = taken g.
Proof.
  intros Hrun g Hg.
  assert (W (mkTables [] [] false) s (sql query) (fun _ _ g' => settled g')) as Hw.
  { unfold SqlFront.sql. do 5 (apply wpb_bind, neutral_W; [by auto with neutral|by right|]; intros ? ?).
    destruct (parse_duckdb_attach _ _) as [spec|]; [apply neutral_W; [neutral|by right|intros; by right]|].
    apply wpb_bind, neutral_W; [apply parse_statement_neutral|by right|]; intros statement ?.
    apply wpb_bind, neutral_W; [apply neutral_get|by right|]; intros f ?.
    destruct (reset_vgi_setting statement f) as [f' handled].
    apply wpb_bind, neutral_W; [apply neutral_put|by right|]; intros ? ?.
    apply wpb_bind, neutral_W; [apply neutral_try|by right|]; intros [] ?; [by right|].
    apply wpb_bind, neutral_W; [apply neutral_try|by right|]; intros [[target alias|alias]|] ?.
    1,2: apply neutral_W; [neutral|by right|intros; by right].
    by apply ordinary_settles. }
  pose proof (wp_sound _ _ _ _ _ _ Hrun Hw) as H. destruct H as [_ H].
  { clear. generalize (mkTables [] [] false). induction tr as [|[c r] tr IH]; intros g; [done|]. by split. }
  assert (settled g) as [Hx|Hx]; [by destruct r as [s' [a|e]]|congruence|done].
Qed.

(** *** Settings *)

(** The runtime has the settings of the session. *)
Definition synced (f : Front) : Prop :=
  match config f with Some settings => rt_session_settings (runtime f) = settings | None => True end.
Lemma sync_synced (f : Front) : synced (sync_vgi_settings f).
Proof. unfold synced, sync_vgi_settings. by destruct (config f) eqn:Hc; cbn; rewrite ?Hc. Qed.
Lemma reset_synced statement (f : Front) :
  synced f -> synced (reset_vgi_setting statement f).1.
Proof.
  intros Hf. unfold reset_vgi_setting. destruct statement as [s|s|variable|i]; try done.
  destruct (setting_object_name variable) as [[prefixed name]|]; [|done].
  destruct (negb prefixed && negb _); [done|]. destruct (prefixed && negb _); [done|]. by destruct (config f) eqn:Hc.
Qed.
Local Abbreviation V := (wpb tables_contract (fun (_ : Front) (_ : Tables) => True)).
Lemma wp_true {A} (p : prog Resp A) g : wp tables_contract g p (fun _ _ => True).
Proof. revert g. induction p as [a|c k IH]; intros g; cbn; [done|]. split; [done|]. intros r _. apply IH. Qed.
Lemma V_any {A} (m : front A) g s (Q : A -> Front -> Tables -> Prop) : (forall a s' g', Q a s' g') -> V g s m Q.
Proof. intros HQ. eapply wp_mono; [|apply wp_true]. intros [s' [a|e]] g' _; [apply HQ|done]. Qed.
(** Steps that leave the settings alone. *)
Definition still {A} (m : front A) : Prop := forall g s, V g s m (fun _ s' _ => s' = s).
Lemma still_V {A} (m : front A) g s (Q : A -> Front -> Tables -> Prop) :
  still m -> (forall a g', Q a s g') -> V g s m Q.
Proof. intros Hm HQ. eapply wpb_mono; [|apply Hm]. intros a s' g' ->. apply HQ. Qed.
Lemma still_bind {A B} (m : front A) (f : A -> front B) : still m -> (forall a, still (f a)) -> still (bind m f).
Proof. intros Hm Hf g s. apply wpb_bind. apply still_V; [done|]. intros a g'. apply Hf. Qed.
Lemma still_do c : still (do_ c : front (Resp c)).
Proof. by intros g s. Qed.
Lemma still_ret {A} (a : A) : still (ret a : front A).
Proof. by intros g s. Qed.
Lemma still_fail {A} e : still (fail e : front A).
Proof. by intros g s. Qed.
Lemma still_try {A} (r : result A) : still (try_ r : front A).
Proof. destruct r; by intros g s. Qed.
Lemma still_ask {A} c (to_result : Resp c -> result A) : still (SqlFront.ask c to_result : front A).
Proof. apply still_bind; [apply still_do|]. intros a. apply still_try. Qed.
Lemma parse_still query : still (parse_statement query : front Statement).
Proof.
  unfold parse_statement. apply still_bind; [apply still_do|]. intros [st|e]; [apply still_ret|].
  destruct (contains_time_travel_clause _); [|apply still_fail]. apply still_bind; [apply (still_do (ParseSnowflake _))|].
  intros [[|st [|]]|]; apply still_fail || apply still_ret.
Qed.
Lemma ordinary_synced statement g s : V g s (ordinary ids statement) (fun _ s' _ => synced s').
Proof.
  unfold ordinary. do 6 (apply wpb_bind, V_any; intros ? ? ?).
  apply wpb_bind, V_any; intros frame sf gf. apply wpb_bind, wpb_bind. apply wpb_get, wpb_put. apply wpb_ret, sync_synced.
Qed.

(** C16: after a statement that succeeds the runtime has exactly the settings of
    the session: SET, whatever DataFusion made of it, RESET, ATTACH and plain
    queries all leave them equal, so the next bind sees what the user set. *)
Theorem settings_follow_session query s tr s' frame :
  runs (sql query s) tr (s', Ok frame) -> synced s'.
Proof.
  intros Hrun.
  assert (V (mkTables [] [] false) s (sql query) (fun _ s' _ => synced s')) as Hw.
  { unfold SqlFront.sql. do 4 (apply wpb_bind, V_any; intros ? ? ?).
    apply wpb_bind, wpb_bind, wpb_get, wpb_put.
    match goal with |- wpb _ _ _ (sync_vgi_settings ?f) _ _ => pose proof (sync_synced f) as Hs; generalize dependent (sync_vgi_settings f) end.
    intros f Hs.
    destruct (parse_duckdb_attach _ _) as [spec|].
    { apply wpb_bind, still_V; [apply still_try|]. intros spec' g1. apply wpb_bind, still_V; [apply (still_ask (DoAttach _))|].
      intros [] g2. by apply wpb_ret. }
    apply wpb_bind, still_V; [apply parse_still|]. intros statement g1. apply wpb_bind, wpb_get.
    pose proof (reset_synced statement f Hs) as Hr. destruct (reset_vgi_setting statement f) as [f' handled]. cbn [fst] in Hr.
    apply wpb_bind, wpb_put, wpb_bind, still_V; [apply still_try|]. intros [] g2; [by apply wpb_ret|].
    apply wpb_bind, still_V; [apply still_try|]. intros [[target alias|alias]|] g3.
    - apply wpb_bind, still_V; [apply still_try|]. intros spec' g4. apply wpb_bind, still_V; [apply (still_ask (DoAttach _))|].
      intros [] g5. by apply wpb_ret.
    - apply wpb_bind, still_V; [apply (still_ask (DoDetach _))|]. intros [] g4. by apply wpb_ret.
    - apply ordinary_synced. }
  pose proof (wp_sound _ _ _ _ _ _ Hrun Hw) as [_ H]; [|exact H].
  clear. generalize (mkTables [] [] false). induction tr as [|[c r] tr IH]; intros g; [done|]. by split.
Qed.
End Sql.

(** ** A query over two versions of a table *)

Module Travel.
Definition at_version (n : string) : TableVersion := VersionFunction "AT" (ArgList [NamedArg "version" (EValue (Number n))] false).
Definition name : ObjectName := [PartIdent "ex"; PartIdent "main"; PartIdent "t"].
Definition tree : Tree := Branch 0 [Factor name None (Some (at_version "3")) []; Factor name (Some "old") (Some (at_version "2")) []].
Definition ids (i : nat) : Z := 5 + Z.of_nat i.
Definition first : HistoricalTable := mkHistorical "__vgi_time_travel_5" "ex" "main" "t" ("VERSION", "3").
Definition second : HistoricalTable := mkHistorical "__vgi_time_travel_6" "ex" "main" "t" ("VERSION", "2").
Definition rewritten : Tree :=
  Branch 0 [Factor [PartIdent "__vgi_time_travel_5"] (Some "t") None []; Factor [PartIdent "__vgi_time_travel_6"] (Some "old") None []].

Abbreviation Resp := (@SqlFront.Resp string nat nat).
Abbreviation Call := (@SqlFront.Call string nat).
(** What the session's settings are after the execution. *)
Definition changed : VgiSettings := with_cache_limits (mkLimits 1 2 3 4).
(** [refuses] are the tables the context does not take, [plans] whether the
    statement can be planned. *)
Definition context (refuses : list string) (plans : bool) (past : list (event Resp)) (c : Call) : Resp c :=
  match c with
  | EnsureSamplePlanner | EnsureTableInputPlanner => Ok tt
  | RegisterDiagnostics => tt
  | SqlToStatement _ => Err (Prelude.Plan "unexpected AT")
  | ParseSnowflake _ => Some [SqlStmt (OrdinaryStatement tree)]
  | DoAttach _ => Ok tt
  | DoDetach _ => Ok tt
  | Catalog _ => VgiCatalog
  | TableAt _ _ table _ => Ok table
  | RegisterTable hidden _ => if vec_contains hidden refuses then Err (Execution "exists") else Ok tt
  | DeregisterTable _ => tt
  | RewriteVgiSql statement => Ok statement
  | StatementToPlan _ settings => (Some settings, if plans then Ok 1%nat else Err (Prelude.Plan "no such column"))
  | ExecuteLogicalPlan plan => (Some changed, Ok plan)
  end.
Definition session : Front unit unit := mkFront None (new_runtime true 2 (mkLimits 64 256 10 5) true).
Definition text : string := "SELECT * FROM ex.main.t AT (VERSION => 3), ex.main.t AT (VERSION => 2) old".
Definition query : body Resp (Front unit unit) nat :=
  sql (fun _ => false) (fun _ => "") ids 0%nat text.
Definition history (refuses : list string) (plans : bool) : list (event Resp) := (interp (context refuses plans) [] (query session)).1.
Definition outcome (refuses : list string) (plans : bool) := (interp (context refuses plans) [] (query session)).2.
Lemma query_runs refuses plans : runs (R := Resp) (query session) (history refuses plans) (outcome refuses plans).
Proof. apply interp_runs. Qed.
Definition tables (refuses : list string) (plans : bool) : Tables :=
  observe tables_contract (mkTables [] [] false) (history refuses plans).
End Travel.

Lemma versions_extracted_witness :
  replaced Travel.tree [Travel.first; Travel.second] = (Travel.rewritten, []) /\
  Forall2 travels (versions Travel.tree) [Travel.first; Travel.second] /\
  ["__vgi_time_travel_5"; "__vgi_time_travel_6"] = map (fun i => hidden_name (Travel.ids i)) (seq 0 2) /\
  Forall (fun t => (ht_at t).1 = "VERSION" \/ (ht_at t).1 = "TIMESTAMP") [Travel.first; Travel.second].
Proof.
  apply (versions_extracted Travel.ids Travel.tree Travel.rewritten [Travel.first; Travel.second]). vm_compute. reflexivity.
Defined.

(** The statement cannot be planned, and both tables are taken back. *)
Lemma private_tables_released_witness :
  put (Travel.tables [] false) = ["__vgi_time_travel_5"; "__vgi_time_travel_6"] /\
  put (Travel.tables [] false) = taken (Travel.tables [] false).
Proof.
  split; [vm_compute; reflexivity|].
  apply (private_tables_released (Plan := unit) (Branches := unit) (fun _ => false) (fun _ => "") Travel.ids 0%nat Travel.text
           Travel.session (Travel.history [] false) (Travel.outcome [] false) (Travel.query_runs [] false)).
  vm_compute. reflexivity.
Defined.

(** When the second table is refused, the first stays. *)
Lemma refused_table_leaks :
  put (Travel.tables ["__vgi_time_travel_6"] true) = ["__vgi_time_travel_5"] /\
  taken (Travel.tables ["__vgi_time_travel_6"] true) = [].
Proof. vm_compute. split; reflexivity. Qed.

Lemma settings_follow_session_witness :
  config (Travel.outcome [] true).1 = Some Travel.changed /\ synced (Travel.outcome [] true).1.
Proof.
  assert (H : Travel.outcome [] true = ((Travel.outcome [] true).1, Ok 1%nat)) by (vm_compute; reflexivity).
  split; [vm_compute; reflexivity|].
  apply (settings_follow_session (fun _ => false) (fun _ => "") Travel.ids 0%nat
           Travel.text Travel.session (Travel.history [] true)
           (Travel.outcome [] true).1 1%nat).
  rewrite <- H. apply Travel.query_runs.
Defined.

(** ** Values of ATTACH options *)

(** The syntax tree of [SELECT * FROM t] has no expression, so the value is taken
    for a constant. *)
Lemma table_option_accepted :
  validate_constant_option
    (fun _ => Ok [Some (Query false [] [Other "Select" [Other "Wildcard" []; Table [PartIdent "t"] None "" false]])]) "token" "* FROM t"
  = Ok tt.
Proof. vm_compute. reflexivity. Qed.
