(* ===== verification/Diagnostics.v ===== *)
(** * Diagnostics tables (src/src/diagnostics.rs)

    The table functions that show a session's caches, events and attached
    catalogs to SQL, under the adapter's names and DuckDB's. Each builds one
    Arrow batch from the runtime; Arrow's constructor checks it, so the columns
    must fit the schema they are declared with. [vgi_table_branches] also asks
    workers and remembers what they answer. *)

From S2P Require Import Prelude Text Arrow Settings Runtime Registry Protocol3.
From Stdlib Require Import Strings.Ascii.

#[local] Open Scope Z_scope.

(** ** Batches *)

Inductive Cell :=
  | CNull | CText (s : string) | CInt (z : Z) | CBool (b : bool)
  | CList (items : list Cell) | CStruct (fields : list Cell) | CMap (entries : list (string * string)).
Record Array := mkArray { arr_type : DataType; arr_cells : list Cell }.
Record RecordBatch := mkBatch { rb_schema : list Field; rb_columns : list Array }.
Definition num_rows (b : RecordBatch) : nat :=
  match rb_columns b with [] => 0 | c :: _ => length (arr_cells c) end.
(** [Field::new] *)
Definition field (name : string) (ty : DataType) (nullable : bool) : Field := mkField name ty nullable [].

Definition opt_text (o : option string) : Cell := match o with Some s => CText s | None => CNull end.
Definition opt_int (o : option Z) : Cell := match o with Some z => CInt z | None => CNull end.
(** The arrays the code builds, by their constructors. *)
Definition string_array (l : list string) : Array := mkArray Utf8 (map CText l).
Definition string_opt_array (l : list (option string)) : Array := mkArray Utf8 (map opt_text l).
Definition uint64_array (l : list Z) : Array := mkArray UInt64 (map CInt l).
Definition uint64_opt_array (l : list (option Z)) : Array := mkArray UInt64 (map opt_int l).
Definition int64_array (l : list Z) : Array := mkArray Int64 (map CInt l).
Definition int64_opt_array (l : list (option Z)) : Array := mkArray Int64 (map opt_int l).
Definition boolean_array (l : list bool) : Array := mkArray Boolean (map CBool l).
(** [ListBuilder::new(StringBuilder::new())] *)
Definition item : Field := field "item" Utf8 true.
Definition string_list_array (rows : list (list string)) : Array :=
  mkArray (List item) (map (fun row => CList (map CText row)) rows).
Definition optional_string_list_array (rows : list (option (list string))) : Array :=
  mkArray (List item) (map (fun row => match row with Some values => CList (map CText values) | None => CNull end) rows).
(** [MapBuilder::new(None, StringBuilder::new(), StringBuilder::new())] *)
Definition map_type : DataType :=
  Map (field "entries" (Struct [field "keys" Utf8 false; field "values" Utf8 true]) false) false.
Definition string_map_array (rows : list (list (string * string))) : Array := mkArray map_type (map CMap rows).
Definition optional_strings {T} (rows : list T) (value : T -> option string) : Array := string_opt_array (map value rows).

(** What [RecordBatch::try_new] asks for: a column per field, of its type, all
    of one length, without NULL where the field does not allow it. *)
Definition column_fits (f : Field) (c : Array) : bool :=
  bool_decide (arr_type c = field_type f) &&
  (field_nullable f || negb (existsb (fun cell => match cell with CNull => true | _ => false end) (arr_cells c))).
Fixpoint columns_fit (n : nat) (schema : list Field) (columns : list Array) : bool :=
  match schema, columns with
  | [], [] => true
  | f :: schema, c :: columns => column_fits f c && (length (arr_cells c) =? n)%nat && columns_fit n schema columns
  | _, _ => false
  end.
Definition fits (schema : list Field) (columns : list Array) : bool :=
  match columns with [] => false | c :: _ => columns_fit (length (arr_cells c)) schema columns end.

(** ** Types as DuckDB spells them *)

Fixpoint join (separator : string) (l : list string) : string :=
  match l with [] => "" | [s] => s | s :: l => s +:+ separator +:+ join separator l end.
Section TypeName.
(** [Display for DataType], for the types without a DuckDB name. *)
Variable display_type : DataType -> string.
Fixpoint duckdb_type_name (t : DataType) : string :=
  match t with
  | Null => "NULL"
  | Boolean => "BOOLEAN"
  | Int8 => "TINYINT" | Int16 => "SMALLINT" | Int32 => "INTEGER" | Int64 => "BIGINT"
  | UInt8 => "UTINYINT" | UInt16 => "USMALLINT" | UInt32 => "UINTEGER" | UInt64 => "UBIGINT"
  | Float16 | Float32 => "FLOAT"
  | Float64 => "DOUBLE"
  | Utf8 | LargeUtf8 | Utf8View => "VARCHAR"
  | Binary | LargeBinary | BinaryView | FixedSizeBinary _ => "BLOB"
  | Date32 | Date64 => "DATE"
  | Time32 _ | Time64 _ => "TIME"
  | Timestamp _ (Some _) => "TIMESTAMP WITH TIME ZONE"
  | Timestamp _ None => "TIMESTAMP"
  | Duration _ | Interval _ => "INTERVAL"
  | Decimal32 precision scale | Decimal64 precision scale | Decimal128 precision scale
  | Decimal256 precision scale => "DECIMAL(" +:+ pretty precision +:+ "," +:+ pretty scale +:+ ")"
  | List (mkField _ ty _ _) | LargeList (mkField _ ty _ _) | ListView (mkField _ ty _ _)
  | LargeListView (mkField _ ty _ _) => duckdb_type_name ty +:+ "[]"
  | FixedSizeList (mkField _ ty _ _) size => duckdb_type_name ty +:+ "[" +:+ pretty size +:+ "]"
  | Struct fields =>
      "STRUCT(" +:+ join ", " (map (fun '(mkField name ty _ _) => name +:+ " " +:+ duckdb_type_name ty) fields) +:+ ")"
  | Map (mkField _ (Struct [mkField _ key _ _; mkField _ value _ _]) _ _) _ =>
      "MAP(" +:+ duckdb_type_name key +:+ ", " +:+ duckdb_type_name value +:+ ")"
  | Map (mkField _ ty _ _) _ => "MAP(" +:+ duckdb_type_name ty +:+ ")"
  | Union fields _ =>
      "UNION(" +:+ join ", " (map (fun '(_, mkField name ty _ _) => name +:+ " " +:+ duckdb_type_name ty) fields) +:+ ")"
  | Dictionary _ value => duckdb_type_name value
  | other => display_type other
  end.
End TypeName.

(** ** Column statistics *)

(** [f64::fract() == 0.0]: no bit below the binary point. *)
Definition f64_integral (bits : Z) : bool :=
  let e := (bits / 2 ^ 52) mod 2 ^ 11 in
  let m := bits mod 2 ^ 52 in
  if e =? 2047 then false
  else if e =? 0 then m =? 0
  else if e <? 1023 then false
  else if 1075 <=? e then true
  else m mod 2 ^ (1075 - e) =? 0.
(** Little-endian numbers. *)
Fixpoint from_le_bytes (l : list ascii) : Z :=
  match l with [] => 0 | c :: l => Z.of_N (N_of_ascii c) + 256 * from_le_bytes l end.
(** The bits of the coordinates of a little-endian WKB point. *)
Definition wkb_point (bytes : list ascii) : option (Z * Z) :=
  if (length bytes <? 21)%nat || negb (bool_decide (head bytes = Some (ascii_of_nat 1)))
     || negb (from_le_bytes (firstn 4 (skipn 1 bytes)) =? 1)
  then None
  else Some (from_le_bytes (firstn 8 (skipn 5 bytes)), from_le_bytes (firstn 8 (skipn 13 bytes))).

(** [ScalarValue], by what is looked at. *)
Inductive Scalar :=
  | ScalarUnion (value : option Scalar) | ScalarNull
  | ScalarInt64 (value : option Z) | ScalarFloat64 (bits : option Z)
  | ScalarUtf8 (value : option string) | ScalarBinary (value : option (list ascii))
  | ScalarOther (null : bool) (id : Z).
Definition scalar_is_null (v : Scalar) : bool :=
  match v with
  | ScalarUnion None | ScalarNull => true
  | ScalarUnion (Some _) => false
  | ScalarInt64 o | ScalarFloat64 o => negb (is_some o)
  | ScalarUtf8 o => negb (is_some o)
  | ScalarBinary o => negb (is_some o)
  | ScalarOther null _ => null
  end.

Section Statistics.
(** Printing: a float with one digit after the point and in full; any scalar. *)
Variable show_f64_1 show_f64 : Z -> string.
Variable show_scalar : Scalar -> string.
Fixpoint statistic_string (value : Scalar) (column_type : string) : option string :=
  match value with
  | ScalarUnion None | ScalarNull => None
  | ScalarUnion (Some value) => statistic_string value column_type
  | ScalarInt64 value => z ← value; Some (pretty z)
  | ScalarFloat64 value => bits ← value; Some (if f64_integral bits then show_f64_1 bits else show_f64 bits)
  | ScalarUtf8 value => value
  | ScalarBinary bytes =>
      if String.eqb column_type "GEOMETRY" then
        l ← bytes; p ← wkb_point l; Some (show_f64 p.1 +:+ " " +:+ show_f64 p.2)
      else if scalar_is_null value then None else Some (show_scalar value)
  | other => if scalar_is_null other then None else Some (show_scalar other)
  end.
End Statistics.

(** [str::is_char_boundary]: not before a continuation byte. *)
Definition is_char_boundary (l : list ascii) (i : nat) : bool :=
  (i =? 0)%nat || (i =? length l)%nat ||
  match l !! i with Some c => let n := nat_of_ascii c in (n <? 128)%nat || (192 <=? n)%nat | None => false end.
Fixpoint floor_boundary (l : list ascii) (n : nat) : nat :=
  if is_char_boundary l n then n else match n with O => O | S n => floor_boundary l n end.
Definition truncate (value : string) : string :=
  let l := bytes_of value in string_of (firstn (floor_boundary l (length l `min` 8)) l).
(** [Ord for Option<String>]: NULL first. *)
Definition option_gt (a b : option string) : bool :=
  match a, b with
  | None, _ => false
  | Some _, None => true
  | Some a, Some b => negb (bytes_leb (bytes_of a) (bytes_of b))
  end.
Definition normalize_row (min max : option string) (column_type : string) : option string * option string :=
  if String.eqb column_type "VARCHAR" then
    let min := truncate <$> min in let max := truncate <$> max in
    if option_gt min max then (max, min) else (min, max)
  else if String.eqb column_type "GEOMETRY" then
    match min, max with
    | Some lo, Some hi => let extent := "BOX(" +:+ lo +:+ ", " +:+ hi +:+ ")" in (Some extent, Some extent)
    | _, _ => (min, max)
    end
  else (min, max).
(** One bound and one type per row. *)
Fixpoint normalize_statistic_bounds (min max : list (option string)) (column_types : list string)
    : list (option string) * list (option string) :=
  match min, max, column_types with
  | lo :: min, hi :: max, t :: column_types =>
      let r := normalize_row lo hi t in
      let rs := normalize_statistic_bounds min max column_types in
      (r.1 :: rs.1, r.2 :: rs.2)
  | _, _, _ => (min, max)
  end.

(** ** Declarations of attached catalogs *)

Abbreviation Raw := (list ascii).
Record TableInfo := mkTableInfo {
  ti_name : string; ti_schema_path : list string; ti_columns : Raw; ti_constraints : list Raw;
  ti_supports_column_statistics : bool; ti_column_statistics : option Raw;
  ti_comment : option string; ti_tags : list (string * string); ti_required_filters : list (list string);
}.
Record SchemaInfo := mkSchemaInfo { si_path : list string; si_comment : option string; si_tags : list (string * string) }.
Record ViewInfo := mkViewInfo {
  vi_name : string; vi_schema_path : list string; vi_comment : option string; vi_tags : list (string * string);
  vi_column_comments : list (string * string);
}.
Record FunctionInfo := mkFunctionInfo {
  fi_name : string; fi_schema_path : list string; fi_function_type : string; fi_arguments : Raw; fi_output_schema : Raw;
  fi_stability : option string; fi_description : string; fi_categories : list string; fi_tags : list (string * string);
}.
Record MacroParameter := mkParameter {
  mp_name : string; mp_declared_type : option Raw; mp_documentation : option string;
  mp_default_expression : option Raw; mp_default_value : bool;
}.
Record MacroOverload := mkOverload { mo_macro_type : string; mo_parameters : list MacroParameter }.
Record MacroInfo := mkMacroInfo {
  mi_name : string; mi_schema_path : list string; mi_comment : option string; mi_tags : list (string * string);
  mi_overloads : list MacroOverload;
}.
Record SettingInfo := mkSetting {
  se_name : string; se_default_value : option (result Scalar); se_description : string; se_data_type : DataType;
}.
(** What [VgiCatalogMetadata] has besides the fields of [Runtime]. *)
Record Declared := mkDeclared {
  de_label : string;
  de_comment : option string; de_tags : list (string * string);
  de_resolved_data_version : option string; de_resolved_implementation_version : option string;
  de_schemas : list SchemaInfo; de_tables : list TableInfo; de_views : list (ViewInfo * list string);
  de_functions : list FunctionInfo; de_macros : list MacroInfo; de_settings : list SettingInfo;
  de_global_function_prefix : string; de_global_functions : list FunctionInfo; de_published_global_functions : list string;
}.
Record ScanBranch := mkBranch { br_function_name : string; br_filter : option string; br_writable : bool }.
(** [CatalogScanBranches] *)
Record Branches := mkBranches { bs_branches : list ScanBranch; bs_required_extensions : list string }.

(** ** The tables *)

Section Diagnostics.
(** Arrow: the constructor of a batch, reading a scalar. *)
Variable try_new : list Field -> list Array -> result RecordBatch.
Variable scalar_at : Array -> nat -> result Scalar.
(** Printing. *)
Variable display_type : DataType -> string.
Variable show_f64_1 show_f64 : Z -> string.
Variable show_scalar : Scalar -> string.
(** [vgi_protocol]: a schema or a batch from its bytes, with the text of an error. *)
Variable read_schema : Raw -> list Field + string.
Variable read_batch : Raw -> RecordBatch + string.
Abbreviation type_name := (duckdb_type_name display_type).
(** [vgi_error] and [to_df] *)
Definition external {A} (answer : A + string) : result A :=
  match answer with inl a => Ok a | inr text => Err (External text) end.
(** The entries of a field's metadata. *)
Definition metadata_of (f : Field) (key : string) : option string :=
  snd <$> List.find (fun e => String.eqb e.1 key) (field_metadata f).
Definition metadata_is (f : Field) (key value : string) : bool := bool_decide (metadata_of f key = Some value).
Definition metadata_matches (f : Field) (key value : string) : bool :=
  match metadata_of f key with Some v => eq_ignore_ascii_case v value | None => false end.
Definition starts_with (prefix s : string) : bool := is_some (drop_prefix (bytes_of prefix) (bytes_of s)).

(** *** [vgi_table_statistics] *)

Definition table_statistics_schema : list Field :=
  [field "column_name" Utf8 false; field "column_type" Utf8 false; field "min" Utf8 true; field "max" Utf8 true;
   field "has_null" Boolean true; field "has_not_null" Boolean true; field "distinct_count" Int64 true;
   field "contains_unicode" Boolean true; field "max_string_length" UInt64 true].
Definition new_empty (schema : list Field) : RecordBatch :=
  mkBatch schema (map (fun f => mkArray (field_type f) []) schema).
Definition column_by_name (b : RecordBatch) (name : string) : option Array :=
  i ← position (fun f => String.eqb (field_name f) name) (rb_schema b); rb_columns b !! i.
Definition statistic_strings (b : RecordBatch) (name : string) (column_types : list string)
    : result (list (option string)) :=
  array ← ok_or (Plan ("VGI column statistics are missing the `" +:+ name +:+ "` field")) (column_by_name b name);
  result_collect (fun row =>
    scalar ← scalar_at array row;
    Ok (statistic_string show_f64_1 show_f64 show_scalar scalar (nth row column_types ""))) (seq 0 (num_rows b)).
Definition statistics_column_type (table_schema : list Field) (name : Cell) : result string :=
  match name with
  | CText name =>
      match List.find (fun f => String.eqb (field_name f) name) table_schema with
      | None => Err (Plan ("VGI statistics reference unknown column `" +:+ name +:+ "`"))
      | Some f =>
          Ok (if match metadata_of f "ARROW:extension:name" with Some e => starts_with "geoarrow." e | None => false end
              then "GEOMETRY" else type_name (field_type f))
      end
  | _ => Err (Plan "VGI column statistics contain a NULL column name")
  end.
Definition statistics_flag (raw : RecordBatch) (flag : string * DataType) : result Array :=
  let array := default (mkArray flag.2 []) (column_by_name raw flag.1) in
  if negb (bool_decide (arr_type array = flag.2)) || negb (length (arr_cells array) =? num_rows raw)%nat
  then Err (Plan ("VGI column statistics field `" +:+ flag.1 +:+ "` has an invalid type or length"))
  else Ok array.
Definition table_statistics_batch (table : TableInfo) (raw : RecordBatch) : result RecordBatch :=
  match rb_columns raw with
  | [] => Ok (new_empty table_statistics_schema)
  | _ =>
      names ← ok_or (Plan "VGI column statistics are missing the UTF-8 `column_name` field")
                (array ← column_by_name raw "column_name"; if decide (arr_type array = Utf8) then Some array else None);
      table_schema ← external (read_schema (ti_columns table));
      column_types ← result_collect (statistics_column_type table_schema) (arr_cells names);
      min ← statistic_strings raw "min" column_types;
      max ← statistic_strings raw "max" column_types;
      let bounds := normalize_statistic_bounds min max column_types in
      flags ← result_collect (statistics_flag raw)
                [("has_null", Boolean); ("has_not_null", Boolean); ("distinct_count", Int64);
                 ("contains_unicode", Boolean); ("max_string_length", UInt64)];
      try_new table_statistics_schema
        (names :: string_array column_types :: string_opt_array bounds.1 :: string_opt_array bounds.2 :: flags)
  end.

(** The function's arguments must be string literals. *)
Definition literal_string (function : string) (index : nat) (e : Expr) : result string :=
  match e with
  | Literal (SVPrim (Utf8 | Utf8View | LargeUtf8) (Some (PString value))) => Ok value
  | _ => Err (Plan (function +:+ " argument " +:+ pretty index +:+ " must be a non-NULL string literal"))
  end.
Definition literal_strings (exprs : list Expr) (function : string) : result (list string) :=
  result_collect (fun '(index, e) => literal_string function index e) (combine (seq 0 (length exprs)) exprs).

Context {ScanPlan : Type}.
Abbreviation Runtime := (@VgiRuntime ScanPlan Branches).
Abbreviation Metadata := (@VgiCatalogMetadata Branches).
(** The attached catalogs in the order the [HashMap] of the runtime is read in,
    and what each declared. *)
Variable aliases : list string.
Variable declared : string -> Declared.
Definition catalog_metadata (r : Runtime) : list (string * Metadata * Declared) :=
  omap (fun alias => m ← rt_catalog_metadata r !! alias; Some (alias, m, declared alias)) aliases.
Abbreviation catalog := (string * Metadata * Declared)%type.
Definition alias_of (c : catalog) : string := c.1.1.

(** The worker's answer when the statistics are not inline: [connect], [attach]
    and [table_column_statistics]. *)
Variable table_column_statistics : string -> string -> string -> result RecordBatch.
Definition table_statistics (exprs : list Expr) (r : Runtime) : result RecordBatch :=
  args ← literal_strings exprs "vgi_table_statistics";
  match args with
  | [catalog; schema; table] =>
      c ← ok_or (Plan ("VGI catalog `" +:+ catalog +:+ "` is not attached"))
            (List.find (fun c => eq_ignore_ascii_case (alias_of c) catalog) (catalog_metadata r));
      info ← ok_or (Plan ("VGI table `" +:+ catalog +:+ "." +:+ schema +:+ "." +:+ table +:+ "` does not exist"))
               (List.find (fun info => eq_ignore_ascii_case (schema_leaf (ti_schema_path info)) schema
                                       && eq_ignore_ascii_case (ti_name info) table) (de_tables c.2));
      raw ← (if negb (ti_supports_column_statistics info) then Ok (mkBatch [] [])
             else match ti_column_statistics info with
                  | Some (_ :: _ as inline) => external (read_batch inline)
                  | _ =>
                      rpc_schema ← require_flat_schema_path (ti_schema_path info) "table statistics target";
                      table_column_statistics (md_worker_catalog c.1.2) rpc_schema (ti_name info)
                  end);
      table_statistics_batch info raw
  | _ => Err (Plan "vgi_table_statistics expects catalog, schema, and table arguments")
  end.

(** *** [vgi_catalogs] *)

Record OptionSpec := mkOption {
  os_name : string; os_description : string; os_data_type : DataType;
  os_default_value : option (Scalar + string); os_required : bool;
}.
Record Release := mkRelease {
  re_version : string; re_released_at : option Z; re_summary : string; re_notes_url : option string;
}.
Record CatalogInfo := mkCatalogInfo {
  ci_name : string; ci_implementation_version : option string; ci_data_version_spec : option string;
  ci_releases : list Release; ci_source_url : option string;
}.
Variable decode_attach_option_specs : CatalogInfo -> list OptionSpec + string.
Definition option_fields : list Field :=
  [field "name" Utf8 false; field "description" Utf8 false; field "type" Utf8 false;
   field "default_value" Utf8 true; field "required" Boolean false].
Definition release_fields : list Field :=
  [field "version" Utf8 false; field "released_at" (Timestamp Microsecond (Some "UTC")) true;
   field "summary" Utf8 false; field "notes_url" Utf8 true].
Definition option_cell (catalog : CatalogInfo) (spec : OptionSpec) : result Cell :=
  def ← match os_default_value spec with
        | None => Ok None
        | Some (inr error) =>
            Err (Plan ("could not render default for VGI catalog `" +:+ ci_name catalog +:+ "` ATTACH option `"
                       +:+ os_name spec +:+ "`: " +:+ error))
        | Some (inl value) => Ok (if scalar_is_null value then None else Some (show_scalar value))
        end;
  Ok (CStruct [CText (os_name spec); CText (os_description spec); CText (type_name (os_data_type spec)); opt_text def;
               CBool (os_required spec)]).
(** [i32::try_from] on the entries so far, which are the offset of the next list. *)
Definition i32_fits (n : nat) (what : string) : result unit :=
  if Z.of_nat n <=? 2 ^ 31 - 1 then Ok tt else Err (Plan ("VGI catalog discovery returned too many " +:+ what)).
Fixpoint option_lists (catalogs : list CatalogInfo) (entries : nat) : result (list Cell) :=
  match catalogs with
  | [] => Ok []
  | catalog :: catalogs =>
      specs ← external (decode_attach_option_specs catalog);
      cells ← result_collect (option_cell catalog) specs;
      let entries := (entries + length cells)%nat in
      _ ← i32_fits entries "attach options";
      rest ← option_lists catalogs entries;
      Ok (CList cells :: rest)
  end.
Definition release_cell (release : Release) : Cell :=
  CStruct [CText (re_version release); opt_int (re_released_at release); CText (re_summary release); opt_text (re_notes_url release)].
Fixpoint release_lists (catalogs : list CatalogInfo) (entries : nat) : result (list Cell) :=
  match catalogs with
  | [] => Ok []
  | catalog :: catalogs =>
      let entries := (entries + length (ci_releases catalog))%nat in
      _ ← i32_fits entries "releases";
      rest ← release_lists catalogs entries;
      Ok (CList (map release_cell (ci_releases catalog)) :: rest)
  end.
Definition catalog_discovery_batch (catalogs : list CatalogInfo) : result RecordBatch :=
  let option_item := List (field "item" (Struct option_fields) true) in
  let release_item := List (field "item" (Struct release_fields) true) in
  attach_options ← option_lists catalogs 0;
  releases ← release_lists catalogs 0;
  try_new
    [field "catalog" Utf8 false; field "implementation_version" Utf8 true; field "data_version_spec" Utf8 true;
     field "attach_options" option_item false; field "releases" release_item false; field "source_url" Utf8 true]
    [string_array (map ci_name catalogs); string_opt_array (map ci_implementation_version catalogs);
     string_opt_array (map ci_data_version_spec catalogs); mkArray option_item attach_options;
     mkArray release_item releases; string_opt_array (map ci_source_url catalogs)].
(** The worker at a location: [from_location], [connect] and [catalogs]. *)
Variable discover : string -> result (list CatalogInfo).
Definition catalog_discovery (exprs : list Expr) : result RecordBatch :=
  args ← literal_strings exprs "vgi_catalogs";
  match args with
  | [location] => catalogs ← discover location; catalog_discovery_batch catalogs
  | _ => Err (Plan "vgi_catalogs expects one worker LOCATION argument")
  end.

(** *** Caches *)

(** [stats()] and [entries()] of the two tiers of the result cache, ages and
    lifetimes in nanoseconds. *)
Record CacheStats := mkCacheStats {
  cs_hits : Z; cs_misses : Z; cs_inserts : Z; cs_evictions_lru : Z; cs_evictions_ttl : Z; cs_refusals : Z;
  cs_capture_aborts : Z; cs_revalidations : Z; cs_stale_serves : Z; cs_entries : Z; cs_total_bytes : Z;
}.
Record DiskStats := mkDiskStats {
  ds_hits : Z; ds_misses : Z; ds_inserts : Z; ds_evictions_lru : Z; ds_evictions_ttl : Z; ds_refusals : Z;
  ds_corruptions : Z; ds_capture_aborts : Z; ds_entries : Z; ds_total_bytes : Z; ds_revalidations : Z; ds_stale_serves : Z;
}.
Definition no_disk_stats : DiskStats := mkDiskStats 0 0 0 0 0 0 0 0 0 0 0 0.
Record MemoryEntry := mkMemoryEntry {
  me_key_fingerprint : string; me_catalog : string; me_function : string; me_rows : Z; me_bytes : Z; me_age : Z;
  me_stale : bool; me_hits : Z; me_revalidatable : bool; me_num_batches : Z; me_num_substreams : Z; me_at : option (string * string);
}.
Record DiskEntry := mkDiskEntry {
  dk_key_fingerprint : string; dk_catalog : string; dk_function : string; dk_rows : Z; dk_stored_bytes : Z; dk_age : Z;
  dk_freshness_remaining : Z; dk_revalidatable : bool; dk_batches : Z; dk_partitions : Z; dk_codec : string;
  dk_at : option (string * string);
}.
(** The durable tier answers or fails; [flush_all] and [reap] say how many
    entries went. *)
Record Durable := mkDurable {
  du_stats : DiskStats + string; du_entries : list DiskEntry + string; du_flush_all : result Z; du_reap : result Z;
}.
Record Caches := mkCaches {
  ca_stats : CacheStats; ca_entries : list MemoryEntry; ca_flush_all : Z; ca_reap : Z; ca_durable : option Durable;
}.
Variable caches : Caches.

Definition plan_cache_stats (r : Runtime) : result RecordBatch :=
  let stats := rt_plan_cache_stats r in
  try_new [field "hits" UInt64 false; field "misses" UInt64 false; field "inserts" UInt64 false; field "entries" UInt64 false]
    (map (fun value => uint64_array [value]) [ps_hits stats; ps_misses stats; ps_inserts stats; Z.of_nat (ps_entries stats)]).
(** [.map(..).transpose().map_err(vgi_error)?.unwrap_or_default()] *)
Definition durable_or {A} (get : Durable -> A + string) (default : A) : result A :=
  match ca_durable caches with None => Ok default | Some cache => external (get cache) end.
Definition cache_stats (r : Runtime) : result RecordBatch :=
  let stats := ca_stats caches in
  let exchange := rt_exchange_cache_stats r in
  disk ← durable_or du_stats no_disk_stats;
  try_new
    (map (fun name => field name UInt64 false)
       ["hits"; "misses"; "inserts"; "evictions_lru"; "evictions_ttl"; "refusals"; "capture_aborts"; "revalidations";
        "stale_serves"; "entries"; "total_bytes"; "exchange_hits"; "exchange_stores"; "exchange_bytes_served"; "disk_hits";
        "disk_misses"; "disk_inserts"; "disk_evictions_lru"; "disk_evictions_ttl"; "disk_refusals"; "disk_corruptions";
        "disk_capture_aborts"; "disk_entries"; "disk_total_bytes"; "disk_revalidations"; "disk_stale_serves"])
    (map (fun value => uint64_array [value])
       [cs_hits stats; cs_misses stats; cs_inserts stats; cs_evictions_lru stats; cs_evictions_ttl stats; cs_refusals stats;
        cs_capture_aborts stats; cs_revalidations stats; cs_stale_serves stats; cs_entries stats; cs_total_bytes stats;
        xs_hits exchange; xs_stores exchange; xs_bytes_served exchange; ds_hits disk; ds_misses disk; ds_inserts disk;
        ds_evictions_lru disk; ds_evictions_ttl disk; ds_refusals disk; ds_corruptions disk; ds_capture_aborts disk;
        ds_entries disk; ds_total_bytes disk; ds_revalidations disk; ds_stale_serves disk]).

(** [Duration::as_millis() as u64] *)
Definition millis (nanoseconds : Z) : Z := (nanoseconds / 10 ^ 6) mod u64_modulus.
(** [rsplit_once('.')]: what is after the last point. *)
Fixpoint after_last_point (l best : list ascii) : list ascii :=
  match l with
  | [] => best
  | c :: l => after_last_point l (if Ascii.eqb c "."%char then l else best)
  end.
Definition function_leaf (function : string) : string :=
  let l := bytes_of function in string_of (after_last_point l l).
(** Memory entries first, then durable ones. *)
Definition both {A} (entries : list MemoryEntry) (disk : list DiskEntry) (f : MemoryEntry -> A) (g : DiskEntry -> A) : list A :=
  map f entries ++ map g disk.
Definition cache_entries : result RecordBatch :=
  let entries := ca_entries caches in
  disk ← durable_or du_entries [];
  let both {A} (f : MemoryEntry -> A) g := both entries disk f g in
  try_new
    [field "key" Utf8 false; field "catalog" Utf8 false; field "function" Utf8 false; field "rows" UInt64 false;
     field "bytes" UInt64 false; field "age_ms" UInt64 false; field "stale" Boolean false; field "hits" UInt64 false;
     field "revalidatable" Boolean false; field "tier" Utf8 false; field "codec" Utf8 false; field "partitions" UInt64 false;
     field "freshness_remaining_ms" UInt64 false]
    [string_array (both me_key_fingerprint dk_key_fingerprint);
     string_array (both me_catalog dk_catalog);
     string_array (both me_function dk_function);
     uint64_array (both me_rows dk_rows);
     uint64_array (both me_bytes dk_stored_bytes);
     uint64_array (both (fun e => millis (me_age e)) (fun e => millis (dk_age e)));
     boolean_array (both me_stale (fun e => dk_freshness_remaining e =? 0));
     uint64_array (both me_hits (fun _ => 0));
     boolean_array (both me_revalidatable dk_revalidatable);
     string_array (both (fun _ => "memory") (fun _ => "disk"));
     string_array (both (fun _ => "") (fun e => to_ascii_lowercase (dk_codec e)));
     uint64_array (both me_num_substreams dk_partitions);
     uint64_array (both (fun _ => 0) (fun e => millis (dk_freshness_remaining e)))].
Definition at_unit (at_ : option (string * string)) : string := match at_ with Some a => a.1 | None => "" end.
Definition at_value (at_ : option (string * string)) : string := match at_ with Some a => a.2 | None => "" end.
Definition duckdb_cache_entries : result RecordBatch :=
  let entries := ca_entries caches in
  disk ← durable_or du_entries [];
  let both {A} (f : MemoryEntry -> A) g := both entries disk f g in
  try_new
    [field "key_hash" Utf8 false; field "catalog" Utf8 false; field "function" Utf8 false; field "num_rows" UInt64 false;
     field "bytes" UInt64 false; field "age_ms" UInt64 false; field "stale" Boolean false; field "hits" UInt64 false;
     field "revalidatable" Boolean false; field "num_batches" UInt64 false; field "num_substreams" UInt64 false;
     field "at_unit" Utf8 false; field "at_value" Utf8 false; field "tier" Utf8 false; field "total_bytes" UInt64 false;
     field "partition_label" Utf8 false]
    [string_array (both me_key_fingerprint dk_key_fingerprint);
     string_array (both me_catalog dk_catalog);
     string_array (both (fun e => function_leaf (me_function e)) (fun e => function_leaf (dk_function e)));
     uint64_array (both me_rows dk_rows);
     uint64_array (both me_bytes dk_stored_bytes);
     uint64_array (both (fun e => millis (me_age e)) (fun e => millis (dk_age e)));
     boolean_array (both me_stale (fun e => dk_freshness_remaining e =? 0));
     uint64_array (both me_hits (fun _ => 0));
     boolean_array (both me_revalidatable dk_revalidatable);
     uint64_array (both me_num_batches dk_batches);
     uint64_array (both me_num_substreams dk_partitions);
     string_array (both (fun e => at_unit (me_at e)) (fun e => at_unit (dk_at e)));
     string_array (both (fun e => at_value (me_at e)) (fun e => at_value (dk_at e)));
     string_array (both (fun _ => "memory") (fun _ => "disk"));
     uint64_array (both me_bytes dk_stored_bytes);
     string_array (both (fun _ => "") (fun _ => ""))].
Definition operation_result (name : string) (value : Z) : result RecordBatch :=
  try_new [field name UInt64 false] [uint64_array [value]].
(** [VgiRuntime::flush_result_cache] and [reap_result_cache] *)
Definition flush_result_cache : result Z :=
  match ca_durable caches with
  | None => Ok (ca_flush_all caches)
  | Some cache => n ← du_flush_all cache; Ok (saturating_add (ca_flush_all caches) n)
  end.
Definition reap_result_cache : result Z :=
  match ca_durable caches with
  | None => Ok (ca_reap caches)
  | Some cache => n ← du_reap cache; Ok (saturating_add (ca_reap caches) n)
  end.

(** *** Events *)

(** Milliseconds since the epoch, 0 before it, [as i64]. *)
Definition timestamp_millis (timestamp : Z) : Z := i64_wrap (Z.max timestamp 0 / 10 ^ 6).
Definition logs (r : Runtime) : result RecordBatch :=
  let events := rt_events r in
  try_new
    [field "timestamp_ms" Int64 false; field "event" Utf8 false; field "catalog" Utf8 true; field "function" Utf8 true;
     field "split" Utf8 true; field "duration_ms" UInt64 true; field "message" Utf8 true]
    [int64_array (map (fun e => timestamp_millis (ev_timestamp e)) events);
     string_array (map ev_kind events);
     string_opt_array (map ev_catalog events);
     string_opt_array (map ev_function events);
     string_opt_array (map ev_split events);
     uint64_opt_array (map (fun e => millis <$> ev_duration e) events);
     string_opt_array (map ev_message events)].
(** [split_ascii_whitespace] *)
Definition ascii_whitespace (c : ascii) : bool :=
  let n := nat_of_ascii c in (n =? 32)%nat || (n =? 9)%nat || (n =? 10)%nat || (n =? 12)%nat || (n =? 13)%nat.
Fixpoint words (l word : list ascii) : list (list ascii) :=
  match l with
  | [] => if decide (word = []) then [] else [rev word]
  | c :: l =>
      if ascii_whitespace c then if decide (word = []) then words l [] else rev word :: words l []
      else words l (c :: word)
  end.
Definition duckdb_log_kind (kind : string) : string :=
  if String.eqb kind "cache.hit" then "result_cache.hit"
  else if String.eqb kind "cache.miss" then "result_cache.miss"
  else if String.eqb kind "cache.store" then "result_cache.store"
  else if String.eqb kind "cache.ineligible" then "result_cache.ineligible"
  else if String.eqb kind "cache.refused" || String.eqb kind "cache.capture_aborted" then "result_cache.abort"
  else if String.eqb kind "cache.revalidated" then "result_cache.revalidate"
  else kind.
Definition has_explicit_tier (event : VgiEvent) : bool :=
  match ev_message event with
  | Some message => existsb (fun word => is_some (drop_prefix (bytes_of "tier=") word)) (words (bytes_of message) [])
  | None => false
  end.
Definition labelled (label : string) (value : option string) : list string :=
  match value with Some value => [label +:+ value] | None => [] end.
Definition duckdb_log_message (event : VgiEvent) : string :=
  let of_kind kind := String.eqb (ev_kind event) kind in
  join " "
    ([duckdb_log_kind (ev_kind event)]
     ++ (if (of_kind "cache.hit" || of_kind "cache.store") && negb (has_explicit_tier event) then ["tier=memory"] else [])
     ++ (if of_kind "cache.revalidated" then ["outcome=not_modified"] else [])
     ++ labelled "catalog=" (ev_catalog event)
     ++ labelled "function=" (ev_function event)
     ++ labelled "split=" (ev_split event)
     ++ labelled "duration_ms=" ((fun d => pretty (d / 10 ^ 6)) <$> ev_duration event)
     ++ labelled (if of_kind "cache.refused" || of_kind "cache.capture_aborted" then "reason=" else "") (ev_message event)).
Definition duckdb_logs (r : Runtime) : result RecordBatch :=
  let events := rt_events r in
  try_new [field "type" Utf8 false; field "message" Utf8 false]
    [string_array (map (fun _ => "VGI") events); string_array (map duckdb_log_message events)].

(** A [BTreeMap] is read by increasing key. *)
Definition key_le {A} (a b : string * A) : Prop := bytes_le (bytes_of a.1) (bytes_of b.1).
#[local] Instance key_le_dec {A} : RelDecision (@key_le A).
Proof. intros a b. unfold key_le. apply _. Defined.
Definition by_key {A} (m : gmap string A) : list (string * A) := merge_sort key_le (map_to_list m).
(** The number of events of a kind and the latest of them. *)
Definition count_event (grouped : gmap string (Z * Z)) (event : VgiEvent) : gmap string (Z * Z) :=
  let entry := default (0, 0) (grouped !! ev_kind event) in
  <[ev_kind event := (entry.1 + 1, Z.max entry.2 (timestamp_millis (ev_timestamp event)))]> grouped.
Definition log_stats (r : Runtime) : result RecordBatch :=
  let grouped := by_key (fold_left count_event (rt_events r) ∅) in
  try_new [field "event" Utf8 false; field "count" UInt64 false; field "last_timestamp_ms" Int64 false]
    [string_array (map fst grouped); uint64_array (map (fun e => e.2.1) grouped); int64_array (map (fun e => e.2.2) grouped)].

(** *** Settings and functions *)

(** The first declaration of a setting, over the catalogs as they are read. *)
Definition declare_setting (settings : gmap string SettingInfo) (setting : SettingInfo) : gmap string SettingInfo :=
  let key := to_ascii_lowercase (se_name setting) in
  match settings !! key with Some _ => settings | None => <[key := setting]> settings end.
Definition setting_value (configured : VgiSettings) (setting : SettingInfo) : option string :=
  match get_setting configured (se_name setting) with
  | Some value => Some value
  | None => match se_default_value setting with Some (Ok value) => Some (show_scalar value) | _ => None end
  end.
Definition duckdb_settings (r : Runtime) : result RecordBatch :=
  let configured := rt_session_settings r in
  let rows := map snd (by_key (fold_left declare_setting (flat_map (fun c => de_settings c.2) (catalog_metadata r)) ∅)) in
  try_new
    [field "name" Utf8 false; field "value" Utf8 true; field "description" Utf8 false; field "input_type" Utf8 false;
     field "scope" Utf8 false; field "aliases" (List item) false]
    [string_array (map se_name rows); string_opt_array (map (setting_value configured) rows);
     string_array (map se_description rows); string_array (map (fun s => type_name (se_data_type s)) rows);
     string_array (map (fun _ => "GLOBAL") rows); string_list_array (map (fun _ => []) rows)].

(** The published global names of a catalog, each once, in declaration order. *)
Definition global_name (d : Declared) (info : FunctionInfo) : string :=
  to_ascii_lowercase
    (if String.eqb (de_global_function_prefix d) "" then fi_name info
     else de_global_function_prefix d +:+ "_" +:+ fi_name info).
Fixpoint published_globals (d : Declared) (functions : list FunctionInfo) (seen : list string) : list (string * FunctionInfo) :=
  match functions with
  | [] => []
  | info :: functions =>
      let name := global_name d info in
      if existsb (fun published => eq_ignore_ascii_case published name) (de_published_global_functions d)
         && negb (vec_contains name seen)
      then (name, info) :: published_globals d functions (name :: seen)
      else published_globals d functions seen
  end.
(** [Vec::sort] and [sort_by]: stable. *)
Fixpoint insert_by {A} (le : A -> A -> bool) (x : A) (l : list A) : list A :=
  match l with [] => [x] | y :: l' => if le x y then x :: l else y :: insert_by le x l' end.
Definition sort_by {A} (le : A -> A -> bool) (l : list A) : list A := foldr (insert_by le) [] l.
Fixpoint texts_leb (a b : list string) : bool :=
  match a, b with
  | [], _ => true
  | _ :: _, [] => false
  | x :: a, y :: b => if String.eqb x y then texts_leb a b else bytes_leb (bytes_of x) (bytes_of y)
  end.
Definition global_row (c : catalog) (g : string * FunctionInfo) : list string :=
  [g.1; alias_of c; fi_name g.2; schema_leaf (fi_schema_path g.2); to_ascii_lowercase (fi_function_type g.2); de_label c.2].
Definition vgi_global_functions (r : Runtime) : result RecordBatch :=
  let rows := sort_by texts_leb
    (flat_map (fun c => map (global_row c) (published_globals c.2 (de_global_functions c.2) [])) (catalog_metadata r)) in
  let column i := string_array (map (fun row => nth i row "") rows) in
  try_new
    [field "global_name" Utf8 false; field "catalog_name" Utf8 false; field "function_name" Utf8 false;
     field "schema_name" Utf8 false; field "function_type" Utf8 false; field "worker_path" Utf8 false; field "live" Boolean false]
    [column 0%nat; column 1%nat; column 2%nat; column 3%nat; column 4%nat; column 5%nat; boolean_array (map (fun _ => true) rows)].

Record FunctionRow := mkFunctionRow {
  fr_database_name : string; fr_schema_name : string; fr_function_name : string; fr_function_type : string;
  fr_parameters : list string; fr_parameter_types : list string; fr_return_type : option string; fr_stability : option string;
  fr_description : string; fr_varargs : option string; fr_categories : list string; fr_tags : list (string * string);
}.
(** [strip_prefix("named_").unwrap_or(name)] *)
Definition parameter_name (name : string) : string :=
  match drop_prefix (bytes_of "named_") (bytes_of name) with Some rest => string_of rest | None => name end.
Definition parameter_type (f : Field) : string :=
  match metadata_of f "vgi_type" with
  | Some value =>
      if eq_ignore_ascii_case value "any" then "ANY"
      else if eq_ignore_ascii_case value "table" then "TABLE" else type_name (field_type f)
  | None => type_name (field_type f)
  end.
(** A schema that may be missing. *)
Definition optional_schema (raw : Raw) : result (list Field) :=
  match raw with [] => Ok [] | _ => external (read_schema raw) end.
Definition is_varargs (f : Field) : bool := metadata_is f "vgi_varargs" "true".
Definition function_row (database_name function_name : string) (info : FunctionInfo) : result FunctionRow :=
  arguments ← optional_schema (fi_arguments info);
  let fixed_arguments := List.filter (fun f => negb (is_varargs f)) arguments in
  let kind := to_ascii_lowercase (fi_function_type info) in
  let function_type := if String.eqb kind "scalar" then "scalar" else if String.eqb kind "aggregate" then "aggregate" else "table" in
  return_type ← (if String.eqb function_type "table" || bool_decide (fi_output_schema info = []) then Ok None
                 else output ← external (read_schema (fi_output_schema info));
                      Ok ((fun f => if metadata_is f "vgi:any" "true" then "ANY" else type_name (field_type f)) <$> head output));
  Ok {| fr_database_name := database_name; fr_schema_name := schema_leaf (fi_schema_path info);
        fr_function_name := function_name; fr_function_type := function_type;
        fr_parameters := map (fun f => parameter_name (field_name f)) fixed_arguments;
        fr_parameter_types := map parameter_type fixed_arguments; fr_return_type := return_type;
        fr_stability := fi_stability info; fr_description := fi_description info;
        fr_varargs := parameter_type <$> List.find is_varargs arguments; fr_categories := fi_categories info;
        fr_tags := fi_tags info |}.
Definition macro_row (alias : string) (info : MacroInfo) (overload : MacroOverload) : FunctionRow :=
  let is_table := eq_ignore_ascii_case (mo_macro_type overload) "table_macro"
                  || eq_ignore_ascii_case (mo_macro_type overload) "table" in
  {| fr_database_name := alias; fr_schema_name := schema_leaf (mi_schema_path info); fr_function_name := mi_name info;
     fr_function_type := if is_table then "table_macro" else "macro";
     fr_parameters := map mp_name (mo_parameters overload); fr_parameter_types := []; fr_return_type := None;
     fr_stability := None; fr_description := default "" (mi_comment info); fr_varargs := None; fr_categories := [];
     fr_tags := mi_tags info |}.
Definition catalog_functions (c : catalog) : result (list FunctionRow) :=
  functions ← result_collect (fun info => function_row (alias_of c) (fi_name info) info) (de_functions c.2);
  let macros := flat_map (fun info => map (macro_row (alias_of c) info) (mi_overloads info)) (de_macros c.2) in
  globals ← result_collect (fun g => function_row "system" g.1 g.2) (published_globals c.2 (de_global_functions c.2) []);
  Ok (functions ++ macros ++ globals).
(** [metadata_batch]: every column nullable, of its array's type. *)
Definition metadata_batch (names : list string) (arrays : list Array) : result RecordBatch :=
  try_new (map (fun '(name, array) => field name (arr_type array) true) (combine names arrays)) arrays.
Definition duckdb_functions (r : Runtime) : result RecordBatch :=
  rows ← result_collect catalog_functions (catalog_metadata r);
  let rows := concat rows in
  metadata_batch
    ["database_name"; "schema_name"; "function_name"; "function_type"; "parameters"; "parameter_types"; "return_type";
     "stability"; "description"; "varargs"; "categories"; "tags"]
    [string_array (map fr_database_name rows); string_array (map fr_schema_name rows); string_array (map fr_function_name rows);
     string_array (map fr_function_type rows); string_list_array (map fr_parameters rows);
     string_list_array (map fr_parameter_types rows); string_opt_array (map fr_return_type rows);
     string_opt_array (map fr_stability rows); string_array (map fr_description rows); string_opt_array (map fr_varargs rows);
     string_list_array (map fr_categories rows); string_map_array (map fr_tags rows)].

(** *** Catalogs, schemas, tables, views, columns *)

(** A tag that is replaced where it stands, or added. *)
Fixpoint set_tag (key value : string) (tags : list (string * string)) : list (string * string) :=
  match tags with
  | [] => [(key, value)]
  | (name, old) :: tags => if String.eqb name key then (name, value) :: tags else (name, old) :: set_tag key value tags
  end.
Definition add_tag (key : string) (value : option string) (tags : list (string * string)) : list (string * string) :=
  match value with Some value => set_tag key value tags | None => tags end.
Definition duckdb_databases (r : Runtime) : result RecordBatch :=
  let catalogs := catalog_metadata r in
  let tags (c : catalog) :=
    add_tag "vgi_resolved_implementation_version" (de_resolved_implementation_version c.2)
      (add_tag "vgi_resolved_data_version" (de_resolved_data_version c.2) (de_tags c.2)) in
  metadata_batch ["database_name"; "type"; "comment"; "tags"]
    [string_array (map alias_of catalogs); string_array (map (fun _ => "vgi") catalogs);
     optional_strings catalogs (fun c => de_comment c.2); string_map_array (map tags catalogs)].
(** Every object of a kind with the alias of its catalog. *)
Definition declarations {A} (get : Declared -> list A) (r : Runtime) : list (string * A) :=
  flat_map (fun c => map (fun x => (alias_of c, x)) (get c.2)) (catalog_metadata r).
Definition duckdb_schemas (r : Runtime) : result RecordBatch :=
  let rows := declarations de_schemas r in
  metadata_batch ["database_name"; "schema_name"; "comment"; "tags"]
    [string_array (map fst rows); string_array (map (fun row => schema_leaf (si_path row.2)) rows);
     optional_strings rows (fun row => si_comment row.2); string_map_array (map (fun row => si_tags row.2) rows)].
(** [serde_json::to_string(..).unwrap_or_default()] of the required filters. *)
Variable required_filters_json : list (list string) -> string.
Definition table_tags (table : TableInfo) : list (string * string) :=
  ti_tags table ++ match ti_required_filters table with
                   | [] => []
                   | filters => [("vgi_required_filters", required_filters_json filters)]
                   end.
Definition duckdb_tables (r : Runtime) : result RecordBatch :=
  let rows := declarations de_tables r in
  metadata_batch ["database_name"; "schema_name"; "table_name"; "comment"; "tags"]
    [string_array (map fst rows); string_array (map (fun row => schema_leaf (ti_schema_path row.2)) rows);
     string_array (map (fun row => ti_name row.2) rows); optional_strings rows (fun row => ti_comment row.2);
     string_map_array (map (fun row => table_tags row.2) rows)].
Definition duckdb_views (r : Runtime) : result RecordBatch :=
  let rows := declarations (fun d => map fst (de_views d)) r in
  metadata_batch ["database_name"; "schema_name"; "view_name"; "comment"; "tags"]
    [string_array (map fst rows); string_array (map (fun row => schema_leaf (vi_schema_path row.2)) rows);
     string_array (map (fun row => vi_name row.2) rows); optional_strings rows (fun row => vi_comment row.2);
     string_map_array (map (fun row => vi_tags row.2) rows)].

Record ColumnRow := mkColumnRow {
  cr_database_name : string; cr_schema_name : string; cr_table_name : string; cr_column_name : string;
  cr_column_default : option string; cr_comment : option string;
}.
Definition column_default (f : Field) : option string :=
  match metadata_of f "generated_expression" with
  | Some expression => Some ("CAST((" +:+ expression +:+ ") AS " +:+ type_name (field_type f) +:+ ")")
  | None => metadata_of f "default"
  end.
Definition table_columns (alias : string) (table : TableInfo) : result (list ColumnRow) :=
  schema ← external (read_schema (ti_columns table));
  Ok (map (fun f => mkColumnRow alias (schema_leaf (ti_schema_path table)) (ti_name table) (field_name f) (column_default f)
                      (metadata_of f "comment")) schema).
(** The columns that were planned and those with a comment, each once, in
    order; the last comment on a column counts. *)
Definition view_columns (alias : string) (v : ViewInfo * list string) : list ColumnRow :=
  let comments : gmap string string := list_to_map (rev (vi_column_comments v.1)) in
  let columns : gmap string unit := list_to_map (map (fun c => (c, tt)) (v.2 ++ map fst (vi_column_comments v.1))) in
  map (fun column => mkColumnRow alias (schema_leaf (vi_schema_path v.1)) (vi_name v.1) column None (comments !! column))
    (map fst (by_key columns)).
Definition catalog_columns (c : catalog) : result (list ColumnRow) :=
  tables ← result_collect (table_columns (alias_of c)) (de_tables c.2);
  Ok (concat tables ++ flat_map (view_columns (alias_of c)) (de_views c.2)).
Definition duckdb_columns (r : Runtime) : result RecordBatch :=
  rows ← result_collect catalog_columns (catalog_metadata r);
  let rows := concat rows in
  metadata_batch ["database_name"; "schema_name"; "table_name"; "column_name"; "column_default"; "comment"]
    [string_array (map cr_database_name rows); string_array (map cr_schema_name rows); string_array (map cr_table_name rows);
     string_array (map cr_column_name rows); optional_strings rows cr_column_default; optional_strings rows cr_comment].

(** *** Constraints *)

Record ConstraintDefinition := mkDefinition {
  cd_kind : string; cd_column_paths : list (list string); cd_check_expression : option Raw; cd_foreign_key : option Raw;
}.
Record ForeignKeyDefinition := mkForeignKey { fk_referenced_table : Raw; fk_referenced_column_paths : list (list string) }.
Record CatalogObjectRef := mkObjectRef { or_schema_path : list string; or_name : string }.
(** [read_batch] and [from_batch], by what they decode. *)
Variable decode_constraint_info : Raw -> Raw + string.
Variable decode_definition : Raw -> ConstraintDefinition + string.
Variable decode_expression : Raw -> string + string.
Variable decode_foreign_key : Raw -> ForeignKeyDefinition + string.
Variable decode_object_ref : Raw -> CatalogObjectRef + string.
Record ConstraintRow := mkConstraintRow {
  co_database_name : string; co_schema_name : string; co_table_name : string; co_constraint_type : string;
  co_constraint_text : string; co_columns : list string; co_referenced_table : option string;
  co_referenced_columns : option (list string);
}.
(** [replace('_', " ")] *)
Definition replace_underscores (s : string) : string :=
  string_of (map (fun c => if Ascii.eqb c "_"%char then " "%char else c) (bytes_of s)).
Definition target_display (target : CatalogObjectRef) : string :=
  match or_schema_path target with
  | [] => or_name target
  | path => display_schema_path path +:+ "/" +:+ or_name target
  end.
(** The text of a constraint, and what a foreign key refers to. *)
Definition constraint_text (d : ConstraintDefinition) (columns : list string)
    : result (string * option (string * list string)) :=
  let kind := cd_kind d in
  if String.eqb kind "NOT_NULL" then Ok ("NOT NULL", None)
  else if String.eqb kind "PRIMARY_KEY" then Ok ("PRIMARY KEY(" +:+ join ", " columns +:+ ")", None)
  else if String.eqb kind "UNIQUE" then Ok ("UNIQUE(" +:+ join ", " columns +:+ ")", None)
  else if String.eqb kind "CHECK" then
    expression ← ok_or (Plan "VGI CHECK constraint is missing its expression") (cd_check_expression d);
    sql ← external (decode_expression expression);
    Ok ("CHECK((" +:+ sql +:+ "))", None)
  else if String.eqb kind "FOREIGN_KEY" then
    foreign ← ok_or (Plan "VGI FOREIGN KEY constraint is missing its target") (cd_foreign_key d);
    foreign ← external (decode_foreign_key foreign);
    target ← external (decode_object_ref (fk_referenced_table foreign));
    let target_columns := map display_column_path (fk_referenced_column_paths foreign) in
    Ok ("FOREIGN KEY (" +:+ join ", " columns +:+ ") REFERENCES " +:+ target_display target +:+ "("
        +:+ join ", " target_columns +:+ ")", Some (or_name target, target_columns))
  else Ok (replace_underscores kind, None).
Definition constraint_row (alias : string) (table : TableInfo) (bytes : Raw) : result ConstraintRow :=
  definition ← external (decode_constraint_info bytes);
  definition ← external (decode_definition definition);
  let columns := map display_column_path (cd_column_paths definition) in
  text ← constraint_text definition columns;
  Ok {| co_database_name := alias; co_schema_name := schema_leaf (ti_schema_path table); co_table_name := ti_name table;
        co_constraint_type := replace_underscores (cd_kind definition); co_constraint_text := text.1; co_columns := columns;
        co_referenced_table := fst <$> text.2; co_referenced_columns := snd <$> text.2 |}.
Definition duckdb_constraints (r : Runtime) : result RecordBatch :=
  rows ← result_collect (fun '(alias, table) => result_collect (constraint_row alias table) (ti_constraints table))
           (declarations de_tables r);
  let rows := concat rows in
  metadata_batch
    ["database_name"; "schema_name"; "table_name"; "constraint_type"; "constraint_text"; "constraint_column_names";
     "referenced_table"; "referenced_column_names"]
    [string_array (map co_database_name rows); string_array (map co_schema_name rows); string_array (map co_table_name rows);
     string_array (map co_constraint_type rows); string_array (map co_constraint_text rows);
     string_list_array (map co_columns rows); optional_strings rows co_referenced_table;
     optional_string_list_array (map co_referenced_columns rows)].

(** *** [vgi_function_arguments] *)

Record ArgumentRow := mkArgumentRow {
  ar_catalog_name : string; ar_schema_name : string; ar_function_name : string; ar_function_type : string;
  ar_field_index : Z; ar_arg_position : option Z; ar_arg_name : string; ar_arg_type : string; ar_is_positional : bool;
  ar_is_named : bool; ar_is_const : bool; ar_is_varargs : bool; ar_is_any_type : bool; ar_arg_description : option string;
  ar_arg_default : option string; ar_arg_choices : option string; ar_arg_range : option string; ar_arg_pattern : option string;
}.
Definition is_named (f : Field) : bool := metadata_matches f "vgi_arg" "named" || starts_with "named_" (field_name f).
Fixpoint append_argument_rows (catalog schema_name function_name function_type : string) (schema : list Field)
    (field_index positional : Z) : list ArgumentRow :=
  match schema with
  | [] => []
  | f :: schema =>
      let named := is_named f in
      {| ar_catalog_name := catalog; ar_schema_name := schema_name; ar_function_name := function_name;
         ar_function_type := function_type; ar_field_index := field_index;
         ar_arg_position := if named then None else Some positional;
         ar_arg_name := parameter_name (field_name f); ar_arg_type := parameter_type f; ar_is_positional := negb named;
         ar_is_named := named; ar_is_const := metadata_is f "vgi_const" "true"; ar_is_varargs := is_varargs f;
         ar_is_any_type := metadata_matches f "vgi_type" "any"; ar_arg_description := metadata_of f "vgi_doc";
         ar_arg_default := metadata_of f "vgi_default"; ar_arg_choices := metadata_of f "vgi_choices";
         ar_arg_range := metadata_of f "vgi_range"; ar_arg_pattern := metadata_of f "vgi_pattern" |}
      :: append_argument_rows catalog schema_name function_name function_type schema (field_index + 1)
           (if named then positional else positional + 1)
  end.
Definition function_arguments (alias : string) (info : FunctionInfo) : result (list ArgumentRow) :=
  schema ← optional_schema (fi_arguments info);
  Ok (append_argument_rows alias (schema_leaf (fi_schema_path info)) (fi_name info)
        (to_ascii_lowercase (fi_function_type info)) schema 0 0).
Definition parameter_data_type (parameter : MacroParameter) : result DataType :=
  match mp_declared_type parameter with
  | Some (_ :: _ as bytes) =>
      schema ← external (read_schema bytes);
      match schema with
      | f :: _ => Ok (field_type f)
      | [] => Err (Plan ("VGI macro parameter `" +:+ mp_name parameter +:+ "` has an empty declared type"))
      end
  | _ => Ok Null
  end.
Definition parameter_field (parameter : MacroParameter) : result Field :=
  data_type ← parameter_data_type parameter;
  def ← match mp_default_expression parameter with
        | Some expression => sql ← external (decode_expression expression); Ok [("vgi_default", sql)]
        | None => Ok (if mp_default_value parameter then [("vgi_default", "<literal>")] else [])
        end;
  Ok (mkField (mp_name parameter) data_type true
        (match mp_documentation parameter with Some doc => [("vgi_doc", doc)] | None => [] end ++ def)).
Fixpoint contains_bytes (p l : list ascii) : bool :=
  is_some (drop_prefix p l) || match l with [] => false | _ :: l => contains_bytes p l end.
Definition macro_arguments (alias : string) (info : MacroInfo) (overload : MacroOverload) : result (list ArgumentRow) :=
  let macro_type :=
    if contains_bytes (bytes_of "table") (bytes_of (to_ascii_lowercase (mo_macro_type overload)))
    then "table_macro" else "scalar_macro" in
  fields ← result_collect parameter_field (mo_parameters overload);
  Ok (append_argument_rows alias (schema_leaf (mi_schema_path info)) (mi_name info) macro_type fields 0 0).
Definition catalog_arguments (c : catalog) : result (list ArgumentRow) :=
  functions ← result_collect (function_arguments (alias_of c)) (de_functions c.2);
  macros ← result_collect (fun '(info, overload) => macro_arguments (alias_of c) info overload)
             (flat_map (fun info => map (fun overload => (info, overload)) (mi_overloads info)) (de_macros c.2));
  Ok (concat functions ++ concat macros).
Definition vgi_function_arguments (r : Runtime) : result RecordBatch :=
  rows ← result_collect catalog_arguments (catalog_metadata r);
  let rows := concat rows in
  metadata_batch
    ["catalog_name"; "schema_name"; "function_name"; "function_type"; "field_index"; "arg_position"; "arg_name"; "arg_type";
     "is_positional"; "is_named"; "is_const"; "is_varargs"; "is_any_type"; "arg_description"; "arg_default"; "arg_choices";
     "arg_range"; "arg_pattern"]
    [string_array (map ar_catalog_name rows); string_array (map ar_schema_name rows); string_array (map ar_function_name rows);
     string_array (map ar_function_type rows); uint64_array (map ar_field_index rows); int64_opt_array (map ar_arg_position rows);
     string_array (map ar_arg_name rows); string_array (map ar_arg_type rows); boolean_array (map ar_is_positional rows);
     boolean_array (map ar_is_named rows); boolean_array (map ar_is_const rows); boolean_array (map ar_is_varargs rows);
     boolean_array (map ar_is_any_type rows); optional_strings rows ar_arg_description; optional_strings rows ar_arg_default;
     optional_strings rows ar_arg_choices; optional_strings rows ar_arg_range; optional_strings rows ar_arg_pattern].

(** *** [vgi_table_branches] *)

(** What a catalog's worker answers now: [connect] and [attach], and the
    branches of a table. *)
Record Worker := mkWorker {
  wk_attach : string -> result unit;
  wk_table_scan_branches : string -> TableInfo -> option Branches;
}.
Definition branch_key (table : TableInfo) : string * string :=
  (to_ascii_lowercase (schema_leaf (ti_schema_path table)), to_ascii_lowercase (ti_name table)).
Definition unresolved (m : Metadata) (tables : list TableInfo) : list TableInfo :=
  List.filter (fun table => negb (is_some (md_table_branches m !! branch_key table))) tables.
Definition fetch (w : Worker) (c : catalog) : result (list (TableInfo * Branches)) :=
  match unresolved c.1.2 (de_tables c.2) with
  | [] => Ok []
  | tables =>
      _ ← wk_attach w (alias_of c);
      Ok (omap (fun table => branches ← wk_table_scan_branches w (alias_of c) table; Some (table, branches)) tables)
  end.
(** What was fetched is kept in the runtime, and in the map of this call. *)
Definition remember (alias : string) (r : Runtime) (fetched : list (TableInfo * Branches)) : Runtime :=
  fold_left (fun r e => set_table_branches r alias (schema_leaf (ti_schema_path e.1)) (ti_name e.1) e.2) fetched r.
Definition resolve (resolved : gmap (string * string) Branches) (fetched : list (TableInfo * Branches))
    : gmap (string * string) Branches :=
  fold_left (fun resolved e => <[branch_key e.1 := e.2]> resolved) fetched resolved.
Record BranchRow := mkBranchRow {
  bw_catalog : string; bw_schema : string; bw_table : string; bw_index : Z; bw_function : string;
  bw_branch_filter : option string; bw_extensions : list string; bw_writable : bool;
}.
Definition branch_rows (alias : string) (resolved : gmap (string * string) Branches) (table : TableInfo) : list BranchRow :=
  match resolved !! branch_key table with
  | None => []
  | Some branches =>
      imap (fun index branch =>
        {| bw_catalog := alias; bw_schema := schema_leaf (ti_schema_path table); bw_table := ti_name table;
           bw_index := Z.of_nat index; bw_function := br_function_name branch; bw_branch_filter := br_filter branch;
           bw_extensions := bs_required_extensions branches; bw_writable := br_writable branch |}) (bs_branches branches)
  end.
Definition catalog_branch_rows (alias : string) (resolved : gmap (string * string) Branches) (tables : list TableInfo)
    : list BranchRow := flat_map (branch_rows alias resolved) tables.
(** The catalogs one after the other; a worker that cannot be reached ends it. *)
Fixpoint branch_catalogs (w : Worker) (catalogs : list catalog) (r : Runtime) : Runtime * result (list BranchRow) :=
  match catalogs with
  | [] => (r, Ok [])
  | c :: catalogs =>
      match fetch w c with
      | Err e => (r, Err e)
      | Ok fetched =>
          let rest := branch_catalogs w catalogs (remember (alias_of c) r fetched) in
          (rest.1, rows ← rest.2;
                   Ok (catalog_branch_rows (alias_of c) (resolve (md_table_branches c.1.2) fetched) (de_tables c.2) ++ rows))
      end
  end.
Definition branch_leb (a b : BranchRow) : bool :=
  let k x := [bw_catalog x; bw_schema x; bw_table x] in
  if bool_decide (k a = k b) then bw_index a <=? bw_index b else texts_leb (k a) (k b).
Definition branch_batch (rows : list BranchRow) : result RecordBatch :=
  try_new
    [field "catalog_name" Utf8 false; field "schema_name" Utf8 false; field "table_name" Utf8 false;
     field "branch_index" Int64 false; field "function_name" Utf8 false; field "positional_arguments" Utf8 false;
     field "named_arguments" Utf8 false; field "branch_filter" Utf8 true; field "table_required_extensions" (List item) false;
     field "writable" Boolean false]
    [string_array (map bw_catalog rows); string_array (map bw_schema rows); string_array (map bw_table rows);
     int64_array (map bw_index rows); string_array (map bw_function rows); string_array (map (fun _ => "[]") rows);
     string_array (map (fun _ => "{}") rows); string_opt_array (map bw_branch_filter rows);
     string_list_array (map bw_extensions rows); boolean_array (map bw_writable rows)].
Definition vgi_table_branches (w : Worker) (r : Runtime) : Runtime * result RecordBatch :=
  let answer := branch_catalogs w (catalog_metadata r) r in
  (answer.1, rows ← answer.2; branch_batch (sort_by branch_leb rows)).

(** *** The functions *)

Inductive DiagnosticsKind :=
  | KCacheStats | KPlanCacheStats | KCacheEntries | KDuckDbCacheEntries | KLogs | KDuckDbLogs | KDuckDbFunctions
  | KDuckDbSettings | KVgiGlobalFunctions | KDuckDbDatabases | KDuckDbSchemas | KDuckDbTables | KDuckDbViews
  | KDuckDbColumns | KDuckDbConstraints | KVgiFunctionArguments | KVgiTableBranches | KLogStats | KCacheFlush | KCacheReap.
(** Both caches; the plan cache is only flushed when the result cache was. *)
Definition cache_flush (r : Runtime) : Runtime * result Z :=
  match flush_result_cache with
  | Err e => (r, Err e)
  | Ok removed => let flushed := flush_plan_cache r in (flushed.1, Ok ((removed + Z.of_nat flushed.2) mod u64_modulus))
  end.
Definition call_with_args (kind : DiagnosticsKind) (w : Worker) (exprs : list Expr) (r : Runtime) : Runtime * result RecordBatch :=
  match exprs with
  | _ :: _ => (r, Err (Plan "VGI diagnostic table functions take no arguments"))
  | [] =>
      match kind with
      | KCacheStats => (r, cache_stats r)
      | KPlanCacheStats => (r, plan_cache_stats r)
      | KCacheEntries => (r, cache_entries)
      | KDuckDbCacheEntries => (r, duckdb_cache_entries)
      | KLogs => (r, logs r)
      | KDuckDbLogs => (r, duckdb_logs r)
      | KDuckDbFunctions => (r, duckdb_functions r)
      | KDuckDbSettings => (r, duckdb_settings r)
      | KVgiGlobalFunctions => (r, vgi_global_functions r)
      | KDuckDbDatabases => (r, duckdb_databases r)
      | KDuckDbSchemas => (r, duckdb_schemas r)
      | KDuckDbTables => (r, duckdb_tables r)
      | KDuckDbViews => (r, duckdb_views r)
      | KDuckDbColumns => (r, duckdb_columns r)
      | KDuckDbConstraints => (r, duckdb_constraints r)
      | KVgiFunctionArguments => (r, vgi_function_arguments r)
      | KVgiTableBranches => vgi_table_branches w r
      | KLogStats => (r, log_stats r)
      | KCacheFlush => let flushed := cache_flush r in (flushed.1, removed ← flushed.2; operation_result "flushed" removed)
      | KCacheReap => (r, removed ← reap_result_cache; operation_result "removed" removed)
      end
  end.

(** The scalar functions. *)
Inductive ScalarFn := FnTypeOf | FnCacheFlush | FnCacheReap | FnLogsClear.
Inductive FnValue := ValText (s : string) | ValUInt64 (n : Z).
Definition invoke (f : ScalarFn) (arguments : list DataType) (r : Runtime) : Runtime * result FnValue :=
  match f with
  | FnTypeOf =>
      (r, match arguments with t :: _ => Ok (ValText (type_name t)) | [] => Err (Plan "typeof expects one argument") end)
  | FnCacheFlush => let flushed := cache_flush r in (flushed.1, removed ← flushed.2; Ok (ValUInt64 removed))
  | FnCacheReap => (r, removed ← reap_result_cache; Ok (ValUInt64 removed))
  | FnLogsClear => let cleared := clear_events r in (cleared.1, Ok (ValUInt64 (Z.of_nat cleared.2)))
  end.
End Diagnostics.

(** *** Registration *)

(** What a name of the session stands for: one of these functions with the
    runtime it reads, or a function of someone else. *)
Inductive TableFn := FnDiagnostics (kind : DiagnosticsKind) | FnTableStatistics | FnCatalogDiscovery.
Inductive Registered (A : Type) := Ours (function : A) (runtime : nat) | Foreign (id : Z).
Arguments Ours {A} function runtime.
Arguments Foreign {A} id.
Record Functions := mkFunctions {
  table_functions : gmap string (Registered TableFn);
  scalar_functions : gmap string (Registered ScalarFn);
}.
Definition diagnostics_functions : list (string * TableFn) :=
  map (fun e => (e.1, FnDiagnostics e.2))
    [("vgi_cache_stats", KCacheStats); ("vgi_plan_cache_stats", KPlanCacheStats); ("vgi_cache_entries", KCacheEntries);
     ("vgi_logs", KLogs); ("vgi_log_stats", KLogStats); ("vgi_result_cache_stats", KCacheStats);
     ("vgi_result_cache", KDuckDbCacheEntries); ("vgi_result_cache_flush", KCacheFlush); ("vgi_result_cache_reap", KCacheReap);
     ("duckdb_logs", KDuckDbLogs); ("duckdb_functions", KDuckDbFunctions); ("duckdb_settings", KDuckDbSettings);
     ("vgi_global_functions", KVgiGlobalFunctions); ("duckdb_databases", KDuckDbDatabases); ("duckdb_schemas", KDuckDbSchemas);
     ("duckdb_tables", KDuckDbTables); ("duckdb_views", KDuckDbViews); ("duckdb_columns", KDuckDbColumns);
     ("duckdb_constraints", KDuckDbConstraints); ("vgi_function_arguments", KVgiFunctionArguments);
     ("vgi_table_branches", KVgiTableBranches)]
  ++ [("vgi_table_statistics", FnTableStatistics); ("vgi_catalogs", FnCatalogDiscovery)].
Definition diagnostics_scalars : list (string * ScalarFn) :=
  [("typeof", FnTypeOf); ("vgi_cache_flush", FnCacheFlush); ("vgi_cache_reap", FnCacheReap); ("vgi_logs_clear", FnLogsClear)].
(** A name is registered unless the session had it when [register] began. *)
Definition register_new {A} (runtime : nat) (state : gmap string (Registered A)) (functions : list (string * A))
    : gmap string (Registered A) :=
  fold_left (fun m e => match state !! e.1 with Some _ => m | None => <[e.1 := Ours e.2 runtime]> m end) functions state.
Definition register (runtime : nat) (f : Functions) : Functions :=
  mkFunctions (register_new runtime (table_functions f) diagnostics_functions)
    (register_new runtime (scalar_functions f) diagnostics_scalars).

(** ** Batches are built *)

(** A constructor that accepts what fits, and the one that accepts everything. *)
Definition lawful (try_new : list Field -> list Array -> result RecordBatch) : Prop :=
  forall schema columns, fits schema columns = true -> try_new schema columns = Ok (mkBatch schema columns).
Definition unchecked (schema : list Field) (columns : list Array) : result RecordBatch := Ok (mkBatch schema columns).
(** A table that only hands fitting columns to the constructor. *)
Definition builds (table : (list Field -> list Array -> result RecordBatch) -> result RecordBatch) : Prop :=
  forall try_new, lawful try_new ->
    table try_new = table unchecked /\
    (forall b, table unchecked = Ok b -> fits (rb_schema b) (rb_columns b) = true).
Lemma builds_batch schema columns : fits schema columns = true -> builds (fun try_new => try_new schema columns).
Proof. intros Hf try_new Hlaw. split; [by apply Hlaw|]. by intros b [= <-]. Qed.
Lemma builds_bind {A} (m : result A) table :
  (forall a, m = Ok a -> builds (table a)) -> builds (fun try_new => a ← m; table a try_new).
Proof. intros H try_new Hlaw. destruct m as [a|e]; cbn; [by apply H|done]. Qed.

Definition good (n : nat) (f : Field) (c : Array) : Prop := column_fits f c = true /\ length (arr_cells c) = n.
Lemma fits_intro n schema columns : columns <> [] -> Forall2 (good n) schema columns -> fits schema columns = true.
Proof.
  intros Hne Hall. unfold fits. destruct columns as [|c cs]; [done|].
  assert (length (arr_cells c) = n) as -> by (by inversion Hall as [|? ? ? ? [? ?]]).
  clear Hne. induction Hall as [|f a fs l [Hf Hn] _ IH]; [done|]. cbn. by rewrite Hf, Hn, Nat.eqb_refl, IH.
Qed.
Lemma filled_fits {A} (c : A -> Cell) l :
  (forall x, c x <> CNull) -> existsb (fun cell => match cell with CNull => true | _ => false end) (map c l) = false.
Proof. intros Hc. induction l as [|x l IH]; [done|]. cbn. rewrite IH. by destruct (c x) eqn:He; [destruct (Hc x)|..]. Qed.
Lemma good_filled {A} n name ty b (c : A -> Cell) l :
  (forall x, c x <> CNull) -> length l = n -> good n (field name ty b) (mkArray ty (map c l)).
Proof.
  intros Hc <-. split; [|apply length_map]. unfold column_fits. cbn.
  rewrite bool_decide_eq_true_2 by done. cbn. rewrite filled_fits by done. by rewrite orb_true_r.
Qed.
Lemma good_nullable n name c : length (arr_cells c) = n -> good n (field name (arr_type c) true) c.
Proof. intros <-. split; [|done]. unfold column_fits. by rewrite bool_decide_eq_true_2. Qed.
(** Columns of as many cells as there are rows, whatever they hold, under
    declared types; the columns of a batch without declared types. *)
Ltac columns_built n :=
  apply (fits_intro n); [done|];
  repeat first
    [ apply Forall2_nil_2
    | apply Forall2_cons_2;
      [first [apply good_filled; [done|] | apply good_nullable];
       cbn; unfold both; rewrite ?length_app, ?length_map; reflexivity|]].
Lemma builds_metadata n names arrays :
  length names = length arrays -> arrays <> [] -> Forall (fun a => length (arr_cells a) = n) arrays ->
  builds (fun try_new => metadata_batch try_new names arrays).
Proof.
  intros Hlen Hne Hall. apply builds_batch. apply (fits_intro n); [done|]. clear Hne.
  revert names Hlen. induction Hall as [|a arrays Ha _ IH]; intros [|name names]; cbn; try done.
  intros [= Hlen]. constructor; [by apply good_nullable|by apply IH].
Qed.
Ltac metadata_built n :=
  apply (builds_metadata n); [done|done|];
  repeat first [apply Forall_nil_2 | apply Forall_cons_2; [cbn; rewrite ?length_map; reflexivity|]].

Section Built.
Variable display_type : DataType -> string.
Variable show_scalar : Scalar -> string.
Context {ScanPlan : Type} (aliases : list string) (declared : string -> Declared).
Variable caches : Caches.
Implicit Type r : @VgiRuntime ScanPlan Branches.

Lemma caches_built r :
  builds (fun try_new => plan_cache_stats try_new r) /\ builds (fun try_new => cache_stats try_new caches r) /\
  builds (fun try_new => cache_entries try_new caches) /\ builds (fun try_new => duckdb_cache_entries try_new caches) /\
  forall name value, builds (fun try_new => operation_result try_new name value).
Proof.
  split_and!; [..|intros name value].
  - apply builds_batch. columns_built 1%nat.
  - apply builds_bind. intros disk _. apply builds_batch. columns_built 1%nat.
  - apply builds_bind. intros disk _. apply builds_batch. columns_built (length (ca_entries caches) + length disk)%nat.
  - apply builds_bind. intros disk _. apply builds_batch. columns_built (length (ca_entries caches) + length disk)%nat.
  - apply builds_batch. columns_built 1%nat.
Qed.
Lemma events_built r :
  builds (fun try_new => logs try_new r) /\ builds (fun try_new => duckdb_logs try_new r) /\
  builds (fun try_new => log_stats try_new r).
Proof.
  split_and!; apply builds_batch.
  - columns_built (length (rt_events r)).
  - columns_built (length (rt_events r)).
  - columns_built (length (by_key (fold_left count_event (rt_events r) ∅))).
Qed.
Lemma declarations_built r :
  builds (fun try_new => duckdb_settings try_new display_type show_scalar aliases declared r) /\
  builds (fun try_new => vgi_global_functions try_new aliases declared r) /\
  builds (fun try_new => duckdb_databases try_new aliases declared r) /\
  builds (fun try_new => duckdb_schemas try_new aliases declared r) /\
  (forall json, builds (fun try_new => duckdb_tables try_new aliases declared json r)) /\
  builds (fun try_new => duckdb_views try_new aliases declared r).
Proof.
  split_and!; [apply builds_batch|apply builds_batch| | |intros json|].
  - columns_built (length (by_key (fold_left declare_setting
      (flat_map (fun c => de_settings c.2) (catalog_metadata aliases declared r)) ∅))).
  - columns_built (length (sort_by texts_leb (flat_map (fun c =>
      map (global_row c) (published_globals c.2 (de_global_functions c.2) [])) (catalog_metadata aliases declared r)))).
  - metadata_built (length (catalog_metadata aliases declared r)).
  - metadata_built (length (declarations aliases declared de_schemas r)).
  - metadata_built (length (declarations aliases declared de_tables r)).
  - metadata_built (length (declarations aliases declared (fun d => map fst (de_views d)) r)).
Qed.
Variable read_schema : Raw -> list Field + string.
Lemma decoded_built r decode_info decode_definition decode_expression decode_foreign_key decode_object_ref :
  builds (fun try_new => duckdb_functions try_new display_type read_schema aliases declared r) /\
  builds (fun try_new => duckdb_columns try_new display_type read_schema aliases declared r) /\
  builds (fun try_new => duckdb_constraints try_new aliases declared decode_info decode_definition decode_expression
                           decode_foreign_key decode_object_ref r) /\
  builds (fun try_new => vgi_function_arguments try_new display_type read_schema aliases declared decode_expression r).
Proof. split_and!; apply builds_bind; intros rows _; metadata_built (length (concat rows)). Qed.
Lemma branches_built rows : builds (fun try_new => branch_batch try_new rows).
Proof. apply builds_batch. columns_built (length rows). Qed.

(** Batches from elsewhere have columns of one length. *)
Lemma column_length b name c : fits (rb_schema b) (rb_columns b) = true -> column_by_name b name = Some c ->
  length (arr_cells c) = num_rows b.
Proof.
  unfold fits, num_rows, column_by_name. intros Hf Hc. destruct (position _ _) as [i|]; [|done]. cbn in Hc.
  destruct (rb_columns b) as [|c0 cs] eqn:Hcols; [done|]. revert Hf Hc. rewrite <- Hcols. clear Hcols.
  generalize (length (arr_cells c0)) as n. generalize (rb_schema b) as fs. intros fs n. revert i fs.
  induction (rb_columns b) as [|d ds IH]; intros i [|f fs]; cbn; try done.
  rewrite !andb_true_iff. intros [[_ Hd%Nat.eqb_eq] Hfs]. destruct i as [|i]; [by intros [= <-]|]. by apply (IH i fs).
Qed.
Lemma normalize_lengths min max types :
  length (normalize_statistic_bounds min max types).1 = length min /\ length (normalize_statistic_bounds min max types).2 = length max.
Proof.
  revert max types. induction min as [|lo min IH]; intros [|hi max] [|t types]; try done. cbn.
  destruct (IH max types) as [-> ->]. done.
Qed.
Lemma builds_const b : fits (rb_schema b) (rb_columns b) = true -> builds (fun _ => Ok b).
Proof. intros Hf tn _. split; [done|]. by intros ? [= <-]. Qed.
Variable scalar_at : Array -> nat -> result Scalar.
Variable show_f64_1 show_f64 : Z -> string.
Lemma statistics_built table raw :
  rb_columns raw = [] \/ fits (rb_schema raw) (rb_columns raw) = true ->
  builds (fun try_new => table_statistics_batch try_new scalar_at display_type show_f64_1 show_f64 show_scalar read_schema table raw).
Proof.
  intros Hraw. unfold table_statistics_batch. destruct (rb_columns raw) as [|c0 cs] eqn:Hcols.
  { by apply builds_const. }
  destruct Hraw as [Hraw|Hraw]; [done|]. rewrite <- Hcols in Hraw.
  assert (Hlen : forall name c, column_by_name raw name = Some c -> length (arr_cells c) = num_rows raw)
    by (intros; by eapply column_length).
  apply builds_bind. intros names Hnames. apply builds_bind. intros schema _. apply builds_bind. intros types Htypes.
  apply builds_bind. intros min Hmin. apply builds_bind. intros max Hmax. apply builds_bind. intros flags Hflags.
  apply builds_batch. destruct (column_by_name raw "column_name") as [a|] eqn:Ha; [|done]. cbn in Hnames.
  case_decide as Hty; [|done]. injection Hnames as ->. apply result_collect_Ok in Htypes, Hflags.
  assert (Hbound : forall name l, statistic_strings scalar_at show_f64_1 show_f64 show_scalar raw name types = Ok l ->
    length l = num_rows raw).
  { intros name l. unfold statistic_strings. destruct (column_by_name raw name); [|done]. cbn.
    intros Hl%result_collect_Ok. apply Forall2_length in Hl. by rewrite length_seq in Hl. }
  destruct (normalize_lengths min max types) as [Hl1 Hl2]. apply Hbound in Hmin, Hmax.
  apply (fits_intro (num_rows raw)); [done|].
  apply Forall2_cons_2; [split; [|by eapply Hlen]|apply Forall2_cons_2; [apply good_filled; [done|]|]].
  - unfold column_fits. cbn. rewrite bool_decide_eq_true_2 by done. cbn.
    enough (existsb (fun cell => match cell with CNull => true | _ => false end) (arr_cells names) = false) as -> by done.
    revert Htypes. clear. generalize (arr_cells names) as cells. intros cells Htypes.
    induction Htypes as [|cell t cells ts Hc _ IH]; [done|]. cbn. rewrite IH. by destruct cell.
  - apply Forall2_length in Htypes. rewrite <- Htypes. by eapply Hlen.
  - do 2 (apply Forall2_cons_2; [apply good_nullable; cbn; rewrite length_map; congruence|]).
    assert (Hflag : forall flag a, statistics_flag raw flag = Ok a -> arr_type a = flag.2 /\ length (arr_cells a) = num_rows raw).
    { intros flag a'. unfold statistics_flag. destruct (_ || _) eqn:Hb; [done|]. intros [= <-].
      apply orb_false_iff in Hb as [Ht%negb_false_iff%bool_decide_eq_true Hn%negb_false_iff%Nat.eqb_eq]. done. }
    repeat match goal with
      | H : Forall2 _ (_ :: _) ?l |- _ => inversion H; subst; clear H
      | H : Forall2 _ [] ?l |- _ => inversion H; subst; clear H
      end.
    repeat match goal with H : statistics_flag _ _ = Ok ?a |- _ => apply Hflag in H as [? ?] end.
    repeat (apply Forall2_cons_2; [split; [unfold column_fits; by rewrite bool_decide_eq_true_2|done]|]). by constructor.
Qed.
Lemma discovery_built decode_options catalogs :
  builds (fun try_new => catalog_discovery_batch try_new display_type show_scalar decode_options catalogs).
Proof.
  apply builds_bind. intros options Ho. apply builds_bind. intros releases Hr. apply builds_batch.
  assert (Hlists : forall entries l, option_lists display_type show_scalar decode_options catalogs entries = Ok l ->
    length l = length catalogs /\ existsb (fun cell => match cell with CNull => true | _ => false end) l = false).
  { clear. induction catalogs as [|c cs IH]; intros entries l; cbn; [by intros [= <-]|].
    destruct (external (decode_options c)) as [specs|]; [|done]. cbn.
    destruct (result_collect _ specs) as [cells|]; [|done]. cbn. destruct (i32_fits _ _); [|done]. cbn.
    destruct (option_lists _ _ _ _ _) as [rest|] eqn:Hrest; [|done]. cbn. intros [= <-]. apply IH in Hrest as [? ?]. cbn.
    split; [congruence|done]. }
  assert (Hreleases : forall entries l, release_lists catalogs entries = Ok l ->
    length l = length catalogs /\ existsb (fun cell => match cell with CNull => true | _ => false end) l = false).
  { clear. induction catalogs as [|c cs IH]; intros entries l; cbn; [by intros [= <-]|].
    destruct (i32_fits _ _); [|done]. cbn.
    destruct (release_lists _ _) as [rest|] eqn:Hrest; [|done]. cbn. intros [= <-]. apply IH in Hrest as [? ?]. cbn.
    split; [congruence|done]. }
  apply Hlists in Ho as [Ho Hof]. apply Hreleases in Hr as [Hr Hrf].
  apply (fits_intro (length catalogs)); [done|].
  repeat (apply Forall2_cons_2; [first [apply good_filled; [done|by rewrite length_map]
    | apply good_nullable; cbn; by rewrite !length_map
    | split; [unfold column_fits; cbn -[bool_decide]; rewrite bool_decide_eq_true_2 by done; by rewrite ?Hof, ?Hrf|done]]|]).
  by constructor.
Qed.
End Built.

Section Tables.
Variable display_type : DataType -> string.
Variable show_scalar : Scalar -> string.
Variable read_schema : Raw -> list Field + string.
Context {ScanPlan : Type}.
Variable aliases : list string.
Variable declared : string -> Declared.
Variable caches : Caches.
Variable required_filters_json : list (list string) -> string.
Variable decode_constraint_info : Raw -> Raw + string.
Variable decode_definition : Raw -> ConstraintDefinition + string.
Variable decode_expression : Raw -> string + string.
Variable decode_foreign_key : Raw -> ForeignKeyDefinition + string.
Variable decode_object_ref : Raw -> CatalogObjectRef + string.
Abbreviation Runtime := (@VgiRuntime ScanPlan Branches).
Abbreviation diagnose try_new := (call_with_args try_new display_type show_scalar read_schema aliases declared caches
  required_filters_json decode_constraint_info decode_definition decode_expression decode_foreign_key decode_object_ref).
Variable scalar_at : Array -> nat -> result Scalar.
Variable show_f64_1 show_f64 : Z -> string.
Variable read_batch : Raw -> RecordBatch + string.
Variable table_column_statistics : string -> string -> string -> result RecordBatch.
Abbreviation statistics try_new := (table_statistics try_new scalar_at display_type show_f64_1 show_f64 show_scalar read_schema
  read_batch aliases declared table_column_statistics).
Variable decode_attach_option_specs : CatalogInfo -> list OptionSpec + string.
Variable discover : string -> result (list CatalogInfo).
Abbreviation discovery try_new := (catalog_discovery try_new display_type show_scalar decode_attach_option_specs discover).

(** A batch as Arrow has them: no columns, or columns that fit. *)
Definition arrow_batch (b : RecordBatch) : Prop := rb_columns b = [] \/ fits (rb_schema b) (rb_columns b) = true.
Lemma pair_built {A} (x : A) table try_new : builds table -> lawful try_new ->
  (x, table try_new) = (x, table unchecked) /\
  forall b, (x, table try_new).2 = Ok b -> fits (rb_schema b) (rb_columns b) = true.
Proof. intros Hb Hlaw. destruct (Hb try_new Hlaw) as [He Hf]. cbn. rewrite He. done. Qed.

(** C19: arrow accepts every diagnostics table: each function hands its
    constructor as many columns as fields, of the declared types, of one length
    and without NULL where none is declared, so the answer is what it would be
    if nothing were checked. For column statistics the worker's batches are
    taken to be batches. *)
Theorem diagnostics_tables_fit try_new : lawful try_new ->
  (forall kind w exprs (r : Runtime),
     diagnose try_new kind w exprs r = diagnose unchecked kind w exprs r /\
     forall b, (diagnose try_new kind w exprs r).2 = Ok b -> fits (rb_schema b) (rb_columns b) = true) /\
  ((forall raw b, read_batch raw = inl b -> arrow_batch b) ->
   (forall catalog schema table b, table_column_statistics catalog schema table = Ok b -> arrow_batch b) ->
   forall exprs (r : Runtime), statistics try_new exprs r = statistics unchecked exprs r /\
     forall b, statistics try_new exprs r = Ok b -> fits (rb_schema b) (rb_columns b) = true) /\
  forall exprs, discovery try_new exprs = discovery unchecked exprs /\
    forall b, discovery try_new exprs = Ok b -> fits (rb_schema b) (rb_columns b) = true.
Proof.
  intros Hlaw. split; [|split].
  - intros kind w exprs r. destruct exprs as [|e exprs]; [|done].
    destruct (caches_built caches r) as (Hc1 & Hc2 & Hc3 & Hc4 & Hc5). destruct (events_built r) as (He1 & He2 & He3).
    destruct (declarations_built display_type show_scalar aliases declared r) as (Hd1 & Hd2 & Hd3 & Hd4 & Hd5 & Hd6).
    destruct (decoded_built display_type aliases declared read_schema r decode_constraint_info decode_definition
      decode_expression decode_foreign_key decode_object_ref) as (Hr1 & Hr2 & Hr3 & Hr4).
    specialize (Hd5 required_filters_json). destruct kind; cbn [call_with_args];
      try match goal with H : builds ?t |- _ => exact (pair_built r t try_new H Hlaw) end.
    + unfold vgi_table_branches. destruct (branch_catalogs _ _ r) as [r' rows]. cbn.
      refine (pair_built r' (fun try_new => sorted ← rows; branch_batch try_new (sort_by branch_leb sorted)) try_new _ Hlaw).
      apply builds_bind. intros rows' _. apply branches_built.
    + destruct (cache_flush caches r) as [r' removed].
      refine (pair_built r' (fun try_new => n ← removed; operation_result try_new "flushed" n) try_new _ Hlaw).
      apply builds_bind. intros n _. apply Hc5.
    + refine (pair_built r (fun try_new => n ← reap_result_cache caches; operation_result try_new "removed" n) try_new _ Hlaw).
      apply builds_bind. intros n _. apply Hc5.
  - intros Hread Hrpc exprs r. enough (builds (fun try_new => statistics try_new exprs r)) as Hb
      by (destruct (Hb try_new Hlaw) as [He Hf]; rewrite He; done).
    apply builds_bind. intros args _. destruct args as [|catalog [|schema [|table [|]]]]; try (by intros tn _).
    apply builds_bind. intros c _. apply builds_bind. intros info _. apply builds_bind. intros raw Hraw.
    apply statistics_built. destruct (ti_supports_column_statistics info); cbn in Hraw; [|injection Hraw as <-; by left].
    destruct (ti_column_statistics info) as [[|]|].
    2: { destruct (read_batch _) eqn:Hb in Hraw; [|done]. injection Hraw as <-. by eapply Hread. }
    all: destruct (require_flat_schema_path _ _); [|done]; cbn in Hraw; by eapply Hrpc.
  - intros exprs. enough (builds (fun try_new => discovery try_new exprs)) as Hb
      by (destruct (Hb try_new Hlaw) as [He Hf]; rewrite He; done).
    apply builds_bind. intros args _. destruct args as [|location [|]]; try (by intros tn _).
    apply builds_bind. intros catalogs _. apply discovery_built.
Qed.
End Tables.

(** ** Branches are fetched once *)

Section Fetching.
Context {ScanPlan : Type}.
Variable try_new : list Field -> list Array -> result RecordBatch.
Variable aliases : list string.
Variable declared : string -> Declared.
Abbreviation Runtime := (@VgiRuntime ScanPlan Branches).
Abbreviation Metadata := (@VgiCatalogMetadata Branches).
Implicit Type c : string * Metadata * Declared.

Definition with_branches (fetched : list (TableInfo * Branches)) (m : Metadata) : Metadata :=
  mkMetadata (md_worker_catalog m) (md_settings m) (resolve (md_table_branches m) fetched).
Lemma set_metadata_id (r : Runtime) : set_metadata r (rt_catalog_metadata r) = r.
Proof. by destruct r. Qed.
Lemma remember_spec alias fetched (r : Runtime) :
  remember alias r fetched = set_metadata r (alter (with_branches fetched) alias (rt_catalog_metadata r)).
Proof.
  unfold remember. revert r. induction fetched as [|[t b] fetched IH]; intros r; cbn.
  - rewrite <- (set_metadata_id r) at 1. f_equal. symmetry. apply map_eq. intros k. rewrite lookup_alter.
    case_decide; [|done]. subst. by destruct (rt_catalog_metadata r !! k) as [[]|].
  - rewrite IH. unfold set_table_branches. cbn. f_equal.
    apply map_eq. intros k. rewrite !lookup_alter. case_decide; [|done]. subst.
    rewrite decide_True by done. by destruct (rt_catalog_metadata r !! k).
Qed.
(** What a call leaves of a catalog it could reach. *)
Definition settle (w : Worker) c : string * Metadata * Declared :=
  match fetch w c with Ok fetched => (alias_of c, with_branches fetched c.1.2, c.2) | Err _ => c end.
Definition own_rows c : list BranchRow := catalog_branch_rows (alias_of c) (md_table_branches c.1.2) (de_tables c.2).
Lemma alias_settle w c : alias_of (settle w c) = alias_of c.
Proof. unfold settle. by destruct (fetch w c). Qed.
Lemma branch_catalogs_spec w catalogs : forall (r r' : Runtime) rows,
  NoDup (map alias_of catalogs) ->
  (forall c, c ∈ catalogs -> rt_catalog_metadata r !! alias_of c = Some c.1.2) ->
  branch_catalogs w catalogs r = (r', Ok rows) ->
  rows = flat_map (fun c => own_rows (settle w c)) catalogs /\
  (forall c, c ∈ catalogs -> rt_catalog_metadata r' !! alias_of c = Some (settle w c).1.2) /\
  (forall alias, alias ∉ map alias_of catalogs -> rt_catalog_metadata r' !! alias = rt_catalog_metadata r !! alias) /\
  r' = set_metadata r (rt_catalog_metadata r').
Proof.
  induction catalogs as [|c cs IH]; intros r r' rows Hnd Hin; cbn.
  { intros [= <- <-]. split_and!; try done; [by intros ? ?%not_elem_of_nil|]. by rewrite set_metadata_id. }
  destruct (fetch w c) as [fetched|e] eqn:Hfetch; [|done].
  destruct (branch_catalogs w cs _) as [r1 [rest|]] eqn:Hrest; [|done]. intros [= <- <-].
  rewrite remember_spec in Hrest. inversion_clear Hnd as [|? ? Hc Hnd'].
  apply IH in Hrest as (-> & Hset & Hother & Hr); [|done|].
  2: { intros d Hd. cbn. rewrite lookup_alter_ne; [by apply Hin; right|]. intros Heq. apply Hc. rewrite Heq.
       by apply list_elem_of_fmap_2. }
  split_and!.
  - unfold settle at 2, own_rows at 2. by rewrite Hfetch.
  - intros d [->|Hd]%elem_of_cons; [|by apply Hset]. rewrite Hother by done. cbn.
    rewrite lookup_alter_eq, (Hin c) by (by left). unfold settle. by rewrite Hfetch.
  - intros alias [Hne Hni]%not_elem_of_cons. rewrite Hother by done. cbn. by rewrite lookup_alter_ne.
  - rewrite Hr. cbn. by destruct r.
Qed.

Lemma resolve_other m fetched k : (forall e, e ∈ fetched -> branch_key e.1 <> k) -> resolve m fetched !! k = m !! k.
Proof.
  unfold resolve. revert m. induction fetched as [|e fetched IH]; intros m Hk; cbn; [done|].
  rewrite IH by (intros; apply Hk; by right). apply lookup_insert_ne. apply Hk. by left.
Qed.
Lemma resolve_known m fetched k :
  is_Some (m !! k) \/ (exists e, e ∈ fetched /\ branch_key e.1 = k) -> is_Some (resolve m fetched !! k).
Proof.
  unfold resolve. revert m. induction fetched as [|e fetched IH]; intros m Hk; cbn.
  - destruct Hk as [Hk|(e & []%not_elem_of_nil & _)]. done.
  - apply IH. destruct (decide (branch_key e.1 = k)) as [<-|Hne]; [left; rewrite lookup_insert_eq; by eexists|].
    destruct Hk as [Hk|(e' & [->|He']%elem_of_cons & Hke)]; [left; by rewrite lookup_insert_ne|done|right; eauto].
Qed.
Lemma unresolved_spec (m : Metadata) tables t : t ∈ unresolved m tables <-> t ∈ tables /\ md_table_branches m !! branch_key t = None.
Proof.
  unfold unresolved. rewrite !list_elem_of_In, filter_In. destruct (md_table_branches m !! branch_key t); cbn; intuition done.
Qed.
Lemma fetch_unresolved w c fetched e : fetch w c = Ok fetched -> e ∈ fetched -> e.1 ∈ unresolved c.1.2 (de_tables c.2).
Proof.
  unfold fetch. destruct (unresolved _ _) as [|t ts] eqn:Hu; [intros [= <-] []%not_elem_of_nil|].
  destruct (wk_attach _ _); [|done]. cbn. intros [= <-] He.
  change (e ∈ omap (fun table => b ← wk_table_scan_branches w (alias_of c) table; Some (table, b)) (t :: ts)) in He.
  apply list_elem_of_omap in He as (t' & Ht' & Hb). destruct (wk_table_scan_branches _ _ _); [|done]. by injection Hb as <-.
Qed.
Lemma fetch_answered w c fetched : fetch w c = Ok fetched ->
  (forall t, t ∈ unresolved c.1.2 (de_tables c.2) -> is_Some (wk_table_scan_branches w (alias_of c) t)) ->
  unresolved (with_branches fetched c.1.2) (de_tables c.2) = [].
Proof.
  intros Hf Hall. apply elem_of_nil_inv. intros t [Ht Hnone]%unresolved_spec.
  enough (is_Some (md_table_branches (with_branches fetched c.1.2) !! branch_key t)) as [b Hb] by congruence.
  apply resolve_known. destruct (md_table_branches c.1.2 !! branch_key t) eqn:Hm; [left; by eexists|]. right.
  assert (t ∈ unresolved c.1.2 (de_tables c.2)) as Hu by (by apply unresolved_spec).
  destruct (Hall t Hu) as [b Hb]. exists (t, b). split; [|done]. revert Hf Hu. unfold fetch.
  destruct (unresolved _ _) as [|t0 ts]; [by intros _ []%not_elem_of_nil|]. destruct (wk_attach _ _); [|done]. cbn.
  intros [= <-] Hu.
  change ((t, b) ∈ omap (fun table => b ← wk_table_scan_branches w (alias_of c) table; Some (table, b)) (t0 :: ts)).
  apply list_elem_of_omap. exists t. split; [done|]. by rewrite Hb.
Qed.
Lemma branch_catalogs_fetched w catalogs : forall (r r' : Runtime) rows,
  branch_catalogs w catalogs r = (r', Ok rows) -> forall c, c ∈ catalogs -> exists fetched, fetch w c = Ok fetched.
Proof.
  induction catalogs as [|c cs IH]; intros r r' rows; cbn; [by intros _ c []%not_elem_of_nil|].
  destruct (fetch w c) as [fetched|] eqn:Hf; [|done]. destruct (branch_catalogs w cs _) as [r2 [rest|]] eqn:Hrest; [|done].
  intros _ d [->|Hd]%elem_of_cons; [by eexists|]. by eapply IH.
Qed.
(** With every table known nobody is asked. *)
Lemma asked_nothing w catalogs (r : Runtime) :
  (forall c, c ∈ catalogs -> unresolved c.1.2 (de_tables c.2) = []) ->
  branch_catalogs w catalogs r = (r, Ok (flat_map own_rows catalogs)).
Proof.
  induction catalogs as [|c cs IH]; intros Hall; cbn; [done|]. unfold fetch. rewrite Hall by (by left). cbn.
  rewrite IH by (intros; apply Hall; by right). done.
Qed.
Lemma catalog_metadata_spec (r : Runtime) c :
  c ∈ catalog_metadata aliases declared r ->
  alias_of c ∈ aliases /\ rt_catalog_metadata r !! alias_of c = Some c.1.2 /\ c.2 = declared (alias_of c).
Proof.
  intros (alias & Ha & Hc)%list_elem_of_omap. destruct (rt_catalog_metadata r !! alias) eqn:Hm; [|done].
  by injection Hc as <-.
Qed.
Lemma catalog_aliases (r : Runtime) :
  map alias_of (catalog_metadata aliases declared r) = filter (fun alias => is_Some (rt_catalog_metadata r !! alias)) aliases.
Proof.
  unfold catalog_metadata. induction aliases as [|alias l IH]; [done|]. rewrite filter_cons. cbn.
  destruct (rt_catalog_metadata r !! alias) eqn:Hm; cbn.
  - rewrite decide_True by (by eexists). by rewrite <- IH.
  - rewrite decide_False by (by intros [? ?]). done.
Qed.
Lemma catalogs_settled w (r r' : Runtime) :
  (forall c, c ∈ catalog_metadata aliases declared r -> rt_catalog_metadata r' !! alias_of c = Some (settle w c).1.2) ->
  (forall alias, rt_catalog_metadata r !! alias = None -> rt_catalog_metadata r' !! alias = None) ->
  catalog_metadata aliases declared r' = map (settle w) (catalog_metadata aliases declared r).
Proof.
  unfold catalog_metadata. intros Hset Hnone. induction aliases as [|alias l IH]; [done|]. cbn in Hset |- *.
  destruct (rt_catalog_metadata r !! alias) as [m|] eqn:Hm; cbn in *.
  - specialize (Hset (alias, m, declared alias)) as Halias. cbn in Halias. rewrite Halias by (by left). cbn.
    rewrite IH by (intros; apply Hset; by right). f_equal. unfold settle. by destruct (fetch _ _).
  - rewrite Hnone by done. cbn. by apply IH.
Qed.

(** C18: the branches of a table are fetched once. A call leaves everything but
    the catalogs' branches alone and every known answer as it is; and when the
    worker answered for every table it was asked about, the table can be read
    again, with the same rows, whatever has become of the worker: nobody is
    asked any more. *)
Theorem branches_fetched_once w (r r' : Runtime) b :
  NoDup aliases -> vgi_table_branches try_new aliases declared w r = (r', Ok b) ->
  r' = set_metadata r (rt_catalog_metadata r') /\
  (forall alias m, rt_catalog_metadata r !! alias = Some m ->
     exists m', rt_catalog_metadata r' !! alias = Some m' /\ md_table_branches m ⊆ md_table_branches m') /\
  ((forall c t, c ∈ catalog_metadata aliases declared r -> t ∈ unresolved c.1.2 (de_tables c.2) ->
      is_Some (wk_table_scan_branches w (alias_of c) t)) ->
   forall w', vgi_table_branches try_new aliases declared w' r' = (r', Ok b)).
Proof.
  intros Hnd. unfold vgi_table_branches. set (cs := catalog_metadata aliases declared r).
  destruct (branch_catalogs w cs r) as [r1 [rows|]] eqn:Hcs; [|done]. cbn. intros [= <- Hb].
  assert (Hin : forall c, c ∈ cs -> rt_catalog_metadata r !! alias_of c = Some c.1.2) by (by intros c (_ & ? & _)%catalog_metadata_spec).
  pose proof (branch_catalogs_fetched w cs r r1 rows Hcs) as Hfetch.
  apply branch_catalogs_spec in Hcs as (-> & Hset & Hother & Hr); [|unfold cs; rewrite catalog_aliases; by apply NoDup_filter|done].
  split; [done|]. split.
  - intros alias m Hm. destruct (decide (alias ∈ map alias_of cs)) as [(c & -> & Hc)%list_elem_of_fmap|Hni];
      [|exists m; by rewrite Hother].
    exists (settle w c).1.2. split; [by apply Hset|]. specialize (Hin c Hc). rewrite Hm in Hin. injection Hin as ->.
    unfold settle. destruct (fetch w c) as [fetched|] eqn:Hf; [|done]. cbn.
    apply map_subseteq_spec. intros k x Hk. rewrite resolve_other; [done|].
    intros e He Heq. destruct (proj1 (unresolved_spec _ _ _) (fetch_unresolved w c fetched e Hf He)) as [_ Hn]. congruence.
  - intros Hall w'. rewrite (catalogs_settled w r r1) by
      (first [done | intros alias Hn; rewrite Hother; [done|]; intros (c & -> & Hc)%list_elem_of_fmap; rewrite Hin in Hn; done]).
    rewrite asked_nothing; fold cs.
    + cbn. rewrite <- Hb. cbn. do 2 f_equal. by rewrite !flat_map_concat_map, map_map.
    + intros d (c & -> & Hc)%list_elem_of_fmap. destruct (Hfetch c Hc) as [fetched Hf]. unfold settle. rewrite Hf. cbn.
      apply (fetch_answered w c fetched Hf). intros t. by apply Hall.
Qed.
End Fetching.

(** ** Events are counted *)

Definition of_kind (k : string) (es : list VgiEvent) : list VgiEvent := List.filter (fun e => String.eqb (ev_kind e) k) es.
Definition latest (es : list VgiEvent) : Z := fold_left Z.max (map (fun e => timestamp_millis (ev_timestamp e)) es) 0.
(** Each kind with the number of its events and the latest of them. *)
Lemma log_stats_exact es k :
  fold_left count_event es ∅ !! k
  = match of_kind k es with [] => None | l => Some (Z.of_nat (length l), latest l) end.
Proof.
  induction es as [|e es IH] using rev_ind; [done|]. rewrite fold_left_app. cbn. unfold count_event at 1, of_kind.
  rewrite List.filter_app. cbn. destruct (String.eqb_spec (ev_kind e) k) as [<-|Hne].
  - rewrite lookup_insert_eq, IH. fold (of_kind (ev_kind e) es). destruct (of_kind (ev_kind e) es) as [|e0 l]; cbn; [done|].
    f_equal. f_equal; [rewrite length_app; cbn; lia|]. unfold latest. cbn. by rewrite map_app, fold_left_app.
  - by rewrite lookup_insert_ne, app_nil_r.
Qed.

(** ** Registration *)

Lemma register_new_spec {A} runtime (state : gmap string (Registered A)) functions name :
  register_new runtime state functions !! name
  = match state !! name with
    | Some f => Some f
    | None => (fun e => Ours e.2 runtime) <$> last (filter (fun e => e.1 = name) functions)
    end.
Proof.
  unfold register_new. induction functions as [|e fs IH] using rev_ind; cbn; [by destruct (state !! name)|].
  rewrite fold_left_app, filter_app, filter_cons, filter_nil. cbn [fold_left]. destruct (decide (e.1 = name)) as [<-|Hne].
  - rewrite last_snoc. destruct (state !! e.1) eqn:Hs; [by rewrite IH|]. cbn. by rewrite lookup_insert_eq.
  - rewrite app_nil_r, <- IH. destruct (state !! e.1); [done|]. by rewrite lookup_insert_ne.
Qed.
(** A session keeps every function it has, and registering again changes nothing. *)
Lemma register_keeps runtime f name fn :
  table_functions f !! name = Some fn -> table_functions (register runtime f) !! name = Some fn.
Proof. intros Hn. unfold register. cbn [table_functions]. by rewrite register_new_spec, Hn. Qed.
Lemma register_again runtime runtime' f : register runtime' (register runtime f) = register runtime f.
Proof.
  unfold register. cbn [table_functions scalar_functions]. generalize diagnostics_functions, diagnostics_scalars. intros fs ss.
  f_equal; apply map_eq; intros name; rewrite (register_new_spec runtime'); destruct (register_new _ _ _ !! name) eqn:Hs;
    try done; rewrite register_new_spec in Hs; destruct (_ !! name); try done;
    by destruct (last (filter _ _)).
Qed.

(** ** What the tables do not say *)

(** A bound nobody reported is shown under the other bound's name. *)
Lemma unknown_bound_moves s : normalize_row (Some s) None "VARCHAR" = (None, Some (truncate s)).
Proof. done. Qed.
(** Durable entries have a hit count, 0. *)
Lemma durable_hits_zero try_new caches disk b :
  (forall schema columns, try_new schema columns = Ok (mkBatch schema columns)) ->
  durable_or caches du_entries [] = Ok disk -> duckdb_cache_entries try_new caches = Ok b ->
  column_by_name b "hits" = Some (uint64_array (map me_hits (ca_entries caches) ++ map (fun _ => 0) disk)).
Proof. intros Hnew Hdisk. unfold duckdb_cache_entries. rewrite Hdisk. cbn. rewrite Hnew. by intros [= <-]. Qed.

(** ** One attached catalog *)

Module Shown.
Definition checked (schema : list Field) (columns : list Array) : result RecordBatch :=
  if fits schema columns then Ok (mkBatch schema columns) else Err (ArrowError "the columns do not fit the schema").
Definition caches : Caches := mkCaches (mkCacheStats 0 0 0 0 0 0 0 0 0 0 0) [] 0 0 None.
Definition people : TableInfo := mkTableInfo "people" ["main"] [] [] false None None [] [].
Definition declared (alias : string) : Declared :=
  mkDeclared "worker" None [] None None [] [people] [] [] [] [] "" [] [].
Definition runtime : @VgiRuntime unit Branches :=
  set_catalog_metadata (emit (new_runtime true 8 (mkLimits 64 256 10 5) false) (mkEvent (-5) "cache.hit" (Some "cat") None None (Some 7000000) None))
    "cat" (mkMetadata "people-worker" [] ∅).
Definition worker : Worker :=
  mkWorker (fun _ => Ok tt) (fun _ table => Some (mkBranches [mkBranch ("read_" +:+ ti_name table) None true] [])).
Definition unreachable : Worker := mkWorker (fun _ => Err (External "connection refused")) (fun _ _ => None).
Definition diagnose (kind : DiagnosticsKind) :=
  call_with_args checked (fun _ => "type") (fun _ => "scalar") (fun _ => inl []) ["cat"] declared caches (fun _ => "[]") (fun r => inl r)
    (fun _ => inr "no definition") (fun _ => inl "sql") (fun _ => inr "no key") (fun _ => inr "no object") kind worker [] runtime.
Definition fetched := vgi_table_branches checked ["cat"] declared worker runtime.
Definition known : @VgiRuntime unit Branches := fetched.1.
Definition table : RecordBatch := match fetched.2 with Ok b => b | Err _ => mkBatch [] [] end.
Lemma checked_lawful : lawful checked.
Proof. intros schema columns Hf. unfold checked. by rewrite Hf. Qed.
End Shown.

(** The names ATTACH registers are those of these functions. *)
Lemma diagnostics_keys_functions :
  Registry.diagnostics_keys = map (fun e => (FTable, e.1)) diagnostics_functions ++ map (fun e => (FScalar, e.1)) diagnostics_scalars.
Proof. reflexivity. Qed.

Lemma diagnostics_tables_fit_witness :
  lawful Shown.checked /\
  exists b, (Shown.diagnose KLogs).2 = Ok b /\ num_rows b = 1%nat /\ fits (rb_schema b) (rb_columns b) = true.
Proof.
  split; [exact Shown.checked_lawful|]. eexists. split; [vm_compute; reflexivity|]. split; [reflexivity|].
  eapply (proj1 (diagnostics_tables_fit (fun _ => "type") (fun _ => "scalar") (fun _ => inl []) ["cat"] Shown.declared Shown.caches
    (fun _ => "[]") (fun r => inl r) (fun _ => inr "no definition") (fun _ => inl "sql") (fun _ => inr "no key")
    (fun _ => inr "no object") (fun _ _ => Ok ScalarNull) (fun _ => "") (fun _ => "") (fun _ => inl (mkBatch [] []))
    (fun _ _ _ => Ok (mkBatch [] [])) (fun _ => inl []) (fun _ => Ok []) Shown.checked Shown.checked_lawful)
    KLogs Shown.worker [] Shown.runtime).
  vm_compute. reflexivity.
Defined.

Lemma branches_fetched_once_witness :
  NoDup ["cat"] /\ num_rows Shown.table = 1%nat /\
  vgi_table_branches Shown.checked ["cat"] Shown.declared Shown.unreachable Shown.runtime
    = (Shown.runtime, Err (External "connection refused")) /\
  vgi_table_branches Shown.checked ["cat"] Shown.declared Shown.unreachable Shown.known = (Shown.known, Ok Shown.table).
Proof.
  assert (Hnd : NoDup ["cat"]) by (apply NoDup_singleton). split; [exact Hnd|]. split; [vm_compute; reflexivity|].
  split; [vm_compute; reflexivity|].
  refine (proj2 (proj2 (branches_fetched_once Shown.checked ["cat"] Shown.declared Shown.worker Shown.runtime Shown.known Shown.table Hnd _)) _ _).
  - vm_compute. reflexivity.
  - intros c t Hc Ht. exists (mkBranches [mkBranch ("read_" +:+ ti_name t) None true] []). reflexivity.
Defined.
